(* ===== verification/_CoqProject ===== *)
-Q . S2P
Prelude.v
Version.v
Snapshot.v
Command.v
Redaction.v
Process.v
Posix.v
Child.v
Runner.v
Endpoint.v
Capabilities.v
Layout.v
Commands.v
Backend.v
Control.v
Wake.v
CompletionQueue.v
NotificationStream.v
OperationState.v
Operations.v
Transport.v
Roster.v
Closing.v
ProcessEngine.v
EngineProofs.v
EngineTransport.v
Runtime.v
RuntimeBooks.v
RuntimeLane.v
RuntimeProofs.v
RuntimeClose.v
CommandEngine.v
Filter.v
Naming.v
Options.v
EntityData.v
FilterJson.v
Acquire.v
Entities.v
Calls.v
BreakOut.v
ServerOps.v
Connection.v
Executor.v
Wait.v
Sessions.v
Connect.v
