(* ===== verification/Prelude.v ===== *)
(** * A verification of libtmux for C++

    libtmux drives the terminal multiplexer tmux from C++: it builds tmux command lines,
    runs them through a subprocess or over a control-mode connection, and turns what tmux
    prints into values.  This library models its core as Rocq definitions that run, and
    proves what each part promises to the next.

    ** The parts and how they meet

    A caller calls an operation of an entity (a session, a window, a pane, a buffer, a
    client).  The operation may refuse; otherwise it builds a command, a list of words
    some of which are secret.  The backend escapes the words, checks the command against
    the daemon's release where a release is known to act wrongly on it, runs it and reads
    the reply; a failure says how far the command got, and no message of it holds a secret.
    A listing's reply is parsed in place into rows, and a row with its column names and its
    connection is an entity.  Filters choose among entities, in memory or, written as
    nodes, on the other side of a wire.  Over a control-mode connection replies and
    notifications come as a byte stream that a decoder cuts into blocks and events; events
    go into a bounded stream that any number of cursors read.  Asynchronous calls are
    operations that an engine with bounded admission runs on its workers, and that hand
    their completion to a queue which the caller's own loop runs.  Under the subprocess
    backend tmux itself is a child process: the blocking runner and the process engine
    create it, read it, end it when they must, and collect it.

    ** Files

    Each file opens with the sources it models; definitions keep the sources' names.

    - Prelude: bytes, [expected], numerals, searches in texts, tactics.
    - Version ([version.hpp]): tmux versions, their order, parser and printer.
    - Snapshot ([snapshot.hpp], [snapshot.cpp]): the format request of a listing, rows of
      the reply, values decoded in place in the reply's own buffer.
    - Command ([command.hpp], [delivery.hpp], [batch.hpp]): arguments with secret parts,
      failures and how far delivery got, batches joined by separators.
    - Redaction ([backend.cpp]): secrets struck out of a text, bounded rendering.
    - Process ([process.hpp], [transport_values.hpp]): a request to run a program and its
      validation.
    - Posix: system calls as programs over an operating system that answers, the kernel's
      memory of what was done, the proof rule.
    - Child ([posix_child.cpp], [spawn_signals.hpp], [spawn_descriptors.cpp]): one child
      process with its group and its captured output.
    - Runner ([process.cpp]): running a process to its end, blocking.
    - Endpoint ([support_versions.cpp]): asking an endpoint which tmux it runs.
    - Capabilities ([support_capabilities.cpp]): which release has which workaround.
    - Layout ([layout.cpp]): window layouts, the legacy grammar and its JSON form, the
      checks a layout passes before a daemon sees it.
    - Commands ([support_commands.cpp]): how tmux reads a command line, and the guards on
      commands some releases crash on.
    - Backend ([backend.cpp]): the run of a command with all of this around it.
    - Control ([control.cpp]): the control-mode decoder, fed in pieces.
    - Wake, CompletionQueue ([completion_queue.cpp]), NotificationStream
      ([notification_stream.cpp]): a wake pipe, the queue of completions with its wake pipe
      and claims, the stream of notifications with its cursors.
    - OperationState ([operation_state.hpp]): one asynchronous operation between a source,
      an observer and cancellation.
    - Operations, Roster, Closing: what the two engines share, the admissions and the
      operations an engine holds, where each one is, and closing with several callers.
    - ProcessEngine, EngineProofs ([process_engine.cpp]): the launcher and the reactor over
      children and operations; their invariant and the theorems.
    - CommandEngine ([command_engine.cpp]): admission, workers and closing.
    - Transport, EngineTransport: what an engine is to the one who submits to it, and that the
      process engine is that.
    - Runtime ([async.cpp], [async.hpp]): the asynchronous interface over a transport, the
      completion queues and the callers' operations; RuntimeBooks: its ledger and its handles;
      RuntimeLane: the way of a completion; RuntimeProofs, RuntimeClose: what it promises.
    - Filter ([filter_expr.hpp], [lowering.hpp], [lowered_node.hpp], [relations.hpp],
      [cardinality.hpp]): filter expressions, their lowering to nodes and its reading.
    - Naming ([target.hpp], [keys.hpp], [format.hpp], [chain.hpp]): targets, key names,
      escapes of formats, chains of commands.
    - Options ([options.hpp], [capture.hpp]): option listings with their quoting, captured
      lines, the confirmation of typed input.
    - EntityData ([entities.hpp]): rows as entities, the handles that read columns,
      equality, hashing.
    - FilterJson ([filter_json.hpp] of the MCP server): nodes as JSON documents.
    - Acquire ([acquire.hpp], [snapshot.cpp], [backend.hpp]): the backend as an interface
      and programs over it; listings, single objects, expansions.
    - Entities ([entities.cpp]): every operation.
    - Calls: what the operations send, as tmux reads it.
    - BreakOut ([entities.cpp]): breaking a pane out into a window, with the repair of a
      window a release left behind.
    - ServerOps ([server.cpp], [socket.hpp]): the server-wide operations and the selectors
      of a server's socket.
    - Executor ([server.cpp]): a server over a caller's executor, and the executor that
      sends over control connections.
    - Wait ([wait.cpp], [wait_capture.hpp]): waiting for a pane to print a text.
    - Connection, Sessions, Connect ([connection.cpp]): what a control connection writes and
      how it knows the end of a reply; its reader, its callers and its shutdown as actions
      that interleave; opening one, and the range over its notifications.

    A file's client is proved against an interface where there is one: [Backend] in
    Acquire is a class of handlers, and whatever [wp] shows of a program holds of its run
    on every instance; [Json] with [JsonLaws] in FilterJson is what a JSON library
    promises; [Sink] in Filter is what a visitor of filters is told; [OS] in Posix is the
    operating system, [PromptOS] one that keeps nobody waiting; [Stoppable] in Closing is
    what closing asks of an engine; [Transport] is what an engine owes the asynchronous
    interface.

    ** What is shown

    - Texts and what is read of them: versions, listings, control output, options,
      formats, batches, nodes and numbers read back as what was written.
    - In place and in pieces: decoding a value in its own buffer equals decoding a copy
      and writes nowhere else; how a control stream is cut into pieces decides nothing but
      which events come before an error.
    - Refinements: the completion queue is a queue in order of arrival with its wake pipe
      readable exactly when there is something; the snapshot parser is the simple
      specification of the format; an operation sends what it is named for, whatever text
      the caller gives short of a lone separator of commands.
    - Safety: secrets do not appear in messages; a run is refused exactly for the commands
      a release would act wrongly on, and sent behind a fence to the daemon that was asked;
      an answer about another object is not taken for the one expected; an operation across two servers sends nothing.
    - Processes: whatever the system answers, a run and an engine collect every child or
      know it lost, close every descriptor, signal no process that is no longer theirs and
      fail no assertion; a reply is what the child wrote; a failure says that nothing was
      started exactly when nothing was.
    - Concurrency, as steps of several parties interleaved in any order: an operation
      completes once and its completion is not lost; an engine's admissions are bounded,
      commands start in the order they were accepted, a stopping engine is never stuck and
      comes to rest, and its report is the truth; a control connection gives each request its
      own replies, says truly how far a failed one got, keeps requests whole on the wire,
      and every call on it ends; the asynchronous interface counts exactly, sleeps on no
      completion, gives each caller the answer of its own command, ends its thread, and what
      closing it reports stays true.
    - Errors: each failure's kind and how far delivery got.
    - Findings: what the code does against what it means to; the manifest names the
      places, and the theorem where one shows it.

    ** Bounds and conventions

    A text is a list of bytes.  Numbers of fixed width carry their width where the code
    can reach it: version fields, exit codes, numerals read by [from_chars], layout
    dimensions and function keys.  Counters that would need [2^64] steps to wrap (tokens,
    sequence numbers, cursors) are unbounded naturals.  Loops over a text take fuel one
    greater than its length, and lemmas show that this is enough (each step consumes a
    byte); the JSON reader of layouts takes the text's length and its depth limit; joined
    requests take the number of commands.  Loops that call the system take a [fuel]; the
    theorems about what a run does hold for every fuel, and those that say it ends give one
    that is enough on a system that keeps nobody waiting.  Times are nanoseconds on an
    unbounded clock that never goes back.  Threads are steps of a relation with the lock's
    critical sections as single steps; memory order beyond that is not modelled.

    ** Not modelled

    The Windows build (psmux routing and its processes): the POSIX branch of each function
    is the one translated, with the refusals a psmux server calls for.  The platform itself:
    what system calls answer is a parameter, with the documented ranges as its laws; socket
    identities and a child's environment are strings handed to it.  What is done when an
    allocation or a caller's function throws, in the engines and in the asynchronous interface,
    and the fault injection of their tests.
    The applications and tools above the library (the MCP server, the workspace manager, the
    matrix runner, the configuration tools), other than the filters the MCP server reads:
    they are clients of the operations, over JSON, YAML and protocol libraries. *)

From stdpp Require Export base tactics list gmap strings numbers option fin_maps.
From Stdlib Require Export Ascii NArith ZArith Lia.

Abbreviation text := (list ascii).

(** Literal byte strings are written as Rocq strings. *)
Definition txt (s : string) : text := String.list_ascii_of_string s.

#[global] Arguments txt s%_string.

(** * Values or errors *)

Inductive expected (E A : Type) : Type :=
  | Value (a : A)
  | Unexpected (e : E).
Arguments Value {E A} a.
Arguments Unexpected {E A} e.

#[export] Instance expected_ret {E} : MRet (expected E) := fun A a => Value a.
#[export] Instance expected_bind {E} : MBind (expected E) := fun A B f m =>
  match m with
  | Value a => f a
  | Unexpected e => Unexpected e
  end.
#[export] Instance expected_fmap {E} : FMap (expected E) := fun A B f m =>
  match m with
  | Value a => Value (f a)
  | Unexpected e => Unexpected e
  end.

Lemma expected_bind_value {E A B} (f : A -> expected E B) (m : expected E A) (v : B) :
  m ≫= f = Value v -> exists a, m = Value a /\ f a = Value v.
Proof. destruct m; [by eauto | done]. Qed.

Lemma bind_Some_inv {A B} (f : A -> option B) (m : option A) b :
  m ≫= f = Some b -> exists a, m = Some a /\ f a = Some b.
Proof. destruct m as [a|]; [by eauto | done]. Qed.

(** * Lists *)

Lemma lookup_split {A} (l : list A) i x :
  l !! i = Some x -> exists l1 l2, l = l1 ++ x :: l2 /\ forall y, <[i := y]> l = l1 ++ y :: l2.
Proof.
  intros H. exists (take i l), (drop (S i) l). split.
  - symmetry. by apply take_drop_middle.
  - intros y. apply insert_take_drop. by eapply lookup_lt_Some.
Qed.

Lemma sum_insert {A} (f : A -> nat) (l : list A) i x y :
  l !! i = Some x -> sum_list_with f (<[i := y]> l) + f x = sum_list_with f l + f y.
Proof.
  intros (l1 & l2 & -> & Hy)%lookup_split. rewrite Hy, !sum_list_with_app. cbn. lia.
Qed.

(** * Characters *)

Definition byte_of (c : ascii) : N := N_of_ascii c.

Definition is_digit (c : ascii) : bool :=
  ((48 <=? byte_of c) && (byte_of c <=? 57))%N.
Definition digit_value (c : ascii) : N := (byte_of c - 48)%N.
Definition digit_char (n : N) : ascii := ascii_of_N (48 + n).

Lemma is_digit_spec c : is_digit c = true <-> (48 <= byte_of c <= 57)%N.
Proof. unfold is_digit. rewrite andb_true_iff, !N.leb_le. done. Qed.

Lemma digit_char_byte n : (n < 10)%N -> byte_of (digit_char n) = (48 + n)%N.
Proof. intros H. unfold byte_of, digit_char. apply N_ascii_embedding. lia. Qed.

Lemma digit_char_digit n : (n < 10)%N -> is_digit (digit_char n) = true.
Proof. intros H. apply is_digit_spec. rewrite digit_char_byte; lia. Qed.

Lemma digit_char_value n : (n < 10)%N -> digit_value (digit_char n) = n.
Proof. intros H. unfold digit_value. rewrite digit_char_byte; lia. Qed.

Lemma digit_value_lt c : is_digit c = true -> (digit_value c < 10)%N.
Proof. rewrite is_digit_spec. unfold digit_value. lia. Qed.

Lemma digit_char_of_value c : is_digit c = true -> digit_char (digit_value c) = c.
Proof.
  rewrite is_digit_spec. unfold digit_char, digit_value, byte_of. intros H.
  replace (48 + (N_of_ascii c - 48))%N with (N_of_ascii c) by lia.
  apply ascii_N_embedding.
Qed.

(** * Searching byte strings, as [std::string_view] does *)

Fixpoint starts_with (p s : text) : bool :=
  match p, s with
  | [], _ => true
  | a :: p', c :: s' => bool_decide (a = c) && starts_with p' s'
  | _ :: _, [] => false
  end.

(** [s.find(n)]: the first offset at which [n] occurs. *)
Fixpoint find_sub (n s : text) : option nat :=
  if starts_with n s then Some 0
  else match s with
       | [] => None
       | _ :: s' => S <$> find_sub n s'
       end.

Definition find_char (c : ascii) (s : text) : option nat := find_sub [c] s.

(** [s.find(n, pos)]: [npos] when [pos] is past the end. *)
Definition find_from (n s : text) (pos : nat) : option nat :=
  if (pos <=? length s)%nat then Nat.add pos <$> find_sub n (drop pos s) else None.

(** [s.find_first_of(set)]. *)
Fixpoint find_first_of (set s : text) : option nat :=
  match s with
  | [] => None
  | c :: s' => if bool_decide (c ∈ set) then Some 0 else S <$> find_first_of set s'
  end.

(** [s.substr(0, i)] when [i] may be [npos]. *)
Definition prefix_to (i : option nat) (s : text) : text :=
  match i with Some n => take n s | None => s end.

Definition ends_with_char (c : ascii) (s : text) : bool :=
  match last s with Some d => bool_decide (d = c) | None => false end.

Lemma ends_with_char_snoc c s d : ends_with_char c (s ++ [d]) = bool_decide (d = c).
Proof. unfold ends_with_char. by rewrite last_snoc. Qed.

Lemma starts_with_spec p s : starts_with p s = true <-> exists r, s = p ++ r.
Proof.
  revert s. induction p as [|a p IH]; intros s; simpl; [naive_solver|].
  destruct s as [|c s]; [split; [done | intros [r ?]; done]|].
  rewrite andb_true_iff, bool_decide_eq_true, IH. naive_solver.
Qed.

Lemma starts_with_app p r : starts_with p (p ++ r) = true.
Proof. apply starts_with_spec. eauto. Qed.

Lemma starts_with_false p s : starts_with p s = false <-> ~ exists r, s = p ++ r.
Proof. rewrite <-starts_with_spec. destruct (starts_with p s); naive_solver. Qed.

Lemma starts_with_nil_inv p : starts_with p [] = true -> p = [].
Proof. by destruct p. Qed.

Lemma find_sub_Some n s i :
  find_sub n s = Some i <->
  (exists p r, s = p ++ n ++ r /\ length p = i) /\
  (forall j, j < i -> starts_with n (drop j s) = false).
Proof.
  revert i. induction s as [|c s IH]; intros i; simpl.
  - destruct (starts_with n []) eqn:E.
    + apply starts_with_nil_inv in E as ->. split.
      * intros [= <-]. split; [by exists [], [] | lia].
      * intros [(p & r & Heq & <-) _]. by destruct p.
    + split; [done|]. intros [(p & r & Heq & <-) _]. exfalso.
      apply starts_with_false in E. destruct p; [|done]. naive_solver.
  - destruct (starts_with n (c :: s)) eqn:E.
    + split.
      * intros [= <-]. apply starts_with_spec in E as [r ->].
        split; [by exists [], r | lia].
      * intros [_ Hmin]. destruct i as [|i]; [done|].
        specialize (Hmin 0 ltac:(lia)). simpl in Hmin. congruence.
    + rewrite fmap_Some. split.
      * intros (k & Hk & ->). apply IH in Hk as [(p & r & -> & <-) Hmin].
        split; [by exists (c :: p), r|].
        intros [|j] Hj; simpl; [done|]. apply Hmin. lia.
      * intros [(p & r & Heq & <-) Hmin]. destruct p as [|c' p].
        { exfalso. apply starts_with_false in E. naive_solver. }
        simplify_eq/=. exists (length p). split; [|done]. apply IH. split; [eauto|].
        intros j Hj. apply (Hmin (S j)). lia.
Qed.

Lemma find_sub_None n s :
  find_sub n s = None <-> forall j, starts_with n (drop j s) = false.
Proof.
  induction s as [|c s IH]; simpl.
  - destruct (starts_with n []) eqn:E.
    + split; [done|]. intros H. specialize (H 0). simpl in H. congruence.
    + split; [|done]. intros _ j. by rewrite drop_nil.
  - destruct (starts_with n (c :: s)) eqn:E.
    + split; [done|]. intros H. specialize (H 0). simpl in H. congruence.
    + rewrite fmap_None, IH. split.
      * intros H [|j]; simpl; [done | apply H].
      * intros H j. apply (H (S j)).
Qed.

Lemma find_sub_skip n c s :
  starts_with n (c :: s) = false -> find_sub n (c :: s) = S <$> find_sub n s.
Proof. intros H. unfold find_sub at 1. by rewrite H. Qed.

Lemma find_sub_bound n s i : find_sub n s = Some i -> i + length n <= length s.
Proof.
  intros [(p & r & -> & <-) _]%find_sub_Some. rewrite !length_app. lia.
Qed.

Lemma find_char_Some c s i :
  find_char c s = Some i <-> s = take i s ++ c :: drop (S i) s /\ c ∉ take i s.
Proof.
  unfold find_char. rewrite find_sub_Some. split.
  - intros [(p & r & -> & <-) Hmin]. rewrite take_app_length. split.
    + rewrite drop_app_ge, Nat.sub_succ_l, Nat.sub_diag by lia. done.
    + intros (j & Hj)%list_elem_of_lookup.
      assert (j < length p) as Hlt by by eapply lookup_lt_Some.
      specialize (Hmin j Hlt). apply starts_with_false in Hmin. apply Hmin.
      exists (drop (S j) p ++ [c] ++ r).
      rewrite drop_app_le by lia. rewrite (drop_S _ _ _ Hj). done.
  - intros [Heq Hnin]. split.
    + exists (take i s), (drop (S i) s). split; [done|].
      apply (f_equal length) in Heq. rewrite length_app in Heq. simpl in Heq.
      rewrite length_take, length_drop in *. lia.
    + intros j Hj. apply starts_with_false. intros [r Hr]. apply Hnin.
      apply list_elem_of_lookup. exists j. rewrite lookup_take_lt by done.
      rewrite <-(Nat.add_0_r j), <-lookup_drop, Hr. done.
Qed.

Lemma find_char_app c p r : c ∉ p -> find_char c (p ++ c :: r) = Some (length p).
Proof.
  intros H. apply find_char_Some. rewrite take_app_length, drop_app_ge by lia.
  rewrite Nat.sub_succ_l, Nat.sub_diag by lia. done.
Qed.

Lemma find_char_None c s : find_char c s = None <-> c ∉ s.
Proof.
  unfold find_char. rewrite find_sub_None. split.
  - intros H (j & Hj)%list_elem_of_lookup. specialize (H j).
    rewrite (drop_S _ _ _ Hj) in H. simpl in H. by rewrite bool_decide_true in H.
  - intros Hnin j. apply starts_with_false. intros [r Hr]. apply Hnin.
    apply list_elem_of_lookup. exists j.
    rewrite <-(Nat.add_0_r j), <-lookup_drop, Hr. done.
Qed.

Lemma find_first_of_None set s : find_first_of set s = None <-> Forall (fun c => c ∉ set) s.
Proof.
  induction s as [|c s IH]; simpl; [by split|].
  case_bool_decide.
  - split; [done|]. rewrite Forall_cons. naive_solver.
  - rewrite fmap_None, Forall_cons, IH. naive_solver.
Qed.

Lemma find_first_of_app set p c r :
  Forall (fun d => d ∉ set) p -> c ∈ set ->
  find_first_of set (p ++ c :: r) = Some (length p).
Proof.
  induction 1 as [|d p Hd Hp IH]; intros Hc; simpl.
  - by rewrite bool_decide_true.
  - rewrite bool_decide_false by done. by rewrite IH.
Qed.

(** * Decimal numerals

    [digits_loop max out s] is the accumulating loop that the version, layout
    and control parsers share: it stops at the first byte that is not a digit
    and refuses before the accumulator can pass [max]. *)

Definition u16_max : N := 65535.
Definition u32_max : N := 4294967295.
Definition u64_max : N := 18446744073709551615.

Fixpoint digits_loop (max out : N) (s : text) : option N :=
  match s with
  | [] => Some out
  | c :: s' =>
      if is_digit c then
        if ((max - digit_value c) / 10 <? out)%N then None
        else digits_loop max ((out * 10 + digit_value c) mod (max + 1)) s'
      else None
  end.

(** The mathematical value of a numeral that starts at [acc]. *)
Definition digits_value (acc : N) (s : text) : N :=
  foldl (fun a c => (a * 10 + digit_value c)%N) acc s.

Lemma digits_value_ge acc s : (acc <= digits_value acc s)%N.
Proof.
  revert acc. induction s as [|c s IH]; intros acc; simpl; [done|].
  specialize (IH (acc * 10 + digit_value c)%N). unfold digits_value in *. lia.
Qed.

(** The guard is exact: the loop answers the value when it is at most [max],
    and nothing otherwise. *)
Lemma digits_loop_exact max out s :
  (9 <= max)%N -> (out <= max)%N ->
  digits_loop max out s =
    if forallb is_digit s && (digits_value out s <=? max)%N
    then Some (digits_value out s) else None.
Proof.
  intros Hmax. revert out. induction s as [|c s IH]; intros out Hout; simpl.
  { assert (out <=? max = true)%N as -> by by apply N.leb_le. done. }
  destruct (is_digit c) eqn:Hd; simpl; [|done].
  pose proof (digit_value_lt c Hd) as Hv.
  assert (((max - digit_value c) / 10 <? out)%N = negb (out * 10 + digit_value c <=? max)%N)
    as ->.
  { pose proof (N.div_mod (max - digit_value c) 10 ltac:(lia)) as Hdm.
    pose proof (N.mod_lt (max - digit_value c) 10 ltac:(lia)).
    destruct (N.leb_spec (out * 10 + digit_value c) max); simpl.
    - apply N.ltb_ge. apply N.div_le_lower_bound; lia.
    - apply N.ltb_lt. apply N.Div0.div_lt_upper_bound; lia. }
  destruct (N.leb_spec (out * 10 + digit_value c) max); simpl.
  - rewrite N.mod_small by lia. rewrite IH by done. done.
  - pose proof (digits_value_ge (out * 10 + digit_value c) s) as Hge.
    fold (digits_value (out * 10 + digit_value c) s).
    assert (digits_value (out * 10 + digit_value c) s <=? max = false)%N as ->
      by (apply N.leb_gt; lia).
    by rewrite andb_false_r.
Qed.

(** The canonical numeral of a number, without leading zeros. *)
Fixpoint dec_loop (fuel : nat) (n : N) (acc : text) : text :=
  match fuel with
  | 0 => acc
  | S fuel' =>
      let acc' := digit_char (n mod 10) :: acc in
      if (n <? 10)%N then acc' else dec_loop fuel' (n / 10) acc'
  end.
Definition dec (n : N) : text := dec_loop (S (N.to_nat (N.log2 n))) n [].

Lemma digits_value_app acc s t :
  digits_value acc (s ++ t) = digits_value (digits_value acc s) t.
Proof. apply foldl_app. Qed.

Lemma dec_loop_spec fuel n acc :
  (n < 2 ^ N.of_nat fuel)%N -> 0 < fuel ->
  exists ds, dec_loop fuel n acc = ds ++ acc /\ ds <> [] /\
             forallb is_digit ds = true /\ digits_value 0 ds = n.
Proof.
  revert n acc. induction fuel as [|fuel IH]; intros n acc Hn Hf; [lia|].
  cbn [dec_loop]. assert (n mod 10 < 10)%N by by apply N.mod_lt.
  destruct (N.ltb_spec n 10) as [Hlt|Hge].
  - exists [digit_char (n mod 10)]. rewrite N.mod_small by done.
    split_and!; [done | done | simpl; by rewrite digit_char_digit |].
    unfold digits_value. simpl. by rewrite digit_char_value.
  - rewrite Nat2N.inj_succ, N.pow_succ_r' in Hn.
    destruct fuel as [|fuel]; [simpl in Hn; lia|].
    destruct (IH (n / 10)%N (digit_char (n mod 10) :: acc)) as (ds & Heq & Hne & Hd & Hv).
    { apply N.Div0.div_lt_upper_bound. lia. }
    { lia. }
    exists (ds ++ [digit_char (n mod 10)]). rewrite Heq, <-app_assoc. split_and!.
    + done.
    + by destruct ds.
    + rewrite forallb_app, Hd. simpl. by rewrite digit_char_digit.
    + rewrite digits_value_app, Hv. unfold digits_value. simpl.
      rewrite digit_char_value by done. pose proof (N.div_mod n 10 ltac:(lia)). lia.
Qed.

Lemma dec_spec n :
  dec n <> [] /\ forallb is_digit (dec n) = true /\ digits_value 0 (dec n) = n.
Proof.
  destruct (dec_loop_spec (S (N.to_nat (N.log2 n))) n []) as (ds & Heq & H); [|lia|].
  - rewrite Nat2N.inj_succ, N2Nat.id. destruct (N.eq_0_gt_0_cases n) as [->|Hpos]; [done|].
    apply N.log2_spec. lia.
  - unfold dec. rewrite Heq, app_nil_r. done.
Qed.

Lemma digits_loop_dec max n :
  (9 <= max)%N -> (n <= max)%N -> digits_loop max 0 (dec n) = Some n.
Proof.
  intros Hmax Hn. destruct (dec_spec n) as (_ & Hd & Hv).
  rewrite digits_loop_exact, Hd, Hv by lia. simpl.
  by assert (n <=? max = true)%N as -> by by apply N.leb_le.
Qed.

(** [span p s]: the longest prefix of bytes that satisfy [p], and the rest. *)
Fixpoint span (p : ascii -> bool) (s : text) : text * text :=
  match s with
  | [] => ([], [])
  | c :: s' => if p c then let '(a, r) := span p s' in (c :: a, r) else ([], s)
  end.

Lemma span_app p a r :
  forallb p a = true ->
  match r with [] => True | c :: _ => p c = false end ->
  span p (a ++ r) = (a, r).
Proof.
  induction a as [|c a IH]; simpl.
  - intros _ Hr. destruct r as [|c r]; [done|]. simpl. by rewrite Hr.
  - intros [Hc Ha]%andb_true_iff Hr. rewrite Hc, IH by done. done.
Qed.

Lemma span_spec p s a r :
  span p s = (a, r) ->
  s = a ++ r /\ forallb p a = true /\ match r with [] => True | c :: _ => p c = false end.
Proof.
  revert a r. induction s as [|c s IH]; simpl; intros a r H; [by simplify_eq|].
  destruct (p c) eqn:Hc; [|by simplify_eq].
  destruct (span p s) as [a' r'] eqn:E. simplify_eq/=.
  destruct (IH _ _ eq_refl) as (-> & Ha & Hr). by rewrite Hc, Ha.
Qed.

(** * Rewriting a byte string token by token

    [rewrite_tokens f s] reads [s] from the left: where [f] recognises a token it
    emits the replacement and skips the bytes [f] says, elsewhere it copies one
    byte.  Substitutions and escapes of one byte string into another are
    instances. *)

Fixpoint rewrite_loop (f : text -> option (text * nat)) (fuel : nat) (s : text) : text :=
  match fuel, s with
  | 0, _ | _, [] => []
  | S fuel', c :: s' =>
      match f s with
      | Some (rep, k) => rep ++ rewrite_loop f fuel' (drop k s)
      | None => c :: rewrite_loop f fuel' s'
      end
  end.

Definition rewrite_tokens (f : text -> option (text * nat)) (s : text) : text :=
  rewrite_loop f (length s) s.

Section rewrite_tokens.
Variable f : text -> option (text * nat).
Hypothesis f_skips : forall s rep k, f s = Some (rep, k) -> 0 < k.

Lemma rewrite_loop_fuel fuel fuel' s :
  length s <= fuel -> length s <= fuel' -> rewrite_loop f fuel s = rewrite_loop f fuel' s.
Proof.
  revert fuel' s. induction fuel as [|fuel IH]; intros fuel' [|c s]; simpl;
    try (by destruct fuel'); try lia.
  intros H1 H2. destruct fuel' as [|fuel']; simpl; [lia|].
  destruct (f (c :: s)) as [[rep k]|] eqn:E.
  - f_equal. apply f_skips in E. apply IH; rewrite length_drop; simpl; lia.
  - f_equal. apply IH; lia.
Qed.

Lemma rewrite_tokens_nil : rewrite_tokens f [] = [].
Proof. done. Qed.

Lemma rewrite_tokens_copy c s :
  f (c :: s) = None -> rewrite_tokens f (c :: s) = c :: rewrite_tokens f s.
Proof. intros H. unfold rewrite_tokens. simpl. by rewrite H. Qed.

Lemma rewrite_tokens_token s rep k :
  s <> [] -> f s = Some (rep, k) -> rewrite_tokens f s = rep ++ rewrite_tokens f (drop k s).
Proof.
  intros Hne H. unfold rewrite_tokens. destruct s as [|c s]; [done|]. cbn [length rewrite_loop].
  rewrite H. f_equal. apply f_skips in H.
  apply rewrite_loop_fuel; rewrite length_drop; simpl; lia.
Qed.
End rewrite_tokens.

(** [replace_all old new s]: every leftmost occurrence of [old] becomes [new]. *)
Definition replace_token (old new s : text) : option (text * nat) :=
  if starts_with old s then Some (new, length old) else None.
Definition replace_all (old new s : text) : text := rewrite_tokens (replace_token old new) s.

(** The length of a string is a measure for induction on tokens. *)
Lemma text_length_ind (P : text -> Prop) :
  (forall s, (forall t, length t < length s -> P t) -> P s) -> forall s, P s.
Proof.
  intros IH s. remember (length s) as n eqn:Hn. revert s Hn.
  induction n as [n IHn] using lt_wf_ind. intros s ->. apply IH. intros t Ht. by eapply IHn.
Qed.

(** * Hints and tactics of the development *)

#[global] Arguments starts_with : simpl never.
#[global] Arguments find_sub : simpl never.
#[global] Arguments txt : simpl never.
#[global] Arguments digits_loop : simpl never.

Create HintDb tmux.
#[export] Hint Resolve digit_char_digit digit_char_value starts_with_app : tmux.

(** Split every conditional and match of the goal and of the hypotheses, keeping
    the equations, and close the branches that contradict each other. *)
Ltac split_cases :=
  repeat first
    [ progress simplify_eq/=
    | case_match
    | case_bool_decide ].

(** Turn boolean tests in the context into the propositions they decide. *)
Ltac to_props :=
  repeat match goal with
    | H : (_ && _) = true |- _ => apply andb_true_iff in H as [? ?]
    | H : (_ || _) = false |- _ => apply orb_false_iff in H as [? ?]
    | H : negb _ = true |- _ => apply negb_true_iff in H
    | H : negb _ = false |- _ => apply negb_false_iff in H
    | H : (_ <=? _)%N = true |- _ => apply N.leb_le in H
    | H : (_ <=? _)%N = false |- _ => apply N.leb_gt in H
    | H : (_ <? _)%N = true |- _ => apply N.ltb_lt in H
    | H : (_ <? _)%N = false |- _ => apply N.ltb_ge in H
    | H : (_ =? _)%N = true |- _ => apply N.eqb_eq in H
    | H : (_ =? _)%N = false |- _ => apply N.eqb_neq in H
    | H : (_ <=? _)%nat = true |- _ => apply Nat.leb_le in H
    | H : (_ <=? _)%nat = false |- _ => apply Nat.leb_gt in H
    | H : (_ <? _)%nat = true |- _ => apply Nat.ltb_lt in H
    | H : (_ <? _)%nat = false |- _ => apply Nat.ltb_ge in H
    | H : (_ =? _)%nat = true |- _ => apply Nat.eqb_eq in H
    | H : (_ =? _)%nat = false |- _ => apply Nat.eqb_neq in H
    | H : bool_decide _ = true |- _ => apply bool_decide_eq_true in H
    | H : bool_decide _ = false |- _ => apply bool_decide_eq_false in H
    end.
