(* ===== verification/Version.v ===== *)
(** tmux versions: [include/libtmux/version.hpp].

    The record, its ordering ([operator<=>], [operator==]), the parser of
    [tmux -V] and the supported floor.  The theorems: the ordering is a total
    order that agrees with equality on every version the parser can make, the
    parser inverts the rendering of every well-formed version and only makes
    well-formed ones, and release candidates rank between the [next-] build and
    the release. *)

From S2P Require Import Prelude.
Local Open Scope N_scope.

(** * Data *)

Inductive VersionError := missing_prefix | malformed.

Record Version := MkVersion {
  major : N;
  minor : N;
  revision : N;
  prerelease : bool;
  unbounded : bool;
  candidate : N;
}.

#[export] Instance Version_eq_dec : EqDecision Version.
Proof. solve_decision. Defined.

(** [Version version;] before any field is assigned. *)
Definition version_zero : Version := MkVersion 0 0 0 false false 0.

Definition with_major (n : N) (v : Version) : Version :=
  MkVersion n (minor v) (revision v) (prerelease v) (unbounded v) (candidate v).
Definition with_minor (n : N) (v : Version) : Version :=
  MkVersion (major v) n (revision v) (prerelease v) (unbounded v) (candidate v).
Definition with_revision (n : N) (v : Version) : Version :=
  MkVersion (major v) (minor v) n (prerelease v) (unbounded v) (candidate v).
Definition with_prerelease (p : bool) (v : Version) : Version :=
  MkVersion (major v) (minor v) (revision v) p (unbounded v) (candidate v).
Definition with_candidate (n : N) (v : Version) : Version :=
  MkVersion (major v) (minor v) (revision v) (prerelease v) (unbounded v) n.

(** * The ordering *)

(** The lambda [rank]: a release is the greatest of its candidates. *)
Definition rank (value : N) : N := if value =? 0 then u16_max else value.

Definition version_compare (v other : Version) : comparison :=
  if negb (Bool.eqb (unbounded v) (unbounded other)) then
    if unbounded v then Gt else Lt
  else match major v ?= major other with
  | Eq =>
    match minor v ?= minor other with
    | Eq =>
      match revision v ?= revision other with
      | Eq =>
        if negb (Bool.eqb (prerelease v) (prerelease other)) then
          if prerelease v then Lt else Gt
        else rank (candidate v) ?= rank (candidate other)
      | order => order
      end
    | order => order
    end
  | order => order
  end.

Definition version_eqb (v other : Version) : bool := bool_decide (v = other).

Definition version_ltb (v other : Version) : bool :=
  match version_compare v other with Lt => true | _ => false end.
(** [v >= other]. *)
Definition version_geb (v other : Version) : bool := negb (version_ltb v other).

(** * Parsing *)

(** The lambda [digits] of [parse_version]. *)
Definition digits (s : text) : option N :=
  match s with
  | [] => None
  | _ => digits_loop u32_max 0 s
  end.

Definition tmux_prefix : text := txt "tmux ".

(** The characters after the minor number. *)
Definition parse_suffix (version : Version) (suffix : text) : expected VersionError Version :=
  if bool_decide (suffix = []) then Value version
  else if prerelease version then Unexpected malformed
  else if starts_with (txt "-rc") suffix then
    if (length suffix =? 3)%nat then Value (with_candidate 1 version)
    else match digits (drop 3 suffix) with
         | Some candidate =>
             if negb (candidate =? 0) && (candidate <? u16_max)
             then Value (with_candidate (candidate mod (u16_max + 1)) version)
             else Unexpected malformed
         | None => Unexpected malformed
         end
  else if starts_with (txt ".") suffix then
    match digits (drop 1 suffix) with
    | Some revision => Value (with_revision revision version)
    | None => Unexpected malformed
    end
  else match suffix with
  | [c] =>
      if (byte_of c <? 97) || (122 <? byte_of c) then Unexpected malformed
      else Value (with_revision (byte_of c - 97 + 1) version)
  | _ => Unexpected malformed
  end.

Definition parse_version (output : text) : expected VersionError Version :=
  let output := prefix_to (find_first_of [ascii_of_N 13; ascii_of_N 10] output) output in
  if negb (starts_with tmux_prefix output) then Unexpected missing_prefix
  else
  let output := drop (length tmux_prefix) output in
  let '(version, output) :=
    if starts_with (txt "next-") output
    then (with_prerelease true version_zero, drop 5 output)
    else (version_zero, output) in
  match find_char "."%char output with
  | None | Some O => Unexpected malformed
  | Some dot =>
      match digits (take dot output) with
      | None => Unexpected malformed
      | Some major =>
          let rest := drop (S dot) output in
          let '(minor_digits, suffix) := span is_digit rest in
          match digits minor_digits with
          | None => Unexpected malformed
          | Some minor => parse_suffix (with_minor minor (with_major major version)) suffix
          end
      end
  end.

(** * The supported floor *)

Definition kMinimumSupported : Version := MkVersion 3 3 1 false false 0.
Definition kMinimumSupportedText : text := txt "3.3a".
Definition is_supported (version : Version) : bool := version_geb version kMinimumSupported.

(** * Specification: well-formed versions and their rendering *)

(** What tmux can report: fields at their widths, a candidate below the value
    that [rank] reserves for a release, and no patch on a development build. *)
Record wf_version (v : Version) : Prop := {
  wf_major : major v <= u32_max;
  wf_minor : minor v <= u32_max;
  wf_revision : revision v <= u32_max;
  wf_unbounded : unbounded v = false;
  wf_candidate : candidate v < u16_max;
  wf_one_suffix : revision v = 0 \/ candidate v = 0;
  wf_prerelease : prerelease v = true -> revision v = 0 /\ candidate v = 0;
}.

Definition render_suffix (v : Version) : text :=
  if negb (candidate v =? 0) then txt "-rc" ++ dec (candidate v)
  else if revision v =? 0 then []
  else if revision v <=? 26 then [ascii_of_N (97 + (revision v - 1))]
  else "."%char :: dec (revision v).

Definition render_version (v : Version) : text :=
  (if prerelease v then txt "next-" else []) ++
  dec (major v) ++ "."%char :: dec (minor v) ++ render_suffix v.

(** The lexicographic key the comparison orders by. *)
Definition version_key (v : Version) : list N :=
  [ if unbounded v then 1 else 0; major v; minor v; revision v;
    if prerelease v then 0 else 1; rank (candidate v) ].

Fixpoint lex (a c : list N) : comparison :=
  match a, c with
  | x :: a', y :: c' => match x ?= y with Eq => lex a' c' | o => o end
  | [], [] => Eq
  | [], _ => Lt
  | _, [] => Gt
  end.

Lemma lex_opp a c : lex c a = CompOpp (lex a c).
Proof.
  revert c. induction a as [|x a IH]; intros [|y c]; simpl; [done..|].
  rewrite (N.compare_antisym x y), IH. by destruct (x ?= y).
Qed.

Lemma lex_eq a c : lex a c = Eq <-> a = c.
Proof.
  revert c. induction a as [|x a IH]; intros [|y c]; simpl; [done..|].
  destruct (N.compare_spec x y) as [->|H|H].
  - rewrite IH. naive_solver.
  - split; [done|]. intros [= -> ->]. lia.
  - split; [done|]. intros [= -> ->]. lia.
Qed.

Lemma lex_trans a c d : lex a c = Lt -> lex c d = Lt -> lex a d = Lt.
Proof.
  revert c d. induction a as [|x a IH]; intros [|y c] [|z d]; simpl; try done.
  destruct (N.compare_spec x y) as [->|H|H], (N.compare_spec y z) as [->|H'|H'];
    try done; try (intros; by eapply IH).
  all: intros; first
    [ by rewrite N.compare_refl | by rewrite (proj2 (N.compare_lt_iff _ _)) by lia ].
Qed.

Lemma version_compare_lex v w : version_compare v w = lex (version_key v) (version_key w).
Proof.
  unfold version_compare, version_key. simpl.
  destruct (unbounded v), (unbounded w); simpl; try done;
  destruct (major v ?= major w), (minor v ?= minor w), (revision v ?= revision w);
    try done;
  destruct (prerelease v), (prerelease w); simpl; try done;
  by destruct (rank (candidate v) ?= rank (candidate w)).
Qed.

Lemma rank_inj a c : a < u16_max -> c < u16_max -> rank a = rank c -> a = c.
Proof.
  unfold rank, u16_max.
  destruct (N.eqb_spec a 0), (N.eqb_spec c 0); intros; subst; lia.
Qed.

Lemma version_key_inj v w :
  candidate v < u16_max -> candidate w < u16_max ->
  version_key v = version_key w -> v = w.
Proof.
  intros Hv Hw [= Hu Hma Hmi Hr Hp Hc]. apply rank_inj in Hc; [|done..].
  destruct v as [? ? ? [] [] ?], w as [? ? ? [] [] ?]; simpl in *; congruence.
Qed.

Example prerelease_below_candidate :
  version_compare (MkVersion 3 5 0 true false 0) (MkVersion 3 5 0 false false 1) = Lt.
Proof. reflexivity. Qed.
Example candidate_below_release :
  version_compare (MkVersion 3 5 0 false false 2) (MkVersion 3 5 0 false false 0) = Lt.
Proof. reflexivity. Qed.
Example parse_33a : parse_version (txt "tmux 3.3a") = Value kMinimumSupported.
Proof. reflexivity. Qed.
Example parse_next : parse_version (txt "tmux next-3.6") = Value (MkVersion 3 6 0 true false 0).
Proof. reflexivity. Qed.
Example parse_rc : parse_version (txt "tmux 3.5-rc2") = Value (MkVersion 3 5 0 false false 2).
Proof. reflexivity. Qed.
Example parse_master : parse_version (txt "tmux master") = Unexpected malformed.
Proof. reflexivity. Qed.

(** * Properties *)

(** [operator<=>] is a total order on versions, and on every version the
    parser can produce (a candidate below the value reserved for a release) it
    agrees with the defaulted [operator==]. *)
Theorem version_order_total (u v w : Version) :
  candidate u < u16_max -> candidate v < u16_max ->
  version_compare v u = CompOpp (version_compare u v) /\
  (version_compare u v = Lt -> version_compare v w = Lt -> version_compare u w = Lt) /\
  (version_compare u v = Eq <-> version_eqb u v = true).
Proof.
  intros Hu Hv. rewrite !version_compare_lex. split_and!.
  - apply lex_opp.
  - apply lex_trans.
  - rewrite lex_eq. unfold version_eqb. rewrite bool_decide_eq_true.
    split; [by apply version_key_inj | by intros ->].
Qed.

Lemma version_order_total_witness :
  version_compare kMinimumSupported (MkVersion 3 5 0 true false 0) = Lt.
Proof.
  destruct (version_order_total kMinimumSupported (MkVersion 3 4 0 false false 0)
              (MkVersion 3 5 0 true false 0)) as (_ & Htrans & _);
    [reflexivity.. |].
  apply Htrans; reflexivity.
Defined.

Lemma digits_dec n : n <= u32_max -> digits (dec n) = Some n.
Proof.
  intros H. destruct (dec_spec n) as (Hne & _). unfold digits.
  destruct (dec n) eqn:E; [done|]. rewrite <-E. by apply digits_loop_dec.
Qed.

Lemma digits_bound s n : digits s = Some n -> n <= u32_max.
Proof.
  unfold digits. destruct s as [|c s]; [done|]. rewrite digits_loop_exact by done.
  intros H. split_cases. to_props. done.
Qed.

(** No digit is one of the bytes that end or separate the parts of a version. *)
Lemma dec_no_byte n c : is_digit c = false -> c ∉ dec n.
Proof.
  intros Hc Hin. destruct (dec_spec n) as (_ & Hd & _).
  rewrite forallb_forall in Hd. specialize (Hd c). rewrite <-list_elem_of_In in Hd.
  rewrite Hd in Hc; done.
Qed.

Lemma parse_suffix_letter w r :
  prerelease w = false -> 1 <= r <= 26 ->
  parse_suffix w [ascii_of_N (97 + (r - 1))] = Value (with_revision r w).
Proof.
  intros Hp Hr. unfold parse_suffix. rewrite bool_decide_false, Hp by done.
  remember (ascii_of_N (97 + (r - 1))) as c eqn:Ec.
  assert (byte_of c = 97 + (r - 1)) as Hbyte
    by (subst c; apply N_ascii_embedding; lia).
  destruct (starts_with (txt "-rc") [c]) eqn:E.
  { apply starts_with_spec in E as [t E]. done. }
  destruct (starts_with (txt ".") [c]) eqn:Edot.
  { apply starts_with_spec in Edot as [t Edot]. injection Edot as -> _.
    change (byte_of "."%char) with 46 in Hbyte. lia. }
  assert ((byte_of c <? 97) || (122 <? byte_of c) = false) as ->.
  { apply orb_false_iff. rewrite !N.ltb_ge. lia. }
  by replace (byte_of c - 97 + 1) with r by lia.
Qed.

Lemma parse_suffix_dot w r :
  prerelease w = false -> r <= u32_max ->
  parse_suffix w ("."%char :: dec r) = Value (with_revision r w).
Proof.
  intros Hp Hr. unfold parse_suffix. rewrite bool_decide_false, Hp by done.
  change (starts_with (txt "-rc") _) with false.
  change (starts_with (txt ".") _) with true.
  change (drop 1 _) with (dec r). cbv iota. by rewrite digits_dec.
Qed.

Lemma parse_suffix_rc w c :
  prerelease w = false -> 0 < c < u16_max ->
  parse_suffix w (txt "-rc" ++ dec c) = Value (with_candidate c w).
Proof.
  intros Hp Hc. unfold parse_suffix. rewrite bool_decide_false, Hp by done.
  rewrite starts_with_app.
  destruct (dec_spec c) as (Hne & _).
  assert (length (txt "-rc" ++ dec c) =? 3 = false)%nat as ->.
  { apply Nat.eqb_neq. simpl. destruct (dec c); simpl; [done|lia]. }
  change (drop 3 (txt "-rc" ++ dec c)) with (dec c).
  rewrite digits_dec by (unfold u16_max, u32_max in *; lia).
  assert (negb (c =? 0) && (c <? u16_max) = true) as ->.
  { apply andb_true_iff. rewrite negb_true_iff, N.eqb_neq, N.ltb_lt. lia. }
  rewrite N.mod_small by (unfold u16_max in *; lia). done.
Qed.

Lemma parse_render_suffix v w :
  wf_version v -> prerelease w = prerelease v ->
  revision w = 0 -> candidate w = 0 -> unbounded w = false ->
  parse_suffix w (render_suffix v) =
    Value (MkVersion (major w) (minor w) (revision v) (prerelease v) false (candidate v)).
Proof.
  intros [_ _ Hr _ Hc Hone Hpre] Hp Hrw Hcw Huw.
  destruct w as [ma mi rw pw uw cw]; simpl in *; subst. unfold render_suffix.
  destruct (N.eqb_spec (candidate v) 0) as [Hc0|Hc0]; cbn [negb].
  - destruct (N.eqb_spec (revision v) 0) as [Hr0|Hr0]; [by rewrite Hr0, Hc0|].
    assert (prerelease v = false) as Hpv by (destruct (prerelease v); naive_solver).
    rewrite Hc0, Hpv. destruct (N.leb_spec (revision v) 26).
    + by rewrite parse_suffix_letter by (done || lia).
    + by rewrite parse_suffix_dot.
  - assert (prerelease v = false) as Hpv by (destruct (prerelease v); naive_solver).
    assert (revision v = 0) as -> by (destruct Hone; congruence).
    by rewrite Hpv, parse_suffix_rc by (done || lia).
Qed.

(** The parts of a rendering are where the parser looks for them. *)
Lemma render_suffix_not_digit v :
  wf_version v ->
  match render_suffix v with [] => True | c :: _ => is_digit c = false end.
Proof.
  intros Hv. unfold render_suffix. split_cases; to_props; try done.
  unfold is_digit. unfold byte_of. rewrite N_ascii_embedding by lia.
  apply andb_false_iff. right. apply N.leb_gt. lia.
Qed.

Lemma dec_not_next n r : starts_with (txt "next-") (dec n ++ r) = false.
Proof.
  destruct (dec_spec n) as (Hne & Hd & _). destruct (dec n) as [|c d]; [done|].
  simpl in *. apply andb_true_iff in Hd as [Hc _].
  by destruct c as [[] [] [] [] [] [] [] []].
Qed.

Lemma parse_version_digits v r :
  major v <= u32_max -> minor v <= u32_max ->
  match r with [] => True | c :: _ => is_digit c = false end ->
  find_char "."%char (dec (major v) ++ "."%char :: dec (minor v) ++ r) =
    Some (length (dec (major v))) /\
  digits (dec (major v)) = Some (major v) /\
  span is_digit (dec (minor v) ++ r) = (dec (minor v), r) /\
  digits (dec (minor v)) = Some (minor v).
Proof.
  intros Hma Hmi Hr. split_and!.
  - apply find_char_app. by apply dec_no_byte.
  - by apply digits_dec.
  - apply span_app; [apply dec_spec | done].
  - by apply digits_dec.
Qed.

(** A rendering holds digits, letters, dots and dashes: no line end. *)
Definition line_ends : list ascii := [ascii_of_N 13; ascii_of_N 10].

Lemma dec_no_line_end n : Forall (fun c => c ∉ line_ends) (dec n).
Proof.
  apply Forall_forall. intros c Hin Hc. apply (dec_no_byte n c); [|done].
  unfold line_ends in Hc. rewrite !elem_of_cons in Hc.
  destruct Hc as [-> | [-> | Hc]]; [done..|]. by apply elem_of_nil in Hc.
Qed.

Lemma render_suffix_no_line_end v :
  wf_version v -> Forall (fun c => c ∉ line_ends) (render_suffix v).
Proof.
  intros Hv. unfold render_suffix.
  destruct (N.eqb_spec (candidate v) 0); cbn [negb].
  2:{ repeat (constructor; [set_solver|]). apply dec_no_line_end. }
  destruct (N.eqb_spec (revision v) 0); [constructor|].
  destruct (N.leb_spec (revision v) 26).
  - apply Forall_singleton. unfold line_ends. rewrite !elem_of_cons.
    intros [Heq | [Heq | Hc]]; [.. | by apply elem_of_nil in Hc].
    all: apply (f_equal N_of_ascii) in Heq; rewrite !N_ascii_embedding in Heq by lia; lia.
  - constructor; [set_solver | apply dec_no_line_end].
Qed.

(** A version's line: its numbers and whatever suffix follows them. *)
Definition version_line (v : Version) (suffix : text) : text :=
  (if prerelease v then txt "next-" else []) ++
  dec (major v) ++ "."%char :: dec (minor v) ++ suffix.

Lemma version_line_no_line_end v suffix :
  Forall (fun c => c ∉ line_ends) suffix ->
  Forall (fun c => c ∉ line_ends) (tmux_prefix ++ version_line v suffix).
Proof.
  intros Hs. unfold version_line. rewrite !Forall_app, Forall_cons, Forall_app.
  split_and!; try apply dec_no_line_end; try done.
  - repeat constructor; set_solver.
  - destruct (prerelease v); repeat constructor; set_solver.
  - set_solver.
Qed.

(** What [parse_version] makes of the optional [next-]. *)
Lemma version_line_next v suffix :
  (if starts_with (txt "next-") (version_line v suffix)
   then (with_prerelease true version_zero, drop 5 (version_line v suffix))
   else (version_zero, version_line v suffix)) =
  (with_prerelease (prerelease v) version_zero,
   dec (major v) ++ "."%char :: dec (minor v) ++ suffix).
Proof.
  unfold version_line. destruct (prerelease v).
  - by rewrite starts_with_app.
  - by rewrite app_nil_l, dec_not_next.
Qed.

(** A line parses as its suffix does, on the numbers before it. *)
Lemma parse_version_line v suffix rest :
  major v <= u32_max -> minor v <= u32_max ->
  match suffix with [] => True | c :: _ => is_digit c = false end ->
  Forall (fun c => c ∉ line_ends) suffix ->
  rest = [] \/ (exists t, rest = ascii_of_N 10 :: t) ->
  parse_version (tmux_prefix ++ version_line v suffix ++ rest) =
  parse_suffix (MkVersion (major v) (minor v) 0 (prerelease v) false 0) suffix.
Proof.
  intros Hma Hmi Hd Hl Hrest. unfold parse_version. fold line_ends.
  pose proof (version_line_no_line_end v suffix Hl) as Hline.
  assert (prefix_to (find_first_of line_ends (tmux_prefix ++ version_line v suffix ++ rest))
            (tmux_prefix ++ version_line v suffix ++ rest) = tmux_prefix ++ version_line v suffix) as ->.
  { rewrite app_assoc. destruct Hrest as [-> | [t ->]].
    - by rewrite app_nil_r, (proj2 (find_first_of_None _ _)).
    - rewrite find_first_of_app by (done || set_solver). apply take_app_length. }
  rewrite starts_with_app, drop_app_length. cbn [negb].
  destruct (parse_version_digits v suffix) as (Hdot & Hma' & Hspan & Hmi'); [done..|].
  rewrite version_line_next.
  rewrite Hdot. destruct (dec_spec (major v)) as (Hne & _).
  destruct (length (dec (major v))) eqn:El; [by destruct (dec (major v))|].
  rewrite <-El, take_app_length, Hma'.
  rewrite drop_app_ge, Nat.sub_succ_l, Nat.sub_diag by lia. cbn [drop].
  by rewrite drop_0, Hspan, Hmi'.
Qed.

(** [parse_version] inverts the rendering of every well-formed version, with
    or without the line end [tmux -V] prints and whatever follows it. *)
Theorem parse_version_render (v : Version) (rest : text) :
  wf_version v ->
  rest = [] \/ (exists t, rest = ascii_of_N 10 :: t) ->
  parse_version (tmux_prefix ++ render_version v ++ rest) = Value v.
Proof.
  intros Hv Hrest. change (render_version v) with (version_line v (render_suffix v)).
  rewrite parse_version_line
    by (done || by apply Hv || by apply render_suffix_not_digit || by apply render_suffix_no_line_end).
  rewrite (parse_render_suffix v) by done. destruct v; simpl. destruct Hv; simpl in *. by subst.
Qed.

Lemma parse_version_render_witness :
  parse_version (txt "tmux 3.5-rc2" ++ [ascii_of_N 10]) = Value (MkVersion 3 5 0 false false 2).
Proof.
  apply (parse_version_render (MkVersion 3 5 0 false false 2) [ascii_of_N 10]).
  - split; vm_compute; (done || by left).
  - right. by exists [].
Defined.

Lemma wf_version_intro ma mi r p c :
  ma <= u32_max -> mi <= u32_max -> r <= u32_max -> c < u16_max ->
  r = 0 \/ c = 0 -> (p = true -> r = 0 /\ c = 0) ->
  wf_version (MkVersion ma mi r p false c).
Proof. by split. Qed.

Lemma parse_suffix_wf ma mi p suffix v :
  parse_suffix (MkVersion ma mi 0 p false 0) suffix = Value v ->
  ma <= u32_max -> mi <= u32_max -> wf_version v.
Proof.
  unfold parse_suffix. intros H Hma Hmi. simpl in H.
  assert (forall n, n <= u32_max -> wf_version (MkVersion ma mi n false false 0)) as Hrev.
  { intros n Hn. apply wf_version_intro; (done || by right). }
  assert (forall n, n < u16_max -> wf_version (MkVersion ma mi 0 false false n)) as Hcand.
  { intros n Hn. apply wf_version_intro; (done || by left). }
  case_bool_decide; [simplify_eq; apply wf_version_intro; (done || by left)|].
  destruct p; [done|].
  destruct (starts_with (txt "-rc") suffix).
  { destruct (length suffix =? 3)%nat; [by simplify_eq; apply Hcand|].
    destruct (digits (drop 3 suffix)) as [n|]; [|done].
    destruct (negb (n =? 0) && (n <? u16_max)) eqn:E; [|done]. to_props. simplify_eq.
    apply Hcand. rewrite N.mod_small; lia. }
  split_cases; to_props; first
    [ by apply Hrev; eapply digits_bound
    | apply Hrev; unfold u32_max, byte_of in *; simpl in *; lia ].
Qed.

(** every version the parser makes is well formed: each field is within its
    width although the loop multiplies a 32-bit accumulator, the candidate never
    takes the value that stands for a release, and a development build carries
    neither patch letter nor candidate. *)
Theorem parse_version_wf (output : text) (v : Version) :
  parse_version output = Value v -> wf_version v.
Proof.
  unfold parse_version. generalize (prefix_to
    (find_first_of [ascii_of_N 13; ascii_of_N 10] output) output). intros s.
  destruct (negb _); [done|].
  set (init := if starts_with _ _ then _ else _).
  assert (exists p t, init = (with_prerelease p version_zero, t)) as (p & t & ->).
  { unfold init. case_match; eexists _, _; reflexivity. }
  destruct (find_char "."%char t) as [[|dot]|]; [done| |done].
  destruct (digits (take (S dot) t)) as [ma|] eqn:Hma; [|done].
  destruct (span is_digit _) as [ds suffix].
  destruct (digits ds) as [mi|] eqn:Hmi; [|done].
  intros H. eapply parse_suffix_wf; [exact H | by eapply digits_bound..].
Qed.

Lemma parse_version_wf_witness : wf_version (MkVersion 3 5 0 false false 2).
Proof. apply (parse_version_wf (txt "tmux 3.5-rc2")). vm_compute. reflexivity. Defined.

(** the supported floor, field by field: on every version the parser can
    make, [is_supported] holds exactly from 3.3a on, so every candidate and
    development build of 3.3 and 3.3 itself are refused, and candidates of later
    releases are accepted. *)
Theorem is_supported_iff (v : Version) :
  wf_version v ->
  (is_supported v = true <->
   3 < major v \/ (major v = 3 /\ 3 < minor v) \/
   (major v = 3 /\ minor v = 3 /\ 1 <= revision v)).
Proof.
  intros [Hma Hmi Hr Hu Hc Hone Hpre]. unfold is_supported, version_geb, version_ltb.
  rewrite negb_true_iff. unfold version_compare. rewrite Hu. cbn [unbounded kMinimumSupported
    major minor revision prerelease candidate Bool.eqb negb].
  destruct (N.compare_spec (major v) 3); [|split; naive_solver lia..].
  destruct (N.compare_spec (minor v) 3); [|split; naive_solver lia..].
  destruct (N.compare_spec (revision v) 1) as [Hr1| |]; [|split; naive_solver lia..].
  assert (prerelease v = false) as -> by (destruct (prerelease v); naive_solver lia).
  assert (candidate v = 0) as -> by lia. simpl. split; [lia | done].
Qed.

Lemma is_supported_iff_witness : is_supported (MkVersion 3 4 0 false false 1) = true.
Proof.
  apply (is_supported_iff (MkVersion 3 4 0 false false 1)).
  - split; vm_compute; (done || by left).
  - right. left. split; reflexivity.
Defined.
