(* ===== verification/Snapshot.v ===== *)
(** Rows and format requests: [include/libtmux/snapshot.hpp], [src/snapshot.cpp].

    [format_request] is the format string the library sends, [Snapshot_parse] the
    parser of what comes back, with its in-place decoding: rows are views (an
    offset and a length) into one buffer that the decoder overwrites.  The
    theorems: decoding in place computes the functional decoding and touches no
    byte outside its value, parsing refines a purely functional reference, and
    whatever bytes tmux holds (short of a line end) come back unchanged.

    tmux itself is a parameter: [expand] stands for its expansion of a format for one
    object, [FormatLanguage] for what its manual says of names and of the modifier
    [#{s/old/new/:value}]; [format_expansion] is a function that does what it says. *)

From S2P Require Import Prelude.

(** * Data *)

Definition byte (n : N) : ascii := ascii_of_N n.
(** U+241E and U+241B in UTF-8. *)
Definition kFormatSeparator : text := [byte 226; byte 144; byte 158].
Definition kFormatEscape : text := [byte 226; byte 144; byte 155].
Definition newline : ascii := byte 10.

(** A [std::string_view] into the snapshot's storage. *)
Record view := View { view_offset : nat; view_size : nat }.
Definition view_text (buffer : text) (v : view) : text :=
  take (view_size v) (drop (view_offset v) buffer).

Record Snapshot := MkSnapshot {
  fields_ : list text;
  output_ : text;
  rows_ : list (list view);
}.

(** * The request *)

Definition format_field (field : text) : text :=
  txt "#{s/" ++ kFormatSeparator ++ txt "/" ++ kFormatEscape ++ txt "S/:#{s/" ++
  kFormatEscape ++ txt "/" ++ kFormatEscape ++ txt "E/:" ++ field ++ txt "}}" ++
  kFormatSeparator.

Fixpoint format_request (fields : list text) : text :=
  match fields with
  | [] => []
  | field :: rest => format_field field ++ format_request rest
  end.

(** * Decoding in place *)

(** What an escape marker followed by [tag] stands for; nothing when the pair is
    left as written. *)
Definition decoded_tag (tag : ascii) : text :=
  if bool_decide (tag = "S"%char) then kFormatSeparator
  else if bool_decide (tag = "E"%char) then kFormatEscape
  else [].

(** [for (const char byte : decoded) begin[write++] = byte]. *)
Fixpoint write_bytes (buffer : text) (at_ : nat) (bytes : text) : text :=
  match bytes with
  | [] => buffer
  | c :: rest => write_bytes (<[at_ := c]> buffer) (S at_) rest
  end.

(** [begin[i]]; the loop only reads below [size]. *)
Definition byte_at (buffer : text) (i : nat) : ascii := nth i buffer zero.

Fixpoint decode_loop (fuel : nat) (begin size read write : nat) (buffer : text) : text * nat :=
  match fuel with
  | 0 => (buffer, write)
  | S fuel' =>
      if (read <? size)%nat then
        let marked :=
          (length kFormatEscape <? size - read)%nat &&
          bool_decide (take (length kFormatEscape) (drop (begin + read) buffer) = kFormatEscape) in
        let tag := if marked then byte_at buffer (begin + (read + length kFormatEscape)) else zero in
        let decoded := decoded_tag tag in
        match decoded with
        | [] =>
            decode_loop fuel' begin size (S read) (S write)
              (<[begin + write := byte_at buffer (begin + read)]> buffer)
        | _ =>
            decode_loop fuel' begin size (read + (length kFormatEscape + 1))
              (write + length decoded) (write_bytes buffer (begin + write) decoded)
        end
      else (buffer, write)
  end.

(** The new buffer and the decoded length. *)
Definition decode_value (buffer : text) (begin size : nat) : text * nat :=
  decode_loop (S size) begin size 0 0 buffer.

(** * Splitting a row *)

Fixpoint split_loop (fuel : nat) (line : text) (position : nat) (values : list view) :
    nat * list view :=
  match fuel with
  | 0 => (position, values)
  | S fuel' =>
      if (position <=? length line)%nat then
        match find_from kFormatSeparator line position with
        | None => (position, values)
        | Some next =>
            split_loop fuel' line (next + length kFormatSeparator)
              (values ++ [View position (next - position)])
        end
      else (position, values)
  end.

(** The values when the row has exactly [fields] of them and nothing after. *)
Definition split_row (line : text) (fields : nat) : option (list view) :=
  let '(position, values) := split_loop (S (length line)) line 0 [] in
  if ((length values =? fields) && (position =? length line))%nat
  then Some values else None.

(** * Parsing the output *)

(** [for (value : values) value = decode(value)]. *)
Fixpoint decode_values (output : text) (start : nat) (values : list view) :
    text * list view :=
  match values with
  | [] => (output, [])
  | View off size :: rest =>
      let '(output, n) := decode_value output (start + off) size in
      let '(output, rest) := decode_values output start rest in
      (output, View (start + off) n :: rest)
  end.

(** One line, at [position]: an empty one adds no row. *)
Definition parse_line (fields : nat) (output : text) (position : nat)
    (rows : list (list view)) (line : text) : text * option (list (list view)) :=
  match line with
  | [] => (output, Some rows)
  | _ =>
      match split_row line fields with
      | None => (output, None)
      | Some values =>
          let '(output, values) := decode_values output position values in
          (output, Some (rows ++ [values]))
      end
  end.

(** The buffer as the loop leaves it, and the rows unless a line did not match. *)
Fixpoint parse_loop (fuel : nat) (fields : nat) (output : text) (position : nat)
    (rows : list (list view)) : text * option (list (list view)) :=
  match fuel with
  | 0 => (output, Some rows)
  | S fuel' =>
      if (position <? length output)%nat then
        let end_ := find_from [newline] output position in
        let line := match end_ with
                    | Some e => take (e - position) (drop position output)
                    | None => drop position output
                    end in
        match parse_line fields output position rows line, end_ with
        | (output, None), _ => (output, None)
        | (output, Some rows), Some e => parse_loop fuel' fields output (e + 1) rows
        | (output, Some rows), None => (output, Some rows)
        end
      else (output, Some rows)
  end.

(** [Snapshot::parse]: no partial rows when a line does not match. *)
Definition Snapshot_parse (s : Snapshot) : Snapshot * bool :=
  match parse_loop (S (length (output_ s))) (length (fields_ s)) (output_ s) 0 [] with
  | (output, Some rows) => (MkSnapshot (fields_ s) output rows, true)
  | (output, None) => (MkSnapshot (fields_ s) output [], false)
  end.

Definition from_recording (fields : list text) (output : text) : option Snapshot :=
  let '(snapshot, ok) := Snapshot_parse (MkSnapshot fields output []) in
  if ok then Some snapshot else None.

Fixpoint index_from (field : text) (fields : list text) (index : nat) : nat :=
  match fields with
  | [] => index
  | f :: rest => if bool_decide (f = field) then index else index_from field rest (S index)
  end.
Definition index_of (s : Snapshot) (field : text) : nat := index_from field (fields_ s) 0.

(** What a caller reads: the rows as byte strings. *)
Definition row_texts (s : Snapshot) : list (list text) :=
  map (map (view_text (output_ s))) (rows_ s).

(** * Specification: the functional reference *)

Definition decode_token (s : text) : option (text * nat) :=
  if starts_with kFormatEscape s then
    match drop (length kFormatEscape) s with
    | tag :: _ =>
        match decoded_tag tag with
        | [] => None
        | decoded => Some (decoded, length kFormatEscape + 1)
        end
    | [] => None
    end
  else None.
Definition decode (s : text) : text := rewrite_tokens decode_token s.

(** The values a row separates, and what follows the last separator. *)
Fixpoint pieces_loop (fuel : nat) (s : text) : list text * text :=
  match fuel with
  | 0 => ([], s)
  | S fuel' =>
      match find_sub kFormatSeparator s with
      | None => ([], s)
      | Some i =>
          let '(rest, tail) := pieces_loop fuel' (drop (i + length kFormatSeparator) s) in
          (take i s :: rest, tail)
      end
  end.
Definition pieces (s : text) : list text * text := pieces_loop (S (length s)) s.

Definition row_ref (fields : nat) (line : text) : option (list text) :=
  let '(values, tail) := pieces line in
  if ((length values =? fields)%nat && bool_decide (tail = [])) then Some (map decode values)
  else None.

Definition line_ref (fields : nat) (line : text) : option (list (list text)) :=
  match line with [] => Some [] | _ => (fun r => [r]) <$> row_ref fields line end.

Definition not_newline (c : ascii) : bool := negb (bool_decide (c = newline)).

Fixpoint parse_ref_loop (fuel fields : nat) (s : text) : option (list (list text)) :=
  match fuel with
  | 0 => Some []
  | S fuel' =>
      match s with
      | [] => Some []
      | _ =>
          let '(line, rest) := span not_newline s in
          row ← line_ref fields line;
          rows ← match rest with
                 | [] => Some []
                 | _ :: rest' => parse_ref_loop fuel' fields rest'
                 end;
          Some (row ++ rows)
      end
  end.
Definition parse_ref (fields : nat) (s : text) : option (list (list text)) :=
  parse_ref_loop (S (length s)) fields s.

(** * Decoding in place computes the reference *)

Lemma decode_token_skips s rep k : decode_token s = Some (rep, k) -> 0 < k.
Proof. unfold decode_token. intros H. split_cases. simpl. lia. Qed.

Lemma decoded_tag_length tag : length (decoded_tag tag) <= 3.
Proof. unfold decoded_tag. split_cases; simpl; lia. Qed.

Lemma decode_token_length s rep k :
  decode_token s = Some (rep, k) -> k <= length s /\ length rep <= k.
Proof.
  unfold decode_token. intros H.
  destruct (starts_with kFormatEscape s) eqn:E; [|done].
  apply starts_with_spec in E as [r ->]. rewrite drop_app_length in H.
  destruct r as [|tag r]; [done|].
  pose proof (decoded_tag_length tag). split_cases; simpl in *; lia.
Qed.

Lemma decode_length s : length (decode s) <= length s.
Proof.
  induction s as [s IH] using text_length_ind. destruct s as [|c s]; [done|].
  unfold decode. destruct (decode_token (c :: s)) as [[rep k]|] eqn:E.
  - rewrite (rewrite_tokens_token _ decode_token_skips _ rep k) by done.
    pose proof (decode_token_skips _ _ _ E). apply decode_token_length in E as [Hk Hrep].
    specialize (IH (drop k (c :: s))). rewrite length_drop in IH.
    rewrite length_app. unfold decode in IH. specialize (IH ltac:(simpl in *; lia)). lia.
  - rewrite rewrite_tokens_copy by done. simpl.
    specialize (IH s ltac:(simpl; lia)). unfold decode in IH. lia.
Qed.

Lemma write_bytes_app p x r bytes :
  length x = length bytes -> write_bytes (p ++ x ++ r) (length p) bytes = p ++ bytes ++ r.
Proof.
  revert p x. induction bytes as [|c bytes IH]; intros p [|d x] Hx; simplify_eq/=; [done|].
  rewrite insert_app_r_alt, Nat.sub_diag by lia. simpl.
  change (p ++ c :: x ++ r) with (p ++ [c] ++ (x ++ r)). rewrite app_assoc.
  replace (S (length p)) with (length (p ++ [c])) by (rewrite length_app; simpl; lia).
  rewrite IH by lia. by rewrite <-app_assoc.
Qed.

(** A string of length at least [n] splits there. *)
Lemma split_length (s : text) n : n <= length s -> exists a r, s = a ++ r /\ length a = n.
Proof.
  intros H. exists (take n s), (drop n s). by rewrite take_drop, length_take, Nat.min_l.
Qed.

(** What one round of the loop sees of the value still to read. *)
Lemma decode_test pre gap todo post :
  let buffer := pre ++ gap ++ todo ++ post in
  let at_ := length pre + length gap in
  let marked := (length kFormatEscape <? length todo)%nat &&
    bool_decide (take (length kFormatEscape) (drop at_ buffer) = kFormatEscape) in
  decoded_tag (if marked then byte_at buffer (at_ + length kFormatEscape) else zero) =
  match decode_token todo with Some (rep, _) => rep | None => [] end.
Proof.
  intros buffer at_ marked.
  assert (drop at_ buffer = todo ++ post) as Hdrop.
  { unfold buffer, at_. rewrite <-length_app, app_assoc. apply drop_app_length. }
  unfold marked, decode_token. rewrite Hdrop.
  destruct (starts_with kFormatEscape todo) eqn:E.
  - apply starts_with_spec in E as [r ->]. rewrite drop_app_length, <-app_assoc, take_app_length.
    rewrite bool_decide_true, andb_true_r by done. destruct r as [|tag r]; [done|].
    assert (length kFormatEscape <? length (kFormatEscape ++ tag :: r) = true)%nat as ->
      by (apply Nat.ltb_lt; simpl; lia).
    assert (byte_at buffer (at_ + length kFormatEscape) = tag) as ->.
    { unfold byte_at. rewrite <-(take_drop at_ buffer), Hdrop. rewrite <-app_assoc.
      assert (length (take at_ buffer) = at_) as Hlen.
      { rewrite length_take. apply Nat.min_l. unfold buffer, at_. rewrite !length_app. lia. }
      rewrite app_nth2 by lia. rewrite Hlen. replace (_ - _) with 3 by (simpl; lia). done. }
    by destruct (decoded_tag tag).
  - destruct (length kFormatEscape <? length todo)%nat eqn:Hl; [|done].
    apply Nat.ltb_lt in Hl. rewrite take_app_le by lia.
    rewrite bool_decide_false; [done|]. intros Htake. apply starts_with_false in E. apply E.
    exists (drop (length kFormatEscape) todo). by rewrite <-Htake at 1; rewrite take_drop.
Qed.

(** Emitting [rep] for the token [tok] only eats into the gap and the token. *)
Lemma write_step pre done_ gap tok rest rep :
  length rep <= length gap + length tok ->
  exists gap',
    write_bytes (pre ++ done_ ++ gap ++ tok ++ rest) (length pre + length done_) rep =
      pre ++ (done_ ++ rep) ++ gap' ++ rest /\
    length rep + length gap' = length gap + length tok.
Proof.
  intros Hfit. destruct (split_length (gap ++ tok) (length rep)) as (old & gap' & Hold & Hlen).
  { by rewrite length_app. }
  exists gap'. split.
  - rewrite (app_assoc gap), Hold, <-app_assoc, (app_assoc pre).
    replace (length pre + length done_) with (length (pre ++ done_)) by apply length_app.
    rewrite write_bytes_app by done. by rewrite <-!app_assoc.
  - apply (f_equal length) in Hold. rewrite !length_app in Hold. lia.
Qed.

Lemma decode_cons_token c s rep tok rest :
  decode_token (c :: s) = Some (rep, length tok) -> c :: s = tok ++ rest ->
  decode (c :: s) = rep ++ decode rest.
Proof.
  intros E Htok. unfold decode.
  rewrite (rewrite_tokens_token _ decode_token_skips _ rep (length tok)) by done.
  f_equal. by rewrite Htok, drop_app_length.
Qed.

Lemma decode_token_found s rep k :
  decode_token s = Some (rep, k) -> k = length kFormatEscape + 1 /\ rep <> [].
Proof. unfold decode_token. intros H. by split_cases. Qed.

Lemma byte_at_todo pre done_ gap c todo :
  byte_at (pre ++ done_ ++ gap ++ c :: todo) (length pre + (length done_ + length gap)) = c.
Proof.
  unfold byte_at. rewrite !app_assoc. rewrite app_nth2; rewrite !length_app; [|lia].
  by replace (_ - _) with 0 by lia.
Qed.

(** The loop keeps the bytes written so far, a gap of stale bytes, and the bytes
    still to read: the write cursor never passes the read cursor. *)
Lemma decode_loop_spec fuel pre done_ gap todo post :
  length todo < fuel ->
  exists gap',
    decode_loop fuel (length pre) (length done_ + length gap + length todo)
      (length done_ + length gap) (length done_) (pre ++ done_ ++ gap ++ todo ++ post) =
    (pre ++ (done_ ++ decode todo) ++ gap' ++ post, length done_ + length (decode todo)) /\
    length (decode todo) + length gap' = length gap + length todo.
Proof.
  revert done_ gap todo. induction fuel as [|fuel IH]; intros done_ gap todo Hf; [lia|].
  cbn [decode_loop]. destruct todo as [|c todo].
  { rewrite (proj2 (Nat.ltb_ge _ _)) by (simpl; lia). exists gap.
    rewrite app_nil_r, !Nat.add_0_r. split; [done | simpl; lia]. }
  rewrite (proj2 (Nat.ltb_lt _ _)) by (simpl; lia).
  replace (length done_ + length gap + length (c :: todo) - (length done_ + length gap))
    with (length (c :: todo)) by lia.
  pose proof (decode_test (pre ++ done_) gap (c :: todo) post) as Htest. cbv zeta in Htest.
  rewrite length_app, <-!app_assoc, <-!Nat.add_assoc in Htest.
  rewrite <-!Nat.add_assoc, Htest. clear Htest.
  destruct (decode_token (c :: todo)) as [[rep k]|] eqn:E.
  - pose proof (decode_token_length _ _ _ E) as [Hkt Hrk].
    destruct (decode_token_found _ _ _ E) as [Hk Hrep].
    destruct (split_length (c :: todo) k Hkt) as (tok & rest & Htok & Hltok). subst k.
    rewrite (decode_cons_token c todo rep tok rest) by congruence. rewrite Htok, <-app_assoc.
    destruct (write_step pre done_ gap tok (rest ++ post) rep) as (gap2 & Hw & Hl2); [lia|].
    destruct rep as [|r0 rep]; [done|]. rewrite Hw.
    apply (f_equal length) in Htok. rewrite length_app in Htok.
    destruct (IH (done_ ++ r0 :: rep) gap2 rest) as (gap' & Heq & Hlen); [simpl in *; lia|].
    exists gap'. rewrite !length_app in *. rewrite <-!app_assoc in *.
    split; [|lia]. etrans; [|etrans; [apply Heq|]]; f_equal; lia.
  - assert (decode (c :: todo) = c :: decode todo) as ->.
    { unfold decode. by rewrite rewrite_tokens_copy. }
    change ((c :: todo) ++ post) with (c :: (todo ++ post)). rewrite byte_at_todo.
    destruct (write_step pre done_ gap [c] (todo ++ post) [c]) as (gap2 & Hw & Hl2); [simpl; lia|].
    simpl in Hw, Hl2. rewrite Hw.
    destruct (IH (done_ ++ [c]) gap2 todo) as (gap' & Heq & Hlen); [simpl in *; lia|].
    exists gap'. rewrite !length_app in *. simpl in *. rewrite <-!app_assoc in *.
    split; [|lia]. etrans; [|etrans; [apply Heq|]]; f_equal; simpl; lia.
Qed.

(** Decoding the value [old] in place: the decoded bytes stand where it started
    and every byte outside it is as it was. *)
Lemma decode_value_spec pre old post :
  exists gap,
    decode_value (pre ++ old ++ post) (length pre) (length old) =
      (pre ++ decode old ++ gap ++ post, length (decode old)) /\
    length (decode old) + length gap = length old.
Proof.
  destruct (decode_loop_spec (S (length old)) pre [] [] old post) as (gap & Heq & Hlen); [lia|].
  exists gap. split; [exact Heq | simpl in Hlen; lia].
Qed.

(** * Splitting and decoding refine the reference *)

Definition join_row (values : list text) : text :=
  concat (map (fun v => v ++ kFormatSeparator) values).

(** The views of consecutive separated values, from offset [k]. *)
Fixpoint views_at (k : nat) (values : list text) : list view :=
  match values with
  | [] => []
  | v :: rest => View k (length v) :: views_at (k + length v + length kFormatSeparator) rest
  end.

Lemma find_sub_split n s i :
  find_sub n s = Some i -> s = take i s ++ n ++ drop (i + length n) s.
Proof.
  intros [(p & r & -> & <-) _]%find_sub_Some.
  rewrite take_app_length. f_equal. f_equal.
  by rewrite app_assoc, <-length_app, drop_app_length.
Qed.

Lemma split_loop_spec fuel fuel' pre s values ps tail :
  pieces_loop fuel' s = (ps, tail) -> length s < fuel -> length s < fuel' ->
  split_loop fuel (pre ++ s) (length pre) values =
    (length pre + length (join_row ps), values ++ views_at (length pre) ps) /\
  s = join_row ps ++ tail.
Proof.
  revert fuel' pre s values ps tail. induction fuel as [|fuel IH];
    intros fuel' pre s values ps tail Hps Hf Hf'; [lia|].
  destruct fuel' as [|fuel']; [lia|]. cbn [split_loop pieces_loop] in *.
  rewrite (proj2 (Nat.leb_le _ _)) by (rewrite length_app; lia).
  unfold find_from. rewrite (proj2 (Nat.leb_le _ _)) by (rewrite length_app; lia).
  rewrite drop_app_length. destruct (find_sub kFormatSeparator s) as [i|] eqn:E; simpl.
  - destruct (pieces_loop fuel' _) as [ps' tail'] eqn:Hps'. simplify_eq.
    pose proof (find_sub_bound _ _ _ E) as Hb. pose proof (find_sub_split _ _ _ E) as Hs.
    assert (length (take i s) = i) as Hi by (rewrite length_take; lia).
    set (rest := drop (i + length kFormatSeparator) s) in *.
    assert (length rest < length s) as Hrest.
    { unfold rest. rewrite length_drop. simpl in *. lia. }
    destruct (IH fuel' (pre ++ take i s ++ kFormatSeparator) rest
                (values ++ [View (length pre) (length pre + i - length pre)]) ps' tail)
      as [Heq Htail]; [done | lia | lia |].
    rewrite <-!app_assoc, <-Hs in Heq.
    assert (length (pre ++ take i s ++ kFormatSeparator) =
            length pre + i + length kFormatSeparator) as Hl by (rewrite !length_app; lia).
    rewrite Hl in Heq. change 3 with (length kFormatSeparator). rewrite Heq. unfold join_row in *. simpl map. simpl concat.
    rewrite !length_app, Hi. split.
    + f_equal; [lia|]. f_equal. simpl. rewrite Hi. f_equal. f_equal. lia.
    + rewrite <-app_assoc, <-app_assoc, <-Htail. done.
  - simplify_eq. by rewrite app_nil_r, Nat.add_0_r.
Qed.

Lemma split_row_spec line fields :
  split_row line fields =
    let '(ps, tail) := pieces line in
    if (length ps =? fields)%nat && bool_decide (tail = []) then Some (views_at 0 ps) else None.
Proof.
  unfold split_row, pieces. destruct (pieces_loop _ line) as [ps tail] eqn:Hps.
  destruct (split_loop_spec (S (length line)) _ [] line [] _ _ Hps) as [Hsplit Hline]; [lia..|].
  change ([] ++ line) with line in Hsplit. change (length (@nil ascii)) with 0 in Hsplit.
  rewrite Hsplit. simpl.
  assert (length (views_at 0 ps) = length ps) as ->.
  { generalize 0. clear. induction ps; intros k; simpl; auto. }
  apply (f_equal length) in Hline. rewrite length_app in Hline.
  destruct tail as [|c tail]; simpl in Hline.
  - rewrite bool_decide_true, (proj2 (Nat.eqb_eq (length (join_row ps)) _)) by (done || lia).
    done.
  - rewrite bool_decide_false, (proj2 (Nat.eqb_neq (length (join_row ps)) _)) by (done || lia).
    by rewrite !andb_false_r.
Qed.

Lemma pieces_join line ps tail : pieces line = (ps, tail) -> line = join_row ps ++ tail.
Proof. intros H. eapply (split_loop_spec (S (length line)) _ [] line []); [exact H | lia..]. Qed.

Definition view_in (limit : nat) (v : view) : Prop := view_offset v + view_size v <= limit.

Lemma view_text_app a r v : view_in (length a) v -> view_text (a ++ r) v = view_text a v.
Proof.
  unfold view_in, view_text. intros H. rewrite drop_app_le by lia.
  apply take_app_le. rewrite length_drop. lia.
Qed.

Lemma decode_values_spec pre values post start k :
  length pre = start + k ->
  exists body views,
    decode_values (pre ++ join_row values ++ post) start (views_at k values) =
      (pre ++ body ++ post, views) /\
    length body = length (join_row values) /\
    Forall (view_in (length (pre ++ body))) views /\
    map (view_text (pre ++ body)) views = map decode values.
Proof.
  revert pre k. induction values as [|v values IH]; intros pre k Hpre.
  { by exists [], []. }
  unfold join_row. cbn [map concat views_at decode_values]. fold (join_row values).
  rewrite <-!app_assoc.
  destruct (decode_value_spec pre v (kFormatSeparator ++ join_row values ++ post))
    as (gap & Heq & Hlen). rewrite Hpre in Heq. rewrite Heq.
  destruct (IH (pre ++ decode v ++ gap ++ kFormatSeparator)
              (k + length v + length kFormatSeparator)) as (body & views & Hd & Hb & Hin & Hmap).
  { rewrite !length_app. lia. }
  rewrite <-!app_assoc in Hd. rewrite Hd.
  exists (decode v ++ gap ++ kFormatSeparator ++ body), (View (start + k) (length (decode v)) :: views).
  rewrite <-!app_assoc in *. split_and!.
  - done.
  - rewrite !length_app in *. lia.
  - constructor; [|done]. unfold view_in. cbn [view_offset view_size]. rewrite !length_app. lia.
  - simpl. f_equal; [|done]. unfold view_text. simpl.
    by rewrite <-Hpre, drop_app_length, take_app_length.
Qed.

(** * Parsing refines the reference *)

(** The line the loop takes, by position and as the reference reads it. *)
Lemma line_at pre s line rest :
  span not_newline s = (line, rest) ->
  find_from [newline] (pre ++ s) (length pre) =
    match rest with [] => None | _ => Some (length pre + length line) end.
Proof.
  intros Hspan. apply span_spec in Hspan as (-> & Hline & Hrest).
  assert (newline ∉ line) as Hnin.
  { intros Hin. rewrite forallb_forall in Hline. specialize (Hline newline).
    rewrite <-list_elem_of_In in Hline. specialize (Hline Hin).
    unfold not_newline in Hline. by rewrite bool_decide_true in Hline. }
  unfold find_from. rewrite (proj2 (Nat.leb_le _ _)) by (rewrite !length_app; lia).
  rewrite drop_app_length. destruct rest as [|c rest].
  - rewrite app_nil_r. fold (find_char newline line).
    by rewrite (proj2 (find_char_None newline line) Hnin).
  - assert (c = newline) as ->.
    { unfold not_newline in Hrest. by case_bool_decide. }
    fold (find_char newline (line ++ newline :: rest)). by rewrite find_char_app.
Qed.

(** One row: the loop's decoding of a line and the reference row. *)
Lemma row_spec pre line post fields :
  match split_row line fields with
  | None => row_ref fields line = None
  | Some values =>
      exists body views,
        decode_values (pre ++ line ++ post) (length pre) values = (pre ++ body ++ post, views) /\
        length body = length line /\
        Forall (view_in (length (pre ++ body))) views /\
        row_ref fields line = Some (map (view_text (pre ++ body)) views)
  end.
Proof.
  rewrite split_row_spec. unfold row_ref. destruct (pieces line) as [ps tail] eqn:Hps.
  apply pieces_join in Hps.
  destruct (length ps =? fields)%nat; [|done]. case_bool_decide as Htail; [|done]. simpl.
  subst tail. rewrite app_nil_r in Hps. subst line.
  destruct (decode_values_spec pre ps post (length pre) 0) as (body & views & ? & ? & ? & Hmap); [lia|].
  exists body, views. by rewrite Hmap.
Qed.

Definition rows_in (limit : nat) (rows : list (list view)) : Prop :=
  Forall (Forall (view_in limit)) rows.

Lemma parse_line_spec fields pre line post rows :
  match line_ref fields line with
  | None => exists output, parse_line fields (pre ++ line ++ post) (length pre) rows line = (output, None)
  | Some texts =>
      exists body views,
        parse_line fields (pre ++ line ++ post) (length pre) rows line =
          (pre ++ body ++ post, Some (rows ++ views)) /\
        length body = length line /\ rows_in (length (pre ++ body)) views /\
        map (map (view_text (pre ++ body))) views = texts
  end.
Proof.
  unfold line_ref, parse_line. destruct line as [|c line].
  { exists [], []. rewrite app_nil_r. split_and!; done || constructor. }
  pose proof (row_spec pre (c :: line) post fields) as Hrow.
  destruct (split_row (c :: line) fields) as [values|].
  - destruct Hrow as (body & views & -> & Hlen & Hin & ->). exists body, [views].
    split_and!; [done..| by repeat constructor | done].
  - rewrite Hrow. simpl. eauto.
Qed.

Lemma rows_in_mono n m rows : n <= m -> rows_in n rows -> rows_in m rows.
Proof.
  intros Hnm H. apply (Forall_impl _ _ _ H). intros row Hrow.
  apply (Forall_impl _ _ _ Hrow). unfold view_in. lia.
Qed.

Lemma rows_text_app a r rows :
  rows_in (length a) rows -> map (map (view_text (a ++ r))) rows = map (map (view_text a)) rows.
Proof.
  intros H. apply map_ext_Forall. apply (Forall_impl _ _ _ H). intros row Hrow.
  apply map_ext_Forall. apply (Forall_impl _ _ _ Hrow). intros v. apply view_text_app.
Qed.

(** The loop's line at [position] is the reference's. *)
Lemma loop_line (pre line rest : text) :
  match match rest with [] => None | _ :: _ => Some (length pre + length line) end with
  | Some e => take (e - length pre) (drop (length pre) (pre ++ line ++ rest))
  | None => drop (length pre) (pre ++ line ++ rest)
  end = line.
Proof.
  rewrite drop_app_length. destruct rest; [by rewrite app_nil_r|].
  replace (_ - _) with (length line) by lia. apply take_app_length.
Qed.

Lemma parse_loop_spec fuel fuel' fields pre s rows :
  length s < fuel -> length s < fuel' ->
  match parse_ref_loop fuel' fields s with
  | Some texts =>
      exists body views,
        parse_loop fuel fields (pre ++ s) (length pre) rows = (pre ++ body, Some (rows ++ views)) /\
        length body = length s /\ rows_in (length (pre ++ body)) views /\
        map (map (view_text (pre ++ body))) views = texts
  | None => exists output, parse_loop fuel fields (pre ++ s) (length pre) rows = (output, None)
  end.
Proof.
  revert fuel' pre s rows. induction fuel as [|fuel IH]; intros fuel' pre s rows Hf Hf'; [lia|].
  destruct fuel' as [|fuel']; [lia|]. cbn [parse_loop parse_ref_loop].
  destruct s as [|c0 s0]; [|remember (c0 :: s0) as s eqn:Es].
  { rewrite app_nil_r, (proj2 (Nat.ltb_ge _ _)) by lia. exists [], [].
    rewrite !app_nil_r. split_and!; done || constructor. }
  rewrite (proj2 (Nat.ltb_lt _ _)) by (rewrite length_app; subst s; simpl; lia).
  destruct (span not_newline s) as [line rest] eqn:Hspan.
  rewrite (line_at _ _ _ _ Hspan). apply span_spec in Hspan as (Hs & _ & _). clear Es.
  rewrite Hs, loop_line. pose proof (parse_line_spec fields pre line rest rows) as Hline.
  destruct (line_ref fields line) as [texts|]; simpl.
  2:{ destruct Hline as [output ->]. destruct rest; eauto. }
  destruct Hline as (body & views & -> & Hlen & Hin & Htexts).
  destruct rest as [|nl rest]; simpl.
  { exists body, views. rewrite !app_nil_r. by rewrite Htexts, <-Hlen. }
  subst s. rewrite length_app in Hf, Hf'. simpl in Hf, Hf'.
  specialize (IH fuel' (pre ++ body ++ [nl]) rest (rows ++ views)).
  rewrite !length_app in IH. simpl in IH. rewrite <-!app_assoc in IH. simpl in IH.
  rewrite Hlen, Nat.add_assoc in IH. specialize (IH ltac:(lia) ltac:(lia)).
  destruct (parse_ref_loop fuel' fields rest) as [texts'|]; simpl; [|by destruct IH as [? ->]; eauto].
  destruct IH as (body' & views' & -> & Hlen' & Hin' & Htexts').
  exists (body ++ nl :: body'), (views ++ views').
  assert (rows_in (length pre + length body) views) as Hin2 by by rewrite <-length_app.
  split_and!.
  - by rewrite <-!app_assoc.
  - rewrite !length_app. simpl. lia.
  - apply Forall_app. rewrite !length_app in *. simpl in *. rewrite ?length_app in *.
    split; (eapply rows_in_mono; [|done]); simpl; lia.
  - rewrite <-!app_assoc in Htexts'. simpl in Htexts'. rewrite map_app, Htexts'. f_equal. rewrite app_assoc, rows_text_app; [done|].
    by rewrite length_app.
Qed.

(** * Escaped values come back *)

(** Both markers start with the byte 226 and do not hold it again, so no marker
    can begin inside another one or across the end of a value. *)
Definition lead : ascii := byte 226.
Definition lead_token (f : text -> option (text * nat)) : Prop :=
  forall s rep k, f s = Some (rep, k) -> 0 < k /\ exists t, rep = lead :: t.

Lemma rewrite_head f s x t :
  lead_token f -> x <> lead -> rewrite_tokens f s = x :: t ->
  exists s', s = x :: s' /\ t = rewrite_tokens f s'.
Proof.
  intros Hf Hx H. assert (forall s rep k, f s = Some (rep, k) -> 0 < k) as Hskip
    by (intros ??? Hs; by apply Hf in Hs as [? _]).
  destruct s as [|c s]; [done|]. destruct (f (c :: s)) as [[rep k]|] eqn:E.
  - rewrite (rewrite_tokens_token _ Hskip _ rep k) in H by done.
    apply Hf in E as (_ & u & ->). naive_solver.
  - rewrite rewrite_tokens_copy in H by done. naive_solver.
Qed.

(** A marker seen where a byte was copied was there before the rewriting. *)
Lemma copied_marker f c s a d r :
  lead_token f -> a <> lead -> d <> lead ->
  r = [] \/ (exists r', r = lead :: r') ->
  starts_with [lead; a; d] (c :: rewrite_tokens f s ++ r) = true ->
  starts_with [lead; a; d] (c :: s) = true.
Proof.
  intros Hf Ha Hd Hr (t & Ht)%starts_with_spec. injection Ht as -> Ht.
  assert (forall x y u, x <> lead -> rewrite_tokens f u ++ r = x :: y ->
            exists u', u = x :: u' /\ y = rewrite_tokens f u' ++ r) as Hstep.
  { intros x y u Hx Hu. destruct (rewrite_tokens f u) as [|z w] eqn:E; simpl in Hu.
    - destruct Hr as [-> | [r' ->]]; naive_solver.
    - injection Hu as -> <-. apply rewrite_head in E as (u' & -> & ->); eauto. }
  apply Hstep in Ht as (s1 & -> & Ht); [|done]. symmetry in Ht.
  apply Hstep in Ht as (s2 & -> & _); [|done]. apply (starts_with_app [lead; a; d] s2).
Qed.

(** The two substitutions in one pass. *)
Definition encode_token (s : text) : option (text * nat) :=
  if starts_with kFormatSeparator s then Some (kFormatEscape ++ txt "S", 3)
  else if starts_with kFormatEscape s then Some (kFormatEscape ++ txt "E", 3)
  else None.
Definition encode (s : text) : text := rewrite_tokens encode_token s.

Lemma encode_token_lead : lead_token encode_token.
Proof. intros s rep k H. unfold encode_token in H. split_cases; (split; [lia | by eexists]). Qed.

Lemma replace_escape_lead new : lead_token (replace_token kFormatEscape (kFormatEscape ++ new)).
Proof.
  intros s rep k H. unfold replace_token in H. split_cases. split; [simpl; lia | by eexists].
Qed.

Lemma encode_token_skips s rep k : encode_token s = Some (rep, k) -> 0 < k.
Proof. intros H. by apply encode_token_lead in H as [? _]. Qed.
Lemma replace_token_skips old new s rep k :
  old <> [] -> replace_token old new s = Some (rep, k) -> 0 < k.
Proof. unfold replace_token. intros Hne H. split_cases. destruct old; [done | simpl; lia]. Qed.

Lemma encode_cases s :
  s = [] \/
  (exists r, s = kFormatSeparator ++ r /\ encode s = kFormatEscape ++ txt "S" ++ encode r) \/
  (exists r, s = kFormatEscape ++ r /\ encode s = kFormatEscape ++ txt "E" ++ encode r) \/
  (exists c r, s = c :: r /\ encode s = c :: encode r /\
     starts_with kFormatSeparator s = false /\ starts_with kFormatEscape s = false).
Proof.
  destruct s as [|c s]; [by left|]. right. unfold encode.
  destruct (starts_with kFormatSeparator (c :: s)) eqn:E1.
  { left. apply starts_with_spec in E1 as [r E1]. exists r. split; [done|].
    rewrite (rewrite_tokens_token _ encode_token_skips _ (kFormatEscape ++ txt "S") 3);
      [by rewrite E1, <-app_assoc | done |].
    unfold encode_token. by rewrite E1, starts_with_app. }
  destruct (starts_with kFormatEscape (c :: s)) eqn:E2.
  { right. left. apply starts_with_spec in E2 as [r E2]. exists r. split; [done|].
    rewrite (rewrite_tokens_token _ encode_token_skips _ (kFormatEscape ++ txt "E") 3);
      [by rewrite E2, <-app_assoc | done |].
    unfold encode_token. by rewrite E1, E2, starts_with_app. }
  right. right. exists c, s. split_and!; [done | | done | done].
  rewrite rewrite_tokens_copy; [done|]. unfold encode_token. by rewrite E1, E2.
Qed.

Lemma replace_token_app old new r :
  old <> [] -> replace_all old new (old ++ r) = new ++ replace_all old new r.
Proof.
  intros Hne. unfold replace_all.
  rewrite (rewrite_tokens_token _ (fun s rep k => replace_token_skips old new s rep k Hne) _
             new (length old)).
  - by rewrite drop_app_length.
  - by destruct old.
  - unfold replace_token. by rewrite starts_with_app.
Qed.

Lemma replace_copy old new c s :
  starts_with old (c :: s) = false -> replace_all old new (c :: s) = c :: replace_all old new s.
Proof.
  intros H. apply rewrite_tokens_copy. unfold replace_token. by rewrite H.
Qed.

Lemma encode_two_passes value :
  replace_all kFormatSeparator (kFormatEscape ++ txt "S")
    (replace_all kFormatEscape (kFormatEscape ++ txt "E") value) = encode value.
Proof.
  induction value as [s IH] using text_length_ind.
  destruct (encode_cases s) as
    [-> | [(r & -> & ->) | [(r & -> & ->) | (c & r & -> & -> & E1 & E2)]]]; [done| | |].
  - unfold kFormatSeparator at 2. cbn [app]. rewrite !(replace_copy kFormatEscape) by done.
    change (_ :: _ :: _ :: ?x) with (kFormatSeparator ++ x).
    rewrite replace_token_app, IH by (done || (rewrite length_app; simpl; lia)).
    by rewrite <-app_assoc.
  - rewrite replace_token_app by done. rewrite <-app_assoc. cbn [app kFormatEscape].
    change (txt "E") with ["E"%char]. cbn [app]. rewrite !replace_copy by done.
    rewrite IH by (rewrite length_app; simpl; lia). done.
  - rewrite replace_copy by done. rewrite replace_copy, IH; [done | simpl; lia |].
    apply not_true_is_false. intros H. rewrite <-(app_nil_r (replace_all _ _ r)) in H.
    apply copied_marker in H; [exact (eq_true_false_abs _ H E1) | apply replace_escape_lead | done | done | by left].
Qed.

Lemma decode_copy c s : decode_token (c :: s) = None -> decode (c :: s) = c :: decode s.
Proof. apply rewrite_tokens_copy. Qed.

Lemma decode_marker tag r :
  decoded_tag tag <> [] -> decode (kFormatEscape ++ [tag] ++ r) = decoded_tag tag ++ decode r.
Proof.
  intros H. unfold decode.
  rewrite (rewrite_tokens_token _ decode_token_skips _ (decoded_tag tag) 4); [done | done |].
  unfold decode_token. rewrite starts_with_app, drop_app_length. simpl.
  by destruct (decoded_tag tag).
Qed.

Lemma decode_encode value : decode (encode value) = value.
Proof.
  induction value as [s IH] using text_length_ind.
  destruct (encode_cases s) as
    [-> | [(r & -> & ->) | [(r & -> & ->) | (c & r & -> & -> & E1 & E2)]]]; [done| | |].
  - change (txt "S") with ["S"%char]. rewrite decode_marker by done. simpl.
    by rewrite IH by (rewrite length_app; simpl; lia).
  - change (txt "E") with ["E"%char]. rewrite decode_marker by done. simpl.
    by rewrite IH by (rewrite length_app; simpl; lia).
  - rewrite decode_copy, IH; [done | simpl; lia |]. unfold decode_token.
    destruct (starts_with kFormatEscape (c :: encode r)) eqn:H; [|done].
    rewrite <-(app_nil_r (encode r)) in H.
    apply copied_marker in H; [exact (False_ind _ (eq_true_false_abs _ H E2)) |
      apply encode_token_lead | done | done | by left].
Qed.

(** The separator after an encoded value is the first one. *)
Lemma find_separator value r :
  find_sub kFormatSeparator (encode value ++ kFormatSeparator ++ r) = Some (length (encode value)).
Proof.
  induction value as [s IH] using text_length_ind.
  destruct (encode_cases s) as
    [-> | [(u & -> & ->) | [(u & -> & ->) | (c & u & -> & -> & E1 & E2)]]].
  - done.
  - change (kFormatEscape ++ txt "S" ++ encode u) with
      (byte 226 :: byte 144 :: byte 155 :: "S"%char :: encode u). cbn [app].
    rewrite !find_sub_skip by done. rewrite IH by (rewrite length_app; simpl; lia). done.
  - change (kFormatEscape ++ txt "E" ++ encode u) with
      (byte 226 :: byte 144 :: byte 155 :: "E"%char :: encode u). cbn [app].
    rewrite !find_sub_skip by done. rewrite IH by (rewrite length_app; simpl; lia). done.
  - cbn [app]. rewrite find_sub_skip, IH; [done | simpl; lia |].
    apply not_true_is_false. intros H.
    apply copied_marker in H; [exact (eq_true_false_abs _ H E1) | apply encode_token_lead |
      done | done | right; by eexists].
Qed.

Lemma encode_no_newline value : newline ∉ value -> newline ∉ encode value.
Proof.
  induction value as [s IH] using text_length_ind. intros Hs.
  destruct (encode_cases s) as
    [-> | [(u & -> & ->) | [(u & -> & ->) | (c & u & -> & -> & E1 & E2)]]]; [done| | |].
  - rewrite !not_elem_of_app in *. split_and!; [set_solver..|].
    apply IH; [rewrite length_app; simpl; lia | naive_solver].
  - rewrite !not_elem_of_app in *. split_and!; [set_solver..|].
    apply IH; [rewrite length_app; simpl; lia | naive_solver].
  - rewrite not_elem_of_cons in *. split; [naive_solver|]. apply IH; [simpl; lia | naive_solver].
Qed.

Lemma join_row_no_newline values :
  Forall (fun v => newline ∉ v) values -> newline ∉ join_row (map encode values).
Proof.
  unfold join_row. induction 1 as [|v row Hv _ IH]; simpl; [apply not_elem_of_nil|].
  rewrite !not_elem_of_app. split_and!; [by apply encode_no_newline | set_solver | done].
Qed.

(** * tmux's formats *)

(** The part of tmux's format language that is used: a field's name, and
    [#{s/old/new/:body}], which replaces each leftmost occurrence in what its body
    stands for. *)
Inductive format_body := FieldName (name : text) | Substituted (old new : text) (body : format_body).

Fixpoint body_text (b : format_body) : text :=
  match b with
  | FieldName name => name
  | Substituted old new body =>
      txt "#{s/" ++ old ++ txt "/" ++ new ++ txt "/:" ++ body_text body ++ txt "}"
  end.

Fixpoint body_value (env : text -> text) (b : format_body) : text :=
  match b with
  | FieldName name => env name
  | Substituted old new body => replace_all old new (body_value env body)
  end.

(** Bytes with no role in a format or in the regular expression of a substitution. *)
Definition plain_byte (c : ascii) : bool :=
  let n := N_of_ascii c in
  (128 <=? n)%N || ((48 <=? n) && (n <=? 57))%N || ((65 <=? n) && (n <=? 90))%N
  || ((97 <=? n) && (n <=? 122))%N || (n =? 95)%N.
Definition plain_text (s : text) : bool := forallb plain_byte s.

Fixpoint plain_body (b : format_body) : Prop :=
  match b with
  | FieldName name => plain_text name = true
  | Substituted old new body => old <> [] /\ plain_text old = true /\ plain_text new = true /\ plain_body body
  end.

(** What tmux's manual says of expanding a format for one object, whose fields [env] gives. *)
Record FormatLanguage (expand : (text -> text) -> text -> text) : Prop := {
  fl_end env : expand env [] = [];
  fl_text env c rest : plain_byte c = true -> expand env (c :: rest) = c :: expand env rest;
  fl_substituted env old new body rest :
    plain_body (Substituted old new body) ->
    expand env (body_text (Substituted old new body) ++ rest) =
    body_value env (Substituted old new body) ++ expand env rest;
}.

(** A listing: one line for each object, its format expanded. *)
Definition tmux_listing (expand : (text -> text) -> text -> text) (format : text)
    (objects : list (text -> text)) : text :=
  concat (map (fun env => expand env format ++ [newline]) objects).

Definition escaped_field (value : text) : text :=
  replace_all kFormatSeparator (kFormatEscape ++ txt "S")
    (replace_all kFormatEscape (kFormatEscape ++ txt "E") value) ++ kFormatSeparator.
Definition escaped_row (values : list text) : text := concat (map escaped_field values).

Section escape.
Context (expand : (text -> text) -> text -> text) (tmux : FormatLanguage expand).

Lemma expand_plain env s rest : plain_text s = true -> expand env (s ++ rest) = s ++ expand env rest.
Proof using tmux.
  induction s as [|c s IH]; [done|]. unfold plain_text. cbn. intros [Hc Hs]%andb_true_iff.
  rewrite (fl_text _ tmux) by done. by rewrite IH.
Qed.

Lemma format_field_written field :
  format_field field =
  body_text (Substituted kFormatSeparator (kFormatEscape ++ txt "S")
             (Substituted kFormatEscape (kFormatEscape ++ txt "E") (FieldName field))) ++ kFormatSeparator.
Proof using Type. unfold format_field. cbn [body_text]. by rewrite <-!app_assoc. Qed.

(** What tmux makes of the request for one object. *)
Lemma format_request_expands env fields :
  Forall (fun f => plain_text f = true) fields ->
  expand env (format_request fields) = escaped_row (env <$> fields).
Proof using tmux.
  unfold escaped_row. induction 1 as [|f fields Hf _ IH]; cbn [format_request]; [by rewrite (fl_end _ tmux)|].
  rewrite format_field_written, <-app_assoc, (fl_substituted _ tmux) by by split_and!.
  rewrite expand_plain by done. rewrite IH. cbn [body_value fmap list_fmap map concat]. unfold escaped_field.
  by rewrite <-app_assoc.
Qed.
End escape.

Lemma escaped_row_encodes values : escaped_row values = join_row (map encode values).
Proof.
  unfold escaped_row, join_row. rewrite map_map. f_equal. apply map_ext. intros v.
  unfold escaped_field. by rewrite encode_two_passes.
Qed.

Definition escaped_listing (rows : list (list text)) : text :=
  concat (map (fun row => escaped_row row ++ [newline]) rows).

Lemma pieces_loop_encoded fuel values :
  length values < fuel ->
  pieces_loop fuel (join_row (map encode values)) = (map encode values, []).
Proof.
  revert fuel. induction values as [|v values IH]; intros [|fuel] Hf; simpl in *; [lia|done|lia|].
  unfold join_row. simpl. fold (join_row (map encode values)).
  rewrite <-app_assoc, find_separator. rewrite app_assoc, drop_app_length'.
  - rewrite IH by lia. by rewrite <-app_assoc, take_app_length.
  - rewrite length_app. simpl. lia.
Qed.

Lemma row_ref_encoded fields values :
  length values = fields -> row_ref fields (escaped_row values) = Some values.
Proof.
  intros <-. unfold row_ref, pieces. rewrite escaped_row_encodes, pieces_loop_encoded.
  - rewrite length_map, Nat.eqb_refl, bool_decide_true by done. simpl.
    f_equal. rewrite map_map. rewrite <-(map_id values) at 2. apply map_ext, decode_encode.
  - clear. induction values as [|v values IH]; simpl; [lia|].
    unfold join_row in *. simpl. rewrite !length_app. simpl. lia.
Qed.

Lemma parse_ref_listing fuel fields rows :
  0 < fields ->
  Forall (fun row => length row = fields /\ Forall (fun v => newline ∉ v) row) rows ->
  length (escaped_listing rows) < fuel ->
  parse_ref_loop fuel fields (escaped_listing rows) = Some rows.
Proof.
  intros Hpos Hrows. revert fuel. induction Hrows as [|row rows [Hlen Hnl] _ IH];
    intros [|fuel] Hf; simpl in Hf; try lia; [done|].
  unfold escaped_listing in *. cbn [map concat] in *. rewrite !length_app in Hf. simpl in Hf.
  cbn [parse_ref_loop].
  rewrite <-app_assoc. cbn [app]. rewrite span_app.
  - destruct (escaped_row row) as [|c line] eqn:Erow.
    { exfalso. apply (f_equal length) in Erow. rewrite escaped_row_encodes in Erow.
      destruct row; simpl in *; [lia|]. unfold join_row in Erow. simpl in Erow.
      rewrite !length_app in Erow. simpl in Erow. lia. }
    cbn [app]. rewrite <-Erow. unfold line_ref. rewrite Erow, <-Erow.
    rewrite row_ref_encoded by done. simpl. rewrite IH by lia. done.
  - rewrite forallb_forall. intros c Hc%list_elem_of_In. unfold not_newline.
    apply negb_true_iff, bool_decide_false. intros ->. rewrite escaped_row_encodes in Hc.
    by eapply join_row_no_newline.
  - unfold not_newline. by rewrite bool_decide_true.
Qed.

(** * Properties *)

(** decoding a value in place, over the buffer that holds it, leaves exactly
    the functional decoding at its start, answers that length, and changes no
    byte before or after the value. *)
Theorem decode_value_in_place (buffer : text) (begin size : nat) :
  begin + size <= length buffer ->
  let '(buffer', n) := decode_value buffer begin size in
  view_text buffer' (View begin n) = decode (view_text buffer (View begin size)) /\
  n <= size /\ length buffer' = length buffer /\
  take begin buffer' = take begin buffer /\ drop (begin + size) buffer' = drop (begin + size) buffer.
Proof.
  intros Hb. destruct (split_length buffer begin) as (pre & rest & -> & <-); [lia|].
  rewrite length_app in Hb.
  destruct (split_length rest size) as (old & post & -> & <-); [lia|].
  destruct (decode_value_spec pre old post) as (gap & -> & Hlen).
  unfold view_text. simpl. rewrite !drop_app_length, !take_app_length.
  split_and!; [done | lia | rewrite !length_app in *; lia | done |].
  rewrite <-length_app, (app_assoc pre old), drop_app_length.
  rewrite app_assoc, app_assoc, drop_app_length'; [done | rewrite !length_app in *; lia].
Qed.

Lemma decode_value_in_place_witness :
  view_text (decode_value (kFormatEscape ++ txt "Sab") 0 5).1 (View 0 4) = kFormatSeparator ++ txt "a".
Proof.
  pose proof (decode_value_in_place (kFormatEscape ++ txt "Sab") 0 5 ltac:(vm_compute; lia)) as H.
  vm_compute in H |- *. apply H.
Defined.

Lemma from_recording_reads fields output :
  match from_recording fields output with
  | Some snapshot => parse_ref (length fields) output = Some (row_texts snapshot)
  | None => parse_ref (length fields) output = None
  end.
Proof.
  unfold from_recording, Snapshot_parse, parse_ref. cbn [output_ fields_].
  pose proof (parse_loop_spec (S (length output)) (S (length output)) (length fields) [] output [])
    as H. simpl app in H. change (length (@nil ascii)) with 0 in H.
  specialize (H ltac:(lia) ltac:(lia)).
  revert H. destruct (parse_ref_loop _ (length fields) output) as [texts|]; intros H.
  - destruct H as (body & views & -> & _ & _ & Htexts). by rewrite <-Htexts.
  - by destruct H as [? ->].
Qed.

(** C17: parsing over views into a buffer that is decoded as it goes refines the
    functional reference: the same outputs are refused, and the rows a caller
    reads at the end are the reference's rows. *)
Theorem Snapshot_parse_refines (fields : list text) (output : text) :
  match from_recording fields output with
  | Some snapshot => parse_ref (length fields) output = Some (row_texts snapshot)
  | None => parse_ref (length fields) output = None
  end.
Proof. apply from_recording_reads. Qed.

(** C16: what tmux prints for the format the library asks for reads back as the values
    tmux holds, separators and escape markers included: for every list of field names
    and every listing of objects none of whose asked-for values holds a line end, the
    rows read from the listing are the objects' values of those fields, in order.  The
    format is expanded by whatever expands formats as tmux's manual says. *)
Theorem listing_roundtrip (expand : (text -> text) -> text -> text)
    (fields : list text) (objects : list (text -> text)) :
  FormatLanguage expand ->
  fields <> [] -> Forall (fun f => plain_text f = true) fields ->
  Forall (fun env : text -> text => Forall (fun f => newline ∉ env f) fields) objects ->
  row_texts <$> from_recording fields (tmux_listing expand (format_request fields) objects) =
  Some ((fun env : text -> text => env <$> fields) <$> objects).
Proof.
  intros tmux Hne Hnames Hobjects.
  assert (tmux_listing expand (format_request fields) objects =
          escaped_listing ((fun env : text -> text => env <$> fields) <$> objects)) as ->.
  { unfold tmux_listing, escaped_listing. clear Hobjects. induction objects as [|env objects IH]; [done|].
    cbn [map fmap list_fmap concat]. by rewrite IH, (format_request_expands expand tmux). }
  set (rows := _ <$> objects). pose proof (from_recording_reads fields (escaped_listing rows)) as H.
  unfold parse_ref in H. rewrite parse_ref_listing in H; [| by destruct fields; simpl; [|lia] | | lia].
  - destruct (from_recording _ _); simpl; congruence.
  - subst rows. apply Forall_fmap. eapply Forall_impl; [exact Hobjects|]. intros env Hv. cbn.
    rewrite length_fmap. split; [done|]. by apply Forall_fmap.
Qed.


(** * A formatter that does what the manual says *)

Fixpoint parse_body (fuel : nat) (s : text) : option (format_body * text) :=
  match fuel with
  | 0 => None
  | S fuel =>
      if starts_with (txt "#{s/") s then
        let '(old, rest) := span plain_byte (drop 4 s) in
        let '(new, rest) := span plain_byte (drop 1 rest) in
        match old, starts_with (txt "/:") rest, parse_body fuel (drop 2 rest) with
        | _ :: _, true, Some (body, "}"%char :: rest) => Some (Substituted old new body, rest)
        | _, _, _ => None
        end
      else let '(name, rest) := span plain_byte s in Some (FieldName name, rest)
  end.

Fixpoint expand_loop (fuel : nat) (env : text -> text) (s : text) : text :=
  match fuel, s with
  | 0, _ | _, [] => []
  | S fuel, c :: s' =>
      match (if plain_byte c then None else parse_body (S (length s)) s) with
      | Some (Substituted _ _ _ as b, rest) => body_value env b ++ expand_loop fuel env rest
      | _ => c :: expand_loop fuel env s'
      end
  end.
Definition format_expansion (env : text -> text) (s : text) : text := expand_loop (length s) env s.

Definition ends_name (s : text) : Prop :=
  match s with [] => True | c :: _ => plain_byte c = false /\ c <> "#"%char end.

Lemma name_not_marked name rest :
  plain_text name = true -> ends_name rest -> starts_with (txt "#{s/") (name ++ rest) = false.
Proof.
  intros Hn Hr. apply starts_with_false. intros [r E]. destruct name as [|c name]; cbn in E.
  - subst rest. by destruct Hr.
  - injection E as -> _. done.
Qed.

Lemma parse_body_written b rest fuel :
  plain_body b -> (match b with FieldName _ => ends_name rest | _ => True end) ->
  length (body_text b) < fuel -> parse_body fuel (body_text b ++ rest) = Some (b, rest).
Proof.
  revert rest fuel. induction b as [name|old new body IH]; intros rest [|fuel] Hb Hr Hf; try lia;
    cbn [parse_body body_text].
  - rewrite name_not_marked, span_app; [done | done | by destruct rest as [|c rest]; [|destruct Hr] | done | done].
  - destruct Hb as (Hne & Ho & Hn & Hb). cbn [body_text] in Hf. rewrite !length_app in Hf. cbn in Hf.
    rewrite <-!app_assoc, starts_with_app.
    change (drop 4) with (drop (A := ascii) (length (txt "#{s/"))). rewrite drop_app_length, span_app by done.
    change (drop 1) with (drop (A := ascii) (length (txt "/"))). rewrite drop_app_length, span_app by done.
    rewrite starts_with_app. change (drop 2) with (drop (A := ascii) (length (txt "/:"))). rewrite drop_app_length.
    rewrite IH; [by destruct old | done | by destruct body |].
    change (length (txt "#{s/")) with 4 in Hf. lia.
Qed.

Lemma span_shorter p (s : text) : length (span p s).2 <= length s.
Proof. destruct (span p s) as [a r] eqn:E. apply span_spec in E as (-> & _). rewrite length_app. cbn. lia. Qed.

Lemma parse_body_shorter fuel s b rest :
  parse_body fuel s = Some (b, rest) ->
  length rest <= length s /\ (match b with FieldName _ => True | _ => length rest < length s end).
Proof.
  revert s b rest. induction fuel as [|fuel IH]; intros s b rest; [done|]. cbn [parse_body].
  destruct (starts_with _ s) eqn:Es.
  - apply starts_with_spec in Es as [r ->]. pose proof (span_shorter plain_byte (drop 4 (txt "#{s/" ++ r))) as H1.
    destruct (span plain_byte (drop 4 _)) as [old r1]. pose proof (span_shorter plain_byte (drop 1 r1)) as H2.
    destruct (span plain_byte (drop 1 r1)) as [new r2]. destruct old; [done|]. destruct (starts_with _ r2); [|done].
    destruct (parse_body fuel (drop 2 r2)) as [[body r3]|] eqn:E; [|done].
    apply IH in E as [E _]. destruct r3 as [|c r3]; [done|]. destruct (decide (c = "}"%char)) as [->|Hc].
    + intros [= <- <-]. rewrite !length_drop, ?length_app in *. cbn in *. split; lia.
    + intros H. exfalso. revert H. clear -Hc. destruct c as [[] [] [] [] [] [] [] []]; done.
  - pose proof (span_shorter plain_byte s) as H1. destruct (span plain_byte s). intros [= <- <-]. by split.
Qed.

Lemma expand_loop_fuel env s fuel :
  length s <= fuel -> expand_loop fuel env s = format_expansion env s.
Proof.
  unfold format_expansion. revert fuel. induction s as [s IH] using text_length_ind. intros fuel Hf.
  destruct s as [|c s]; [by destruct fuel|]. destruct fuel as [|fuel]; [cbn in Hf; lia|].
  cbn [length expand_loop]. cbn [length] in Hf.
  assert (expand_loop fuel env s = expand_loop (length s) env s) as E by (apply IH; cbn; lia).
  destruct (plain_byte c); [by rewrite E|].
  destruct (parse_body _ (c :: s)) as [[b rest]|] eqn:Eb; [|by rewrite E].
  apply parse_body_shorter in Eb as [_ Hr]. destruct b; [by rewrite E|]. f_equal.
  cbn [length] in Hr. rewrite (IH rest ltac:(cbn; lia) fuel), (IH rest ltac:(cbn; lia) (length s)) by lia. done.
Qed.

Lemma format_expansion_language : FormatLanguage format_expansion.
Proof.
  split.
  - done.
  - intros env c rest Hc. unfold format_expansion at 1. cbn [length expand_loop]. by rewrite Hc.
  - intros env old new body rest Hb. unfold format_expansion at 1.
    set (s := body_text _ ++ rest). assert (exists s', s = "#"%char :: s') as [s' Es] by by eexists.
    rewrite Es. cbn [length expand_loop].
    change (plain_byte "#") with false. cbn match. rewrite <-Es. change (S (length s')) with (length ("#"%char :: s')).
    rewrite <-Es. unfold s at 2. rewrite parse_body_written; [|done|done|].
    + cbn match. f_equal. apply expand_loop_fuel.
      assert (length s = S (length s')) as Hl by by rewrite Es. subst s.
      cbn [body_text] in Hl. rewrite !length_app in Hl. change (length (txt "#{s/")) with 4 in Hl. lia.
    + subst s. rewrite length_app. lia.
Qed.

Lemma listing_roundtrip_witness :
  let window (field : text) : text :=
    if bool_decide (field = txt "session_id") then txt "$0"
    else txt "a" ++ kFormatSeparator ++ kFormatEscape ++ txt "S" in
  row_texts <$> from_recording [txt "session_id"; txt "window_name"]
    (tmux_listing format_expansion (format_request [txt "session_id"; txt "window_name"]) [window]) =
  Some [[txt "$0"; txt "a" ++ kFormatSeparator ++ kFormatEscape ++ txt "S"]].
Proof.
  apply (listing_roundtrip format_expansion); [apply format_expansion_language | done | by repeat constructor |].
  repeat constructor; vm_compute; set_solver.
Defined.
