(* ===== verification/Command.v ===== *)
(** Commands and failures: [include/libtmux/command.hpp],
    [include/libtmux/delivery.hpp], [include/libtmux/batch.hpp].

    A failure says what went wrong and how far the command got; a request is an
    argv whose arguments carry the parts of them that are secret; a batch is
    several requests joined by tmux's separator.  The theorems: the rendered line
    of a failure always tells its delivery status, and a batch is read back into
    the commands it was made of. *)

From S2P Require Import Prelude.

Inductive DeliveryStatus := not_started | written | replied | indeterminate.

#[export] Instance DeliveryStatus_eq_dec : EqDecision DeliveryStatus.
Proof. solve_decision. Defined.

Definition delivery_name (status : DeliveryStatus) : text :=
  match status with
  | not_started => txt "not_started"
  | written => txt "written"
  | replied => txt "replied"
  | indeterminate => txt "indeterminate"
  end.

Inductive FailureKind :=
  | validation | spawn | pre_exec | pipe | timeout | refused | missing | truncated
  | unsupported | overloaded | cancelled.

#[export] Instance FailureKind_eq_dec : EqDecision FailureKind.
Proof. solve_decision. Defined.

Definition failure_kind_text (kind : FailureKind) : text :=
  match kind with
  | validation => txt "the request was rejected before tmux ran"
  | spawn => txt "tmux could not be started"
  | pre_exec => txt "the child failed before reaching tmux"
  | pipe => txt "the transport failed"
  | timeout => txt "tmux did not answer in time"
  | refused => txt "tmux refused the command"
  | missing => txt "tmux has no such object"
  | truncated => txt "the answer did not fit"
  | unsupported => txt "the backend does not support this operation"
  | overloaded => txt "the engine has more work in flight than it accepts"
  | cancelled => txt "the caller withdrew the command"
  end.

(** [exit_code] is an [int]: any value of [Z] in its range. *)
Record CommandFailure := MkFailure {
  failure_kind : FailureKind;
  delivery : DeliveryStatus;
  exit_code : Z;
  diagnostic : text;
}.

(** [std::to_string(int)]. *)
Definition dec_Z (z : Z) : text :=
  match z with
  | Z0 => dec 0
  | Zpos p => dec (Npos p)
  | Zneg p => txt "-" ++ dec (Npos p)
  end.

Definition failure_text (f : CommandFailure) : text :=
  failure_kind_text (failure_kind f) ++
  (if bool_decide (diagnostic f = []) then [] else txt ": " ++ diagnostic f) ++
  txt " (" ++
  (if bool_decide (delivery f = replied) && negb (exit_code f =? 0)%Z && negb (exit_code f =? -1)%Z
   then txt "exit " ++ dec_Z (exit_code f) ++ txt ", " else []) ++
  delivery_name (delivery f) ++ txt ")".

(** * Arguments and requests *)

Record CommandArgument := MkArgument { value : text; sensitive_parts : list text }.

Definition plain (v : text) : CommandArgument := MkArgument v [].

Definition sensitive (v : text) : CommandArgument :=
  MkArgument v (if bool_decide (v = []) then [] else [v]).

Definition sensitive_range (v : text) (offset size : nat) : CommandArgument :=
  if ((length v <? offset) || (length v - offset <? size))%nat then MkArgument v [v]
  else if (size =? 0)%nat then MkArgument v []
  else MkArgument v [take size (drop offset v)].

Inductive ArgumentSensitivity := public_value | secret.
Definition sensitivity (a : CommandArgument) : ArgumentSensitivity :=
  match sensitive_parts a with [] => public_value | _ => secret end.

Definition CommandRequest := list CommandArgument.
Definition argv (r : CommandRequest) : list text := value <$> r.

(** * Batches *)

Definition kCommandSeparator : text := txt ";".

Definition CommandBatch := list CommandRequest.

Definition batch_add (command : CommandRequest) (b : CommandBatch) : CommandBatch * bool :=
  if bool_decide (length command = 0) then (b, false) else (b ++ [command], true).

(** The loop of [request]: a separator before every command but the first. *)
Fixpoint batch_loop (result : CommandRequest) (commands : CommandBatch) : CommandRequest :=
  match commands with
  | [] => result
  | command :: rest =>
      batch_loop
        ((if bool_decide (length result = 0) then result
          else result ++ [plain kCommandSeparator]) ++ command) rest
  end.
Definition batch_request (b : CommandBatch) : CommandRequest := batch_loop [] b.

(** How tmux reads an argv: a command ends at each separator word. *)
Fixpoint split_commands (words : list text) : list (list text) :=
  match words with
  | [] => [[]]
  | w :: rest =>
      if bool_decide (w = kCommandSeparator) then [] :: split_commands rest
      else match split_commands rest with
           | c :: cs => (w :: c) :: cs
           | [] => [[w]]
           end
  end.

(** The requests a sequence of [add] calls leaves in the batch. *)
Definition batch_of (commands : list CommandRequest) : CommandBatch :=
  foldl (fun b c => (batch_add c b).1) [] commands.

(** * Properties *)

Lemma delivery_name_suffix d1 d2 a1 a2 :
  a1 ++ delivery_name d1 ++ txt ")" = a2 ++ delivery_name d2 ++ txt ")" -> d1 = d2.
Proof.
  intros H. apply (f_equal reverse) in H. rewrite !reverse_app in H.
  destruct d1, d2; try done; vm_compute (reverse (txt _)) in H; cbn in H; discriminate.
Qed.

(** The line that reports a failure always tells how far the command got: two
    failures that render alike have the same delivery status, whatever their
    diagnostics hold. *)
Theorem failure_text_delivery f g :
  failure_text f = failure_text g -> delivery f = delivery g.
Proof.
  unfold failure_text. intros H. rewrite !app_assoc in H. rewrite <-!(app_assoc _ (delivery_name _)) in H.
  by apply delivery_name_suffix in H.
Qed.

Lemma batch_of_spec commands :
  batch_of commands = filter (fun c => c <> []) commands.
Proof.
  unfold batch_of. assert (forall b, foldl (fun b c => (batch_add c b).1) b commands =
    b ++ filter (fun c => c <> []) commands) as E; [|by rewrite E].
  induction commands as [|c cs IH]; intros b; cbn [foldl]; [by rewrite app_nil_r|].
  rewrite IH. unfold batch_add. destruct c as [|a c]; cbn [length].
  - rewrite bool_decide_true by done. cbn [fst]. by rewrite filter_cons_False by (intros H; by apply H).
  - rewrite bool_decide_false by done. cbn [fst]. by rewrite filter_cons_True, <-app_assoc.
Qed.

Lemma split_commands_word w rest :
  w <> kCommandSeparator ->
  split_commands (w :: rest) =
  match split_commands rest with c :: cs => (w :: c) :: cs | [] => [[w]] end.
Proof. intros H. cbn [split_commands]. by rewrite bool_decide_false. Qed.

Lemma split_commands_app c rest :
  kCommandSeparator ∉ c ->
  split_commands (c ++ kCommandSeparator :: rest) = c :: split_commands rest.
Proof.
  induction c as [|w c IH]; intros Hc.
  - cbn [app split_commands]. by rewrite bool_decide_true.
  - apply not_elem_of_cons in Hc as [Hne Hc]. cbn [app].
    by rewrite split_commands_word, IH by congruence.
Qed.

Lemma split_commands_last c : kCommandSeparator ∉ c -> split_commands c = [c].
Proof.
  induction c as [|w c IH]; intros Hc; [done|].
  apply not_elem_of_cons in Hc as [Hne Hc]. by rewrite split_commands_word, IH by congruence.
Qed.

Lemma batch_loop_split b result :
  result <> [] -> Forall (fun c => c <> []) b ->
  kCommandSeparator ∉ argv result -> Forall (fun c => kCommandSeparator ∉ argv c) b ->
  split_commands (argv (batch_loop result b)) = argv result :: (argv <$> b).
Proof.
  assert (forall b result pre, result <> [] -> Forall (fun c => c <> []) b ->
    kCommandSeparator ∉ argv result -> Forall (fun c => kCommandSeparator ∉ argv c) b ->
    exists rest, argv (batch_loop (pre ++ result) b) = argv pre ++ rest /\
                 split_commands rest = argv result :: (argv <$> b)) as Hgen.
  { clear. induction b as [|c b IH]; intros result pre Hr Hb Hs Hbs; cbn [batch_loop].
    - exists (argv result). split; [apply fmap_app | by apply split_commands_last].
    - apply Forall_cons in Hb as [Hc Hb]. apply Forall_cons in Hbs as [Hcs Hbs].
      rewrite bool_decide_false
        by (rewrite length_app; destruct result; [done|]; cbn; lia).
      destruct (IH c (pre ++ result ++ [plain kCommandSeparator]) Hc Hb Hcs Hbs) as (rest & E & Hsplit).
      exists (argv result ++ kCommandSeparator :: rest). split.
      + rewrite <-!app_assoc in *. rewrite E. unfold argv. rewrite !fmap_app, <-!app_assoc. done.
      + rewrite split_commands_app by done. rewrite Hsplit. done. }
  intros Hr Hb Hs Hbs. destruct (Hgen b result [] Hr Hb Hs Hbs) as (rest & E & Hsplit).
  change (argv (batch_loop result b) = rest) in E. by rewrite E, Hsplit.
Qed.

(** A batch reaches tmux as the commands it was made of: splitting the argv at
    the separator words gives back every non-empty command that was added, in
    order, provided no argument is itself the separator word; an empty command is
    refused rather than changing its neighbour, and a batch of one is that
    command's own argv. *)
Theorem batch_request_split commands :
  Forall (fun c => kCommandSeparator ∉ argv c) commands ->
  split_commands (argv (batch_request (batch_of commands))) =
    match filter (fun c => c <> []) commands with
    | [] => [[]]
    | kept => argv <$> kept
    end /\
  (forall c, c <> [] -> batch_request (batch_of [c]) = c).
Proof.
  intros Hs. split.
  - rewrite batch_of_spec. unfold batch_request.
    assert (Forall (fun c => c <> []) (filter (fun c : CommandRequest => c <> []) commands) /\
      Forall (fun c => kCommandSeparator ∉ argv c) (filter (fun c : CommandRequest => c <> []) commands))
      as [H1 H2].
    { rewrite !Forall_forall in *. split; intros c [Hc Hin]%list_elem_of_filter; auto. }
    destruct (filter _ commands) as [|c cs]; [done|].
    apply Forall_cons in H1 as [Hc H1]. apply Forall_cons in H2 as [Hcs H2].
    cbn [batch_loop]. rewrite bool_decide_true by done. cbn [app]. by apply batch_loop_split.
  - intros c Hc. rewrite batch_of_spec, filter_cons_True by done. cbn. done.
Qed.

Lemma failure_text_delivery_witness :
  failure_text (MkFailure refused replied 1 (txt "no session")) =
    txt "tmux refused the command: no session (exit 1, replied)" /\
  delivery (MkFailure refused replied 1 (txt "no session")) = replied.
Proof.
  split; [reflexivity|].
  apply (failure_text_delivery (MkFailure refused replied 1 (txt "no session"))
           (MkFailure refused replied 1 (txt "no session"))). reflexivity.
Defined.

Lemma batch_request_split_witness :
  split_commands (argv (batch_request (batch_of
    [[plain (txt "kill-window")]; []; [plain (txt "display"); plain (txt "a;")]]))) =
  [[txt "kill-window"]; [txt "display"; txt "a;"]].
Proof.
  assert (forall ws : list text, forallb (fun w => negb (bool_decide (w = kCommandSeparator))) ws = true ->
    kCommandSeparator ∉ ws) as Hno.
  { intros ws H Hin. apply list_elem_of_In in Hin. rewrite forallb_forall in H.
    specialize (H _ Hin). rewrite bool_decide_true in H; done. }
  destruct (batch_request_split
    [[plain (txt "kill-window")]; []; [plain (txt "display"); plain (txt "a;")]]) as [H _].
  - repeat constructor; apply Hno; reflexivity.
  - rewrite H. reflexivity.
Defined.
