(* ===== verification/Redaction.v ===== *)
(** Redaction and rendering of commands: [src/backend.cpp] (the text helpers).

    A command's secrets are the non-empty sensitive parts of its arguments.
    [redacted_text] replaces them, leftmost first and longest at a tie, and
    [rendered_command] is the one line a log or a diagnostic shows.  The theorems:
    no secret survives in a redacted text and the substitution is exactly the
    leftmost-longest one; a rendered command is bounded and never ends in half a
    character. *)

From S2P Require Import Prelude Command.

(** [text.find(part) != npos]. *)
Definition occurs (part s : text) : bool :=
  match find_sub part s with Some _ => true | None => false end.

Definition add_part (parts : list text) (part : text) : list text :=
  if bool_decide (part <> [] /\ part ∉ parts) then parts ++ [part] else parts.

(** [sensitive_parts(command)]. *)
Definition command_parts (command : CommandRequest) : list text :=
  foldl (fun parts argument => foldl add_part parts (sensitive_parts argument)) [] command.

(** [candidate < match], where [None] is [npos]. *)
Definition before (a b : option nat) : bool :=
  match a, b with
  | Some x, Some y => (x <? y)%nat
  | Some _, None => true
  | None, _ => false
  end.

Definition better (t : text) (cursor : nat) (best : option nat * nat) (part : text) :
  option nat * nat :=
  let candidate := find_from part t cursor in
  if before candidate best.1 ||
     (bool_decide (candidate = best.1) && (best.2 <? length part)%nat)
  then (candidate, length part) else best.

Definition next_match (parts : list text) (t : text) (cursor : nat) : option nat * nat :=
  foldl (better t cursor) (None, 0) parts.

Fixpoint redact_loop (fuel : nat) (parts : list text) (marker t : text) (cursor : nat)
    (result : text) : text :=
  match fuel with
  | 0 => result
  | S fuel' =>
      if (cursor <? length t)%nat then
        match next_match parts t cursor with
        | (None, _) => result ++ drop cursor t
        | (Some m, len) =>
            redact_loop fuel' parts marker t (m + len)
              (result ++ take (m - cursor) (drop cursor t) ++ marker)
        end
      else result
  end.

Definition marker_for (parts : list text) : text :=
  if existsb (fun part => occurs part (txt "[REDACTED]")) parts then [] else txt "[REDACTED]".

Definition redacted_text (t : text) (parts : list text) : text :=
  let marker := marker_for parts in
  let result := redact_loop (length t) parts marker t 0 [] in
  if existsb (fun part => occurs part result) parts then marker else result.

(** * Rendering *)

(** A continuation byte of UTF-8: [(c & 0xC0) == 0x80]. *)
Definition is_continuation (c : ascii) : bool :=
  N.eqb (N.land (byte_of c) 192) 128.

Fixpoint cut_loop (steps : nat) (s : text) (cut : nat) : nat :=
  match steps with
  | 0 => cut
  | S steps' =>
      if (0 <? cut)%nat && match s !! cut with Some c => is_continuation c | None => false end
      then cut_loop steps' s (cut - 1) else cut
  end.
Definition utf8_safe_cut (s : text) (maximum : nat) : nat := cut_loop 3 s maximum.

Definition render_maximum : nat := 300.

Fixpoint render_loop (parts : list text) (arguments : list CommandArgument) (rendered : text)
    (previous_was_format_flag : bool) : text :=
  match arguments with
  | [] => rendered
  | argument :: rest =>
      let rendered := if bool_decide (rendered = []) then rendered else rendered ++ txt " " in
      let rendered := rendered ++
        (if previous_was_format_flag then txt "<format>"
         else redacted_text (value argument) parts) in
      if (render_maximum <? length rendered)%nat
      then take (utf8_safe_cut rendered render_maximum) rendered ++ txt "..."
      else render_loop parts rest rendered (bool_decide (value argument = txt "-F"))
  end.

Definition rendered_command (command : CommandRequest) : text :=
  render_loop (command_parts command) command [] false.

(** [Backend::redact]. *)
Definition redact (failure : CommandFailure) (command : CommandRequest) : CommandFailure :=
  MkFailure (failure_kind failure) (delivery failure) (exit_code failure)
    (redacted_text (diagnostic failure) (command_parts command)).

(** * What redaction means *)

(** [Redacted parts marker s out]: [out] is [s] with the leftmost occurrence of a
    part, the longest one where several start, replaced by the marker, and so on
    after it. *)
Inductive Redacted (parts : list text) (marker : text) : text -> text -> Prop :=
  | redacted_none s :
      (forall p, p ∈ parts -> occurs p s = false) -> Redacted parts marker s s
  | redacted_part pre part rest out :
      part ∈ parts ->
      (forall q j, q ∈ parts -> j < length pre ->
                   starts_with q (drop j (pre ++ part ++ rest)) = false) ->
      (forall q, q ∈ parts -> starts_with q (part ++ rest) = true -> length q <= length part) ->
      Redacted parts marker rest out ->
      Redacted parts marker (pre ++ part ++ rest) (pre ++ marker ++ out).

(** UTF-8 text: characters of a leading byte and at most three continuation bytes. *)
Definition utf8_char (c : text) : Prop :=
  exists b rest, c = b :: rest /\ is_continuation b = false /\
                 Forall (fun d => is_continuation d = true) rest /\ length rest <= 3.
Definition utf8_text (s : text) : Prop := exists cs, Forall utf8_char cs /\ s = concat cs.

(** * Lemmas *)

Lemma occurs_false p s : occurs p s = false <-> forall j, starts_with p (drop j s) = false.
Proof. unfold occurs. rewrite <-find_sub_None. by destruct (find_sub p s). Qed.

Lemma occurs_nil p : p <> [] -> occurs p [] = false.
Proof. intros H. apply occurs_false. intros j. rewrite drop_nil. by destruct p. Qed.

Lemma existsb_occurs_false parts s :
  existsb (fun p => occurs p s) parts = false <-> forall p, p ∈ parts -> occurs p s = false.
Proof.
  induction parts as [|q parts IH]; cbn [existsb].
  - split; [|done]. intros _ p Hp. by apply elem_of_nil in Hp.
  - rewrite orb_false_iff, IH. split.
    + intros [Hq H] p [->|Hp]%elem_of_cons; auto.
    + intros H. split; [apply H; left | intros p Hp; apply H; by right].
Qed.

Lemma existsb_occurs_true parts s :
  existsb (fun p => occurs p s) parts = true <-> exists p, p ∈ parts /\ occurs p s = true.
Proof.
  rewrite existsb_exists. split; intros (p & H & Ho); exists p; split; try done;
    by apply list_elem_of_In.
Qed.

Lemma command_parts_spec command p :
  p ∈ command_parts command <->
  p <> [] /\ exists a, a ∈ command /\ p ∈ sensitive_parts a.
Proof.
  assert (forall ps acc, p ∈ foldl add_part acc ps <-> p ∈ acc \/ (p <> [] /\ p ∈ ps)) as Hone.
  { induction ps as [|q ps IH]; intros acc; cbn [foldl].
    { rewrite elem_of_nil. tauto. }
    rewrite IH. unfold add_part. rewrite elem_of_cons. case_bool_decide as Hq.
    - rewrite elem_of_app, list_elem_of_singleton. destruct Hq. naive_solver.
    - destruct (decide (q ∈ acc)); [naive_solver|].
      destruct (decide (q = [])); [naive_solver|]. exfalso. by apply Hq. }
  unfold command_parts.
  assert (forall acc, p ∈ foldl (fun parts a => foldl add_part parts (sensitive_parts a)) acc command <->
    p ∈ acc \/ (p <> [] /\ exists a, a ∈ command /\ p ∈ sensitive_parts a)) as ->.
  { induction command as [|a command IH]; intros acc; cbn [foldl].
    - split; [by left|]. intros [?|(_ & a & Ha & _)]; [done|]. by apply elem_of_nil in Ha.
    - rewrite IH, Hone. setoid_rewrite elem_of_cons. naive_solver. }
  rewrite elem_of_nil. tauto.
Qed.

Lemma command_parts_nonempty command : Forall (fun p => p <> []) (command_parts command).
Proof. apply Forall_forall. intros p Hp. by apply command_parts_spec in Hp as [? _]. Qed.

(** [find_from] as a search of the remaining text. *)
Lemma find_from_suffix p t cursor :
  cursor <= length t -> find_from p t cursor = Nat.add cursor <$> find_sub p (drop cursor t).
Proof. intros H. unfold find_from. by rewrite (proj2 (Nat.leb_le _ _) H). Qed.

(** The best candidate so far, over the parts already tried. *)
Definition best_of (tried : list text) (t : text) (cursor : nat) (best : option nat * nat) : Prop :=
  match best with
  | (None, _) => forall q, q ∈ tried -> find_from q t cursor = None
  | (Some m, len) =>
      (exists part, part ∈ tried /\ find_from part t cursor = Some m /\ length part = len) /\
      forall q j, q ∈ tried -> find_from q t cursor = Some j ->
                  m <= j /\ (j = m -> length q <= len)
  end.

Lemma better_best tried t cursor best part :
  best_of tried t cursor best -> best_of (tried ++ [part]) t cursor (better t cursor best part).
Proof.
  destruct best as [m len]. unfold better. cbn [fst snd]. intros Hb.
  destruct (find_from part t cursor) as [c|] eqn:Hc; destruct m as [m|]; cbn [before orb].
  - destruct Hb as [(p & Hp & Hpm & Hlen) Hmin].
    destruct ((c <? m)%nat || bool_decide (Some c = Some m) && (len <? length part)%nat) eqn:E.
    + assert (c < m \/ (c = m /\ len < length part)) as Hlt.
      { apply orb_true_iff in E as [E|E]; to_props; [by left | right; split; [congruence|done]]. }
      split; [exists part; split; [apply elem_of_app; right; left | done]|].
      intros q j [Hq|Hq%list_elem_of_singleton]%elem_of_app Hj.
      * specialize (Hmin q j Hq Hj) as [? ?]. split; [lia|]. intros ->.
        destruct Hlt as [?|[-> ?]]; [lia|]. assert (length q <= len) by auto. lia.
      * subst q. rewrite Hc in Hj. simplify_eq. done.
    + apply orb_false_iff in E as [E1 E2]. to_props.
      split; [exists p; split; [apply elem_of_app; by left | done]|].
      intros q j [Hq|Hq%list_elem_of_singleton]%elem_of_app Hj; [by eauto|].
      subst q. rewrite Hc in Hj. simplify_eq. split; [done|]. intros ->.
      apply andb_false_iff in E2 as [E2|E2]; to_props; [congruence | done].
  - split; [exists part; split; [apply elem_of_app; right; left | done]|].
    intros q j [Hq|Hq%list_elem_of_singleton]%elem_of_app Hj; [by rewrite Hb in Hj|].
    subst q. rewrite Hc in Hj. by simplify_eq.
  - rewrite bool_decide_false by done. cbn [andb].
    destruct Hb as [(p & Hp & Hpm & Hlen) Hmin].
    split; [exists p; split; [apply elem_of_app; by left | done]|].
    intros q j [Hq|Hq%list_elem_of_singleton]%elem_of_app Hj; [by eauto|].
    subst q. by rewrite Hc in Hj.
  - assert (forall q, q ∈ tried ++ [part] -> find_from q t cursor = None) as Hnone.
    { intros q [Hq|Hq%list_elem_of_singleton]%elem_of_app; [by apply Hb | by subst q]. }
    by destruct (_ && _).
Qed.

Lemma next_match_best parts t cursor : best_of parts t cursor (next_match parts t cursor).
Proof.
  unfold next_match.
  assert (forall tried best, best_of tried t cursor best ->
    best_of (tried ++ parts) t cursor (foldl (better t cursor) best parts)) as H.
  { induction parts as [|p parts IH]; intros tried best Hb; cbn [foldl]; [by rewrite app_nil_r|].
    rewrite (cons_middle p), app_assoc. apply IH. by apply better_best. }
  apply (H []). intros q Hq. by apply elem_of_nil in Hq.
Qed.

(** The loop computes the leftmost-longest substitution of what is left. *)
Lemma redact_loop_spec fuel parts marker t cursor result :
  Forall (fun p => p <> []) parts ->
  cursor <= length t -> length t - cursor <= fuel ->
  exists out, redact_loop fuel parts marker t cursor result = result ++ out /\
              Redacted parts marker (drop cursor t) out.
Proof.
  intros Hne. revert cursor result. induction fuel as [|fuel IH]; intros cursor result Hle Hf.
  { exists []. rewrite drop_ge by lia. cbn [redact_loop]. rewrite app_nil_r. split; [done|].
    apply redacted_none. intros p Hp. apply occurs_nil. by eapply Forall_forall in Hne. }
  cbn [redact_loop]. destruct (Nat.ltb_spec cursor (length t)) as [Hlt|Hge].
  2:{ exists []. rewrite drop_ge by lia. rewrite app_nil_r. split; [done|].
      apply redacted_none. intros p Hp. apply occurs_nil. by eapply Forall_forall in Hne. }
  pose proof (next_match_best parts t cursor) as Hb.
  destruct (next_match parts t cursor) as [[m|] len].
  - destruct Hb as [(part & Hp & Hm & Hlen) Hmin].
    assert (forall q, q ∈ parts -> find_from q t cursor = Nat.add cursor <$> find_sub q (drop cursor t))
      as Hfind by (intros; apply find_from_suffix; lia).
    rewrite Hfind in Hm by done. apply fmap_Some in Hm as (i & Hi & ->).
    pose proof Hi as Hbound. apply find_sub_bound in Hbound. rewrite length_drop in Hbound.
    assert (part <> []) as Hpne by (by eapply Forall_forall in Hne).
    assert (0 < length part) by (destruct part; [done | cbn; lia]).
    destruct (IH (cursor + i + len)
               (result ++ take (cursor + i - cursor) (drop cursor t) ++ marker)) as (out & -> & Hout);
      [lia | lia |].
    pose proof Hi as Hocc. apply find_sub_Some in Hocc as [(pre & rest & Heq & Hpre) _].
    replace (cursor + i - cursor) with i by lia.
    exists (pre ++ marker ++ out). split.
    { rewrite <-Hpre, Heq, take_app_length. by rewrite <-!app_assoc. }
    rewrite Heq. apply redacted_part; [done | | |].
    + intros q j Hq Hj. rewrite <-Heq. apply not_true_iff_false. intros Hs.
      destruct (find_sub q (drop cursor t)) as [k|] eqn:Hk.
      * assert (k <= j) as Hkj.
        { apply find_sub_Some in Hk as [_ Hmink]. destruct (decide (j < k)) as [Hlt'|]; [|lia].
          specialize (Hmink j Hlt'). congruence. }
        destruct (Hmin q (cursor + k) Hq) as [Hle' _]; [by rewrite Hfind, Hk|]. lia.
      * rewrite find_sub_None in Hk. by rewrite Hk in Hs.
    + intros q Hq Hs. rewrite Hlen.
      destruct (find_sub q (drop cursor t)) as [k|] eqn:Hk.
      * destruct (Hmin q (cursor + k) Hq) as [Hle' Hlen']; [by rewrite Hfind, Hk|].
        apply Hlen'. apply find_sub_Some in Hk as [_ Hmink].
        destruct (decide (i < k)) as [Hlt'|]; [|lia]. specialize (Hmink i Hlt').
        by rewrite Heq, <-Hpre, drop_app_length, Hs in Hmink.
      * rewrite find_sub_None in Hk. specialize (Hk i).
        by rewrite Heq, <-Hpre, drop_app_length, Hs in Hk.
    + replace (drop (cursor + i + len) t) with rest in Hout; [done|].
      rewrite <-!drop_drop, Heq, <-Hpre, drop_app_length. subst len. by rewrite drop_app_length.
  - exists (drop cursor t). split; [done|]. apply redacted_none. intros q Hq.
    specialize (Hb q Hq). rewrite find_from_suffix in Hb by lia. apply fmap_None in Hb.
    unfold occurs. by rewrite Hb.
Qed.

Lemma Redacted_split (parts : list text) pre1 part1 rest1 pre2 part2 rest2 :
  part1 ∈ parts -> part2 ∈ parts ->
  pre1 ++ part1 ++ rest1 = pre2 ++ part2 ++ rest2 ->
  (forall q j, q ∈ parts -> j < length pre2 ->
               starts_with q (drop j (pre2 ++ part2 ++ rest2)) = false) ->
  length pre2 <= length pre1.
Proof.
  intros H1 H2 Heq Hleft. destruct (decide (length pre1 < length pre2)) as [Hlt|]; [|lia].
  specialize (Hleft part1 (length pre1) H1 Hlt). rewrite <-Heq, drop_app_length in Hleft.
  by rewrite starts_with_app in Hleft.
Qed.

(** The specification determines the redacted text. *)
Lemma Redacted_det parts marker s out1 out2 :
  Redacted parts marker s out1 -> Redacted parts marker s out2 -> out1 = out2.
Proof.
  intros H1. revert out2.
  assert (forall q pre part rest, q = part -> occurs part (pre ++ part ++ rest) = false -> False) as Habs.
  { intros q pre part rest -> H. rewrite occurs_false in H. specialize (H (length pre)).
    by rewrite drop_app_length, starts_with_app in H. }
  induction H1 as [s Hs | pre part rest out Hp Hleft Hlong Hr IH]; intros out2 H2.
  - inversion H2 as [|pre part rest out Hp]; subst; [done|]. exfalso. eauto.
  - inversion H2 as [s Hs | pre' part' rest' out' Hp' Hleft' Hlong' Hr' Heq]; subst.
    { exfalso. eauto. }
    assert (length pre = length pre') as Hlen.
    { apply Nat.le_antisymm.
      - by apply (Redacted_split parts pre' part' rest' pre part rest).
      - by apply (Redacted_split parts pre part rest pre' part' rest'). }
    apply app_inj_1 in Heq as [-> Heq]; [|done].
    assert (length part = length part') as Hlen'.
    { apply Nat.le_antisymm.
      - apply Hlong'; [done|]. rewrite Heq. apply starts_with_app.
      - apply Hlong; [done|]. rewrite <-Heq. apply starts_with_app. }
    apply app_inj_1 in Heq as [-> ->]; [|done]. by rewrite (IH out').
Qed.

Lemma marker_clean parts p :
  Forall (fun q => q <> []) parts -> p ∈ parts -> occurs p (marker_for parts) = false.
Proof.
  intros Hne Hp. unfold marker_for. destruct (existsb _ parts) eqn:E.
  - apply occurs_nil. by eapply Forall_forall in Hne.
  - rewrite existsb_occurs_false in E. auto.
Qed.

(** The fuel and the search do not show: a redacted text is the substitution, or
    the marker alone where the substitution itself spells a secret. *)
Lemma redacted_text_spec t parts :
  Forall (fun p => p <> []) parts ->
  exists out, Redacted parts (marker_for parts) t out /\
    ((forall p, p ∈ parts -> occurs p out = false) /\ redacted_text t parts = out \/
     (exists p, p ∈ parts /\ occurs p out = true) /\ redacted_text t parts = marker_for parts).
Proof.
  intros Hne.
  destruct (redact_loop_spec (length t) parts (marker_for parts) t 0 []) as (out & Heq & Hout);
    [done | lia | lia |].
  exists out. split; [done|]. unfold redacted_text. rewrite Heq. cbn [app].
  destruct (existsb (fun p => occurs p out) parts) eqn:E.
  - right. by apply existsb_occurs_true in E.
  - left. by rewrite existsb_occurs_false in E.
Qed.

Lemma redacted_text_clean t parts p :
  Forall (fun p => p <> []) parts -> p ∈ parts -> occurs p (redacted_text t parts) = false.
Proof.
  intros Hne Hp. destruct (redacted_text_spec t parts Hne) as (out & _ & [[Hclean ->]|[_ ->]]);
    [by apply Hclean | by apply marker_clean].
Qed.

(** C40: Redaction hides every secret and nothing else.  None of the parts occurs in
    the result; the result is the leftmost-longest substitution of the parts by the
    marker, which [Redacted] determines uniquely, unless that substitution itself
    spells a secret, and then it is the marker alone; a text without secrets is
    returned as it is. *)
Theorem redacted_text_hides t parts :
  Forall (fun p => p <> []) parts ->
  (forall p, p ∈ parts -> occurs p (redacted_text t parts) = false) /\
  (forall out, Redacted parts (marker_for parts) t out ->
     redacted_text t parts =
       if existsb (fun p => occurs p out) parts then marker_for parts else out) /\
  ((forall p, p ∈ parts -> occurs p t = false) -> redacted_text t parts = t).
Proof.
  intros Hne. destruct (redacted_text_spec t parts Hne) as (out & Hout & Hres). split_and!.
  - intros p Hp. by apply redacted_text_clean.
  - intros out' Hout'. rewrite (Redacted_det _ _ _ _ _ Hout' Hout).
    destruct Hres as [[Hclean ->]|[Hdirty ->]].
    + by rewrite (proj2 (existsb_occurs_false parts out) Hclean).
    + by rewrite (proj2 (existsb_occurs_true parts out) Hdirty).
  - intros Hclean. assert (out = t) as -> by
      (eapply Redacted_det; [done | by apply redacted_none]).
    destruct Hres as [[_ ->]|[(p & Hp & Hocc) _]]; [done|]. rewrite Hclean in Hocc; done.
Qed.

(** * Rendering never splits a character *)

Lemma cut_loop_le steps s cut : cut_loop steps s cut <= cut.
Proof.
  revert cut. induction steps as [|steps IH]; intros cut; cbn [cut_loop]; [done|].
  destruct (_ && _); [|done]. specialize (IH (cut - 1)). lia.
Qed.

Lemma cut_loop_start steps s k d b :
  d <= steps -> s !! k = Some b -> is_continuation b = false ->
  (forall i, 0 < i <= d -> exists c, s !! (k + i) = Some c /\ is_continuation c = true) ->
  cut_loop steps s (k + d) = k.
Proof.
  intros Hd Hb Hlead. revert d Hd. induction steps as [|steps IH]; intros d Hd Hc.
  { replace d with 0 by lia. cbn. lia. }
  cbn [cut_loop]. destruct d as [|d].
  - rewrite Nat.add_0_r, Hb, Hlead, andb_false_r. done.
  - destruct (Hc (S d) ltac:(lia)) as (c & -> & ->).
    rewrite (proj2 (Nat.ltb_lt 0 (k + S d)) ltac:(lia)). cbn [andb].
    replace (k + S d - 1) with (k + d) by lia. apply IH; [lia|]. intros i Hi. apply Hc. lia.
Qed.

Lemma concat_at {A} (cs : list (list A)) m :
  m < length (concat cs) ->
  exists cs1 c cs2, cs = cs1 ++ c :: cs2 /\
    length (concat cs1) <= m < length (concat cs1) + length c.
Proof.
  revert m. induction cs as [|c cs IH]; intros m; cbn [concat]; [cbn; lia|].
  rewrite length_app. intros Hm. destruct (decide (m < length c)) as [Hlt|Hge].
  - exists [], c, cs. cbn. split; [done | lia].
  - destruct (IH (m - length c)) as (cs1 & c' & cs2 & -> & Hb); [lia|].
    exists (c :: cs1), c', cs2. cbn [concat app]. rewrite length_app. split; [done | lia].
Qed.

Lemma utf8_safe_cut_text s m :
  utf8_text s -> m < length s -> utf8_text (take (utf8_safe_cut s m) s).
Proof.
  intros (cs & Hcs & ->) Hm. destruct (concat_at cs m Hm) as (cs1 & c & cs2 & -> & Hk).
  apply Forall_app in Hcs as [Hcs1 Hcs2]. apply Forall_cons in Hcs2 as [Hc Hcs2].
  destruct Hc as (b & rest & -> & Hb & Hrest & Hlen). rewrite concat_app. cbn [concat].
  cbn [length] in Hk. set (k := length (concat cs1)) in *.
  replace (utf8_safe_cut (concat cs1 ++ (b :: rest) ++ concat cs2) m) with k.
  { exists cs1. split; [done|]. apply take_app_length. }
  symmetry. unfold utf8_safe_cut. replace m with (k + (m - k)) by lia.
  apply (cut_loop_start _ _ _ _ b); [lia | | done |].
  - rewrite lookup_app_r by lia. by replace (k - length (concat cs1)) with 0 by lia.
  - intros i Hi. rewrite lookup_app_r by lia.
    replace (k + i - length (concat cs1)) with i by lia.
    rewrite lookup_app_l by (cbn [length]; lia). destruct i as [|i]; [lia|]. cbn.
    destruct (lookup_lt_is_Some_2 rest i) as [d Hd]; [lia|]. exists d. split; [done|].
    by eapply Forall_lookup in Hrest.
Qed.

Lemma utf8_text_app s t : utf8_text s -> utf8_text t -> utf8_text (s ++ t).
Proof.
  intros (cs & Hcs & ->) (ds & Hds & ->). exists (cs ++ ds).
  split; [by apply Forall_app | by rewrite concat_app].
Qed.

Lemma utf8_text_ascii s : forallb (fun c => negb (is_continuation c)) s = true -> utf8_text s.
Proof.
  intros H. exists ((fun c => [c]) <$> s). split.
  - apply Forall_fmap, Forall_forall. intros c Hc%list_elem_of_In.
    rewrite forallb_forall in H. specialize (H c Hc). apply negb_true_iff in H.
    exists c, []. split_and!; [done | done | by constructor | cbn; lia].
  - induction s as [|c s IH]; [done|]. rewrite fmap_cons. cbn [concat app]. f_equal.
    apply IH. cbn [forallb] in H. by apply andb_true_iff in H as [_ ?].
Qed.

Lemma render_loop_spec parts arguments rendered flag :
  length rendered <= render_maximum ->
  length (render_loop parts arguments rendered flag) <= render_maximum + 3 /\
  (utf8_text rendered ->
   Forall (fun a => utf8_text (redacted_text (value a) parts)) arguments ->
   utf8_text (render_loop parts arguments rendered flag)).
Proof.
  revert rendered flag. induction arguments as [|a rest IH]; intros rendered flag Hlen;
    cbn [render_loop]; [split; [lia | done]|].
  set (line := (if bool_decide (rendered = []) then rendered else rendered ++ txt " ") ++ _).
  assert (utf8_text rendered -> Forall (fun a => utf8_text (redacted_text (value a) parts)) (a :: rest) ->
          utf8_text line) as Hline.
  { intros Hr [Ha _]%Forall_cons. apply utf8_text_app.
    - case_bool_decide; [done|]. apply utf8_text_app; [done | by apply utf8_text_ascii].
    - destruct flag; [by apply utf8_text_ascii | done]. }
  destruct (Nat.ltb_spec render_maximum (length line)) as [Hlong|Hshort].
  - split.
    + rewrite length_app, length_take. pose proof (cut_loop_le 3 line render_maximum).
      unfold utf8_safe_cut. change (length (txt "...")) with 3. lia.
    + intros Hr Ha. apply utf8_text_app; [|by apply utf8_text_ascii].
      apply utf8_safe_cut_text; [by apply Hline | done].
  - destruct (IH line (bool_decide (value a = txt "-F")) Hshort) as [Hb Hu]. split; [done|].
    intros Hr Ha. apply Hu; [by apply Hline|]. by apply Forall_cons in Ha as [_ ?].
Qed.

(** The one-line rendering of a command is bounded, three hundred bytes and an
    ellipsis, and where the redacted arguments are UTF-8 so is the line: the cut
    never leaves half a character. *)
Theorem rendered_command_bounded command :
  Forall (fun a => utf8_text (redacted_text (value a) (command_parts command))) command ->
  length (rendered_command command) <= 303 /\ utf8_text (rendered_command command).
Proof.
  intros Ha. unfold rendered_command.
  destruct (render_loop_spec (command_parts command) command [] false) as [Hb Hu].
  { cbn. unfold render_maximum. lia. }
  split; [exact Hb|]. apply Hu; [|done]. by exists [].
Qed.

(** A redacted failure shows none of its command's secrets. *)
Lemma redact_clean failure command p :
  p ∈ command_parts command -> occurs p (diagnostic (redact failure command)) = false.
Proof. intros Hp. apply redacted_text_clean; [apply command_parts_nonempty | done]. Qed.

Lemma redacted_text_hides_witness :
  redacted_text (txt "set @t abcde abc") [txt "abc"; txt "abcde"] =
    txt "set @t [REDACTED] [REDACTED]" /\
  redacted_text (txt "xREDx") [txt "xREDx"; txt "D"] = [] /\
  occurs (txt "abc") (redacted_text (txt "abc") [txt "abc"]) = false.
Proof.
  split_and!; [reflexivity | reflexivity |].
  apply (redacted_text_hides (txt "abc") [txt "abc"]); [by constructor | by left].
Defined.

Lemma rendered_command_bounded_witness :
  rendered_command [plain (txt "set"); sensitive (txt "pw"); plain (txt "-F"); plain (txt "#{x}")] =
    txt "set [REDACTED] -F <format>" /\
  length (rendered_command [plain (txt "set"); sensitive (txt "pw")]) <= 303.
Proof.
  split; [reflexivity|].
  apply (rendered_command_bounded [plain (txt "set"); sensitive (txt "pw")]).
  repeat constructor; apply utf8_text_ascii; reflexivity.
Defined.
