(* ===== verification/Process.v ===== *)
(** Processes as the library asks for them: [src/transport_values.hpp],
    [src/process.hpp].

    What a request carries, how a run ends, and the structural check every runner
    makes before it starts anything.  Starting a process is the operating system's
    part: [Host] is what the library is given, a way to run a request and a source
    of random words, over a world the model does not look into.  The runner's log
    keeps every request in the order it was handed over. *)

From S2P Require Import Prelude Command.

Definition default_capture_limit : N := 1024 * 1024.

Record Argument := MkArg { arg_value : text; arg_sensitivity : ArgumentSensitivity }.
(** [Argument{value}]. *)
Definition public_arg (v : text) : Argument := MkArg v public_value.

Inductive Termination := Exited (code : Z) | Signaled (signal : Z).

Record ProcessRequest := MkRequest {
  executable : text;
  req_arguments : list Argument;
  environment : list (text * option text);
  req_timeout : option N;
  capture_limit : N;
}.

Record ProcessReply := MkReply {
  termination : Termination;
  stdout_bytes : text;
  stderr_bytes : text;
  output_truncated : bool;
}.

Inductive ProcessErrorKind :=
  | p_validation | p_spawn | p_pre_exec | p_pipe | p_timeout | p_cancelled | p_output_limit.

Record ProcessError := MkProcessError {
  error_kind : ProcessErrorKind;
  error_delivery : DeliveryStatus;
  error_diagnostic : text;
}.

(** [kind_of] of the backend and [failure_kind] of the version probe, which agree. *)
Definition kind_of (kind : ProcessErrorKind) : FailureKind :=
  match kind with
  | p_validation => validation
  | p_spawn => spawn
  | p_pre_exec => pre_exec
  | p_pipe | p_output_limit => pipe
  | p_timeout => timeout
  | p_cancelled => cancelled
  end.

Definition contains_nul (value : text) : bool :=
  match find_char Ascii.zero value with Some _ => true | None => false end.

Definition process_request_is_valid (request : ProcessRequest) : bool :=
  negb (bool_decide (executable request = [])) && negb (contains_nul (executable request)) &&
  forallb (fun a => negb (contains_nul (arg_value a))) (req_arguments request) &&
  forallb (fun nv : text * option text =>
    negb (bool_decide (nv.1 = [])) &&
    match find_char "="%char nv.1 with Some _ => false | None => true end &&
    negb (contains_nul nv.1) &&
    match nv.2 with Some v => negb (contains_nul v) | None => true end)
    (environment request).

(** * The host *)

Class Host (W : Type) := {
  run_process : ProcessRequest -> W -> expected ProcessError ProcessReply * W;
  random_word : W -> N * W;
}.

Record Env (W : Type) := MkEnv { world : W; sent : list ProcessRequest }.
Arguments MkEnv {W} world sent.
Arguments world {W} e.
Arguments sent {W} e.

Section host.
Context {W : Type} {host : Host W}.

(** Hand a request to the runner. *)
Definition launch (request : ProcessRequest) (env : Env W) :
    expected ProcessError ProcessReply * Env W :=
  let '(result, w) := run_process request (world env) in
  (result, MkEnv w (sent env ++ [request])).

(** One word of [std::random_device]: 32 bits. *)
Definition entropy (env : Env W) : N * Env W :=
  let '(word, w) := random_word (world env) in (N.land word u32_max, MkEnv w (sent env)).

Lemma launch_sent request env :
  sent (launch request env).2 = sent env ++ [request].
Proof. unfold launch. by destruct (run_process _ _). Qed.

Lemma entropy_sent env : sent (entropy env).2 = sent env.
Proof. unfold entropy. by destruct (random_word _). Qed.
End host.

#[export] Hint Rewrite @launch_sent @entropy_sent : tmux.

(** A host that plays back prepared replies, for instances of the theorems. *)
Definition scripted : Host (list (expected ProcessError ProcessReply)) := {|
  run_process := fun _ w => match w with
                            | r :: w' => (r, w')
                            | [] => (Unexpected (MkProcessError p_spawn not_started []), [])
                            end;
  random_word := fun w => (0%N, w);
|}.
