(* ===== verification/Posix.v ===== *)
(** The operating system as [posix_child.cpp], [process.cpp] and [process_engine.cpp] use it.

    What the sources do is a program over system calls and the caller's callbacks.  The
    system answers a call through the class [OS]; a [Kernel] remembers what the calls so far
    did to the process: which descriptors are open, what became of the child, what was read
    from a pipe.  [allowed] says which calls are misuse (a descriptor closed twice, a signal
    to a process group that is no longer the child's), [plausible] which answers the system
    documents.

    [run] runs a program and stops at misuse or at a failed assertion; [wp] is the proof
    rule: what it shows of a program holds of its run on every system. *)

From S2P Require Import Prelude Process.

(** * Calls *)

Definition EINTR : Z := 4.
Definition ENOENT : Z := 2.
Definition EIO : Z := 5.
Definition EBADF : Z := 9.
Definition ECHILD : Z := 10.
Definition EAGAIN : Z := 11.
Definition ENOTDIR : Z := 20.
Definition EINVAL : Z := 22.
Definition EFBIG : Z := 27.
Definition ETIMEDOUT : Z := 110.
Definition ECANCELED : Z := 125.

Definition SIGKILL : Z := 9.
Definition SIGTERM : Z := 15.

Definition POLLIN : Z := 1.
Definition POLLERR : Z := 8.
Definition POLLHUP : Z := 16.
Definition POLLNVAL : Z := 32.

(** The calls that prepare [posix_spawnp]; each answers zero or an error number. *)
Inductive SpawnStep :=
  | ActionsInit | ActionsDestroy
  | AddChdir (directory : text)
  | AddOpen (descriptor : Z) (path : text)
  | AddDup2 (from to : Z)
  | AddCloseFrom (first : Z)
  | AttrInit | AttrDestroy
  | SignalSets
  | SetAttrFlags (flags : Z)
  | SetSigDefault | SetSigMask
  | SetPgroup (group : Z).

Inductive Sys :=
  | Now
  | Isatty (d : Z)
  | Pipe2
  | GetFlags (d : Z) | SetNonblock (d : Z) (flags : Z)
  | CloseFd (d : Z)
  | Prepare (s : SpawnStep)
  | Environ
  | SpawnChild (argv envp : list text)
  | OpenPidfd (pid : Z)
  | Read (d : Z) (size : N)
  | WaitNoHang (pid : Z) | WaitBlocking (pid : Z) | WaitId (pid : Z)
  | Kill (pid signal : Z)
  | Poll (ds : list Z) (timeout : Z)
  | Cancelled
  | OnStarted (pid : Z)
  | Output (stream : nat) (bytes : text).

Inductive WaitAnswer := WStatus (status : Z) | WNothing | WError (errno : Z).

Definition answer (c : Sys) : Type :=
  match c with
  | Now => Z
  | Isatty _ => bool
  | Pipe2 => expected Z (Z * Z)
  | GetFlags _ => expected Z Z
  | SetNonblock _ _ => option Z
  | CloseFd _ => unit
  | Prepare _ => Z
  | Environ => list text
  | SpawnChild _ _ => expected Z Z
  | OpenPidfd _ => Z
  | Read _ _ => expected Z text
  | WaitNoHang _ | WaitBlocking _ => WaitAnswer
  | WaitId _ => expected Z bool
  | Kill _ _ => option Z
  | Poll _ _ => expected Z (list Z)
  | Cancelled => bool
  | OnStarted _ => option text
  | Output _ _ => bool
  end.

(** * What the calls did *)

Inductive Fate := Unborn | Running (pid : Z) | Collected (pid status : Z) | Lost (pid : Z).

#[export] Instance Fate_eq_dec : EqDecision Fate.
Proof. solve_decision. Defined.

Record Kernel := MkKernel {
  opened : gset Z;
  fate : Fate;
  clock : Z;
  reader : gmap Z Z;
  dups : gmap Z Z;
  received : gmap Z text;
  ended : gset Z;
  signals : list Z;
  heard : text * text;
}.

Definition kernel (ds : gset Z) (now : Z) : Kernel := MkKernel ds Unborn now ∅ ∅ ∅ ∅ [] ([], []).

Definition set_opened ds g := MkKernel ds (fate g) (clock g) (reader g) (dups g) (received g) (ended g) (signals g) (heard g).
Definition set_fate f g := MkKernel (opened g) f (clock g) (reader g) (dups g) (received g) (ended g) (signals g) (heard g).
Definition set_clock t g := MkKernel (opened g) (fate g) t (reader g) (dups g) (received g) (ended g) (signals g) (heard g).
Definition set_reader m g := MkKernel (opened g) (fate g) (clock g) m (dups g) (received g) (ended g) (signals g) (heard g).
Definition set_dups m g := MkKernel (opened g) (fate g) (clock g) (reader g) m (received g) (ended g) (signals g) (heard g).
Definition set_received m e g := MkKernel (opened g) (fate g) (clock g) (reader g) (dups g) m e (signals g) (heard g).
Definition set_signals l g := MkKernel (opened g) (fate g) (clock g) (reader g) (dups g) (received g) (ended g) l (heard g).
Definition set_heard h g := MkKernel (opened g) (fate g) (clock g) (reader g) (dups g) (received g) (ended g) (signals g) h.

(** The bytes read from a descriptor so far. *)
Definition bytes_from (d : Z) (g : Kernel) : text := default [] (received g !! d).

(** The read end of the pipe that is the child's descriptor [n]. *)
Definition stream_of (n : Z) (g : Kernel) : option Z := w ← dups g !! n; reader g !! w.

Definition lose (errno : Z) (pid : Z) (g : Kernel) : Kernel :=
  if bool_decide (errno = ECHILD) then set_fate (Lost pid) g else g.

Definition hear (stream : nat) (bytes : text) (h : text * text) : text * text :=
  if (stream =? 0)%nat then (h.1 ++ bytes, h.2) else (h.1, h.2 ++ bytes).

Definition waited (pid : Z) (x : WaitAnswer) (g : Kernel) : Kernel :=
  match x with WStatus s => set_fate (Collected pid s) g | WNothing => g | WError e => lose e pid g end.

Definition after (g : Kernel) (c : Sys) : answer c -> Kernel :=
  match c with
  | Now => fun t => set_clock t g
  | Pipe2 => fun r =>
      match r with
      | Value (rd, wr) => set_reader (<[wr := rd]> (reader g)) (set_opened ({[rd; wr]} ∪ opened g) g)
      | Unexpected _ => g
      end
  | CloseFd d => fun _ => set_opened (opened g ∖ {[d]}) g
  | Prepare (AddDup2 from to) => fun r => if bool_decide (r = 0%Z) then set_dups (<[to := from]> (dups g)) g else g
  | SpawnChild _ _ => fun r => match r with Value pid => set_fate (Running pid) g | Unexpected _ => g end
  | OpenPidfd _ => fun d => if (0 <=? d)%Z then set_opened ({[d]} ∪ opened g) g else g
  | Read d _ => fun r =>
      match r with
      | Value [] => set_received (received g) ({[d]} ∪ ended g) g
      | Value bytes => set_received (<[d := bytes_from d g ++ bytes]> (received g)) (ended g) g
      | Unexpected _ => g
      end
  | WaitNoHang pid | WaitBlocking pid => fun x => waited pid x g
  | WaitId pid => fun r => match r with Value _ => g | Unexpected e => lose e pid g end
  | Kill _ signal => fun r => match r with None => set_signals (signals g ++ [signal]) g | Some _ => g end
  | Output stream bytes => fun fine => if (fine : bool) then set_heard (hear stream bytes (heard g)) g else g
  | _ => fun _ => g
  end.

(** A call the program has the right to make. *)
Definition allowed (g : Kernel) (c : Sys) : bool :=
  match c with
  | GetFlags d | SetNonblock d _ | CloseFd d | Read d _ => bool_decide (d ∈ opened g)
  | Poll ds _ => forallb (fun d => (d <? 0)%Z || bool_decide (d ∈ opened g)) ds
  | SpawnChild _ _ => bool_decide (fate g = Unborn)
  | OpenPidfd pid | WaitNoHang pid | WaitBlocking pid | WaitId pid | Kill pid _ | OnStarted pid =>
      bool_decide (fate g = Running pid)
  | _ => true
  end.

(** An answer the system may give. *)
Definition plausible (g : Kernel) (c : Sys) : answer c -> Prop :=
  match c with
  | Now => fun t => (clock g <= t)%Z
  | Pipe2 => fun r =>
      match r with
      | Value (rd, wr) => (0 <= rd)%Z /\ (0 <= wr)%Z /\ rd <> wr /\ rd ∉ opened g /\ wr ∉ opened g
      | Unexpected _ => True
      end
  | SpawnChild _ _ => fun r => match r with Value pid => (0 < pid)%Z | Unexpected e => e <> 0%Z end
  | OpenPidfd _ => fun d => d ∉ opened g
  | Read _ size => fun r => match r with Value bytes => (N.of_nat (length bytes) <= size)%N | Unexpected _ => True end
  | WaitBlocking _ => fun x => x <> WNothing
  | Poll ds _ => fun r => match r with Value revents => length revents = length ds | Unexpected _ => True end
  | _ => fun _ => True
  end.

(** What a system also does that keeps nobody waiting: time passes between two readings of
    the clock, no signal handler interrupts a call, a signal to the child's own group is
    delivered, and a child that is waited for is collected. *)
Definition prompt (g : Kernel) (c : Sys) : answer c -> Prop :=
  match c with
  | Now => fun t => (clock g < t)%Z
  | Read _ _ => fun r => match r with Value _ => True | Unexpected e => e <> EINTR end
  | WaitNoHang _ => fun x => x <> WError EINTR
  | WaitBlocking _ => fun x => match x with WStatus _ => True | WNothing => False | WError e => e = ECHILD end
  | WaitId _ => fun r => match r with Value _ => True | Unexpected e => e <> EINTR end
  | Kill _ _ => fun r => r = None
  | Poll _ _ => fun r => match r with Value _ => True | Unexpected e => e <> EINTR end
  | _ => fun _ => True
  end.

(** * Programs *)

Inductive Prog (A : Type) : Type :=
  | Ret (a : A)
  | Call (c : Sys) (k : answer c -> Prog A)
  | AssertFailed
  | OutOfFuel.
Arguments Ret {A} a.
Arguments Call {A} c k.
Arguments AssertFailed {A}.
Arguments OutOfFuel {A}.

#[export] Instance Prog_ret : MRet Prog := fun A a => Ret a.
#[export] Instance Prog_bind : MBind Prog := fun A B f =>
  fix go p :=
    match p with
    | Ret a => f a
    | Call c k => Call c (fun x => go (k x))
    | AssertFailed => AssertFailed
    | OutOfFuel => OutOfFuel
    end.

Definition call (c : Sys) : Prog (answer c) := Call c Ret.
Definition assert_that (b : bool) : Prog unit := if b then Ret tt else AssertFailed.

(** [for (;;)]: [body] until it yields a result, with so much fuel. *)
Fixpoint loop {T A : Type} (body : T -> Prog (T + A)) (fuel : nat) (s : T) : Prog A :=
  match fuel with
  | O => OutOfFuel
  | S fuel => body s ≫= fun r => match r with inl s => loop body fuel s | inr a => Ret a end
  end.

(** A system: its answers, from a world the model does not look into. *)
Class OS (W : Type) := {
  sys : forall c : Sys, W -> Kernel -> answer c * W;
  sys_plausible : forall c w g, allowed g c = true -> plausible g c (sys c w g).1;
}.

(** A system that keeps nobody waiting. *)
Class PromptOS (W : Type) {os : OS W} :=
  sys_prompt : forall c w g, allowed g c = true -> prompt g c (sys c w g).1.

Inductive Outcome (A : Type) := Finished (a : A) | Misused (c : Sys) | Asserted | Exhausted.
Arguments Finished {A} a.
Arguments Misused {A} c.
Arguments Asserted {A}.
Arguments Exhausted {A}.

Section run.
Context {W : Type} {os : OS W}.

Fixpoint run {A} (p : Prog A) (w : W) (g : Kernel) : Outcome A * Kernel :=
  match p with
  | Ret a => (Finished a, g)
  | Call c k =>
      if allowed g c then let r := sys c w g in run (k r.1) r.2 (after g c r.1) else (Misused c, g)
  | AssertFailed => (Asserted, g)
  | OutOfFuel => (Exhausted, g)
  end.
End run.

(** * The proof rule *)

(** [wp b p g Q]: from [g], [p] misuses nothing, fails no assertion, and ends with [Q]; with
    [b], on a prompt system, it does end. *)
Fixpoint wp {A} (b : bool) (p : Prog A) (g : Kernel) (Q : A -> Kernel -> Prop) : Prop :=
  match p with
  | Ret a => Q a g
  | Call c k =>
      allowed g c = true /\
      forall x, plausible g c x -> (b = true -> prompt g c x) -> wp b (k x) (after g c x) Q
  | AssertFailed => False
  | OutOfFuel => b = false
  end.

Lemma prog_mono {A} b (p : Prog A) g (Q Q' : A -> Kernel -> Prop) :
  wp b p g Q -> (forall a g, Q a g -> Q' a g) -> wp b p g Q'.
Proof.
  revert g. induction p as [a|c k IH| |]; intros g; cbn; [by auto| |done..].
  intros [Ha H] HQ. split; [done|]. intros x Hx Hp. apply IH; auto.
Qed.

Lemma prog_bind {A B} b (p : Prog A) (f : A -> Prog B) g Q :
  wp b p g (fun a g => wp b (f a) g Q) -> wp b (p ≫= f) g Q.
Proof.
  revert g. induction p as [a|c k IH| |]; intros g; cbn; [done| |done..].
  intros [Ha H]. split; [done|]. intros x Hx Hp. apply IH. auto.
Qed.

(** A sequence: what the first part shows is what the second starts from. *)
Lemma wp_seq {A B} b (p : Prog A) (f : A -> Prog B) g (Q : A -> Kernel -> Prop) R :
  wp b p g Q -> (forall a g, Q a g -> wp b (f a) g R) -> wp b (p ≫= f) g R.
Proof. intros H1 H2. apply prog_bind. by eapply prog_mono. Qed.

Lemma wp_call {A} b c (k : answer c -> Prog A) g Q :
  allowed g c = true ->
  (forall x, plausible g c x -> (b = true -> prompt g c x) -> wp b (k x) (after g c x) Q) ->
  wp b (call c ≫= k) g Q.
Proof. intros H1 H2. by split. Qed.

(** A loop, by a measure that the body lowers: an invariant [I] and, for a program that must
    end, a number of turns left. *)
Lemma wp_loop {T A} b (body : T -> Prog (T + A)) fuel s g (I : nat -> T -> Kernel -> Prop)
    (Q : A -> Kernel -> Prop) n :
  (b = true -> n < fuel) -> I n s g ->
  (forall n s g, I n s g -> wp b (body s) g (fun r g =>
     match r with
     | inl s => exists m, (b = true -> m < n) /\ I m s g
     | inr a => Q a g
     end)) ->
  wp b (loop body fuel s) g Q.
Proof.
  intros Hn Hi Hb. revert n s g Hn Hi.
  induction fuel as [|fuel IH]; intros n s g Hn Hi; cbn [loop].
  - cbn. destruct b; [|done]. specialize (Hn eq_refl). lia.
  - apply (wp_seq _ _ _ _ _ _ (Hb n s g Hi)). intros [s'|a] g' H; [|done].
    destruct H as (m & Hm & H). apply (IH m); [|done]. intros E. specialize (Hn E). specialize (Hm E). lia.
Qed.

Section soundness.
Context {W : Type} {os : OS W}.

Lemma prog_run {A} (p : Prog A) w g Q :
  wp false p g Q ->
  match run p w g with
  | (Finished a, g') => Q a g'
  | (Exhausted, _) => True
  | (Misused _, _) | (Asserted, _) => False
  end.
Proof.
  revert w g. induction p as [a|c k IH| |]; intros w g; cbn; [done| |done..].
  intros [Ha H]. rewrite Ha. apply IH. apply H; [|done]. by apply sys_plausible.
Qed.

Lemma prog_run_ends {prompt_os : PromptOS W} {A} (p : Prog A) w g Q :
  wp true p g Q -> exists a, (run p w g).1 = Finished a /\ Q a (run p w g).2.
Proof.
  revert w g. induction p as [a|c k IH| |]; intros w g; cbn; [by eauto| |done..].
  intros [Ha H]. rewrite Ha. apply IH. apply H.
  - by apply sys_plausible.
  - intros _. by apply sys_prompt.
Qed.
End soundness.

(** * A system to run on *)

(** One descriptor above all that are open. *)
Definition above (g : Kernel) : Z := (foldr Z.max 0 (elements (opened g)) + 1)%Z.

Lemma above_fresh g d : (above g <= d)%Z -> d ∉ opened g.
Proof.
  unfold above. rewrite <-elem_of_elements. intros H Hd. revert H.
  induction Hd as [x l|x y l Hd IH]; cbn; intros H; [lia|]. apply IH. lia.
Qed.

Lemma above_pos g : (0 < above g)%Z.
Proof. unfold above. induction (elements (opened g)) as [|x l IH]; cbn in *; lia. Qed.

(** A system whose child prints a line on each stream and exits with [code], or goes on for
    ever when there is none; a reading of the clock takes a millisecond. *)
Definition demo_answer (code : option Z) (c : Sys) (g : Kernel) : answer c :=
  match c with
  | Now => (clock g + 1000000)%Z
  | Isatty _ => true
  | Pipe2 => Value (above g, above g + 1)%Z
  | GetFlags _ => Value 0%Z
  | SetNonblock _ _ => None
  | CloseFd _ => tt
  | Prepare _ => 0%Z
  | Environ => [txt "TMUX=x"]
  | SpawnChild _ _ => Value 100%Z
  | OpenPidfd _ => above g
  | Read d size =>
      match received g !! d with
      | None => Value (firstn (N.to_nat (N.min size 4)) (txt "line"))
      | Some _ => match code with Some _ => Value [] | None => Unexpected EAGAIN end
      end
  | WaitNoHang _ => match code with Some n => WStatus (n * 256) | None => WNothing end
  | WaitBlocking _ => WStatus SIGKILL
  | WaitId _ => Value (bool_decide (is_Some code))
  | Kill _ _ => None
  | Poll ds _ => Value (map (fun _ => POLLIN) ds)
  | Cancelled => false
  | OnStarted _ => None
  | Output _ _ => true
  end.

#[export] Instance demo_os (code : option Z) : OS unit.
Proof.
  refine {| sys := fun c w g => (demo_answer code c g, w) |}.
  intros c [] g _. destruct c; cbn; try done; try lia.
  - pose proof (above_pos g). split_and!; try lia; apply above_fresh; lia.
  - apply above_fresh. lia.
  - destruct (received g !! d); [destruct code; cbn; (done || lia)|]. rewrite length_take. lia.
  - by rewrite length_map.
Defined.

#[export] Instance demo_prompt code : PromptOS unit (os := demo_os code).
Proof.
  intros c [] g _. destruct c; cbn; try done; try lia.
  - by destruct (received g !! d), code.
  - by destruct code.
Qed.
