(* ===== verification/Child.v ===== *)
(** One child process: [src/posix_child.hpp], [src/posix_child.cpp], with the spawn
    attributes of [src/spawn_signals.hpp] and [src/spawn_descriptors.cpp].

    [PosixChild] owns a process group and the read ends of its output: [launch] makes it,
    [drain] and [drain_once] read into a capture that is bounded, [update_status],
    [exit_pending] and [wait_for_exit] learn of its end, [signal_group] ends it.  Each is a
    program of Posix.  The branches are those of Linux with glibc 2.34 or newer.

    [child_ok] ties a child to what the system did: the descriptors it owns are open and
    nobody else's, its status is what became of the process, its capture is the beginning of
    what was read and is called truncated exactly when something is missing.  Every
    operation keeps it. *)

From S2P Require Import Prelude Command Process Posix.

(** [std::generic_category().message()]. *)
Class Messages := strerror : Z -> text.

Inductive StdioPolicy := stdio_capture | inherit_terminal.

#[export] Instance StdioPolicy_eq_dec : EqDecision StdioPolicy.
Proof. solve_decision. Defined.

(** A [ProcessRequest] with the fields only the POSIX runner looks at. *)
Record ChildRequest := MkChildRequest {
  request : ProcessRequest;
  stdio : StdioPolicy;
  working_directory : text;
  fail_on_capture_limit : bool;
  terminal_descriptors : Z * Z * Z;
  has_on_started : bool;
  has_cancelled : bool;
}.

Inductive ChildStream := stdout_stream | stderr_stream.

Inductive ChildStatus := running | exited | unknowable | none.

#[export] Instance ChildStatus_eq_dec : EqDecision ChildStatus.
Proof. solve_decision. Defined.

Inductive ExitReadiness := platform | poll_exit.

Record Capture := MkCapture { captured_out : text; captured_err : text; truncated : bool }.

Definition empty_capture : Capture := MkCapture [] [] false.

Record PosixChild := MkChild {
  pid : Z;
  stdout_fd : Z;
  stderr_fd : Z;
  exit_fd : Z;
  limit : N;
  rendered_request : text;
  capture : Capture;
  wait_status : Z;
  status : ChildStatus;
  spawn_teardown_error : Z;
}.

Definition set_stdout_fd d ch :=
  MkChild (pid ch) d (stderr_fd ch) (exit_fd ch) (limit ch) (rendered_request ch) (capture ch)
    (wait_status ch) (status ch) (spawn_teardown_error ch).
Definition set_stderr_fd d ch :=
  MkChild (pid ch) (stdout_fd ch) d (exit_fd ch) (limit ch) (rendered_request ch) (capture ch)
    (wait_status ch) (status ch) (spawn_teardown_error ch).
Definition set_exit_fd d ch :=
  MkChild (pid ch) (stdout_fd ch) (stderr_fd ch) d (limit ch) (rendered_request ch) (capture ch)
    (wait_status ch) (status ch) (spawn_teardown_error ch).
Definition set_capture c ch :=
  MkChild (pid ch) (stdout_fd ch) (stderr_fd ch) (exit_fd ch) (limit ch) (rendered_request ch) c
    (wait_status ch) (status ch) (spawn_teardown_error ch).
Definition set_status w s ch :=
  MkChild (pid ch) (stdout_fd ch) (stderr_fd ch) (exit_fd ch) (limit ch) (rendered_request ch)
    (capture ch) w s (spawn_teardown_error ch).

(** * Diagnostics *)

Definition hexadecimal : text := txt "0123456789abcdef".
Definition hex_digit (n : N) : ascii := default zero (hexadecimal !! N.to_nat n).

Definition escape_diagnostic_byte (c : ascii) : text :=
  let byte := byte_of c in
  if ((0x20 <=? byte) && (byte <=? 0x7e) && negb (bool_decide (c = "\"%char)))%N then [c]
  else if bool_decide (c = "\"%char) then txt "\\"
  else txt "\x" ++ [hex_digit (N.shiftr byte 4); hex_digit (N.land byte 0x0f)].

Definition escape_diagnostic_value (value : text) : text := value ≫= escape_diagnostic_byte.

Definition render_request (r : ProcessRequest) : text :=
  escape_diagnostic_value (executable r) ++
  (req_arguments r ≫= fun a =>
     " "%char :: match arg_sensitivity a with
                 | secret => txt "[REDACTED]"
                 | public_value => escape_diagnostic_value (arg_value a)
                 end).

Section child.
Context {messages : Messages}.

Definition process_error (kind : ProcessErrorKind) (delivery : DeliveryStatus) (operation rendered : text)
    (cause : Z) : ProcessError :=
  MkProcessError kind delivery (operation ++ txt " failure running " ++ rendered ++ txt ": " ++ strerror cause).

(** * Launching *)

(** The destructors of owned descriptors: those that are valid are closed. *)
Fixpoint close_all (ds : list Z) : Prog unit :=
  match ds with
  | [] => Ret tt
  | d :: ds => if (0 <=? d)%Z then _ ← call (CloseFd d); close_all ds else close_all ds
  end.

Definition create_pipe : Prog (expected Z (Z * Z)) :=
  made ← call Pipe2;
  match made with
  | Unexpected e => Ret (Unexpected e)
  | Value (rd, wr) =>
      let refuse e := _ ← close_all [rd; wr]; Ret (Unexpected e) in
      status_flags ← call (GetFlags rd);
      match status_flags with
      | Unexpected e => refuse e
      | Value flags =>
          failed ← call (SetNonblock rd flags);
          match failed with Some e => refuse e | None => Ret (Value (rd, wr)) end
      end
  end.

(** Calls that prepare the spawn, until one is refused: its error number, or zero. *)
Fixpoint prepare (steps : list SpawnStep) : Prog Z :=
  match steps with
  | [] => Ret 0%Z
  | s :: steps => result ← call (Prepare s); if bool_decide (result = 0%Z) then prepare steps else Ret result
  end.

Definition POSIX_SPAWN_SETPGROUP : Z := 2.
Definition POSIX_SPAWN_SETSIGDEF : Z := 4.
Definition POSIX_SPAWN_SETSIGMASK : Z := 8.

Definition apply_clean_signal_attributes (extra_flags : Z) : list SpawnStep :=
  [SignalSets;
   SetAttrFlags (Z.lor extra_flags (Z.lor POSIX_SPAWN_SETSIGDEF POSIX_SPAWN_SETSIGMASK));
   SetSigDefault; SetSigMask].

Definition apply_spawn_descriptor_policy : list SpawnStep := [AddCloseFrom 3].

Definition action_steps (r : ChildRequest) (out_write err_write : Z) : list SpawnStep :=
  (if bool_decide (working_directory r = []) then [] else [AddChdir (working_directory r)]) ++
  match stdio r with
  | stdio_capture => [AddOpen 0 (txt "/dev/null"); AddDup2 out_write 1; AddDup2 err_write 2]
  | inherit_terminal =>
      let '(a, b, c) := terminal_descriptors r in [AddDup2 a 0; AddDup2 b 1; AddDup2 c 2]
  end.

Definition attribute_steps : list SpawnStep :=
  apply_clean_signal_attributes POSIX_SPAWN_SETPGROUP ++ [SetPgroup 0] ++ apply_spawn_descriptor_policy.

(** [std::map::insert_or_assign] and [erase], on the map's entries in its order. *)
Fixpoint text_ltb (a b : text) : bool :=
  match a, b with
  | _, [] => false
  | [], _ :: _ => true
  | x :: a, y :: b =>
      if (byte_of x <? byte_of y)%N then true
      else if (byte_of y <? byte_of x)%N then false else text_ltb a b
  end.

Fixpoint insert_or_assign (name value : text) (m : list (text * text)) : list (text * text) :=
  match m with
  | [] => [(name, value)]
  | (n, v) :: m' =>
      if text_ltb name n then (name, value) :: m
      else if text_ltb n name then (n, v) :: insert_or_assign name value m'
      else (n, value) :: m'
  end.

Definition erase (name : text) (m : list (text * text)) : list (text * text) :=
  List.filter (fun nv => negb (bool_decide (nv.1 = name))) m.

Definition inherit (m : list (text * text)) (entry : text) : list (text * text) :=
  match find_char "="%char entry with
  | Some i => insert_or_assign (firstn i entry) (skipn (S i) entry) m
  | None => m
  end.

Definition overlay (m : list (text * text)) (entry : text * option text) : list (text * text) :=
  match entry.2 with Some value => insert_or_assign entry.1 value m | None => erase entry.1 m end.

Definition environment_overlay (environ : list text) (changes : list (text * option text)) : list text :=
  map (fun nv => nv.1 ++ txt "=" ++ nv.2) (fold_left overlay changes (fold_left inherit environ [])).

Definition request_is_valid (r : ChildRequest) : Prog bool :=
  if process_request_is_valid (request r) && negb (contains_nul (working_directory r)) then
    match stdio r with
    | stdio_capture => Ret true
    | inherit_terminal =>
        let '(a, b, _) := terminal_descriptors r in
        first ← call (Isatty a);
        if (first : bool) then call (Isatty b) else Ret false
    end
  else Ret false.

Definition spawn_error_kind (e : Z) : ProcessErrorKind :=
  if (e =? ENOENT)%Z || (e =? ENOTDIR)%Z then p_spawn else p_pre_exec.
Definition spawn_operation (kind : ProcessErrorKind) : text :=
  match kind with p_spawn => txt "spawn" | _ => txt "pre-exec" end.

Definition open_exit_descriptor (exit_readiness : ExitReadiness) (child : Z) : Prog Z :=
  match exit_readiness with poll_exit => Ret (-1)%Z | platform => call (OpenPidfd child) end.

(** [launch], from the file actions on. *)
Definition spawn_with (r : ChildRequest) (exit_readiness : ExitReadiness) (out err : Z * Z) :
    Prog (expected ProcessError PosixChild) :=
  let rendered := render_request (request r) in
  let fail kind operation e :=
    _ ← close_all [err.2; err.1; out.2; out.1];
    Ret (Unexpected (process_error kind not_started operation rendered e)) in
  let action_failure e := _ ← call (Prepare ActionsDestroy); fail p_pipe (txt "pipe") e in
  let attribute_failure e := _ ← call (Prepare AttrDestroy); action_failure e in
  result ← call (Prepare ActionsInit);
  if negb (bool_decide (result = 0%Z)) then fail p_pipe (txt "pipe") result else
  result ← prepare (action_steps r out.2 err.2);
  if negb (bool_decide (result = 0%Z)) then action_failure result else
  result ← call (Prepare AttrInit);
  if negb (bool_decide (result = 0%Z)) then action_failure result else
  result ← prepare attribute_steps;
  if negb (bool_decide (result = 0%Z)) then attribute_failure result else
  environ ← call Environ;
  spawned ← call (SpawnChild (executable (request r) :: map arg_value (req_arguments (request r)))
                    (environment_overlay environ (environment (request r))));
  attributes_destroyed ← call (Prepare AttrDestroy);
  actions_destroyed ← call (Prepare ActionsDestroy);
  _ ← close_all [out.2; err.2];
  match spawned with
  | Unexpected e =>
      let kind := spawn_error_kind e in
      _ ← close_all [err.1; out.1];
      Ret (Unexpected (process_error kind not_started (spawn_operation kind) rendered e))
  | Value child =>
      exit_fd ← open_exit_descriptor exit_readiness child;
      let teardown := if bool_decide (attributes_destroyed = 0%Z) then actions_destroyed else attributes_destroyed in
      Ret (Value (MkChild child out.1 err.1 exit_fd (capture_limit (request r)) rendered empty_capture 0
                    running teardown))
  end.

Definition launch (r : ChildRequest) (exit_readiness : ExitReadiness) : Prog (expected ProcessError PosixChild) :=
  let fail kind operation e :=
    Ret (Unexpected (process_error kind not_started operation (render_request (request r)) e)) in
  valid ← request_is_valid r;
  if negb valid then fail p_validation (txt "validation") EINVAL else
  match stdio r with
  | inherit_terminal => spawn_with r exit_readiness (-1, -1)%Z (-1, -1)%Z
  | stdio_capture =>
      created_stdout ← create_pipe;
      match created_stdout with
      | Unexpected e => fail p_pipe (txt "pipe") e
      | Value out =>
          created_stderr ← create_pipe;
          match created_stderr with
          | Unexpected e => _ ← close_all [out.2; out.1]; fail p_pipe (txt "pipe") e
          | Value err => spawn_with r exit_readiness out err
          end
      end
  end.

(** * Descriptors *)

Definition descriptor (s : ChildStream) (ch : PosixChild) : Z :=
  match s with stdout_stream => stdout_fd ch | stderr_stream => stderr_fd ch end.

Definition output_closed (ch : PosixChild) : bool := (stdout_fd ch <? 0)%Z && (stderr_fd ch <? 0)%Z.

Definition is_running (ch : PosixChild) : bool := bool_decide (status ch = running).

Definition set_descriptor (s : ChildStream) (d : Z) (ch : PosixChild) : PosixChild :=
  match s with stdout_stream => set_stdout_fd d ch | stderr_stream => set_stderr_fd d ch end.

Definition close_exit_descriptor (ch : PosixChild) : Prog PosixChild :=
  if (0 <=? exit_fd ch)%Z then _ ← call (CloseFd (exit_fd ch)); Ret (set_exit_fd (-1) ch) else Ret ch.

Definition close_descriptor (s : ChildStream) (ch : PosixChild) : Prog PosixChild :=
  if (0 <=? descriptor s ch)%Z then _ ← call (CloseFd (descriptor s ch)); Ret (set_descriptor s (-1) ch)
  else Ret ch.

Definition truncate (ch : PosixChild) : PosixChild :=
  set_capture (MkCapture (captured_out (capture ch)) (captured_err (capture ch)) true) ch.

Definition close_stream (s : ChildStream) (ch : PosixChild) : Prog PosixChild :=
  if (0 <=? descriptor s ch)%Z then close_descriptor s (truncate ch) else Ret ch.

Definition close_output (ch : PosixChild) : Prog PosixChild :=
  ch ← close_stream stdout_stream ch; close_stream stderr_stream ch.

(** [~PosixChild]. *)
Definition destroy (ch : PosixChild) : Prog unit :=
  _ ← assert_that ((pid ch <? 0)%Z || negb (is_running ch));
  ch ← close_descriptor stdout_stream ch;
  ch ← close_descriptor stderr_stream ch;
  _ ← close_exit_descriptor ch;
  Ret tt.

(** * Reading *)

Definition buffer_size : N := 16384.

Definition destination (s : ChildStream) (c : Capture) : text :=
  match s with stdout_stream => captured_out c | stderr_stream => captured_err c end.

(** What of a chunk is kept. *)
Definition retain_bytes (s : ChildStream) (bytes : text) (ch : PosixChild) : PosixChild :=
  let c := capture ch in
  let size := N.of_nat (length bytes) in
  let held := N.of_nat (length (destination s c)) in
  let available := if (held <? limit ch)%N then (limit ch - held)%N else 0%N in
  let retained := N.min available size in
  let kept := firstn (N.to_nat retained) bytes in
  let cut := truncated c || negb (retained =? size)%N in
  set_capture (match s with
               | stdout_stream => MkCapture (captured_out c ++ kept) (captured_err c) cut
               | stderr_stream => MkCapture (captured_out c) (captured_err c ++ kept) cut
               end) ch.

Definition Answered : Type := (PosixChild * option ProcessError)%type.

Definition drain_turn (s : ChildStream) (d boundary : Z) (delivery : DeliveryStatus) (one_read : bool)
    (ch : PosixChild) : Prog (PosixChild + Answered) :=
  now ← (if one_read then Ret None else now ← call Now; Ret (Some now));
  if match now with Some now => (boundary <=? now)%Z | None => false end then Ret (inr (ch, None)) else
  count ← call (Read d buffer_size);
  match count with
  | Value [] => ch ← close_descriptor s ch; Ret (inr (ch, None))
  | Value bytes =>
      let ch := retain_bytes s bytes ch in
      Ret (if one_read then inr (ch, None) else inl ch)
  | Unexpected e =>
      if (e =? EINTR)%Z then Ret (inl ch)
      else if (e =? EAGAIN)%Z then Ret (inr (ch, None))
      else
        ch ← close_descriptor s ch;
        Ret (inr (truncate ch,
                  Some (process_error p_pipe delivery (txt "pipe read") (rendered_request ch) e)))
  end.

Variable fuel : nat.

Definition drain_impl (s : ChildStream) (boundary : Z) (delivery : DeliveryStatus) (one_read : bool)
    (ch : PosixChild) : Prog Answered :=
  if (descriptor s ch <? 0)%Z then Ret (ch, None)
  else loop (drain_turn s (descriptor s ch) boundary delivery one_read) fuel ch.

Definition drain s boundary delivery ch : Prog Answered := drain_impl s boundary delivery false ch.
Definition drain_once s boundary delivery ch : Prog Answered := drain_impl s boundary delivery true ch.

(** * Its end *)

Definition ignored_sigchld : text :=
  txt " (SIGCHLD is ignored in this process, so the child was reaped before its exit status could be read)".

Definition add_diagnostic (t : text) (e : ProcessError) : ProcessError :=
  MkProcessError (error_kind e) (error_delivery e) (error_diagnostic e ++ t).

Definition collected (s : Z) (ch : PosixChild) : Prog PosixChild :=
  close_exit_descriptor (set_status s exited ch).
Definition lost (ch : PosixChild) : Prog PosixChild :=
  close_exit_descriptor (set_status (wait_status ch) unknowable ch).

Definition update_turn (delivery : DeliveryStatus) (ch : PosixChild) : Prog (PosixChild + Answered) :=
  result ← call (WaitNoHang (pid ch));
  match result with
  | WStatus s => ch ← collected s ch; Ret (inr (ch, None))
  | WNothing => Ret (inr (ch, None))
  | WError e =>
      if (e =? EINTR)%Z then Ret (inl ch)
      else
        let failure := process_error p_pipe delivery (txt "waitpid pipe") (rendered_request ch) e in
        if (e =? ECHILD)%Z then ch ← lost ch; Ret (inr (ch, Some (add_diagnostic ignored_sigchld failure)))
        else Ret (inr (ch, Some failure))
  end.

Definition update_status (delivery : DeliveryStatus) (ch : PosixChild) : Prog Answered :=
  if negb (is_running ch) then Ret (ch, None) else loop (update_turn delivery) fuel ch.

Definition signal_turn (signal : Z) (delivery : DeliveryStatus) (ch : PosixChild) :
    Prog (PosixChild + Answered) :=
  result ← call (Kill (pid ch) signal);
  match result with
  | None => Ret (inr (ch, None))
  | Some e =>
      if (e =? EINTR)%Z then Ret (inl ch)
      else Ret (inr (ch, Some (process_error p_pipe delivery (txt "kill") (rendered_request ch) e)))
  end.

Definition signal_group (signal : Z) (delivery : DeliveryStatus) (ch : PosixChild) : Prog Answered :=
  if negb (is_running ch) then Ret (ch, None) else loop (signal_turn signal delivery) fuel ch.

Definition exit_turn (delivery : DeliveryStatus) (ch : PosixChild) :
    Prog (PosixChild + (PosixChild * expected ProcessError bool)) :=
  result ← call (WaitId (pid ch));
  match result with
  | Value pending => Ret (inr (ch, Value pending))
  | Unexpected e =>
      if (e =? EINTR)%Z then Ret (inl ch)
      else
        ch ← (if (e =? ECHILD)%Z then lost ch else Ret ch);
        Ret (inr (ch, Unexpected (process_error p_pipe delivery (txt "waitid pipe") (rendered_request ch) e)))
  end.

Definition exit_pending (delivery : DeliveryStatus) (ch : PosixChild) :
    Prog (PosixChild * expected ProcessError bool) :=
  loop (exit_turn delivery) fuel ch.

Definition wait_turn (delivery : DeliveryStatus) (ch : PosixChild) : Prog (PosixChild + Answered) :=
  if negb (is_running ch) then Ret (inr (ch, None)) else
  result ← call (WaitBlocking (pid ch));
  let failed e :=
    ch ← (if (e =? ECHILD)%Z then lost ch else Ret ch);
    Ret (inr (ch, Some (process_error p_pipe delivery (txt "waitpid pipe") (rendered_request ch) e))) in
  match result with
  | WStatus s => ch ← collected s ch; Ret (inr (ch, None))
  | WNothing => failed ECHILD
  | WError e => if (e =? EINTR)%Z then Ret (inl ch) else failed e
  end.

Definition wait_for_exit (delivery : DeliveryStatus) (ch : PosixChild) : Prog Answered :=
  loop (wait_turn delivery) fuel ch.

(** [WIFEXITED], [WEXITSTATUS] and [WTERMSIG]. *)
Definition decode_status (w : Z) : Termination :=
  let signal := Z.land w 0x7f in
  if bool_decide (signal = 0%Z) then Exited (Z.land (Z.shiftr w 8) 0xff) else Signaled signal.

Definition termination_of (ch : PosixChild) : Prog Termination :=
  _ ← assert_that (bool_decide (status ch = exited)); Ret (decode_status (wait_status ch)).
(** * What a child owns *)

(** The part of what was read that a capture keeps. *)
Definition kept (limit : N) (bytes : text) : text := firstn (N.to_nat (N.min limit (N.of_nat (length bytes)))) bytes.

Definition holds (ch : PosixChild) (d : Z) : Prop :=
  (0 <= d)%Z /\ (d = stdout_fd ch \/ d = stderr_fd ch \/ d = exit_fd ch).

Definition apart (ch : PosixChild) : Prop :=
  ((0 <= stdout_fd ch)%Z -> stdout_fd ch <> stderr_fd ch /\ stdout_fd ch <> exit_fd ch) /\
  ((0 <= stderr_fd ch)%Z -> stderr_fd ch <> exit_fd ch).

(** A stream and the descriptor [d] it comes from. *)
Definition stream_ok (g : Kernel) (limit : N) (d fd : Z) (bytes : text) : Prop :=
  bytes = kept limit (bytes_from d g) /\ (0 <= d)%Z /\ (fd = d /\ d ∉ ended g \/ (fd < 0)%Z).

(** Something of a stream is missing: more came than fits, or its end was not seen. *)
Definition missing (g : Kernel) (limit : N) (d fd : Z) : bool :=
  (limit <? N.of_nat (length (bytes_from d g)))%N || ((fd <? 0)%Z && negb (bool_decide (d ∈ ended g))).

Definition streams_ok (src : option (Z * Z)) (ch : PosixChild) (g : Kernel) : Prop :=
  match src with
  | None => (stdout_fd ch < 0)%Z /\ (stderr_fd ch < 0)%Z /\
            captured_out (capture ch) = [] /\ captured_err (capture ch) = []
  | Some (o, e) =>
      o <> e /\ stream_of 1 g = Some o /\ stream_of 2 g = Some e /\
      stream_ok g (limit ch) o (stdout_fd ch) (captured_out (capture ch)) /\
      stream_ok g (limit ch) e (stderr_fd ch) (captured_err (capture ch))
  end.

(** The capture is called truncated exactly when something is missing. *)
Definition flag_ok (src : option (Z * Z)) (ch : PosixChild) (g : Kernel) : Prop :=
  truncated (capture ch) =
  match src with
  | None => false
  | Some (o, e) => missing g (limit ch) o (stdout_fd ch) || missing g (limit ch) e (stderr_fd ch)
  end.

Definition fate_ok (ch : PosixChild) (g : Kernel) : Prop :=
  match status ch with
  | running => fate g = Running (pid ch)
  | exited => fate g = Collected (pid ch) (wait_status ch)
  | unknowable => fate g = Lost (pid ch)
  | none => False
  end.

(** A child launched when [ds] was open, reading from [src]; all but its flag. *)
Record core_ok (ds : gset Z) (src : option (Z * Z)) (ch : PosixChild) (g : Kernel) : Prop := {
  ko_opened : forall d, d ∈ opened g <-> d ∈ ds \/ holds ch d;
  ko_others : forall d, holds ch d -> d ∉ ds;
  ko_apart : apart ch;
  ko_fate : fate_ok ch g;
  ko_streams : streams_ok src ch g;
}.

Definition child_ok ds src ch g : Prop := core_ok ds src ch g /\ flag_ok src ch g.

(** What never changes or only grows. *)
Record evolves (ch : PosixChild) (g : Kernel) (ch' : PosixChild) (g' : Kernel) : Prop := {
  ev_pid : pid ch' = pid ch;
  ev_limit : limit ch' = limit ch;
  ev_rendered : rendered_request ch' = rendered_request ch;
  ev_teardown : spawn_teardown_error ch' = spawn_teardown_error ch;
  ev_heard : heard g' = heard g;
  ev_clock : (clock g <= clock g')%Z;
  ev_status : status ch <> running -> status ch' = status ch;
  ev_out : captured_out (capture ch) `prefix_of` captured_out (capture ch');
  ev_err : captured_err (capture ch) `prefix_of` captured_err (capture ch');
  ev_stdout : (stdout_fd ch < 0)%Z -> (stdout_fd ch' < 0)%Z;
  ev_stderr : (stderr_fd ch < 0)%Z -> (stderr_fd ch' < 0)%Z;
}.

Lemma evolves_refl ch g : evolves ch g ch g.
Proof. split; try done; lia. Qed.

Lemma evolves_trans ch1 g1 ch2 g2 ch3 g3 :
  evolves ch1 g1 ch2 g2 -> evolves ch2 g2 ch3 g3 -> evolves ch1 g1 ch3 g3.
Proof.
  intros [] []. split; try congruence; try lia; try (by etrans; eassumption); auto.
  intros H. rewrite ev_status1; [auto|]. by rewrite ev_status0.
Qed.

Lemma live_in ds src ch g s : core_ok ds src ch g -> (0 <= descriptor s ch)%Z -> descriptor s ch ∈ opened g.
Proof. intros [] H. apply ko_opened0. right. destruct s; split; auto. Qed.

Lemma fate_running ds src ch g : core_ok ds src ch g -> status ch = running -> fate g = Running (pid ch).
Proof. intros [] H. unfold fate_ok in ko_fate0. by rewrite H in ko_fate0. Qed.

Lemma missing_close g limit d : missing g limit d (-1) = true <->
  (limit < N.of_nat (length (bytes_from d g)))%N \/ d ∉ ended g.
Proof.
  unfold missing. cbn. rewrite orb_true_iff, N.ltb_lt, negb_true_iff, bool_decide_eq_false. done.
Qed.


(** Closing a descriptor of the child. *)
Lemma close_call {A} b (k : unit -> Prog A) ds src ch g d Q :
  core_ok ds src ch g -> holds ch d ->
  wp b (k tt) (set_opened (opened g ∖ {[d]}) g) Q ->
  wp b (call (CloseFd d) ≫= k) g Q.
Proof.
  intros [] Hd H. apply wp_call.
  - cbn. apply bool_decide_eq_true. apply ko_opened0. auto.
  - by intros [] _ _.
Qed.

(** What is left when one of the child's descriptors is closed. *)
Lemma holds_close ch g (ds : gset Z) d ch' :
  (forall x, x ∈ opened g <-> x ∈ ds \/ holds ch x) -> (forall x, holds ch x -> x ∉ ds) ->
  holds ch d -> (forall x, holds ch' x <-> holds ch x /\ x <> d) ->
  (forall x, x ∈ opened g ∖ {[d]} <-> x ∈ ds \/ holds ch' x) /\ (forall x, holds ch' x -> x ∉ ds).
Proof.
  intros H1 H2 Hd H. pose proof (H2 d Hd) as Hn. split; intros x.
  - rewrite elem_of_difference, elem_of_singleton, H, H1. split.
    + intros [[?|?] ?]; auto.
    + intros [Hx|[? ?]]; [|by auto]. split; [by left|]. by intros ->.
  - intros Hx. apply H2. by apply H.
Qed.

Lemma holds_drop_stdout ch x :
  apart ch -> (0 <= stdout_fd ch)%Z ->
  holds (set_stdout_fd (-1) ch) x <-> holds ch x /\ x <> stdout_fd ch.
Proof. intros [H1 _] H. destruct (H1 H). unfold holds. cbn. split; [|naive_solver]. intros [? [->|[->| ->]]]; naive_solver lia. Qed.

Lemma holds_drop_stderr ch x :
  apart ch -> (0 <= stderr_fd ch)%Z ->
  holds (set_stderr_fd (-1) ch) x <-> holds ch x /\ x <> stderr_fd ch.
Proof.
  intros [H1 H2] H. specialize (H2 H). unfold holds. cbn.
  split; [|naive_solver]. intros [? [->|[->| ->]]]; [|lia|naive_solver]. split; [auto|]. naive_solver.
Qed.

Lemma holds_drop_exit ch x :
  apart ch -> (0 <= exit_fd ch)%Z -> holds (set_exit_fd (-1) ch) x <-> holds ch x /\ x <> exit_fd ch.
Proof.
  intros [H1 H2] H. unfold holds. cbn.
  split; [|naive_solver]. intros [? [->|[->| ->]]]; [| |lia]; (split; [auto|]); naive_solver.
Qed.

Lemma stream_ok_closed g limit d fd bytes ds :
  stream_ok g limit d fd bytes -> stream_ok (set_opened ds g) limit d (-1) bytes.
Proof. intros (-> & ? & _). split_and!; [done|done|by right]. Qed.

Lemma stream_ok_opened g limit d fd bytes ds :
  stream_ok g limit d fd bytes -> stream_ok (set_opened ds g) limit d fd bytes.
Proof. done. Qed.

Lemma apart_drop s ch : apart ch -> apart (set_descriptor s (-1) ch).
Proof. unfold apart. destruct s; cbn; naive_solver lia. Qed.

Lemma apart_drop_exit ch : apart ch -> apart (set_exit_fd (-1) ch).
Proof. unfold apart. cbn. naive_solver lia. Qed.

Lemma core_drop ds src ch g s :
  core_ok ds src ch g -> (0 <= descriptor s ch)%Z ->
  core_ok ds src (set_descriptor s (-1) ch) (set_opened (opened g ∖ {[descriptor s ch]}) g).
Proof.
  intros [H1 H2 H3 H4 H5] Hd.
  destruct (holds_close ch g ds (descriptor s ch) (set_descriptor s (-1) ch)) as [Ho Hn]; [done|done| | |].
  - destruct s; split; auto.
  - intros x. destruct s; [by apply holds_drop_stdout | by apply holds_drop_stderr].
  - split; [done|done|by apply apart_drop| |].
    + destruct s; exact H4.
    + destruct src as [[o e]|]; destruct s; cbn in *.
      * destruct H5 as (? & ? & ? & H6 & ?). split_and!; try done. by eapply stream_ok_closed.
      * destruct H5 as (? & ? & ? & ? & H6). split_and!; try done. by eapply stream_ok_closed.
      * destruct H5 as (? & ? & ? & ?). split_and!; (done || lia).
      * destruct H5 as (? & ? & ? & ?). split_and!; (done || lia).
Qed.

Lemma core_drop_exit ds src ch g :
  core_ok ds src ch g -> (0 <= exit_fd ch)%Z ->
  core_ok ds src (set_exit_fd (-1) ch) (set_opened (opened g ∖ {[exit_fd ch]}) g).
Proof.
  intros [H1 H2 H3 H4 H5] Hd.
  destruct (holds_close ch g ds (exit_fd ch) (set_exit_fd (-1) ch)) as [Ho Hn]; [done|done| | |].
  - split; auto.
  - intros x. by apply holds_drop_exit.
  - split; [done|done|by apply apart_drop_exit|done|done].
Qed.

Lemma evolves_drop s ch g ds : evolves ch g (set_descriptor s (-1) ch) (set_opened ds g).
Proof. destruct s; split; cbn; try done; lia. Qed.

Lemma wp_close_descriptor b s ch g (Q : PosixChild -> Kernel -> Prop) :
  ((0 <= descriptor s ch)%Z -> descriptor s ch ∈ opened g) ->
  ((descriptor s ch < 0)%Z -> Q ch g) ->
  ((0 <= descriptor s ch)%Z -> Q (set_descriptor s (-1) ch) (set_opened (opened g ∖ {[descriptor s ch]}) g)) ->
  wp b (close_descriptor s ch) g Q.
Proof.
  intros H Hn Hs. unfold close_descriptor. destruct (Z.leb_spec 0 (descriptor s ch)) as [Hd|Hd]; [|by apply Hn].
  apply wp_call; [cbn; apply bool_decide_eq_true; auto|]. intros [] _ _. by apply Hs.
Qed.

(** Closing a stream that did not end leaves something missing. *)
Lemma flag_close src ch g s ds :
  core_ok ds src ch g -> (0 <= descriptor s ch)%Z ->
  flag_ok src (truncate (set_descriptor s (-1) ch)) (set_opened (opened g ∖ {[descriptor s ch]}) g).
Proof.
  intros [_ _ _ _ H] Hd. unfold flag_ok. destruct src as [[o e]|]; cbn in *.
  - assert (forall d fd bytes, stream_ok g (limit ch) d fd bytes -> (0 <= fd)%Z ->
      missing g (limit ch) d (-1) = true) as Hm.
    { intros d fd bytes (_ & _ & [[_ Hm]|Hm]) Hp; [|lia]. apply missing_close. by right. }
    destruct H as (_ & _ & _ & Ho & He). destruct s; cbn in *.
    + symmetry. apply orb_true_iff. left. exact (Hm _ _ _ Ho Hd).
    + symmetry. apply orb_true_iff. right. exact (Hm _ _ _ He Hd).
  - destruct s; cbn in Hd; lia.
Qed.



(** What happened to other descriptors does not concern a stream. *)
Definition same_stream (d : Z) (g g' : Kernel) : Prop :=
  bytes_from d g' = bytes_from d g /\ (d ∈ ended g' <-> d ∈ ended g).

Lemma stream_same g g' limit d fd bytes :
  same_stream d g g' -> stream_ok g limit d fd bytes -> stream_ok g' limit d fd bytes.
Proof. intros [E1 E2] (-> & ? & ?). unfold stream_ok. by rewrite E1, E2. Qed.

Lemma missing_same g g' limit d fd : same_stream d g g' -> missing g' limit d fd = missing g limit d fd.
Proof. intros [E1 E2]. unfold missing. rewrite E1. by rewrite (bool_decide_ext _ _ E2). Qed.

(** A stream that ended. *)
Lemma stream_end g g' limit d bytes :
  bytes_from d g' = bytes_from d g -> d ∈ ended g' -> stream_ok g limit d d bytes ->
  stream_ok g' limit d (-1) bytes /\ missing g' limit d (-1) = missing g limit d d.
Proof.
  intros E He (-> & Hd & _). split.
  - rewrite <-E. split_and!; [done|done|by right].
  - unfold missing. rewrite E, (bool_decide_true _ He). cbn.
    assert (d <? 0 = false)%Z as -> by by apply Z.ltb_ge. done.
Qed.

(** A chunk arrives. *)
Lemma retained_kept limit old bytes :
  let held := N.of_nat (length (kept limit old)) in
  let available := (if (held <? limit)%N then limit - held else 0)%N in
  let retained := N.min available (N.of_nat (length bytes)) in
  kept limit old ++ firstn (N.to_nat retained) bytes = kept limit (old ++ bytes) /\
  ((limit <? N.of_nat (length old))%N || negb (retained =? N.of_nat (length bytes))%N) =
    (limit <? N.of_nat (length (old ++ bytes)))%N || ((limit <? N.of_nat (length old))%N).
Proof.
  cbn zeta. unfold kept. rewrite length_app, length_take.
  set (n := length old). set (m := length bytes).
  replace (N.to_nat (N.min limit (N.of_nat n)) `min` n) with (N.to_nat (N.min limit (N.of_nat n))) by lia.
  rewrite N2Nat.id, Nat2N.inj_add.
  destruct (N.leb_spec (N.of_nat n) limit) as [H|H].
  - rewrite (N.min_r limit (N.of_nat n)) by done. split.
    + rewrite Nat2N.id, (take_ge old) by done.
      assert ((if N.of_nat n <? limit then limit - N.of_nat n else 0) = limit - N.of_nat n)%N as ->
        by (destruct (N.ltb_spec (N.of_nat n) limit); lia).
      rewrite take_app_ge by (fold n; lia). f_equal. fold n. f_equal. lia.
    + assert ((if N.of_nat n <? limit then limit - N.of_nat n else 0) = limit - N.of_nat n)%N as ->
        by (destruct (N.ltb_spec (N.of_nat n) limit); lia).
      assert (limit <? N.of_nat n = false)%N as -> by by apply N.ltb_ge. cbn. rewrite orb_false_r.
      destruct (N.eqb_spec (N.min (limit - N.of_nat n) (N.of_nat m)) (N.of_nat m)),
        (N.ltb_spec limit (N.of_nat n + N.of_nat m)); cbn; (done || lia).
  - rewrite (N.min_l limit (N.of_nat n)) by lia. rewrite N.ltb_irrefl, N.min_0_l. split.
    + cbn. rewrite app_nil_r, N.min_l by lia. rewrite take_app_le by (fold n; lia). done.
    + assert (limit <? N.of_nat n = true)%N as -> by by apply N.ltb_lt. cbn. by rewrite orb_true_r.
Qed.

Lemma same_stream_refl d g : same_stream d g g.
Proof. done. Qed.

(** Nothing came, so the stream ended; with the close that follows. *)
Lemma child_end ds src ch g s :
  child_ok ds src ch g -> (0 <= descriptor s ch)%Z ->
  let g' := set_received (received g) ({[descriptor s ch]} ∪ ended g) g in
  child_ok ds src (set_descriptor s (-1) ch) (set_opened (opened g' ∖ {[descriptor s ch]}) g').
Proof.
  intros [H Hf] Hd g'. pose proof (core_drop ds src ch g s H Hd) as [H1 H2 H3 H4 _].
  destruct H as [_ _ _ _ H]. unfold child_ok, flag_ok in *.
  enough (streams_ok src (set_descriptor s (-1) ch) (set_opened (opened g' ∖ {[descriptor s ch]}) g') /\
          match src with None => True | Some (o, e) =>
            missing g' (limit ch) o (stdout_fd (set_descriptor s (-1) ch)) ||
            missing g' (limit ch) e (stderr_fd (set_descriptor s (-1) ch)) =
            missing g (limit ch) o (stdout_fd ch) || missing g (limit ch) e (stderr_fd ch) end) as [Hs Hm].
  { split; [by split|]. destruct src as [[o e]|]; [|by destruct s].
    destruct s; cbn in *; rewrite Hf; symmetry; exact Hm. }
  destruct src as [[o e]|]; [|by destruct s; cbn in *; destruct H as (?&?&?&?); split_and!; (done || lia)].
  destruct H as (Hne & Hso & Hse & Ho & He).
  assert (forall d, d <> descriptor s ch -> same_stream d g g') as Hsame.
  { intros d Hn. split; [done|]. cbn. set_solver. }
  assert (forall d bytes, stream_ok g (limit ch) d (descriptor s ch) bytes -> d = descriptor s ch) as Hfd.
  { intros d bytes (_ & _ & [[? _]|?]); [done|lia]. }
  destruct s; cbn in Hd, Hsame, Hfd |- *.
  - pose proof (Hfd _ _ Ho) as E. rewrite <-E in *.
    destruct (stream_end g g' (limit ch) o _ eq_refl ltac:(cbn; set_solver) Ho) as [Ho' ->].
    rewrite (missing_same g g') by auto. split; [|done].
    split_and!; try done. exact (stream_same g g' _ _ _ _ (Hsame e (not_eq_sym Hne)) He).
  - pose proof (Hfd _ _ He) as E. rewrite <-E in *.
    destruct (stream_end g g' (limit ch) e _ eq_refl ltac:(cbn; set_solver) He) as [He' ->].
    rewrite (missing_same g g') by auto. split; [|done].
    split_and!; try done. exact (stream_same g g' _ _ _ _ (Hsame o Hne) Ho).
Qed.

(** A chunk arrives. *)
Lemma child_read ds src ch g s c bytes :
  child_ok ds src ch g -> (0 <= descriptor s ch)%Z ->
  let d := descriptor s ch in
  child_ok ds src (retain_bytes s (c :: bytes) ch)
    (set_received (<[d := bytes_from d g ++ c :: bytes]> (received g)) (ended g) g).
Proof.
  generalize (c :: bytes) as chunk. intros chunk [[H1 H2 H3 H4 H] Hf] Hd d.
  set (g' := set_received (<[d := bytes_from d g ++ chunk]> (received g)) (ended g) g).
  assert (forall x, x <> d -> same_stream x g g') as Hsame.
  { intros x Hn. split; [|done]. unfold bytes_from. cbn. by rewrite lookup_insert_ne. }
  assert (bytes_from d g' = bytes_from d g ++ chunk) as Hb.
  { unfold bytes_from at 1. cbn. by rewrite lookup_insert_eq. }
  destruct src as [[o e]|]; [|destruct H as (? & ? & _); destruct s; cbn in Hd; lia].
  destruct H as (Hne & Hso & Hse & Ho & He).
  assert (forall x held, stream_ok g (limit ch) x d held ->
    x = d /\ stream_ok g' (limit ch) x d (held ++ firstn (N.to_nat (N.min
        (if (N.of_nat (length held) <? limit ch)%N then limit ch - N.of_nat (length held) else 0)
        (N.of_nat (length chunk)))) chunk) /\
    missing g' (limit ch) x d = missing g (limit ch) x d ||
      negb (N.min (if (N.of_nat (length held) <? limit ch)%N then limit ch - N.of_nat (length held) else 0)
              (N.of_nat (length chunk)) =? N.of_nat (length chunk))%N) as Hx.
  { intros x held (-> & Hp & [[E Hx]|Hx]); [|lia]. subst x. split; [done|].
    destruct (retained_kept (limit ch) (bytes_from d g) chunk) as [R1 R2]. split.
    - rewrite R1. split; [by rewrite Hb|]. auto.
    - unfold missing. rewrite Hb. assert (d <? 0 = false)%Z as -> by by apply Z.ltb_ge. cbn [andb].
      rewrite !orb_false_r, R2. destruct (N.ltb_spec (limit ch) (N.of_nat (length (bytes_from d g)))) as [Hl|Hl];
        [|by rewrite orb_false_r].
      rewrite orb_true_r. apply N.ltb_lt. rewrite length_app. lia. }
  unfold child_ok, flag_ok in *. unfold d in *. clear d. destruct s; cbn in Hd, Hsame, Hx, Hf.
  - destruct (Hx o _ Ho) as (E & Ho' & Hm). rewrite <-E in *. split; [split; try done|].
    + split_and!; [done|done|done| |exact (stream_same g g' _ _ _ _ (Hsame e (not_eq_sym Hne)) He)].
      unfold retain_bytes. cbn -[stream_ok N.min]. rewrite <-E. exact Ho'.
    + unfold retain_bytes. cbn -[missing N.min]. rewrite Hf, <-E, Hm, (missing_same g g') by auto.
      match goal with |- context [negb ?b] => destruct b end; by destruct (missing g _ o _), (missing g _ e _).
  - destruct (Hx e _ He) as (E & He' & Hm). rewrite <-E in *. split; [split; try done|].
    + split_and!; [done|done|done|exact (stream_same g g' _ _ _ _ (Hsame o Hne) Ho)|].
      unfold retain_bytes. cbn -[stream_ok N.min]. rewrite <-E. exact He'.
    + unfold retain_bytes. cbn -[missing N.min]. rewrite Hf, <-E, Hm, (missing_same g g') by auto.
      match goal with |- context [negb ?b] => destruct b end; by destruct (missing g _ o _), (missing g _ e _).
Qed.

(** What an operation leaves: the child as it should be, nothing lost. *)
Definition kept_by ds src ch g (ch' : PosixChild) (g' : Kernel) : Prop := child_ok ds src ch' g' /\ evolves ch g ch' g'.

Lemma kept_refl ds src ch g : child_ok ds src ch g -> kept_by ds src ch g ch g.
Proof. split; [done|apply evolves_refl]. Qed.

Lemma kept_trans ds src ch g ch1 g1 ch2 g2 :
  kept_by ds src ch g ch1 g1 -> kept_by ds src ch1 g1 ch2 g2 -> kept_by ds src ch g ch2 g2.
Proof. intros [_ H1] [H H2]. split; [done|]. by eapply evolves_trans. Qed.

Ltac evolve := split; cbn; (done || lia || (by eexists) || auto).

Lemma evolves_read s bytes ch g m : evolves ch g (retain_bytes s bytes ch) (set_received m (ended g) g).
Proof. destruct s; split; cbn; try done; try lia; by eexists. Qed.

Lemma evolves_truncate ch g : evolves ch g (truncate ch) g.
Proof. split; cbn; try done; lia. Qed.

Lemma kept_clock ds src ch g t : child_ok ds src ch g -> (clock g <= t)%Z -> kept_by ds src ch g ch (set_clock t g).
Proof. intros [[] Hf] Ht. split; [by split|]. by split; cbn. Qed.

Lemma kept_close ds src ch g s :
  child_ok ds src ch g -> (0 <= descriptor s ch)%Z ->
  kept_by ds src ch g (truncate (set_descriptor s (-1) ch)) (set_opened (opened g ∖ {[descriptor s ch]}) g).
Proof.
  intros [H Hf] Hd. split; [split|].
  - by destruct (core_drop ds src ch g s H Hd).
  - by eapply flag_close.
  - eapply evolves_trans; [apply evolves_drop|apply evolves_truncate].
Qed.

Lemma kept_end ds src ch g s :
  child_ok ds src ch g -> (0 <= descriptor s ch)%Z ->
  let g' := set_received (received g) ({[descriptor s ch]} ∪ ended g) g in
  kept_by ds src ch g (set_descriptor s (-1) ch) (set_opened (opened g' ∖ {[descriptor s ch]}) g').
Proof.
  intros H Hd g'. split; [by apply child_end|].
  eapply evolves_trans; [|apply evolves_drop]. split; cbn; try done; lia.
Qed.

(** What reading leaves as it was. *)
Definition same_fate ch g ch' g' : Prop :=
  status ch' = status ch /\ wait_status ch' = wait_status ch /\ fate g' = fate g /\ signals g' = signals g.

Arguments kept_by : simpl never.
Arguments child_ok : simpl never.
Arguments same_fate : simpl never.

Definition delivers (d : DeliveryStatus) (e : option ProcessError) : Prop := forall x, e = Some x -> error_delivery x = d.

Arguments delivers : simpl never.

Lemma wp_drain b ds src ch g s boundary delivery one_read :
  child_ok ds src ch g ->
  (b = true -> 0 < fuel /\ (one_read = false -> (boundary - clock g < Z.of_nat fuel)%Z)) ->
  wp b (drain_impl s boundary delivery one_read ch) g (fun r g' =>
    kept_by ds src ch g r.1 g' /\ same_fate ch g r.1 g' /\ delivers delivery r.2).
Proof.
  intros H Hb. unfold drain_impl. destruct (Z.ltb_spec (descriptor s ch) 0) as [Hd|Hd].
  { split_and!; [by apply kept_refl|done|done]. }
  apply (wp_loop b _ fuel ch g (fun n ch' g' => kept_by ds src ch g ch' g' /\ same_fate ch g ch' g' /\
    descriptor s ch' = descriptor s ch /\ (one_read = false -> Z.to_nat (boundary - clock g') <= n)) _
    (if one_read then 0 else Z.to_nat (boundary - clock g))).
  { intros E. destruct (Hb E) as [? Hf]. destruct one_read; [done|]. specialize (Hf eq_refl). lia. }
  { split_and!; [by apply kept_refl|done|done|]. by intros ->. }
  clear Hb H. intros n ch1 g1 (H1 & Hs & Ed & Hn). unfold drain_turn.
  assert (forall g2, kept_by ds src ch g ch1 g2 -> same_fate ch g ch1 g2 ->
    (one_read = false -> Z.to_nat (boundary - clock g2) <= n /\ (b = true -> Z.to_nat (boundary - clock g2) < n)) ->
    wp b (count ← call (Read (descriptor s ch) buffer_size);
       match count : expected Z text with
       | Value [] => ch ← close_descriptor s ch1; Ret (inr (ch, None))
       | Value bytes =>
           Ret (if one_read then inr (retain_bytes s bytes ch1, None) else inl (retain_bytes s bytes ch1))
       | Unexpected e =>
           if (e =? EINTR)%Z then Ret (inl ch1)
           else if (e =? EAGAIN)%Z then Ret (inr (ch1, None))
           else
             ch ← close_descriptor s ch1;
             Ret (inr (truncate ch, Some (process_error p_pipe delivery (txt "pipe read") (rendered_request ch) e)))
       end) g2 (fun (r : PosixChild + Answered) g' =>
         match r with
         | inl ch' => exists m, (b = true -> m < n) /\ kept_by ds src ch g ch' g' /\ same_fate ch g ch' g' /\
                        descriptor s ch' = descriptor s ch /\ (one_read = false -> Z.to_nat (boundary - clock g') <= m)
         | inr r => kept_by ds src ch g r.1 g' /\ same_fate ch g r.1 g' /\ delivers delivery r.2
         end)) as Hread.
  { clear Hn H1 Hs g1. intros g2 H1 Hs Hn. rewrite <-Ed. rewrite <-Ed in Hd. destruct H1 as [H1 He].
    apply wp_call; [cbn; apply bool_decide_eq_true; by apply (live_in ds src ch1 g2 s (proj1 H1))|].
    intros [[|c bytes]|e] _ Hp.
    - apply prog_bind. apply wp_close_descriptor; [intros _; by apply (live_in ds src ch1 g2 s (proj1 H1))|cbn; lia|].
      intros _. cbn. destruct (kept_end ds src ch1 g2 s H1 Hd) as [H2 He2].
      split_and!; [|by destruct s|done]. split; [done|]. by eapply evolves_trans.
    - assert (kept_by ds src ch g (retain_bytes s (c :: bytes) ch1) (after g2 (Read (descriptor s ch1) buffer_size) (Value (c :: bytes)))).
      { split; [by apply child_read|]. eapply evolves_trans; [done|]. apply evolves_read. }
      assert (same_fate ch g (retain_bytes s (c :: bytes) ch1) (after g2 (Read (descriptor s ch1) buffer_size) (Value (c :: bytes)))) by by destruct s.
      destruct one_read; [by split_and!|]. destruct (Hn eq_refl). exists (Z.to_nat (boundary - clock g2)).
      split_and!; try done.
    - destruct (Z.eqb_spec e EINTR) as [->|Hne].
      { cbn. destruct b; [by specialize (Hp eq_refl)|]. exists n. split_and!; try done. intros E. by destruct (Hn E). }
      destruct (e =? EAGAIN)%Z; [by split_and!|].
      apply prog_bind.
      apply wp_close_descriptor; [intros _; by apply (live_in ds src ch1 g2 s (proj1 H1))|cbn; lia|]. intros _.
      destruct (kept_close ds src ch1 g2 s H1 Hd) as [H2 He2].
      split_and!; [|by destruct s|by intros ? [= <-]]. split; [done|]. by eapply evolves_trans. }
  destruct one_read; cbn [mbind Prog_bind].
  - by apply Hread.
  - apply prog_bind. apply wp_call; [done|]. intros t Ht Hp. cbn. cbn in Ht, Hp.
    destruct (Z.leb_spec boundary t) as [Hbt|Hbt].
    { split_and!; [|by destruct Hs as (? & ? & ? & ?)|done]. destruct H1 as [H1 He].
      eapply kept_trans; [by split|]. by apply kept_clock. }
    apply Hread.
    + destruct H1 as [H1 He]. eapply kept_trans; [by split|]. by apply kept_clock.
    + done.
    + intros _. specialize (Hn eq_refl). cbn. split; [lia|]. intros E. specialize (Hp E). lia.
Qed.

Lemma wp_ret {A} b (a : A) g (Q : A -> Kernel -> Prop) : Q a g -> wp b (Ret a) g Q.
Proof. done. Qed.

Lemma core_fate ds src ch g f w st :
  core_ok ds src ch g -> fate_ok (set_status w st ch) (set_fate f g) ->
  core_ok ds src (set_status w st ch) (set_fate f g).
Proof. intros [] H. by split. Qed.

Lemma child_fate ds src ch g f w st :
  child_ok ds src ch g -> fate_ok (set_status w st ch) (set_fate f g) ->
  child_ok ds src (set_status w st ch) (set_fate f g).
Proof. intros [H Hf] Hs. split; [by apply core_fate|done]. Qed.

Lemma wp_close_exit b ds src ch g :
  child_ok ds src ch g ->
  wp b (close_exit_descriptor ch) g (fun ch' g' =>
    kept_by ds src ch g ch' g' /\ same_fate ch g ch' g' /\ capture ch' = capture ch).
Proof.
  intros H. unfold close_exit_descriptor. destruct (Z.leb_spec 0 (exit_fd ch)) as [Hd|Hd].
  - apply wp_call; [cbn; apply bool_decide_eq_true; apply (ko_opened _ _ _ _ (proj1 H)); right; split; auto|].
    intros [] _ _. apply wp_ret. destruct H as [H Hf]. split_and!; try done.
    split; [split; [by apply core_drop_exit|done]|]. split; cbn; try done; lia.
  - apply wp_ret. split_and!; [by apply kept_refl|done|done].
Qed.

(** The child's end, as [waitpid] or [waitid] says it. *)
Lemma wp_ends b ds src ch g f w st :
  child_ok ds src ch g -> status ch = running -> fate_ok (set_status w st ch) (set_fate f g) ->
  wp b (close_exit_descriptor (set_status w st ch)) (set_fate f g) (fun ch' g' =>
    kept_by ds src ch g ch' g' /\ status ch' = st /\ signals g' = signals g /\ capture ch' = capture ch).
Proof.
  intros H Hr Hs. eapply prog_mono; [by apply (wp_close_exit b ds src), child_fate|].
  intros ch' g' ([H1 H2] & (E1 & E2 & E3 & E4) & E5). split_and!; [|done|done|done]. split; [done|].
  destruct H2. split; try done.
Qed.

Lemma wp_wait_lost b ds src ch g e failure :
  child_ok ds src ch g -> status ch = running ->
  wp b (ch' ← (if (e =? ECHILD)%Z then lost ch else Ret ch); Ret (ch', failure ch')) (lose e (pid ch) g)
    (fun (r : PosixChild * option ProcessError) g' =>
       kept_by ds src ch g r.1 g' /\ r.2 = failure r.1 /\ signals g' = signals g /\
       status r.1 = if (e =? ECHILD)%Z then unknowable else running).
Proof.
  intros H Hr. unfold lose. destruct (Z.eqb_spec e ECHILD) as [->|Hne].
  - rewrite bool_decide_true by done. eapply wp_seq; [by eapply wp_ends|].
    intros ch' g' (H1 & H2 & H3 & H4). apply wp_ret. by split_and!.
  - rewrite bool_decide_false by done. apply wp_ret. split_and!; [by apply kept_refl|done|done|done].
Qed.

(** One answer, or an interruption and another try. *)
Lemma wp_retry {T A} b (body : T -> Prog (T + A)) s g (Q : A -> Kernel -> Prop) :
  (b = true -> 0 < fuel) ->
  wp b (body s) g (fun r g' => match r with inl s' => s' = s /\ g' = g /\ b = false | inr a => Q a g' end) ->
  wp b (loop body fuel s) g Q.
Proof.
  intros Hf H. apply (wp_loop b body fuel s g (fun _ s' g' => s' = s /\ g' = g) Q 0); [done|done|].
  intros n s' g' [-> ->]. eapply prog_mono; [exact H|]. intros [s'|a] g'; [|done].
  intros (-> & -> & Hb). exists n. split; [by rewrite Hb|done].
Qed.

Lemma running_allowed ds src ch g : child_ok ds src ch g -> status ch = running ->
  bool_decide (fate g = Running (pid ch)) = true.
Proof. intros [H _] Hr. apply bool_decide_eq_true. by eapply fate_running. Qed.

Lemma wp_update_status b ds src ch g delivery :
  child_ok ds src ch g -> (b = true -> 0 < fuel) ->
  wp b (update_status delivery ch) g (fun r g' =>
    kept_by ds src ch g r.1 g' /\ delivers delivery r.2 /\ capture r.1 = capture ch /\ signals g' = signals g /\
    (status ch <> unknowable -> r.2 = None -> status r.1 <> unknowable)).
Proof.
  intros H Hb. unfold update_status, is_running. case_bool_decide as Hr; cbn [negb].
  2: { apply wp_ret. split_and!; [by apply kept_refl|done|done|done|done]. }
  apply wp_retry; [done|]. unfold update_turn. apply wp_call; [by eapply running_allowed|].
  intros [s| |e] _ Hp.
  - eapply wp_seq; [by eapply wp_ends|]. intros ch' g' (H1 & H2 & H3 & H4). cbn. split_and!; try done; by rewrite H2.
  - apply wp_ret. split_and!; [by apply kept_refl|done|done|done|done].
  - destruct (Z.eqb_spec e EINTR) as [->|Hne].
    { apply wp_ret. split_and!; [done|done|]. destruct b; [|done]. by specialize (Hp eq_refl). }
    destruct (Z.eqb_spec e ECHILD) as [->|Hne'].
    + eapply wp_seq; [by eapply wp_ends|]. intros ch' g' (H1 & H2 & H3 & H4). cbn. split_and!; try done; try by rewrite H2.
      by intros x [= <-].
    + cbn. unfold lose. rewrite bool_decide_false by done. split_and!; [by apply kept_refl| |done|done|done].
      by intros x [= <-].
Qed.

Lemma wp_signal_group b ds src ch g signal delivery :
  child_ok ds src ch g -> (b = true -> 0 < fuel) ->
  wp b (signal_group signal delivery ch) g (fun r g' =>
    r.1 = ch /\ kept_by ds src ch g ch g' /\ delivers delivery r.2 /\ (r.2 <> None -> status ch = running) /\
    signals g' = signals g ++ (if is_running ch && negb (bool_decide (is_Some r.2)) then [signal] else []) /\
    (b = true -> r.2 = None)).
Proof.
  intros H Hb. unfold signal_group, is_running. case_bool_decide as Hr; cbn [negb].
  2: { apply wp_ret. split_and!; [done|by apply kept_refl|done|done| |done]. cbn. by rewrite app_nil_r. }
  apply wp_retry; [done|]. unfold signal_turn. apply wp_call; [by eapply running_allowed|].
  intros [e|] _ Hp.
  - destruct (Z.eqb_spec e EINTR) as [->|Hne]; apply wp_ret.
    { split_and!; [done|done|]. destruct b; [|done]. by specialize (Hp eq_refl). }
    split_and!; [done|by apply kept_refl|by intros x [= <-]|done|cbn; by rewrite app_nil_r|].
    intros E. by specialize (Hp E).
  - apply wp_ret. split_and!; [done| |done|done|done|done]. destruct H as [[] Hf]. split; [split; [by split|done]|].
    split; cbn; try done; lia.
Qed.

Lemma wp_exit_pending b ds src ch g delivery :
  child_ok ds src ch g -> status ch = running -> (b = true -> 0 < fuel) ->
  wp b (exit_pending delivery ch) g (fun r g' =>
    kept_by ds src ch g r.1 g' /\
    match r.2 with Value _ => r.1 = ch /\ g' = g | Unexpected e => error_delivery e = delivery end).
Proof.
  intros H Hr Hb. apply wp_retry; [done|]. unfold exit_turn. apply wp_call; [by eapply running_allowed|].
  intros [p|e] _ Hp.
  - apply wp_ret. split; [by apply kept_refl|done].
  - destruct (Z.eqb_spec e EINTR) as [->|Hne].
    { apply wp_ret. split_and!; [done|done|]. destruct b; [|done]. by specialize (Hp eq_refl). }
    cbn [after]. unfold lose. destruct (Z.eqb_spec e ECHILD) as [->|Hne'].
    + rewrite bool_decide_true by done. eapply wp_seq; [by eapply wp_ends|].
      intros ch' g' (H1 & H2 & H3 & H4). apply wp_ret. by split_and!.
    + rewrite bool_decide_false by done. cbn. split_and!; [by apply kept_refl|done].
Qed.

Lemma wp_wait_for_exit b ds src ch g delivery :
  child_ok ds src ch g -> (b = true -> 0 < fuel) ->
  wp b (wait_for_exit delivery ch) g (fun r g' =>
    kept_by ds src ch g r.1 g' /\ delivers delivery r.2 /\ signals g' = signals g /\
    (r.2 = None -> status ch <> unknowable -> status r.1 <> running /\ status r.1 <> unknowable) /\
    (b = true -> status r.1 <> running)).
Proof.
  intros H Hb. apply wp_retry; [done|]. unfold wait_turn, is_running. case_bool_decide as Hr; cbn [negb].
  2: { apply wp_ret. split_and!; [by apply kept_refl|done|done|done|done]. }
  apply wp_call; [by eapply running_allowed|]. intros [s| |e] Hx Hp; [| |]; [|done|].
  - eapply wp_seq; [by eapply wp_ends|]. intros ch' g' (H1 & H2 & H3 & H4). apply wp_ret.
    all: cbn; split_and!; rewrite ?H2; try done.
  - destruct (Z.eqb_spec e EINTR) as [->|Hne].
    { apply wp_ret. split_and!; [done|done|]. destruct b; [|done]. by specialize (Hp eq_refl). }
    cbn [after waited]. unfold lose. destruct (Z.eqb_spec e ECHILD) as [->|Hne'].
    + rewrite bool_decide_true by done. eapply wp_seq; [by eapply wp_ends|].
      intros ch' g' (H1 & H2 & H3 & H4). cbn. split_and!; rewrite ?H2; try done.
      by intros x [= <-].
    + rewrite bool_decide_false by done. cbn. split_and!; [by apply kept_refl|by intros x [= <-]|done|done|].
      intros E. by specialize (Hp E).
Qed.

Definition same_bytes (ch ch' : PosixChild) : Prop :=
  captured_out (capture ch') = captured_out (capture ch) /\ captured_err (capture ch') = captured_err (capture ch).

Lemma wp_close_stream b ds src ch g s :
  child_ok ds src ch g ->
  wp b (close_stream s ch) g (fun ch' g' =>
    kept_by ds src ch g ch' g' /\ same_fate ch g ch' g' /\ same_bytes ch ch' /\ (descriptor s ch' < 0)%Z).
Proof.
  intros H. unfold close_stream. destruct (Z.leb_spec 0 (descriptor s ch)) as [Hd|Hd].
  - assert (descriptor s (truncate ch) = descriptor s ch) as E by by destruct s.
    apply wp_close_descriptor; rewrite E; [intros _; by apply (live_in ds src ch g s (proj1 H))|lia|].
    intros _. pose proof (kept_close ds src ch g s H Hd) as Hk.
    assert (set_descriptor s (-1) (truncate ch) = truncate (set_descriptor s (-1) ch)) as -> by by destruct s.
    split_and!; [done|by destruct s|by destruct s|by destruct s].
  - apply wp_ret. split_and!; [by apply kept_refl|done|done|done].
Qed.

Lemma same_fate_trans ch1 g1 ch2 g2 ch3 g3 :
  same_fate ch1 g1 ch2 g2 -> same_fate ch2 g2 ch3 g3 -> same_fate ch1 g1 ch3 g3.
Proof. unfold same_fate. intros (? & ? & ? & ?) (? & ? & ? & ?). split_and!; congruence. Qed.

Lemma wp_close_output b ds src ch g :
  child_ok ds src ch g ->
  wp b (close_output ch) g (fun ch' g' =>
    kept_by ds src ch g ch' g' /\ same_fate ch g ch' g' /\ same_bytes ch ch' /\ output_closed ch' = true).
Proof.
  intros H. eapply wp_seq; [by apply (wp_close_stream b ds src)|]. intros ch1 g1 (H1 & S1 & B1 & D1).
  eapply prog_mono; [apply (wp_close_stream b ds src); apply H1|]. intros ch2 g2 (H2 & S2 & B2 & D2). split_and!.
  - by eapply kept_trans.
  - by eapply same_fate_trans.
  - destruct B1, B2. split; congruence.
  - unfold output_closed. destruct H2 as [_ []]. cbn in D1, D2.
    rewrite (proj2 (Z.ltb_lt _ _) (ev_stdout0 D1)), (proj2 (Z.ltb_lt _ _) D2). done.
Qed.

(** * Its beginning and its end *)

Lemma set_opened_eq ds g : opened g = ds -> set_opened ds g = g.
Proof. intros <-. by destruct g. Qed.

Lemma wp_close_all b l g :
  (forall d, d ∈ l -> (0 <= d)%Z -> d ∈ opened g) -> NoDup (List.filter (Z.leb 0) l) ->
  wp b (close_all l) g (fun _ g' => g' = set_opened (opened g ∖ list_to_set (List.filter (Z.leb 0) l)) g).
Proof.
  revert g. induction l as [|d l IH]; intros g Ho Hn; cbn [close_all List.filter] in *.
  - apply wp_ret. symmetry. apply set_opened_eq. cbn. set_solver.
  - destruct (Z.leb_spec 0 d) as [Hd|Hd]; [|by apply IH; [set_solver|done]].
    apply NoDup_cons in Hn as [Hn1 Hn2]. apply wp_call.
    { cbn. apply bool_decide_eq_true. apply Ho; [by left|done]. }
    intros [] _ _. eapply prog_mono; [apply IH; [|done]|].
    + intros x Hx Hp. cbn. apply elem_of_difference. split; [apply Ho; [by right|done]|].
      apply not_elem_of_singleton. intros ->. apply Hn1.
      apply list_elem_of_In, filter_In. split; [by apply list_elem_of_In|]. by apply Z.leb_le.
    + intros _ g' ->. unfold set_opened. cbn. f_equal. set_solver.
Qed.

(** The descriptors of the pipes of a launch, beyond those that were open. *)
Definition pipes_ok (ds : gset Z) (out err : Z * Z) (g : Kernel) : Prop :=
  out = (-1, -1)%Z /\ err = (-1, -1)%Z /\ opened g = ds \/
  Forall (Z.le 0) [err.2; err.1; out.2; out.1] /\ NoDup [err.2; err.1; out.2; out.1] /\
  (forall d, d ∈ [err.2; err.1; out.2; out.1] -> d ∉ ds) /\
  opened g = list_to_set [err.2; err.1; out.2; out.1] ∪ ds.

Lemma filter_all l : Forall (Z.le 0) l -> List.filter (Z.leb 0) l = l.
Proof. induction 1 as [|d l H _ IH]; [done|]. cbn. rewrite (proj2 (Z.leb_le _ _) H). by f_equal. Qed.

Lemma wp_close_pipes b ds out err g :
  pipes_ok ds out err g ->
  wp b (close_all [err.2; err.1; out.2; out.1]) g (fun _ g' => g' = set_opened ds g).
Proof.
  intros [(-> & -> & H)|(Hp & Hn & Hd & Ho)].
  - apply wp_ret. by rewrite set_opened_eq.
  - eapply prog_mono; [apply wp_close_all|].
    + intros d Hx _. rewrite Ho. apply elem_of_union. left. by apply elem_of_list_to_set.
    + by rewrite filter_all.
    + intros _ g' ->. rewrite filter_all by done. f_equal. rewrite Ho. set_solver.
Qed.

(** The write ends after the spawn, the read ends with the child. *)
Lemma wp_close_writes b ds out err g :
  pipes_ok ds out err g ->
  wp b (close_all [out.2; err.2]) g (fun _ g' => exists rs : gset Z, g' = set_opened rs g /\
    (forall d, d ∈ rs <-> d ∈ ds \/ (0 <= d)%Z /\ (d = out.1 \/ d = err.1)) /\
    ((0 <= out.1)%Z -> out.1 <> err.1 /\ out.1 ∉ ds) /\ ((0 <= err.1)%Z -> err.1 ∉ ds) /\
    wp b (close_all [err.1; out.1]) g' (fun _ g'' => g'' = set_opened ds g)).
Proof.
  intros [(-> & -> & H)|(Hp & Hn & Hd & Ho)].
  - apply wp_ret. exists ds. rewrite set_opened_eq by done. split_and!; try done; cbn; try lia. naive_solver lia.
  - apply Forall_cons in Hp as [H1 [H2 [H3 [H4 _]%Forall_cons]%Forall_cons]%Forall_cons].
    assert (forall d, d ∈ opened g <-> d ∈ ds \/ d = err.2 \/ d = err.1 \/ d = out.2 \/ d = out.1) as Ho'.
    { intros d. rewrite Ho. set_solver. }
    apply NoDup_cons in Hn as [N1 [N2 [N3 _]%NoDup_cons]%NoDup_cons].
    assert (forall d, d ∈ [err.2; err.1; out.2; out.1] <-> d = err.2 \/ d = err.1 \/ d = out.2 \/ d = out.1) as Hl by set_solver.
    assert (err.2 ∉ ds /\ err.1 ∉ ds /\ out.2 ∉ ds /\ out.1 ∉ ds) as (D1 & D2 & D3 & D4).
    { split_and!; apply Hd, Hl; auto. }
    rewrite !not_elem_of_cons in N1. rewrite !not_elem_of_cons in N2. rewrite !not_elem_of_cons in N3.
    destruct N1 as (? & ? & ? & _), N2 as (? & ? & _), N3 as (? & _).
    eapply prog_mono; [apply wp_close_all|].
    + intros d Hx _. apply Ho'. set_solver.
    + rewrite filter_all by (repeat constructor; done). apply NoDup_cons. split; [set_solver|]. apply NoDup_singleton.
    + intros _ g' ->. rewrite filter_all by (repeat constructor; done). eexists. split; [reflexivity|].
      assert (forall d, d ∈ opened g ∖ list_to_set [out.2; err.2] <->
        d ∈ ds \/ (0 <= d)%Z /\ (d = out.1 \/ d = err.1)) as Hrs.
      { intros d. rewrite elem_of_difference, Ho', elem_of_list_to_set. rewrite !elem_of_cons. set_solver. }
      split_and!; [done|by auto|done|].
      eapply prog_mono; [apply wp_close_all|].
      * intros d Hx _. cbn [opened set_opened]. apply Hrs. set_solver.
      * rewrite filter_all by (repeat constructor; done). apply NoDup_cons. split; [set_solver|]. apply NoDup_singleton.
      * intros _ g' ->. rewrite filter_all by (repeat constructor; done). unfold set_opened. cbn [opened].
        f_equal. apply set_eq. intros d. rewrite elem_of_difference, Hrs, elem_of_list_to_set. set_solver.
Qed.

(** What preparing a launch touches. *)
Record prepares (g g' : Kernel) : Prop := {
  pr_fate : fate g' = fate g;
  pr_clock : clock g' = clock g;
  pr_received : received g' = received g;
  pr_ended : ended g' = ended g;
  pr_heard : heard g' = heard g;
  pr_signals : signals g' = signals g;
}.

Lemma prepares_refl g : prepares g g.
Proof. done. Qed.

Lemma prepares_trans g1 g2 g3 : prepares g1 g2 -> prepares g2 g3 -> prepares g1 g3.
Proof. intros [] []. split; congruence. Qed.

Lemma wp_create_pipe b g :
  wp b create_pipe g (fun r g' => prepares g g' /\
    match r with
    | Unexpected _ => opened g' = opened g
    | Value (rd, wr) =>
        (0 <= rd)%Z /\ (0 <= wr)%Z /\ rd <> wr /\ rd ∉ opened g /\ wr ∉ opened g /\
        opened g' = {[rd; wr]} ∪ opened g /\ reader g' = <[wr := rd]> (reader g) /\ dups g' = dups g
    end).
Proof.
  apply wp_call; [done|]. intros [[rd wr]|e] Hx _; [|by apply wp_ret].
  destruct Hx as (H1 & H2 & H3 & H4 & H5). cbn [after].
  assert (forall e, wp b (_ ← close_all [rd; wr]; Ret (Unexpected e))
    (set_reader (<[wr := rd]> (reader g)) (set_opened ({[rd; wr]} ∪ opened g) g))
    (fun (r : expected Z (Z * Z)) g' => prepares g g' /\ match r with
       | Unexpected _ => opened g' = opened g
       | Value (rd, wr) =>
           (0 <= rd)%Z /\ (0 <= wr)%Z /\ rd <> wr /\ rd ∉ opened g /\ wr ∉ opened g /\
           opened g' = {[rd; wr]} ∪ opened g /\ reader g' = <[wr := rd]> (reader g) /\ dups g' = dups g
       end)) as Hr.
  { intros e. eapply wp_seq; [apply wp_close_all|].
    - intros d Hd _. cbn. set_solver.
    - rewrite filter_all by (repeat constructor; done). apply NoDup_cons. split; [set_solver|]. apply NoDup_singleton.
    - intros _ g' ->. apply wp_ret. split; [done|]. rewrite filter_all by (repeat constructor; done). cbn. set_solver. }
  apply wp_call; [cbn; apply bool_decide_eq_true; set_solver|].
  intros [flags|e] _ _; [|apply Hr]. apply wp_call; [cbn; apply bool_decide_eq_true; set_solver|].
  intros [e|] _ _; [apply Hr|]. apply wp_ret. by split_and!.
Qed.

(** The duplications that preparing asks for. *)
Definition dups_after (steps : list SpawnStep) (m : gmap Z Z) : gmap Z Z :=
  fold_left (fun m s => match s with AddDup2 from to => <[to := from]> m | _ => m end) steps m.

Lemma wp_prepare b steps g :
  wp b (prepare steps) g (fun r g' =>
    exists m, g' = set_dups m g /\ (r = 0%Z -> m = dups_after steps (dups g))).
Proof.
  revert g. induction steps as [|s steps IH]; intros g; cbn [prepare].
  - apply wp_ret. exists (dups g). split; [by destruct g|done].
  - apply wp_call; [done|]. intros r _ _. case_bool_decide as Hr.
    + eapply prog_mono; [apply IH|]. intros r' g' (m & -> & Hm). exists m. cbn in r. subst r. split.
      * by destruct s.
      * intros E. rewrite (Hm E). by destruct s.
    + apply wp_ret. exists (dups g). split; [|done]. cbn in r. destruct s; try (by destruct g).
      cbn. rewrite bool_decide_false by done. by destruct g.
Qed.

(** What a child reads from. *)
Definition sources (r : ChildRequest) (out err : Z * Z) : option (Z * Z) :=
  match stdio r with stdio_capture => Some (out.1, err.1) | inherit_terminal => None end.

Definition piped (r : ChildRequest) (out err : Z * Z) (g : Kernel) : Prop :=
  match stdio r with
  | stdio_capture => (0 <= out.1)%Z /\ (0 <= err.1)%Z /\ out.1 <> err.1 /\ out.2 <> err.2 /\
      reader g !! out.2 = Some out.1 /\ reader g !! err.2 = Some err.1
  | inherit_terminal => out.1 = (-1)%Z /\ err.1 = (-1)%Z
  end.

(** A launch that fails leaves nothing; one that succeeds leaves a child and what it owns. *)
Definition launched (ds : gset Z) (r : ChildRequest) (g : Kernel) (x : expected ProcessError PosixChild) (g' : Kernel) : Prop :=
  heard g' = heard g /\ clock g' = clock g /\ signals g' = signals g /\
  match x with
  | Unexpected e => opened g' = ds /\ fate g' = Unborn /\ error_delivery e = not_started
  | Value ch => status ch = running /\ capture ch = empty_capture /\ limit ch = capture_limit (request r) /\
      exists src, child_ok ds src ch g' /\ (stdio r = stdio_capture <-> is_Some src)
  end.

Lemma dups_capture (wd : list SpawnStep) o e m :
  (wd = [] \/ exists d, wd = [AddChdir d]) ->
  let m' := dups_after (wd ++ [AddOpen 0 (txt "/dev/null"); AddDup2 o 1; AddDup2 e 2]) m in
  m' !! 1%Z = Some o /\ m' !! 2%Z = Some e.
Proof.
  intros [->|[d ->]]; cbn; (split; [by rewrite lookup_insert_ne, lookup_insert_eq|by rewrite lookup_insert_eq]).
Qed.

Lemma child_begins ds r out err child exit_fd rendered teardown rs g g' :
  (forall d, d ∈ rs <-> d ∈ ds \/ (0 <= d)%Z /\ (d = out.1 \/ d = err.1)) ->
  ((0 <= out.1)%Z -> out.1 <> err.1 /\ out.1 ∉ ds) -> ((0 <= err.1)%Z -> err.1 ∉ ds) ->
  piped r out err g -> received g' = ∅ -> ended g' = ∅ -> reader g' = reader g ->
  (stdio r = stdio_capture -> dups g' !! 1%Z = Some out.2 /\ dups g' !! 2%Z = Some err.2) ->
  fate g' = Running child -> opened g' = (if (0 <=? exit_fd)%Z then {[exit_fd]} ∪ rs else rs) ->
  ((0 <= exit_fd)%Z -> exit_fd ∉ rs) ->
  child_ok ds (sources r out err)
    (MkChild child out.1 err.1 exit_fd (capture_limit (request r)) rendered empty_capture 0 running teardown) g'.
Proof.
  intros Hrs Ho He Hp Er Ee Em Hd Hf Hop Hx. split.
  - split; cbn; try done.
    + intros d. rewrite Hop. unfold holds. cbn. destruct (Z.leb_spec 0 exit_fd) as [Hp'|Hp'].
      * rewrite elem_of_union, elem_of_singleton, Hrs. naive_solver.
      * rewrite Hrs. naive_solver lia.
    + intros d [Hd0 [->|[->| ->]]]; [by apply Ho|by apply He|].
      specialize (Hx Hd0). rewrite Hrs in Hx. naive_solver.
    + split; cbn; intros H; [split; [by apply Ho|]|]; intros E; rewrite <-E, Hrs in Hx; apply Hx; auto.
    + unfold sources, piped in *. destruct (stdio r); [|destruct Hp as [-> ->]; by split_and!].
      destruct Hp as (P1 & P2 & P3 & _ & P4 & P5). destruct (Hd eq_refl) as [D1 D2]. cbn.
      unfold stream_of. rewrite D1, D2. cbn. rewrite Em, P4, P5.
      assert (forall d, bytes_from d g' = []) as Hb by (intros d; unfold bytes_from; by rewrite Er, lookup_empty).
      unfold stream_ok, kept. rewrite !Hb, !take_nil, Ee. split_and!; try done; left; (split; [done|set_solver]).
  - unfold flag_ok, sources, piped in *. cbn. destruct (stdio r); [|done]. destruct Hp as (P1 & P2 & _).
    unfold missing, bytes_from. rewrite Er, !lookup_empty. cbn.
    rewrite (proj2 (Z.ltb_ge _ _) P1), (proj2 (Z.ltb_ge _ _) P2). by destruct (capture_limit (request r)).
Qed.

Lemma pipes_prepared ds out err g g' : opened g' = opened g -> pipes_ok ds out err g -> pipes_ok ds out err g'.
Proof. unfold pipes_ok. intros ->. done. Qed.

Lemma wp_spawn_with b ds r readiness out err g :
  pipes_ok ds out err g -> piped r out err g -> fate g = Unborn -> received g = ∅ -> ended g = ∅ ->
  wp b (spawn_with r readiness out err) g (launched ds r g).
Proof.
  intros Hp Hpi Hf Hrc Hen. unfold spawn_with.
  (* a refusal before the spawn *)
  assert (forall m kind operation e, wp b
    (_ ← close_all [err.2; err.1; out.2; out.1];
     Ret (Unexpected (process_error kind not_started operation (render_request (request r)) e)))
    (set_dups m g) (launched ds r g)) as Hfail.
  { intros m kind operation e. eapply wp_seq; [by apply (wp_close_pipes b ds)|].
    intros _ g' ->. apply wp_ret. by split_and!. }
  apply wp_call; [done|]. intros x1 _ _. case_bool_decide; cbn [negb].
  2: { replace (after g (Prepare ActionsInit) x1) with (set_dups (dups g) g) by by destruct g. apply Hfail. }
  cbn [after]. eapply wp_seq; [apply wp_prepare|]. intros x2 g2 (m & -> & Hm). case_bool_decide as Hx2; cbn [negb].
  2: { apply wp_call; [done|]. intros ? _ _. apply Hfail. }
  specialize (Hm Hx2). apply wp_call; [done|]. intros x3 _ _. case_bool_decide; cbn [negb].
  2: { apply wp_call; [done|]. intros ? _ _. apply Hfail. }
  cbn [after]. eapply wp_seq; [apply wp_prepare|]. intros x4 g4 (m' & -> & Hm'). case_bool_decide as Hx4; cbn [negb].
  2: { apply wp_call; [done|]. intros ? _ _. apply wp_call; [done|]. intros ? _ _. apply Hfail. }
  specialize (Hm' Hx4). cbn in Hm'. subst x2 x4.
  apply wp_call; [done|]. intros environ _ _. apply wp_call; [cbn; by apply bool_decide_eq_true|].
  intros spawned Hsp _. apply wp_call; [done|]. intros a _ _. apply wp_call; [done|]. intros d _ _. cbn [after].
  subst m'.
  destruct spawned as [child|e].
  - eapply wp_seq.
    { apply (wp_close_writes b ds out err). eapply pipes_prepared; [|exact Hp]. done. }
    intros _ g' (rs & -> & Hrs & Ho & He & _).
    assert (forall exit_fd g', g' = (if (0 <=? exit_fd)%Z then
        set_opened ({[exit_fd]} ∪ rs) (set_fate (Running child) (set_dups m g)) else
        set_opened rs (set_fate (Running child) (set_dups m g))) ->
      ((0 <= exit_fd)%Z -> exit_fd ∉ rs) ->
      launched ds r g (Value (MkChild child out.1 err.1 exit_fd (capture_limit (request r))
          (render_request (request r)) empty_capture 0 running
          (if bool_decide (a = 0%Z) then d else a))) g') as Hl.
    { intros exit_fd g' -> Hx. split_and!; [by destruct (_ <=? _)%Z..|done|done|done|].
      exists (sources r out err). split.
      - apply (child_begins ds r out err child exit_fd _ _ rs g); try done; try by destruct (_ <=? _)%Z.
        intros Hs. subst m. unfold action_steps. rewrite Hs.
        destruct (dups_capture (if bool_decide (working_directory r = []) then [] else [AddChdir (working_directory r)])
                    out.2 err.2 (dups g)) as [E1 E2].
        { case_bool_decide; eauto. }
        by destruct (_ <=? _)%Z.
      - unfold sources. destruct (stdio r); split; intros H'; try done; by destruct H'. }
    unfold open_exit_descriptor. destruct readiness.
    + apply prog_bind. apply wp_call; [cbn; by apply bool_decide_eq_true|]. intros x Hx _. apply wp_ret.
      apply wp_ret. apply Hl; [|done]. cbn [after]. by destruct (_ <=? _)%Z.
    + apply prog_bind, wp_ret, wp_ret. by apply Hl.
  - eapply wp_seq.
    { apply (wp_close_writes b ds out err). eapply pipes_prepared; [|exact Hp]. done. }
    intros _ g' (rs & -> & Hrs & Ho & He & Hc). eapply wp_seq; [exact Hc|]. intros _ g' ->. apply wp_ret. by split_and!.
Qed.

Lemma wp_request_is_valid b r g : wp b (request_is_valid r) g (fun _ g' => g' = g).
Proof.
  unfold request_is_valid. destruct (_ && _); [|by apply wp_ret]. destruct (stdio r); [by apply wp_ret|].
  destruct (terminal_descriptors r) as [[x y] z]. apply wp_call; [done|]. intros [|] _ _; [|by apply wp_ret].
  by split.
Qed.

Lemma wp_launch b r readiness g :
  fate g = Unborn -> received g = ∅ -> ended g = ∅ ->
  wp b (launch r readiness) g (launched (opened g) r g).
Proof.
  intros Hf Hr He. unfold launch. eapply wp_seq; [apply wp_request_is_valid|]. intros valid g' ->.
  destruct valid; cbn [negb]; [|by apply wp_ret]. destruct (stdio r) eqn:Hs.
  2: { apply wp_spawn_with; try done; [by left|]. unfold piped. by rewrite Hs. }
  eapply wp_seq; [apply wp_create_pipe|]. intros [[o1 o2]|e] g1 [Hp1 H1].
  2: { apply wp_ret. destruct Hp1. unfold launched. split_and!; [done..|congruence|done]. }
  destruct H1 as (P1 & P2 & P3 & P4 & P5 & P6 & P7 & P8). destruct Hp1 as [F1 F2 F3 F4 F5 F6].
  eapply wp_seq; [apply wp_create_pipe|]. intros [[e1 e2]|e] g2 [Hp2 H2].
  2: { eapply wp_seq; [apply wp_close_all|].
       - intros d Hd _. rewrite H2, P6. set_solver.
       - cbn [fst snd]. rewrite filter_all by (repeat constructor; done). apply NoDup_cons. split; [set_solver|].
         apply NoDup_singleton.
       - intros _ g' ->. apply wp_ret. destruct Hp2. unfold launched. cbn [fst snd].
         rewrite filter_all by (repeat constructor; done). cbn.
         split_and!; try congruence. rewrite H2, P6. set_solver. }
  destruct H2 as (Q1 & Q2 & Q3 & Q4 & Q5 & Q6 & Q7 & Q8). destruct Hp2 as [G1 G2 G3 G4 G5 G6].
  rewrite P6 in Q4, Q5, Q6.
  eapply prog_mono; [apply (wp_spawn_with b (opened g)); cbn [fst snd]; try congruence|].
  - right. cbn [fst snd]. split_and!.
    + by repeat constructor.
    + repeat (apply NoDup_cons; split); [set_solver..|apply NoDup_nil_2].
    + set_solver.
    + rewrite Q6. set_solver.
  - unfold piped. rewrite Hs. cbn [fst snd]. split_and!; try done.
    + set_solver.
    + set_solver.
    + rewrite Q7, P7, lookup_insert_ne by set_solver. by rewrite lookup_insert_eq.
    + by rewrite Q7, lookup_insert_eq.
  - intros x g' (L1 & L2 & L3 & L4). split_and!; [congruence..|done].
Qed.

(** ** The destructor *)

(** The descriptors of the child are closed, whichever are open. *)
Lemma wp_destroy b ds src ch g :
  child_ok ds src ch g -> status ch <> running ->
  wp b (destroy ch) g (fun _ g' => g' = set_opened ds g).
Proof.
  intros [H _] Hs. unfold destroy, is_running. rewrite (bool_decide_false _ Hs), orb_true_r.
  pose (own := fun (c : PosixChild) (g' : Kernel) => exists os : gset Z, g' = set_opened os g /\
    (forall d, d ∈ os <-> d ∈ ds \/ holds c d) /\ (forall d, holds c d -> d ∉ ds) /\ apart c).
  assert (forall s c g', own c g' -> wp b (close_descriptor s c) g' (fun c' g'' =>
    own c' g'' /\ (descriptor s c' < 0)%Z /\ ((stdout_fd c < 0)%Z -> (stdout_fd c' < 0)%Z))) as Hc.
  { intros s c g' (os & -> & H1 & H2 & H3). apply wp_close_descriptor.
    - intros Hd. cbn. apply H1. right. destruct s; split; auto.
    - intros Hd. split_and!; [by exists os|done|done].
    - intros Hd. assert (forall x, holds (set_descriptor s (-1) c) x <-> holds c x /\ x <> descriptor s c) as Hx.
      { intros x. destruct s; [by apply holds_drop_stdout|by apply holds_drop_stderr]. }
      split_and!; [|by destruct s|by destruct s].
      destruct (holds_close c (set_opened os g) ds (descriptor s c) (set_descriptor s (-1) c)) as [Ho Hn];
        [done|done|destruct s; split; auto|done|].
      exists (os ∖ {[descriptor s c]}). split_and!; [done|done|done|by apply apart_drop]. }
  cbn [assert_that mbind Prog_bind].
  assert (own ch g) as H0.
  { exists (opened g). destruct H. split_and!; [by destruct g|done|done|done]. }
  eapply wp_seq; [by apply (Hc stdout_stream)|]. intros c1 g1 (H1 & D1 & _).
  eapply wp_seq; [by apply (Hc stderr_stream)|]. intros c2 g2 ((os & -> & Ho & Hn & _) & D2 & D3).
  specialize (D3 D1). cbn in D2.
  assert (forall d, holds c2 d -> d = exit_fd c2) as Hx.
  { intros d [Hp [->|[->|Hd]]]; [lia|lia|done]. }
  unfold close_exit_descriptor. destruct (Z.leb_spec 0 (exit_fd c2)) as [Hp|Hp].
  - assert (holds c2 (exit_fd c2)) as Hh by (split; auto).
    apply wp_call; [cbn; apply bool_decide_eq_true, Ho; by right|]. intros [] _ _.
    apply (f_equal (fun o => set_opened o g) (x := os ∖ {[exit_fd c2]})). apply set_eq. intros d.
    rewrite elem_of_difference, elem_of_singleton, Ho.
    split; [|intros Hd; split; [by left|]; intros ->; by apply (Hn _ Hh)].
    intros [[Hd|Hd] Hne]; [done|]. by apply Hx in Hd.
  - apply (f_equal (fun o => set_opened o g) (x := os)). apply set_eq. intros d. rewrite Ho.
    split; [|by left]. intros [Hd|Hd]; [done|]. destruct (Hx d Hd). destruct Hd. lia.
Qed.

End child.

(** * A request to run *)

Definition demo_messages : Messages := fun _ => txt "error".

Definition demo_request : ChildRequest :=
  MkChildRequest (MkRequest (txt "tmux") [public_arg (txt "ls")] [] (Some 5%N) default_capture_limit)
    stdio_capture [] false (0, 1, 2)%Z false false.
