(* ===== verification/Runner.v ===== *)
(** Running a process to its end: [run_process] of [src/process.cpp].

    The blocking runner: it refuses what need not start, launches, polls and reads until the
    child has exited and its output has ended, ends the child when its time is up, its
    caller withdraws or its output is too long, and hands back what was captured.

    The theorems, about every system: whatever happens, the child is collected or known to be
    lost, every descriptor is closed, no signal and no wait is addressed to a process that is
    no longer the child, and no assertion fails; [not_started] is said exactly when nothing
    was started; a reply's bytes are what the child wrote, called truncated exactly when some
    are missing; an observer hears each byte once and in order.  On a system that keeps nobody
    waiting a run with a timeout ends. *)

From S2P Require Import Prelude Command Process Posix Child.

Inductive DescendantPolicy := leave_running | terminate.

#[export] Instance DescendantPolicy_eq_dec : EqDecision DescendantPolicy.
Proof. solve_decision. Defined.

(** A [ProcessError] with the output that was captured before it. *)
Record RunFailure := MkRunFailure { failure : ProcessError; failure_capture : Capture }.

(** What a run comes to; an observer's exception ends it too. *)
Inductive Ran := Returned (r : expected RunFailure ProcessReply) | Rethrown.

(** Nanoseconds. *)
Definition poll_quantum : Z := 10000000.
Definition terminate_grace : Z := 100000000.
Definition post_exit_drain : Z := 100000000.

Definition ceil_ms (ns : Z) : Z := (- ((- ns) / 1000000))%Z.
Definition int_max : Z := 2147483647.

Definition retain (failure candidate : option ProcessError) : option ProcessError :=
  match candidate, failure with Some e, None => Some e | _, _ => failure end.

Section runner.
Context {messages : Messages}.
Variable fuel : nat.

Definition poll_timeout (boundary : Z) : Prog Z :=
  now ← call Now;
  Ret (if (boundary <=? now)%Z then 0%Z else Z.min (ceil_ms (boundary - now)) int_max).

Definition has_event (revents mask : Z) : bool := negb (Z.land revents mask =? 0)%Z.

(** What one stream's events call for. *)
Definition ready (revents : Z) (s : ChildStream) (boundary : Z) (delivery : DeliveryStatus) (ch : PosixChild) :
    Prog Answered :=
  if (descriptor s ch <? 0)%Z then Ret (ch, None)
  else if has_event revents POLLNVAL then
    ch ← close_stream s ch;
    Ret (ch, Some (process_error p_pipe delivery (txt "pipe poll") (rendered_request ch) EBADF))
  else if has_event revents (Z.lor POLLIN (Z.lor POLLHUP POLLERR)) then drain fuel s boundary delivery ch
  else Ret (ch, None).

(** The wait: [None] when the boundary passed, the events, or an error. *)
Definition poll_turn (ds : list Z) (boundary : Z) (_ : unit) : Prog (unit + option (expected Z (list Z))) :=
  now ← call Now;
  if (boundary <=? now)%Z then Ret (inr None)
  else
    timeout ← poll_timeout boundary;
    polled ← call (Poll ds timeout);
    match polled with
    | Value revents => Ret (inr (Some (Value revents)))
    | Unexpected e => Ret (if (e =? EINTR)%Z then inl tt else inr (Some (Unexpected e)))
    end.

Definition poll_and_drain (boundary : Z) (delivery : DeliveryStatus) (ch : PosixChild) : Prog Answered :=
  polled ← loop (poll_turn [stdout_fd ch; stderr_fd ch] boundary) fuel tt;
  match polled with
  | None => Ret (ch, None)
  | Some (Unexpected e) =>
      Ret (ch, Some (process_error p_pipe delivery (txt "pipe poll") (rendered_request ch) e))
  | Some (Value revents) =>
      first ← ready (nth 0 revents 0%Z) stdout_stream boundary delivery ch;
      match first.2 with
      | Some e => Ret first
      | None => ready (nth 1 revents 0%Z) stderr_stream boundary delivery first.1
      end
  end.

(** * Ending the group *)

(** A child being cleaned up, with the first fault. *)
Abbreviation Cleanup := (PosixChild * option ProcessError)%type.

Definition retaining (failure : option ProcessError) (p : Prog Answered) : Prog Cleanup :=
  r ← p; Ret (r.1, retain failure r.2).

Definition waited_out (descendants : DescendantPolicy) (c : Cleanup) : Prog (Cleanup * bool) :=
  match descendants with
  | leave_running =>
      c ← retaining c.2 (update_status fuel indeterminate c.1);
      Ret (c, negb (is_running c.1))
  | terminate =>
      observed ← exit_pending fuel indeterminate c.1;
      match observed with
      | (ch, Unexpected e) => Ret ((ch, retain c.2 (Some e)), true)
      | (ch, Value b) => Ret ((ch, c.2), b && output_closed ch)
      end
  end.

Definition settle_turn (until : Z) (descendants : DescendantPolicy) (c : Cleanup) : Prog (Cleanup + Cleanup) :=
  if negb (is_running c.1) then Ret (inr c) else
  now ← call Now;
  if (until <=? now)%Z then Ret (inr c) else
  w ← waited_out descendants c;
  let '(c, out) := w in
  if (out : bool) then Ret (inr c) else
  now ← call Now;
  drained ← poll_and_drain (Z.min until (now + poll_quantum)) indeterminate c.1;
  match drained.2 with
  | None => Ret (inl (drained.1, c.2))
  | Some e => ch ← close_output drained.1; Ret (inl (ch, retain c.2 (Some e)))
  end.

Definition settle (until : Z) (descendants : DescendantPolicy) (c : Cleanup) : Prog Cleanup :=
  loop (settle_turn until descendants) fuel c.

Definition escalate (signal : Z) (descendants : DescendantPolicy) (c : Cleanup) : Prog Cleanup :=
  refused ← signal_group fuel signal indeterminate c.1;
  match refused, descendants with
  | (ch, Some e), terminate =>
      observed ← exit_pending fuel indeterminate ch;
      match observed with
      | (ch, Value true) => Ret (ch, c.2)
      | (ch, _) => Ret (ch, retain c.2 (Some e))
      end
  | (ch, e), _ => Ret (ch, retain c.2 e)
  end.

Definition collect_turn (c : Cleanup) : Prog (Cleanup + Cleanup) :=
  if negb (is_running c.1) then Ret (inr c)
  else c ← retaining c.2 (wait_for_exit fuel indeterminate c.1); Ret (inl c).

Definition drain_turn_after (deadline : Z) (c : Cleanup) : Prog (Cleanup + Cleanup) :=
  if output_closed c.1 then Ret (inr c) else
  now ← call Now;
  if (deadline <=? now)%Z then Ret (inr c) else
  now ← call Now;
  drained ← poll_and_drain (Z.min deadline (now + poll_quantum)) indeterminate c.1;
  Ret (match drained.2 with
       | None => inl (drained.1, c.2)
       | Some e => inr (drained.1, retain c.2 (Some e))
       end).

Definition cleanup_group (allow_term : bool) (descendants : DescendantPolicy) (ch : PosixChild) : Prog Cleanup :=
  c ← (if allow_term then
         c ← escalate SIGTERM descendants (ch, None);
         now ← call Now;
         settle (now + terminate_grace) descendants c
       else Ret (ch, None));
  c ← escalate SIGKILL descendants c;
  c ← loop collect_turn fuel c;
  now ← call Now;
  c ← loop (drain_turn_after (now + post_exit_drain)) fuel c;
  ch ← close_output c.1;
  Ret (ch, c.2).

Definition timed_out (delivery : DeliveryStatus) (ch : PosixChild) : ProcessError :=
  process_error p_timeout delivery (txt "timeout") (rendered_request ch) ETIMEDOUT.

(** * The run *)

Section run.
Variables (r : ChildRequest) (observed : bool) (descendants : DescendantPolicy).

Abbreviation Emitted := (N * N)%type.

(** A child, what the observer was given, and whether it still listens. *)
Definition emit_one (stream : nat) (bytes : text) (emitted : N) : Prog (option N) :=
  if (emitted <? N.of_nat (length bytes))%N then
    heard ← call (Output stream (skipn (N.to_nat emitted) bytes));
    Ret (if (heard : bool) then Some (N.of_nat (length bytes)) else None)
  else Ret (Some emitted).

(** [publish]: [None] after an exception, the child cleaned up. *)
Definition publish (ch : PosixChild) (emitted : Emitted) : Prog (PosixChild * option Emitted) :=
  if negb observed then Ret (ch, Some emitted) else
  let threw := c ← cleanup_group true descendants ch; Ret (c.1, None) in
  first ← emit_one 0 (captured_out (capture ch)) emitted.1;
  match first with
  | None => threw
  | Some a =>
      second ← emit_one 1 (captured_err (capture ch)) emitted.2;
      match second with None => threw | Some b => Ret (ch, Some (a, b)) end
  end.

(** The end of a run: the destructor, and what is returned. *)
Definition leave (ch : PosixChild) (result : Ran) : Prog Ran := _ ← destroy ch; Ret result.

Definition abandon (ch : PosixChild) (emitted : Emitted) (error : ProcessError) (allow_term : bool) : Prog Ran :=
  c ← cleanup_group allow_term descendants ch;
  p ← publish c.1 emitted;
  match p with
  | (ch, None) => leave ch Rethrown
  | (ch, Some _) =>
      let error := match error_kind error, c.2 with p_timeout, Some e => e | _, _ => error end in
      leave ch (Returned (Unexpected (MkRunFailure error (capture ch))))
  end.

Definition finish (ch : PosixChild) : Prog Ran :=
  let c := capture ch in
  t ← termination_of ch;
  leave ch (Returned (Value (MkReply t (captured_out c) (captured_err c) (truncated c)))).

Definition asks_cancelled : Prog bool := if has_cancelled r then call Cancelled else Ret false.

Definition passed (deadline : option Z) : Prog bool :=
  match deadline with Some d => now ← call Now; Ret (d <=? now)%Z | None => Ret false end.

(** The state of the loop: the child, what was emitted, when a finished child's output is
    given up. *)
Record Turn := MkTurn { turn_child : PosixChild; turn_emitted : Emitted; exit_drain_deadline : option Z }.

(** Whether the child has ended, or why that cannot be learnt. *)
Definition has_finished (ch : PosixChild) : Prog (PosixChild * expected ProcessError bool) :=
  match descendants with
  | terminate => exit_pending fuel indeterminate ch
  | leave_running =>
      updated ← update_status fuel indeterminate ch;
      Ret (updated.1, match updated.2 with Some e => Unexpected e | None => Value (negb (is_running updated.1)) end)
  end.

(** The end of the loop: the child has exited and its output ended or is given up. *)
Definition conclude (ch : PosixChild) (emitted : Emitted) : Prog Ran :=
  match descendants with
  | terminate =>
      c ← cleanup_group true descendants ch;
      match c.2 with
      | Some e => abandon c.1 emitted e false
      | None =>
          p ← publish c.1 emitted;
          match p with (ch, None) => leave ch Rethrown | (ch, Some _) => finish ch end
      end
  | leave_running => ch ← close_output ch; finish ch
  end.

Definition read_on (deadline : option Z) (finished : bool) (exit_drain : option Z) (ch : PosixChild)
    (emitted : Emitted) : Prog (Turn + Ran) :=
  now ← call Now;
  let poll_boundary := (now + poll_quantum)%Z in
  let boundary := if finished then match exit_drain with Some d => Z.min d poll_boundary | None => poll_boundary end
                  else match deadline with Some d => Z.min d poll_boundary | None => poll_boundary end in
  drained ← poll_and_drain boundary indeterminate ch;
  match drained.2 with
  | Some e => result ← abandon drained.1 emitted e false; Ret (inr result)
  | None =>
      p ← publish drained.1 emitted;
      match p with
      | (ch, None) => result ← leave ch Rethrown; Ret (inr result)
      | (ch, Some emitted) => Ret (inl (MkTurn ch emitted exit_drain))
      end
  end.

Definition run_turn (deadline : option Z) (t : Turn) : Prog (Turn + Ran) :=
  let ch := turn_child t in
  let emitted := turn_emitted t in
  let stop_with ch e allow_term := result ← abandon ch emitted e allow_term; Ret (inr result) in
  withdrawn ← asks_cancelled;
  if (withdrawn : bool) then
    stop_with ch (process_error p_cancelled indeterminate (txt "cancelled") (rendered_request ch) ECANCELED) true
  else if fail_on_capture_limit r && truncated (capture ch) then
    stop_with ch (process_error p_output_limit indeterminate (txt "output limit") (rendered_request ch) EFBIG) true
  else
    f ← has_finished ch;
    let '(ch, finished) := f in
    match finished with
    | Unexpected e => stop_with ch e false
    | Value finished =>
        exit_drain ← (if (finished : bool) then
                        match exit_drain_deadline t with
                        | Some d => Ret (Some d)
                        | None => now ← call Now; Ret (Some (now + post_exit_drain)%Z)
                        end
                      else Ret (exit_drain_deadline t));
        over ← (if (finished : bool) then if output_closed ch then Ret true else passed exit_drain
                else Ret false);
        if (over : bool) then result ← conclude ch emitted; Ret (inr result)
        else
          late ← (if (finished : bool) then Ret false else passed deadline);
          if (late : bool) then stop_with ch (timed_out indeterminate ch) true
          else read_on deadline finished exit_drain ch emitted
    end.

Definition not_run (kind : ProcessErrorKind) (operation : text) (cause : Z) : Prog Ran :=
  Ret (Returned (Unexpected (MkRunFailure
    (process_error kind not_started operation (render_request (request r)) cause) empty_capture))).

Definition started (deadline : option Z) (ch : PosixChild) : Prog Ran :=
  refused ← (if has_on_started r then call (OnStarted (pid ch)) else Ret None);
  match refused with
  | Some diagnostic => abandon ch (0, 0)%N (MkProcessError p_pre_exec indeterminate diagnostic) true
  | None =>
      late ← passed deadline;
      if (late : bool) then abandon ch (0, 0)%N (timed_out indeterminate ch) true
      else if negb (bool_decide (spawn_teardown_error ch = 0%Z)) then
        abandon ch (0, 0)%N (process_error p_pipe indeterminate (txt "pipe") (rendered_request ch)
                               (spawn_teardown_error ch)) false
      else loop (run_turn deadline) fuel (MkTurn ch (0, 0)%N None)
  end.

Definition run_process : Prog Ran :=
  withdrawn ← asks_cancelled;
  if (withdrawn : bool) then not_run p_cancelled (txt "cancelled") ECANCELED
  else if match req_timeout (request r) with Some t => bool_decide (t = 0%N) | None => false end then
    not_run p_timeout (txt "timeout") ETIMEDOUT
  else
    deadline ← match req_timeout (request r) with
               | Some t => now ← call Now; Ret (Some (now + Z.of_N t * 1000000)%Z)
               | None => Ret None
               end;
    launched ← launch r platform;
    match launched with
    | Unexpected e => Ret (Returned (Unexpected (MkRunFailure e empty_capture)))
    | Value ch => started deadline ch
    end.
End run.

(** * What the steps keep *)

Section proofs.
Variables (b : bool) (ds : gset Z) (src : option (Z * Z)).

#[local] Arguments wp : simpl never.

Abbreviation keeps := (kept_by ds src).

(** Enough fuel for the waits of a run. *)
Definition patient : Prop := b = true -> (post_exit_drain < Z.of_nat fuel)%Z.

Lemma patient_fuel : patient -> b = true -> 0 < fuel.
Proof. unfold patient, post_exit_drain. intros H E. specialize (H E). lia. Qed.

Lemma delivers_none d : delivers d None.
Proof. by intros x H. Qed.

Lemma delivers_error kind d operation rendered e : delivers d (Some (process_error kind d operation rendered e)).
Proof. by intros x [= <-]. Qed.

Lemma delivers_retain d f c : delivers d f -> delivers d c -> delivers d (retain f c).
Proof. intros H1 H2. by destruct f, c. Qed.

Lemma retain_none f c : retain f c = None -> f = None /\ c = None.
Proof. by destruct f, c. Qed.

#[local] Hint Resolve delivers_none delivers_error delivers_retain kept_refl : core.

(** Reading: the child lives on as it did. *)
Definition reads (ch : PosixChild) (g : Kernel) (r : Answered) (g' : Kernel) : Prop :=
  keeps ch g r.1 g' /\ status r.1 = status ch /\ delivers indeterminate r.2.

Lemma reads_none ch g ch' g' : keeps ch g ch' g' -> status ch' = status ch -> reads ch g (ch', None) g'.
Proof. intros H1 H2. by split_and!. Qed.

Lemma reads_error ch g ch' g' kind operation rendered e :
  keeps ch g ch' g' -> status ch' = status ch ->
  reads ch g (ch', Some (process_error kind indeterminate operation rendered e)) g'.
Proof. intros H1 H2. split_and!; [done|done|apply delivers_error]. Qed.

Lemma reads_trans ch g r g1 r' g2 : reads ch g r g1 -> reads r.1 g1 r' g2 -> reads ch g r' g2.
Proof.
  intros (H1 & H2 & _) (H3 & H4 & H5). split_and!; [by eapply kept_trans|congruence|done].
Qed.

Lemma wp_ready revents s boundary ch g :
  child_ok ds src ch g -> patient -> (b = true -> (boundary - clock g < Z.of_nat fuel)%Z) ->
  wp b (ready revents s boundary indeterminate ch) g (reads ch g).
Proof.
  intros H Hp Hb. unfold ready. destruct (_ <? 0)%Z; [by apply wp_ret, reads_none; auto|].
  destruct (has_event revents POLLNVAL).
  { eapply wp_seq; [by apply (wp_close_stream b ds src)|]. intros ch1 g1 (H1 & (S1 & _) & _). apply wp_ret.
    by apply reads_error. }
  destruct (has_event _ _); [|by apply wp_ret, reads_none; auto].
  eapply prog_mono; [apply (wp_drain fuel b ds src ch g); [done|]|].
  - intros E. split; [by apply patient_fuel|auto].
  - intros r g' (H1 & (S1 & _) & D). by split_and!.
Qed.

Lemma wp_poll_timeout boundary g :
  wp b (poll_timeout boundary) g (fun _ g' => exists t, g' = set_clock t g /\ (clock g <= t)%Z).
Proof. apply wp_call; [done|]. intros t Ht _. apply wp_ret. by exists t. Qed.

Lemma wp_poll_and_drain boundary ch g :
  child_ok ds src ch g -> patient -> (b = true -> (boundary - clock g < Z.of_nat fuel)%Z) ->
  wp b (poll_and_drain boundary indeterminate ch) g (reads ch g).
Proof.
  intros H Hp Hb. unfold poll_and_drain.
  eapply (wp_seq b _ _ g (fun polled g' => exists t, g' = set_clock t g /\ (clock g <= t)%Z)).
  { apply (wp_loop b _ fuel tt g (fun _ _ g' => exists t, g' = set_clock t g /\ (clock g <= t)%Z) _ 0).
    - by apply patient_fuel.
    - exists (clock g). split; [by destruct g|lia].
    - intros n [] g' (t & -> & Ht). unfold poll_turn. apply wp_call; [done|]. intros t1 Ht1 _. cbn in Ht1. cbn beta.
      destruct (boundary <=? t1)%Z; [apply wp_ret; exists t1; split; [done|lia]|].
      eapply wp_seq; [apply wp_poll_timeout|]. intros timeout g2 (t2 & -> & Ht2). cbn in Ht2.
      apply wp_call.
      { pose proof (live_in ds src ch g) as L. cbn. rewrite andb_true_r.
        apply andb_true_iff; split; apply orb_true_iff.
        - destruct (Z.ltb_spec (stdout_fd ch) 0); [by left|right]. apply bool_decide_eq_true.
          by apply (L stdout_stream (proj1 H)).
        - destruct (Z.ltb_spec (stderr_fd ch) 0); [by left|right]. apply bool_decide_eq_true.
          by apply (L stderr_stream (proj1 H)). }
      intros [revents|e] _ Hpr; [apply wp_ret; exists t2; split; [done|lia]|].
      destruct (Z.eqb_spec e EINTR) as [->|Hne]; [|apply wp_ret; exists t2; split; [done|lia]].
      apply wp_ret. exists n. split; [intros E; by specialize (Hpr E)|]. exists t2. split; [done|lia]. }
  intros polled g1 (t & -> & Ht).
  assert (keeps ch g ch (set_clock t g)) as H1 by by apply kept_clock.
  destruct polled as [[revents|e]|]; [| |by apply wp_ret, reads_none].
  2: { by apply wp_ret, reads_error. }
  eapply wp_seq; [apply wp_ready; [apply H1|done|cbn; intros E; specialize (Hb E); lia]|].
  intros first g2 H2. assert (reads ch g first g2) as H3.
  { by eapply (reads_trans ch g (ch, None)); [apply reads_none|]. }
  destruct first as [ch2 [e|]]; cbn [fst snd]; [by apply wp_ret|].
  destruct H3 as (K3 & S3 & _). cbn in K3, S3.
  eapply prog_mono; [apply wp_ready; [apply K3|done|]|].
  - intros E. specialize (Hb E). destruct K3 as [_ []]. cbn in *. lia.
  - intros r g' Hr. eapply (reads_trans ch g (ch2, None)); [|done]. by apply reads_none.
Qed.

(** Cleaning up: every fault says the run was under way, and without one nothing was lost. *)
Definition cleans (ch : PosixChild) (g : Kernel) (c : Cleanup) (g' : Kernel) : Prop :=
  keeps ch g c.1 g' /\ delivers indeterminate c.2 /\
  (status ch <> unknowable -> c.2 = None -> status c.1 <> unknowable).

Lemma cleans_refl ch g : child_ok ds src ch g -> cleans ch g (ch, None) g.
Proof. intros H. split_and!; auto. Qed.

(** A step after others. *)
Lemma cleans_step ch g ch1 f1 g1 ch2 f2 g2 :
  cleans ch g (ch1, f1) g1 -> keeps ch1 g1 ch2 g2 -> delivers indeterminate f2 ->
  (status ch1 <> unknowable -> f2 = None -> status ch2 <> unknowable) ->
  cleans ch g (ch2, retain f1 f2) g2.
Proof.
  intros (H1 & H2 & H3) H4 H5 H6. split_and!; cbn in *; auto.
  - by eapply kept_trans.
  - intros Hs [E1 E2]%retain_none. auto.
Qed.

Lemma cleans_same ch g ch1 f1 g1 ch2 g2 :
  cleans ch g (ch1, f1) g1 -> keeps ch1 g1 ch2 g2 -> status ch2 = status ch1 -> cleans ch g (ch2, f1) g2.
Proof.
  intros (H1 & H2 & H3) H4 H5. split_and!; cbn in *; [by eapply kept_trans|done|]. rewrite H5. auto.
Qed.

Definition cleans_from (ch : PosixChild) (g g1 : Kernel) (c : Cleanup) (g' : Kernel) : Prop :=
  cleans ch g c g' /\ (clock g1 <= clock g')%Z.

Lemma cleans_clock ch g c g1 t : cleans ch g c g1 -> (clock g1 <= t)%Z -> cleans ch g c (set_clock t g1).
Proof.
  destruct c as [ch1 f1]. intros H Ht. eapply cleans_same; [done| |done]. apply kept_clock; [apply H|done].
Qed.

(** One of the child's own steps, its fault retained. *)
Lemma wp_retaining ch g c g1 (p : Prog Answered) :
  cleans ch g c g1 ->
  wp b p g1 (fun r g' => keeps c.1 g1 r.1 g' /\ delivers indeterminate r.2 /\
    (status c.1 <> unknowable -> r.2 = None -> status r.1 <> unknowable)) ->
  wp b (retaining c.2 p) g1 (cleans_from ch g g1).
Proof.
  destruct c as [ch1 f1]. intros H Hp. eapply wp_seq; [exact Hp|]. intros [ch2 f2] g2 (K & D & S). apply wp_ret.
  split; [by eapply cleans_step|]. apply K.
Qed.

Lemma wp_waited_out descendants ch g c g1 :
  cleans ch g c g1 -> patient -> status c.1 = running ->
  wp b (waited_out descendants c) g1 (fun r => cleans_from ch g g1 r.1).
Proof.
  intros H Hp Hr. destruct descendants; cbn [waited_out].
  - eapply wp_seq; [apply wp_retaining; [done|]|].
    + eapply prog_mono; [apply (wp_update_status fuel b ds src); [apply H|by apply patient_fuel]|].
      intros r g' (? & ? & _ & _ & ?). by split_and!.
    + intros c' g' Hc. by apply wp_ret.
  - eapply wp_seq; [apply (wp_exit_pending fuel b ds src); [apply H|done|by apply patient_fuel]|].
    intros [ch2 [pending|e]] g2 [K He]; apply wp_ret; cbn [fst snd] in *.
    + destruct He as [-> ->]. split; [by destruct c|lia].
    + split; [|apply K]. destruct c as [ch1 f1]. apply (cleans_step ch g ch1 f1 g1); [done|done| |done].
      by intros x [= <-].
Qed.

Lemma wp_settle until descendants ch g c g1 :
  cleans ch g c g1 -> patient -> (b = true -> (until - clock g1 < Z.of_nat fuel)%Z) ->
  wp b (settle until descendants c) g1 (cleans ch g).
Proof.
  intros H Hp Hb.
  apply (wp_loop b _ fuel c g1 (fun n c g' => cleans ch g c g' /\ Z.to_nat (until - clock g') <= n /\
    (clock g1 <= clock g')%Z) _ (Z.to_nat (until - clock g1))).
  { intros E. specialize (Hb E). pose proof (patient_fuel Hp E). lia. }
  { split_and!; [done|lia|lia]. }
  clear H c. intros n c g2 (H & Hn & Hg). unfold settle_turn, is_running.
  case_bool_decide as Hr; cbn [negb]; [|by apply wp_ret].
  apply wp_call; [done|]. intros t Ht Hpr. cbn in Ht, Hpr. cbn beta.
  destruct (Z.leb_spec until t) as [Hu|Hu]; [apply wp_ret; by apply cleans_clock|].
  eapply wp_seq; [apply wp_waited_out; [by apply cleans_clock|done|done]|].
  intros [[ch3 f3] out] g3 [H3 C3]. cbn in C3. destruct out; [by apply wp_ret|].
  apply wp_call; [done|]. intros t2 Ht2 _. cbn in Ht2. cbn beta.
  assert (cleans ch g (ch3, f3) (set_clock t2 g3)) as H3' by by apply cleans_clock.
  eapply wp_seq; [apply wp_poll_and_drain; [apply H3'|done|]|].
  { intros E. specialize (Hb E). cbn. lia. }
  intros [ch4 f4] g4 (K4 & S4 & D4). cbn [fst snd] in *.
  assert (clock g3 <= clock g4)%Z as C4 by (destruct K4 as [_ []]; cbn in *; lia).
  assert (b = true -> Z.to_nat (until - clock g4) < n) as Hlt by (intros E; specialize (Hpr E); lia).
  destruct f4 as [e|].
  - eapply wp_seq; [apply (wp_close_output b ds src); apply K4|]. intros ch5 g5 (K5 & (S5 & _) & _). apply wp_ret.
    assert (clock g4 <= clock g5)%Z as C5 by apply K5.
    exists (Z.to_nat (until - clock g5)). split_and!; [intros E; specialize (Hlt E); lia| |done|lia].
    eapply cleans_step; [exact H3'|by eapply kept_trans|done|done].
  - apply wp_ret. exists (Z.to_nat (until - clock g4)). split_and!; [done| |done|lia].
    by eapply cleans_same.
Qed.

Lemma wp_escalate signal descendants ch g c g1 :
  cleans ch g c g1 -> patient -> wp b (escalate signal descendants c) g1 (cleans_from ch g g1).
Proof.
  destruct c as [ch1 f1]. intros H Hp.
  eapply wp_seq; [apply (wp_signal_group fuel b ds src); [apply H|by apply patient_fuel]|].
  intros [ch2 f2] g2 (E2 & K2 & D2 & R2 & _). cbn [fst snd] in *. subst ch2.
  assert (cleans_from ch g g1 (ch1, retain f1 f2) g2) as Hk.
  { split; [|apply K2]. by eapply cleans_step. }
  destruct f2 as [e|]; [|by apply wp_ret]. destruct descendants; [by apply wp_ret|].
  eapply wp_seq; [apply (wp_exit_pending fuel b ds src); [apply K2|by apply R2|by apply patient_fuel]|].
  intros [ch3 [[]|e3]] g3 [K3 E3]; cbn [fst snd] in *; apply wp_ret.
  - destruct E3 as [-> ->]. split; [|apply K2]. by eapply cleans_same.
  - by destruct E3 as [-> ->].
  - split; [|destruct K2 as [_ []], K3 as [_ []]; cbn in *; lia].
    eapply cleans_step; [exact H|by eapply kept_trans|done|done].
Qed.

Lemma wp_collect ch g c g1 :
  cleans ch g c g1 -> patient ->
  wp b (loop collect_turn fuel c) g1 (fun c' g' => cleans_from ch g g1 c' g' /\ status c'.1 <> running).
Proof.
  intros H Hp.
  apply (wp_loop b _ fuel c g1 (fun n c g' => cleans_from ch g g1 c g' /\ (b = true -> n = 0 -> status c.1 <> running)) _
    (if is_running c.1 then 1 else 0)).
  { intros E. specialize (Hp E). unfold post_exit_drain in Hp. destruct (is_running c.1); lia. }
  { split; [split; [done|lia]|]. intros _. unfold is_running. by case_bool_decide. }
  clear H c. intros n c g2 [[H Hg] Hn]. unfold collect_turn, is_running. case_bool_decide as Hr; cbn [negb].
  - eapply (wp_seq b _ _ _ (fun c' g' => cleans_from ch g g2 c' g' /\ (b = true -> status c'.1 <> running))).
    + destruct c as [ch1 f1].
      eapply wp_seq; [apply (wp_wait_for_exit fuel b ds src); [apply H|by apply patient_fuel]|].
      intros [ch3 f3] g3 (K3 & D3 & _ & S3 & B3). apply wp_ret. cbn [fst snd] in *. split; [|done]. split; [|apply K3].
      eapply cleans_step; [done|done|done|]. intros Hs Hf. by destruct (S3 Hf Hs).
    + intros c' g' [[H' Hg'] Hb']. apply wp_ret. exists 0. split; [|split; [split; [done|lia]|by auto]].
      intros E. destruct n; [by destruct (Hn E eq_refl)|lia].
  - apply wp_ret. by split.
Qed.

Lemma wp_drain_after deadline ch g c g1 :
  cleans ch g c g1 -> patient -> (b = true -> (deadline - clock g1 < Z.of_nat fuel)%Z) ->
  wp b (loop (drain_turn_after deadline) fuel c) g1 (fun c' g' => cleans ch g c' g' /\ status c'.1 = status c.1).
Proof.
  intros H Hp Hb.
  apply (wp_loop b _ fuel c g1 (fun n c' g' => cleans ch g c' g' /\ status c'.1 = status c.1 /\
    Z.to_nat (deadline - clock g') <= n /\ (clock g1 <= clock g')%Z) _ (Z.to_nat (deadline - clock g1))).
  { intros E. specialize (Hb E). pose proof (patient_fuel Hp E). lia. }
  { split_and!; [done|done|lia|lia]. }
  intros n [ch2 f2] g2 (H2 & Hs & Hn & Hg). unfold drain_turn_after. cbn [fst snd] in *.
  destruct (output_closed ch2); [by apply wp_ret|].
  apply wp_call; [done|]. intros t Ht Hpr. cbn in Ht, Hpr. cbn beta.
  destruct (Z.leb_spec deadline t) as [Hu|Hu]; [apply wp_ret; split; [by apply cleans_clock|done]|].
  apply wp_call; [done|]. intros t2 Ht2 _. cbn in Ht2. cbn beta.
  assert (cleans ch g (ch2, f2) (set_clock t2 (set_clock t g2))) as H3 by (apply cleans_clock; [by apply cleans_clock|done]).
  eapply wp_seq; [apply wp_poll_and_drain; [apply H3|done|]|].
  { intros E. specialize (Hb E). cbn. lia. }
  intros [ch4 f4] g4 (K4 & S4 & D4). cbn [fst snd] in *. apply wp_ret.
  assert (t2 <= clock g4)%Z as C4 by (destruct K4 as [_ []]; cbn in *; lia).
  destruct f4 as [e|].
  - split; [by eapply cleans_step|cbn; congruence].
  - exists (Z.to_nat (deadline - clock g4)). split_and!; [intros E; specialize (Hpr E); lia|by eapply cleans_same|cbn; congruence|done|lia].
Qed.

(** The group is ended: the child is no longer running and its output is closed. *)
Lemma wp_cleanup_group allow_term descendants ch g :
  child_ok ds src ch g -> patient ->
  wp b (cleanup_group allow_term descendants ch) g (fun c g' =>
    cleans ch g c g' /\ status c.1 <> running /\ output_closed c.1 = true).
Proof.
  intros H Hp. unfold cleanup_group.
  assert (forall t : Z, (b = true -> (t + post_exit_drain - t < Z.of_nat fuel)%Z)) as Hb.
  { intros t E. specialize (Hp E). lia. }
  eapply (wp_seq b _ _ _ (cleans ch g)).
  { destruct allow_term; [|by apply wp_ret, cleans_refl].
    eapply wp_seq; [apply wp_escalate; [by apply cleans_refl|done]|]. intros c g1 [H1 _].
    apply wp_call; [done|]. intros t Ht _. cbn in Ht. cbn beta.
    apply wp_settle; [by apply cleans_clock|done|]. cbn. apply Hb. }
  intros c g1 H1. eapply wp_seq; [by apply wp_escalate|]. intros c2 g2 [H2 _].
  eapply wp_seq; [by apply wp_collect|]. intros c3 g3 [[H3 _] S3].
  apply wp_call; [done|]. intros t Ht _. cbn in Ht. cbn beta.
  eapply wp_seq; [apply wp_drain_after; [by apply cleans_clock|done|cbn; apply Hb]|]. intros [ch4 f4] g4 [H4 S4].
  eapply wp_seq; [apply (wp_close_output b ds src); apply H4|]. intros ch5 g5 (K5 & (S5 & _) & _ & C5). apply wp_ret.
  cbn [fst snd] in *. split_and!; [by eapply cleans_same|congruence|done].
Qed.

(** * What a run comes to *)

Section outcome.
Variables (r : ChildRequest) (observed : bool) (descendants : DescendantPolicy).

(** The observer was given a beginning of what is captured; of everything, after [publish]. *)
Definition hear_ok (ch : PosixChild) (em : N * N) (g : Kernel) : Prop :=
  let c := capture ch in
  if observed then
    heard g = (firstn (N.to_nat em.1) (captured_out c), firstn (N.to_nat em.2) (captured_err c)) /\
    N.to_nat em.1 <= length (captured_out c) /\ N.to_nat em.2 <= length (captured_err c)
  else heard g = ([], []).

Definition hears_all (c : Capture) (g : Kernel) : Prop :=
  heard g = if observed then (captured_out c, captured_err c) else ([], []).

(** The child is no more. *)
Definition is_over (g : Kernel) : Prop :=
  match fate g with Collected _ _ | Lost _ => True | Unborn | Running _ => False end.

(** A capture is what came on the child's own streams, as much as fits; all of it came and
    all of it fits exactly when it is not called truncated. *)
Definition captured_ok (c : Capture) (g : Kernel) : Prop :=
  let limit := capture_limit (request r) in
  match stdio r with
  | stdio_capture => exists o e, stream_of 1 g = Some o /\ stream_of 2 g = Some e /\
      captured_out c = kept limit (bytes_from o g) /\ captured_err c = kept limit (bytes_from e g) /\
      (truncated c = false <-> (o ∈ ended g /\ e ∈ ended g /\
         (N.of_nat (length (bytes_from o g)) <= limit)%N /\ (N.of_nat (length (bytes_from e g)) <= limit)%N))
  | inherit_terminal => c = empty_capture
  end.

(** The outcome of a run that began in [g0]. *)
Definition run_ok (g0 : Kernel) (x : Ran) (g : Kernel) : Prop :=
  opened g = opened g0 /\
  match x with
  | Returned (Value reply) =>
      let c := MkCapture (stdout_bytes reply) (stderr_bytes reply) (output_truncated reply) in
      (exists p w, fate g = Collected p w /\ termination reply = decode_status w) /\
      captured_ok c g /\ hears_all c g
  | Returned (Unexpected f) =>
      if bool_decide (error_delivery (failure f) = not_started)
      then fate g = Unborn /\ failure_capture f = empty_capture /\ heard g = ([], [])
      else is_over g /\ captured_ok (failure_capture f) g /\ hears_all (failure_capture f) g
  | Rethrown => observed = true /\ is_over g
  end.

Hypothesis src_kind : stdio r = stdio_capture <-> is_Some src.

(** The child of this run. *)
Definition mine (ch : PosixChild) (g : Kernel) : Prop :=
  child_ok ds src ch g /\ limit ch = capture_limit (request r).

Lemma mine_kept ch g ch' g' : mine ch g -> keeps ch g ch' g' -> mine ch' g'.
Proof. intros [_ H] [H1 H2]. split; [done|]. by rewrite (ev_limit _ _ _ _ H2). Qed.

Lemma hear_kept ch em g ch' g' : hear_ok ch em g -> keeps ch g ch' g' -> hear_ok ch' em g'.
Proof.
  unfold hear_ok. intros H [_ []]. destruct observed; [|congruence]. destruct H as (H & H1 & H2).
  destruct ev_out as [o Eo], ev_err as [e Ee]. rewrite Eo, Ee, !length_app, !take_app_le by done.
  split_and!; [congruence|lia|lia].
Qed.

Lemma mine_captured ch g : mine ch g -> output_closed ch = true -> captured_ok (capture ch) g.
Proof.
  intros [[[_ _ _ _ H] Hf] Hl] [Ho He]%andb_true_iff. unfold captured_ok, flag_ok in *.
  apply Z.ltb_lt in Ho. apply Z.ltb_lt in He. destruct (stdio r); destruct src as [[o e]|].
  - destruct H as (_ & S1 & S2 & (E1 & _) & (E2 & _)). exists o, e. rewrite <-Hl. split_and!; try done.
    rewrite Hf. unfold missing. rewrite (proj2 (Z.ltb_lt _ _) Ho), (proj2 (Z.ltb_lt _ _) He). cbn [andb].
    rewrite !orb_false_iff, !N.ltb_ge, !negb_false_iff, !bool_decide_eq_true. naive_solver.
  - by destruct (proj1 src_kind eq_refl).
  - assert (is_Some (Some (o, e))) as Hs by eauto. by apply src_kind in Hs.
  - destruct H as (_ & _ & E1 & E2). destruct (capture ch). cbn in *. by subst.
Qed.

Lemma mine_over ch g : mine ch g -> status ch <> running -> is_over g.
Proof. intros [[[_ _ _ H _] _] _] Hs. unfold fate_ok, is_over in *. by destruct (status ch); try done; rewrite H. Qed.

Lemma wp_leave ch x g Q :
  mine ch g -> status ch <> running -> Q x (set_opened ds g) -> wp b (leave ch x) g Q.
Proof.
  intros [H _] Hs HQ. eapply wp_seq; [by apply (wp_destroy b ds src)|]. intros _ g' ->. by apply wp_ret.
Qed.

(** ** Publishing *)

Lemma mine_heard ch g h : mine ch g -> mine ch (set_heard h g).
Proof. intros [[[] Hf] Hl]. split; [|done]. by split. Qed.

Lemma wp_emit_one stream bytes em g :
  N.to_nat em <= length bytes ->
  wp b (emit_one stream bytes em) g (fun x g' => match x with
    | Some n => n = N.of_nat (length bytes) /\
                g' = set_heard (hear stream (skipn (N.to_nat em) bytes) (heard g)) g
    | None => g' = g
    end).
Proof.
  intros He. unfold emit_one. destruct (N.ltb_spec em (N.of_nat (length bytes))) as [Hl|Hl].
  - apply wp_call; [done|]. intros [|] _ _; by apply wp_ret.
  - apply wp_ret. split; [lia|]. rewrite drop_ge by lia. destruct g as [? ? ? ? ? ? ? ? [h1 h2]]. unfold hear, set_heard. cbn.
    destruct (stream =? 0)%nat; by rewrite app_nil_r.
Qed.

Lemma wp_publish ch em g :
  mine ch g -> hear_ok ch em g -> patient ->
  wp b (publish observed descendants ch em) g (fun p g' => (clock g <= clock g')%Z /\
    match p.2 with
    | Some em' => p.1 = ch /\ mine ch g' /\ hear_ok ch em' g' /\ hears_all (capture ch) g'
    | None => observed = true /\ mine p.1 g' /\ status p.1 <> running
    end).
Proof.
  unfold publish, hear_ok, hears_all. intros H He Hp. destruct observed eqn:Eo; cbn [negb].
  2: { apply wp_ret. cbn [fst snd]. split_and!; [lia|done|done|done|done]. }
  destruct He as (He & H1 & H2).
  assert (forall g1, mine ch g1 -> clock g1 = clock g ->
    wp b (c ← cleanup_group true descendants ch; Ret (c.1, @None (N * N))) g1 (fun p g' => (clock g <= clock g')%Z /\
    match p.2 with
    | Some em' => p.1 = ch /\ mine ch g' /\ (heard g' = (firstn (N.to_nat em'.1) (captured_out (capture ch)), firstn (N.to_nat em'.2) (captured_err (capture ch))) /\
       N.to_nat em'.1 <= length (captured_out (capture ch)) /\ N.to_nat em'.2 <= length (captured_err (capture ch))) /\
       heard g' = (captured_out (capture ch), captured_err (capture ch))
    | None => true = true /\ mine p.1 g' /\ status p.1 <> running
    end)) as Hthrow.
  { intros g1 Hm Hc. eapply wp_seq; [apply wp_cleanup_group; [apply Hm|done]|].
    intros [ch2 f2] g2 ((K2 & _) & S2 & _). apply wp_ret. cbn [fst snd] in *.
    split_and!; [|done|by eapply mine_kept|done]. destruct K2 as [_ []]. lia. }
  eapply wp_seq; [by apply wp_emit_one|]. intros [a|] g1 Hg1; [|subst g1; by apply Hthrow].
  destruct Hg1 as [-> ->]. eapply wp_seq; [by apply wp_emit_one|].
  intros [a|] g2 Hg2; [|subst g2; apply Hthrow; [by apply mine_heard|done]].
  destruct Hg2 as [-> ->]. apply wp_ret. cbn [fst snd]. rewrite He. unfold hear. cbn.
  rewrite !Nat2N.id, !firstn_skipn, !firstn_all. split_and!; try done.
  by do 2 apply mine_heard.
Qed.

(** ** The ways a run ends *)

Variable g0 : Kernel.
Hypothesis began : opened g0 = ds.

Lemma wp_abandon ch em e allow_term g :
  mine ch g -> hear_ok ch em g -> patient -> error_delivery e = indeterminate ->
  wp b (abandon observed descendants ch em e allow_term) g (run_ok g0).
Proof.
  intros H He Hp Hd. eapply wp_seq; [apply wp_cleanup_group; [apply H|done]|].
  intros [ch1 f1] g1 ((K1 & D1 & _) & S1 & C1). cbn [fst snd] in *.
  eapply wp_seq; [apply wp_publish; [by eapply mine_kept|by eapply hear_kept|done]|].
  intros [ch2 [em2|]] g2 [_ H2]; cbn [fst snd] in H2.
  - destruct H2 as (-> & M2 & _ & A2). apply wp_leave; [done|done|]. split; [done|]. cbn [failure failure_capture].
    rewrite bool_decide_false.
    + split_and!; [exact (mine_over ch1 g2 M2 S1)|exact (mine_captured ch1 g2 M2 C1)|done].
    + destruct (error_kind e), f1 as [e1|]; rewrite ?Hd; try done. by rewrite (D1 e1).
  - destruct H2 as (Eo & M2 & S2). apply wp_leave; [done|done|]. split; [done|]. split; [done|exact (mine_over ch2 g2 M2 S2)].
Qed.

Lemma wp_finish ch g :
  mine ch g -> status ch = exited -> output_closed ch = true -> hears_all (capture ch) g ->
  wp b (finish ch) g (run_ok g0).
Proof.
  intros H Hs Hc Hh. unfold finish, termination_of. rewrite Hs, bool_decide_true by done.
  eapply (wp_seq b _ _ _ (fun t g' => t = decode_status (wait_status ch) /\ g' = g)); [by split|].
  intros t g' [-> ->]. apply wp_leave; [done|by rewrite Hs|]. split; [done|]. cbn [stdout_bytes stderr_bytes output_truncated].
  pose proof (mine_captured ch g H Hc) as Hcap. split_and!.
  - destruct H as [[[_ _ _ Hf _] _] _]. unfold fate_ok in Hf. rewrite Hs in Hf. by exists (pid ch), (wait_status ch).
  - by destruct (capture ch).
  - done.
Qed.

Lemma wp_conclude ch em g :
  mine ch g -> hear_ok ch em g -> hears_all (capture ch) g -> patient -> status ch <> unknowable ->
  (descendants = leave_running -> status ch = exited) ->
  wp b (conclude observed descendants ch em) g (run_ok g0).
Proof.
  intros H He Ha Hp Hs Hx. unfold conclude. destruct descendants eqn:Ed.
  - eapply wp_seq; [apply (wp_close_output b ds src); apply H|]. intros ch1 g1 (K1 & (S1 & _) & [B1 B2] & C1).
    apply wp_finish; [by eapply mine_kept|rewrite S1; auto|done|].
    unfold hears_all in *. rewrite B1, B2. destruct K1 as [_ []]. congruence.
  - rewrite <-Ed. eapply wp_seq; [apply wp_cleanup_group; [apply H|done]|].
    intros [ch1 [e|]] g1 ((K1 & D1 & N1) & S1 & C1); cbn [fst snd] in *.
    + apply wp_abandon; [by eapply mine_kept|by eapply hear_kept|done|by apply D1].
    + eapply wp_seq; [apply wp_publish; [by eapply mine_kept|by eapply hear_kept|done]|].
      intros [ch2 [em2|]] g2 [_ H2]; cbn [fst snd] in H2.
      * destruct H2 as (-> & M2 & _ & A2). apply wp_finish; try done.
        pose proof (ko_fate _ _ _ _ (proj1 (proj1 M2))) as Hf. unfold fate_ok in Hf.
        specialize (N1 Hs eq_refl). by destruct (status ch1).
      * destruct H2 as (Eo & M2 & S2). apply wp_leave; [done|done|]. split; [done|].
        split; [done|exact (mine_over ch2 g2 M2 S2)].
Qed.

(** ** The loop *)

(** What is left of a run with a deadline, in nanoseconds. *)
Definition left_over (d : Z) (exit_drain : option Z) (now : Z) : Z :=
  match exit_drain with
  | Some x => Z.max d x - now
  | None => Z.max (d - now) 0 + post_exit_drain + 1
  end%Z.

Definition turn_ok (deadline : option Z) (n : nat) (t : Turn) (g : Kernel) : Prop :=
  let ch := turn_child t in
  mine ch g /\ hear_ok ch (turn_emitted t) g /\ hears_all (capture ch) g /\
  status ch <> unknowable /\ (descendants = terminate -> status ch = running) /\
  (b = true -> exists d, deadline = Some d /\ (left_over d (exit_drain_deadline t) (clock g) <= Z.of_nat n)%Z).

Lemma mine_clock ch g t : mine ch g -> (clock g <= t)%Z -> mine ch (set_clock t g).
Proof. intros H Ht. eapply mine_kept; [done|]. by apply kept_clock; [apply H|]. Qed.

Lemma wp_passed deadline g :
  wp b (passed deadline) g (fun late g' => exists t, g' = set_clock t g /\ (clock g <= t)%Z /\
    match deadline with
    | Some d => late = (d <=? t)%Z /\ (b = true -> (clock g < t)%Z)
    | None => late = false
    end).
Proof.
  destruct deadline as [d|]; cbn [passed].
  - apply wp_call; [done|]. intros t Ht Hp. apply wp_ret. by exists t.
  - apply wp_ret. exists (clock g). split_and!; [by destruct g|lia|done].
Qed.

Lemma wp_has_finished ch g :
  mine ch g -> patient -> status ch <> unknowable -> (descendants = terminate -> status ch = running) ->
  wp b (has_finished descendants ch) g (fun f g' => keeps ch g f.1 g' /\
    match f.2 with
    | Unexpected e => error_delivery e = indeterminate
    | Value finished => capture f.1 = capture ch /\ status f.1 <> unknowable /\
        (descendants = terminate -> status f.1 = running) /\
        (descendants = leave_running -> finished = true -> status f.1 = exited)
    end).
Proof.
  intros H Hp Hs Hr. unfold has_finished. destruct descendants.
  - eapply wp_seq; [apply (wp_update_status fuel b ds src); [apply H|by apply patient_fuel]|].
    intros [ch1 [e|]] g1 (K1 & D1 & B1 & _ & N1); apply wp_ret; cbn [fst snd] in *; split; [done|by apply D1|done|].
    specialize (N1 Hs eq_refl). split_and!; [done|done|done|]. intros _. unfold is_running.
    pose proof (ko_fate _ _ _ _ (proj1 (proj1 K1))) as Hf. unfold fate_ok in Hf.
    case_bool_decide; [done|]. by destruct (status ch1).
  - eapply prog_mono; [apply (wp_exit_pending fuel b ds src); [apply H|by apply Hr|by apply patient_fuel]|].
    intros [ch1 [p|e]] g1 [K1 E1]; cbn [fst snd] in *; split; try done. destruct E1 as [-> ->].
    by split_and!.
Qed.

(** What a turn leaves: the next one, with less left, or the run's outcome. *)
Definition turns (deadline : option Z) (n : nat) (x : Turn + Ran) (g : Kernel) : Prop :=
  match x with
  | inl t => exists m, (b = true -> m < n) /\ turn_ok deadline m t g
  | inr x => run_ok g0 x g
  end.

Lemma wp_gives_up ch em e allow_term deadline n g :
  mine ch g -> hear_ok ch em g -> patient -> error_delivery e = indeterminate ->
  wp b (result ← abandon observed descendants ch em e allow_term; Ret (inr result)) g (turns deadline n).
Proof. intros H1 H2 H3 H4. eapply wp_seq; [by apply wp_abandon|]. intros x g' Hx. by apply wp_ret. Qed.

Lemma wp_read_on deadline finished exit_drain ch em n g :
  mine ch g -> hear_ok ch em g -> patient -> status ch <> unknowable ->
  (descendants = terminate -> status ch = running) ->
  (b = true -> exists d, deadline = Some d /\ 0 < n /\
     forall c, (clock g <= c)%Z -> (left_over d exit_drain c < Z.of_nat n)%Z) ->
  wp b (read_on observed descendants deadline finished exit_drain ch em) g (turns deadline n).
Proof.
  intros H He Hp Hs Hr Hl. unfold read_on. apply wp_call; [done|]. intros t Ht _. cbn in Ht. cbn beta.
  assert (keeps ch g ch (set_clock t g)) as K0 by (apply kept_clock; [apply H|done]).
  eapply wp_seq; [apply wp_poll_and_drain; [apply K0|done|]|].
  { intros E. specialize (Hp E). unfold post_exit_drain, poll_quantum in *. cbn.
    destruct finished, exit_drain, deadline; lia. }
  intros [ch1 [e|]] g1 (K1 & S1 & D1); cbn [fst snd] in *;
    (assert (keeps ch g ch1 g1) as K2 by by eapply kept_trans).
  { apply wp_gives_up; [by eapply mine_kept|by eapply hear_kept|done|by apply D1]. }
  eapply wp_seq; [apply wp_publish; [by eapply mine_kept|by eapply hear_kept|done]|].
  intros [ch2 [em2|]] g2 [C2 H2]; cbn [fst snd] in H2.
  - destruct H2 as (-> & M2 & E2 & A2). apply wp_ret.
    assert (clock g <= clock g2)%Z as C3 by (destruct K2 as [_ []]; lia).
    exists (match deadline with Some d => Z.to_nat (left_over d exit_drain (clock g2)) | None => 0 end). split.
    + intros E. destruct (Hl E) as (d & -> & Hn & Hlt). specialize (Hlt _ C3). lia.
    + split_and!; cbn; try done; [congruence|intros Et; rewrite S1; auto|].
      intros E. destruct (Hl E) as (d & -> & _). exists d. split; [done|]. lia.
  - destruct H2 as (Eo & M2 & S2). eapply wp_seq; [apply wp_leave; [done|done|]|].
    + instantiate (1 := run_ok g0). split; [done|]. split; [done|exact (mine_over ch2 g2 M2 S2)].
    + intros x g' Hx. by apply wp_ret.
Qed.

Lemma wp_asks_cancelled g : wp b (asks_cancelled r) g (fun _ g' => g' = g).
Proof. unfold asks_cancelled. destruct (has_cancelled r); [|by apply wp_ret]. by split. Qed.

(** Whether the output of a finished child is given up, and since when it is waited for. *)
Lemma wp_exit_drain ch t (finished : bool) g :
  wp b (if finished then match exit_drain_deadline t with
                         | Some d => Ret (Some d)
                         | None => now ← call Now; Ret (Some (now + post_exit_drain)%Z)
                         end
        else Ret (exit_drain_deadline t)) g (fun ed g1 => exists c, g1 = set_clock c g /\ (clock g <= c)%Z /\
    if finished then match exit_drain_deadline t with
                     | Some d => ed = Some d
                     | None => ed = Some (c + post_exit_drain)%Z
                     end
    else ed = exit_drain_deadline t) /\
  forall ed, (finished = true -> is_Some ed) ->
  wp b (if finished then if output_closed ch then Ret true else passed ed else Ret false) g (fun over g1 =>
    exists c, g1 = set_clock c g /\ (clock g <= c)%Z /\
    (finished = false -> over = false) /\
    (over = false -> finished = true -> exists x, ed = Some x /\ (c < x)%Z /\ (b = true -> (clock g < c)%Z))).
Proof.
  assert (g = set_clock (clock g) g) as Eg by by destruct g.
  split.
  - destruct finished; [destruct (exit_drain_deadline t)|]; try (apply wp_ret; exists (clock g); split_and!; done || lia).
    apply wp_call; [done|]. intros c Hc _. apply wp_ret. by exists c.
  - intros ed Hed. destruct finished; [|apply wp_ret; exists (clock g); by split_and!].
    destruct (output_closed ch); [apply wp_ret; exists (clock g); by split_and!|].
    destruct (Hed eq_refl) as [x ->]. eapply prog_mono; [apply wp_passed|]. intros over g' (c & -> & Hc & -> & Hb).
    exists c. split_and!; [done|done|done|]. intros Ho _. exists x. split_and!; [done|by apply Z.leb_gt|done].
Qed.

Lemma wp_run_turn deadline n t g :
  patient -> turn_ok deadline n t g -> wp b (run_turn r observed descendants deadline t) g (turns deadline n).
Proof.
  intros Hp (H & He & Ha & Hs & Hr & Hl). unfold run_turn.
  eapply wp_seq; [apply wp_asks_cancelled|]. intros withdrawn ? ->.
  destruct withdrawn; [by apply wp_gives_up|].
  destruct (_ && _); [by apply wp_gives_up|].
  eapply wp_seq; [by apply wp_has_finished|]. intros [ch1 [finished|e]] g1 [K1 H1]; cbn [fst snd] in *.
  2: { apply wp_gives_up; [by eapply mine_kept|by eapply hear_kept|done|done]. }
  destruct H1 as (B1 & S1 & R1 & X1).
  assert (mine ch1 g1) as M1 by by eapply mine_kept.
  assert (hear_ok ch1 (turn_emitted t) g1) as E1 by by eapply hear_kept.
  assert (hears_all (capture ch1) g1) as A1.
  { unfold hears_all in *. rewrite B1. destruct K1 as [_ []]. congruence. }
  assert (clock g <= clock g1)%Z as C1 by apply K1.
  eapply wp_seq; [apply (wp_exit_drain ch1 t finished g1)|]. intros ed ? (c2 & -> & C2 & Hed).
  assert (finished = true -> is_Some ed) as His by (intros ->; destruct (exit_drain_deadline t); subst; eauto).
  eapply wp_seq; [by apply (wp_exit_drain ch1 t finished)|]. intros over ? (c3 & -> & C3 & Hnf & Ho). cbn in C3, Ho.
  set (g3 := set_clock c3 (set_clock c2 g1)).
  assert (mine ch1 g3) as M3 by (apply mine_clock; [by apply mine_clock|done]).
  destruct over.
  { eapply wp_seq; [apply wp_conclude; try done|].
    - intros El. apply X1; [done|]. destruct finished; [done|]. by specialize (Hnf eq_refl).
    - intros x g' Hx. by apply wp_ret. }
  eapply (wp_seq b _ _ _ (fun late g4 => exists c4, g4 = set_clock c4 g3 /\ (c3 <= c4)%Z /\
    (late = false -> finished = false -> forall d, deadline = Some d -> (c4 < d)%Z /\ (b = true -> (c3 < c4)%Z)))).
  { destruct finished; [apply wp_ret; by exists c3|]. eapply prog_mono; [apply wp_passed|].
    intros late g' (c4 & -> & C4 & Hd). exists c4. split_and!; [done|done|]. intros El _ d ->. destruct Hd as [Hd Hb].
    split; [|done]. apply Z.leb_gt. congruence. }
  intros late ? (c4 & -> & C4 & Hlate).
  assert (mine ch1 (set_clock c4 g3)) as M4 by by apply mine_clock.
  destruct late; [by apply wp_gives_up|].
  apply wp_read_on; try done. intros E. destruct (Hl E) as (d & -> & Hld). exists d. split; [done|]. cbn [clock set_clock].
  unfold left_over, post_exit_drain in *. destruct finished.
  - destruct (Ho eq_refl eq_refl) as (x & Ex & Hx & Hlt). specialize (Hlt E). subst ed.
    destruct (exit_drain_deadline t) as [x0|]; injection Hed as ->; split; try lia; intros c Hc; lia.
  - destruct (Hlate eq_refl eq_refl d eq_refl) as [Hd Hlt]. specialize (Hlt E). subst ed.
    destruct (exit_drain_deadline t) as [x0|]; split; try lia; intros c Hc; lia.
Qed.

Lemma wp_started deadline ch g :
  mine ch g -> capture ch = empty_capture -> heard g = ([], []) -> status ch = running -> patient ->
  (b = true -> exists d, deadline = Some d /\ (Z.max (d - clock g) 0 + post_exit_drain + 1 < Z.of_nat fuel)%Z) ->
  wp b (started r observed descendants deadline ch) g (run_ok g0).
Proof.
  intros H Hc Hh Hr Hp Hd. unfold started.
  assert (forall g1, heard g1 = ([], []) -> hear_ok ch (0, 0)%N g1) as He.
  { intros g1 Hg. unfold hear_ok. rewrite Hc, Hg. destruct observed; [|done]. split_and!; [done|cbn; lia..]. }
  eapply (wp_seq b _ _ _ (fun _ g' => g' = g)).
  { destruct (has_on_started r); [|by apply wp_ret]. apply wp_call; [|by intros].
    cbn. eapply running_allowed; [apply H|done]. }
  intros [diagnostic|] ? ->; [by apply wp_abandon; auto|].
  eapply wp_seq; [apply wp_passed|]. intros late g1 (c & -> & C1 & _).
  assert (mine ch (set_clock c g)) as M1 by by apply mine_clock.
  destruct late; [by apply wp_abandon; auto|]. destruct (negb _); [by apply wp_abandon; auto|].
  apply (wp_loop b _ fuel _ _ (turn_ok deadline) _
    (match deadline with Some d => Z.to_nat (left_over d None c) | None => 0 end)).
  - intros E. destruct (Hd E) as (d & -> & Hlt). unfold left_over, post_exit_drain in *. lia.
  - split_and!; cbn [turn_child turn_emitted exit_drain_deadline]; try done; [by apply He|..].
    + unfold hears_all. rewrite Hc. cbn. rewrite Hh. by destruct observed.
    + by rewrite Hr.
    + intros E. destruct (Hd E) as (d & -> & _). exists d. split; [done|]. cbn [clock set_clock]. lia.
  - intros n t g1 Ht. by apply wp_run_turn.
Qed.
End outcome.
End proofs.

(** * The theorems *)

Lemma wp_run_process b r observed descendants g :
  fate g = Unborn -> received g = ∅ -> ended g = ∅ -> heard g = ([], []) ->
  (b = true -> exists t, req_timeout (request r) = Some t /\
     (Z.of_N t * 1000000 + post_exit_drain + 1 < Z.of_nat fuel)%Z) ->
  wp b (run_process r observed descendants) g (run_ok r observed g).
Proof.
  intros Hf Hrc Hen Hh Hb. unfold run_process.
  assert (forall kind operation cause, wp b (not_run r kind operation cause) g (run_ok r observed g)) as Hn.
  { intros. apply wp_ret. split; [done|]. cbn. by split_and!. }
  eapply wp_seq; [apply (wp_asks_cancelled b)|]. intros withdrawn ? ->. destruct withdrawn; [by apply Hn|].
  destruct (match req_timeout (request r) with Some _ => _ | None => _ end) eqn:E; [by apply Hn|]. clear E.
  eapply (wp_seq b _ _ _ (fun deadline g' => exists c, g' = set_clock c g /\
    forall t, req_timeout (request r) = Some t -> deadline = Some (c + Z.of_N t * 1000000)%Z)).
  { destruct (req_timeout (request r)) as [t|].
    - apply wp_call; [done|]. intros c _ _. apply wp_ret. exists c. split; [done|]. by intros ? [= ->].
    - apply wp_ret. exists (clock g). split; [by destruct g|done]. }
  intros deadline ? (c & -> & Hd). eapply wp_seq; [by apply wp_launch|].
  intros [ch|e] g1 (L1 & L2 & _ & L3); cbn in L1, L2, L3.
  - destruct L3 as (S1 & C1 & M1 & src & O1 & Hs).
    eapply (wp_started b (opened g) src); try done; [congruence| |].
    + intros E. destruct (Hb E) as (t & _ & Hlt). lia.
    + intros E. destruct (Hb E) as (t & Et & Hlt). exists (c + Z.of_N t * 1000000)%Z. split; [by apply Hd|].
      rewrite L2. lia.
  - destruct L3 as (L3 & L4 & L5). apply wp_ret. split; [done|]. cbn [failure failure_capture].
    rewrite L5. cbn. split_and!; [done|done|congruence].
Qed.

Section theorems.
Context {W : Type} {os : OS W}.

(** C4: a run misuses nothing and leaves nothing.  Whatever the system answers and however long it
    is waited for, [run_process] never closes or reads a descriptor that is not open, never signals
    or waits for a process that is no longer its child, and fails no assertion.  When it returns,
    the descriptors that are open are those that were; a reply means the child was collected and
    carries its status; a failure that says [not_started] means nothing was started, and any other
    failure, or an observer's exception, that the child was collected or is known to be lost.  What
    is handed back is what came on the child's standard output and error, as much as fits, called
    truncated exactly when something is missing, and an observer heard all of it, once and in
    order. *)
Theorem run_leaves_nothing r observed descendants (w : W) ds now :
  match run (run_process r observed descendants) w (kernel ds now) with
  | (Finished x, g) => run_ok r observed (kernel ds now) x g
  | (Exhausted, _) => True
  | (Misused _, _) | (Asserted, _) => False
  end.
Proof. apply prog_run. by apply wp_run_process. Qed.

(** C28: a run with a timeout ends.  On a system that keeps nobody waiting (time passes, no handler
    interrupts, a signal is delivered, a child that is waited for is collected) a run with a timeout of so many
    milliseconds returns, or passes an observer's exception on, within a number of turns that
    grows with the timeout: the child that ignores its signals, or writes for ever, or keeps its
    pipes open, included. *)
Theorem run_ends r observed descendants (w : W) ds now t {prompt_os : PromptOS W} :
  req_timeout (request r) = Some t ->
  (Z.of_N t * 1000000 + post_exit_drain + 1 < Z.of_nat fuel)%Z ->
  exists x, (run (run_process r observed descendants) w (kernel ds now)).1 = Finished x.
Proof.
  intros Ht Hf. destruct (prog_run_ends (run_process r observed descendants) w (kernel ds now) (run_ok r observed (kernel ds now)))
    as (x & Hx & _); [|by exists x].
  apply wp_run_process; try done. intros _. by exists t.
Qed.
End theorems.
End runner.

(** * Two runs *)

Example demo_exits :
  (run (os := demo_os (Some 3%Z)) (run_process (messages := demo_messages) 100 demo_request true leave_running) tt (kernel {[0; 1; 2]}%Z 0)).1
  = Finished (Returned (Value (MkReply (Exited 3) (txt "line") (txt "line") false))).
Proof. vm_compute. reflexivity. Qed.

Example demo_times_out :
  let p := run (os := demo_os None) (run_process (messages := demo_messages) 200 demo_request true terminate) tt (kernel {[0; 1; 2]}%Z 0) in
  exists f, p.1 = Finished (Returned (Unexpected f)) /\ error_kind (failure f) = p_timeout /\ signals p.2 = [SIGTERM; SIGKILL].
Proof. vm_compute. eexists. split_and!; reflexivity. Qed.

Lemma run_ends_witness :
  exists x, (run (os := demo_os None) (run_process (messages := demo_messages) (Z.to_nat 1000000000) demo_request true leave_running)
     tt (kernel {[0; 1; 2]}%Z 0)).1 = Finished x.
Proof.
  apply (run_ends (messages := demo_messages) (Z.to_nat 1000000000) (os := demo_os None) demo_request true leave_running tt {[0; 1; 2]}%Z 0%Z 5%N
           (prompt_os := demo_prompt None)).
  - reflexivity.
  - rewrite Z2Nat.id by lia. unfold post_exit_drain. lia.
Defined.
