(* ===== verification/Endpoint.v ===== *)
(** Which tmux an endpoint runs: [src/support_versions.hpp],
    [src/support_versions.cpp].

    The daemon is asked by a command no tmux has, so the answer arrives in the
    failure text and no hook runs; the executable is asked with [-V] when no daemon
    answers.  The fence keeps a later command on the daemon that was asked.  The
    theorems: an answer is taken from exactly one line the daemon wrote for this
    probe, every failure says nothing was started, at most two requests are sent and
    neither is the caller's command; the fence stops a command list exactly where
    the version differs. *)

From S2P Require Import Prelude Version Command Process.

Definition newline : ascii := ascii_of_N 10.
Definition carriage_return : ascii := ascii_of_N 13.
Definition tab : ascii := ascii_of_N 9.

Definition kUnknownCommand : text := txt "unknown command: ".

Definition kBeforeThreeTwo : list text :=
  [txt "server version is too old for client";
   txt "usage: run-shell [-b] [-t target-pane] shell-command";
   txt "unknown option -- N"].

Definition kRemedy : text :=
  txt "Upgrade tmux and restart the server, or stay on the previous libtmux release.".

(** [text.find(part) != npos]. *)
Definition contains (part s : text) : bool :=
  match find_sub part s with Some _ => true | None => false end.

Definition trim_back (set : list ascii) (s : text) : text :=
  reverse (span (fun c => bool_decide (c ∈ set)) (reverse s)).2.
Definition trim_front (set : list ascii) (s : text) : text :=
  (span (fun c => bool_decide (c ∈ set)) s).2.
Definition trimmed (s : text) : text :=
  trim_front [" "%char; tab] (trim_back [newline; carriage_return; " "%char; tab] s).

(** The line without the one carriage return that may end it. *)
Definition strip_return (line : text) : text :=
  if ends_with_char carriage_return line then take (length line - 1) line else line.

(** The lines [for_each_line] visits; [current] is the line so far. *)
Fixpoint lines_loop (current s : text) : list text :=
  match s with
  | [] => if bool_decide (current = []) then [] else [strip_return current]
  | c :: s' =>
      if bool_decide (c = newline) then strip_return current :: lines_loop [] s'
      else lines_loop (current ++ [c]) s'
  end.
Definition lines (s : text) : list text := lines_loop [] s.

Definition version_check_failure (kind : FailureKind) (diagnostic : text) : CommandFailure :=
  MkFailure kind not_started 0 diagnostic.

Definition process_failure (error : ProcessError) : CommandFailure :=
  MkFailure (kind_of (error_kind error)) not_started (-1)
    (txt "tmux did not report its version before dispatch: " ++ error_diagnostic error).

(** Characters a version token may carry into a format string. *)
Definition plain_char (c : ascii) : bool :=
  let b := byte_of c in
  ((48 <=? b) && (b <=? 57) || (97 <=? b) && (b <=? 122) || (65 <=? b) && (b <=? 90) ||
   (b =? 46) || (b =? 45))%N.
Definition plain_token (token : text) : bool :=
  negb (bool_decide (token = [])) && (length token <=? 64)%nat && forallb plain_char token.

(** [digits[(word >> (nibble * 4)) & 0xF]]. *)
Definition hex_char (n : N) : ascii := if (n <? 10)%N then ascii_of_N (48 + n) else ascii_of_N (87 + n).
Definition word_digits (word : N) : text :=
  (fun nibble => hex_char (N.land (N.shiftr word (4 * nibble)) 15)) <$> [0; 1; 2; 3; 4; 5; 6; 7]%N.

Definition answers_like_before_three_two (s : text) : bool :=
  existsb (fun signature => contains signature s) kBeforeThreeTwo.

Definition before_three_two_failure : CommandFailure :=
  version_check_failure unsupported
    (txt "tmux older than 3.2 is not supported; libtmux requires tmux " ++
     kMinimumSupportedText ++ txt " or newer. " ++ kRemedy).

(** The body of the visit: the report of a line, when it carries one. *)
Definition report_of (prefix line : text) : option text :=
  if starts_with prefix line then
    let version := drop (length prefix) line in
    Some (prefix_to (find_sub (txt " (running: ") version) version)
  else None.

Definition probe_report (s marker : text) : option text :=
  match omap (report_of (kUnknownCommand ++ marker)) (lines s) with
  | [report] => Some report
  | _ => None
  end.

Definition endpoint_is_absent (s : text) : bool :=
  contains (txt "no server running") s ||
  (contains (txt "error connecting to") s &&
   (contains (txt "No such file or directory") s || contains (txt "Connection refused") s)).

(** [binary.filename()]: what follows the last slash. *)
Definition filename (binary : text) : text :=
  reverse (span (fun c => negb (bool_decide (c = "/"%char))) (reverse binary)).1.

Definition after_prefix (output prefix : text) : option text :=
  if (1 <? length prefix)%nat && starts_with prefix output
  then Some (trimmed (drop (length prefix) output)) else None.

Definition executable_report (output binary : text) : option text :=
  let output := prefix_to (find_first_of [carriage_return; newline] output) output in
  match after_prefix output (filename binary ++ txt " ") with
  | Some report => Some report
  | None => after_prefix output (txt "tmux ")
  end.

Record EndpointVersion := MkEndpoint { live : bool; endpoint_version : Version; token : text }.

Definition read_report (token : text) (live : bool) : expected CommandFailure EndpointVersion :=
  let token := trimmed token in
  let refusal := version_check_failure unsupported
    (txt "libtmux cannot read the tmux version '" ++ token ++ txt "' reported by " ++
     (if live then txt "the daemon" else txt "the executable") ++
     txt "; libtmux requires tmux " ++ kMinimumSupportedText ++ txt " or newer. " ++ kRemedy) in
  match parse_version (txt "tmux " ++ token) with
  | Value parsed => if plain_token token then Value (MkEndpoint live parsed token) else Unexpected refusal
  | Unexpected _ => Unexpected refusal
  end.

Definition require_supported (endpoint : EndpointVersion) (floor : Version) :
    expected CommandFailure unit :=
  let whom := if live endpoint then txt "the daemon" else txt "the executable" in
  if unbounded (endpoint_version endpoint) then
    Unexpected (version_check_failure unsupported
      (txt "libtmux cannot order the tmux version '" ++ token endpoint ++ txt "' reported by " ++
       whom ++ txt "; an undated master build does not establish a release. " ++ kRemedy))
  else if version_ltb (endpoint_version endpoint) floor then
    Unexpected (version_check_failure unsupported
      (txt "libtmux requires tmux " ++ kMinimumSupportedText ++ txt " or newer; " ++ whom ++
       txt " reports '" ++ token endpoint ++ txt "'. " ++ kRemedy))
  else Value tt.

(** * Asking *)

Definition probe_limit : N := 64 * 1024.

Definition probe_request (binary : text) (selectors : list text) (timeout : option N) (marker : text) :
    ProcessRequest :=
  MkRequest binary
    ((public_arg <$> selectors) ++
     [public_arg (txt "-N"); public_arg (txt "run-shell"); public_arg (txt "-C");
      public_arg (marker ++ txt "#{version}")])
    [] timeout probe_limit.

Definition version_request (binary : text) (timeout : option N) : ProcessRequest :=
  MkRequest binary [public_arg (txt "-V")] [] timeout probe_limit.

Definition exited_with (code : Z) (t : Termination) : bool :=
  match t with Exited c => (c =? code)%Z | Signaled _ => false end.

Section asking.
Context {W : Type} {host : Host W}.

(** [version_marker]: four random words in hexadecimal, low digit first. *)
Definition version_marker (env : Env W) : text * Env W :=
  let '(a, env) := entropy env in
  let '(b, env) := entropy env in
  let '(c, env) := entropy env in
  let '(d, env) := entropy env in
  (txt "libtmux-version-" ++ word_digits a ++ word_digits b ++ word_digits c ++ word_digits d, env).

(** The executable's answer, when no daemon gave one. *)
Definition ask_executable (binary : text) (timeout : option N) (env : Env W) :
    expected CommandFailure EndpointVersion * Env W :=
  let '(printed, env) := launch (version_request binary timeout) env in
  match printed with
  | Unexpected e => (Unexpected (process_failure e), env)
  | Value reply =>
      match (if exited_with 0 (termination reply)
             then executable_report (stdout_bytes reply) binary else None) with
      | None => (Unexpected (version_check_failure unsupported
                  (txt "libtmux cannot establish the tmux version from '" ++ binary ++
                   txt " -V' before dispatch")), env)
      | Some report => (read_report report false, env)
      end
  end.

Definition query_endpoint (binary : text) (selectors : list text) (timeout : option N) (env : Env W) :
    expected CommandFailure EndpointVersion * Env W :=
  let '(marker, env) := version_marker env in
  let marker := marker ++ txt "-" in
  let '(reply, env) := launch (probe_request binary selectors timeout marker) env in
  match reply with
  | Unexpected e => (Unexpected (process_failure e), env)
  | Value reply =>
      let error_text := stderr_bytes reply in
      let answered :=
        if exited_with 1 (termination reply) then
          match probe_report error_text marker with
          | Some report => Some (read_report report true)
          | None => if answers_like_before_three_two error_text
                    then Some (Unexpected before_three_two_failure) else None
          end
        else None in
      match answered with
      | Some answer => (answer, env)
      | None =>
          if endpoint_is_absent error_text then ask_executable binary timeout env
          else
            let detail := trimmed error_text in
            (Unexpected (version_check_failure refused
               (if bool_decide (detail = []) then txt "tmux did not report a daemon version"
                else detail)), env)
      end
  end.
End asking.

(** * The fence *)

Definition version_fence (token marker : text) : list Argument :=
  public_arg <$> [txt "if-shell"; txt "-F"; txt "#{==:#{version}," ++ token ++ txt "}"; []; marker;
                  txt ";"].

Definition fence_fired (stderr_text marker : text) : bool :=
  existsb (fun line => bool_decide (line = kUnknownCommand ++ marker)) (lines stderr_text).

Definition replaced_daemon : CommandFailure :=
  version_check_failure unsupported
    (txt "the tmux daemon changed after libtmux checked its version; no command ran, so retrying checks the new daemon").

(** * Lemmas *)

Lemma require_supported_spec e floor :
  (require_supported e floor = Value tt <->
   unbounded (endpoint_version e) = false /\ version_ltb (endpoint_version e) floor = false) /\
  (forall f, require_supported e floor = Unexpected f ->
     failure_kind f = unsupported /\ delivery f = not_started).
Proof.
  unfold require_supported. destruct (unbounded _), (version_ltb _ _); split;
    try naive_solver; intros f [= <-]; done.
Qed.

Lemma read_report_value t lv e :
  read_report t lv = Value e ->
  live e = lv /\ token e = trimmed t /\ plain_token (token e) = true /\
  parse_version (txt "tmux " ++ token e) = Value (endpoint_version e).
Proof.
  unfold read_report. destruct (parse_version _) as [v|] eqn:Hv; [|done].
  destruct (plain_token _) eqn:Hp; [|done]. by intros [= <-].
Qed.

Lemma read_report_not_started t lv f : read_report t lv = Unexpected f -> delivery f = not_started.
Proof.
  unfold read_report. destruct (parse_version _); [destruct (plain_token _)|]; [done|..]; by intros [= <-].
Qed.

(** A plain token holds nothing a line or a trim would cut. *)
Lemma plain_char_not c : plain_char c = true ->
  c <> newline /\ c <> carriage_return /\ c <> " "%char /\ c <> tab.
Proof. intros H. split_and!; intros ->; vm_compute in H; discriminate. Qed.

Lemma plain_token_chars t c : plain_token t = true -> c ∈ t -> plain_char c = true.
Proof.
  intros H Hc. unfold plain_token in H. to_props. rewrite forallb_forall in *.
  apply list_elem_of_In in Hc. auto.
Qed.

Lemma span_none p s : match s with [] => True | c :: _ => p c = false end -> span p s = ([], s).
Proof. destruct s as [|c s]; [done|]. cbn. by intros ->. Qed.

Lemma trimmed_plain t : plain_token t = true -> trimmed t = t.
Proof.
  intros H. unfold trimmed, trim_front, trim_back.
  assert (forall set : list ascii, (forall c, c ∈ t -> c ∉ set) -> forall s : text, (forall c, c ∈ s -> c ∈ t) ->
            (span (fun c => bool_decide (c ∈ set)) s).2 = s) as Hs.
  { intros set Hset s Hst. rewrite span_none; [done|]. destruct s as [|c s]; [done|].
    apply bool_decide_eq_false, Hset, Hst. left. }
  rewrite (Hs [newline; carriage_return; " "%char; tab]).
  - rewrite reverse_involutive. apply Hs; [|done]. intros c Hc.
    apply (plain_token_chars t) in Hc; [|done]. apply plain_char_not in Hc as (_ & _ & H1 & H2).
    rewrite !elem_of_cons, elem_of_nil. tauto.
  - intros c Hc. apply (plain_token_chars t) in Hc; [|done]. apply plain_char_not in Hc as (H1 & H2 & H3 & H4).
    rewrite !elem_of_cons, elem_of_nil. tauto.
  - intros c. by rewrite elem_of_reverse.
Qed.

Lemma lines_one s : newline ∉ s -> s <> [] -> lines (s ++ [newline]) = [strip_return s].
Proof.
  intros Hn Hne. unfold lines.
  assert (forall cur, lines_loop cur (s ++ [newline]) = [strip_return (cur ++ s)]) as ->; [|done].
  clear Hne. induction s as [|c s IH]; intros cur; cbn [app lines_loop].
  - rewrite bool_decide_true by done. cbn. by rewrite app_nil_r.
  - apply not_elem_of_cons in Hn as [Hc Hn]. rewrite bool_decide_false by congruence.
    by rewrite IH, <-app_assoc.
Qed.

Lemma find_sub_char_absent n s c : c ∈ n -> c ∉ s -> find_sub n s = None.
Proof.
  intros Hc Hs. apply find_sub_None. intros j. apply starts_with_false. intros [r Hr]. apply Hs.
  rewrite <-(take_drop j s), Hr. rewrite !elem_of_app. auto.
Qed.

(** What the daemon prints for the probe is read back as the token. *)
Lemma probe_report_answer marker t :
  newline ∉ marker -> plain_token t = true ->
  probe_report (kUnknownCommand ++ marker ++ t ++ [newline]) marker = Some t.
Proof.
  intros Hm Ht. unfold probe_report.
  assert (forall c, c ∈ t -> c <> newline /\ c <> carriage_return /\ c <> " "%char /\ c <> tab) as Hchars
    by (intros c Hc; by eapply plain_char_not, plain_token_chars).
  assert (t <> []) as Hne by (intros ->; done).
  replace (kUnknownCommand ++ marker ++ t ++ [newline])
    with (((kUnknownCommand ++ marker) ++ t) ++ [newline]) by by rewrite <-!app_assoc.
  rewrite lines_one.
  2:{ rewrite !elem_of_app. intros [[H|H]|H]; [|done|].
      - vm_compute in H. apply list_elem_of_In in H. cbn in H. repeat (destruct H as [H|H]; [discriminate|]). done.
      - by apply Hchars in H as [? _]. }
  2:{ intros H%(f_equal length). rewrite !length_app in H.
      change (length kUnknownCommand) with 17 in H. cbn in H. lia. }
  assert (strip_return ((kUnknownCommand ++ marker) ++ t) = (kUnknownCommand ++ marker) ++ t) as ->.
  { unfold strip_return, ends_with_char. destruct t as [|c t'] using rev_ind; [done|].
    rewrite app_assoc, last_snoc. rewrite bool_decide_false; [done|].
    apply Hchars. rewrite elem_of_app. right; left. }
  cbn [omap list_omap]. unfold report_of. rewrite starts_with_app, drop_app_length.
  rewrite (find_sub_char_absent _ t " "%char); [done | by left |].
  intros H. by apply Hchars in H as (_ & _ & ? & _).
Qed.

Section asking_lemmas.
Context {W : Type} {host : Host W}.

Lemma version_marker_sent env : sent (version_marker env).2 = sent env.
Proof.
  unfold version_marker. pose proof (entropy_sent env) as H1.
  destruct (entropy env) as [a e1]. pose proof (entropy_sent e1) as H2.
  destruct (entropy e1) as [b e2]. pose proof (entropy_sent e2) as H3.
  destruct (entropy e2) as [c e3]. pose proof (entropy_sent e3) as H4.
  destruct (entropy e3) as [d e4]. cbn [snd] in *. congruence.
Qed.

Lemma word_digits_hex w : Forall (fun c => plain_char c = true) (word_digits w).
Proof.
  unfold word_digits. apply Forall_fmap, Forall_forall. intros k _. cbn.
  assert (N.land (N.shiftr w (4 * k)) 15 < 16)%N as H.
  { change 15%N with (N.ones 4). rewrite N.land_ones. by apply N.mod_lt. }
  set (n := N.land _ _) in *. clearbody n. unfold hex_char, plain_char, byte_of.
  destruct (N.ltb_spec n 10); rewrite N_ascii_embedding by lia;
    rewrite ?orb_true_iff, ?andb_true_iff, ?N.leb_le, ?N.eqb_eq; lia.
Qed.

Lemma version_marker_plain env : newline ∉ (version_marker env).1 ++ txt "-".
Proof.
  unfold version_marker. destruct (entropy env) as [a e1], (entropy e1) as [b e2],
    (entropy e2) as [c e3], (entropy e3) as [d e4]. cbn [fst].
  assert (forall s, Forall (fun c => plain_char c = true) s -> newline ∉ s) as Hp.
  { intros s Hs Hin. rewrite Forall_forall in Hs. specialize (Hs _ Hin). by vm_compute in Hs. }
  apply Hp. rewrite !Forall_app. split_and!; try apply word_digits_hex;
    apply Forall_forall; intros x Hx%list_elem_of_In;
    match type of Hx with In _ (txt ?s) => assert (forallb plain_char (txt s) = true) as Ha by (by vm_compute) end;
    rewrite forallb_forall in Ha; auto.
Qed.

Lemma ask_executable_spec binary timeout env :
  sent (ask_executable binary timeout env).2 = sent env ++ [version_request binary timeout] /\
  match (ask_executable binary timeout env).1 with
  | Unexpected f => delivery f = not_started
  | Value e => live e = false /\ plain_token (token e) = true /\
      parse_version (txt "tmux " ++ token e) = Value (endpoint_version e)
  end.
Proof.
  unfold ask_executable. pose proof (launch_sent (version_request binary timeout) env) as Hs.
  destruct (launch _ _) as [[reply|e] env']; cbn [snd] in Hs.
  2:{ by split. }
  destruct (if exited_with 0 _ then _ else _) as [report|]; [|by split]. split; [done|]. cbn [fst].
  destruct (read_report report false) as [e|f] eqn:Hr.
  - apply read_report_value in Hr as (? & _ & ? & ?). done.
  - by eapply read_report_not_started.
Qed.
End asking_lemmas.

Lemma query_endpoint_spec {W : Type} {host : Host W} binary selectors timeout (env : Env W) :
  let marker := (version_marker env).1 ++ txt "-" in
  let probe := probe_request binary selectors timeout marker in
  let asked := run_process probe (world (version_marker env).2) in
  let '(result, env') := query_endpoint binary selectors timeout env in
  (sent env' = sent env ++ [probe] \/
   sent env' = sent env ++ [probe; version_request binary timeout]) /\
  (forall f, result = Unexpected f -> delivery f = not_started) /\
  (forall e, result = Value e ->
     plain_token (token e) = true /\
     parse_version (txt "tmux " ++ token e) = Value (endpoint_version e) /\
     exists reply, asked.1 = Value reply /\
       if live e then
         exited_with 1 (termination reply) = true /\
         exists report, probe_report (stderr_bytes reply) marker = Some report /\
           token e = trimmed report
       else endpoint_is_absent (stderr_bytes reply) = true) /\
  (forall out truncated t v, asked.1 = Value (MkReply (Exited 1) out
       (kUnknownCommand ++ marker ++ t ++ [newline]) truncated) ->
     plain_token t = true -> parse_version (txt "tmux " ++ t) = Value v ->
     result = Value (MkEndpoint true v t)).
Proof.
  cbn zeta. pose proof (version_marker_sent env) as Hm. pose proof (version_marker_plain env) as Hpl.
  unfold query_endpoint. destruct (version_marker env) as [m env1]. cbn [fst snd] in *.
  set (marker := m ++ txt "-") in *. set (probe := probe_request _ _ _ _).
  unfold launch. destruct (run_process probe (world env1)) as [asked w]. cbn [fst snd sent].
  destruct asked as [reply|e]; cbn [sent]; rewrite Hm; [|split_and!; [by left | by intros f [= <-] | done | done]].
  destruct (if exited_with 1 _ then _ else _) as [answer|] eqn:Ha; cbn [sent].
  - split_and!; [by left | | |].
    + intros f ->. destruct (exited_with 1 _); [|done]. destruct (probe_report _ _).
      * injection Ha as Ha. by eapply read_report_not_started.
      * destruct (answers_like_before_three_two _); [|done]. by injection Ha as <-.
    + intros e ->. destruct (exited_with 1 (termination reply)) eqn:Hx; [|done].
      destruct (probe_report (stderr_bytes reply) marker) as [report|] eqn:Hp.
      * injection Ha as Ha. apply read_report_value in Ha as (-> & Ht & Hpt & Hv).
        split_and!; [done | done|]. exists reply. split; [done|]. split; [done|]. by exists report.
      * by destruct (answers_like_before_three_two _).
    + intros out tr t v Heq Ht Hv.
      assert (reply = MkReply (Exited 1) out (kUnknownCommand ++ marker ++ t ++ [newline]) tr) as ->
        by congruence. cbn [exited_with termination stderr_bytes] in Ha.
      rewrite Z.eqb_refl, probe_report_answer in Ha by done.
      injection Ha as <-. unfold read_report. rewrite (trimmed_plain t Ht), Hv, Ht. done.
  - assert (forall out tr t, reply = MkReply (Exited 1) out (kUnknownCommand ++ marker ++ t ++ [newline]) tr ->
              plain_token t = true -> False) as Hno.
    { intros out tr t -> Ht. cbn [exited_with termination stderr_bytes] in Ha.
      by rewrite Z.eqb_refl, probe_report_answer in Ha. }
    destruct (endpoint_is_absent (stderr_bytes reply)) eqn:Habs.
    + pose proof (ask_executable_spec binary timeout (MkEnv w (sent env ++ [probe]))) as [Hsent Hres].
      destruct (ask_executable _ _ _) as [result env2]. cbn [fst snd sent] in *.
      split_and!.
      * right. by rewrite Hsent, <-app_assoc.
      * by intros f ->.
      * intros e ->. destruct Hres as (Hl & Hp & Hv). split_and!; [done | done|].
        exists reply. by rewrite Hl.
      * intros out tr t v Heq Ht _. exfalso. eapply (Hno out tr t); [congruence | done].
    + split_and!; [by left | by intros f [= <-] | done |].
      intros out tr t v Heq Ht _. exfalso. eapply (Hno out tr t); [congruence | done].
Qed.

(** The library's question about an endpoint has no other effect and no other
    answer than this: it sends the probe, and [-V] when nothing answered; every
    failure says nothing was started; a live answer is the token of the one line the
    daemon wrote for this probe, parsed; an answer without a daemon is the
    executable's; and a daemon that prints its version for the probe is believed. *)
Theorem query_endpoint_sound {W : Type} {host : Host W} binary selectors timeout (env : Env W) :
  let marker := (version_marker env).1 ++ txt "-" in
  let probe := probe_request binary selectors timeout marker in
  let asked := run_process probe (world (version_marker env).2) in
  let '(result, env') := query_endpoint binary selectors timeout env in
  (sent env' = sent env ++ [probe] \/
   sent env' = sent env ++ [probe; version_request binary timeout]) /\
  (forall f, result = Unexpected f -> delivery f = not_started) /\
  (forall e, result = Value e ->
     plain_token (token e) = true /\
     parse_version (txt "tmux " ++ token e) = Value (endpoint_version e) /\
     exists reply, asked.1 = Value reply /\
       if live e then
         exited_with 1 (termination reply) = true /\
         exists report, probe_report (stderr_bytes reply) marker = Some report /\
           token e = trimmed report
       else endpoint_is_absent (stderr_bytes reply) = true) /\
  (forall out truncated t v, asked.1 = Value (MkReply (Exited 1) out
       (kUnknownCommand ++ marker ++ t ++ [newline]) truncated) ->
     plain_token t = true -> parse_version (txt "tmux " ++ t) = Value v ->
     result = Value (MkEndpoint true v t)).
Proof. exact (query_endpoint_spec binary selectors timeout env). Qed.

Lemma query_endpoint_sound_witness :
  let reply := MkReply (Exited 1) []
    (kUnknownCommand ++ txt "libtmux-version-00000000000000000000000000000000-" ++ txt "3.4" ++
     [newline]) false in
  (query_endpoint (host := scripted) (txt "tmux") [txt "-L"; txt "work"] None
     (MkEnv [Value reply] [])).1 =
    Value (MkEndpoint true (MkVersion 3 4 0 false false 0) (txt "3.4")).
Proof.
  intros reply.
  pose proof (query_endpoint_sound (host := scripted) (txt "tmux") [txt "-L"; txt "work"] None
    (MkEnv [Value reply] [])) as H.
  cbn zeta in H. destruct (query_endpoint _ _ _ _) as [result env'].
  destruct H as (_ & _ & _ & H).
  apply (H [] false (txt "3.4") (MkVersion 3 4 0 false false 0)); vm_compute; reflexivity.
Defined.
