(* ===== verification/Capabilities.v ===== *)
(** The capability registry: [src/support_capabilities.hpp],
    [src/support_capabilities.cpp].

    What a daemon has to be for each optional feature, and which releases have a
    defect the library works around.  The gates of layouts and of
    raw commands read their releases from here.  The lemmas: every key has its
    record, and a workaround applies to exactly tmux 3.7. *)

From S2P Require Import Prelude Version.

Inductive Handling := refuse | fallback | repair.

Record Release := MkRelease { release_version : Version; release_text : text }.

Record CommandUse := MkUse { use_command : text; use_flags : list text }.

Inductive CapabilityId :=
  | control_mode | buffer_delete_named | layout_mirrored_main | layout_json | clipboard_query.

Inductive WorkaroundId := break_pane_misnames_windows | name_separators_rejected.

#[export] Instance CapabilityId_eq_dec : EqDecision CapabilityId.
Proof. solve_decision. Defined.
#[export] Instance WorkaroundId_eq_dec : EqDecision WorkaroundId.
Proof. solve_decision. Defined.
#[export] Instance Handling_eq_dec : EqDecision Handling.
Proof. solve_decision. Defined.

Record Capability := MkCapability {
  cap_key : CapabilityId;
  cap_id : text;
  cap_name : text;
  cap_summary : text;
  cap_since : Release;
  cap_handling : Handling;
  cap_error : text;
  cap_apis : list text;
  cap_commands : list CommandUse;
}.

Record Workaround := MkWorkaround {
  work_key : WorkaroundId;
  work_id : text;
  work_name : text;
  work_summary : text;
  work_releases : list Release;
  work_handling : Handling;
  work_apis : list text;
  work_commands : list CommandUse;
}.

Local Definition at_release (major minor revision : N) (t : text) : Release :=
  MkRelease (MkVersion major minor revision false false 0) t.

Definition kTmux34 : Release := at_release 3 4 0 (txt "3.4").
Definition kTmux35 : Release := at_release 3 5 0 (txt "3.5").
Definition kTmux36a : Release := at_release 3 6 1 (txt "3.6a").
Definition kTmux37 : Release := at_release 3 7 0 (txt "3.7").
Definition kTmux38 : Release := at_release 3 8 0 (txt "3.8").

Definition kProtocolError : text := txt "libtmux::ProtocolError".
Definition kCommandFailure : text := txt "libtmux::CommandFailure".

Definition kBufferCommands : list CommandUse :=
  [MkUse (txt "delete-buffer") [txt "-b"]; MkUse (txt "set-buffer") [txt "-b"; txt "-n"]].
Definition kLayoutApis : list text :=
  [txt "libtmux::Server::validate_layouts"; txt "libtmux::Window::select_layout"].
Definition kLayoutCommands : list CommandUse := [MkUse (txt "select-layout") []].
Definition kNameCommands : list CommandUse :=
  [MkUse (txt "new-session") [txt "-s"; txt "-n"]; MkUse (txt "new-window") [txt "-n"];
   MkUse (txt "rename-session") []; MkUse (txt "rename-window") []].

Definition kCapabilities : list Capability :=
  [MkCapability control_mode (txt "control-mode")
     (txt "Control mode")
     (txt "Attach a library-managed control client and stream events.")
     kTmux37 refuse kProtocolError
     [txt "libtmux::Connection::connect"; txt "libtmux::Server::control";
      txt "libtmux::Server::control_with_options"; txt "libtmux::Server::over_control"]
     [MkUse (txt "attach-session") []];
   MkCapability buffer_delete_named (txt "buffer-delete-named")
     (txt "Named buffer deletion")
     (txt "Delete or rename one paste buffer by name without risking another buffer.")
     kTmux34 refuse kCommandFailure
     [txt "libtmux::Buffer::remove"] kBufferCommands;
   MkCapability layout_mirrored_main (txt "layout-mirrored-main")
     (txt "Mirrored main layouts")
     (txt "Apply main-horizontal-mirrored and main-vertical-mirrored.")
     kTmux35 refuse kCommandFailure
     kLayoutApis kLayoutCommands;
   MkCapability layout_json (txt "layout-json")
     (txt "JSON layout strings")
     (txt "Apply a layout saved in the JSON form tmux reports.")
     kTmux38 refuse kCommandFailure
     kLayoutApis kLayoutCommands;
   MkCapability clipboard_query (txt "clipboard-query")
     (txt "Clipboard query")
     (txt "Ask an attached client for its clipboard with refresh-client -l.")
     kTmux36a refuse kCommandFailure
     [] [MkUse (txt "refresh-client") [txt "-l"]]].

Definition kWorkarounds : list Workaround :=
  [MkWorkaround break_pane_misnames_windows (txt "break-pane-misnames-windows")
     (txt "break-pane window naming")
     (txt "break-pane gets the new window wrong on exactly tmux 3.7; Pane::break_out names the window and repairs it.")
     [kTmux37] repair
     [txt "libtmux::Pane::break_out"] [MkUse (txt "break-pane") []];
   MkWorkaround name_separators_rejected (txt "name-separators-rejected")
     (txt "Colon and dot in names")
     (txt "tmux 3.7 rejects ':' and '.' in session and window names after partly running.")
     [kTmux37] refuse
     [txt "libtmux::Server::new_session"; txt "libtmux::Session::new_window";
      txt "libtmux::Session::rename"; txt "libtmux::Window::rename"]
     kNameCommands].

(** [*std::ranges::find(table, id, key)]: dereferencing the end is undefined, so
    the lookup answers [None] there; no key of the enumerations reaches it. *)
Definition capability (id : CapabilityId) : option Capability :=
  find (fun c => bool_decide (cap_key c = id)) kCapabilities.
Definition workaround (id : WorkaroundId) : option Workaround :=
  find (fun w => bool_decide (work_key w = id)) kWorkarounds.

(** The release a capability starts at. *)
Definition since (id : CapabilityId) : Version :=
  match capability id with Some c => release_version (cap_since c) | None => version_zero end.
Definition since_text (id : CapabilityId) : text :=
  match capability id with Some c => release_text (cap_since c) | None => [] end.
Definition commands_of (id : CapabilityId) : list CommandUse :=
  match capability id with Some c => cap_commands c | None => [] end.
Definition releases_of (id : WorkaroundId) : list Release :=
  match workaround id with Some w => work_releases w | None => [] end.
Definition workaround_commands (id : WorkaroundId) : list CommandUse :=
  match workaround id with Some w => work_commands w | None => [] end.

Definition affects (id : WorkaroundId) (running : Version) : bool :=
  existsb (fun r => version_eqb (release_version r) running) (releases_of id).

(** * Lemmas *)

Lemma find_key_spec {A K} `{EqDecision K} (key : A -> K) (table : list A) (id : K) :
  id ∈ key <$> table ->
  exists c, find (fun c => bool_decide (key c = id)) table = Some c /\ key c = id /\ c ∈ table.
Proof.
  induction table as [|c table IH]; cbn [fmap list_fmap find]; [by intros ?%elem_of_nil|].
  intros [->|Hin]%elem_of_cons; case_bool_decide as E; try (by exists c; repeat split; auto; left).
  - done.
  - destruct (IH Hin) as (d & ? & ? & ?). exists d. repeat split; [done | done | by right].
Qed.

Lemma capability_defined id : exists c, capability id = Some c /\ cap_key c = id /\ c ∈ kCapabilities.
Proof. apply (find_key_spec cap_key). destruct id; vm_compute; repeat constructor. Qed.

Lemma workaround_defined id : exists w, workaround id = Some w /\ work_key w = id /\ w ∈ kWorkarounds.
Proof. apply (find_key_spec work_key). destruct id; vm_compute; repeat constructor. Qed.

Lemma affects_37 id running :
  affects id running = true <-> running = release_version kTmux37.
Proof.
  unfold affects. assert (releases_of id = [kTmux37]) as -> by by destruct id.
  cbn [existsb]. rewrite orb_false_r. unfold version_eqb. rewrite bool_decide_eq_true.
  naive_solver.
Qed.
