(* ===== verification/Layout.v ===== *)
(** Window layouts: [include/libtmux/layout.hpp], [src/layout.cpp].

    A layout is a preset name or an unambiguous prefix of one, a saved layout of
    tmux's first form (a checksum and a bracketed cell tree), or a saved layout in
    JSON.  Each is checked before it can reach tmux, which crashes on some it does
    not know.  The theorems: what is accepted is exactly a preset, a JSON layout
    the reader accepts, or a string of the cell grammar with its own checksum and
    enough cells; a batch that passes holds only layouts the running daemon knows;
    the JSON reader terminates and its accepted layouts keep tmux's rules on
    indexes. *)

From S2P Require Import Prelude Version Command Capabilities.

(** * Preset names *)

Definition names : list text :=
  [txt "even-horizontal"; txt "even-vertical"; txt "main-horizontal"; txt "main-vertical";
   txt "tiled"; txt "main-horizontal-mirrored"; txt "main-vertical-mirrored"].

Definition known_names (mirrored : bool) : list text :=
  take (if mirrored then length names else 5) names.

Fixpoint named_loop (layout : text) (ns : list text) (matches : nat) : bool :=
  match ns with
  | [] => (matches =? 1)%nat
  | n :: ns' =>
      if bool_decide (layout = n) then true
      else named_loop layout ns' (if starts_with layout n then S matches else matches)
  end.
Definition named_layout (layout : text) (mirrored : bool) : bool :=
  named_loop layout (known_names mirrored) 0.

Definition quote : ascii := ascii_of_N 34.

Definition add_candidate (layout candidates name : text) : text :=
  if starts_with layout name
  then (if bool_decide (candidates = []) then candidates else candidates ++ txt ", ") ++ name
  else candidates.

Definition invalid_layout_name (layout : text) (mirrored : bool) : text :=
  let candidates := foldl (add_candidate layout) [] (known_names mirrored) in
  [quote] ++ layout ++
  (if bool_decide (candidates = [])
   then [quote] ++ txt " is neither a layout preset nor a saved layout description"
   else [quote] ++ txt " could mean more than one layout preset: " ++ candidates).

Definition layout_space (c : ascii) : bool :=
  existsb (N.eqb (byte_of c)) [32; 9; 13; 10; 12; 11]%N.

Definition skip_layout_space (s : text) : text := (span layout_space s).2.

Definition json_layout (layout : text) : bool :=
  starts_with (txt "{") (skip_layout_space layout).

Definition layout_needs_version (layout : text) : bool :=
  json_layout layout ||
  negb (Bool.eqb (named_layout layout false) (named_layout layout true)).

(** * The first saved form: [LayoutSyntax]

    The reader's [offset] is the remaining input; a failed step is [None]. *)

Module LayoutSyntax.
Definition take_char (c : ascii) (s : text) : option text :=
  match s with
  | d :: r => if bool_decide (d = c) then Some r else None
  | [] => None
  end.

Fixpoint number_loop (value : N) (s : text) : option (N * text) :=
  match s with
  | c :: r =>
      if is_digit c then
        if ((u32_max - digit_value c) / 10 <? value)%N then None
        else number_loop ((value * 10 + digit_value c) mod (u32_max + 1)) r
      else Some (value, s)
  | [] => Some (value, [])
  end.
Definition number (s : text) : option text :=
  match number_loop 0 s with
  | Some (_, r) => if (length r <? length s)%nat then Some r else None
  | None => None
  end.

(** A pane ID is optional; a following width belongs to the next cell. *)
Definition pane_id (s : text) : text :=
  match take_char ","%char s with
  | Some r =>
      match number r with
      | Some r' => if starts_with (txt "x") r' then s else r'
      | None => s
      end
  | None => s
  end.

Definition cell_head (s : text) : option text :=
  s ← number s; s ← take_char "x"%char s; s ← number s; s ← take_char ","%char s;
  s ← number s; s ← take_char ","%char s; s ← number s;
  Some (pane_id s).

(** The bracket that closes a node, when a node opens here. *)
Definition opens (s : text) : option (ascii * text) :=
  match s with
  | c :: r => if bool_decide (c = "["%char) then Some ("]"%char, r)
              else if bool_decide (c = "{"%char) then Some ("}"%char, r) else None
  | [] => None
  end.

Fixpoint cell (fuel depth : nat) (s : text) (leaves : nat) : option (text * nat) :=
  match fuel with
  | 0 => None
  | S fuel' =>
      if (256 <? depth)%nat then None
      else
        s ← cell_head s;
        match opens s with
        | None => Some (s, S leaves)
        | Some (close, r) => children fuel' depth close r leaves
        end
  end
with children (fuel depth : nat) (close : ascii) (s : text) (leaves : nat) :
    option (text * nat) :=
  match fuel with
  | 0 => None
  | S fuel' =>
      '(s, leaves) ← cell fuel' (S depth) s leaves;
      match take_char ","%char s with
      | Some s => children fuel' depth close s leaves
      | None => s ← take_char close s; Some (s, leaves)
      end
  end.

(** The fuel [cell] never exhausts on this input (see [cell_complete]). *)
Definition cell_fuel (s : text) : nat := 2 * length s + 1.
End LayoutSyntax.

Definition hex_digit (c : ascii) : option N :=
  let b := byte_of c in
  if ((48 <=? b) && (b <=? 57))%N then Some (b - 48)%N
  else if ((97 <=? b) && (b <=? 102))%N then Some (b - 97 + 10)%N
  else if ((65 <=? b) && (b <=? 70))%N then Some (b - 65 + 10)%N
  else None.

Fixpoint hex_loop (expected : N) (s : text) : option N :=
  match s with
  | [] => Some expected
  | c :: r => match hex_digit c with
              | Some v => hex_loop ((expected * 16 + v) mod (u32_max + 1)) r
              | None => None
              end
  end.

(** One byte of the rotating 16-bit checksum. *)
Definition checksum_step (checksum : N) (byte : ascii) : N :=
  let rotated := N.lor (N.shiftr checksum 1) (N.shiftl (N.land checksum 1) 15) in
  N.land (rotated + byte_of byte) 65535.
Definition checksum (s : text) : N := foldl checksum_step 0%N s.

(** * The JSON form: [JsonLayoutSyntax] *)

Module JsonLayoutSyntax.
Inductive JType := absent | string_t | number_t | boolean_t | object_t | array_t.
Inductive Role := root | cell_role | ignored.

#[export] Instance JType_eq_dec : EqDecision JType.
Proof. solve_decision. Defined.
#[export] Instance Role_eq_dec : EqDecision Role.
Proof. solve_decision. Defined.

Record JValue := MkValue {
  v_type : JType;
  v_text : text;
  v_number : Z;
  v_count : nat;
  v_boolean : bool;
}.
Definition value_absent : JValue := MkValue absent [] 0 0 false.

Definition Fields := gmap text JValue.

Record JState := MkJState {
  j_rest : text;
  j_leaves : nat;
  j_active : nat;
  j_indexes : gset Z;
  j_floating : gset Z;
  j_last : gset Z;
  j_error : text;
}.

(** A step of the reader: it may fail, and keeps its state when it does, because
    [take] is tried and [error] is read after a failure. *)
Definition J (A : Type) : Type := JState -> option A * JState.

#[export] Instance J_ret : MRet J := fun A a st => (Some a, st).
#[export] Instance J_bind : MBind J := fun A B k m st =>
  match m st with
  | (Some a, st') => k a st'
  | (None, st') => (None, st')
  end.

Definition j_none {A} : J A := fun st => (None, st).
Definition guard_j (b : bool) : J unit := if b then mret tt else j_none.

Definition set_rest (s : text) (st : JState) : JState :=
  MkJState s (j_leaves st) (j_active st) (j_indexes st) (j_floating st) (j_last st) (j_error st).

Definition fail {A} (reason : text) : J A := fun st =>
  (None, MkJState (j_rest st) (j_leaves st) (j_active st) (j_indexes st) (j_floating st)
           (j_last st) reason).

Definition json_space (c : ascii) : bool := existsb (N.eqb (byte_of c)) [32; 9; 13; 10]%N.

Definition space : J unit := fun st => (Some tt, set_rest (span json_space (j_rest st)).2 st).

(** [offset == size] or the byte at [offset]. *)
Definition peek : J (option ascii) := fun st => (Some (head (j_rest st)), st).

(** [take]: whether the byte was there. *)
Definition take_here (c : ascii) : J bool := fun st =>
  match LayoutSyntax.take_char c (j_rest st) with
  | Some r => (Some true, set_rest r st)
  | None => (Some false, st)
  end.
Definition take_j (c : ascii) : J bool := _ ← space; take_here c.
Definition expect (c : ascii) : J unit := found ← take_j c; guard_j found.

Definition is_hex (c : ascii) : bool := match hex_digit c with Some _ => true | None => false end.

Definition escape_set : list ascii := [quote; "\"%char; "/"%char; "b"%char; "f"%char; "n"%char;
                                       "r"%char; "t"%char].

(** From the byte after the opening quote: the bytes before the closing one,
    escapes checked but kept, and what follows it. *)
Fixpoint string_loop (acc : text) (s : text) : option (text * text) :=
  match s with
  | [] => None
  | c :: r =>
      if bool_decide (c = quote) then Some (reverse acc, r)
      else if (byte_of c <? 32)%N then None
      else if negb (bool_decide (c = "\"%char)) then string_loop (c :: acc) r
      else match r with
           | [] => None
           | e :: r =>
               if bool_decide (e = "u"%char) then
                 match r with
                 | h1 :: h2 :: h3 :: h4 :: r =>
                     if is_hex h1 && is_hex h2 && is_hex h3 && is_hex h4
                     then string_loop (h4 :: h3 :: h2 :: h1 :: e :: c :: acc) r else None
                 | _ => None
                 end
               else if bool_decide (e ∈ escape_set) then string_loop (e :: c :: acc) r
               else None
           end
  end.

(** A failed string fails the whole reading, so where it left the offset is not
    kept. *)
Definition string_rest : J text := fun st =>
  match string_loop [] (j_rest st) with
  | Some (result, r) =>
      if bool_decide (result = []) then (None, st) else (Some result, set_rest r st)
  | None => (None, st)
  end.
Definition string_j : J text := _ ← expect quote; string_rest.

Definition i64_min : Z := -9223372036854775808.
Definition i64_max : Z := 9223372036854775807.

(** [std::from_chars] on an optional sign and decimal digits. *)
Definition from_chars_i64 (negative : bool) (digits : text) : option Z :=
  let magnitude := Z.of_N (digits_value 0 digits) in
  let n := (if negative then - magnitude else magnitude)%Z in
  if ((i64_min <=? n) && (n <=? i64_max))%Z then Some n else None.

Definition number_j : J JValue := fun st =>
  let negative := starts_with (txt "-") (j_rest st) in
  let s := if negative then drop 1 (j_rest st) else j_rest st in
  let '(digits, r) := span is_digit s in
  if bool_decide (digits = []) ||
     (starts_with (txt "0") digits && negb (length digits =? 1)%nat)
  then (None, st)
  else match from_chars_i64 negative digits with
       | Some n => (Some (MkValue number_t [] n 0 false), set_rest r st)
       | None => (None, st)
       end.

(** A literal, or else a number. *)
Definition scalar : J JValue := fun st =>
  if starts_with (txt "true") (j_rest st)
  then (Some (MkValue boolean_t [] 0 0 true), set_rest (drop 4 (j_rest st)) st)
  else if starts_with (txt "false") (j_rest st)
  then (Some (MkValue boolean_t [] 0 0 false), set_rest (drop 5 (j_rest st)) st)
  else number_j st.

Definition field (fields : Fields) (key : text) : JValue := default value_absent (fields !! key).

Definition range (v : JValue) (low high : Z) : bool :=
  bool_decide (v_type v = number_t) && (low <=? v_number v)%Z && (v_number v <=? high)%Z.

Definition i32_max : Z := 2147483647.

(** [!set.insert(n).second], with the failure's reason. *)
Definition insert_index (n : Z) (reason : text) : J unit := fun st =>
  if bool_decide (n ∈ j_indexes st) then fail reason st
  else (Some tt, MkJState (j_rest st) (j_leaves st) (j_active st) ({[n]} ∪ j_indexes st)
                   (j_floating st) (j_last st) (j_error st)).
Definition insert_floating (n : Z) (reason : text) : J unit := fun st =>
  if bool_decide (n ∈ j_floating st) then fail reason st
  else (Some tt, MkJState (j_rest st) (j_leaves st) (j_active st) (j_indexes st)
                   ({[n]} ∪ j_floating st) (j_last st) (j_error st)).
Definition insert_last (n : Z) (reason : text) : J unit := fun st =>
  if bool_decide (n ∈ j_last st) then fail reason st
  else (Some tt, MkJState (j_rest st) (j_leaves st) (j_active st) (j_indexes st)
                   (j_floating st) ({[n]} ∪ j_last st) (j_error st)).
Definition add_active : J nat := fun st =>
  (Some (S (j_active st)),
   MkJState (j_rest st) (j_leaves st) (S (j_active st)) (j_indexes st) (j_floating st)
     (j_last st) (j_error st)).
Definition add_leaf : J unit := fun st =>
  (Some tt, MkJState (j_rest st) (S (j_leaves st)) (j_active st) (j_indexes st) (j_floating st)
              (j_last st) (j_error st)).

Definition check (b : bool) (reason : text) : J unit := if b then mret tt else fail reason.

Definition type_in (ts : list text) (v : JValue) : bool :=
  bool_decide (v_type v = string_t) && bool_decide (v_text v ∈ ts).

Definition pane_fields (fields : Fields) : J unit :=
  let bad_index := txt "JSON layout pane indexes must be unique nonnegative Int32 values" in
  let bad_active := txt "JSON layout permits only one active pane, marked by a boolean" in
  let bad_last := txt "JSON layout last-pane indexes must be unique nonnegative Int32 values" in
  let bad_floating := txt "JSON layout floating indexes must be unique and below INT32_MAX" in
  let index := field fields (txt "i") in
  let selected := field fields (txt "a") in
  let previous := field fields (txt "l") in
  let z := field fields (txt "z") in
  _ ← check (range index 0 i32_max) bad_index;
  _ ← insert_index (v_number index) bad_index;
  _ ← (if negb (bool_decide (v_type selected = absent)) then
         _ ← check (bool_decide (v_type selected = boolean_t)) bad_active;
         if v_boolean selected
         then active ← add_active; check (negb (1 <? active)%nat) bad_active
         else mret tt
       else if negb (bool_decide (v_type previous = absent)) then
         _ ← check (range previous 0 i32_max) bad_last;
         insert_last (v_number previous) bad_last
       else mret tt);
  _ ← (if negb (bool_decide (v_type z = absent)) then
         _ ← check (range z 0 (i32_max - 1)) bad_floating;
         insert_floating (v_number z) bad_floating
       else mret tt);
  add_leaf.

(** [cell(fields)]. *)
Definition cell_j (fields : Fields) : J unit :=
  let type := field fields (txt "t") in
  let children := field fields (txt "c") in
  _ ← check (type_in [txt "p"; txt "h"; txt "v"] type)
        (txt "JSON layout cell type must be p, h or v");
  _ ← check (range (field fields (txt "w")) 1 10000 && range (field fields (txt "h")) 1 10000 &&
             range (field fields (txt "x")) (-10000) 10000 &&
             range (field fields (txt "y")) (-10000) 10000)
        (txt "JSON layout cell dimensions or offsets are outside tmux's bounds");
  if negb (bool_decide (v_text type = txt "p"))
  then check (bool_decide (v_type children = array_t) && (2 <=? v_count children)%nat)
         (txt "JSON layout nodes require at least two children")
  else
    _ ← check (bool_decide (v_type children = absent))
          (txt "JSON layout panes cannot have children");
    pane_fields fields.

Definition child_role (role : Role) (key : text) : Role :=
  match role with
  | root => if bool_decide (key = txt "L") then cell_role else ignored
  | cell_role => if bool_decide (key = txt "c") then cell_role else ignored
  | ignored => ignored
  end.

Definition finish_object (role : Role) (fields : Fields) : J unit :=
  match role with
  | root =>
      check (range (field fields (txt "V")) 2 2 &&
             bool_decide (v_type (field fields (txt "L")) = object_t))
        (txt "JSON saved layout requires V:2 and an L cell object")
  | cell_role => cell_j fields
  | ignored => mret tt
  end.

(** [object], its field loop, [value] and the array loop of [value]. *)
Fixpoint object (fuel : nat) (role : Role) (depth : nat) {struct fuel} : J unit :=
  match fuel with
  | 0 => j_none
  | S fuel' =>
      _ ← guard_j (depth <=? 200)%nat;
      _ ← expect "{"%char;
      empty ← take_j "}"%char;
      fields ← (if empty : bool then mret ∅
                else
                  fields ← fields_loop fuel' role depth ∅;
                  _ ← expect "}"%char;
                  mret fields);
      finish_object role fields
  end
with fields_loop (fuel : nat) (role : Role) (depth : nat) (fields : Fields) {struct fuel} :
    J Fields :=
  match fuel with
  | 0 => j_none
  | S fuel' =>
      key ← string_j;
      _ ← guard_j (negb (bool_decide (is_Some (fields !! key))));
      _ ← expect ":"%char;
      parsed ← value_j fuel' (child_role role key) depth;
      let fields := <[key := parsed]> fields in
      more ← take_j ","%char;
      if more : bool then fields_loop fuel' role depth fields else mret fields
  end
with value_j (fuel : nat) (role : Role) (depth : nat) {struct fuel} : J JValue :=
  match fuel with
  | 0 => j_none
  | S fuel' =>
      _ ← space;
      first ← peek;
      match first with
      | None => j_none
      | Some c =>
          if bool_decide (c = "{"%char) then
            _ ← object fuel' role (S depth);
            mret (MkValue object_t [] 0 0 false)
          else
            opened ← take_j "["%char;
            if opened : bool then
              empty ← take_j "]"%char;
              if empty : bool then mret (MkValue array_t [] 0 0 false)
              else
                count ← elements_loop fuel' role depth 0;
                _ ← expect "]"%char;
                mret (MkValue array_t [] 0 count false)
            else if bool_decide (c = quote) then
              s ← string_j;
              mret (MkValue string_t s 0 0 false)
            else scalar
      end
  end
with elements_loop (fuel : nat) (role : Role) (depth count : nat) {struct fuel} : J nat :=
  match fuel with
  | 0 => j_none
  | S fuel' =>
      _ ← object fuel' role (S depth);
      more ← take_j ","%char;
      if more : bool then elements_loop fuel' role depth (S count) else mret (S count)
  end.

Definition initial_state (layout : text) : JState :=
  MkJState layout 0 0 ∅ ∅ ∅ (txt "malformed JSON saved layout (maximum object depth is 200)").

(** The fuel [parse] never exhausts on this input (see [parse_fuel]). *)
Definition json_fuel (layout : text) : nat := 2 * length layout + 2.

Definition parse (fuel : nat) (layout : text) : bool * JState :=
  let '(parsed, st) :=
    object fuel root 1 (set_rest (skip_layout_space layout) (initial_state layout)) in
  match parsed with
  | None => (false, st)
  | Some _ =>
      let st := (space st).2 in
      (bool_decide (j_rest st = []) && negb (j_leaves st =? 0)%nat, st)
  end.

End JsonLayoutSyntax.

(** * The checks *)

Definition few_cells : text := txt "custom layout has fewer cells than requested panes".

Definition json_error (layout : text) (panes : nat) : option text :=
  let '(parsed, st) := JsonLayoutSyntax.parse (JsonLayoutSyntax.json_fuel layout) layout in
  if negb parsed then Some (JsonLayoutSyntax.j_error st)
  else if (JsonLayoutSyntax.j_leaves st <? panes)%nat then Some few_cells else None.

Definition saved_error (layout : text) (panes : nat) : option text :=
  match hex_loop 0 (take 4 layout) with
  | None => Some (txt "a custom layout starts with four hexadecimal checksum digits")
  | Some expected =>
      let layout := drop 5 layout in
      if negb (checksum layout =? expected)%N then Some (txt "custom layout checksum does not match")
      else match LayoutSyntax.cell (LayoutSyntax.cell_fuel layout) 0 layout 0 with
           | Some ([], leaves) => if (leaves <? panes)%nat then Some few_cells else None
           | _ => Some (txt "malformed custom layout tree (maximum depth is 256)")
           end
  end.

Definition layout_error (layout : text) (panes : nat) (mirrored : option bool) : option text :=
  if bool_decide (layout = []) then Some (txt "layout is empty")
  else if json_layout layout then json_error layout panes
  else if match mirrored with
          | Some m => named_layout layout m
          | None => named_layout layout false || named_layout layout true
          end then None
  else if (length layout <? 6)%nat || negb (bool_decide (layout !! 4 = Some ","%char))
  then Some (invalid_layout_name layout (default true mirrored))
  else saved_error layout panes.

Definition invalid_layout (reason : text) : CommandFailure :=
  MkFailure validation not_started 0 reason.

Record LayoutRequest := MkLayoutRequest { layout : text; minimum_panes : nat }.
Record LayoutFailure := MkLayoutFailure { index : nat; cause : CommandFailure }.

Definition version_refusal (version : Version) (request : LayoutRequest) : option CommandFailure :=
  let mirrored := version_geb version (since layout_mirrored_main) in
  if json_layout (layout request) && version_ltb version (since layout_json)
  then Some (invalid_layout (txt "JSON saved layouts require tmux " ++ since_text layout_json ++
                             txt " or newer"))
  else if layout_needs_version (layout request)
  then invalid_layout <$> layout_error (layout request) (minimum_panes request) (Some mirrored)
  else None.

Definition validate_layout (l : text) (panes : nat) : option CommandFailure :=
  invalid_layout <$> layout_error l panes None.

Definition layout_refusal (running : Version) (l : text) : option CommandFailure :=
  match validate_layout l 1 with
  | Some failure => Some failure
  | None => version_refusal running (MkLayoutRequest l 1)
  end.

(** The first pass: a failure, or the first layout whose meaning depends on the
    release. *)
Fixpoint static_pass (i : nat) (sensitive : option nat) (layouts : list LayoutRequest) :
    expected LayoutFailure (option nat) :=
  match layouts with
  | [] => Value sensitive
  | request :: rest =>
      match validate_layout (layout request) (minimum_panes request) with
      | Some failure => Unexpected (MkLayoutFailure i failure)
      | None =>
          static_pass (S i)
            (match sensitive with
             | Some _ => sensitive
             | None => if layout_needs_version (layout request) then Some i else None
             end) rest
      end
  end.

Fixpoint version_pass (i : nat) (running : Version) (layouts : list LayoutRequest) :
    expected LayoutFailure unit :=
  match layouts with
  | [] => Value tt
  | request :: rest =>
      match version_refusal running request with
      | Some refusal => Unexpected (MkLayoutFailure i refusal)
      | None => version_pass (S i) running rest
      end
  end.

(** [validate_layouts], and whether it asked the backend for the daemon's version:
    [backend_version] is the answer it would get. *)
Definition validate_layouts (backend_version : expected CommandFailure Version)
    (layouts : list LayoutRequest) : expected LayoutFailure unit * bool :=
  match static_pass 0 None layouts with
  | Unexpected failure => (Unexpected failure, false)
  | Value None => (Value tt, false)
  | Value (Some sensitive) =>
      (match backend_version with
       | Unexpected e => Unexpected (MkLayoutFailure sensitive e)
       | Value running => version_pass 0 running layouts
       end, true)
  end.

(** * The grammar of the first saved form *)

Definition numeral (s : text) : Prop :=
  s <> [] /\ forallb is_digit s = true /\ (digits_value 0 s <= u32_max)%N.

(** [WxH,X,Y], with the pane's ID or without. *)
Definition geometry (s : text) : Prop :=
  exists w h x y, numeral w /\ numeral h /\ numeral x /\ numeral y /\
    let g := w ++ txt "x" ++ h ++ txt "," ++ x ++ txt "," ++ y in
    s = g \/ exists id, numeral id /\ s = g ++ txt "," ++ id.

(** [Cell d s n]: [s] is a cell at depth [d] with [n] panes below it. *)
Inductive Cell : nat -> text -> nat -> Prop :=
  | cell_leaf d g : d <= 256 -> geometry g -> Cell d g 1
  | cell_row d g s n :
      d <= 256 -> geometry g -> Cells (S d) s n -> Cell d (g ++ txt "{" ++ s ++ txt "}") n
  | cell_column d g s n :
      d <= 256 -> geometry g -> Cells (S d) s n -> Cell d (g ++ txt "[" ++ s ++ txt "]") n
with Cells : nat -> text -> nat -> Prop :=
  | cells_one d s n : Cell d s n -> Cells d s n
  | cells_more d s n t m : Cell d s n -> Cells d t m -> Cells d (s ++ txt "," ++ t) (n + m).

Scheme Cell_ind' := Induction for Cell Sort Prop
  with Cells_ind' := Induction for Cells Sort Prop.
Combined Scheme Cell_Cells_ind from Cell_ind', Cells_ind'.

(** A saved layout: the checksum of the tree in hexadecimal, a comma, the tree. *)
Definition Saved (layout : text) (panes : nat) : Prop :=
  exists hex body n, layout = hex ++ txt "," ++ body /\ length hex = 4 /\
    hex_loop 0 hex = Some (checksum body) /\ Cell 0 body n /\ panes <= n.

Section grammar.
Import LayoutSyntax.

(** What may follow a numeral. *)
Definition not_digit (s : text) : Prop :=
  match s with [] => True | c :: _ => is_digit c = false end.

Lemma number_loop_span value s :
  (value <= u32_max)%N ->
  number_loop value s =
    let '(ds, r) := span is_digit s in
    if (digits_value value ds <=? u32_max)%N then Some (digits_value value ds, r) else None.
Proof.
  assert (9 <= u32_max)%N as Hmax by done. revert value. induction s as [|c s IH]; intros value Hv; cbn [number_loop span].
  { cbn. by rewrite (proj2 (N.leb_le _ _) Hv). }
  destruct (is_digit c) eqn:Hd; [|cbn; by rewrite (proj2 (N.leb_le _ _) Hv)].
  pose proof (digit_value_lt c Hd) as Hlt.
  pose proof (N.div_mod (u32_max - digit_value c) 10 ltac:(lia)) as Hdm.
  pose proof (N.mod_lt (u32_max - digit_value c) 10 ltac:(lia)).
  destruct (span is_digit s) as [ds r] eqn:Hs.
  change (digits_value value (c :: ds)) with (digits_value (value * 10 + digit_value c) ds).
  set (q := ((u32_max - digit_value c) / 10)%N) in *.
  set (m := ((u32_max - digit_value c) mod 10)%N) in *. clearbody q m.
  destruct (N.ltb_spec q value) as [Hov|Hok].
  - assert (u32_max < value * 10 + digit_value c)%N as Hbig by lia.
    pose proof (digits_value_ge (value * 10 + digit_value c) ds).
    by rewrite (proj2 (N.leb_gt _ _)) by lia.
  - assert (value * 10 + digit_value c <= u32_max)%N as Hsm by lia.
    rewrite N.mod_small by lia. by rewrite IH.
Qed.

Lemma number_complete w r : numeral w -> not_digit r -> number (w ++ r) = Some r.
Proof.
  intros (Hne & Hd & Hv) Hr. unfold number. rewrite number_loop_span by (unfold u32_max; lia).
  rewrite (span_app is_digit w r Hd Hr), (proj2 (N.leb_le _ _) Hv).
  rewrite length_app. destruct w; [done|]. by rewrite (proj2 (Nat.ltb_lt _ _)) by (cbn; lia).
Qed.

Lemma number_sound s r : number s = Some r -> exists w, numeral w /\ s = w ++ r /\ not_digit r.
Proof.
  unfold number. rewrite number_loop_span by (unfold u32_max; lia).
  destruct (span is_digit s) as [ds r'] eqn:Hs. apply span_spec in Hs as (-> & Hd & Hr).
  destruct (digits_value 0 ds <=? u32_max)%N eqn:Hv; [|done].
  destruct (length r' <? length (ds ++ r')) eqn:Hl; [|done]. intros [= <-]. to_props.
  exists ds. split; [|by split]. split; [|by split]. intros ->. cbn in Hl. lia.
Qed.

Lemma take_char_Some c s r : take_char c s = Some r <-> s = c :: r.
Proof. destruct s as [|d s]; cbn; [done|]. case_bool_decide; naive_solver. Qed.

(** What follows a cell: the end, its closing bracket, or the next cell, which
    does not read as a pane ID because its width is followed by [x]. *)
Definition follows (s : text) : Prop :=
  match s with
  | [] => True
  | c :: r => c = "]"%char \/ c = "}"%char \/
              (c = ","%char /\ match number r with
                               | Some r' => starts_with (txt "x") r' = true
                               | None => True
                               end)
  end.
Definition follows_head (s : text) : Prop :=
  follows s \/ exists r, s = "["%char :: r \/ s = "{"%char :: r.

Lemma follows_head_not_digit s : follows_head s -> not_digit s.
Proof.
  intros [H|[r [-> | ->]]]; [|done..]. destruct s as [|c s]; [done|]. cbn in *.
  by destruct H as [-> | [-> | [-> _]]].
Qed.

Lemma pane_id_complete_none r : follows_head r -> pane_id r = r.
Proof.
  unfold pane_id. destruct r as [|c r]; [done|]. cbn [take_char]. case_bool_decide as Hc; [|done].
  subst c. intros [H|[r' [[=]|[=]]]]. cbn in H. destruct H as [[=]|[[=]|[_ H]]].
  destruct (number r) as [r'|]; [|done]. by rewrite H.
Qed.

Lemma pane_id_complete_some id r :
  numeral id -> follows_head r -> pane_id (txt "," ++ id ++ r) = r.
Proof.
  intros Hid Hr. unfold pane_id. change (txt ",") with [","%char]. cbn [app take_char].
  rewrite bool_decide_true by done.
  rewrite number_complete; [|done|by apply follows_head_not_digit].
  destruct (starts_with (txt "x") r) eqn:E; [|done]. exfalso.
  apply starts_with_spec in E as [r' ->]. destruct Hr as [H|[r'' [[=]|[=]]]].
  cbn in H. destruct H as [[=]|[[=]|[[=] _]]].
Qed.

Lemma pane_id_sound s r :
  pane_id s = r -> s = r \/ exists id, numeral id /\ s = txt "," ++ id ++ r.
Proof.
  unfold pane_id. destruct (take_char ","%char s) as [s'|] eqn:Hc; [|by left].
  apply take_char_Some in Hc as ->. destruct (number s') as [r'|] eqn:Hn; [|by left].
  apply number_sound in Hn as (id & Hid & -> & _).
  destruct (starts_with _ _); intros <-; [by left | right; by exists id].
Qed.

Lemma cell_head_complete g r : geometry g -> follows_head r -> cell_head (g ++ r) = Some r.
Proof.
  intros (w & h & x & y & Hw & Hh & Hx & Hy & Hg) Hr. unfold cell_head.
  assert (exists tail, g ++ r = w ++ txt "x" ++ h ++ txt "," ++ x ++ txt "," ++ y ++ tail /\
            pane_id tail = r /\ not_digit tail) as (tail & -> & Hid & Ht).
  { destruct Hg as [-> | (id & Hid & ->)].
    - exists r. rewrite <-!app_assoc. split; [done|].
      split; [by apply pane_id_complete_none | by apply follows_head_not_digit].
    - exists (txt "," ++ id ++ r). rewrite <-!app_assoc. split; [done|].
      by rewrite pane_id_complete_some. }
  rewrite number_complete by done. cbn [mbind option_bind].
  change (txt "x") with ["x"%char]. change (txt ",") with [","%char]. cbn [app take_char].
  rewrite bool_decide_true by done. cbn [mbind option_bind].
  rewrite number_complete by done. cbn [mbind option_bind take_char].
  rewrite bool_decide_true by done. cbn [mbind option_bind].
  rewrite number_complete by done. cbn [mbind option_bind take_char].
  rewrite bool_decide_true by done. cbn [mbind option_bind].
  rewrite number_complete by done. cbn [mbind option_bind]. by rewrite Hid.
Qed.

Lemma cell_head_sound s r : cell_head s = Some r -> exists g, geometry g /\ s = g ++ r.
Proof.
  unfold cell_head. intros H.
  apply bind_Some in H as (s1 & (w & Hw & -> & _)%number_sound & H).
  apply bind_Some in H as (s2 & ->%take_char_Some & H).
  apply bind_Some in H as (s3 & (h & Hh & -> & _)%number_sound & H).
  apply bind_Some in H as (s4 & ->%take_char_Some & H).
  apply bind_Some in H as (s5 & (x & Hx & -> & _)%number_sound & H).
  apply bind_Some in H as (s6 & ->%take_char_Some & H).
  apply bind_Some in H as (s7 & (y & Hy & -> & _)%number_sound & H).
  injection H as H. apply pane_id_sound in H as [-> | (id & Hid & ->)].
  - exists (w ++ txt "x" ++ h ++ txt "," ++ x ++ txt "," ++ y).
    split; [exists w, h, x, y; naive_solver | by rewrite <-!app_assoc].
  - exists ((w ++ txt "x" ++ h ++ txt "," ++ x ++ txt "," ++ y) ++ txt "," ++ id).
    split; [exists w, h, x, y; naive_solver | by rewrite <-!app_assoc].
Qed.

Lemma geometry_length g : geometry g -> 7 <= length g.
Proof.
  intros (w & h & x & y & [Hw _] & [Hh _] & [Hx _] & [Hy _] & Hg).
  destruct w, h, x, y; try done.
  destruct Hg as [-> | (id & _ & ->)]; rewrite !length_app;
    change (length (txt "x")) with 1; change (length (txt ",")) with 1; cbn; lia.
Qed.

(** Every cell starts with its width and an [x]. *)
Lemma Cell_starts d s n : Cell d s n ->
  forall r, match number (s ++ r) with Some r' => starts_with (txt "x") r' = true | None => True end.
Proof.
  assert (forall g r, geometry g ->
    match number (g ++ r) with Some r' => starts_with (txt "x") r' = true | None => True end) as Hg.
  { intros g r (w & h & x & y & Hw & _ & _ & _ & Hg).
    assert (exists t, g ++ r = w ++ txt "x" ++ t) as [t ->].
    { destruct Hg as [-> | (id & _ & ->)]; rewrite <-!app_assoc; eauto. }
    rewrite number_complete by done. apply starts_with_app. }
  destruct 1; intros r; rewrite <-?app_assoc; by apply Hg.
Qed.

Lemma Cells_starts d s n : Cells d s n ->
  forall r, match number (s ++ r) with Some r' => starts_with (txt "x") r' = true | None => True end.
Proof.
  destruct 1; intros r; [by eapply Cell_starts|]. rewrite <-app_assoc. by eapply Cell_starts.
Qed.

Lemma opens_none s : follows s -> opens s = None.
Proof.
  destruct s as [|c s]; [done|]. cbn. intros [-> | [-> | [-> _]]]; done.
Qed.

(** The reader accepts every string of the grammar, and counts its panes; the
    fuel [2 * length + 1] is enough. *)
Lemma cell_complete_both :
  (forall d s n, Cell d s n -> forall fuel rest leaves,
     2 * length s < fuel -> follows rest -> cell fuel d (s ++ rest) leaves = Some (rest, leaves + n)) /\
  (forall d s n, Cells d s n -> forall d' fuel close rest leaves, d = S d' ->
     2 * length s + 1 < fuel -> close = "]"%char \/ close = "}"%char ->
     children fuel d' close (s ++ close :: rest) leaves = Some (rest, leaves + n)).
Proof.
  apply Cell_Cells_ind.
  - intros d g Hd Hg [|fuel] rest leaves Hf Hr; [lia|]. cbn [cell].
    rewrite (proj2 (Nat.ltb_ge _ _) Hd), cell_head_complete by (done || by left).
    cbn [mbind option_bind]. rewrite opens_none by done. by rewrite Nat.add_1_r.
  - intros d g s n Hd Hg _ IH [|fuel] rest leaves Hf Hr; [lia|]. cbn [cell].
    pose proof (geometry_length g Hg). rewrite !length_app in Hf.
    change (length (txt "{")) with 1 in Hf. change (length (txt "}")) with 1 in Hf.
    rewrite (proj2 (Nat.ltb_ge _ _) Hd), <-!app_assoc, cell_head_complete
      by (done || (right; eexists; by right)).
    change (txt "{") with ["{"%char]. change (txt "}") with ["}"%char].
    cbn [mbind option_bind app opens]. rewrite bool_decide_false, bool_decide_true by done.
    apply IH; [done | lia | by right].
  - intros d g s n Hd Hg _ IH [|fuel] rest leaves Hf Hr; [lia|]. cbn [cell].
    pose proof (geometry_length g Hg). rewrite !length_app in Hf.
    change (length (txt "[")) with 1 in Hf. change (length (txt "]")) with 1 in Hf.
    rewrite (proj2 (Nat.ltb_ge _ _) Hd), <-!app_assoc, cell_head_complete
      by (done || (right; eexists; by left)).
    change (txt "[") with ["["%char]. change (txt "]") with ["]"%char].
    cbn [mbind option_bind app opens]. rewrite bool_decide_true by done.
    apply IH; [done | lia | by left].
  - intros d s n Hs IH d' [|fuel] close rest leaves -> Hf Hc; [lia|].
    cbn [children]. rewrite IH; [|lia|cbn; naive_solver]. cbn [mbind option_bind take_char].
    rewrite bool_decide_false by naive_solver. by rewrite bool_decide_true.
  - intros d s n t m Hs IHs Ht IHt d' [|fuel] close rest leaves -> Hf Hc; [lia|].
    rewrite !length_app in Hf. change (length (txt ",")) with 1 in Hf.
    cbn [children]. rewrite <-!app_assoc. change (txt ",") with [","%char]. cbn [app].
    rewrite IHs; [|lia|].
    2:{ cbn. right; right. split; [done|]. by apply (Cells_starts (S d') t m). }
    cbn [mbind option_bind take_char]. rewrite bool_decide_true by done.
    rewrite IHt by (done || lia). by rewrite Nat.add_assoc.
Qed.

(** What the reader accepts is a string of the grammar. *)
Lemma cell_sound_both fuel :
  (forall d s leaves rest leaves', cell fuel d s leaves = Some (rest, leaves') ->
     exists t n, s = t ++ rest /\ Cell d t n /\ leaves' = leaves + n) /\
  (forall d close s leaves rest leaves', children fuel d close s leaves = Some (rest, leaves') ->
     exists t n, s = t ++ close :: rest /\ Cells (S d) t n /\ leaves' = leaves + n).
Proof.
  induction fuel as [|fuel [IHc IHk]]; [done|]. split.
  - intros d s leaves rest leaves' H. cbn [cell] in H.
    destruct (Nat.ltb_spec 256 d) as [|Hd]; [done|].
    apply bind_Some in H as (s' & (g & Hg & ->)%cell_head_sound & H).
    destruct (opens s') as [[close r]|] eqn:Ho.
    + apply IHk in H as (t & n & -> & Ht & ->).
      destruct s' as [|c s']; [done|]. cbn in Ho. split_cases.
      * exists (g ++ txt "[" ++ t ++ txt "]"), n. rewrite <-!app_assoc.
        split_and!; [done | by apply cell_column | done].
      * exists (g ++ txt "{" ++ t ++ txt "}"), n. rewrite <-!app_assoc.
        split_and!; [done | by apply cell_row | done].
    + injection H as [= <- <-]. exists g, 1. split_and!; [done | by apply cell_leaf | lia].
  - intros d close s leaves rest leaves' H. cbn [children] in H.
    apply bind_Some in H as ([s1 n1] & (t & n & -> & Ht & ->)%IHc & H).
    destruct (take_char ","%char s1) as [s2|] eqn:Hs1.
    + apply take_char_Some in Hs1 as ->. apply IHk in H as (t' & n' & -> & Ht' & ->).
      exists (t ++ txt "," ++ t'), (n + n'). rewrite <-!app_assoc.
      split_and!; [done | by apply cells_more | lia].
    + apply bind_Some in H as (s3 & ->%take_char_Some & [= <- <-]).
      exists t, n. split_and!; [done | by apply cells_one | done].
Qed.

Lemma cell_iff s n :
  cell (cell_fuel s) 0 s 0 = Some ([], n) <-> Cell 0 s n.
Proof.
  split.
  - intros H. apply cell_sound_both in H as (t & m & -> & Ht & ->). by rewrite app_nil_r.
  - intros H. destruct cell_complete_both as [Hc _].
    specialize (Hc 0 s n H (cell_fuel s) [] 0 ltac:(unfold cell_fuel; lia) I).
    by rewrite app_nil_r in Hc.
Qed.
End grammar.

(** * The JSON reader: steps and fuel *)

Section json.
Import JsonLayoutSyntax.

Lemma J_bind_Some {A B} (m : J A) (k : A -> J B) st b st' :
  (m ≫= k) st = (Some b, st') -> exists a st1, m st = (Some a, st1) /\ k a st1 = (Some b, st').
Proof.
  unfold mbind, J_bind. destruct (m st) as [[a|] st1]; [by eauto | done].
Qed.

Lemma J_bind_ext {A B} (m m' : J A) (k k' : A -> J B) st :
  m st = m' st ->
  (forall a st', m st = (Some a, st') -> k a st' = k' a st') ->
  (m ≫= k) st = (m' ≫= k') st.
Proof.
  intros Hm Hk. unfold mbind, J_bind. rewrite <-Hm. destruct (m st) as [[a|] st1]; [by apply Hk | done].
Qed.

(** A reader whose successful runs move along [R]. *)
Definition steps (R : JState -> JState -> Prop) {A} (m : J A) : Prop :=
  forall st a st', m st = (Some a, st') -> R st st'.

Definition shorter (st st' : JState) : Prop := length (j_rest st') <= length (j_rest st).
#[local] Instance shorter_preorder : PreOrder shorter.
Proof. split; [intros st | intros st1 st2 st3]; unfold shorter; lia. Qed.

Lemma span_rest_length p s : length (span p s).2 <= length s.
Proof.
  destruct (span p s) as [a r] eqn:E. apply span_spec in E as (-> & _ & _).
  rewrite length_app. cbn. lia.
Qed.

Lemma string_loop_length acc s result r :
  string_loop acc s = Some (result, r) -> length r < length s.
Proof.
  revert acc. induction s as [s IH] using text_length_ind. intros acc H.
  destruct s as [|c s]; cbn [string_loop] in H; [done|].
  case_bool_decide; [by simplify_eq/=; lia|]. destruct (byte_of c <? 32)%N; [done|].
  case_bool_decide as Hb; cbn [negb] in H.
  - destruct s as [|e s]; [done|]. case_bool_decide.
    + destruct s as [|h1 [|h2 [|h3 [|h4 s]]]]; try done. destruct (_ && _); [|done].
      apply IH in H; cbn [length] in *; lia.
    + case_bool_decide; [|done]. apply IH in H; cbn [length] in *; lia.
  - apply IH in H; cbn [length] in *; lia.
Qed.

Lemma take_j_true c st st' : take_j c st = (Some true, st') -> length (j_rest st') < length (j_rest st).
Proof.
  unfold take_j. intros (? & st1 & [= _ <-] & H)%J_bind_Some. unfold take_here in H.
  pose proof (span_rest_length json_space (j_rest st)).
  destruct (LayoutSyntax.take_char c _) as [r|] eqn:E; [|done]. injection H as <-.
  apply take_char_Some in E. cbn [j_rest set_rest] in *. rewrite E in H0. cbn in *. lia.
Qed.

Lemma expect_consumes c st a st' : expect c st = (Some a, st') -> length (j_rest st') < length (j_rest st).
Proof.
  unfold expect. intros ([] & st1 & H & E)%J_bind_Some; [|done]. injection E as _ <-.
  by eapply take_j_true.
Qed.

Lemma string_consumes st s st' : string_j st = (Some s, st') -> length (j_rest st') < length (j_rest st).
Proof.
  unfold string_j. intros (? & st1 & H%expect_consumes & E)%J_bind_Some.
  unfold string_rest in E. destruct (string_loop [] (j_rest st1)) as [[result r]|] eqn:Hl; [|done].
  case_bool_decide; [done|]. injection E as _ <-. apply string_loop_length in Hl. cbn. lia.
Qed.

(** Moving along [R]: reading input, and the bookkeeping of a cell. *)
Section steps.
Context (R : JState -> JState -> Prop) `{!PreOrder R}.
Hypothesis R_rest : forall st s, length s <= length (j_rest st) -> R st (set_rest s st).
Hypothesis R_cell : forall fields, steps R (cell_j fields).

Lemma steps_bind {A B} (m : J A) (k : A -> J B) :
  steps R m -> (forall a, steps R (k a)) -> steps R (m ≫= k).
Proof. intros Hm Hk st b st' (a & st1 & H1 & H2)%J_bind_Some. etrans; [by eapply Hm | by eapply Hk]. Qed.
Lemma steps_ret {A} (a : A) : steps R (mret a).
Proof. intros st b st' [= _ <-]. done. Qed.
Lemma steps_none {A} : steps R (j_none : J A).
Proof. by intros st b st'. Qed.
Lemma steps_guard b : steps R (guard_j b).
Proof. destruct b; [apply steps_ret | apply steps_none]. Qed.
Lemma steps_check b reason : steps R (check b reason).
Proof. destruct b; [apply steps_ret | by intros st b st']. Qed.
Lemma steps_peek : steps R peek.
Proof. intros st b st' [= _ <-]. done. Qed.

Lemma steps_space : steps R space.
Proof. intros st a st' [= _ <-]. apply R_rest, span_rest_length. Qed.

Lemma steps_take c : steps R (take_j c).
Proof.
  apply steps_bind; [apply steps_space|]. intros _ st a st' H. unfold take_here in H.
  destruct (LayoutSyntax.take_char c (j_rest st)) as [r|] eqn:E; injection H as _ <-; [|done].
  apply R_rest. apply take_char_Some in E as ->. cbn. lia.
Qed.

Lemma steps_expect c : steps R (expect c).
Proof. apply steps_bind; [apply steps_take | intros; apply steps_guard]. Qed.

Lemma steps_string : steps R string_j.
Proof.
  apply steps_bind; [apply steps_expect|]. intros _ st a st' H. unfold string_rest in H.
  destruct (string_loop [] (j_rest st)) as [[result r]|] eqn:Hl; [|done].
  case_bool_decide; [done|]. injection H as _ <-. apply R_rest.
  apply string_loop_length in Hl. lia.
Qed.

Lemma steps_scalar : steps R scalar.
Proof.
  intros st a st' H. unfold scalar in H.
  destruct (starts_with (txt "true") _); [injection H as _ <-; apply R_rest; rewrite length_drop; lia|].
  destruct (starts_with (txt "false") _); [injection H as _ <-; apply R_rest; rewrite length_drop; lia|].
  unfold number_j in H.
  destruct (span is_digit _) as [ds r] eqn:Hs. destruct (_ || _); [done|].
  destruct (from_chars_i64 _ _); [|done]. injection H as _ <-. apply R_rest.
  apply span_spec in Hs as (Heq & _ & _). apply (f_equal length) in Heq. rewrite length_app in Heq.
  destruct (starts_with _ _); rewrite ?length_drop in Heq; lia.
Qed.

Lemma steps_finish role fields : steps R (finish_object role fields).
Proof. destruct role; [apply steps_check | apply R_cell | apply steps_ret]. Qed.

Ltac steps :=
  repeat first
    [ apply steps_ret | apply steps_none | apply steps_guard | apply steps_space | apply steps_take
    | apply steps_expect | apply steps_string | apply steps_scalar | apply steps_finish
    | apply steps_peek | solve [auto]
    | apply steps_bind; [|intros ?]
    | case_bool_decide | match goal with |- steps _ (if ?b then _ else _) => destruct b end
    | match goal with |- steps _ (match ?o with _ => _ end) => destruct o end ].

Lemma steps_reader fuel :
  (forall role depth, steps R (object fuel role depth)) /\
  (forall role depth fields, steps R (fields_loop fuel role depth fields)) /\
  (forall role depth, steps R (value_j fuel role depth)) /\
  (forall role depth count, steps R (elements_loop fuel role depth count)).
Proof.
  induction fuel as [|fuel (IHo & IHf & IHv & IHe)].
  { split_and!; intros; apply steps_none. }
  split_and!; intros; cbn [object fields_loop value_j elements_loop]; steps.
Qed.
End steps.

#[local] Hint Extern 0 (PreOrder shorter) => exact shorter_preorder : typeclass_instances.

Lemma pane_fields_inv fields st st' a :
  pane_fields fields st = (Some a, st') ->
  exists (i : Z) (active : nat) (floating last : gset Z),
    (0 <= i <= i32_max)%Z /\ i ∉ j_indexes st /\
    (active = j_active st \/ (active = S (j_active st) /\ active <= 1)) /\
    (floating = j_floating st \/
     exists z, (0 <= z < i32_max)%Z /\ z ∉ j_floating st /\ floating = {[z]} ∪ j_floating st) /\
    st' = MkJState (j_rest st) (S (j_leaves st)) active ({[i]} ∪ j_indexes st) floating last (j_error st).
Proof.
  assert (forall v low high reason st a st', check (range v low high) reason st = (Some a, st') ->
            st' = st /\ (low <= v_number v <= high)%Z) as Hrange.
  { intros v low high reason s b s'. unfold check. destruct (range v low high) eqn:E; [|done].
    intros [= _ <-]. unfold range in E. to_props. split; [done|].
    split; by apply Z.leb_le. }
  unfold pane_fields. intros H.
  apply J_bind_Some in H as (? & st1 & [-> Hi]%Hrange & H).
  apply J_bind_Some in H as (? & st2 & Hins & H). unfold insert_index, fail in Hins.
  destruct (bool_decide (_ ∈ j_indexes st)) eqn:Hfresh; [done|].
  apply bool_decide_eq_false in Hfresh. injection Hins as _ <-.
  apply J_bind_Some in H as (? & st3 & Hsel & H). apply J_bind_Some in H as (? & st4 & Hz & H).
  injection H as _ <-.
  assert (exists (active : nat) (last : gset Z), (active = j_active st \/ (active = S (j_active st) /\ active <= 1)) /\
    st3 = MkJState (j_rest st) (j_leaves st) active ({[v_number (field fields (txt "i"))]} ∪ j_indexes st)
            (j_floating st) last (j_error st)) as (active & last & Hact & ->).
  { clear Hz. case_bool_decide; cbn [negb] in Hsel.
    - case_bool_decide; cbn [negb] in Hsel.
      + injection Hsel as _ <-. by exists (j_active st), (j_last st); split; [left|].
      + apply J_bind_Some in Hsel as (? & st5 & [-> _]%Hrange & Hl). unfold insert_last, fail in Hl.
        case_bool_decide; [done|]. injection Hl as _ <-.
        eexists _, _; split; [by left | done].
    - apply J_bind_Some in Hsel as (? & st5 & Hc & Hsel). unfold check, fail in Hc.
      case_bool_decide; [|done]. injection Hc as _ <-.
      destruct (v_boolean _); [|injection Hsel as _ <-; eexists _, _; split; [by left | done]].
      apply J_bind_Some in Hsel as (active & st6 & Ha & Hsel). unfold check, fail in Hsel.
      destruct (1 <? active)%nat eqn:E; cbn [negb] in Hsel; [done|]. injection Hsel as _ <-.
      injection Ha as <- <-. to_props. cbn in E. eexists _, _; split; [by right | done]. }
  clear Hsel. exists (v_number (field fields (txt "i"))), active.
  case_bool_decide; cbn [negb] in Hz.
  - injection Hz as _ <-. exists (j_floating st), last. cbn. auto 10.
  - apply J_bind_Some in Hz as (? & st5 & [-> Hzr]%Hrange & Hl). unfold insert_floating, fail in Hl.
    case_bool_decide as Hf; [done|]. injection Hl as _ <-.
    eexists _, last. cbn. split_and!; [lia | lia | done | done | right | done].
    eexists. split; [|split; [exact Hf | done]]. lia.
Qed.

Lemma cell_j_inv fields st a st' :
  cell_j fields st = (Some a, st') -> st' = st \/ exists b, pane_fields fields st = (Some b, st').
Proof.
  unfold cell_j. intros H.
  assert (forall b reason st a st', check b reason st = (Some a, st') -> st' = st) as Hc.
  { intros b reason s c s'. by destruct b; intros [= _ <-]. }
  apply J_bind_Some in H as (? & st1 & ->%Hc & H). apply J_bind_Some in H as (? & st2 & ->%Hc & H).
  destruct (negb _); [left; by apply Hc in H|].
  apply J_bind_Some in H as (? & st3 & ->%Hc & H). right. by exists a.
Qed.

Lemma steps_cell_shorter fields : steps shorter (cell_j fields).
Proof.
  intros st a st' [-> | (b & (i & act & fl & la & _ & _ & _ & _ & ->)%pane_fields_inv)]%cell_j_inv;
    unfold shorter; cbn; lia.
Qed.

Lemma reader_shorter fuel :
  (forall role depth, steps shorter (object fuel role depth)) /\
  (forall role depth fields, steps shorter (fields_loop fuel role depth fields)) /\
  (forall role depth, steps shorter (value_j fuel role depth)) /\
  (forall role depth count, steps shorter (elements_loop fuel role depth count)).
Proof. apply (steps_reader shorter); [by intros st s | apply steps_cell_shorter]. Qed.

(** More fuel than twice the input and two changes nothing. *)
Lemma reader_fuel fuel : forall fuel' st,
  (forall role depth, 2 * length (j_rest st) + 1 <= fuel -> 2 * length (j_rest st) + 1 <= fuel' ->
     object fuel role depth st = object fuel' role depth st) /\
  (forall role depth fields, 2 * length (j_rest st) + 2 <= fuel -> 2 * length (j_rest st) + 2 <= fuel' ->
     fields_loop fuel role depth fields st = fields_loop fuel' role depth fields st) /\
  (forall role depth, 2 * length (j_rest st) + 2 <= fuel -> 2 * length (j_rest st) + 2 <= fuel' ->
     value_j fuel role depth st = value_j fuel' role depth st) /\
  (forall role depth count, 2 * length (j_rest st) + 2 <= fuel -> 2 * length (j_rest st) + 2 <= fuel' ->
     elements_loop fuel role depth count st = elements_loop fuel' role depth count st).
Proof.
  induction fuel as [|fuel IH]; [intros; split_and!; intros; lia|].
  intros [|fuel'] st; [split_and!; intros; lia|]. specialize (IH fuel').
  assert (forall st s, length s <= length (j_rest st) -> shorter st (set_rest s st)) as HR by done.
  split_and!; intros; cbn [object fields_loop value_j elements_loop].
  - apply J_bind_ext; [done|]. intros _ st1 H1%(steps_guard shorter).
    apply J_bind_ext; [done|]. intros _ st2 H2%expect_consumes.
    apply J_bind_ext; [done|]. intros [] st3 H3%(steps_take shorter HR); [done|].
    unfold shorter in *. apply J_bind_ext; [|done].
    apply J_bind_ext; [|done]. apply IH; lia.
  - apply J_bind_ext; [done|]. intros key st1 H1%string_consumes.
    apply J_bind_ext; [done|]. intros _ st2 H2%(steps_guard shorter).
    apply J_bind_ext; [done|]. intros _ st3 H3%expect_consumes. unfold shorter in *.
    apply J_bind_ext; [apply IH; lia|]. intros v st4 H4.
    apply (proj1 (proj2 (proj2 (reader_shorter _)))) in H4.
    apply J_bind_ext; [done|]. intros [] st5 H5; [|done].
    apply (steps_take shorter HR) in H5. unfold shorter in *. apply IH; lia.
  - apply J_bind_ext; [done|]. intros _ st1 H1%(steps_space shorter HR).
    apply J_bind_ext; [done|]. intros [c|] st2 H2; [|done].
    injection H2 as Hc Hst; subst st2. unfold shorter in *. case_bool_decide.
    + apply J_bind_ext; [|done]. apply IH; lia.
    + apply J_bind_ext; [done|]. intros [] st3 H3; [|done]. apply take_j_true in H3.
      apply J_bind_ext; [done|]. intros [] st4 H4; [done|].
      apply (steps_take shorter HR) in H4. unfold shorter in *.
      apply J_bind_ext; [|done]. apply IH; lia.
  - apply J_bind_ext; [apply IH; lia|]. intros ? st1 H1.
    apply (proj1 (reader_shorter _)) in H1. apply J_bind_ext; [done|]. intros [] st2 H2; [|done].
    apply take_j_true in H2. unfold shorter in *. apply IH; lia.
Qed.

(** What the leaves accepted so far have in common. *)
Definition leaf_rules (st : JState) : Prop :=
  size (j_indexes st) = j_leaves st /\ j_active st <= 1 /\
  (forall i, i ∈ j_indexes st -> (0 <= i <= i32_max)%Z) /\
  (forall z, z ∈ j_floating st -> (0 <= z < i32_max)%Z) /\
  size (j_floating st) <= j_leaves st.
Definition keeps_rules (st st' : JState) : Prop := leaf_rules st -> leaf_rules st'.
#[local] Instance keeps_rules_preorder : PreOrder keeps_rules.
Proof. split; [intros st | intros st1 st2 st3]; unfold keeps_rules; auto. Qed.

Lemma steps_cell_rules fields : steps keeps_rules (cell_j fields).
Proof.
  intros st a st' [-> | (b & H%pane_fields_inv)]%cell_j_inv; [done|].
  destruct H as (i & act & fl & la & Hi & Hfresh & Hact & Hfl & ->).
  intros (Hsize & Ha & Hidx & Hflo & Hfs). unfold leaf_rules. cbn.
  rewrite size_union, size_singleton by set_solver. split_and!.
  - lia.
  - destruct Hact as [-> | [-> ?]]; lia.
  - intros j [->%elem_of_singleton|Hj]%elem_of_union; auto.
  - destruct Hfl as [-> | (z & Hz & Hzf & ->)]; [done|].
    intros j [->%elem_of_singleton|Hj]%elem_of_union; auto.
  - destruct Hfl as [-> | (z & Hz & Hzf & ->)]; [lia|].
    rewrite size_union, size_singleton by set_solver. lia.
Qed.

Lemma object_rules fuel role depth : steps keeps_rules (object fuel role depth).
Proof. apply (steps_reader keeps_rules); [by intros st s _ H | apply steps_cell_rules]. Qed.
End json.

(** The JSON layout reader terminates: twice the layout and two is enough fuel,
    and any larger amount gives the same verdict, the same counts and the same
    error. *)
Theorem json_parse_terminates fuel layout :
  JsonLayoutSyntax.json_fuel layout <= fuel ->
  JsonLayoutSyntax.parse fuel layout =
  JsonLayoutSyntax.parse (JsonLayoutSyntax.json_fuel layout) layout.
Proof.
  intros Hf. unfold JsonLayoutSyntax.parse, JsonLayoutSyntax.json_fuel in *.
  set (st := JsonLayoutSyntax.set_rest _ _).
  assert (length (JsonLayoutSyntax.j_rest st) <= length layout) as Hle
    by apply span_rest_length.
  rewrite (proj1 (reader_fuel fuel (2 * length layout + 2) st) JsonLayoutSyntax.root 1) by lia.
  done.
Qed.

(** A JSON layout the reader accepts keeps tmux's rules: at least one pane, as
    many distinct pane indexes as panes, all nonnegative 32-bit values, at most one
    active pane, and distinct floating indexes below the largest 32-bit value. *)
Theorem json_layout_rules layout st :
  JsonLayoutSyntax.parse (JsonLayoutSyntax.json_fuel layout) layout = (true, st) ->
  0 < JsonLayoutSyntax.j_leaves st /\ leaf_rules st.
Proof.
  unfold JsonLayoutSyntax.parse. set (st0 := JsonLayoutSyntax.set_rest _ _).
  destruct (JsonLayoutSyntax.object _ _ _ st0) as [[u|] st1] eqn:H; [|done].
  intros E. injection E as E <-. to_props. split; [cbn in *; lia|].
  apply object_rules in H. apply H. unfold leaf_rules. cbn. split_and!; [done | lia | set_solver | set_solver | done].
Qed.

(** * What a layout check accepts *)

(** A preset: a name, or a prefix of exactly one. *)
Definition Preset (mirrored : bool) (l : text) : Prop :=
  l ∈ known_names mirrored \/
  length (filter (fun n => starts_with l n = true) (known_names mirrored)) = 1.

Lemma named_loop_spec l ns matches :
  named_loop l ns matches = true <->
  l ∈ ns \/ matches + length (filter (fun n => starts_with l n = true) ns) = 1.
Proof.
  revert matches. induction ns as [|n ns IH]; intros matches; cbn [named_loop].
  { rewrite Nat.eqb_eq, elem_of_nil. cbn. rewrite Nat.add_0_r. tauto. }
  rewrite elem_of_cons. case_bool_decide as Hn; [tauto|]. rewrite IH.
  destruct (starts_with l n) eqn:Hs.
  - rewrite filter_cons_True by done. cbn [length].
    replace (S matches + length (filter (fun n => starts_with l n = true) ns))
      with (matches + S (length (filter (fun n => starts_with l n = true) ns))) by lia. tauto.
  - rewrite filter_cons_False by congruence. tauto.
Qed.

Lemma named_layout_spec l mirrored : named_layout l mirrored = true <-> Preset mirrored l.
Proof. unfold named_layout. by rewrite named_loop_spec. Qed.

(** A preset is spelt with letters and dashes. *)
Lemma Preset_no_comma l mirrored : Preset mirrored l -> ","%char ∉ l.
Proof.
  assert (forall n, n ∈ names -> ","%char ∉ n) as Hn.
  { intros n Hin%list_elem_of_In Hc%list_elem_of_In.
    assert (forallb (fun n => forallb (fun c => negb (bool_decide (c = ","%char))) n) names = true)
      as H by (by vm_compute).
    rewrite forallb_forall in H. specialize (H n Hin). rewrite forallb_forall in H.
    specialize (H _ Hc). by rewrite bool_decide_true in H. }
  assert (forall n, n ∈ known_names mirrored -> n ∈ names) as Hk.
  { intros n. unfold known_names. intros (i & Hi)%list_elem_of_lookup.
    apply lookup_take_Some in Hi as [Hi _]. by eapply list_elem_of_lookup_2. }
  intros [Hl|H1] Hc; [by eapply Hn; [apply Hk|]|].
  destruct (filter _ (known_names mirrored)) as [|n ns] eqn:E; [done|].
  assert (n ∈ n :: ns) as Hin by left. rewrite <-E in Hin.
  apply list_elem_of_filter in Hin as [[r ->]%starts_with_spec Hin].
  apply (Hn _ (Hk _ Hin)). apply elem_of_app. by left.
Qed.

Lemma hex_digit_plain c v : hex_digit c = Some v -> layout_space c = false /\ c <> "{"%char.
Proof. destruct c as [[] [] [] [] [] [] [] []]; vm_compute; naive_solver. Qed.

Lemma Saved_not_json l panes : Saved l panes -> json_layout l = false.
Proof.
  intros (hex & body & n & -> & Hlen & Hhex & _). destruct hex as [|c hex]; [done|].
  cbn [hex_loop] in Hhex. destruct (hex_digit c) as [v|] eqn:Hc; [|done].
  apply hex_digit_plain in Hc as [Hs Hne]. unfold json_layout, skip_layout_space.
  cbn [app span]. rewrite Hs. cbn [snd]. change (txt "{") with ["{"%char]. cbn.
  unfold starts_with. rewrite bool_decide_false by congruence. done.
Qed.

Lemma Cell_length d s n : Cell d s n -> 7 <= length s.
Proof.
  destruct 1; [by apply geometry_length|..];
    match goal with H : geometry _ |- _ => apply geometry_length in H end;
    rewrite !length_app; lia.
Qed.

Lemma Saved_shape l panes : Saved l panes -> 6 <= length l /\ l !! 4 = Some ","%char.
Proof.
  intros (hex & body & n & -> & Hlen & _ & Hc & _). apply Cell_length in Hc. split.
  - rewrite !length_app. change (length (txt ",")) with 1. lia.
  - rewrite lookup_app_r by lia. by rewrite Hlen.
Qed.

Lemma Saved_not_preset l panes mirrored : Saved l panes -> ~ Preset mirrored l.
Proof.
  intros Hs Hp. apply Preset_no_comma in Hp. apply Hp.
  apply Saved_shape in Hs as [_ H]. by eapply list_elem_of_lookup_2.
Qed.

Lemma saved_error_spec l panes :
  6 <= length l -> l !! 4 = Some ","%char -> saved_error l panes = None <-> Saved l panes.
Proof.
  intros Hlen H4. pose proof (take_drop_middle l 4 ","%char H4) as Hl. unfold saved_error. split.
  - intros H. destruct (hex_loop 0 (take 4 l)) as [v|] eqn:Hv; [|done].
    destruct (N.eqb_spec (checksum (drop 5 l)) v) as [Hsum|]; [|done]. cbn [negb] in H.
    destruct (LayoutSyntax.cell _ _ _ _) as [[rest n]|] eqn:Hc; [|done].
    destruct rest; [|done]. destruct (n <? panes)%nat eqn:Hn; [done|]. to_props.
    apply cell_iff in Hc. exists (take 4 l), (drop 5 l), n. split_and!; try done.
    + rewrite length_take. lia.
    + by rewrite Hsum.
  - intros (hex & body & n & -> & Hhl & Hhex & Hc & Hn).
    rewrite take_app_le, (take_ge hex) by lia. rewrite Hhex.
    replace (drop 5 (hex ++ txt "," ++ body)) with body.
    2:{ rewrite app_assoc. symmetry. apply drop_app_length'. by rewrite length_app, Hhl. }
    rewrite N.eqb_refl. cbn [negb]. apply cell_iff in Hc. rewrite Hc.
    by rewrite (proj2 (Nat.ltb_ge _ _) Hn).
Qed.

(** A layout is accepted exactly when it is one of the three things tmux takes:
    a preset of some release (a name, or a prefix of exactly one), a JSON layout
    the reader accepts with enough panes, or a saved layout, four hexadecimal
    digits that are the checksum of a tree of the cell grammar with enough panes.
    Nothing else is, and no string of the grammar is refused. *)
Theorem layout_accepted l panes :
  layout_error l panes None = None <->
  (l <> [] /\ json_layout l = false /\ (Preset false l \/ Preset true l)) \/
  (exists st, json_layout l = true /\
     JsonLayoutSyntax.parse (JsonLayoutSyntax.json_fuel l) l = (true, st) /\
     panes <= JsonLayoutSyntax.j_leaves st) \/
  Saved l panes.
Proof.
  unfold layout_error. case_bool_decide as Hl.
  { subst l. split; [done|]. intros [[? _]|[(st & Hj & _)|H%Saved_shape]]; [done..|].
    cbn in H. lia. }
  destruct (json_layout l) eqn:Hj.
  - unfold json_error. split.
    + intros H. right; left. destruct (JsonLayoutSyntax.parse _ l) as [[] st]; [|done].
      cbn [negb] in H. destruct (_ <? _)%nat eqn:E; [done|]. to_props. by exists st.
    + intros [(_ & H & _)|[(st & _ & -> & Hp)|H%Saved_not_json]]; [done| |congruence].
      cbn [negb]. by rewrite (proj2 (Nat.ltb_ge _ _) Hp).
  - destruct (named_layout l false || named_layout l true) eqn:Hn.
    { split; [|done]. intros _. left. rewrite orb_true_iff, !named_layout_spec in Hn. done. }
    apply orb_false_iff in Hn as [Hf Ht].
    assert (~ (Preset false l \/ Preset true l)) as Hnp
      by (rewrite <-!named_layout_spec, Hf, Ht; naive_solver).
    destruct ((length l <? 6)%nat || negb (bool_decide (l !! 4 = Some ","%char))) eqn:Hshape.
    + split; [done|]. intros [(_ & _ & H)|[(st & H & _)|[H6 H4]%Saved_shape]]; [done..|].
      rewrite bool_decide_true in Hshape by done.
      by rewrite (proj2 (Nat.ltb_ge _ _) H6) in Hshape.
    + to_props. rewrite saved_error_spec by done. split; [auto|].
      by intros [(_ & _ & Hx)|[(st & Hx & _)|Hx]].
Qed.

(** * Batches of layouts *)

(** The layout means something to a daemon of this release. *)
Definition runs_on (v : Version) (r : LayoutRequest) : Prop :=
  layout_error (layout r) (minimum_panes r) (Some (version_geb v (since layout_mirrored_main))) = None /\
  (json_layout (layout r) = true -> version_ltb v (since layout_json) = false).

Lemma layout_error_known l panes m :
  layout_error l panes (Some m) = None -> layout_error l panes None = None.
Proof.
  unfold layout_error. case_bool_decide; [done|]. destruct (json_layout l); [done|].
  destruct (named_layout l m) eqn:Hm.
  - intros _. by destruct m; rewrite Hm, ?orb_true_r.
  - destruct (_ || _)%bool eqn:E1; [done|]. by destruct (named_layout l false || _).
Qed.

Lemma layout_error_insensitive l panes m :
  layout_needs_version l = false -> layout_error l panes None = None ->
  layout_error l panes (Some m) = None.
Proof.
  unfold layout_needs_version. intros [Hj He]%orb_false_iff. apply negb_false_iff, eqb_prop in He.
  unfold layout_error. case_bool_decide; [done|]. rewrite Hj.
  replace (named_layout l m) with (named_layout l false || named_layout l true)
    by (destruct m; rewrite ?He, ?orb_diag; rewrite <-?He, ?orb_diag; done).
  destruct (named_layout l false || named_layout l true); [done|].
  by destruct (_ || _).
Qed.

Lemma version_refusal_spec v r :
  validate_layout (layout r) (minimum_panes r) = None ->
  version_refusal v r = None <-> runs_on v r.
Proof.
  unfold validate_layout. intros Hs%fmap_None. unfold version_refusal, runs_on.
  destruct (json_layout (layout r)) eqn:Hj; cbn [andb].
  - destruct (version_ltb v (since layout_json)); [naive_solver|].
    unfold layout_needs_version. rewrite Hj. cbn [orb]. rewrite fmap_None. tauto.
  - destruct (layout_needs_version (layout r)) eqn:Hn; [rewrite fmap_None; naive_solver|].
    split; [|done]. intros _. split; [by apply layout_error_insensitive | done].
Qed.

Lemma runs_on_static v r : runs_on v r -> validate_layout (layout r) (minimum_panes r) = None.
Proof. intros [H _]. unfold validate_layout. by rewrite (layout_error_known _ _ _ H). Qed.

Lemma insensitive_runs_on v r :
  validate_layout (layout r) (minimum_panes r) = None -> layout_needs_version (layout r) = false ->
  runs_on v r.
Proof.
  unfold validate_layout. intros H%fmap_None Hn. split; [by apply layout_error_insensitive|].
  intros Hj. unfold layout_needs_version in Hn. by rewrite Hj in Hn.
Qed.

Lemma static_pass_spec i sensitive reqs :
  match static_pass i sensitive reqs with
  | Unexpected f => exists k r, index f = i + k /\ reqs !! k = Some r /\
      validate_layout (layout r) (minimum_panes r) = Some (cause f)
  | Value out => Forall (fun r => validate_layout (layout r) (minimum_panes r) = None) reqs /\
      (out = None <-> sensitive = None /\ Forall (fun r => layout_needs_version (layout r) = false) reqs)
  end.
Proof.
  revert i sensitive. induction reqs as [|r reqs IH]; intros i sensitive; cbn [static_pass].
  { split; [done|]. naive_solver. }
  destruct (validate_layout _ _) as [failure|] eqn:Hr.
  { exists 0, r. cbn. split_and!; [lia | done | done]. }
  specialize (IH (S i) (match sensitive with
                        | Some _ => sensitive
                        | None => if layout_needs_version (layout r) then Some i else None
                        end)).
  destruct (static_pass _ _ _) as [out|f].
  - destruct IH as [Hall Hout]. split; [by constructor|]. rewrite Hout, Forall_cons.
    destruct sensitive; [naive_solver|]. destruct (layout_needs_version _); naive_solver.
  - destruct IH as (k & r' & Hi & Hk & Hf). exists (S k), r'. split_and!; [lia | done | done].
Qed.

Lemma version_pass_spec i v reqs :
  match version_pass i v reqs with
  | Value _ => Forall (fun r => version_refusal v r = None) reqs
  | Unexpected f => exists k r, index f = i + k /\ reqs !! k = Some r /\
      version_refusal v r = Some (cause f)
  end.
Proof.
  revert i. induction reqs as [|r reqs IH]; intros i; cbn [version_pass]; [done|].
  destruct (version_refusal v r) as [f|] eqn:Hr.
  { exists 0, r. cbn. split_and!; [lia | done | done]. }
  specialize (IH (S i)). destruct (version_pass _ _ _) as [[]|f]; [by constructor|].
  destruct IH as (k & r' & Hi & Hk & Hf). exists (S k), r'. split_and!; [lia | done | done].
Qed.

(** A batch of layouts passes exactly when the running daemon knows every one of
    them.  The daemon is asked for its release only when some layout's meaning
    depends on it, a failed answer is reported and not taken for a release, and a
    refusal names a layout of the batch that the daemon does not know. *)
Theorem validate_layouts_safe v reqs :
  ((validate_layouts (Value v) reqs).1 = Value tt <-> Forall (runs_on v) reqs) /\
  (forall answer, (validate_layouts answer reqs).2 = false ->
     (validate_layouts answer reqs).1 = (validate_layouts (Value v) reqs).1) /\
  (forall e, (validate_layouts (Unexpected e) reqs).2 = true ->
     exists k, (validate_layouts (Unexpected e) reqs).1 = Unexpected (MkLayoutFailure k e)) /\
  (forall f, (validate_layouts (Value v) reqs).1 = Unexpected f ->
     exists r, reqs !! index f = Some r /\ ~ runs_on v r).
Proof.
  pose proof (static_pass_spec 0 None reqs) as Hs. unfold validate_layouts.
  destruct (static_pass 0 None reqs) as [[k|]|f]; cbn [fst snd].
  - destruct Hs as [Hall _]. pose proof (version_pass_spec 0 v reqs) as Hv.
    assert (forall r, r ∈ reqs -> version_refusal v r = None <-> runs_on v r) as Hr.
    { intros r Hin. apply version_refusal_spec. by eapply Forall_forall in Hall. }
    split_and!; [|done| |].
    + destruct (version_pass 0 v reqs) as [[]|f].
      * rewrite Forall_forall in Hv. split; [|done]. intros _.
        apply Forall_forall. intros r Hin. by apply Hr, Hv.
      * destruct Hv as (i & r & _ & Hi & Hf). split; [done|]. rewrite Forall_forall. intros H.
        apply list_elem_of_lookup_2 in Hi. by rewrite (proj2 (Hr r Hi) (H r Hi)) in Hf.
    + intros e _. by exists k.
    + intros f Hf. rewrite Hf in Hv. destruct Hv as (i & r & -> & Hi & Hfr). exists r.
      split; [done|]. apply list_elem_of_lookup_2 in Hi. rewrite <-Hr by done. congruence.
  - destruct Hs as [Hall Hout]. destruct (proj1 Hout eq_refl) as [_ Hn].
    split_and!; [|done..]. split; [|done]. intros _. rewrite Forall_forall in *. intros r Hin.
    apply insensitive_runs_on; auto.
  - destruct Hs as (k & r & Hi & Hk & Hf).
    assert (~ runs_on v r) as Hnot by (intros H%runs_on_static; congruence).
    split_and!; [|done..|].
    + split; [done|]. rewrite Forall_forall. intros H. exfalso. apply Hnot, H.
      by eapply list_elem_of_lookup_2.
    + intros f' [= <-]. exists r. by rewrite Hi.
Qed.

(** * Instances *)

(** A JSON text with apostrophes for the quotes. *)
Definition json_text (s : text) : text :=
  (fun c => if bool_decide (c = "'"%char) then quote else c) <$> s.

Definition sample_layout : text :=
  json_text (txt "{'V':2,'L':{'t':'p','w':80,'h':24,'x':0,'y':0,'i':0,'a':true}}").

Lemma json_parse_terminates_witness :
  (JsonLayoutSyntax.parse 500 sample_layout).1 = true /\
  JsonLayoutSyntax.parse 500 sample_layout =
    JsonLayoutSyntax.parse (JsonLayoutSyntax.json_fuel sample_layout) sample_layout.
Proof.
  split; [vm_compute; reflexivity|]. apply json_parse_terminates. apply Nat.leb_le. vm_compute.
  reflexivity.
Defined.

Lemma json_layout_rules_witness :
  exists st, JsonLayoutSyntax.parse (JsonLayoutSyntax.json_fuel sample_layout) sample_layout = (true, st) /\
    0 < JsonLayoutSyntax.j_leaves st /\ leaf_rules st.
Proof.
  exists (JsonLayoutSyntax.parse (JsonLayoutSyntax.json_fuel sample_layout) sample_layout).2.
  assert (JsonLayoutSyntax.parse (JsonLayoutSyntax.json_fuel sample_layout) sample_layout =
          (true, (JsonLayoutSyntax.parse (JsonLayoutSyntax.json_fuel sample_layout) sample_layout).2))
    as H by (vm_compute; reflexivity).
  split; [exact H | exact (json_layout_rules sample_layout _ H)].
Defined.

Lemma layout_accepted_witness :
  layout_error (txt "b25d,80x24,0,0,0") 1 None = None /\ Saved (txt "b25d,80x24,0,0,0") 1.
Proof.
  assert (layout_error (txt "b25d,80x24,0,0,0") 1 None = None) as H by (vm_compute; reflexivity).
  split; [exact H|].
  destruct (proj1 (layout_accepted (txt "b25d,80x24,0,0,0") 1) H) as [(_ & _ & [Hp|Hp])|[(st & Hj & _)|Hs]];
    [ | | discriminate | exact Hs]; exfalso; apply Preset_no_comma in Hp; apply Hp;
    apply (list_elem_of_lookup_2 _ 4); reflexivity.
Defined.

Lemma validate_layouts_safe_witness :
  (validate_layouts (Value (MkVersion 3 5 0 false false 0))
     [MkLayoutRequest (txt "tiled") 1; MkLayoutRequest (txt "main-vertical-m") 1]).1 = Value tt /\
  Forall (runs_on (MkVersion 3 5 0 false false 0))
    [MkLayoutRequest (txt "tiled") 1; MkLayoutRequest (txt "main-vertical-m") 1] /\
  validate_layouts (Value (MkVersion 3 4 0 false false 0)) [MkLayoutRequest (txt "main-vertical-m") 1] =
    (Unexpected (MkLayoutFailure 0 (invalid_layout (invalid_layout_name (txt "main-vertical-m") false))), true).
Proof.
  assert ((validate_layouts (Value (MkVersion 3 5 0 false false 0))
     [MkLayoutRequest (txt "tiled") 1; MkLayoutRequest (txt "main-vertical-m") 1]).1 = Value tt) as H
    by (vm_compute; reflexivity).
  split; [exact H|]. split; [|vm_compute; reflexivity].
  exact (proj1 (proj1 (validate_layouts_safe _ _)) H).
Defined.
