(* ===== verification/Commands.v ===== *)
(** How tmux reads a command line, and the commands a daemon must not be sent:
    [src/support_commands.hpp], [src/support_commands.cpp].

    A raw command reaches the daemon through the same parser as a typed one, so
    the guards read it as the daemon does: where one command ends, which command a
    word names, which flags take a value.  The theorems: a word resolves to a
    command exactly when it is its alias, or a prefix of its name only; flags
    written out are read back; and a literal list is refused exactly when one of
    the commands read from it is one the running daemon cannot be sent. *)

From S2P Require Import Prelude Version Command Capabilities Layout.

(** tmux's [cmd_table]: names and aliases, in its order. *)
Definition kTable : list (text * text) :=
  [(txt "attach-session", txt "attach");
   (txt "bind-key", txt "bind");
   (txt "break-pane", txt "breakp");
   (txt "capture-pane", txt "capturep");
   (txt "choose-buffer", []);
   (txt "choose-client", []);
   (txt "choose-tree", []);
   (txt "clear-history", txt "clearhist");
   (txt "clear-prompt-history", txt "clearphist");
   (txt "clock-mode", []);
   (txt "command-prompt", []);
   (txt "confirm-before", txt "confirm");
   (txt "copy-mode", []);
   (txt "customize-mode", []);
   (txt "delete-buffer", txt "deleteb");
   (txt "detach-client", txt "detach");
   (txt "display-menu", txt "menu");
   (txt "display-message", txt "display");
   (txt "display-popup", txt "popup");
   (txt "display-panes", txt "displayp");
   (txt "find-window", txt "findw");
   (txt "has-session", txt "has");
   (txt "if-shell", txt "if");
   (txt "join-pane", txt "joinp");
   (txt "kill-pane", txt "killp");
   (txt "kill-server", []);
   (txt "kill-session", []);
   (txt "kill-window", txt "killw");
   (txt "last-pane", txt "lastp");
   (txt "last-window", txt "last");
   (txt "link-window", txt "linkw");
   (txt "list-buffers", txt "lsb");
   (txt "list-clients", txt "lsc");
   (txt "list-commands", txt "lscm");
   (txt "list-keys", txt "lsk");
   (txt "list-panes", txt "lsp");
   (txt "list-sessions", txt "ls");
   (txt "list-windows", txt "lsw");
   (txt "load-buffer", txt "loadb");
   (txt "lock-client", txt "lockc");
   (txt "lock-server", txt "lock");
   (txt "lock-session", txt "locks");
   (txt "move-pane", txt "movep");
   (txt "move-window", txt "movew");
   (txt "new-pane", txt "newp");
   (txt "new-session", txt "new");
   (txt "new-window", txt "neww");
   (txt "next-layout", txt "nextl");
   (txt "next-window", txt "next");
   (txt "paste-buffer", txt "pasteb");
   (txt "pipe-pane", txt "pipep");
   (txt "previous-layout", txt "prevl");
   (txt "previous-window", txt "prev");
   (txt "refresh-client", txt "refresh");
   (txt "rename-session", txt "rename");
   (txt "rename-window", txt "renamew");
   (txt "resize-pane", txt "resizep");
   (txt "resize-window", txt "resizew");
   (txt "respawn-pane", txt "respawnp");
   (txt "respawn-window", txt "respawnw");
   (txt "rotate-window", txt "rotatew");
   (txt "run-shell", txt "run");
   (txt "save-buffer", txt "saveb");
   (txt "select-layout", txt "selectl");
   (txt "select-pane", txt "selectp");
   (txt "select-window", txt "selectw");
   (txt "send-keys", txt "send");
   (txt "send-prefix", []);
   (txt "server-access", []);
   (txt "set-buffer", txt "setb");
   (txt "set-environment", txt "setenv");
   (txt "set-hook", []);
   (txt "set-option", txt "set");
   (txt "set-window-option", txt "setw");
   (txt "show-buffer", txt "showb");
   (txt "show-environment", txt "showenv");
   (txt "show-hooks", []);
   (txt "show-messages", txt "showmsgs");
   (txt "show-options", txt "show");
   (txt "show-prompt-history", txt "showphist");
   (txt "show-window-options", txt "showw");
   (txt "source-file", txt "source");
   (txt "split-window", txt "splitw");
   (txt "start-server", txt "start");
   (txt "suspend-client", txt "suspendc");
   (txt "swap-pane", txt "swapp");
   (txt "swap-window", txt "swapw");
   (txt "switch-client", txt "switchc");
   (txt "switch-mode", []);
   (txt "unbind-key", txt "unbind");
   (txt "unlink-window", txt "unlinkw");
   (txt "wait-for", txt "wait")].

Fixpoint resolve_loop (word : text) (table : list (text * text)) (found : option text)
    (ambiguous : bool) : option text * bool :=
  match table with
  | [] => (found, ambiguous)
  | (name, alias) :: rest =>
      if bool_decide (alias <> [] /\ alias = word) then (Some name, false)
      else if negb (starts_with word name) then resolve_loop word rest found ambiguous
      else
        let ambiguous := match found with Some _ => true | None => ambiguous end in
        if bool_decide (name = word) then (Some name, ambiguous)
        else resolve_loop word rest (Some name) ambiguous
  end.

(** [resolve]: the command a word names. *)
Definition resolve (word : text) : option text :=
  match resolve_loop word kTable None false with
  | (Some name, false) => Some name
  | _ => None
  end.

(** * Where commands end *)

Record Invocation := MkInvocation { inv_name : text; arguments : list text }.

(** The body of the loop of [invocations]: the word, and whether the command ends
    after it. *)
Definition read_word (argument : text) : text * bool :=
  if ends_with_char ";"%char argument then
    let word := take (length argument - 1) argument in
    if ends_with_char "\"%char word
    then (take (length word - 1) word ++ txt ";", false)
    else (word, true)
  else (argument, false).

(** The finished commands and the one being read. *)
Fixpoint separate_loop (argv : list text) (finished : list (list text)) (current : list text) :
    list (list text) :=
  match argv with
  | [] => finished ++ [current]
  | argument :: rest =>
      let '(word, ends) := read_word argument in
      let current := if negb ends || negb (bool_decide (word = [])) then current ++ [word] else current in
      if ends then separate_loop rest (finished ++ [current]) []
      else separate_loop rest finished current
  end.
Definition separate (argv : list text) : list (list text) := separate_loop argv [] [].

(** A command whose first word resolves. *)
Definition invocation (command : list text) : option Invocation :=
  match command with
  | [] => None
  | word :: args => (fun name => MkInvocation name args) <$> resolve word
  end.
Definition invocations (argv : list text) : list Invocation := omap invocation (separate argv).

(** * Flags and operands *)

Record FlagSet := MkFlag { flag : ascii; flag_value : text }.
Record Flags := MkFlags { set_flags : list FlagSet; operands : list text }.

Definition has (f : ascii) (flags : Flags) : bool :=
  existsb (fun each => bool_decide (flag each = f)) (set_flags flags).

Definition value_of (f : ascii) (flags : Flags) : option text :=
  foldl (fun found each => if bool_decide (flag each = f) then Some (flag_value each) else found)
    None (set_flags flags).

(** The flags of one cluster: those that take no value, and the first that does with
    the rest of the cluster. *)
Fixpoint cluster (valued : list ascii) (s : text) : list FlagSet * option (ascii * text) :=
  match s with
  | [] => ([], None)
  | c :: s' =>
      if bool_decide (c ∈ valued) then ([], Some (c, s'))
      else let '(plain, last) := cluster valued s' in (MkFlag c [] :: plain, last)
  end.

Fixpoint parse_flags_loop (valued : list ascii) (args : list text) (set : list FlagSet) : Flags :=
  match args with
  | [] => MkFlags set []
  | argument :: rest =>
      if (length argument <? 2)%nat || negb (starts_with (txt "-") argument)
      then MkFlags set args
      else if bool_decide (argument = txt "--") then MkFlags set rest
      else
        let '(plain, last) := cluster valued (drop 1 argument) in
        match last with
        | None => parse_flags_loop valued rest (set ++ plain)
        | Some (c, []) =>
            match rest with
            | value :: rest' => parse_flags_loop valued rest' (set ++ plain ++ [MkFlag c value])
            | [] => MkFlags (set ++ plain ++ [MkFlag c []]) []
            end
        | Some (c, inline) => parse_flags_loop valued rest (set ++ plain ++ [MkFlag c inline])
        end
  end.
Definition parse_flags (args : list text) (valued : list ascii) : Flags :=
  parse_flags_loop valued args [].

Definition kValued : list (text * list ascii) :=
  [(txt "break-pane", txt "FnstxXyY"); (txt "delete-buffer", txt "b");
   (txt "new-session", txt "cefFnstxy"); (txt "new-window", txt "cenFt");
   (txt "refresh-client", txt "ABCFfrt"); (txt "rename-session", txt "t");
   (txt "rename-window", txt "t"); (txt "select-layout", txt "t"); (txt "set-buffer", txt "btn")].

Definition valued_of (name : text) : list ascii :=
  match find (fun each => bool_decide (each.1 = name)) kValued with
  | Some each => each.2
  | None => []
  end.
Definition flags_of (command : Invocation) : Flags :=
  parse_flags (arguments command) (valued_of (inv_name command)).

(** * The gates *)

Definition lists (uses : list CommandUse) (command : text) : bool :=
  existsb (fun use => bool_decide (use_command use = command)) uses.

Definition older_daemon (operation needed_text : text) : CommandFailure :=
  MkFailure unsupported not_started 0
    (operation ++ txt " needs tmux " ++ needed_text ++ txt " or newer; the daemon is older").

Definition separator_in_name (what : text) : CommandFailure :=
  MkFailure validation not_started 0
    (txt "tmux 3.7 refuses a " ++ what ++ txt " name containing ':' or '.'").

Definition named_buffer (command : Invocation) (flags : Flags) (running : Version) :
    option CommandFailure :=
  if version_geb running (since buffer_delete_named) ||
     negb (lists (commands_of buffer_delete_named) (inv_name command))
  then None
  else if bool_decide (inv_name command = txt "delete-buffer") && has "b"%char flags
  then Some (older_daemon (txt "deleting a named buffer") (since_text buffer_delete_named))
  else if bool_decide (inv_name command = txt "set-buffer") && has "b"%char flags && has "n"%char flags
  then Some (older_daemon (txt "renaming a named buffer") (since_text buffer_delete_named))
  else None.

Definition clipboard_gate (command : Invocation) (flags : Flags) (running : Version) :
    option CommandFailure :=
  if version_geb running (since clipboard_query) ||
     negb (lists (commands_of clipboard_query) (inv_name command)) || negb (has "l"%char flags)
  then None
  else Some (older_daemon (txt "a clipboard query") (since_text clipboard_query)).

Definition layout_gate (command : Invocation) (flags : Flags) (running : Version) :
    option CommandFailure :=
  if negb (lists (commands_of layout_mirrored_main) (inv_name command)) ||
     negb (length (operands flags) =? 1)%nat
  then None
  else match operands flags with
       | l :: _ => layout_refusal running l
       | [] => None
       end.

(** The names a use of a command gives: values of its listed flags, or the operand
    of a rename. *)
Definition names_of (use : CommandUse) (flags : Flags) : list (text * ascii) :=
  omap (fun f => match last f with
                 | Some c => (fun value => (value, c)) <$> value_of c flags
                 | None => None
                 end) (use_flags use) ++
  (if bool_decide (use_flags use = []) && (length (operands flags) =? 1)%nat
   then (fun o => (o, " "%char)) <$> operands flags else []).

Definition separated (name : text) : bool :=
  match find_first_of (txt ".:") name with Some _ => true | None => false end.

Fixpoint separators_loop (command : Invocation) (flags : Flags) (uses : list CommandUse) :
    option CommandFailure :=
  match uses with
  | [] => None
  | use :: rest =>
      if negb (bool_decide (use_command use = inv_name command))
      then separators_loop command flags rest
      else match find (fun nf => separated nf.1) (names_of use flags) with
           | Some (_, f) =>
               let session := bool_decide (inv_name command = txt "rename-session") ||
                 (bool_decide (inv_name command = txt "new-session") && negb (bool_decide (f = "n"%char))) in
               Some (separator_in_name (if session then txt "session" else txt "window"))
           | None => separators_loop command flags rest
           end
  end.
Definition separators (command : Invocation) (flags : Flags) (running : Version) :
    option CommandFailure :=
  if negb (affects name_separators_rejected running) then None
  else separators_loop command flags (workaround_commands name_separators_rejected).

Definition unnamed_break (command : Invocation) (flags : Flags) (running : Version) (live : bool) :
    option CommandFailure :=
  if negb live || negb (affects break_pane_misnames_windows running) ||
     negb (lists (workaround_commands break_pane_misnames_windows) (inv_name command)) ||
     has "n"%char flags
  then None
  else Some (MkFailure validation not_started 0
    (txt "tmux 3.7 crashes on a break-pane that names no window; use Pane::break_out")).

(** The first refusal of several. *)
Definition first_refusal (gates : list (option CommandFailure)) : option CommandFailure :=
  head (omap id gates).

Definition refuse_command (running : Version) (live : bool) (command : Invocation) :
    option CommandFailure :=
  let flags := flags_of command in
  first_refusal [named_buffer command flags running; clipboard_gate command flags running;
                 layout_gate command flags running; separators command flags running;
                 unnamed_break command flags running live].

Definition refuse_literal (argv : list text) (running : Version) (live : bool) :
    option CommandFailure :=
  first_refusal (refuse_command running live <$> invocations argv).

(** * Resolving a word *)

Definition prefixes (word : text) (table : list (text * text)) : list text :=
  filter (fun name => starts_with word name = true) table.*1.

Lemma prefixes_app word t1 t2 : prefixes word (t1 ++ t2) = prefixes word t1 ++ prefixes word t2.
Proof. unfold prefixes. by rewrite fmap_app, filter_app. Qed.

Lemma prefixes_cons word name alias table :
  prefixes word ((name, alias) :: table) =
  (if starts_with word name then [name] else []) ++ prefixes word table.
Proof.
  unfold prefixes. rewrite fmap_cons. cbn [fst]. destruct (starts_with word name) eqn:E.
  - by rewrite filter_cons_True.
  - by rewrite filter_cons_False by congruence.
Qed.

Definition is_alias (word : text) (e : text * text) : Prop := e.2 <> [] /\ e.2 = word.
#[local] Instance is_alias_dec word e : Decision (is_alias word e).
Proof. unfold is_alias. solve_decision. Defined.

(** What the loop has learnt from the entries it passed, with the prefixes [seen]. *)
Definition seen_state (seen : list text) : option text * bool :=
  (last seen, (1 <? length seen)%nat).

Lemma seen_state_snoc seen name :
  seen_state (seen ++ [name]) =
  (Some name, match last seen with Some _ => true | None => (1 <? length seen)%nat end).
Proof.
  unfold seen_state. rewrite last_snoc, length_app. f_equal.
  destruct seen as [|a seen]; [done|]. destruct (last (a :: seen)) eqn:E; [|by apply last_None in E].
  apply Nat.ltb_lt. cbn. lia.
Qed.

Lemma resolve_loop_prefixes word table seen :
  Forall (fun e => ~ is_alias word e /\ e.1 <> word) table ->
  resolve_loop word table (last seen) (1 <? length seen)%nat = seen_state (seen ++ prefixes word table).
Proof.
  revert seen. induction table as [|[name alias] table IH]; intros seen H; cbn [resolve_loop].
  { by rewrite app_nil_r. }
  apply Forall_cons in H as [[Ha Hn] H]. unfold is_alias in Ha. cbn [fst snd] in *.
  rewrite bool_decide_false, prefixes_cons by done.
  destruct (starts_with word name); cbn [negb]; [|by rewrite IH].
  rewrite bool_decide_false by done.
  pose proof (seen_state_snoc seen name) as Hs. unfold seen_state in Hs. injection Hs as H1 H2.
  rewrite <-H1, <-H2, IH by done. by rewrite <-app_assoc.
Qed.

Lemma resolve_loop_alias word t1 name alias t2 found ambiguous :
  Forall (fun e => ~ is_alias word e /\ e.1 <> word) t1 -> is_alias word (name, alias) ->
  resolve_loop word (t1 ++ (name, alias) :: t2) found ambiguous = (Some name, false).
Proof.
  revert found ambiguous. induction t1 as [|[n a] t1 IH]; intros found ambiguous H Ha; cbn [app resolve_loop].
  - by rewrite bool_decide_true.
  - apply Forall_cons in H as [[Hna Hn] H]. cbn [fst] in *.
    rewrite bool_decide_false by done. destruct (starts_with word n); cbn [negb]; [|by apply IH].
    rewrite bool_decide_false by done. by apply IH.
Qed.

Lemma resolve_loop_exact word t1 alias t2 seen :
  Forall (fun e => ~ is_alias word e /\ e.1 <> word) t1 -> ~ is_alias word (word, alias) ->
  resolve_loop word (t1 ++ (word, alias) :: t2) (last seen) (1 <? length seen)%nat =
  seen_state (seen ++ prefixes word t1 ++ [word]).
Proof.
  intros H Ha. revert seen. induction t1 as [|[n a] t1 IH]; intros seen; cbn [app resolve_loop].
  - rewrite bool_decide_false by done. rewrite (proj2 (starts_with_spec word word))
      by (exists []; by rewrite app_nil_r). cbn [negb]. rewrite bool_decide_true by done.
    change (prefixes word []) with ([] : list text). cbn [app]. by rewrite seen_state_snoc.
  - apply Forall_cons in H as [[Hna Hn] H]. cbn [fst] in *.
    rewrite bool_decide_false by done. rewrite prefixes_cons.
    destruct (starts_with word n); cbn [negb]; [|by apply IH].
    rewrite bool_decide_false by done.
    pose proof (seen_state_snoc seen n) as Hs. unfold seen_state in Hs. injection Hs as H1 H2.
    rewrite <-H1, <-H2, IH by done. by rewrite <-!app_assoc.
Qed.

(** What makes tmux's table unambiguous: names and aliases are distinct, and no name
    begins another. *)
Lemma kTable_shape :
  NoDup kTable.*1 /\ NoDup (filter (fun a : text => a <> []) kTable.*2) /\
  Forall (fun a : text => a = [] \/ a ∉ kTable.*1) kTable.*2 /\
  Forall (fun n => prefixes n kTable = [n]) kTable.*1.
Proof. split_and!; apply (bool_decide_unpack _); vm_compute; exact I. Qed.

Lemma first_split {A} (P : A -> Prop) `{!forall x, Decision (P x)} (l : list A) :
  Forall (fun x => ~ P x) l \/ exists l1 x l2, l = l1 ++ x :: l2 /\ Forall (fun x => ~ P x) l1 /\ P x.
Proof.
  induction l as [|x l IH]; [by left|]. destruct (decide (P x)) as [Hx|Hx].
  - right. by exists [], x, l.
  - destruct IH as [IH|(l1 & y & l2 & -> & H1 & Hy)]; [left; by constructor|].
    right. exists (x :: l1), y, l2. split_and!; [done | by constructor | done].
Qed.

Lemma alias_unique word (t : list (text * text)) m m' :
  word <> [] -> NoDup (filter (fun a : text => a <> []) t.*2) ->
  (m, word) ∈ t -> (m', word) ∈ t -> m = m'.
Proof.
  intros Hne. revert m m'. induction t as [|[m0 a0] t IH]; intros m m' Hnd Hm Hm';
    [by apply elem_of_nil in Hm|].
  assert (forall n, (n, word) ∈ t -> word ∈ filter (fun a : text => a <> []) t.*2) as Hin.
  { intros n Hn. apply list_elem_of_filter. split; [done|]. apply list_elem_of_fmap. by exists (n, word). }
  rewrite fmap_cons in Hnd. cbn [snd] in Hnd. destruct (decide (a0 = [])) as [->|Ha].
  { rewrite filter_cons_False in Hnd by naive_solver.
    apply elem_of_cons in Hm as [Hx|Hm]; [by injection Hx as _ Hx|].
    apply elem_of_cons in Hm' as [Hx|Hm']; [by injection Hx as _ Hx|].
    by apply IH. }
  rewrite filter_cons_True in Hnd by done. apply NoDup_cons in Hnd as [Hno Hnd].
  assert (forall n, (n, word) ∈ (m0, a0) :: t -> (n, word) ∈ t \/ (n = m0 /\ a0 = word)) as Hcase.
  { intros n [Hx|Hn]%elem_of_cons; [right; by injection Hx | by left]. }
  apply Hcase in Hm as [Hm|[-> ->]]; apply Hcase in Hm' as [Hm'|[-> Hw]]; [by apply IH| |..|done];
    exfalso; apply Hno; [rewrite Hw|]; by eapply Hin.
Qed.

(** The lookup in any table of that shape. *)
Lemma resolve_table (table : list (text * text)) word name :
  NoDup (filter (fun a : text => a <> []) table.*2) ->
  Forall (fun a : text => a = [] \/ a ∉ table.*1) table.*2 ->
  Forall (fun n => prefixes n table = [n]) table.*1 ->
  match resolve_loop word table None false with
  | (Some name, false) => Some name
  | _ => None
  end = Some name <->
  (word <> [] /\ (name, word) ∈ table) \/
  ((forall n, word <> [] -> (n, word) ∉ table) /\ prefixes word table = [name]).
Proof.
  intros Haliases Hdisj Hexact.
  set (P e := is_alias word e \/ e.1 = word).
  assert (forall l, Forall (fun e => ~ P e) l -> Forall (fun e : text * text => ~ is_alias word e /\ e.1 <> word) l)
    as HP by (intros l H; eapply Forall_impl; [exact H|]; intros e He; split; intros Hx; apply He; [by left | by right]).
  destruct (first_split P table) as [Hnone | (t1 & [n a] & t2 & Heq & H1 & Hp)].
  - apply HP in Hnone. pose proof (resolve_loop_prefixes word table [] Hnone) as Hr. cbn in Hr.
    rewrite Hr. cbn [app]. unfold seen_state.
    assert (forall m, (m, word) ∈ table -> word = []) as Hna.
    { intros m Hin. rewrite Forall_forall in Hnone. specialize (Hnone _ Hin) as [H _].
      destruct (decide (word = [])); [done|]. exfalso. by apply H. }
    destruct (prefixes word table) as [|p [|q ps]] eqn:Hps; cbn [last length].
    + split; [done|]. intros [[Hne Hin]|[_ [=]]]. exfalso. eauto.
    + split.
      * intros [= ->]. right. split; [|done]. intros m Hne Hin. eauto.
      * intros [[Hne Hin]|[_ [= ->]]]; [exfalso; eauto | done].
    + replace (1 <? S (S (length ps)))%nat with true by (symmetry; apply Nat.ltb_lt; lia).
      destruct (last (q :: ps)); (split; [done|]); intros [[Hne Hin]|[_ [=]]]; exfalso; eauto.
  - apply HP in H1. destruct (decide (is_alias word (n, a))) as [Ha|Ha].
    + rewrite Heq, resolve_loop_alias by done. destruct Ha as [Hne Hw]. cbn [snd] in *. subst a.
      assert ((n, word) ∈ table) as Hin by (rewrite Heq; apply elem_of_app; right; left).
      split.
      * intros [= ->]. left. rewrite <-Heq. done.
      * rewrite <-Heq. intros [[_ Hin']|[Hno _]]; [|exfalso; by eapply Hno].
        f_equal. by eapply alias_unique.
    + destruct Hp as [Hp|Hp]; [done|]. cbn [fst] in Hp. subst n.
      assert (word ∈ table.*1) as Hin.
      { rewrite Heq, fmap_app, fmap_cons. apply elem_of_app. right. left. }
      pose proof (proj1 (Forall_forall _ _) Hexact word Hin) as Hone.
      assert (prefixes word t1 = []) as Hp1.
      { rewrite Heq, prefixes_app, prefixes_cons in Hone.
        rewrite (proj2 (starts_with_spec word word)) in Hone by (exists []; by rewrite app_nil_r).
        destruct (prefixes word t1) as [|p ps]; [done|]. destruct ps; done. }
      pose proof (resolve_loop_exact word t1 a t2 [] H1 Ha) as Hr. cbn in Hr.
      rewrite Hp1 in Hr. rewrite Heq, Hr. cbn [app]. rewrite <-Heq.
      unfold seen_state. cbn [last length]. rewrite Hone. split.
      * intros [= <-]. right. split; [|done]. intros m Hne Hm.
        rewrite Forall_forall in Hdisj. destruct (Hdisj word) as [?|?]; [|done..].
        apply list_elem_of_fmap. by exists (m, word).
      * intros [[Hne Hm]|[_ [= <-]]]; [|done]. exfalso.
        rewrite Forall_forall in Hdisj. destruct (Hdisj word) as [?|?]; [|done..].
        apply list_elem_of_fmap. by exists (name, word).
Qed.

(** A word names a command as tmux's documentation of its own lookup says: it is
    the command's alias, or it is no alias and a prefix of that name alone (an exact
    name is a prefix of no other); every other word, the ambiguous ones among them,
    names nothing. *)
Theorem resolve_spec word name :
  resolve word = Some name <->
  (word <> [] /\ (name, word) ∈ kTable) \/
  ((forall n, word <> [] -> (n, word) ∉ kTable) /\ prefixes word kTable = [name]).
Proof. destruct kTable_shape as (_ & H1 & H2 & H3). by apply resolve_table. Qed.

(** * Flags are read back *)

(** One flag as a command spells it: a valued flag with its value in the next
    element, another one alone. *)
Definition spell (valued : list ascii) (f : FlagSet) : list text :=
  if bool_decide (flag f ∈ valued) then [["-"%char; flag f]; flag_value f] else [["-"%char; flag f]].

Definition well_spelt (valued : list ascii) (f : FlagSet) : Prop :=
  flag f <> "-"%char /\ (flag f ∉ valued -> flag_value f = []).

Lemma parse_flags_loop_spell valued f rest set :
  well_spelt valued f ->
  parse_flags_loop valued (spell valued f ++ rest) set = parse_flags_loop valued rest (set ++ [f]).
Proof.
  destruct f as [c v]. intros [Hc Hv]. cbn [flag flag_value] in *. unfold spell. cbn [flag flag_value].
  assert (["-"%char; c] <> txt "--") as Hdd by (vm_compute; congruence).
  assert (starts_with (txt "-") ["-"%char; c] = true) as Hs
    by (change ["-"%char; c] with (txt "-" ++ [c]); apply starts_with_app).
  case_bool_decide as Hin; cbn [app parse_flags_loop length]; rewrite Hs;
    cbn [Nat.ltb Nat.leb negb orb]; rewrite bool_decide_false by done; cbn [drop cluster].
  - rewrite bool_decide_true by done. done.
  - rewrite bool_decide_false by done. by rewrite Hv.
Qed.

(** Flags and operands written out are read back: a valued flag takes the next
    element whatever it looks like, [value] answers the last occurrence, and what
    follows [--] is operands even where it looks like a flag. *)
Theorem parse_flags_roundtrip valued sets ops :
  Forall (well_spelt valued) sets ->
  parse_flags (concat (spell valued <$> sets) ++ txt "--" :: ops) valued = MkFlags sets ops /\
  (forall f sets' v, sets = sets' ++ [MkFlag f v] ->
     value_of f (parse_flags (concat (spell valued <$> sets) ++ txt "--" :: ops) valued) = Some v).
Proof.
  intros Hs.
  assert (parse_flags (concat (spell valued <$> sets) ++ txt "--" :: ops) valued = MkFlags sets ops) as E.
  { unfold parse_flags. assert (forall set,
      parse_flags_loop valued (concat (spell valued <$> sets) ++ txt "--" :: ops) set =
      MkFlags (set ++ sets) ops) as ->; [|done].
    induction Hs as [|f sets Hf Hs IH]; intros set.
    + rewrite app_nil_r. cbn [fmap list_fmap concat app parse_flags_loop].
      change (txt "--") with ["-"%char; "-"%char]. cbn [length Nat.ltb Nat.leb orb].
      unfold starts_with. cbn. reflexivity.
    + rewrite fmap_cons. cbn [concat]. rewrite <-app_assoc, parse_flags_loop_spell, IH by done.
      by rewrite <-app_assoc. }
  split; [exact E|]. intros f sets' v ->. rewrite E. unfold value_of. cbn [set_flags]. rewrite foldl_app. cbn [foldl flag flag_value].
  by rewrite bool_decide_true.
Qed.

(** * The gates, taken together *)

Definition tmux (major minor revision : N) : Version := MkVersion major minor revision false false 0.

Definition has_separator (name : text) : Prop := "."%char ∈ name \/ ":"%char ∈ name.

(** What must not be sent to a daemon of release [v]; [live] when the release is a
    running daemon's. *)
Definition Forbidden (v : Version) (live : bool) (i : Invocation) : Prop :=
  let flags := flags_of i in
  (inv_name i = txt "delete-buffer" /\ version_ltb v (tmux 3 4 0) = true /\ has "b"%char flags = true) \/
  (inv_name i = txt "set-buffer" /\ version_ltb v (tmux 3 4 0) = true /\
     has "b"%char flags = true /\ has "n"%char flags = true) \/
  (inv_name i = txt "refresh-client" /\ version_ltb v (tmux 3 6 1) = true /\ has "l"%char flags = true) \/
  (inv_name i = txt "select-layout" /\
     exists l, operands flags = [l] /\ ~ runs_on v (MkLayoutRequest l 1)) \/
  (v = tmux 3 7 0 /\ exists name, has_separator name /\
     ((inv_name i = txt "new-session" /\
         (value_of "s"%char flags = Some name \/ value_of "n"%char flags = Some name)) \/
      (inv_name i = txt "new-window" /\ value_of "n"%char flags = Some name) \/
      ((inv_name i = txt "rename-session" \/ inv_name i = txt "rename-window") /\
         operands flags = [name]))) \/
  (inv_name i = txt "break-pane" /\ v = tmux 3 7 0 /\ live = true /\ has "n"%char flags = false).

Lemma lists_spec uses name : lists uses name = true <-> name ∈ use_command <$> uses.
Proof.
  unfold lists. rewrite existsb_exists, list_elem_of_fmap. split.
  - intros (u & Hu & E). apply bool_decide_eq_true in E. exists u. by rewrite list_elem_of_In.
  - intros (u & -> & Hu). exists u. rewrite <-list_elem_of_In. by rewrite bool_decide_true.
Qed.

Lemma separated_spec name : separated name = true <-> has_separator name.
Proof.
  unfold separated, has_separator. destruct (find_first_of (txt ".:") name) as [k|] eqn:E.
  - split; [|done]. intros _. assert (~ Forall (fun c => c ∉ txt ".:") name) as H
      by (rewrite <-find_first_of_None, E; done).
    destruct (decide ("."%char ∈ name)); [by left|]. destruct (decide (":"%char ∈ name)); [by right|].
    exfalso. apply H, Forall_forall. intros c Hc. change (txt ".:") with ["."%char; ":"%char].
    intros [->|[->|[]%elem_of_nil]%elem_of_cons]%elem_of_cons; done.
  - split; [done|]. apply find_first_of_None in E. rewrite Forall_forall in E.
    intros [Hc|Hc]; specialize (E _ Hc); exfalso; apply E;
      change (txt ".:") with ["."%char; ":"%char]; repeat constructor.
Qed.

Lemma lists_buffer name :
  lists (commands_of buffer_delete_named) name = true <->
  name = txt "delete-buffer" \/ name = txt "set-buffer".
Proof.
  rewrite lists_spec. change (use_command <$> _) with [txt "delete-buffer"; txt "set-buffer"].
  rewrite !elem_of_cons, elem_of_nil. tauto.
Qed.

Lemma named_buffer_spec i flags v :
  named_buffer i flags v = None <->
  ~ (inv_name i = txt "delete-buffer" /\ version_ltb v (tmux 3 4 0) = true /\ has "b"%char flags = true) /\
  ~ (inv_name i = txt "set-buffer" /\ version_ltb v (tmux 3 4 0) = true /\
       has "b"%char flags = true /\ has "n"%char flags = true).
Proof.
  unfold named_buffer. change (since buffer_delete_named) with (tmux 3 4 0). unfold version_geb.
  destruct (version_ltb v (tmux 3 4 0)); cbn [negb orb]; [|split; [|done]; intros _; by split; intros [_ [? _]]].
  pose proof (lists_buffer (inv_name i)) as Hl.
  destruct (lists _ (inv_name i)); cbn [negb].
  - destruct (proj1 Hl eq_refl) as [-> | ->]; rewrite ?bool_decide_true by done; cbn [andb].
    + destruct (has "b"%char flags).
      * split; [done|]. intros [H _]. by destruct H.
      * rewrite bool_decide_false by done. cbn [andb]. split; [|done]. intros _.
        by split; intros (? & _ & ? & _) || intros (? & _ & ?).
    + rewrite (bool_decide_false (txt "set-buffer" = txt "delete-buffer")) by done. cbn [andb].
      destruct (has "b"%char flags), (has "n"%char flags); cbn [andb]; split; try done;
        intros H; try (exfalso; by apply H); split; naive_solver.
  - split; [|done]. intros _. split; intros [Hn _]; exfalso; cut (false = true); try done;
      apply Hl; auto.
Qed.

Lemma clipboard_gate_spec i flags v :
  clipboard_gate i flags v = None <->
  ~ (inv_name i = txt "refresh-client" /\ version_ltb v (tmux 3 6 1) = true /\ has "l"%char flags = true).
Proof.
  unfold clipboard_gate. change (since clipboard_query) with (tmux 3 6 1). unfold version_geb.
  pose proof (lists_spec (commands_of clipboard_query) (inv_name i)) as Hl.
  change (use_command <$> _) with [txt "refresh-client"] in Hl. rewrite list_elem_of_singleton in Hl.
  destruct (version_ltb v (tmux 3 6 1)), (lists _ (inv_name i)), (has "l"%char flags);
    cbn [negb orb]; naive_solver.
Qed.

Lemma layout_refusal_spec v l : layout_refusal v l = None <-> runs_on v (MkLayoutRequest l 1).
Proof.
  unfold layout_refusal. pose proof (version_refusal_spec v (MkLayoutRequest l 1)) as H.
  pose proof (runs_on_static v (MkLayoutRequest l 1)) as Hs. cbn [layout minimum_panes] in *.
  destruct (validate_layout l 1) as [f|]; [|by apply H].
  split; [done|]. intros Hr. by apply Hs in Hr.
Qed.

Lemma layout_gate_spec i flags v :
  layout_gate i flags v = None <->
  ~ (inv_name i = txt "select-layout" /\
       exists l, operands flags = [l] /\ ~ runs_on v (MkLayoutRequest l 1)).
Proof.
  unfold layout_gate.
  pose proof (lists_spec (commands_of layout_mirrored_main) (inv_name i)) as Hl.
  change (use_command <$> _) with [txt "select-layout"] in Hl. rewrite list_elem_of_singleton in Hl.
  destruct (lists _ (inv_name i)); cbn [negb orb].
  2:{ split; [|done]. intros _ [Hn _]. by apply Hl in Hn. }
  destruct (operands flags) as [|l [|l' ls]]; cbn [length Nat.eqb negb].
  - split; [|done]. by intros _ (_ & l & [=] & _).
  - rewrite layout_refusal_spec. split.
    + intros Hr (_ & l' & [= <-] & Hn). done.
    + intros H. destruct (layout_refusal v l) as [f|] eqn:E.
      * exfalso. apply H. split; [by apply Hl|]. exists l. split; [done|].
        intros Hr. apply layout_refusal_spec in Hr. congruence.
      * by apply layout_refusal_spec.
  - split; [|done]. by intros _ (_ & l'' & [=] & _).
Qed.

Lemma separators_loop_spec i flags uses :
  separators_loop i flags uses = None <->
  forall use nf, use ∈ uses -> use_command use = inv_name i -> nf ∈ names_of use flags ->
    separated nf.1 = false.
Proof.
  induction uses as [|u uses IH]; cbn [separators_loop].
  { split; [|done]. by intros _ use nf ?%elem_of_nil. }
  assert (forall l : list (text * ascii),
    find (fun nf => separated nf.1) l = None <-> forall nf, nf ∈ l -> separated nf.1 = false) as Hf.
  { intros l. induction l as [|x l IHl]; cbn [find].
    - split; [|done]. by intros _ nf ?%elem_of_nil.
    - destruct (separated x.1) eqn:E.
      + split; [done|]. intros H. rewrite H in E; [done | left].
      + rewrite IHl. setoid_rewrite elem_of_cons. naive_solver. }
  setoid_rewrite elem_of_cons. case_bool_decide as Hu; cbn [negb].
  - specialize (Hf (names_of u flags)). destruct (find _ _) as [[n f]|].
    + split; [done|]. intros H. exfalso. cut (Some (n, f) = None); [done|]. apply Hf.
      intros nf Hin. apply (H u); auto.
    + rewrite IH. split; [|naive_solver]. intros H use nf [->|Hin] Hc Hnf; [by apply Hf | by eapply H].
  - rewrite IH. split; [|naive_solver]. intros H use nf [->|Hin] Hc Hnf; [done | by eapply H].
Qed.

Lemma first_in (l : list (text * ascii)) name : (exists f, (name, f) ∈ l) <-> name ∈ l.*1.
Proof.
  rewrite list_elem_of_fmap. split.
  - intros [f Hf]. by exists (name, f).
  - intros ([n f] & -> & Hf). by exists f.
Qed.

(** The names a use gives, spelt out for the four listed commands. *)
Lemma names_of_spec flags name :
  (forall c, (exists f, (name, f) ∈ names_of (MkUse c [txt "-s"; txt "-n"]) flags) <->
     value_of "s"%char flags = Some name \/ value_of "n"%char flags = Some name) /\
  (forall c, (exists f, (name, f) ∈ names_of (MkUse c [txt "-n"]) flags) <->
     value_of "n"%char flags = Some name) /\
  (forall c, (exists f, (name, f) ∈ names_of (MkUse c []) flags) <-> operands flags = [name]).
Proof.
  unfold names_of. cbn [use_flags]. change (txt "-s") with ["-"%char; "s"%char].
  change (txt "-n") with ["-"%char; "n"%char]. split_and!; intros _; rewrite first_in.
  - rewrite bool_decide_false by done. cbn [andb]. rewrite app_nil_r. cbn [omap list_omap last].
    destruct (value_of "s"%char flags), (value_of "n"%char flags);
      cbn [fmap option_fmap option_map list_fmap fst];
      rewrite ?elem_of_cons, elem_of_nil; naive_solver.
  - rewrite bool_decide_false by done. cbn [andb]. rewrite app_nil_r. cbn [omap list_omap last].
    destruct (value_of "n"%char flags); cbn [fmap option_fmap option_map list_fmap fst];
      rewrite ?elem_of_cons, elem_of_nil; naive_solver.
  - rewrite bool_decide_true by done. cbn [omap list_omap app andb].
    destruct (operands flags) as [|o [|o' os]]; cbn [length Nat.eqb fmap list_fmap fst];
      rewrite ?elem_of_cons, elem_of_nil; naive_solver.
Qed.

Lemma separators_spec i flags v :
  separators i flags v = None <->
  ~ (v = tmux 3 7 0 /\ exists name, has_separator name /\
     ((inv_name i = txt "new-session" /\
         (value_of "s"%char flags = Some name \/ value_of "n"%char flags = Some name)) \/
      (inv_name i = txt "new-window" /\ value_of "n"%char flags = Some name) \/
      ((inv_name i = txt "rename-session" \/ inv_name i = txt "rename-window") /\
         operands flags = [name]))).
Proof.
  unfold separators. pose proof (affects_37 name_separators_rejected v) as Ha.
  change (release_version kTmux37) with (tmux 3 7 0) in Ha.
  destruct (affects name_separators_rejected v); cbn [negb].
  2:{ split; [|done]. intros _ [Hv _]. by apply Ha in Hv. }
  rewrite separators_loop_spec. change (workaround_commands name_separators_rejected) with kNameCommands.
  split.
  - intros H (_ & name & Hsep & Hcase). apply separated_spec in Hsep.
    destruct (names_of_spec flags name) as (Hsn & Hn & Ho).
    assert (forall c fl, MkUse c fl ∈ kNameCommands -> inv_name i = c ->
              (exists f, (name, f) ∈ names_of (MkUse c fl) flags) -> False) as Hno.
    { intros c fl Hin Hc [f Hf]. specialize (H _ (name, f) Hin (eq_sym Hc) Hf). cbn in H. congruence. }
    destruct Hcase as [[Hi Hv]|[[Hi Hv]|[[Hi|Hi] Hv]]];
      (eapply Hno; [|exact Hi|]; [unfold kNameCommands; repeat constructor|]); auto.
    + by apply Hsn.
    + by apply Hn.
    + by apply Ho.
    + by apply Ho.
  - intros H use [name f] Hin Hc Hf. cbn [fst]. destruct (separated name) eqn:Hs; [|done].
    exfalso. apply H. split; [by apply Ha|]. exists name. split; [by apply separated_spec|].
    destruct (names_of_spec flags name) as (Hsn & Hn & Ho). unfold kNameCommands in Hin.
    rewrite <-Hc. rewrite !elem_of_cons, elem_of_nil in Hin.
    destruct Hin as [-> | [-> | [-> | [-> | []]]]]; cbn [use_command].
    + left. split; [done|]. apply (Hsn (txt "new-session")). by exists f.
    + right; left. split; [done|]. apply (Hn (txt "new-window")). by exists f.
    + right; right. split; [by left|]. apply (Ho (txt "rename-session")). by exists f.
    + right; right. split; [by right|]. apply (Ho (txt "rename-window")). by exists f.
Qed.

Lemma unnamed_break_spec i flags v live :
  unnamed_break i flags v live = None <->
  ~ (inv_name i = txt "break-pane" /\ v = tmux 3 7 0 /\ live = true /\ has "n"%char flags = false).
Proof.
  unfold unnamed_break. pose proof (affects_37 break_pane_misnames_windows v) as Ha.
  change (release_version kTmux37) with (tmux 3 7 0) in Ha.
  pose proof (lists_spec (workaround_commands break_pane_misnames_windows) (inv_name i)) as Hl.
  change (use_command <$> _) with [txt "break-pane"] in Hl. rewrite list_elem_of_singleton in Hl.
  destruct live, (affects break_pane_misnames_windows v), (lists _ (inv_name i)),
    (has "n"%char flags); cbn [negb orb]; naive_solver.
Qed.

Lemma first_refusal_None gates : first_refusal gates = None <-> Forall (fun g => g = None) gates.
Proof.
  unfold first_refusal. induction gates as [|[g|] gates IH]; cbn.
  - by split; [constructor|].
  - split; [done|]. by intros [? _]%Forall_cons.
  - rewrite Forall_cons, <-IH. tauto.
Qed.

Lemma first_refusal_Some gates f : first_refusal gates = Some f -> Some f ∈ gates.
Proof.
  unfold first_refusal. induction gates as [|[g|] gates IH]; cbn; [done| |].
  - intros [= ->]. left.
  - intros H. right. by apply IH.
Qed.

Lemma refuse_command_spec v live i : refuse_command v live i = None <-> ~ Forbidden v live i.
Proof.
  unfold refuse_command. rewrite first_refusal_None, !Forall_cons, named_buffer_spec,
    clipboard_gate_spec, layout_gate_spec, separators_spec, unnamed_break_spec.
  unfold Forbidden. cbn zeta. split; [tauto|]. intros H. split_and!; [tauto.. | by constructor].
Qed.

Lemma refuse_command_not_started v live i f :
  refuse_command v live i = Some f -> delivery f = not_started.
Proof.
  unfold refuse_command. intros H%first_refusal_Some. rewrite !elem_of_cons, elem_of_nil in H.
  destruct H as [H|[H|[H|[H|[H|[]]]]]]; symmetry in H.
  - unfold named_buffer in H. split_cases; done.
  - unfold clipboard_gate in H. split_cases; done.
  - unfold layout_gate, layout_refusal, validate_layout, version_refusal in H.
    destruct (_ || _); [done|]. destruct (operands _) as [|l ls]; [done|].
    destruct (layout_error l 1 None); [by injection H as <-|].
    destruct (_ && _); [by injection H as <-|]. destruct (layout_needs_version _); [|done].
    apply fmap_Some in H as (? & _ & ->). done.
  - unfold separators in H. destruct (negb _); [done|]. revert H.
    induction (workaround_commands _) as [|u us IH]; cbn [separators_loop]; [done|].
    destruct (negb _); [done|]. destruct (find _ _) as [[n c]|]; [|done]. by intros [= <-].
  - unfold unnamed_break in H. destruct (_ || _); [done|]. by injection H as <-.
Qed.

Lemma refuse_literal_not_started argv v live f :
  refuse_literal argv v live = Some f -> delivery f = not_started.
Proof.
  unfold refuse_literal. intros H%first_refusal_Some. apply list_elem_of_fmap in H as (i & H & _).
  by eapply refuse_command_not_started.
Qed.

(** A literal command list is refused exactly when it holds a command that the
    running daemon cannot be sent: deleting or renaming a named buffer before 3.4, a
    clipboard query before 3.6a, a layout the daemon does not know, a session or
    window name with [:] or [.] on 3.7, or a [break-pane] that names no window on a
    live 3.7.  Each command is read under any spelling tmux accepts, in any position,
    and a refusal always says nothing was started. *)
Theorem refuse_literal_iff argv v live :
  (refuse_literal argv v live = None <-> Forall (fun i => ~ Forbidden v live i) (invocations argv)) /\
  (forall f, refuse_literal argv v live = Some f -> delivery f = not_started).
Proof.
  split; [|apply refuse_literal_not_started]. unfold refuse_literal.
  rewrite first_refusal_None, Forall_fmap. apply Forall_proper; [|done].
  intros i. apply refuse_command_spec.
Qed.

(** * Instances *)

Lemma resolve_spec_witness :
  resolve (txt "new") = Some (txt "new-session") /\ resolve (txt "break-p") = Some (txt "break-pane") /\
  resolve (txt "new-") = None /\
  ((txt "new" <> [] /\ (txt "new-session", txt "new") ∈ kTable) \/
   ((forall n, txt "new" <> [] -> (n, txt "new") ∉ kTable) /\
    prefixes (txt "new") kTable = [txt "new-session"])).
Proof.
  split; [vm_compute; reflexivity|]. split; [vm_compute; reflexivity|].
  split; [vm_compute; reflexivity|]. apply resolve_spec. vm_compute. reflexivity.
Defined.

Lemma parse_flags_roundtrip_witness :
  parse_flags [txt "-d"; txt "-n"; txt "--"; txt "--"; txt "-x"] [("n"%char)] =
    MkFlags [MkFlag "d"%char []; MkFlag "n"%char (txt "--")] [txt "-x"].
Proof.
  apply (parse_flags_roundtrip ["n"%char] [MkFlag "d"%char []; MkFlag "n"%char (txt "--")] [txt "-x"]).
  constructor; [split; [discriminate | intros _; reflexivity]|].
  constructor; [split; [discriminate | intros H; exfalso; apply H; left]|constructor].
Defined.

Lemma refuse_literal_iff_witness :
  refuse_literal [txt "split-window"; txt "-d;"; txt "breakp"; txt "-d"] (tmux 3 7 0) true <> None /\
  Forall (fun i => ~ Forbidden (tmux 3 7 1) true i)
    (invocations [txt "split-window"; txt "-d;"; txt "breakp"; txt "-d"]).
Proof.
  split; [vm_compute; discriminate|].
  apply (proj1 (refuse_literal_iff [txt "split-window"; txt "-d;"; txt "breakp"; txt "-d"]
                  (tmux 3 7 1) true)).
  vm_compute. reflexivity.
Defined.
