(* ===== verification/Backend.v ===== *)
(** The subprocess backend: [src/backend.hpp], [src/backend.cpp] (POSIX).

    A handle to one tmux endpoint: what it was opened with, and the state its calls
    change, the endpoint a first command published, the daemon version it remembers,
    what it told its observer, and the requests it handed to the host.  A command is
    checked, assembled, launched and interpreted.  The theorems: only checked
    requests reach a daemon, fenced to the one that was asked where one answered; every
    call is observed once, with the result it returns; no secret of a command survives in
    a failure; a success is the whole answer of a tmux that succeeded; and what is sent
    reads back as the command. *)

From S2P Require Import Prelude Version Command Redaction Process Endpoint Capabilities Layout Commands.

Record BoundEndpoint := MkBound {
  bound_connection : list text;
  bound_socket_path : text;
  bound_identity : text;
  bound_missing : bool;
}.

(** What the socket layer answers for a selector: an endpoint, or why it cannot be
    held.  It looks at the file system, so it belongs to the world. *)
Class Sockets (W : Type) := {
  bind_socket_endpoint : list text -> W -> expected text BoundEndpoint * W;
}.

(** What a handle is opened with. *)
Record Config := MkConfig {
  own_connection : list text;
  own_socket_path : text;
  own_selected_path : text;
  startable : bool;
  startup_configuration : option text;
  tmux_binary : text;
  policy_timeout : option N;
  fence_marker : text;
  observed : bool;
}.

Record PublishedEndpoint := MkPublished {
  pub_connection : list text;
  pub_socket_path : text;
  pub_identity : text;
}.

(** [timed]: whether the report carries a duration. *)
Record CommandReport := MkReport {
  report_command : text;
  report_argv : list text;
  report_failure_of : option CommandFailure;
  timed : bool;
}.

Record Handle (W : Type) := MkHandle {
  env : Env W;
  socket_missing : bool;
  started_endpoint : option PublishedEndpoint;
  version_cache : option EndpointVersion;
  reports : list CommandReport;
}.
Arguments MkHandle {W}.
Arguments env {W}.
Arguments socket_missing {W}.
Arguments started_endpoint {W}.
Arguments version_cache {W}.
Arguments reports {W}.

(** tmux strips the backslash before a trailing separator and no other. *)
Definition escaped_argument (argument : text) : text :=
  if bool_decide (argument = kCommandSeparator) || bool_decide (argument = []) ||
     negb (ends_with_char ";"%char argument)
  then argument
  else take (length argument - 1) argument ++ txt "\;".

Definition missing_handle_failure : CommandFailure :=
  MkFailure missing not_started 0
    (txt "this handle predates the socket; reopen it after the server starts").

Definition first_value (command : CommandRequest) : text :=
  match command with a :: _ => value a | [] => [] end.

(** A command of one argument, that one. *)
Definition only_argument (command : CommandRequest) (name : text) : bool :=
  (length command =? 1)%nat && bool_decide (first_value command = name).

Inductive PreparedRequest := Launch (request : ProcessRequest) | AbsentNoop.

Section backend.
Context {W : Type} {host : Host W} {sockets : Sockets W}.
Variable cfg : Config.

Definition set_env (e : Env W) (h : Handle W) : Handle W :=
  MkHandle e (socket_missing h) (started_endpoint h) (version_cache h) (reports h).
Definition set_cache (c : option EndpointVersion) (h : Handle W) : Handle W :=
  MkHandle (env h) (socket_missing h) (started_endpoint h) c (reports h).

Definition published_endpoint (h : Handle W) : option PublishedEndpoint :=
  if socket_missing h then None else started_endpoint h.

Definition connection (h : Handle W) : list text :=
  match published_endpoint h with
  | Some endpoint => pub_connection endpoint
  | None => own_connection cfg
  end.

Definition socket_path (h : Handle W) : text :=
  if socket_missing h then (if startable cfg then own_socket_path cfg else [])
  else match published_endpoint h with
       | Some endpoint => pub_socket_path endpoint
       | None => own_socket_path cfg
       end.

(** [observe]; [dispatching] inside a [Dispatching]. *)
Definition observe (dispatching : bool) (command : CommandRequest) (failure : option CommandFailure)
    (h : Handle W) : Handle W :=
  if negb (observed cfg) then h
  else
    let ran := match failure with
               | Some f => negb (bool_decide (delivery f = not_started))
               | None => true
               end in
    MkHandle (env h) (socket_missing h) (started_endpoint h) (version_cache h)
      (reports h ++ [MkReport (rendered_command command) (argv command) failure (ran && dispatching)]).

Definition report_failure (dispatching : bool) (command : CommandRequest) (failure : CommandFailure)
    (h : Handle W) : expected CommandFailure text * Handle W :=
  let failure := redact failure command in
  (Unexpected failure, observe dispatching command (Some failure) h).

Definition interpret_failure_unobserved (command : CommandRequest) (failure : CommandFailure)
    (h : Handle W) : expected CommandFailure text * Handle W :=
  (Unexpected (redact failure command), h).

(** * Checking *)

Definition check_version (timeout : option N) (h : Handle W) :
    expected CommandFailure EndpointVersion * Handle W :=
  match version_cache h with
  | Some cached => (Value cached, h)
  | None =>
      let '(endpoint, e) :=
        query_endpoint (tmux_binary cfg) (connection h) (Some (default 30000%N timeout)) (env h) in
      let h := set_env e h in
      match endpoint with
      | Unexpected f => (Unexpected f, h)
      | Value endpoint =>
          match require_supported endpoint kMinimumSupported with
          | Unexpected f => (Unexpected f, h)
          | Value _ => (Value endpoint, if live endpoint then set_cache (Some endpoint) h else h)
          end
      end
  end.

Definition check_command (command : CommandRequest) (timeout : option N) (h : Handle W) :
    expected CommandFailure (option EndpointVersion) * Handle W :=
  match command with
  | [] => (Unexpected (version_check_failure validation
             (txt "a tmux command needs at least a command name")), h)
  | _ =>
      let name := first_value command in
      if only_argument command (txt "-V") || only_argument command (txt "-h") then (Value None, h)
      else if starts_with (txt "-") name then
        (Unexpected (version_check_failure validation
           (txt "'" ++ name ++ txt "' is a tmux client flag; commands are dispatched by name")), h)
      else
        let '(checked, h) := check_version timeout h in
        match checked with
        | Unexpected f => (Unexpected f, h)
        | Value checked =>
            match refuse_literal (argv command) (endpoint_version checked) (live checked) with
            | Some refusal => (Unexpected refusal, h)
            | None => (Value (Some checked), h)
            end
        end
  end.

Definition check_release (h : Handle W) : expected CommandFailure unit * Handle W :=
  let '(checked, h) := check_version (Some (default 30000%N (policy_timeout cfg))) h in
  (match checked with Value _ => Value tt | Unexpected f => Unexpected f end, h).

(** [SubprocessBackend::version]. *)
Definition version (h : Handle W) : expected CommandFailure Version * Handle W :=
  match version_cache h with
  | Some cached => (Value (endpoint_version cached), h)
  | None =>
      let '(endpoint, e) :=
        query_endpoint (tmux_binary cfg) (connection h)
          (Some (default 30000%N (policy_timeout cfg))) (env h) in
      let h := set_env e h in
      match endpoint with
      | Unexpected f => (Unexpected f, h)
      | Value endpoint =>
          (Value (endpoint_version endpoint),
           if live endpoint && match require_supported endpoint kMinimumSupported with
                               | Value _ => true | Unexpected _ => false end
           then set_cache (Some endpoint) h else h)
      end
  end.

(** * Assembling *)

Definition sent_arguments (command : CommandRequest) : list Argument :=
  (fun a => MkArg (escaped_argument (value a)) (sensitivity a)) <$> command.

Definition checked_arguments (checked : option EndpointVersion) : list Argument :=
  match checked with
  | None => []
  | Some checked =>
      (if live checked || negb (startable cfg) then [public_arg (txt "-N")] else []) ++
      (if live checked then version_fence (token checked) (fence_marker cfg) else [])
  end.

Definition build_request (command : CommandRequest) (timeout output_limit : option N)
    (checked : option EndpointVersion) (h : Handle W) : ProcessRequest :=
  MkRequest (tmux_binary cfg)
    ([public_arg (txt "-u")] ++
     (if socket_missing h && startable cfg then
        match startup_configuration cfg with
        | Some configuration => [public_arg (txt "-f"); public_arg configuration]
        | None => []
        end
      else []) ++
     (public_arg <$> connection h) ++
     checked_arguments checked ++
     sent_arguments command)
    [] timeout (default default_capture_limit output_limit).

Definition assemble_request (command : CommandRequest) (timeout output_limit : option N)
    (checked : option EndpointVersion) (allow_noop : bool) (h : Handle W) : PreparedRequest :=
  match checked with
  | None => Launch (build_request command timeout output_limit None h)
  | Some c =>
      if allow_noop && negb (live c) && only_argument command (txt "kill-server") then AbsentNoop
      else Launch (build_request command timeout output_limit (Some c) h)
  end.

Definition prepare_request (command : CommandRequest) (timeout output_limit : option N)
    (allow_noop : bool) (h : Handle W) : expected CommandFailure PreparedRequest * Handle W :=
  let '(checked, h) := check_command command timeout h in
  (match checked with
   | Unexpected f => Unexpected f
   | Value checked => Value (assemble_request command timeout output_limit checked allow_noop h)
   end, h).

(** * Interpreting *)

Definition succeeded (reply : ProcessReply) : bool := exited_with 0 (termination reply).
(** tmux exited with a status of its own, other than success. *)
Definition exited_badly (reply : ProcessReply) : bool :=
  match termination reply with Exited code => negb (code =? 0)%Z | Signaled _ => false end.

(** The diagnostic tmux's refusal becomes, its socket alias renamed. *)
Definition refusal_diagnostic (command : CommandRequest) (reply : ProcessReply) (h : Handle W) : text :=
  let diagnostic := if bool_decide (stderr_bytes reply = []) then stdout_bytes reply
                    else stderr_bytes reply in
  let diagnostic := trim_back [newline; carriage_return] diagnostic in
  let alias := socket_path h in
  let operator_path := own_selected_path cfg in
  let diagnostic :=
    if negb (bool_decide (alias = [])) && negb (bool_decide (operator_path = [])) &&
       negb (bool_decide (alias = operator_path))
    then replace_all alias operator_path diagnostic else diagnostic in
  diagnostic ++ txt " (running: " ++ rendered_command command ++ txt ")".

Definition exit_status (reply : ProcessReply) : Z :=
  match termination reply with Exited code => code | Signaled _ => -1 end.

Definition interpret_reply (dispatching : bool) (command : CommandRequest) (allowed_bytes : N)
    (reply : ProcessReply) (notify : bool) (h : Handle W) :
    expected CommandFailure text * Handle W :=
  let failed failure h := if notify then report_failure dispatching command failure h
                          else interpret_failure_unobserved command failure h in
  let succeed out h := (Value out, if notify then observe dispatching command None h else h) in
  if output_truncated reply then
    failed (MkFailure truncated replied 0
      (txt "tmux produced more output than the " ++ dec allowed_bytes ++
       txt " byte limit this call allowed for")) h
  else if exited_badly reply && fence_fired (stderr_bytes reply) (fence_marker cfg) then
    failed replaced_daemon (set_cache None h)
  else
    let absent := exited_badly reply && endpoint_is_absent (stderr_bytes reply) in
    let h := if absent then set_cache None h else h in
    if absent && only_argument command (txt "kill-server") then succeed [] h
    else if negb (succeeded reply) then
      failed (MkFailure refused replied (exit_status reply) (refusal_diagnostic command reply h)) h
    else succeed (stdout_bytes reply) h.

(** * Running *)

Definition publish_started_endpoint (start_stderr : text) (h : Handle W) :
    expected CommandFailure unit * Handle W :=
  let '(endpoint, w) := bind_socket_endpoint (own_connection cfg) (world (env h)) in
  let h := set_env (MkEnv w (sent (env h))) h in
  match endpoint with
  | Unexpected e =>
      (Unexpected (MkFailure pipe replied 0
         (txt "tmux started but its exact endpoint could not be retained: " ++ e)), h)
  | Value endpoint =>
      if bound_missing endpoint || bool_decide (bound_identity endpoint = []) then
        (Unexpected (MkFailure missing replied 0
           (txt "tmux started but its exact endpoint was not available to retain" ++
            (if bool_decide (start_stderr = []) then txt ": tmux gave no reason"
             else txt ": " ++ start_stderr))), h)
      else
        (Value tt,
         MkHandle (env h) false
           (Some (MkPublished (bound_connection endpoint) (bound_socket_path endpoint)
                    (bound_identity endpoint)))
           (version_cache h) (reports h))
  end.

Definition process_error_failure (e : ProcessError) : CommandFailure :=
  MkFailure (kind_of (error_kind e)) (error_delivery e) (-1) (error_diagnostic e).

Definition starts_server (command : CommandRequest) : bool :=
  bool_decide (first_value command = txt "new-session") ||
  bool_decide (first_value command = txt "start-server").

(** What [run_scoped] does with the reply of a launched request. *)
Definition conclude (command : CommandRequest) (publishes : bool) (request : ProcessRequest)
    (reply : expected ProcessError ProcessReply) (h : Handle W) :
    expected CommandFailure text * Handle W :=
  match reply with
  | Unexpected e => report_failure true command (process_error_failure e) h
  | Value reply =>
      if negb publishes then interpret_reply true command (capture_limit request) reply true h
      else
        let start_stderr := trim_back [newline; carriage_return] (stderr_bytes reply) in
        let '(interpreted, h) := interpret_reply true command (capture_limit request) reply false h in
        match interpreted with
        | Unexpected f => (interpreted, observe true command (Some f) h)
        | Value _ =>
            let '(published, h) := publish_started_endpoint start_stderr h in
            match published with
            | Unexpected f => report_failure true command f h
            | Value _ => (interpreted, observe true command None h)
            end
        end
  end.

Definition run_scoped (command : CommandRequest) (timeout output_limit : option N) (h : Handle W) :
    expected CommandFailure text * Handle W :=
  let version_query := only_argument command (txt "-V") in
  let publishes := socket_missing h && startable cfg && starts_server command in
  if socket_missing h && negb version_query && (negb (startable cfg) || negb (starts_server command))
  then report_failure false command missing_handle_failure h
  else
    let '(prepared, h) := prepare_request command timeout output_limit true h in
    match prepared with
    | Unexpected f => report_failure false command f h
    | Value AbsentNoop => (Value [], observe false command None h)
    | Value (Launch request) =>
        let '(reply, e) := launch request (env h) in
        conclude command publishes request reply (set_env e h)
    end.

Definition run (command : CommandRequest) (timeout output_limit : option N) (h : Handle W) :
    expected CommandFailure text * Handle W := run_scoped command timeout output_limit h.

Definition async_preflight (h : Handle W) : expected CommandFailure unit :=
  if negb (socket_missing h) then Value tt else Unexpected missing_handle_failure.

(** [run_in_session]: one namespace on POSIX. *)
Definition run_in_session (command : CommandRequest) (session_id session_name : text)
    (timeout output_limit : option N) (h : Handle W) : expected CommandFailure text * Handle W :=
  run_scoped command timeout output_limit h.

(** [Backend::run_batch]. *)
Definition run_batch (batch : CommandBatch) (timeout output_limit : option N) (h : Handle W) :
    expected CommandFailure text * Handle W := run (batch_request batch) timeout output_limit h.

Definition run_unobserved (command : CommandRequest) (timeout output_limit : option N) (h : Handle W) :
    expected CommandFailure text * Handle W :=
  let version_query := only_argument command (txt "-V") in
  if socket_missing h && negb version_query
  then interpret_failure_unobserved command missing_handle_failure h
  else
    let '(prepared, h) := prepare_request command timeout output_limit true h in
    match prepared with
    | Unexpected f => interpret_failure_unobserved command f h
    | Value AbsentNoop => (Value [], h)
    | Value (Launch request) =>
        let '(reply, e) := launch request (env h) in
        let h := set_env e h in
        match reply with
        | Unexpected e => interpret_failure_unobserved command (process_error_failure e) h
        | Value reply => interpret_reply false command (capture_limit request) reply false h
        end
    end.
End backend.

(** * What is sent reads back as the command *)

Lemma ends_with_own c s : ends_with_char c (s ++ [c]) = true.
Proof. rewrite ends_with_char_snoc. by apply bool_decide_eq_true. Qed.

Lemma ends_with_char_true c s : ends_with_char c s = true -> exists s', s = s' ++ [c].
Proof.
  unfold ends_with_char. destruct s as [|d s _] using rev_ind; [done|].
  rewrite last_snoc. intros H%bool_decide_eq_true. subst d. by exists s.
Qed.

(** A word as the daemon reads it after the escape: itself, or the separator. *)
Lemma read_word_escaped w :
  read_word (escaped_argument w) =
  if bool_decide (w = kCommandSeparator) then ([], true) else (w, false).
Proof.
  unfold escaped_argument. case_bool_decide as Hsep.
  { subst w. by vm_compute. }
  case_bool_decide as Hnil; [by subst w|]. cbn [orb].
  destruct (ends_with_char ";"%char w) eqn:E; cbn [negb].
  - apply ends_with_char_true in E as [s ->]. rewrite length_app. cbn [length].
    rewrite Nat.add_sub, take_app_length. change (txt "\;") with (["\"%char] ++ [";"%char]).
    rewrite app_assoc. unfold read_word at 1. rewrite ends_with_own, length_app. cbn [length].
    rewrite Nat.add_sub, take_app_length, ends_with_own, length_app. cbn [length].
    by rewrite Nat.add_sub, take_app_length.
  - unfold read_word. by rewrite E.
Qed.

Lemma split_commands_nonempty ws : split_commands ws <> [].
Proof.
  destruct ws as [|w ws]; cbn [split_commands]; [done|].
  case_bool_decide; [done|]. by destruct (split_commands ws).
Qed.

Lemma separate_loop_split ws finished current :
  separate_loop (escaped_argument <$> ws) finished current =
  finished ++ match split_commands ws with c :: cs => (current ++ c) :: cs | [] => [current] end.
Proof.
  revert finished current. induction ws as [|w ws IH]; intros finished current.
  { cbn. by rewrite app_nil_r. }
  pose proof (split_commands_nonempty ws). rewrite fmap_cons. cbn [separate_loop]. rewrite read_word_escaped. cbn [split_commands].
  case_bool_decide as Hw.
  - cbn [negb orb]. rewrite bool_decide_true by done. cbn [negb]. rewrite IH, <-app_assoc.
    rewrite app_nil_r. cbn [app]. destruct (split_commands ws) as [|c cs]; done.
  - cbn [negb orb]. rewrite IH. destruct (split_commands ws) as [|c cs]; [done|].
    by rewrite <-app_assoc.
Qed.

Lemma separate_escaped ws : separate (escaped_argument <$> ws) = split_commands ws.
Proof.
  unfold separate. rewrite separate_loop_split.
  pose proof (split_commands_nonempty ws). by destruct (split_commands ws).
Qed.

(** What the backend sends is what the caller wrote: reading the escaped argv as
    the daemon does splits it at the separator words and nowhere else, and gives
    back every argument byte for byte, those ending in a semicolon included. *)
Theorem sent_reads_back ws : separate (escaped_argument <$> ws) = split_commands ws.
Proof. exact (separate_escaped ws). Qed.

Lemma read_word_plain w : ends_with_char ";"%char w = false -> read_word w = (w, false).
Proof. unfold read_word. by intros ->. Qed.

Section hidden.
Variables (target l : text).
Hypothesis target_some : target <> [].
Hypothesis target_end : ends_with_char "\"%char target = false.
Hypothesis l_end : ends_with_char ";"%char l = false.
Let command := [txt "select-layout"; txt "-t"; target ++ txt ";"; l].

(** What is sent is one command. *)
Lemma hidden_sent : separate (escaped_argument <$> command) = [command].
Proof.
  unfold separate. rewrite separate_loop_split. unfold command. cbn [app].
  change (txt ";") with [";"%char]. rewrite split_commands_last; [done|].
  assert (forall s, ends_with_char ";"%char s = false -> kCommandSeparator <> s) as Hns
    by (intros s Hs <-; vm_compute in Hs; discriminate).
  rewrite !not_elem_of_cons.
  split_and!; [by vm_compute | by vm_compute | | by apply Hns | apply not_elem_of_nil].
  intros H%(f_equal length). rewrite length_app in H.
  change (length kCommandSeparator) with 1 in H. destruct target; [done | cbn in H; lia].
Qed.

(** What is checked is two. *)
Lemma hidden_checked : separate command = [[txt "select-layout"; txt "-t"; target]; [l]].
Proof.
  unfold separate, command. cbn [separate_loop].
  rewrite !(read_word_plain (txt _)) by by vm_compute.
  assert (read_word (target ++ txt ";") = (target, true)) as ->.
  { unfold read_word. change (txt ";") with [";"%char].
    rewrite ends_with_own, length_app. cbn [length].
    by rewrite Nat.add_sub, take_app_length, target_end. }
  rewrite read_word_plain by done. cbn [negb orb app].
  by rewrite bool_decide_false by done.
Qed.

Lemma hidden_flags :
  starts_with (txt "-") l = false ->
  flags_of (MkInvocation (txt "select-layout") [txt "-t"; target ++ txt ";"; l]) =
  MkFlags [MkFlag "t"%char (target ++ txt ";")] [l].
Proof.
  intros Hdash. unfold flags_of. cbn [inv_name arguments].
  change (valued_of (txt "select-layout")) with ["t"%char]. unfold parse_flags.
  change [txt "-t"; target ++ txt ";"; l]
    with (spell ["t"%char] (MkFlag "t"%char (target ++ txt ";")) ++ [l]).
  rewrite parse_flags_loop_spell; [|split; [done | intros Hin; exfalso; apply Hin; left]].
  cbn [parse_flags_loop]. rewrite Hdash. cbn [negb]. by rewrite orb_true_r.
Qed.
End hidden.

(** No gate is about a [select-layout] without an operand. *)
Lemma no_operand_allowed target v live :
  ~ Forbidden v live (MkInvocation (txt "select-layout") [txt "-t"; target]).
Proof.
  unfold Forbidden. cbn zeta. intros H.
  repeat (destruct H as [(Hn & _)|H]; [by vm_compute in Hn|]).
  destruct H as [(_ & l' & Ho & _)|H]; [done|].
  destruct H as [(_ & name & _ & [(Hn & _)|[(Hn & _)|([Hn|Hn] & _)]])|(Hn & _)];
    by vm_compute in Hn.
Qed.

(** What the guard lets through and what is sent for it. *)
Lemma hidden_from_guard target l v live :
  target <> [] -> ends_with_char "\"%char target = false ->
  ends_with_char ";"%char l = false -> resolve l = None -> starts_with (txt "-") l = false ->
  let command := [txt "select-layout"; txt "-t"; target ++ txt ";"; l] in
  let sent := MkInvocation (txt "select-layout") [txt "-t"; target ++ txt ";"; l] in
  refuse_literal command v live = None /\
  invocations (escaped_argument <$> command) = [sent] /\
  (~ runs_on v (MkLayoutRequest l 1) -> Forbidden v live sent).
Proof.
  intros Hne Hb Hl Hres Hdash command sent.
  assert (forall args, invocation (txt "select-layout" :: args) =
            Some (MkInvocation (txt "select-layout") args)) as Hinv.
  { intros args. unfold invocation.
    by change (resolve (txt "select-layout")) with (Some (txt "select-layout")). }
  split_and!.
  - unfold refuse_literal, invocations, command. rewrite hidden_checked by done.
    cbn [omap list_omap]. rewrite Hinv. unfold invocation. rewrite Hres.
    cbn [fmap list_fmap option_fmap option_map].
    apply first_refusal_None, Forall_singleton, refuse_command_spec, no_operand_allowed.
  - unfold invocations, command. rewrite hidden_sent by done. cbn [omap list_omap]. by rewrite Hinv.
  - intros Hbad. unfold Forbidden. cbn zeta. right; right; right; left. split; [done|].
    exists l. unfold sent. by rewrite hidden_flags.
Qed.

(** * Running, checked *)

Section backend_lemmas.
Context {W : Type} {host : Host W} {sockets : Sockets W}.
Variable cfg : Config.

Definition is_probe (r : ProcessRequest) : Prop :=
  (exists selectors timeout marker, r = probe_request (tmux_binary cfg) selectors timeout marker) \/
  (exists timeout, r = version_request (tmux_binary cfg) timeout).

Definition Supported (e : EndpointVersion) : Prop :=
  unbounded (endpoint_version e) = false /\
  version_ltb (endpoint_version e) kMinimumSupported = false.

(** The remembered version is a live daemon's, at or above the floor. *)
Definition cache_ok (h : Handle W) : Prop :=
  forall e, version_cache h = Some e -> live e = true /\ Supported e.

(** A step that asks about the endpoint and changes nothing but the memory of it. *)
Definition asks (h h' : Handle W) : Prop :=
  socket_missing h' = socket_missing h /\ started_endpoint h' = started_endpoint h /\
  reports h' = reports h /\
  exists ps, sent (env h') = sent (env h) ++ ps /\ Forall is_probe ps.

Lemma asks_refl h : asks h h.
Proof. split_and!; [done..|]. exists []. split; [by rewrite app_nil_r | constructor]. Qed.

Lemma probes_asked before after selectors t1 t2 marker :
  (after = before ++ [probe_request (tmux_binary cfg) selectors t1 marker] \/
   after = before ++ [probe_request (tmux_binary cfg) selectors t1 marker;
                      version_request (tmux_binary cfg) t2]) ->
  exists ps, after = before ++ ps /\ Forall is_probe ps.
Proof.
  assert (is_probe (probe_request (tmux_binary cfg) selectors t1 marker)) as H1 by (left; eauto).
  assert (is_probe (version_request (tmux_binary cfg) t2)) as H2 by (right; eauto).
  intros [-> | ->]; eexists; (split; [reflexivity|]); eauto using Forall_cons_2, Forall_nil_2.
Qed.

Lemma check_version_spec timeout h :
  cache_ok h ->
  let '(r, h') := check_version cfg timeout h in
  cache_ok h' /\ asks h h' /\
  match r with Value e => Supported e | Unexpected f => delivery f = not_started end.
Proof.
  intros Hc. unfold check_version. destruct (version_cache h) as [e|] eqn:Hv.
  { split_and!; [done | apply asks_refl | by apply Hc]. }
  pose proof (query_endpoint_spec (tmux_binary cfg) (connection cfg h)
                (Some (default 30000%N timeout)) (env h)) as Hq.
  cbn zeta in Hq. destruct (query_endpoint _ _ _ _) as [[e|f] env'];
    destruct Hq as (Hsent & Hf & _ & _).
  - assert (forall c, asks h (set_cache c (set_env env' h))) as Ha.
    { intros c. split_and!; [done..|]. by eapply probes_asked. }
    pose proof (require_supported_spec e kMinimumSupported) as [Hok Hbad].
    destruct (require_supported e kMinimumSupported) as [[]|f].
    + assert (Supported e) as He by by apply Hok.
      destruct (live e) eqn:Hl.
      * split_and!; [by intros e' [= <-] | apply Ha | done].
      * split_and!; [done | apply (Ha (version_cache h)) | done].
    + split_and!; [done | apply (Ha (version_cache h)) | by apply Hbad].
  - split_and!; [done | | by apply Hf].
    split_and!; [done..|]. by eapply probes_asked.
Qed.

Lemma check_command_spec command timeout h :
  cache_ok h ->
  let '(r, h') := check_command cfg command timeout h in
  cache_ok h' /\ asks h h' /\
  match r with
  | Unexpected f => delivery f = not_started
  | Value None => only_argument command (txt "-V") = true \/ only_argument command (txt "-h") = true
  | Value (Some e) => Supported e /\ refuse_literal (argv command) (endpoint_version e) (live e) = None
  end.
Proof.
  intros Hc. unfold check_command. destruct command as [|a command].
  { split_and!; [done | apply asks_refl | done]. }
  destruct (only_argument _ (txt "-V") || only_argument _ (txt "-h")) eqn:Ho.
  { split_and!; [done | apply asks_refl |]. by apply orb_true_iff in Ho. }
  destruct (starts_with (txt "-") _); [split_and!; [done | apply asks_refl | done]|].
  pose proof (check_version_spec timeout h Hc) as H.
  destruct (check_version cfg timeout h) as [[e|f] h'].
  - destruct H as (? & ? & ?).
    destruct (refuse_literal _ _ _) as [f|] eqn:Hr; [|done]. split_and!; [done..|].
    by eapply refuse_literal_not_started.
  - done.
Qed.

(** What interpreting a reply leaves alone, and what it remembers. *)
Lemma interpret_reply_state dispatching command allowed reply notify h :
  cache_ok h ->
  let '(r, h') := interpret_reply cfg dispatching command allowed reply notify h in
  cache_ok h' /\ env h' = env h /\ socket_missing h' = socket_missing h /\
  started_endpoint h' = started_endpoint h.
Proof.
  intros Hc. unfold interpret_reply, report_failure, interpret_failure_unobserved, observe.
  repeat first [case_match; try discriminate | progress simplify_eq/=];
    split_and!; try done; unfold cache_ok; cbn; done.
Qed.

Lemma publish_started_endpoint_spec start_stderr h :
  cache_ok h ->
  let '(r, h') := publish_started_endpoint cfg start_stderr h in
  cache_ok h' /\ sent (env h') = sent (env h) /\ reports h' = reports h.
Proof.
  intros Hc. unfold publish_started_endpoint.
  destruct (bind_socket_endpoint _ _) as [[e|e] w]; [destruct (_ || _)|]; done.
Qed.

Lemma observe_state d command f (h : Handle W) :
  cache_ok h ->
  cache_ok (observe cfg d command f h) /\ sent (env (observe cfg d command f h)) = sent (env h).
Proof. intros H. unfold observe. by destruct (negb (observed cfg)). Qed.

Lemma conclude_state command publishes request reply h :
  cache_ok h ->
  let '(r, h') := conclude cfg command publishes request reply h in
  cache_ok h' /\ sent (env h') = sent (env h).
Proof.
  intros Hc. unfold conclude, report_failure.
  pose proof (fun d f => observe_state d command f) as Ho.
  destruct reply as [reply|e]; [|by apply Ho].
  destruct publishes; cbn [negb].
  - pose proof (interpret_reply_state true command (capture_limit request) reply false h Hc) as H1.
    destruct (interpret_reply _ _ _ _ _ _ _) as [[out|f] h1]; destruct H1 as (H1 & E1 & _).
    2:{ rewrite <-E1. by apply Ho. }
    pose proof (publish_started_endpoint_spec (trim_back [newline; carriage_return] (stderr_bytes reply)) h1 H1)
      as H2.
    destruct (publish_started_endpoint _ _ _) as [[[]|f] h2]; destruct H2 as (H2 & E2 & _);
      rewrite <-E1, <-E2; by apply Ho.
  - pose proof (interpret_reply_state true command (capture_limit request) reply true h Hc) as H1.
    destruct (interpret_reply _ _ _ _ _ _ _) as [r h1]. destruct H1 as (H1 & -> & _). done.
Qed.

(** The endpoint that is asked for a call: the remembered one, or what the probe answers. *)
Definition known_endpoint (timeout : option N) (h : Handle W) (e : EndpointVersion) : Prop :=
  version_cache h = Some e \/
  version_cache h = None /\
  (query_endpoint (tmux_binary cfg) (connection cfg h) (Some (default 30000%N timeout)) (env h)).1 = Value e.

(** A request for a command, checked against that endpoint: it goes to the handle's own
    connection and carries the fence to the very daemon that answered, and [-N] unless it
    may start one. *)
Definition checked_request (command : CommandRequest) (timeout : option N) (h : Handle W)
    (r : ProcessRequest) : Prop :=
  exists e, known_endpoint timeout h e /\ Supported e /\
    refuse_literal (argv command) (endpoint_version e) (live e) = None /\
    exists pre, req_arguments r = pre ++ (public_arg <$> connection cfg h) ++
      (if live e then public_arg (txt "-N") :: version_fence (token e) (fence_marker cfg)
       else if startable cfg then [] else [public_arg (txt "-N")]) ++
      sent_arguments command.

Lemma check_version_known timeout h :
  let '(r, h') := check_version cfg timeout h in
  (forall e, r = Value e -> known_endpoint timeout h e) /\ (is_Some (version_cache h) -> h' = h).
Proof.
  unfold check_version, known_endpoint. destruct (version_cache h) as [e|].
  { split; [intros e' [= <-]; by left | done]. }
  destruct (query_endpoint _ _ _ _) as [[e|f] env']; [|split; [done | by intros []]].
  destruct (require_supported e kMinimumSupported) as [[]|f]; (split; [|by intros []]); [|done].
  intros e' [= <-]. by right.
Qed.

Lemma check_command_known command timeout h :
  let '(r, h') := check_command cfg command timeout h in
  (forall e, r = Value (Some e) -> known_endpoint timeout h e) /\ (is_Some (version_cache h) -> h' = h).
Proof.
  unfold check_command. destruct command as [|a command]; [done|].
  destruct (_ || _); [done|]. destruct (starts_with _ _); [done|].
  pose proof (check_version_known timeout h) as H. destruct (check_version cfg timeout h) as [[e|f] h'];
    destruct H as [H1 H2]; [|done].
  destruct (refuse_literal _ _ _); [done|]. split; [|done]. intros e' [= <-]. auto.
Qed.

Lemma asks_connection h h' : asks h h' -> connection cfg h' = connection cfg h.
Proof. intros (E1 & E2 & _). unfold connection, published_endpoint. by rewrite E1, E2. Qed.

Lemma build_request_checked command timeout limit e (h h' : Handle W) :
  known_endpoint timeout h e -> asks h h' -> Supported e ->
  refuse_literal (argv command) (endpoint_version e) (live e) = None ->
  checked_request command timeout h (build_request cfg command timeout limit (Some e) h').
Proof.
  intros Hk Ha Hs Hr. exists e. split_and!; [done..|].
  unfold build_request. cbn [req_arguments]. rewrite (asks_connection _ _ Ha).
  assert (forall a b c d d' e : list Argument, d = d' -> a ++ b ++ c ++ d ++ e = (a ++ b) ++ c ++ d' ++ e)
    as Happ by (intros a b c d d' e' ->; by rewrite <-!app_assoc).
  eexists. apply Happ. unfold checked_arguments. by destruct (live e), (startable cfg).
Qed.

Lemma build_request_ends command timeout limit checked (h : Handle W) :
  exists pre, req_arguments (build_request cfg command timeout limit checked h) = pre ++ sent_arguments command.
Proof. unfold build_request. cbn [req_arguments]. eexists. rewrite !app_assoc. reflexivity. Qed.
End backend_lemmas.

(** C32: Nothing reaches a daemon unchecked.  A call of [run] sends probes, none when the
    endpoint's version is remembered, and then at most one request, which ends in the
    command's own words.  But for the bare [-V] and [-h], which no daemon sees, that request
    is for the endpoint that is remembered or that the probe answered: its version is one
    this library supports and one the guards let the command through on; where a daemon
    answered, the request is fenced to that daemon's version and told not to start another;
    where none did, the guards were asked about the executable's own version and there is
    nothing to fence to.  When no request was sent the failure says nothing was started, and
    the remembered version stays a supported daemon's. *)
Theorem run_checked {W : Type} {host : Host W} {sockets : Sockets W} cfg command timeout limit
    (h : Handle W) :
  cache_ok h ->
  let '(r, h') := run cfg command timeout limit h in
  cache_ok h' /\
  exists ps launched, sent (env h') = sent (env h) ++ ps ++ launched /\
    Forall (is_probe cfg) ps /\ (is_Some (version_cache h) -> ps = []) /\
    ((launched = [] /\ forall f, r = Unexpected f -> delivery f = not_started) \/
     exists request, launched = [request] /\
       (exists pre, req_arguments request = pre ++ sent_arguments command) /\
       (only_argument command (txt "-V") = true \/ only_argument command (txt "-h") = true \/
        checked_request cfg command timeout h request)).
Proof.
  intros Hc. unfold run, run_scoped.
  pose proof (fun d f (h : Handle W) => observe_state cfg d command f h) as Ho.
  destruct (socket_missing h && _ && _).
  { unfold report_failure. split; [by apply Ho|]. exists [], []. rewrite !app_nil_r.
    split_and!; [by apply Ho | constructor | done | left; split; [done | by intros f [= <-]]]. }
  unfold prepare_request. pose proof (check_command_spec cfg command timeout h Hc) as H.
  pose proof (check_command_known cfg command timeout h) as Hk.
  destruct (check_command cfg command timeout h) as [[checked|f] h1]; destruct H as (H1 & Ha & Hr), Hk as [Hk Hcached];
    pose proof Ha as (_ & _ & _ & ps & Hs & Hps);
    assert (is_Some (version_cache h) -> ps = []) as Hnone
      by (intros Hx; rewrite (Hcached Hx) in Hs; apply (f_equal length) in Hs; rewrite length_app in Hs; apply nil_length_inv; lia).
  2:{ unfold report_failure. split; [by apply Ho|].
      exists ps, []. rewrite app_nil_r. split_and!; [rewrite <-Hs; by apply Ho | done | done |].
      left. split; [done|]. by intros f' [= <-]. }
  destruct (assemble_request cfg command timeout limit checked true h1) as [request|] eqn:Hasm.
  2:{ split; [by apply Ho|]. exists ps, []. rewrite app_nil_r.
      split_and!; [rewrite <-Hs; by apply Ho | done | done |]. by left. }
  pose proof (launch_sent request (env h1)) as Hl. destruct (launch request (env h1)) as [reply e].
  cbn [snd] in Hl.
  pose proof (conclude_state cfg command (socket_missing h && startable cfg && starts_server command)
                request reply (set_env e h1) H1) as Hcon.
  destruct (conclude _ _ _ _ _ _) as [r h2]. destruct Hcon as [H2 E2]. split; [done|].
  exists ps, [request]. rewrite E2. cbn [env set_env]. rewrite Hl, Hs, <-app_assoc.
  split_and!; [done | done | done |]. right. exists request. split; [done|].
  unfold assemble_request in Hasm.
  destruct checked as [c|]; [|injection Hasm as <-; split; [apply build_request_ends | tauto]].
  destruct (_ && _ && _); [done|]. injection Hasm as <-. split; [apply build_request_ends|].
  right; right. destruct Hr as [Hsup Href]. apply build_request_checked; auto.
Qed.

(** C33: The guard reads a command before it is escaped, so it does not read what is
    sent.  An argument that ends in a semicolon hides the rest of its command: whatever
    the endpoint's release, [run] sends a layout given after such a target, in a request
    whose words the daemon reads as one [select-layout] with that layout, although the
    daemon may be one that the guards forbid it to. *)
Theorem guard_misses_after_semicolon {W : Type} {host : Host W} {sockets : Sockets W} cfg timeout limit
    (h : Handle W) e target l :
  cache_ok h -> socket_missing h = false -> (check_version cfg timeout h).1 = Value e ->
  target <> [] -> ends_with_char "\"%char target = false ->
  ends_with_char ";"%char l = false -> resolve l = None -> starts_with (txt "-") l = false ->
  let words : list text := [txt "select-layout"; txt "-t"; target ++ txt ";"; l] in
  let sent_command := MkInvocation (txt "select-layout") [txt "-t"; target ++ txt ";"; l] in
  (exists request pre, sent (env (run cfg (plain <$> words) timeout limit h).2) =
      sent (env (check_version cfg timeout h).2) ++ [request] /\
    req_arguments request = pre ++ sent_arguments (plain <$> words)) /\
  invocations (arg_value <$> sent_arguments (plain <$> words)) = [sent_command] /\
  (~ runs_on (endpoint_version e) (MkLayoutRequest l 1) -> Forbidden (endpoint_version e) (live e) sent_command).
Proof.
  intros Hc Hm He Hne Hb Hl Hres Hdash words sent_command.
  destruct (hidden_from_guard target l (endpoint_version e) (live e) Hne Hb Hl Hres Hdash) as (Href & Hinv & Hforb).
  fold words in Href, Hinv.
  assert (argv (plain <$> words) = words) as Hargv by done.
  assert (arg_value <$> sent_arguments (plain <$> words) = escaped_argument <$> words) as Hsent by done.
  split_and!; [|by rewrite Hsent|done].
  assert (check_command cfg (plain <$> words) timeout h = (Value (Some e), (check_version cfg timeout h).2)) as Hcheck.
  { unfold check_command. cbn [fmap list_fmap words].
    change (only_argument _ (txt "-V") || only_argument _ (txt "-h")) with false.
    change (starts_with (txt "-") _) with false. cbv match.
    pose proof (check_version_spec cfg timeout h Hc) as _. revert He.
    destruct (check_version cfg timeout h) as [r h1]. cbn [fst snd]. intros ->. 
    change (argv _) with words. by rewrite Href. }
  pose proof (check_version_spec cfg timeout h Hc) as Hspec. unfold run, run_scoped, prepare_request.
  rewrite Hm, Hcheck. cbn [andb]. destruct (check_version cfg timeout h) as [r h1]. cbn [snd]. destruct Hspec as (Hc1 & _).
  unfold assemble_request. change (only_argument _ (txt "kill-server")) with false. rewrite andb_false_r.
  set (request := build_request _ _ _ _ _ _). pose proof (launch_sent request (env h1)) as Hlaunch.
  destruct (launch request (env h1)) as [reply env1]. cbn [snd] in Hlaunch.
  pose proof (conclude_state cfg (plain <$> words) false request reply (set_env env1 h1) Hc1) as Hcon.
  destruct (conclude _ _ _ _ _ _) as [r2 h2]. destruct Hcon as [_ E2]. cbn [snd]. rewrite E2. cbn [env set_env].
  destruct (build_request_ends cfg (plain <$> words) timeout limit (Some e) h1) as [pre Hpre].
  exists request, pre. by split.
Qed.

(** * Observed, redacted, complete *)

Definition failure_in (r : expected CommandFailure text) : option CommandFailure :=
  match r with Unexpected f => Some f | Value _ => None end.

(** The report of a call that returned [r]. *)
Definition report_for (command : CommandRequest) (r : expected CommandFailure text)
    (dispatched : bool) : CommandReport :=
  MkReport (rendered_command command) (argv command) (failure_in r)
    (match r with
     | Unexpected f => negb (bool_decide (delivery f = not_started))
     | Value _ => true
     end && dispatched).

Definition hides (command : CommandRequest) (r : expected CommandFailure text) : Prop :=
  forall f p, r = Unexpected f -> p ∈ command_parts command -> occurs p (diagnostic f) = false.

Section results.
Context {W : Type} {host : Host W} {sockets : Sockets W}.
Variable cfg : Config.

(** One call told its observer exactly what it returns. *)
Definition told (command : CommandRequest) (h h' : Handle W) (r : expected CommandFailure text) : Prop :=
  exists dispatched, reports h' = reports h ++
    (if observed cfg then [report_for command r dispatched] else []).

Lemma observe_told dispatching command r (h : Handle W) :
  reports (observe cfg dispatching command (failure_in r) h) =
  reports h ++ (if observed cfg then [report_for command r dispatching] else []).
Proof.
  unfold observe, report_for. destruct (observed cfg); cbn [negb reports]; [by destruct r|].
  by rewrite app_nil_r.
Qed.

Lemma report_failure_told dispatching command f (h : Handle W) :
  let '(r, h') := report_failure cfg dispatching command f h in
  hides command r /\ reports h' = reports h ++
    (if observed cfg then [report_for command r dispatching] else []).
Proof.
  unfold report_failure. split.
  - intros f' p [= <-] Hp. by apply redact_clean.
  - apply (observe_told dispatching command (Unexpected (redact f command))).
Qed.

Lemma unobserved_told command f (h : Handle W) :
  let '(r, h') := interpret_failure_unobserved command f h in hides command r /\ reports h' = reports h.
Proof. split; [|done]. intros f' p [= <-] Hp. by apply redact_clean. Qed.

Lemma interpret_reply_told dispatching command allowed reply notify (h : Handle W) :
  let '(r, h') := interpret_reply cfg dispatching command allowed reply notify h in
  hides command r /\ reports h' = reports h ++
    (if notify && observed cfg then [report_for command r dispatching] else []).
Proof.
  unfold interpret_reply.
  assert (forall f (h0 : Handle W), reports h0 = reports h ->
    let '(r, h') := if notify then report_failure cfg dispatching command f h0
                    else interpret_failure_unobserved command f h0 in
    hides command r /\ reports h' = reports h ++
      (if notify && observed cfg then [report_for command r dispatching] else [])) as Hfail.
  { intros f h0 <-. destruct notify; cbn [andb]; [apply report_failure_told|].
    rewrite app_nil_r. apply unobserved_told. }
  assert (forall out (h0 : Handle W), reports h0 = reports h ->
    hides command (Value out) /\
    reports (if notify then observe cfg dispatching command None h0 else h0) = reports h ++
      (if notify && observed cfg then [report_for command (Value out) dispatching] else [])) as Hok.
  { intros out h0 <-. split; [by intros f p|]. destruct notify; cbn [andb].
    - apply (observe_told dispatching command (Value out)).
    - by rewrite app_nil_r. }
  destruct (output_truncated reply); [by apply Hfail|].
  destruct (exited_badly reply && fence_fired _ _); [by apply Hfail|].
  destruct (exited_badly reply && endpoint_is_absent _); cbn [andb].
  - destruct (only_argument command (txt "kill-server")); [by apply Hok|].
    destruct (succeeded reply); cbn [negb]; [by apply Hok | by apply Hfail].
  - destruct (succeeded reply); cbn [negb]; [by apply Hok | by apply Hfail].
Qed.

Lemma conclude_told command publishes request reply (h : Handle W) :
  let '(r, h') := conclude cfg command publishes request reply h in
  hides command r /\ reports h' = reports h ++
    (if observed cfg then [report_for command r true] else []).
Proof.
  unfold conclude. destruct reply as [reply|e]; [|apply report_failure_told].
  destruct publishes; cbn [negb].
  2:{ apply (interpret_reply_told true command (capture_limit request) reply true h). }
  pose proof (interpret_reply_told true command (capture_limit request) reply false h) as H1.
  destruct (interpret_reply _ _ _ _ _ _ _) as [[out|f] h1]; destruct H1 as [H1 E1];
    cbn [andb] in E1; rewrite app_nil_r in E1.
  2:{ split; [done|]. rewrite <-E1. apply (observe_told true command (Unexpected f)). }
  set (why := trim_back _ _).
  assert (reports (publish_started_endpoint cfg why h1).2 = reports h1) as E2.
  { unfold publish_started_endpoint.
    destruct (bind_socket_endpoint _ _) as [[e|e] w]; [destruct (_ || _)|]; done. }
  destruct (publish_started_endpoint cfg why h1) as [[[]|f] h2]; cbn [snd] in E2; rewrite <-E1, <-E2.
  - split; [done|]. apply (observe_told true command (Value out)).
  - apply report_failure_told.
Qed.
End results.

Lemma check_command_reports {W : Type} {host : Host W} cfg command timeout (h : Handle W) :
  reports (check_command cfg command timeout h).2 = reports h.
Proof.
  unfold check_command, check_version. destruct command as [|a command]; [done|].
  destruct (_ || _); [done|]. destruct (starts_with _ _); [done|].
  destruct (version_cache h) as [e|].
  - by destruct (refuse_literal _ _ _).
  - destruct (query_endpoint _ _ _ _) as [[e|f] env']; [|done].
    destruct (require_supported _ _); [|done].
    destruct (refuse_literal _ _ _); by destruct (live e).
Qed.

(** Every call of [run] tells the observer once, and tells it the very result it
    returns: the command, its argv and the same failure or none, with no duration
    where nothing was started.  Every failure it returns has the command's secrets
    removed, and [run_unobserved] differs in telling nobody. *)
Theorem run_observed_once {W : Type} {host : Host W} {sockets : Sockets W} cfg command timeout limit
    (h : Handle W) :
  (let '(r, h') := run cfg command timeout limit h in
   hides command r /\ told cfg command h h' r) /\
  (let '(r, h') := run_unobserved cfg command timeout limit h in
   hides command r /\ reports h' = reports h).
Proof.
  pose proof (check_command_reports cfg command timeout h) as Hr. split.
  - unfold run, run_scoped, told, prepare_request.
    destruct (socket_missing h && _ && _).
    { pose proof (report_failure_told cfg false command missing_handle_failure h) as H.
      destruct (report_failure _ _ _ _ _). destruct H; eauto. }
    destruct (check_command cfg command timeout h) as [[checked|f] h1]; cbn [snd] in Hr; rewrite <-Hr.
    2:{ pose proof (report_failure_told cfg false command f h1) as H.
        destruct (report_failure _ _ _ _ _). destruct H; eauto. }
    destruct (assemble_request _ _ _ _ _ _ _) as [request|].
    2:{ split; [by intros f p|]. exists false. apply (observe_told cfg false command (Value [])). }
    destruct (launch request (env h1)) as [reply e].
    pose proof (conclude_told cfg command (socket_missing h && startable cfg && starts_server command)
                  request reply (set_env e h1)) as H.
    destruct (conclude _ _ _ _ _ _). destruct H; eauto.
  - unfold run_unobserved, prepare_request. destruct (socket_missing h && _).
    { apply (unobserved_told command missing_handle_failure h). }
    destruct (check_command cfg command timeout h) as [[checked|f] h1]; cbn [snd] in Hr; rewrite <-Hr.
    2:{ apply (unobserved_told command f h1). }
    destruct (assemble_request _ _ _ _ _ _ _) as [request|]; [|by split; [intros f p|]].
    destruct (launch request (env h1)) as [[reply|pe] e].
    + pose proof (interpret_reply_told cfg false command (capture_limit request) reply false (set_env e h1)) as H.
      destruct (interpret_reply _ _ _ _ _ _ _) as [r h2]. cbn [andb] in H. by rewrite app_nil_r in H.
    + apply (unobserved_told command (process_error_failure pe) (set_env e h1)).
Qed.

(** A success is a whole answer.  Interpreting a reply gives a value exactly when
    tmux exited with zero and nothing of its output was cut, and then the value is all
    of its standard output; or when the command was to stop a server that was already
    gone.  A daemon replaced behind the handle, or gone, is always forgotten. *)
Theorem interpret_reply_success {W : Type} {host : Host W} {sockets : Sockets W} cfg dispatching
    command allowed reply notify (h : Handle W) :
  let '(r, h') := interpret_reply cfg dispatching command allowed reply notify h in
  (forall out, r = Value out <->
     output_truncated reply = false /\
     ((succeeded reply = true /\ out = stdout_bytes reply) \/
      (exited_badly reply = true /\ fence_fired (stderr_bytes reply) (fence_marker cfg) = false /\
       endpoint_is_absent (stderr_bytes reply) = true /\
       only_argument command (txt "kill-server") = true /\ out = []))) /\
  (output_truncated reply = false -> exited_badly reply = true ->
     fence_fired (stderr_bytes reply) (fence_marker cfg) = true \/
       endpoint_is_absent (stderr_bytes reply) = true ->
     version_cache h' = None).
Proof.
  assert (forall d f (h0 : Handle W), version_cache (observe cfg d command f h0) = version_cache h0) as Ho.
  { intros d f h0. unfold observe. by destruct (negb (observed cfg)). }
  assert (succeeded reply = true -> exited_badly reply = false) as Hx.
  { unfold succeeded, exited_badly, exited_with. destruct (termination reply); [|done]. by intros ->. }
  unfold interpret_reply, report_failure, interpret_failure_unobserved.
  destruct (output_truncated reply) eqn:Ht; [destruct notify; split; naive_solver|].
  destruct (exited_badly reply) eqn:Hb; cbn [andb].
  - assert (succeeded reply = false) as -> by (destruct (succeeded reply); naive_solver).
    cbn [negb]. destruct (fence_fired _ _) eqn:Hf.
    { destruct notify; (split; [naive_solver|]); intros; by rewrite ?Ho. }
    destruct (endpoint_is_absent _) eqn:Ha; cbn [andb].
    + destruct (only_argument command (txt "kill-server")) eqn:Hk; destruct notify;
        (split; [naive_solver|]); intros; by rewrite ?Ho.
    + destruct notify; split; naive_solver.
  - cbn [andb]. destruct (succeeded reply); cbn [negb]; destruct notify; split; naive_solver.
Qed.

(** * Instances *)

#[local] Instance played : Host (list (expected ProcessError ProcessReply)) := scripted.
#[local] Instance no_sockets : Sockets (list (expected ProcessError ProcessReply)) := {|
  bind_socket_endpoint := fun _ w => (Unexpected (txt "no socket"), w);
|}.

Definition sample_config : Config :=
  MkConfig [txt "-L"; txt "work"] (txt "/tmp/work") (txt "/tmp/work") false None (txt "tmux") None
    (txt "libtmux-fence") true.

(** A daemon of release 3.4 that answers the probe and then the command. *)
Definition sample_handle : Handle (list (expected ProcessError ProcessReply)) :=
  MkHandle (MkEnv [Value (MkReply (Exited 1) []
                     (kUnknownCommand ++ txt "libtmux-version-00000000000000000000000000000000-3.4" ++
                      [newline]) false);
                   Value (MkReply (Exited 0) (txt "ok") [] false)] [])
    false None None [].

Definition sample_command : CommandRequest := [plain (txt "rename-session"); sensitive (txt "pw")].

Lemma sent_reads_back_witness :
  separate [txt "set"; txt "a\;"; txt ";"; txt "ls"] = [[txt "set"; txt "a;"]; [txt "ls"]].
Proof. exact (sent_reads_back [txt "set"; txt "a;"; txt ";"; txt "ls"]). Defined.

Lemma run_checked_witness :
  cache_ok sample_handle /\
  (run sample_config sample_command None None sample_handle).1 = Value (txt "ok") /\
  let '(r, h') := run sample_config sample_command None None sample_handle in
  cache_ok h' /\ length (sent (env h')) = 2.
Proof.
  assert (cache_ok sample_handle) as H by (intros e He; discriminate).
  split; [exact H|]. split; [vm_compute; reflexivity|].
  pose proof (run_checked sample_config sample_command None None sample_handle H) as Hr.
  assert (length (sent (env (run sample_config sample_command None None sample_handle).2)) = 2) as Hl
    by (vm_compute; reflexivity).
  destruct (run sample_config sample_command None None sample_handle) as [r h'].
  split; [exact (proj1 Hr) | exact Hl].
Defined.

Lemma run_observed_once_witness :
  let '(r, h') := run sample_config sample_command None None sample_handle in
  told sample_config sample_command sample_handle h' r.
Proof.
  pose proof (run_observed_once sample_config sample_command None None sample_handle) as [H _].
  destruct (run sample_config sample_command None None sample_handle) as [r h'].
  exact (proj2 H).
Defined.

Lemma interpret_reply_success_witness :
  interpret_reply sample_config true sample_command 10 (MkReply (Exited 0) (txt "ok") [] false) true
    sample_handle =
  (Value (txt "ok"), observe sample_config true sample_command None sample_handle) /\
  forall out h', interpret_reply sample_config true sample_command 10
    (MkReply (Exited 0) (txt "ok") [] true) true sample_handle <> (Value out, h').
Proof.
  split; [reflexivity|]. intros out h' E.
  pose proof (interpret_reply_success sample_config true sample_command 10
    (MkReply (Exited 0) (txt "ok") [] true) true sample_handle) as H.
  rewrite E in H. destruct H as [H _]. destruct (proj1 (H out) eq_refl) as [H' _]. discriminate.
Defined.

(** A daemon of release 3.4 has no mirrored layout with the main pane above. *)
Lemma guard_misses_after_semicolon_witness :
  let words := [txt "select-layout"; txt "-t"; txt "w" ++ txt ";"; txt "main-vertical-mirrored"] in
  let ran := run sample_config (plain <$> words) None None sample_handle in
  refuse_literal (escaped_argument <$> words) (tmux 3 4 0) true <> None /\
  exists request pre, sent (env ran.2) = sent (env (check_version sample_config None sample_handle).2) ++ [request] /\
    req_arguments request = pre ++ sent_arguments (plain <$> words).
Proof.
  intros words ran. split; [vm_compute; discriminate|].
  apply (guard_misses_after_semicolon sample_config None None sample_handle
           (MkEndpoint true (tmux 3 4 0) (txt "3.4")) (txt "w") (txt "main-vertical-mirrored"));
    [intros e He; discriminate | vm_compute; reflexivity | vm_compute; reflexivity | discriminate | vm_compute; reflexivity..].
Defined.
