(* ===== verification/Control.v ===== *)
(** The control-mode decoder: [src/control.cpp], [include/libtmux/control.hpp],
    [include/libtmux/notification.hpp].

    [feed] is [Parser::feed] with its partial line, open block, retention bound
    and line bound; [finish] ends the stream; [parse] reads one notification.
    The theorems: how the stream is cut into reads decides nothing but how many
    events come before an error, a framed reply comes back as exactly one block holding the bounded prefix of
    its body whatever its lines look like, pane output survives tmux's octal
    escaping byte for byte, and a failed parser stays failed. *)

From S2P Require Import Prelude Command.

Abbreviation bytes := (list ascii).

(** * Data *)

Record ProtocolError := MkProtocolError {
  message : text;
  error_delivery : DeliveryStatus;
}.
(** The aggregate [ProtocolError{"..."}]: delivery defaults to indeterminate. *)
Definition protocol_error (s : text) : ProtocolError := MkProtocolError s indeterminate.

Inductive ControlTerminal := terminal_end | terminal_error.

Record ControlBlock := MkControlBlock {
  sequence : N;
  command_number : N;
  terminal : ControlTerminal;
  begin_metadata : bytes;
  terminal_metadata : bytes;
  body : bytes;
  body_truncated : bool;
  body_bytes : nat;
}.

Record Notification := MkNotification { notification_bytes : bytes }.

Inductive Event :=
  | EventBlock (block : ControlBlock)
  | EventNotification (notification : Notification).

Record Parser := MkParser {
  pending_ : bytes;
  block_ : option ControlBlock;
  failure_ : option ProtocolError;
  retained_reply_bytes_ : nat;
  line_bytes_ : nat;
  finished_ : bool;
}.

Definition kDefaultRetainedReplyBytes : N := 1024 * 1024.
Definition kDefaultLineBytes : N := 1024 * 1024.

(** [Parser{retained_reply_bytes, line_bytes}]. *)
Definition new_parser (retained_reply_bytes line_bytes : nat) : Parser :=
  MkParser [] None None retained_reply_bytes line_bytes false.

Definition set_pending (v : bytes) (p : Parser) : Parser :=
  MkParser v (block_ p) (failure_ p) (retained_reply_bytes_ p) (line_bytes_ p) (finished_ p).
Definition set_block (v : option ControlBlock) (p : Parser) : Parser :=
  MkParser (pending_ p) v (failure_ p) (retained_reply_bytes_ p) (line_bytes_ p) (finished_ p).
Definition set_failure (e : ProtocolError) (p : Parser) : Parser :=
  MkParser (pending_ p) (block_ p) (Some e) (retained_reply_bytes_ p) (line_bytes_ p) (finished_ p).
Definition set_finished (p : Parser) : Parser :=
  MkParser (pending_ p) (block_ p) (failure_ p) (retained_reply_bytes_ p) (line_bytes_ p) true.

(** * Guards *)

Definition space : ascii := " "%char.
Definition line_feed : ascii := ascii_of_N 10.

(** [std::from_chars] into an unsigned 64-bit integer that must use every byte. *)
Definition decimal (value : text) : option N :=
  match value with
  | [] => None
  | _ => digits_loop u64_max 0 value
  end.

Record ParsedGuard := MkParsedGuard {
  guard_sequence : N;
  guard_command_number : N;
  guard_flags : N;
  guard_metadata : bytes;
}.

Definition malformed_guard : ProtocolError :=
  protocol_error (txt "malformed begin guard metadata").

Definition parse_begin (line : bytes) : expected ProtocolError ParsedGuard :=
  if negb (starts_with (txt "%begin ") line)
  then Unexpected (protocol_error (txt "malformed begin guard"))
  else
  let metadata := drop 7 line in
  match find_char space metadata with
  | None | Some O => Unexpected malformed_guard
  | Some first_space =>
      match find_from [space] metadata (first_space + 1) with
      | None => Unexpected malformed_guard
      | Some second_space =>
          if (second_space =? first_space + 1)%nat
             || bool_decide (is_Some (find_from [space] metadata (second_space + 1)))
             || (second_space + 1 =? length metadata)%nat
          then Unexpected malformed_guard
          else
          match decimal (take first_space metadata),
                decimal (take (second_space - first_space - 1) (drop (first_space + 1) metadata)),
                decimal (drop (second_space + 1) metadata) with
          | Some s, Some c, Some f => Value (MkParsedGuard s c f metadata)
          | _, _, _ => Unexpected (protocol_error (txt "non-decimal begin guard metadata"))
          end
      end
  end.

(** * Pane output *)

Definition backslash : ascii := ascii_of_N 92.

Definition octal_digit (c : ascii) : option N :=
  if ((byte_of c <? 48) || (55 <? byte_of c))%N then None else Some (byte_of c - 48)%N.

(** The bytes from [payload_start] on; [\ooo] stands for one byte. *)
Fixpoint decode_octal (fuel : nat) (line : bytes) : expected ProtocolError bytes :=
  match fuel, line with
  | 0, _ | _, [] => Value []
  | S fuel', current :: rest =>
      if negb (bool_decide (current = backslash)) then
        decoded ← decode_octal fuel' rest; Value (current :: decoded)
      else match rest with
      | d1 :: d2 :: d3 :: rest' =>
          match octal_digit d1, octal_digit d2, octal_digit d3 with
          | Some o1, Some o2, Some o3 =>
              let decoded := ((o1 * 8 + o2) * 8 + o3)%N in
              if (255 <? decoded)%N
              then Unexpected (protocol_error (txt "pane-output octal escape exceeds one byte"))
              else tail ← decode_octal fuel' rest'; Value (ascii_of_N decoded :: tail)
          | _, _, _ => Unexpected (protocol_error (txt "invalid pane-output octal escape"))
          end
      | _ => Unexpected (protocol_error (txt "short pane-output octal escape"))
      end
  end.

Definition decode_octal_payload (line : bytes) (payload_start : nat) :
    expected ProtocolError bytes :=
  decoded ← decode_octal (length line) (drop payload_start line);
  Value (take payload_start line ++ decoded).

Definition output_prefix : text := txt "%output ".
Definition extended_prefix : text := txt "%extended-output ".

Definition notification_body (line : bytes) : expected ProtocolError bytes :=
  if starts_with output_prefix line then
    match find_from [space] line (length output_prefix) with
    | None => Unexpected (protocol_error (txt "malformed pane-output notification"))
    | Some payload =>
        if (payload =? length output_prefix)%nat
        then Unexpected (protocol_error (txt "malformed pane-output notification"))
        else decode_octal_payload line (payload + 1)
    end
  else if starts_with extended_prefix line then
    match find_from (txt " : ") line (length extended_prefix) with
    | None => Unexpected (protocol_error (txt "malformed extended pane-output notification"))
    | Some delimiter => decode_octal_payload line (delimiter + 3)
    end
  else Value line.

Definition marker (line : bytes) (name : text) : bool :=
  bool_decide (line = name) || starts_with (name ++ [space]) line.

(** * Lines *)

(** The lambda [close]: the block completed by the guard [prefix], if this is it. *)
Definition close_block (block : ControlBlock) (view : bytes) (prefix : text)
    (t : ControlTerminal) : option ControlBlock :=
  if starts_with prefix view then
    let metadata := drop (length prefix) view in
    if bool_decide (metadata = begin_metadata block) then
      Some (MkControlBlock (sequence block) (command_number block) t (begin_metadata block)
              metadata (body block) (body_truncated block) (body_bytes block))
    else None
  else None.

(** A line of the body: counted in full, retained up to the bound. *)
Definition append_line (retained : nat) (block : ControlBlock) (view : bytes) : ControlBlock :=
  let arriving := (length view + 1)%nat in
  let counted := (body_bytes block + arriving)%nat in
  let with_body b t :=
    MkControlBlock (sequence block) (command_number block) (terminal block)
      (begin_metadata block) (terminal_metadata block) b t counted in
  if ((retained =? 0) || (length (body block) + arriving <=? retained))%nat then
    with_body (body block ++ view ++ [line_feed]) (body_truncated block)
  else if negb (body_truncated block) then
    with_body (body block ++ take (retained - length (body block)) view) true
  else with_body (body block) (body_truncated block).

(** The lambda [consume_line]. *)
Definition consume_line (p : Parser) (view : bytes) (events : list Event) :
    Parser * expected ProtocolError (list Event) :=
  match block_ p with
  | Some block =>
      match close_block block view (txt "%end ") terminal_end with
      | Some closed => (set_block None p, Value (events ++ [EventBlock closed]))
      | None =>
          match close_block block view (txt "%error ") terminal_error with
          | Some closed => (set_block None p, Value (events ++ [EventBlock closed]))
          | None =>
              (set_block (Some (append_line (retained_reply_bytes_ p) block view)) p,
               Value events)
          end
      end
  | None =>
      if marker view (txt "%begin") then
        match parse_begin view with
        | Unexpected e => (set_failure e p, Unexpected e)
        | Value g =>
            (set_block (Some (MkControlBlock (guard_sequence g) (guard_command_number g)
               terminal_end (guard_metadata g) [] [] false 0)) p, Value events)
        end
      else if marker view (txt "%end") || marker view (txt "%error") then
        let e := protocol_error (txt "terminal guard without an open block") in
        (set_failure e p, Unexpected e)
      else
        match notification_body view with
        | Unexpected e => (set_failure e p, Unexpected e)
        | Value b => (p, Value (events ++ [EventNotification (MkNotification b)]))
        end
  end.

(** * Feeding *)

Definition oversized_line (p : Parser) : ProtocolError :=
  protocol_error (txt "control line exceeded " ++ dec (N.of_nat (line_bytes_ p)) ++ txt " bytes").

(** The loop of [feed] over the bytes not yet consumed. *)
Fixpoint feed_loop (fuel : nat) (p : Parser) (remaining : bytes) (events : list Event) :
    Parser * expected ProtocolError (list Event) :=
  match fuel, remaining with
  | 0, _ | _, [] => (p, Value events)
  | S fuel', _ =>
      let newline := find_char line_feed remaining in
      let segment_bytes := match newline with Some n => n | None => length remaining end in
      if (negb (line_bytes_ p =? 0)
          && ((line_bytes_ p <? length (pending_ p))
              || (line_bytes_ p - length (pending_ p) <? segment_bytes)))%nat
      then
        let e := oversized_line p in
        (set_pending [] (set_failure e p), Unexpected e)
      else match newline with
      | None => (set_pending (pending_ p ++ remaining) p, Value events)
      | Some _ =>
          let view := pending_ p ++ take segment_bytes remaining in
          match consume_line (set_pending [] p) view events with
          | (p, Unexpected e) => (p, Unexpected e)
          | (p, Value events) => feed_loop fuel' p (drop (segment_bytes + 1) remaining) events
          end
      end
  end.

Definition feed (p : Parser) (input : bytes) : Parser * expected ProtocolError (list Event) :=
  match failure_ p with
  | Some e => (p, Unexpected e)
  | None =>
      if finished_ p then
        let e := protocol_error (txt "control stream already finished") in
        (set_failure e p, Unexpected e)
      else feed_loop (length input) p input []
  end.

Definition finish (p : Parser) : Parser * expected ProtocolError unit :=
  match failure_ p with
  | Some e => (p, Unexpected e)
  | None =>
      if finished_ p then (p, Value tt)
      else match pending_ p with
      | _ :: _ =>
          let e := protocol_error (txt "control stream ended with a partial line") in
          (set_failure e p, Unexpected e)
      | [] =>
          match block_ p with
          | Some _ =>
              let e := protocol_error (txt "control stream ended inside a command block") in
              (set_failure e p, Unexpected e)
          | None => (set_finished p, Value tt)
          end
      end
  end.

(** * Reading one notification *)

Inductive NotificationKind :=
  | unknown | output | extended_output | paused | resumed | sessions_changed
  | session_changed | session_renamed | session_window_changed | client_detached
  | client_session_changed | window_add | window_close | window_renamed
  | window_pane_changed | unlinked_window_add | unlinked_window_close
  | unlinked_window_renamed | pane_mode_changed | paste_buffer_changed
  | paste_buffer_deleted | subscription_changed | config_error | exit
  | layout_change | message_.

#[export] Instance NotificationKind_eq_dec : EqDecision NotificationKind.
Proof. solve_decision. Defined.

Definition kNotificationNames : list (text * NotificationKind) :=
  [ (txt "%output", output);
    (txt "%extended-output", extended_output);
    (txt "%pause", paused);
    (txt "%continue", resumed);
    (txt "%sessions-changed", sessions_changed);
    (txt "%session-changed", session_changed);
    (txt "%session-renamed", session_renamed);
    (txt "%session-window-changed", session_window_changed);
    (txt "%client-detached", client_detached);
    (txt "%client-session-changed", client_session_changed);
    (txt "%window-add", window_add);
    (txt "%window-close", window_close);
    (txt "%window-renamed", window_renamed);
    (txt "%window-pane-changed", window_pane_changed);
    (txt "%unlinked-window-add", unlinked_window_add);
    (txt "%unlinked-window-close", unlinked_window_close);
    (txt "%unlinked-window-renamed", unlinked_window_renamed);
    (txt "%pane-mode-changed", pane_mode_changed);
    (txt "%paste-buffer-changed", paste_buffer_changed);
    (txt "%paste-buffer-deleted", paste_buffer_deleted);
    (txt "%subscription-changed", subscription_changed);
    (txt "%config-error", config_error);
    (txt "%exit", exit);
    (txt "%layout-change", layout_change);
    (txt "%message", message_) ].

(** [to_string(NotificationKind)]. *)
Definition kind_name (kind : NotificationKind) : text :=
  match list_find (fun known => known.2 = kind) kNotificationNames with
  | Some (_, known) => known.1
  | None => txt "unknown"
  end.

(** The loop over the names in [parse]: the first known name, else unknown. *)
Definition kind_of_name (name : text) : NotificationKind :=
  match list_find (fun known => known.1 = name) kNotificationNames with
  | Some (_, known) => known.2
  | None => unknown
  end.

(** Fields with the offset each starts at: [field.data() - line.data()]. *)
Fixpoint leading_fields_loop (fuel : nat) (line : text) (limit index : nat) :
    list (nat * text) :=
  match fuel, limit with
  | 0, _ | _, 0 => []
  | S fuel', S limit' =>
      if (index <? length line)%nat then
        match find_from [space] line index with
        | None => [(index, drop index line)]
        | Some sp =>
            (index, take (sp - index) (drop index line)) ::
            leading_fields_loop fuel' line limit' (sp + 1)
        end
      else []
  end.
Definition leading_fields (line : text) (limit : nat) : list (nat * text) :=
  leading_fields_loop limit line limit 0.

Record ParsedNotification := MkParsed {
  kind : NotificationKind;
  name : text;
  session : text;
  window : text;
  pane : text;
  parsed_text : text;
  payload : bytes;
  age : option N;
}.

Definition is_id (sigil : ascii) (field : text) : bool :=
  (1 <? length field)%nat && starts_with [sigil] field.

Definition place_argument (p : ParsedNotification) (field : text) : ParsedNotification :=
  if is_id "$"%char field then
    MkParsed (kind p) (name p) field (window p) (pane p) (parsed_text p) (payload p) (age p)
  else if is_id "@"%char field then
    MkParsed (kind p) (name p) (session p) field (pane p) (parsed_text p) (payload p) (age p)
  else if is_id "%"%char field then
    MkParsed (kind p) (name p) (session p) (window p) field (parsed_text p) (payload p) (age p)
  else p.

Definition with_text (t : text) (p : ParsedNotification) : ParsedNotification :=
  MkParsed (kind p) (name p) (session p) (window p) (pane p) t (payload p) (age p).
Definition with_payload (b : bytes) (p : ParsedNotification) : ParsedNotification :=
  MkParsed (kind p) (name p) (session p) (window p) (pane p) (parsed_text p) b (age p).
Definition with_age (a : N) (p : ParsedNotification) : ParsedNotification :=
  MkParsed (kind p) (name p) (session p) (window p) (pane p) (parsed_text p) (payload p) (Some a).

Definition parse_output (line : text) (parsed : ParsedNotification) : ParsedNotification :=
  match leading_fields line 2 with
  | [(_, field0); (_, field1)] =>
      let parsed := place_argument parsed field1 in
      let consumed := ((length field0 + 1) + (length field1 + 1))%nat in
      if (consumed <=? length line)%nat then with_payload (drop consumed line) parsed else parsed
  | _ => parsed
  end.

Definition parse_extended_output (line : text) (parsed : ParsedNotification) :
    ParsedNotification :=
  match leading_fields line 3 with
  | [_; (_, field1); (offset2, digits)] =>
      let parsed := place_argument parsed field1 in
      let parsed := match decimal digits with Some a => with_age a parsed | None => parsed end in
      match find_from (txt " : ") line (offset2 + length digits) with
      | Some delimiter => with_payload (drop (delimiter + 3) line) parsed
      | None => parsed
      end
  | _ => parsed
  end.

Definition parse_subscription_changed (line : text) (parsed : ParsedNotification) :
    ParsedNotification :=
  match leading_fields line 6 with
  | [_; (offset1, _); (_, field2); (_, field3); _; (_, field5)] =>
      with_text (drop offset1 line)
        (place_argument (place_argument (place_argument parsed field2) field3) field5)
  | _ => parsed
  end.

(** Ids first; the first field that changes no id begins the free text. *)
Fixpoint parse_arguments (line : text) (fields : list (nat * text))
    (parsed : ParsedNotification) : ParsedNotification :=
  match fields with
  | [] => parsed
  | (offset, field) :: rest =>
      let placed := place_argument parsed field in
      if bool_decide ((session placed, window placed, pane placed) =
                      (session parsed, window parsed, pane parsed))
      then with_text (drop offset line) placed
      else parse_arguments line rest placed
  end.

Definition parse (notification : Notification) : ParsedNotification :=
  let line := notification_bytes notification in
  let first_space := find_char space line in
  let name := prefix_to first_space line in
  let parsed := MkParsed (kind_of_name name) name [] [] [] [] [] None in
  match first_space with
  | None => parsed
  | Some _ =>
      match kind parsed with
      | output => parse_output line parsed
      | extended_output => parse_extended_output line parsed
      | subscription_changed => parse_subscription_changed line parsed
      | _ => parse_arguments line (drop 1 (leading_fields line 8)) parsed
      end
  end.

Definition quote : ascii := ascii_of_N 34.

Definition layout_contains_pane (layout_change_text pane_id : text) : option bool :=
  let layout := prefix_to (find_char space layout_change_text) layout_change_text in
  if bool_decide (pane_id = []) ||
     negb (starts_with (("{"%char :: quote :: txt "V") ++ [quote; ":"%char]) layout)
  then None
  else
    let needle := quote :: txt "I" ++ [quote; ":"%char; quote] ++ pane_id ++ [quote] in
    Some (bool_decide (is_Some (find_sub needle layout))).

Example parse_renamed :
  parse (MkNotification (txt "%window-renamed @1 a b")) =
  MkParsed window_renamed (txt "%window-renamed") [] (txt "@1") [] (txt "a b") [] None.
Proof. reflexivity. Qed.

(** * Cutting the stream into reads *)

Definition prepend (events : list Event)
    (r : Parser * expected ProtocolError (list Event)) : Parser * expected ProtocolError (list Event) :=
  match r with
  | (p, Value more) => (p, Value (events ++ more))
  | (p, Unexpected e) => (p, Unexpected e)
  end.

Lemma prepend_app e1 e2 r : prepend (e1 ++ e2) r = prepend e1 (prepend e2 r).
Proof. destruct r as [p [?|?]]; simpl; by rewrite ?app_assoc. Qed.

Lemma consume_line_events p view events :
  consume_line p view events = prepend events (consume_line p view []).
Proof.
  unfold consume_line. repeat case_match; simpl; rewrite ?app_nil_r; done.
Qed.

Lemma consume_line_value p view events p' events' :
  consume_line p view events = (p', Value events') ->
  failure_ p' = failure_ p /\ finished_ p' = finished_ p /\ pending_ p' = pending_ p /\
  retained_reply_bytes_ p' = retained_reply_bytes_ p /\ line_bytes_ p' = line_bytes_ p.
Proof. unfold consume_line. intros H. repeat case_match; simplify_eq/=; done. Qed.

Lemma feed_loop_events fuel p r events :
  feed_loop fuel p r events = prepend events (feed_loop fuel p r []).
Proof.
  revert p r events. induction fuel as [|fuel IH]; intros p r events.
  { destruct r; simpl; by rewrite app_nil_r. }
  destruct r as [|c r]; [simpl; by rewrite app_nil_r|]. cbn [feed_loop].
  case_match; [done|].
  destruct (find_char line_feed (c :: r)); [|simpl; by rewrite app_nil_r].
  rewrite consume_line_events.
  destruct (consume_line _ _ []) as [p' [ev|e]]; simpl; [|done].
  rewrite IH, prepend_app, <-IH. done.
Qed.

Lemma feed_loop_fuel fuel fuel' p r events :
  length r <= fuel -> length r <= fuel' -> feed_loop fuel p r events = feed_loop fuel' p r events.
Proof.
  revert fuel' p r events. induction fuel as [|fuel IH]; intros fuel' p r events H1 H2.
  { destruct r; simpl in *; [by destruct fuel' | lia]. }
  destruct fuel' as [|fuel']; [destruct r; simpl in *; [done | lia]|].
  cbn [feed_loop]. destruct r as [|c r]; [done|].
  case_match; [done|]. destruct (find_char line_feed (c :: r)) as [i|] eqn:E; [|done].
  destruct (consume_line _ _ events) as [p' [ev|e]]; [|done].
  apply IH; rewrite length_drop; simpl in *; lia.
Qed.

Lemma feed_loop_value fuel p r events p' events' :
  feed_loop fuel p r events = (p', Value events') ->
  failure_ p' = failure_ p /\ finished_ p' = finished_ p /\
  retained_reply_bytes_ p' = retained_reply_bytes_ p /\ line_bytes_ p' = line_bytes_ p.
Proof.
  revert p r events. induction fuel as [|fuel IH]; intros p r events; [destruct r; naive_solver|].
  destruct r as [|c r]; [naive_solver|]. cbn [feed_loop].
  case_match; [done|]. destruct (find_char line_feed (c :: r)); [|naive_solver].
  destruct (consume_line _ _ events) as [p2 [ev|e]] eqn:E; [|done].
  intros Hrun. apply IH in Hrun. apply consume_line_value in E. simpl in E.
  destruct_and!. split_and!; congruence.
Qed.

Lemma find_char_app_l c a d i : find_char c a = Some i -> find_char c (a ++ d) = Some i.
Proof.
  rewrite !find_char_Some. intros [Ha Hnin].
  assert (i < length a) as Hi.
  { apply (f_equal length) in Ha. rewrite length_app, length_take in Ha. simpl in Ha. lia. }
  rewrite take_app_le, drop_app_le by lia. split; [|done]. by rewrite Ha at 1; rewrite <-app_assoc.
Qed.

Lemma find_char_app_r c a d :
  find_char c a = None -> find_char c (a ++ d) = Nat.add (length a) <$> find_char c d.
Proof.
  intros Ha. induction a as [|x a IH].
  - simpl. by destruct (find_char c d).
  - unfold find_char in *. assert (starts_with [c] (x :: a) = false) as Hx.
    { rewrite find_sub_None in Ha. apply (Ha 0). }
    rewrite find_sub_skip in Ha by done. apply fmap_None in Ha.
    assert (starts_with [c] ((x :: a) ++ d) = false) as Hx'.
    { apply starts_with_false. apply starts_with_false in Hx. intros [r Hr].
      apply Hx. simplify_eq/=. by exists a. }
    cbn [app] in *. rewrite find_sub_skip, IH by done. by destruct (find_sub [c] d).
Qed.

(** The loop over a second part of a segment, from where the first part left it. *)
Definition continue (r : Parser * expected ProtocolError (list Event))
    (next : Parser -> Parser * expected ProtocolError (list Event)) :
    Parser * expected ProtocolError (list Event) :=
  match r with
  | (p, Value events) => prepend events (next p)
  | (p, Unexpected e) => (p, Unexpected e)
  end.

Lemma continue_prepend events r next :
  continue (prepend events r) next = prepend events (continue r next).
Proof. destruct r as [p [?|?]]; simpl; [by rewrite prepend_app | done]. Qed.

Lemma prepend_nil r : prepend [] r = r.
Proof. by destruct r as [p [?|?]]. Qed.

Definition over_limit (p : Parser) (segment_bytes : nat) : bool :=
  (negb (line_bytes_ p =? 0)
   && ((line_bytes_ p <? length (pending_ p))
       || (line_bytes_ p - length (pending_ p) <? segment_bytes)))%nat.

Lemma over_limit_spec p n :
  over_limit p n = true <-> line_bytes_ p <> 0 /\ line_bytes_ p < length (pending_ p) + n \/
                            line_bytes_ p <> 0 /\ line_bytes_ p < length (pending_ p).
Proof.
  unfold over_limit. rewrite andb_true_iff, orb_true_iff, negb_true_iff, Nat.eqb_neq, !Nat.ltb_lt.
  lia.
Qed.

(** One turn of the loop, with the two ways a segment can end. *)
Lemma feed_loop_line p r i events :
  find_char line_feed r = Some i ->
  feed_loop (length r) p r events =
  if over_limit p i
  then (set_pending [] (set_failure (oversized_line p) p), Unexpected (oversized_line p))
  else prepend events (continue
         (consume_line (set_pending [] p) (pending_ p ++ take i r) [])
         (fun p' => feed_loop (length (drop (S i) r)) p' (drop (S i) r) [])).
Proof.
  intros Hi. destruct r as [|c r]; [done|]. cbn [length feed_loop]. rewrite Hi.
  fold (over_limit p i). destruct (over_limit p i); [done|].
  rewrite consume_line_events, Nat.add_1_r.
  destruct (consume_line _ _ []) as [p' [ev|e]]; simpl; [|done].
  rewrite feed_loop_events, prepend_app. do 2 f_equal. apply feed_loop_fuel; [|done].
  rewrite length_drop. lia.
Qed.

Lemma feed_loop_partial p r events :
  find_char line_feed r = None ->
  feed_loop (length r) p r events =
  match r with
  | [] => (p, Value events)
  | _ =>
      if over_limit p (length r)
      then (set_pending [] (set_failure (oversized_line p) p), Unexpected (oversized_line p))
      else (set_pending (pending_ p ++ r) p, Value events)
  end.
Proof.
  intros Hi. destruct r as [|c r]; [done|]. cbn [length feed_loop]. by rewrite Hi.
Qed.

Lemma over_limit_pending p r n :
  over_limit p (length r) = false ->
  over_limit (set_pending (pending_ p ++ r) p) n = over_limit p (length r + n).
Proof.
  intros H. apply Bool.eq_iff_eq_true. rewrite !over_limit_spec. cbn.
  apply not_true_iff_false in H. rewrite over_limit_spec in H. rewrite length_app. lia.
Qed.

Lemma feed_loop_app p a b :
  feed_loop (length (a ++ b)) p (a ++ b) [] =
  continue (feed_loop (length a) p a []) (fun p1 => feed_loop (length b) p1 b []).
Proof.
  revert p. induction a as [a IH] using text_length_ind. intros p.
  destruct (find_char line_feed a) as [i|] eqn:Ha.
  - assert (i + 1 <= length a) by (eapply find_sub_bound in Ha; done).
    rewrite (feed_loop_line _ (a ++ b) i) by by apply find_char_app_l.
    rewrite (feed_loop_line _ a i) by done. destruct (over_limit p i); [done|].
    rewrite !prepend_nil, take_app_le, drop_app_le by lia.
    destruct (consume_line _ _ []) as [p' [ev|e]]; simpl; [|done].
    rewrite continue_prepend, IH; [done|]. rewrite length_drop. lia.
  - rewrite (feed_loop_partial p a) by done.
    destruct a as [|c a]; [simpl; by rewrite prepend_nil|].
    destruct (over_limit p (length (c :: a))) eqn:Hlim.
    + pose proof (find_char_app_r line_feed (c :: a) b Ha) as Hab.
      assert (forall n, over_limit p (length (c :: a) + n) = true) as Hover.
      { intros n. apply over_limit_spec. apply over_limit_spec in Hlim. lia. }
      destruct (find_char line_feed b) as [j|] eqn:Hb; cbn [fmap option_fmap option_map] in Hab.
      * rewrite (feed_loop_line _ _ _ _ Hab), Hover. done.
      * rewrite (feed_loop_partial _ _ _ Hab), length_app, Hover. done.
    + cbn [continue]. rewrite prepend_nil.
      pose proof (find_char_app_r line_feed (c :: a) b Ha) as Hab.
      destruct (find_char line_feed b) as [j|] eqn:Hb; cbn [fmap option_fmap option_map] in Hab.
      * rewrite (feed_loop_line _ _ _ _ Hab), (feed_loop_line _ b j _ Hb).
        rewrite over_limit_pending by done. destruct (over_limit p _); [done|].
        cbn [pending_ set_pending]. rewrite !prepend_nil, take_app_add, <-app_assoc.
        rewrite <-Nat.add_succ_r, drop_app_add. done.
      * rewrite (feed_loop_partial _ _ _ Hab), (feed_loop_partial _ b _ Hb), length_app.
        destruct b as [|d b]; [rewrite Nat.add_0_r, Hlim, app_nil_r; done|].
        rewrite over_limit_pending by done.
        change ((c :: a) ++ d :: b) with (c :: (a ++ d :: b)). cbn [pending_ set_pending].
        destruct (over_limit p _); [done|]. by rewrite <-app_assoc.
Qed.

Lemma feed_app p a b : feed p (a ++ b) = continue (feed p a) (fun p1 => feed p1 b).
Proof.
  unfold feed. destruct (failure_ p) as [e|] eqn:Hf; [done|].
  destruct (finished_ p) eqn:Hfin; [done|]. rewrite feed_loop_app.
  destruct (feed_loop (length a) p a []) as [p1 [ev|e]] eqn:Ha; [|done]. cbn [continue].
  apply feed_loop_value in Ha as (Hf1 & Hfin1 & _). by rewrite Hf1, Hf, Hfin1, Hfin.
Qed.

Lemma consume_line_failed p view events p' e :
  consume_line p view events = (p', Unexpected e) -> failure_ p' = Some e.
Proof. unfold consume_line. repeat case_match; intros; simplify_eq; done. Qed.

Lemma feed_loop_failed fuel p r events p' e :
  feed_loop fuel p r events = (p', Unexpected e) -> failure_ p' = Some e.
Proof.
  revert p r events. induction fuel as [|fuel IH]; intros p r events; [done|].
  destruct r as [|c r]; [done|]. cbn [feed_loop]. case_match; [by intros [= <- <-]|].
  destruct (find_char line_feed (c :: r)); [|done].
  destruct (consume_line _ _ events) as [p1 [ev|e1]] eqn:E; [apply IH|].
  intros [= <- <-]. by eapply consume_line_failed.
Qed.

Lemma feed_failed p input p' e : feed p input = (p', Unexpected e) -> failure_ p' = Some e.
Proof.
  unfold feed. destruct (failure_ p) as [e0|] eqn:Hf; [intros [= <- <-]; done|].
  destruct (finished_ p); [by intros [= <- <-]|]. apply feed_loop_failed.
Qed.

(** Reads fed one after the other, and what each feed answered. *)
Fixpoint feed_each (p : Parser) (pieces : list bytes) :
    Parser * list (expected ProtocolError (list Event)) :=
  match pieces with
  | [] => (p, [])
  | piece :: pieces =>
      let r := feed p piece in let rest := feed_each r.1 pieces in (rest.1, r.2 :: rest.2)
  end.

Lemma feed_each_app p a b :
  feed_each p (a ++ b) =
  ((feed_each (feed_each p a).1 b).1, (feed_each p a).2 ++ (feed_each (feed_each p a).1 b).2).
Proof.
  revert p. induction a as [|x a IH]; intros p; cbn [app feed_each]; [cbn; by destruct (feed_each p b)|].
  by rewrite IH.
Qed.

Lemma feed_each_failed p e pieces :
  failure_ p = Some e -> feed_each p pieces = (p, replicate (length pieces) (Unexpected e)).
Proof.
  intros Hf. induction pieces as [|x pieces IH]; [done|]. cbn [feed_each].
  assert (feed p x = (p, Unexpected e)) as -> by (unfold feed; by rewrite Hf). cbn. by rewrite IH.
Qed.

Lemma feed_more p x p1 ev pieces q parts :
  feed p x = (p1, Value ev) -> feed_each p1 pieces = (q, Value <$> parts) ->
  pieces = [] \/ feed p1 (concat pieces) = (q, Value (concat parts)) ->
  feed p (concat (x :: pieces)) = (q, Value (concat (ev :: parts))).
Proof.
  intros Ex E [->|Hall]; cbn [concat].
  - cbn in E. injection E as <- E. destruct parts; [|done]. cbn [concat]. by rewrite !app_nil_r.
  - by rewrite feed_app, Ex; cbn [continue]; rewrite Hall.
Qed.

(** Either every piece was accepted, or one of them is the first that was not. *)
Lemma feed_each_cases p pieces :
  (exists q parts, feed_each p pieces = (q, Value <$> parts) /\
     (pieces = [] \/ feed p (concat pieces) = (q, Value (concat parts)))) \/
  (exists before x after q parts p' e,
     pieces = before ++ x :: after /\ feed_each p before = (q, Value <$> parts) /\
     (before = [] \/ feed p (concat before) = (q, Value (concat parts))) /\
     feed q x = (p', Unexpected e) /\ feed p (concat pieces) = (p', Unexpected e)).
Proof.
  revert p. induction pieces as [|x pieces IH]; intros p; [left; exists p, []; split; [done | by left]|].
  destruct (feed p x) as [p1 [ev|e]] eqn:Ex.
  - destruct (IH p1) as [(q & parts & E & Hall)|(before & y & after & q & parts & p' & e & -> & E & Hb & Ey & Hall)].
    + left. exists q, (ev :: parts). cbn [feed_each]. rewrite Ex. cbn [fst snd]. rewrite E. split; [done|]. right.
      by eapply feed_more.
    + right. exists (x :: before), y, after, q, (ev :: parts), p', e. cbn [feed_each]. rewrite Ex. cbn [fst snd].
      rewrite E. split_and!; try done.
      * right. by eapply feed_more.
      * cbn [concat app]. rewrite feed_app, Ex. cbn [continue]. by rewrite Hall.
  - right. exists [], x, pieces, p, [], p1, e. split_and!; try done; [by left|].
    cbn [concat]. by rewrite feed_app, Ex.
Qed.

(** C19: How the bytes of a control stream are cut into reads.  A stream that is accepted
    whole is accepted in any pieces, with the same parser at the end and the same events
    in the same order.  A stream that is refused whole is refused in any pieces with the
    same error and the same parser: the pieces before the one it is refused in hand over
    what they would as one feed, that piece hands over nothing, not even the events of
    lines that came before the bad one in it, and every later piece gets the error
    again.  So the cut decides only how many events come before an error. *)
Theorem feed_in_pieces p piece pieces :
  match feed p (concat (piece :: pieces)) with
  | (p', Value events) =>
      exists parts, feed_each p (piece :: pieces) = (p', Value <$> parts) /\ concat parts = events
  | (p', Unexpected e) =>
      exists before x after q parts,
        piece :: pieces = before ++ x :: after /\
        feed_each p before = (q, Value <$> parts) /\
        (before = [] \/ feed p (concat before) = (q, Value (concat parts))) /\
        feed q x = (p', Unexpected e) /\
        feed_each p (piece :: pieces) =
          (p', (Value <$> parts) ++ replicate (S (length after)) (Unexpected e))
  end.
Proof.
  destruct (feed_each_cases p (piece :: pieces))
    as [(q & parts & E & [?|Hall])|(before & x & after & q & parts & p' & e & Hp & E & Hb & Ex & Hall)];
    [done| |]; rewrite Hall; [by exists parts|].
  exists before, x, after, q, parts. split_and!; try done.
  rewrite Hp, feed_each_app, E. cbn [fst snd feed_each]. rewrite Ex. cbn [fst snd].
  by rewrite (feed_each_failed p' e) by by eapply feed_failed.
Qed.

(** * A framed reply *)

Definition terminate (line : bytes) : bytes := line ++ [line_feed].

(** A line that the stream may carry: no line end of its own, within the bound. *)
Definition line_fits (limit : nat) (line : bytes) : Prop :=
  line_feed ∉ line /\ (limit = 0 \/ length line <= limit).

(** The parser between two lines. *)
Definition between_lines (p : Parser) : Prop := pending_ p = [].

Lemma set_pending_between p : between_lines p -> set_pending [] p = p.
Proof. unfold between_lines. destruct p. simpl. by intros ->. Qed.

Lemma feed_loop_step p line rest :
  between_lines p -> line_fits (line_bytes_ p) line ->
  feed_loop (length (terminate line ++ rest)) p (terminate line ++ rest) [] =
  continue (consume_line p line []) (fun p' => feed_loop (length rest) p' rest []).
Proof.
  intros Hp [Hnl Hlim]. unfold terminate. rewrite <-app_assoc.
  rewrite (feed_loop_line _ _ (length line)) by by apply find_char_app.
  assert (over_limit p (length line) = false) as ->.
  { apply not_true_iff_false. rewrite over_limit_spec, Hp. simpl. lia. }
  rewrite prepend_nil, set_pending_between, Hp, take_app_length by done.
  rewrite drop_app_ge, Nat.sub_succ_l, Nat.sub_diag by lia. done.
Qed.

(** What the retention bound keeps of a reply's body. *)
Definition bounded (retained : nat) (full : bytes) : bytes :=
  if (retained =? 0)%nat then full else take retained full.
Definition exceeds (retained : nat) (full : bytes) : bool :=
  (negb (retained =? 0) && (retained <? length full))%nat.

(** The block opened by [g] after the body bytes [full] arrived. *)
Definition open_block (g : ParsedGuard) (retained : nat) (full : bytes) : ControlBlock :=
  MkControlBlock (guard_sequence g) (guard_command_number g) terminal_end (guard_metadata g) []
    (bounded retained full) (exceeds retained full) (length full).

Lemma append_line_open g retained full line :
  append_line retained (open_block g retained full) line =
  open_block g retained (full ++ terminate line).
Proof.
  unfold append_line, open_block. simpl. unfold bounded, exceeds, terminate.
  destruct (Nat.eqb_spec retained 0) as [->|Hr]; simpl.
  { by rewrite !length_app. }
  rewrite !length_app, length_take. simpl.
  destruct (Nat.leb_spec (retained `min` length full + (length line + 1)) retained).
  - rewrite (proj2 (Nat.ltb_ge retained (length full))) by lia.
    rewrite (proj2 (Nat.ltb_ge retained (length full + _))) by lia.
    rewrite !take_ge; [done | rewrite !length_app; simpl; lia | lia].
  - rewrite (proj2 (Nat.ltb_lt retained (length full + _))) by lia.
    destruct (Nat.ltb_spec retained (length full)); simpl; f_equal.
    + by rewrite take_app_le by lia.
    + rewrite (take_ge full) by lia. rewrite take_app_ge by lia. f_equal.
      rewrite take_app_le by lia. f_equal. lia.
Qed.

Definition guard_line (keyword : text) (meta : bytes) : bytes := keyword ++ meta.

Definition terminal_keyword (t : ControlTerminal) : text :=
  match t with terminal_end => txt "%end " | terminal_error => txt "%error " end.

(** A body line is anything but the two guards that would close this block. *)
Definition body_line (limit : nat) (meta line : bytes) : Prop :=
  line_fits limit line /\ forall t, line <> terminal_keyword t ++ meta.

Lemma close_block_Some block view prefix t closed :
  close_block block view prefix t = Some closed -> view = prefix ++ begin_metadata block.
Proof.
  unfold close_block. destruct (starts_with prefix view) eqn:E; [|done].
  apply starts_with_spec in E as [r ->]. rewrite drop_app_length. by case_bool_decide; subst.
Qed.

Lemma consume_body_line p g full line :
  block_ p = Some (open_block g (retained_reply_bytes_ p) full) ->
  body_line (line_bytes_ p) (guard_metadata g) line ->
  consume_line p line [] =
  (set_block (Some (open_block g (retained_reply_bytes_ p) (full ++ terminate line))) p, Value []).
Proof.
  intros Hb [_ Hne]. unfold consume_line. rewrite Hb.
  destruct (close_block _ line (txt "%end ") terminal_end) eqn:E1.
  { apply close_block_Some in E1. by destruct (Hne terminal_end). }
  destruct (close_block _ line (txt "%error ") terminal_error) eqn:E2.
  { apply close_block_Some in E2. by destruct (Hne terminal_error). }
  by rewrite append_line_open.
Qed.

Definition stream_of (lines : list bytes) : bytes := concat (map terminate lines).

Lemma feed_body p g full lines rest :
  between_lines p ->
  block_ p = Some (open_block g (retained_reply_bytes_ p) full) ->
  Forall (body_line (line_bytes_ p) (guard_metadata g)) lines ->
  feed_loop (length (stream_of lines ++ rest)) p (stream_of lines ++ rest) [] =
  feed_loop (length rest)
    (set_block (Some (open_block g (retained_reply_bytes_ p) (full ++ stream_of lines))) p) rest [].
Proof.
  revert p full. induction lines as [|line lines IH]; intros p full Hp Hb Hlines.
  - simpl. rewrite app_nil_r, <-Hb. by destruct p.
  - apply Forall_cons in Hlines as [Hline Hlines]. unfold stream_of. simpl.
    rewrite <-app_assoc, feed_loop_step by (done || apply Hline).
    erewrite consume_body_line by done. cbn [continue]. rewrite prepend_nil.
    rewrite (IH _ (full ++ terminate line)); [|done..]. by rewrite <-app_assoc.
Qed.

(** [dec s], [dec c] and [dec f] between single spaces. *)
Definition metadata_of (s c f : N) : bytes := dec s ++ space :: dec c ++ space :: dec f.

Lemma dec_no_char ch n : is_digit ch = false -> ch ∉ dec n.
Proof.
  intros Hd Hin. destruct (dec_spec n) as (_ & Hall & _).
  apply forallb_forall with (x := ch) in Hall; [congruence | by apply list_elem_of_In].
Qed.

Lemma decimal_dec n : (n <= u64_max)%N -> decimal (dec n) = Some n.
Proof.
  intros Hn. destruct (dec_spec n) as (Hne & _). unfold decimal.
  destruct (dec n) eqn:E; [done|]. rewrite <-E. by apply digits_loop_dec.
Qed.

Lemma dec_length_pos n : 0 < length (dec n).
Proof. destruct (dec_spec n) as (Hne & _). destruct (dec n); simpl; [done|lia]. Qed.

Lemma find_from_app n pre r pos :
  length pre = pos -> find_from n (pre ++ r) pos = Nat.add pos <$> find_sub n r.
Proof.
  intros <-. unfold find_from. rewrite drop_app_length, length_app.
  by rewrite (proj2 (Nat.leb_le _ _)) by lia.
Qed.

Lemma find_from_0 n r : find_from n r 0 = find_sub n r.
Proof. unfold find_from. simpl. rewrite drop_0. by destruct (find_sub n r). Qed.

Lemma parse_begin_metadata s c f :
  (s <= u64_max)%N -> (c <= u64_max)%N -> (f <= u64_max)%N ->
  parse_begin (txt "%begin " ++ metadata_of s c f) =
  Value (MkParsedGuard s c f (metadata_of s c f)).
Proof.
  intros Hs Hc Hf. unfold parse_begin. rewrite starts_with_app. cbn [negb].
  change 7 with (length (txt "%begin ")). rewrite drop_app_length.
  unfold metadata_of at 1. rewrite find_char_app by by apply dec_no_char.
  pose proof (dec_length_pos s). pose proof (dec_length_pos c). pose proof (dec_length_pos f).
  destruct (length (dec s)) as [|ns] eqn:Es; [lia|].
  assert (metadata_of s c f = (dec s ++ [space]) ++ dec c ++ space :: dec f) as E1
    by (unfold metadata_of; by rewrite <-app_assoc).
  assert (metadata_of s c f = (dec s ++ space :: dec c ++ [space]) ++ dec f) as E2
    by (unfold metadata_of; by rewrite <-!app_assoc; simpl; rewrite <-!app_assoc).
  assert (find_from [space] (metadata_of s c f) (S ns + 1) = Some (S ns + 1 + length (dec c)))
    as ->.
  { rewrite E1, find_from_app by (rewrite length_app; simpl; lia).
    fold (find_char space (dec c ++ space :: dec f)).
    by rewrite find_char_app by by apply dec_no_char. }
  assert (find_from [space] (metadata_of s c f) (S ns + 1 + length (dec c) + 1) = None) as ->.
  { rewrite E2, find_from_app
      by (rewrite length_app; simpl; rewrite length_app; simpl; lia).
    fold (find_char space (dec f)).
    by rewrite (proj2 (find_char_None _ _)) by by apply dec_no_char. } rewrite (bool_decide_false (is_Some None)) by (by intros []).
  assert (length (metadata_of s c f) = S ns + 1 + length (dec c) + 1 + length (dec f)) as Elen.
  { unfold metadata_of. rewrite length_app. simpl. rewrite length_app. simpl. lia. }
  rewrite (proj2 (Nat.eqb_neq (S ns + 1 + length (dec c)) _)) by lia.
  rewrite Elen, (proj2 (Nat.eqb_neq (S ns + 1 + length (dec c) + 1) _)) by lia.
  cbn [orb].
  assert (take (S ns) (metadata_of s c f) = dec s) as ->
    by (unfold metadata_of; by rewrite take_app_le, take_ge by lia).
  assert (drop (S ns + 1) (metadata_of s c f) = dec c ++ space :: dec f) as ->.
  { rewrite E1, drop_app_ge by (rewrite length_app; simpl; lia).
    rewrite length_app, Es. simpl. by rewrite Nat.sub_diag. }
  replace (S ns + 1 + length (dec c) - S ns - 1) with (length (dec c)) by lia.
  rewrite take_app_length.
  assert (drop (S ns + 1 + length (dec c) + 1) (metadata_of s c f) = dec f) as ->.
  { rewrite E2, drop_app_ge; rewrite !length_app; simpl; rewrite length_app; simpl; [|lia].
    rewrite Es. by replace (_ - _) with 0 by lia. }
  by rewrite !decimal_dec.
Qed.

(** A framed reply is read as exactly one block.  Whatever the body lines
    hold, guards of other blocks and notification look-alikes included, the block
    carries the guard's numbers, the terminal that closed it, the first [retained]
    bytes of the body (all of it when the bound is 0), whether the bound cut it and
    how long it really was; the parser is left as it was found, between blocks. *)
Theorem feed_framed_block p s c f lines t :
  between_lines p -> block_ p = None -> failure_ p = None -> finished_ p = false ->
  (s <= u64_max)%N -> (c <= u64_max)%N -> (f <= u64_max)%N ->
  let meta := metadata_of s c f in
  let full := stream_of lines in
  line_fits (line_bytes_ p) (txt "%begin " ++ meta) ->
  Forall (body_line (line_bytes_ p) meta) lines ->
  line_fits (line_bytes_ p) (terminal_keyword t ++ meta) ->
  feed p (stream_of ((txt "%begin " ++ meta) :: lines ++ [terminal_keyword t ++ meta])) =
  (p, Value [EventBlock (MkControlBlock s c t meta meta (bounded (retained_reply_bytes_ p) full)
                           (exceeds (retained_reply_bytes_ p) full) (length full))]).
Proof.
  intros Hp Hb Hfail Hfin Hs Hc Hf meta full Hbegin Hlines Hend.
  unfold feed. rewrite Hfail, Hfin. unfold stream_of at 1 2. cbn [map concat].
  rewrite feed_loop_step by done.
  assert (consume_line p (txt "%begin " ++ meta) [] =
    (set_block (Some (open_block (MkParsedGuard s c f meta) (retained_reply_bytes_ p) [])) p, Value []))
    as ->.
  { unfold consume_line. rewrite Hb.
    assert (marker (txt "%begin " ++ meta) (txt "%begin") = true) as ->.
    { unfold marker. apply orb_true_iff. right. apply (starts_with_app (txt "%begin" ++ [space])). }
    pose proof (parse_begin_metadata s c f Hs Hc Hf) as Hpb.
    fold meta in Hpb. rewrite Hpb. unfold open_block, bounded, exceeds.
    by destruct (retained_reply_bytes_ p). }
  cbn [continue]. rewrite prepend_nil, map_app, concat_app. fold (stream_of lines).
  rewrite (feed_body _ (MkParsedGuard s c f meta) []) by done. cbn [map concat].
  rewrite feed_loop_step by done. unfold consume_line at 1. cbn [block_ set_block].
  assert (forall kw block tm, begin_metadata block = meta -> close_block block (kw ++ meta) kw tm =
    Some (MkControlBlock (sequence block) (command_number block) tm meta meta
            (body block) (body_truncated block) (body_bytes block))) as Hclose.
  { intros kw block tm Hm. unfold close_block. rewrite starts_with_app, drop_app_length, Hm.
    by rewrite bool_decide_true. }
  destruct t; cbn [terminal_keyword].
  - rewrite Hclose by done. cbn. rewrite <-Hb. by destruct p.
  - assert (forall block, close_block block (txt "%error " ++ meta) (txt "%end ") terminal_end = None)
      as -> by done.
    rewrite Hclose by done. cbn. rewrite <-Hb. by destruct p.
Qed.

(** * Pane output survives the escaping *)

(** Octal escaping as the stream carries it: [esc] chooses the bytes written as
    a backslash and three octal digits. *)
Definition octal3 (c : ascii) : bytes :=
  let digit n := ascii_of_N (48 + n) in
  [backslash; digit (byte_of c / 64); digit (byte_of c / 8 mod 8); digit (byte_of c mod 8)]%N.
Definition octal_encode (esc : ascii -> bool) (s : bytes) : bytes :=
  concat (map (fun c => if esc c then octal3 c else [c]) s).

Lemma byte_of_lt c : (byte_of c < 256)%N.
Proof. apply N_ascii_bounded. Qed.

Lemma octal_digit_char n : (n < 8)%N -> octal_digit (ascii_of_N (48 + n)) = Some n.
Proof.
  intros Hn. unfold octal_digit, byte_of. rewrite N_ascii_embedding by lia.
  rewrite (proj2 (N.ltb_ge _ _)), (proj2 (N.ltb_ge 55 _)) by lia. simpl. f_equal. lia.
Qed.

Lemma octal_value b : (b < 256)%N -> ((b / 64 * 8 + b / 8 mod 8) * 8 + b mod 8)%N = b.
Proof.
  intros Hb. replace 64%N with (8 * 8)%N by done. rewrite <-N.Div0.div_div.
  pose proof (N.div_mod b 8 ltac:(lia)). pose proof (N.div_mod (b / 8) 8 ltac:(lia)). lia.
Qed.

Lemma decode_octal_escape fuel c rest :
  decode_octal (S fuel) (octal3 c ++ rest) = decoded ← decode_octal fuel rest; Value (c :: decoded).
Proof.
  pose proof (byte_of_lt c) as Hc. unfold octal3. cbn [app decode_octal].
  rewrite bool_decide_true by done. cbn [negb].
  rewrite !octal_digit_char
    by (apply N.mod_lt; lia) || (apply N.Div0.div_lt_upper_bound; lia).
  rewrite octal_value by done. rewrite (proj2 (N.ltb_ge _ _)) by lia.
  unfold byte_of. by rewrite ascii_N_embedding.
Qed.

Lemma decode_octal_encode esc fuel s :
  esc backslash = true -> length s <= fuel ->
  decode_octal fuel (octal_encode esc s) = Value s.
Proof.
  intros Hesc. revert fuel. induction s as [|c s IH]; intros fuel Hf.
  { by destruct fuel. }
  destruct fuel as [|fuel]; [simpl in Hf; lia|]. simpl in Hf.
  unfold octal_encode. cbn [map concat]. fold (octal_encode esc s).
  destruct (esc c) eqn:Hc.
  - rewrite decode_octal_escape, IH by lia. done.
  - cbn [app decode_octal]. rewrite bool_decide_false by congruence. cbn [negb].
    rewrite IH by lia. done.
Qed.

Lemma octal_encode_length esc s : length s <= length (octal_encode esc s).
Proof.
  induction s as [|c s IH]; [done|]. unfold octal_encode in *. cbn [map concat].
  rewrite length_app. destruct (esc c); simpl; lia.
Qed.

Lemma octal_encode_no_newline esc s : esc line_feed = true -> line_feed ∉ octal_encode esc s.
Proof.
  intros Hesc. induction s as [|c s IH]; unfold octal_encode in *; cbn [map concat].
  { apply not_elem_of_nil. }
  apply not_elem_of_app. split; [|done]. destruct (esc c) eqn:Hc.
  - assert (forall n, (n < 8)%N -> line_feed <> ascii_of_N (48 + n)) as Hdig.
    { intros n Hn Heq. apply (f_equal N_of_ascii) in Heq.
      rewrite N_ascii_embedding in Heq by lia. change (N_of_ascii line_feed) with 10%N in Heq. lia. }
    pose proof (byte_of_lt c). unfold octal3. rewrite !not_elem_of_cons.
    split_and!; [done | apply Hdig; (apply N.mod_lt; lia) || (apply N.Div0.div_lt_upper_bound; lia)..
                | apply not_elem_of_nil].
  - rewrite list_elem_of_singleton. congruence.
Qed.

Lemma notification_body_output pane esc payload :
  esc backslash = true -> pane <> [] -> space ∉ pane ->
  notification_body (output_prefix ++ pane ++ space :: octal_encode esc payload) =
  Value (output_prefix ++ pane ++ space :: payload).
Proof.
  intros Hesc Hne Hsp. unfold notification_body. rewrite starts_with_app.
  rewrite find_from_app by done. fold (find_char space (pane ++ space :: octal_encode esc payload)).
  rewrite find_char_app by done. cbn [fmap option_fmap option_map].
  rewrite (proj2 (Nat.eqb_neq _ _)) by (destruct pane; [done | simpl; lia]).
  assert (forall r, output_prefix ++ pane ++ space :: r = (output_prefix ++ pane ++ [space]) ++ r)
    as Hassoc by (intros; by rewrite <-!app_assoc).
  rewrite (Hassoc (octal_encode esc payload)), (Hassoc payload). unfold decode_octal_payload.
  replace (length output_prefix + length pane + 1) with (length (output_prefix ++ pane ++ [space]))
    by (rewrite !length_app; simpl; lia).
  rewrite drop_app_length, take_app_length, decode_octal_encode; [done | done |].
  rewrite length_app. pose proof (octal_encode_length esc payload). lia.
Qed.

Lemma leading_fields_two a b r :
  space ∉ a -> space ∉ b ->
  leading_fields (a ++ space :: b ++ space :: r) 2 = [(0, a); (length a + 1, b)].
Proof.
  intros Ha Hb. unfold leading_fields. cbn [leading_fields_loop].
  rewrite (proj2 (Nat.ltb_lt _ _)) by (rewrite length_app; simpl; lia).
  rewrite find_from_0.
  fold (find_char space (a ++ space :: b ++ space :: r)).
  rewrite find_char_app by done.
  rewrite Nat.sub_0_r, drop_0, take_app_length. f_equal.
  assert (a ++ space :: b ++ space :: r = (a ++ [space]) ++ b ++ space :: r) as ->
    by by rewrite <-app_assoc.
  assert (length a + 1 = length (a ++ [space])) as -> by (rewrite length_app; simpl; lia).
  rewrite (proj2 (Nat.ltb_lt _ _)) by (rewrite !length_app; simpl; lia).
  rewrite find_from_app by done. fold (find_char space (b ++ space :: r)).
  rewrite find_char_app by done. cbn [fmap option_fmap option_map].
  rewrite drop_app_length. replace (_ + length b - _) with (length b) by lia.
  by rewrite take_app_length.
Qed.

Lemma parse_output_line pane bytes :
  is_id "%"%char pane = true -> space ∉ pane ->
  parse (MkNotification (output_prefix ++ pane ++ space :: bytes)) =
  MkParsed output (txt "%output") [] [] pane [] bytes None.
Proof.
  intros Hid Hsp. unfold parse. cbn [notification_bytes].
  assert (space ∉ txt "%output") as Hsp' by (apply find_char_None; reflexivity).
  assert (output_prefix ++ pane ++ space :: bytes = txt "%output" ++ space :: pane ++ space :: bytes)
    as -> by done.
  rewrite find_char_app by done. unfold prefix_to. rewrite take_app_length.
  change (kind_of_name (txt "%output")) with output. cbn [kind].
  unfold parse_output. rewrite leading_fields_two by done.
  unfold is_id in Hid. apply andb_true_iff in Hid as [Hlen Hst].
  assert (forall c, c <> "%"%char -> is_id c pane = false) as Hother.
  { intros c Hc. unfold is_id. rewrite Hlen. destruct pane as [|d pane]; [done|].
    unfold starts_with in *. rewrite andb_true_r in Hst. case_bool_decide; [subst|done].
    by rewrite bool_decide_false. }
  unfold place_argument. rewrite !Hother by done. unfold is_id. rewrite Hlen, Hst. cbn [andb].
  assert (txt "%output" ++ space :: pane ++ space :: bytes =
          (txt "%output" ++ space :: pane ++ [space]) ++ bytes) as ->
    by (rewrite <-app_assoc; simpl; by rewrite <-app_assoc).
  rewrite (proj2 (Nat.leb_le _ _)) by (rewrite !length_app; simpl; rewrite length_app; simpl; lia).
  replace (length (txt "%output") + 1 + (length pane + 1))
    with (length (txt "%output" ++ space :: pane ++ [space]))
    by (rewrite length_app; simpl; rewrite length_app; simpl; lia).
  by rewrite drop_app_length.
Qed.

(** C18: Pane output is byte exact.  Whatever bytes a pane wrote, with any choice
    of the bytes that are octal escaped that includes the backslash and the line
    end, the line is read as one notification, and [parse] reads from it the pane
    and exactly those bytes. *)
Theorem output_roundtrip p esc pane bytes :
  between_lines p -> block_ p = None -> failure_ p = None -> finished_ p = false ->
  esc backslash = true -> esc line_feed = true ->
  is_id "%"%char pane = true -> space ∉ pane ->
  let line := output_prefix ++ pane ++ space :: octal_encode esc bytes in
  line_fits (line_bytes_ p) line ->
  exists n, feed p (terminate line) = (p, Value [EventNotification n]) /\
            parse n = MkParsed output (txt "%output") [] [] pane [] bytes None.
Proof.
  intros Hp Hb Hfail Hfin Hesc Hnl Hid Hsp line Hfits.
  exists (MkNotification (output_prefix ++ pane ++ space :: bytes)).
  split; [|by apply parse_output_line].
  unfold feed. rewrite Hfail, Hfin. rewrite <-(app_nil_r (terminate line)).
  rewrite feed_loop_step by done. unfold consume_line. rewrite Hb.
  assert (marker line (txt "%begin") || marker line (txt "%end") || marker line (txt "%error") = false)
    as [[-> ->]%orb_false_iff ->]%orb_false_iff by reflexivity.
  cbn [orb]. unfold line. rewrite notification_body_output; [|done | by intros -> | done].
  done.
Qed.

(** * Bounds and stickiness *)

(** A block holds a prefix of its body no longer than the bound, and says so. *)
Definition block_ok (retained : nat) (b : ControlBlock) : Prop :=
  length (body b) = (if (retained =? 0)%nat then body_bytes b else retained `min` body_bytes b) /\
  body_truncated b = (negb (retained =? 0) && (retained <? body_bytes b))%nat.

Definition event_ok (retained : nat) (e : Event) : Prop :=
  match e with EventBlock b => block_ok retained b | EventNotification _ => True end.

Record parser_ok (retained limit : nat) (p : Parser) : Prop := {
  ok_retained : retained_reply_bytes_ p = retained;
  ok_limit : line_bytes_ p = limit;
  ok_pending : limit <> 0 -> length (pending_ p) <= limit;
  ok_partial : line_feed ∉ pending_ p;
  ok_block : forall b, block_ p = Some b -> block_ok retained b;
  ok_finished : finished_ p = true -> pending_ p = [] /\ block_ p = None;
}.

(** What a call that reports [r] from [p] promises. *)
Definition outcome_ok (retained : nat) (p : Parser) (r : expected ProtocolError (list Event)) :
    Prop :=
  match r with
  | Value events => Forall (event_ok retained) events /\ failure_ p = None
  | Unexpected e => failure_ p = Some e
  end.

Inductive reachable (retained limit : nat) : Parser -> Prop :=
  | reachable_new : reachable retained limit (new_parser retained limit)
  | reachable_feed p input : reachable retained limit p -> reachable retained limit (feed p input).1
  | reachable_finish p : reachable retained limit p -> reachable retained limit (finish p).1.

Lemma append_line_ok retained b view : block_ok retained b -> block_ok retained (append_line retained b view).
Proof.
  unfold block_ok, append_line. intros [Hlen Ht].
  destruct (Nat.eqb_spec retained 0) as [->|Hr].
  { cbn in *. rewrite !length_app. simpl. split; [lia | done]. }
  cbn [orb negb andb] in *.
  destruct (Nat.leb_spec (length (body b) + (length view + 1)) retained).
  - cbn [body body_truncated body_bytes]. rewrite !length_app, Ht. cbn [length].
    destruct (Nat.ltb_spec retained (body_bytes b)),
      (Nat.ltb_spec retained (body_bytes b + (length view + 1))); split; (lia || done).
  - rewrite Ht. destruct (Nat.ltb_spec retained (body_bytes b));
      cbn [body body_truncated body_bytes negb];
      rewrite (proj2 (Nat.ltb_lt retained (body_bytes b + (length view + 1)))) by lia;
      rewrite ?length_app, ?length_take; split; (lia || done).
Qed.

Lemma close_block_ok retained block view prefix t closed :
  block_ok retained block -> close_block block view prefix t = Some closed -> block_ok retained closed.
Proof. unfold close_block, block_ok. intros. by split_cases. Qed.

Lemma consume_line_ok retained limit p view events p' r :
  parser_ok retained limit p -> failure_ p = None -> finished_ p = false ->
  Forall (event_ok retained) events -> consume_line p view events = (p', r) ->
  parser_ok retained limit p' /\ finished_ p' = false /\ outcome_ok retained p' r.
Proof.
  intros Hok Hf Hfin Hev. assert (forall e, event_ok retained e ->
    Forall (event_ok retained) (events ++ [e])) as Hadd by (intros; apply Forall_app; by repeat constructor).
  destruct Hok. unfold consume_line. intros Hrun.
  destruct (block_ p) as [block|] eqn:Hb.
  - pose proof (ok_block0 _ eq_refl) as Hblock.
    destruct (close_block _ _ (txt "%end ") _) as [c1|] eqn:E1.
    { apply (close_block_ok retained) in E1; [|done]. simplify_eq.
      split; [split; naive_solver | naive_solver]. }
    destruct (close_block _ _ (txt "%error ") _) as [c2|] eqn:E2.
    { apply (close_block_ok retained) in E2; [|done]. simplify_eq.
      split; [split; naive_solver | naive_solver]. }
    simplify_eq. split; [|done]. split; simpl; try done; [|congruence].
    intros b [= <-]. by apply append_line_ok.
  - destruct (marker view (txt "%begin")).
    { destruct (parse_begin view) as [g|e]; simplify_eq.
      - split; [|done]. split; simpl; try done; [|congruence]. intros b [= <-].
        unfold block_ok. simpl. by destruct (retained_reply_bytes_ p).
      - split; [split; simpl; try done; congruence | done]. }
    destruct (marker view (txt "%end") || marker view (txt "%error")).
    { simplify_eq. split; [split; simpl; try done; congruence | done]. }
    destruct (notification_body view) as [b|e]; simplify_eq.
    + split; [split; simpl; try done; congruence|].
      split; [done|]. split; [by apply Hadd | done].
    + split; [split; simpl; try done; congruence | done].
Qed.

Lemma parser_ok_set_pending retained limit p v :
  parser_ok retained limit p -> (limit <> 0 -> length v <= limit) -> line_feed ∉ v ->
  finished_ p = false -> parser_ok retained limit (set_pending v p).
Proof. intros [] ???. split; simpl; try done. congruence. Qed.

Lemma parser_ok_set_failure retained limit p e :
  parser_ok retained limit p -> parser_ok retained limit (set_failure e p).
Proof. intros []. by split. Qed.

Lemma feed_loop_ok retained limit fuel p r events p' res :
  parser_ok retained limit p -> failure_ p = None -> finished_ p = false ->
  Forall (event_ok retained) events -> feed_loop fuel p r events = (p', res) ->
  parser_ok retained limit p' /\ outcome_ok retained p' res.
Proof.
  revert p r events. induction fuel as [|fuel IH]; intros p r events Hok Hf Hfin Hev Hrun.
  { destruct r; simpl in Hrun; by simplify_eq. }
  destruct r as [|c r]; [simpl in Hrun; by simplify_eq|]. cbn [feed_loop] in Hrun.
  fold (over_limit p (match find_char line_feed (c :: r) with
                      | Some n => n | None => length (c :: r) end)) in Hrun.
  destruct (over_limit p _) eqn:Hlim.
  { simplify_eq. split; [|done]. apply parser_ok_set_pending; simpl.
    - destruct Hok. split; simpl; try done.
    - lia.
    - apply not_elem_of_nil.
    - done. }
  destruct (find_char line_feed (c :: r)) as [i|] eqn:Hi.
  - destruct (consume_line _ _ events) as [p2 [ev|e]] eqn:Hc;
      (eapply consume_line_ok in Hc as (Hok2 & Hfin2 & Hout);
        [|apply parser_ok_set_pending; [done | simpl; lia | apply not_elem_of_nil | done]|done..]).
    + destruct Hout as [Hev2 Hf2]. by eapply IH.
    + by simplify_eq.
  - simplify_eq. split; [|done]. apply parser_ok_set_pending; try done.
    + intros Hl. apply not_true_iff_false in Hlim. rewrite over_limit_spec in Hlim.
      rewrite length_app. destruct Hok. lia.
    + apply not_elem_of_app. split; [apply Hok | by apply find_char_None].
Qed.

Lemma feed_ok retained limit p input :
  parser_ok retained limit p ->
  parser_ok retained limit (feed p input).1 /\ outcome_ok retained (feed p input).1 (feed p input).2.
Proof.
  intros Hok. unfold feed. destruct (failure_ p) as [e|] eqn:Hf; [done|].
  destruct (finished_ p) eqn:Hfin.
  { split; [|done]. destruct Hok. split; simpl; try done. }
  destruct (feed_loop _ p input []) as [p' r] eqn:Hrun. simpl. by eapply feed_loop_ok.
Qed.

Lemma finish_ok retained limit p : parser_ok retained limit p -> parser_ok retained limit (finish p).1.
Proof.
  intros Hok. unfold finish. destruct (failure_ p); [done|]. destruct (finished_ p) eqn:Hfin; [done|].
  destruct (pending_ p) eqn:Hp; [|by apply parser_ok_set_failure].
  destruct (block_ p) eqn:Hb; [by apply parser_ok_set_failure|].
  destruct Hok. by split.
Qed.

Lemma reachable_ok retained limit p : reachable retained limit p -> parser_ok retained limit p.
Proof.
  induction 1.
  - split; simpl; try done; [lia | apply not_elem_of_nil].
  - by apply feed_ok.
  - by apply finish_ok.
Qed.

(** In every state that feeds and finishes can reach, the partial line is
    within the line bound and the open block within the retention bound; every
    block a further feed reports holds exactly the bounded length and its
    truncation flag is right; an error is remembered in the parser, so that every
    later call answers it and changes nothing. *)
Theorem parser_bounds retained limit p input :
  reachable retained limit p ->
  parser_ok retained limit p /\
  outcome_ok retained (feed p input).1 (feed p input).2 /\
  (forall e, failure_ p = Some e -> feed p input = (p, Unexpected e) /\ finish p = (p, Unexpected e)).
Proof.
  intros Hr. apply reachable_ok in Hr as Hok. split; [done|]. split; [by eapply feed_ok|].
  intros e He. unfold feed, finish. by rewrite He.
Qed.

(** A stream ends cleanly exactly when nothing is left open: no failure, no
    partial line, no block waiting for its terminal; after that any more input is
    an error. *)
Theorem finish_iff retained limit p :
  reachable retained limit p ->
  (finish p).2 = Value tt <-> failure_ p = None /\ pending_ p = [] /\ block_ p = None.
Proof.
  intros Hok%reachable_ok. destruct Hok. unfold finish.
  destruct (failure_ p); simpl; [naive_solver|].
  destruct (finished_ p); simpl; [naive_solver|].
  destruct (pending_ p); simpl; [|naive_solver]. destruct (block_ p); naive_solver.
Qed.

(** [parse] inverts [to_string] on the notification kinds: every kind but
    [unknown] is recovered from its name, and a name that is not in the table is
    unknown and never another kind's. *)
Theorem kind_names name k :
  (k <> unknown -> kind_of_name (kind_name k) = k) /\
  (kind_of_name name <> unknown -> kind_name (kind_of_name name) = name).
Proof.
  split.
  - destruct k; intros H; try done; by vm_compute.
  - unfold kind_of_name. destruct (list_find _ kNotificationNames) as [[i [n k']]|] eqn:E; [|done].
    apply list_find_Some in E as (Hi & Hn & _). cbn in *. subst n. intros _.
    unfold kNotificationNames in Hi.
    do 25 (destruct i as [|i]; [cbn in Hi; injection Hi as <- <-; by vm_compute|]). done.
Qed.

(** * The theorems at concrete streams *)

Definition escape_control (c : ascii) : bool := (byte_of c <? 32)%N || bool_decide (c = backslash).

(** A body holding another block's guard and a notification look-alike, cut at 12 bytes. *)
Lemma feed_framed_block_witness :
  feed (new_parser 12 64)
    (stream_of [txt "%begin 10 2 0"; txt "%end 10 3 0"; txt "%output %1 x"; txt "%error 10 2 0"]) =
  (new_parser 12 64,
   Value [EventBlock (MkControlBlock 10 2 terminal_error (txt "10 2 0") (txt "10 2 0")
                        (txt "%end 10 3 0" ++ [line_feed]) true 25)]).
Proof.
  apply (feed_framed_block (new_parser 12 64) 10 2 0 [txt "%end 10 3 0"; txt "%output %1 x"] terminal_error);
    try done; repeat (apply Forall_cons; split); try apply Forall_nil; try done;
    repeat split; try (apply find_char_None; reflexivity);
    try (right; apply Nat.leb_le; reflexivity); intros [] H; vm_compute in H; discriminate.
Defined.

Lemma output_roundtrip_witness :
  exists n,
    feed (new_parser 0 0) (terminate (txt "%output %5 a\134b\012c")) =
      (new_parser 0 0, Value [EventNotification n]) /\
    parse n = MkParsed output (txt "%output") [] [] (txt "%5") []
                (txt "a\b" ++ [line_feed] ++ txt "c") None.
Proof.
  apply (output_roundtrip (new_parser 0 0) escape_control (txt "%5")
           (txt "a\b" ++ [line_feed] ++ txt "c"));
    try done; try (apply find_char_None; reflexivity).
  split; [apply find_char_None; reflexivity | by left].
Defined.

Lemma parser_bounds_witness :
  parser_ok 0 4 (feed (new_parser 0 4) (txt "abc")).1 /\
  outcome_ok 0 (feed (feed (new_parser 0 4) (txt "abc")).1 (txt "de")).1
    (feed (feed (new_parser 0 4) (txt "abc")).1 (txt "de")).2 /\
  (feed (feed (new_parser 0 4) (txt "abc")).1 (txt "de")).2 =
    Unexpected (protocol_error (txt "control line exceeded 4 bytes")).
Proof.
  destruct (parser_bounds 0 4 (feed (new_parser 0 4) (txt "abc")).1 (txt "de")) as (H1 & H2 & _).
  - apply reachable_feed, reachable_new.
  - split; [exact H1 | split; [exact H2 | reflexivity]].
Defined.

Lemma finish_iff_witness :
  (finish (feed (new_parser 0 0) (terminate (txt "%exit"))).1).2 = Value tt.
Proof.
  apply (finish_iff 0 0).
  - apply reachable_feed, reachable_new.
  - repeat split; reflexivity.
Defined.
