(* ===== verification/Wake.v ===== *)
(** Wake pipes: how the library makes readiness visible to a poller.

    [CompletionQueueCore] and [NotificationCursor] each own a non-blocking pipe
    that holds one byte exactly while there is something to take.  The system
    calls are an interface: what the two components rely on is that a one-byte
    [write] into an empty pipe and a one-byte [read] from a pipe that holds one
    byte transfer their byte. *)

From S2P Require Import Prelude.

(** Whether the call transfers its byte, by the number of bytes the pipe holds. *)
Class Pipe := {
  write_ok : nat -> bool;
  read_ok : nat -> bool;
  write_empty : write_ok 0 = true;
  read_held : read_ok 1 = true;
}.

(** A pipe of the size POSIX guarantees at least. *)
#[export] Instance posix_pipe : Pipe := {
  write_ok held := (held <? 512)%nat;
  read_ok held := (0 <? held)%nat;
  write_empty := eq_refl;
  read_held := eq_refl;
}.

(** The descriptors of one wake pipe: the bytes it holds, [None] when it could not
    be made, and the flag that remembers whether the byte was written. *)
Record Wake := MkWake { held : option nat; armed : bool }.

Definition new_wake (piped : bool) : Wake := MkWake (if piped then Some 0 else None) false.

Section wake.
Context {pipes : Pipe}.

Definition arm (w : Wake) : Wake :=
  match held w with
  | Some n => if armed w then w else if write_ok n then MkWake (Some (S n)) true else w
  | None => w
  end.

Definition disarm (w : Wake) : Wake :=
  match held w with
  | Some n => if armed w then if read_ok n then MkWake (Some (pred n)) false else w else w
  | None => w
  end.

(** The byte is there exactly when the flag says so. *)
Definition wake_clean (w : Wake) : Prop :=
  match held w with
  | Some n => n = if armed w then 1 else 0
  | None => armed w = false
  end.

Definition readable (w : Wake) : bool := match held w with Some n => (0 <? n)%nat | None => false end.

Lemma arm_clean w : wake_clean w -> wake_clean (arm w) /\ (is_Some (held w) -> readable (arm w) = true).
Proof.
  unfold wake_clean, arm, readable. destruct w as [[n|] a]; cbn.
  - intros ->. destruct a; cbn; [done|]. rewrite write_empty. done.
  - intros ->. split; [done|]. by intros [].
Qed.

Lemma disarm_clean w : wake_clean w -> wake_clean (disarm w) /\ readable (disarm w) = false.
Proof.
  unfold wake_clean, disarm, readable. destruct w as [[n|] a]; cbn.
  - intros ->. destruct a; cbn; [rewrite read_held|]; done.
  - intros ->. done.
Qed.

Lemma arm_held w : is_Some (held (arm w)) <-> is_Some (held w).
Proof.
  unfold arm. destruct w as [[n|] a]; cbn; [|done].
  destruct a; [done|]. destruct (write_ok n); cbn; split; eauto.
Qed.

Lemma disarm_held w : is_Some (held (disarm w)) <-> is_Some (held w).
Proof.
  unfold disarm. destruct w as [[n|] a]; cbn; [|done].
  destruct a; [|done]. destruct (read_ok n); cbn; split; eauto.
Qed.
End wake.
