(* ===== verification/CompletionQueue.v ===== *)
(** The completion queue: [src/completion_queue.cpp], [src/completion_queue.hpp].

    The concrete side keeps what [CompletionQueueCore] keeps: a map from tokens to
    records, a doubly linked list threaded through the records by token, its head,
    tail and length, the generation counter and the wake pipe.  Every [assert] and
    every dereference of [records.find] is an [option] step, so that a call that
    answers [None] is a call whose assertion fails.

    The abstract side is a FIFO list of tokens with the number each was queued
    under.  The refinement theorem says that no assertion fails and that every call,
    those that claim, run, discard and wait included, answers what the FIFO answers; the dispatch theorem says what
    [run_ready] runs while other threads and the callbacks themselves use the
    queue, at the granularity of the critical sections.

    The 64-bit counters are natural numbers: one step apart, they do not wrap
    within 2^64 operations. *)

From Stdlib Require Import Sorted.
From S2P Require Import Prelude Wake.

(** [assert(b)]. *)
Definition assert_ (b : bool) : option unit := if b then Some tt else None.

Section completion_queue.
Context {A : Type} {pipes : Pipe}.

(** * State *)

Record Record_ := MkRecord {
  callback : A;
  enqueued : bool;
  ready_generation : N;
  previous_ready : option N;
  next_ready : option N;
}.

(** [pipe] is the number of bytes in the wake pipe, [None] when it was not made. *)
Record Core := MkCore {
  pipe : option nat;
  wake_armed : bool;
  records : gmap N Record_;
  ready_head : option N;
  ready_tail : option N;
  ready_count : nat;
  last_ready_generation : N;
  next_token : N;
  closed : bool;
  finished : bool;
  dispatching : bool;
}.

Definition new_record (cb : A) : Record_ := MkRecord cb false 0 None None.

(** [CompletionQueue()]; [piped] says whether [pipe2] answered 0. *)
Definition new_core (piped : bool) : Core :=
  MkCore (if piped then Some 0 else None) false ∅ None None 0 0 1 false false false.

Definition set_records m c :=
  MkCore (pipe c) (wake_armed c) m (ready_head c) (ready_tail c) (ready_count c)
    (last_ready_generation c) (next_token c) (closed c) (finished c) (dispatching c).
Definition set_head v c :=
  MkCore (pipe c) (wake_armed c) (records c) v (ready_tail c) (ready_count c)
    (last_ready_generation c) (next_token c) (closed c) (finished c) (dispatching c).
Definition set_tail v c :=
  MkCore (pipe c) (wake_armed c) (records c) (ready_head c) v (ready_count c)
    (last_ready_generation c) (next_token c) (closed c) (finished c) (dispatching c).
Definition set_count v c :=
  MkCore (pipe c) (wake_armed c) (records c) (ready_head c) (ready_tail c) v
    (last_ready_generation c) (next_token c) (closed c) (finished c) (dispatching c).
Definition set_generation v c :=
  MkCore (pipe c) (wake_armed c) (records c) (ready_head c) (ready_tail c) (ready_count c)
    v (next_token c) (closed c) (finished c) (dispatching c).
Definition set_wake p a c :=
  MkCore p a (records c) (ready_head c) (ready_tail c) (ready_count c)
    (last_ready_generation c) (next_token c) (closed c) (finished c) (dispatching c).
Definition bump_token c :=
  MkCore (pipe c) (wake_armed c) (records c) (ready_head c) (ready_tail c) (ready_count c)
    (last_ready_generation c) (next_token c + 1) (closed c) (finished c) (dispatching c).
Definition set_flags cl fi di c :=
  MkCore (pipe c) (wake_armed c) (records c) (ready_head c) (ready_tail c) (ready_count c)
    (last_ready_generation c) (next_token c) cl fi di.

Definition set_previous v r :=
  MkRecord (callback r) (enqueued r) (ready_generation r) v (next_ready r).
Definition set_next v r :=
  MkRecord (callback r) (enqueued r) (ready_generation r) (previous_ready r) v.

Definition put (token : N) (r : Record_) (c : Core) : Core := set_records (<[token := r]> (records c)) c.

(** * The core *)

Definition ready_locked (c : Core) : bool := negb (ready_count c =? 0)%nat || finished c || closed c.

Definition refresh_wake_locked (c : Core) : Core :=
  let wanted := ready_locked c in
  match pipe c with
  | None => c
  | Some held =>
      if wanted && negb (wake_armed c) then
        if write_ok held then set_wake (Some (S held)) true c else c
      else if negb wanted && wake_armed c then
        if read_ok held then set_wake (Some (pred held)) false c else c
      else c
  end.

Definition link_ready (token : N) (c : Core) : option Core :=
  record ← records c !! token;
  _ ← assert_ (negb (enqueued record));
  let generation := (last_ready_generation c + 1)%N in
  let c := set_generation generation c in
  let c := put token (MkRecord (callback record) true generation (ready_tail c)
                        (next_ready record)) c in
  c ← match ready_tail c with
      | Some tail => previous ← records c !! tail; Some (put tail (set_next (Some token) previous) c)
      | None => Some (set_head (Some token) c)
      end;
  let c := set_tail (Some token) c in
  Some (refresh_wake_locked (set_count (S (ready_count c)) c)).

(** The two halves of [unlink_ready]: the neighbour, or the end of the list, on
    either side of [record]. *)
Definition unlink_previous (token : N) (record : Record_) (c : Core) : option Core :=
  match previous_ready record with
  | Some p => previous ← records c !! p; Some (put p (set_next (next_ready record) previous) c)
  | None =>
      _ ← assert_ (bool_decide (ready_head c = Some token));
      Some (set_head (next_ready record) c)
  end.
Definition unlink_next (token : N) (record : Record_) (c : Core) : option Core :=
  match next_ready record with
  | Some n => next ← records c !! n; Some (put n (set_previous (previous_ready record) next) c)
  | None =>
      _ ← assert_ (bool_decide (ready_tail c = Some token));
      Some (set_tail (previous_ready record) c)
  end.

Definition unlink_ready (token : N) (c : Core) : option Core :=
  record ← records c !! token;
  _ ← assert_ (enqueued record);
  c ← unlink_previous token record c;
  record ← records c !! token;
  c ← unlink_next token record c;
  record ← records c !! token;
  let c := put token (MkRecord (callback record) false (ready_generation record) None None) c in
  _ ← assert_ (negb (ready_count c =? 0)%nat);
  Some (refresh_wake_locked (set_count (pred (ready_count c)) c)).

(** The claimed node: its token and its callback; [None] inside when nothing is ready. *)
Definition claim_ready (c : Core) : option (Core * option (N * A)) :=
  match ready_head c with
  | None => Some (c, None)
  | Some token =>
      _ ← records c !! token;
      c ← unlink_ready token c;
      record ← records c !! token;
      Some (set_records (delete token (records c)) c, Some (token, callback record))
  end.

(** * Operations: one critical section each *)

Definition enqueue (token : N) (c : Core) : option (Core * bool) :=
  match records c !! token with
  | Some record =>
      if closed c || enqueued record then Some (c, false)
      else c ← link_ready token c; Some (c, true)
  | None => Some (c, false)
  end.

Definition detach (token : N) (c : Core) : option Core :=
  match records c !! token with
  | None => Some c
  | Some record =>
      c ← (if enqueued record then unlink_ready token c else Some c);
      Some (set_records (delete token (records c)) c)
  end.

(** The mailbox holds the core weakly; [None] is an expired one. *)
Definition mailbox_enqueue (token : N) (core : option Core) : option (option Core * bool) :=
  match core with
  | None => Some (None, false)
  | Some c => r ← enqueue token c; Some (Some r.1, r.2)
  end.
Definition mailbox_detach (token : N) (core : option Core) : option (option Core) :=
  match core with
  | None => Some None
  | Some c => c ← detach token c; Some (Some c)
  end.

Definition take_token (c : Core) : Core * N := (bump_token c, next_token c).

Definition register_record (token : N) (cb : A) (c : Core) : Core * bool :=
  if closed c then (c, false)
  else match records c !! token with
       | Some _ => (c, false)
       | None => (put token (new_record cb) c, true)
       end.

Definition push_ready (cb : A) (c : Core) : option (Core * bool) :=
  if closed c then Some (c, false)
  else
    let token := next_token c in
    let c := bump_token c in
    match records c !! token with
    | Some _ => Some (c, false)
    | None => c ← link_ready token (put token (new_record cb) c); Some (c, true)
    end.

Definition finish (c : Core) : Core :=
  refresh_wake_locked (set_flags (closed c) true (dispatching c) c).

Definition close (c : Core) : Core :=
  if closed c then c
  else
    let c := set_flags true (finished c) (dispatching c) c in
    let c := set_count 0 (set_tail None (set_head None c)) in
    set_records ∅ (refresh_wake_locked c).

Inductive QueueReadyStatus := ready | timeout | closed_.

(** What [wait_ready] answers when its wait is over: the predicate holds, or the
    deadline has passed. *)
Definition wait_ready (c : Core) : QueueReadyStatus :=
  if negb (ready_count c =? 0)%nat then ready
  else if finished c || closed c then closed_ else timeout.

(** Whatever another thread, or a callback that is running, may do to the queue. *)
Inductive op :=
  | Enqueue (token : N)
  | Detach (token : N)
  | NextToken
  | Register (token : N) (cb : A)
  | PushReady (cb : A)
  | Finish
  | Close.

Inductive answer := Unit | Bool (b : bool) | Token (n : N).

Definition exec (o : op) (c : Core) : option (Core * answer) :=
  match o with
  | Enqueue t => r ← enqueue t c; Some (r.1, Bool r.2)
  | Detach t => c ← detach t c; Some (c, Unit)
  | NextToken => let r := take_token c in Some (r.1, Token r.2)
  | Register t cb => let r := register_record t cb c in Some (r.1, Bool r.2)
  | PushReady cb => r ← push_ready cb c; Some (r.1, Bool r.2)
  | Finish => Some (finish c, Unit)
  | Close => Some (close c, Unit)
  end.

Fixpoint exec_all (os : list op) (c : Core) : option Core :=
  match os with
  | [] => Some c
  | o :: os => r ← exec o c; exec_all os r.1
  end.

(** * Dispatching *)

Definition claim_dispatch (c : Core) : Core := set_flags (closed c) (finished c) true c.
Definition release_dispatch (c : Core) : Core := set_flags (closed c) (finished c) false c.

(** What the loop of [run_ready] sees under the lock: the head, if it is old enough. *)
Definition claim_before (cutoff : N) (c : Core) : option (Core * option (N * A)) :=
  if (ready_count c =? 0)%nat then Some (c, None)
  else match ready_head c with
       | None => Some (c, None)
       | Some h =>
           head ← records c !! h;
           if (cutoff <? ready_generation head)%N then Some (c, None) else claim_ready c
       end.

(** The loop: before turn [i] takes the lock, the operations [between i] happened,
    those of the callback that the turn before ran included. *)
Fixpoint run_ready_loop (turns : nat) (cutoff : N) (between : nat -> list op) (c : Core) :
    option (Core * list (N * A)) :=
  match turns with
  | 0 => Some (c, [])
  | S turns' =>
      c ← exec_all (between turns') c;
      r ← claim_before cutoff c;
      match r with
      | (c, None) => Some (c, [])
      | (c, Some claimed) =>
          r ← run_ready_loop turns' cutoff between c;
          Some (r.1, claimed :: r.2)
      end
  end.

(** The callbacks run, in order; their number is what the call answers. *)
Definition run_ready (between : nat -> list op) (c : Core) : option (Core * list (N * A)) :=
  if dispatching c then Some (c, [])
  else
    r ← run_ready_loop (ready_count c) (last_ready_generation c) between (claim_dispatch c);
    Some (release_dispatch r.1, r.2).

(** [run_one]: the operations that happen while it waits, one at a time, until the
    predicate holds; [None] inside the answer is a call that is still waiting. *)
Fixpoint await_ready (waiting : list op) (c : Core) : option (Core * bool) :=
  if closed c || finished c || negb (ready_count c =? 0)%nat then Some (c, true)
  else match waiting with
       | [] => Some (c, false)
       | o :: waiting => r ← exec o c; await_ready waiting r.1
       end.

Definition run_one (waiting : list op) (c : Core) : option (Core * option (option (N * A))) :=
  if dispatching c then Some (c, Some None)
  else
    r ← await_ready waiting (claim_dispatch c);
    match r with
    | (c, false) => Some (c, None)
    | (c, true) =>
        r ← (if (ready_count c =? 0)%nat then Some (c, None) else claim_ready c);
        Some (release_dispatch r.1, Some r.2)
    end.

Fixpoint discard_loop (fuel : nat) (c : Core) : option (Core * nat) :=
  match fuel with
  | 0 => Some (c, 0)
  | S fuel' =>
      if (ready_count c =? 0)%nat then Some (c, 0)
      else r ← claim_ready c; r ← discard_loop fuel' r.1; Some (r.1, S r.2)
  end.

Definition discard_ready (c : Core) : option (Core * nat) :=
  if dispatching c then Some (c, 0)
  else r ← discard_loop (ready_count c) (claim_dispatch c); Some (release_dispatch r.1, r.2).

(** A call as a caller sees it.  [RunOne] and [RunReady] say what other threads and the
    callbacks they run do to the queue meanwhile; a callback that dispatches is refused
    by the claim that its dispatcher holds, which is the first branch of each. *)
Inductive queue_call :=
  | Do (o : op)
  | ClaimReady
  | RunOne (waiting : list op)
  | RunReady (between : nat -> list op)
  | DiscardReady
  | WaitReady.

(** [Ran []] of a [RunOne] is its [false]; [StillWaiting] is a call that has not returned. *)
Inductive queue_reply :=
  | OpAnswered (a : answer) | ClaimedReady (r : option (N * A)) | Ran (callbacks : list (N * A))
  | Discarded (n : nat) | Status (s : QueueReadyStatus) | StillWaiting.

Definition exec_call (x : queue_call) (c : Core) : option (Core * queue_reply) :=
  match x with
  | Do o => r ← exec o c; Some (r.1, OpAnswered r.2)
  | ClaimReady => r ← claim_ready c; Some (r.1, ClaimedReady r.2)
  | RunOne waiting =>
      r ← run_one waiting c;
      Some (r.1, match r.2 with Some ran => Ran (option_list ran) | None => StillWaiting end)
  | RunReady between => r ← run_ready between c; Some (r.1, Ran r.2)
  | DiscardReady => r ← discard_ready c; Some (r.1, Discarded r.2)
  | WaitReady => Some (c, Status (wait_ready c))
  end.

(** A history of calls.  It ends at a call that has not returned: what others do from
    there on is what that call waits through. *)
Fixpoint exec_calls (xs : list queue_call) (c : Core) : option (Core * list queue_reply) :=
  match xs with
  | [] => Some (c, [])
  | x :: xs =>
      r ← exec_call x c;
      match r.2 with
      | StillWaiting => Some (r.1, [StillWaiting])
      | _ => rest ← exec_calls xs r.1; Some (rest.1, r.2 :: rest.2)
      end
  end.

(** * The abstract queue *)

(** What is queued: tokens with the number each was queued under, oldest first. *)
Record Queue := MkQueue {
  q_callbacks : gmap N A;
  q_ready : list (N * N);
  q_last : N;
  q_next : N;
  q_closed : bool;
  q_finished : bool;
}.

Definition q_with callbacks ready_ last q :=
  MkQueue callbacks ready_ last (q_next q) (q_closed q) (q_finished q).

Definition q_append (token : N) (q : Queue) : Queue :=
  q_with (q_callbacks q) (q_ready q ++ [(token, q_last q + 1)%N]) (q_last q + 1)%N q.

Definition without (token : N) (l : list (N * N)) : list (N * N) :=
  filter (fun e => e.1 <> token) l.

Definition q_exec (o : op) (q : Queue) : Queue * answer :=
  match o with
  | Enqueue t =>
      if negb (q_closed q) && bool_decide (is_Some (q_callbacks q !! t))
         && bool_decide (t ∉ (q_ready q).*1)
      then (q_append t q, Bool true) else (q, Bool false)
  | Detach t => (q_with (delete t (q_callbacks q)) (without t (q_ready q)) (q_last q) q, Unit)
  | NextToken =>
      (MkQueue (q_callbacks q) (q_ready q) (q_last q) (q_next q + 1) (q_closed q) (q_finished q),
       Token (q_next q))
  | Register t cb =>
      if negb (q_closed q) && bool_decide (q_callbacks q !! t = None)
      then (q_with (<[t := cb]> (q_callbacks q)) (q_ready q) (q_last q) q, Bool true)
      else (q, Bool false)
  | PushReady cb =>
      if q_closed q then (q, Bool false)
      else
        let t := q_next q in
        let q := MkQueue (q_callbacks q) (q_ready q) (q_last q) (t + 1) (q_closed q) (q_finished q) in
        if bool_decide (q_callbacks q !! t = None)
        then (q_append t (q_with (<[t := cb]> (q_callbacks q)) (q_ready q) (q_last q) q), Bool true)
        else (q, Bool false)
  | Finish =>
      (MkQueue (q_callbacks q) (q_ready q) (q_last q) (q_next q) (q_closed q) true, Unit)
  | Close =>
      (if q_closed q then q
       else MkQueue ∅ [] (q_last q) (q_next q) true (q_finished q), Unit)
  end.

Fixpoint q_exec_all (os : list op) (q : Queue) : Queue :=
  match os with [] => q | o :: os => q_exec_all os (q_exec o q).1 end.

(** The oldest entry leaves the queue with its callback. *)
Definition q_claim (q : Queue) : Queue * option (N * A) :=
  match q_ready q with
  | [] => (q, None)
  | (t, _) :: rest =>
      (q_with (delete t (q_callbacks q)) rest (q_last q) q, pair t <$> q_callbacks q !! t)
  end.

Definition q_claim_before (cutoff : N) (q : Queue) : Queue * option (N * A) :=
  match q_ready q with
  | [] => (q, None)
  | (_, g) :: _ => if (cutoff <? g)%N then (q, None) else q_claim q
  end.

Fixpoint q_run_loop (turns : nat) (cutoff : N) (between : nat -> list op) (q : Queue) :
    Queue * list (N * A) :=
  match turns with
  | 0 => (q, [])
  | S turns' =>
      match q_claim_before cutoff (q_exec_all (between turns') q) with
      | (q, None) => (q, [])
      | (q, Some claimed) =>
          let r := q_run_loop turns' cutoff between q in (r.1, claimed :: r.2)
      end
  end.

(** The calls on the abstract queue, with the flag of the one dispatcher. *)
Fixpoint q_await (waiting : list op) (q : Queue) : Queue * bool :=
  if q_closed q || q_finished q || bool_decide (q_ready q <> []) then (q, true)
  else match waiting with
       | [] => (q, false)
       | o :: waiting => q_await waiting (q_exec o q).1
       end.

(** Everything that is queued leaves, its callbacks with it. *)
Definition q_discard (q : Queue) : Queue :=
  q_with (foldl (fun m e => delete e.1 m) (q_callbacks q) (q_ready q)) [] (q_last q) q.

Definition q_call (x : queue_call) (s : Queue * bool) : (Queue * bool) * queue_reply :=
  let '(q, busy) := s in
  match x with
  | Do o => let r := q_exec o q in ((r.1, busy), OpAnswered r.2)
  | ClaimReady => let r := q_claim q in ((r.1, busy), ClaimedReady r.2)
  | RunOne waiting =>
      if busy then (s, Ran [])
      else match q_await waiting q with
           | (q, false) => ((q, true), StillWaiting)
           | (q, true) => let r := q_claim q in ((r.1, false), Ran (option_list r.2))
           end
  | RunReady between =>
      if busy then (s, Ran [])
      else let r := q_run_loop (length (q_ready q)) (q_last q) between q in ((r.1, false), Ran r.2)
  | DiscardReady =>
      if busy then (s, Discarded 0)
      else ((q_discard q, false), Discarded (length (q_ready q)))
  | WaitReady =>
      (s, Status (if bool_decide (q_ready q <> []) then ready
                  else if q_finished q || q_closed q then closed_ else timeout))
  end.

Fixpoint q_calls (xs : list queue_call) (s : Queue * bool) : (Queue * bool) * list queue_reply :=
  match xs with
  | [] => (s, [])
  | x :: xs =>
      let r := q_call x s in
      match r.2 with
      | StillWaiting => (r.1, [StillWaiting])
      | _ => let rest := q_calls xs r.1 in (rest.1, r.2 :: rest.2)
      end
  end.

(** * The list threaded through the records *)

Definition hd_or (l : list (N * N)) (n : option N) : option N :=
  match l with [] => n | e :: _ => Some e.1 end.
Definition last_or (p : option N) (l : list (N * N)) : option N :=
  foldl (fun _ e => Some e.1) p l.

(** [seg m p l n]: the records of [l], linked both ways, between [p] and [n]. *)
Fixpoint seg (m : gmap N Record_) (p : option N) (l : list (N * N)) (n : option N) : Prop :=
  match l with
  | [] => True
  | (t, g) :: l' =>
      (exists cb, m !! t = Some (MkRecord cb true g p (hd_or l' n))) /\ seg m (Some t) l' n
  end.

Lemma hd_or_app l1 l2 n : hd_or (l1 ++ l2) n = hd_or l1 (hd_or l2 n).
Proof. by destruct l1. Qed.

Lemma last_or_app p l1 l2 : last_or p (l1 ++ l2) = last_or (last_or p l1) l2.
Proof. apply foldl_app. Qed.

Lemma seg_app m p l1 l2 n :
  seg m p (l1 ++ l2) n <-> seg m p l1 (hd_or l2 n) /\ seg m (last_or p l1) l2 n.
Proof.
  revert p. induction l1 as [|[t g] l1 IH]; intros p; simpl; [tauto|].
  rewrite IH, hd_or_app. tauto.
Qed.

Lemma seg_frame m p l n t r : t ∉ l.*1 -> seg (<[t := r]> m) p l n <-> seg m p l n.
Proof.
  revert p. induction l as [|[t' g] l IH]; intros p Ht; simpl; [done|].
  simpl in Ht. apply not_elem_of_cons in Ht as [Hne Ht].
  by rewrite lookup_insert_ne, IH by done.
Qed.

Lemma seg_delete m p l n t : t ∉ l.*1 -> seg (delete t m) p l n <-> seg m p l n.
Proof.
  revert p. induction l as [|[t' g] l IH]; intros p Ht; simpl; [done|].
  simpl in Ht. apply not_elem_of_cons in Ht as [Hne Ht].
  by rewrite lookup_delete_ne, IH by done.
Qed.

Lemma seg_elem m p l n t :
  seg m p l n -> t ∈ l.*1 -> exists r, m !! t = Some r /\ enqueued r = true.
Proof.
  revert p. induction l as [|[t' g] l IH]; intros p Hs Ht; [by apply not_elem_of_nil in Ht|].
  destruct Hs as [[cb Hcb] Hs]. simpl in Ht. apply elem_of_cons in Ht as [->|Ht]; [eauto|].
  by eapply IH.
Qed.

(** Rethreading the end of a segment. *)
Lemma seg_set_next m p l t g n n' :
  NoDup (l ++ [(t, g)]).*1 -> seg m p (l ++ [(t, g)]) n ->
  exists r, m !! t = Some r /\ seg (<[t := set_next n' r]> m) p (l ++ [(t, g)]) n'.
Proof.
  intros Hnd. rewrite fmap_app in Hnd. apply NoDup_app in Hnd as (_ & Hdisj & _).
  rewrite seg_app. intros [Hl [[cb Ht] _]]. eexists; split; [done|].
  assert (t ∉ l.*1) as Hnin.
  { intros Hin. by apply (Hdisj t Hin); left. }
  apply seg_app. split; [by apply seg_frame|]. split; [|done].
  exists cb. by rewrite lookup_insert_eq.
Qed.

Lemma seg_set_previous m p t g l n p' :
  NoDup ((t, g) :: l).*1 -> seg m p ((t, g) :: l) n ->
  exists r, m !! t = Some r /\ seg (<[t := set_previous p' r]> m) p' ((t, g) :: l) n.
Proof.
  intros [Hnin _]%NoDup_cons [[cb Ht] Hl]. eexists; split; [done|].
  split; [|by apply seg_frame]. exists cb. by rewrite lookup_insert_eq.
Qed.

(** * The refinement relation *)

Record wf (c : Core) (l : list (N * N)) : Prop := {
  wf_nodup : NoDup l.*1;
  wf_seg : seg (records c) None l None;
  wf_head : ready_head c = hd_or l None;
  wf_tail : ready_tail c = last_or None l;
  wf_count : ready_count c = length l;
  wf_enqueued : forall t r, records c !! t = Some r -> enqueued r = true -> t ∈ l.*1;
  wf_idle : forall t r, records c !! t = Some r -> enqueued r = false -> next_ready r = None;
  wf_closed : closed c = true -> records c = ∅;
}.

(** What linking and unlinking leave alone. *)
Definition same_rest (c c' : Core) : Prop :=
  next_token c' = next_token c /\ closed c' = closed c /\ finished c' = finished c /\
  dispatching c' = dispatching c /\ callback <$> records c' = callback <$> records c.

Definition related (c : Core) (q : Queue) : Prop :=
  wf c (q_ready q) /\ callback <$> records c = q_callbacks q /\
  last_ready_generation c = q_last q /\ next_token c = q_next q /\
  closed c = q_closed q /\ finished c = q_finished q.

Lemma refresh_set_wake c : exists p a, refresh_wake_locked c = set_wake p a c.
Proof.
  unfold refresh_wake_locked. repeat case_match; eauto; exists (pipe c), (wake_armed c); by destruct c.
Qed.

Lemma wf_set_wake p a c l : wf c l -> wf (set_wake p a c) l.
Proof. by intros []. Qed.

Lemma wf_member c l t r :
  wf c l -> records c !! t = Some r -> enqueued r = bool_decide (t ∈ l.*1).
Proof.
  intros Hwf Hr. case_bool_decide as Hin.
  - apply (seg_elem (records c) None l None) in Hin as (r' & Hr' & He); [|apply Hwf]. congruence.
  - destruct (enqueued r) eqn:He; [|done]. by eapply wf_enqueued in Hr.
Qed.

Lemma last_or_snoc p l t g : last_or p (l ++ [(t, g)]) = Some t.
Proof. by rewrite last_or_app. Qed.

Lemma callback_insert (m : gmap N Record_) t r r' :
  m !! t = Some r -> callback r' = callback r ->
  callback <$> <[t := r']> m = callback <$> m.
Proof.
  intros Hr Hcb. rewrite fmap_insert, Hcb. apply insert_id. by rewrite lookup_fmap, Hr.
Qed.

Lemma link_ready_spec c l t r :
  wf c l -> records c !! t = Some r -> enqueued r = false ->
  exists c', link_ready t c = Some c' /\ wf c' (l ++ [(t, last_ready_generation c + 1)%N]) /\
             same_rest c c' /\ last_ready_generation c' = (last_ready_generation c + 1)%N.
Proof.
  intros Hwf Hr He. assert (t ∉ l.*1) as Hnin.
  { pose proof (wf_member _ _ _ _ Hwf Hr). rewrite He in *. by case_bool_decide. }
  pose proof (wf_idle _ _ Hwf _ _ Hr He) as Hnext.
  set (g := (last_ready_generation c + 1)%N).
  set (r' := MkRecord (callback r) true g (last_or None l) None).
  unfold link_ready. rewrite Hr. cbn [mbind option_bind]. rewrite He. cbn [assert_ negb mbind option_bind].
  fold g. rewrite Hnext. cbn [ready_tail set_generation put set_records records].
  rewrite (wf_tail _ _ Hwf). fold r'.
  assert (forall m, seg m None l (Some t) -> m !! t = Some r' ->
            seg m None (l ++ [(t, g)]) None) as Hseg.
  { intros m Hl Ht. apply seg_app. split; [done|]. split; [by exists (callback r)|done]. }
  assert (NoDup (l ++ [(t, g)]).*1) as Hnd.
  { rewrite fmap_app. apply NoDup_app. split_and!; [apply Hwf | | apply NoDup_singleton].
    intros x Hx ->%list_elem_of_singleton. done. }
  assert (closed c = true -> False) as Hopen.
  { intros Hc. by rewrite (wf_closed _ _ Hwf Hc), lookup_empty in Hr. }
  destruct l as [|[t' g'] l0 _] using rev_ind.
  - cbn [last_or foldl mbind option_bind].
    edestruct (refresh_set_wake) as (p & a & ->). eexists; split; [done|]. split; [|split; [|done]].
    + apply wf_set_wake. split; cbn [records put set_records set_head set_tail set_count
        ready_head ready_tail ready_count closed set_generation app].
      * done.
      * apply Hseg; [done|]. by rewrite lookup_insert_eq.
      * done.
      * done.
      * by rewrite (wf_count _ _ Hwf).
      * intros x rx Hx Hex. apply lookup_insert_Some in Hx as [[<- _]|[_ Hx]]; [by left|].
        eapply (wf_enqueued _ _ Hwf) in Hx; [|done]. by apply not_elem_of_nil in Hx.
      * intros x rx Hx Hex. apply lookup_insert_Some in Hx as [[<- <-]|[_ Hx]]; [done|].
        by eapply (wf_idle _ _ Hwf).
      * done.
    + split_and!; try done.
      cbn [records put set_records set_head set_tail set_count set_generation set_wake]. by apply (callback_insert _ _ r).
  - rewrite last_or_snoc. cbn [mbind option_bind].
    edestruct (seg_set_next (<[t:=r']> (records c)) None l0 t' g' None (Some t))
      as (rp & Hrp & Hl); [apply Hwf | by apply seg_frame, Hwf |].
    rewrite Hrp. cbn [mbind option_bind].
    assert (t' <> t) as Hne'.
    { intros ->. apply Hnin. rewrite fmap_app. apply elem_of_app. right. by left. }
    edestruct (refresh_set_wake) as (p & a & ->). eexists; split; [done|]. split; [|split; [|done]].
    + apply wf_set_wake. split; cbn [records put set_records set_head set_tail set_count
        ready_head ready_tail ready_count closed set_generation].
      * done.
      * apply Hseg; [done|]. by rewrite lookup_insert_ne, lookup_insert_eq.
      * rewrite (wf_head _ _ Hwf). rewrite !hd_or_app. by destruct l0.
      * by rewrite last_or_snoc.
      * rewrite (wf_count _ _ Hwf), !length_app. simpl. lia.
      * intros x rx Hx Hex. rewrite fmap_app. apply elem_of_app.
        apply lookup_insert_Some in Hx as [[<- _]|[_ Hx]].
        { left. rewrite fmap_app. apply elem_of_app. right. by left. }
        apply lookup_insert_Some in Hx as [[<- _]|[_ Hx]]; [right; by left|].
        left. by eapply (wf_enqueued _ _ Hwf).
      * intros x rx Hx Hex. rewrite lookup_insert_ne in Hrp by done.
        assert (enqueued rp = true) as Hrpe.
        { rewrite (wf_member _ _ _ _ Hwf Hrp). apply bool_decide_true.
          rewrite fmap_app. apply elem_of_app. right. by left. }
        apply lookup_insert_Some in Hx as [[<- <-]|[_ Hx]]; [cbn in Hex; congruence|].
        apply lookup_insert_Some in Hx as [[<- <-]|[_ Hx]]; [done|].
        by eapply (wf_idle _ _ Hwf).
      * done.
    + split_and!; try done. cbn [records put set_records set_head set_tail set_count set_generation set_wake].
      rewrite (callback_insert _ _ _ _ Hrp) by done. by apply (callback_insert _ _ r).
Qed.

(** What relinking the neighbours keeps of every record. *)
Definition kept (r : Record_) : A * bool * option N :=
  (callback r, enqueued r, if enqueued r then None else next_ready r).
Definition similar (m m' : gmap N Record_) : Prop := kept <$> m' = kept <$> m.

Lemma similar_insert m t r r' :
  m !! t = Some r -> kept r' = kept r -> similar m (<[t := r']> m).
Proof.
  intros Hr Hk. unfold similar. rewrite fmap_insert, Hk. apply insert_id. by rewrite lookup_fmap, Hr.
Qed.

Lemma similar_lookup m m' t r' :
  similar m m' -> m' !! t = Some r' -> exists r, m !! t = Some r /\ kept r' = kept r.
Proof.
  intros Hs Hr. apply (f_equal (lookup t)) in Hs. rewrite !lookup_fmap, Hr in Hs.
  destruct (m !! t) as [r|]; [|done]. exists r. split; [done|]. by apply (inj Some) in Hs.
Qed.

Lemma unlink_previous_spec t g l1 l2 r c :
  NoDup (l1 ++ (t, g) :: l2).*1 -> seg (records c) None (l1 ++ (t, g) :: l2) None ->
  ready_head c = hd_or (l1 ++ (t, g) :: l2) None -> records c !! t = Some r ->
  exists m, unlink_previous t r c = Some (set_head (hd_or (l1 ++ l2) None) (set_records m c)) /\
            seg m None l1 (hd_or l2 None) /\ similar (records c) m /\
            (forall x, x ∉ l1.*1 -> m !! x = records c !! x).
Proof.
  intros Hnd Hseg Hhead Hr. pose proof Hseg as Hseg0.
  apply seg_app in Hseg as [Hl1 [[cb Ht] Hl2]]. rewrite Hr in Ht. injection Ht as ->.
  cbn [hd_or fst] in Hl1. unfold unlink_previous. cbn [previous_ready next_ready].
  destruct l1 as [|[p gp] l1 _] using rev_ind.
  - exists (records c). cbn [last_or foldl app]. rewrite Hhead. cbn [app hd_or fst].
    rewrite bool_decide_true by done. split_and!; done.
  - rewrite last_or_snoc.
    destruct (seg_set_next (records c) None l1 p gp (Some t) (hd_or l2 None)) as (rp & Hrp & Hseg');
      [|done|].
    { rewrite fmap_app in Hnd. by apply NoDup_app in Hnd as (? & _). }
    rewrite Hrp. eexists; split; [cbn [mbind option_bind]; f_equal|]. 2: split; [done|].
    + rewrite <-app_assoc in Hhead |- *. rewrite hd_or_app in Hhead |- *.
      unfold put, set_head, set_records. cbn. rewrite Hhead. by destruct l1.
    + assert (enqueued rp = true) as He.
      { apply seg_app in Hl1 as [_ [[cb' Hrp'] _]]. rewrite Hrp in Hrp'. by injection Hrp' as ->. }
      split.
      * apply (similar_insert _ _ rp); [done|]. unfold kept. cbn. by rewrite He.
      * intros x Hx. apply lookup_insert_ne. intros ->. apply Hx. rewrite fmap_app.
        apply elem_of_app. right. by left.
Qed.

Lemma unlink_next_spec t g p l2 r c :
  NoDup ((t, g) :: l2).*1 -> seg (records c) p ((t, g) :: l2) None ->
  ready_tail c = last_or p ((t, g) :: l2) -> records c !! t = Some r ->
  exists m, unlink_next t r c = Some (set_tail (last_or p l2) (set_records m c)) /\
            seg m p l2 None /\ similar (records c) m /\
            (forall x, x ∉ l2.*1 -> m !! x = records c !! x).
Proof.
  intros Hnd [[cb Ht] Hl2] Htail Hr. rewrite Hr in Ht. injection Ht as ->.
  unfold unlink_next. cbn [previous_ready next_ready]. destruct l2 as [|[n gn] l2].
  - exists (records c). cbn [hd_or last_or foldl]. rewrite Htail. cbn [last_or foldl fst].
    rewrite bool_decide_true by done. split_and!; done.
  - cbn [hd_or fst].
    destruct (seg_set_previous (records c) (Some t) n gn l2 None p) as (rn & Hrn & Hseg');
      [by inversion Hnd | done |].
    rewrite Hrn. eexists; split; [cbn [mbind option_bind]; f_equal|]. 2: split; [done|].
    + unfold put, set_tail, set_records. cbn. rewrite Htail. done.
    + destruct Hl2 as [[cb' Hrn'] _]. rewrite Hrn in Hrn'. injection Hrn' as ->.
      split; [by apply (similar_insert _ _ _ _ Hrn)|].
      intros x Hx. apply lookup_insert_ne. intros ->. apply Hx. by left.
Qed.

Lemma NoDup_tokens (l1 l2 : list (N * N)) t g :
  NoDup (l1 ++ (t, g) :: l2).*1 ->
  t ∉ l1.*1 /\ t ∉ l2.*1 /\ NoDup (l1 ++ l2).*1 /\ NoDup ((t, g) :: l2).*1 /\
  forall y, y ∈ l1.*1 -> y ∉ l2.*1.
Proof.
  rewrite !fmap_app, !fmap_cons. change ((t, g).1) with t.
  intros (H1 & Hd & H2)%NoDup_app. pose proof H2 as [Hx H2']%NoDup_cons.
  assert (forall y, y ∈ l1.*1 -> y ∉ l2.*1) as Hd' by (intros y Hy Hin; apply (Hd y Hy); by right).
  split; [intros Hin; apply (Hd t Hin); by left|]. split; [done|].
  split; [by apply NoDup_app|]. done.
Qed.

Lemma seg_ext m m' p l n :
  (forall x, x ∈ l.*1 -> m' !! x = m !! x) -> seg m p l n -> seg m' p l n.
Proof.
  revert p. induction l as [|[t g] l IH]; intros p Hx; [done|]. intros [[cb Ht] Hl].
  split; [exists cb; rewrite Hx; [done | by left]|]. apply IH; [|done].
  intros x Hin. apply Hx. by right.
Qed.

Lemma similar_trans m1 m2 m3 : similar m1 m2 -> similar m2 m3 -> similar m1 m3.
Proof. unfold similar. congruence. Qed.

Lemma similar_callbacks m m' : similar m m' -> callback <$> m' = callback <$> m.
Proof.
  intros Hs. assert (forall m0 : gmap N Record_, callback <$> m0 = (fst ∘ fst) <$> (kept <$> m0)) as E.
  { intros m0. rewrite <-map_fmap_compose. done. }
  by rewrite !E, Hs.
Qed.

Lemma unlink_ready_spec c l1 t g l2 :
  wf c (l1 ++ (t, g) :: l2) ->
  exists c' r', unlink_ready t c = Some c' /\ wf c' (l1 ++ l2) /\ same_rest c c' /\
    last_ready_generation c' = last_ready_generation c /\ records c' !! t = Some r'.
Proof.
  intros Hwf. pose proof (wf_seg _ _ Hwf) as Hseg. pose proof (wf_nodup _ _ Hwf) as Hnd.
  destruct (NoDup_tokens _ _ _ _ Hnd) as (Hn1 & Hn2 & Hnd12 & Hndt & Hdisj).
  pose proof Hseg as [_ [[cb Hr] Hl2]]%seg_app.
  set (r := MkRecord cb true g (last_or None l1) (hd_or l2 None)) in *.
  destruct (unlink_previous_spec t g l1 l2 r c) as (m1 & E1 & Hs1 & Hsim1 & Hframe1);
    [done | done | apply Hwf | done |].
  set (c1 := set_head (hd_or (l1 ++ l2) None) (set_records m1 c)) in *.
  assert (records c1 !! t = Some r) as Hr1 by (cbn; by rewrite Hframe1).
  assert (seg (records c1) (last_or None l1) ((t, g) :: l2) None) as Hseg1.
  { split; [by exists cb|]. apply (seg_ext (records c)); [|done].
    intros x Hx. apply Hframe1. intros Hin. by apply (Hdisj x). }
  destruct (unlink_next_spec t g (last_or None l1) l2 r c1) as (m2 & E2 & Hs2 & Hsim2 & Hframe2);
    [done | done | cbn [ready_tail c1 set_head set_records]; by rewrite (wf_tail _ _ Hwf), last_or_app
     | done |].
  set (c2 := set_tail (last_or (last_or None l1) l2) (set_records m2 c1)) in *.
  assert (records c2 !! t = Some r) as Hr2 by (cbn; by rewrite Hframe2).
  set (r3 := MkRecord (callback r) false (ready_generation r) None None).
  assert (similar (records c) m2) as Hsim by by eapply similar_trans.
  destruct (refresh_set_wake (set_count (pred (ready_count c2)) (put t r3 c2))) as (p & a & Ewake).
  exists (set_wake p a (set_count (pred (ready_count c2)) (put t r3 c2))), r3.
  split; [|split; [|split; [|split]]].
  - unfold unlink_ready. rewrite Hr. cbn [mbind option_bind enqueued r assert_].
    fold r. rewrite E1. cbn [mbind option_bind]. rewrite Hr1. cbn [mbind option_bind].
    rewrite E2. cbn [mbind option_bind]. rewrite Hr2. cbn [mbind option_bind]. fold r3.
    rewrite (proj2 (Nat.eqb_neq (ready_count (put t r3 c2)) 0))
      by (change (ready_count c <> 0); rewrite (wf_count _ _ Hwf), length_app; simpl; lia).
    cbn [negb assert_ mbind option_bind]. f_equal. exact Ewake.
  - apply wf_set_wake. assert (forall x rx, records (put t r3 c2) !! x = Some rx ->
      x = t /\ rx = r3 \/ x <> t /\ exists r0, records c !! x = Some r0 /\ kept rx = kept r0) as Hrec.
    { intros x rx Hx. cbn [records put set_records] in Hx.
      apply lookup_insert_Some in Hx as [[<- <-]|[Hne Hx]]; [by left|]. right. split; [done|].
      by eapply similar_lookup. }
    split; cbn [records set_count ready_head ready_tail ready_count closed].
    + done.
    + apply seg_app. split; (apply seg_frame; [done|]); [|done].
      apply (seg_ext m1); [|done]. intros x Hx. cbn. apply Hframe2. by apply Hdisj.
    + done.
    + cbn. by rewrite last_or_app.
    + cbn. rewrite (wf_count _ _ Hwf), !length_app. simpl. lia.
    + intros x rx [[-> ->]|[Hne (r0 & Hr0 & Hk)]]%Hrec He; [done|].
      assert (enqueued r0 = true) as He0 by (unfold kept in Hk; congruence).
      eapply (wf_enqueued _ _ Hwf) in He0; [|done]. rewrite fmap_app in He0 |- *.
      apply elem_of_app in He0 as [?|[?|?]%elem_of_cons]; apply elem_of_app; naive_solver.
    + intros x rx [[-> ->]|[Hne (r0 & Hr0 & Hk)]]%Hrec He; [done|].
      unfold kept in Hk. rewrite He in Hk.
      assert (enqueued r0 = false) as He0 by congruence. rewrite He0 in Hk.
      rewrite <-(wf_idle _ _ Hwf _ _ Hr0 He0). congruence.
    + intros Hc. cbn in Hc. by rewrite (wf_closed _ _ Hwf Hc), lookup_empty in Hr.
  - split_and!; try done. cbn [records put set_records set_count set_wake c2 set_tail].
    rewrite (callback_insert _ _ r) by (by cbn; rewrite ?Hframe2). by apply similar_callbacks.
  - done.
  - cbn. by rewrite lookup_insert_eq.
Qed.

Lemma wf_delete c l t : wf c l -> t ∉ l.*1 -> wf (set_records (delete t (records c)) c) l.
Proof.
  intros [] Ht. split; cbn [records set_records ready_head ready_tail ready_count closed]; try done.
  - by apply seg_delete.
  - intros x r [_ Hx]%lookup_delete_Some. eauto.
  - intros x r [_ Hx]%lookup_delete_Some. eauto.
  - intros Hc. rewrite wf_closed0 by done. apply delete_empty.
Qed.

Lemma wf_insert_new c l t cb :
  wf c l -> records c !! t = None -> closed c = false -> wf (put t (new_record cb) c) l.
Proof.
  intros Hwf Ht Hc. assert (t ∉ l.*1) as Hnin.
  { intros Hin. apply (seg_elem (records c) None l None) in Hin as (r & Hr & _); [congruence | apply Hwf]. }
  destruct Hwf. split; cbn [records put set_records ready_head ready_tail ready_count closed]; try done.
  - by apply seg_frame.
  - intros x r [[<- <-]|[_ Hx]]%lookup_insert_Some; [done | eauto].
  - intros x r [[<- <-]|[_ Hx]]%lookup_insert_Some; [done | eauto].
  - congruence.
Qed.

Lemma related_relink c q c' l :
  related c q -> wf c' l -> same_rest c c' ->
  related c' (q_with (q_callbacks q) l (last_ready_generation c') q).
Proof.
  intros (_ & Hcb & Hlast & Hnext & Hcl & Hfi) Hwf' (E1 & E2 & E3 & _ & E4).
  split; [done|]. cbn. split_and!; congruence.
Qed.

Lemma related_delete c q t :
  related c q -> t ∉ (q_ready q).*1 ->
  related (set_records (delete t (records c)) c)
          (q_with (delete t (q_callbacks q)) (q_ready q) (q_last q) q).
Proof.
  intros (Hwf & Hcb & Hlast & Hnext & Hcl & Hfi) Ht. split; [by apply wf_delete|].
  cbn. split_and!; try done. by rewrite fmap_delete, Hcb.
Qed.

Lemma related_lookup c q t : related c q -> q_callbacks q !! t = callback <$> records c !! t.
Proof. intros (_ & <- & _). by rewrite lookup_fmap. Qed.

Lemma without_absent t l : t ∉ l.*1 -> without t l = l.
Proof.
  induction l as [|[t' g'] l IH]; [done|]. intros [Hne Hl]%not_elem_of_cons.
  unfold without in *. rewrite filter_cons_True by (intros <-; by apply Hne). by rewrite IH.
Qed.

Lemma without_middle l1 t g l2 :
  t ∉ l1.*1 -> t ∉ l2.*1 -> without t (l1 ++ (t, g) :: l2) = l1 ++ l2.
Proof.
  intros H1 H2. unfold without. rewrite filter_app, filter_cons_False by (intros Hne; by apply Hne).
  fold (without t l1) (without t l2). by rewrite !without_absent.
Qed.

Lemma token_split t (l : list (N * N)) : t ∈ l.*1 -> exists l1 g l2, l = l1 ++ (t, g) :: l2.
Proof.
  intros ([t' g] & -> & Hin)%list_elem_of_fmap. apply list_elem_of_split in Hin as (l1 & l2 & ->). eauto.
Qed.

Lemma related_link c q t r :
  related c q -> records c !! t = Some r -> enqueued r = false ->
  exists c', link_ready t c = Some c' /\ related c' (q_append t q) /\ dispatching c' = dispatching c.
Proof.
  intros HR Hr He. pose proof HR as (Hwf & _ & Hlast & _).
  destruct (link_ready_spec _ _ _ _ Hwf Hr He) as (c' & E & Hwf' & Hrest & Hlast').
  exists c'. split; [done|]. split; [|apply Hrest].
  unfold q_append. rewrite <-Hlast, <-Hlast'. rewrite <-Hlast' in Hwf'. by apply related_relink with c.
Qed.

(** A ready entry leaves the queue for good: what [detach] and [claim_ready] share. *)
Lemma related_extract c q l1 t g l2 :
  related c q -> q_ready q = l1 ++ (t, g) :: l2 ->
  exists c' r, unlink_ready t c = Some c' /\ records c' !! t = Some r /\
    q_callbacks q !! t = Some (callback r) /\
    related (set_records (delete t (records c')) c')
            (q_with (delete t (q_callbacks q)) (l1 ++ l2) (q_last q) q) /\
    dispatching c' = dispatching c.
Proof.
  intros HR Hl. pose proof HR as (Hwf & Hcb & Hlast & _). rewrite Hl in Hwf.
  destruct (NoDup_tokens _ _ _ _ (wf_nodup _ _ Hwf)) as (Hn1 & Hn2 & _).
  destruct (unlink_ready_spec _ _ _ _ _ Hwf) as (c' & r & E & Hwf' & Hrest & Hlast' & Hr).
  exists c', r. split; [done|]. split; [done|].
  pose proof (related_relink _ _ _ _ HR Hwf' Hrest) as HR'.
  split; [|split; [|apply Hrest]].
  - pose proof (related_lookup _ _ t HR') as E'. cbn in E'. by rewrite E', Hr.
  - rewrite Hlast', Hlast in HR'. apply (related_delete _ _ t HR'). cbn.
    rewrite fmap_app. rewrite elem_of_app. tauto.
Qed.

Lemma related_ready_count c q : related c q -> ready_count c = length (q_ready q).
Proof. intros (Hwf & _). apply Hwf. Qed.

(** One operation on both sides. *)
Definition step_related (o : op) (c : Core) (q : Queue) : Prop :=
  exists c', exec o c = Some (c', (q_exec o q).2) /\ related c' (q_exec o q).1 /\
             dispatching c' = dispatching c.

Lemma enqueue_related t c q : related c q -> step_related (Enqueue t) c q.
Proof.
  intros HR. pose proof HR as (Hwf & Hcb & Hlast & Hnext & Hcl & Hfi). unfold step_related.
  cbn [exec q_exec]. unfold enqueue. rewrite (related_lookup _ _ t HR).
  destruct (records c !! t) as [r|] eqn:Hr; cbn [mbind option_bind fmap option_fmap option_map].
  - rewrite (wf_member _ _ _ _ Hwf Hr), <-Hcl, (bool_decide_true (is_Some _)) by eauto.
    destruct (closed c); [by exists c|]. cbn [orb negb andb]. rewrite bool_decide_not.
    case_bool_decide as Hin; cbn [negb]; [by exists c|].
    destruct (related_link _ _ _ _ HR Hr) as (c' & E & HR' & Hd).
    { rewrite (wf_member _ _ _ _ Hwf Hr). by apply bool_decide_false. }
    exists c'. by rewrite E.
  - rewrite (bool_decide_false (is_Some None)), andb_false_r by (by intros []). by exists c.
Qed.

Lemma detach_related t c q : related c q -> step_related (Detach t) c q.
Proof.
  intros HR. pose proof HR as (Hwf & Hcb & Hlast & Hnext & Hcl & Hfi). unfold step_related.
  cbn [exec q_exec]. unfold detach. pose proof (related_lookup _ _ t HR) as Hlook.
  destruct (records c !! t) as [r|] eqn:Hr; cbn [mbind option_bind fmap option_fmap option_map] in *.
  - rewrite (wf_member _ _ _ _ Hwf Hr). case_bool_decide as Hin.
    + destruct (token_split _ _ Hin) as (l1 & g & l2 & Hl).
      destruct (related_extract _ _ _ _ _ _ HR Hl) as (c' & r' & E & _ & _ & HR' & Hd).
      rewrite E. cbn [mbind option_bind]. eexists; split; [done|]. split; [|done].
      rewrite Hl in Hwf |- *. destruct (NoDup_tokens _ _ _ _ (wf_nodup _ _ Hwf)) as (? & ? & _).
      by rewrite without_middle.
    + eexists; split; [done|]. split; [|done]. rewrite without_absent by done. by apply related_delete.
  - exists c. split; [done|]. split; [|done]. cbn [fst].
    rewrite delete_id by done. rewrite without_absent; [by destruct q|].
    intros Hin. apply (seg_elem (records c) None _ None) in Hin as (r & Hr' & _); [congruence | apply Hwf].
Qed.

Lemma next_token_related c q : related c q -> step_related (NextToken) c q.
Proof.
  intros HR. pose proof HR as (Hwf & Hcb & Hlast & Hnext & Hcl & Hfi). unfold step_related.
  exists (bump_token c). cbn. rewrite Hnext. split; [done|]. split; [|done].
  destruct Hwf. split_and!; try done. cbn. by rewrite Hnext.
Qed.

Lemma register_related t cb c q : related c q -> step_related (Register t cb) c q.
Proof.
  intros HR. pose proof HR as (Hwf & Hcb & Hlast & Hnext & Hcl & Hfi). unfold step_related.
  cbn [exec q_exec]. unfold register_record. rewrite (related_lookup _ _ t HR), <-Hcl.
  destruct (closed c) eqn:Ec; [by exists c|]. cbn [negb andb].
  destruct (records c !! t) as [r|] eqn:Hr; cbn [fmap option_fmap option_map].
  - rewrite bool_decide_false by done. by exists c.
  - rewrite bool_decide_true by done. eexists; split; [done|]. split; [|done].
    split; [by apply wf_insert_new|]. cbn. split_and!; try done; [|congruence].
    by rewrite fmap_insert, Hcb.
Qed.

Lemma push_ready_related cb c q : related c q -> step_related (PushReady cb) c q.
Proof.
  intros HR. pose proof HR as (Hwf & Hcb & Hlast & Hnext & Hcl & Hfi). unfold step_related.
  cbn [exec q_exec]. unfold push_ready. rewrite <-Hcl.
  destruct (closed c) eqn:Ec; [by exists c|].
  cbn [records bump_token q_callbacks q_ready q_last q_next q_closed q_finished].
  assert (related (bump_token c) (MkQueue (q_callbacks q) (q_ready q) (q_last q) (q_next q + 1)
    (closed c) (q_finished q))) as HRb.
  { destruct Hwf. split_and!; try done. cbn. by rewrite Hnext. }
  rewrite Hnext, (related_lookup _ _ (q_next q) HR).
  destruct (records c !! q_next q) as [r|] eqn:Hr; cbn [fmap option_fmap option_map].
  - rewrite bool_decide_false by done. exists (bump_token c). rewrite <-Ec. done.
  - rewrite bool_decide_true by done.
    destruct (related_link (put (q_next q) (new_record cb) (bump_token c))
      (q_with (<[q_next q := cb]> (q_callbacks q)) (q_ready q) (q_last q)
        (MkQueue (q_callbacks q) (q_ready q) (q_last q) (q_next q + 1) (closed c) (q_finished q)))
      (q_next q) (new_record cb)) as (c' & E & HR' & Hd); [| cbn; by rewrite lookup_insert_eq | done |].
    { split; [by apply wf_insert_new; [apply HRb|..]|]. cbn. split_and!; try done.
      * by rewrite fmap_insert, Hcb.
      * by rewrite Hnext. }
    exists c'. rewrite E. cbn [mbind option_bind fst snd]. by rewrite <-Ec.
Qed.

Lemma finish_related c q : related c q -> step_related (Finish) c q.
Proof.
  intros HR. pose proof HR as (Hwf & Hcb & Hlast & Hnext & Hcl & Hfi). unfold step_related.
  cbn [exec q_exec]. unfold finish. edestruct refresh_set_wake as (p & a & ->).
  eexists; split; [done|]. split; [|done]. split; [apply wf_set_wake; by destruct Hwf|].
  cbn. split_and!; done.
Qed.

Lemma close_related c q : related c q -> step_related (Close) c q.
Proof.
  intros HR. pose proof HR as (Hwf & Hcb & Hlast & Hnext & Hcl & Hfi). unfold step_related.
  cbn [exec q_exec]. unfold close. rewrite <-Hcl. destruct (closed c) eqn:Ec; [by exists c|].
  edestruct refresh_set_wake as (p & a & ->). eexists; split; [done|]. split; [|done].
  split; [|cbn; split_and!; try done; apply fmap_empty].
  split; cbn; try done; first [constructor | intros ?? Hx; by rewrite lookup_empty in Hx].
Qed.

Lemma exec_related c q o : related c q -> step_related o c q.
Proof.
  destruct o; eauto using enqueue_related, detach_related, next_token_related, register_related,
    push_ready_related, finish_related, close_related.
Qed.

Lemma exec_all_related os c q :
  related c q ->
  exists c', exec_all os c = Some c' /\ related c' (q_exec_all os q) /\ dispatching c' = dispatching c.
Proof.
  revert c q. induction os as [|o os IH]; intros c q HR; [by exists c|]. cbn.
  destruct (exec_related c q o HR) as (c1 & E & HR1 & Hd1). rewrite E.
  destruct (IH _ _ HR1) as (c2 & E2 & HR2 & Hd2). exists c2. cbn. rewrite E2. split_and!; congruence.
Qed.

Lemma claim_related c q :
  related c q ->
  exists c', claim_ready c = Some (c', (q_claim q).2) /\ related c' (q_claim q).1 /\
             dispatching c' = dispatching c.
Proof.
  intros HR. pose proof HR as (Hwf & _). unfold claim_ready, q_claim. rewrite (wf_head _ _ Hwf).
  destruct (q_ready q) as [|[t g] l] eqn:Hl; cbn [hd_or fst]; [by exists c|].
  destruct (related_extract c q [] t g l HR Hl) as (c' & r & E & Hr & Hcb & HR' & Hd).
  assert (is_Some (records c !! t)) as [r0 Hr0].
  { destruct (wf_seg _ _ Hwf) as [[cb Hs] _]. eauto. }
  rewrite Hr0. cbn [mbind option_bind]. rewrite E. cbn [mbind option_bind]. rewrite Hr, Hcb.
  cbn. eexists. split; [done|]. done.
Qed.

(** * Dispatching only what was ready *)

(** Entries stand in the order of the numbers they were queued under. *)
Definition aged (q : Queue) : Prop :=
  StronglySorted N.lt (q_ready q).*2 /\ Forall (fun g => g <= q_last q)%N (q_ready q).*2.

Definition old (cutoff : N) (q : Queue) : list (N * N) :=
  filter (fun e => e.2 <= cutoff)%N (q_ready q).

Lemma sublist_Forall {B} (P : B -> Prop) (l l' : list B) :
  l' `sublist_of` l -> Forall P l -> Forall P l'.
Proof. intros Hs. rewrite !Forall_forall. intros H x Hx. apply H. by eapply elem_of_sublist. Qed.

Lemma sublist_filter_mono {B} (P : B -> Prop) `{!forall x, Decision (P x)} (l l' : list B) :
  l' `sublist_of` l -> filter P l' `sublist_of` filter P l.
Proof.
  induction 1 as [|x l1 l2 Hs IH|x l1 l2 Hs IH]; [done| |].
  - destruct (decide (P x)).
    + rewrite !filter_cons_True by done. by constructor.
    + by rewrite !filter_cons_False by done.
  - destruct (decide (P x)).
    + rewrite (filter_cons_True _ x) by done. by constructor.
    + by rewrite (filter_cons_False _ x) by done.
Qed.

Lemma filter_none {B} (P : B -> Prop) `{!forall x, Decision (P x)} (l : list B) :
  Forall (fun x => ~ P x) l -> filter P l = [].
Proof. induction 1; [done|]. by rewrite filter_cons_False. Qed.

Lemma StronglySorted_sublist (l l' : list N) :
  l' `sublist_of` l -> StronglySorted N.lt l -> StronglySorted N.lt l'.
Proof.
  induction 1 as [|x l1 l2 Hs IH|x l1 l2 Hs IH]; intros Hl; [done|..];
    apply StronglySorted_inv in Hl as [Hl Hx].
  - constructor; [by apply IH | by eapply sublist_Forall].
  - by apply IH.
Qed.

Lemma StronglySorted_snoc (l : list N) g :
  StronglySorted N.lt l -> Forall (fun x => x < g)%N l -> StronglySorted N.lt (l ++ [g]).
Proof.
  induction 1 as [|x l Hl IH Hx]; intros Hg; cbn; [by repeat constructor|].
  apply Forall_cons in Hg as [Hxg Hg]. constructor; [by apply IH|].
  apply Forall_app. by repeat constructor.
Qed.

Lemma aged_shrink q q' :
  aged q -> q_ready q' `sublist_of` q_ready q -> q_last q' = q_last q -> aged q'.
Proof.
  intros [Hs Hl] Hsub Hlast. apply (fmap_sublist snd) in Hsub. split.
  - by eapply StronglySorted_sublist.
  - rewrite Hlast. by eapply sublist_Forall.
Qed.

Lemma aged_append q t : aged q -> aged (q_append t q).
Proof.
  intros [Hs Hl]. unfold aged, q_append. cbn. rewrite fmap_app. split.
  - apply StronglySorted_snoc; [done|]. cbn. eapply Forall_impl; [done|]. cbn. lia.
  - apply Forall_app. split; [eapply Forall_impl; [done|]; cbn; lia|]. repeat constructor. cbn. lia.
Qed.

Lemma exec_cases o q :
  q_ready (q_exec o q).1 `sublist_of` q_ready q /\ q_last (q_exec o q).1 = q_last q \/
  exists t q0, (q_exec o q).1 = q_append t q0 /\ q_ready q0 = q_ready q /\ q_last q0 = q_last q.
Proof.
  destruct o; cbn; repeat case_match; cbn; try (left; split; [apply sublist_filter|done]);
    try (left; split; [done|done]); try (right; eexists _, _; split; [reflexivity|]; done).
  left. split; [apply sublist_nil_l|done].
Qed.

Lemma exec_aged o q : aged q -> aged (q_exec o q).1.
Proof.
  intros Hq. destruct (exec_cases o q) as [[Hs Hl]|(t & q0 & -> & Hr & Hl)].
  - by eapply aged_shrink.
  - apply aged_append. unfold aged in *. by rewrite Hr, Hl.
Qed.

Lemma old_sublist cutoff q q' :
  q_ready q' `sublist_of` q_ready q -> old cutoff q' `sublist_of` old cutoff q.
Proof. apply sublist_filter_mono. Qed.

Lemma exec_old cutoff o q :
  (cutoff <= q_last q)%N ->
  old cutoff (q_exec o q).1 `sublist_of` old cutoff q /\ (cutoff <= q_last (q_exec o q).1)%N.
Proof.
  intros Hc. destruct (exec_cases o q) as [[Hs Hl]|(t & q0 & -> & Hr & Hl)].
  - rewrite Hl. split; [by apply old_sublist | done].
  - unfold old. cbn. rewrite Hl, Hr, filter_app, filter_cons_False, filter_nil, app_nil_r by (cbn; lia).
    split; [done | lia].
Qed.

Lemma exec_all_old cutoff os q :
  aged q -> (cutoff <= q_last q)%N ->
  aged (q_exec_all os q) /\ old cutoff (q_exec_all os q) `sublist_of` old cutoff q /\
  (cutoff <= q_last (q_exec_all os q))%N.
Proof.
  revert q. induction os as [|o os IH]; intros q Hq Hc; cbn; [done|].
  destruct (exec_old cutoff o q Hc) as [Hs Hc'].
  destruct (IH (q_exec o q).1) as (H1 & H2 & H3); [by apply exec_aged | done |].
  split_and!; try done. by etrans.
Qed.

Lemma related_callback c q t g l :
  related c q -> q_ready q = (t, g) :: l -> is_Some (q_callbacks q !! t).
Proof.
  intros HR Hl. rewrite (related_lookup _ _ _ HR). destruct HR as (Hwf & _). rewrite Hl in Hwf.
  destruct (wf_seg _ _ Hwf) as [[cb Hs] _]. rewrite Hs. eauto.
Qed.

Lemma claim_before_related cutoff c q :
  related c q ->
  exists c', claim_before cutoff c = Some (c', (q_claim_before cutoff q).2) /\
             related c' (q_claim_before cutoff q).1 /\ dispatching c' = dispatching c.
Proof.
  intros HR. pose proof HR as (Hwf & _). unfold claim_before, q_claim_before.
  rewrite (wf_count _ _ Hwf), (wf_head _ _ Hwf).
  destruct (q_ready q) as [|[t g] l] eqn:Hl; cbn [length hd_or fst Nat.eqb]; [by exists c|].
  destruct (wf_seg _ _ Hwf) as [[cb Hs] _]. rewrite Hs. cbn [mbind option_bind ready_generation].
  destruct (cutoff <? g)%N; [by exists c|]. by apply claim_related.
Qed.

(** A claim takes the oldest of the old entries, or there is none left. *)
Lemma claim_before_old cutoff c q :
  related c q -> aged q ->
  match q_claim_before cutoff q with
  | (q', None) => q' = q /\ old cutoff q = []
  | (q', Some (t, cb)) => exists g, old cutoff q = (t, g) :: old cutoff q' /\ aged q' /\
                          q_last q' = q_last q /\ q_callbacks q !! t = Some cb
  end.
Proof.
  intros HR Hq. unfold q_claim_before. destruct (q_ready q) as [|[t g] l] eqn:Hl.
  { split; [done|]. unfold old. by rewrite Hl. }
  destruct (N.ltb_spec cutoff g) as [Hg|Hg].
  - split; [done|]. unfold old. rewrite Hl. destruct Hq as [Hs _]. rewrite Hl, fmap_cons in Hs.
    apply StronglySorted_inv in Hs as [_ Hall]. rewrite filter_cons_False by (cbn; lia).
    apply filter_none. rewrite Forall_fmap in Hall. eapply Forall_impl; [exact Hall|].
    intros e He. cbn in *. lia.
  - destruct (related_callback _ _ _ _ _ HR Hl) as [cb Hcb]. unfold q_claim. rewrite Hl, Hcb.
    cbn. exists g. unfold old. cbn. rewrite Hl, filter_cons_True by done.
    split_and!; try done. eapply aged_shrink; [done | | done]. cbn. rewrite Hl. by apply sublist_cons.
Qed.

Lemma run_loop_spec turns cutoff between c q :
  related c q -> aged q -> (cutoff <= q_last q)%N -> length (old cutoff q) <= turns ->
  exists c' q' ran, run_ready_loop turns cutoff between c = Some (c', ran) /\
    related c' q' /\ aged q' /\ dispatching c' = dispatching c /\
    ran.*1 `sublist_of` (old cutoff q).*1 /\ old cutoff q' = [] /\
    ((forall i, between i = []) -> ran.*1 = (old cutoff q).*1).
Proof.
  revert c q. induction turns as [|turns IH]; intros c q HR Hq Hc Hlen.
  { exists c, q, []. destruct (old cutoff q) eqn:E; [|simpl in Hlen; lia]. by split_and!. }
  cbn [run_ready_loop].
  destruct (exec_all_related (between turns) _ _ HR) as (c1 & E1 & HR1 & Hd1).
  destruct (exec_all_old cutoff (between turns) q Hq Hc) as (Hq1 & Hs1 & Hc1).
  set (q1 := q_exec_all (between turns) q) in *. rewrite E1. cbn [mbind option_bind].
  destruct (claim_before_related cutoff _ _ HR1) as (c2 & E2 & HR2 & Hd2). rewrite E2.
  cbn [mbind option_bind]. pose proof (claim_before_old cutoff _ _ HR1 Hq1) as Hold.
  assert ((forall i, between i = []) -> q1 = q) as Hquiet.
  { intros Hb. unfold q1. by rewrite Hb. }
  revert HR2 Hold. destruct (q_claim_before cutoff q1) as [q2 [[t cb]|]]; cbn [fst snd]; intros HR2 Hold.
  - destruct Hold as (g & Hold & Hq2 & Hlast & _).
    destruct (IH c2 q2) as (c3 & q3 & ran & E3 & HR3 & Hq3 & Hd3 & Hsub & Hnone & Hall); [done | done | | |].
    { by rewrite Hlast. }
    { apply sublist_length in Hs1. rewrite Hold in Hs1. simpl in Hs1. lia. }
    exists c3, q3, ((t, cb) :: ran). rewrite E3. cbn. split_and!; try done; try congruence.
    + transitivity (old cutoff q1).*1; [|by apply fmap_sublist]. rewrite Hold. by constructor.
    + intros Hb. rewrite (Hall Hb), <-(Hquiet Hb), Hold. done.
  - destruct Hold as [-> Hold]. exists c2, q1, []. split_and!; try done; [congruence | | ].
    + apply sublist_nil_l.
    + intros Hb. rewrite <-(Hquiet Hb), Hold. done.
Qed.

(** * The wake pipe *)

(** The byte is in the pipe exactly when the flag says so. *)
Definition pipe_ok (c : Core) : Prop :=
  match pipe c with
  | None => wake_armed c = false
  | Some held => held = if wake_armed c then 1 else 0
  end.

(** The descriptor is readable exactly when a waiter would be released. *)
Definition wake_ok (c : Core) : Prop :=
  pipe_ok c /\ (is_Some (pipe c) -> wake_armed c = ready_locked c).

(** Every locked section that changes what is ready ends by refreshing. *)
Definition refreshed (c c' : Core) : Prop :=
  exists c0, c' = refresh_wake_locked c0 /\ pipe c0 = pipe c /\ wake_armed c0 = wake_armed c.

Lemma refresh_ok c : pipe_ok c -> wake_ok (refresh_wake_locked c).
Proof.
  unfold wake_ok, pipe_ok, refresh_wake_locked. intros Hp.
  destruct (pipe c) as [held|] eqn:Ep; [|rewrite Ep; split; [done | by intros []]].
  subst held. destruct (ready_locked c) eqn:Er, (wake_armed c) eqn:Ea; cbn;
    rewrite ?write_empty, ?read_held; cbn; rewrite ?Ep, ?Ea; try done; (split; [done|]); intros _;
    unfold ready_locked in *; cbn; congruence.
Qed.

Lemma refreshed_ok c c' : wake_ok c -> refreshed c c' -> wake_ok c'.
Proof.
  intros [Hp _] (c0 & -> & E1 & E2). apply refresh_ok. unfold pipe_ok in *. by rewrite E1, E2.
Qed.

(** Inverting a chain of [option] steps. *)
Ltac invert_steps :=
  repeat match goal with
    | H : (_ ≫= _) = Some _ |- _ => apply bind_Some in H as (? & ? & H)
    | H : Some _ = Some _ |- _ => injection H as H; subst
    | H : (match ?x with _ => _ end) = Some _ |- _ => destruct x eqn:?; try discriminate H
    end.

Lemma link_refreshed t c c' : link_ready t c = Some c' -> refreshed c c'.
Proof. unfold link_ready, refreshed. intros H. invert_steps; eexists; split; done. Qed.

Lemma unlink_refreshed t c c' : unlink_ready t c = Some c' -> refreshed c c'.
Proof.
  unfold unlink_ready, unlink_previous, unlink_next, refreshed. intros H.
  invert_steps; eexists; split; done.
Qed.

Lemma wake_ok_records m c : wake_ok c -> wake_ok (set_records m c).
Proof. done. Qed.

Lemma exec_wake o c c' a : wake_ok c -> exec o c = Some (c', a) -> wake_ok c'.
Proof.
  intros Hw. destruct o; cbn [exec]; intros H.
  - unfold enqueue in H. invert_steps; cbn; try done. by eapply refreshed_ok, link_refreshed.
  - unfold detach in H. invert_steps; try done; apply wake_ok_records.
    by eapply refreshed_ok, unlink_refreshed.
  - invert_steps. done.
  - invert_steps. unfold register_record. by repeat case_match.
  - unfold push_ready in H. invert_steps; cbn; try done.
    eapply refreshed_ok; [|by eapply link_refreshed]. done.
  - invert_steps. by apply refresh_ok, Hw.
  - invert_steps. unfold close. destruct (closed c); [done|]. apply wake_ok_records.
    by apply refresh_ok, Hw.
Qed.

Lemma claim_wake c c' x : wake_ok c -> claim_ready c = Some (c', x) -> wake_ok c'.
Proof.
  intros Hw H. unfold claim_ready in H. invert_steps; [|done].
  apply wake_ok_records. by eapply refreshed_ok, unlink_refreshed.
Qed.

(** * Every history of locked sections *)

(** What one acquisition of the lock, or one change of the dispatch flag, can do:
    the operations, a claim by a dispatcher, taking and releasing dispatch. *)
Inductive reachable (piped : bool) : Core -> Prop :=
  | reach_new : reachable piped (new_core piped)
  | reach_exec o c c' a : reachable piped c -> exec o c = Some (c', a) -> reachable piped c'
  | reach_claim c c' x : reachable piped c -> claim_ready c = Some (c', x) -> reachable piped c'
  | reach_dispatch c d : reachable piped c -> reachable piped (set_flags (closed c) (finished c) d c).

Definition new_queue : Queue := MkQueue ∅ [] 0 1 false false.

Lemma new_related piped : related (new_core piped) new_queue.
Proof.
  split; [|cbn; split_and!; try done; apply fmap_empty].
  split; cbn; try done; first [constructor | intros ?? Hx; by rewrite lookup_empty in Hx].
Qed.

Lemma new_wake piped : wake_ok (new_core piped).
Proof. split; [by destruct piped | done]. Qed.

Lemma claim_aged c q : related c q -> aged q -> aged (q_claim q).1.
Proof.
  intros HR Hq. unfold q_claim. destruct (q_ready q) as [|[t g] l] eqn:Hl; [done|].
  cbn. eapply aged_shrink; [done | | done]. cbn. rewrite Hl. by apply sublist_cons.
Qed.

Lemma reachable_related piped c :
  reachable piped c -> wake_ok c /\ exists q, related c q /\ aged q.
Proof.
  induction 1 as [|o c c' a _ [Hw (q & HR & Hq)] E|c c' x _ [Hw (q & HR & Hq)] E|c d _ [Hw (q & HR & Hq)]].
  - split; [apply new_wake|]. exists new_queue. split; [apply new_related | by repeat constructor].
  - split; [by eapply exec_wake|]. exists (q_exec o q).1.
    destruct (exec_related _ _ o HR) as (c1 & E1 & HR1 & _). rewrite E in E1. injection E1 as -> ->.
    split; [done | by apply exec_aged].
  - split; [by eapply claim_wake|]. exists (q_claim q).1.
    destruct (claim_related _ _ HR) as (c1 & E1 & HR1 & _). rewrite E in E1. injection E1 as -> ->.
    split; [done | by eapply claim_aged].
  - split; [done|]. exists q. split; [|done]. destruct HR as ([] & ?). by split.
Qed.

Lemma nonempty_ready (l : list (N * N)) : negb (length l =? 0)%nat = bool_decide (l <> []).
Proof. destruct l; [by rewrite bool_decide_false by (intros H; by apply H) | by rewrite bool_decide_true]. Qed.

Lemma related_dispatch c q d : related c q -> related (set_flags (closed c) (finished c) d c) q.
Proof. intros ([] & ?). by split. Qed.

Lemma await_related waiting c q :
  related c q -> exists c', await_ready waiting c = Some (c', (q_await waiting q).2) /\
    related c' (q_await waiting q).1 /\ dispatching c' = dispatching c.
Proof.
  revert c q. induction waiting as [|o waiting IH]; intros c q HR; cbn [await_ready q_await].
  all: rewrite (related_ready_count _ _ HR); pose proof HR as (_ & _ & _ & _ & -> & ->).
  all: rewrite (nonempty_ready (q_ready q)).
  all: destruct (q_closed q || q_finished q || _); [by exists c|].
  - by exists c.
  - destruct (exec_related _ _ o HR) as (c1 & -> & HR1 & Hd). cbn.
    destruct (IH _ _ HR1) as (c2 & -> & HR2 & Hd2). exists c2. split_and!; congruence.
Qed.

Lemma run_loop_related turns cutoff between c q :
  related c q ->
  exists c', run_ready_loop turns cutoff between c = Some (c', (q_run_loop turns cutoff between q).2) /\
    related c' (q_run_loop turns cutoff between q).1 /\ dispatching c' = dispatching c.
Proof.
  revert c q. induction turns as [|turns IH]; intros c q HR; cbn [run_ready_loop q_run_loop]; [by exists c|].
  destruct (exec_all_related (between turns) _ _ HR) as (c1 & -> & HR1 & Hd1). cbn [mbind option_bind].
  destruct (claim_before_related cutoff _ _ HR1) as (c2 & -> & HR2 & Hd2). cbn [mbind option_bind].
  revert HR2. destruct (q_claim_before cutoff _) as [q2 [r|]]; cbn [fst snd]; intros HR2.
  - destruct (IH _ _ HR2) as (c3 & -> & HR3 & Hd3). exists c3. cbn. split_and!; congruence.
  - exists c2. split_and!; congruence.
Qed.

Lemma discard_related c q fuel :
  related c q -> length (q_ready q) <= fuel ->
  exists c', discard_loop fuel c = Some (c', length (q_ready q)) /\ related c' (q_discard q) /\
    dispatching c' = dispatching c.
Proof.
  revert c q. induction fuel as [|fuel IH]; intros c q HR Hf; cbn [discard_loop];
    [|rewrite (related_ready_count _ _ HR)];
    (destruct (q_ready q) as [|[t g] l] eqn:Hl; cbn [length Nat.eqb] in *;
     [exists c; unfold q_discard; rewrite Hl; cbn; rewrite <-Hl; by destruct q|]).
  { lia. }
  destruct (claim_related _ _ HR) as (c1 & E1 & HR1 & Hd1). rewrite E1. cbn [mbind option_bind fst].
  assert ((q_claim q).1 = q_with (delete t (q_callbacks q)) l (q_last q) q) as Hc
    by (unfold q_claim; by rewrite Hl).
  rewrite Hc in HR1. destruct (IH c1 _ HR1) as (c2 & E2 & HR2 & Hd2); [cbn; lia|].
  cbn [q_ready q_with] in E2. rewrite E2. exists c2. split_and!; [done | | congruence].
  unfold q_discard in *. rewrite Hl. exact HR2.
Qed.

(** One call on both sides. *)
Lemma call_related x c q :
  related c q ->
  exists c', exec_call x c = Some (c', (q_call x (q, dispatching c)).2) /\
    related c' (q_call x (q, dispatching c)).1.1 /\ dispatching c' = (q_call x (q, dispatching c)).1.2.
Proof.
  intros HR. pose proof HR as (_ & _ & Hlast & _ & Hcl & Hfi).
  pose proof (related_ready_count _ _ HR) as Hn.
  destruct x as [o| |waiting|between| |]; cbn [exec_call q_call].
  - destruct (exec_related _ _ o HR) as (c1 & -> & HR1 & Hd). by exists c1.
  - destruct (claim_related _ _ HR) as (c1 & -> & HR1 & Hd). by exists c1.
  - unfold run_one. destruct (dispatching c) eqn:Hb; [by exists c|].
    destruct (await_related waiting _ _ (related_dispatch _ _ true HR)) as (c1 & E1 & HR1 & Hd1).
    unfold claim_dispatch. rewrite E1. cbn [mbind option_bind]. revert E1 HR1.
    destruct (q_await waiting q) as [q1 [|]]; cbn [fst snd]; intros E1 HR1; [|by exists c1].
    destruct (claim_related _ _ HR1) as (c2 & E2 & HR2 & Hd2). rewrite (related_ready_count _ _ HR1).
    destruct (q_ready q1) as [|e l] eqn:Hl; cbn [length Nat.eqb]; [|rewrite E2].
    + assert (q_claim q1 = (q1, None)) as -> by (unfold q_claim; by rewrite Hl).
      exists (release_dispatch c1). split; [done|]. split; [by apply related_dispatch|done].
    + exists (release_dispatch c2). split; [done|]. split; [by apply related_dispatch|done].
  - unfold run_ready. destruct (dispatching c) eqn:Hb; [by exists c|]. rewrite Hlast, Hn.
    destruct (run_loop_related (length (q_ready q)) (q_last q) between _ _ (related_dispatch _ _ true HR))
      as (c1 & E1 & HR1 & Hd1).
    unfold claim_dispatch. rewrite E1. exists (release_dispatch c1).
    split; [done|]. split; [by apply related_dispatch|done].
  - unfold discard_ready. destruct (dispatching c) eqn:Hb; [by exists c|]. rewrite Hn.
    destruct (discard_related _ _ (length (q_ready q)) (related_dispatch _ _ true HR)) as (c1 & E1 & HR1 & _);
      [done|]. unfold claim_dispatch. rewrite E1. exists (release_dispatch c1).
    split; [done|]. split; [by apply related_dispatch|done].
  - exists c. split; [|done]. unfold wait_ready. by rewrite Hn, nonempty_ready, Hcl, Hfi.
Qed.

Lemma calls_related xs c q :
  related c q ->
  exists c', exec_calls xs c = Some (c', (q_calls xs (q, dispatching c)).2) /\
    related c' (q_calls xs (q, dispatching c)).1.1 /\ dispatching c' = (q_calls xs (q, dispatching c)).1.2.
Proof.
  revert c q. induction xs as [|x xs IH]; intros c q HR; cbn [exec_calls q_calls]; [by exists c|].
  destruct (call_related x _ _ HR) as (c1 & -> & HR1 & Hd1). cbn [mbind option_bind fst snd].
  revert HR1 Hd1. destruct (q_call x _) as [[q1 b1] r]. cbn [fst snd]. intros HR1 <-.
  destruct (IH _ _ HR1) as (c2 & E2 & HR2 & Hd2).
  destruct r; first [by exists c1 | rewrite E2; by exists c2].
Qed.

(** C15: Whatever the history of calls, those that claim, run and discard what is ready
    among them, and whatever other threads and the callbacks do to the queue while a
    call waits or runs: no assertion of the linked list fails, every call answers what
    the first-in first-out queue of the registered tokens answers, and what is run is
    run in that queue's order. *)
Theorem queue_refines_fifo piped xs :
  exists c, exec_calls xs (new_core piped) = Some (c, (q_calls xs (new_queue, false)).2) /\
            related c (q_calls xs (new_queue, false)).1.1 /\
            dispatching c = (q_calls xs (new_queue, false)).1.2.
Proof. apply (calls_related xs (new_core piped)), new_related. Qed.

(** [run_ready], while callbacks and other threads use the queue between any two
    of its locked sections: the call ends, it runs only entries that were ready when
    it started, each at most once and in the order they were queued; nothing that
    was ready then is left behind; and if nobody touches the queue meanwhile it
    runs them all. *)
Theorem run_ready_fifo between c q :
  related c q -> aged q -> dispatching c = false ->
  exists c' q' ran, run_ready between c = Some (c', ran) /\ related c' q' /\ dispatching c' = false /\
    ran.*1 `sublist_of` (q_ready q).*1 /\
    Forall (fun e => last_ready_generation c < e.2)%N (q_ready q') /\
    ((forall i, between i = []) -> ran.*1 = (q_ready q).*1).
Proof.
  intros HR Hq Hd. unfold run_ready. rewrite Hd. pose proof HR as (Hwf & _ & Hlast & _).
  assert (old (last_ready_generation c) q = q_ready q) as Hold.
  { unfold old. destruct Hq as [_ Hall]. rewrite Hlast. rewrite Forall_fmap in Hall.
    revert Hall. generalize (q_ready q). induction 1 as [|e l He _ IH]; [done|].
    rewrite filter_cons_True by done. by rewrite IH. }
  destruct (run_loop_spec (ready_count c) (last_ready_generation c) between (claim_dispatch c) q)
    as (c1 & q1 & ran & E1 & HR1 & Hq1 & Hd1 & Hsub & Hnone & Hall);
    [by apply related_dispatch | done | by rewrite Hlast | by rewrite Hold, (related_ready_count _ _ HR) |].
  rewrite E1. cbn [mbind option_bind fst snd]. exists (release_dispatch c1), q1, ran.
  rewrite Hold in *. split_and!; try done; [by apply related_dispatch|].
  apply Forall_forall. intros e He. apply N.lt_nge. intros Hle.
  assert (e ∈ old (last_ready_generation c) q1) as Hin by by apply list_elem_of_filter.
  rewrite Hnone in Hin. by apply not_elem_of_nil in Hin.
Qed.

(** In every state any interleaving of locked sections can reach, every call
    succeeds without a failing assertion, and the wake descriptor is readable
    exactly when a caller waiting on the queue would be released. *)
Theorem queue_safe piped c :
  reachable piped c ->
  (forall o, is_Some (exec o c)) /\ is_Some (claim_ready c) /\
  (forall between, is_Some (run_ready between c)) /\ (forall waiting, is_Some (run_one waiting c)) /\
  is_Some (discard_ready c) /\
  (forall held, pipe c = Some held -> held = if ready_locked c then 1 else 0).
Proof.
  intros Hr. destruct (reachable_related _ _ Hr) as [[Hp Hw] (q & HR & Hq)]. split_and!.
  - intros o. destruct (exec_related _ _ o HR) as (c' & E & _). eauto.
  - destruct (claim_related _ _ HR) as (c' & E & _). eauto.
  - intros between. destruct (dispatching c) eqn:Hd; [unfold run_ready; rewrite Hd; eauto|].
    destruct (run_ready_fifo between c q HR Hq Hd) as (c' & q' & ran & E & _). eauto.
  - intros waiting. destruct (call_related (RunOne waiting) _ _ HR) as (c' & E & _).
    cbn [exec_call] in E. destruct (run_one waiting c); [eauto|done].
  - destruct (call_related DiscardReady _ _ HR) as (c' & E & _).
    cbn [exec_call] in E. destruct (discard_ready c); [eauto|done].
  - intros held Hh. unfold pipe_ok in Hp. rewrite Hh in Hp. by rewrite Hp, Hw by eauto.
Qed.

(** [run_one] that finds the dispatch free: it runs the oldest ready entry with
    its own callback and forgets it, answers that there is none once the queue is
    finished or closed, and otherwise is still waiting; [discard_ready] counts the
    ready entries and leaves none. *)
Theorem run_one_spec c q :
  related c q -> dispatching c = false ->
  (exists c', run_one [] c = Some (c',
     match q_ready q with
     | (t, _) :: _ => Some (pair t <$> q_callbacks q !! t)
     | [] => if q_closed q || q_finished q then Some None else None
     end) /\
   related c' (q_claim q).1) /\
  exists c', discard_ready c = Some (c', length (q_ready q)) /\ ready_count c' = 0 /\
             dispatching c' = false.
Proof.
  intros HR Hd. pose proof (related_dispatch _ _ true HR) as HR0. split.
  - unfold run_one. rewrite Hd. fold (claim_dispatch c) in HR0. cbn [await_ready].
    rewrite (related_ready_count _ _ HR0). pose proof HR as (_ & _ & _ & _ & Hcl & Hfi).
    cbn [closed finished claim_dispatch set_flags]. rewrite Hcl, Hfi.
    destruct (claim_related _ _ HR0) as (c2 & E2 & HR2 & _).
    unfold q_claim in *. destruct (q_ready q) as [|[t g] l] eqn:Hl; cbn [length Nat.eqb negb].
    + rewrite orb_false_r. destruct (q_closed q || q_finished q); cbn [mbind option_bind].
      * rewrite (related_ready_count _ _ HR0), Hl. cbn. eexists. split; [done|]. by apply related_dispatch.
      * eexists. split; [done|]. done.
    + rewrite orb_true_r. cbn [mbind option_bind]. rewrite (related_ready_count _ _ HR0), Hl.
      cbn [length Nat.eqb]. rewrite E2. cbn. eexists. split; [done|]. by apply related_dispatch.
  - unfold discard_ready. rewrite Hd.
    destruct (discard_related _ _ (ready_count c) HR0) as (c1 & E & HR1 & _).
    { by rewrite (related_ready_count _ _ HR). }
    unfold claim_dispatch. rewrite E. cbn. eexists. split; [done|]. split; [|done].
    cbn. by rewrite (related_ready_count _ _ HR1).
Qed.

(** Closing is final: after it every record is gone, and whatever is done next
    nothing can be enqueued, pushed or registered and a waiter is told the queue is
    closed. *)
Theorem close_final os c :
  closed c = false ->
  exists c', exec_all os (close c) = Some c' /\ records c' = ∅ /\
    wait_ready c' = closed_ /\
    (forall t, exec (Enqueue t) c' = Some (c', Bool false)) /\
    (forall cb, exec (PushReady cb) c' = Some (c', Bool false)) /\
    (forall t cb, exec (Register t cb) c' = Some (c', Bool false)).
Proof.
  intros Hc. assert (forall c0, closed c0 = true -> records c0 = ∅ -> ready_count c0 = 0 ->
    forall o, exists c1 a, exec o c0 = Some (c1, a) /\ closed c1 = true /\ records c1 = ∅ /\
              ready_count c1 = 0) as Hstep.
  { intros c0 H1 H2 H3 o. destruct o; cbn;
      unfold enqueue, detach, register_record, push_ready, finish, close;
      rewrite ?H1, ?H2, ?lookup_empty; cbn; eauto 10.
    edestruct refresh_set_wake as (p & a & ->). eauto 10. }
  assert (exists c', exec_all os (close c) = Some c' /\ closed c' = true /\ records c' = ∅ /\
    ready_count c' = 0) as (c' & E & H1 & H2 & H3).
  { assert (closed (close c) = true /\ records (close c) = ∅ /\ ready_count (close c) = 0)
      as (H1 & H2 & H3).
    { unfold close. rewrite Hc. edestruct refresh_set_wake as (p & a & ->). done. }
    revert H1 H2 H3. generalize (close c). induction os as [|o os IH]; intros c0 H1 H2 H3; [eauto|].
    cbn. destruct (Hstep c0 H1 H2 H3 o) as (c1 & a & -> & ? & ? & ?). by apply IH. }
  exists c'. split; [done|]. split; [done|]. unfold wait_ready. rewrite H3, H1, orb_true_r.
  cbn [exec]. unfold enqueue, push_ready, register_record. rewrite H1, H2. split_and!; try done.
Qed.
End completion_queue.

(** * The theorems at a concrete queue *)

Definition two_pushes : list (queue_call (A := nat)) := [Do (PushReady 7); Do (PushReady 8)].

Lemma two_pushes_aged : aged (q_calls two_pushes (new_queue, false)).1.1.
Proof. by repeat constructor. Qed.

Lemma run_ready_fifo_witness :
  exists c c' ran,
    exec_calls two_pushes (new_core true) =
      Some (c, [OpAnswered (Bool true); OpAnswered (Bool true)]) /\
    run_ready (fun _ => []) c = Some (c', ran) /\ ran.*1 = [1; 2]%N.
Proof.
  destruct (calls_related two_pushes (new_core true) new_queue
              (new_related true)) as (c & E & HR & _).
  assert (dispatching c = false) as Hd by (vm_compute in E; injection E as <-; reflexivity).
  destruct (run_ready_fifo (fun _ => []) c _ HR two_pushes_aged Hd)
    as (c' & q' & ran & Erun & _ & _ & _ & _ & Hall).
  exists c, c', ran. split; [exact E|]. split; [exact Erun|]. exact (Hall (fun _ => eq_refl)).
Defined.

Lemma queue_safe_witness :
  exists c, exec (PushReady 7) (new_core true) = Some (c, Bool true) /\
            pipe c = Some 1 /\ is_Some (discard_ready c).
Proof.
  destruct (exec_related _ _ (PushReady 7) (new_related true)) as (c & E & _).
  assert (reachable true c) as Hr.
  { eapply reach_exec; [apply reach_new | exact E]. }
  destruct (queue_safe true c Hr) as (_ & _ & _ & _ & Hd & _).
  exists c. split; [exact E|]. split; [|exact Hd]. vm_compute in E. injection E as <-. reflexivity.
Defined.

Lemma run_one_spec_witness :
  exists c c',
    exec_calls two_pushes (new_core true) =
      Some (c, [OpAnswered (Bool true); OpAnswered (Bool true)]) /\
    run_one [] c = Some (c', Some (Some (1%N, 7))).
Proof.
  destruct (calls_related two_pushes (new_core true) new_queue
              (new_related true)) as (c & E & HR & _).
  assert (dispatching c = false) as Hd by (vm_compute in E; injection E as <-; reflexivity).
  destruct (run_one_spec c _ HR Hd) as ((c' & Erun & _) & _).
  exists c, c'. split; [exact E | exact Erun].
Defined.

Lemma close_final_witness :
  exists c', exec_all [PushReady 7; Finish; Enqueue 1]
               (close (new_core true)) = Some c' /\
             wait_ready c' = closed_.
Proof.
  destruct (close_final [PushReady 7; Finish; Enqueue 1] (new_core true) eq_refl)
    as (c' & E & _ & Hw & _).
  exists c'. split; [exact E | exact Hw].
Defined.
