(* ===== verification/NotificationStream.v ===== *)
(** The notification stream: [src/notification_stream.cpp],
    [src/notification_stream.hpp].

    One bounded log of notifications, retained once, and independent cursors into
    it.  Cursors are objects of a heap, owned by their subscribers; the stream
    holds them weakly, in the order they subscribed, and a cursor whose owner is
    gone is swept on the next occasion.

    The specification is a private queue per cursor: what a cursor is given, and
    what it is told it lost, is what a bounded log of its own would have given it,
    whatever the other cursors do.  The other theorems are the bounds of the log,
    the accounting of a [take], and that a cursor's descriptor is readable exactly
    when a wait on it would return.

    Sequence numbers and byte counts are natural numbers: the 64-bit counters do
    not wrap within 2^64 notifications. *)

From Stdlib Require Import Sorted.
From S2P Require Import Prelude Wake Control.

Definition kMaximumNotifications : N := 4096.
Definition kMaximumNotificationBytes : N := 16 * 1024 * 1024.

Record NotificationCursor := MkCursor {
  next_sequence : N;
  dropped : N;
  wake : Wake;
}.

Record Entry := MkEntry { entry_sequence : N; notification : Notification }.

Definition body_size (n : Notification) : N := N.of_nat (length (notification_bytes n)).
Definition entry_size (e : Entry) : N := body_size (notification e).

(** [heap] holds the cursors that somebody still owns; [next_cursor] names the next. *)
Record Stream := MkStream {
  entries_ : list Entry;
  cursors_ : list nat;
  maximum_count_ : N;
  maximum_bytes_ : N;
  bytes_ : N;
  next_sequence_ : N;
  closed_ : bool;
  heap : gmap nat NotificationCursor;
  next_cursor : nat;
}.

Definition new_stream (maximum_count maximum_bytes : N) : Stream :=
  MkStream [] [] maximum_count maximum_bytes 0 0 false ∅ 0.

Definition set_entries es b s :=
  MkStream es (cursors_ s) (maximum_count_ s) (maximum_bytes_ s) b (next_sequence_ s) (closed_ s)
    (heap s) (next_cursor s).
Definition set_cursors cs s :=
  MkStream (entries_ s) cs (maximum_count_ s) (maximum_bytes_ s) (bytes_ s) (next_sequence_ s)
    (closed_ s) (heap s) (next_cursor s).
Definition set_heap h s :=
  MkStream (entries_ s) (cursors_ s) (maximum_count_ s) (maximum_bytes_ s) (bytes_ s)
    (next_sequence_ s) (closed_ s) h (next_cursor s).
Definition set_sequence n s :=
  MkStream (entries_ s) (cursors_ s) (maximum_count_ s) (maximum_bytes_ s) (bytes_ s) n
    (closed_ s) (heap s) (next_cursor s).
Definition set_closed s :=
  MkStream (entries_ s) (cursors_ s) (maximum_count_ s) (maximum_bytes_ s) (bytes_ s)
    (next_sequence_ s) true (heap s) (next_cursor s).

Section stream.
Context {pipes : Pipe}.

(** * Operations *)

Definition arm_cursor (c : NotificationCursor) : NotificationCursor :=
  MkCursor (next_sequence c) (dropped c) (arm (wake c)).
Definition disarm_cursor (c : NotificationCursor) : NotificationCursor :=
  MkCursor (next_sequence c) (dropped c) (disarm (wake c)).

(** Whether a wait on the cursor would return at once. *)
Definition has_news (s : Stream) (c : NotificationCursor) : bool :=
  (next_sequence c <? next_sequence_ s)%N || closed_ s.

Definition subscribe (replay piped : bool) (s : Stream) : Stream * nat :=
  let start :=
    match entries_ s with
    | e :: _ => if replay then entry_sequence e else next_sequence_ s
    | [] => next_sequence_ s
    end in
  let c := MkCursor start 0 (new_wake piped) in
  let c := if closed_ s || (start <? next_sequence_ s)%N then arm_cursor c else c in
  let id := next_cursor s in
  (MkStream (entries_ s) (cursors_ s ++ [id]) (maximum_count_ s) (maximum_bytes_ s) (bytes_ s)
     (next_sequence_ s) (closed_ s) (<[id := c]> (heap s)) (S id), id).

(** [std::erase_if] of the expired weak references, with what else is erased. *)
Definition live (s : Stream) (id : nat) : bool := bool_decide (is_Some (heap s !! id)).

Definition sweep_cursors_locked (s : Stream) : Stream :=
  let h := foldr (fun id h =>
    match h !! id with
    | Some c => if has_news s c then <[id := arm_cursor c]> h else h
    | None => h
    end) (heap s) (cursors_ s) in
  set_heap h (set_cursors (filter (fun id => live s id) (cursors_ s)) s).

Definition first_needed (s : Stream) (ids : list nat) : N :=
  foldr (fun id m => match heap s !! id with Some c => N.min (next_sequence c) m | None => m end)
    (next_sequence_ s) ids.

Fixpoint prune_entries (needed : N) (es : list Entry) (b : N) : list Entry * N :=
  match es with
  | [] => ([], b)
  | e :: es' =>
      if (entry_sequence e <? needed)%N then prune_entries needed es' (b - entry_size e) else (es, b)
  end.

Definition prune_consumed_locked (s : Stream) : Stream :=
  let r := prune_entries (first_needed s (cursors_ s)) (entries_ s) (bytes_ s) in
  set_entries r.1 r.2 (set_cursors (filter (fun id => live s id) (cursors_ s)) s).

Definition unsubscribe (id : nat) (s : Stream) : Stream :=
  prune_consumed_locked
    (set_cursors (filter (fun held => live s held && negb (bool_decide (held = id))) (cursors_ s)) s).

(** The last owner of the cursor lets go of it. *)
Definition release (id : nat) (s : Stream) : Stream := set_heap (delete id (heap s)) s.

(** [~NotificationWatchState]. *)
Definition drop_watch (id : nat) (s : Stream) : Stream := release id (unsubscribe id s).

(** Room for an arriving entry, made at the old end. *)
Fixpoint evict (maximum_count limit : N) (es : list Entry) (b : N) : list Entry * N :=
  match es with
  | [] => ([], b)
  | e :: es' =>
      if (maximum_count <=? N.of_nat (length es))%N || (limit <? b)%N
      then evict maximum_count limit es' (b - entry_size e) else (es, b)
  end.

Definition stored (s : Stream) (n : Notification) : bool :=
  negb (maximum_count_ s =? 0)%N && (body_size n <=? maximum_bytes_ s)%N.

Definition push (n : Notification) (s : Stream) : Stream :=
  let sequence := next_sequence_ s in
  let arriving := body_size n in
  let keep := stored s n in
  let s := set_sequence (sequence + 1) s in
  let s :=
    if keep then
      let r := evict (maximum_count_ s) (maximum_bytes_ s - arriving) (entries_ s) (bytes_ s) in
      set_entries (r.1 ++ [MkEntry sequence n]) (r.2 + arriving) s
    else s in
  sweep_cursors_locked s.

Definition close (s : Stream) : Stream :=
  if closed_ s then s else sweep_cursors_locked (set_closed s).

(** The loop that [collect_locked] and [pending_drops_locked] share: what a cursor
    that expects sequence [expected] gets from the entries, what it has lost, and
    what it then expects. *)
Fixpoint collect (es : list Entry) (expected lost : N) : list Notification * N * N :=
  match es with
  | [] => ([], lost, expected)
  | e :: es' =>
      if (entry_sequence e <? expected)%N then collect es' expected lost
      else
        let r := collect es' (entry_sequence e + 1) (lost + (entry_sequence e - expected)) in
        (notification e :: r.1.1, r.1.2, r.2)
  end.

Definition collect_locked (id : nat) (c : NotificationCursor) (s : Stream) :
    Stream * list Notification :=
  let r := collect (entries_ s) (next_sequence c) (dropped c) in
  let c := MkCursor (next_sequence_ s) (r.1.2 + (next_sequence_ s - r.2)) (wake c) in
  let c := if closed_ s then c else disarm_cursor c in
  (prune_consumed_locked (set_heap (<[id := c]> (heap s)) s), r.1.1).

(** A null cursor, or one that is gone, gives nothing. *)
Definition take (id : nat) (s : Stream) : Stream * list Notification :=
  match heap s !! id with
  | Some c => collect_locked id c s
  | None => (s, [])
  end.

Definition pending_drops_locked (c : NotificationCursor) (s : Stream) : N :=
  let r := collect (entries_ s) (next_sequence c) (dropped c) in
  (r.1.2 + (next_sequence_ s - r.2))%N.

Definition dropped_count (id : nat) (s : Stream) : N :=
  match heap s !! id with Some c => pending_drops_locked c s | None => 0 end.

Definition notification_fd_readable (id : nat) (s : Stream) : bool :=
  match heap s !! id with Some c => readable (wake c) | None => false end.

(** Everything that can be done to a stream, by anyone.  [wait] is the same locked
    section as [take], entered when the predicate holds or the deadline passed. *)
Inductive op :=
  | Subscribe (replay piped : bool)
  | Unsubscribe (id : nat)
  | Release (id : nat)
  | Push (n : Notification)
  | Close
  | Take (id : nat)
  | Dropped (id : nat).

Inductive answer := Nothing | Subscribed (id : nat) | Taken (ns : list Notification) | Lost (n : N).

Definition exec (o : op) (s : Stream) : Stream * answer :=
  match o with
  | Subscribe replay piped => let r := subscribe replay piped s in (r.1, Subscribed r.2)
  | Unsubscribe id => (unsubscribe id s, Nothing)
  | Release id => (release id s, Nothing)
  | Push n => (push n s, Nothing)
  | Close => (close s, Nothing)
  | Take id => let r := take id s in (r.1, Taken r.2)
  | Dropped id => (s, Lost (dropped_count id s))
  end.

Fixpoint run (os : list op) (s : Stream) : Stream :=
  match os with [] => s | o :: os => run os (exec o s).1 end.

(** * A private queue: the specification of one cursor *)

Record Private := MkPrivate {
  p_maximum_count : N;
  p_maximum_bytes : N;
  p_entries : list Entry;
  p_sequence : N;
  p_expected : N;
  p_lost : N;
}.

Definition sum_size (es : list Entry) : N := foldr (fun e m => entry_size e + m)%N 0%N es.

(** A bounded queue that nobody else reads: the oldest entries make room. *)
Definition private_push (n : Notification) (p : Private) : Private :=
  let es :=
    if negb (p_maximum_count p =? 0)%N && (body_size n <=? p_maximum_bytes p)%N then
      (evict (p_maximum_count p) (p_maximum_bytes p - body_size n) (p_entries p)
         (sum_size (p_entries p))).1 ++ [MkEntry (p_sequence p) n]
    else p_entries p in
  MkPrivate (p_maximum_count p) (p_maximum_bytes p) es (p_sequence p + 1) (p_expected p) (p_lost p).

(** What has been lost: every push since the cursor last looked that is not held. *)
Definition private_lost (p : Private) : N :=
  (p_lost p + (p_sequence p - p_expected p) - N.of_nat (length (p_entries p)))%N.

Definition private_take (p : Private) : Private * list Notification :=
  (MkPrivate (p_maximum_count p) (p_maximum_bytes p) [] (p_sequence p) (p_sequence p)
     (private_lost p), notification <$> p_entries p).

(** The answers one cursor gets, on the shared stream and on its own queue. *)
Fixpoint answers_for (id : nat) (os : list op) (s : Stream) : list answer :=
  match os with
  | [] => []
  | o :: os =>
      let r := exec o s in
      match o with
      | Take j | Dropped j => if bool_decide (j = id) then [r.2] else []
      | _ => []
      end ++ answers_for id os r.1
  end.

Fixpoint private_answers (id : nat) (os : list op) (p : Private) : list answer :=
  match os with
  | [] => []
  | Push n :: os => private_answers id os (private_push n p)
  | Take j :: os =>
      if bool_decide (j = id)
      then let r := private_take p in Taken r.2 :: private_answers id os r.1
      else private_answers id os p
  | Dropped j :: os =>
      if bool_decide (j = id) then Lost (private_lost p) :: private_answers id os p
      else private_answers id os p
  | _ :: os => private_answers id os p
  end.

(** Nobody lets go of the cursor in this history. *)
Definition keeps (id : nat) (o : op) : bool :=
  match o with Unsubscribe j | Release j => negb (bool_decide (j = id)) | _ => true end.

(** * Lists of entries *)

Definition sorted_entries (es : list Entry) : Prop :=
  StronglySorted (fun a b => entry_sequence a < entry_sequence b)%N es.

Definition from (k : N) (es : list Entry) : list Entry := filter (fun e => k <= entry_sequence e)%N es.

Lemma sum_size_cons e es : sum_size (e :: es) = (entry_size e + sum_size es)%N.
Proof. done. Qed.

Lemma sum_size_app a b : sum_size (a ++ b) = (sum_size a + sum_size b)%N.
Proof. induction a as [|e a IH]; [done|]. cbn [app]. rewrite !sum_size_cons, IH. lia. Qed.

Lemma evict_spec mc lim es b :
  b = sum_size es ->
  exists pre es', es = pre ++ es' /\ evict mc lim es b = (es', sum_size es') /\
    (es' = [] \/ (N.of_nat (length es') < mc /\ sum_size es' <= lim))%N.
Proof.
  revert b. induction es as [|e es IH]; intros b ->; cbn [evict].
  { exists [], []. split_and!; try done. by left. }
  destruct (_ || _) eqn:E.
  - destruct (IH (sum_size (e :: es) - entry_size e)%N) as (pre & es' & Heq & -> & Hb).
    { rewrite sum_size_cons. lia. }
    exists (e :: pre), es'. by rewrite Heq at 1.
  - exists [], (e :: es). split_and!; try done. right. to_props. done.
Qed.

Lemma sorted_suffix pre es : sorted_entries (pre ++ es) -> sorted_entries es.
Proof. induction pre; [done|]. intros [? _]%StronglySorted_inv. auto. Qed.

Lemma from_all k es : Forall (fun e => k <= entry_sequence e)%N es -> from k es = es.
Proof.
  induction 1 as [|e es He _ IH]; [done|]. unfold from in *. by rewrite filter_cons_True, IH.
Qed.

Lemma from_none k es : Forall (fun e => entry_sequence e < k)%N es -> from k es = [].
Proof.
  induction 1 as [|e es He _ IH]; [done|]. unfold from in *. by rewrite filter_cons_False by lia.
Qed.

Lemma from_length k es : length (from k es) <= length es.
Proof. apply length_filter. Qed.

Lemma from_sum k es : (sum_size (from k es) <= sum_size es)%N.
Proof.
  induction es as [|e es IH]; [done|]. unfold from in *. rewrite filter_cons.
  destruct (decide _); rewrite ?sum_size_cons in *; lia.
Qed.

(** Making room, seen from one cursor: what it can still get shrinks as if the
    entries it is done with had never been there. *)
Lemma evict_from k mc lim es :
  sorted_entries es ->
  from k (evict mc lim es (sum_size es)).1 = (evict mc lim (from k es) (sum_size (from k es))).1.
Proof.
  induction 1 as [|e es Hs IH He]; [done|].
  destruct (decide (k <= entry_sequence e)%N) as [Hk|Hk].
  - assert (forall es', Forall (fun e => k <= entry_sequence e)%N es' -> forall b,
      Forall (fun e => k <= entry_sequence e)%N (evict mc lim es' b).1) as Hev.
    { induction 1 as [|e' es' He' Hes' IH']; intros b; cbn [evict]; [constructor|].
      destruct (_ || _); [apply IH'|]. cbn. by constructor. }
    assert (Forall (fun e => k <= entry_sequence e)%N (e :: es)) as Hall.
    { constructor; [done|]. eapply Forall_impl; [exact He|]. cbn. lia. }
    rewrite (from_all k (e :: es)) by done. rewrite from_all; [done|]. by apply Hev.
  - assert (from k (e :: es) = from k es) as -> by (unfold from; by rewrite filter_cons_False).
    cbn [evict]. destruct (_ || _) eqn:E.
    + replace (sum_size (e :: es) - entry_size e)%N with (sum_size es)
        by (rewrite sum_size_cons; lia). done.
    + cbn [fst]. assert (from k (e :: es) = from k es) as ->
        by (unfold from; by rewrite filter_cons_False).
      pose proof (from_length k es). pose proof (from_sum k es).
      destruct (from k es) as [|e' es'] eqn:Ef; cbn [evict]; [done|].
      to_props. cbn [length] in *. rewrite (proj2 (N.leb_gt _ _)) by lia.
      rewrite !sum_size_cons in *. rewrite (proj2 (N.ltb_ge _ _)) by lia. done.
Qed.

Lemma prune_spec needed es b :
  b = sum_size es ->
  exists pre es', es = pre ++ es' /\ prune_entries needed es b = (es', sum_size es') /\
    Forall (fun e => entry_sequence e < needed)%N pre.
Proof.
  revert b. induction es as [|e es IH]; intros b ->; cbn [prune_entries].
  { exists [], []. done. }
  destruct (entry_sequence e <? needed)%N eqn:E.
  - destruct (IH (sum_size (e :: es) - entry_size e)%N) as (pre & es' & Heq & -> & Hb).
    { rewrite sum_size_cons. lia. }
    exists (e :: pre), es'. rewrite Heq at 1. to_props. split_and!; [done | done | by constructor].
  - exists [], (e :: es). done.
Qed.

Lemma from_app k a b : from k (a ++ b) = from k a ++ from k b.
Proof. apply filter_app. Qed.

(** [collect] reads what is there from [expected] on and counts the rest. *)
Lemma collect_spec es expected lost limit :
  sorted_entries es -> Forall (fun e => entry_sequence e < limit)%N es -> (expected <= limit)%N ->
  let r := collect es expected lost in
  r.1.1 = notification <$> from expected es /\ (r.2 <= limit)%N /\
  (r.1.2 + (limit - r.2) + N.of_nat (length (from expected es)) = lost + (limit - expected))%N.
Proof.
  intros Hs. revert expected lost. induction Hs as [|e es Hs IH He]; intros expected lost Hlim Hexp r.
  { subst r. cbn. split_and!; [done | lia | lia]. }
  apply Forall_cons in Hlim as [Hel Hlim]. subst r. cbn [collect].
  destruct (N.ltb_spec (entry_sequence e) expected) as [Hlt|Hge].
  - assert (from expected (e :: es) = from expected es) as ->
      by (unfold from; rewrite filter_cons_False by lia; done).
    by apply IH.
  - destruct (IH (entry_sequence e + 1)%N (lost + (entry_sequence e - expected))%N) as (H1 & H2 & H3);
      [done | lia |].
    assert (from expected (e :: es) = e :: from (entry_sequence e + 1) es) as ->.
    { unfold from. rewrite filter_cons_True by lia. f_equal.
      fold (from expected es) (from (entry_sequence e + 1) es).
      rewrite !from_all; [done | |]; (eapply Forall_impl; [exact He|]; cbn; lia). }
    cbn [fst snd length]. rewrite H1. split_and!; [done | done | lia].
Qed.

(** * The invariant of the stream *)

Record stream_ok (s : Stream) : Prop := {
  ok_sorted : sorted_entries (entries_ s);
  ok_seq : Forall (fun e => entry_sequence e < next_sequence_ s)%N (entries_ s);
  ok_bytes : bytes_ s = sum_size (entries_ s);
  ok_count : (N.of_nat (length (entries_ s)) <= maximum_count_ s)%N;
  ok_limit : (bytes_ s <= maximum_bytes_ s)%N;
  ok_names : NoDup (cursors_ s) /\ Forall (fun id => id < next_cursor s) (cursors_ s);
  ok_fresh : forall id, next_cursor s <= id -> heap s !! id = None;
  ok_cursor : forall id c, heap s !! id = Some c ->
    (next_sequence c <= next_sequence_ s)%N /\ wake_clean (wake c) /\
    (id ∈ cursors_ s -> is_Some (held (wake c)) -> readable (wake c) = has_news s c);
}.

(** Removing from the old end, and from the list of cursors. *)
Lemma stream_ok_shrink s pre es ids :
  stream_ok s -> entries_ s = pre ++ es -> ids `sublist_of` cursors_ s ->
  stream_ok (set_entries es (sum_size es) (set_cursors ids s)).
Proof.
  intros [] Heq Hsub. rewrite Heq in *. split; cbn; try done.
  - by eapply sorted_suffix.
  - by apply Forall_app in ok_seq0 as [_ ?].
  - rewrite length_app in ok_count0. lia.
  - rewrite sum_size_app in ok_bytes0. lia.
  - destruct ok_names0 as [Hnd Hall]. split; [by eapply sublist_NoDup|].
    rewrite Forall_forall in *. intros x Hx. apply Hall. by eapply elem_of_sublist.
  - intros id c Hc. destruct (ok_cursor0 id c Hc) as (? & ? & Hr). split_and!; try done.
    intros Hin. apply Hr. by eapply elem_of_sublist.
Qed.

Lemma prune_ok s : stream_ok s -> stream_ok (prune_consumed_locked s).
Proof.
  intros Hok. unfold prune_consumed_locked.
  destruct (prune_spec (first_needed s (cursors_ s)) (entries_ s) (bytes_ s) (ok_bytes _ Hok))
    as (pre & es & Heq & -> & _).
  eapply stream_ok_shrink; [done | done | apply sublist_filter].
Qed.

(** What sweeping does to the heap: news arms the cursors that are still held. *)
Definition swept (s : Stream) (c : NotificationCursor) : NotificationCursor :=
  if has_news s c then arm_cursor c else c.

Lemma sweep_heap s id :
  NoDup (cursors_ s) ->
  heap (sweep_cursors_locked s) !! id =
  if bool_decide (id ∈ cursors_ s) then swept s <$> heap s !! id else heap s !! id.
Proof.
  cbn. induction (cursors_ s) as [|j ids IH]; intros Hnd; cbn [foldr].
  { by rewrite bool_decide_false by apply not_elem_of_nil. }
  apply NoDup_cons in Hnd as [Hj Hnd]. specialize (IH Hnd). revert IH.
  set (h := foldr _ _ ids). intros IH. destruct (decide (id = j)) as [->|Hne].
  - rewrite bool_decide_false in IH by done. rewrite bool_decide_true by by left.
    rewrite IH. destruct (heap s !! j) as [c|] eqn:Ec; [|by rewrite IH].
    cbn. unfold swept. destruct (has_news s c); [by rewrite lookup_insert_eq | by rewrite IH].
  - assert (bool_decide (id ∈ j :: ids) = bool_decide (id ∈ ids)) as ->
      by (apply bool_decide_ext; rewrite elem_of_cons; naive_solver).
    rewrite <-IH. destruct (h !! j) as [c|]; [|done].
    destruct (has_news s c); [by rewrite lookup_insert_ne | done].
Qed.

(** The part of the invariant that holds before a sweep makes the wakes right. *)
Definition clean_cursors (s : Stream) : Prop :=
  forall id c, heap s !! id = Some c ->
    (next_sequence c <= next_sequence_ s)%N /\ wake_clean (wake c) /\
    (id ∈ cursors_ s -> is_Some (held (wake c)) -> readable (wake c) = true -> has_news s c = true).

Lemma sweep_cursors_ok s :
  NoDup (cursors_ s) -> clean_cursors s ->
  forall id c, heap (sweep_cursors_locked s) !! id = Some c ->
    (next_sequence c <= next_sequence_ s)%N /\ wake_clean (wake c) /\
    (id ∈ cursors_ (sweep_cursors_locked s) -> is_Some (held (wake c)) ->
     readable (wake c) = has_news s c).
Proof.
  intros Hnd Hcl id c. rewrite sweep_heap by done. case_bool_decide as Hin.
  - rewrite fmap_Some. intros (c0 & Hc0 & ->). destruct (Hcl _ _ Hc0) as (Hle & Hclean & Hr).
    unfold swept. destruct (has_news s c0) eqn:En.
    + destruct (arm_clean _ Hclean) as [Hc' Hread]. cbn. split_and!; try done.
      intros _ Hheld. rewrite Hread by by apply arm_held. symmetry. exact En.
    + split_and!; try done. intros _ Hheld. rewrite En. apply not_true_iff_false. intros Ht.
      specialize (Hr Hin Hheld Ht). congruence.
  - intros Hc. destruct (Hcl _ _ Hc) as (Hle & Hclean & _). split_and!; try done.
    cbn. by intros [_ Hin']%list_elem_of_filter.
Qed.

Lemma sweep_fresh s id : NoDup (cursors_ s) -> heap s !! id = None -> heap (sweep_cursors_locked s) !! id = None.
Proof. intros Hnd Hn. rewrite sweep_heap, Hn by done. by case_bool_decide. Qed.

Lemma sweep_names s :
  NoDup (cursors_ s) /\ Forall (fun id => id < next_cursor s) (cursors_ s) ->
  NoDup (cursors_ (sweep_cursors_locked s)) /\
  Forall (fun id => id < next_cursor s) (cursors_ (sweep_cursors_locked s)).
Proof.
  intros [Hnd Hall]. cbn. split.
  - eapply sublist_NoDup; [done | apply sublist_filter].
  - rewrite Forall_forall in *. intros x [_ Hx]%list_elem_of_filter. by apply Hall.
Qed.

Lemma has_news_swept s c : has_news (sweep_cursors_locked s) c = has_news s c.
Proof. done. Qed.

Lemma push_ok n s : stream_ok s -> stream_ok (push n s).
Proof.
  intros Hok. unfold push. set (s1 := if stored s n then _ else _).
  assert (next_sequence_ s1 = (next_sequence_ s + 1)%N /\ cursors_ s1 = cursors_ s /\
    heap s1 = heap s /\ closed_ s1 = closed_ s /\ next_cursor s1 = next_cursor s /\
    maximum_count_ s1 = maximum_count_ s /\ maximum_bytes_ s1 = maximum_bytes_ s)
    as (E1 & E2 & E3 & E4 & E5 & E6 & E7) by (subst s1; destruct (stored s n); done).
  assert (NoDup (cursors_ s1)) as Hnd by (rewrite E2; apply Hok).
  assert (sorted_entries (entries_ s1) /\
    Forall (fun e => entry_sequence e < next_sequence_ s + 1)%N (entries_ s1) /\
    bytes_ s1 = sum_size (entries_ s1) /\
    (N.of_nat (length (entries_ s1)) <= maximum_count_ s /\ bytes_ s1 <= maximum_bytes_ s)%N)
    as (H1 & H2 & H3 & H4 & H5).
  { destruct Hok. subst s1. assert (Forall (fun e => entry_sequence e < next_sequence_ s + 1)%N
      (entries_ s)) as Hseq by (eapply Forall_impl; [exact ok_seq0|]; cbn; lia).
    unfold stored. destruct (_ && _) eqn:Est; cbn [entries_ bytes_ set_sequence set_entries];
      [|by split_and!]. to_props.
    destruct (evict_spec (maximum_count_ s) (maximum_bytes_ s - body_size n) (entries_ s) (bytes_ s)
      ok_bytes0) as (pre & es & Heq & E & Hroom).
    cbn [maximum_count_ maximum_bytes_ set_sequence]. rewrite E. cbn [fst snd].
    rewrite Heq in ok_sorted0, ok_seq0, Hseq. apply sorted_suffix in ok_sorted0 as Hsorted.
    apply Forall_app in Hseq as [_ Hseq]. apply Forall_app in ok_seq0 as [_ Hlt].
    split_and!.
    - unfold sorted_entries. clear -Hsorted Hlt.
      induction Hsorted as [|e es Hs IH He]; cbn; [by repeat constructor|].
      apply Forall_cons in Hlt as [Hel Hlt]. constructor; [by apply IH|].
      apply Forall_app. split; [done|]. by repeat constructor.
    - apply Forall_app. split; [done|]. repeat constructor. cbn. lia.
    - rewrite sum_size_app. unfold sum_size at 3. cbn [foldr]. unfold entry_size. cbn [notification].
      lia.
    - rewrite length_app. cbn [length]. destruct Hroom as [->|[? ?]]; cbn [length]; lia.
    - destruct Hroom as [->|[? ?]]; cbn; lia. }
  split; try (cbn; rewrite ?E1, ?E2, ?E5, ?E6, ?E7; done).
  - change (next_cursor (sweep_cursors_locked s1)) with (next_cursor s1).
    apply sweep_names. rewrite E2, E5. apply Hok.
  - intros id Hid. apply sweep_fresh; [done|]. rewrite E3. apply Hok. rewrite <-E5. exact Hid.
  - intros id c Hc. apply (sweep_cursors_ok s1 Hnd); [|done].
    intros id' c' Hc'. rewrite E3 in Hc'. destruct (ok_cursor _ Hok _ _ Hc') as (Hle & Hcl & Hr).
    rewrite E1, E2. split_and!; [lia | done |]. intros Hin Hheld Hread.
    rewrite Hr in Hread by done. unfold has_news in *. rewrite E1, E4.
    apply orb_true_iff in Hread as [Hn| ->]; [|by rewrite orb_true_r].
    to_props. by rewrite (proj2 (N.ltb_lt _ _)) by lia.
Qed.

Lemma new_wake_clean piped : wake_clean (new_wake piped) /\ readable (new_wake piped) = false.
Proof. by destruct piped. Qed.

Lemma subscribe_ok replay piped s : stream_ok s -> stream_ok (subscribe replay piped s).1.
Proof.
  intros Hok. destruct (new_wake_clean piped) as [Hcl Hun].
  unfold subscribe. cbn [fst]. set (start := match entries_ s with
                | [] => next_sequence_ s
                | e :: _ => if replay then entry_sequence e else next_sequence_ s
                end).
  assert (start <= next_sequence_ s)%N as Hstart.
  { subst start. pose proof (ok_seq _ Hok) as Hseq. destruct (entries_ s) as [|e es]; [lia|].
    apply Forall_cons in Hseq as [He _]. destruct replay; lia. }
  set (c0 := MkCursor start 0 (new_wake piped)).
  set (c := if closed_ s || _ then arm_cursor c0 else c0).
  assert (next_sequence c = start /\ wake_clean (wake c) /\
    (is_Some (held (wake c)) -> readable (wake c) = has_news s c)) as (E & Hcc & Hr).
  { subst c. unfold has_news. rewrite orb_comm. destruct (_ || _) eqn:Enews; cbn; [|by rewrite Enews].
    destruct (arm_clean _ Hcl) as [H1 H2]. split_and!; try done.
    rewrite Enews. intros Hh. apply H2. by apply arm_held. }
  destruct Hok. split; cbn; try done.
  - destruct ok_names0 as [Hnd Hall]. split.
    + apply NoDup_app. split_and!; [done | | apply NoDup_singleton].
      intros x Hx ->%list_elem_of_singleton. rewrite Forall_forall in Hall. specialize (Hall _ Hx). lia.
    + apply Forall_app. split; [|repeat constructor; lia]. eapply Forall_impl; [exact Hall|]. cbn. lia.
  - intros id Hid. rewrite lookup_insert_ne by lia. apply ok_fresh0. lia.
  - intros id c' [[<- <-]|[Hne Hc']]%lookup_insert_Some.
    + rewrite E. split_and!; try done.
    + destruct (ok_cursor0 _ _ Hc') as (? & ? & Hr'). split_and!; try done.
      intros Hin. apply Hr'. apply elem_of_app in Hin as [?|?%list_elem_of_singleton]; congruence.
Qed.

Lemma stream_ok_cursors s ids :
  stream_ok s -> ids `sublist_of` cursors_ s -> stream_ok (set_cursors ids s).
Proof.
  intros Hok Hsub. pose proof (stream_ok_shrink s [] (entries_ s) ids Hok eq_refl Hsub) as H.
  rewrite <-(ok_bytes _ Hok) in H. by destruct H; split.
Qed.

Lemma unsubscribe_ok id s : stream_ok s -> stream_ok (unsubscribe id s).
Proof. intros Hok. apply prune_ok, stream_ok_cursors; [done | apply sublist_filter]. Qed.

Lemma release_ok id s : stream_ok s -> stream_ok (release id s).
Proof.
  intros []. split; cbn; try done.
  - intros j Hj. rewrite lookup_delete_None. right. auto.
  - intros j c [_ Hc]%lookup_delete_Some. eauto.
Qed.

Lemma close_ok s : stream_ok s -> stream_ok (close s).
Proof.
  intros Hok. unfold close. destruct (closed_ s) eqn:Ec; [done|].
  assert (NoDup (cursors_ (set_closed s))) as Hnd by apply Hok.
  split; try (destruct Hok; done).
  - change (next_cursor (sweep_cursors_locked (set_closed s))) with (next_cursor (set_closed s)).
    apply sweep_names. apply Hok.
  - intros id Hid. apply sweep_fresh; [done|]. by apply (ok_fresh _ Hok).
  - intros id c Hc. apply (sweep_cursors_ok (set_closed s) Hnd); [|done].
    intros id' c' Hc'. destruct (ok_cursor _ Hok _ _ Hc') as (Hle & Hcl & Hr). split_and!; try done.
    intros _ _ _. unfold has_news. cbn. by rewrite orb_true_r.
Qed.

Lemma take_ok id s : stream_ok s -> stream_ok (take id s).1.
Proof.
  intros Hok. unfold take. destruct (heap s !! id) as [c|] eqn:Ec; [|done].
  unfold collect_locked. cbn [fst]. apply prune_ok.
  destruct (ok_cursor _ Hok _ _ Ec) as (Hle & Hcl & Hr).
  set (c0 := MkCursor (next_sequence_ s) _ (wake c)).
  set (c1 := if closed_ s then c0 else disarm_cursor c0).
  assert (next_sequence c1 = next_sequence_ s /\ wake_clean (wake c1) /\
    (id ∈ cursors_ s -> is_Some (held (wake c1)) -> readable (wake c1) = has_news s c1))
    as (E & Hcc & Hr1).
  { subst c1. unfold has_news in *. destruct (closed_ s) eqn:Eclosed.
    - rewrite !orb_true_r in *. by split_and!.
    - destruct (disarm_clean _ Hcl) as [H1 H2]. split_and!; try done. intros _ _. cbn.
      by rewrite H2, N.ltb_irrefl. }
  destruct Hok. split; cbn [entries_ cursors_ maximum_count_ maximum_bytes_ bytes_ next_sequence_
    heap next_cursor set_heap]; try done.
  - intros j Hj. rewrite lookup_insert_None. split; [by apply ok_fresh0|]. intros ->.
    rewrite ok_fresh0 in Ec; [done | lia].
  - intros j c' [[<- <-]|[Hne Hc']]%lookup_insert_Some; [|by eapply ok_cursor0].
    rewrite E. split_and!; [lia | done | apply Hr1].
Qed.

Lemma exec_ok o s : stream_ok s -> stream_ok (exec o s).1.
Proof.
  destruct o; cbn [exec fst]; eauto using subscribe_ok, unsubscribe_ok, release_ok, push_ok, close_ok,
    take_ok.
Qed.

Lemma run_ok os s : stream_ok s -> stream_ok (run os s).
Proof. revert s. induction os as [|o os IH]; intros s Hs; cbn; [done|]. apply IH. by apply exec_ok. Qed.

Lemma new_stream_ok mc mb : stream_ok (new_stream mc mb).
Proof.
  split; cbn; try done; try constructor; try lia; try constructor.
Qed.

(** * One cursor's view *)

(** The queue that cursor [c] of stream [s] amounts to. *)
Definition view (s : Stream) (c : NotificationCursor) : Private :=
  MkPrivate (maximum_count_ s) (maximum_bytes_ s) (from (next_sequence c) (entries_ s))
    (next_sequence_ s) (next_sequence c) (dropped c).

Definition subscribed (id : nat) (s : Stream) (p : Private) : Prop :=
  id ∈ cursors_ s /\ exists c, heap s !! id = Some c /\ view s c = p.

Lemma first_needed_le s id c :
  heap s !! id = Some c -> id ∈ cursors_ s -> (first_needed s (cursors_ s) <= next_sequence c)%N.
Proof.
  intros Hc. unfold first_needed. induction (cursors_ s) as [|j ids IH]; [by intros ?%not_elem_of_nil|].
  intros [->|Hin]%elem_of_cons; cbn [foldr].
  - rewrite Hc. lia.
  - specialize (IH Hin). destruct (heap s !! j); lia.
Qed.

Lemma prune_subscribed id s p :
  stream_ok s -> subscribed id s p -> subscribed id (prune_consumed_locked s) p.
Proof.
  intros Hok (Hin & c & Hc & <-). pose proof (first_needed_le _ _ _ Hc Hin) as Hle.
  destruct (prune_spec (first_needed s (cursors_ s)) (entries_ s) (bytes_ s) (ok_bytes _ Hok))
    as (pre & es & Heq & E & Hpre).
  unfold prune_consumed_locked. rewrite E. split.
  - cbn. apply list_elem_of_filter. split; [|done]. unfold live. by rewrite bool_decide_true by eauto.
  - exists c. split; [done|]. unfold view. cbn. f_equal. rewrite Heq, from_app, (from_none _ pre); [done|].
    eapply Forall_impl; [exact Hpre|]. cbn. lia.
Qed.

Lemma sweep_subscribed id s p :
  NoDup (cursors_ s) -> subscribed id s p -> subscribed id (sweep_cursors_locked s) p.
Proof.
  intros Hnd (Hin & c & Hc & <-). split.
  - cbn. apply list_elem_of_filter. split; [|done]. unfold live. by rewrite bool_decide_true by eauto.
  - exists (swept s c). rewrite sweep_heap, Hc, bool_decide_true by done. split; [done|].
    unfold swept. by destruct (has_news s c).
Qed.

Lemma push_subscribed id n s p :
  stream_ok s -> subscribed id s p -> subscribed id (push n s) (private_push n p).
Proof.
  intros Hok (Hin & c & Hc & <-). destruct (ok_cursor _ Hok _ _ Hc) as (Hle & _).
  unfold push. set (s1 := if stored s n then _ else _).
  assert (cursors_ s1 = cursors_ s /\ heap s1 = heap s) as [E2 E3] by (subst s1; by destruct (stored s n)).
  apply sweep_subscribed; [rewrite E2; apply Hok|]. split; [by rewrite E2|].
  exists c. rewrite E3. split; [done|]. unfold private_push, view.
  cbn [p_maximum_count p_maximum_bytes p_entries p_sequence p_expected p_lost].
  subst s1. fold (stored s n). destruct (stored s n); [|done].
  cbn [entries_ maximum_count_ maximum_bytes_ bytes_ next_sequence_ set_entries set_sequence]. f_equal.
  rewrite (ok_bytes _ Hok), from_app, evict_from by apply Hok. f_equal.
  unfold from. rewrite filter_cons_True by (cbn; lia). done.
Qed.

Lemma view_lost s c :
  stream_ok s -> (next_sequence c <= next_sequence_ s)%N ->
  pending_drops_locked c s = private_lost (view s c) /\
  (collect (entries_ s) (next_sequence c) (dropped c)).1.1 = notification <$> p_entries (view s c) /\
  (N.of_nat (length (p_entries (view s c))) <= next_sequence_ s - next_sequence c)%N.
Proof.
  intros Hok Hle. unfold pending_drops_locked, private_lost, view.
  cbn [p_entries p_sequence p_expected p_lost].
  assert (forall es k, sorted_entries es -> Forall (fun e => k <= entry_sequence e < next_sequence_ s)%N es ->
    (N.of_nat (length es) <= next_sequence_ s - k)%N) as Hroom.
  { induction es as [|e es IH]; intros k Hs Hall; cbn [length]; [lia|].
    apply StronglySorted_inv in Hs as [Hs He]. apply Forall_cons in Hall as [Hk Hall].
    assert (N.of_nat (length es) <= next_sequence_ s - (entry_sequence e + 1))%N; [|lia].
    apply IH; [done|]. rewrite Forall_forall in *. intros x Hx.
    specialize (He x Hx). specialize (Hall x Hx). cbn in *. lia. }
  destruct (collect_spec (entries_ s) (next_sequence c) (dropped c) (next_sequence_ s))
    as (H1 & H2 & H3); [apply Hok | apply Hok | done |].
  assert (N.of_nat (length (from (next_sequence c) (entries_ s))) <= next_sequence_ s - next_sequence c)%N.
  { apply Hroom.
    - destruct Hok. clear -ok_sorted0. induction ok_sorted0 as [|e es Hs IH He]; [constructor|].
      unfold from in *. rewrite filter_cons. destruct (decide _); [|done]. constructor; [done|].
      rewrite Forall_forall in *. intros x [_ Hx]%list_elem_of_filter. by apply He.
    - apply Forall_forall. intros x [Hk Hx]%list_elem_of_filter. pose proof (ok_seq _ Hok) as Hs.
      rewrite Forall_forall in Hs. specialize (Hs x Hx). lia. }
  split_and!; [lia | done | done].
Qed.

Lemma take_subscribed id s p :
  stream_ok s -> subscribed id s p ->
  subscribed id (take id s).1 (private_take p).1 /\ (take id s).2 = (private_take p).2.
Proof.
  intros Hok (Hin & c & Hc & <-). destruct (ok_cursor _ Hok _ _ Hc) as (Hle & Hcl & _).
  destruct (view_lost s c Hok Hle) as (Hlost & Htaken & _).
  pose proof (take_ok id s Hok) as Hok'. unfold take in *. rewrite Hc in *. unfold collect_locked in *.
  cbn [fst snd] in *. split; [|done].
  fold (pending_drops_locked c s) in *. rewrite Hlost in *.
  set (c0 := MkCursor (next_sequence_ s) _ (wake c)) in *.
  set (c1 := if closed_ s then c0 else disarm_cursor c0) in *.
  assert (next_sequence c1 = next_sequence_ s /\ dropped c1 = private_lost (view s c)) as [E1 E2]
    by (subst c1; by destruct (closed_ s)).
  set (s1 := set_heap (<[id:=c1]> (heap s)) s) in *.
  destruct (prune_spec (first_needed s1 (cursors_ s1)) (entries_ s1) (bytes_ s1) (ok_bytes _ Hok))
    as (pre & es & Heq & E & Hpre).
  unfold prune_consumed_locked in *. rewrite E in *. split.
  - cbn. apply list_elem_of_filter. split; [|done]. unfold live. cbn.
    by rewrite lookup_insert_eq, bool_decide_true by eauto.
  - exists c1. cbn. split; [by rewrite lookup_insert_eq|]. unfold view at 1. cbn. rewrite E1, E2.
    unfold private_take. cbn. f_equal. apply from_none.
    pose proof (ok_seq _ Hok') as Hseq. exact Hseq.
Qed.

Lemma other_subscribed id j s p (h : NotificationCursor) :
  stream_ok s -> subscribed id s p -> id <> j ->
  subscribed id (set_heap (<[j := h]> (heap s)) s) p.
Proof.
  intros Hok (Hin & c & Hc & <-) Hne. split; [done|]. exists c. cbn. by rewrite lookup_insert_ne.
Qed.

Lemma take_other id j s p :
  stream_ok s -> subscribed id s p -> id <> j -> subscribed id (take j s).1 p.
Proof.
  intros Hok Hsub Hne. pose proof (take_ok j s Hok) as Hok'. unfold take in *.
  destruct (heap s !! j) as [c|] eqn:Ec; [|done]. unfold collect_locked in *. cbn [fst] in *.
  set (c1 := if closed_ s then _ else _) in *.
  pose proof (other_subscribed id j s p c1 Hok Hsub Hne) as (Hin & c' & Hc' & <-).
  pose proof (first_needed_le _ _ _ Hc' Hin) as Hle.
  set (s1 := set_heap (<[j:=c1]> (heap s)) s) in *.
  destruct (prune_spec (first_needed s1 (cursors_ s1)) (entries_ s1) (bytes_ s1) (ok_bytes _ Hok))
    as (pre & es & Heq & E & Hpre).
  unfold prune_consumed_locked. rewrite E. split.
  - apply list_elem_of_filter. split; [|done]. unfold live. by rewrite bool_decide_true by eauto.
  - exists c'. split; [done|]. unfold view. cbn [entries_ set_entries set_cursors]. f_equal.
    rewrite Heq, from_app, (from_none _ pre); [done|].
    eapply Forall_impl; [exact Hpre|]. intros e He. cbn beta in He. lia.
Qed.

Lemma exec_other id o s p :
  stream_ok s -> subscribed id s p -> keeps id o = true ->
  match o with Push _ => False | Take j => j <> id | _ => True end ->
  subscribed id (exec o s).1 p.
Proof.
  intros Hok Hsub Hkeep Ho. pose proof Hsub as (Hin & c & Hc & Hview).
  destruct o as [replay piped|j|j|n| |j|j]; cbn [exec fst keeps] in *; try done.
  - unfold subscribe. cbn [fst]. split; [apply elem_of_app; by left|]. exists c.
    split; [|done]. cbn. rewrite lookup_insert_ne; [done|]. intros <-.
    by rewrite (ok_fresh _ Hok) in Hc.
  - apply negb_true_iff, bool_decide_eq_false in Hkeep. apply prune_subscribed.
    + apply stream_ok_cursors; [done | apply sublist_filter].
    + split; [|by exists c]. apply list_elem_of_filter. split; [|done].
      unfold live. rewrite bool_decide_true by eauto. by rewrite bool_decide_false.
  - apply negb_true_iff, bool_decide_eq_false in Hkeep. split; [done|]. exists c. split; [|done].
    cbn. by rewrite lookup_delete_ne.
  - unfold close. destruct (closed_ s); [done|]. apply sweep_subscribed; [apply Hok|].
    split; [done|]. by exists c.
  - by apply take_other.
Qed.

Lemma exec_maximum o s :
  maximum_count_ (exec o s).1 = maximum_count_ s /\ maximum_bytes_ (exec o s).1 = maximum_bytes_ s.
Proof.
  destruct o; try done; cbn [exec fst].
  - unfold push. by destruct (stored s n).
  - unfold close. by destruct (closed_ s).
  - unfold take. by destruct (heap s !! id).
Qed.

Lemma run_maximum os s :
  maximum_count_ (run os s) = maximum_count_ s /\ maximum_bytes_ (run os s) = maximum_bytes_ s.
Proof.
  revert s. induction os as [|o os IH]; intros s; [done|]. cbn [run].
  destruct (IH (exec o s).1) as [-> ->]. apply exec_maximum.
Qed.

(** * The theorems *)

(** Cursors are independent.  Whatever everybody does to the stream, what one
    subscribed cursor is given and what it is told it lost is what a bounded queue
    of its own would have answered, in which the other cursors do not exist: a
    slow watch costs the others nothing, and no watch steals from another. *)
Theorem cursors_independent id os s c :
  stream_ok s -> id ∈ cursors_ s -> heap s !! id = Some c -> forallb (keeps id) os = true ->
  answers_for id os s = private_answers id os (view s c).
Proof.
  intros Hok Hin Hc. assert (subscribed id s (view s c)) as Hsub by (split; [done|]; by exists c).
  revert Hok Hsub. generalize (view s c). clear c Hc Hin.
  revert s. induction os as [|o os IH]; intros s p Hok Hsub Hkeep; [done|].
  cbn [forallb] in Hkeep. apply andb_true_iff in Hkeep as [Hk Hkeep].
  pose proof (exec_ok o s Hok) as Hok'. pose proof (exec_other id o s p Hok Hsub Hk) as Hother.
  cbn [answers_for private_answers]. destruct o as [replay piped|j|j|n| |j|j]; cbn [app] in *;
    try (by apply IH; [done | by apply Hother | done]).
  - apply IH; [done | by apply push_subscribed | done].
  - case_bool_decide as Hj.
    + subst j. destruct (take_subscribed _ _ _ Hok Hsub) as [Hsub' Htaken]. cbn [exec snd fst app] in *.
      rewrite Htaken. f_equal. by apply IH.
    + apply IH; [done | by apply Hother | done].
  - case_bool_decide as Hj; [|apply IH; [done | by apply Hother | done]].
    subst j. cbn [exec snd app fst]. f_equal; [|by apply IH].
    destruct Hsub as (Hin & c & Hc & <-). unfold dropped_count. rewrite Hc. f_equal.
    apply view_lost; [done|]. by apply (ok_cursor _ Hok _ _ Hc).
Qed.

(** C20: The log is bounded and consistent in every state any history can reach:
    never more entries or bytes than configured, the byte count is the sum of what
    is held, entries in strictly increasing sequence below the next one, no cursor
    ahead of it. *)
Theorem stream_bounded os mc mb :
  let s := run os (new_stream mc mb) in
  (N.of_nat (length (entries_ s)) <= mc)%N /\ (bytes_ s <= mb)%N /\
  bytes_ s = sum_size (entries_ s) /\ sorted_entries (entries_ s) /\
  Forall (fun e => entry_sequence e < next_sequence_ s)%N (entries_ s) /\
  (forall id c, heap s !! id = Some c -> next_sequence c <= next_sequence_ s)%N.
Proof.
  intros s. assert (stream_ok s) as Hok by apply run_ok, new_stream_ok.
  destruct (run_maximum os (new_stream mc mb)) as [E1 E2]. fold s in E1, E2. cbn in E1, E2.
  destruct Hok. rewrite <-E1, <-E2. split_and!; try done. intros id c Hc. by apply ok_cursor0 in Hc as [? _].
Qed.

(** The accounting of a take is exact: what it gives and what it reports lost
    since the cursor last looked are together every notification pushed in
    between, the loss reported beforehand is the loss reported after, and the
    cursor is then up to date. *)
Theorem take_accounts id s c :
  stream_ok s -> heap s !! id = Some c ->
  let r := take id s in
  (N.of_nat (length r.2) + (dropped_count id r.1 - dropped c) = next_sequence_ s - next_sequence c)%N /\
  dropped_count id r.1 = dropped_count id s /\ (dropped c <= dropped_count id s)%N /\
  r.2 = notification <$> from (next_sequence c) (entries_ s) /\
  (take id r.1).2 = [].
Proof.
  intros Hok Hc r. destruct (ok_cursor _ Hok _ _ Hc) as (Hle & _).
  destruct (view_lost s c Hok Hle) as (Hlost & Htaken & Hroom).
  pose proof (take_ok id s Hok) as Hok'. fold r in Hok'.
  assert (exists c', heap r.1 !! id = Some c' /\ next_sequence c' = next_sequence_ s /\
    dropped c' = pending_drops_locked c s /\ next_sequence_ r.1 = next_sequence_ s)
    as (c' & Hc' & E1 & E2 & E3).
  { subst r. unfold take. rewrite Hc. unfold collect_locked. cbn [fst].
    unfold prune_consumed_locked. eexists. cbn. rewrite lookup_insert_eq. split; [done|].
    by destruct (closed_ s). }
  assert (from (next_sequence c') (entries_ r.1) = []) as Hnone.
  { apply from_none. rewrite E1, <-E3. apply Hok'. }
  assert (r.2 = notification <$> from (next_sequence c) (entries_ s)) as Hr.
  { subst r. unfold take. rewrite Hc. exact Htaken. }
  destruct (ok_cursor _ Hok' _ _ Hc') as (Hle' & _).
  destruct (view_lost r.1 c' Hok' Hle') as (Hlost' & Htaken' & _).
  unfold dropped_count. rewrite Hc, Hc', Hlost'.
  unfold private_lost, view in *. cbn [p_entries p_sequence p_expected p_lost] in *.
  rewrite Hnone in *. rewrite E1, E2, E3, Hlost. cbn [length].
  split_and!; [rewrite Hr, length_fmap; lia | lia | lia | done |].
  unfold take. rewrite Hc'. unfold collect_locked. cbn [snd]. rewrite Htaken'. done.
Qed.

(** In every reachable state, the descriptor of a subscribed cursor that has
    one is readable exactly when a wait would return at once: something was pushed
    since it last looked, or the stream is closed. *)
Theorem cursor_readable os mc mb id c :
  let s := run os (new_stream mc mb) in
  id ∈ cursors_ s -> heap s !! id = Some c -> is_Some (held (wake c)) ->
  notification_fd_readable id s = (next_sequence c <? next_sequence_ s)%N || closed_ s.
Proof.
  intros s Hin Hc Hh. unfold notification_fd_readable. rewrite Hc.
  assert (stream_ok s) as Hok by apply run_ok, new_stream_ok.
  destruct (ok_cursor _ Hok _ _ Hc) as (_ & _ & Hr). by apply Hr.
Qed.
End stream.

(** * The theorems at a concrete stream *)

Definition note (s : string) : Notification := MkNotification (txt s).

(** Two cursors on a log of two entries; the second one never reads. *)
Definition two_cursors : Stream := run [Subscribe false true; Subscribe false true] (new_stream 2 64).

Lemma two_cursors_ok : stream_ok two_cursors.
Proof. apply run_ok, new_stream_ok. Qed.

Lemma cursors_independent_witness :
  answers_for 0 [Push (note "a"); Push (note "b"); Take 1; Push (note "c"); Take 0; Dropped 0] two_cursors =
  [Taken [note "b"; note "c"]; Lost 1].
Proof.
  rewrite (cursors_independent 0 _ two_cursors (MkCursor 0 0 (new_wake true)) two_cursors_ok);
    [reflexivity | by left | reflexivity | reflexivity].
Defined.

Lemma take_accounts_witness :
  let s := run [Push (note "a"); Push (note "b"); Push (note "c")] two_cursors in
  (N.of_nat (length (take 0 s).2) + (dropped_count 0 (take 0 s).1 - 0) = 3 - 0)%N.
Proof.
  assert (exists c, heap (run [Push (note "a"); Push (note "b"); Push (note "c")] two_cursors) !! 0 = Some c
    /\ next_sequence c = 0%N /\ dropped c = 0%N) as (c & Hc & H1 & H2)
    by (eexists; split; [reflexivity | split; reflexivity]).
  destruct (take_accounts 0 (run [Push (note "a"); Push (note "b"); Push (note "c")] two_cursors) c
    (run_ok _ _ two_cursors_ok) Hc) as (H & _).
  rewrite H1, H2 in H. exact H.
Defined.

Lemma cursor_readable_witness :
  notification_fd_readable 0
    (run [Subscribe false true; Push (note "a")] (new_stream 2 64)) = true.
Proof.
  assert (exists c, heap (run [Subscribe false true; Push (note "a")] (new_stream 2 64)) !! 0 = Some c
    /\ next_sequence c = 0%N /\ held (wake c) = Some 1) as (c & Hc & H1 & H2)
    by (eexists; split; [reflexivity | split; reflexivity]).
  rewrite (cursor_readable [Subscribe false true; Push (note "a")] 2 64 0 c);
    [rewrite H1; reflexivity | by left | exact Hc | rewrite H2; eauto].
Defined.
