(* ===== verification/OperationState.v ===== *)
(** One asynchronous operation: [src/operation_state.hpp].

    [OperationState] joins a source, which publishes an outcome and retires, to an
    observer, which waits, subscribes a callback on a completion queue or lets go.
    Each member function is one locked section and the calls it makes after
    unlocking; an [assert] is an [option] step.

    The second half puts the operation, its handles and the queue together: every
    locked section and every call made after unlocking is an action, and actions
    of any threads interleave in any order.  The queue is the FIFO that
    CompletionQueue.v proves the implementation refines; what a section does after
    unlocking is pending with the token it took from the state.  The owner of the source
    has a course of its own, which the operation's phases do not steer.  The theorems are about
    every state the actions reach: no assertion fails, a published outcome is
    never lost on its way to a subscribed callback, admission is released exactly
    once, cancellation is accepted at most once, the observer gets the outcome the
    source published and only once. *)

From S2P Require Import Prelude Command Wake CompletionQueue.

Section operation.
Context {A : Type}.

Definition OperationResult : Type := expected CommandFailure A.

Inductive ObserverPhase :=
  | unselected | callback_phase | blocking | blocking_waiting | detached | delivered.

Inductive TransportPhase := queued | dispatching_ | active | retiring | retired.

#[export] Instance ObserverPhase_eq_dec : EqDecision ObserverPhase.
Proof. solve_decision. Defined.
#[export] Instance TransportPhase_eq_dec : EqDecision TransportPhase.
Proof. solve_decision. Defined.

Definition transport_rank (t : TransportPhase) : nat :=
  match t with queued => 0 | dispatching_ => 1 | active => 2 | retiring => 3 | retired => 4 end.

Definition make_abandoned_outcome : OperationResult :=
  Unexpected (MkFailure Command.pipe not_started 0
    (txt "operation source retired without an outcome")).

Definition set_delivery (d : DeliveryStatus) (r : OperationResult) : OperationResult :=
  match r with
  | Unexpected f => Unexpected (MkFailure (failure_kind f) d (exit_code f) (diagnostic f))
  | Value a => Value a
  end.

Record OperationRelay := MkRelay {
  relay_hooks : bool;
  relay_token : option N;
  cancellation_requested : bool;
  outcome_published : bool;
  relay_retired : bool;
}.

Record OperationState := MkState {
  outcome : option OperationResult;
  abandoned_outcome : option OperationResult;
  hooks : bool;
  relay : OperationRelay;
  observer_token : N;
  observer : ObserverPhase;
  transport : TransportPhase;
  admission_released : bool;
}.

Definition new_state : OperationState :=
  MkState None (Some make_abandoned_outcome) true (MkRelay true None false false false) 0
    unselected queued false.

(** What a member function does once the lock is free. *)
Inductive effect := NotifyAll | EnqueueObserver (token : N) | ReleaseAdmission | WakeReactor.

(** * The relay *)

Definition relay_request_cancel (r : OperationRelay) : option (OperationRelay * list effect * bool) :=
  if cancellation_requested r || outcome_published r || relay_retired r then Some (r, [], false)
  else
    _ ← assert_ (relay_hooks r);
    Some (MkRelay (relay_hooks r) (relay_token r) true (outcome_published r) (relay_retired r),
          [WakeReactor], true).

Definition mark_outcome_published (r : OperationRelay) : OperationRelay :=
  MkRelay (relay_hooks r) (relay_token r) (cancellation_requested r) true (relay_retired r).

Definition relay_select_callback (token : N) (r : OperationRelay) : option OperationRelay :=
  _ ← assert_ (negb (bool_decide (is_Some (relay_token r))));
  Some (MkRelay (relay_hooks r) (Some token) (cancellation_requested r) (outcome_published r)
          (relay_retired r)).

Definition finish_callback (token : N) (r : OperationRelay) : OperationRelay :=
  if bool_decide (relay_token r = Some token)
  then MkRelay (relay_hooks r) None (cancellation_requested r) (outcome_published r) (relay_retired r)
  else r.

Definition observing_callback (token : N) (r : OperationRelay) : bool :=
  bool_decide (relay_token r = Some token).

Definition relay_retire (r : OperationRelay) : OperationRelay :=
  MkRelay false (relay_token r) (cancellation_requested r) (outcome_published r) true.

(** * The state *)

Definition set_relay r s :=
  MkState (outcome s) (abandoned_outcome s) (hooks s) r (observer_token s) (observer s)
    (transport s) (admission_released s).
Definition set_observer o t r s :=
  MkState (outcome s) (abandoned_outcome s) (hooks s) r t o (transport s) (admission_released s).
Definition set_transport t s :=
  MkState (outcome s) (abandoned_outcome s) (hooks s) (relay s) (observer_token s) (observer s) t
    (admission_released s).
Definition set_outcome o a s :=
  MkState o a (hooks s) (relay s) (observer_token s) (observer s) (transport s)
    (admission_released s).

Definition observer_finished (s : OperationState) : bool :=
  bool_decide (observer s = detached) || bool_decide (observer s = delivered).

(** The hook that is to be called, if this section is the one that ends both sides. *)
Definition release_hook_locked (s : OperationState) : OperationState * list effect :=
  if admission_released s || negb (bool_decide (transport s = retired)) || negb (observer_finished s)
  then (s, [])
  else
    (MkState (outcome s) (abandoned_outcome s) false (relay s) (observer_token s) (observer s)
       (transport s) true,
     if hooks s then [ReleaseAdmission] else []).

Definition enqueue_observer (s : OperationState) : list effect :=
  if bool_decide (observer s = callback_phase) then [EnqueueObserver (observer_token s)] else [].

Definition publish (result : OperationResult) (s : OperationState) :
    OperationState * list effect * bool :=
  match outcome s with
  | Some _ => (s, [], false)
  | None =>
      (set_outcome (Some result) None (set_relay (mark_outcome_published (relay s)) s),
       NotifyAll :: enqueue_observer s, true)
  end.

Definition request_cancel (s : OperationState) : option (OperationState * list effect * bool) :=
  r ← relay_request_cancel (relay s); Some (set_relay r.1.1 s, r.1.2, r.2).

Definition select_blocking (s : OperationState) : option OperationState :=
  _ ← assert_ (bool_decide (observer s = unselected));
  Some (set_observer blocking (observer_token s) (relay s) s).

Definition select_callback (token : N) (s : OperationState) : option OperationState :=
  _ ← assert_ (bool_decide (observer s = unselected));
  r ← relay_select_callback token (relay s);
  Some (set_observer callback_phase token r s).

(** [wait_and_take], up to the wait and from the moment its predicate holds. *)
Definition begin_wait (s : OperationState) : option OperationState :=
  _ ← assert_ (bool_decide (observer s = blocking));
  Some (set_observer blocking_waiting (observer_token s) (relay s) s).

Definition finish_wait (s : OperationState) :
    option (OperationState * list effect * OperationResult) :=
  _ ← assert_ (bool_decide (observer s = blocking_waiting));
  let r := release_hook_locked (set_observer delivered (observer_token s) (relay s) s) in
  result ← outcome r.1;
  Some (r.1, r.2, result).

Definition take_callback (token : N) (s : OperationState) :
    option (OperationState * list effect * OperationResult) :=
  _ ← outcome s;
  _ ← assert_ (bool_decide (observer s = callback_phase));
  _ ← assert_ (bool_decide (observer_token s = token));
  let r := release_hook_locked (set_observer delivered 0 (finish_callback token (relay s)) s) in
  result ← outcome r.1;
  Some (r.1, r.2, result).

Definition detach_callback (token : N) (s : OperationState) : OperationState * list effect :=
  if negb (bool_decide (observer s = callback_phase)) || negb (bool_decide (observer_token s = token))
  then (s, [])
  else release_hook_locked (set_observer detached 0 (finish_callback token (relay s)) s).

Definition detach_unselected (s : OperationState) : OperationState * list effect :=
  if bool_decide (observer s = unselected)
  then release_hook_locked (set_observer detached (observer_token s) (relay s) s)
  else (s, []).

Definition advance_transport (phase : TransportPhase) (s : OperationState) : option OperationState :=
  _ ← assert_ (transport_rank (transport s) <=? transport_rank phase)%nat;
  Some (set_transport phase s).

Definition retire (s : OperationState) : option (OperationState * list effect) :=
  let abandoned_delivery :=
    if bool_decide (transport s = queued) then not_started else indeterminate in
  let s := set_relay (relay_retire (relay s)) (set_transport retired s) in
  match outcome s with
  | None =>
      abandoned ← abandoned_outcome s;
      _ ← assert_ (match abandoned with Value _ => false | Unexpected _ => true end);
      let s := set_outcome (Some (set_delivery abandoned_delivery abandoned)) None s in
      let r := release_hook_locked s in
      Some (r.1, NotifyAll :: enqueue_observer s ++ r.2)
  | Some _ =>
      Some (release_hook_locked (set_outcome (outcome s) None s))
  end.

Definition mark_dispatching : OperationState -> option OperationState := advance_transport dispatching_.
Definition mark_active : OperationState -> option OperationState := advance_transport active.
Definition begin_retirement : OperationState -> option OperationState := advance_transport retiring.

Definition cancel_requested (s : OperationState) : bool := cancellation_requested (relay s).
Definition is_outcome_published (s : OperationState) : bool := bool_decide (is_Some (outcome s)).
Definition blocking_observer_waiting (s : OperationState) : bool :=
  bool_decide (observer s = blocking_waiting).

(** [Subscription::observing], by the token it holds. *)
Definition observing (token : option N) (s : OperationState) : bool :=
  match token with Some t => observing_callback t (relay s) | None => false end.

(** * An operation among its handles and the queue *)

(** Where the observing side stands: the [Operation] handle is held, a blocking
    wait is selected or under way, the lease of a callback is with [subscribe],
    in the queue's record, in a record being destroyed, in a callback that runs,
    or all is over. *)
Inductive Consumer :=
  | Holding | BlockingSelected | BlockingWaiting
  | Leased (token : N) | Recorded (token : N) | Detaching (token : N) | Taking (token : N)
  | Over.

(** Where the holder of the [OperationSource] stands.  Both engines are such a holder:
    [submit] makes the operation and lists the command under its lock, a worker or the
    launcher takes it from there and starts it, and what started is wound up; from
    every place the source may be retired, by the engine or by its destructor. *)
Inductive Owner := OwnerSubmits | OwnerListed | OwnerRuns | OwnerWindsUp | OwnerRetired.

(** [subscribing] is the token of a [subscribe] between its registration and its look
    at the outcome; [pending_enqueues] are the tokens that calls made after unlocking
    are about to enqueue; [mine] remembers which token this operation's was. *)
Record System := MkSystem {
  state : OperationState;
  queue : Queue (A := unit);
  owner : Owner;
  consumer : Consumer;
  mine : option N;
  subscribing : option N;
  pending_enqueues : list N;
  pending_releases : nat;
  pending_wakes : nat;
  releases : nat;
  wakes : nat;
  accepted : nat;
  deliveries : list OperationResult;
}.

Definition new_system : System :=
  MkSystem new_state new_queue OwnerSubmits Holding None None [] 0 0 0 0 0 [].

Definition count (p : effect -> bool) (es : list effect) : nat := length (List.filter p es).
Definition enqueued_token (e : effect) : option N :=
  match e with EnqueueObserver token => Some token | _ => None end.
Fixpoint remove_one (token : N) (l : list N) : list N :=
  match l with
  | [] => []
  | x :: rest => if bool_decide (x = token) then rest else x :: remove_one token rest
  end.
Definition is_release (e : effect) : bool := match e with ReleaseAdmission => true | _ => false end.
Definition is_wake (e : effect) : bool := match e with WakeReactor => true | _ => false end.

(** The state after a locked section, its calls still to be made. *)
Definition with_effects (st : OperationState) (es : list effect) (s : System) : System :=
  MkSystem st (queue s) (owner s) (consumer s) (mine s) (subscribing s)
    (pending_enqueues s ++ omap enqueued_token es) (pending_releases s + count is_release es)
    (pending_wakes s + count is_wake es) (releases s) (wakes s) (accepted s) (deliveries s).

Definition set_consumer c s :=
  MkSystem (state s) (queue s) (owner s) c (mine s) (subscribing s) (pending_enqueues s) (pending_releases s)
    (pending_wakes s) (releases s) (wakes s) (accepted s) (deliveries s).
Definition set_owner o s :=
  MkSystem (state s) (queue s) o (consumer s) (mine s) (subscribing s) (pending_enqueues s)
    (pending_releases s) (pending_wakes s) (releases s) (wakes s) (accepted s) (deliveries s).
Definition set_queue q s :=
  MkSystem (state s) q (owner s) (consumer s) (mine s) (subscribing s) (pending_enqueues s)
    (pending_releases s) (pending_wakes s) (releases s) (wakes s) (accepted s) (deliveries s).
Definition set_subscribing m b s :=
  MkSystem (state s) (queue s) (owner s) (consumer s) m b (pending_enqueues s) (pending_releases s)
    (pending_wakes s) (releases s) (wakes s) (accepted s) (deliveries s).
Definition set_pending e r w s :=
  MkSystem (state s) (queue s) (owner s) (consumer s) (mine s) (subscribing s) e r w (releases s) (wakes s)
    (accepted s) (deliveries s).
Definition count_release s :=
  MkSystem (state s) (queue s) (owner s) (consumer s) (mine s) (subscribing s) (pending_enqueues s)
    (pred (pending_releases s)) (pending_wakes s) (S (releases s)) (wakes s) (accepted s)
    (deliveries s).
Definition count_wake s :=
  MkSystem (state s) (queue s) (owner s) (consumer s) (mine s) (subscribing s) (pending_enqueues s)
    (pending_releases s) (pred (pending_wakes s)) (releases s) (S (wakes s)) (accepted s)
    (deliveries s).
Definition count_accepted (b : bool) s :=
  MkSystem (state s) (queue s) (owner s) (consumer s) (mine s) (subscribing s) (pending_enqueues s)
    (pending_releases s) (pending_wakes s) (releases s) (wakes s)
    (if b then S (accepted s) else accepted s) (deliveries s).
Definition deliver (r : OperationResult) s :=
  MkSystem (state s) (queue s) (owner s) (consumer s) (mine s) (subscribing s) (pending_enqueues s)
    (pending_releases s) (pending_wakes s) (releases s) (wakes s) (accepted s)
    (deliveries s ++ [r]).

(** The record of this operation leaves the queue and is destroyed outside the lock. *)
Definition lose_record (q : Queue (A := unit)) (s : System) : System :=
  match consumer s with
  | Recorded token =>
      if bool_decide (is_Some (q_callbacks q !! token)) then set_queue q s
      else set_consumer (Detaching token) (set_queue q s)
  | _ => set_queue q s
  end.

Inductive action :=
  (* the source *)
  | Publish (r : OperationResult) | MarkDispatching | MarkActive | BeginRetirement | Retire
  (* the handles *)
  | Cancel | DropOperation | SyncWait | BeginWait | FinishWait
  (* subscribe, section by section *)
  | Subscribe | RegisterRecord | CheckOutcome
  (* the queue: what others do to it, and a dispatcher's claim *)
  | QueueOp (o : op (A := unit)) | Claim
  (* what was left to be done after a lock was released *)
  | DoEnqueue (token : N) | DoRelease | DoWake | DestroyRecord | RunCallback.

(** What each party may do when: the source's holder follows its own course, the handles
    are unique and move-only, tokens come from [next_token], nobody else uses this
    operation's token except to detach.  Nothing is asked of the operation's own phases. *)
Definition enabled (a : action) (s : System) : bool :=
  match a with
  | Publish _ | Retire | Cancel | Claim => true
  | MarkDispatching => match owner s with OwnerSubmits => true | _ => false end
  | MarkActive => match owner s with OwnerListed => true | _ => false end
  | BeginRetirement => match owner s with OwnerRuns => true | _ => false end
  | DropOperation | SyncWait | Subscribe =>
      match consumer s with Holding => true | _ => false end
  | BeginWait => match consumer s with BlockingSelected => true | _ => false end
  | FinishWait =>
      match consumer s with
      | BlockingWaiting => bool_decide (is_Some (outcome (state s)))
      | _ => false
      end
  | RegisterRecord => match consumer s with Leased _ => true | _ => false end
  | CheckOutcome => bool_decide (is_Some (subscribing s))
  | QueueOp o =>
      match o with
      | Enqueue t | Register t _ =>
          negb (bool_decide (mine s = Some t)) && (t <? q_next (queue s))%N
      | _ => true
      end
  | DoEnqueue token => bool_decide (token ∈ pending_enqueues s)
  | DoRelease => (0 <? pending_releases s)%nat
  | DoWake => (0 <? pending_wakes s)%nat
  | DestroyRecord => match consumer s with Detaching _ => true | _ => false end
  | RunCallback => match consumer s with Taking _ => true | _ => false end
  end.

Definition act (a : action) (s : System) : option System :=
  match a with
  | Publish r => let p := publish r (state s) in Some (with_effects p.1.1 p.1.2 s)
  | MarkDispatching =>
      st ← mark_dispatching (state s); Some (set_owner OwnerListed (with_effects st [] s))
  | MarkActive => st ← mark_active (state s); Some (set_owner OwnerRuns (with_effects st [] s))
  | BeginRetirement =>
      st ← begin_retirement (state s); Some (set_owner OwnerWindsUp (with_effects st [] s))
  | Retire => p ← retire (state s); Some (set_owner OwnerRetired (with_effects p.1 p.2 s))
  | Cancel =>
      p ← request_cancel (state s);
      Some (count_accepted p.2 (with_effects p.1.1 p.1.2 s))
  | DropOperation =>
      let p := detach_unselected (state s) in
      Some (set_consumer Over (with_effects p.1 p.2 s))
  | SyncWait => st ← select_blocking (state s); Some (set_consumer BlockingSelected (with_effects st [] s))
  | BeginWait => st ← begin_wait (state s); Some (set_consumer BlockingWaiting (with_effects st [] s))
  | FinishWait =>
      p ← finish_wait (state s);
      Some (deliver p.2 (set_consumer Over (with_effects p.1.1 p.1.2 s)))
  | Subscribe =>
      let token := q_next (queue s) in
      let q := (q_exec NextToken (queue s)).1 in
      st ← select_callback token (state s);
      Some (set_subscribing (Some token) None
              (set_consumer (Leased token) (set_queue q (with_effects st [] s))))
  | RegisterRecord =>
      match consumer s with
      | Leased token =>
          match q_exec (Register token tt) (queue s) with
          | (q, Bool true) =>
              Some (set_subscribing (mine s) (Some token) (set_consumer (Recorded token) (set_queue q s)))
          | (q, _) => Some (set_consumer (Detaching token) (set_queue q s))
          end
      | _ => None
      end
  | CheckOutcome =>
      token ← subscribing s;
      let more := match outcome (state s) with Some _ => [token] | None => [] end in
      Some (set_subscribing (mine s) None
              (set_pending (pending_enqueues s ++ more) (pending_releases s) (pending_wakes s) s))
  | QueueOp o => Some (lose_record (q_exec o (queue s)).1 s)
  | Claim =>
      match q_claim (queue s), consumer s with
      | (q, Some (t, _)), Recorded token =>
          if bool_decide (t = token) then Some (set_consumer (Taking token) (set_queue q s))
          else Some (set_queue q s)
      | (q, _), _ => Some (set_queue q s)
      end
  | DoEnqueue token =>
      let left := remove_one token (pending_enqueues s) in
      Some (set_queue (q_exec (Enqueue token) (queue s)).1
              (set_pending left (pending_releases s) (pending_wakes s) s))
  | DoRelease => Some (count_release s)
  | DoWake => Some (count_wake s)
  | DestroyRecord =>
      match consumer s with
      | Detaching token =>
          let p := detach_callback token (state s) in
          Some (set_consumer Over (with_effects p.1 p.2 s))
      | _ => None
      end
  | RunCallback =>
      match consumer s with
      | Taking token =>
          p ← take_callback token (state s);
          Some (deliver p.2 (set_consumer Over (with_effects p.1.1 p.1.2 s)))
      | _ => None
      end
  end.

Inductive reachable : System -> Prop :=
  | reachable_new : reachable new_system
  | reachable_act a s s' : reachable s -> enabled a s = true -> act a s = Some s' -> reachable s'.

(** * The invariant of one operation *)

Definition b2n (b : bool) : nat := if b then 1 else 0.

Record state_ok (st : OperationState) : Prop := {
  so_hooks : hooks st = negb (admission_released st);
  so_released : admission_released st = bool_decide (transport st = retired) && observer_finished st;
  so_outcome : outcome st = None ->
    abandoned_outcome st = Some make_abandoned_outcome /\ transport st <> retired /\
    outcome_published (relay st) = false;
  so_retired : relay_retired (relay st) = bool_decide (transport st = retired) /\
    relay_hooks (relay st) = negb (relay_retired (relay st));
  so_token : relay_token (relay st) =
    if bool_decide (observer st = callback_phase) then Some (observer_token st) else None;
}.

(** What every locked section keeps of the parts it is not about. *)
Record section_ok (st st' : OperationState) (es : list effect) : Prop := {
  sec_state : state_ok st';
  sec_release : count is_release es + b2n (admission_released st) = b2n (admission_released st');
  sec_outcome : is_Some (outcome st) -> outcome st' = outcome st;
  sec_transport : transport_rank (transport st) <= transport_rank (transport st');
}.

Ltac sections :=
  repeat match goal with
    | st : OperationState |- _ => destruct st
    | r : OperationRelay |- _ => destruct r
    | H : state_ok _ |- _ => destruct H
    end;
  unfold observer_finished in *; simpl in *;
  repeat match goal with
    | ph : ObserverPhase |- _ => destruct ph
    | ph : TransportPhase |- _ => destruct ph
    end; simpl in *; try done.

Lemma release_section_ok st :
  hooks st = negb (admission_released st) -> 
  (admission_released st = true -> transport st = retired /\ observer_finished st = true) ->
  forall st' es, release_hook_locked st = (st', es) ->
  hooks st' = negb (admission_released st') /\
  admission_released st' = bool_decide (transport st = retired) && observer_finished st /\
  count is_release es + b2n (admission_released st) = b2n (admission_released st') /\
  omap enqueued_token es = [] /\ count is_wake es = 0 /\
  outcome st' = outcome st /\ abandoned_outcome st' = abandoned_outcome st /\ relay st' = relay st /\
  observer_token st' = observer_token st /\ observer st' = observer st /\ transport st' = transport st.
Proof.
  intros Hh Hr st' es. unfold release_hook_locked.
  destruct (admission_released st) eqn:Ea; cbn [orb].
  { destruct (Hr eq_refl) as [Ht Ho]. intros [= <- <-]. rewrite Ea, Ht, Ho. by split_and!. }
  destruct (bool_decide (transport st = retired)) eqn:Et; cbn [negb orb andb].
  - destruct (observer_finished st); cbn [negb]; intros [= <- <-]; cbn; rewrite ?Ea, ?Hh; by split_and!.
  - intros [= <- <-]. rewrite Ea. by split_and!.
Qed.

Lemma publish_ok r st :
  state_ok st -> section_ok st (publish r st).1.1 (publish r st).1.2 /\
  is_Some (outcome (publish r st).1.1) /\
  omap enqueued_token (publish r st).1.2 =
    (if bool_decide (outcome st = None) && bool_decide (observer st = callback_phase)
     then [observer_token st] else []) /\
  count is_wake (publish r st).1.2 = 0.
Proof.
  intros Hok. unfold publish. destruct (outcome st) as [o|] eqn:Eo.
  - rewrite bool_decide_false by done. cbn. split_and!; [|by eauto|done|done]. by split.
  - rewrite bool_decide_true by done. cbn [fst snd andb]. destruct Hok.
    destruct (so_outcome0 Eo) as (H1 & H2 & H3). split_and!; [|by eauto| |].
    + split; cbn; try done; [|by rewrite Eo; intros [? ?]].
      unfold enqueue_observer. by case_bool_decide.
    + unfold enqueue_observer. by case_bool_decide.
    + unfold enqueue_observer. by case_bool_decide.
Qed.

(** What the locked sections leave alone, besides the invariant. *)
Definition quiet (st st' : OperationState) (es : list effect) : Prop :=
  section_ok st st' es /\ count is_wake es = 0 /\
  cancellation_requested (relay st') = cancellation_requested (relay st).

Lemma finish_section_ok st F t rl :
  state_ok st -> observer_finished st = false -> F = detached \/ F = delivered ->
  rl = MkRelay (relay_hooks (relay st)) None (cancellation_requested (relay st))
         (outcome_published (relay st)) (relay_retired (relay st)) ->
  let r := release_hook_locked (set_observer F t rl st) in
  quiet st r.1 r.2 /\ observer r.1 = F /\ outcome r.1 = outcome st /\ omap enqueued_token r.2 = [] /\
  relay_token (relay r.1) = None /\ transport r.1 = transport st.
Proof.
  intros [] Hnf HF ->. cbv zeta.
  assert (admission_released st = false) as Ha by (rewrite so_released0, Hnf; apply andb_false_r).
  destruct (release_hook_locked _) as [st' es] eqn:E.
  apply release_section_ok in E as (E1 & E2 & E3 & E4 & E5 & E6 & E7 & E8 & E9 & E10 & E11);
    [|done | cbn; by rewrite Ha].
  cbn in *. assert (observer_finished (set_observer F t (MkRelay (relay_hooks (relay st)) None
     (cancellation_requested (relay st)) (outcome_published (relay st)) (relay_retired (relay st))) st)
     = true) as Hf by (unfold observer_finished; cbn; by destruct HF as [-> | ->]).
  rewrite Hf in E2. unfold quiet. rewrite E8. cbn. split_and!; try done.
  - split; try done.
    + split.
      * done.
      * rewrite E2, E11. unfold observer_finished in *. cbn in Hf. by rewrite E10, Hf.
      * rewrite E6, E7, E8, E11. cbn. done.
      * rewrite E8, E11. done.
      * rewrite E8, E10. cbn. by destruct HF as [-> | ->].
    + rewrite E11. lia.
Qed.

Lemma retire_ok st :
  state_ok st ->
  exists st' es, retire st = Some (st', es) /\ quiet st st' es /\ is_Some (outcome st') /\
    observer st' = observer st /\ observer_token st' = observer_token st /\
    omap enqueued_token es =
      (if bool_decide (outcome st = None) && bool_decide (observer st = callback_phase)
       then [observer_token st] else []) /\
    transport st' = retired.
Proof.
  intros []. unfold retire.
  set (st1 := set_relay (relay_retire (relay st)) (set_transport retired st)).
  assert (forall o a st' es, release_hook_locked (set_outcome (Some o) a st1) = (st', es) ->
    (is_Some (outcome st) -> outcome st = Some o) ->
    quiet st st' es /\ is_Some (outcome st') /\ observer st' = observer st /\
    observer_token st' = observer_token st /\ omap enqueued_token es = [] /\
    transport st' = retired) as Hrel.
  { intros o a st' es E Ho.
    apply release_section_ok in E as (E1 & E2 & E3 & E4 & E5 & E6 & E7 & E8 & E9 & E10 & E11); cbn in *.
    - unfold quiet. rewrite E6, E8. split_and!; try done.
      split; [|done | intros H; by rewrite E6, Ho | rewrite E11; destruct (transport st); cbn; lia].
      split; rewrite ?E8, ?E10, ?E11, ?E9; cbn; try done.
      + rewrite E2. unfold observer_finished. cbn. by rewrite E10.
      + by rewrite E6.
    - done.
    - intros Ha. rewrite so_released0 in Ha. apply andb_true_iff in Ha as [_ Ha]. by split. }
  change (outcome st1) with (outcome st). destruct (outcome st) as [o|] eqn:Eo.
  - destruct (release_hook_locked _) as [st' es] eqn:E.
    destruct (Hrel _ _ _ _ E) as (H1 & H2 & H3 & H4 & H5 & H6); [by intros|].
    exists st', es. split; [done|]. rewrite bool_decide_false by done. by split_and!.
  - destruct (so_outcome0 eq_refl) as (Hab & Hnr & _). change (abandoned_outcome st1) with (abandoned_outcome st).
    rewrite Hab. cbn [mbind option_bind make_abandoned_outcome assert_].
    set (st2 := set_outcome _ None st1). destruct (release_hook_locked st2) as [st' es] eqn:E.
    destruct (Hrel _ _ _ _ E) as (H1 & H2 & H3 & H4 & H5 & H6); [by intros []|].
    eexists _, _. split; [reflexivity|]. cbn [fst snd].
    assert (forall p, p NotifyAll = false -> p (EnqueueObserver (observer_token st)) = false ->
      count p (NotifyAll :: enqueue_observer st2 ++ es) = count p es) as Hcount.
    { intros p Hp1 Hp2. unfold count. cbn [List.filter]. rewrite Hp1, List.filter_app, length_app.
      unfold enqueue_observer. cbn. case_bool_decide; cbn; [by rewrite Hp2 | done]. }
    split_and!; try done.
    + destruct H1 as ([] & Hw & Hc). split; [|split; [by rewrite Hcount|done]].
      split; try done. by rewrite Hcount.
    + rewrite bool_decide_true by done. cbn [omap list_omap enqueued_token].
      rewrite omap_app, H5, app_nil_r. unfold enqueue_observer. change (observer st2) with (observer st).
      cbn [andb]. by destruct (bool_decide (observer st = callback_phase)).
Qed.

Lemma section_same st : state_ok st -> section_ok st (set_relay (relay st) st) [].
Proof. intros Hok. split; try done. by destruct Hok. Qed.

Lemma cancel_ok st :
  state_ok st ->
  exists st' es b, request_cancel st = Some (st', es, b) /\ section_ok st st' es /\
    observer st' = observer st /\ observer_token st' = observer_token st /\ outcome st' = outcome st /\
    omap enqueued_token es = [] /\ count is_wake es = b2n b /\
    (b = true -> cancellation_requested (relay st) = false /\ outcome_published (relay st) = false /\
                 transport st <> retired) /\
    b2n b + b2n (cancellation_requested (relay st)) = b2n (cancellation_requested (relay st')).
Proof.
  intros Hok. pose proof Hok as []. unfold request_cancel, relay_request_cancel.
  destruct so_retired0 as [Hr Hh].
  destruct (cancellation_requested (relay st)) eqn:Ec; cbn [orb].
  { eexists _, _, false. cbn. split; [reflexivity|]. cbn. rewrite Ec.
    split_and!; try done; by apply section_same. }
  destruct (outcome_published (relay st)) eqn:Ep; cbn [orb].
  { eexists _, _, false. cbn. split; [reflexivity|]. cbn. rewrite Ec.
    split_and!; try done; by apply section_same. }
  destruct (relay_retired (relay st)) eqn:Er; cbn [orb].
  { eexists _, _, false. cbn. split; [reflexivity|]. cbn. rewrite Ec.
    split_and!; try done; by apply section_same. }
  rewrite Hh. cbn. eexists _, _, true. split; [reflexivity|]. cbn [fst snd].
  split; [|split_and!; try done].
  - split; cbn; try done.
  - intros _. split_and!; [done | done |]. intros Ht. rewrite Ht in Hr. discriminate Hr.
Qed.

(** * The queue's part *)

Section queue_part.
Context {B : Type}.

Record q_wf (q : Queue (A := B)) : Prop := {
  qw_nodup : NoDup (q_ready q).*1;
  qw_known : forall t, t ∈ (q_ready q).*1 -> is_Some (q_callbacks q !! t);
  qw_next : forall t, is_Some (q_callbacks q !! t) -> (t < q_next q)%N;
  qw_closed : q_closed q = true -> q_callbacks q = ∅;
}.

Lemma without_elem t x (l : list (N * N)) : x ∈ (without t l).*1 <-> x <> t /\ x ∈ l.*1.
Proof.
  unfold without. rewrite !list_elem_of_fmap. setoid_rewrite list_elem_of_filter. naive_solver.
Qed.

Lemma without_nodup t (l : list (N * N)) : NoDup l.*1 -> NoDup (without t l).*1.
Proof.
  intros H. eapply sublist_NoDup; [exact H|]. apply fmap_sublist. apply sublist_filter.
Qed.

Lemma q_append_wf t q :
  q_wf q -> is_Some (q_callbacks q !! t) -> t ∉ (q_ready q).*1 -> q_wf (q_append t q).
Proof.
  intros [] Ht Hn. split; cbn; try done; rewrite fmap_app.
  - apply NoDup_app. split_and!; [done | | apply NoDup_singleton].
    intros x Hx ->%list_elem_of_singleton. done.
  - intros x [Hx| ->%list_elem_of_singleton]%elem_of_app; auto.
Qed.

(** Operations by holders of their own tokens keep the queue well formed. *)
Definition op_fits (o : op (A := B)) (q : Queue (A := B)) : Prop :=
  match o with Register t _ => (t < q_next q)%N | _ => True end.

Lemma q_exec_wf o q : q_wf q -> op_fits o q -> q_wf (q_exec o q).1 /\ (q_next q <= q_next (q_exec o q).1)%N.
Proof.
  intros Hq Hfit. pose proof Hq as [H1 H2 H3 H4]. destruct o as [t|t| |t cb|cb| |]; cbn.
  - destruct (_ && _) eqn:E; cbn; [|done]. to_props. split; [|cbn; lia]. apply q_append_wf; try done.
  - split; [|lia]. split; cbn.
    + by apply without_nodup.
    + intros x [Hne Hx]%without_elem. rewrite lookup_delete_ne by done. auto.
    + intros x [y [_ Hy]%lookup_delete_Some]. eauto.
    + intros Hc. by rewrite H4, delete_empty.
  - split; [|lia]. split; cbn; try done. intros t Ht. specialize (H3 t Ht). lia.
  - destruct (_ && _) eqn:E; cbn; [|done]. to_props. split; [|lia]. split; cbn; try done.
    + intros x Hx. destruct (decide (x = t)) as [->|Hne]; [by rewrite lookup_insert_eq|].
      rewrite lookup_insert_ne by done. auto.
    + intros x [y [[<- _]|[_ Hy]]%lookup_insert_Some]; [done | eauto].
    + congruence.
  - destruct (q_closed q) eqn:Ecl; cbn; [done|]. case_bool_decide as Hn; cbn.
    + split; [|lia]. apply q_append_wf.
      * split; cbn; try done.
        -- intros x Hx. destruct (decide (x = q_next q)) as [->|Hne]; [by rewrite lookup_insert_eq|].
           rewrite lookup_insert_ne by done. auto.
        -- intros x [y [[<- _]|[_ Hy]]%lookup_insert_Some]; [lia|].
           assert (x < q_next q)%N by eauto. lia.
      * cbn. by rewrite lookup_insert_eq.
      * cbn. intros Hin. apply H2 in Hin as [? Hin]. congruence.
    + split; [|lia]. split; cbn; try done. intros t Ht. specialize (H3 t Ht). lia.
  - split; [|lia]. by split.
  - destruct (q_closed q); cbn; [done|]. split; [|lia]. split; cbn.
    + constructor.
    + intros t Ht. by apply not_elem_of_nil in Ht.
    + intros t [x Hx]. by rewrite lookup_empty in Hx.
    + done.
Qed.

(** What they do to the token of another: nothing, or its record is gone. *)
Lemma q_exec_other o q m :
  q_wf q -> (m < q_next q)%N ->
  match o with Enqueue t | Register t _ => t <> m | _ => True end ->
  let q' := (q_exec o q).1 in
  (q_callbacks q' !! m = q_callbacks q !! m /\ (m ∈ (q_ready q').*1 <-> m ∈ (q_ready q).*1)) \/
  (q_callbacks q' !! m = None /\ m ∉ (q_ready q').*1).
Proof.
  intros [H1 H2 H3 H4] Hm Ho. destruct o as [t|t| |t cb|cb| |]; cbn; try (by left).
  - left. destruct (_ && _); cbn; [|done]. split; [done|]. rewrite fmap_app, elem_of_app. cbn.
    rewrite list_elem_of_singleton. naive_solver.
  - destruct (decide (t = m)) as [->|Hne].
    + right. rewrite lookup_delete_eq. split; [done|]. rewrite without_elem. naive_solver.
    + left. rewrite lookup_delete_ne by done. split; [done|]. rewrite without_elem. naive_solver.
  - left. destruct (_ && _); cbn; [|done]. by rewrite lookup_insert_ne.
  - left. destruct (q_closed q); cbn; [done|]. case_bool_decide; cbn; [|done].
    assert (q_next q <> m) by lia. rewrite lookup_insert_ne by done. split; [done|].
    rewrite fmap_app, elem_of_app. cbn. rewrite list_elem_of_singleton. naive_solver.
  - destruct (q_closed q); cbn; [by left|]. right. split; [apply lookup_empty | apply not_elem_of_nil].
Qed.

Lemma q_claim_spec q :
  q_wf q ->
  match q_claim q with
  | (q', None) => q' = q
  | (q', Some (t, _)) =>
      q_wf q' /\ q_next q' = q_next q /\ q_callbacks q' !! t = None /\ t ∈ (q_ready q).*1 /\
      t ∉ (q_ready q').*1 /\
      forall m, m <> t -> q_callbacks q' !! m = q_callbacks q !! m /\
                          (m ∈ (q_ready q').*1 <-> m ∈ (q_ready q).*1)
  end.
Proof.
  intros [H1 H2 H3 H4]. unfold q_claim. destruct (q_ready q) as [|[t g] l] eqn:E; [done|].
  rewrite fmap_cons in *. apply NoDup_cons in H1 as [Hn H1]. cbn [fst] in *.
  destruct (H2 t) as [cb Hcb]; [by left|]. rewrite Hcb. cbn. split_and!.
  - split; cbn; try done.
    + intros x Hx. rewrite lookup_delete_ne by congruence. apply H2. by right.
    + intros x [y [_ Hy]%lookup_delete_Some]. eauto.
    + intros Hc. by rewrite H4, delete_empty.
  - done.
  - apply lookup_delete_eq.
  - by left.
  - done.
  - intros m Hm. rewrite lookup_delete_ne by done. split; [done|]. rewrite elem_of_cons. naive_solver.
Qed.
End queue_part.

(** * The invariant of the system *)

Definition callback_of (t : N) (s : System) : Prop :=
  mine s = Some t /\ observer (state s) = callback_phase /\ observer_token (state s) = t.

Definition consumer_ok (s : System) : Prop :=
  match consumer s with
  | Holding => observer (state s) = unselected /\ mine s = None
  | BlockingSelected => observer (state s) = blocking /\ mine s = None
  | BlockingWaiting => observer (state s) = blocking_waiting /\ mine s = None
  | Leased t => callback_of t s /\ q_callbacks (queue s) !! t = None /\ subscribing s = None
  | Recorded t => callback_of t s /\ is_Some (q_callbacks (queue s) !! t)
  | Detaching t => callback_of t s /\ q_callbacks (queue s) !! t = None
  | Taking t => callback_of t s /\ q_callbacks (queue s) !! t = None /\ is_Some (outcome (state s))
  | Over => observer_finished (state s) = true /\
            forall m, mine s = Some m -> q_callbacks (queue s) !! m = None
  end.

(** The phase the operation is in while its owner stands there. *)
Definition owner_phase (o : Owner) : TransportPhase :=
  match o with
  | OwnerSubmits => queued | OwnerListed => dispatching_ | OwnerRuns => active
  | OwnerWindsUp => retiring | OwnerRetired => retired
  end.

Record sys_ok (s : System) : Prop := {
  sy_state : state_ok (state s);
  sy_queue : q_wf (queue s);
  sy_mine : forall m, mine s = Some m -> (m < q_next (queue s))%N;
  sy_consumer : consumer_ok s;
  sy_sub : forall t, subscribing s = Some t -> mine s = Some t;
  sy_ready : forall m, mine s = Some m -> m ∈ (q_ready (queue s)).*1 -> is_Some (outcome (state s));
  sy_enqueue : forall t, t ∈ pending_enqueues s -> mine s = Some t /\ is_Some (outcome (state s));
  sy_found : forall t, consumer s = Recorded t -> subscribing s = None ->
    is_Some (outcome (state s)) -> t ∈ (q_ready (queue s)).*1 \/ t ∈ pending_enqueues s;
  sy_owner : transport (state s) = owner_phase (owner s);
  sy_release : releases s + pending_releases s = b2n (admission_released (state s));
  sy_cancel : accepted s = b2n (cancellation_requested (relay (state s))) /\
    wakes s + pending_wakes s = accepted s;
  sy_deliveries : match deliveries s with
    | [] => observer (state s) <> delivered
    | [r] => observer (state s) = delivered /\ outcome (state s) = Some r
    | _ => False
    end;
}.

Lemma new_system_ok : sys_ok new_system.
Proof.
  split; cbn; try done; try lia.
  - split; cbn; try constructor.
    + intros t Ht. by apply not_elem_of_nil in Ht.
    + intros t [x Hx]. by rewrite lookup_empty in Hx.
  - intros t Hin. by apply not_elem_of_nil in Hin.
Qed.

(** A section of the state that leaves the observer where it is. *)
Lemma sys_state_action s st es b o :
  sys_ok s -> section_ok (state s) st es ->
  observer st = observer (state s) -> observer_token st = observer_token (state s) ->
  omap enqueued_token es =
    (if bool_decide (outcome (state s) = None) && bool_decide (is_Some (outcome st)) &&
        bool_decide (observer (state s) = callback_phase) then [observer_token (state s)] else []) ->
  count is_wake es = b2n b ->
  b2n b + b2n (cancellation_requested (relay (state s))) = b2n (cancellation_requested (relay st)) ->
  transport st = owner_phase o ->
  sys_ok (set_owner o (count_accepted b (with_effects st es s))).
Proof.
  intros [] [] Ho Ht He Hw Hc Hph.
  assert (is_Some (outcome (state s)) -> is_Some (outcome st)) as Hout.
  { intros Hs. by rewrite sec_outcome0. }
  split; cbn; try done.
  - unfold consumer_ok, callback_of, observer_finished in *. cbn. rewrite Ho, Ht.
    destruct (consumer s); naive_solver.
  - intros m Hm Hin. eauto.
  - intros t [Hin|Hin]%elem_of_app; [naive_solver|]. rewrite He in Hin.
    destruct (_ && _) eqn:E; [|by apply not_elem_of_nil in Hin]. to_props.
    apply list_elem_of_singleton in Hin as ->. split; [|done].
    unfold consumer_ok, callback_of, observer_finished in sy_consumer0.
    match goal with H : observer (state s) = callback_phase |- _ => rewrite H in sy_consumer0 end.
    destruct (consumer s); naive_solver.
  - intros t Hcon Hsub Hs. rewrite elem_of_app. destruct (outcome (state s)) as [r|] eqn:Eo.
    + destruct (sy_found0 t Hcon Hsub) as [?|?]; [eauto | by left | right; by left].
    + right. right. rewrite He. unfold consumer_ok in sy_consumer0. rewrite Hcon in sy_consumer0.
      destruct sy_consumer0 as ((_ & Hcb & <-) & _). rewrite Hcb, !bool_decide_true by done. by left.
  - lia.
  - destruct sy_cancel0 as [H1 H2]. destruct b; cbn in *; lia.
  - rewrite Ho. destruct (deliveries s) as [|r [|]]; try done. destruct sy_deliveries0 as [H1 H2].
    split; [done|]. rewrite sec_outcome0 by eauto. done.
Qed.

(** The section that ends the observing side. *)
Lemma sys_finish_action s st es :
  sys_ok s -> quiet (state s) st es -> observer_finished (state s) = false ->
  outcome st = outcome (state s) -> omap enqueued_token es = [] -> transport st = transport (state s) ->
  (forall m, mine s = Some m -> q_callbacks (queue s) !! m = None) ->
  (observer st = detached -> sys_ok (set_consumer Over (with_effects st es s))) /\
  (observer st = delivered -> forall r, outcome st = Some r ->
     sys_ok (deliver r (set_consumer Over (with_effects st es s)))).
Proof.
  intros [] ([] & Hw & Hc) Hnf Hout He Hph Hm.
  assert (deliveries s = []) as Hd.
  { destruct (deliveries s) as [|r [|]]; [done | | done]. destruct sy_deliveries0 as [H1 _].
    unfold observer_finished in Hnf. by rewrite H1 in Hnf. }
  split; intros Ho; try intros r Hr; split; cbn; try done;
    rewrite ?He, ?Hw, ?Hc, ?Hout, ?Hph, ?Nat.add_0_r, ?app_nil_r, ?Hd; try done; try lia.
  - unfold consumer_ok, observer_finished. cbn. by rewrite Ho.
  - by rewrite Ho.
  - unfold consumer_ok, observer_finished. cbn. by rewrite Ho, orb_true_r.
  - split; [done|]. by rewrite <-Hout.
Qed.

Lemma consumer_not_finished s :
  sys_ok s -> consumer s <> Over -> observer_finished (state s) = false.
Proof.
  intros [] Hc. unfold consumer_ok, callback_of in sy_consumer0. unfold observer_finished.
  destruct (consumer s); try done; destruct_and?; 
    repeat match goal with H : observer (state s) = _ |- _ => rewrite H; clear H end; done.
Qed.

(** * Every enabled action succeeds and keeps the invariant *)

Definition safe (a : action) (s : System) : Prop := exists s', act a s = Some s' /\ sys_ok s'.

Lemma count_accepted_false s : count_accepted false s = s.
Proof. by destruct s. Qed.

Lemma set_owner_same s : set_owner (owner s) s = s.
Proof. by destruct s. Qed.

(** A section after which the owner stands where it stood. *)
Lemma sys_state_still s st es b :
  sys_ok s -> section_ok (state s) st es ->
  observer st = observer (state s) -> observer_token st = observer_token (state s) ->
  omap enqueued_token es =
    (if bool_decide (outcome (state s) = None) && bool_decide (is_Some (outcome st)) &&
        bool_decide (observer (state s) = callback_phase) then [observer_token (state s)] else []) ->
  count is_wake es = b2n b ->
  b2n b + b2n (cancellation_requested (relay (state s))) = b2n (cancellation_requested (relay st)) ->
  transport st = transport (state s) ->
  sys_ok (count_accepted b (with_effects st es s)).
Proof.
  intros Hok Hsec Ho Ht He Hw Hc Hph. rewrite <-(set_owner_same (count_accepted _ _)).
  apply sys_state_action; try done. rewrite Hph. apply Hok.
Qed.

Lemma publish_safe r s : sys_ok s -> safe (Publish r) s.
Proof.
  intros Hok. unfold safe. cbn. eexists; split; [reflexivity|].
  destruct (publish_ok r (state s) (sy_state _ Hok)) as (Hsec & Hout & He & Hw).
  rewrite <-(count_accepted_false (with_effects _ _ _)).
  apply sys_state_still; try done.
  - unfold publish. by destruct (outcome (state s)).
  - unfold publish. by destruct (outcome (state s)).
  - rewrite He, (bool_decide_true (is_Some _)), andb_true_r by done. done.
  - unfold publish. by destruct (outcome (state s)).
  - unfold publish. by destruct (outcome (state s)).
Qed.

(** The owner moves on, to a later place that is not the last. *)
Lemma advance_safe s o :
  sys_ok s -> transport_rank (owner_phase (owner s)) <= transport_rank (owner_phase o) -> o <> OwnerRetired ->
  exists st, advance_transport (owner_phase o) (state s) = Some st /\
             sys_ok (set_owner o (with_effects st [] s)).
Proof.
  intros Hok Hle Hlast. unfold advance_transport. rewrite (sy_owner _ Hok), (proj2 (Nat.leb_le _ _) Hle).
  cbn. eexists; split; [reflexivity|].
  rewrite <-(count_accepted_false (with_effects _ _ _)).
  assert (owner_phase o <> retired) as Hph by by destruct o.
  assert (transport (state s) <> retired) as Hnr.
  { rewrite (sy_owner _ Hok). destruct (owner s), o; cbn in *; done || lia. }
  pose proof (sy_state _ Hok) as []. apply sys_state_action; cbn; try done.
  - split; cbn; try done.
    + split; cbn; try done.
      * rewrite so_released0, !bool_decide_false by done. done.
      * naive_solver.
      * rewrite !bool_decide_false in * by done. done.
    + by rewrite (sy_owner _ Hok).
  - destruct (outcome (state s)); by rewrite ?(bool_decide_false (_ = None)), ?(bool_decide_false (is_Some None)) by (done || by intros []).
Qed.

(** The three marks are the owner's next step. *)
Lemma mark_safe a s o :
  sys_ok s -> enabled a s = true ->
  (a, o) ∈ [(MarkDispatching, OwnerListed); (MarkActive, OwnerRuns); (BeginRetirement, OwnerWindsUp)] ->
  safe a s.
Proof.
  intros Hok Hen Hin. destruct (advance_safe s o Hok) as (st & E & Hst).
  - rewrite !elem_of_cons in Hin. destruct Hin as [[= -> ->]|[[= -> ->]|[[= -> ->]|Hin%not_elem_of_nil]]];
      cbn in Hen; destruct (owner s); try done; cbn; lia.
  - intros ->. by rewrite !elem_of_cons, elem_of_nil in Hin; naive_solver.
  - exists (set_owner o (with_effects st [] s)). split; [|done].
    rewrite !elem_of_cons in Hin. destruct Hin as [[= -> ->]|[[= -> ->]|[[= -> ->]|Hin%not_elem_of_nil]]];
      cbn in *; unfold mark_dispatching, mark_active, begin_retirement; by rewrite ?E.
Qed.

Lemma retire_safe s : sys_ok s -> safe Retire s.
Proof.
  intros Hok. unfold safe. cbn.
  destruct (retire_ok _ (sy_state _ Hok)) as (st & es & E & (Hsec & Hw & Hc) & Hout & Ho & Ht & He & Hph).
  rewrite E. cbn. eexists; split; [reflexivity|].
  rewrite <-(count_accepted_false (with_effects _ _ _)). apply sys_state_action; try done.
  - rewrite He, (bool_decide_true (is_Some _)), andb_true_r by done. done.
  - by rewrite Hc.
Qed.

Lemma cancel_safe s : sys_ok s -> safe Cancel s.
Proof.
  intros Hok. unfold safe. cbn.
  destruct (cancel_ok _ (sy_state _ Hok)) as (st & es & b & E & Hsec & Ho & Ht & Hout & He & Hw & _ & Hc).
  rewrite E. cbn. eexists; split; [reflexivity|]. apply sys_state_still; try done.
  - rewrite He, Hout. destruct (outcome (state s)).
    + by rewrite bool_decide_false.
    + by rewrite (bool_decide_false (is_Some None)), andb_false_r by (by intros []).
  - revert E. unfold request_cancel. destruct (relay_request_cancel _); [|done]. by intros [= <- _ _].
Qed.

Lemma no_mine s : sys_ok s -> mine s = None -> forall m, mine s = Some m -> q_callbacks (queue s) !! m = None.
Proof. intros _ E m. by rewrite E. Qed.

Lemma drop_safe s : sys_ok s -> enabled DropOperation s = true -> safe DropOperation s.
Proof.
  intros Hok Hen. cbn in Hen. destruct (consumer s) eqn:Ec; try done.
  pose proof (sy_consumer _ Hok) as Hcon. unfold consumer_ok in Hcon. rewrite Ec in Hcon.
  destruct Hcon as [Ho Hm]. unfold safe. cbn. unfold detach_unselected. rewrite bool_decide_true by done.
  eexists; split; [reflexivity|].
  destruct (finish_section_ok (state s) detached (observer_token (state s)) (relay (state s)) (sy_state _ Hok))
    as (Hq & Hobs & Hout & He & _ & Hph); [apply consumer_not_finished; [done | by rewrite Ec] | by left | |].
  { pose proof (so_token _ (sy_state _ Hok)) as Htok. rewrite bool_decide_false in Htok by by rewrite Ho.
    rewrite <-Htok. by destruct (relay (state s)). }
  apply (sys_finish_action s _ _ Hok Hq); try done; [apply consumer_not_finished; [done | by rewrite Ec]|].
  by apply no_mine.
Qed.

Lemma observer_change s o c :
  sys_ok s -> consumer s <> Over -> o = blocking \/ o = blocking_waiting -> observer (state s) <> callback_phase ->
  mine s = None ->
  c = (if bool_decide (o = blocking) then BlockingSelected else BlockingWaiting) ->
  sys_ok (set_consumer c
    (with_effects (set_observer o (observer_token (state s)) (relay (state s)) (state s)) [] s)).
Proof.
  intros Hok Hcs Ho Hncb Hm ->. pose proof (consumer_not_finished s Hok Hcs) as Hnf. destruct Hok.
  destruct sy_state0. split; cbn; rewrite ?Nat.add_0_r, ?app_nil_r; try done.
  - split; cbn; try done.
    + rewrite so_released0, Hnf. unfold observer_finished. cbn. by destruct Ho as [-> | ->].
    + rewrite so_token0, bool_decide_false by done. by destruct Ho as [-> | ->].
  - unfold consumer_ok. cbn. by destruct Ho as [-> | ->].
  - intros t. by destruct Ho as [-> | ->].
  - destruct (deliveries s) as [|r [|]]; try done; [by destruct Ho as [-> | ->]|].
    destruct sy_deliveries0 as [H1 _]. unfold observer_finished in Hnf. by rewrite H1 in Hnf.
Qed.

Lemma sync_wait_safe s : sys_ok s -> enabled SyncWait s = true -> safe SyncWait s.
Proof.
  intros Hok Hen. cbn in Hen. destruct (consumer s) eqn:Ec; try done.
  pose proof (sy_consumer _ Hok) as Hcon. unfold consumer_ok in Hcon. rewrite Ec in Hcon.
  destruct Hcon as [Ho Hm]. unfold safe. cbn. unfold select_blocking. rewrite bool_decide_true by done.
  cbn [assert_ mbind option_bind]. eexists; split; [reflexivity|].
  apply observer_change; try done; [by rewrite Ec | by left | by rewrite Ho].
Qed.

Lemma begin_wait_safe s : sys_ok s -> enabled BeginWait s = true -> safe BeginWait s.
Proof.
  intros Hok Hen. cbn in Hen. destruct (consumer s) eqn:Ec; try done.
  pose proof (sy_consumer _ Hok) as Hcon. unfold consumer_ok in Hcon. rewrite Ec in Hcon.
  destruct Hcon as [Ho Hm]. unfold safe. cbn. unfold begin_wait. rewrite bool_decide_true by done.
  cbn [assert_ mbind option_bind]. eexists; split; [reflexivity|].
  apply observer_change; try done; [by rewrite Ec | by right | by rewrite Ho].
Qed.

Lemma finish_wait_safe s : sys_ok s -> enabled FinishWait s = true -> safe FinishWait s.
Proof.
  intros Hok Hen. cbn in Hen. destruct (consumer s) eqn:Ec; try done.
  apply bool_decide_eq_true in Hen as [r Hr].
  pose proof (sy_consumer _ Hok) as Hcon. unfold consumer_ok in Hcon. rewrite Ec in Hcon.
  destruct Hcon as [Ho Hm]. unfold safe. cbn. unfold finish_wait. rewrite bool_decide_true by done.
  cbn [assert_ mbind option_bind].
  assert (observer_finished (state s) = false) as Hnf
    by (apply consumer_not_finished; [done | by rewrite Ec]).
  destruct (finish_section_ok (state s) delivered (observer_token (state s)) (relay (state s)) (sy_state _ Hok))
    as (Hq & Hobs & Hout & He & _ & Hph); [done | by right | |].
  { pose proof (so_token _ (sy_state _ Hok)) as Htok. rewrite bool_decide_false in Htok by by rewrite Ho.
    rewrite <-Htok. by destruct (relay (state s)). }
  rewrite Hout, Hr. cbn. eexists; split; [reflexivity|].
  apply (sys_finish_action s _ _ Hok Hq); try done; [by apply no_mine | congruence].
Qed.

(** The callback side ends: its record is destroyed, or it runs. *)
Lemma callback_finish s t F :
  sys_ok s -> callback_of t s -> consumer s <> Over -> F = detached \/ F = delivered ->
  let r := release_hook_locked (set_observer F 0 (finish_callback t (relay (state s))) (state s)) in
  quiet (state s) r.1 r.2 /\ observer r.1 = F /\ outcome r.1 = outcome (state s) /\
  omap enqueued_token r.2 = [] /\ observer_finished (state s) = false /\
  transport r.1 = transport (state s).
Proof.
  intros Hok (Hm & Ho & Ht) Hc HF. cbv zeta.
  assert (observer_finished (state s) = false) as Hnf by by apply consumer_not_finished.
  destruct (finish_section_ok (state s) F 0 (finish_callback t (relay (state s))) (sy_state _ Hok) Hnf HF)
    as (Hq & Hobs & Hout & He & _ & Hph); [|by split_and!].
  pose proof (so_token _ (sy_state _ Hok)) as Htok. rewrite Ho, bool_decide_true in Htok by done.
  unfold finish_callback. rewrite Htok, Ht. by rewrite bool_decide_true.
Qed.

Lemma destroy_safe s : sys_ok s -> enabled DestroyRecord s = true -> safe DestroyRecord s.
Proof.
  intros Hok Hen. cbn in Hen. destruct (consumer s) as [| | | | |t| |] eqn:Ec; try done.
  pose proof (sy_consumer _ Hok) as Hcon. unfold consumer_ok in Hcon. rewrite Ec in Hcon.
  destruct Hcon as [Hcb Hnone]. unfold safe. cbn. rewrite Ec. eexists; split; [reflexivity|].
  unfold detach_callback. pose proof Hcb as (Hm & Ho & Ht). rewrite Ho, Ht, !bool_decide_true by done. cbn [negb orb].
  destruct (callback_finish s t detached Hok Hcb) as (Hq & Hobs & Hout & He & Hnf & Hph); [by rewrite Ec | by left |].
  apply (sys_finish_action s _ _ Hok Hq); try done. intros m Hm'. congruence.
Qed.

Lemma run_callback_safe s : sys_ok s -> enabled RunCallback s = true -> safe RunCallback s.
Proof.
  intros Hok Hen. cbn in Hen. destruct (consumer s) as [| | | | | |t|] eqn:Ec; try done.
  pose proof (sy_consumer _ Hok) as Hcon. unfold consumer_ok in Hcon. rewrite Ec in Hcon.
  destruct Hcon as (Hcb & Hnone & [r Hr]). unfold safe. cbn. rewrite Ec. unfold take_callback.
  pose proof Hcb as (Hm & Ho & Ht). rewrite Hr, Ho, Ht, !bool_decide_true by done.
  cbn [assert_ mbind option_bind].
  destruct (callback_finish s t delivered Hok Hcb) as (Hq & Hobs & Hout & He & Hnf & Hph); [by rewrite Ec | by right |].
  rewrite Hout, Hr. cbn. eexists; split; [reflexivity|].
  apply (sys_finish_action s _ _ Hok Hq); try done; [|congruence]. intros m Hm'. congruence.
Qed.

Lemma release_safe s : sys_ok s -> enabled DoRelease s = true -> safe DoRelease s.
Proof.
  intros Hok Hen%Nat.ltb_lt. unfold safe. cbn. eexists; split; [reflexivity|].
  destruct Hok. split; cbn; try done. lia.
Qed.

Lemma wake_safe s : sys_ok s -> enabled DoWake s = true -> safe DoWake s.
Proof.
  intros Hok Hen%Nat.ltb_lt. unfold safe. cbn. eexists; split; [reflexivity|].
  destruct Hok. split; cbn; try done. lia.
Qed.

Lemma check_safe s : sys_ok s -> enabled CheckOutcome s = true -> safe CheckOutcome s.
Proof.
  intros Hok Hen. cbn in Hen. apply bool_decide_eq_true in Hen as [token Esub].
  unfold safe. cbn. rewrite Esub. cbn. eexists; split; [reflexivity|].
  destruct Hok. split; cbn; try done.
  - unfold consumer_ok in *. cbn. destruct (consumer s); try done. by destruct sy_consumer0 as (? & ? & ?).
  - intros t [Hin|Hin]%elem_of_app; [by apply sy_enqueue0|].
    destruct (outcome (state s)); [|by apply not_elem_of_nil in Hin].
    apply list_elem_of_singleton in Hin as ->. eauto.
  - intros t Hc _ [r Hr]. rewrite Hr, elem_of_app. right. right.
    unfold consumer_ok, callback_of in sy_consumer0. rewrite Hc in sy_consumer0.
    destruct sy_consumer0 as ((Hm & _) & _). specialize (sy_sub0 _ Esub). apply list_elem_of_singleton. congruence.
Qed.

(** A change of the queue that the consumer's place allows. *)
Lemma sys_queue_change s q c :
  sys_ok s -> q_wf q -> (q_next (queue s) <= q_next q)%N ->
  (forall m, mine s = Some m -> m ∈ (q_ready q).*1 ->
     m ∈ (q_ready (queue s)).*1 \/ is_Some (outcome (state s))) ->
  consumer_ok (set_consumer c (set_queue q s)) ->
  (forall t, c = Recorded t -> consumer s = Recorded t /\
     (t ∈ (q_ready (queue s)).*1 -> t ∈ (q_ready q).*1)) ->
  sys_ok (set_consumer c (set_queue q s)).
Proof.
  intros [] Hq Hnext Hready Hcon Hrec. split; cbn; try done.
  - intros m Hm. specialize (sy_mine0 m Hm). lia.
  - intros m Hm Hin. destruct (Hready m Hm Hin); eauto.
  - intros t -> Hsub Hout. destruct (Hrec t eq_refl) as [Hc Hkeep].
    destruct (sy_found0 t Hc Hsub Hout); [left; auto | by right].
Qed.

Lemma set_consumer_same s q : set_queue q s = set_consumer (consumer s) (set_queue q s).
Proof. done. Qed.

Lemma consumer_mine s t :
  consumer_ok s -> match consumer s with Leased x | Recorded x | Detaching x | Taking x => x = t | _ => False end ->
  mine s = Some t.
Proof. unfold consumer_ok, callback_of. destruct (consumer s); naive_solver. Qed.

(** What others do to the queue leaves this operation's record, or takes it away. *)
Lemma other_queue_ok s q :
  sys_ok s -> q_wf q -> (q_next (queue s) <= q_next q)%N ->
  (forall m, mine s = Some m ->
     (q_callbacks q !! m = q_callbacks (queue s) !! m /\
      (m ∈ (q_ready q).*1 <-> m ∈ (q_ready (queue s)).*1)) \/
     (q_callbacks q !! m = None /\ m ∉ (q_ready q).*1)) ->
  sys_ok (lose_record q s).
Proof.
  intros Hok Hq Hnext Hm. pose proof (sy_consumer _ Hok) as Hcon.
  assert (forall c, consumer_ok (set_consumer c (set_queue q s)) ->
    (forall t, c = Recorded t -> consumer s = Recorded t /\ is_Some (q_callbacks q !! t)) ->
    sys_ok (set_consumer c (set_queue q s))) as Hchange.
  { intros c Hc Hrec. apply sys_queue_change; try done.
    - intros m Hmine Hin. left. destruct (Hm m Hmine) as [[_ H]|[_ H]]; [by apply H | done].
    - intros t Ht. destruct (Hrec t Ht) as [Hcs Hsome]. split; [done|]. intros Hin.
      assert (mine s = Some t) as Hmine by (apply consumer_mine; [done | by rewrite Hcs]).
      destruct (Hm t Hmine) as [[_ H]|[Hnone _]]; [by apply H |]. rewrite Hnone in Hsome. by destruct Hsome. }
  assert (forall t, mine s = Some t -> q_callbacks (queue s) !! t = None -> q_callbacks q !! t = None) as Hgone.
  { intros t Hmine Hn. destruct (Hm t Hmine) as [[H _]|[H _]]; congruence. }
  unfold lose_record. unfold consumer_ok, callback_of in Hcon. destruct (consumer s) as [| | |t|t|t|t|] eqn:Ec;
    try (rewrite set_consumer_same, Ec; apply Hchange; [|done]; unfold consumer_ok, callback_of; cbn).
  - done.
  - done.
  - done.
  - destruct Hcon as (Hcb & Hn & Hsub). split_and!; try apply Hcb; try done. by apply Hgone; [apply Hcb|].
  - destruct Hcon as [Hcb Hsome]. case_bool_decide as Hb.
    + rewrite set_consumer_same, Ec. apply Hchange; [by split|]. intros t' [= <-]. by split.
    + apply Hchange; [|done]. split; [done|]. cbn. by apply eq_None_not_Some.
  - destruct Hcon as (Hcb & Hn). split; [done|]. by apply Hgone; [apply Hcb|].
  - destruct Hcon as (Hcb & Hn & Hout). split_and!; try apply Hcb; try done. by apply Hgone; [apply Hcb|].
  - destruct Hcon as [Hf Hn]. split; [done|]. intros m Hmine. apply Hgone; auto.
Qed.

Lemma queue_op_safe o s : sys_ok s -> enabled (QueueOp o) s = true -> safe (QueueOp o) s.
Proof.
  intros Hok Hen. unfold safe. cbn [act]. eexists; split; [reflexivity|].
  assert (op_fits o (queue s) /\ forall m, mine s = Some m ->
    match o with Enqueue t | Register t _ => t <> m | _ => True end) as [Hfit Hother].
  { cbn in Hen. destruct o; try done; to_props; (split; [done|]); intros m Hm ->; done. }
  destruct (q_exec_wf o (queue s) (sy_queue _ Hok) Hfit) as [Hq Hnext].
  apply other_queue_ok; try done. intros m Hm.
  apply q_exec_other; [apply Hok | by apply (sy_mine _ Hok) | by apply Hother].
Qed.

Lemma claim_safe s : sys_ok s -> safe Claim s.
Proof.
  intros Hok. unfold safe. cbn [act]. pose proof (q_claim_spec (queue s) (sy_queue _ Hok)) as Hspec.
  pose proof (sy_consumer _ Hok) as Hcon.
  destruct (q_claim (queue s)) as [q [[t cb]|]].
  2: { subst q. assert (set_queue (queue s) s = s) as E by by destruct s.
       destruct (consumer s); rewrite E; by eexists. }
  destruct Hspec as (Hq & Hnext & Hgone & Hin & Hnin & Hother).
  assert (mine s <> Some t -> sys_ok (lose_record q s)) as Hforeign.
  { intros Hne. apply other_queue_ok; try done; [lia|]. intros m Hm. left. apply Hother. congruence. }
  assert (forall x, consumer s = Recorded x -> x <> t -> q_callbacks q !! x = q_callbacks (queue s) !! x)
    as Hkeep by (intros x _ Hx; by apply Hother).
  assert ((forall x, consumer s <> Recorded x) -> lose_record q s = set_queue q s) as Hlose.
  { intros H. unfold lose_record. destruct (consumer s); try done. by destruct (H token). }
  destruct (decide (mine s = Some t)) as [Hmine|Hne].
  - destruct (sy_queue _ Hok) as [_ Hknown _ _]. specialize (Hknown t Hin).
    unfold consumer_ok, callback_of in Hcon.
    assert (forall x, q_callbacks (queue s) !! x = None -> mine s = Some x -> False) as Habs.
    { intros x Hn Hx. assert (x = t) as -> by congruence. rewrite Hn in Hknown. by destruct Hknown. }
    destruct (consumer s) as [| | |x|x|x|x|] eqn:Ec.
    + destruct Hcon. congruence.
    + destruct Hcon. congruence.
    + destruct Hcon. congruence.
    + destruct Hcon as ((Hm & _) & Hn & _). by destruct (Habs x).
    + destruct Hcon as (Hcb & _). assert (x = t) as -> by (destruct Hcb; congruence).
      rewrite bool_decide_true by done. eexists; split; [reflexivity|].
      apply sys_queue_change; try done; [lia | |].
      * intros m Hm Hin'. destruct (decide (m = t)) as [->|Hne]; [done|].
        left. by apply (Hother m Hne).
      * unfold consumer_ok, callback_of. cbn. split_and!; try apply Hcb; try done.
        by apply (sy_ready _ Hok t).
    + destruct Hcon as ((Hm & _) & Hn). by destruct (Habs x).
    + destruct Hcon as ((Hm & _) & Hn & _). by destruct (Habs x).
    + destruct Hcon as [_ Hn]. destruct (Habs t); auto.
  - specialize (Hforeign Hne).
    destruct (consumer s) as [| | |x|x|x|x|] eqn:Ec;
      try (rewrite Hlose in Hforeign by congruence; by eexists).
    unfold consumer_ok, callback_of in Hcon. rewrite Ec in Hcon. destruct Hcon as ((Hm & _) & Hsome).
    assert (t <> x) as Hx by congruence. rewrite bool_decide_false by done.
    eexists; split; [reflexivity|]. unfold lose_record in Hforeign. rewrite Ec in Hforeign.
    rewrite bool_decide_true in Hforeign by (rewrite (proj1 (Hother x (not_eq_sym Hx))); done). done.
Qed.

Lemma append_ready {B} t (q : Queue (A := B)) : (q_ready (q_append t q)).*1 = (q_ready q).*1 ++ [t].
Proof. unfold q_append. cbn [q_ready q_with]. by rewrite fmap_app. Qed.

Lemma q_enqueue_cases {B} t (q : Queue (A := B)) :
  (q_exec (Enqueue t) q).1 = q_append t q \/
  (q_exec (Enqueue t) q).1 = q /\
    (q_closed q = true \/ q_callbacks q !! t = None \/ t ∈ (q_ready q).*1).
Proof.
  cbn [q_exec]. destruct (negb (q_closed q) && _ && _) eqn:E; [by left|]. right. split; [done|].
  destruct (q_closed q); [by left|]. cbn [negb andb] in E. right.
  apply andb_false_iff in E as [E|E]; apply bool_decide_eq_false in E.
  - left. by apply eq_None_not_Some.
  - right. by apply dec_stable.
Qed.

Lemma remove_one_subset t x l : x ∈ remove_one t l -> x ∈ l.
Proof.
  induction l as [|y l IH]; [done|]. cbn. case_bool_decide; [by right|]. rewrite !elem_of_cons. naive_solver.
Qed.

(** Enqueueing what is about to be enqueued: the token is this operation's, and after it
    a record that is still in the queue is ready. *)
Lemma enqueue_safe t s : sys_ok s -> enabled (DoEnqueue t) s = true -> safe (DoEnqueue t) s.
Proof.
  intros Hok Hen. cbn in Hen. apply bool_decide_eq_true in Hen. unfold safe. cbn [act].
  destruct (sy_enqueue _ Hok t Hen) as [Hm Hout].
  set (s1 := set_pending _ _ _ s). change (queue s1) with (queue s).
  destruct (q_exec_wf (Enqueue t) (queue s) (sy_queue _ Hok) I) as [Hq _].
  eexists; split; [reflexivity|].
  assert (forall q, q_wf q -> q_next q = q_next (queue s) -> q_callbacks q = q_callbacks (queue s) ->
    (forall x, consumer s = Recorded x -> x ∈ (q_ready q).*1) -> sys_ok (set_queue q s1)) as Hgo.
  { intros q Hq' Hnext Hcb Hrec. destruct Hok. split; cbn; try done.
    - by rewrite Hnext.
    - unfold consumer_ok, callback_of in *. cbn. rewrite Hcb. done.
    - intros x Hin%remove_one_subset. by apply sy_enqueue0.
    - intros x Hc _ _. left. by apply Hrec. }
  assert (forall x, consumer s = Recorded x -> x = t /\ is_Some (q_callbacks (queue s) !! t) /\
    q_closed (queue s) = false) as Hmine.
  { intros x Hc. pose proof (sy_consumer _ Hok) as Hcon. unfold consumer_ok, callback_of in Hcon.
    rewrite Hc in Hcon. destruct Hcon as ((Hm' & _) & Hsome).
    assert (x = t) as -> by congruence. split_and!; try done.
    apply not_true_iff_false. intros Hcl.
    rewrite (qw_closed _ (sy_queue _ Hok) Hcl), lookup_empty in Hsome. by destruct Hsome. }
  destruct (q_enqueue_cases t (queue s)) as [E|[E Hwhy]]; rewrite E in *.
  - apply Hgo; try done. intros x Hc. destruct (Hmine x Hc) as (-> & _).
    rewrite append_ready. apply elem_of_app. right. by left.
  - apply Hgo; try done. intros x Hc. destruct (Hmine x Hc) as (-> & Hsome & Hopen).
    destruct Hwhy as [Hcl|[Hn|Hin]]; [congruence | | done]. rewrite Hn in Hsome. by destruct Hsome.
Qed.

Lemma subscribe_safe s : sys_ok s -> enabled Subscribe s = true -> safe Subscribe s.
Proof.
  intros Hok Hen. cbn in Hen. destruct (consumer s) eqn:Ec; try done.
  pose proof (sy_consumer _ Hok) as Hcon. unfold consumer_ok in Hcon. rewrite Ec in Hcon.
  destruct Hcon as [Ho Hm].
  assert (observer_finished (state s) = false) as Hnf
    by (apply consumer_not_finished; [done | by rewrite Ec]).
  set (t := q_next (queue s)).
  destruct (q_exec_wf NextToken (queue s) (sy_queue _ Hok) I) as [Hq Hnext].
  pose proof Hok as []. pose proof sy_state0 as []. rewrite Ho, bool_decide_false in so_token0 by done.
  unfold safe. cbn [act]. fold t. unfold select_callback, relay_select_callback.
  rewrite Ho, so_token0. rewrite (bool_decide_true (unselected = unselected)) by done.
  rewrite (bool_decide_false (is_Some None)) by (by intros []).
  cbn [assert_ negb mbind option_bind]. eexists; split; [reflexivity|].
  assert (q_callbacks (queue s) !! t = None) as Hfresh.
  { apply eq_None_not_Some. intros Hsome%(qw_next _ sy_queue0). subst t. lia. }
  split; cbn; rewrite ?Nat.add_0_r, ?app_nil_r; try done.
  - split; cbn; try done. by rewrite so_released0, Hnf.
  - intros m [= <-]. subst t. lia.
  - intros m [= <-] Hin. apply (qw_known _ sy_queue0) in Hin. rewrite Hfresh in Hin. by destruct Hin.
  - intros x [Hx _]%sy_enqueue0. congruence.
  - destruct (deliveries s) as [|r [|]]; try done. destruct sy_deliveries0. congruence.
Qed.

Lemma register_safe s : sys_ok s -> enabled RegisterRecord s = true -> safe RegisterRecord s.
Proof.
  intros Hok Hen. cbn in Hen. destruct (consumer s) as [| | |t| | | |] eqn:Ec; try done.
  pose proof (sy_consumer _ Hok) as Hcon. unfold consumer_ok in Hcon. rewrite Ec in Hcon.
  destruct Hcon as (Hcb & Hnone & Hsub). pose proof Hcb as (Hm & Ho & Ht).
  pose proof (sy_mine _ Hok t Hm) as Hlt.
  destruct (q_exec_wf (Register t tt) (queue s) (sy_queue _ Hok) Hlt) as [Hq Hnext].
  unfold safe. cbn [act]. rewrite Ec. cbn [q_exec] in *.
  rewrite (bool_decide_true (q_callbacks (queue s) !! t = None)), andb_true_r in * by done.
  destruct (q_closed (queue s)) eqn:Ecl; cbn [negb fst] in *.
  - eexists; split; [reflexivity|]. apply sys_queue_change; try done; by left.
  - eexists; split; [reflexivity|]. pose proof Hok as []. split; cbn; try done.
    + unfold consumer_ok, callback_of. cbn. split; [done|]. rewrite lookup_insert_eq. eauto.
    + intros x [= <-]. done.
Qed.

Lemma act_safe a s : sys_ok s -> enabled a s = true -> safe a s.
Proof.
  intros Hok Hen. destruct a;
    try (eapply (mark_safe _ s _ Hok Hen); rewrite !elem_of_cons; naive_solver);
    eauto using publish_safe, retire_safe, cancel_safe,
    drop_safe, sync_wait_safe, begin_wait_safe, finish_wait_safe, subscribe_safe, register_safe,
    check_safe, queue_op_safe, claim_safe, enqueue_safe, release_safe, wake_safe, destroy_safe,
    run_callback_safe.
Qed.

Lemma reachable_sys_ok s : reachable s -> sys_ok s.
Proof.
  induction 1 as [|a s s' _ Hok Hen Hact]; [apply new_system_ok|].
  destruct (act_safe a s Hok Hen) as (s1 & E & Hs1). congruence.
Qed.

(** * The theorems *)

(** C13: No assertion of the operation, its relay or its observer can fail: in every
    state that any interleaving reaches, every action that its party may take
    succeeds.  A party's place alone says what it may do: the holder of the source
    submits, lists, runs and winds up the command and may retire it from anywhere, the
    handles are held, waited on or leased; the operation's own phases are not asked. *)
Theorem operation_safe s a : reachable s -> enabled a s = true -> is_Some (act a s).
Proof.
  intros Hr Hen. destruct (act_safe a s (reachable_sys_ok s Hr) Hen) as (s' & E & _). eauto.
Qed.

(** C14: A completion is never lost.  However publishing, retiring, subscribing and
    the queue interleave, once there is an outcome and [subscribe] has returned, a
    record still in the queue is ready or an enqueue of its own token is under way; and
    when that enqueue is made the record is ready.  No other token is enqueued. *)
Theorem completion_not_lost s t :
  reachable s -> consumer s = Recorded t -> subscribing s = None -> is_Some (outcome (state s)) ->
  (t ∈ (q_ready (queue s)).*1 \/ t ∈ pending_enqueues s) /\
  forall x, x ∈ pending_enqueues s ->
    x = t /\ enabled (DoEnqueue x) s = true /\
    exists s', act (DoEnqueue x) s = Some s' /\ consumer s' = Recorded t /\ t ∈ (q_ready (queue s')).*1.
Proof.
  intros Hr Hc Hsub Hout. pose proof (reachable_sys_ok s Hr) as Hok. split; [by apply (sy_found _ Hok)|].
  intros x Hx. destruct (sy_enqueue _ Hok x Hx) as [Hmx _].
  pose proof (sy_consumer _ Hok) as Hcon. unfold consumer_ok, callback_of in Hcon. rewrite Hc in Hcon.
  destruct Hcon as ((Hm & _) & Hsome). assert (x = t) as -> by congruence. split; [done|].
  split; [by apply bool_decide_true|]. eexists. split; [reflexivity|]. split; [done|].
  change (t ∈ (q_ready (q_exec (Enqueue t) (queue s)).1).*1).
  destruct (q_enqueue_cases t (queue s)) as [-> | [-> [Hcl|[Hn|Hin]]]].
  - rewrite append_ready. apply elem_of_app. right. by left.
  - rewrite (qw_closed _ (sy_queue _ Hok) Hcl), lookup_empty in Hsome. by destruct Hsome.
  - rewrite Hn in Hsome. by destruct Hsome.
  - done.
Qed.

(** Admission is released exactly once, and exactly when both sides are over:
    the source has retired and the observer has been given its outcome or has let
    go.  The releases made and the one still to be made count that. *)
Theorem admission_released_once s :
  reachable s ->
  releases s + pending_releases s =
    if bool_decide (transport (state s) = retired) && observer_finished (state s) then 1 else 0.
Proof.
  intros Hr. pose proof (reachable_sys_ok s Hr) as []. rewrite sy_release0.
  by rewrite (so_released _ sy_state0).
Qed.

(** What no section can change: an outcome there is, and a retirement. *)
Lemma act_keeps a s s' :
  sys_ok s -> act a s = Some s' ->
  (is_Some (outcome (state s)) -> outcome (state s') = outcome (state s)).
Proof.
  intros Hok Hact [r Hr].
  assert (forall st st' es, release_hook_locked st = (st', es) -> outcome st' = outcome st) as Hrel.
  { intros st st' es. unfold release_hook_locked. destruct (_ || _); intros [= <- _]; done. }
  destruct a; cbn [act] in Hact.
  - injection Hact as <-. cbn. unfold publish. by rewrite Hr.
  - unfold mark_dispatching, advance_transport in Hact. destruct (assert_ _); [|done]. by injection Hact as <-.
  - unfold mark_active, advance_transport in Hact. destruct (assert_ _); [|done]. by injection Hact as <-.
  - unfold begin_retirement, advance_transport in Hact. destruct (assert_ _); [|done]. by injection Hact as <-.
  - destruct (retire_ok _ (sy_state _ Hok)) as (st & es & E & ([] & _) & _). rewrite E in Hact.
    injection Hact as <-. cbn. apply sec_outcome0. eauto.
  - destruct (cancel_ok _ (sy_state _ Hok)) as (st & es & b & E & _ & _ & _ & Hout & _).
    rewrite E in Hact. injection Hact as <-. done.
  - injection Hact as <-. cbn. unfold detach_unselected. case_bool_decide; [|done].
    destruct (release_hook_locked _) eqn:E. by apply Hrel in E.
  - unfold select_blocking in Hact. destruct (assert_ _); [|done]. by injection Hact as <-.
  - unfold begin_wait in Hact. destruct (assert_ _); [|done]. by injection Hact as <-.
  - unfold finish_wait in Hact. destruct (assert_ _); [|done]. cbn in Hact.
    destruct (release_hook_locked _) as [st es] eqn:E. apply Hrel in E. cbn in *. rewrite E, Hr in Hact.
    cbn in Hact. by injection Hact as <-.
  - unfold select_callback in Hact. destruct (assert_ _); [|done]. cbn in Hact.
    destruct (relay_select_callback _ _); [|done]. by injection Hact as <-.
  - destruct (consumer s); try done. cbn in Hact. destruct (_ && _); by injection Hact as <-.
  - destruct (subscribing s); [|done]. by injection Hact as <-.
  - injection Hact as <-. unfold lose_record. destruct (consumer s); try done. by case_bool_decide.
  - destruct (q_claim (queue s)) as [q [[t cb]|]]; destruct (consumer s); try case_bool_decide;
      by injection Hact as <-.
  - by injection Hact as <-.
  - by injection Hact as <-.
  - by injection Hact as <-.
  - destruct (consumer s); try done. injection Hact as <-. cbn. unfold detach_callback.
    destruct (_ || _); [done|]. destruct (release_hook_locked _) eqn:E. by apply Hrel in E.
  - destruct (consumer s); try done. unfold take_callback in Hact. rewrite Hr in Hact. cbn in Hact.
    destruct (assert_ (bool_decide (observer (state s) = callback_phase))); cbn in Hact; [|discriminate].
    destruct (assert_ _); cbn in Hact; [|discriminate].
    destruct (release_hook_locked _) as [st es] eqn:E. apply Hrel in E. cbn in *. rewrite E, Hr in Hact.
    cbn in Hact. by injection Hact as <-.
Qed.

(** A cancellation is accepted at most once, only while the operation has
    neither an outcome nor retired, and each accepted one wakes the reactor
    exactly once; a refused one does nothing. *)
Theorem cancel_accepted_once s s' :
  reachable s -> act Cancel s = Some s' ->
  accepted s' <= 1 /\ wakes s' + pending_wakes s' = accepted s' /\
  (accepted s' <> accepted s ->
     accepted s = 0 /\ outcome_published (relay (state s)) = false /\ transport (state s) <> retired) /\
  (accepted s' = accepted s -> pending_wakes s' = pending_wakes s).
Proof.
  intros Hr Hact. pose proof (reachable_sys_ok s Hr) as Hok.
  destruct (act_safe Cancel s Hok eq_refl) as (s1 & E & Hok1).
  assert (s1 = s') as -> by congruence. destruct (sy_cancel _ Hok1) as [H1 H2].
  destruct (sy_cancel _ Hok) as [H3 H4].
  destruct (cancel_ok _ (sy_state _ Hok)) as (st & es & b & Ec & _ & _ & _ & _ & _ & Hw & Hb & Hc).
  cbn [act] in Hact. rewrite Ec in Hact. cbn in Hact. injection Hact as <-. cbn in *.
  split_and!.
  - rewrite H1. destruct (cancellation_requested _); cbn; lia.
  - done.
  - destruct b; [|done]. intros _. destruct (Hb eq_refl) as (Hb1 & Hb2 & Hb3).
    rewrite H3, Hb1. by split_and!.
  - destruct b; [lia|]. intros _. rewrite Hw. cbn. lia.
Qed.

(** The observer is given one outcome, the first there was: once an operation
    has an outcome no action changes it, and what the observer is given is that
    outcome, at most once. *)
Theorem outcome_final s a s' :
  reachable s -> enabled a s = true -> act a s = Some s' ->
  (is_Some (outcome (state s)) -> outcome (state s') = outcome (state s)) /\
  length (deliveries s') <= 1 /\
  (forall r, r ∈ deliveries s' -> outcome (state s') = Some r /\ observer (state s') = delivered).
Proof.
  intros Hr Hen Hact. pose proof (reachable_sys_ok s Hr) as Hok.
  assert (sys_ok s') as Hok' by by eapply reachable_sys_ok, reachable_act.
  split; [by eapply act_keeps|]. pose proof (sy_deliveries _ Hok') as Hd.
  destruct (deliveries s') as [|r [|]]; [| |done].
  - split; [cbn; lia|]. intros r Hin. by apply not_elem_of_nil in Hin.
  - split; [cbn; lia|]. intros r' ->%list_elem_of_singleton. destruct Hd. done.
Qed.

(** A source that retires without an outcome leaves one: a transport failure
    that says whether the command may have started, not started only if it was
    never taken from the queue; and a source that had published changes nothing. *)
Theorem retire_outcome s s' :
  reachable s -> act Retire s = Some s' ->
  transport (state s') = retired /\
  outcome (state s') =
    match outcome (state s) with
    | Some r => Some r
    | None => Some (set_delivery
        (if bool_decide (transport (state s) = queued) then not_started else indeterminate)
        make_abandoned_outcome)
    end.
Proof.
  intros Hr Hact. pose proof (reachable_sys_ok s Hr) as Hok. cbn [act] in Hact.
  assert (forall st st' es, release_hook_locked st = (st', es) ->
    outcome st' = outcome st /\ transport st' = transport st) as Hrel.
  { intros st st' es. unfold release_hook_locked. destruct (_ || _); intros [= <- _]; done. }
  unfold retire in Hact. cbn [outcome set_relay set_transport abandoned_outcome] in Hact.
  destruct (outcome (state s)) as [r|] eqn:Eo.
  - cbn in Hact. destruct (release_hook_locked _) as [st es] eqn:E. apply Hrel in E as [E1 E2].
    injection Hact as <-. cbn in *. by rewrite E1, E2.
  - destruct (so_outcome _ (sy_state _ Hok) Eo) as (Ea & _). rewrite Ea in Hact. cbn in Hact.
    destruct (release_hook_locked _) as [st es] eqn:E. apply Hrel in E as [E1 E2].
    injection Hact as <-. cbn in *. by rewrite E1, E2.
Qed.

(** A history of enabled actions. *)
Fixpoint run (actions : list action) (s : System) : option System :=
  match actions with
  | [] => Some s
  | a :: rest => if enabled a s then s ← act a s; run rest s else None
  end.

Lemma run_reachable actions s s' : reachable s -> run actions s = Some s' -> reachable s'.
Proof.
  revert s. induction actions as [|a rest IH]; intros s Hr Hrun; cbn in Hrun; [by injection Hrun as <-|].
  destruct (enabled a s) eqn:Hen; [|done]. destruct (act a s) as [s1|] eqn:Hact; [|done].
  eapply IH; [|exact Hrun]. by eapply reachable_act.
Qed.
End operation.

(** * The theorems at concrete histories *)

(** The outcome arrives between the choice of the callback and its registration. *)
Definition raced : list (action (A := N)) := [Subscribe; Publish (Value 7%N); DoEnqueue 1; RegisterRecord].

Lemma operation_safe_witness :
  exists s, run (raced ++ [CheckOutcome; DoEnqueue 1; Claim]) new_system = Some s /\
            is_Some (act RunCallback s).
Proof.
  destruct (run (raced ++ [CheckOutcome; DoEnqueue 1; Claim]) new_system) as [s|] eqn:E;
    [|vm_compute in E; discriminate E].
  exists s. split; [reflexivity|]. apply operation_safe.
  - exact (run_reachable _ _ _ reachable_new E).
  - vm_compute in E. injection E as <-. reflexivity.
Defined.

Lemma completion_not_lost_witness :
  exists s, run (raced ++ [CheckOutcome]) new_system = Some s /\ pending_enqueues s = [1%N] /\
    exists s', act (DoEnqueue 1) s = Some s' /\ 1%N ∈ (q_ready (queue s')).*1.
Proof.
  destruct (run (raced ++ [CheckOutcome]) new_system) as [s|] eqn:E; [|vm_compute in E; discriminate E].
  assert (consumer s = Recorded 1 /\ subscribing s = None /\ is_Some (outcome (state s)) /\
    pending_enqueues s = [1%N]) as (H1 & H2 & H3 & H4)
    by (vm_compute in E; injection E as <-; repeat split; eauto).
  exists s. split; [reflexivity|]. split; [exact H4|].
  destruct (completion_not_lost s 1 (run_reachable _ _ _ reachable_new E) H1 H2 H3) as [_ H].
  destruct (H 1%N) as (_ & _ & s' & E' & _ & Hin); [rewrite H4; by left|].
  exists s'. split; [exact E' | exact Hin].
Defined.

Lemma admission_released_once_witness :
  exists s, run [Publish (Value 7%N); Retire; SyncWait; BeginWait; FinishWait] new_system = Some s /\
            releases s + pending_releases s = 1.
Proof.
  destruct (run [Publish (Value 7%N); Retire; SyncWait; BeginWait; FinishWait] new_system) as [s|] eqn:E;
    [|vm_compute in E; discriminate E].
  exists s. split; [reflexivity|].
  rewrite (admission_released_once s (run_reachable _ _ _ reachable_new E)).
  vm_compute in E. injection E as <-. reflexivity.
Defined.

Lemma cancel_accepted_once_witness :
  exists s', run [Cancel (A := N)] new_system = Some s' /\ accepted s' <= 1 /\
             wakes s' + pending_wakes s' = accepted s'.
Proof.
  destruct (run [Cancel (A := N)] new_system) as [s'|] eqn:E; [|vm_compute in E; discriminate E].
  assert (act (A := N) Cancel new_system = Some s') as Hact by exact E.
  destruct (cancel_accepted_once new_system s' reachable_new Hact) as (H1 & H2 & _).
  exists s'. split; [reflexivity|]. split; [exact H1 | exact H2].
Defined.

Lemma outcome_final_witness :
  exists s s', run [Publish (Value 7%N)] new_system = Some s /\
    act (Publish (Value 8%N)) s = Some s' /\ outcome (state s') = Some (Value 7%N).
Proof.
  destruct (run [Publish (Value 7%N)] new_system) as [s|] eqn:E; [|vm_compute in E; discriminate E].
  destruct (act (Publish (Value 8%N)) s) as [s'|] eqn:E2;
    [|vm_compute in E; injection E as <-; discriminate E2].
  destruct (outcome_final s (Publish (Value 8%N)) s' (run_reachable _ _ _ reachable_new E) eq_refl E2)
    as [H _].
  exists s, s'. split; [reflexivity|]. split; [exact E2|].
  assert (outcome (state s) = Some (Value 7%N)) as Ho
    by (vm_compute in E; injection E as <-; reflexivity).
  rewrite H; [exact Ho | rewrite Ho; eexists; reflexivity].
Defined.

Lemma retire_outcome_witness :
  exists s s', run (A := N) [MarkDispatching] new_system = Some s /\ act Retire s = Some s' /\
    outcome (state s') = Some (Unexpected (MkFailure Command.pipe indeterminate 0
      (txt "operation source retired without an outcome"))).
Proof.
  destruct (run (A := N) [MarkDispatching] new_system) as [s|] eqn:E;
    [|vm_compute in E; discriminate E].
  destruct (act Retire s) as [s'|] eqn:E2; [|vm_compute in E; injection E as <-; discriminate E2].
  destruct (retire_outcome s s' (run_reachable _ _ _ reachable_new E) E2) as [_ H].
  exists s, s'. split; [reflexivity|]. split; [exact E2|]. rewrite H.
  vm_compute in E. injection E as <-. reflexivity.
Defined.
