(* ===== verification/Operations.v ===== *)
(** Operations in the hands of an engine.

    An engine admits a bounded number of operations, moves each through its transport's
    phases, publishes and retires it; the hook of an operation gives the admission back
    when both of its sides are over.  [Pool] is the admission counter with the operations;
    a [Holding] says which party of the engine has an operation, in which phase, and
    whether it has published it.  Shared by the command engine and the process engine. *)

From S2P Require Import Prelude Command Wake CompletionQueue OperationState.

Definition Holding : Type := (nat * TransportPhase * bool)%type.

Lemma assert_Some b (u : unit) : assert_ b = Some u -> b = true.
Proof. by destruct b. Qed.

(** Take a successful chain of binds and assertions apart. *)
Ltac inv_binds :=
  repeat match goal with
    | H : _ ≫= _ = Some _ |- _ => apply bind_Some_inv in H as (? & ? & H)
    | H : assert_ _ = Some _ |- _ => apply assert_Some in H
    | H : Some _ = Some _ |- _ => injection H as H; subst
    end; to_props.

(** What the holder of an operation can do with it. *)
Inductive HandleCall :=
  | RequestCancel | SelectBlocking | BeginWait | FinishWait | SelectCallback (token : N)
  | TakeCallback (token : N) | DetachCallback (token : N) | DetachUnselected.

Section operations.
Context {A : Type}.

Abbreviation OpState := (OperationState (A := A)).
Abbreviation Answer := (OperationResult (A := A)).

Definition publish_section (answer : Answer) (st : OpState) : option (OpState * list effect) :=
  Some (publish answer st).1.
Definition advance_section (phase : TransportPhase) (st : OpState) : option (OpState * list effect) :=
  st ← advance_transport phase st; Some (st, []).

Definition handle_call (c : HandleCall) (st : OpState) : option (OpState * list effect) :=
  match c with
  | RequestCancel => r ← request_cancel st; Some r.1
  | SelectBlocking => st ← select_blocking st; Some (st, [])
  | BeginWait => st ← begin_wait st; Some (st, [])
  | FinishWait => r ← finish_wait st; Some r.1
  | SelectCallback t => st ← select_callback t st; Some (st, [])
  | TakeCallback t => r ← take_callback t st; Some r.1
  | DetachCallback t => Some (detach_callback t st)
  | DetachUnselected => Some (detach_unselected st)
  end.

(** * The pool *)

Record Pool := MkPool {
  pool_limit : nat;
  pool_in_flight : nat;
  pool_operations : list (bool * OpState);
  pool_releasing : nat;
}.

Definition new_pool (limit : nat) : Pool := MkPool limit 0 [] 0.

(** A section of operation [id]'s state, and what it leaves to be called.  The hooks
    of an admitted operation release the channel, the others do nothing. *)
Definition pool_section (id : nat) (f : OpState -> option (OpState * list effect)) (p : Pool) : option Pool :=
  op ← pool_operations p !! id;
  r ← f op.2;
  Some (MkPool (pool_limit p) (pool_in_flight p) (<[id := (op.1, r.1)]> (pool_operations p))
          (pool_releasing p + (if op.1 : bool then count is_release r.2 else 0))).

(** [admit] and the operation made after it. *)
Definition pool_full (p : Pool) : bool := (pool_limit p <=? pool_in_flight p)%nat.
Definition pool_admit (p : Pool) : Pool :=
  MkPool (pool_limit p) (S (pool_in_flight p)) (pool_operations p ++ [(true, new_state)]) (pool_releasing p).

(** An operation that was not admitted is published and retired before anyone has it. *)
Definition pool_refuse (failure : CommandFailure) (p : Pool) : option Pool :=
  st ← retire (publish (Unexpected failure) new_state).1.1;
  Some (MkPool (pool_limit p) (pool_in_flight p) (pool_operations p ++ [(false, st.1)]) (pool_releasing p)).

(** [release], called by a hook outside the locks. *)
Definition pool_release (p : Pool) : option Pool :=
  match pool_releasing p with
  | 0 => None
  | S r => Some (MkPool (pool_limit p)
      (if (0 <? pool_in_flight p)%nat then pool_in_flight p - 1 else pool_in_flight p) (pool_operations p) r)
  end.

(** * Operations and who holds them *)

Record ops_ok (ops : list (bool * OpState)) (hs : list Holding) : Prop := {
  oo_state : forall id op, ops !! id = Some op -> state_ok op.2;
  oo_nodup : NoDup hs.*1.*1;
  oo_held : forall id ph b, (id, ph, b) ∈ hs -> exists st,
    ops !! id = Some (true, st) /\ transport st = ph /\ (b = true -> is_Some (outcome st));
  oo_done : forall id op, ops !! id = Some op -> id ∉ hs.*1.*1 -> transport op.2 = retired;
}.

(** Operations that were admitted and have not given their admission back. *)
Definition unreleased (op : bool * OpState) : nat := b2n (op.1 && negb (admission_released op.2)).
Definition flights (ops : list (bool * OpState)) : nat := sum_list_with unreleased ops.

#[export] Instance ops_ok_Permutation ops : Proper ((≡ₚ) ==> iff) (ops_ok ops).
Proof.
  assert (forall hs hs', hs ≡ₚ hs' -> ops_ok ops hs -> ops_ok ops hs') as H.
  { intros hs hs' E []. split; [done| | |].
    - by rewrite <-E.
    - intros id ph b. rewrite <-E. auto.
    - intros id op. rewrite <-E. eauto. }
  intros hs hs' E. split; apply H; by rewrite E.
Qed.

Lemma ops_ok_hold ops hs id ph b :
  ops_ok ops ((id, ph, b) :: hs) -> exists st,
    ops !! id = Some (true, st) /\ state_ok st /\ transport st = ph /\ (b = true -> is_Some (outcome st)).
Proof.
  intros []. destruct (oo_held0 id ph b) as (st & H1 & H2 & H3); [by left|].
  exists st. split_and!; try done. by apply (oo_state0 id (true, st)).
Qed.

(** A section of a held operation moves its holding. *)
Lemma ops_ok_section ops hs id ph b st st' es ph' b' :
  ops_ok ops ((id, ph, b) :: hs) -> ops !! id = Some (true, st) -> section_ok st st' es ->
  transport st' = ph' -> (b' = true -> is_Some (outcome st')) ->
  ops_ok (<[id := (true, st')]> ops) ((id, ph', b') :: hs).
Proof.
  intros [] Hid [] Ht Hb. cbn in *. apply NoDup_cons in oo_nodup0 as [Hn Hnd].
  assert (id < length ops) as Hlt by by eapply lookup_lt_Some. split; cbn.
  - intros k op [(-> & <- & _) | [? ?]]%list_lookup_insert_Some; [done | eauto].
  - by apply NoDup_cons.
  - intros k ph1 b1 [[= -> -> ->] | Hk]%elem_of_cons.
    + exists st'. by rewrite list_lookup_insert_eq.
    + destruct (oo_held0 k ph1 b1) as (s & H1 & H2); [by right|]. exists s.
      rewrite list_lookup_insert_ne; [done|]. intros ->. apply Hn.
      apply list_elem_of_fmap. exists (k, ph1). split; [done|]. apply list_elem_of_fmap.
      by exists (k, ph1, b1).
  - intros k op [(-> & <- & _) | [? ?]]%list_lookup_insert_Some Hk; [|eauto].
    exfalso. apply Hk. by left.
Qed.

Lemma ops_ok_retire ops hs id ph b st st' es :
  ops_ok ops ((id, ph, b) :: hs) -> ops !! id = Some (true, st) -> section_ok st st' es ->
  transport st' = retired -> ops_ok (<[id := (true, st')]> ops) hs.
Proof.
  intros Hok Hid Hs Ht.
  assert (ops_ok (<[id := (true, st')]> ops) ((id, retired, false) :: hs)) as []
    by by eapply ops_ok_section.
  cbn in *. apply NoDup_cons in oo_nodup0 as [Hn Hnd]. split; [done | done | |].
  - intros k ph1 b1 Hk. apply oo_held0. by right.
  - intros k op Hk Hnk. destruct (decide (k = id)) as [->|Hne].
    + rewrite list_lookup_insert_eq in Hk by by eapply lookup_lt_Some. by injection Hk as <-.
    + eapply oo_done0; [done|]. apply not_elem_of_cons. done.
Qed.

(** A section of the observing side leaves the transport alone. *)
Lemma ops_ok_handle ops hs id adm st st' es :
  ops_ok ops hs -> ops !! id = Some (adm, st) -> section_ok st st' es ->
  transport st' = transport st -> ops_ok (<[id := (adm, st')]> ops) hs.
Proof.
  intros [] Hid [] Ht. assert (id < length ops) as Hlt by by eapply lookup_lt_Some. split; [|done| |].
  - intros k op [(-> & <- & _) | [? ?]]%list_lookup_insert_Some; [done | eauto].
  - intros k ph b Hk. destruct (oo_held0 k ph b Hk) as (s & H1 & H2 & H3).
    destruct (decide (k = id)) as [->|Hne].
    + exists st'. rewrite list_lookup_insert_eq by done. rewrite Hid in H1. injection H1 as -> ->.
      split_and!; [done | congruence |]. intros Hb. rewrite sec_outcome; auto.
    + exists s. by rewrite list_lookup_insert_ne.
  - intros k op [(-> & <- & _) | [? ?]]%list_lookup_insert_Some Hk; [|eauto].
    cbn. rewrite Ht. by apply (oo_done0 k (adm, st)).
Qed.

(** What a section releases it takes from what is in flight. *)
Lemma flights_section ops id adm st st' es :
  ops !! id = Some (adm, st) -> section_ok st st' es ->
  flights (<[id := (adm, st')]> ops) + (if adm : bool then count is_release es else 0) = flights ops.
Proof.
  intros Hid [_ Hr _ _]. pose proof (sum_insert unreleased ops id _ (adm, st') Hid) as E.
  unfold flights. unfold unreleased at 2 4 in E. cbn in E. destruct adm; cbn in *; [|lia].
  destruct (admission_released st), (admission_released st'); cbn in *; lia.
Qed.

(** * Sections *)

Lemma pool_section_Some id f p p' :
  pool_section id f p = Some p' -> exists adm st r,
    pool_operations p !! id = Some (adm, st) /\ f st = Some r /\
    p' = MkPool (pool_limit p) (pool_in_flight p) (<[id := (adm, r.1)]> (pool_operations p))
           (pool_releasing p + (if adm : bool then count is_release r.2 else 0)).
Proof.
  unfold pool_section. destruct (pool_operations p !! id) as [[adm st]|] eqn:E1; cbn; [|done].
  destruct (f st) as [r|] eqn:E2; cbn; [|done]. intros [= <-]. by exists adm, st, r.
Qed.

Lemma advance_section_ok st ph :
  state_ok st -> ph <> retired -> transport st <> retired ->
  transport_rank (transport st) <= transport_rank ph ->
  exists st', advance_section ph st = Some (st', []) /\ section_ok st st' [] /\ transport st' = ph /\
    outcome st' = outcome st.
Proof.
  intros [] Hp Hn Hr. unfold advance_section, advance_transport.
  rewrite (proj2 (Nat.leb_le _ _) Hr). cbn. eexists. split; [reflexivity|]. split; [|done].
  split; cbn; try done. split; cbn; try done.
  - rewrite so_released, (bool_decide_false _ Hn), (bool_decide_false _ Hp). done.
  - intros Ho. destruct (so_outcome Ho) as (H1 & _ & H3). done.
  - destruct so_retired as [H1 H2]. split; [|done].
    rewrite H1, (bool_decide_false _ Hn), (bool_decide_false _ Hp). done.
Qed.

Lemma publish_section_ok answer st :
  state_ok st -> exists r : OpState * list effect, publish_section answer st = Some r /\ section_ok st r.1 r.2 /\
    transport r.1 = transport st /\ is_Some (outcome r.1).
Proof.
  intros H. eexists. split; [reflexivity|]. destruct (publish_ok answer st H) as (H1 & H2 & _).
  split_and!; [done | | done]. unfold publish. by destruct (outcome st).
Qed.

Lemma retire_section_ok (st : OpState) :
  state_ok st -> exists r : OpState * list effect, retire st = Some r /\ section_ok st r.1 r.2 /\ transport r.1 = retired.
Proof.
  intros H. destruct (retire_ok st H) as (st' & es & E & Hq & _). destruct Hq as [Hs _].
  exists (st', es). split_and!; [done | done |]. cbn. revert E. unfold retire.
  assert (forall s : OpState, transport (release_hook_locked s).1 = transport s) as Hrel.
  { intros s. unfold release_hook_locked. by case_match. }
  set (s1 := set_relay _ _). assert (transport s1 = retired) as Ht by done. clearbody s1.
  intros E. destruct (outcome s1) as [o|].
  - injection E as E. rewrite <-(f_equal fst E : _ = st'). by rewrite Hrel.
  - destruct (abandoned_outcome s1) as [a|]; [|done]. cbn in E. destruct a; [done|]. cbn in E.
    injection E as <- _. by rewrite Hrel.
Qed.

Lemma observer_section_ok (st : OpState) o t r :
  state_ok st -> observer_finished st = false -> o <> detached -> o <> delivered ->
  relay_token r = (if bool_decide (o = callback_phase) then Some t else None) ->
  relay_retired r = relay_retired (relay st) -> relay_hooks r = relay_hooks (relay st) ->
  outcome_published r = outcome_published (relay st) ->
  section_ok st (set_observer o t r st) [].
Proof.
  intros [] Hf H1 H2 Ht Hr Hh Hp. split; cbn; try done. split; cbn; try done.
  - rewrite so_released, Hf. unfold observer_finished. cbn.
    by rewrite (bool_decide_false _ H1), (bool_decide_false _ H2).
  - by rewrite Hp.
  - by rewrite Hr, Hh.
Qed.
Lemma release_hook_transport (s : OpState) : transport (release_hook_locked s).1 = transport s.
Proof. unfold release_hook_locked. by case_match. Qed.

Lemma handle_transport c (st : OpState) (r : OpState * list effect) :
  handle_call c st = Some r -> transport r.1 = transport st.
Proof.
  destruct c; cbn; unfold request_cancel, select_blocking, begin_wait, finish_wait, select_callback,
    take_callback; intros H; inv_binds; cbn; try done; try by rewrite release_hook_transport.
  - unfold detach_callback. case_match; [done|]. by rewrite release_hook_transport.
  - unfold detach_unselected. case_match; [|done]. by rewrite release_hook_transport.
Qed.

Lemma finished_cases (st : OpState) o :
  observer st = o -> o <> detached -> o <> delivered -> observer_finished st = false.
Proof. intros <- H1 H2. unfold observer_finished. by rewrite !bool_decide_false. Qed.

Lemma section_id (st : OpState) : state_ok st -> section_ok st st [].
Proof. by intros. Qed.

(** The sections that end the observing side, with the callback's token cleared. *)
Definition cleared (r : OperationRelay) : OperationRelay :=
  MkRelay (relay_hooks r) None (cancellation_requested r) (outcome_published r) (relay_retired r).

Lemma cleared_none r : relay_token r = None -> cleared r = r.
Proof. destruct r; cbn. by intros ->. Qed.

Lemma cleared_finish t r : relay_token r = Some t -> finish_callback t r = cleared r.
Proof. intros H. unfold finish_callback. by rewrite bool_decide_true. Qed.

Lemma finishing_ok (st : OpState) F t o :
  state_ok st -> observer st = o -> o <> detached -> o <> delivered -> F = detached \/ F = delivered ->
  let r := release_hook_locked (set_observer F t (cleared (relay st)) st) in section_ok st r.1 r.2.
Proof.
  intros Hok Ho H1 H2 HF.
  by apply (finish_section_ok st F t _ Hok (finished_cases _ _ Ho H1 H2) HF).
Qed.

Lemma handle_section_ok c (st : OpState) (r : OpState * list effect) :
  state_ok st -> handle_call c st = Some r -> section_ok st r.1 r.2.
Proof.
  intros Hok. pose proof (so_token st Hok) as Htok. destruct c; cbn [handle_call]; intros H.
  1: { destruct (cancel_ok st Hok) as (st' & es & b & E & Hs & _). rewrite E in H. by injection H as <-. }
  all: unfold select_blocking, begin_wait, finish_wait, select_callback, relay_select_callback,
    take_callback in H; inv_binds; cbn [fst snd].
  - apply observer_section_ok; try done. by eapply finished_cases.
    by rewrite Htok, bool_decide_false by congruence.
  - apply observer_section_ok; try done. by eapply finished_cases.
    by rewrite Htok, bool_decide_false by congruence.
  - rewrite <-(cleared_none (relay st)) by (by rewrite Htok, bool_decide_false by congruence).
    eapply finishing_ok; eauto.
  - apply observer_section_ok; try done. by eapply finished_cases.
  - rewrite cleared_finish by (rewrite Htok, bool_decide_true by done; congruence).
    eapply finishing_ok; eauto.
  - unfold detach_callback. destruct (negb _ || negb _) eqn:E; [by apply section_id|]. to_props.
    rewrite cleared_finish by (rewrite Htok, bool_decide_true by done; congruence).
    eapply finishing_ok; eauto.
  - unfold detach_unselected. destruct (bool_decide (observer st = unselected)) eqn:E; to_props; [|by apply section_id].
    rewrite <-(cleared_none (relay st)) by (by rewrite Htok, bool_decide_false by congruence).
    eapply finishing_ok; eauto.
Qed.

Lemma new_state_ok : state_ok (new_state : OpState).
Proof. by split. Qed.

Lemma holding_lt ops hs id : ops_ok ops hs -> id ∈ hs.*1.*1 -> id < length ops.
Proof.
  intros [] ([? ph] & -> & ([[? ?] b] & [= -> ->] & H)%list_elem_of_fmap)%list_elem_of_fmap.
  destruct (oo_held0 _ _ _ H) as (st & Hst & _). by eapply lookup_lt_Some.
Qed.

Lemma ops_ok_append ops hs adm (st : OpState) :
  ops_ok ops hs -> state_ok st -> transport st = retired -> ops_ok (ops ++ [(adm, st)]) hs.
Proof.
  intros [] Hst Ht. split; [|done| |].
  - intros id op [H | [_ (_ & <-)%list_lookup_singleton_Some]]%lookup_app_Some; [eauto | done].
  - intros id ph b H. destruct (oo_held0 _ _ _ H) as (s & H1 & H2). exists s.
    split; [by apply lookup_app_l_Some | done].
  - intros id op [H | [_ (_ & <-)%list_lookup_singleton_Some]]%lookup_app_Some; [eauto | done].
Qed.

Lemma ops_ok_new ops hs :
  ops_ok ops hs -> ops_ok (ops ++ [(true, new_state)]) ((length ops, queued, false) :: hs).
Proof.
  intros Hok. pose proof (holding_lt ops hs) as Hlt. pose proof Hok as []. split; cbn.
  - intros id op [H | [_ (_ & <-)%list_lookup_singleton_Some]]%lookup_app_Some; [eauto|].
    apply new_state_ok.
  - apply NoDup_cons. split; [|done]. intros H. specialize (Hlt _ Hok H). lia.
  - intros id ph b [[= -> -> ->] | H]%elem_of_cons.
    + exists new_state. by rewrite list_lookup_middle.
    + destruct (oo_held0 _ _ _ H) as (s & H1 & H2). exists s.
      split; [by apply lookup_app_l_Some | done].
  - intros id op [H | [Hge (Hid & <-)%list_lookup_singleton_Some]]%lookup_app_Some Hn.
    + eapply oo_done0; [done|]. by apply not_elem_of_cons in Hn as [_ ?].
    + exfalso. apply Hn. apply elem_of_cons. left. lia.
Qed.

(** * Admissions and phases *)

Record pool_ok (limit : nat) (p : Pool) (hs : list Holding) : Prop := {
  po_limit : pool_limit p = limit;
  po_flight : pool_in_flight p = flights (pool_operations p) + pool_releasing p;
  po_bound : pool_in_flight p <= limit;
  po_ops : ops_ok (pool_operations p) hs;
}.

#[export] Instance pool_ok_Permutation limit p : Proper ((≡ₚ) ==> iff) (pool_ok limit p).
Proof.
  assert (forall hs hs', hs ≡ₚ hs' -> pool_ok limit p hs -> pool_ok limit p hs') as H.
  { intros hs hs' E []. split; try done. by rewrite <-E. }
  intros hs hs' E. split; apply H; by rewrite E.
Qed.

Lemma new_pool_ok limit : pool_ok limit (new_pool limit) [].
Proof. split; cbn; [done | done | lia |]. split; cbn; try done; [by constructor | by intros ? ? ? ?%elem_of_nil]. Qed.

Lemma pool_section_ok limit p id (st : OpState) (r : OpState * list effect) f adm hs hs' :
  pool_ok limit p hs -> pool_operations p !! id = Some (adm, st) -> f st = Some r ->
  section_ok st r.1 r.2 -> ops_ok (<[id := (adm, r.1)]> (pool_operations p)) hs' ->
  exists p', pool_section id f p = Some p' /\ pool_ok limit p' hs'.
Proof.
  intros [] Hid Hf Hs Ho. eexists. split; [unfold pool_section; rewrite Hid; cbn; rewrite Hf; reflexivity|].
  pose proof (flights_section _ _ _ _ _ _ Hid Hs) as Hfl. split; cbn -[flights count]; try done. lia.
Qed.

Lemma pool_advance limit p id ph b hs ph' :
  pool_ok limit p ((id, ph, b) :: hs) -> ph <> retired -> ph' <> retired ->
  transport_rank ph <= transport_rank ph' ->
  exists p', pool_section id (advance_section ph') p = Some p' /\ pool_ok limit p' ((id, ph', b) :: hs).
Proof.
  intros Had Hp Hp' Hr. pose proof (po_ops _ _ _ Had) as Hops.
  destruct (ops_ok_hold _ _ _ _ _ Hops) as (st & Hid & Hst & <- & Hb).
  destruct (advance_section_ok st ph' Hst Hp' Hp Hr) as (st' & Hf & Hs & Ht & Ho).
  eapply pool_section_ok; [done..|]. eapply ops_ok_section; [done..|]. cbn. by rewrite Ho.
Qed.

Lemma pool_publish limit p id ph b hs answer :
  pool_ok limit p ((id, ph, b) :: hs) ->
  exists p', pool_section id (publish_section answer) p = Some p' /\ pool_ok limit p' ((id, ph, true) :: hs).
Proof.
  intros Had. pose proof (po_ops _ _ _ Had) as Hops.
  destruct (ops_ok_hold _ _ _ _ _ Hops) as (st & Hid & Hst & <- & Hb).
  destruct (publish_section_ok answer st Hst) as (r & Hf & Hs & Ht & Ho).
  eapply pool_section_ok; [done..|]. by eapply ops_ok_section.
Qed.

Lemma pool_retire limit p id ph b hs :
  pool_ok limit p ((id, ph, b) :: hs) -> exists p', pool_section id retire p = Some p' /\ pool_ok limit p' hs.
Proof.
  intros Had. pose proof (po_ops _ _ _ Had) as Hops.
  destruct (ops_ok_hold _ _ _ _ _ Hops) as (st & Hid & Hst & <- & Hb).
  destruct (retire_section_ok st Hst) as (r & Hf & Hs & Ht).
  eapply pool_section_ok; [done..|]. by eapply ops_ok_retire.
Qed.

Lemma pool_handle limit p id c hs p' :
  pool_ok limit p hs -> pool_section id (handle_call c) p = Some p' -> pool_ok limit p' hs.
Proof.
  intros Had Hsec. pose proof Hsec as (adm & st & r & Hid & Hf & _)%pool_section_Some.
  pose proof (po_ops _ _ _ Had) as Hops. pose proof (oo_state _ _ Hops id _ Hid) as Hst.
  pose proof (handle_section_ok c st r Hst Hf) as Hs.
  destruct (pool_section_ok limit p id st r (handle_call c) adm hs hs Had Hid Hf Hs) as (p2 & E & H1).
  - eapply ops_ok_handle; try done. by eapply handle_transport.
  - rewrite Hsec in E. by injection E as <-.
Qed.

Lemma pool_admit_ok limit p hs :
  pool_ok limit p hs -> pool_full p = false ->
  pool_ok limit (pool_admit p) ((length (pool_operations p), queued, false) :: hs).
Proof.
  intros [Hl Hf Hb Ho] Hn. unfold pool_full in Hn. to_props. split; cbn -[flights]; [done | | lia |].
  - rewrite Hf. unfold flights. rewrite sum_list_with_app. cbn. lia.
  - by apply ops_ok_new.
Qed.

Lemma pool_refuse_ok limit p hs failure :
  pool_ok limit p hs -> exists p', pool_refuse failure p = Some p' /\ pool_ok limit p' hs.
Proof.
  intros [Hl Hf Hb Ho]. unfold pool_refuse.
  destruct (publish_ok (Unexpected failure : Answer) new_state new_state_ok) as ([Hs _ _ _] & _).
  destruct (retire_section_ok _ Hs) as (r & -> & [Hr _ _ _] & Ht). cbn. eexists. split; [reflexivity|].
  split; cbn -[flights]; try done.
  - rewrite Hf. unfold flights. rewrite sum_list_with_app. cbn. lia.
  - destruct r. by apply ops_ok_append.
Qed.

Lemma pool_release_ok limit p hs p' : pool_ok limit p hs -> pool_release p = Some p' -> pool_ok limit p' hs.
Proof.
  unfold pool_release. intros [] H. destruct (pool_releasing p) as [|r] eqn:Hr; [done|].
  rewrite (proj2 (Nat.ltb_lt 0 (pool_in_flight p)) ltac:(lia)) in H. injection H as <-.
  split; cbn -[flights Nat.sub]; try done. all: lia.
Qed.

(** An operation nobody holds any more has been answered. *)
Definition answered (op : bool * OpState) : Prop :=
  transport op.2 = retired /\ is_Some (outcome op.2).

Lemma pool_answered limit p hs id op :
  pool_ok limit p hs -> pool_operations p !! id = Some op -> id ∉ hs.*1.*1 -> answered op.
Proof.
  intros [_ _ _ []] Hid Hn. pose proof (oo_done0 _ _ Hid Hn) as Ht. split; [done|].
  destruct (outcome op.2) eqn:Ho; [by eexists|]. exfalso.
  destruct (so_outcome _ (oo_state0 _ _ Hid) Ho) as (_ & Hr & _). done.
Qed.
End operations.

Arguments Pool A : clear implicits.
