(* ===== verification/Transport.v ===== *)
(** What an engine is to the one who submits to it.

    A submission makes an operation and returns it with the submission's end; the engine's
    threads move its source, answer it once, retire it and call its retirement hook once;
    whoever holds it acts on its observing side; a stopped engine whose threads have returned
    has called the hook of everything it returned.  The asynchronous interface is proved
    against this, and EngineTransport shows that the process engine is one. *)

From S2P Require Import Prelude Command Process Wake CompletionQueue OperationState Operations.

Abbreviation RawOperation := (OperationState (A := ProcessReply)).
Abbreviation RawResult := (OperationResult (A := ProcessReply)).

(** [submissions]: those that have not returned; [stopped]: the threads have returned, and
    whether every child was collected. *)
Record Transport := MkTransport {
  operations : list RawOperation;
  submissions : list nat;
  retirements : list nat;
  stopping : bool;
  stopped : option bool;
}.

Definition new_transport : Transport := MkTransport [] [] [] false None.

Definition set_operations l t := MkTransport l (submissions t) (retirements t) (stopping t) (stopped t).
Definition set_submissions l t := MkTransport (operations t) l (retirements t) (stopping t) (stopped t).
Definition set_retirements l t := MkTransport (operations t) (submissions t) l (stopping t) (stopped t).
Definition set_stopping b t := MkTransport (operations t) (submissions t) (retirements t) b (stopped t).
Definition set_stopped b t := MkTransport (operations t) (submissions t) (retirements t) (stopping t) b.

Inductive transport_action :=
  (* a submission *)
  | BeginSubmit | EndSubmit (id : nat)
  (* the source of an operation *)
  | PublishRaw (id : nat) (r : RawResult) | AdvanceRaw (id : nat) (phase : TransportPhase) | RetireRaw (id : nat)
  | CallRetirement (id : nat)
  (* its holder *)
  | HandleRaw (id : nat) (c : HandleCall)
  | StopTransport | EndTransport (complete : bool).

(** A section of an operation's state. *)
Definition raw_section (id : nat) (f : RawOperation -> option (RawOperation * list effect)) (t : Transport) :
    option (Transport * list effect) :=
  st ← operations t !! id; r ← f st; Some (set_operations (<[id := r.1]> (operations t)) t, r.2).

Definition is_answered (st : RawOperation) : bool := bool_decide (is_Some (outcome st)).
Definition is_retired (st : RawOperation) : bool := bool_decide (transport st = retired).

(** An operation is answered before it is retired, and neither twice. *)
Definition publish_raw (r : RawResult) (st : RawOperation) : option (RawOperation * list effect) :=
  if is_answered st || is_retired st then None else publish_section r st.
Definition advance_raw (phase : TransportPhase) (st : RawOperation) : option (RawOperation * list effect) :=
  if is_retired st || bool_decide (phase = retired) then None else advance_section phase st.
Definition retire_raw (st : RawOperation) : option (RawOperation * list effect) :=
  if is_answered st && negb (is_retired st) then retire st else None.

(** Nothing that was returned is left. *)
Definition all_retired (t : Transport) : bool :=
  forallb (fun id => bool_decide (id ∈ submissions t) || bool_decide (id ∈ retirements t)) (seq 0 (length (operations t))).

Definition transport_step (a : transport_action) (t : Transport) : option (Transport * list effect) :=
  match a with
  | BeginSubmit =>
      Some (set_submissions (submissions t ++ [length (operations t)]) (set_operations (operations t ++ [new_state]) t), [])
  | EndSubmit id =>
      if bool_decide (id ∈ submissions t) && (bool_decide (stopped t = None) || bool_decide (id ∈ retirements t))
      then Some (set_submissions (filter (fun k => k <> id) (submissions t)) t, []) else None
  | PublishRaw id r => raw_section id (publish_raw r) t
  | AdvanceRaw id phase => raw_section id (advance_raw phase) t
  | RetireRaw id => raw_section id retire_raw t
  | CallRetirement id =>
      st ← operations t !! id;
      if is_answered st && is_retired st && negb (bool_decide (id ∈ retirements t))
      then Some (set_retirements (retirements t ++ [id]) t, []) else None
  | HandleRaw id c => if bool_decide (id ∈ submissions t) then None else raw_section id (handle_call c) t
  | StopTransport => Some (set_stopping true t, [])
  | EndTransport complete => if bool_decide (stopped t = None) && all_retired t then Some (set_stopped (Some complete) t, []) else None
  end.

Fixpoint transport_run (acts : list transport_action) (t : Transport) : option Transport :=
  match acts with
  | [] => Some t
  | a :: rest => r ← transport_step a t; transport_run rest r.1
  end.

Lemma transport_run_app acts acts' t :
  transport_run (acts ++ acts') t = t' ← transport_run acts t; transport_run acts' t'.
Proof.
  revert t. induction acts as [|a acts IH]; intros t; cbn; [done|]. destruct (transport_step a t) as [r|]; cbn; [apply IH|done].
Qed.

Lemma filter_whole {X} (P : X -> Prop) `{!forall x, Decision (P x)} (l : list X) : (forall x, x ∈ l -> P x) -> filter P l = l.
Proof.
  induction l as [|x l IH]; intros Hl; [done|]. rewrite filter_cons_True by (apply Hl; by left). f_equal. apply IH. intros y Hy. apply Hl. by right.
Qed.

(** * The invariant *)

Record transport_ok (t : Transport) : Prop := {
  to_states : Forall state_ok (operations t);
  to_known : Forall (fun id => id < length (operations t)) (submissions t ++ retirements t);
  to_called : NoDup (retirements t);
  to_retired : forall id, id ∈ retirements t -> exists st, operations t !! id = Some st /\ transport st = retired /\ is_Some (outcome st);
  to_outcome : forall id st, operations t !! id = Some st -> transport st = retired -> is_Some (outcome st);
  to_stopped : is_Some (stopped t) -> all_retired t = true;
}.

Lemma all_retired_spec t :
  all_retired t = true <-> forall id, id < length (operations t) -> id ∈ submissions t \/ id ∈ retirements t.
Proof.
  unfold all_retired. rewrite forallb_forall. split; intros H id Hid.
  - specialize (H id). rewrite orb_true_iff, !bool_decide_eq_true in H. apply H. apply in_seq. lia.
  - apply in_seq in Hid. rewrite orb_true_iff, !bool_decide_eq_true. apply H. lia.
Qed.

Lemma raw_section_Some id f t r :
  raw_section id f t = Some r -> exists st s, operations t !! id = Some st /\ f st = Some s /\
    r = (set_operations (<[id := s.1]> (operations t)) t, s.2).
Proof. unfold raw_section. intros H. inv_binds. eauto 6. Qed.

(** A section that keeps an operation sound keeps the transport sound. *)
Lemma raw_section_keeps id f t r :
  transport_ok t -> raw_section id f t = Some r ->
  (forall st s, state_ok st -> f st = Some s -> section_ok st s.1 s.2 /\ (transport st = retired -> transport s.1 = retired) /\
     ((transport st = retired -> is_Some (outcome st)) -> transport s.1 = retired -> is_Some (outcome s.1))) ->
  transport_ok r.1.
Proof.
  intros [H1 H2 H3 H4 H5 H6] (st & s & Hid & Hf & ->)%raw_section_Some Hs.
  assert (state_ok st) as Hst by by eapply Forall_lookup_1 in H1. destruct (Hs st s Hst Hf) as ([] & Ht & Ho).
  specialize (Ho (H5 id st Hid)). assert (id < length (operations t)) as Hlt by by eapply lookup_lt_Some.
  split; cbn -[all_retired]; try rewrite length_insert; try done.
  - by apply Forall_insert.
  - intros k Hk. destruct (H4 k Hk) as (st1 & E1 & E2 & E3). destruct (decide (k = id)) as [->|Hn].
    + rewrite list_lookup_insert_eq by done. rewrite E1 in Hid. injection Hid as ->. exists s.1. split_and!; auto.
    + rewrite list_lookup_insert_ne by done. eauto.
  - intros k st1 [(-> & <- & _)|[_ ?]]%list_lookup_insert_Some; eauto.
  - intros Hx%H6. rewrite all_retired_spec in *. cbn. rewrite length_insert. done.
Qed.

Lemma publish_raw_keeps r (st : RawOperation) s : state_ok st -> publish_raw r st = Some s ->
  section_ok st s.1 s.2 /\ transport s.1 = transport st /\ outcome st = None /\ transport st <> retired /\ outcome s.1 = Some r /\
  observer s.1 = observer st /\ observer_token s.1 = observer_token st /\
  s.2 = NotifyAll :: enqueue_observer st.
Proof.
  intros Hok H. unfold publish_raw in H. destruct (_ || _) eqn:E; [done|]. apply orb_false_iff in E as [E1 E2].
  unfold is_answered in E1. unfold is_retired in E2. to_props. unfold publish_section in H. injection H as <-.
  destruct (publish_ok r st Hok) as (Hs & _). assert (outcome st = None) as Hn by by apply eq_None_not_Some.
  unfold publish in *. rewrite Hn in *. cbn in *. by split_and!.
Qed.

Lemma retire_raw_keeps (st : RawOperation) s : state_ok st -> retire_raw st = Some s ->
  section_ok st s.1 s.2 /\ transport s.1 = retired /\ is_Some (outcome st) /\ outcome s.1 = outcome st /\
  transport st <> retired /\ observer s.1 = observer st /\ observer_token s.1 = observer_token st /\ omap enqueued_token s.2 = [].
Proof.
  intros Hok H. unfold retire_raw in H. destruct (_ && _) eqn:E; [|done]. apply andb_true_iff in E as [E1 E2].
  unfold is_answered in E1. unfold is_retired in E2. to_props.
  destruct (retire_section_ok st Hok) as (s' & E' & Hs & Ht). rewrite H in E'. injection E' as <-.
  destruct (retire_ok st Hok) as (st' & es & E' & _ & _ & Ho & Htok & He & _). rewrite H in E'. injection E' as ->. cbn -[omap] in *.
  split_and!; try done.
  - by apply (sec_outcome _ _ _ Hs).
  - rewrite He, bool_decide_false; [done|]. intros Hn. rewrite Hn in E1. by destruct E1.
Qed.

Lemma advance_raw_keeps phase (st : RawOperation) s : state_ok st -> advance_raw phase st = Some s ->
  section_ok st s.1 s.2 /\ transport st <> retired /\ transport s.1 <> retired /\ outcome s.1 = outcome st /\
  observer s.1 = observer st /\ observer_token s.1 = observer_token st /\ s.2 = [].
Proof.
  intros Hok H. unfold advance_raw in H. destruct (_ || _) eqn:E; [done|]. apply orb_false_iff in E as [E1 E2]. unfold is_retired in E1. to_props.
  assert (transport_rank (transport st) <= transport_rank phase) as Hle.
  { unfold advance_section, advance_transport in H. destruct (_ <=? _)%nat eqn:El; [by apply Nat.leb_le|done]. }
  destruct (advance_section_ok st phase Hok) as (st' & E' & Hs & Ht & Ho); try done.
  rewrite H in E'. injection E' as ->. unfold advance_section, advance_transport in H. rewrite (proj2 (Nat.leb_le _ _) Hle) in H.
  injection H as <-. by split_and!.
Qed.

Lemma transport_step_keeps a t r : transport_ok t -> transport_step a t = Some r -> transport_ok r.1.
Proof.
  intros Hok H. pose proof Hok as [H1 H2 H3 H4 H5 H6]. destruct a as [|id|id x|id ph|id|id|id c| |b]; cbn in H.
  - injection H as <-. split; cbn -[all_retired]; try rewrite length_app; try done.
    + apply Forall_app. split; [done|]. apply Forall_singleton, new_state_ok.
    + rewrite !Forall_app in *. destruct H2 as [Ha Hb]. split_and!; [|apply Forall_singleton; cbn; lia|];
        (eapply Forall_impl; [done|]; cbn; lia).
    + intros id Hid. destruct (H4 id Hid) as (st & E & ?). exists st. split; [|done]. by apply lookup_app_l_Some.
    + intros id st [E|[_ (_ & <-)%list_lookup_singleton_Some]]%lookup_app_Some Ht; [eauto|done].
    + intros Hx%H6. rewrite all_retired_spec in *. cbn. rewrite ?length_app. cbn. intros id Hid.
      destruct (decide (id = length (operations t))) as [->|]; [left; apply elem_of_app; right; by left|].
      destruct (Hx id); [lia|left; apply elem_of_app; by left|by right].
  - destruct (_ && _) eqn:E; [|done]. injection H as <-. apply andb_true_iff in E as [_ E].
    rewrite orb_true_iff, !bool_decide_eq_true in E. split; cbn -[all_retired]; try done.
    + rewrite Forall_app in *. destruct H2 as [Ha Hb]. split; [|done]. apply Forall_forall. intros k [_ Hk]%list_elem_of_filter.
      rewrite Forall_forall in Ha. auto.
    + intros Hs. specialize (H6 Hs). rewrite all_retired_spec in *. cbn. intros k Hk. destruct (H6 k Hk) as [Hin|Hin]; [|by right].
      destruct (decide (k = id)) as [->|]; [|left; by apply list_elem_of_filter]. right. destruct E as [E|E]; [|done].
      rewrite E in Hs. by destruct Hs.
  - eapply raw_section_keeps; [done..|]. intros st s Hst Hf. destruct (publish_raw_keeps _ _ _ Hst Hf) as (? & E1 & E2 & E3 & E4 & _).
    split_and!; try done; by rewrite ?E1, ?E4.
  - eapply raw_section_keeps; [done..|]. intros st s Hst Hf. destruct (advance_raw_keeps _ _ _ Hst Hf) as (? & E1 & E2 & _). by split_and!.
  - eapply raw_section_keeps; [done..|]. intros st s Hst Hf. destruct (retire_raw_keeps _ _ Hst Hf) as (? & E1 & E2 & E3 & _).
    split_and!; try done. by rewrite E3.
  - inv_binds. destruct (_ && _) eqn:E; [|done]. injection H as <-. rewrite !andb_true_iff, negb_true_iff in E.
    unfold is_answered, is_retired in E. rewrite !bool_decide_eq_true, bool_decide_eq_false in E. destruct E as [[E1 E2] E3].
    split; cbn -[all_retired]; try done.
    + rewrite !Forall_app in *. destruct H2 as [Ha Hb]. split_and!; [done..|]. apply Forall_singleton. by eapply lookup_lt_Some.
    + apply NoDup_app. split_and!; [done| |apply NoDup_singleton]. by intros k Hk ->%list_elem_of_singleton.
    + intros k [Hk| ->%list_elem_of_singleton]%elem_of_app; [auto|]. eauto.
    + intros Hs%H6. rewrite all_retired_spec in *. cbn. intros k Hk. destruct (Hs k Hk); [by left|right; apply elem_of_app; by left].
  - case_bool_decide; [done|]. eapply raw_section_keeps; [done..|]. intros st s Hst Hf.
    pose proof (handle_section_ok c st s Hst Hf) as Hs. pose proof (handle_transport c st s Hf) as Ht. rewrite Ht. split_and!; try done.
    intros Ho E. rewrite (sec_outcome _ _ _ Hs); auto.
  - injection H as <-. by split.
  - destruct (bool_decide (stopped t = None)), (all_retired t) eqn:E; try done. injection H as <-. by split.
Qed.
