(* ===== verification/Roster.v ===== *)
(** The roster of an engine's operations: where each one is.

    An engine answers for every operation it made.  A roster lists them once each, with the
    phase its transport is in, whether it is answered, whether anything was started for it and
    whether its retirement hook was called; [roster_ok] ties it to the operations' own states
    and to the logs of what was started and of the hooks that were called.  The lemmas move
    one operation at a time. *)

From S2P Require Import Prelude Command Wake CompletionQueue OperationState Operations.

Record Place := MkPlace { phase : TransportPhase; told : bool; born : bool; called : bool }.

Section roster.
Context {A : Type}.

Abbreviation Answer := (OperationResult (A := A)).
Abbreviation Ops := (Pool A).
Abbreviation Entry := (nat * Place)%type.

(** The answer says that nothing was started. *)
Definition says_not_started (a : Answer) : bool :=
  match a with Unexpected f => bool_decide (delivery f = not_started) | Value _ => false end.

Definition pool_outcome (id : nat) (p : Ops) : option Answer := op ← pool_operations p !! id; outcome op.2.

Definition held_entry (e : Entry) : list Holding :=
  if bool_decide (phase e.2 = retired) then [] else [(e.1, phase e.2, told e.2)].
Definition held (l : list Entry) : list Holding := l ≫= held_entry.

(** An entry tells the truth about its operation. *)
Definition entry_ok (p : Ops) (started hooked : list nat) (e : Entry) : Prop :=
  match pool_outcome e.1 p with
  | None => told e.2 = false
  | Some a => told e.2 = true /\ says_not_started a = negb (born e.2)
  end /\ (born e.2 = true <-> e.1 ∈ started) /\ (called e.2 = true <-> e.1 ∈ hooked).

(** What was started or had its hook called is on the roster. *)
Definition logs_ok (n : nat) (started hooked : list nat) : Prop :=
  Forall (fun id => id < n) started /\ Forall (fun id => id < n) hooked.

Record roster_ok (limit : nat) (p : Ops) (started hooked : list nat) (l : list Entry) : Prop := {
  ro_ids : l.*1 ≡ₚ seq 0 (length (pool_operations p));
  ro_pool : pool_ok limit p (held l);
  ro_entries : Forall (entry_ok p started hooked) l;
  ro_started : NoDup started;
  ro_hooked : NoDup hooked;
  ro_logs : logs_ok (length (pool_operations p)) started hooked;
}.

#[export] Instance roster_ok_Permutation limit p started hooked : Proper ((≡ₚ) ==> iff) (roster_ok limit p started hooked).
Proof.
  assert (forall l l', l ≡ₚ l' -> roster_ok limit p started hooked l -> roster_ok limit p started hooked l') as H.
  { intros l l' E []. split; try done; [by rewrite <-E| |by rewrite <-E]. eapply pool_ok_Permutation; [|done]. by apply bind_Permutation. }
  intros l l' E. split; apply H; by rewrite E.
Qed.

(** * Outcomes *)

Lemma pool_section_length id f (p p' : Ops) :
  pool_section id f p = Some p' -> length (pool_operations p') = length (pool_operations p).
Proof. intros (? & ? & ? & ? & ? & ->)%pool_section_Some. cbn. apply length_insert. Qed.

Lemma pool_section_outcome id f (p p' : Ops) k :
  pool_section id f p = Some p' ->
  (forall st r, outcome st = pool_outcome id p -> f st = Some r -> k = id -> outcome r.1 = outcome st) ->
  pool_outcome k p' = pool_outcome k p.
Proof.
  intros (adm & st & r & Hid & Hf & ->)%pool_section_Some H. unfold pool_outcome in *. cbn.
  destruct (decide (k = id)) as [->|Hk]; [|by rewrite list_lookup_insert_ne].
  rewrite list_lookup_insert_eq by by eapply lookup_lt_Some. rewrite Hid in *. cbn in *. by apply H.
Qed.

Lemma pool_publish_outcome id a (p p' : Ops) k :
  pool_section id (publish_section a) p = Some p' -> pool_outcome id p = None ->
  pool_outcome k p' = if decide (k = id) then Some a else pool_outcome k p.
Proof.
  intros H Hn. destruct (decide (k = id)) as [->|Hk]; [|by eapply pool_section_outcome].
  apply pool_section_Some in H as (adm & st & r & Hid & [= <-] & ->). unfold pool_outcome in *. cbn.
  rewrite list_lookup_insert_eq by by eapply lookup_lt_Some. rewrite Hid in Hn. cbn in *.
  unfold publish. by rewrite Hn.
Qed.

Lemma retire_keeps_outcome (st : OperationState (A := A)) r a : outcome st = Some a -> retire st = Some r -> outcome r.1 = Some a.
Proof.
  intros Ho H. unfold retire in H. cbn in H. rewrite Ho in H. injection H as <-.
  unfold release_hook_locked. by case_match.
Qed.

Lemma handle_keeps_outcome c (st : OperationState (A := A)) (r : OperationState (A := A) * list effect) :
  handle_call c st = Some r -> outcome r.1 = outcome st.
Proof.
  assert (forall s : OperationState (A := A), outcome (release_hook_locked s).1 = outcome s) as Hr.
  { intros s. unfold release_hook_locked. by case_match. }
  destruct c; cbn; unfold request_cancel, select_blocking, begin_wait, finish_wait, select_callback,
    take_callback; intros H; inv_binds; cbn; try done; try by rewrite Hr.
  - unfold detach_callback. case_match; [done|]. by rewrite Hr.
  - unfold detach_unselected. case_match; [|done]. by rewrite Hr.
Qed.

Lemma pool_outcome_app id (p : Ops) ops n r op :
  pool_operations p = ops -> pool_outcome id (MkPool (pool_limit p) n (ops ++ [op]) r) =
  if decide (id = length ops) then outcome op.2 else pool_outcome id p.
Proof.
  intros <-. unfold pool_outcome. cbn. destruct (decide _) as [->|Hn]; [by rewrite list_lookup_middle|].
  destruct (decide (id < length (pool_operations p))) as [Hl|Hl]; [by rewrite lookup_app_l|].
  by rewrite !lookup_ge_None_2 by (rewrite ?length_app; cbn; lia).
Qed.

Lemma pool_outcome_ge id (p : Ops) : length (pool_operations p) <= id -> pool_outcome id p = None.
Proof. intros H. unfold pool_outcome. by rewrite lookup_ge_None_2. Qed.

Lemma pool_admit_outcome id (p : Ops) : pool_outcome id (pool_admit p) = pool_outcome id p.
Proof.
  unfold pool_admit. rewrite (pool_outcome_app id p _ _ _ _ eq_refl). destruct (decide _) as [->|]; [|done].
  by rewrite pool_outcome_ge.
Qed.

(** * Moves *)

Lemma roster_entry_same p p' started started' hooked hooked' e :
  pool_outcome e.1 p' = pool_outcome e.1 p -> (e.1 ∈ started' <-> e.1 ∈ started) -> (e.1 ∈ hooked' <-> e.1 ∈ hooked) ->
  entry_ok p started hooked e -> entry_ok p' started' hooked' e.
Proof. unfold entry_ok. intros -> -> ->. done. Qed.

Lemma entries_same p p' started started' hooked hooked' id l :
  id ∉ l.*1 ->
  (forall k, k <> id -> pool_outcome k p' = pool_outcome k p /\ (k ∈ started' <-> k ∈ started) /\ (k ∈ hooked' <-> k ∈ hooked)) ->
  Forall (entry_ok p started hooked) l -> Forall (entry_ok p' started' hooked') l.
Proof.
  intros Hn H Hl. apply Forall_forall. intros e He. rewrite Forall_forall in Hl.
  destruct (H e.1) as (H1 & H2 & H3).
  { intros <-. apply Hn. by apply list_elem_of_fmap_2. }
  eapply roster_entry_same; eauto.
Qed.

Lemma roster_head limit p started hooked e l :
  roster_ok limit p started hooked (e :: l) -> e.1 ∉ l.*1 /\ e.1 < length (pool_operations p) /\ entry_ok p started hooked e.
Proof.
  intros [Hi _ Hl _ _ _]. apply Forall_cons in Hl as [He _]. cbn in Hi.
  assert (NoDup (e.1 :: l.*1)) as [Hn _]%NoDup_cons by (rewrite Hi; apply NoDup_seq).
  split_and!; [done| |done].
  assert (e.1 ∈ seq 0 (length (pool_operations p))) as H by (rewrite <-Hi; by left).
  apply elem_of_seq in H. lia.
Qed.

(** One operation moves, by a section of its state or not at all. *)
Lemma roster_move limit p p' started started' hooked hooked' id x y l :
  roster_ok limit p started hooked ((id, x) :: l) ->
  length (pool_operations p') = length (pool_operations p) ->
  pool_ok limit p' (held ((id, y) :: l)) ->
  (forall k, k <> id -> pool_outcome k p' = pool_outcome k p /\ (k ∈ started' <-> k ∈ started) /\ (k ∈ hooked' <-> k ∈ hooked)) ->
  entry_ok p' started' hooked' (id, y) -> NoDup started' -> NoDup hooked' ->
  logs_ok (length (pool_operations p)) started' hooked' ->
  roster_ok limit p' started' hooked' ((id, y) :: l).
Proof.
  intros Hr Hl Hp Hk Hy H1 H2 H3. pose proof (roster_head _ _ _ _ _ _ Hr) as (Hn & _ & _). destruct Hr as [Hi _ He _ _ _].
  split; try done; [by rewrite Hl| |by rewrite Hl]. apply Forall_cons in He as [_ He]. apply Forall_cons. split; [done|].
  by eapply (entries_same p p' started started').
Qed.

Lemma held_cons id x l : phase x <> retired -> held ((id, x) :: l) = (id, phase x, told x) :: held l.
Proof. intros H. unfold held. cbn. unfold held_entry at 1. cbn. by rewrite bool_decide_false. Qed.

Lemma held_cons_retired id x l : phase x = retired -> held ((id, x) :: l) = held l.
Proof. intros H. unfold held. cbn. unfold held_entry at 1. cbn. by rewrite bool_decide_true. Qed.

Definition at_phase (ph : TransportPhase) (x : Place) : Place := MkPlace ph (told x) (born x) (called x).
Definition as_told (x : Place) : Place := MkPlace (phase x) true (born x) (called x).
Definition as_born (x : Place) : Place := MkPlace (phase x) (told x) true (called x).
Definition as_called (x : Place) : Place := MkPlace (phase x) (told x) (born x) true.

Lemma roster_advance limit p started hooked id x l ph :
  roster_ok limit p started hooked ((id, x) :: l) -> phase x <> retired -> ph <> retired ->
  transport_rank (phase x) <= transport_rank ph ->
  exists p', pool_section id (advance_section ph) p = Some p' /\ roster_ok limit p' started hooked ((id, at_phase ph x) :: l).
Proof.
  intros Hr Hx Hp Hle. pose proof (ro_pool _ _ _ _ _ Hr) as Hpool. rewrite held_cons in Hpool by done.
  destruct (pool_advance limit p id (phase x) (told x) (held l) ph) as (p' & E & H); [done..|].
  exists p'. split; [done|].
  assert (forall k, pool_outcome k p' = pool_outcome k p) as Ho.
  { intros k. eapply pool_section_outcome; [done|]. intros st r _ Hf _. unfold advance_section in Hf.
    apply bind_Some_inv in Hf as (st' & Hst & [= <-]). unfold advance_transport in Hst.
    apply bind_Some_inv in Hst as ([] & _ & [= <-]). done. }
  pose proof (roster_head _ _ _ _ _ _ Hr) as (_ & _ & Hx'). eapply (roster_move limit p p'); try apply Hr; try done.
  - by eapply pool_section_length.
  - by rewrite held_cons.
  - unfold entry_ok in *. cbn in *. by rewrite Ho.
Qed.

Lemma roster_publish limit p started hooked id x l a :
  roster_ok limit p started hooked ((id, x) :: l) -> phase x <> retired -> told x = false ->
  says_not_started a = negb (born x) ->
  exists p', pool_section id (publish_section a) p = Some p' /\ roster_ok limit p' started hooked ((id, as_told x) :: l).
Proof.
  intros Hr Hx Ht Ha. pose proof (ro_pool _ _ _ _ _ Hr) as Hpool. rewrite held_cons in Hpool by done.
  destruct (pool_publish limit p id (phase x) (told x) (held l) a) as (p' & E & H); [done..|].
  exists p'. split; [done|]. pose proof (roster_head _ _ _ _ _ _ Hr) as (_ & _ & Hx').
  assert (pool_outcome id p = None) as Hn.
  { destruct Hx' as [Hx' _]. cbn in Hx'. destruct (pool_outcome id p); [|done]. destruct Hx'. congruence. }
  assert (forall k, pool_outcome k p' = if decide (k = id) then Some a else pool_outcome k p) as Ho
    by (intros; by eapply pool_publish_outcome).
  eapply (roster_move limit p p'); try apply Hr; try done.
  - by eapply pool_section_length.
  - by rewrite held_cons.
  - intros k Hk. by rewrite Ho, decide_False.
  - unfold entry_ok in *. cbn in *. rewrite Ho, decide_True by done. by destruct Hx' as [_ ?].
Qed.

Lemma roster_retire limit p started hooked id x l :
  roster_ok limit p started hooked ((id, x) :: l) -> phase x <> retired -> told x = true ->
  exists p', pool_section id retire p = Some p' /\ roster_ok limit p' started hooked ((id, at_phase retired x) :: l).
Proof.
  intros Hr Hx Ht. pose proof (ro_pool _ _ _ _ _ Hr) as Hpool. rewrite held_cons in Hpool by done.
  destruct (pool_retire limit p id (phase x) (told x) (held l)) as (p' & E & H); [done..|].
  exists p'. split; [done|]. pose proof (roster_head _ _ _ _ _ _ Hr) as (_ & _ & Hx').
  assert (forall k, pool_outcome k p' = pool_outcome k p) as Ho.
  { intros k. eapply pool_section_outcome; [done|]. intros st r Hst Hf ->. destruct Hx' as [Hx' _]. cbn in Hx'.
    rewrite <-Hst in Hx'. destruct (outcome st) as [a|] eqn:E1; [|congruence]. by eapply retire_keeps_outcome. }
  eapply (roster_move limit p p'); try apply Hr; try done.
  - by eapply pool_section_length.
  - unfold entry_ok in *. cbn in *. by rewrite Ho.
Qed.

Lemma roster_start limit p started hooked id x l :
  roster_ok limit p started hooked ((id, x) :: l) -> told x = false -> born x = false ->
  roster_ok limit p (started ++ [id]) hooked ((id, as_born x) :: l).
Proof.
  intros Hr Ht Hb. pose proof (roster_head _ _ _ _ _ _ Hr) as (_ & Hlt & Ho & Hs & Hc). cbn in *.
  pose proof (ro_logs _ _ _ _ _ Hr) as [Hl1 Hl2].
  assert (id ∉ started) as Hn by (intros H%Hs; congruence).
  eapply (roster_move limit p p); try apply Hr; try done.
  - intros k Hk. split_and!; [done| |done]. rewrite elem_of_app, list_elem_of_singleton. tauto.
  - split_and!; cbn; [|rewrite elem_of_app, list_elem_of_singleton; tauto|done].
    destruct (pool_outcome id p); [|done]. destruct Ho. congruence.
  - apply NoDup_app. split_and!; [apply Hr| |apply NoDup_singleton].
    intros k Hk ->%list_elem_of_singleton. done.
  - split; [|done]. apply Forall_app. by rewrite Forall_singleton.
Qed.

Lemma roster_call limit p started hooked id x l :
  roster_ok limit p started hooked ((id, x) :: l) -> called x = false ->
  roster_ok limit p started (hooked ++ [id]) ((id, as_called x) :: l).
Proof.
  intros Hr Hb. pose proof (roster_head _ _ _ _ _ _ Hr) as (_ & Hlt & Ho & Hs & Hc). cbn in *.
  pose proof (ro_logs _ _ _ _ _ Hr) as [Hl1 Hl2].
  assert (id ∉ hooked) as Hn by (intros H%Hc; congruence).
  eapply (roster_move limit p p); try apply Hr; try done.
  - intros k Hk. split_and!; [done..|]. rewrite elem_of_app, list_elem_of_singleton. tauto.
  - split_and!; cbn; [done..|rewrite elem_of_app, list_elem_of_singleton; tauto].
  - apply NoDup_app. split_and!; [apply Hr| |apply NoDup_singleton].
    intros k Hk ->%list_elem_of_singleton. done.
  - split; [done|]. apply Forall_app. by rewrite Forall_singleton.
Qed.

(** * New operations *)

Lemma roster_fresh limit p started hooked l :
  roster_ok limit p started hooked l -> length (pool_operations p) ∉ l.*1.
Proof. intros [Hi _ _ _ _ _]. rewrite Hi, elem_of_seq. lia. Qed.

Lemma roster_grow limit p p' started hooked hooked' l e :
  roster_ok limit p started hooked l ->
  length (pool_operations p') = S (length (pool_operations p)) ->
  (forall k, k < length (pool_operations p) -> pool_outcome k p' = pool_outcome k p) ->
  (forall k, k <> length (pool_operations p) -> k ∈ hooked' <-> k ∈ hooked) ->
  Forall (fun id => id < length (pool_operations p')) hooked' -> NoDup hooked' ->
  e.1 = length (pool_operations p) -> pool_ok limit p' (held (e :: l)) -> entry_ok p' started hooked' e ->
  roster_ok limit p' started hooked' (e :: l).
Proof.
  intros Hr Hlen Ho Hh Hlog Hnd He Hp Hy. destruct Hr as [Hi _ Hl Hs _ [Hlog1 _]]. split; try done.
  - rewrite Hlen, seq_S. cbn. rewrite He, Hi. solve_Permutation.
  - apply Forall_cons. split; [done|]. apply Forall_forall. intros x Hx.
    assert (x.1 < length (pool_operations p)) as Hlt.
    { assert (x.1 ∈ seq 0 (length (pool_operations p))) as H by (rewrite <-Hi; by apply list_elem_of_fmap_2).
      apply elem_of_seq in H. lia. }
    rewrite Forall_forall in Hl. eapply roster_entry_same; [| | |by apply Hl]; [by apply Ho|done|]. apply Hh. lia.
  - split; [|done]. eapply Forall_impl; [exact Hlog1|]. cbn. lia.
Qed.

Definition new_place : Place := MkPlace queued false false false.
Definition refused_place : Place := MkPlace retired true false true.

Lemma not_logged n l : Forall (fun id => id < n) l -> n ∉ l.
Proof. rewrite Forall_forall. intros H Hn. specialize (H _ Hn). lia. Qed.

Lemma roster_new limit p started hooked l :
  roster_ok limit p started hooked l -> pool_full p = false ->
  roster_ok limit (pool_admit p) started hooked ((length (pool_operations p), new_place) :: l).
Proof.
  intros Hr Hf. pose proof (ro_logs _ _ _ _ _ Hr) as [Hl1 Hl2].
  pose proof (pool_admit_ok limit p _ (ro_pool _ _ _ _ _ Hr) Hf) as Hp.
  eapply (roster_grow limit p); try apply Hr; try done.
  - cbn. rewrite length_app. cbn. lia.
  - intros k Hk. apply pool_admit_outcome.
  - cbn. rewrite length_app. cbn. eapply Forall_impl; [exact Hl2|]. cbn. lia.
  - unfold entry_ok. rewrite pool_admit_outcome, pool_outcome_ge by done. cbn.
    split_and!; [done| |]; (split; [done|]); intros H; exfalso;
      [by apply (not_logged _ _ Hl1)|by apply (not_logged _ _ Hl2)].
Qed.

Lemma roster_refuse limit p started hooked l f :
  roster_ok limit p started hooked l -> delivery f = not_started ->
  exists p', pool_refuse f p = Some p' /\ length (pool_operations p') = S (length (pool_operations p)) /\
    roster_ok limit p' started (hooked ++ [length (pool_operations p)]) ((length (pool_operations p), refused_place) :: l).
Proof.
  intros Hr Hf. pose proof (ro_logs _ _ _ _ _ Hr) as [Hl1 Hl2]. set (n := length (pool_operations p)) in *.
  destruct (pool_refuse_ok limit p _ f (ro_pool _ _ _ _ _ Hr)) as (p' & E & Hp).
  assert (length (pool_operations p') = S n /\ forall k, pool_outcome k p' = if decide (k = n) then Some (Unexpected f) else pool_outcome k p)
    as [Hlen Ho].
  { unfold pool_refuse in E. apply bind_Some_inv in E as (r & Hret & [= <-]). split; [cbn; rewrite length_app; cbn; lia|].
    intros k. rewrite (pool_outcome_app k p _ _ _ _ eq_refl). destruct (decide _); [|done]. cbn.
    eapply retire_keeps_outcome; [|done]. done. }
  exists p'. split_and!; [done..|]. eapply (roster_grow limit p); try apply Hr; try done.
  - intros k Hk. rewrite Ho, decide_False by lia. done.
  - intros k Hk. rewrite elem_of_app, list_elem_of_singleton. tauto.
  - rewrite Hlen. apply Forall_app. split; [|apply Forall_singleton; lia]. eapply Forall_impl; [exact Hl2|]. cbn. lia.
  - apply NoDup_app. split_and!; [apply Hr| |apply NoDup_singleton]. intros k Hk ->%list_elem_of_singleton.
    by apply (not_logged _ _ Hl2).
  - unfold entry_ok. cbn. rewrite Ho, decide_True by done. split; [split; [done|by apply bool_decide_eq_true]|split].
    + split; [done|]. intros H. exfalso. by apply (not_logged _ _ Hl1).
    + rewrite elem_of_app, list_elem_of_singleton. tauto.
Qed.

(** * Steps that move nothing *)

Lemma roster_still limit p p' started hooked l :
  roster_ok limit p started hooked l -> length (pool_operations p') = length (pool_operations p) ->
  pool_ok limit p' (held l) -> (forall k, pool_outcome k p' = pool_outcome k p) -> roster_ok limit p' started hooked l.
Proof.
  intros [Hi _ Hl Hs Hh Hlog] Hlen Hp Ho. split; try done; [by rewrite Hlen| |by rewrite Hlen].
  eapply Forall_impl; [done|]. intros e. by apply roster_entry_same.
Qed.

Lemma roster_handle limit p started hooked l id c p' :
  roster_ok limit p started hooked l -> pool_section id (handle_call c) p = Some p' -> roster_ok limit p' started hooked l.
Proof.
  intros Hr E. eapply (roster_still limit p); [done| | |].
  - by eapply pool_section_length.
  - eapply pool_handle; [|done]. by apply Hr.
  - intros k. eapply pool_section_outcome; [done|]. intros st r _ Hf _. by eapply handle_keeps_outcome.
Qed.

Lemma roster_release limit p started hooked l p' :
  roster_ok limit p started hooked l -> pool_release p = Some p' -> roster_ok limit p' started hooked l.
Proof.
  intros Hr E. assert (pool_operations p' = pool_operations p) as Ho.
  { unfold pool_release in E. destruct (pool_releasing p); [done|]. by injection E as <-. }
  eapply (roster_still limit p); [done| | |].
  - by rewrite Ho.
  - eapply pool_release_ok; [|done]. by apply Hr.
  - intros k. unfold pool_outcome. by rewrite Ho.
Qed.
End roster.
