(* ===== verification/Closing.v ===== *)
(** Closing an engine: [close] of [src/command_engine.cpp] and [src/process_engine.cpp].

    Both engines close the same way: the first caller stops the engine and joins its threads,
    callers that come meanwhile wait for it, later ones are given its report.  [Closing] is
    that protocol over any engine: how it is stopped, when its threads have returned, what
    its report is. *)

From S2P Require Import Prelude.

(** What the protocol asks of an engine. *)
Class Stoppable (E Act R : Type) := {
  stop : E -> E;
  is_stopped : E -> bool;
  all_done : E -> bool;
  summary : E -> R;
  engine_step : Act -> E -> option E;
  stop_stops : forall e, is_stopped (stop e) = true;
  stop_done : forall e, all_done e = true -> all_done (stop e) = true;
  stop_summary : forall e, all_done e = true -> summary (stop e) = summary e;
  step_stopped : forall a e e', engine_step a e = Some e' -> is_stopped e = true -> is_stopped e' = true;
  step_done : forall a e e', engine_step a e = Some e' -> is_stopped e = true -> all_done e = true ->
    all_done e' = true /\ summary e' = summary e;
}.

(** Where a caller of [close] is: not yet in it, joining the threads, waiting for the
    caller that joins them, back with a report. *)
Inductive Closer (R : Type) := Outside | Joining | Awaiting | Closed (report : R).
Arguments Outside {R}.
Arguments Joining {R}.
Arguments Awaiting {R}.
Arguments Closed {R} report.

Record Closing (E R : Type) := MkClosing {
  closing_engine : E;
  close_joining : bool;
  terminal : option R;
  closers : list (Closer R);
}.
Arguments MkClosing {E R} closing_engine close_joining terminal closers.
Arguments closing_engine {E R} c.
Arguments close_joining {E R} c.
Arguments terminal {E R} c.
Arguments closers {E R} c.

Section closing.
Context {E Act R : Type} {engine : Stoppable E Act R}.

Definition set_closer (k : nat) (x : Closer R) (c : Closing E R) : Closing E R :=
  MkClosing (closing_engine c) (close_joining c) (terminal c) (<[k := x]> (closers c)).

(** [close] up to the joins, for the [k]th caller. *)
Definition close_begin (k : nat) (c : Closing E R) : option (Closing E R) :=
  match closers c !! k with
  | Some Outside =>
      match terminal c with
      | Some report => Some (set_closer k (Closed report) c)
      | None =>
          if close_joining c then Some (set_closer k Awaiting c)
          else Some (set_closer k Joining (MkClosing (stop (closing_engine c)) true None (closers c)))
      end
  | _ => None
  end.

(** The joins return when every thread has; then the engine is terminal. *)
Definition close_join (k : nat) (c : Closing E R) : option (Closing E R) :=
  match closers c !! k with
  | Some Joining =>
      if all_done (closing_engine c) then
        let report := summary (closing_engine c) in
        Some (set_closer k (Closed report) (MkClosing (closing_engine c) (close_joining c) (Some report) (closers c)))
      else None
  | _ => None
  end.

Definition close_wake (k : nat) (c : Closing E R) : option (Closing E R) :=
  match closers c !! k, terminal c with
  | Some Awaiting, Some report => Some (set_closer k (Closed report) c)
  | _, _ => None
  end.

Inductive closing_action := CloseBegin (k : nat) | CloseJoin (k : nat) | CloseWake (k : nat)
  | EngineStep (a : Act).

Definition closing_step (a : closing_action) (c : Closing E R) : option (Closing E R) :=
  match a with
  | CloseBegin k => close_begin k c
  | CloseJoin k => close_join k c
  | CloseWake k => close_wake k c
  | EngineStep a =>
      e ← engine_step a (closing_engine c);
      Some (MkClosing e (close_joining c) (terminal c) (closers c))
  end.

Fixpoint close_run (acts : list closing_action) (c : Closing E R) : option (Closing E R) :=
  match acts with
  | [] => Some c
  | a :: rest => c ← closing_step a c; close_run rest c
  end.

(** [m] callers of [close], and an engine in the state [e]. *)
Definition begin_closing (e : E) (m : nat) : Closing E R := MkClosing e false None (replicate m Outside).

(** * The invariant *)

Definition joins (x : Closer R) : nat := match x with Joining => 1 | _ => 0 end.
Definition joiners (l : list (Closer R)) : nat := sum_list_with joins l.
Definition counts (b : bool) : nat := if b then 1 else 0.

Record closing_ok (c : Closing E R) : Prop := {
  cl_joining : joiners (closers c) + counts (bool_decide (is_Some (terminal c))) = counts (close_joining c);
  cl_stop : close_joining c = true -> is_stopped (closing_engine c) = true;
  cl_terminal : forall report, terminal c = Some report ->
    all_done (closing_engine c) = true /\ summary (closing_engine c) = report;
  cl_closed : forall report, Closed report ∈ closers c -> terminal c = Some report;
}.

Lemma closer_set_closed (l : list (Closer R)) k x report :
  Closed report ∈ <[k := x]> l -> x = Closed report \/ Closed report ∈ l.
Proof.
  intros (i & Hi)%list_elem_of_lookup. apply list_lookup_insert_Some in Hi as [(_ & H & _)|[_ H]]; [by left|].
  right. by eapply list_elem_of_lookup_2.
Qed.

Lemma begin_closing_ok e m : closing_ok (begin_closing e m).
Proof.
  split; cbn; try done.
  - unfold joiners. induction m; [done|]. by cbn.
  - intros report (i & Hi)%list_elem_of_lookup. by apply lookup_replicate in Hi as [? _].
Qed.

Lemma closing_keeps a c c' : closing_ok c -> closing_step a c = Some c' -> closing_ok c'.
Proof.
  intros [Hj Hs Ht Hc]. destruct a as [k|k|k|a]; cbn [closing_step]; intros H.
  - unfold close_begin in H. destruct (closers c !! k) as [[]|] eqn:Hk; try done.
    destruct (terminal c) as [rep|] eqn:Et; [|destruct (close_joining c) eqn:Ej]; injection H as <-.
    + pose proof (sum_insert joins _ _ _ (Closed rep) Hk) as Hsum. split; cbn; rewrite ?Et; try done.
      * unfold joiners in *. cbn in *. lia.
      * intros report [[= ->]|?]%closer_set_closed; auto.
    + pose proof (sum_insert joins _ _ _ Awaiting Hk) as Hsum. split; cbn; rewrite ?Et, ?Ej; try done.
      * unfold joiners in *. cbn in *. lia.
      * by intros report [?|?]%closer_set_closed; auto.
    + pose proof (sum_insert joins _ _ _ Joining Hk) as Hsum. split; cbn; try done.
      * unfold joiners in *. cbn in *. lia.
      * intros _. apply stop_stops.
      * by intros report [?|?]%closer_set_closed; auto.
  - unfold close_join in H. destruct (closers c !! k) as [[]|] eqn:Hk; try done.
    destruct (all_done (closing_engine c)) eqn:Ha; [|done]. injection H as <-.
    pose proof (sum_insert joins _ _ _ (Closed (summary (closing_engine c))) Hk) as Hsum.
    assert (terminal c = None) as Et.
    { destruct (terminal c) as [rep|] eqn:Et; [|done]. cbn in Hj, Hsum. unfold joiners in *.
      destruct (close_joining c); cbn in *; lia. }
    split; cbn; try done.
    + unfold joiners in *. rewrite Et in Hj. cbn in *. destruct (close_joining c); cbn in *; lia.
    + by intros report [= <-].
    + intros report [[= ->]|H]%closer_set_closed; [done|]. apply Hc in H. congruence.
  - unfold close_wake in H. destruct (closers c !! k) as [[]|] eqn:Hk; try done.
    destruct (terminal c) as [rep|] eqn:Et; [|done]. injection H as <-.
    pose proof (sum_insert joins _ _ _ (Closed rep) Hk) as Hsum. split; cbn; rewrite ?Et; try done.
    + unfold joiners in *. cbn in *. lia.
    + intros report [[= ->]|?]%closer_set_closed; auto.
  - apply bind_Some_inv in H as (e & He & H). injection H as <-. split; cbn; auto.
    + intros H. eapply step_stopped; eauto.
    + intros report Hr. destruct (Ht report Hr) as [H1 <-]. eapply step_done; [done| |done].
      apply Hs. rewrite Hr in Hj. cbn in Hj. destruct (close_joining c); [done|]. cbn in Hj. lia.
Qed.

Lemma close_run_ok acts c c' : closing_ok c -> close_run acts c = Some c' -> closing_ok c'.
Proof.
  revert c. induction acts as [|a acts IH]; cbn; intros c Hc H; [by injection H as <-|].
  apply bind_Some_inv in H as (c1 & Hs & H). eapply IH; [|done]. by eapply closing_keeps.
Qed.

(** What the engine itself went through: steps of its own, and at most one stop. *)
Lemma close_run_engine (P : E -> Prop) acts c c' :
  (forall e, P e -> P (stop e)) -> (forall a e e', P e -> engine_step a e = Some e' -> P e') ->
  P (closing_engine c) -> close_run acts c = Some c' -> P (closing_engine c').
Proof.
  intros Hstop Hstep. revert c. induction acts as [|a acts IH]; cbn; intros c Hp H; [by injection H as <-|].
  apply bind_Some_inv in H as (c1 & Hs & H). eapply IH; [|done].
  destruct a as [k|k|k|a]; cbn [closing_step] in Hs.
  - unfold close_begin in Hs. repeat case_match; simplify_eq/=; auto.
  - unfold close_join in Hs. repeat case_match; simplify_eq/=; auto.
  - unfold close_wake in Hs. repeat case_match; simplify_eq/=; auto.
  - apply bind_Some_inv in Hs as (e & He & Hs). injection Hs as <-. eauto.
Qed.

(** Who is back from [close] has the report of an engine whose threads have returned, and at
    most one caller joins them. *)
Lemma closed_done c report :
  closing_ok c -> Closed report ∈ closers c ->
  all_done (closing_engine c) = true /\ summary (closing_engine c) = report.
Proof. intros [_ _ Ht Hc] H. by apply Ht, Hc. Qed.

Lemma one_joiner c : closing_ok c -> joiners (closers c) <= 1.
Proof. intros [Hj _ _ _]. destruct (close_joining c); cbn in Hj; lia. Qed.
End closing.

Arguments closing_action Act : clear implicits.
Arguments EngineStep {Act} a.
Arguments CloseBegin {Act} k.
Arguments CloseJoin {Act} k.
Arguments CloseWake {Act} k.
