(* ===== verification/ProcessEngine.v ===== *)
(** The process engine: [src/process_engine.hpp], [src/process_engine.cpp].

    Two threads run every asynchronous command on POSIX: the launcher takes accepted requests
    in order and creates their processes; the reactor owns the children that live, reads
    them, ends those that are late, withdrawn or abandoned, and publishes each one's outcome
    once it has exited and its output has ended.  The engine is a transition system: each
    section under a lock is a step, and so is what a thread does with one child, which is a
    program of Posix run on a system; the steps of the two threads, of callers and of the
    holders of operations interleave freely.  An operation's own state is that of
    OperationState, admissions are those of Operations.

    The theorems: admissions are bounded and given back once; a failure says [not_started]
    exactly when no process was created for its operation; processes are created in the order
    the requests were accepted; every operation is answered, and its retirement hook called,
    once; a child is asked to end before it is made to, and no assertion fails; [close] returns
    when nothing is left, and says [complete] exactly when every child was collected; on a
    system that keeps nobody waiting a stopping engine comes to rest.

    A wake of the reactor can at most fail, which any thread may then see: [Wake] is a step of
    its own, with the outcome of the write. *)

From S2P Require Import Prelude Command Process Posix Child Wake CompletionQueue OperationState Operations Roster.

Abbreviation OpState := (OperationState (A := ProcessReply)).
Abbreviation Answer := (OperationResult (A := ProcessReply)).

(** * Data *)

Record EngineFailure := MkEngineFailure { failed_operation : text; cause : Z }.

(** A submission the launch lane has not reached yet. *)
Record EnginePending := MkPending {
  request : ChildRequest;
  operation : nat;
  deadline : option Z;
}.

(** How far the reactor is with a child that has ended: it watches, has published, has retired
    the operation, has called its hook. *)
Inductive Stage := Watching | Published | Retired | Hooked.

(** A child the reactor owns.  [kern] is what the system's answers about it were, [found] the
    descriptors that were open when it was created. *)
Record EngineLive := MkLive {
  child : PosixChild;
  kern : Kernel;
  found : gset Z;
  live_operation : nat;
  live_deadline : option Z;
  exit_drain_deadline : option Z;
  terminate_deadline : option Z;
  fault : option ProcessError;
  killed : bool;
  withdrawn : bool;
  abandoned : bool;
  stage : Stage;
}.

Definition set_child ch o :=
  MkLive ch (kern o) (found o) (live_operation o) (live_deadline o) (exit_drain_deadline o) (terminate_deadline o)
    (fault o) (killed o) (withdrawn o) (abandoned o) (stage o).
Definition set_kern g o :=
  MkLive (child o) g (found o) (live_operation o) (live_deadline o) (exit_drain_deadline o) (terminate_deadline o)
    (fault o) (killed o) (withdrawn o) (abandoned o) (stage o).
Definition set_exit_drain d o :=
  MkLive (child o) (kern o) (found o) (live_operation o) (live_deadline o) d (terminate_deadline o)
    (fault o) (killed o) (withdrawn o) (abandoned o) (stage o).
Definition set_terminate d w a o :=
  MkLive (child o) (kern o) (found o) (live_operation o) (live_deadline o) (exit_drain_deadline o) d
    (fault o) (killed o) w a (stage o).
Definition set_fault f o :=
  MkLive (child o) (kern o) (found o) (live_operation o) (live_deadline o) (exit_drain_deadline o) (terminate_deadline o)
    f (killed o) (withdrawn o) (abandoned o) (stage o).
Definition set_killed k o :=
  MkLive (child o) (kern o) (found o) (live_operation o) (live_deadline o) (exit_drain_deadline o) (terminate_deadline o)
    (fault o) k (withdrawn o) (abandoned o) (stage o).
Definition set_stage s o :=
  MkLive (child o) (kern o) (found o) (live_operation o) (live_deadline o) (exit_drain_deadline o) (terminate_deadline o)
    (fault o) (killed o) (withdrawn o) (abandoned o) s.

(** Where the launcher is: at its wait; holding a request with what it read under the lock; to
    pass the launch gate; with an answer to publish; to retire and to call the hook; with a
    child to mark and to hand over; done with it; to wake the reactor; to look at the
    channel; returned. *)
Inductive Launcher :=
  | LTop
  | LHolding (w : EnginePending) (stopping : bool) (failure : option EngineFailure)
  | LReady (w : EnginePending)
  | LRefusing (w : EnginePending) (failure : CommandFailure)
  | LRetiring (w : EnginePending)
  | LHooking (w : EnginePending)
  | LStarted (o : EngineLive)
  | LArriving (o : EngineLive)
  | LFinished
  | LWaking
  | LChecking
  | LReturned.

(** Where the reactor is: at the top; to take arrivals; in its poll; to look at the channel
    and at the failure after it; tending its children one by one; removing those that are
    over one by one; returned. *)
Inductive Reactor :=
  | RTop
  | RTaking
  | RPolling (stopping : bool)
  | RChecking (stopping : bool)
  | RReading (stopping : bool)
  | RTending (stopping : bool) (failure : option EngineFailure) (i : nat)
  | RErasing (i : nat)
  | RReturned.

(** [accepted], [taken], [spawned], [hooked] and [finished] are logs: which operations were
    accepted, taken by the launcher, had a process created, had their hook called; what is
    over, of a child with what the system answered about it. *)
Record Engine := MkEngine {
  pool : Pool ProcessReply;
  channel_failure : option EngineFailure;
  submitting : list EnginePending;
  pending : list EnginePending;
  launcher : Launcher;
  arrived : list EngineLive;
  live : list EngineLive;
  reactor : Reactor;
  launching : nat;
  stop_requested : bool;
  failure : option EngineFailure;
  published : nat;
  reaped : nat;
  accepted : list nat;
  taken : list nat;
  spawned : list nat;
  hooked : list nat;
  finished : list (nat * option (gset Z * Kernel));
}.

Definition start (limit : nat) : Engine :=
  MkEngine (new_pool limit) None [] [] LTop [] [] RTop 0 false None 0 0 [] [] [] [] [].

Definition set_pool p e :=
  MkEngine p (channel_failure e) (submitting e) (pending e) (launcher e) (arrived e) (live e) (reactor e) (launching e)
    (stop_requested e) (failure e) (published e) (reaped e) (accepted e) (taken e) (spawned e) (hooked e) (finished e).
Definition set_channel_failure f e :=
  MkEngine (pool e) f (submitting e) (pending e) (launcher e) (arrived e) (live e) (reactor e) (launching e)
    (stop_requested e) (failure e) (published e) (reaped e) (accepted e) (taken e) (spawned e) (hooked e) (finished e).
Definition set_submitting s e :=
  MkEngine (pool e) (channel_failure e) s (pending e) (launcher e) (arrived e) (live e) (reactor e) (launching e)
    (stop_requested e) (failure e) (published e) (reaped e) (accepted e) (taken e) (spawned e) (hooked e) (finished e).
Definition set_pending p l e :=
  MkEngine (pool e) (channel_failure e) (submitting e) p (launcher e) (arrived e) (live e) (reactor e) (launching e)
    (stop_requested e) (failure e) (published e) (reaped e) l (taken e) (spawned e) (hooked e) (finished e).
Definition set_launcher x n e :=
  MkEngine (pool e) (channel_failure e) (submitting e) (pending e) x (arrived e) (live e) (reactor e) n
    (stop_requested e) (failure e) (published e) (reaped e) (accepted e) (taken e) (spawned e) (hooked e) (finished e).
Definition set_children a l e :=
  MkEngine (pool e) (channel_failure e) (submitting e) (pending e) (launcher e) a l (reactor e) (launching e)
    (stop_requested e) (failure e) (published e) (reaped e) (accepted e) (taken e) (spawned e) (hooked e) (finished e).
Definition set_reactor x e :=
  MkEngine (pool e) (channel_failure e) (submitting e) (pending e) (launcher e) (arrived e) (live e) x (launching e)
    (stop_requested e) (failure e) (published e) (reaped e) (accepted e) (taken e) (spawned e) (hooked e) (finished e).
Definition set_stop e :=
  MkEngine (pool e) (channel_failure e) (submitting e) (pending e) (launcher e) (arrived e) (live e) (reactor e) (launching e)
    true (failure e) (published e) (reaped e) (accepted e) (taken e) (spawned e) (hooked e) (finished e).
Definition set_failure f e :=
  MkEngine (pool e) (channel_failure e) (submitting e) (pending e) (launcher e) (arrived e) (live e) (reactor e) (launching e)
    (stop_requested e) f (published e) (reaped e) (accepted e) (taken e) (spawned e) (hooked e) (finished e).
Definition set_taken t e :=
  MkEngine (pool e) (channel_failure e) (submitting e) (pending e) (launcher e) (arrived e) (live e) (reactor e) (launching e)
    (stop_requested e) (failure e) (published e) (reaped e) (accepted e) t (spawned e) (hooked e) (finished e).
Definition set_spawned l e :=
  MkEngine (pool e) (channel_failure e) (submitting e) (pending e) (launcher e) (arrived e) (live e) (reactor e) (launching e)
    (stop_requested e) (failure e) (published e) (reaped e) (accepted e) (taken e) l (hooked e) (finished e).
Definition set_hooked l e :=
  MkEngine (pool e) (channel_failure e) (submitting e) (pending e) (launcher e) (arrived e) (live e) (reactor e) (launching e)
    (stop_requested e) (failure e) (published e) (reaped e) (accepted e) (taken e) (spawned e) l (finished e).
Definition set_counts p r l e :=
  MkEngine (pool e) (channel_failure e) (submitting e) (pending e) (launcher e) (arrived e) (live e) (reactor e) (launching e)
    (stop_requested e) (failure e) p r (accepted e) (taken e) (spawned e) (hooked e) l.

(** * Failures *)

(** [reported]: what a caller sees. *)
Definition reported (e : ProcessError) : CommandFailure :=
  MkFailure (kind_of (error_kind e)) (error_delivery e) (-1) (error_diagnostic e).

Definition cancelled_failure (d : DeliveryStatus) (diagnostic : text) : CommandFailure :=
  MkFailure cancelled d 0 diagnostic.

Definition overloaded_failure : CommandFailure :=
  MkFailure overloaded not_started 0 (txt "the process engine has more work in flight than it accepts").
Definition closed_failure : CommandFailure :=
  cancelled_failure not_started (txt "the process engine closed before this was accepted").

(** [EngineChannel::fail] and [ProcessEngine::fail]: the first failure stays. *)
Definition channel_fail (f : EngineFailure) (e : Engine) : Engine :=
  match channel_failure e with Some _ => e | None => set_channel_failure (Some f) e end.
Definition fail (f : EngineFailure) (e : Engine) : Engine :=
  match failure e with Some _ => e | None => set_failure (Some f) e end.

(** The look at the channel that a thread takes between its steps. *)
Definition check_channel (e : Engine) : Engine :=
  match channel_failure e with Some f => fail f e | None => e end.

(** [EngineChannel::wake] and [EngineChannel::drain], by the answers of their calls. *)
Fixpoint wake_outcome (answers : list (expected Z N)) : option EngineFailure :=
  match answers with
  | [] => None
  | Value 1%N :: _ => None
  | Value _ :: _ => Some (MkEngineFailure (txt "engine wake write") EIO)
  | Unexpected e :: rest =>
      if (e =? EINTR)%Z then wake_outcome rest
      else if (e =? EAGAIN)%Z then None
      else Some (MkEngineFailure (txt "engine wake write") e)
  end.

Definition EPIPE : Z := 32.

Fixpoint drain_outcome (answers : list (expected Z N)) : option EngineFailure :=
  match answers with
  | [] => None
  | Value 0%N :: _ => Some (MkEngineFailure (txt "engine wake read") EPIPE)
  | Value _ :: rest => drain_outcome rest
  | Unexpected e :: rest =>
      if (e =? EINTR)%Z then drain_outcome rest
      else if (e =? EAGAIN)%Z then None
      else Some (MkEngineFailure (txt "engine wake read") e)
  end.

Definition note (f : option EngineFailure) (e : Engine) : Engine :=
  match f with Some f => channel_fail f e | None => e end.

Section engine.
Context {messages : Messages}.
Context {W : Type} {os : OS W}.
Variable fuel : nat.

(** The failure of an operation whose request no process was created for. *)
Definition engine_error (f : EngineFailure) (r : ChildRequest) : CommandFailure :=
  reported (process_error p_pipe not_started (failed_operation f) (render_request (Child.request r)) (cause f)).

(** A section of operation [id]'s state. *)
Definition section (id : nat) (f : OpState -> option (OpState * list effect)) (e : Engine) : option Engine :=
  p ← pool_section id f (pool e); Some (set_pool p e).

Definition call_hook (id : nat) (e : Engine) : Engine := set_hooked (hooked e ++ [id]) e.

(** The last of an operation that no process was created for. *)
Definition let_go (id : nat) (e : Engine) : Engine :=
  call_hook id (set_counts (published e) (reaped e) (finished e ++ [(id, None)]) e).

(** * Submitting *)

(** [submit] up to the engine's lock.  A refused operation is published and retired, and its
    hook called, before anyone has its handle. *)
Definition admit_request (r : ChildRequest) (now : Z) (e : Engine) : option Engine :=
  let id := length (pool_operations (pool e)) in
  match channel_failure e with
  | Some f =>
      p ← pool_refuse (engine_error f r) (pool e); Some (let_go id (fail f (set_pool p e)))
  | None =>
      if pool_full (pool e) then p ← pool_refuse overloaded_failure (pool e); Some (let_go id (set_pool p e))
      else
        let w := MkPending r id ((fun t => now + Z.of_N t * 1000000)%Z <$> req_timeout (Child.request r)) in
        Some (set_submitting (submitting e ++ [w]) (set_pool (pool_admit (pool e)) e))
  end.

(** [submit] under the engine's lock, for the [k]th caller that got that far; an engine that
    stops or failed publishes, retires and calls the hook instead. *)
Definition accept (k : nat) (e : Engine) : option Engine :=
  w ← submitting e !! k;
  let id := operation w in
  let rest := delete k (submitting e) in
  if negb (stop_requested e) && negb (bool_decide (is_Some (failure e))) then
    e ← section id (advance_section dispatching_) e;
    Some (set_pending (pending e ++ [w]) (accepted e ++ [id]) (set_submitting rest e))
  else
    let f := match failure e with Some f => engine_error f (request w) | None => closed_failure end in
    e ← section id (publish_section (Unexpected f)) e;
    e ← section id retire e;
    Some (let_go id (set_submitting rest e)).

(** * The launcher *)

Inductive launcher_action :=
  | Take | Decide (now : Z) | Launch (ds : gset Z) (now : Z) (w : W) | Activate | Arrive
  | PublishRefusal | RetireRefusal | CallHook | Finish | WakeReactor (answers : list (expected Z N)) | CheckChannel.

(** The wait for work and the pop. *)
Definition take_request (e : Engine) : option Engine :=
  match pending e with
  | w :: rest =>
      Some (set_taken (taken e ++ [operation w])
        (set_launcher (LHolding w (stop_requested e) (failure e)) (S (launching e))
          (set_pending rest (accepted e) e)))
  | [] =>
      if stop_requested e || bool_decide (is_Some (failure e))
      then Some (set_launcher LReturned (launching e) e) else None
  end.

Definition withdrawn_failure (was_withdrawn : bool) : CommandFailure :=
  cancelled_failure not_started
    (if was_withdrawn then txt "the caller withdrew the command before it started"
     else txt "the process engine closed before this started").

(** The start of [launch_one]: whether anything is to start. *)
Definition decide_launch (w : EnginePending) (stopping : bool) (f : option EngineFailure) (was_withdrawn : bool)
    (now : Z) : Launcher :=
  match f with
  | Some f => LRefusing w (engine_error f (request w))
  | None =>
      if was_withdrawn || stopping then LRefusing w (withdrawn_failure was_withdrawn)
      else if match deadline w with Some d => (d <=? now)%Z | None => false end then
        LRefusing w (reported (process_error p_timeout not_started (txt "timeout")
                       (render_request (Child.request (request w))) ETIMEDOUT))
      else LReady w
  end.

Definition spawn_fault (ch : PosixChild) : option ProcessError :=
  if bool_decide (spawn_teardown_error ch = 0%Z) then None
  else Some (process_error p_pipe indeterminate (txt "pipe") (rendered_request ch) (spawn_teardown_error ch)).

(** Through the launch gate: the channel's lock is held while the process is created. *)
Definition launch_gate (w : EnginePending) (ds : gset Z) (now : Z) (world : W) (e : Engine) : option Engine :=
  match channel_failure e with
  | Some f => Some (set_launcher (LRefusing w (engine_error f (request w))) (launching e) e)
  | None =>
      match Posix.run (launch (request w) platform) world (kernel ds now) with
      | (Finished (Unexpected err), _) => Some (set_launcher (LRefusing w (reported err)) (launching e) e)
      | (Finished (Value ch), g) =>
          Some (set_spawned (spawned e ++ [operation w])
            (set_launcher (LStarted (MkLive ch g ds (operation w) (deadline w) None None (spawn_fault ch)
                                       false false false Watching)) (launching e) e))
      | _ => None
      end
  end.

Definition launcher_step (a : launcher_action) (e : Engine) : option Engine :=
  match launcher e, a with
  | LTop, Take => take_request e
  | LHolding w stopping f, Decide now =>
      op ← pool_operations (pool e) !! operation w;
      Some (set_launcher (decide_launch w stopping f (cancel_requested op.2) now) (launching e) e)
  | LReady w, Launch ds now world => launch_gate w ds now world e
  | LRefusing w f, PublishRefusal =>
      e ← section (operation w) (publish_section (Unexpected f)) e; Some (set_launcher (LRetiring w) (launching e) e)
  | LRetiring w, RetireRefusal =>
      e ← section (operation w) retire e; Some (set_launcher (LHooking w) (launching e) e)
  | LHooking w, CallHook => Some (let_go (operation w) (set_launcher LFinished (launching e) e))
  | LStarted o, Activate =>
      e ← section (live_operation o) (advance_section active) e; Some (set_launcher (LArriving o) (launching e) e)
  | LArriving o, Arrive =>
      Some (set_launcher LFinished (launching e) (set_children (arrived e ++ [o]) (live e) e))
  | LFinished, Finish => Some (set_launcher LWaking (launching e - 1) e)
  | LWaking, WakeReactor answers => Some (set_launcher LChecking (launching e) (note (wake_outcome answers) e))
  | LChecking, CheckChannel => Some (set_launcher LTop (launching e) (check_channel e))
  | _, _ => None
  end.

(** * The reactor *)

(** What it watches in a turn, and for how long. *)
Definition watched (wake_descriptor : Z) (l : list EngineLive) : list Z :=
  wake_descriptor ::
  (l ≫= fun o =>
     List.filter (fun d => (0 <=? d)%Z) [stdout_fd (child o); stderr_fd (child o)] ++
     (if (0 <=? exit_fd (child o))%Z then [exit_fd (child o)] else [])).

Definition asks_after_exit (l : list EngineLive) : bool :=
  existsb (fun o =>
    ((exit_fd (child o) <? 0)%Z && is_running (child o)) ||
    bool_decide (is_Some (fault o)) || bool_decide (is_Some (terminate_deadline o))) l.

Definition poll_quantum : Z := 10000000.
Definition idle_quantum : Z := 500000000.
Definition terminate_grace : Z := 100000000.
Definition post_exit_drain : Z := 100000000.

Definition earlier (d : option Z) (t : Z) : Z := match d with Some d => Z.min t d | None => t end.

Definition poll_boundary (now later : Z) (stopping : bool) (f : option EngineFailure) (l : list EngineLive) : Z :=
  if stopping || bool_decide (is_Some f) then later
  else fold_left (fun t o => earlier (terminate_deadline o) (earlier (exit_drain_deadline o) (earlier (live_deadline o) t)))
         l (now + (if asks_after_exit l then poll_quantum else idle_quantum))%Z.

Definition ceil_ms (ns : Z) : Z := (- ((- ns) / 1000000))%Z.
Definition poll_timeout (boundary now : Z) : Z :=
  if (boundary <=? now)%Z then 0%Z else Z.min (ceil_ms (boundary - now)) 1000.

(** The first fault of a child stays. *)
Definition retain (f : option ProcessError) (o : EngineLive) : EngineLive :=
  match f, fault o with Some e, None => set_fault (Some e) o | _, _ => o end.

(** A step of the child's own, its fault retained. *)
Definition with_child (p : PosixChild -> Prog Answered) (o : EngineLive) : Prog EngineLive :=
  r ← p (child o); Ret (retain r.2 (set_child r.1 o)).

Definition is_late (d : option Z) : Prog bool :=
  match d with Some d => now ← call Now; Ret (d <=? now)%Z | None => Ret false end.

(** [signal_group] at a child's group: what its refusal leaves. *)
Definition signal_child (signal : Z) (o : EngineLive) : Prog (EngineLive * option ProcessError) :=
  r ← signal_group fuel signal indeterminate (child o); Ret (set_child r.1 o, r.2).

Definition ask_to_end (stopping was_cancelled expired : bool) (o : EngineLive) : Prog EngineLive :=
  s ← signal_child SIGTERM o;
  now ← call Now;
  let grace := match s.2 with Some _ => 0%Z | None => terminate_grace end in
  let o := retain s.2 s.1 in
  Ret (set_terminate (Some (now + grace)%Z) (was_cancelled && negb expired)
         (stopping && negb was_cancelled && negb expired) o).

Definition make_end (o : EngineLive) : Prog EngineLive :=
  s ← signal_child SIGKILL o;
  Ret (retain s.2 (set_killed (negb (bool_decide (is_Some s.2))) s.1)).

Definition no_fault (o : EngineLive) : bool := negb (bool_decide (is_Some (fault o))).

Definition end_overdue (o : EngineLive) : Prog EngineLive :=
  overdue ← (if no_fault o && negb (killed o) then is_late (terminate_deadline o) else Ret false);
  if (overdue : bool) then make_end o else Ret o.

(** A child that runs: it is asked to end when its time is up, its caller withdrew or the
    engine stops; made to when it does not, or when it is at fault; then waited for. *)
Definition press (stopping was_cancelled expired : bool) (o : EngineLive) : Prog EngineLive :=
  o ← (if no_fault o && (expired || was_cancelled || stopping) && negb (bool_decide (is_Some (terminate_deadline o)))
       then ask_to_end stopping was_cancelled expired o else Ret o);
  o ← end_overdue o;
  o ← (if negb (no_fault o) && negb (killed o) then make_end o else Ret o);
  if killed o then with_child (wait_for_exit fuel indeterminate) o else Ret o.

(** A child that has ended: its output is waited for only so long. *)
Definition let_drain (o : EngineLive) : Prog EngineLive :=
  o ← match exit_drain_deadline o with
      | Some _ => Ret o
      | None => now ← call Now; Ret (set_exit_drain (Some (now + post_exit_drain)%Z) o)
      end;
  late ← is_late (exit_drain_deadline o);
  if (late : bool) then ch ← close_output (child o); Ret (set_child ch o) else Ret o.

Definition look_at (boundary : Z) (o : EngineLive) : Prog EngineLive :=
  o ← with_child (drain_once fuel stdout_stream boundary indeterminate) o;
  o ← with_child (drain_once fuel stderr_stream boundary indeterminate) o;
  with_child (update_status fuel indeterminate) o.

(** One child's part of a turn. *)
Definition tend (stopping : bool) (f : option EngineFailure) (was_cancelled : bool) (boundary : Z) (o : EngineLive) :
    Prog EngineLive :=
  let o := match f with
           | Some f => retain (Some (process_error p_pipe indeterminate (failed_operation f)
                                       (rendered_request (child o)) (cause f))) o
           | None => o
           end in
  o ← look_at boundary o;
  expired ← is_late (live_deadline o);
  o ← (if is_running (child o) then press stopping was_cancelled expired o else Ret o);
  if is_running (child o) then Ret o else let_drain o.

(** Exit and the end of output are both needed. *)
Definition is_over (o : EngineLive) : bool := negb (is_running (child o)) && output_closed (child o).

(** What a child that is over comes to; [None] where an assertion would fail. *)
Definition outcome_of (o : EngineLive) : option Answer :=
  let rendered := rendered_request (child o) in
  let c := capture (child o) in
  match fault o with
  | Some e => Some (Unexpected (reported e))
  | None =>
      if bool_decide (status (child o) = unknowable) then
        Some (Unexpected (reported (process_error p_pipe written (txt "waitpid") rendered ECHILD)))
      else if abandoned o then
        Some (Unexpected (cancelled_failure indeterminate (txt "the process engine closed while this was running")))
      else if withdrawn o then
        Some (Unexpected (cancelled_failure indeterminate (txt "the caller withdrew the command after it started")))
      else if bool_decide (is_Some (terminate_deadline o)) then
        Some (Unexpected (reported (process_error p_timeout indeterminate (txt "timeout") rendered ETIMEDOUT)))
      else if bool_decide (status (child o) = exited) then
        Some (Value (MkReply (decode_status (wait_status (child o))) (captured_out c) (captured_err c) (truncated c)))
      else None
  end.

Inductive reactor_action :=
  | Look | TakeArrivals | PollFailed (e : Z) | PollDone (answers : list (expected Z N)) | LookAgain | ReadFailure
  | Tend (boundary : Z) (w : W) | Pass | PublishOutcome | RetireChild | CallChildHook | Count (w : W).

(** The [i]th child. *)
Definition set_live (i : nat) (o : EngineLive) (e : Engine) : Engine := set_children (arrived e) (<[i := o]> (live e)) e.

Definition take_arrivals (e : Engine) : Engine :=
  let l := live e ++ arrived e in
  let e := set_children [] l e in
  if (stop_requested e || bool_decide (is_Some (failure e))) &&
     bool_decide (l = []) && bool_decide (pending e = []) && (launching e =? 0)%nat
  then set_reactor RReturned e else set_reactor (RPolling (stop_requested e)) e.

Definition tend_one (stopping : bool) (f : option EngineFailure) (boundary : Z) (world : W) (o : EngineLive) (e : Engine) :
    option EngineLive :=
  op ← pool_operations (pool e) !! live_operation o;
  match Posix.run (tend stopping f (cancel_requested op.2) boundary o) world (kern o) with
  | (Finished o, g) => Some (set_kern g o)
  | _ => None
  end.

(** The destructor of a child that is erased; [None] where its assertion would fail. *)
Definition destroyed (world : W) (o : EngineLive) : option Kernel :=
  match Posix.run (destroy (child o)) world (kern o) with (Finished _, g) => Some g | _ => None end.

Definition erase_step (i : nat) (a : reactor_action) (e : Engine) : option Engine :=
  match live e !! i with
  | None => match a with Pass => Some (set_reactor RTop e) | _ => None end
  | Some o =>
      match stage o, a with
      | Watching, Pass => if is_over o then None else Some (set_reactor (RErasing (S i)) e)
      | Watching, PublishOutcome =>
          if is_over o then
            answer ← outcome_of o;
            e ← section (live_operation o) (publish_section answer) e;
            Some (set_live i (set_stage Published o) e)
          else None
      | Published, RetireChild =>
          e ← section (live_operation o) (advance_section retiring) e;
          e ← section (live_operation o) retire e;
          Some (set_live i (set_stage Retired o) e)
      | Retired, CallChildHook => Some (call_hook (live_operation o) (set_live i (set_stage Hooked o) e))
      | Hooked, Count world =>
          g ← destroyed world o;
          let collected := bool_decide (status (child o) = exited) in
          Some (set_counts (S (published e)) (if collected then S (reaped e) else reaped e)
                 (finished e ++ [(live_operation o, Some (found o, g))])
                 (set_children (arrived e) (delete i (live e)) e))
      | _, _ => None
      end
  end.

Definition reactor_step (a : reactor_action) (e : Engine) : option Engine :=
  match reactor e, a with
  | RTop, Look => Some (set_reactor RTaking (check_channel e))
  | RTaking, TakeArrivals => Some (take_arrivals e)
  | RPolling s, PollFailed n => Some (set_reactor (RChecking s) (channel_fail (MkEngineFailure (txt "pipe poll") n) e))
  | RPolling s, PollDone answers => Some (set_reactor (RChecking s) (note (drain_outcome answers) e))
  | RChecking s, LookAgain => Some (set_reactor (RReading s) (check_channel e))
  | RReading s, ReadFailure => Some (set_reactor (RTending s (failure e) 0) e)
  | RTending s f i, Tend boundary world =>
      match live e !! i with
      | Some o => o ← tend_one s f boundary world o e; Some (set_reactor (RTending s f (S i)) (set_live i o e))
      | None => None
      end
  | RTending s f i, Pass => match live e !! i with Some _ => None | None => Some (set_reactor (RErasing 0) e) end
  | RErasing i, a => erase_step i a e
  | _, _ => None
  end.

(** * The engine *)

Inductive action :=
  | Admit (r : ChildRequest) (now : Z)
  | Accept (k : nat)
  | Handle (id : nat) (c : HandleCall)
  | ChannelRelease
  | WakeUp (answers : list (expected Z N))
  | RequestStop
  | Launcher_ (a : launcher_action)
  | Reactor_ (a : reactor_action).

Definition handed_over (id : nat) (e : Engine) : bool :=
  negb (existsb (fun w => (operation w =? id)%nat) (submitting e)).

Definition step (a : action) (e : Engine) : option Engine :=
  match a with
  | Admit r now => admit_request r now e
  | Accept k => accept k e
  | Handle id c => if handed_over id e then section id (handle_call c) e else None
  | ChannelRelease => p ← pool_release (pool e); Some (set_pool p e)
  | WakeUp answers => Some (note (wake_outcome answers) e)
  | RequestStop => Some (set_stop e)
  | Launcher_ a => launcher_step a e
  | Reactor_ a => reactor_step a e
  end.

Inductive reachable (limit : nat) : Engine -> Prop :=
  | reachable_start : reachable limit (start limit)
  | reachable_step a e e' : reachable limit e -> step a e = Some e' -> reachable limit e'.

(** * One child's turn *)

Lemma signals_nothing d : delivers d None.
Proof. by intros x. Qed.

(** What was sent to a child: it is asked to end at most once, then made to at most once; it
    is made to end without being asked only when it is at fault. *)
Definition signals_ok (o : EngineLive) (g : Kernel) : Prop := exists asked : bool,
  signals g = (if asked then [SIGTERM] else []) ++ (if killed o then [SIGKILL] else []) /\
  (asked = true -> is_Some (terminate_deadline o)) /\
  (is_Some (terminate_deadline o) -> asked = false -> is_Some (fault o)) /\
  (killed o = true -> is_Some (fault o) \/ is_Some (terminate_deadline o)).

(** Nanoseconds left to a deadline; without one, more than any grace. *)
Definition left_of (d : option Z) (now : Z) : nat :=
  match d with Some d => Z.to_nat (d - now) | None => S (Z.to_nat post_exit_drain) end.

Lemma left_mono d t t' : (t <= t')%Z -> left_of d t' <= left_of d t.
Proof. destruct d; cbn; lia. Qed.

Definition drain_left (o : EngineLive) (g : Kernel) : nat := left_of (exit_drain_deadline o) (clock g).

Record live_ok (o : EngineLive) (g : Kernel) : Prop := {
  lo_child : exists src, child_ok (found o) src (child o) g;
  lo_fault : delivers indeterminate (fault o);
  lo_lost : status (child o) = unknowable -> is_Some (fault o);
  lo_signals : signals_ok o g;
  lo_drain : drain_left o g <= S (Z.to_nat post_exit_drain);
}.

(** What a turn leaves as it is. *)
Definition same_one (o o' : EngineLive) : Prop :=
  found o' = found o /\ live_operation o' = live_operation o /\ live_deadline o' = live_deadline o /\ stage o' = stage o.

Lemma same_one_trans o1 o2 o3 : same_one o1 o2 -> same_one o2 o3 -> same_one o1 o3.
Proof. unfold same_one. intros (-> & -> & -> & ->) (-> & -> & -> & ->). done. Qed.

(** What every step of a turn keeps. *)
Definition tended (o : EngineLive) (g : Kernel) (o' : EngineLive) (g' : Kernel) : Prop :=
  live_ok o' g' /\ same_one o o' /\ (clock g <= clock g')%Z /\
  (fault o <> None -> fault o' <> None) /\ (output_closed (child o) = true -> output_closed (child o') = true) /\
  (status (child o) <> running -> status (child o') <> running) /\ drain_left o' g' <= drain_left o g.

Lemma tended_refl o g : live_ok o g -> tended o g o g.
Proof. intros H. split_and!; try done. Qed.

Lemma tended_trans o g o1 g1 o2 g2 : tended o g o1 g1 -> tended o1 g1 o2 g2 -> tended o g o2 g2.
Proof.
  intros (H1 & H2 & H3 & H4 & H5 & H6 & H7) (K1 & K2 & K3 & K4 & K5 & K6 & K7). split_and!; try tauto; try lia; [by eapply same_one_trans|auto..].
Qed.

(** What a turn decided about a child, up to here. *)
Definition same_plan (o o' : EngineLive) : Prop :=
  terminate_deadline o' = terminate_deadline o /\ killed o' = killed o /\ exit_drain_deadline o' = exit_drain_deadline o.

Lemma same_plan_trans o1 o2 o3 : same_plan o1 o2 -> same_plan o2 o3 -> same_plan o1 o3.
Proof. unfold same_plan. intros (-> & -> & ->) (-> & -> & ->). done. Qed.

Lemma retain_eq f o : retain f o = match f, fault o with Some e, None => set_fault (Some e) o | _, _ => o end.
Proof. done. Qed.

(** A step of the child's own, its fault retained. *)
Lemma live_child o g ch f g' src :
  live_ok o g -> child_ok (found o) src (child o) g -> kept_by (found o) src (child o) g ch g' -> delivers indeterminate f ->
  signals g' = signals g -> (status ch = unknowable -> status (child o) = unknowable \/ f <> None) ->
  tended o g (retain f (set_child ch o)) g' /\ same_plan o (retain f (set_child ch o)).
Proof.
  intros [_ Hf Hl (asked & Hs1 & Hs2 & Hs3 & Hs4) Hdr] Hc [Hk He] Hd Hsig Hu.
  assert (clock g <= clock g')%Z as Hclk by apply He. pose proof (left_mono (exit_drain_deadline o) _ _ Hclk) as Hdr'.
  assert (forall f', (f' = fault o \/ fault o = None) -> delivers indeterminate f' ->
    (status ch = unknowable -> is_Some f') -> (fault o <> None -> f' <> None) ->
    live_ok (set_fault f' (set_child ch o)) g') as H.
  { intros f' Hor Hd' Hu' Hn. split; cbn; try done; [by exists src| |unfold drain_left in *; cbn; lia]. exists asked. rewrite Hsig. cbn.
    split_and!; try done.
    - intros Ht Ha. destruct (Hs3 Ht Ha) as [e Hfe]. destruct f'; [by eexists|]. exfalso. apply Hn; [|done]. congruence.
    - intros Hkill. destruct (Hs4 Hkill) as [[e Hfe]|]; [left|by right]. destruct f'; [by eexists|]. exfalso. apply Hn; [|done]. congruence. }
  assert (output_closed (child o) = true -> output_closed ch = true) as Hcl.
  { unfold output_closed. rewrite !andb_true_iff, !Z.ltb_lt. intros [? ?]. split; [by eapply ev_stdout|by eapply ev_stderr]. }
  assert (status (child o) <> running -> status ch <> running) as Hst.
  { intros Hn. by rewrite (ev_status _ _ _ _ He). }
  rewrite retain_eq. destruct f as [e|]; [destruct (fault (set_child ch o)) as [e'|] eqn:Ef|]; cbn in *.
  - split; [|done]. split_and!; cbn; try done.
    replace (set_child ch o) with (set_fault (fault o) (set_child ch o)) by (by destruct o).
    by apply H; auto.
  - split; [|done]. split_and!; cbn; try done.
    by apply H; auto.
  - split; [|done]. split_and!; cbn; try done.
    replace (set_child ch o) with (set_fault (fault o) (set_child ch o)) by (by destruct o).
    apply H; auto. intros Hun. destruct (Hu Hun); [auto|done].
Qed.

Lemma wp_with_child b p o g (Q : PosixChild -> Kernel -> Prop) src :
  live_ok o g -> child_ok (found o) src (child o) g ->
  wp b (p (child o)) g (fun r g' =>
    kept_by (found o) src (child o) g r.1 g' /\ delivers indeterminate r.2 /\ signals g' = signals g /\
    (status r.1 = unknowable -> status (child o) = unknowable \/ r.2 <> None) /\ Q r.1 g') ->
  wp b (with_child p o) g (fun o' g' => tended o g o' g' /\ same_plan o o' /\ Q (child o') g').
Proof.
  intros Hl Hc Hp. unfold with_child. apply (wp_seq _ _ _ _ _ _ Hp). intros r g' (Hk & Hd & Hs & Hu & HQ).
  apply wp_ret. destruct (live_child o g r.1 r.2 g' src Hl Hc Hk Hd Hs Hu) as [H1 H2]. split_and!; [done..|].
  rewrite retain_eq. by repeat case_match.
Qed.

Lemma wp_look_at b boundary o g :
  live_ok o g -> (b = true -> 0 < fuel) ->
  wp b (look_at boundary o) g (fun o' g' => tended o g o' g' /\ same_plan o o').
Proof.
  intros Hl Hb. unfold look_at.
  assert (forall s o g, live_ok o g -> wp b (with_child (drain_once fuel s boundary indeterminate) o) g
    (fun o' g' => tended o g o' g' /\ same_plan o o')) as Hd.
  { intros s o1 g1 H. pose proof H as [(src & Hc) _ _ _ _].
    eapply prog_mono; [apply (wp_with_child b _ o1 g1 (fun _ _ => True) src H Hc)|by intros ? ? (? & ? & _)].
    eapply prog_mono; [apply wp_drain; [exact Hc|]|].
    - intros E. split; [auto|done].
    - intros r g2 (Hk & (Hs1 & _ & _ & Hs2) & Hdel). split_and!; try done. intros Hu. left. congruence. }
  apply (wp_seq _ _ _ _ _ _ (Hd stdout_stream o g Hl)). intros o1 g1 [H1 P1].
  apply (wp_seq _ _ _ _ _ _ (Hd stderr_stream o1 g1 (proj1 H1))). intros o2 g2 [H2 P2].
  pose proof (tended_trans _ _ _ _ _ _ H1 H2) as H12. pose proof (same_plan_trans _ _ _ P1 P2) as P12.
  pose proof (proj1 H2) as H. pose proof H as [(src & Hc) _ Hlost _ _].
  eapply prog_mono; [apply (wp_with_child b _ o2 g2 (fun _ _ => True) src H Hc)|].
  - eapply prog_mono; [by apply wp_update_status|]. intros r g3 (Hk & Hdel & _ & Hs & Hu). split_and!; try done.
    intros Hst. destruct (decide (status (child o2) = unknowable)) as [|Hn]; [by left|]. right. intros E. by apply Hu.
  - intros o3 g3 (H3 & P3 & _). split; [by eapply tended_trans|by eapply same_plan_trans].
Qed.

(** ** Ending a child *)

Lemma set_child_eq o : set_child (child o) o = o.
Proof. by destruct o. Qed.

Lemma wp_signal_child b signal o g src :
  child_ok (found o) src (child o) g -> status (child o) = running -> (b = true -> 0 < fuel) ->
  wp b (signal_child signal o) g (fun r g' =>
    r.1 = o /\ child_ok (found o) src (child o) g' /\ (clock g <= clock g')%Z /\ delivers indeterminate r.2 /\
    signals g' = signals g ++ (match r.2 with None => [signal] | Some _ => [] end) /\ (b = true -> r.2 = None)).
Proof.
  intros Hc Hr Hb. unfold signal_child. eapply wp_seq; [by apply wp_signal_group|].
  intros r g1 (E & [Hk He] & Hd & _ & Hs & Hn). apply wp_ret. cbn. rewrite E, set_child_eq. split_and!; try done; [by apply He|].
  rewrite Hs. unfold is_running. rewrite Hr, bool_decide_true by done. by destruct r.2.
Qed.

Lemma live_clock o g t : live_ok o g -> (clock g <= t)%Z -> live_ok o (set_clock t g).
Proof. intros [(src & H) ? ? ? Hd] Ht. split; try done; [exists src; by apply (kept_clock _ _ _ _ t) in H as [? _]|].
  unfold drain_left in *. cbn. pose proof (left_mono (exit_drain_deadline o) _ _ Ht). lia. Qed.

Lemma retain_terminate f d w a o : set_terminate d w a (retain f o) = retain f (set_terminate d w a o).
Proof. unfold retain. cbn. by repeat case_match. Qed.

Lemma tended_same_child o g o' g' :
  live_ok o' g' -> same_one o o' -> (clock g <= clock g')%Z -> (fault o <> None -> fault o' <> None) ->
  child o' = child o -> exit_drain_deadline o' = exit_drain_deadline o -> tended o g o' g'.
Proof.
  intros H1 H2 H3 H4 H5 H6. split_and!; try done; [by rewrite H5|by rewrite H5|].
  unfold drain_left. rewrite H6. by apply left_mono.
Qed.

Lemma retain_drain f o : exit_drain_deadline (retain f o) = exit_drain_deadline o.
Proof. unfold retain. by repeat case_match. Qed.

Lemma retain_child f o : child (retain f o) = child o.
Proof. unfold retain. by repeat case_match. Qed.
Lemma retain_one f o : same_one o (retain f o).
Proof. unfold retain. by repeat case_match. Qed.
Lemma retain_fault f o : fault o <> None -> fault (retain f o) <> None.
Proof. unfold retain. destruct f, (fault o) eqn:E; cbn; congruence. Qed.

Lemma drain_later o g o' g' n :
  drain_left o g <= n -> (clock g <= clock g')%Z -> exit_drain_deadline o' = exit_drain_deadline o -> drain_left o' g' <= n.
Proof. unfold drain_left. intros H Ht ->. pose proof (left_mono (exit_drain_deadline o) _ _ Ht). lia. Qed.

Definition is_asked (o : EngineLive) : Prop := is_Some (terminate_deadline o).
Definition at_fault (o : EngineLive) : Prop := is_Some (fault o).

(** Running, at fault or to end, not yet made to. *)
Lemma wp_make_end b o g :
  live_ok o g -> status (child o) = running -> killed o = false -> at_fault o \/ is_asked o -> (b = true -> 0 < fuel) ->
  wp b (make_end o) g (fun o' g' =>
    tended o g o' g' /\ child o' = child o /\ (at_fault o' \/ is_asked o') /\ (killed o' = false -> at_fault o') /\
    (b = true -> killed o' = true)).
Proof.
  intros [(src & Hc) Hf Hl (asked & Hs1 & Hs2 & Hs3 & Hs4) Hdr] Hr Hk Hor Hb. unfold make_end.
  eapply wp_seq; [by apply (wp_signal_child b SIGKILL o g src)|].
  intros [o1 [e|]] g1 (E & Hc1 & Hclk & Hd & Hs & Hn); cbn in E, Hd, Hs, Hn; subst o1; apply wp_ret; cbn [fst snd].
  - rewrite bool_decide_true by (by eexists). cbn [negb].
    replace (set_killed false o) with o by (destruct o; cbn in *; by subst).
    rewrite app_nil_r in Hs. assert (live_ok (retain (Some e) o) g1 /\ at_fault (retain (Some e) o)) as [H1 H2].
    { unfold retain, at_fault. destruct (fault o) as [e'|] eqn:Ef; (split; [|cbn; rewrite ?Ef; by eexists]).
      - split; cbn; [by exists src|by rewrite Ef|done| |by eapply drain_later]. exists asked. by rewrite Hs.
      - split; cbn; [by exists src|done|by eexists| |by eapply drain_later]. exists asked. cbn. rewrite Hs.
        split_and!; [done..|by eexists|left; by eexists]. }
    split_and!; [|apply retain_child|by left|done|intros Hb'; by specialize (Hn Hb')].
    apply tended_same_child; [done|apply retain_one|done|apply retain_fault|apply retain_child|apply retain_drain].
  - rewrite bool_decide_false by (by intros [? ?]). cbn [negb].
    assert (live_ok (set_killed true o) g1) as H1.
    { split; cbn; try done; [by exists src| |by eapply drain_later]. exists asked. cbn. rewrite Hs, Hs1, Hk, app_nil_r. by split_and!. }
    split_and!; try done. by apply tended_same_child.
Qed.

Lemma wp_ask_to_end b stopping was_cancelled expired o g :
  live_ok o g -> status (child o) = running -> fault o = None -> terminate_deadline o = None -> (b = true -> 0 < fuel) ->
  wp b (ask_to_end stopping was_cancelled expired o) g (fun o' g' =>
    tended o g o' g' /\ child o' = child o /\ killed o' = killed o /\
    (exists t, terminate_deadline o' = Some t /\ (t <= clock g' + terminate_grace)%Z) /\
    (b = true -> fault o' = None)).
Proof.
  intros [(src & Hc) Hf Hl (asked & Hs1 & Hs2 & Hs3 & Hs4) Hdr] Hr Hfault Ht Hb. unfold ask_to_end.
  assert (asked = false) as -> by (destruct asked; [|done]; destruct Hs2 as [? ?]; [done|congruence]).
  assert (killed o = false) as Hk.
  { destruct (killed o); [|done]. destruct Hs4 as [[? ?]|[? ?]]; [done|congruence|congruence]. }
  eapply wp_seq; [by apply (wp_signal_child b SIGTERM o g src)|].
  intros [o1 refusal] g1 (E & Hc1 & Hclk & Hd & Hs & Hn); cbn [fst snd] in *; subst o1.
  apply wp_call; [done|]. intros t Hle Hp. apply wp_ret. rewrite retain_terminate. cbn in Hle. cbn [after].
  set (d := (t + _)%Z). set (o1 := set_terminate (Some d) _ _ o).
  assert (d <= t + terminate_grace)%Z as Hd'.
  { unfold d. destruct refusal; unfold terminate_grace; lia. }
  assert (retain refusal o1 = set_fault refusal o1) as ->.
  { unfold retain. cbn. rewrite Hfault. destruct refusal; [done|]. unfold o1, set_terminate, set_fault. cbn. by rewrite Hfault. }
  assert (child_ok (found o) src (child o) (set_clock t g1)) as Hc2 by (by apply (kept_clock _ _ _ _ t) in Hc1 as [? _]).
  rewrite Hk in *. cbn in Hs1. rewrite Hs1 in Hs. split_and!; try done; cbn; try lia; try congruence.
  - apply tended_same_child; cbn; try done; [|lia]. split; cbn; try done; [by exists src|intros Hu; congruence| |eapply drain_later; [done| |done]; cbn; lia].
    unfold signals_ok. cbn. rewrite Hs, Hk. destruct refusal as [e|].
    + exists false. split_and!; [done..|intros; by eexists|done].
    + exists true. split_and!; [done|intros; by eexists|done|done].
  - by exists d.
Qed.

Lemma wp_is_late b d g :
  wp b (is_late d) g (fun late g' =>
    (exists t, (clock g <= t)%Z /\ g' = set_clock t g) /\
    match d with
    | None => late = false
    | Some d => late = (d <=? clock g')%Z /\ (b = true -> (clock g < clock g')%Z)
    end).
Proof.
  destruct d as [d|]; cbn -[wp]; [apply wp_call; [done|]; intros t Ht Hp|]; apply wp_ret; cbn.
  - split; [by exists t|]. split; [done|]. intros E. by apply Hp.
  - split; [|done]. exists (clock g). split; [lia|]. by destruct g.
Qed.

(** ** The turn *)

(** Turns a child that is being ended has left at most. *)
Definition patience (o : EngineLive) (g : Kernel) : nat :=
  if is_over o then 0
  else if is_running (child o) then 2 * Z.to_nat post_exit_drain + 4 + left_of (terminate_deadline o) (clock g)
  else S (drain_left o g).

Lemma is_running_true ch : is_running ch = true <-> status ch = running.
Proof. unfold is_running. by rewrite bool_decide_eq_true. Qed.

Lemma not_running_over o : status (child o) <> running -> is_over o = output_closed (child o).
Proof. intros H. unfold is_over, is_running. by rewrite bool_decide_false. Qed.

Lemma patience_ended o g : status (child o) <> running -> patience o g <= S (drain_left o g).
Proof. intros H. unfold patience, is_running. rewrite bool_decide_false by done. destruct (is_over o); lia. Qed.

Lemma patience_running o g :
  status (child o) = running -> patience o g = 2 * Z.to_nat post_exit_drain + 4 + left_of (terminate_deadline o) (clock g).
Proof. intros H. unfold patience, is_over. by rewrite (proj2 (is_running_true _) H). Qed.

Lemma tended_clock o g t : live_ok o g -> (clock g <= t)%Z -> tended o g o (set_clock t g).
Proof. intros H Ht. by apply tended_same_child; [apply live_clock|..]. Qed.

(** A child that has ended comes nearer to being over. *)
Lemma wp_let_drain b o g :
  live_ok o g -> status (child o) <> running ->
  wp b (let_drain o) g (fun o' g' => tended o g o' g' /\
    (b = true -> is_over o' = true \/ S (patience o' g') <= S (drain_left o g))).
Proof.
  intros Hl Hr. unfold let_drain.
  apply (wp_seq _ _ _ _ (fun o1 g1 => tended o g o1 g1 /\ exists d, exit_drain_deadline o1 = Some d /\
    (left_of (Some d) (clock g1) <= drain_left o g))).
  { destruct (exit_drain_deadline o) as [d|] eqn:E.
    - apply wp_ret. split; [by apply tended_refl|]. exists d. unfold drain_left. by rewrite E.
    - apply wp_call; [done|]. intros t Ht _. apply wp_ret. cbn in Ht. cbn [after]. split.
      + destruct (live_clock o g t Hl Ht) as [? ? ? ? _].
        assert (forall n, S (Z.to_nat post_exit_drain) <= n ->
          drain_left (set_exit_drain (Some (t + post_exit_drain)%Z) o) (set_clock t g) <= n) as Hdr.
        { intros n. unfold drain_left, post_exit_drain. cbn. lia. }
        unfold tended. split_and!; try done; [split; try done; by apply Hdr|]. apply Hdr. unfold drain_left. by rewrite E.
      + eexists. split; [done|]. unfold drain_left. rewrite E. cbn. unfold post_exit_drain in *. lia. }
  intros o1 g1 [H1 (d & Hd & Hleft)]. rewrite Hd.
  apply (wp_seq _ _ _ _ _ _ (wp_is_late b (Some d) g1)). intros late g2 ((t & Ht & ->) & -> & Hlt). cbn [clock set_clock] in *.
  pose proof (tended_trans _ _ _ _ _ _ H1 (tended_clock o1 g1 t (proj1 H1) Ht)) as H2.
  assert (status (child o1) <> running) as Hr1 by (apply H1; done).
  destruct (Z.leb_spec d t) as [Hle|Hgt].
  - pose proof (proj1 H2) as Hl2. pose proof Hl2 as [(src & Hc) _ _ _ _].
    eapply wp_seq; [by apply (wp_close_output b (found o1) src)|]. intros ch g3 (Hk & (Hs1 & _ & _ & Hs2) & _ & Hcl). apply wp_ret.
    destruct (live_child o1 _ ch None g3 src Hl2 Hc Hk (signals_nothing _) Hs2) as [H3 _]; [rewrite Hs1; auto|].
    split; [by eapply tended_trans|]. intros _. left. cbn in *. rewrite not_running_over; [done|]. cbn. by rewrite Hs1.
  - apply wp_ret. split; [done|]. intros Hb. right. specialize (Hlt Hb).
    pose proof (patience_ended o1 (set_clock t g1) Hr1) as Hp. unfold drain_left in *. rewrite Hd in Hp. cbn in *. lia.
Qed.

Lemma no_fault_true o : no_fault o = true <-> fault o = None.
Proof.
  unfold no_fault. rewrite negb_true_iff, bool_decide_eq_false. destruct (fault o) as [e|]; [|by split; [|intros _ [? ?]]].
  split; [|done]. intros H. exfalso. apply H. by eexists.
Qed.

Lemma no_fault_false o : no_fault o = false <-> at_fault o.
Proof. unfold no_fault, at_fault. by rewrite negb_false_iff, bool_decide_eq_true. Qed.

(** A running child on its way to its end, as far as a prompt system brings it. *)
Definition pressed (b : bool) (o : EngineLive) (g : Kernel) (o' : EngineLive) (g' : Kernel) (P : Prop) : Prop :=
  tended o g o' g' /\ child o' = child o /\ (b = true -> P).

Definition time_left (o : EngineLive) (g : Kernel) : nat := left_of (terminate_deadline o) (clock g).

Lemma wp_press_ask b (stopping was_cancelled expired : bool) o g :
  live_ok o g -> status (child o) = running -> (b = true -> 0 < fuel) ->
  wp b (if no_fault o && (expired || was_cancelled || stopping) && negb (bool_decide (is_Some (terminate_deadline o)))
        then ask_to_end stopping was_cancelled expired o else Ret o) g
    (fun o' g' => pressed b o g o' g' (stopping = true -> at_fault o' \/ (is_asked o' /\ time_left o' g' <= time_left o g))).
Proof.
  intros Hl Hr Hb. destruct (_ && _) eqn:E.
  - rewrite !andb_true_iff, no_fault_true, negb_true_iff, bool_decide_eq_false in E. destruct E as [[Hf _] Ha].
    assert (terminate_deadline o = None) as Ht by (destruct (terminate_deadline o); [destruct Ha; by eexists|done]).
    eapply prog_mono; [by apply wp_ask_to_end|]. intros o1 g1 (H1 & H2 & H3 & (t & Ht1 & Hle) & _).
    split_and!; try done. intros _ _. right. unfold is_asked, time_left. rewrite Ht1, Ht. split; [by eexists|].
    cbn. unfold post_exit_drain, terminate_grace in *. lia.
  - apply wp_ret. split_and!; [by apply tended_refl|done|]. intros _ ->. rewrite orb_true_r, andb_true_r in E.
    apply andb_false_iff in E as [E|E]; [left; by apply no_fault_false|right].
    rewrite negb_false_iff, bool_decide_eq_true in E. done.
Qed.

Lemma wp_press_overdue b o g :
  live_ok o g -> status (child o) = running -> (b = true -> 0 < fuel) ->
  wp b (end_overdue o) g
    (fun o' g' => pressed b o g o' g' (at_fault o' \/ killed o' = true \/
       (terminate_deadline o' = terminate_deadline o /\ (is_asked o -> time_left o' g' < time_left o g)))).
Proof.
  intros Hl Hr Hb. unfold end_overdue. destruct (no_fault o && negb (killed o)) eqn:E.
  - apply andb_true_iff in E as [Hf Hk%negb_true_iff].
    apply (wp_seq _ _ _ _ _ _ (wp_is_late b (terminate_deadline o) g)). intros late g1 ((t & Ht & ->) & Hlate).
    pose proof (tended_clock o g t Hl Ht) as H1. destruct (terminate_deadline o) as [d|] eqn:Ed.
    + destruct Hlate as [-> Hlt]. cbn [clock set_clock] in *. destruct (Z.leb_spec d t) as [Hle|Hgt].
      * eapply prog_mono; [apply wp_make_end; try done; [apply H1|right; by eexists]|].
        intros o2 g2 (H2 & Hc & _ & _ & Hkill). split_and!; [by eapply tended_trans|done|]. auto.
      * apply wp_ret. split_and!; [done..|]. intros Hb'. right. right. rewrite Ed. split; [done|]. intros _.
        specialize (Hlt Hb'). unfold time_left. rewrite Ed. cbn. lia.
    + subst late. apply wp_ret. split_and!; [done..|]. intros _. right. right. split; [by rewrite Ed|]. unfold is_asked. rewrite Ed. by intros [? ?].
  - cbn [mbind Prog_bind]. apply wp_ret. split_and!; [by apply tended_refl|done|]. intros _.
    apply andb_false_iff in E as [E|E]; [left; by apply no_fault_false|right; left; by apply negb_false_iff].
Qed.

Lemma wp_press_fault b o g :
  live_ok o g -> status (child o) = running -> (b = true -> 0 < fuel) ->
  wp b (if negb (no_fault o) && negb (killed o) then make_end o else Ret o) g
    (fun o' g' => pressed b o g o' g' (killed o' = true \/ (~ at_fault o /\ o' = o /\ g' = g))).
Proof.
  intros Hl Hr Hb. destruct (_ && _) eqn:E.
  - apply andb_true_iff in E as [Hf%negb_true_iff Hk%negb_true_iff]. apply no_fault_false in Hf.
    eapply prog_mono; [apply wp_make_end; try done; by left|]. intros o2 g2 (H2 & Hc & _ & _ & Hkill). split_and!; auto.
  - apply wp_ret. split_and!; [by apply tended_refl|done|]. intros _.
    apply andb_false_iff in E as [E|E]; [right|left; by apply negb_false_iff].
    split_and!; try done. rewrite <-no_fault_false. apply negb_false_iff in E. congruence.
Qed.

Lemma wp_press_wait b o g :
  live_ok o g -> status (child o) = running -> (b = true -> 0 < fuel) ->
  wp b (if killed o then with_child (wait_for_exit fuel indeterminate) o else Ret o) g
    (fun o' g' => tended o g o' g' /\
       (b = true -> if killed o then status (child o') <> running else o' = o /\ g' = g)).
Proof.
  intros Hl Hr Hb. destruct (killed o) eqn:Hk; [|apply wp_ret; split; [by apply tended_refl|done]].
  pose proof Hl as [(src & Hc) _ _ _ _].
  eapply prog_mono; [apply (wp_with_child b _ o g (fun ch _ => b = true -> status ch <> running) src Hl Hc)|].
  - eapply prog_mono; [by apply wp_wait_for_exit|]. intros r g1 (Hkb & Hd & Hs & Hn & Hp). split_and!; try done.
    intros Hu. right. intros E. destruct (Hn E) as [_ H]; [congruence|done].
  - intros o1 g1 (H1 & _ & H2). split; [done|]. auto.
Qed.

Lemma wp_press b stopping was_cancelled expired o g :
  live_ok o g -> status (child o) = running -> (b = true -> 0 < fuel) ->
  wp b (press stopping was_cancelled expired o) g (fun o' g' => tended o g o' g' /\
    (b = true -> stopping = true -> status (child o') <> running \/ time_left o' g' < time_left o g)).
Proof.
  intros Hl Hr Hb. unfold press.
  apply (wp_seq _ _ _ _ _ _ (wp_press_ask b stopping was_cancelled expired o g Hl Hr Hb)). intros o1 g1 (H1 & C1 & P1).
  assert (status (child o1) = running) as Hr1 by congruence.
  apply (wp_seq _ _ _ _ _ _ (wp_press_overdue b o1 g1 (proj1 H1) Hr1 Hb)). intros o2 g2 (H2 & C2 & P2).
  assert (status (child o2) = running) as Hr2 by congruence.
  apply (wp_seq _ _ _ _ _ _ (wp_press_fault b o2 g2 (proj1 H2) Hr2 Hb)). intros o3 g3 (H3 & C3 & P3).
  assert (status (child o3) = running) as Hr3 by congruence.
  eapply prog_mono; [apply (wp_press_wait b o3 g3 (proj1 H3) Hr3 Hb)|]. intros o4 g4 (H4 & P4).
  split; [do 3 (eapply tended_trans; [eassumption|]); done|]. intros Hb' Hs.
  specialize (P1 Hb' Hs). specialize (P2 Hb'). specialize (P3 Hb'). specialize (P4 Hb').
  destruct (killed o3) eqn:Hk3; [by left|]. destruct P4 as [-> ->], P3 as [?|(Hnf & -> & ->)]; [congruence|].
  destruct P2 as [?|[?|[_ P2]]]; [done|congruence|]. right. destruct P1 as [Hf|[Ha Hle]].
  - exfalso. apply Hnf. destruct Hf as [e Hf]. unfold at_fault.
    assert (fault o2 <> None) by (apply H2; congruence). by destruct (fault o2).
  - specialize (P2 Ha). lia.
Qed.

Lemma wp_tend b stopping f was_cancelled boundary o g :
  live_ok o g -> (b = true -> 0 < fuel) ->
  wp b (tend stopping f was_cancelled boundary o) g (fun o' g' => tended o g o' g' /\ (b = true -> stopping = true -> is_over o = false -> is_over o' = true \/ patience o' g' < patience o g)).
Proof.
  intros Hl Hb. unfold tend. set (o0 := match f with Some _ => _ | None => o end).
  assert (tended o g o0 g /\ same_plan o o0 /\ child o0 = child o) as (H0 & P0 & C0).
  { unfold o0. destruct f as [f|]; [|split_and!; [by apply tended_refl|done..]].
    unfold retain. destruct (fault o) as [e|] eqn:Ef; [split_and!; [by apply tended_refl|done..]|].
    split_and!; try done. apply tended_same_child; try done. destruct Hl as [H1 H2 H3 (asked & H4 & H5 & H6 & H7) H8].
    split; cbn; try done; [by intros x [= <-]|]. exists asked. cbn. split_and!; [done|done|by eexists|left; by eexists]. }
  apply (wp_seq _ _ _ _ _ _ (wp_look_at b boundary o0 g (proj1 H0) Hb)). intros o1 g1 [H1 P1].
  pose proof (tended_trans _ _ _ _ _ _ H0 H1) as H01. pose proof (same_plan_trans _ _ _ P0 P1) as (Pt & Pk & Pd).
  apply (wp_seq _ _ _ _ _ _ (wp_is_late b (live_deadline o1) g1)). intros expired g2 ((t & Ht & ->) & _).
  pose proof (tended_trans _ _ _ _ _ _ H01 (tended_clock o1 g1 t (proj1 H1) Ht)) as H2. clear H01.
  set (g2 := set_clock t g1) in *.
  assert (time_left o1 g2 <= time_left o g /\ drain_left o1 g2 <= drain_left o g)
    as [Ht2 Hd2].
  { assert (clock g <= clock g2)%Z as Hc by apply H2. unfold time_left, drain_left. rewrite Pt, Pd.
    split; by apply left_mono. }
  apply (wp_seq _ _ _ _ (fun o2 g3 => tended o1 g2 o2 g3 /\ (b = true -> stopping = true -> status (child o2) = running -> time_left o2 g3 < time_left o1 g2) /\    (status (child o1) <> running -> o2 = o1 /\ g3 = g2))).
  { destruct (is_running (child o1)) eqn:Hr.
    - apply is_running_true in Hr. eapply prog_mono; [apply wp_press; try done; apply H2|].
      intros o2 g3 [H3 H4]. split_and!; try done. intros Hb' Hs Hr3. by destruct (H4 Hb' Hs).
    - apply wp_ret. assert (status (child o1) <> running) by (intros Hn%is_running_true; congruence).
      split_and!; [apply tended_refl, H2|done|done]. }
  intros o2 g3 (H3 & P3 & Q3). pose proof (tended_trans _ _ _ _ _ _ H2 H3) as H4.
  destruct (is_running (child o2)) eqn:Hr2.
  - apply is_running_true in Hr2. apply wp_ret. split; [done|]. intros Hb' Hs Ho. right.
    assert (status (child o) = running) as Hr.
    { destruct (decide (status (child o) = running)) as [|Hn]; [done|]. exfalso. by apply H4 in Hn. }
    rewrite !patience_running by done. specialize (P3 Hb' Hs Hr2). unfold time_left in *. lia.
  - assert (status (child o2) <> running) as Hn2 by (intros Hn%is_running_true; congruence).
    eapply prog_mono; [apply wp_let_drain; [apply H4|done]|]. intros o3 g4 [H5 P5].
    split; [by eapply tended_trans|]. intros Hb' Hs Ho. destruct (P5 Hb') as [|Hle]; [by left|right].
    assert (drain_left o2 g3 <= drain_left o g) by apply H4. pose proof (lo_drain _ _ Hl).
    unfold patience at 2. rewrite Ho. unfold drain_left in *. destruct (is_running (child o)); lia.
Qed.

(** ** Beginning and end *)

(** A child that was just created. *)
Lemma live_starts w ds now world ch g :
  Posix.run (launch (request w) platform) world (kernel ds now) = (Finished (Value ch), g) ->
  let o := MkLive ch g ds (operation w) (deadline w) None None (spawn_fault ch) false false false Watching in live_ok o g.
Proof.
  intros E o. pose proof (prog_run (launch (request w) platform) world (kernel ds now) _
    (wp_launch false (request w) platform (kernel ds now) eq_refl eq_refl eq_refl)) as H. rewrite E in H.
  destruct H as (_ & _ & Hs & Hr & _ & _ & src & Hc & _). split; cbn; [by exists src| |congruence| |unfold drain_left; cbn; lia].
  - unfold spawn_fault. case_bool_decide; [done|]. by intros x [= <-].
  - exists false. cbn. by split_and!; [| |intros [? ?]|].
Qed.

(** A refusal creates nothing. *)
Lemma launch_refusal w ds now world err g :
  Posix.run (launch (request w) platform) world (kernel ds now) = (Finished (Unexpected err), g) ->
  error_delivery err = not_started /\ fate g = Unborn /\ opened g = ds.
Proof.
  intros E. pose proof (prog_run (launch (request w) platform) world (kernel ds now) _
    (wp_launch false (request w) platform (kernel ds now) eq_refl eq_refl eq_refl)) as H. rewrite E in H.
  by destruct H as (_ & _ & _ & ? & ? & ?).
Qed.

Lemma live_status o g : live_ok o g -> status (child o) <> running ->
  status (child o) = exited /\ fate g = Collected (pid (child o)) (wait_status (child o)) \/
  status (child o) = unknowable /\ fate g = Lost (pid (child o)).
Proof.
  intros [(src & [[_ _ _ Hf _] _]) _ _ _ _] Hr. unfold fate_ok in Hf. destruct (status (child o)); try done; auto.
Qed.

(** A reply is the child's own: nobody signalled it, and it was collected. *)
Definition reply_ok (o : EngineLive) (g : Kernel) (a : Answer) : Prop :=
  match a with
  | Value reply => signals g = [] /\ stdout_bytes reply = captured_out (capture (child o)) /\
      stderr_bytes reply = captured_err (capture (child o)) /\
      exists p w, fate g = Collected p w /\ termination reply = decode_status w
  | Unexpected _ => True
  end.

Lemma outcome_told o g :
  live_ok o g -> is_over o = true -> exists a, outcome_of o = Some a /\ says_not_started a = false /\ reply_ok o g a.
Proof.
  intros Hl [Hr%negb_true_iff _]%andb_true_iff. assert (status (child o) <> running) as Hn by (intros ?%is_running_true; congruence).
  pose proof (live_status o g Hl Hn) as Hst. pose proof Hl as [_ Hf Hlost (asked & Hs1 & Hs2 & Hs3 & Hs4) _].
  unfold outcome_of. destruct (fault o) as [e|] eqn:Ef.
  { eexists. split_and!; [done| |done]. cbn. apply bool_decide_eq_false. unfold reported. cbn. by rewrite (Hf e). }
  rewrite bool_decide_false by (intros Hu%Hlost; by destruct Hu).
  destruct (abandoned o); [by eexists|]. destruct (withdrawn o); [by eexists|].
  case_bool_decide as Ht; [by eexists|]. destruct Hst as [[Hst Hfate]|[Hst _]]; [|by destruct (Hlost Hst)].
  rewrite bool_decide_true by done. eexists. split_and!; [done..|]. cbn. split_and!; [|done|done|by eexists _, _].
  rewrite Hs1. destruct asked; [by destruct Ht; auto|]. destruct (killed o); [|done].
  destruct Hs4 as [[? ?]|?]; [done..|congruence|done].
Qed.

(** The destructor of a child that is over closes what is left of it. *)
Lemma destroyed_ok world o :
  live_ok o (kern o) -> status (child o) <> running -> forall g, destroyed world o = Some g -> g = set_opened (found o) (kern o).
Proof.
  intros [(src & Hc) _ _ _ _] Hr g E. unfold destroyed in E.
  pose proof (prog_run (destroy (child o)) world (kern o) _ (wp_destroy false _ _ _ _ Hc Hr)) as H.
  destruct (Posix.run (destroy (child o)) world (kern o)) as [[]]; try done. by injection E as <-.
Qed.
End engine.
