(* ===== verification/EngineProofs.v ===== *)
(** The process engine is correct: the invariant of ProcessEngine and what follows from it.

    [listed] is the roster of the engine's operations, [tracked] what the engine knows about
    its children, [controlled] its queues and the positions of its threads; every step of every
    thread keeps the three.  The theorems are those that ProcessEngine announces. *)

From S2P Require Import Prelude Command Process Posix Child Wake CompletionQueue OperationState Operations Roster Closing ProcessEngine.

Section proofs.
Context {messages : Messages}.
Context {W : Type} {os : OS W}.
Variable fuel : nat.

(** * The roster *)

Definition waiting_place (ph : TransportPhase) : Place := MkPlace ph false false false.
Definition live_place (o : EngineLive) : nat * Place :=
  (live_operation o,
   match stage o with
   | Watching => MkPlace active false true false
   | Published => MkPlace active true true false
   | Retired => MkPlace retired true true false
   | Hooked => MkPlace retired true true true
   end).
Definition launcher_places (l : Launcher) : list (nat * Place) :=
  match l with
  | LHolding w _ _ | LReady w | LRefusing w _ => [(operation w, waiting_place dispatching_)]
  | LRetiring w => [(operation w, MkPlace dispatching_ true false false)]
  | LHooking w => [(operation w, MkPlace retired true false false)]
  | LStarted o => [(live_operation o, MkPlace dispatching_ false true false)]
  | LArriving o => [live_place o]
  | _ => []
  end.
Definition over_place (x : nat * option (gset Z * Kernel)) : nat * Place :=
  (x.1, MkPlace retired true (bool_decide (is_Some x.2)) true).

(** Where every operation is. *)
Definition places (e : Engine) : list (nat * Place) :=
  ((fun w => (operation w, waiting_place queued)) <$> submitting e) ++
  ((fun w => (operation w, waiting_place dispatching_)) <$> pending e) ++
  launcher_places (launcher e) ++ (live_place <$> arrived e) ++ (live_place <$> live e) ++ (over_place <$> finished e).

Definition listed (limit : nat) (e : Engine) : Prop := roster_ok limit (pool e) (spawned e) (hooked e) (places e).

Lemma section_Some id f e e' :
  section id f e = Some e' <-> exists p, pool_section id f (pool e) = Some p /\ e' = set_pool p e.
Proof.
  unfold section. destruct (pool_section id f (pool e)) as [p|]; cbn; split.
  - intros [= <-]. by exists p.
  - by intros (? & [= ->] & ->).
  - done.
  - by intros (? & ? & ?).
Qed.

(** A section under a move of the roster. *)
Lemma section_moves (P : Pool ProcessReply -> Prop) id f e :
  (exists p, pool_section id f (pool e) = Some p /\ P p) -> exists p, section id f e = Some (set_pool p e) /\ P p.
Proof. intros (p & E & H). exists p. split; [|done]. apply section_Some. by exists p. Qed.

(** The roster with [x] first. *)
Lemma listed_at limit e x l :
  listed limit e -> places e ≡ₚ x :: l -> roster_ok limit (pool e) (spawned e) (hooked e) (x :: l).
Proof. intros Hl E. by eapply roster_ok_Permutation; [symmetry|]. Qed.

Lemma listed_as limit e l : roster_ok limit (pool e) (spawned e) (hooked e) l -> places e ≡ₚ l -> listed limit e.
Proof. intros Hl E. by eapply roster_ok_Permutation. Qed.

(** Steps of the failures and of the control do not touch it. *)
Definition same_roster (e e' : Engine) : Prop :=
  pool e' = pool e /\ spawned e' = spawned e /\ hooked e' = hooked e /\ places e' = places e.

Lemma same_listed limit e e' : same_roster e e' -> listed limit e -> listed limit e'.
Proof. unfold listed. by intros (-> & -> & -> & ->). Qed.

Lemma fail_roster f e : same_roster e (fail f e).
Proof. unfold fail. by case_match. Qed.
Lemma channel_fail_roster f e : same_roster e (channel_fail f e).
Proof. unfold channel_fail. by case_match. Qed.
Lemma note_roster f e : same_roster e (note f e).
Proof. destruct f; [apply channel_fail_roster|done]. Qed.
Lemma check_roster e : same_roster e (check_channel e).
Proof. unfold check_channel. case_match; [apply fail_roster|done]. Qed.

Lemma let_go_places id e : places (let_go id e) = places e ++ [(id, MkPlace retired true false true)].
Proof. unfold places. cbn. rewrite fmap_app, <-!app_assoc. done. Qed.

(** Moves that a hook ends. *)
Lemma listed_let_go limit e id l :
  roster_ok limit (pool e) (spawned e) (hooked e ++ [id]) ((id, MkPlace retired true false true) :: l) -> places e ≡ₚ l ->
  listed limit (let_go id e).
Proof. intros Hr E. eapply listed_as; [exact Hr|]. rewrite let_go_places, E. solve_Permutation. Qed.

Ltac places := unfold places; cbn; rewrite ?fmap_app; cbn; solve_Permutation.

Lemma admit_listed limit r now e e' : listed limit e -> admit_request r now e = Some e' -> listed limit e'.
Proof.
  intros Hl H. unfold admit_request in H. destruct (channel_failure e) as [f|].
  - destruct (roster_refuse limit (pool e) _ _ _ (engine_error f r) Hl eq_refl) as (p & Ep & _ & Hr). rewrite Ep in H. injection H as <-.
    eapply (same_listed limit (let_go (length (pool_operations (pool e))) (set_pool p e))).
    + unfold fail. by case_match.
    + by eapply listed_let_go.
  - destruct (pool_full (pool e)) eqn:Hfull.
    + destruct (roster_refuse limit (pool e) _ _ _ overloaded_failure Hl eq_refl) as (p & Ep & _ & Hr). rewrite Ep in H. injection H as <-.
      by eapply listed_let_go.
    + injection H as <-. eapply listed_as; [exact (roster_new limit (pool e) _ _ _ Hl Hfull)|]. places.
Qed.

Lemma accept_listed limit k e e' : listed limit e -> accept k e = Some e' -> listed limit e'.
Proof.
  intros Hl H. unfold accept in H. destruct (submitting e !! k) as [w|] eqn:Hk; [|done]. cbn [mbind option_bind] in H.
  pose (l := places (set_submitting (delete k (submitting e)) e)).
  assert (places e ≡ₚ (operation w, waiting_place queued) :: l) as E.
  { unfold l, places. cbn. rewrite (delete_Permutation _ _ _ Hk) at 1. cbn. solve_Permutation. }
  pose proof (listed_at _ _ _ _ Hl E) as Hr. destruct (_ && _).
  - destruct (section_moves _ (operation w) (advance_section dispatching_) e
      (roster_advance limit (pool e) _ _ _ _ _ dispatching_ Hr ltac:(done) ltac:(done) ltac:(cbn; lia))) as (p & Ep & Hr1).
    rewrite Ep in H. injection H as <-. eapply listed_as; [exact Hr1|]. unfold l. places.
  - destruct (section_moves _ (operation w) _ e (roster_publish limit (pool e) _ _ _ _ _
      (Unexpected match failure e with Some f => engine_error f (request w) | None => closed_failure end)
      Hr ltac:(done) ltac:(done) ltac:(by destruct (failure e)))) as (p1 & Ep1 & Hr1).
    rewrite Ep1 in H. cbn [mbind option_bind] in H.
    destruct (section_moves _ (operation w) _ (set_pool p1 e) (roster_retire limit p1 _ _ _ _ _ Hr1 ltac:(done) ltac:(done)))
      as (p2 & Ep2 & Hr2). rewrite Ep2 in H. injection H as <-.
    eapply listed_let_go; [exact (roster_call _ _ _ _ _ _ _ Hr2 eq_refl)|]. done.
Qed.

(** * The invariant *)

Definition launcher_child (l : Launcher) : list EngineLive := match l with LStarted o | LArriving o => [o] | _ => [] end.
Definition children (e : Engine) : list EngineLive := launcher_child (launcher e) ++ arrived e ++ live e.

(** What was done to a child in the end. *)
Definition escalation (l : list Z) : Prop := l = [] \/ l = [SIGTERM] \/ l = [SIGKILL] \/ l = [SIGTERM; SIGKILL].
Definition gone (g : Kernel) : Prop := match fate g with Collected _ _ | Lost _ => True | Unborn | Running _ => False end.
Definition ended_ok (x : nat * option (gset Z * Kernel)) : Prop :=
  match x.2 with Some (ds, g) => opened g = ds /\ gone g /\ escalation (signals g) | None => True end.

Definition is_collected (x : nat * option (gset Z * Kernel)) : bool :=
  match x.2 with Some (_, g) => match fate g with Collected _ _ => true | _ => false end | None => false end.
Definition had_child (x : nat * option (gset Z * Kernel)) : bool := bool_decide (is_Some x.2).

Record tracked (e : Engine) : Prop := {
  tr_live : Forall (fun o => live_ok o (kern o)) (children e);
  tr_watching : Forall (fun o => stage o = Watching) (launcher_child (launcher e) ++ arrived e);
  tr_stages : forall i o, live e !! i = Some o -> stage o <> Watching -> reactor e = RErasing i /\ is_over o = true;
  tr_refusal : match launcher e with LRefusing _ f => delivery f = not_started | _ => True end;
  tr_ended : Forall ended_ok (finished e);
  tr_published : published e = length (List.filter had_child (finished e));
  tr_reaped : reaped e = length (List.filter is_collected (finished e));
}.

Definition is_closing (e : Engine) : Prop := stop_requested e = true \/ is_Some (failure e).

Definition is_busy (l : Launcher) : bool :=
  match l with LTop | LWaking | LChecking | LReturned => false | _ => true end.
Definition unlaunched (l : Launcher) : list nat :=
  match l with LHolding w _ _ | LReady w => [operation w] | _ => [] end.

Record controlled (e : Engine) : Prop := {
  co_launching : launching e = if is_busy (launcher e) then 1 else 0;
  co_returned : launcher e = LReturned -> is_closing e /\ pending e = [];
  co_done : reactor e = RReturned ->
    is_closing e /\ pending e = [] /\ launching e = 0 /\ arrived e = [] /\ live e = [];
  co_accepted : accepted e = taken e ++ (operation <$> pending e);
  co_taken : exists before, taken e = before ++ unlaunched (launcher e) /\ spawned e `sublist_of` before;
}.

Record engine_ok (limit : nat) (e : Engine) : Prop := {
  eo_listed : listed limit e;
  eo_tracked : tracked e;
  eo_controlled : controlled e;
}.

Lemma start_ok limit : engine_ok limit (start limit).
Proof.
  split.
  - split; cbn; try done; try apply NoDup_nil_2. apply new_pool_ok.
  - by split.
  - split; cbn; try done. by exists [].
Qed.

(** Steps of the failures. *)
Record quiet (e e' : Engine) : Prop := {
  qu_roster : same_roster e e';
  qu_launcher : launcher e' = launcher e;
  qu_reactor : reactor e' = reactor e;
  qu_launching : launching e' = launching e;
  qu_queues : pending e' = pending e /\ arrived e' = arrived e /\ live e' = live e /\ submitting e' = submitting e;
  qu_logs : accepted e' = accepted e /\ taken e' = taken e /\ finished e' = finished e;
  qu_counts : published e' = published e /\ reaped e' = reaped e;
  qu_stop : stop_requested e' = stop_requested e;
  qu_closing : is_closing e -> is_closing e';
}.

Lemma quiet_refl e : quiet e e.
Proof. done. Qed.

Lemma fail_quiet f e : quiet e (fail f e).
Proof.
  unfold fail. case_match; [done|]. split; try done. cbn. intros [?|[? ?]]; [by left|right; by eexists].
Qed.
Lemma channel_fail_quiet f e : quiet e (channel_fail f e).
Proof. unfold channel_fail. by case_match. Qed.
Lemma note_quiet f e : quiet e (note f e).
Proof. destruct f; [apply channel_fail_quiet|done]. Qed.
Lemma check_quiet e : quiet e (check_channel e).
Proof. unfold check_channel. case_match; [apply fail_quiet|done]. Qed.

Lemma quiet_ok limit e e' : quiet e e' -> engine_ok limit e -> engine_ok limit e'.
Proof.
  intros [Hr Hl Hx Hn (Q1 & Q2 & Q3 & Q4) (L1 & L2 & L3) (C1 & C2) Hs Hc] [H1 H2 H3]. split; [by eapply same_listed| |].
  - destruct H2. split; unfold children; rewrite ?Hl, ?Hx, ?Q2, ?Q3, ?L3, ?C1, ?C2; done.
  - destruct H3. destruct Hr as (_ & Hsp & _). split; rewrite ?Hl, ?Hx, ?Hn, ?Q1, ?Q2, ?Q3, ?L1, ?L2, ?Hsp; try done.
    + intros E. destruct (co_returned0 E). auto.
    + intros E. destruct (co_done0 E). auto.
Qed.

(** ** Submitting *)

Lemma let_go_tracked id e : tracked e -> tracked (let_go id e).
Proof.
  intros []. split; cbn; try done.
  - apply Forall_app. split; [done|]. by apply Forall_singleton.
  - by rewrite List.filter_app, length_app, tr_published0, Nat.add_0_r.
  - by rewrite List.filter_app, length_app, tr_reaped0, Nat.add_0_r.
Qed.

Lemma set_pool_tracked p e : tracked e -> tracked (set_pool p e).
Proof. by intros []. Qed.
Lemma set_pool_controlled p e : controlled e -> controlled (set_pool p e).
Proof. by intros []. Qed.
Lemma let_go_controlled id e : controlled e -> controlled (let_go id e).
Proof. by intros []. Qed.

Lemma fail_tracked f e : tracked e -> tracked (fail f e).
Proof. unfold fail. case_match; [done|]. by intros []. Qed.
Lemma fail_controlled f e : controlled e -> controlled (fail f e).
Proof.
  unfold fail. case_match; [done|]. intros []. split; cbn; try done.
  - intros E. destruct (co_returned0 E). split; [right; by eexists|done].
  - intros E. destruct (co_done0 E). split; [right; by eexists|done].
Qed.

Lemma admit_keeps limit r now e e' : engine_ok limit e -> admit_request r now e = Some e' -> engine_ok limit e'.
Proof.
  intros [Hl Ht Hc] H. split; [by eapply admit_listed| |]; unfold admit_request in H;
    destruct (channel_failure e) as [f|]; [|destruct (pool_full _)| |destruct (pool_full _)].
  - apply bind_Some_inv in H as (p & _ & [= <-]). by apply let_go_tracked, fail_tracked, set_pool_tracked.
  - apply bind_Some_inv in H as (p & _ & [= <-]). by apply let_go_tracked, set_pool_tracked.
  - injection H as <-. by destruct Ht.
  - apply bind_Some_inv in H as (p & _ & [= <-]). by apply let_go_controlled, fail_controlled, set_pool_controlled.
  - apply bind_Some_inv in H as (p & _ & [= <-]). by apply let_go_controlled, set_pool_controlled.
  - injection H as <-. by destruct Hc.
Qed.

Lemma turn_framed id f e e' : section id f e = Some e' -> exists p, e' = set_pool p e.
Proof. intros (p & _ & ->)%section_Some. by exists p. Qed.

Lemma open_engine e : negb (stop_requested e) && negb (bool_decide (is_Some (failure e))) = true -> ~ is_closing e.
Proof. rewrite andb_true_iff, !negb_true_iff, bool_decide_eq_false. intros [H1 H2] [H|H]; [congruence|done]. Qed.

Lemma accept_keeps limit k e e' : engine_ok limit e -> accept k e = Some e' -> engine_ok limit e'.
Proof.
  intros [Hl Ht Hc] H. split; [by eapply accept_listed| |]; unfold accept in H;
    apply bind_Some_inv in H as (w & Hk & H); destruct (negb (stop_requested e) && _) eqn:Ho.
  - apply bind_Some_inv in H as (e1 & (p & ->)%turn_framed & [= <-]). by destruct Ht.
  - apply bind_Some_inv in H as (e1 & (p & ->)%turn_framed & H).
    apply bind_Some_inv in H as (e2 & (p' & ->)%turn_framed & [= <-]). apply let_go_tracked. by destruct Ht.
  - apply bind_Some_inv in H as (e1 & (p & ->)%turn_framed & [= <-]). pose proof (open_engine e Ho) as Hn.
    destruct Hc. split; cbn; try done.
    + intros E. by destruct (co_returned0 E).
    + intros E. by destruct (co_done0 E).
    + by rewrite fmap_app, co_accepted0, app_assoc.
  - apply bind_Some_inv in H as (e1 & (p & ->)%turn_framed & H).
    apply bind_Some_inv in H as (e2 & (p' & ->)%turn_framed & [= <-]). apply let_go_controlled. by destruct Hc.
Qed.

Lemma handle_keeps limit id c e e' : engine_ok limit e -> section id (handle_call c) e = Some e' -> engine_ok limit e'.
Proof.
  intros [Hl Ht Hc] (p & Ep & ->)%section_Some. split; [|by apply set_pool_tracked|by apply set_pool_controlled].
  exact (roster_handle _ _ _ _ _ _ _ _ Hl Ep).
Qed.

Lemma release_keeps limit p e : engine_ok limit e -> pool_release (pool e) = Some p -> engine_ok limit (set_pool p e).
Proof.
  intros [Hl Ht Hc] Ep. split; [|by apply set_pool_tracked|by apply set_pool_controlled]. exact (roster_release _ _ _ _ _ _ Hl Ep).
Qed.

Lemma stop_keeps limit e : engine_ok limit e -> engine_ok limit (set_stop e).
Proof.
  intros [Hl [] []]. split; [done|done|]. split; cbn; try done.
  - intros E. split; [by left|]. by destruct (co_returned0 E).
  - intros E. split; [by left|]. by destruct (co_done0 E).
Qed.


(** ** The launcher *)

Lemma decide_unlaunched w stopping f withdrawn now :
  match decide_launch w stopping f withdrawn now with
  | LReady w' => w' = w
  | LRefusing w' f => w' = w /\ delivery f = not_started
  | _ => False
  end.
Proof.
  unfold decide_launch. destruct f; [done|]. destruct (_ || _); [done|].
  destruct (match deadline w with Some _ => _ | None => _ end); done.
Qed.

(** The roster without the launcher's operation. *)
Definition elsewhere (e : Engine) : list (nat * Place) :=
  ((fun w => (operation w, waiting_place queued)) <$> submitting e) ++
  ((fun w => (operation w, waiting_place dispatching_)) <$> pending e) ++
  (live_place <$> arrived e) ++ (live_place <$> live e) ++ (over_place <$> finished e).

Lemma places_launcher e : places e ≡ₚ launcher_places (launcher e) ++ elsewhere e.
Proof. unfold places, elsewhere. solve_Permutation. Qed.

(** A step of the launcher, by what it makes of the roster. *)
Lemma launcher_moves limit x n e l :
  roster_ok limit (pool e) (spawned e) (hooked e) l -> l ≡ₚ launcher_places x ++ elsewhere e -> listed limit (set_launcher x n e).
Proof. intros Hr E. eapply listed_as; [exact Hr|]. by rewrite (places_launcher (set_launcher x n e)), E. Qed.

Lemma launcher_at limit e : listed limit e ->
  roster_ok limit (pool e) (spawned e) (hooked e) (launcher_places (launcher e) ++ elsewhere e).
Proof. intros Hl. eapply roster_ok_Permutation; [symmetry; apply places_launcher|done]. Qed.

Lemma launcher_listed limit e a e' : engine_ok limit e -> launcher_step a e = Some e' -> listed limit e'.
Proof.
  intros [Hl Ht _] H. pose proof (launcher_at limit e Hl) as Hr.
  pose proof (tr_refusal _ Ht) as Href. pose proof (tr_watching _ Ht) as Hwatch.
  unfold launcher_step in H. destruct (launcher e) as [ |w stopping f|w|w f|w|w|o|o| | | |] eqn:El; destruct a; try done;
    cbn [launcher_places app] in Hr.
  - unfold take_request in H. destruct (pending e) as [|w rest] eqn:Ep.
    + destruct (_ || _); [|done]. injection H as <-. by eapply launcher_moves.
    + injection H as <-. eapply listed_as; [exact Hl|]. unfold places. cbn. rewrite El, Ep. cbn. solve_Permutation.
  - apply bind_Some_inv in H as (op & _ & [= <-]). eapply launcher_moves; [exact Hr|].
    pose proof (decide_unlaunched w stopping f (cancel_requested op.2) now) as Hd.
    destruct (decide_launch _ _ _ _ _); try done; [by subst|by destruct Hd as [-> _]].
  - unfold launch_gate in H. destruct (channel_failure e) as [f|]; [injection H as <-; by eapply launcher_moves|].
    destruct (Posix.run _ _ _) as [[[ch|err]| | |] g] eqn:Er; try done; injection H as <-; [|by eapply launcher_moves].
    pose proof (roster_start _ _ _ _ _ _ _ Hr eq_refl eq_refl) as Hs. eapply listed_as; [exact Hs|].
    rewrite places_launcher. done.
  - destruct (section_moves _ (operation w) _ e (roster_publish limit (pool e) _ _ _ _ _ (Unexpected f) Hr ltac:(done) ltac:(done)
      ltac:(cbn; by rewrite Href))) as (p & Ep & Hr1).
    rewrite Ep in H. injection H as <-. eapply listed_as; [exact Hr1|]. by rewrite places_launcher.
  - destruct (section_moves _ (operation w) _ e (roster_retire limit (pool e) _ _ _ _ _ Hr ltac:(done) ltac:(done))) as (p & Ep & Hr1).
    rewrite Ep in H. injection H as <-. eapply listed_as; [exact Hr1|]. by rewrite places_launcher.
  - injection H as <-. pose proof (roster_call _ _ _ _ _ _ _ Hr eq_refl) as Hc. eapply listed_let_go; [exact Hc|].
    by rewrite places_launcher.
  - destruct (section_moves _ (live_operation o) _ e (roster_advance limit (pool e) _ _ _ _ _ active Hr ltac:(done) ltac:(done)
      ltac:(cbn; lia))) as (p & Ep & Hr1).
    rewrite Ep in H. injection H as <-. eapply listed_as; [exact Hr1|]. rewrite places_launcher. cbn.
    apply Forall_cons in Hwatch as [Hw _]. unfold live_place. by rewrite Hw.
  - injection H as <-. eapply listed_as; [exact Hr|]. unfold places, elsewhere. cbn. rewrite fmap_app. cbn. solve_Permutation.
  - injection H as <-. by eapply launcher_moves.
  - injection H as <-. pose proof (note_roster (wake_outcome answers) e) as Hn.
    eapply (launcher_moves limit LChecking (launching e) (note (wake_outcome answers) e) (elsewhere e)).
    + destruct Hn as (-> & -> & -> & _). exact Hr.
    + pose proof (note_quiet (wake_outcome answers) e) as [_ _ _ _ (Q1 & Q2 & Q3 & Q4) (_ & _ & L3) _ _ _].
      unfold elsewhere. by rewrite Q1, Q2, Q3, Q4, L3.
  - injection H as <-. pose proof (check_roster e) as Hn.
    eapply (launcher_moves limit LTop (launching e) (check_channel e) (elsewhere e)).
    + destruct Hn as (-> & -> & -> & _). exact Hr.
    + pose proof (check_quiet e) as [_ _ _ _ (Q1 & Q2 & Q3 & Q4) (_ & _ & L3) _ _ _].
      unfold elsewhere. by rewrite Q1, Q2, Q3, Q4, L3.
Qed.

(** What is known of the launcher's child and of its refusal is all that its steps must show. *)
Definition launcher_known (x : Launcher) : Prop :=
  Forall (fun o => live_ok o (kern o) /\ stage o = Watching) (launcher_child x) /\
  match x with LRefusing _ f => delivery f = not_started | _ => True end.

Lemma set_launcher_tracked x n e : tracked e -> launcher_known x -> tracked (set_launcher x n e).
Proof.
  intros [] [[Hx1 Hx2]%Forall_and Hf]. apply Forall_app in tr_live0 as [_ Hl], tr_watching0 as [_ Hw].
  split; cbn; try done; by apply Forall_app.
Qed.

Lemma launcher_known_now e : tracked e -> launcher_known (launcher e).
Proof.
  intros []. split; [|done]. apply Forall_app in tr_live0 as [Hl _], tr_watching0 as [Hw _]. by apply Forall_and.
Qed.

Lemma quiet_tracked e e' : quiet e e' -> tracked e -> tracked e'.
Proof.
  intros [Hr Hl Hx Hn (Q1 & Q2 & Q3 & Q4) (L1 & L2 & L3) (C1 & C2) Hs Hc] [].
  split; unfold children; rewrite ?Hl, ?Hx, ?Q2, ?Q3, ?L3, ?C1, ?C2; done.
Qed.

Lemma launcher_tracked limit e a e' : engine_ok limit e -> launcher_step a e = Some e' -> tracked e'.
Proof.
  intros [_ Ht _] H. pose proof (launcher_known_now e Ht) as Hk.
  assert (forall x n e1, tracked e1 -> launcher_child x = [] -> match x with LRefusing _ _ => False | _ => True end ->
    tracked (set_launcher x n e1)) as Hidle.
  { intros x n e1 H1 Hx Hf. apply set_launcher_tracked; [done|]. split; [by rewrite Hx|by destruct x]. }
  unfold launcher_step in H. destruct (launcher e) as [ |w stopping f|w|w f|w|w|o|o| | | |] eqn:El; destruct a; try done.
  - unfold take_request in H. destruct (pending e) as [|w rest] eqn:Ep; [destruct (_ || _); [|done]|]; injection H as <-.
    + by apply Hidle.
    + specialize (Hidle (LHolding w (stop_requested e) (failure e)) (S (launching e)) (set_pending rest (accepted e) e)).
      destruct Hidle; try done. by destruct Ht.
  - apply bind_Some_inv in H as (op & _ & [= <-]). apply set_launcher_tracked; [done|].
    pose proof (decide_unlaunched w stopping f (cancel_requested op.2) now) as Hd.
    destruct (decide_launch _ _ _ _ _); try done. by destruct Hd.
  - unfold launch_gate in H. destruct (channel_failure e) as [f|]; [injection H as <-; by apply set_launcher_tracked|].
    destruct (Posix.run _ _ _) as [[[ch|err]| | |] g] eqn:Er; try done; injection H as <-.
    + pose proof (live_starts w ds now w0 ch g Er) as Hs.
      specialize (set_launcher_tracked (LStarted (MkLive ch g ds (operation w) (deadline w) None None (spawn_fault ch)
        false false false Watching)) (launching e) e Ht) as [].
      { split; [|done]. apply Forall_singleton. by split. }
      by split.
    + apply set_launcher_tracked; [done|]. split; [done|]. cbn. by apply (launch_refusal w ds now w0 err g).
  - apply bind_Some_inv in H as (e1 & (p & ->)%turn_framed & [= <-]). apply Hidle; [by apply set_pool_tracked|done..].
  - apply bind_Some_inv in H as (e1 & (p & ->)%turn_framed & [= <-]). apply Hidle; [by apply set_pool_tracked|done..].
  - injection H as <-. apply let_go_tracked. by apply Hidle.
  - apply bind_Some_inv in H as (e1 & (p & ->)%turn_framed & [= <-]).
    apply set_launcher_tracked; [by apply set_pool_tracked|exact Hk].
  - injection H as <-. destruct Hk as [[Hk1 Hk2]%Forall_cons _]. destruct Hk1 as [Hk1 Hk3].
    destruct Ht as [Hl Hw Hst _ ? ? ?]. rewrite El in Hw. unfold children in Hl. rewrite El in Hl. cbn in Hl, Hw.
    apply Forall_cons in Hl as [_ Hl], Hw as [_ Hw]. apply Forall_app in Hl as [Hl1 Hl2]. split; unfold children; cbn; try done.
    + rewrite <-app_assoc. apply Forall_app. split; [done|]. by apply Forall_cons.
    + apply Forall_app. split; [done|]. by apply Forall_singleton.
  - injection H as <-. by apply Hidle.
  - injection H as <-. apply Hidle; try done. eapply quiet_tracked; [apply note_quiet|done].
  - injection H as <-. apply Hidle; try done. eapply quiet_tracked; [apply check_quiet|done].
Qed.

Lemma set_launcher_controlled x n e :
  controlled e -> n = (if is_busy x then 1 else 0) -> (reactor e = RReturned -> is_busy x = false) -> x <> LReturned ->
  (exists before, taken e = before ++ unlaunched x /\ spawned e `sublist_of` before) ->
  controlled (set_launcher x n e).
Proof.
  intros [] Hn Hd Hx Ht. split; cbn; try done. intros E. destruct (co_done0 E) as (H1 & H2 & H3 & H4 & H5).
  split_and!; try done. by rewrite Hn, (Hd E).
Qed.

Lemma busy_reactor e : controlled e -> is_busy (launcher e) = true -> reactor e = RReturned -> False.
Proof. intros [] Hb E. destruct (co_done0 E) as (_ & _ & H & _). rewrite co_launching0, Hb in H. done. Qed.

Lemma quiet_controlled e e' : quiet e e' -> controlled e -> controlled e'.
Proof.
  intros [Hr Hl Hx Hn (Q1 & Q2 & Q3 & Q4) (L1 & L2 & L3) (C1 & C2) Hs Hc] []. destruct Hr as (_ & Hsp & _).
  split; rewrite ?Hl, ?Hx, ?Hn, ?Q1, ?Q2, ?Q3, ?L1, ?L2, ?Hsp; try done.
  - intros E. destruct (co_returned0 E). auto.
  - intros E. destruct (co_done0 E). auto.
Qed.

(** A request that is not launched is skipped. *)
Lemma taken_skip (taken spawned : list nat) (u : list nat) :
  (exists before, taken = before ++ u /\ spawned `sublist_of` before) ->
  exists before, taken = before ++ [] /\ spawned `sublist_of` before.
Proof. intros (b & -> & H). exists (b ++ u). rewrite app_nil_r. split; [done|]. by apply sublist_inserts_r. Qed.

Lemma launcher_controlled limit e a e' : engine_ok limit e -> launcher_step a e = Some e' -> controlled e'.
Proof.
  intros [_ _ Hc] H. pose proof (co_taken _ Hc) as Ht. pose proof (co_launching _ Hc) as Hn.
  pose proof (busy_reactor e Hc) as Hb.
  assert (forall p, controlled (set_pool p e)) as Hp by (intros; by apply set_pool_controlled).
  unfold launcher_step in H. destruct (launcher e) as [ |w stopping f|w|w f|w|w|o|o| | | |] eqn:El; destruct a; try done;
    cbn [is_busy unlaunched] in *; try (pose proof (taken_skip _ _ _ Ht) as Hskip).
  - unfold take_request in H. destruct (pending e) as [|w rest] eqn:Ep.
    + destruct (_ || _) eqn:Ec; [|done]. injection H as <-. destruct Hc. split; cbn; try done.
      intros _. split; [|done]. apply orb_true_iff in Ec as [?|?%bool_decide_eq_true]; [by left|by right].
    + injection H as <-. pose proof (co_accepted _ Hc) as Ha. rewrite Ep in Ha. cbn in Ha. destruct Ht as (b & E & Hs).
      destruct Hc. split; cbn; try done.
      * by rewrite Hn.
      * intros E'. destruct (co_done0 E') as (_ & ? & _). congruence.
      * by rewrite <-app_assoc.
      * exists b. rewrite app_nil_r in E. by rewrite E.
  - apply bind_Some_inv in H as (op & _ & [= <-]).
    pose proof (decide_unlaunched w stopping f (cancel_requested op.2) now) as Hd.
    destruct (decide_launch _ _ _ _ _) eqn:Ed; try done; apply set_launcher_controlled; try done.
    + by intros ?%Hb.
    + by subst.
    + by intros ?%Hb.
  - unfold launch_gate in H. destruct (channel_failure e) as [f|].
    { injection H as <-. apply set_launcher_controlled; try done; by intros ?%Hb. }
    destruct (Posix.run _ _ _) as [[[ch|err]| | |] g] eqn:Er; try done; injection H as <-.
    + destruct Ht as (b & E & Hs). destruct Hc. split; cbn; try done.
      exists (b ++ [operation w]). rewrite app_nil_r. split; [done|]. by apply sublist_app.
    + apply set_launcher_controlled; try done; by intros ?%Hb.
  - apply bind_Some_inv in H as (e1 & (p & ->)%turn_framed & [= <-]). apply set_launcher_controlled; try done; by intros ?%Hb.
  - apply bind_Some_inv in H as (e1 & (p & ->)%turn_framed & [= <-]). apply set_launcher_controlled; try done; by intros ?%Hb.
  - injection H as <-. apply let_go_controlled, set_launcher_controlled; try done. by intros ?%Hb.
  - apply bind_Some_inv in H as (e1 & (p & ->)%turn_framed & [= <-]). apply set_launcher_controlled; try done; by intros ?%Hb.
  - injection H as <-. destruct Hc. split; cbn; try done. by intros ?%Hb.
  - injection H as <-. apply set_launcher_controlled; try done. by rewrite Hn.
  - injection H as <-. pose proof (note_quiet (wake_outcome answers) e) as Hq.
    apply set_launcher_controlled; try done; [by eapply quiet_controlled|].
    destruct Hq as [(_ & -> & _) _ _ _ _ (_ & -> & _) _ _ _]. done.
  - injection H as <-. pose proof (check_quiet e) as Hq.
    apply set_launcher_controlled; try done; [by eapply quiet_controlled|].
    destruct Hq as [(_ & -> & _) _ _ _ _ (_ & -> & _) _ _ _]. done.
Qed.

Lemma launcher_keeps limit e a e' : engine_ok limit e -> launcher_step a e = Some e' -> engine_ok limit e'.
Proof. intros H E. split; [by eapply launcher_listed|by eapply launcher_tracked|by eapply launcher_controlled]. Qed.

(** ** The reactor *)

Lemma delete_insert_same {X} (i : nat) (x : X) (l : list X) : delete i (<[i := x]> l) = delete i l.
Proof. revert i. induction l as [|y l IH]; intros [|i]; cbn; [done..|]. f_equal. apply IH. Qed.

(** The roster without one of the reactor's children. *)
Definition apart_from (i : nat) (e : Engine) : list (nat * Place) :=
  ((fun w => (operation w, waiting_place queued)) <$> submitting e) ++
  ((fun w => (operation w, waiting_place dispatching_)) <$> pending e) ++
  launcher_places (launcher e) ++ (live_place <$> arrived e) ++ (live_place <$> delete i (live e)) ++ (over_place <$> finished e).

Lemma places_child i o e : live e !! i = Some o -> places e ≡ₚ live_place o :: apart_from i e.
Proof.
  intros H. unfold places, apart_from. rewrite (delete_Permutation _ _ _ H) at 1. cbn. solve_Permutation.
Qed.

Lemma child_at limit i o e : listed limit e -> live e !! i = Some o ->
  roster_ok limit (pool e) (spawned e) (hooked e) (live_place o :: apart_from i e).
Proof. intros Hl H. apply listed_at; [done|]. by apply places_child. Qed.

Lemma places_set_live i o o' e : live e !! i = Some o -> places (set_live i o' e) ≡ₚ live_place o' :: apart_from i e.
Proof.
  intros H. rewrite (places_child i o').
  - unfold apart_from. cbn. by rewrite delete_insert_same.
  - cbn. rewrite list_lookup_insert_eq; [done|]. by eapply lookup_lt_Some.
Qed.

(** All children are watched, but perhaps one that is being erased. *)
Definition all_watched (e : Engine) : Prop := forall i o, live e !! i = Some o -> stage o = Watching.

Lemma watched_now e : tracked e -> (forall i, reactor e <> RErasing i) -> all_watched e.
Proof.
  intros [] H i o Hi. destruct (stage o) eqn:Es; [done|..]; exfalso;
    (destruct (tr_stages0 i o Hi) as [E _]; [congruence|]; by apply (H i)).
Qed.

Lemma set_reactor_tracked x e : tracked e -> all_watched e -> tracked (set_reactor x e).
Proof. intros [] H. split; cbn; try done. intros i o Hi Hs. exfalso. by apply Hs, (H i). Qed.

Lemma set_reactor_controlled x e : controlled e -> x <> RReturned -> controlled (set_reactor x e).
Proof. intros [] H. by split. Qed.

Lemma set_reactor_keeps limit x e : engine_ok limit e -> all_watched e -> x <> RReturned -> engine_ok limit (set_reactor x e).
Proof. intros [Hl Ht Hc] Ha Hx. split; [done|by apply set_reactor_tracked|by apply set_reactor_controlled]. Qed.

Lemma quiet_watched e e' : quiet e e' -> all_watched e -> all_watched e'.
Proof. intros [_ _ _ _ (_ & _ & Q & _) _ _ _ _] H i o. rewrite Q. apply H. Qed.

Lemma take_arrivals_keeps limit e : engine_ok limit e -> all_watched e -> engine_ok limit (take_arrivals e).
Proof.
  intros [Hl Ht Hc] Ha. set (e1 := set_children [] (live e ++ arrived e) e).
  assert (listed limit e1) as Hl1.
  { eapply listed_as; [exact Hl|]. unfold places. cbn. rewrite fmap_app. cbn. solve_Permutation. }
  assert (all_watched e1) as Ha1.
  { intros i o Hi. cbn in Hi. apply lookup_app_Some in Hi as [Hi|[_ Hi]]; [by eapply Ha|].
    destruct Ht as [_ Hw _ _ _ _ _]. apply Forall_app in Hw as [_ Hw]. by eapply Forall_lookup_1 in Hw. }
  assert (tracked e1) as Ht1.
  { destruct Ht. split; cbn; try done.
    - unfold children in *. cbn. rewrite !Forall_app in *. tauto.
    - rewrite !Forall_app in *. by destruct tr_watching0.
    - intros i o Hi Hs. exfalso. by apply Hs, (Ha1 i). }
  unfold take_arrivals. fold e1. destruct (_ && _) eqn:E.
  - rewrite !andb_true_iff, orb_true_iff, !bool_decide_eq_true, Nat.eqb_eq in E. destruct E as [[[Hcl Hlive] Hp] Hn].
    split; [done|by apply set_reactor_tracked|]. by destruct Hc.
  - apply set_reactor_keeps; [|done..]. split; [done|done|]. destruct Hc. split; cbn; try done.
    intros Hd. destruct (co_done0 Hd) as (H1 & H2 & H3 & H4 & H5). by rewrite H4, H5.
Qed.

Lemma tend_keeps limit stopping f boundary world i o o' e :
  engine_ok limit e -> reactor e <> RReturned -> all_watched e -> live e !! i = Some o -> tend_one fuel stopping f boundary world o e = Some o' ->
  engine_ok limit (set_live i o' e) /\ all_watched (set_live i o' e).
Proof.
  intros [Hl Ht Hc] Hx Ha Hi H. unfold tend_one in H. apply bind_Some_inv in H as (op & _ & H).
  assert (live_ok o (kern o)) as Ho.
  { destruct Ht. unfold children in *. rewrite !Forall_app in tr_live0. destruct tr_live0 as (_ & _ & Hl2). by eapply Forall_lookup_1 in Hl2. }
  pose proof (prog_run (tend fuel stopping f (cancel_requested op.2) boundary o) world (kern o) _
    (wp_tend fuel false stopping f (cancel_requested op.2) boundary o (kern o) Ho ltac:(done))) as Hr.
  destruct (Posix.run _ _ _) as [[o1| | |] g]; try done. injection H as <-.
  destruct Hr as [([] & (E1 & E2 & E3 & E4) & _) _]. set (o2 := set_kern g o1).
  assert (live_ok o2 (kern o2)) as Ho2 by done. assert (live_place o2 = live_place o) as Hp by (unfold live_place; cbn; by rewrite E2, E4).
  assert (all_watched (set_live i o2 e)) as Ha2.
  { intros j oj Hj. cbn in Hj. apply list_lookup_insert_Some in Hj as [(-> & <- & _)|[_ Hj]]; [|by eapply Ha].
    cbn. rewrite E4. by eapply Ha. }
  split; [|done]. split.
  - eapply listed_as; [exact (child_at limit i o e Hl Hi)|]. by rewrite (places_set_live i o o2 e Hi), Hp.
  - destruct Ht. split; cbn; try done.
    + unfold children in *. cbn. rewrite !Forall_app in *. destruct tr_live0 as (? & ? & ?). split_and!; try done.
      by apply Forall_insert.
    + intros j oj Hj Hs. exfalso. by apply Hs, (Ha2 j).
  - destruct Hc. split; cbn; try done.
Qed.

(** ** Erasing *)

Lemma live_at e i o : tracked e -> live e !! i = Some o -> live_ok o (kern o).
Proof.
  intros [] Hi. unfold children in *. rewrite !Forall_app in tr_live0. destruct tr_live0 as (_ & _ & Hl).
  by eapply Forall_lookup_1 in Hl.
Qed.

Lemma set_stage_live s o g : live_ok o g -> live_ok (set_stage s o) g.
Proof. by intros []. Qed.

Lemma set_stage_tracked s i o e :
  tracked e -> live e !! i = Some o -> reactor e = RErasing i -> is_over o = true -> tracked (set_live i (set_stage s o) e).
Proof.
  intros Ht Hi Hx Ho. pose proof (live_at e i o Ht Hi) as Hl. destruct Ht. split; cbn; try done.
  - unfold children in *. cbn. rewrite !Forall_app in *. destruct tr_live0 as (? & ? & ?). split_and!; try done.
    apply Forall_insert; [done|]. by apply set_stage_live.
  - intros j oj Hj Hs. apply list_lookup_insert_Some in Hj as [(-> & <- & _)|[_ Hj]]; [done|]. by apply tr_stages0.
Qed.

Lemma set_live_controlled i o e : controlled e -> reactor e <> RReturned -> controlled (set_live i o e).
Proof. intros [] H. by split. Qed.

Lemma stage_over e i o : tracked e -> live e !! i = Some o -> stage o <> Watching -> is_over o = true.
Proof. intros [] Hi Hs. by destruct (tr_stages0 i o Hi Hs). Qed.

Lemma escalation_ok o g : live_ok o g -> escalation (signals g).
Proof.
  intros [_ _ _ (asked & E & _) _]. rewrite E. unfold escalation. destruct asked, (killed o); cbn; auto.
Qed.

Lemma over_ended o : is_over o = true -> status (child o) <> running.
Proof. intros [H%negb_true_iff _]%andb_true_iff E%is_running_true. congruence. Qed.

Lemma ended_collected o : live_ok o (kern o) -> status (child o) <> running ->
  bool_decide (status (child o) = exited) = match fate (kern o) with Collected _ _ => true | _ => false end.
Proof.
  intros Hl Hn. destruct (live_status o (kern o) Hl Hn) as [[-> ->]|[-> ->]]; [by rewrite bool_decide_true|by rewrite bool_decide_false].
Qed.

Lemma count_keeps limit i world o g e :
  engine_ok limit e -> reactor e = RErasing i -> live e !! i = Some o -> stage o = Hooked -> destroyed world o = Some g ->
  engine_ok limit (set_counts (S (published e)) (if bool_decide (status (child o) = exited) then S (reaped e) else reaped e)
     (finished e ++ [(live_operation o, Some (found o, g))]) (set_children (arrived e) (delete i (live e)) e)).
Proof.
  intros [Hl Ht Hc] Hx Hi Hs Hd. pose proof (live_at e i o Ht Hi) as Hlive.
  pose proof (over_ended o (stage_over e i o Ht Hi ltac:(congruence))) as Hn.
  pose proof (destroyed_ok world o Hlive Hn g Hd) as ->. split.
  - eapply listed_as; [exact (child_at limit i o e Hl Hi)|]. unfold places, apart_from, live_place. cbn. rewrite fmap_app, Hs. cbn.
    solve_Permutation.
  - assert (forall f l, length (List.filter f (l ++ [(live_operation o, Some (found o, set_opened (found o) (kern o)))])) =
      length (List.filter f l) + b2n (f (live_operation o, Some (found o, set_opened (found o) (kern o))))) as Hcount.
    { intros f l. rewrite List.filter_app, length_app. cbn. by destruct (f _). }
    pose proof Ht as [T1 T2 T3 T4 T5 T6 T7]. split; cbn -[had_child is_collected]; try done.
    + unfold children in *. cbn. rewrite !Forall_app in *. destruct T1 as (? & ? & ?). split_and!; try done. by apply Forall_delete.
    + intros j oj Hj Hsj. assert (oj ∈ delete i (live e)) as He by by eapply list_elem_of_lookup_2.
      destruct (decide (j < i)) as [Hlt|Hge].
      * rewrite list_lookup_delete_lt in Hj by done. destruct (T3 j oj Hj Hsj) as [E _]. rewrite Hx in E. injection E. lia.
      * rewrite list_lookup_delete_ge in Hj by lia. destruct (T3 (S j) oj Hj Hsj) as [E _]. rewrite Hx in E. injection E. lia.
    + apply Forall_app. split; [done|]. apply Forall_singleton. unfold ended_ok. cbn. split_and!; [done| |by eapply escalation_ok].
      unfold gone. cbn. destruct (live_status o (kern o) Hlive Hn) as [[_ ->]|[_ ->]]; done.
    + rewrite Hcount. unfold had_child at 2. cbn. lia.
    + rewrite Hcount, (ended_collected o Hlive Hn). unfold is_collected at 2. cbn. destruct (fate (kern o)); cbn; lia.
  - destruct Hc. split; cbn; try done. intros E. rewrite Hx in E. done.
Qed.

Lemma erase_keeps limit i a e e' :
  engine_ok limit e -> reactor e = RErasing i -> erase_step i a e = Some e' -> engine_ok limit e'.
Proof.
  intros Hok Hx H. pose proof Hok as [Hl Ht Hc]. unfold erase_step in H.
  assert (reactor e <> RReturned) as Hr by congruence.
  destruct (live e !! i) as [o|] eqn:Hi.
  2: { destruct a; try done. injection H as <-. apply set_reactor_keeps; try done. intros j oj Hj.
       destruct (stage oj) eqn:Es; [done|..]; exfalso; (destruct (tr_stages e Ht j oj Hj) as [E _]; [congruence|]);
         rewrite Hx in E; injection E as ->; congruence. }
  pose proof (child_at limit i o e Hl Hi) as Hat. destruct (stage o) eqn:Es, a; try done.
  - destruct (is_over o); [done|]. injection H as <-. apply set_reactor_keeps; try done. intros j oj Hj.
    destruct (stage oj) eqn:Ej; [done|..]; exfalso; (destruct (tr_stages e Ht j oj Hj) as [E _]; [congruence|]);
      rewrite Hx in E; injection E as ->; congruence.
  - destruct (is_over o) eqn:Ho; [|done].
    destruct (outcome_told o (kern o) (live_at e i o Ht Hi) Ho) as (answer & Ea & Hns & _). rewrite Ea in H. cbn [mbind option_bind] in H.
    unfold live_place in Hat. rewrite Es in Hat.
    destruct (section_moves _ (live_operation o) _ e (roster_publish limit (pool e) _ _ _ _ _ answer Hat ltac:(done) ltac:(done) Hns))
      as (p & Ep & Hr1). rewrite Ep in H. injection H as <-. split.
    + eapply listed_as; [exact Hr1|]. by rewrite (places_set_live i o (set_stage Published o) (set_pool p e) Hi).
    + apply set_stage_tracked; try done. by apply set_pool_tracked.
    + apply set_live_controlled; [by apply set_pool_controlled|done].
  - unfold live_place in Hat. rewrite Es in Hat.
    destruct (section_moves _ (live_operation o) _ e (roster_advance limit (pool e) _ _ _ _ _ retiring Hat ltac:(done) ltac:(done) ltac:(cbn; lia)))
      as (p & Ep & Hr1). rewrite Ep in H. cbn [mbind option_bind] in H.
    destruct (section_moves _ (live_operation o) _ (set_pool p e) (roster_retire limit p _ _ _ _ _ Hr1 ltac:(done) ltac:(done)))
      as (p2 & Ep2 & Hr2). rewrite Ep2 in H. injection H as <-. split.
    + eapply listed_as; [exact Hr2|]. by rewrite (places_set_live i o (set_stage Retired o) (set_pool p2 e) Hi).
    + apply set_stage_tracked; try done; [by do 2 apply set_pool_tracked|]. apply (stage_over e i o Ht Hi). congruence.
    + apply set_live_controlled; [by do 2 apply set_pool_controlled|done].
  - injection H as <-. unfold live_place in Hat. rewrite Es in Hat.
    pose proof (roster_call limit _ _ _ _ _ _ Hat eq_refl) as Hr1. split.
    + eapply listed_as; [exact Hr1|]. by rewrite (places_set_live i o (set_stage Hooked o) e Hi).
    + assert (tracked (set_live i (set_stage Hooked o) e)) as [].
      { apply set_stage_tracked; try done. apply (stage_over e i o Ht Hi). congruence. }
      by split.
    + assert (controlled (set_live i (set_stage Hooked o) e)) as [] by by apply set_live_controlled.
      by split.
  - apply bind_Some_inv in H as (g & Hd & [= <-]). by eapply count_keeps.
Qed.

Lemma reactor_keeps limit e a e' : engine_ok limit e -> reactor_step fuel a e = Some e' -> engine_ok limit e'.
Proof.
  intros Hok H. pose proof Hok as [Hl Ht Hc]. unfold reactor_step in H.
  assert (forall f x, (forall i, reactor e <> RErasing i) -> quiet e (f e) -> x <> RReturned -> engine_ok limit (set_reactor x (f e))) as Hq.
  { intros f x Hx Hf Hr. apply set_reactor_keeps; [by eapply quiet_ok| |done]. eapply quiet_watched; [done|]. by apply watched_now. }
  destruct (reactor e) eqn:Hx; [..|by eapply erase_keeps|done]; destruct a; try done.
  all: try (injection H as <-; apply Hq; [congruence| |done]).
  - apply check_quiet.
  - injection H as <-. apply take_arrivals_keeps; [done|]. apply watched_now; [done|]. congruence.
  - apply channel_fail_quiet.
  - apply note_quiet.
  - apply check_quiet.
  - injection H as <-. apply set_reactor_keeps; [done| |done]. apply watched_now; [done|]. congruence.
  - destruct (live e !! i) as [o|] eqn:Hi; [|done]. apply bind_Some_inv in H as (o' & Ho & [= <-]).
    destruct (tend_keeps limit stopping failure boundary w i o o' e) as [H1 H2]; try done; [congruence| |].
    + apply watched_now; [done|]. congruence.
    + by apply set_reactor_keeps.
  - destruct (live e !! i) eqn:Hi; [done|]. injection H as <-. apply set_reactor_keeps; [done| |done].
    apply watched_now; [done|]. congruence.
Qed.

(** ** Every step *)

Lemma step_keeps limit a e e' : engine_ok limit e -> step fuel a e = Some e' -> engine_ok limit e'.
Proof.
  intros Hok H. destruct a; cbn [step] in H.
  - by eapply admit_keeps.
  - by eapply accept_keeps.
  - destruct (handed_over id e); [|done]. by eapply handle_keeps.
  - apply bind_Some_inv in H as (p & Ep & [= <-]). by apply release_keeps.
  - injection H as <-. eapply quiet_ok; [apply note_quiet|done].
  - injection H as <-. by apply stop_keeps.
  - by eapply launcher_keeps.
  - by eapply reactor_keeps.
Qed.

Lemma engine_stays_sound limit e : reachable fuel limit e -> engine_ok limit e.
Proof. induction 1; [apply start_ok|by eapply step_keeps]. Qed.

(** * What follows *)

Lemma place_of limit e id op :
  engine_ok limit e -> pool_operations (pool e) !! id = Some op -> exists x, (id, x) ∈ places e /\
    entry_ok (pool e) (spawned e) (hooked e) (id, x) /\
    (phase x <> retired -> (id, phase x, told x) ∈ held (places e)).
Proof.
  intros [[Hi _ He _ _ _] _ _] Hid. assert (id ∈ (places e).*1) as Hin.
  { rewrite Hi. apply elem_of_seq. apply lookup_lt_Some in Hid. lia. }
  apply list_elem_of_fmap in Hin as ([id' x] & -> & Hx). exists x. rewrite Forall_forall in He. split_and!; [done|by apply He|].
  intros Hp. unfold held. apply list_elem_of_bind. exists (id', x). split; [|done]. unfold held_entry. cbn.
  rewrite bool_decide_false by done. by left.
Qed.

(** A hook was called: the operation is answered and retired. *)
Lemma hooked_answered limit e id op :
  engine_ok limit e -> pool_operations (pool e) !! id = Some op -> id ∈ hooked e -> answered op.
Proof.
  intros Hok Hid Hh. destruct Hok as [[Hi Hp He Hs Hn Hlog] Ht Hc] eqn:Eok. clear Eok.
  destruct (place_of limit e id op Hok Hid) as (x & Hx & (_ & _ & Hcalled) & _). cbn in Hcalled.
  assert (phase x = retired) as Hph.
  { apply Hcalled in Hh. unfold places in Hx. rewrite !elem_of_app in Hx.
    destruct Hx as [Hx|[Hx|[Hx|[Hx|[Hx|Hx]]]]]; try (apply list_elem_of_fmap in Hx as (? & [= -> ->] & _); cbn in Hh; done).
    - destruct (launcher e); cbn in Hx; try (by apply elem_of_nil in Hx); apply list_elem_of_singleton in Hx; injection Hx as -> ->; cbn in *; try done.
      by destruct (stage o).
    - apply list_elem_of_fmap in Hx as (o & [= -> ->] & _). by destruct (stage o).
    - apply list_elem_of_fmap in Hx as (o & [= -> ->] & _). by destruct (stage o). }
  eapply pool_answered; [exact Hp|exact Hid|]. intros Hin.
  apply list_elem_of_fmap in Hin as ([id1 ph] & -> & ([[id2 ph2] b] & [= -> ->] & Hin)%list_elem_of_fmap).
  apply list_elem_of_bind in Hin as ([id3 y] & Hy & Hin). unfold held_entry in Hy. cbn in Hy.
  case_bool_decide as Hr; [by apply elem_of_nil in Hy|]. apply list_elem_of_singleton in Hy. injection Hy as -> -> ->.
  apply Hr. assert (y = x) as ->; [|done].
  assert (NoDup (places e).*1) as Hnd by (rewrite Hi; apply NoDup_seq).
  apply list_elem_of_lookup in Hx as (k1 & Hk1), Hin as (k2 & Hk2).
  assert (k1 = k2) as ->; [|congruence]. eapply (NoDup_lookup _ _ _ id3 Hnd); rewrite list_lookup_fmap; [by rewrite Hk1|by rewrite Hk2].
Qed.

(** C5: an operation's failure says that nothing was started exactly when nothing was.  In every
    state the engine reaches, under every interleaving of callers, launcher, reactor and failures
    and every answer of the system: an operation that is answered was answered [not_started] if
    and only if no process was created for it; no process is created twice for an operation; and
    the admissions in flight, which never exceed the limit, are exactly those of operations that
    have not given theirs back. *)
Theorem engine_truthful limit e :
  reachable fuel limit e ->
  (forall id op a, pool_operations (pool e) !! id = Some op -> outcome op.2 = Some a ->
     (says_not_started a = true <-> id ∉ spawned e)) /\
  NoDup (spawned e) /\
  pool_in_flight (pool e) <= limit /\
  pool_in_flight (pool e) = flights (pool_operations (pool e)) + pool_releasing (pool e).
Proof.
  intros Hok%engine_stays_sound. pose proof Hok as [[_ [] _ Hs _ _] _ _]. split_and!; try done.
  intros id op a Hid Ho. destruct (place_of limit e id op Hok Hid) as (x & _ & (Hx & Hb & _) & _). cbn in *.
  unfold pool_outcome in Hx. rewrite Hid in Hx. cbn in Hx. rewrite Ho in Hx. destruct Hx as [_ ->].
  rewrite negb_true_iff, <-Hb. by destruct (born x).
Qed.

(** C27: commands start in the order they were accepted, and every retirement hook is called once.
    The operations processes were created for are a subsequence, in order, of those accepted; a
    retirement hook is called at most once, and only for an operation that is answered and
    retired. *)
Theorem engine_in_order limit e :
  reachable fuel limit e ->
  spawned e `sublist_of` accepted e /\ NoDup (hooked e) /\
  forall id op, pool_operations (pool e) !! id = Some op -> id ∈ hooked e -> answered op.
Proof.
  intros Hok%engine_stays_sound. pose proof Hok as [Hl _ Hc]. split_and!.
  - destruct (co_taken _ Hc) as (b & E & Hs). rewrite (co_accepted _ Hc), E, <-app_assoc. by apply sublist_inserts_r.
  - apply Hl.
  - intros. by eapply hooked_answered.
Qed.

(** C12: children are ended in order and left behind by nobody.  A child the engine owns was asked to
    end at most once and made to end at most once, in this order, and made to without being asked
    only when it is at fault; when it is over it has an outcome, no assertion fails, and a reply is
    what an unsignalled, collected process wrote and how it exited.  Of a child that is erased the
    status was collected or is known to be lost, and every descriptor it owned is closed. *)
Theorem engine_ends_children limit e :
  reachable fuel limit e ->
  (forall o, o ∈ children e -> escalation (signals (kern o)) /\ (signals (kern o) = [SIGKILL] -> at_fault o) /\
     (is_over o = true -> exists a, outcome_of o = Some a /\ says_not_started a = false /\ reply_ok o (kern o) a)) /\
  (forall id ds g, (id, Some (ds, g)) ∈ finished e -> gone g /\ opened g = ds /\ escalation (signals g)).
Proof.
  intros [_ [Hl _ _ _ Hf _ _] _]%engine_stays_sound. rewrite Forall_forall in Hl. rewrite Forall_forall in Hf. split.
  - intros o Ho. specialize (Hl o Ho). split_and!; [by eapply escalation_ok| |by eapply outcome_told].
    destruct (lo_signals _ _ Hl) as (asked & E & H1 & H2 & H3). intros Hk. rewrite E in Hk.
    destruct asked; [by destruct (killed o)|]. destruct (killed o); [|done]. destruct H3 as [?|Ht]; [done..|]. by apply H2.
  - intros id ds g H. by destruct (Hf _ H) as (? & ? & ?).
Qed.

(** * Closing *)

(** [EngineShutdown]. *)
Record EngineShutdown := MkShutdown { operations_published : nat; children_reaped : nat; complete : bool }.

Definition terminal_shutdown (e : Engine) : EngineShutdown :=
  MkShutdown (published e) (reaped e) (published e =? reaped e)%nat.

Definition all_done (e : Engine) : bool :=
  match launcher e, reactor e with LReturned, RReturned => true | _, _ => false end.

Lemma all_done_true e : all_done e = true <-> launcher e = LReturned /\ reactor e = RReturned.
Proof. unfold all_done. destruct (launcher e), (reactor e); split; (done || by intros [? ?]). Qed.

Lemma quiet_ends e e' : quiet e e' -> all_done e' = all_done e /\ terminal_shutdown e' = terminal_shutdown e.
Proof. intros [_ Hl Hx _ _ _ (H1 & H2) _ _]. unfold all_done, terminal_shutdown. by rewrite Hl, Hx, H1, H2. Qed.

Lemma admit_ends r now e e' : admit_request r now e = Some e' ->
  stop_requested e' = stop_requested e /\ all_done e' = all_done e /\ terminal_shutdown e' = terminal_shutdown e.
Proof.
  unfold admit_request. intros H. destruct (channel_failure e) as [f|].
  - apply bind_Some_inv in H as (p & _ & [= <-]). unfold fail. by destruct (failure (set_pool p e)).
  - destruct (pool_full _); [|by injection H as <-]. by apply bind_Some_inv in H as (p & _ & [= <-]).
Qed.

Lemma accept_ends k e e' : accept k e = Some e' ->
  stop_requested e' = stop_requested e /\ all_done e' = all_done e /\ terminal_shutdown e' = terminal_shutdown e.
Proof.
  unfold accept. intros (w & _ & H)%bind_Some_inv. destruct (_ && _).
  - by apply bind_Some_inv in H as (e1 & (p & ->)%turn_framed & [= <-]).
  - apply bind_Some_inv in H as (e1 & (p & ->)%turn_framed & H).
    by apply bind_Some_inv in H as (e2 & (p' & ->)%turn_framed & [= <-]).
Qed.

(** A stop stays, and an engine whose threads have returned changes nothing that is reported. *)
Lemma launcher_stop a e e' : launcher_step a e = Some e' -> stop_requested e' = stop_requested e.
Proof.
  unfold launcher_step, take_request, launch_gate. intros H. repeat case_match; try done;
    repeat match goal with
    | H : _ ≫= _ = Some _ |- _ => apply bind_Some_inv in H as (? & ? & H)
    | H : section _ _ _ = Some _ |- _ => apply turn_framed in H as (? & ->)
    end; simplify_eq; try done; by (rewrite ?(qu_stop _ _ (note_quiet _ _)), ?(qu_stop _ _ (check_quiet _)); cbn;
      rewrite ?(qu_stop _ _ (note_quiet _ _)), ?(qu_stop _ _ (check_quiet _))).
Qed.

Lemma erase_stop i a e e' : erase_step i a e = Some e' -> stop_requested e' = stop_requested e.
Proof.
  unfold erase_step. intros H. repeat case_match; try done;
    repeat match goal with
    | H : _ ≫= _ = Some _ |- _ => apply bind_Some_inv in H as (? & ? & H)
    | H : section _ _ _ = Some _ |- _ => apply turn_framed in H as (? & ->)
    end; by simplify_eq.
Qed.

Lemma reactor_stop a e e' : reactor_step fuel a e = Some e' -> stop_requested e' = stop_requested e.
Proof.
  unfold reactor_step. intros H. destruct (reactor e); [..|by eapply erase_stop|done]; destruct a; try done.
  - injection H as <-. apply (qu_stop _ _ (check_quiet e)).
  - injection H as <-. unfold take_arrivals. by case_match.
  - injection H as <-. apply (qu_stop _ _ (channel_fail_quiet _ e)).
  - injection H as <-. apply (qu_stop _ _ (note_quiet _ e)).
  - injection H as <-. apply (qu_stop _ _ (check_quiet e)).
  - by injection H as <-.
  - case_match; [|done]. by apply bind_Some_inv in H as (? & _ & [= <-]).
  - case_match; [done|]. by injection H as <-.
Qed.

Lemma step_keeps_stop a e e' : step fuel a e = Some e' -> stop_requested e = true -> stop_requested e' = true.
Proof.
  intros H Hs. destruct a; cbn [step] in H.
  - destruct (admit_ends _ _ _ _ H) as (-> & _). done.
  - destruct (accept_ends _ _ _ H) as (-> & _). done.
  - destruct (handed_over id e); [|done]. by apply turn_framed in H as (p & ->).
  - by apply bind_Some_inv in H as (p & _ & [= <-]).
  - injection H as <-. by rewrite (qu_stop _ _ (note_quiet _ e)).
  - by injection H as <-.
  - by rewrite (launcher_stop _ _ _ H).
  - by rewrite (reactor_stop _ _ _ H).
Qed.

Lemma step_when_done a e e' : step fuel a e = Some e' -> all_done e = true ->
  all_done e' = true /\ terminal_shutdown e' = terminal_shutdown e.
Proof.
  intros H Hd. pose proof Hd as [El Er]%all_done_true. destruct a; cbn [step] in H.
  - destruct (admit_ends _ _ _ _ H) as (_ & -> & ->). done.
  - destruct (accept_ends _ _ _ H) as (_ & -> & ->). done.
  - destruct (handed_over id e); [|done]. by apply turn_framed in H as (p & ->).
  - by apply bind_Some_inv in H as (p & _ & [= <-]).
  - injection H as <-. destruct (quiet_ends _ _ (note_quiet (wake_outcome answers) e)) as [-> ->]. done.
  - by injection H as <-.
  - unfold launcher_step in H. by rewrite El in H.
  - unfold reactor_step in H. by rewrite Er in H.
Qed.

#[export] Instance process_engine_stoppable : Stoppable Engine (action (W := W)) EngineShutdown := {|
  stop := set_stop;
  is_stopped := stop_requested;
  Closing.all_done := all_done;
  summary := terminal_shutdown;
  engine_step := step fuel;
  stop_stops := fun e => eq_refl;
  stop_done := fun e H => H;
  stop_summary := fun e H => eq_refl;
  step_stopped := step_keeps_stop;
  step_done := fun a e e' H _ Hd => step_when_done a e e' H Hd;
|}.

(** Nothing is left of an engine whose threads have returned. *)
Lemma done_places limit e : engine_ok limit e -> all_done e = true ->
  pending e = [] /\ children e = [] /\
  places e = ((fun w => (operation w, waiting_place queued)) <$> submitting e) ++ (over_place <$> finished e).
Proof.
  intros [_ _ Hc] [El Er]%all_done_true. destruct (co_done _ Hc Er) as (_ & Hp & _ & Ha & Hl).
  unfold children, places. rewrite El, Hp, Ha, Hl. done.
Qed.

Lemma filter_keys {X} (f : nat * X -> bool) (l : list (nat * X)) : NoDup l.*1 -> NoDup (List.filter f l).*1.
Proof.
  induction l as [|x l IH]; cbn; [done|]. intros [Hn Hnd]%NoDup_cons. specialize (IH Hnd). destruct (f x); [|done].
  cbn. apply NoDup_cons. split; [|done]. intros (y & E & Hy)%list_elem_of_fmap. apply Hn. rewrite E. apply list_elem_of_fmap_2.
  apply list_elem_of_In, filter_In in Hy as [Hy _]. by apply list_elem_of_In.
Qed.

Lemma spawned_finished limit e : engine_ok limit e -> all_done e = true ->
  spawned e ≡ₚ (List.filter had_child (finished e)).*1.
Proof.
  intros Hok Hd. pose proof Hok as [[Hi _ He Hs _ [Hlog _]] _ _]. destruct (done_places limit e Hok Hd) as (_ & _ & Hpl).
  rewrite Hpl in Hi, He. rewrite fmap_app in Hi. rewrite Forall_forall in He.
  assert (NoDup ((over_place <$> finished e).*1)) as Hnd.
  { assert (NoDup (((fun w => (operation w, waiting_place queued)) <$> submitting e).*1 ++ (over_place <$> finished e).*1)) as H
      by (rewrite Hi; apply NoDup_seq). by apply NoDup_app in H as (_ & _ & H). }
  assert ((over_place <$> finished e).*1 = (finished e).*1) as Eids by (rewrite <-list_fmap_compose; by apply list_fmap_ext).
  apply NoDup_Permutation; [done| |].
  - apply filter_keys. by rewrite <-Eids.
  - intros id. split.
    + intros Hid. rewrite Forall_forall in Hlog. pose proof (Hlog _ Hid) as Hlt.
      assert (id ∈ seq 0 (length (pool_operations (pool e)))) as Hin by (apply elem_of_seq; lia). rewrite <-Hi in Hin.
      rewrite <-fmap_app in Hin. apply list_elem_of_fmap in Hin as ([id' x] & -> & Hx). destruct (He _ Hx) as (_ & Hb & _). cbn in *.
      apply Hb in Hid. apply elem_of_app in Hx as [(w & [= -> ->] & _)%list_elem_of_fmap|(y & [= -> ->] & Hy)%list_elem_of_fmap]; [done|].
      cbn in Hid. apply list_elem_of_fmap_2, list_elem_of_In, filter_In. split; [by apply list_elem_of_In|done].
    + intros ([id' x] & -> & Hy)%list_elem_of_fmap. apply list_elem_of_In, filter_In in Hy as [Hy Hc].
      apply list_elem_of_In in Hy. destruct (He (over_place (id', x))) as (_ & Hb & _).
      { apply elem_of_app. right. by apply list_elem_of_fmap_2. }
      cbn in Hb. apply Hb. done.
Qed.

Lemma filter_le {X} (f h : X -> bool) l : (forall x, x ∈ l -> f x = true -> h x = true) ->
  length (List.filter f l) <= length (List.filter h l) /\
  (length (List.filter f l) = length (List.filter h l) <-> forall x, x ∈ l -> h x = true -> f x = true).
Proof.
  induction l as [|x l IH]; intros H; cbn; [split; [done|]; split; [by intros _ ? ?%elem_of_nil|done]|].
  destruct IH as [IH1 IH2]; [intros y Hy; apply H; by right|].
  assert (forall P, (forall y, y ∈ x :: l -> P y) <-> (P x /\ forall y, y ∈ l -> P y)) as Hcons.
  { intros P. split; [intros HP; split; [by apply HP; left|intros y Hy; apply HP; by right]|].
    intros [? ?] y [->|?]%elem_of_cons; auto. }
  rewrite (Hcons (fun y => h y = true -> f y = true)). pose proof (H x ltac:(by left)) as Hx.
  destruct (f x) eqn:Ef; [rewrite Hx by done|destruct (h x) eqn:Eh]; cbn.
  - split; [lia|]. rewrite <-IH2. split; [intros; split; [done|lia]|intros [_ ?]; lia].
  - split; [lia|]. split; [lia|]. intros [E _]. by specialize (E eq_refl).
  - split; [done|]. rewrite IH2. split; [by split|by intros [_ ?]].
Qed.

(** What the engine still has is nothing, and the report says so. *)
Record closed_ok (e : Engine) (report : EngineShutdown) : Prop := {
  cl_nothing : pending e = [] /\ children e = [];
  cl_answered : forall id op, pool_operations (pool e) !! id = Some op -> handed_over id e = true -> answered op /\ id ∈ hooked e;
  cl_published : operations_published report = length (spawned e);
  cl_children : forall id ds g, (id, Some (ds, g)) ∈ finished e -> gone g /\ opened g = ds;
  cl_complete : complete report = true <->
    forall id ds g, (id, Some (ds, g)) ∈ finished e -> exists p w, fate g = Collected p w;
}.

Lemma done_closed limit e : engine_ok limit e -> all_done e = true -> closed_ok e (terminal_shutdown e).
Proof.
  intros Hok Hd. destruct (done_places limit e Hok Hd) as (Hp & Hc & Hpl). pose proof Hok as [Hl [_ _ _ _ Hf Hpub Hreap] _].
  rewrite Forall_forall in Hf. split.
  - done.
  - intros id op Hid Hh. assert (id ∈ hooked e) as Hin; [|split; [by eapply hooked_answered|done]].
    destruct (place_of limit e id op Hok Hid) as (x & Hx & (_ & _ & Hcalled) & _). cbn in Hcalled. apply Hcalled.
    rewrite Hpl in Hx. apply elem_of_app in Hx as [(w & [= -> ->] & Hw)%list_elem_of_fmap|(y & [= -> ->] & _)%list_elem_of_fmap]; [|done].
    exfalso. unfold handed_over in Hh. apply negb_true_iff in Hh. apply not_true_iff_false in Hh. apply Hh.
    apply existsb_exists. exists w. split; [by apply list_elem_of_In|]. by apply Nat.eqb_eq.
  - cbn. by rewrite Hpub, (spawned_finished limit e Hok Hd), length_fmap.
  - intros id ds g H. by destruct (Hf _ H) as (? & ? & _).
  - cbn. rewrite Hpub, Hreap, Nat.eqb_eq. destruct (filter_le is_collected had_child (finished e)) as [_ H].
    { intros [id [[ds g]|]] _; done. }
    rewrite (Nat.eq_sym_iff (length (List.filter had_child _))), H. split.
    + intros Hall id ds g Hin. specialize (Hall _ Hin eq_refl). unfold is_collected in Hall. cbn in Hall.
      destruct (fate g); try done. by eexists _, _.
    + intros Hall [id [[ds g]|]] Hin Hch; [|done]. destruct (Hall _ _ _ Hin) as (p & w & E). unfold is_collected. cbn. by rewrite E.
Qed.

(** C2: [close] returns when nothing is left, and reports the truth.  Whoever is back from [close],
    however many callers closed the engine and however their steps interleave with those of the
    engine: no request waits and no child is owned; every operation a caller was given is answered
    and its hook was called; the report counts the processes that were created, each of which is
    no more and has closed its descriptors; and it says [complete] exactly when the status of every
    one was collected.  At most one caller joins the threads. *)
Theorem process_close_reports limit m e acts (c : Closing Engine EngineShutdown) report :
  reachable fuel limit e -> close_run acts (begin_closing e m) = Some c ->
  joiners (closers c) <= 1 /\ (Closed report ∈ closers c -> closed_ok (closing_engine c) report).
Proof.
  intros He Hrun. pose proof (close_run_ok _ _ _ (begin_closing_ok e m) Hrun) as Hok. split; [by apply one_joiner|].
  intros H. destruct (closed_done c report Hok H) as [Hall Hsum]. cbn in Hall, Hsum. rewrite <-Hsum.
  apply (done_closed limit); [|done].
  eapply (close_run_engine (engine_ok limit)); [| | |exact Hrun].
  - intros x Hx. by apply stop_keeps.
  - intros a x x' Hx Hs. eapply step_keeps; [exact Hx|exact Hs].
  - cbn. by eapply engine_stays_sound.
Qed.

(** * Coming to rest *)

(** Steps a stopping engine's launcher has left at most. *)
Definition launcher_left (e : Engine) : nat :=
  12 * length (pending e) +
  match launcher e with
  | LReturned => 0 | LTop => 1 | LChecking => 2 | LWaking => 3 | LFinished => 4 | LArriving _ | LHooking _ => 5
  | LStarted _ | LRetiring _ => 6 | LRefusing _ _ => 7 | LReady _ => 8 | LHolding _ _ _ => 9
  end.

(** What a child costs the reactor: before a turn's look at it, after it, and once it is
    passed over in the erasure. *)
Definition awaiting (o : EngineLive) : nat := 20 * patience o (kern o) + 30.
Definition looked (o : EngineLive) : nat :=
  if is_over o then match stage o with Watching => 29 | Published => 28 | Retired => 27 | Hooked => 26 end
  else 20 * patience o (kern o) + 49.
Definition passed (o : EngineLive) : nat := awaiting o + 18.
Definition cost (f : EngineLive -> nat) (l : list EngineLive) : nat := sum_list_with f l.

(** Steps its reactor has left at most, once the launcher has returned. *)
Definition reactor_left (e : Engine) : nat :=
  match reactor e with
  | RReturned => 0
  | RTop => (if bool_decide (live e = []) then 3 else 18) + cost awaiting (live e)
  | RTaking => (if bool_decide (live e = []) then 2 else 17) + cost awaiting (live e)
  | RPolling _ => 16 + cost awaiting (live e)
  | RChecking _ => 15 + cost awaiting (live e)
  | RReading _ => 14 + cost awaiting (live e)
  | RTending _ _ i => 13 + cost looked (take i (live e)) + cost awaiting (drop i (live e))
  | RErasing i => 12 + cost passed (take i (live e)) + cost looked (drop i (live e))
  end + match reactor e with RReturned => 0 | _ => cost passed (arrived e) end.

(** The reactor has seen the stop: what it does with a child it does to end it. *)
Definition attentive (e : Engine) : Prop :=
  match reactor e with
  | RPolling s | RChecking s | RReading s | RTending s _ _ => s = true
  | _ => True
  end.

#[local] Arguments cost : simpl never.

Lemma cost_nil f : cost f [] = 0.
Proof. done. Qed.
Lemma cost_cons f o l : cost f (o :: l) = f o + cost f l.
Proof. done. Qed.
Lemma cost_app f l1 l2 : cost f (l1 ++ l2) = cost f l1 + cost f l2.
Proof. apply sum_list_with_app. Qed.

(** ** The launcher *)

Lemma decide_left w stopping f withdrawn now e n :
  launcher_left (set_launcher (decide_launch w stopping f withdrawn now) n e) <= 12 * length (pending e) + 8.
Proof.
  pose proof (decide_unlaunched w stopping f withdrawn now) as H. unfold launcher_left. cbn.
  destruct (decide_launch _ _ _ _ _); try done; lia.
Qed.

Lemma launcher_lowers a e e' :
  launcher_step a e = Some e' -> launcher_left e' < launcher_left e.
Proof.
  intros H. unfold launcher_step in H. unfold launcher_left at 2.
  destruct (launcher e) as [ |w stopping f|w|w f|w|w|o|o| | | |] eqn:El; destruct a; try done.
  - unfold take_request in H. destruct (pending e) as [|w rest] eqn:Ep; [destruct (_ || _); [|done]|]; injection H as <-;
      unfold launcher_left; cbn; rewrite ?Ep; cbn; lia.
  - apply bind_Some_inv in H as (op & _ & [= <-]).
    pose proof (decide_left w stopping f (cancel_requested op.2) now e (launching e)). lia.
  - unfold launch_gate in H. destruct (channel_failure e) as [f|]; [injection H as <-; unfold launcher_left; cbn; lia|].
    destruct (Posix.run _ _ _) as [[[ch|err]| | |] g]; try done; injection H as <-; unfold launcher_left; cbn; lia.
  - apply bind_Some_inv in H as (e1 & (p & ->)%turn_framed & [= <-]). unfold launcher_left; cbn; lia.
  - apply bind_Some_inv in H as (e1 & (p & ->)%turn_framed & [= <-]). unfold launcher_left; cbn; lia.
  - injection H as <-. unfold launcher_left; cbn; lia.
  - apply bind_Some_inv in H as (e1 & (p & ->)%turn_framed & [= <-]). unfold launcher_left; cbn; lia.
  - injection H as <-. unfold launcher_left; cbn; lia.
  - injection H as <-. unfold launcher_left; cbn; lia.
  - injection H as <-. destruct (note_quiet (wake_outcome answers) e) as [_ _ _ _ (Hp & _) _ _ _ _].
    unfold launcher_left. cbn. rewrite Hp. lia.
  - injection H as <-. destruct (check_quiet e) as [_ _ _ _ (Hp & _) _ _ _ _]. unfold launcher_left. cbn. rewrite Hp. lia.
Qed.

(** What only the reactor's steps change, and the launcher's. *)
Definition same_reactor (e e' : Engine) : Prop := reactor e' = reactor e /\ live e' = live e /\ arrived e' = arrived e.
Definition same_launcher (e e' : Engine) : Prop := launcher e' = launcher e /\ pending e' = pending e.

Lemma quiet_same e e' : quiet e e' -> same_reactor e e' /\ same_launcher e e'.
Proof. intros [_ Hl Hx _ (Q1 & Q2 & Q3 & _) _ _ _ _]. done. Qed.

Lemma others_same a e e' :
  step fuel a e = Some e' -> stop_requested e = true ->
  match a with Launcher_ _ | Reactor_ _ => True | _ => same_reactor e e' /\ same_launcher e e' end.
Proof.
  intros H Hs. destruct a; cbn [step] in H; try done.
  - unfold admit_request in H. destruct (channel_failure e) as [f|]; [|destruct (pool_full _)].
    + apply bind_Some_inv in H as (p & _ & [= <-]). unfold fail. by case_match.
    + by apply bind_Some_inv in H as (p & _ & [= <-]).
    + by injection H as <-.
  - unfold accept in H. apply bind_Some_inv in H as (w & _ & H). rewrite Hs in H. cbn [negb andb] in H.
    apply bind_Some_inv in H as (e1 & (p & ->)%turn_framed & H).
    by apply bind_Some_inv in H as (e2 & (p' & ->)%turn_framed & [= <-]).
  - destruct (handed_over id e); [|done]. by apply turn_framed in H as (p & ->).
  - by apply bind_Some_inv in H as (p & _ & [= <-]).
  - injection H as <-. apply quiet_same, note_quiet.
  - by injection H as <-.
Qed.

Lemma erase_launcher i a e e' : erase_step i a e = Some e' -> same_launcher e e'.
Proof.
  unfold erase_step. intros H. repeat case_match; try done;
    repeat match goal with
    | H : _ ≫= _ = Some _ |- _ => apply bind_Some_inv in H as (? & ? & H)
    | H : section _ _ _ = Some _ |- _ => apply turn_framed in H as (? & ->)
    end; by simplify_eq.
Qed.

Lemma reactor_launcher a e e' : reactor_step fuel a e = Some e' -> same_launcher e e'.
Proof.
  unfold reactor_step. intros H. destruct (reactor e); [..|by eapply erase_launcher|done]; destruct a; try done.
  - injection H as <-. apply (quiet_same _ _ (check_quiet e)).
  - injection H as <-. unfold take_arrivals. by case_match.
  - injection H as <-. apply (quiet_same _ _ (channel_fail_quiet _ e)).
  - injection H as <-. apply (quiet_same _ _ (note_quiet _ e)).
  - injection H as <-. apply (quiet_same _ _ (check_quiet e)).
  - by injection H as <-.
  - case_match; [|done]. by apply bind_Some_inv in H as (? & _ & [= <-]).
  - case_match; [done|]. by injection H as <-.
Qed.

(** ** The reactor *)

Lemma left_eq e e' : same_reactor e e' -> reactor_left e' = reactor_left e.
Proof. intros (Hx & Hl & Ha). unfold reactor_left. by rewrite Hx, Hl, Ha. Qed.

Lemma cost_pass l : l <> [] -> 18 + cost awaiting l <= cost passed l.
Proof.
  assert (forall l, cost passed l = cost awaiting l + 18 * length l) as H.
  { induction l0 as [|o l0 IH]; [done|]. rewrite !cost_cons, IH. cbn [length]. unfold passed. lia. }
  intros Hl. rewrite H. destruct l; [done|]. cbn [length]. lia.
Qed.

Lemma cost_at f i o l : l !! i = Some o -> cost f (drop i l) = f o + cost f (drop (S i) l).
Proof. intros H. by rewrite (drop_S _ _ _ H). Qed.

Lemma cost_take f i o l : l !! i = Some o -> cost f (take (S i) l) = cost f (take i l) + f o.
Proof. intros H. by rewrite (take_S_r _ _ _ H), cost_app, cost_cons, cost_nil, Nat.add_0_r. Qed.

Lemma looked_less o o' : (is_over o = true -> is_over o' = true) ->
  (is_over o = false -> is_over o' = true \/ patience o' (kern o') < patience o (kern o)) -> looked o' < awaiting o.
Proof.
  intros H1 H2. unfold looked, awaiting. destruct (is_over o') eqn:E'.
  - destruct (stage o'); lia.
  - destruct (is_over o) eqn:E; [by specialize (H1 eq_refl)|]. destruct (H2 eq_refl) as [|H]; [done|]. lia.
Qed.

Lemma tended_over o g o' g' : tended o g o' g' -> is_over o = true -> is_over o' = true.
Proof.
  intros (_ & _ & _ & _ & Hc & Hr & _) Ho. pose proof (over_ended o Ho) as Hn.
  rewrite not_running_over in Ho by done. rewrite not_running_over by auto. auto.
Qed.

(** A turn's look at one child, on a prompt system. *)
Lemma tend_lowers {prompt_os : PromptOS W} limit stopping f boundary world i o e :
  0 < fuel -> engine_ok limit e -> live e !! i = Some o ->
  exists o', tend_one fuel stopping f boundary world o e = Some o' /\ (stopping = true -> looked o' < awaiting o).
Proof.
  intros Hfuel Hok Hi. pose proof (live_at e i o (eo_tracked _ _ Hok) Hi) as Hl.
  assert (is_Some (pool_operations (pool e) !! live_operation o)) as [op Hop].
  { apply lookup_lt_is_Some. pose proof (child_at limit i o e (eo_listed _ _ Hok) Hi) as Hr.
    by apply roster_head in Hr as (_ & ? & _). }
  unfold tend_one. rewrite Hop. cbn [mbind option_bind].
  destruct (prog_run_ends (tend fuel stopping f (cancel_requested op.2) boundary o) world (kern o) _
    (wp_tend fuel true stopping f (cancel_requested op.2) boundary o (kern o) Hl ltac:(done))) as (o1 & E & Ht & Hp).
  destruct (Posix.run _ _ _) as [x g]. cbn in E, Ht, Hp. subst x. eexists. split; [done|]. intros ->.
  apply looked_less.
  - exact (tended_over _ _ _ _ Ht).
  - intros Ho. destruct (Hp eq_refl eq_refl Ho) as [|H]; [by left|by right].
Qed.

Lemma looked_stage s o : is_over o = true -> looked (set_stage s o) = match s with Watching => 29 | Published => 28 | Retired => 27 | Hooked => 26 end.
Proof. intros H. unfold looked. change (is_over (set_stage s o)) with (is_over o). by rewrite H. Qed.

Lemma erase_lowers limit i a e e' :
  engine_ok limit e -> reactor e = RErasing i -> erase_step i a e = Some e' -> reactor_left e' < reactor_left e.
Proof.
  intros Hok Hx H. pose proof Hok as [_ Ht _]. unfold reactor_left at 2. rewrite Hx. unfold erase_step in H.
  destruct (live e !! i) as [o|] eqn:Hi.
  2: { destruct a; try done. injection H as <-. unfold reactor_left. cbn. apply lookup_ge_None in Hi.
       rewrite take_ge, drop_ge, cost_nil by done. case_bool_decide as Hl; [rewrite Hl, !cost_nil; lia|].
      
       pose proof (cost_pass _ Hl). lia. }
  rewrite (cost_at looked i o) by done. assert (i < length (live e)) as Hlt by by eapply lookup_lt_Some.
  assert (forall s o' e1, reactor e1 = RErasing i -> live e1 = <[i := set_stage s o']> (live e) -> arrived e1 = arrived e ->
    reactor_left e1 = 12 + cost passed (take i (live e)) + (looked (set_stage s o') + cost looked (drop (S i) (live e))) +
      cost passed (arrived e)) as Hset.
  { intros s o' e1 E1 E2 E3. unfold reactor_left. rewrite E1, E2, E3, take_insert_ge, (cost_at looked i (set_stage s o')), drop_insert_lt by
      (done || lia || (by apply list_lookup_insert_eq)). done. }
  destruct (stage o) eqn:Es, a; try done.
  - destruct (is_over o) eqn:Ho; [done|]. injection H as <-. unfold reactor_left. cbn.
    rewrite (cost_take passed i o) by done. unfold looked at 2. rewrite Ho. unfold passed, awaiting in *. lia.
  - destruct (is_over o) eqn:Ho; [|done]. apply bind_Some_inv in H as (x & _ & H).
    apply bind_Some_inv in H as (e1 & (p & ->)%turn_framed & [= <-]). rewrite (Hset Published o) by done.
    rewrite looked_stage by done. unfold looked at 2. rewrite Ho, Es. lia.
  - apply bind_Some_inv in H as (e1 & (p & ->)%turn_framed & H).
    apply bind_Some_inv in H as (e2 & (p2 & ->)%turn_framed & [= <-]). rewrite (Hset Retired o) by done.
    pose proof (stage_over e i o Ht Hi ltac:(congruence)) as Ho.
    rewrite looked_stage by done. unfold looked at 2. rewrite Ho, Es. lia.
  - injection H as <-. rewrite (Hset Hooked o) by done. pose proof (stage_over e i o Ht Hi ltac:(congruence)) as Ho.
    rewrite looked_stage by done. unfold looked at 2. rewrite Ho, Es. lia.
  - apply bind_Some_inv in H as (g & _ & [= <-]). pose proof (stage_over e i o Ht Hi ltac:(congruence)) as Ho.
    unfold reactor_left. cbn. rewrite Hx. unfold looked at 2. rewrite Ho, Es.
    rewrite delete_take_drop, take_app_le, take_take, Nat.min_id, drop_app_le by (rewrite length_take; lia).
    rewrite (drop_ge (take i _)) by (rewrite length_take; lia). cbn [app]. lia.
Qed.

Lemma erase_attentive i a e e' : reactor e = RErasing i -> erase_step i a e = Some e' -> attentive e'.
Proof.
  intros Hx. unfold erase_step, attentive. intros H. repeat case_match; try done;
    repeat match goal with
    | H : _ ≫= _ = Some _ |- _ => apply bind_Some_inv in H as (? & ? & H)
    | H : section _ _ _ = Some _ |- _ => apply turn_framed in H as (? & ->)
    end; simplify_eq; cbn in *; congruence.
Qed.

(** A step of the reactor once the launcher has returned. *)
Lemma reactor_lowers {prompt_os : PromptOS W} limit a e e' :
  0 < fuel -> engine_ok limit e -> stop_requested e = true -> launcher e = LReturned -> attentive e ->
  reactor_step fuel a e = Some e' -> reactor_left e' < reactor_left e /\ attentive e'.
Proof.
  intros Hfuel Hok Hs Hl Hatt H. unfold reactor_step in H. unfold attentive in Hatt.
  assert (forall x f, quiet e (f e) -> reactor_left (set_reactor x (f e)) = reactor_left (set_reactor x e)) as Hq.
  { intros x f [_ _ _ _ (_ & Q1 & Q2 & _) _ _ _ _]. apply left_eq. by split_and!. }
  destruct (reactor e) as [| |s|s|s|s f i|i|] eqn:Hx;
    [..|split; [by eapply erase_lowers|]; by eapply erase_attentive|done]; destruct a; try done; unfold reactor_left at 2; rewrite Hx.
  - injection H as <-. split; [|done]. rewrite (Hq RTaking check_channel) by apply check_quiet. unfold reactor_left. cbn.
    case_bool_decide; lia.
  - injection H as <-. pose proof Hok as [_ _ Hc]. pose proof (co_launching _ Hc) as Hn. rewrite Hl in Hn. cbn in Hn.
    destruct (co_returned _ Hc Hl) as [_ Hp]. unfold take_arrivals. cbn [stop_requested set_children launching pending].
    rewrite Hs, Hp, Hn. cbn [orb andb]. rewrite (bool_decide_true (@nil EnginePending = [])), !andb_true_r by done.
    case_bool_decide as Hall; split; try done.
    + unfold reactor_left. cbn. case_bool_decide; lia.
    + unfold reactor_left. cbn. rewrite cost_app. case_bool_decide as He; [|].
      * rewrite He in *. pose proof (cost_pass (arrived e) Hall). rewrite !cost_nil. lia.
      * assert (cost awaiting (arrived e) <= cost passed (arrived e)); [|rewrite cost_nil; lia].
        destruct (arrived e) as [|o l] eqn:Ea; [done|]. pose proof (cost_pass (o :: l) ltac:(done)). lia.
  - injection H as <-. split; [|done]. rewrite (Hq (RChecking s) (channel_fail _)) by apply channel_fail_quiet. unfold reactor_left. cbn. lia.
  - injection H as <-. split; [|done]. rewrite (Hq (RChecking s) (note _)) by apply note_quiet. unfold reactor_left. cbn. lia.
  - injection H as <-. split; [|done]. rewrite (Hq (RReading s) check_channel) by apply check_quiet. unfold reactor_left. cbn. lia.
  - injection H as <-. split; [|done]. unfold reactor_left. cbn. rewrite take_0, drop_0, cost_nil. lia.
  - destruct (live e !! i) as [o|] eqn:Hi; [|done]. apply bind_Some_inv in H as (o' & Ho & [= <-]). subst s. split; [|done].
    destruct (tend_lowers limit true f boundary w i o e Hfuel Hok Hi) as (o2 & Ho2 & Hlt). specialize (Hlt eq_refl). rewrite Ho in Ho2. injection Ho2 as <-.
    assert (i < length (live e)) by by eapply lookup_lt_Some.
    unfold reactor_left. cbn. rewrite (cost_at awaiting i o (live e)) by done.
    rewrite (cost_take looked i o') by (by apply list_lookup_insert_eq). rewrite take_insert_ge, drop_insert_lt by lia. lia.
  - destruct (live e !! i) eqn:Hi; [done|]. injection H as <-. split; [|done]. apply lookup_ge_None in Hi.
    unfold reactor_left. cbn. rewrite take_0, drop_0, (take_ge (live e) i), (drop_ge (live e) i), !cost_nil by done. lia.
Qed.

(** ** Nobody is stuck *)

Lemma pool_lookup limit (p : Pool ProcessReply) started hooked id x l :
  roster_ok limit p started hooked ((id, x) :: l) -> is_Some (pool_operations p !! id).
Proof. intros Hr. apply lookup_lt_is_Some. by apply roster_head in Hr as (_ & ? & _). Qed.

Lemma launcher_can {prompt_os : PromptOS W} limit e (world : W) :
  engine_ok limit e -> stop_requested e = true -> launcher e <> LReturned -> exists a e', launcher_step (W := W) a e = Some e'.
Proof.
  intros [Hl Ht Hc] Hs Hn. pose proof (launcher_at limit e Hl) as Hr. pose proof (tr_refusal _ Ht) as Href. unfold launcher_step.
  destruct (launcher e) as [ |w stopping f|w|w f|w|w|o|o| | | |] eqn:El; cbn [launcher_places app] in Hr; try done.
  - exists Take. unfold take_request. destruct (pending e); [rewrite Hs; cbn|]; by eexists.
  - exists (Decide 0). destruct (pool_lookup _ _ _ _ _ _ _ Hr) as [op ->]. by eexists.
  - exists (Launch ∅ 0 world). unfold launch_gate. destruct (channel_failure e); [by eexists|].
    destruct (prog_run_ends (launch (request w) platform) world (kernel ∅ 0) _
      (wp_launch true (request w) platform (kernel ∅ 0) eq_refl eq_refl eq_refl)) as (x & E & _).
    destruct (Posix.run _ _ _) as [y g]. cbn in E. subst y. destruct x; by eexists.
  - exists PublishRefusal. destruct (section_moves _ (operation w) _ e (roster_publish limit (pool e) _ _ _ _ _ (Unexpected f) Hr
      ltac:(done) ltac:(done) ltac:(cbn; by rewrite Href))) as (p & Ep & _). rewrite Ep. by eexists.
  - exists RetireRefusal. destruct (section_moves _ (operation w) _ e (roster_retire limit (pool e) _ _ _ _ _ Hr ltac:(done) ltac:(done)))
      as (p & Ep & _). rewrite Ep. by eexists.
  - exists CallHook. by eexists.
  - exists Activate. destruct (section_moves _ (live_operation o) _ e (roster_advance limit (pool e) _ _ _ _ _ active Hr ltac:(done) ltac:(done)
      ltac:(cbn; lia))) as (p & Ep & _). rewrite Ep. by eexists.
  - exists Arrive. by eexists.
  - exists Finish. by eexists.
  - exists (WakeReactor []). by eexists.
  - exists CheckChannel. by eexists.
Qed.

Lemma erase_can {prompt_os : PromptOS W} limit i e (world : W) :
  engine_ok limit e -> reactor e = RErasing i -> exists a e', erase_step (W := W) i a e = Some e'.
Proof.
  intros Hok Hx. pose proof Hok as [Hl Ht Hc]. unfold erase_step. destruct (live e !! i) as [o|] eqn:Hi.
  2: { exists Pass. by eexists. }
  pose proof (child_at limit i o e Hl Hi) as Hr. unfold live_place in Hr. pose proof (live_at e i o Ht Hi) as Hlive.
  destruct (stage o) eqn:Es.
  - destruct (is_over o) eqn:Ho; [exists PublishOutcome|exists Pass; by eexists].
    destruct (outcome_told o (kern o) Hlive Ho) as (answer & -> & Hns & _). cbn [mbind option_bind].
    destruct (section_moves _ (live_operation o) _ e (roster_publish limit (pool e) _ _ _ _ _ answer Hr ltac:(done) ltac:(done) Hns))
      as (p & Ep & _). rewrite Ep. by eexists.
  - exists RetireChild.
    destruct (section_moves _ (live_operation o) _ e (roster_advance limit (pool e) _ _ _ _ _ retiring Hr ltac:(done) ltac:(done) ltac:(cbn; lia)))
      as (p & Ep & Hr1). rewrite Ep. cbn [mbind option_bind].
    destruct (section_moves _ (live_operation o) _ (set_pool p e) (roster_retire limit p _ _ _ _ _ Hr1 ltac:(done) ltac:(done)))
      as (p2 & Ep2 & _). rewrite Ep2. by eexists.
  - exists CallChildHook. by eexists.
  - exists (Count world). pose proof (over_ended o (stage_over e i o Ht Hi ltac:(congruence))) as Hn.
    pose proof Hlive as [(src & Hch) _ _ _ _]. unfold destroyed.
    destruct (prog_run_ends (destroy (child o)) world (kern o) _ (wp_destroy true _ _ _ _ Hch Hn)) as (x & E & _).
    destruct (Posix.run _ _ _) as [y g]. cbn in E. subst y. by eexists.
Qed.

Lemma reactor_can {prompt_os : PromptOS W} limit e (world : W) :
  0 < fuel -> engine_ok limit e -> reactor e <> RReturned -> exists a e', reactor_step (W := W) fuel a e = Some e'.
Proof.
  intros Hf Hok Hn. unfold reactor_step. destruct (reactor e) as [| |s|s|s|s f i|i|] eqn:Hx; try done.
  - exists Look. by eexists.
  - exists TakeArrivals. by eexists.
  - exists (PollDone []). by eexists.
  - exists LookAgain. by eexists.
  - exists ReadFailure. by eexists.
  - destruct (live e !! i) as [o|] eqn:Hi; [|exists Pass; by eexists]. exists (Tend 0 world).
    destruct (tend_lowers limit s f 0 world i o e Hf Hok Hi) as (o' & -> & _). by eexists.
  - by eapply erase_can.
Qed.

(** ** The theorem *)

Fixpoint steps (acts : list (action (W := W))) (e : Engine) : option Engine :=
  match acts with
  | [] => Some e
  | a :: rest => e ← step fuel a e; steps rest e
  end.

Definition by_launcher (a : action (W := W)) : bool := match a with Launcher_ _ => true | _ => false end.
Definition by_reactor (a : action (W := W)) : bool := match a with Reactor_ _ => true | _ => false end.

Lemma launcher_bound acts e e' :
  stop_requested e = true -> steps acts e = Some e' ->
  length (List.filter by_launcher acts) + launcher_left e' <= launcher_left e.
Proof.
  revert e. induction acts as [|a acts IH]; cbn [steps List.filter]; intros e Hs H; [injection H as <-; cbn; lia|].
  apply bind_Some_inv in H as (e1 & H1 & H). pose proof (step_keeps_stop _ _ _ H1 Hs) as Hs1. specialize (IH e1 Hs1 H).
  pose proof (others_same a e e1 H1 Hs) as Ho.
  assert (same_launcher e e1 -> launcher_left e1 = launcher_left e) as Hsame.
  { intros (El & Ep). unfold launcher_left. by rewrite El, Ep. }
  destruct a; cbn [by_launcher length step] in *; try (rewrite Hsame in IH by apply Ho; lia).
  - pose proof (launcher_lowers _ _ _ H1). lia.
  - rewrite Hsame in IH; [lia|]. by eapply reactor_launcher.
Qed.

Lemma reactor_bound {prompt_os : PromptOS W} limit acts e e' :
  0 < fuel -> engine_ok limit e -> stop_requested e = true -> launcher e = LReturned -> attentive e -> steps acts e = Some e' ->
  length (List.filter by_reactor acts) + reactor_left e' <= reactor_left e.
Proof.
  intros Hf. revert e. induction acts as [|a acts IH]; cbn [steps List.filter]; intros e Hok Hs Hl Ha H; [injection H as <-; cbn; lia|].
  apply bind_Some_inv in H as (e1 & H1 & H). pose proof (step_keeps_stop _ _ _ H1 Hs) as Hs1.
  pose proof (step_keeps limit a e e1 Hok H1) as Hok1. pose proof (others_same a e e1 H1 Hs) as Ho.
  assert (same_reactor e e1 -> reactor_left e1 = reactor_left e /\ attentive e1) as Hsame.
  { intros Hr. split; [by apply left_eq|]. unfold attentive. destruct Hr as (-> & _). done. }
  destruct a; cbn [by_reactor length step] in *;
    try (destruct Ho as [Hr [Ell _]]; destruct (Hsame Hr) as [<- Ha1]; apply IH; (done || congruence)).
  - unfold launcher_step in H1. by rewrite Hl in H1.
  - destruct (reactor_lowers limit a e e1 Hf Hok Hs Hl Ha H1) as [Hlt Ha1].
    destruct (reactor_launcher _ _ _ H1) as [Ell _]. specialize (IH e1 Hok1 Hs1 ltac:(congruence) Ha1 H). lia.
Qed.

(** Steps a reactor that has not seen the stop takes at most before it is about to look. *)
Definition unseen_left (e : Engine) : nat :=
  match reactor e with
  | RPolling false => length (live e) + 4
  | RChecking false => length (live e) + 3
  | RReading false => length (live e) + 2
  | RTending false _ i => S (length (live e) - i)
  | _ => 0
  end.

Lemma launcher_apart a e e' : launcher_step a e = Some e' -> reactor e' = reactor e /\ live e' = live e.
Proof.
  intros H. unfold launcher_step in H. destruct (launcher e); destruct a; try done.
  - unfold take_request in H. destruct (pending e); [destruct (_ || _); [|done]|]; by injection H as <-.
  - by apply bind_Some_inv in H as (op & _ & [= <-]).
  - unfold launch_gate in H. destruct (channel_failure e) as [f|]; [by injection H as <-|].
    destruct (Posix.run _ _ _) as [[[ch|err]| | |] g]; try done; by injection H as <-.
  - by apply bind_Some_inv in H as (e1 & (p & ->)%turn_framed & [= <-]).
  - by apply bind_Some_inv in H as (e1 & (p & ->)%turn_framed & [= <-]).
  - by injection H as <-.
  - by apply bind_Some_inv in H as (e1 & (p & ->)%turn_framed & [= <-]).
  - by injection H as <-.
  - by injection H as <-.
  - injection H as <-. destruct (note_quiet (wake_outcome answers) e) as [_ _ Hx _ (_ & _ & Hl & _) _ _ _ _]. by split.
  - injection H as <-. destruct (check_quiet e) as [_ _ Hx _ (_ & _ & Hl & _) _ _ _ _]. by split.
Qed.

(** Every step of a reactor that has not seen the stop brings it nearer to seeing it. *)
Lemma reactor_attends a e e' :
  reactor_step fuel a e = Some e' -> stop_requested e = true ->
  attentive e' \/ ~ attentive e /\ S (unseen_left e') <= unseen_left e.
Proof.
  intros H Hs. unfold reactor_step in H. unfold unseen_left at 2, attentive at 2.
  assert (forall x f, quiet e (f e) -> live (set_reactor x (f e)) = live e) as Hq.
  { intros x f [_ _ _ _ (_ & _ & Q & _) _ _ _ _]. done. }
  destruct (reactor e) as [| |[]|[]|[]|[] f i|i|] eqn:Hx; destruct a; try done;
    try (left; injection H as <-; done); try (left; by eapply erase_attentive).
  - left. injection H as <-. unfold take_arrivals. case_match; [done|]. exact Hs.
  - right. split; [done|]. injection H as <-. unfold unseen_left. cbn [reactor set_reactor].
    rewrite (Hq (RChecking false) (channel_fail _)) by apply channel_fail_quiet. lia.
  - right. split; [done|]. injection H as <-. unfold unseen_left. cbn [reactor set_reactor].
    rewrite (Hq (RChecking false) (note _)) by apply note_quiet. lia.
  - right. split; [done|]. injection H as <-. unfold unseen_left. cbn [reactor set_reactor].
    rewrite (Hq (RReading false) check_channel) by apply check_quiet. lia.
  - right. split; [done|]. injection H as <-. unfold unseen_left. cbn. lia.
  - left. destruct (live e !! i) as [o|]; [|done]. by apply bind_Some_inv in H as (o' & _ & [= <-]).
  - left. destruct (live e !! i); [done|]. by injection H as <-.
  - right. split; [done|]. destruct (live e !! i) as [o|] eqn:Hi; [|done].
    apply bind_Some_inv in H as (o' & _ & [= <-]). apply lookup_lt_Some in Hi.
    unfold unseen_left. cbn. rewrite length_insert. lia.
  - left. destruct (live e !! i); [done|]. by injection H as <-.
Qed.

Lemma attention_bound acts e e' :
  stop_requested e = true -> steps acts e = Some e' ->
  (attentive e -> attentive e') /\
  (attentive e' \/ length (List.filter by_reactor acts) + unseen_left e' <= unseen_left e).
Proof.
  revert e. induction acts as [|a acts IH]; cbn [steps List.filter]; intros e Hs H; [injection H as <-; split; [done|right; cbn; lia]|].
  apply bind_Some_inv in H as (e1 & H1 & H). destruct (IH e1 (step_keeps_stop _ _ _ H1 Hs) H) as [Hkeep Hle].
  assert (reactor e1 = reactor e /\ live e1 = live e -> (attentive e -> attentive e') /\
    (attentive e' \/ length (List.filter by_reactor acts) + unseen_left e' <= unseen_left e)) as Hsame.
  { intros [E1 E2]. unfold attentive in Hkeep at 1. unfold unseen_left in Hle at 2. rewrite E1, ?E2 in *. by split. }
  pose proof (others_same a e e1 H1 Hs) as Ho.
  destruct a; cbn [by_reactor length step] in *; try (apply Hsame; by destruct Ho as [(? & ? & _) _]).
  - apply Hsame. by eapply launcher_apart.
  - destruct (reactor_attends _ _ _ H1 Hs) as [Ha|[Hn Hlt]]; [by split; [intros _; auto|left; auto]|].
    split; [done|]. destruct Hle as [|Hle]; [by left|right]. lia.
Qed.

(** C26: a stopping engine comes to rest.  Once a stop was requested, and on a system that keeps nobody
    waiting: the launcher takes at most [launcher_left] steps, twelve for each queued request and
    nine for the one it holds; the reactor takes at most [unseen_left] steps, one for each of its
    children and four, before it has seen the stop, and it never forgets it; once it has seen it and
    the launcher has returned, the reactor takes at most [reactor_left] steps, which counts the
    nanoseconds its children's graces have left; callers, handles and hooks go on meanwhile.  And
    neither is ever stuck: as long as it has not returned it has a step, so both return and [close]
    does. *)
Theorem process_engine_rests {prompt_os : PromptOS W} limit e acts e' (world : W) :
  0 < fuel -> reachable fuel limit e -> stop_requested e = true -> steps acts e = Some e' ->
  length (List.filter by_launcher acts) + launcher_left e' <= launcher_left e /\
  (attentive e -> attentive e') /\
  (attentive e' \/ length (List.filter by_reactor acts) + unseen_left e' <= unseen_left e) /\
  (launcher e = LReturned -> attentive e -> length (List.filter by_reactor acts) + reactor_left e' <= reactor_left e) /\
  (launcher e' <> LReturned -> exists a e2, launcher_step (W := W) a e' = Some e2) /\
  (reactor e' <> RReturned -> exists a e2, reactor_step (W := W) fuel a e' = Some e2).
Proof.
  intros Hf Hok%engine_stays_sound Hs H. assert (engine_ok limit e' /\ stop_requested e' = true) as [Hok' Hs'].
  { revert e Hok Hs H. induction acts as [|a acts IH]; cbn [steps]; intros e Hok Hs H; [by injection H as <-|].
    apply bind_Some_inv in H as (e1 & H1 & H). eapply IH; [by eapply step_keeps|by eapply step_keeps_stop|done]. }
  split_and!.
  - by apply launcher_bound.
  - by eapply attention_bound.
  - by eapply attention_bound.
  - intros Hl Ha. by eapply reactor_bound.
  - by eapply launcher_can.
  - intros. by eapply reactor_can.
Qed.

(** * How long the reactor sleeps *)

Lemma earlier_le d t : (earlier d t <= t)%Z /\ (forall x, d = Some x -> earlier d t <= x)%Z.
Proof. destruct d; cbn; split; try lia; intros ? [= <-]; lia. Qed.

Definition child_boundary (t : Z) (o : EngineLive) : Z :=
  earlier (terminate_deadline o) (earlier (exit_drain_deadline o) (earlier (live_deadline o) t)).

Lemma child_boundary_le t o : (child_boundary t o <= t)%Z /\
  forall d, terminate_deadline o = Some d \/ exit_drain_deadline o = Some d \/ live_deadline o = Some d -> (child_boundary t o <= d)%Z.
Proof.
  unfold child_boundary. destruct (earlier_le (live_deadline o) t) as [A1 A2]. set (x := earlier (live_deadline o) t) in *.
  destruct (earlier_le (exit_drain_deadline o) x) as [B1 B2]. set (y := earlier (exit_drain_deadline o) x) in *.
  destruct (earlier_le (terminate_deadline o) y) as [C1 C2]. split; [lia|].
  intros d [H|[H|H]]; [by apply C2|specialize (B2 _ H)|specialize (A2 _ H)]; lia.
Qed.

Lemma children_boundary l t : (fold_left child_boundary l t <= t)%Z /\
  forall o d, o ∈ l -> terminate_deadline o = Some d \/ exit_drain_deadline o = Some d \/ live_deadline o = Some d ->
    (fold_left child_boundary l t <= d)%Z.
Proof.
  revert t. induction l as [|x l IH]; cbn; intros t; [split; [done|]; by intros ? ? ?%elem_of_nil|].
  destruct (IH (child_boundary t x)) as [H1 H2], (child_boundary_le t x) as [K1 K2]. split; [lia|].
  intros o d [->|Ho]%elem_of_cons Hd; [specialize (K2 d Hd); lia|by eapply H2].
Qed.

(** the reactor sleeps through nothing.  What it waits for ends no later than any deadline of
    any of its children, at once when the engine stops or failed, within the short turn when a
    child's exit is not among the descriptors it watches or a child is being ended, and the
    milliseconds it asks [poll] for are the rest rounded up, a second at most; every open stream
    of a child, and the descriptor that tells of its exit, is among those it watches. *)
Theorem reactor_sleeps_through_nothing now later stopping f l wake_descriptor o :
  (now <= later)%Z -> o ∈ l ->
  let b := poll_boundary now later stopping f l in
  (stopping = true \/ is_Some f -> b = later) /\
  (stopping = false -> f = None ->
     (forall d, terminate_deadline o = Some d \/ exit_drain_deadline o = Some d \/ live_deadline o = Some d -> b <= d)%Z /\
     (exit_fd (child o) < 0 /\ status (child o) = running \/ is_Some (fault o) \/ is_Some (terminate_deadline o) ->
        b <= now + poll_quantum)%Z /\ (b <= now + idle_quantum)%Z) /\
  (0 <= poll_timeout b later <= 1000)%Z /\
  (poll_timeout b later < 1000 -> b <= later + poll_timeout b later * 1000000 < Z.max b later + 1000000)%Z /\
  (forall d, (0 <= d)%Z -> d = stdout_fd (child o) \/ d = stderr_fd (child o) \/ d = exit_fd (child o) ->
     d ∈ watched wake_descriptor l).
Proof.
  intros Hle Ho b. split_and!.
  - intros H. unfold b, poll_boundary. assert (stopping || bool_decide (is_Some f) = true) as ->; [|done].
    apply orb_true_iff. destruct H; [by left|right; by apply bool_decide_eq_true].
  - intros -> ->. unfold b, poll_boundary. cbn [orb]. rewrite bool_decide_false by (by intros [? ?]).
    set (t := (now + _)%Z). destruct (children_boundary l t) as [H1 H2]. unfold child_boundary in H1, H2. split_and!.
    + intros d Hd. by eapply H2.
    + intros Ha. etrans; [exact H1|]. unfold t. assert (asks_after_exit l = true) as ->; [|done].
      apply existsb_exists. exists o. split; [by apply list_elem_of_In|]. rewrite !orb_true_iff, andb_true_iff, Z.ltb_lt, is_running_true, !bool_decide_eq_true.
      tauto.
    + etrans; [exact H1|]. unfold t, idle_quantum, poll_quantum. destruct (asks_after_exit l); lia.
  - clearbody b. unfold poll_timeout, ceil_ms. destruct (Z.leb_spec b later); [lia|]. 
    pose proof (Z.div_mod (- (b - later)) 1000000 ltac:(done)). pose proof (Z.mod_pos_bound (- (b - later)) 1000000 ltac:(done)). lia.
  - unfold poll_timeout. destruct (Z.leb_spec b later); lia.
  - clearbody b. unfold poll_timeout, ceil_ms. destruct (Z.leb_spec b later); [lia|]. intros H1. rewrite Z.min_l in * by lia.
    pose proof (Z.div_mod (- (b - later)) 1000000 ltac:(done)). pose proof (Z.mod_pos_bound (- (b - later)) 1000000 ltac:(done)). lia.
  - intros d Hd Hor. unfold watched. right. apply list_elem_of_bind. exists o. split; [|done].
    rewrite elem_of_app, list_elem_of_In, filter_In. destruct Hor as [->|[->| ->]].
    + left. split; [by left|by apply Z.leb_le].
    + left. split; [right; by left|by apply Z.leb_le].
    + right. rewrite (proj2 (Z.leb_le _ _) Hd). by left.
Qed.
End proofs.

(** * A run *)

(** One command, from its admission to the end of its child, on a system whose child exits
    with status 3, and then the end of the engine. *)
Definition a_turn (i : Z) (n : nat) : list (action (W := unit)) :=
  map Reactor_ ([Look; TakeArrivals; PollDone []; LookAgain; ReadFailure] ++ repeat (Tend i tt) n ++ [Pass]).

Definition launch_one : list (action (W := unit)) :=
  map Launcher_ [Take; Decide 0; Launch {[0; 1; 2]}%Z 0 tt; Activate; Arrive; Finish; WakeReactor []; CheckChannel].

Definition demo_busy : list (action (W := unit)) :=
  [Admit demo_request 0; Accept 0] ++ launch_one ++ a_turn 0 1 ++ [Reactor_ Pass; Reactor_ Pass] ++ a_turn 0 1.

Definition demo_end : list (action (W := unit)) :=
  map Reactor_ [PublishOutcome; RetireChild; CallChildHook; Count tt; Pass; Look; TakeArrivals] ++ [Launcher_ Take].

Definition demo_steps acts e := steps (messages := demo_messages) (os := demo_os (Some 3%Z)) 10 acts e.
Definition demo_after (acts : list (action (W := unit))) : Engine := default (start 1) (demo_steps acts (start 1)).


Lemma steps_reachable {messages : Messages} {W} {os : OS W} fuel limit acts e e' :
  reachable fuel limit e -> steps fuel acts e = Some e' -> reachable fuel limit e'.
Proof.
  revert e. induction acts as [|a acts IH]; cbn [steps]; intros e He H; [by injection H as <-|].
  apply bind_Some_inv in H as (e1 & H1 & H). eapply IH; [|done]. by eapply reachable_step.
Qed.

Lemma demo_reachable acts : bool_decide (is_Some (demo_steps acts (start 1))) = true ->
  reachable (messages := demo_messages) (os := demo_os (Some 3%Z)) 10 1 (demo_after acts).
Proof.
  intros [e He]%bool_decide_eq_true. unfold demo_after. rewrite He. cbn. eapply steps_reachable; [|exact He]. apply reachable_start.
Qed.

Lemma engine_truthful_witness :
  pool_in_flight (pool (demo_after demo_busy)) <= 1 /\ NoDup (spawned (demo_after demo_busy)).
Proof.
  destruct (engine_truthful (messages := demo_messages) (os := demo_os (Some 3%Z)) 10 1 (demo_after demo_busy)) as (_ & H1 & H2 & _).
  - apply demo_reachable. vm_compute. reflexivity.
  - by split.
Defined.

Lemma engine_in_order_witness : [0] `sublist_of` accepted (demo_after demo_busy).
Proof.
  destruct (engine_in_order (messages := demo_messages) (os := demo_os (Some 3%Z)) 10 1 (demo_after demo_busy)) as (H & _).
  - apply demo_reachable. vm_compute. reflexivity.
  - exact H.
Defined.

Lemma engine_ends_children_witness :
  Forall (fun x => match x.2 with Some (ds, g) => opened g = ds | None => False end)
    (finished (demo_after (demo_busy ++ [RequestStop] ++ demo_end))).
Proof.
  destruct (engine_ends_children (messages := demo_messages) (os := demo_os (Some 3%Z)) 10 1
    (demo_after (demo_busy ++ [RequestStop] ++ demo_end))) as (_ & H).
  - apply demo_reachable. vm_compute. reflexivity.
  - apply Forall_forall. intros [id [[ds g]|]] Hin; [by destruct (H id ds g Hin) as (_ & ? & _)|].
    vm_compute in Hin. apply list_elem_of_singleton in Hin. discriminate.
Defined.

(** Two callers close the engine while its child is at its end. *)
Definition demo_closing : Closing Engine EngineShutdown :=
  let engine := process_engine_stoppable (messages := demo_messages) (os := demo_os (Some 3%Z)) 10 in
  default (begin_closing (start 1) 2)
    (close_run (map EngineStep demo_busy ++ [CloseBegin 1; CloseBegin 0] ++ map EngineStep demo_end ++ [CloseJoin 1; CloseWake 0])
       (begin_closing (start 1) 2)).

Lemma process_close_reports_witness :
  closers demo_closing = [Closed (MkShutdown 1 1 true); Closed (MkShutdown 1 1 true)] /\
  closed_ok (closing_engine demo_closing) (MkShutdown 1 1 true).
Proof.
  split; [vm_compute; reflexivity|].
  apply (process_close_reports (messages := demo_messages) (os := demo_os (Some 3%Z)) 10 1 2 (start 1)
    (map EngineStep demo_busy ++ [CloseBegin 1; CloseBegin 0] ++ map EngineStep demo_end ++ [CloseJoin 1; CloseWake 0])).
  - apply reachable_start.
  - vm_compute. reflexivity.
  - vm_compute. left.
Defined.

(** A child that never ends by itself, in an engine that stops. *)
Definition stopping_run : list (action (W := unit)) :=
  [Admit demo_request 0; Accept 0] ++ launch_one ++ [RequestStop; Launcher_ Take].
Definition endless_steps acts e := steps (messages := demo_messages) (os := demo_os None) 10 acts e.
Definition endless_after (acts : list (action (W := unit))) : Engine := default (start 1) (endless_steps acts (start 1)).

Lemma process_engine_rests_witness :
  exists a e2, reactor_step (messages := demo_messages) (os := demo_os None) 10 a (endless_after (stopping_run ++ a_turn 0 1)) = Some e2.
Proof.
  destruct (process_engine_rests (messages := demo_messages) (os := demo_os None) (prompt_os := demo_prompt None) 10 1
    (endless_after stopping_run) (a_turn 0 1) (endless_after (stopping_run ++ a_turn 0 1)) tt) as (_ & _ & _ & _ & _ & H).
  - lia.
  - apply (steps_reachable (messages := demo_messages) (os := demo_os None) 10 1 stopping_run (start 1)); [apply reachable_start|].
    vm_compute. reflexivity.
  - vm_compute. reflexivity.
  - vm_compute. reflexivity.
  - apply H. vm_compute. discriminate.
Defined.

(** A child that has seven nanoseconds left. *)
Definition demo_child : EngineLive :=
  MkLive (MkChild 100 3 5 (-1) 10 [] empty_capture 0 running 0) (kernel ∅ 0) ∅ 0 (Some 7%Z) None None None
    false false false Watching.

Lemma reactor_sleeps_through_nothing_witness : (poll_boundary 0 0 false None [demo_child] <= 7)%Z.
Proof.
  destruct (reactor_sleeps_through_nothing 0 0 false None [demo_child] 9 demo_child) as (_ & H & _).
  - lia.
  - by left.
  - destruct H as [H _]; [done..|]. apply H. right. by right.
Defined.
