(* ===== verification/EngineTransport.v ===== *)
(** The process engine is a transport: a refinement of [Transport] by [ProcessEngine].

    [as_transport] forgets processes, queues and threads and keeps what a submitter can
    tell.  Every step of the engine is a sequence of the transport's actions, so whatever is
    shown of a client against Transport holds with the engine in its place. *)

From S2P Require Import Prelude Command Process Posix Child Wake CompletionQueue OperationState Operations Roster Closing Transport ProcessEngine EngineProofs.

Definition as_transport (e : Engine) : Transport :=
  MkTransport (pool_operations (pool e)).*2 (ProcessEngine.operation <$> submitting e) (hooked e) (stop_requested e)
    (if all_done e then Some (complete (terminal_shutdown e)) else None).

Section refinement.
Context {messages : Messages}.
Context {W : Type} {os : OS W}.
Variable fuel : nat.

(** [e'] is reached from [e] by actions of the transport. *)
Definition moves (e e' : Engine) : Prop := exists acts, transport_run acts (as_transport e) = Some (as_transport e').

Lemma moves_same e e' : as_transport e' = as_transport e -> moves e e'.
Proof. intros E. exists []. by rewrite E. Qed.

Lemma moves_trans e1 e2 e3 : moves e1 e2 -> moves e2 e3 -> moves e1 e3.
Proof. intros [a H1] [b H2]. exists (a ++ b). by rewrite transport_run_app, H1. Qed.

Lemma moves_by a e e' : fst <$> transport_step a (as_transport e) = Some (as_transport e') -> moves e e'.
Proof. intros H. exists [a]. cbn. destruct (transport_step a (as_transport e)) as [r|]; [|done]. by injection H as <-. Qed.

Lemma as_lookup e id op : pool_operations (pool e) !! id = Some op -> operations (as_transport e) !! id = Some op.2.
Proof. intros H. cbn. by rewrite list_lookup_fmap, H. Qed.

(** What the roster knows of an operation. *)
Lemma placed limit e id x :
  listed limit e -> (id, x) ∈ places e -> exists op,
    pool_operations (pool e) !! id = Some op /\ (phase x <> retired -> transport op.2 = phase x) /\
    is_answered op.2 = told x.
Proof.
  intros [Hi Hp He _ _ _] Hx. rewrite Forall_forall in He. destruct (He _ Hx) as [Ho _]. cbn in Ho.
  assert (id ∈ seq 0 (length (pool_operations (pool e)))) as Hin by (rewrite <-Hi; by apply list_elem_of_fmap_2 with (f := fst) in Hx).
  apply elem_of_seq in Hin. destruct (lookup_lt_is_Some_2 (pool_operations (pool e)) id) as [op Hop]; [lia|]. exists op.
  split_and!; [done| |].
  - intros Hr. destruct Hp as [_ _ _ Hops]. destruct (oo_held _ _ Hops id (phase x) (told x)) as (st & E & Ht & _).
    { apply list_elem_of_bind. exists (id, x). split; [|done]. unfold held_entry. cbn. rewrite bool_decide_false by done. by left. }
    rewrite E in Hop. by injection Hop as <-.
  - unfold pool_outcome in Ho. rewrite Hop in Ho. cbn in Ho. unfold is_answered. destruct (outcome op.2).
    + destruct Ho as [-> _]. by apply bool_decide_true.
    + rewrite Ho. apply bool_decide_false. by intros [].
Qed.

(** A section of the pool is a section of the transport. *)
Lemma moves_section id f g a e e' :
  section id f e = Some e' -> transport_step a (as_transport e) = raw_section id g (as_transport e) ->
  (forall op, pool_operations (pool e) !! id = Some op -> g op.2 = f op.2) -> moves e e'.
Proof.
  intros (p & (adm & st & r & Hid & Hf & ->)%pool_section_Some & ->)%section_Some Ha Hg. apply (moves_by a). rewrite Ha.
  unfold raw_section. rewrite (as_lookup _ _ _ Hid). cbn. specialize (Hg _ Hid). cbn in Hg. rewrite Hg, Hf. cbn. unfold as_transport, set_operations. cbn.
  by rewrite list_fmap_insert.
Qed.

Lemma publish_transports limit e e' id x a :
  listed limit e -> (id, x) ∈ places e -> phase x <> retired -> told x = false ->
  section id (publish_section a) e = Some e' -> moves e e'.
Proof.
  intros Hl Hx Hp Ht H. eapply (moves_section id _ (publish_raw a) (PublishRaw id a)); [done..|]. intros op Hop.
  destruct (placed limit e id x Hl Hx) as (op' & E & H1 & H2). rewrite E in Hop. injection Hop as ->.
  unfold publish_raw, is_retired. rewrite H2, Ht, bool_decide_false; [done|]. rewrite H1; done.
Qed.

Lemma retire_transports limit e e' id x :
  listed limit e -> (id, x) ∈ places e -> phase x <> retired -> told x = true ->
  section id retire e = Some e' -> moves e e'.
Proof.
  intros Hl Hx Hp Ht H. eapply (moves_section id _ retire_raw (RetireRaw id)); [done..|]. intros op Hop.
  destruct (placed limit e id x Hl Hx) as (op' & E & H1 & H2). rewrite E in Hop. injection Hop as ->.
  unfold retire_raw, is_retired. rewrite H2, Ht, bool_decide_false; [done|]. rewrite H1; done.
Qed.

Lemma advance_moves limit e e' id x ph :
  listed limit e -> (id, x) ∈ places e -> phase x <> retired -> ph <> retired ->
  section id (advance_section ph) e = Some e' -> moves e e'.
Proof.
  intros Hl Hx Hp Ht H. eapply (moves_section id _ (advance_raw ph) (AdvanceRaw id ph)); [done..|]. intros op Hop.
  destruct (placed limit e id x Hl Hx) as (op' & E & H1 & H2). rewrite E in Hop. injection Hop as ->.
  unfold advance_raw, is_retired. rewrite !bool_decide_false; [done|done|]. rewrite H1; done.
Qed.

(** A hook that the log of a sound state has once, after this state's, is one that may be called. *)
Lemma hook_moves limit ef e id :
  engine_ok limit ef -> hooked ef = hooked e ++ [id] -> pool ef = pool e -> moves e (call_hook id e).
Proof.
  intros Hok Hh Hp. apply (moves_by (CallRetirement id)). cbn -[terminal_shutdown]. rewrite list_lookup_fmap.
  assert (id ∈ hooked ef) as Hin by (rewrite Hh; apply elem_of_app; right; by left).
  pose proof Hok as [[_ _ _ _ Hnd [_ Hlog]] _ _]. rewrite Forall_forall in Hlog. specialize (Hlog id Hin).
  destruct (lookup_lt_is_Some_2 _ _ Hlog) as [op Hop]. destruct (hooked_answered limit ef id op Hok Hop Hin) as [Ha1 Ha2].
  rewrite Hp in Hop. rewrite Hop. cbn -[terminal_shutdown]. unfold is_answered, is_retired. rewrite !bool_decide_true by done.
  rewrite Hh in Hnd. apply NoDup_app in Hnd as (_ & Hn & _). by rewrite bool_decide_false by (intros Hi; apply (Hn id Hi); by left).
Qed.

(** ** Submitting *)

Lemma insert_last {X} (l : list X) x y : <[length l := y]> (l ++ [x]) = l ++ [y].
Proof. replace (length l) with (length l + 0) by lia. by rewrite insert_app_r. Qed.

Lemma lookup_last {X} (l : list X) x : (l ++ [x]) !! length l = Some x.
Proof. by apply list_lookup_middle. Qed.

(** An operation that is answered where it is made. *)
Definition refused_operation (f : CommandFailure) : option RawOperation :=
  fst <$> retire (publish (Unexpected f) new_state).1.1.

Lemma raw_last l subs rets b s (st : RawOperation) f r :
  f st = Some r -> raw_section (length l) f (MkTransport (l ++ [st]) subs rets b s) = Some (MkTransport (l ++ [r.1]) subs rets b s, r.2).
Proof. intros H. unfold raw_section. cbn [operations]. rewrite lookup_last. cbn. rewrite H. cbn. unfold set_operations. cbn. by rewrite insert_last. Qed.

Lemma refused_run f l subs rets b s :
  Forall (fun id => id < length l) (subs ++ rets) -> exists st,
  refused_operation f = Some st /\
  transport_run [BeginSubmit; PublishRaw (length l) (Unexpected f); RetireRaw (length l); CallRetirement (length l); EndSubmit (length l)]
    (MkTransport l subs rets b s) = Some (MkTransport (l ++ [st]) subs (rets ++ [length l]) b s).
Proof.
  intros [Hs Hr]%Forall_app. rewrite Forall_forall in Hs, Hr.
  set (p := publish (Unexpected f) new_state : RawOperation * list effect * bool).
  assert (state_ok p.1.1) as Hok1.
  { destruct (publish_ok (Unexpected f : RawResult) new_state new_state_ok) as ([] & _). done. }
  destruct (retire_section_ok p.1.1 Hok1) as (r & Er & [Hst _ Ho _] & Ht). exists r.1. unfold refused_operation. fold p. rewrite Er. split; [done|].
  assert (is_Some (outcome p.1.1)) as Hp by by eexists.
  cbn [transport_run transport_step mbind option_bind operations submissions set_submissions set_operations fst].
  unfold set_submissions, set_operations. cbn [operations submissions retirements stopping stopped].
  rewrite (raw_last l _ _ _ _ new_state _ p.1) by done. cbn [mbind option_bind fst].
  rewrite (raw_last l _ _ _ _ p.1.1 _ r).
  2: { unfold retire_raw, is_answered, is_retired. by rewrite bool_decide_true, bool_decide_false by done. }
  cbn [mbind option_bind fst operations]. rewrite lookup_last. cbn [mbind option_bind].
  unfold is_answered, is_retired. cbn [retirements]. rewrite (bool_decide_true (is_Some _)), (bool_decide_true (transport _ = _)), bool_decide_false.
  - cbn [andb negb mbind option_bind fst submissions stopped set_retirements retirements].
    rewrite (bool_decide_true (length l ∈ subs ++ _)), (bool_decide_true (length l ∈ rets ++ _)), orb_true_r by (apply elem_of_app; right; by left). cbn. do 2 f_equal.
    rewrite filter_app, filter_cons_False, filter_nil, app_nil_r by (intros H; by apply H).
    apply filter_whole. intros k Hk ->. specialize (Hs _ Hk). lia.
  - intros Hin. specialize (Hr _ Hin). lia.
  - done.
  - rewrite Ho; [by eexists|done].
Qed.

(** What the transport does not see. *)
Definition same_face (e e' : Engine) : Prop :=
  pool_operations (pool e') = pool_operations (pool e) /\ submitting e' = submitting e /\ hooked e' = hooked e /\
  stop_requested e' = stop_requested e /\ all_done e' = all_done e /\
  (all_done e = true -> terminal_shutdown e' = terminal_shutdown e).

Lemma same_face_moves e e' : same_face e e' -> moves e e'.
Proof.
  intros (H1 & H2 & H3 & H4 & H5 & H6). apply moves_same. unfold as_transport. rewrite H1, H2, H3, H4, H5.
  destruct (all_done e); [by rewrite H6|done].
Qed.

Lemma quiet_face e e' : quiet e e' -> same_face e e'.
Proof.
  intros Hq. destruct (quiet_ends _ _ Hq) as [H1 H2]. destruct Hq as [(Hp & _ & Hh & _) _ _ _ (_ & _ & _ & Hs) _ _ Hst _].
  unfold same_face. rewrite Hp, Hh, Hs, Hst, H1. by split_and!.
Qed.

(** Two ways an operation is made. *)
Lemma refused_moves limit f p e e' :
  listed limit e -> pool_refuse f (pool e) = Some p -> same_face (let_go (length (pool_operations (pool e))) (set_pool p e)) e' ->
  moves e e'.
Proof.
  intros [Hi _ _ _ _ [_ Hlog]] Hp Hf. eapply moves_trans; [|by apply same_face_moves].
  destruct (refused_run f (pool_operations (pool e)).*2 (ProcessEngine.operation <$> submitting e) (hooked e) (stop_requested e)
    (if all_done e then Some (complete (terminal_shutdown e)) else None)) as (st & Est & Hrun).
  - rewrite length_fmap. apply Forall_app. split; [|done]. apply Forall_forall. intros k (w & -> & Hw)%list_elem_of_fmap.
    assert (operation w ∈ seq 0 (length (pool_operations (pool e)))) as Hin; [|apply elem_of_seq in Hin; lia].
    rewrite <-Hi. unfold places. rewrite fmap_app. apply elem_of_app. left. rewrite <-list_fmap_compose.
    apply list_elem_of_fmap. by exists w.
  - eexists. etrans; [exact Hrun|]. rewrite length_fmap. unfold refused_operation in Est.
    unfold pool_refuse in Hp. destruct (retire _) as [r|]; [|done]. cbn in Est, Hp. injection Est as <-. injection Hp as <-.
    unfold as_transport, let_go. cbn. by rewrite fmap_app.
Qed.

Lemma admit_moves limit r now e e' : listed limit e -> admit_request r now e = Some e' -> moves e e'.
Proof.
  intros Hl H. unfold admit_request in H. destruct (channel_failure e) as [f|].
  - apply bind_Some_inv in H as (p & Hp & [= <-]). eapply refused_moves; [done..|].
    unfold fail. by destruct (failure (set_pool p e)).
  - destruct (pool_full (pool e)).
    + apply bind_Some_inv in H as (p & Hp & [= <-]). by eapply refused_moves.
    + injection H as <-. apply (moves_by BeginSubmit). cbn -[terminal_shutdown].
      unfold as_transport, set_submissions, set_operations. cbn -[terminal_shutdown]. rewrite !fmap_app, length_fmap. done.
Qed.

(** The operations whose submission has not returned. *)
Lemma submitting_nodup limit e : listed limit e -> NoDup (ProcessEngine.operation <$> submitting e).
Proof.
  intros [Hi _ _ _ _ _]. assert (NoDup (places e).*1) as H by (rewrite Hi; apply NoDup_seq).
  unfold places in H. rewrite fmap_app in H. apply NoDup_app in H as (H & _). by rewrite <-list_fmap_compose in H.
Qed.

Lemma delete_filter {X} (f : X -> nat) k (l : list X) x :
  NoDup (f <$> l) -> l !! k = Some x -> f <$> delete k l = filter (fun i => i <> f x) (f <$> l).
Proof.
  revert k. induction l as [|y l IH]; intros [|k] Hnd Hk; try done; rewrite fmap_cons in *; apply NoDup_cons in Hnd as [Hn Hnd].
  - injection Hk as ->. rewrite filter_cons_False by (intros H; by apply H). symmetry. apply filter_whole. by intros i Hi ->.
  - change (delete (S k) (y :: l)) with (y :: delete k l). cbn in Hk. rewrite fmap_cons, filter_cons_True.
    + f_equal. by apply IH.
    + intros E. apply Hn. rewrite E. apply list_elem_of_fmap_2. by eapply list_elem_of_lookup_2.
Qed.

Lemma return_moves k w e e' :
  NoDup (ProcessEngine.operation <$> submitting e) -> submitting e !! k = Some w -> (all_done e = false \/ operation w ∈ hooked e) ->
  pool e' = pool e -> submitting e' = delete k (submitting e) -> hooked e' = hooked e -> stop_requested e' = stop_requested e ->
  all_done e' = all_done e -> terminal_shutdown e' = terminal_shutdown e -> moves e e'.
Proof.
  intros Hl Hk Hor H1 H2 H3 H4 H5 H6. apply (moves_by (EndSubmit (operation w))). cbn -[terminal_shutdown].
  rewrite bool_decide_true by (apply list_elem_of_fmap_2; by eapply list_elem_of_lookup_2). cbn [andb].
  assert (bool_decide ((if all_done e then Some (complete (terminal_shutdown e)) else None) = None) || bool_decide (operation w ∈ hooked e) = true) as ->.
  { destruct Hor as [-> | Hin]; [done|]. by rewrite (bool_decide_true _ Hin), orb_true_r. }
  cbn -[terminal_shutdown]. unfold as_transport, set_submissions. cbn -[terminal_shutdown].
  by rewrite H1, H2, H3, H4, H5, H6, (delete_filter _ k _ w Hl Hk).
Qed.

Lemma not_done e : launcher e <> LReturned \/ reactor e <> RReturned -> all_done e = false.
Proof. intros H. apply not_true_iff_false. intros [H1 H2]%all_done_true. tauto. Qed.

(** Steps that move no operation; the last of them ends the threads. *)
Lemma control_moves limit e e' :
  engine_ok limit e' -> pool_operations (pool e') = pool_operations (pool e) -> submitting e' = submitting e -> hooked e' = hooked e ->
  stop_requested e' = stop_requested e -> (all_done e = true -> all_done e' = true /\ terminal_shutdown e' = terminal_shutdown e) ->
  moves e e'.
Proof.
  intros Hok H1 H2 H3 H4 H5. destruct (all_done e) eqn:Ed.
  { destruct (H5 eq_refl) as [H6 H7]. apply same_face_moves. unfold same_face. rewrite Ed. by split_and!. }
  destruct (all_done e') eqn:Ed'; [|apply same_face_moves; unfold same_face; rewrite Ed; by split_and!].
  apply (moves_by (EndTransport (complete (terminal_shutdown e')))). cbn -[terminal_shutdown all_retired].
  rewrite Ed, (proj2 (all_retired_spec (as_transport e))).
  - cbn -[terminal_shutdown]. unfold as_transport, set_stopped. cbn -[terminal_shutdown]. by rewrite H1, H2, H3, H4, Ed'.
  - cbn -[terminal_shutdown]. rewrite length_fmap. intros id Hid. destruct (handed_over id e') eqn:Eh.
    + right. rewrite <-H1 in Hid. destruct (lookup_lt_is_Some_2 _ _ Hid) as [op Hop]. rewrite <-H3.
      by destruct (cl_answered _ _ (done_closed limit e' Hok Ed') id op Hop Eh).
    + left. unfold handed_over in Eh. apply negb_false_iff, existsb_exists in Eh as (w & Hw & E%Nat.eqb_eq).
      rewrite H2 in Hw. rewrite <-E. apply list_elem_of_fmap_2. by apply list_elem_of_In.
Qed.

Lemma launcher_face x n e : launcher e <> LReturned -> x <> LReturned -> same_face e (set_launcher x n e).
Proof.
  intros H1 H2. unfold same_face. rewrite (not_done e), (not_done (set_launcher x n e)) by (by left). by split_and!.
Qed.

(** A publication and what retires it, where the caller does both. *)
Lemma answer_moves limit id x a e e1 e2 :
  listed limit e -> (id, x) ∈ places e -> phase x <> retired -> told x = false ->
  section id (publish_section a) e = Some e1 -> section id retire e1 = Some e2 -> moves e e2.
Proof.
  intros Hl Hx Hp Ht H1 H2. eapply moves_trans; [by eapply (publish_transports limit _ _ _ _ _ Hl Hx)|].
  eapply (moves_section id _ retire_raw (RetireRaw id)); [done..|]. intros op Hop.
  destruct (placed limit e id x Hl Hx) as (op' & E & E1 & E2).
  apply section_Some in H1 as (p & Hp1 & ->). apply pool_section_Some in Hp1 as (adm & st & r & Hid & Hf & ->).
  rewrite E in Hid. injection Hid as ->. cbn in Hop. rewrite list_lookup_insert_eq in Hop by by eapply lookup_lt_Some.
  injection Hop as <-. cbn in *. unfold publish_section in Hf. injection Hf as <-.
  assert (outcome st = None) as Hn.
  { rewrite Ht in E2. unfold is_answered in E2. apply bool_decide_eq_false in E2. by apply eq_None_not_Some. }
  unfold publish. rewrite Hn. unfold retire_raw, is_answered, is_retired. cbn. rewrite (bool_decide_false (transport st = retired)); [done|].
  rewrite E1; done.
Qed.

Lemma retirement_moves limit id x ph e e1 e2 :
  listed limit e -> (id, x) ∈ places e -> phase x <> retired -> told x = true -> ph <> retired ->
  section id (advance_section ph) e = Some e1 -> section id retire e1 = Some e2 -> moves e e2.
Proof.
  intros Hl Hx Hp Ht Hph H1 H2. eapply moves_trans; [by eapply (advance_moves limit _ _ _ _ ph Hl Hx)|].
  eapply (moves_section id _ retire_raw (RetireRaw id)); [done..|]. intros op Hop.
  destruct (placed limit e id x Hl Hx) as (op' & E & E1 & E2).
  apply section_Some in H1 as (p & Hp1 & ->). apply pool_section_Some in Hp1 as (adm & st & r & Hid & Hf & ->).
  rewrite E in Hid. injection Hid as ->. cbn in Hop. rewrite list_lookup_insert_eq in Hop by by eapply lookup_lt_Some.
  injection Hop as <-. unfold advance_section, advance_transport in Hf. inv_binds. unfold retire_raw, is_retired. cbn in *.
  unfold is_answered in *. cbn. by rewrite E2, Ht, bool_decide_false.
Qed.

Lemma accept_moves limit k e e' : engine_ok limit e -> accept k e = Some e' -> moves e e'.
Proof.
  intros Hok H. pose proof (accept_keeps limit k e e' Hok H) as Hok'. pose proof Hok as [Hl _ Hc]. unfold accept in H.
  destruct (submitting e !! k) as [w|] eqn:Hk; [|done]. cbn [mbind option_bind] in H.
  assert ((operation w, waiting_place queued) ∈ places e) as Hx.
  { unfold places. apply elem_of_app. left. apply list_elem_of_fmap. exists w. split; [done|]. by eapply list_elem_of_lookup_2. }
  pose proof (submitting_nodup limit e Hl) as Hnd. destruct (negb (stop_requested e) && _) eqn:Ho.
  - apply bind_Some_inv in H as (e1 & He1 & [= <-]). eapply moves_trans; [by eapply (advance_moves limit e e1 _ _ dispatching_ Hl Hx)|].
    apply turn_framed in He1 as (p & ->). apply (return_moves k w); try done. left. apply not_done. right.
    intros E. apply (open_engine e Ho). by destruct (co_done _ Hc E).
  - apply bind_Some_inv in H as (e1 & He1 & H). apply bind_Some_inv in H as (e2 & He2 & [= <-]).
    eapply moves_trans; [by eapply (answer_moves limit (operation w) _ _ e e1 e2 Hl Hx)|].
    apply turn_framed in He1 as (p1 & ->). apply turn_framed in He2 as (p2 & ->).
    eapply moves_trans; [eapply (hook_moves limit _ _ (operation w) Hok'); done|].
    apply (return_moves k w); try done. right. cbn. apply elem_of_app. right. by left.
Qed.

Lemma launcher_moves_on limit a e e' : engine_ok limit e -> launcher_step a e = Some e' -> moves e e'.
Proof.
  intros Hok H. pose proof (launcher_keeps limit e a e' Hok H) as Hok'. pose proof Hok as [Hl _ _].
  pose proof (step_when_done fuel (Launcher_ a) e e' H) as Hdone.
  assert (forall x, x ∈ launcher_places (launcher e) -> x ∈ places e) as Hin.
  { intros x Hx. unfold places. rewrite !elem_of_app. tauto. }
  unfold launcher_step in H. destruct (launcher e) as [ |w stopping f|w|w f|w|w|o|o| | | |] eqn:El; destruct a; try done.
  - unfold take_request in H. destruct (pending e); [destruct (_ || _); [|done]|]; injection H as <-; by apply (control_moves limit).
  - apply bind_Some_inv in H as (op & _ & [= <-]). by apply (control_moves limit).
  - unfold launch_gate in H. destruct (channel_failure e) as [f|]; [injection H as <-; by apply (control_moves limit)|].
    destruct (Posix.run _ _ _) as [[[ch|err]| | |] g]; try done; injection H as <-; by apply (control_moves limit).
  - apply bind_Some_inv in H as (e1 & He1 & [= <-]). eapply moves_trans; [by eapply (publish_transports limit _ _ _ _ _ Hl (Hin _ ltac:(by left)))|].
    apply turn_framed in He1 as (p & ->). apply same_face_moves, launcher_face; cbn; by rewrite ?El.
  - apply bind_Some_inv in H as (e1 & He1 & [= <-]). eapply moves_trans; [by eapply (retire_transports limit _ _ _ _ Hl (Hin _ ltac:(by left)))|].
    apply turn_framed in He1 as (p & ->). apply same_face_moves, launcher_face; cbn; by rewrite ?El.
  - injection H as <-. eapply moves_trans; [by eapply (hook_moves limit _ e (operation w) Hok')|].
    apply same_face_moves. unfold same_face. rewrite (not_done (call_hook _ e)), not_done by (left; cbn; by rewrite ?El). by split_and!.
  - apply bind_Some_inv in H as (e1 & He1 & [= <-]). eapply moves_trans; [by eapply (advance_moves limit _ _ _ _ active Hl (Hin _ ltac:(by left)))|].
    apply turn_framed in He1 as (p & ->). apply same_face_moves, launcher_face; cbn; by rewrite ?El.
  - injection H as <-. by apply (control_moves limit).
  - injection H as <-. by apply (control_moves limit).
  - injection H as <-. destruct (quiet_face _ _ (note_quiet (wake_outcome answers) e)) as (F1 & F2 & F3 & F4 & F5 & F6).
    by apply (control_moves limit).
  - injection H as <-. destruct (quiet_face _ _ (check_quiet e)) as (F1 & F2 & F3 & F4 & F5 & F6).
    by apply (control_moves limit).
Qed.

Lemma erase_moves limit i a e e' :
  engine_ok limit e -> reactor e = RErasing i -> erase_step i a e = Some e' -> moves e e'.
Proof.
  intros Hok Hx H. pose proof (erase_keeps limit i a e e' Hok Hx H) as Hok'. pose proof Hok as [Hl _ _].
  assert (all_done e = false) as Hnd by (apply not_done; right; by rewrite Hx).
  unfold erase_step in H. destruct (live e !! i) as [o|] eqn:Hi.
  2: { destruct a; try done. injection H as <-. apply (control_moves limit); try done. by rewrite Hnd. }
  assert (live_place o ∈ places e) as Hin by (rewrite (places_child i o e Hi); by left). unfold live_place in Hin.
  assert (forall p o', same_face (set_pool p e) (set_live i o' (set_pool p e))) as Hface by by intros.
  destruct (stage o) eqn:Es, a; try done.
  - destruct (is_over o); [done|]. injection H as <-. apply (control_moves limit); try done. by rewrite Hnd.
  - destruct (is_over o); [|done]. apply bind_Some_inv in H as (answer & _ & H). apply bind_Some_inv in H as (e1 & He1 & [= <-]).
    eapply moves_trans; [by eapply (publish_transports limit _ _ _ _ answer Hl Hin)|]. apply turn_framed in He1 as (p & ->).
    by apply same_face_moves.
  - apply bind_Some_inv in H as (e1 & He1 & H). apply bind_Some_inv in H as (e2 & He2 & [= <-]).
    eapply moves_trans; [by eapply (retirement_moves limit _ _ retiring e e1 e2 Hl Hin)|].
    apply turn_framed in He1 as (p1 & ->). apply turn_framed in He2 as (p2 & ->). by apply same_face_moves.
  - injection H as <-. eapply moves_trans; [by eapply (hook_moves limit _ e (live_operation o) Hok')|]. by apply same_face_moves.
  - apply bind_Some_inv in H as (g & _ & [= <-]). apply (control_moves limit); try done. by rewrite Hnd.
Qed.

Lemma reactor_moves limit a e e' : engine_ok limit e -> reactor_step fuel a e = Some e' -> moves e e'.
Proof.
  intros Hok H. pose proof (reactor_keeps fuel limit e a e' Hok H) as Hok'.
  pose proof (step_when_done fuel (Reactor_ a) e e' H) as Hdone.
  assert (forall f x, quiet e (f e) -> engine_ok limit (set_reactor x (f e)) ->
    (all_done e = true -> all_done (set_reactor x (f e)) = true /\ terminal_shutdown (set_reactor x (f e)) = terminal_shutdown e) ->
    moves e (set_reactor x (f e))) as Hq.
  { intros f x Hf%quiet_face H1 H2. destruct Hf as (F1 & F2 & F3 & F4 & F5 & F6). by apply (control_moves limit). }
  unfold reactor_step in H. destruct (reactor e) eqn:Hx; [..|by eapply erase_moves|done]; destruct a; try done.
  - injection H as <-. apply Hq; [apply check_quiet|done..].
  - injection H as <-. apply (control_moves limit); try done; unfold take_arrivals; by case_match.
  - injection H as <-. apply (Hq (channel_fail (MkEngineFailure (txt "pipe poll") e0))); [apply channel_fail_quiet|done..].
  - injection H as <-. apply (Hq (note (drain_outcome answers))); [apply note_quiet|done..].
  - injection H as <-. apply Hq; [apply check_quiet|done..].
  - injection H as <-. by apply (control_moves limit).
  - destruct (live e !! i) as [o|]; [|done]. apply bind_Some_inv in H as (o' & _ & [= <-]). by apply (control_moves limit).
  - destruct (live e !! i); [done|]. injection H as <-. by apply (control_moves limit).
Qed.

(** C7: the process engine is a transport.  Whatever step any thread of the engine, any caller or any
    holder of an operation takes, in any state the engine reaches, is a sequence of actions that
    [Transport] allows, on what a submitter can tell of the engine: its operations' states, the
    submissions under way, the hooks called, its stop and its end. *)
Theorem process_engine_is_a_transport limit e a e' :
  reachable fuel limit e -> step fuel a e = Some e' -> moves e e'.
Proof.
  intros Hok%engine_stays_sound H. pose proof (step_keeps fuel limit a e e' Hok H) as Hok'. destruct a; cbn [step] in H.
  - eapply admit_moves; [by apply Hok|done].
  - by eapply accept_moves.
  - destruct (handed_over id e) eqn:Eh; [|done]. eapply (moves_section id _ (handle_call c) (HandleRaw id c)); [done| |done].
    cbn. rewrite bool_decide_false; [done|]. intros (w & E & Hw)%list_elem_of_fmap. unfold handed_over in Eh.
    apply negb_true_iff, not_true_iff_false in Eh. apply Eh. apply existsb_exists. exists w. split; [by apply list_elem_of_In|].
    by apply Nat.eqb_eq.
  - apply bind_Some_inv in H as (p & Ep & [= <-]). apply same_face_moves. unfold pool_release in Ep.
    destruct (pool_releasing (pool e)); [done|]. by injection Ep as <-.
  - injection H as <-. apply same_face_moves, quiet_face, note_quiet.
  - injection H as <-. by apply (moves_by StopTransport).
  - by eapply launcher_moves_on.
  - by eapply reactor_moves.
Qed.
End refinement.

(** The engine of a child at its end publishes its outcome. *)
Lemma process_engine_is_a_transport_witness :
  moves (demo_after demo_busy) (demo_after (demo_busy ++ map Reactor_ [PublishOutcome])).
Proof.
  apply (process_engine_is_a_transport (messages := demo_messages) (os := demo_os (Some 3%Z)) 10 1 _ (Reactor_ PublishOutcome)).
  - apply demo_reachable. vm_compute. reflexivity.
  - vm_compute. reflexivity.
Defined.
