(* ===== verification/Runtime.v ===== *)
(** The asynchronous interface: [include/libtmux/async.hpp], [src/async.cpp] (POSIX).

    [try_submit] checks a command, admits it against the runtime's capacity, hands it to the
    engine and subscribes to its answer; the completion thread interprets the answer,
    publishes it to the caller's handle and queues the observation; a caller dispatches or
    discards observations when it likes; [close] stops all of it and reports what is left.

    The runtime is a transition system over the parts it joins: the engine as the [Transport]
    that EngineTransport shows it to be, the two completion queues as the FIFO that
    CompletionQueue proves them to be, the callers' operations as OperationState.  A step is a
    section under one lock with what its thread does alone; submitters, the engine's threads,
    the completion thread, holders of handles, dispatchers and closers interleave freely.
    What is kept of a command stands in several lists at its number.

    Allocation failures, and the branches taken when one is thrown, are left out; so is the
    fault injection of the tests. *)

From S2P Require Import Prelude Command Redaction Process Endpoint Commands Backend Wake CompletionQueue OperationState Operations Transport.

(** * Before a submission *)

Definition immediate_failure (kind : FailureKind) (diagnostic : text) : CommandFailure :=
  MkFailure kind not_started 0 diagnostic.
Definition accepted_internal_failure (diagnostic : text) : CommandFailure :=
  MkFailure Command.pipe indeterminate 0 diagnostic.

(** What the runtime keeps of a checked command: how its answer is read, and what an observer,
    if there is one, is told of it. *)
Record Captured := MkCaptured {
  interpretation : RawResult -> expected CommandFailure text;
  observed_as : option (text * list text);
}.

Section preparing.
Context {W : Type} {host : Host W} {sockets : Sockets W}.
Variable cfg : Config.
Variable policy_limit : option N.

Definition or_else {A} (a b : option A) : option A := match a with Some x => Some x | None => b end.

(** [submit]: the daemon is asked for its release before the submission lock is taken. *)
Definition ask_daemon (command : CommandRequest) (timeout : option N) (h : Handle W) :
    option (expected CommandFailure (option EndpointVersion)) * Handle W :=
  match command with
  | [] => (None, h)
  | _ => let '(checked, h) := check_command cfg command (or_else timeout (policy_timeout cfg)) h in (Some checked, h)
  end.

Definition structure_failure : CommandFailure :=
  immediate_failure validation (txt "an asynchronous command contains a value that cannot be executed").

(** [submit_checked] up to the check of the ledger, on a subprocess backend. *)
Definition preflight (command : CommandRequest) (timeout output_limit : option N)
    (checked : option (expected CommandFailure (option EndpointVersion))) (h : Handle W) :
    expected CommandFailure ProcessRequest :=
  match command with
  | [] => Unexpected (immediate_failure validation (txt "an asynchronous command cannot be empty"))
  | _ =>
      match async_preflight h with
      | Unexpected f => Unexpected f
      | Value _ =>
          match checked with
          | None => Unexpected (immediate_failure unsupported (txt "the daemon was not checked for this command"))
          | Some (Unexpected f) => Unexpected f
          | Some (Value checked) =>
              match assemble_request cfg command (or_else timeout (policy_timeout cfg)) (or_else output_limit policy_limit)
                      checked false h with
              | Launch request => if process_request_is_valid request then Value request else Unexpected structure_failure
              | AbsentNoop => Unexpected structure_failure
              end
          end
      end
  end.

(** The callback's reading of an answer; what it does to the backend's cache is Backend's. *)
Definition interpret_raw (command : CommandRequest) (allowed_bytes : N) (h : Handle W) (reply : RawResult) :
    expected CommandFailure text :=
  match reply with
  | Unexpected failure => (interpret_failure_unobserved command failure h).1
  | Value reply => (interpret_reply cfg false command allowed_bytes reply false h).1
  end.

Definition capture (command : CommandRequest) (request : ProcessRequest) (h : Handle W) : Captured :=
  MkCaptured (interpret_raw command (capture_limit request) h)
    (if observed cfg then Some (rendered_command command, argv command) else None).
End preparing.

(** * The ledger *)

Record Ledger := MkLedger {
  capacity : nat;
  in_flight : nat;
  pending_results : nat;
  pending_observers : nat;
  accepted_total : nat;
  refused_total : nat;
  completed_total : nat;
  accepting : bool;
}.

Definition new_ledger (capacity : nat) : Ledger := MkLedger capacity 0 0 0 0 0 0 true.

Record Lease := MkLease {
  admitted : bool;
  lease_completed : bool;
  transport_finished : bool;
  result_finished : bool;
  observer_done : bool;
  lease_released : bool;
}.

Definition new_lease : Lease := MkLease false false false false false false.

Inductive Leg := transport_leg | result_leg | observer_leg.

Definition ledger_stop (l : Ledger) : Ledger :=
  MkLedger (capacity l) (in_flight l) (pending_results l) (pending_observers l) (accepted_total l) (refused_total l)
    (completed_total l) false.
Definition ledger_full (l : Ledger) : bool := (capacity l <=? in_flight l)%nat.
Definition ledger_refuse (l : Ledger) : Ledger :=
  MkLedger (capacity l) (in_flight l) (pending_results l) (pending_observers l) (accepted_total l) (S (refused_total l))
    (completed_total l) (accepting l).

(** [RuntimeLease::admit]. *)
Definition lease_admit (has_observer : bool) (p : Ledger * Lease) : Ledger * Lease :=
  let '(l, x) := p in
  (MkLedger (capacity l) (S (in_flight l)) (S (pending_results l))
     (if has_observer then S (pending_observers l) else pending_observers l) (S (accepted_total l)) (refused_total l)
     (completed_total l) (accepting l),
   MkLease true (lease_completed x) (transport_finished x) (result_finished x) (negb has_observer) (lease_released x)).

(** [RuntimeLease::complete]. *)
Definition lease_complete (p : Ledger * Lease) : Ledger * Lease :=
  let '(l, x) := p in
  if admitted x && negb (lease_completed x) then
    (MkLedger (capacity l) (in_flight l) (pending_results l) (pending_observers l) (accepted_total l) (refused_total l)
       (S (completed_total l)) (accepting l),
     MkLease (admitted x) true (transport_finished x) (result_finished x) (observer_done x) (lease_released x))
  else (l, x).

(** [RuntimeLease::finish]: the leg, then the release. *)
Definition finish_leg (leg : Leg) (p : Ledger * Lease) : Ledger * Lease :=
  let '(l, x) := p in
  match leg with
  | transport_leg =>
      (l, MkLease (admitted x) (lease_completed x) true (result_finished x) (observer_done x) (lease_released x))
  | result_leg =>
      if result_finished x then (l, x)
      else (MkLedger (capacity l) (in_flight l) (pending_results l - 1) (pending_observers l) (accepted_total l) (refused_total l)
              (completed_total l) (accepting l),
            MkLease (admitted x) (lease_completed x) (transport_finished x) true (observer_done x) (lease_released x))
  | observer_leg =>
      if observer_done x then (l, x)
      else (MkLedger (capacity l) (in_flight l) (pending_results l) (pending_observers l - 1) (accepted_total l) (refused_total l)
              (completed_total l) (accepting l),
            MkLease (admitted x) (lease_completed x) (transport_finished x) (result_finished x) true (lease_released x))
  end.

Definition release_lease (p : Ledger * Lease) : Ledger * Lease :=
  let '(l, x) := p in
  if negb (lease_released x) && transport_finished x && result_finished x && observer_done x then
    (MkLedger (capacity l) (in_flight l - 1) (pending_results l) (pending_observers l) (accepted_total l) (refused_total l)
       (completed_total l) (accepting l),
     MkLease (admitted x) (lease_completed x) (transport_finished x) (result_finished x) (observer_done x) true)
  else (l, x).

Definition lease_finish (leg : Leg) (p : Ledger * Lease) : Ledger * Lease :=
  if admitted p.2 then release_lease (finish_leg leg p) else p.

(** * The runtime *)

Abbreviation TextOperation := (OperationState (A := text)).
Abbreviation Answer := (expected CommandFailure text).
Abbreviation Completions := (Queue (A := nat)).

(** Where the caller's [CommandOperation] is: not returned yet, held, in a wait at its three
    stages, being dropped, gone. *)
Inductive HandleAt := Unreturned | Owned | Selecting | WaitingFor | Closing_ | Dropping | LetGo.

(** Where a command's callback is: not subscribed, with [subscribe], in the queue's record,
    claimed by the completion thread, and at the stages of [finish_completion]. *)
Inductive Course :=
  | Unsubscribed | Selected (token : N) | Recorded_ (token : N) | Claimed (token : N)
  | Taken (answer : Answer) | Answered | Settled | Enqueued (fine : bool) | Counted | Erased | Done.

(** Where the submission that holds the submission lock is. *)
Inductive Submission :=
  | Free | Checked (c : Captured) | Roomy (c : Captured) | Admissible (c : Captured) (token : option N)
  | Registered (c : Captured) (token : option N)
  | Opening (id : nat) | Handing (id : nat) | Handed (id : nat)
  | Subscribing (id : nat) (token : N) | Registering (id : nat) (token : N) | Looking (id : nat) (token : N)
  | SelfEnqueuing (id : nat) (token : N) | Tracking (id : nat) (token : N) | Notifying (id : nat).

(** Where the completion thread is. *)
Inductive LaneAt :=
  | Sleeping | Starting | Running (turns : nat) (cutoff : N) | Working (turns : nat) (cutoff : N) (id : nat)
  | Deciding | Leaving (finishing : bool) | Returned.

(** What was seen of a command, as its observer is to be told. *)
Record Observation := MkObservation {
  seen_command : text;
  seen_argv : list text;
  seen_failure : CommandFailure;
  seen_failed : bool;
  seen_timed : bool;
}.

(** A [dispatch_ready] or [discard_ready] under way. *)
Inductive Disposition :=
  | Dispatching (turns : nat) (cutoff : N) | Releasing (turns : nat) (cutoff : N) (id : nat)
  | Reporting (turns : nat) (cutoff : N) (id : nat) | Discarding (ids : list nat).

Record Shutdown := MkRuntimeShutdown {
  left_results : nat;
  left_observers : nat;
  transports_stopped : bool;
  safe_to_unload : bool;
  shutdown_failure : option CommandFailure;
}.

(** Where a caller of [request_stop] or [close] is. *)
Inductive Caller :=
  | Outside_ | StopLedger (closing : bool) | StopTasks (closing : bool) | StopEngine (closing : bool) | StopDone
  | AwaitingClose | JoinEngine | FinishLane (b : bool) | JoinLane (b : bool) | FinishObservers (b : bool)
  | AwaitReaders (b : bool) | ReadLedger (b : bool) | MakeReport (b : bool) (l : Ledger) | ClosedWith (r : Shutdown).

Record Books := MkBooks { ledger : Ledger; leases : list Lease }.

(** The callers' handles; [releasing]: hooks of results that are to be called. *)
Record Results := MkResults { results : list TextOperation; handles : list HandleAt; releasing : list nat }.

(** The completion lane; [enqueuing]: publications of the engine that are to queue their
    callback; [notifying]: retirement hooks that are to wake the thread. *)
Record Lane := MkLane {
  closures : list (RawResult -> Answer);
  courses : list Course;
  transport : Transport;
  enqueuing : list (nat * N);
  notifying : nat;
  completions : Completions;
  tasks : list (nat * N);
  completion_wake : bool;
  finish_completion_thread : bool;
  lane_at : LaneAt;
}.

Record Watch := MkWatch {
  observations : list (option Observation);
  observer_tokens : list (option N);
  observers : Completions;
  disposition : option Disposition;
  told_reports : list (nat * CommandReport);
}.

Record Control := MkControl {
  lifecycle_failure : option CommandFailure;
  active_observer_dispositions : nat;
  active_readiness_waiters : nat;
  close_joining : bool;
  terminal_report : option Shutdown;
  callers : list Caller;
}.

Record Runtime := MkRuntime {
  books : Books;
  outcomes : Results;
  lane : Lane;
  watch : Watch;
  control : Control;
  submission : Submission;
  refusals : list CommandFailure;
}.

Definition start_runtime (capacity callers : nat) : Runtime :=
  MkRuntime (MkBooks (new_ledger capacity) []) (MkResults [] [] [])
    (MkLane [] [] new_transport [] 0 new_queue [] false false Sleeping)
    (MkWatch [] [] new_queue None [])
    (MkControl None 0 0 false None (replicate callers Outside_)) Free [].

Definition set_books b r := MkRuntime b (outcomes r) (lane r) (watch r) (control r) (submission r) (refusals r).
Definition set_outcomes o r := MkRuntime (books r) o (lane r) (watch r) (control r) (submission r) (refusals r).
Definition set_lane l r := MkRuntime (books r) (outcomes r) l (watch r) (control r) (submission r) (refusals r).
Definition set_watch w r := MkRuntime (books r) (outcomes r) (lane r) w (control r) (submission r) (refusals r).
Definition set_control c r := MkRuntime (books r) (outcomes r) (lane r) (watch r) c (submission r) (refusals r).
Definition set_submission s r := MkRuntime (books r) (outcomes r) (lane r) (watch r) (control r) s (refusals r).
Definition log_refusal f r := MkRuntime (books r) (outcomes r) (lane r) (watch r) (control r) (submission r) (refusals r ++ [f]).

Definition set_ledger l b := MkBooks l (leases b).
Definition set_results l o := MkResults l (handles o) (releasing o).
Definition set_handles l o := MkResults (results o) l (releasing o).
Definition set_releasing l o := MkResults (results o) (handles o) l.
Definition set_courses l x :=
  MkLane (closures x) l (transport x) (enqueuing x) (notifying x) (completions x) (tasks x) (completion_wake x)
    (finish_completion_thread x) (lane_at x).
Definition set_transport t es x :=
  MkLane (closures x) (courses x) t es (notifying x) (completions x) (tasks x) (completion_wake x)
    (finish_completion_thread x) (lane_at x).
Definition set_notifying n x :=
  MkLane (closures x) (courses x) (transport x) (enqueuing x) n (completions x) (tasks x) (completion_wake x)
    (finish_completion_thread x) (lane_at x).
Definition set_completions q x :=
  MkLane (closures x) (courses x) (transport x) (enqueuing x) (notifying x) q (tasks x) (completion_wake x)
    (finish_completion_thread x) (lane_at x).
Definition set_tasks l x :=
  MkLane (closures x) (courses x) (transport x) (enqueuing x) (notifying x) (completions x) l (completion_wake x)
    (finish_completion_thread x) (lane_at x).
Definition set_wake b f x :=
  MkLane (closures x) (courses x) (transport x) (enqueuing x) (notifying x) (completions x) (tasks x) b f (lane_at x).
Definition set_lane_at p x :=
  MkLane (closures x) (courses x) (transport x) (enqueuing x) (notifying x) (completions x) (tasks x) (completion_wake x)
    (finish_completion_thread x) p.
Definition set_observations l w := MkWatch l (observer_tokens w) (observers w) (disposition w) (told_reports w).
Definition set_observers q w := MkWatch (observations w) (observer_tokens w) q (disposition w) (told_reports w).
Definition set_disposition d w := MkWatch (observations w) (observer_tokens w) (observers w) d (told_reports w).
Definition log_report x w := MkWatch (observations w) (observer_tokens w) (observers w) (disposition w) (told_reports w ++ [x]).
Definition set_failure f c :=
  MkControl f (active_observer_dispositions c) (active_readiness_waiters c) (close_joining c) (terminal_report c) (callers c).
Definition set_active n m c :=
  MkControl (lifecycle_failure c) n m (close_joining c) (terminal_report c) (callers c).
Definition set_terminal b t c :=
  MkControl (lifecycle_failure c) (active_observer_dispositions c) (active_readiness_waiters c) b t (callers c).
Definition set_callers l c :=
  MkControl (lifecycle_failure c) (active_observer_dispositions c) (active_readiness_waiters c) (close_joining c) (terminal_report c) l.

(** [id]'s lease. *)
Definition with_lease (id : nat) (f : Ledger * Lease -> Ledger * Lease) (r : Runtime) : option Runtime :=
  x ← leases (books r) !! id;
  let p := f (ledger (books r), x) in
  Some (set_books (MkBooks p.1 (<[id := p.2]> (leases (books r)))) r).

(** A section of [id]'s result; a release of its hook is to be called. *)
Definition with_result (id : nat) (f : TextOperation -> option (TextOperation * list effect)) (r : Runtime) : option Runtime :=
  st ← results (outcomes r) !! id;
  p ← f st;
  Some (set_outcomes (set_releasing (releasing (outcomes r) ++ (if (0 <? count is_release p.2)%nat then [id] else []))
          (set_results (<[id := p.1]> (results (outcomes r))) (outcomes r))) r).

Definition go_handle (id : nat) (h : HandleAt) (r : Runtime) : Runtime :=
  set_outcomes (set_handles (<[id := h]> (handles (outcomes r))) (outcomes r)) r.
Definition go_course (id : nat) (c : Course) (r : Runtime) : Runtime :=
  set_lane (set_courses (<[id := c]> (courses (lane r))) (lane r)) r.
Definition go_lane (p : LaneAt) (r : Runtime) : Runtime := set_lane (set_lane_at p (lane r)) r.

(** [notify_completion]. *)
Definition notify_completion (r : Runtime) : Runtime := set_lane (set_wake true (finish_completion_thread (lane r)) (lane r)) r.

(** [store_lifecycle_failure]: the first stays. *)
Definition store_lifecycle_failure (f : CommandFailure) (r : Runtime) : Runtime :=
  match lifecycle_failure (control r) with Some _ => r | None => set_control (set_failure (Some f) (control r)) r end.

(** An action of the engine or on one of its operations; what a publication leaves to queue. *)
Definition with_transport (a : transport_action) (r : Runtime) : option Runtime :=
  p ← transport_step a (transport (lane r));
  let more := match a with
              | PublishRaw id _ => omap (fun e => match e with EnqueueObserver t => Some (id, t) | _ => None end) p.2
              | _ => []
              end in
  Some (set_lane (set_transport p.1 (enqueuing (lane r) ++ more) (lane r)) r).

(** An operation of the queue of completions; whether it was accepted. *)
Definition queue_completion (o : op) (r : Runtime) : Runtime * bool :=
  let p := q_exec o (completions (lane r)) in
  (set_lane (set_completions p.1 (lane r)) r, match p.2 with Bool b => b | _ => true end).
Definition queue_observer (o : op) (r : Runtime) : Runtime * bool :=
  let p := q_exec o (observers (watch r)) in
  (set_watch (set_observers p.1 (watch r)) r, match p.2 with Bool b => b | _ => true end).

(** * Submitting *)

Definition stopped_failure : CommandFailure :=
  immediate_failure cancelled (txt "the command runtime stopped before this was admitted").
Definition full_failure : CommandFailure :=
  immediate_failure overloaded (txt "the command runtime has more work in flight than it accepts").
Definition unregistered_failure : CommandFailure :=
  immediate_failure cancelled (txt "the command runtime stopped before observation was registered").
Definition untranslated_failure : CommandFailure :=
  accepted_internal_failure (txt "the runtime could not translate this command result").
Definition unqueued_failure : CommandFailure :=
  accepted_internal_failure (txt "the runtime could not queue a command observation").
Definition unretired_failure : CommandFailure :=
  accepted_internal_failure (txt "the process runtime could not retire every accepted child").

(** [refuse], which ends the submission. *)
Definition refuse (f : CommandFailure) (r : Runtime) : Runtime :=
  set_submission Free (log_refusal f (set_books (set_ledger (ledger_refuse (ledger (books r))) (books r)) r)).

(** The tasks' lock is held while a submission subscribes. *)
Definition tasks_locked (r : Runtime) : bool :=
  match submission r with
  | Subscribing _ _ | Registering _ _ | Looking _ _ | SelfEnqueuing _ _ | Tracking _ _ => true
  | _ => false
  end.

(** The next command's number: [next_task_]. *)
Definition next_task (r : Runtime) : nat := length (leases (books r)).

Definition observation_of (c : Captured) : option Observation :=
  (fun p => MkObservation p.1 p.2 untranslated_failure false false) <$> observed_as c.

(** [lease->admit] with what was made for the command. *)
Definition new_task (c : Captured) (token : option N) (r : Runtime) : Runtime :=
  let b := books r in let o := outcomes r in let l := lane r in let w := watch r in
  let p := lease_admit (bool_decide (is_Some (observed_as c))) (ledger b, new_lease) in
  MkRuntime (MkBooks p.1 (leases b ++ [p.2]))
    (MkResults (results o ++ [OperationState.set_transport dispatching_ new_state]) (handles o ++ [Unreturned]) (releasing o))
    (MkLane (closures l ++ [interpretation c]) (courses l ++ [Unsubscribed]) (transport l) (enqueuing l) (notifying l)
       (completions l) (tasks l) (completion_wake l) (finish_completion_thread l) (lane_at l))
    (MkWatch (observations w ++ [observation_of c]) (observer_tokens w ++ [token]) (observers w) (disposition w) (told_reports w))
    (control r) (Opening (next_task r)) (refusals r).

(** A submission's next section.  [checked] is what [preflight] made of the command. *)
Definition submission_step (checked : expected CommandFailure Captured) (r : Runtime) : option Runtime :=
  match submission r with
  | Free =>
      if negb (accepting (ledger (books r))) then Some (refuse stopped_failure r)
      else match checked with
           | Unexpected f => Some (refuse f r)
           | Value c => Some (set_submission (Checked c) r)
           end
  | Checked c => Some (if ledger_full (ledger (books r)) then refuse full_failure r else set_submission (Roomy c) r)
  | Roomy c =>
      match observed_as c with
      | None => Some (set_submission (Admissible c None) r)
      | Some _ =>
          let token := q_next (observers (watch r)) in
          Some (set_submission (Admissible c (Some token)) (queue_observer NextToken r).1)
      end
  | Admissible c token =>
      match token with
      | None => Some (set_submission (Registered c None) r)
      | Some t =>
          let p := queue_observer (Register t (next_task r)) r in
          Some (if p.2 then set_submission (Registered c (Some t)) p.1 else refuse unregistered_failure p.1)
      end
  | Registered c token => Some (new_task c token r)
  | Opening id => r ← with_transport BeginSubmit r; Some (set_submission (Handing id) r)
  | Handing id => r ← with_transport (EndSubmit id) r; Some (set_submission (Handed id) r)
  | Handed id =>
      let token := q_next (completions (lane r)) in
      Some (set_submission (Subscribing id token) (queue_completion NextToken r).1)
  | Subscribing id token =>
      r ← with_transport (HandleRaw id (SelectCallback token)) r;
      Some (set_submission (Registering id token) (go_course id (Selected token) r))
  | Registering id token =>
      let p := queue_completion (Register token id) r in
      if p.2 then Some (set_submission (Looking id token) (go_course id (Recorded_ token) p.1)) else None
  | Looking id token =>
      st ← operations (transport (lane r)) !! id;
      Some (set_submission (if is_answered st then SelfEnqueuing id token else Tracking id token) r)
  | SelfEnqueuing id token => Some (set_submission (Tracking id token) (queue_completion (Enqueue token) r).1)
  | Tracking id token => Some (set_submission (Notifying id) (set_lane (set_tasks (tasks (lane r) ++ [(id, token)]) (lane r)) r))
  | Notifying id => Some (set_submission Free (go_handle id Owned (notify_completion r)))
  end.

(** * The engine *)

(** The engine goes on with an operation when its publication has queued the callback.  A
    retirement hook finishes the transport's leg and is then to wake the thread. *)
Definition engine_step (a : transport_action) (r : Runtime) : option Runtime :=
  match a with
  | PublishRaw id _ | AdvanceRaw id _ | RetireRaw id =>
      if bool_decide (id ∈ (enqueuing (lane r)).*1) then None else with_transport a r
  | CallRetirement id =>
      if bool_decide (id ∈ (enqueuing (lane r)).*1) then None
      else
        r ← with_transport a r;
        r ← with_lease id (lease_finish transport_leg) r;
        Some (set_lane (set_notifying (S (notifying (lane r))) (lane r)) r)
  | EndTransport _ => with_transport a r
  | _ => None
  end.

Definition publication_queues (k : nat) (r : Runtime) : option Runtime :=
  e ← enqueuing (lane r) !! k;
  let r := (queue_completion (Enqueue e.2) r).1 in
  Some (set_lane (set_transport (transport (lane r)) (delete k (enqueuing (lane r))) (lane r)) r).

Definition hook_notifies (r : Runtime) : option Runtime :=
  match notifying (lane r) with
  | 0 => None
  | S n => Some (notify_completion (set_lane (set_notifying n (lane r)) r))
  end.

(** * The completion thread *)

Definition seen_answer (answer : Answer) (o : Observation) : Observation :=
  match answer with
  | Value _ => MkObservation (seen_command o) (seen_argv o) (seen_failure o) false true
  | Unexpected f => MkObservation (seen_command o) (seen_argv o) f true true
  end.

(** [tasks_.erase], with the subscription's end. *)
Definition erase_task (id : nat) (r : Runtime) : Runtime :=
  let gone := filter (fun t => t.1 = id) (tasks (lane r)) in
  let r := set_lane (set_tasks (filter (fun t => t.1 <> id) (tasks (lane r))) (lane r)) r in
  fold_left (fun r t => (queue_completion (Detach t.2) r).1) gone r.

(** The callback of [id], claimed by the thread, and [finish_completion], a section at a time. *)
Definition finish_step (id : nat) (r : Runtime) : option Runtime :=
  c ← courses (lane r) !! id;
  match c with
  | Claimed token =>
      st ← operations (transport (lane r)) !! id;
      raw ← outcome st;
      read ← closures (lane r) !! id;
      r ← with_transport (HandleRaw id (TakeCallback token)) r;
      Some (go_course id (Taken (read raw)) r)
  | Taken answer =>
      o ← observations (watch r) !! id;
      r ← with_result id (publish_section answer) r;
      Some (go_course id Answered
        (set_watch (set_observations (<[id := seen_answer answer <$> o]> (observations (watch r))) (watch r)) r))
  | Answered => r ← with_result id retire r; Some (go_course id Settled r)
  | Settled =>
      token ← observer_tokens (watch r) !! id;
      match token with
      | None => Some (go_course id (Enqueued true) r)
      | Some t =>
          let p := queue_observer (Enqueue t) r in
          Some (go_course id (Enqueued p.2) (if p.2 then p.1 else store_lifecycle_failure unqueued_failure p.1))
      end
  | Enqueued fine => r ← (if (fine : bool) then with_lease id lease_complete r else Some r); Some (go_course id Counted r)
  | Counted => if tasks_locked r then None else Some (go_course id Erased (erase_task id r))
  | Erased => Some (go_course id Done (notify_completion r))
  | _ => None
  end.

(** The thread's next section. *)
Definition lane_step (r : Runtime) : option Runtime :=
  let l := lane r in
  match lane_at l with
  | Sleeping =>
      if completion_wake l || finish_completion_thread l
      then Some (go_lane Starting (set_lane (set_wake false (finish_completion_thread l) l) r)) else None
  | Starting => Some (go_lane (Running (length (q_ready (completions l))) (q_last (completions l))) r)
  | Running 0 _ => Some (go_lane Deciding r)
  | Running (S turns) cutoff =>
      match q_claim_before cutoff (completions l) with
      | (_, None) => Some (go_lane Deciding r)
      | (q, Some (token, id)) =>
          Some (go_lane (Working turns cutoff id) (go_course id (Claimed token) (set_lane (set_completions q l) r)))
      end
  | Working turns cutoff id =>
      r ← finish_step id r;
      c ← courses (lane r) !! id;
      Some (match c with Done => go_lane (Running turns cutoff) r | _ => r end)
  | Deciding => Some (go_lane (Leaving (finish_completion_thread l)) r)
  | Leaving finishing =>
      if tasks_locked r then None
      else Some (go_lane (if finishing && bool_decide (tasks l = []) then Returned else Sleeping) r)
  | Returned => None
  end.

(** * Handles *)

Inductive handle_action := WaitIt | DropIt | NextSection.

(** [wait] and the destructor of a [CommandOperation], a section at a time. *)
Definition handle_step (id : nat) (a : handle_action) (r : Runtime) : option Runtime :=
  h ← handles (outcomes r) !! id;
  match h, a with
  | Owned, WaitIt => r ← with_result id (handle_call SelectBlocking) r; Some (go_handle id Selecting r)
  | Selecting, NextSection => r ← with_result id (handle_call BeginWait) r; Some (go_handle id WaitingFor r)
  | WaitingFor, NextSection => r ← with_result id (handle_call FinishWait) r; Some (go_handle id Closing_ r)
  | Closing_, NextSection => r ← with_lease id (lease_finish result_leg) r; Some (go_handle id LetGo r)
  | Owned, DropIt => r ← with_lease id (lease_finish result_leg) r; Some (go_handle id Dropping r)
  | Dropping, NextSection => r ← with_result id (handle_call DetachUnselected) r; Some (go_handle id LetGo r)
  | _, _ => None
  end.

(** [ResultHooks::release_admission]. *)
Definition result_hook (k : nat) (r : Runtime) : option Runtime :=
  id ← releasing (outcomes r) !! k;
  r ← with_lease id (lease_finish result_leg) r;
  Some (set_outcomes (set_releasing (delete k (releasing (outcomes r))) (outcomes r)) r).

(** * Observers *)

Inductive watch_action :=
  | EnterDisposition | StartDispatch | StartDiscard | NextDisposition | LeaveDisposition | EnterReady | LeaveReady.

Fixpoint claim_all (fuel : nat) (q : Completions) : Completions * list nat :=
  match fuel with
  | 0 => (q, [])
  | S fuel =>
      match q_claim q with
      | (q, Some (_, id)) => let p := claim_all fuel q in (p.1, id :: p.2)
      | (q, None) => (q, [])
      end
  end.

Definition report_of (o : Observation) : CommandReport :=
  MkReport (seen_command o) (seen_argv o) (if seen_failed o then Some (seen_failure o) else None) (seen_timed o).

Definition go_disposition (d : option Disposition) (r : Runtime) : Runtime := set_watch (set_disposition d (watch r)) r.

Definition watch_step (a : watch_action) (r : Runtime) : option Runtime :=
  let c := control r in let w := watch r in
  let n := active_observer_dispositions c in let m := active_readiness_waiters c in
  match a, disposition w with
  | EnterDisposition, _ => Some (set_control (set_active (S n) m c) r)
  | LeaveDisposition, d =>
      if (match d with Some _ => 1 | None => 0 end <? n)%nat then Some (set_control (set_active (n - 1) m c) r) else None
  | EnterReady, _ => Some (set_control (set_active n (S m) c) r)
  | LeaveReady, _ => if (0 <? m)%nat then Some (set_control (set_active n (m - 1) c) r) else None
  | StartDispatch, None =>
      if (0 <? n)%nat then
        Some (go_disposition (Some (Dispatching (length (q_ready (observers w))) (q_last (observers w)))) r)
      else None
  | StartDiscard, None =>
      if (0 <? n)%nat then
        let p := claim_all (length (q_ready (observers w))) (observers w) in
        Some (go_disposition (Some (Discarding p.2)) (set_watch (set_observers p.1 w) r))
      else None
  | NextDisposition, Some (Dispatching 0 _) => Some (go_disposition None r)
  | NextDisposition, Some (Dispatching (S turns) cutoff) =>
      match q_claim_before cutoff (observers w) with
      | (_, None) => Some (go_disposition None r)
      | (q, Some (_, id)) => Some (go_disposition (Some (Releasing turns cutoff id)) (set_watch (set_observers q w) r))
      end
  | NextDisposition, Some (Releasing turns cutoff id) =>
      r ← with_lease id (lease_finish observer_leg) r; Some (go_disposition (Some (Reporting turns cutoff id)) r)
  | NextDisposition, Some (Reporting turns cutoff id) =>
      o ← observations w !! id; o ← o;
      Some (go_disposition (Some (Dispatching turns cutoff)) (set_watch (log_report (id, report_of o) w) r))
  | NextDisposition, Some (Discarding []) => Some (go_disposition None r)
  | NextDisposition, Some (Discarding (id :: ids)) =>
      r ← with_lease id (lease_finish observer_leg) r; Some (go_disposition (Some (Discarding ids)) r)
  | _, _ => None
  end.

(** * Stopping and closing *)

Definition go_caller (k : nat) (x : Caller) (r : Runtime) : Runtime :=
  set_control (set_callers (<[k := x]> (callers (control r))) (control r)) r.

(** The entry of [close], and again when a closer has failed or is through. *)
Definition enter_close (k : nat) (r : Runtime) : Runtime :=
  match terminal_report (control r) with
  | Some report => go_caller k (ClosedWith report) r
  | None =>
      if close_joining (control r) then go_caller k AwaitingClose r
      else go_caller k (StopLedger true) (set_control (set_terminal true None (control r)) r)
  end.

(** Every task is asked to cancel. *)
Fixpoint cancel_tasks (ids : list nat) (r : Runtime) : option Runtime :=
  match ids with
  | [] => Some r
  | id :: ids => r ← with_transport (HandleRaw id RequestCancel) r; cancel_tasks ids r
  end.

Definition make_report (b : bool) (l : Ledger) (r : Runtime) : Shutdown :=
  let c := control r in
  MkRuntimeShutdown (pending_results l) (pending_observers l) b
    (b && (pending_results l =? 0)%nat && (pending_observers l =? 0)%nat && (active_readiness_waiters c =? 0)%nat &&
     (active_observer_dispositions c =? 0)%nat)
    (lifecycle_failure c).

Inductive caller_action := CallRequestStop | CallClose | Continue.

Definition caller_step (k : nat) (a : caller_action) (r : Runtime) : option Runtime :=
  x ← callers (control r) !! k;
  match x, a with
  | Outside_, CallRequestStop => Some (go_caller k (StopLedger false) r)
  | Outside_, CallClose => Some (enter_close k r)
  | AwaitingClose, Continue =>
      if bool_decide (is_Some (terminal_report (control r))) || negb (close_joining (control r))
      then Some (enter_close k r) else None
  | StopLedger closing, Continue =>
      match submission r with
      | Free => Some (go_caller k (StopTasks closing) (set_books (set_ledger (ledger_stop (ledger (books r))) (books r)) r))
      | _ => None
      end
  | StopTasks closing, Continue =>
      if tasks_locked r then None else r ← cancel_tasks (tasks (lane r)).*1 r; Some (go_caller k (StopEngine closing) r)
  | StopEngine closing, Continue =>
      r ← with_transport StopTransport r; Some (go_caller k (if closing then JoinEngine else StopDone) r)
  | JoinEngine, Continue =>
      b ← stopped (transport (lane r));
      Some (go_caller k (FinishLane b) (if (b : bool) then r else store_lifecycle_failure unretired_failure r))
  | FinishLane b, Continue => Some (go_caller k (JoinLane b) (set_lane (set_wake true true (lane r)) r))
  | JoinLane b, Continue =>
      match lane_at (lane r) with Returned => Some (go_caller k (FinishObservers b) r) | _ => None end
  | FinishObservers b, Continue => Some (go_caller k (AwaitReaders b) (queue_observer Finish r).1)
  | AwaitReaders b, Continue =>
      if (active_readiness_waiters (control r) =? 0)%nat then Some (go_caller k (ReadLedger b) r) else None
  | ReadLedger b, Continue => Some (go_caller k (MakeReport b (ledger (books r))) r)
  | MakeReport b l, Continue =>
      let report := make_report b l r in
      Some (go_caller k (ClosedWith report) (set_control (set_terminal false (Some report) (control r)) r))
  | _, _ => None
  end.

(** * Everything *)

Inductive runtime_action :=
  | Submit (checked : expected CommandFailure Captured)
  | Cancel_ (id : nat)
  | EngineActs (a : transport_action)
  | PublicationQueues (k : nat)
  | HookNotifies
  | LaneActs
  | HandleActs (id : nat) (a : handle_action)
  | ResultHook (k : nat)
  | WatchActs (a : watch_action)
  | CallerActs (k : nat) (a : caller_action).

Definition runtime_step (a : runtime_action) (r : Runtime) : option Runtime :=
  match a with
  | Submit checked => submission_step checked r
  | Cancel_ id =>
      h ← handles (outcomes r) !! id;
      match h with Unreturned => None | _ => with_transport (HandleRaw id RequestCancel) r end
  | EngineActs a => engine_step a r
  | PublicationQueues k => publication_queues k r
  | HookNotifies => hook_notifies r
  | LaneActs => lane_step r
  | HandleActs id a => handle_step id a r
  | ResultHook k => result_hook k r
  | WatchActs a => watch_step a r
  | CallerActs k a => caller_step k a r
  end.

Inductive reachable (capacity callers : nat) : Runtime -> Prop :=
  | reachable_start_runtime : reachable capacity callers (start_runtime capacity callers)
  | reachable_runtime_step a r r' : reachable capacity callers r -> runtime_step a r = Some r' -> reachable capacity callers r'.
