(* ===== verification/RuntimeBooks.v ===== *)
(** The runtime's ledger and its handles: what the counters of Runtime count.

    [books_ok]: every counter of the ledger is the number of leases that owe what it counts,
    and the leases in flight are within the capacity.  [results_ok]: where a caller's handle is
    decides what its result's state is and whether the result's leg of the lease is finished. *)

From S2P Require Import Prelude Command Redaction Process Endpoint Commands Backend Wake CompletionQueue OperationState Operations Transport Runtime.

(** * The ledger *)

Definition in_flight_of (x : Lease) : nat := b2n (negb (lease_released x)).
Definition result_of (x : Lease) : nat := b2n (negb (result_finished x)).
Definition observer_of (x : Lease) : nat := b2n (negb (observer_done x)).
Definition completed_of (x : Lease) : nat := b2n (lease_completed x).

Definition lease_ok (x : Lease) : Prop :=
  admitted x = true /\ lease_released x = transport_finished x && result_finished x && observer_done x.

(** A submission that has passed the check of the ledger. *)
Definition has_room (s : Submission) : bool :=
  match s with Roomy _ | Admissible _ _ | Registered _ _ => true | _ => false end.

Record books_ok (limit : nat) (b : Books) (s : Submission) : Prop := {
  bo_capacity : capacity (ledger b) = limit;
  bo_flight : in_flight (ledger b) = sum_list_with in_flight_of (leases b);
  bo_results : pending_results (ledger b) = sum_list_with result_of (leases b);
  bo_observers : pending_observers (ledger b) = sum_list_with observer_of (leases b);
  bo_accepted : accepted_total (ledger b) = length (leases b);
  bo_completed : completed_total (ledger b) = sum_list_with completed_of (leases b);
  bo_leases : Forall lease_ok (leases b);
  bo_bound : in_flight (ledger b) <= limit;
  bo_room : has_room s = true -> in_flight (ledger b) < limit;
  bo_free : accepting (ledger b) = false -> s = Free;
}.

(** What a change of one lease owes the ledger. *)
Record accounted (p q : Ledger * Lease) : Prop := {
  ac_flight : in_flight q.1 + in_flight_of p.2 = in_flight p.1 + in_flight_of q.2;
  ac_results : pending_results q.1 + result_of p.2 = pending_results p.1 + result_of q.2;
  ac_observers : pending_observers q.1 + observer_of p.2 = pending_observers p.1 + observer_of q.2;
  ac_completed : completed_total q.1 + completed_of p.2 = completed_total p.1 + completed_of q.2;
  ac_same : capacity q.1 = capacity p.1 /\ accepted_total q.1 = accepted_total p.1 /\ accepting q.1 = accepting p.1 /\
    refused_total q.1 = refused_total p.1;
  ac_lease : lease_ok q.2;
  ac_less : in_flight_of q.2 <= in_flight_of p.2;
}.

(** The ledger covers what a lease owes. *)
Definition covers (p : Ledger * Lease) : Prop :=
  in_flight_of p.2 <= in_flight p.1 /\ result_of p.2 <= pending_results p.1 /\ observer_of p.2 <= pending_observers p.1.

Lemma lease_finish_accounted leg l x : covers (l, x) -> lease_ok x -> accounted (l, x) (lease_finish leg (l, x)).
Proof.
  destruct l, x as [[] [] [] [] [] []]; unfold covers, lease_ok, in_flight_of, result_of, observer_of; cbn; intros (H1 & H2 & H3) [Ha Hr];
    try discriminate; destruct leg; cbn; split; unfold in_flight_of, result_of, observer_of, completed_of, lease_ok; cbn; try done; lia.
Qed.

Lemma lease_complete_accounted l x : lease_ok x -> accounted (l, x) (lease_complete (l, x)).
Proof.
  destruct l, x as [[] [] [] [] [] []]; unfold lease_ok; cbn; intros [Ha Hr]; try discriminate; cbn; split;
    unfold in_flight_of, result_of, observer_of, completed_of, lease_ok; cbn; try done; lia.
Qed.

Lemma sum_covers {X} (f : X -> nat) (l : list X) k x : l !! k = Some x -> f x <= sum_list_with f l.
Proof. revert k. induction l as [|y l IH]; intros [|k] H; try done; cbn in *; [injection H as ->; lia|]. specialize (IH k H). lia. Qed.

Lemma books_covered limit b s id x : books_ok limit b s -> leases b !! id = Some x -> covers (ledger b, x) /\ lease_ok x.
Proof.
  intros [] H. split; [|by eapply Forall_lookup_1 in bo_leases0]. unfold covers. cbn.
  rewrite bo_flight0, bo_results0, bo_observers0. split_and!; by eapply sum_covers.
Qed.

Lemma books_change limit b s id x q :
  books_ok limit b s -> leases b !! id = Some x -> accounted (ledger b, x) q ->
  books_ok limit (MkBooks q.1 (<[id := q.2]> (leases b))) s.
Proof.
  intros [] Hid [? ? ? ? (E1 & E2 & E3 & _) ? ?]. cbn in *.
  pose proof (fun f => sum_insert f (leases b) id x q.2 Hid) as Hsum.
  pose proof (Hsum in_flight_of). pose proof (Hsum result_of). pose proof (Hsum observer_of). pose proof (Hsum completed_of).
  split; cbn; rewrite ?length_insert; try congruence; try lia.
  - by apply Forall_insert.
  - intros Hs. specialize (bo_room0 Hs). lia.
  - by rewrite E3.
Qed.

Lemma with_lease_Some id f r r' : with_lease id f r = Some r' -> exists x,
  leases (books r) !! id = Some x /\
  r' = set_books (MkBooks (f (ledger (books r), x)).1 (<[id := (f (ledger (books r), x)).2]> (leases (books r)))) r.
Proof. unfold with_lease. intros H. inv_binds. eauto. Qed.

(** A change of a lease, in the whole runtime. *)
Definition lease_change (f : Ledger * Lease -> Ledger * Lease) : Prop :=
  forall l x, covers (l, x) -> lease_ok x -> accounted (l, x) (f (l, x)).

Lemma finish_change leg : lease_change (lease_finish leg).
Proof. intros l x. apply lease_finish_accounted. Qed.
Lemma complete_change : lease_change lease_complete.
Proof. intros l x _. apply lease_complete_accounted. Qed.

Lemma with_lease_books limit id f r r' s :
  lease_change f -> books_ok limit (books r) s -> with_lease id f r = Some r' -> books_ok limit (books r') s.
Proof.
  intros Hf Hb (x & Hx & ->)%with_lease_Some. destruct (books_covered _ _ _ _ _ Hb Hx) as [Hc Hl].
  eapply books_change; [done..|]. by apply Hf.
Qed.

Lemma books_room limit b s s' : books_ok limit b s -> (has_room s' = true -> has_room s = true) ->
  (accepting (ledger b) = false -> s' = Free) -> books_ok limit b s'.
Proof. intros [] H1 H2. split; auto. Qed.

Lemma books_refuse limit b s : books_ok limit b s -> books_ok limit (set_ledger (ledger_refuse (ledger b)) b) Free.
Proof. intros []. by split. Qed.

Lemma books_stop limit b : books_ok limit b Free -> books_ok limit (set_ledger (ledger_stop (ledger b)) b) Free.
Proof. intros []. by split. Qed.

Lemma books_admit limit b s n has_observer :
  books_ok limit b s -> has_room s = true ->
  let p := lease_admit has_observer (ledger b, new_lease) in books_ok limit (MkBooks p.1 (leases b ++ [p.2])) (Opening n).
Proof.
  intros [] Hs. specialize (bo_room0 Hs). split; cbn; rewrite ?sum_list_with_app, ?length_app; cbn; try lia; try done.
  - destruct has_observer; cbn; lia.
  - apply Forall_app. split; [done|]. apply Forall_singleton. by split.
  - intros Ha. rewrite (bo_free0 Ha) in Hs. done.
Qed.

(** * Steps taken apart *)

Definition left_to_queue (a : transport_action) (es : list effect) : list (nat * N) :=
  match a with
  | PublishRaw id _ => omap (fun e => match e with EnqueueObserver t => Some (id, t) | _ => None end) es
  | _ => []
  end.

Lemma with_transport_Some a r r' : with_transport a r = Some r' -> exists p,
  transport_step a (transport (lane r)) = Some p /\
  r' = set_lane (set_transport p.1 (enqueuing (lane r) ++ left_to_queue a p.2) (lane r)) r.
Proof. unfold with_transport. intros H. inv_binds. eauto. Qed.

Lemma with_result_Some id f r r' : with_result id f r = Some r' -> exists st p,
  results (outcomes r) !! id = Some st /\ f st = Some p /\
  r' = set_outcomes (set_releasing (releasing (outcomes r) ++ (if (0 <? count is_release p.2)%nat then [id] else []))
          (set_results (<[id := p.1]> (results (outcomes r))) (outcomes r))) r.
Proof. unfold with_result. intros H. inv_binds. eauto 6. Qed.

(** The parts of a runtime that a step leaves alone. *)
Lemma cancel_tasks_frame ids r r' : cancel_tasks ids r = Some r' ->
  exists t, r' = set_lane (set_transport t (enqueuing (lane r)) (lane r)) r.
Proof.
  revert r. induction ids as [|id ids IH]; cbn [cancel_tasks]; intros r H.
  - injection H as <-. exists (transport (lane r)). by destruct r as [? ? []].
  - apply bind_Some_inv in H as (r1 & (p & _ & ->)%with_transport_Some & (t & ->)%IH). cbn. rewrite app_nil_r. by exists t.
Qed.

Lemma store_frame f r : exists c, store_lifecycle_failure f r = set_control c r.
Proof. unfold store_lifecycle_failure. case_match; [exists (control r); by destruct r|by eexists]. Qed.

Lemma erase_frame id r : exists q l, erase_task id r = set_lane (set_completions q (set_tasks l (lane r))) r.
Proof.
  unfold erase_task. generalize (filter (fun t => t.1 <> id) (tasks (lane r))). intros l.
  assert (forall (gone : list (nat * N)) q, exists q', fold_left (fun r t => (queue_completion (Detach t.2) r).1) gone
    (set_lane (set_completions q (set_tasks l (lane r))) r) = set_lane (set_completions q' (set_tasks l (lane r))) r) as H.
  { induction gone as [|t gone IH]; intros q; cbn; [by eexists|]. eapply IH. }
  destruct (H (filter (fun t => t.1 = id) (tasks (lane r))) (completions (lane r))) as [q E].
  exists q, l. etrans; [|exact E]. f_equal.
Qed.

(** An equation between successes, nothing simplified. *)
Ltac got H := apply (inj Some) in H; subst.

(** Take a step apart into what it read and what it wrote. *)
Ltac take_apart :=
  repeat match goal with
    | H : _ ≫= _ = Some _ |- _ => apply bind_Some_inv in H as (? & ? & H)
    | H : with_transport _ _ = Some _ |- _ => apply with_transport_Some in H as (? & ? & ->)
    | H : with_lease _ _ _ = Some _ |- _ => apply with_lease_Some in H as (? & ? & ->)
    | H : with_result _ _ _ = Some _ |- _ => apply with_result_Some in H as (? & ? & ? & ? & ->)
    | H : cancel_tasks _ _ = Some _ |- _ => apply cancel_tasks_frame in H as (? & ->)
    | H : Some _ = Some _ |- _ => got H
    | H : None = Some _ |- _ => discriminate H
    end.

(** The ledger through a step of the completion thread's callback. *)
Lemma finish_step_books limit id r r' : books_ok limit (books r) (submission r) -> finish_step id r = Some r' ->
  books_ok limit (books r') (submission r') /\ submission r' = submission r.
Proof.
  intros Hb H. unfold finish_step in H. apply bind_Some_inv in H as (c & _ & H). destruct c; try discriminate H.
  - by take_apart.
  - by take_apart.
  - by take_apart.
  - apply bind_Some_inv in H as (tok & _ & H). destruct tok as [t|]; got H; [|done].
    destruct (queue_observer (Enqueue t) r).2; [done|]. destruct (store_frame unqueued_failure (queue_observer (Enqueue t) r).1) as [c ->]. done.
  - apply bind_Some_inv in H as (r1 & H1 & H). got H. destruct fine; [|by got H1].
    pose proof H1 as (x & _ & E)%with_lease_Some. apply (with_lease_books limit) with (s := submission r) in H1; [|apply complete_change|done].
    subst r1. done.
  - destruct (tasks_locked r); [done|]. got H. by destruct (erase_frame id r) as (q & l & ->).
  - by got H.
Qed.

(** Steps that leave the ledger and the submission alone. *)
Lemma lane_books limit r r' : books_ok limit (books r) (submission r) -> lane_step r = Some r' ->
  books_ok limit (books r') (submission r') /\ submission r' = submission r.
Proof.
  intros Hb H. unfold lane_step in H. destruct (lane_at (lane r)) as [| |[|turns] cutoff|turns cutoff id| |b|].
  - destruct (_ || _); [|done]. by got H.
  - by got H.
  - by got H.
  - destruct (q_claim_before _ _) as [q [[t id]|]]; by got H.
  - apply bind_Some_inv in H as (r1 & H1 & H). apply (finish_step_books limit) in H1 as [H1 E]; [|done]. apply bind_Some_inv in H as (c & _ & H). got H.
    rewrite <-E. by destruct c.
  - by got H.
  - destruct (tasks_locked r); [done|]. by got H.
  - done.
Qed.

Lemma refuse_books limit f r : books_ok limit (books r) (submission r) -> books_ok limit (books (refuse f r)) (submission (refuse f r)).
Proof. intros H. by eapply books_refuse. Qed.

(** A submission goes on, neither admitted nor refused. *)
Lemma submission_moves limit r s : books_ok limit (books r) (submission r) -> accepting (ledger (books r)) = true ->
  (has_room s = true -> has_room (submission r) = true) -> books_ok limit (books r) s.
Proof. intros H Ha Hs. eapply books_room; [done..|]. congruence. Qed.

Lemma submission_books limit checked r r' : books_ok limit (books r) (submission r) -> submission_step checked r = Some r' ->
  books_ok limit (books r') (submission r').
Proof.
  intros Hb H. destruct (accepting (ledger (books r))) eqn:Ea.
  2: { pose proof (bo_free _ _ _ Hb Ea) as Es. unfold submission_step in H. rewrite Es, Ea in H. got H. by apply refuse_books. }
  unfold submission_step in H. destruct (submission r) eqn:Es; rewrite <-Es in Hb.
  - rewrite Ea in H. destruct checked as [c|f]; got H; [|by apply refuse_books]. apply (submission_moves limit r); [done|done|by rewrite ?Es].
  - got H. destruct (ledger_full (ledger (books r))) eqn:Ef; [by apply refuse_books|]. cbn. destruct Hb. split; try done; [|congruence].
    intros _. unfold ledger_full in Ef. apply Nat.leb_gt in Ef. lia.
  - destruct (observed_as c); got H; (apply (submission_moves limit r); [done|done|by rewrite ?Es]).
  - destruct token as [t|]; got H; [|apply (submission_moves limit r); [done|done|by rewrite ?Es]].
    destruct (queue_observer (Register t (next_task r)) r).2.
    + apply (submission_moves limit r); [done|done|by rewrite ?Es].
    + by apply refuse_books.
  - got H. apply (books_admit limit (books r) (submission r)); [done|]. by rewrite Es.
  - take_apart. by apply (submission_moves limit r).
  - take_apart. by apply (submission_moves limit r).
  - got H. by apply (submission_moves limit r).
  - take_apart. by apply (submission_moves limit r).
  - destruct (queue_completion (Register token id) r).2; [|done]. got H. by apply (submission_moves limit r).
  - take_apart. apply (submission_moves limit r); [done|done|]. by case_match.
  - got H. by apply (submission_moves limit r).
  - got H. by apply (submission_moves limit r).
  - got H. by apply (submission_moves limit r).
Qed.

Lemma watch_books limit a r r' : books_ok limit (books r) (submission r) -> watch_step a r = Some r' ->
  books_ok limit (books r') (submission r') /\ submission r' = submission r.
Proof.
  intros Hb H. unfold watch_step in H. destruct a; try (got H; by split);
    try (destruct (_ <? _)%nat; [|done]; got H; by split).
  - destruct (disposition (watch r)); [done|]. destruct (_ <? _)%nat; [|done]. by got H.
  - destruct (disposition (watch r)); [done|]. destruct (_ <? _)%nat; [|done]. by got H.
  - destruct (disposition (watch r)) as [[[|turns] cutoff|turns cutoff id|turns cutoff id|[|id ids]]|]; try done.
    + by got H.
    + destruct (q_claim_before _ _) as [q [[t id]|]]; by got H.
    + apply bind_Some_inv in H as (r1 & H1 & H). got H. pose proof H1 as (x & _ & E)%with_lease_Some.
      apply (with_lease_books limit) with (s := submission r) in H1; [|apply finish_change|done]. by subst r1.
    + take_apart. done.
    + by got H.
    + apply bind_Some_inv in H as (r1 & H1 & H). got H. pose proof H1 as (x & _ & E)%with_lease_Some.
      apply (with_lease_books limit) with (s := submission r) in H1; [|apply finish_change|done]. by subst r1.
Qed.

Lemma handle_books limit id a r r' : books_ok limit (books r) (submission r) -> handle_step id a r = Some r' ->
  books_ok limit (books r') (submission r') /\ submission r' = submission r.
Proof.
  intros Hb H. unfold handle_step in H. apply bind_Some_inv in H as (h & _ & H). destruct h, a; try discriminate H;
    try (take_apart; done); apply bind_Some_inv in H as (r1 & H1 & H); got H; pose proof H1 as (x & _ & E)%with_lease_Some;
    (apply (with_lease_books limit) with (s := submission r) in H1; [|apply finish_change|done]); by subst r1.
Qed.

Lemma engine_books limit a r r' : books_ok limit (books r) (submission r) -> engine_step a r = Some r' ->
  books_ok limit (books r') (submission r') /\ submission r' = submission r.
Proof.
  intros Hb H. unfold engine_step in H. destruct a; try discriminate H; try (case_bool_decide; [done|]); try (take_apart; done).
  apply bind_Some_inv in H as (r1 & (p & _ & ->)%with_transport_Some & H). apply bind_Some_inv in H as (r2 & H2 & H). got H.
  pose proof H2 as (x & _ & E)%with_lease_Some.
  apply (with_lease_books limit) with (s := submission r) in H2; [|apply finish_change|done]. by subst r2.
Qed.

Lemma enter_books k r : books (enter_close k r) = books r /\ submission (enter_close k r) = submission r.
Proof. unfold enter_close. by repeat case_match. Qed.

Lemma caller_books limit k a r r' : books_ok limit (books r) (submission r) -> caller_step k a r = Some r' ->
  books_ok limit (books r') (submission r').
Proof.
  intros Hb H. unfold caller_step in H. apply bind_Some_inv in H as (x & _ & H). destruct x, a; try discriminate H;
    try (got H; destruct (enter_books k r) as [-> ->]; done); try (by got H).
  - destruct (submission r) eqn:Es; try discriminate H. got H. cbn. rewrite Es. by apply books_stop.
  - destruct (tasks_locked r); [done|]. by take_apart.
  - destruct (_ || _); [|done]. got H. by destruct (enter_books k r) as [-> ->].
  - apply bind_Some_inv in H as (b & _ & H). got H. destruct b; [done|]. by destruct (store_frame unretired_failure r) as [c ->].
  - destruct (lane_at (lane r)); try discriminate H. by got H.
  - destruct (_ =? _)%nat; [|done]. by got H.
Qed.

Lemma runtime_books limit a r r' : books_ok limit (books r) (submission r) -> runtime_step a r = Some r' ->
  books_ok limit (books r') (submission r').
Proof.
  intros Hb H. destruct a; cbn [runtime_step] in H.
  - by eapply submission_books.
  - apply bind_Some_inv in H as (h & _ & H). destruct h; try discriminate H; by take_apart.
  - by eapply engine_books.
  - unfold publication_queues in H. by take_apart.
  - unfold hook_notifies in H. destruct (notifying (lane r)); [done|]. by got H.
  - by eapply lane_books.
  - by eapply handle_books.
  - unfold result_hook in H. apply bind_Some_inv in H as (id & _ & H). apply bind_Some_inv in H as (r1 & H1 & H). got H.
    pose proof H1 as (x & _ & E)%with_lease_Some.
    apply (with_lease_books limit) with (s := submission r) in H1; [|apply finish_change|done]. by subst r1.
  - by eapply watch_books.
  - by eapply caller_books.
Qed.

(** * Handles *)

Definition handle_fits (h : HandleAt) (st : TextOperation) (finished : bool) : Prop :=
  match h with
  | Unreturned | Owned => observer st = unselected /\ finished = false
  | Selecting => observer st = blocking /\ finished = false
  | WaitingFor => observer st = blocking_waiting /\ finished = false
  | Closing_ => observer st = delivered
  | Dropping => observer st = unselected /\ finished = true
  | LetGo => observer_finished st = true /\ finished = true
  end.

Record results_ok (o : Results) (ls : list Lease) : Prop := {
  rs_results : length (results o) = length ls;
  rs_handles : length (handles o) = length ls;
  rs_states : Forall state_ok (results o);
  rs_fits : forall id st h x, results o !! id = Some st -> handles o !! id = Some h -> ls !! id = Some x ->
    handle_fits h st (result_finished x);
  rs_releasing : forall id, id ∈ releasing o -> exists h, handles o !! id = Some h /\ (h = Closing_ \/ h = LetGo);
}.

Lemma release_finishes (st st' : TextOperation) es : section_ok st st' es -> (0 <? count is_release es)%nat = true -> observer_finished st' = true.
Proof.
  intros [[_ Hr _ _ _] Hc _ _] Hlt%Nat.ltb_lt. destruct (admission_released st'); [|cbn in Hc; lia].
  symmetry in Hr. by apply andb_true_iff in Hr as [_ ?].
Qed.

(** The handle and the result of one command change together. *)
Lemma results_change o ls id h st h' (p : TextOperation * list effect) x :
  results_ok o ls -> results o !! id = Some st -> handles o !! id = Some h -> ls !! id = Some x -> section_ok st p.1 p.2 ->
  handle_fits h' p.1 (result_finished x) -> (observer_finished p.1 = true -> h' = Closing_ \/ h' = LetGo) ->
  ((h = Closing_ \/ h = LetGo) -> (h' = Closing_ \/ h' = LetGo)) ->
  results_ok (MkResults (<[id := p.1]> (results o)) (<[id := h']> (handles o))
    (releasing o ++ (if (0 <? count is_release p.2)%nat then [id] else []))) ls.
Proof.
  intros [] Hst Hh Hx Hs Hfit Hfin Hkeep. split; cbn -[Nat.ltb count]; rewrite ?length_insert; try done.
  - apply Forall_insert; [done|]. by destruct Hs.
  - intros k st1 h1 x1 H1 H2 H3. apply list_lookup_insert_Some in H1 as [(-> & <- & _)|[Hn H1]].
    + apply list_lookup_insert_Some in H2 as [(_ & <- & _)|[? _]]; [|done]. rewrite Hx in H3. by injection H3 as <-.
    + apply list_lookup_insert_Some in H2 as [(-> & _ & _)|[_ H2]]; [done|]. eauto.
  - assert (id < length (handles o)) as Hlt by by eapply lookup_lt_Some. intros k [Hk|Hk]%elem_of_app.
    + destruct (rs_releasing0 k Hk) as (h1 & E & Hc). destruct (decide (k = id)) as [->|Hn].
      * rewrite list_lookup_insert_eq by done. rewrite Hh in E. injection E as <-. eauto.
      * rewrite list_lookup_insert_ne by done. eauto.
    + destruct (0 <? count is_release p.2)%nat eqn:Er; [|by apply elem_of_nil in Hk]. apply list_elem_of_singleton in Hk as ->.
      rewrite list_lookup_insert_eq by done. eexists. split; [done|]. apply Hfin. by eapply release_finishes.
Qed.

Lemma handle_fits_same (st st' : TextOperation) h b : observer st' = observer st -> handle_fits h st b -> handle_fits h st' b.
Proof. intros E. unfold handle_fits, observer_finished. by rewrite E. Qed.

(** A section of the source leaves the handle where it is. *)
Lemma results_source o ls id st (p : TextOperation * list effect) :
  results_ok o ls -> results o !! id = Some st -> section_ok st p.1 p.2 -> observer p.1 = observer st ->
  results_ok (MkResults (<[id := p.1]> (results o)) (handles o)
    (releasing o ++ (if (0 <? count is_release p.2)%nat then [id] else []))) ls.
Proof.
  intros Hr Hst Hs Ho. pose proof Hr as []. assert (id < length ls) as Hlt by (rewrite <-rs_results0; by eapply lookup_lt_Some).
  destruct (lookup_lt_is_Some_2 ls id Hlt) as [x Hx]. rewrite <-rs_handles0 in Hlt. destruct (lookup_lt_is_Some_2 _ id Hlt) as [h Hh].
  replace (handles o) with (<[id := h]> (handles o)) by by apply list_insert_id.
  pose proof (rs_fits0 id st h x Hst Hh Hx) as Hf. eapply results_change; try done; [by eapply handle_fits_same|].
  unfold observer_finished. rewrite Ho. intros Hfin.
  destruct h; cbn in Hf; try (destruct Hf as [Hf _]; rewrite Hf in Hfin; done); auto.
Qed.

Lemma results_leases o ls id x x' :
  results_ok o ls -> ls !! id = Some x -> result_finished x' = result_finished x -> results_ok o (<[id := x']> ls).
Proof.
  intros [] Hx E. split; rewrite ?length_insert; try done. intros k st h y H1 H2 [(-> & <- & _)|[_ H3]]%list_lookup_insert_Some; [rewrite E|]; eauto.
Qed.

(** The result's leg is finished, by the handle that lets go or by the hook of one that has. *)
Lemma results_finish o ls id x x' h h' :
  results_ok o ls -> ls !! id = Some x -> handles o !! id = Some h -> result_finished x' = true ->
  (h = Owned /\ h' = Dropping \/ h = Closing_ /\ (h' = LetGo \/ h' = Closing_) \/ h = LetGo /\ h' = LetGo) ->
  results_ok (set_handles (<[id := h']> (handles o)) o) (<[id := x']> ls).
Proof.
  intros [] Hx Hh E Hor. split; cbn; rewrite ?length_insert; try done.
  - intros k st h1 y H1 H2 H3. apply list_lookup_insert_Some in H2 as [(-> & <- & _)|[Hn H2]].
    + apply list_lookup_insert_Some in H3 as [(_ & <- & _)|[? _]]; [|done]. rewrite E. specialize (rs_fits0 k st h x H1 Hh Hx).
      destruct Hor as [[-> ->]|[[-> [-> | ->]]|[-> ->]]]; cbn in *; destruct_and?; try done. split; [|done].
      unfold observer_finished. by rewrite rs_fits0, orb_true_r.
    + apply list_lookup_insert_Some in H3 as [(-> & _ & _)|[_ H3]]; [done|]. eauto.
  - intros k Hk. destruct (rs_releasing0 k Hk) as (h1 & E1 & Hc). destruct (decide (k = id)) as [->|Hn].
    + rewrite list_lookup_insert_eq by by eapply lookup_lt_Some. rewrite Hh in E1. injection E1 as <-. eexists. split; [done|].
      destruct Hor as [[-> ->]|[[-> [-> | ->]]|[-> ->]]], Hc; auto; discriminate.
    + rewrite list_lookup_insert_ne by done. eauto.
Qed.

Lemma finish_leg_result leg l x : result_finished (lease_finish leg (l, x)).2 =
  match leg with result_leg => if admitted x then true else result_finished x | _ => result_finished x end.
Proof. destruct leg, x as [[] [] [] [] [] []]; reflexivity. Qed.

Lemma complete_result l x : result_finished (lease_complete (l, x)).2 = result_finished x.
Proof. destruct x as [[] [] [] [] [] []]; reflexivity. Qed.

(** Handles and results in the whole runtime. *)
Definition handled (r : Runtime) : Prop := results_ok (outcomes r) (leases (books r)).

Lemma with_lease_handled id f r r' :
  (forall l x, result_finished (f (l, x)).2 = result_finished x) -> handled r -> with_lease id f r = Some r' ->
  handled r' /\ outcomes r' = outcomes r.
Proof. intros Hf Hr (x & Hx & ->)%with_lease_Some. split; [|done]. by eapply results_leases. Qed.

Lemma new_task_handled c token r : handled r -> handled (new_task c token r).
Proof.
  intros []. split; cbn; rewrite ?length_app; cbn; rewrite ?rs_results0, ?rs_handles0; try done.
  - apply Forall_app. split; [done|]. apply Forall_singleton. by split.
  - intros id st h x H1 H2 H3.
    destruct (decide (id < length (leases (books r)))) as [Hlt|Hge].
    + rewrite lookup_app_l in H1 by lia. rewrite lookup_app_l in H2 by lia. rewrite lookup_app_l in H3 by lia. exact (rs_fits0 id st h x H1 H2 H3).
    + rewrite lookup_app_r in H1 by lia. rewrite lookup_app_r in H2 by lia. rewrite lookup_app_r in H3 by lia.
      apply list_lookup_singleton_Some in H1 as [_ <-], H2 as [_ <-], H3 as [_ <-]. done.
  - intros id Hid. destruct (rs_releasing0 id Hid) as (h & E & Hc). exists h. split; [|done]. by apply lookup_app_l_Some.
Qed.

Lemma finish_step_handled id r r' : handled r -> finish_step id r = Some r' -> handled r'.
Proof.
  intros Hr H. unfold finish_step in H. apply bind_Some_inv in H as (c & _ & H). destruct c; try discriminate H.
  - by take_apart.
  - apply bind_Some_inv in H as (o & _ & H). apply bind_Some_inv in H as (r1 & (st & p & Hst & Hp & ->)%with_result_Some & H). got H.
    assert (state_ok st) as Hok by by eapply Forall_lookup_1; [apply (rs_states _ _ Hr)|].
    destruct (publish_section_ok answer st Hok) as (p' & E & Hs & _ & _). rewrite Hp in E. injection E as <-.
    eapply (results_source (outcomes r)); try done. unfold publish_section in Hp. injection Hp as <-. unfold publish. by destruct (outcome st).
  - apply bind_Some_inv in H as (r1 & (st & p & Hst & Hp & ->)%with_result_Some & H). got H.
    assert (state_ok st) as Hok by by eapply Forall_lookup_1; [apply (rs_states _ _ Hr)|].
    destruct (retire_ok st Hok) as (st' & es & E & [Hs _] & _ & Ho & _). rewrite Hp in E. injection E as ->.
    by eapply (results_source (outcomes r) _ _ _ (st', es)).
  - apply bind_Some_inv in H as (tok & _ & H). destruct tok as [t|]; got H; [|done].
    destruct (queue_observer (Enqueue t) r).2; [done|]. destruct (store_frame unqueued_failure (queue_observer (Enqueue t) r).1) as [c ->]. done.
  - apply bind_Some_inv in H as (r1 & H1 & H). got H. destruct fine; [|by got H1].
    apply with_lease_handled in H1 as [H1 _]; [done| |done]. apply complete_result.
  - destruct (tasks_locked r); [done|]. got H. by destruct (erase_frame id r) as (q & l & ->).
  - by got H.
Qed.

Lemma lane_handled r r' : handled r -> lane_step r = Some r' -> handled r'.
Proof.
  intros Hr H. unfold lane_step in H. destruct (lane_at (lane r)) as [| |[|turns] cutoff|turns cutoff id| |b|].
  - destruct (_ || _); [|done]. by got H.
  - by got H.
  - by got H.
  - destruct (q_claim_before _ _) as [q [[t id]|]]; by got H.
  - apply bind_Some_inv in H as (r1 & H1%finish_step_handled & H); [|done]. apply bind_Some_inv in H as (c & _ & H). got H. by destruct c.
  - by got H.
  - destruct (tasks_locked r); [done|]. by got H.
  - done.
Qed.

Lemma handle_observer c (st : TextOperation) (p : TextOperation * list effect) :
  handle_call c st = Some p -> match c with
  | SelectBlocking => observer p.1 = blocking
  | BeginWait => observer p.1 = blocking_waiting
  | FinishWait => observer p.1 = delivered
  | DetachUnselected => observer st = unselected -> observer p.1 = detached
  | _ => True
  end.
Proof.
  assert (forall s : TextOperation, observer (release_hook_locked s).1 = observer s) as Hrel.
  { intros s. unfold release_hook_locked. by case_match. }
  destruct c; cbn; try done; unfold select_blocking, begin_wait, finish_wait; intros H; inv_binds; cbn; try done; try by rewrite Hrel.
  intros Ho. unfold detach_unselected. rewrite bool_decide_true by done. by rewrite Hrel.
Qed.

Lemma handle_handled id a r r' : (forall x, x ∈ leases (books r) -> admitted x = true) -> handled r -> handle_step id a r = Some r' -> handled r'.
Proof.
  intros Had Hr H. unfold handle_step in H. apply bind_Some_inv in H as (h & Hh & H).
  assert (forall c h', (h, h') ∈ [(Owned, Selecting); (Selecting, WaitingFor); (WaitingFor, Closing_); (Dropping, LetGo)] ->
    (forall st (p : TextOperation * list effect) b, handle_call c st = Some p -> handle_fits h st b -> handle_fits h' p.1 b) ->
    (r ← with_result id (handle_call c) r; Some (go_handle id h' r)) = Some r' -> handled r') as Hcall.
  { intros c h' Hin Hfit E. apply bind_Some_inv in E as (r1 & (st & p & Hst & Hp & ->)%with_result_Some & E). got E.
    pose proof Hr as []. assert (id < length (leases (books r))) as Hlt by (rewrite <-rs_handles0; by eapply lookup_lt_Some).
    destruct (lookup_lt_is_Some_2 _ _ Hlt) as [x Hx]. pose proof (rs_fits0 id st h x Hst Hh Hx) as Hf.
    specialize (Hfit st p _ Hp Hf).
    assert (state_ok st) as Hok by by eapply Forall_lookup_1; [apply (rs_states _ _ Hr)|].
    pose proof (handle_section_ok c st p Hok Hp) as Hs. eapply (results_change (outcomes r)); try done.
    - repeat (apply elem_of_cons in Hin as [[= -> ->]|Hin]); [..|by apply elem_of_nil in Hin]; cbn in Hfit; auto;
        destruct Hfit as [E _]; unfold observer_finished; by rewrite E.
    - repeat (apply elem_of_cons in Hin as [[= -> ->]|Hin]); [..|by apply elem_of_nil in Hin]; intros []; auto; discriminate. }
  assert (forall h', (h = Owned /\ h' = Dropping \/ h = Closing_ /\ (h' = LetGo \/ h' = Closing_) \/ h = LetGo /\ h' = LetGo) ->
    (r ← with_lease id (lease_finish result_leg) r; Some (go_handle id h' r)) = Some r' -> handled r') as Hfinish.
  { intros h' Hor E. apply bind_Some_inv in E as (r1 & (x & Hx & ->)%with_lease_Some & E). got E.
    eapply (results_finish (outcomes r)); try done. rewrite finish_leg_result, Had; [done|]. by eapply list_elem_of_lookup_2. }
  destruct h, a; try discriminate H.
  - apply (Hcall SelectBlocking Selecting); [set_solver| |done]. intros st p b Hp [_ ->]. by split; [apply (handle_observer _ _ _ Hp)|].
  - apply (Hfinish Dropping); [auto|done].
  - apply (Hcall BeginWait WaitingFor); [set_solver| |done]. intros st p b Hp [_ ->]. by split; [apply (handle_observer _ _ _ Hp)|].
  - apply (Hcall FinishWait Closing_); [set_solver| |done]. intros st p b Hp _. apply (handle_observer _ _ _ Hp).
  - apply (Hfinish LetGo); [auto|done].
  - apply (Hcall DetachUnselected LetGo); [set_solver| |done]. intros st p b Hp [Ho ->]. split; [|done].
    unfold observer_finished. by rewrite (handle_observer _ _ _ Hp Ho).
Qed.

Lemma hook_handled k r r' : (forall x, x ∈ leases (books r) -> admitted x = true) -> handled r -> result_hook k r = Some r' -> handled r'.
Proof.
  intros Had Hr H. unfold result_hook in H. apply bind_Some_inv in H as (id & Hid & H).
  apply bind_Some_inv in H as (r1 & (x & Hx & ->)%with_lease_Some & H). got H.
  destruct (rs_releasing _ _ Hr id) as (h & Hh & Hc); [by eapply list_elem_of_lookup_2|].
  assert (results_ok (set_handles (<[id := h]> (handles (outcomes r))) (outcomes r))
    (<[id := (lease_finish result_leg (ledger (books r), x)).2]> (leases (books r)))) as [].
  { eapply (results_finish (outcomes r)); try done.
    - rewrite finish_leg_result, Had; [done|]. by eapply list_elem_of_lookup_2.
    - destruct Hc as [-> | ->]; auto. }
  cbn in *. rewrite list_insert_id in * by done. split; cbn; try done. intros i Hi. apply rs_releasing0.
  eapply elem_of_submseteq; [done|]. apply sublist_submseteq, sublist_delete.
Qed.
