(* ===== verification/RuntimeLane.v ===== *)
(** The completion lane of Runtime: no completion is lost, none sleeps.

    [lane_ok]: where a command's callback is, as its course says, is where the engine's
    operation, the queue of completions, the tasks, the submission and the completion thread
    have it.  [wake_ok]: a callback that is ready is one the completion thread will come to.
    What a step changes of one command is its [View], and the views of the others stay. *)

From Stdlib Require Import Sorted.
From S2P Require Import Prelude Command Redaction Process Endpoint Commands Backend Wake CompletionQueue OperationState Operations Transport Runtime RuntimeBooks.

(** * Views *)

(** A command's token in the queue of completions. *)
Definition tok (id : nat) : N := N.of_nat (S id).

Inductive Stage :=
  | Elsewhere | AtOpening | AtHanding | AtHanded | AtSubscribing | AtRegistering | AtLooking | AtEnqueuing | AtTracking
  | AtNotifying.

Definition in_hand (s : Submission) : option (nat * Stage) :=
  match s with
  | Opening id => Some (id, AtOpening)
  | Handing id => Some (id, AtHanding)
  | Handed id => Some (id, AtHanded)
  | Subscribing id _ => Some (id, AtSubscribing)
  | Registering id _ => Some (id, AtRegistering)
  | Looking id _ => Some (id, AtLooking)
  | SelfEnqueuing id _ => Some (id, AtEnqueuing)
  | Tracking id _ => Some (id, AtTracking)
  | Notifying id => Some (id, AtNotifying)
  | _ => None
  end.

Definition token_in_hand (s : Submission) : option N :=
  match s with
  | Subscribing _ t | Registering _ t | Looking _ t | SelfEnqueuing _ t | Tracking _ t => Some t
  | _ => None
  end.

Definition stage_of (s : Submission) (id : nat) : Stage :=
  match in_hand s with Some p => if bool_decide (p.1 = id) then p.2 else Elsewhere | None => Elsewhere end.

(** Admitted, and its token not taken yet. *)
Definition untaken (s : Submission) : bool :=
  match s with Opening _ | Handing _ | Handed _ => true | _ => false end.

Definition working_on (id : nat) (p : LaneAt) : bool :=
  match p with Working _ _ i => bool_decide (i = id) | _ => false end.

Record View := MkView {
  v_operation : option (ObserverPhase * bool * bool);
  v_recorded : bool;
  v_ready : bool;
  v_queued : bool;
  v_tasked : bool;
  v_called : bool;
  v_working : bool;
  v_stage : Stage;
}.

Definition op_view (id : nat) (st : RawOperation) : ObserverPhase * bool * bool :=
  (observer st, bool_decide (observer_token st = tok id), is_answered st).

Definition view (s : Submission) (l : Lane) (id : nat) : View :=
  MkView (op_view id <$> operations (transport l) !! id)
    (bool_decide (is_Some (q_callbacks (completions l) !! tok id)))
    (bool_decide (tok id ∈ (q_ready (completions l)).*1))
    (bool_decide (id ∈ (enqueuing l).*1)) (bool_decide (id ∈ (tasks l).*1))
    (bool_decide (id ∈ retirements (transport l))) (working_on id (lane_at l)) (stage_of s id).

Arguments view : simpl never.
Arguments stage_of : simpl never.

Definition v_answered (v : View) : bool := match v_operation v with Some (_, _, a) => a | None => false end.

(** The task is listed unless the submission is about to. *)
Definition listed (v : View) : Prop :=
  match v_stage v with
  | AtLooking | AtEnqueuing | AtTracking => v_tasked v = false
  | AtNotifying | Elsewhere => v_tasked v = true
  | _ => False
  end.
Definition over (v : View) : Prop :=
  v_tasked v = false /\ match v_stage v with AtNotifying | Elsewhere => True | _ => False end.

Definition course_fits (id : nat) (c : Course) (v : View) : Prop :=
  match c with
  | Unsubscribed =>
      v_recorded v = false /\ v_tasked v = false /\ v_working v = false /\
      match v_stage v, v_operation v with
      | AtOpening, None => True
      | (AtHanding | AtHanded | AtSubscribing), Some (unselected, _, _) => True
      | _, _ => False
      end
  | Selected t =>
      t = tok id /\ v_recorded v = false /\ v_tasked v = false /\ v_working v = false /\ v_stage v = AtRegistering /\
      (exists a, v_operation v = Some (callback_phase, true, a))
  | Recorded_ t =>
      t = tok id /\ v_recorded v = true /\ v_working v = false /\ listed v /\
      (exists a, v_operation v = Some (callback_phase, true, a)) /\
      (v_answered v = true -> v_ready v = true \/ v_queued v = true \/ v_stage v = AtLooking \/ v_stage v = AtEnqueuing)
  | Claimed t =>
      t = tok id /\ v_recorded v = false /\ v_working v = true /\ listed v /\ v_operation v = Some (callback_phase, true, true)
  | Taken _ | Answered | Settled | Enqueued _ | Counted =>
      v_recorded v = false /\ v_working v = true /\ listed v /\ (exists t, v_operation v = Some (delivered, t, true))
  | Erased => v_recorded v = false /\ v_working v = true /\ over v /\ (exists t, v_operation v = Some (delivered, t, true))
  | Done => v_recorded v = false /\ v_working v = false /\ over v /\ (exists t, v_operation v = Some (delivered, t, true))
  end.

(** A publication that is to queue its callback holds the operation's retirement back; what is
    queued or ready is answered. *)
Definition fits (id : nat) (c : Course) (v : View) : Prop :=
  course_fits id c v /\ (v_queued v = true -> v_answered v = true /\ v_called v = false) /\
  (v_ready v = true \/ v_stage v = AtEnqueuing -> v_answered v = true).

(** What [fits] says, opened. *)
Ltac open_fits :=
  repeat match goal with
    | H : _ /\ _ |- _ => destruct H
    | H : exists _, _ |- _ => destruct H
    | H : Some _ = Some _ |- _ => progress simplify_eq
    end; try done.

(** * The invariant *)

Record lane_frame (n : nat) (s : Submission) (l : Lane) : Prop := {
  lo_transport : transport_ok (transport l);
  lo_queue : q_wf (completions l);
  lo_open : q_closed (completions l) = false;
  lo_closures : length (closures l) = n;
  lo_courses : length (courses l) = n;
  lo_length : length (operations (transport l)) + match s with Opening _ => 1 | _ => 0 end = n;
  lo_submissions : submissions (transport l) = match s with Handing id => [id] | _ => [] end;
  lo_next : q_next (completions l) = N.of_nat (if untaken s then n else S n);
  lo_hand : forall p, in_hand s = Some p -> n = S p.1;
  lo_token : forall t, token_in_hand s = Some t -> t = N.of_nat n;
  lo_records : forall t id, q_callbacks (completions l) !! t = Some id -> t = tok id /\ id < n;
  lo_queued : forall e, e ∈ enqueuing l -> e.2 = tok e.1 /\ e.1 < n;
  lo_tasks : forall e, e ∈ tasks l -> e.2 = tok e.1 /\ e.1 < n;
  lo_working : forall k c id, lane_at l = Working k c id -> id < n;
}.

Definition lane_ok (n : nat) (s : Submission) (l : Lane) : Prop :=
  lane_frame n s l /\ forall id c, courses l !! id = Some c -> fits id c (view s l id).

Definition runtime_lane (r : Runtime) : Prop := lane_ok (next_task r) (submission r) (lane r).

Lemma tok_inj i j : tok i = tok j -> i = j.
Proof. unfold tok. lia. Qed.

Lemma start_lane capacity callers : runtime_lane (start_runtime capacity callers).
Proof.
  split; [|done]. split; cbn; try done; try (by intros e He; apply elem_of_nil in He).
  - split; cbn; try done; try apply NoDup_nil_2; try (by intros []). intros id Hid. by apply elem_of_nil in Hid.
  - split; cbn; try done; try apply NoDup_nil_2; try (by intros t [x Hx]). intros t Ht. by apply elem_of_nil in Ht.
Qed.

(** * What a step changes *)

Lemma view_ext s l s' l' j :
  operations (transport l') !! j = operations (transport l) !! j ->
  q_callbacks (completions l') !! tok j = q_callbacks (completions l) !! tok j ->
  (tok j ∈ (q_ready (completions l')).*1 <-> tok j ∈ (q_ready (completions l)).*1) ->
  (j ∈ (enqueuing l').*1 <-> j ∈ (enqueuing l).*1) -> (j ∈ (tasks l').*1 <-> j ∈ (tasks l).*1) ->
  (j ∈ retirements (transport l') <-> j ∈ retirements (transport l)) ->
  working_on j (lane_at l') = working_on j (lane_at l) -> stage_of s' j = stage_of s j ->
  view s' l' j = view s l j.
Proof.
  intros E1 E2 E3 E4 E5 E6 E7 E8. unfold view. rewrite E1, E2, E7, E8.
  rewrite (bool_decide_ext _ _ E3), (bool_decide_ext _ _ E4), (bool_decide_ext _ _ E5), (bool_decide_ext _ _ E6). done.
Qed.

Lemma stage_other s s' id g j : in_hand s = Some (id, g) -> (in_hand s' = None \/ exists g', in_hand s' = Some (id, g')) -> j <> id ->
  stage_of s' j = stage_of s j.
Proof.
  intros E E' Hj. unfold stage_of. rewrite E. cbn. rewrite bool_decide_false by done.
  destruct E' as [-> | [g' ->]]; [done|]. cbn. by rewrite bool_decide_false.
Qed.

Lemma stage_here s id g : in_hand s = Some (id, g) -> stage_of s id = g.
Proof. intros E. unfold stage_of. rewrite E. cbn. by rewrite bool_decide_true. Qed.

(** One command's course moves. *)
Lemma lane_moves n s l s' l' id c' :
  lane_ok n s l -> lane_frame n s' l' -> courses l' = <[id := c']> (courses l) ->
  (forall j, j <> id -> j < n -> view s' l' j = view s l j) ->
  (forall c, courses l !! id = Some c -> fits id c (view s l id) -> fits id c' (view s' l' id)) -> lane_ok n s' l'.
Proof.
  intros [Hl Hf] Hl' Ec Hv Hid. split; [done|]. rewrite Ec. intros j c [(-> & <- & Hlt)|[Hj Hc]]%list_lookup_insert_Some.
  - destruct (lookup_lt_is_Some_2 _ _ Hlt) as [c Hc]. eauto.
  - rewrite Hv; [auto|done|]. rewrite <-(lo_courses _ _ _ Hl). by eapply lookup_lt_Some.
Qed.

(** It stays, with what is seen of it. *)
Lemma lane_stays n s l s' l' id :
  lane_ok n s l -> lane_frame n s' l' -> courses l' = courses l ->
  (forall j, j <> id -> j < n -> view s' l' j = view s l j) ->
  (forall c, courses l !! id = Some c -> fits id c (view s l id) -> fits id c (view s' l' id)) -> lane_ok n s' l'.
Proof.
  intros Hok Hl' Ec Hv Hid. pose proof Hok as [Hl Hf]. split; [done|]. rewrite Ec. intros j c Hc.
  destruct (decide (j = id)) as [->|Hj]; [auto|]. rewrite Hv; [auto|done|]. rewrite <-(lo_courses _ _ _ Hl). by eapply lookup_lt_Some.
Qed.

Lemma lane_same n s l s' l' :
  lane_ok n s l -> lane_frame n s' l' -> courses l' = courses l -> (forall j, j < n -> view s' l' j = view s l j) -> lane_ok n s' l'.
Proof.
  intros Hok Hl' Ec Hv. pose proof Hok as [Hl Hf]. split; [done|]. rewrite Ec. intros j c Hc.
  rewrite Hv; [auto|]. rewrite <-(lo_courses _ _ _ Hl). by eapply lookup_lt_Some.
Qed.

(** * The engine and the holders of its operations *)

Lemma transport_frame n s l t es :
  lane_frame n s l -> transport_ok t -> length (operations t) = length (operations (transport l)) ->
  submissions t = submissions (transport l) -> (forall e, e ∈ es -> e.2 = tok e.1 /\ e.1 < n) ->
  lane_frame n s (set_transport t (enqueuing l ++ es) l).
Proof.
  intros [] Ht El Es Hes. split; cbn; try done; try congruence.
  intros e [He|He]%elem_of_app; auto.
Qed.

(** A section of an operation, with what it leaves to queue. *)
Lemma section_lane n s l id f p es :
  lane_ok n s l -> raw_section id f (transport l) = Some p -> transport_ok p.1 -> (forall e, e ∈ es -> e = (id, tok id)) ->
  (forall c st q, courses l !! id = Some c -> operations (transport l) !! id = Some st -> f st = Some q ->
     fits id c (view s l id) -> fits id c (view s (set_transport p.1 (enqueuing l ++ es) l) id)) ->
  lane_ok n s (set_transport p.1 (enqueuing l ++ es) l).
Proof.
  intros Hok (st & q & Hst & Hf & ->)%raw_section_Some Ht Hes Hfit. pose proof Hok as [Hl _]. cbn [fst] in *.
  assert (id < n) as Hlt.
  { apply lookup_lt_Some in Hst. pose proof (lo_length _ _ _ Hl). destruct s; lia. }
  eapply (lane_stays n s l s _ id); [done| |done| |].
  - apply transport_frame; try done; cbn; [by rewrite length_insert|]. by intros e ->%Hes.
  - intros j Hj _. apply view_ext; cbn; try done; [by rewrite list_lookup_insert_ne|].
    rewrite fmap_app, elem_of_app. split; [|by left]. intros [H|(e & -> & ->%Hes)%list_elem_of_fmap]; done.
  - intros c Hc Hfc. by apply (Hfit c st q).
Qed.

(** The view of the command itself after a section. *)
Lemma view_section s l id st st' es :
  operations (transport l) !! id = Some st ->
  view s (set_transport (set_operations (<[id := st']> (operations (transport l))) (transport l)) (enqueuing l ++ es) l) id =
  MkView (Some (op_view id st')) (v_recorded (view s l id)) (v_ready (view s l id))
    (bool_decide (id ∈ (enqueuing l).*1 ++ es.*1)) (v_tasked (view s l id)) (v_called (view s l id))
    (v_working (view s l id)) (v_stage (view s l id)).
Proof. intros H. unfold view. cbn. rewrite list_lookup_insert_eq by by eapply lookup_lt_Some. by rewrite fmap_app. Qed.

Lemma view_operation s l id st : operations (transport l) !! id = Some st -> v_operation (view s l id) = Some (op_view id st).
Proof. intros H. unfold view. cbn [v_operation]. by rewrite H. Qed.

(** A section that leaves the observing side and the answer as they are. *)
Lemma quiet_lane n s l id f p :
  lane_ok n s l -> raw_section id f (transport l) = Some p -> transport_ok p.1 ->
  (forall st q, operations (transport l) !! id = Some st -> f st = Some q -> op_view id q.1 = op_view id st) ->
  lane_ok n s (set_transport p.1 (enqueuing l ++ []) l).
Proof.
  intros Hok Hp Ht Hq. eapply section_lane; [done..|by intros e He%elem_of_nil|].
  intros c st q Hc Hst Hf Hfc. pose proof Hp as (st1 & q1 & Hst1 & Hf1 & ->)%raw_section_Some. cbn [fst].
  rewrite Hst in Hst1. injection Hst1 as <-. rewrite Hf in Hf1. injection Hf1 as <-.
  replace (view s _ id) with (view s l id); [done|]. rewrite (view_section _ _ _ st) by done. rewrite (Hq st q) by done.
  rewrite <-(view_operation s l) by done. cbn [fmap list_fmap]. by rewrite app_nil_r.
Qed.

Lemma is_answered_same (st st' : RawOperation) : outcome st' = outcome st -> is_answered st' = is_answered st.
Proof. unfold is_answered. by intros ->. Qed.

Lemma publish_lane n s l id x p :
  lane_ok n s l -> transport_step (PublishRaw id x) (transport l) = Some p ->
  lane_ok n s (set_transport p.1 (enqueuing l ++ left_to_queue (PublishRaw id x) p.2) l).
Proof.
  intros Hok Hp. pose proof Hok as [Hl Hf]. pose proof (transport_step_keeps _ _ _ (lo_transport _ _ _ Hl) Hp) as Ht.
  cbn [transport_step] in Hp. pose proof Hp as (st & q & Hst & Hq & E)%raw_section_Some.
  assert (state_ok st) as Hsok by by eapply Forall_lookup_1; [apply (to_states _ (lo_transport _ _ _ Hl))|].
  destruct (publish_raw_keeps _ _ _ Hsok Hq) as (_ & _ & Hn & _ & Ho & Eo & Et & Ee).
  assert (id ∉ retirements (transport l)) as Hcalled.
  { intros Hin. destruct (to_retired _ (lo_transport _ _ _ Hl) _ Hin) as (st1 & E1 & _ & [y Ey]). congruence. }
  assert (left_to_queue (PublishRaw id x) p.2 = if bool_decide (observer st = callback_phase) then [(id, observer_token st)] else []) as El.
  { rewrite E. cbn. rewrite Ee. unfold enqueue_observer. by case_bool_decide. }
  assert (is_answered q.1 = true /\ is_answered st = false) as [Ha Hna].
  { unfold is_answered. rewrite Ho, Hn. by split; [apply bool_decide_true; eauto|]. }
  assert (id < n) as Hlt by (apply lookup_lt_Some in Hst; pose proof (lo_length _ _ _ Hl); destruct s; lia).
  rewrite <-(lo_courses _ _ _ Hl) in Hlt. destruct (lookup_lt_is_Some_2 _ _ Hlt) as [c Hc]. pose proof (Hf id c Hc) as Hfc.
  pose proof (view_operation s l id st Hst) as Hv.
  eapply section_lane; [done..| |].
  - rewrite El. intros e He. case_bool_decide as Hcb; [|by apply elem_of_nil in He]. apply list_elem_of_singleton in He as ->. f_equal.
    destruct Hfc as [Hfc _]. destruct c; cbn in Hfc; rewrite Hv in Hfc; unfold op_view in Hfc; rewrite ?Hcb in Hfc;
      open_fits; try (destruct (v_stage _); done); by to_props.
  - intros c1 st1 q1 Hc1 Hst1 Hq1 _. rewrite Hc in Hc1. injection Hc1 as <-.
    subst p. cbn [fst]. rewrite (view_section _ _ _ st) by done. rewrite El.
    unfold op_view. rewrite Eo, Et, Ha.
    assert (v_called (view s l id) = false) as Hvc by by apply bool_decide_false.
    destruct Hfc as [Hfc Hqc]. unfold v_answered in *. rewrite Hv in *. unfold op_view in *. rewrite Hna in *.
    split; [|done].
    destruct c; cbn in Hfc |- *; rewrite Hv in Hfc; unfold op_view in Hfc; rewrite ?Hna in Hfc; open_fits.
    + split_and!; try done. exists true. congruence.
    + split_and!; try done; [exists true; congruence|]. intros _. right. left. apply bool_decide_true.
      rewrite bool_decide_true by done. apply elem_of_app. right. by left.
Qed.

Lemma set_transport_same l : set_transport (transport l) (enqueuing l ++ []) l = l.
Proof. rewrite app_nil_r. by destruct l. Qed.

(** The other steps of the engine, and a request to cancel. *)
Lemma transport_lane n s l a p :
  lane_ok n s l -> transport_step a (transport l) = Some p ->
  match a with
  | AdvanceRaw _ _ | RetireRaw _ | HandleRaw _ RequestCancel | StopTransport | EndTransport _ => True
  | CallRetirement id => id ∉ (enqueuing l).*1
  | _ => False
  end -> lane_ok n s (set_transport p.1 (enqueuing l ++ []) l).
Proof.
  intros Hok Hp Ha. pose proof Hok as [Hl Hf]. pose proof (transport_step_keeps _ _ _ (lo_transport _ _ _ Hl) Hp) as Ht.
  assert (forall id (st : RawOperation), operations (transport l) !! id = Some st -> state_ok st) as Hst.
  { intros id st H. by eapply Forall_lookup_1; [apply (to_states _ (lo_transport _ _ _ Hl))|]. }
  destruct a as [|id|id x|id ph|id|id|id c| |b]; try done; cbn [transport_step] in Hp.
  - eapply quiet_lane; [done..|]. intros st q H Hq. destruct (advance_raw_keeps _ _ _ (Hst _ _ H) Hq) as (_ & _ & _ & E1 & E2 & E3 & _).
    unfold op_view. by rewrite E2, E3, (is_answered_same _ _ E1).
  - eapply quiet_lane; [done..|]. intros st q H Hq. destruct (retire_raw_keeps _ _ (Hst _ _ H) Hq) as (_ & _ & _ & E1 & _ & E2 & E3 & _).
    unfold op_view. by rewrite E2, E3, (is_answered_same _ _ E1).
  - apply bind_Some_inv in Hp as (st & _ & Hp). destruct (_ && _); [|done]. got Hp. cbn [fst] in *.
    eapply (lane_stays n s l s _ id); [done| |done| |].
    + by apply transport_frame; try done; intros e He%elem_of_nil.
    + intros j Hj _. apply view_ext; cbn; try done; [by rewrite app_nil_r|].
      rewrite elem_of_app, list_elem_of_singleton. naive_solver.
    + intros c _ [Hc [_ Hr]]. revert Hc Hr. unfold view. cbn. rewrite app_nil_r. intros Hc Hr. split_and!; [exact Hc| |exact Hr].
      intros Hqueued%bool_decide_eq_true. done.
  - destruct c; try done. destruct (bool_decide (id ∈ submissions (transport l))); [done|]. eapply quiet_lane; [done..|].
    intros st q _ Hq. cbn in Hq. unfold request_cancel in Hq. inv_binds. done.
  - got Hp. eapply lane_same; [done| |done|]; [by apply transport_frame; try done; intros e He%elem_of_nil|].
    intros j _. apply view_ext; cbn; try done. by rewrite app_nil_r.
  - destruct (bool_decide _ && all_retired _); [|done]. got Hp. eapply lane_same; [done| |done|]; [by apply transport_frame; try done; intros e He%elem_of_nil|].
    intros j _. apply view_ext; cbn; try done. by rewrite app_nil_r.
Qed.

(** In the whole runtime. *)
Lemma with_transport_lane a r r' : runtime_lane r -> with_transport a r = Some r' ->
  match a with
  | PublishRaw _ _ | AdvanceRaw _ _ | RetireRaw _ | HandleRaw _ RequestCancel | StopTransport | EndTransport _ => True
  | CallRetirement id => id ∉ (enqueuing (lane r)).*1
  | _ => False
  end -> runtime_lane r'.
Proof.
  intros Hr (p & Hp & ->)%with_transport_Some Ha. unfold runtime_lane in *. cbn.
  destruct a; try done; first [by apply publish_lane|by eapply transport_lane].
Qed.

Lemma with_lease_lane id f r r' : runtime_lane r -> with_lease id f r = Some r' -> runtime_lane r'.
Proof. intros Hr (x & _ & ->)%with_lease_Some. unfold runtime_lane, next_task in *. cbn. by rewrite length_insert. Qed.

Lemma cancel_tasks_lane ids r r' : runtime_lane r -> cancel_tasks ids r = Some r' -> runtime_lane r'.
Proof.
  revert r. induction ids as [|id ids IH]; cbn [cancel_tasks]; intros r Hr H; [by got H|].
  apply bind_Some_inv in H as (r1 & H1%with_transport_lane & H); [|done..]. by eapply IH.
Qed.

Lemma other_field_lane n s l l' :
  lane_ok n s l -> transport l' = transport l -> completions l' = completions l -> enqueuing l' = enqueuing l ->
  tasks l' = tasks l -> closures l' = closures l -> courses l' = courses l -> lane_at l' = lane_at l -> lane_ok n s l'.
Proof. destruct l, l'; cbn. intros Hok -> -> -> -> -> -> ->. destruct Hok as [[] Hf]. split; [by split|exact Hf]. Qed.

Lemma engine_lane a r r' : runtime_lane r -> engine_step a r = Some r' -> runtime_lane r'.
Proof.
  intros Hr H. unfold engine_step in H. destruct a; try discriminate H; try (case_bool_decide as Hq; [done|]);
    try by eapply with_transport_lane.
  apply bind_Some_inv in H as (r1 & H1%with_transport_lane & H); [|done..].
  apply bind_Some_inv in H as (r2 & H2%with_lease_lane & H); [|done]. got H. by eapply other_field_lane.
Qed.

(** * The queue of completions *)

Lemma enqueue_spec {B} t (q : Queue (A := B)) : q_closed q = false ->
  q_callbacks (q_exec (Enqueue t) q).1 = q_callbacks q /\
  forall m, m ∈ (q_ready (q_exec (Enqueue t) q).1).*1 <-> m ∈ (q_ready q).*1 \/ m = t /\ is_Some (q_callbacks q !! t).
Proof.
  intros Ho. destruct (q_enqueue_cases t q) as [E|[-> Hc]].
  - rewrite E. split; [done|]. intros m. rewrite append_ready, elem_of_app, list_elem_of_singleton.
    cbn [q_exec] in E. destruct (_ && _) eqn:Eb; [|exfalso].
    { to_props. split; [intros [Hm| ->]|intros [Hm|[-> _]]]; by eauto. }
    apply (f_equal q_last) in E. cbn in E. lia.
  - split; [done|]. intros m. split; [by left|]. intros [Hm|[-> [x Hx]]]; [done|]. destruct Hc as [Hc|[Hc|Hc]]; [congruence..|done].
Qed.

#[local] Arguments q_exec : simpl never.

Lemma queue_frame n s l q : lane_frame n s l -> q_wf q -> q_closed q = false -> q_next q = q_next (completions l) ->
  (forall t id, q_callbacks q !! t = Some id -> t = tok id /\ id < n) -> lane_frame n s (set_completions q l).
Proof. intros [] H1 H2 H3 H4. split; cbn; try done. congruence. Qed.

Lemma enqueue_frame n s l t : lane_frame n s l -> lane_frame n s (set_completions (q_exec (Enqueue t) (completions l)).1 l).
Proof.
  intros Hl. pose proof Hl as []. destruct (q_exec_wf (Enqueue t) _ lo_queue0 I) as [Hq _].
  destruct (enqueue_spec t _ lo_open0) as [Ec _]. apply queue_frame; try done.
  - destruct (q_enqueue_cases t (completions l)) as [E|[E _]]; by rewrite E.
  - destruct (q_enqueue_cases t (completions l)) as [E|[E _]]; by rewrite E.
  - by rewrite Ec.
Qed.

Lemma deleted_elem (l : list (nat * N)) k e j : l !! k = Some e -> j ∈ l.*1 <-> j = e.1 \/ j ∈ (delete k l).*1.
Proof.
  intros H. rewrite (delete_Permutation _ _ _ H) at 1. cbn. by rewrite elem_of_cons.
Qed.

Lemma publication_lane k r r' : runtime_lane r -> publication_queues k r = Some r' -> runtime_lane r'.
Proof.
  intros Hok H. unfold publication_queues in H. apply bind_Some_inv in H as ([id t] & He & H). got H.
  pose proof Hok as [Hl _]. unfold runtime_lane in *. cbn. change (next_task _) with (next_task r).
  destruct (lo_queued _ _ _ Hl (id, t)) as [Et Hid]; [by eapply list_elem_of_lookup_2|]. cbn [fst snd] in *. subst t.
  destruct (enqueue_spec (tok id) _ (lo_open _ _ _ Hl)) as [Ec Er].
  eapply (lane_stays _ _ _ _ _ id); [exact Hok| |done| |].
  - apply (enqueue_frame _ _ _ (tok id)) in Hl as []. split; cbn in *; try done.
    intros e He'. apply lo_queued0. eapply elem_of_submseteq; [done|]. apply sublist_submseteq, sublist_delete.
  - intros j Hj _. apply view_ext; cbn [completions transport enqueuing tasks lane_at set_transport set_completions]; try done.
    + by rewrite Ec.
    + rewrite Er. split; [|by left]. intros [?|[E%tok_inj _]]; done.
    + rewrite (deleted_elem _ _ _ j He). naive_solver.
  - assert (v_queued (view (submission r) (lane r) id) = true) as Hqueued.
    { apply bool_decide_true. apply (deleted_elem _ _ _ id He). by left. }
    intros c Hc [Hf [Hq _]]. destruct (Hq Hqueued) as [Ha Hc']. split_and!; [|done|done].
    unfold view in Hf |- *. cbn [completions transport enqueuing tasks lane_at set_transport set_completions]. rewrite Ec.
    destruct c; try exact Hf. cbn in Hf |- *. open_fits. split_and!; try done; [eauto|].
    intros _. left. apply bool_decide_true, Er. right. split; [done|]. by eapply bool_decide_eq_true.
Qed.

(** * Submissions *)

Lemma idle_lane n s s' l : in_hand s = None -> in_hand s' = None -> lane_ok n s l -> lane_ok n s' l.
Proof.
  intros E E' [[] Hf]. split.
  - split; try done; destruct s, s'; done.
  - intros id c Hc. replace (view s' l id) with (view s l id); [auto|]. apply view_ext; try done. unfold stage_of. by rewrite E, E'.
Qed.

(** The submission goes on with its command, which stays where it is. *)
Lemma hand_lane n s s' l id g g' :
  lane_ok n s l -> in_hand s = Some (id, g) -> in_hand s' = Some (id, g') \/ in_hand s' = None /\ g' = Elsewhere ->
  untaken s = untaken s' -> (match s with Opening _ | Handing _ => False | _ => True end) ->
  (match s' with Opening _ | Handing _ => False | _ => True end) ->
  (forall t, token_in_hand s' = Some t -> token_in_hand s = Some t) ->
  (forall c, courses l !! id = Some c -> fits id c (view s l id) -> v_stage (view s l id) = g ->
     fits id c (MkView (v_operation (view s l id)) (v_recorded (view s l id)) (v_ready (view s l id)) (v_queued (view s l id))
       (v_tasked (view s l id)) (v_called (view s l id)) (v_working (view s l id)) g')) ->
  lane_ok n s' l.
Proof.
  intros Hok E E' Eu Hs Hs' Ht Hid. pose proof Hok as [[] _]. eapply (lane_stays n s l s' l id); [done| |done| |].
  - split; try done.
    + destruct s, s'; try done; lia.
    + destruct s, s'; done.
    + by rewrite <-Eu.
    + intros p Hp. specialize (lo_hand0 _ E). destruct E' as [E'|[E' _]]; rewrite E' in Hp; by simplify_eq.
    + auto.
  - intros j Hj _. apply view_ext; try done. eapply stage_other; [done| |done]. destruct E' as [E'|[E' _]]; eauto.
  - intros c Hc Hf. specialize (Hid c Hc Hf (stage_here _ _ _ E)). unfold view in *. cbn in *.
    replace (stage_of s' id) with g'; [done|]. destruct E' as [E'|[E' ->]]; [by rewrite (stage_here _ _ _ E')|]. unfold stage_of. by rewrite E'.
Qed.

Lemma new_task_lane c token r : in_hand (submission r) = None -> runtime_lane r -> runtime_lane (new_task c token r).
Proof.
  intros E Hok. unfold runtime_lane, next_task in *. cbn. rewrite length_app, Nat.add_1_r. unfold next_task.
  set (n := length (leases (books r))) in *. set (l := lane r) in *. set (s := submission r) in *.
  destruct Hok as [[] Hf]. split.
  - split; cbn; try done; rewrite ?length_app; cbn; try lia.
    + destruct s; done || lia.
    + destruct s; done.
    + rewrite lo_next0. destruct s; done || lia.
    + by intros p [= <-].
    + intros t id H. specialize (lo_records0 t id H). lia.
    + intros e He. specialize (lo_queued0 e He). lia.
    + intros e He. specialize (lo_tasks0 e He). lia.
    + intros k cut id H. specialize (lo_working0 k cut id H). lia.
  - cbn. intros id c0 [Hc|[Hn Hc]]%lookup_app_Some.
    + assert (id < n) as Hid by (rewrite <-lo_courses0; by eapply lookup_lt_Some).
      replace (view (Opening n) _ id) with (view s l id); [auto|]. symmetry. apply view_ext; try done.
      unfold stage_of. rewrite E. cbn. rewrite bool_decide_false; [done|lia].
    + apply list_lookup_singleton_Some in Hc as [Hc <-]. assert (id = n) as -> by lia.
      assert (operations (transport l) !! n = None) as Hop by (apply lookup_ge_None_2; lia).
      assert (q_callbacks (completions l) !! tok n = None) as Hrec.
      { apply eq_None_not_Some. intros [x Hx]. apply lo_records0 in Hx as [Ht%tok_inj ?]. lia. }
      unfold view. cbn. rewrite Hop, Hrec. split_and!; cbn; [split_and!|..].
      * done.
      * apply bool_decide_false. intros (e & -> & He)%list_elem_of_fmap. apply lo_tasks0 in He. lia.
      * destruct (lane_at l) eqn:El; try done. cbn. apply bool_decide_false. intros ->. specialize (lo_working0 _ _ _ eq_refl). lia.
      * by rewrite (stage_here (Opening n) n AtOpening).
      * intros Hq%bool_decide_eq_true. apply list_elem_of_fmap in Hq as (e & -> & He). apply lo_queued0 in He. lia.
      * rewrite (stage_here (Opening n) n AtOpening) by done. intros [[x Hx]%bool_decide_eq_true%(qw_known _ lo_queue0)|?]; congruence.
Qed.

Lemma begin_lane n id l p :
  lane_ok n (Opening id) l -> transport_step BeginSubmit (transport l) = Some p ->
  lane_ok n (Handing id) (set_transport p.1 (enqueuing l ++ []) l).
Proof.
  intros Hok Hp. pose proof Hok as [Hl _]. pose proof (transport_step_keeps _ _ _ (lo_transport _ _ _ Hl) Hp) as Ht.
  cbn [transport_step] in Hp. got Hp. cbn [fst] in *. pose proof Hl as []. cbn in *. specialize (lo_hand0 _ eq_refl). cbn in lo_hand0.
  assert (length (operations (transport l)) = id) as Elen by lia.
  eapply (lane_stays n (Opening id) l _ _ id); [done| |done| |].
  - split; cbn; rewrite ?app_nil_r, ?length_app; try done; cbn; try lia.
    + by rewrite lo_submissions0, Elen.
    + by intros p [= <-].
  - intros j Hj Hlt. apply view_ext; cbn; rewrite ?app_nil_r; try done.
    + apply lookup_app_l. lia.
    + unfold stage_of. cbn. by rewrite bool_decide_false.
  - intros c Hc [Hf Hq]. assert (operations (transport l) !! id = None) as Hop by (apply lookup_ge_None_2; lia).
    unfold view, v_answered in *. cbn in *. rewrite Hop in *. rewrite app_nil_r. split.
    + rewrite (stage_here (Opening id) id AtOpening) in Hf by done. rewrite (stage_here (Handing id) id AtHanding) by done.
      destruct c; cbn in *; open_fits; unfold listed, over in *; cbn in *; open_fits.
      rewrite lookup_app_r, Elen, Nat.sub_diag by lia. by split_and!.
    + destruct Hq as [Hq Hr]. split; [intros H; by destruct (Hq H)|]. rewrite (stage_here (Handing id) id AtHanding) by done.
      intros [H|H]; [by specialize (Hr (or_introl H))|done].
Qed.

Lemma end_lane n id l p :
  lane_ok n (Handing id) l -> transport_step (EndSubmit id) (transport l) = Some p ->
  lane_ok n (Handed id) (set_transport p.1 (enqueuing l ++ []) l).
Proof.
  intros Hok Hp. pose proof Hok as [Hl _]. pose proof (transport_step_keeps _ _ _ (lo_transport _ _ _ Hl) Hp) as Ht.
  cbn [transport_step] in Hp. destruct (_ && _); [|done]. got Hp. cbn [fst] in *. pose proof Hl as []. cbn in *.
  eapply (lane_stays n (Handing id) l _ _ id); [done| |done| |].
  - split; cbn; rewrite ?app_nil_r; try done.
    + rewrite lo_submissions0. rewrite filter_cons_False by (intros H; by apply H). done.
    + intros p [= <-]. apply (lo_hand0 _ eq_refl).
  - intros j Hj Hlt. apply view_ext; cbn; rewrite ?app_nil_r; try done. unfold stage_of. cbn. by rewrite !bool_decide_false.
  - intros c Hc [Hf Hq]. unfold view, v_answered in *. cbn in *. rewrite app_nil_r.
    rewrite (stage_here (Handing id) id AtHanding) in Hf by done. rewrite (stage_here (Handed id) id AtHanded) by done.
    split; [|split; [apply Hq|intros [H|H]; [apply Hq; by left|done]]]. destruct c; cbn in *; open_fits; unfold listed, over in *; cbn in *; open_fits.
Qed.

Lemma token_lane n id l :
  lane_ok n (Handed id) l -> lane_ok n (Subscribing id (q_next (completions l))) (set_completions (q_exec NextToken (completions l)).1 l).
Proof.
  intros Hok. pose proof Hok as [[] _]. cbn in *.
  eapply (lane_stays n (Handed id) l _ _ id); [done| |done| |].
  - destruct (q_exec_wf NextToken _ lo_queue0 I) as [Hq _]. split; try done; cbn [in_hand token_in_hand untaken completions set_completions].
    + change (q_next (q_exec NextToken (completions l)).1) with (q_next (completions l) + 1)%N. lia.
    + intros p [= <-]. apply (lo_hand0 _ eq_refl).
    + by intros t [= <-].
  - intros j Hj Hlt. apply view_ext; try done. unfold stage_of. cbn. by rewrite !bool_decide_false.
  - intros c Hc [Hf Hq]. unfold view, v_answered in *. cbn in *.
    rewrite (stage_here (Handed id) id AtHanded) in Hf by done. rewrite (stage_here (Subscribing id _) id AtSubscribing) by done.
    split; [|split; [apply Hq|intros [H|H]; [apply Hq; by left|done]]]. destruct c; cbn in *; open_fits; unfold listed, over in *; cbn in *; open_fits.
Qed.

(** A course that goes on with a section of its operation. *)
Lemma course_lane n s s' l id st q c' :
  lane_ok n s l -> operations (transport l) !! id = Some st ->
  transport_ok (set_operations (<[id := q]> (operations (transport l))) (transport l)) ->
  lane_frame n s' l -> (forall j, j <> id -> stage_of s' j = stage_of s j) ->
  (forall c, courses l !! id = Some c -> fits id c (view s l id) -> fits id c' (MkView (Some (op_view id q)) (v_recorded (view s l id))
     (v_ready (view s l id)) (v_queued (view s l id)) (v_tasked (view s l id)) (v_called (view s l id)) (v_working (view s l id))
     (stage_of s' id))) ->
  lane_ok n s' (set_courses (<[id := c']> (courses l))
    (set_transport (set_operations (<[id := q]> (operations (transport l))) (transport l)) (enqueuing l ++ []) l)).
Proof.
  intros Hok Hst Ht Hl Hs Hfit. eapply (lane_moves n s l _ _ id); [done| |done| |].
  - apply (transport_frame _ _ _ (set_operations (<[id := q]> (operations (transport l))) (transport l)) []) in Hl as []; try done; cbn;
      rewrite ?length_insert; try done; [|by intros e He%elem_of_nil].
    split; cbn in *; try done. by rewrite length_insert.
  - intros j Hj _. apply view_ext; cbn; rewrite ?app_nil_r; try done; [|by apply Hs]. by rewrite list_lookup_insert_ne.
  - intros c Hc Hf. specialize (Hfit c Hc Hf). unfold view in *. cbn in *. rewrite app_nil_r.
    by rewrite list_lookup_insert_eq by by eapply lookup_lt_Some.
Qed.

Lemma frame_hand n s s' l : lane_frame n s l -> untaken s = untaken s' ->
  (match s with Opening _ | Handing _ => False | _ => True end) -> (match s' with Opening _ | Handing _ => False | _ => True end) ->
  (forall p, in_hand s' = Some p -> n = S p.1) -> (forall t, token_in_hand s' = Some t -> t = N.of_nat n) -> lane_frame n s' l.
Proof.
  intros [] Eu Hs Hs' Hh Ht. split; try done.
  - destruct s, s'; try done; lia.
  - destruct s, s'; done.
  - by rewrite <-Eu.
Qed.

Lemma select_lane n id t l p :
  lane_ok n (Subscribing id t) l -> transport_step (HandleRaw id (SelectCallback t)) (transport l) = Some p ->
  lane_ok n (Registering id t) (set_courses (<[id := Selected t]> (courses l)) (set_transport p.1 (enqueuing l ++ []) l)).
Proof.
  intros Hok Hp. pose proof Hok as [Hl _]. pose proof (transport_step_keeps _ _ _ (lo_transport _ _ _ Hl) Hp) as Ht.
  pose proof (lo_hand _ _ _ Hl _ eq_refl) as Hn. pose proof (lo_token _ _ _ Hl _ eq_refl) as Htok. cbn in Hn.
  cbn [transport_step] in Hp. destruct (bool_decide (id ∈ submissions (transport l))); [done|].
  apply raw_section_Some in Hp as (st & q & Hst & Hq & ->). cbn [fst] in *.
  eapply course_lane; [done..| | |].
  - eapply frame_hand; try done; [by intros p [= <-]|by intros t' [= <-]].
  - intros j Hj. eapply stage_other; [done| |done]. eauto.
  - intros c Hc [Hf Hqc]. cbn in Hq. unfold select_callback, relay_select_callback in Hq. inv_binds. unfold op_view. cbn.
    pose proof (view_operation (Subscribing id (N.of_nat (S id))) l id st Hst) as Hv. unfold fits, v_answered in *. cbn. rewrite Hv in *.
    assert (v_stage (view (Subscribing id (N.of_nat (S id))) l id) = AtSubscribing) as Hs by by apply stage_here.
    rewrite (stage_here (Registering id _) id AtRegistering) by done. unfold op_view in *.
    split; [|split; [apply Hqc|intros [H'|H']; [apply Hqc; by left|done]]].
    destruct c; cbn in Hf; unfold listed, over in Hf; rewrite Hs in Hf; open_fits. cbn. split_and!; try done.
    exists (is_answered st). by rewrite bool_decide_true.
Qed.

Lemma register_lane n id t l :
  lane_ok n (Registering id t) l ->
  lane_ok n (Looking id t) (set_courses (<[id := Recorded_ t]> (courses l)) (set_completions (q_exec (Register t id) (completions l)).1 l)).
Proof.
  intros Hok. pose proof Hok as [Hl Hf]. pose proof (lo_hand _ _ _ Hl _ eq_refl) as Hn. pose proof (lo_token _ _ _ Hl _ eq_refl) as Htok. cbn in Hn.
  assert (t = tok id) as -> by (unfold tok; lia). assert (id < length (courses l)) as Hlt by (rewrite (lo_courses _ _ _ Hl); lia).
  destruct (lookup_lt_is_Some_2 _ _ Hlt) as [c Hc]. pose proof (Hf id c Hc) as [Hfc Hqc].
  assert (v_stage (view (Registering id (tok id)) l id) = AtRegistering) as Hs by by apply stage_here.
  assert (c = Selected (tok id) /\ v_recorded (view (Registering id (tok id)) l id) = false /\
    exists a, v_operation (view (Registering id (tok id)) l id) = Some (callback_phase, true, a)) as (-> & Hrec & a & Ha).
  { destruct c; cbn in Hfc; unfold listed, over in Hfc; rewrite ?Hs in Hfc; cbn in Hfc; open_fits. subst. eauto. }
  cbn in Hfc. destruct Hfc as (_ & _ & Htask & Hwork & _ & _).
  assert (q_callbacks (completions l) !! tok id = None) as Hnone by by apply bool_decide_eq_false, eq_None_not_Some in Hrec.
  assert ((q_exec (Register (tok id) id) (completions l)).1 =
    q_with (<[tok id := id]> (q_callbacks (completions l))) (q_ready (completions l)) (q_last (completions l)) (completions l)) as Eq.
  { unfold q_exec. rewrite (lo_open _ _ _ Hl). by rewrite bool_decide_true. }
  eapply (lane_moves n _ l _ _ id); [done| |done| |].
  - pose proof Hl as []. destruct (q_exec_wf (Register (tok id) id) (completions l) lo_queue0) as [Hwf _].
    { cbn. rewrite lo_next0. unfold tok. cbn. lia. }
    rewrite Eq in *. split; cbn; try done; [by rewrite length_insert|by intros p [= <-]|].
    intros t i [[<- <-]|[_ Hi]]%lookup_insert_Some; [split; [done|lia]|auto].
  - intros j Hj _. rewrite Eq. apply view_ext; try done.
    + cbn. rewrite lookup_insert_ne; [done|]. by intros E%tok_inj.
    + eapply stage_other; [done| |done]. eauto.
  - intros _ _ _. rewrite Eq. unfold fits, v_answered in *. unfold view in *. cbn in *. rewrite lookup_insert_eq.
    rewrite (stage_here (Looking id _) id AtLooking) by done. unfold listed. cbn. split; [split_and!; by eauto|].
    split; [apply Hqc|intros [H'|H']; [apply Hqc; by left|done]].
Qed.

Lemma look_lane n id t l st :
  lane_ok n (Looking id t) l -> operations (transport l) !! id = Some st ->
  lane_ok n (if is_answered st then SelfEnqueuing id t else Tracking id t) l.
Proof.
  intros Hok Hst. pose proof (view_operation (Looking id t) l id st Hst) as Hv.
  destruct (is_answered st) eqn:Ea;
    [apply (hand_lane n (Looking id t) _ l id AtLooking AtEnqueuing)|apply (hand_lane n (Looking id t) _ l id AtLooking AtTracking)];
    try done; try (by left); intros c Hc [Hf Hq] Hs;
    (split; [|split; [apply Hq|intros [H'|H']; [apply Hq; by left|unfold v_answered; cbn; rewrite ?Hv; done]]]);
    destruct c; cbn in *; unfold listed, over, v_answered in *; cbn in *; rewrite ?Hs in *; rewrite ?Hv in *; unfold op_view in *;
    rewrite ?Ea in *; cbn in *; open_fits; split_and!;
    repeat match goal with H : observer st = _ |- _ => rewrite H | H : bool_decide (_ = tok id) = true |- _ => rewrite H end; eauto; done.
Qed.

Lemma self_enqueue_lane n id t l :
  lane_ok n (SelfEnqueuing id t) l -> lane_ok n (Tracking id t) (set_completions (q_exec (Enqueue t) (completions l)).1 l).
Proof.
  intros Hok. pose proof Hok as [Hl _]. pose proof (lo_hand _ _ _ Hl _ eq_refl) as Hn. pose proof (lo_token _ _ _ Hl _ eq_refl) as Htok. cbn in Hn.
  assert (t = tok id) as -> by (unfold tok; lia). destruct (enqueue_spec (tok id) _ (lo_open _ _ _ Hl)) as [Ec Er].
  eapply (lane_stays n _ l _ _ id); [done| |done| |].
  - apply enqueue_frame. eapply frame_hand; try done; by intros p [= <-].
  - intros j Hj _. apply view_ext; cbn; try done.
    + by rewrite Ec.
    + rewrite Er. split; [|by left]. intros [?|[E%tok_inj _]]; done.
    + eapply stage_other; [done| |done]. eauto.
  - intros c Hc [Hf Hq]. assert (v_stage (view (SelfEnqueuing id (tok id)) l id) = AtEnqueuing) as Hs by by apply stage_here.
    unfold fits, v_answered in *. unfold view in *. cbn [completions transport enqueuing tasks lane_at set_completions] in *.
    rewrite Ec, (stage_here (Tracking id _) id AtTracking) by done. cbn in Hs. split; [|split; [apply Hq|intros _; apply Hq; by right]].
    destruct c; cbn in *; unfold listed, over in *; cbn in *; rewrite ?Hs in *; open_fits; split_and!; eauto.
    intros _. left. apply bool_decide_true, Er. right. split; [done|]. by eapply bool_decide_eq_true.
Qed.

Lemma track_lane n id t l :
  lane_ok n (Tracking id t) l -> lane_ok n (Notifying id) (set_tasks (tasks l ++ [(id, t)]) l).
Proof.
  intros Hok. pose proof Hok as [Hl _]. pose proof (lo_hand _ _ _ Hl _ eq_refl) as Hn. pose proof (lo_token _ _ _ Hl _ eq_refl) as Htok. cbn in Hn.
  assert (t = tok id) as -> by (unfold tok; lia).
  eapply (lane_stays n _ l _ _ id); [done| |done| |].
  - pose proof Hl as []. split; cbn; try done.
    + by intros p [= <-].
    + intros e [He|He%list_elem_of_singleton]%elem_of_app; [auto|]. subst e. cbn. split; [done|lia].
  - intros j Hj _. apply view_ext; cbn; try done; [|eapply stage_other; [done| |done]; eauto].
    rewrite fmap_app, elem_of_app. cbn. rewrite list_elem_of_singleton. naive_solver.
  - intros c Hc [Hf Hq]. assert (v_stage (view (Tracking id (tok id)) l id) = AtTracking) as Hs by by apply stage_here.
    assert (bool_decide (id ∈ (tasks l ++ [(id, tok id)]).*1) = true) as Ht.
    { apply bool_decide_true. rewrite fmap_app, elem_of_app. right. by left. }
    unfold fits, v_answered in *. unfold view in *. cbn [completions transport enqueuing tasks lane_at set_tasks] in *.
    rewrite Ht, (stage_here (Notifying id) id AtNotifying) by done. cbn in Hs. split; [|split; [apply Hq|intros [H|H]; [apply Hq; by left|done]]].
    destruct c; cbn in *; unfold listed, over in *; cbn in *; rewrite ?Hs in *; open_fits; split_and!; eauto.
    intros Ha. match goal with H : _ = true -> _ |- _ => destruct (H Ha) as [?|[?|[?|?]]] end; eauto; done.
Qed.

Lemma notify_lane n id l : lane_ok n (Notifying id) l -> lane_ok n Free l.
Proof.
  intros Hok. apply (hand_lane n (Notifying id) _ l id AtNotifying Elsewhere); try done; [by right|].
  intros c Hc [Hf Hq] Hs. split; [|split; [apply Hq|intros [H|H]; [apply Hq; by left|done]]]. unfold v_answered in *. cbn in *.
  destruct c; cbn in *; unfold listed, over, v_answered in *; cbn in *; rewrite ?Hs in *; open_fits; split_and!; eauto.
  intros Ha. match goal with H : _ = true -> _ |- _ => destruct (H Ha) as [?|[?|[?|?]]] end; eauto; done.
Qed.

Lemma submission_lane checked r r' : runtime_lane r -> submission_step checked r = Some r' -> runtime_lane r'.
Proof.
  intros Hok H. unfold submission_step in H.
  assert (forall s, in_hand (submission r) = None -> in_hand s = None -> lane_ok (next_task r) s (lane r)) as Hidle.
  { intros s E E'. by apply (idle_lane _ (submission r)). }
  destruct (submission r) eqn:Es; unfold runtime_lane in Hok; rewrite Es in Hok.
  - destruct (negb _); [got H; by apply Hidle|]. destruct checked; got H; by apply Hidle.
  - got H. destruct (ledger_full _); by apply Hidle.
  - destruct (observed_as c); got H; by apply Hidle.
  - destruct token as [t|]; got H; [|by apply Hidle]. destruct (queue_observer _ _).2; by apply Hidle.
  - got H. apply new_task_lane; [by rewrite Es|]. unfold runtime_lane. by rewrite Es.
  - take_apart. by apply begin_lane.
  - take_apart. by apply end_lane.
  - got H. by apply token_lane.
  - apply bind_Some_inv in H as (r1 & (p & Hp & ->)%with_transport_Some & H). got H. exact (select_lane _ _ _ _ _ Hok Hp).
  - destruct (queue_completion _ _).2; [|done]. got H. exact (register_lane _ _ _ _ Hok).
  - apply bind_Some_inv in H as (st & Hst & H). got H. by apply look_lane.
  - got H. by apply self_enqueue_lane.
  - got H. by apply track_lane.
  - got H. apply notify_lane in Hok. by eapply other_field_lane.
Qed.

(** * The completion thread *)

Lemma lane_at_frame n s l p : lane_frame n s l -> (forall k c id, p = Working k c id -> id < n) -> lane_frame n s (set_lane_at p l).
Proof. intros [] H. by split. Qed.

Lemma rest_lane n s l p :
  lane_ok n s l -> (forall id, working_on id p = working_on id (lane_at l)) -> (forall k c id, p = Working k c id -> id < n) ->
  lane_ok n s (set_lane_at p l).
Proof.
  intros Hok Hw Hp. pose proof Hok as [Hl _]. eapply lane_same; [done|by apply lane_at_frame|done|]. intros j _. by apply view_ext.
Qed.

Lemma recourse_lane n s l id c c' :
  lane_ok n s l -> courses l !! id = Some c -> (fits id c (view s l id) -> fits id c' (view s l id)) ->
  lane_ok n s (set_courses (<[id := c']> (courses l)) l).
Proof.
  intros Hok Hc Hf. pose proof Hok as [[] _]. eapply (lane_moves n s l _ _ id); [done| |done| |].
  - split; cbn; try done. by rewrite length_insert.
  - intros j Hj _. by apply view_ext.
  - intros c0 Hc0. rewrite Hc in Hc0. injection Hc0 as <-. exact Hf.
Qed.

Lemma claim_lane n s l turns cutoff q token id :
  lane_ok n s l -> lane_at l = Running (S turns) cutoff -> q_claim_before cutoff (completions l) = (q, Some (token, id)) ->
  lane_ok n s (set_lane_at (Working turns cutoff id) (set_courses (<[id := Claimed token]> (courses l)) (set_completions q l))).
Proof.
  intros Hok Hat Hq. pose proof Hok as [Hl Hf]. assert (q_claim (completions l) = (q, Some (token, id))) as Hclaim.
  { unfold q_claim_before in Hq. destruct (q_ready (completions l)) as [|[t g] rest]; [done|]. by destruct (cutoff <? g)%N. }
  pose proof (q_claim_spec _ (lo_queue _ _ _ Hl)) as Hspec. rewrite Hclaim in Hspec.
  destruct Hspec as (Hwf & En & Enone & Hin & Hnin & Hother).
  assert (q_callbacks (completions l) !! token = Some id) as Hcb.
  { unfold q_claim in Hclaim. destruct (q_ready (completions l)) as [|[t g] rest]; [done|].
    destruct (q_callbacks (completions l) !! t) eqn:E; [|done]. injection Hclaim as _ <- <-. done. }
  destruct (lo_records _ _ _ Hl _ _ Hcb) as [-> Hid].
  assert (forall t i, q_callbacks q !! t = Some i -> t = tok i /\ i < n) as Hrec.
  { intros t i Hi. destruct (decide (t = tok id)) as [->|Hn]; [congruence|]. rewrite (proj1 (Hother t Hn)) in Hi. by apply (lo_records _ _ _ Hl). }
  eapply (lane_moves n s l _ _ id); [done| |done| |].
  - apply lane_at_frame; [|by intros k c i [= _ _ <-]]. apply (queue_frame _ _ _ q) in Hl as []; try done.
    + split; cbn in *; try done. by rewrite length_insert.
    + unfold q_claim in Hclaim. destruct (q_ready (completions l)) as [|[t g] rest]; [done|]. injection Hclaim as <- _. by apply (lo_open _ _ _ Hl).
  - intros j Hj _. assert (tok j <> tok id) as Hn by by intros E%tok_inj. destruct (Hother _ Hn) as [E1 E2].
    apply view_ext; cbn; try done. rewrite Hat. cbn. by rewrite bool_decide_false.
  - intros c Hc [Hfc [Hqc Hrc]]. assert (v_answered (view s l id) = true) as Ha by by apply Hrc; left; apply bool_decide_true.
    assert (v_recorded (view s l id) = true) as Hr by by apply bool_decide_true; rewrite Hcb.
    unfold fits, v_answered in *. destruct c; cbn in Hfc; rewrite Hr in Hfc; open_fits.
    unfold view in *. cbn in *. rewrite Enone, (bool_decide_true (id = id)) by done. unfold listed, v_answered in *. cbn in *.
    destruct (operations (transport l) !! id) as [st|]; cbn in *; [|done]. split_and!; try done. unfold op_view in *. congruence.
Qed.

Lemma detach_gone {B} t (q : Queue (A := B)) : q_wf q -> q_callbacks q !! t = None -> (q_exec (Detach t) q).1 = q.
Proof.
  intros Hq Ht. destruct q. unfold q_exec, q_with. cbn in *. f_equal; [by apply delete_id|].
  unfold without. apply filter_whole. intros e He E.
  destruct (qw_known _ Hq t) as [x Hx]; [|cbn in *; congruence]. cbn. rewrite <-E. by apply list_elem_of_fmap_2.
Qed.

Lemma erase_gone n s id r : lane_ok n s (lane r) -> q_callbacks (completions (lane r)) !! tok id = None ->
  erase_task id r = set_lane (set_tasks (filter (fun t => t.1 <> id) (tasks (lane r))) (lane r)) r.
Proof.
  intros [Hl _] Hnone. unfold erase_task.
  assert (Forall (fun t => t.2 = tok id) (filter (fun t => t.1 = id) (tasks (lane r)))) as Hall.
  { apply Forall_forall. intros e [<- He]%list_elem_of_filter. by apply (lo_tasks _ _ _ Hl). }
  induction Hall as [|e gone He Hall IH]; [done|]. cbn [fold_left]. rewrite He. unfold queue_completion at 2. cbn [fst].
  change (completions (lane (set_lane ?x r))) with (completions x). cbn [completions set_tasks].
  rewrite detach_gone; [exact IH|apply (lo_queue _ _ _ Hl)|done].
Qed.

Lemma erase_lane n s l id :
  lane_ok n s l -> courses l !! id = Some Counted -> (forall g, in_hand s = Some (id, g) -> g = AtNotifying) ->
  lane_ok n s (set_courses (<[id := Erased]> (courses l)) (set_tasks (filter (fun t => t.1 <> id) (tasks l)) l)).
Proof.
  intros Hok Hc Hs. pose proof Hok as [[] _]. eapply (lane_moves n s l _ _ id); [done| |done| |].
  - split; cbn; try done; [by rewrite length_insert|]. intros e [_ He]%list_elem_of_filter. auto.
  - intros j Hj _. apply view_ext; cbn; try done. rewrite !list_elem_of_fmap. setoid_rewrite list_elem_of_filter. naive_solver.
  - intros c Hc' [Hf Hq]. rewrite Hc in Hc'. injection Hc' as <-. split; [|exact Hq]. cbn in Hf. destruct Hf as (H1 & H2 & _ & H4).
    unfold view in *. cbn in *. split_and!; try done. split; cbn.
    + apply bool_decide_false. intros (e & -> & [Hn _]%list_elem_of_filter)%list_elem_of_fmap. done.
    + destruct (in_hand s) as [[i g]|] eqn:Eh; [|unfold stage_of; by rewrite Eh].
      destruct (decide (i = id)) as [->|Hi]; [by rewrite (stage_here _ _ _ Eh), (Hs g)|].
      unfold stage_of. rewrite Eh. cbn. by rewrite bool_decide_false.
Qed.

(** A section of a claimed callback; when it is the last, the thread looks for the next. *)
Lemma finish_lane turns cutoff id r r' :
  runtime_lane r -> lane_at (lane r) = Working turns cutoff id -> finish_step id r = Some r' ->
  exists c, courses (lane r') !! id = Some c /\
    runtime_lane (match c with Done => go_lane (Running turns cutoff) r' | _ => r' end).
Proof.
  intros Hok Hat H. unfold finish_step in H. apply bind_Some_inv in H as (c & Hc & H).
  assert (id < length (courses (lane r))) as Hlt by by eapply lookup_lt_Some.
  assert (forall x c', (fits id c (view (submission r) (lane r) id) -> fits id c' (view (submission r) (lane r) id)) ->
    books x = books r -> submission x = submission r -> lane x = lane r -> c' <> Done ->
    exists c'', courses (lane (go_course id c' x)) !! id = Some c'' /\
      runtime_lane (match c'' with Done => go_lane (Running turns cutoff) (go_course id c' x) | _ => go_course id c' x end)) as Hsame.
  { intros x c' Hf E1 E2 E3 Hd. exists c'. unfold go_course. cbn. rewrite E3, list_lookup_insert_eq by done. split; [done|].
    destruct c'; try done; unfold runtime_lane, next_task in *; cbn; rewrite E1, E2; by eapply recourse_lane. }
  pose proof Hok as [Hl Hfits]. destruct c; try discriminate H.
  - apply bind_Some_inv in H as (st & Hst & H). apply bind_Some_inv in H as (raw & Hraw & H). apply bind_Some_inv in H as (read & _ & H).
    apply bind_Some_inv in H as (r1 & (p & Hp & ->)%with_transport_Some & H). got H. exists (Taken (read raw)).
    cbn. rewrite list_lookup_insert_eq by done. split; [done|].
    pose proof (transport_step_keeps _ _ _ (lo_transport _ _ _ Hl) Hp) as Ht. cbn [transport_step] in Hp.
    destruct (bool_decide (id ∈ submissions (transport (lane r)))); [done|].
    apply raw_section_Some in Hp as (st' & q & Hst' & Hq & ->). rewrite Hst in Hst'. injection Hst' as <-. cbn [fst] in Ht.
    apply (course_lane _ (submission r) _ (lane r) id st q.1); try done. intros c Hc' [Hf Hq']. rewrite Hc in Hc'. injection Hc' as <-.
    cbn in Hf. destruct Hf as (-> & H1 & H2 & H3 & H4). cbn in Hq. unfold take_callback in Hq. inv_binds.
    assert (forall s : RawOperation, observer (release_hook_locked s).1 = observer s /\ outcome (release_hook_locked s).1 = outcome s) as Hrel.
    { intros s. unfold release_hook_locked. by case_match. }
    unfold fits, v_answered in *. cbn. rewrite H4 in Hq'. unfold op_view. destruct (Hrel (set_observer delivered 0 (finish_callback (tok id) (relay st)) st)) as [E1 E2].
    rewrite (is_answered_same _ _ E2), E1. cbn. assert (is_answered st = true) as Ha by by apply bool_decide_true.
    assert (is_answered (set_observer delivered 0 (finish_callback (tok id) (relay st)) st) = true) as -> by exact Ha.
    split_and!; try done; [eauto|apply Hq'].
  - apply bind_Some_inv in H as (o & _ & H). apply bind_Some_inv in H as (r1 & (st & p & _ & _ & ->)%with_result_Some & H). got H.
    by apply (Hsame (set_watch _ _) Answered).
  - apply bind_Some_inv in H as (r1 & (st & p & _ & _ & ->)%with_result_Some & H). got H. by apply (Hsame (set_outcomes _ _) Settled).
  - apply bind_Some_inv in H as (tk & _ & H). destruct tk as [t|]; got H; [|by apply Hsame].
    apply Hsame; try done; destruct (queue_observer (Enqueue t) r).2; try done;
      by destruct (store_frame unqueued_failure (queue_observer (Enqueue t) r).1) as [c ->].
  - apply bind_Some_inv in H as (r1 & H1 & H). got H. destruct fine; [|got H1; by apply Hsame].
    apply with_lease_Some in H1 as (x & Hx & ->). exists Counted. unfold go_course. cbn. rewrite list_lookup_insert_eq by done. split; [done|].
    unfold runtime_lane, next_task in *. cbn. rewrite length_insert. by eapply recourse_lane.
  - destruct (tasks_locked r) eqn:El; [done|]. got H. pose proof (Hfits id _ Hc) as [Hf _]. cbn in Hf.
    rewrite (erase_gone _ _ id r Hok) by (by destruct Hf as (Hr%bool_decide_eq_false & _); apply eq_None_not_Some).
    exists Erased. cbn. rewrite list_lookup_insert_eq by done. split; [done|]. apply (erase_lane _ _ (lane r)); [exact Hok|done|].
    destruct Hf as (_ & _ & Hlist & st & Hv). intros g Hg. change (in_hand (submission r) = Some (id, g)) in Hg.
    pose proof (stage_here _ _ _ Hg) as Hs.
    unfold listed, view in Hlist. cbn in Hlist. rewrite Hs in Hlist. clear Hs. unfold tasks_locked in El.
    destruct (submission r); cbn in Hg; simplify_eq; cbn in *; done.
  - got H. exists Done. cbn. rewrite list_lookup_insert_eq by done. split; [done|]. unfold runtime_lane in *. cbn.
    eapply (other_field_lane _ _ (set_lane_at (Running turns cutoff) (set_courses (<[id := Done]> (courses (lane r))) (lane r)))); try done.
    eapply (lane_moves _ _ (lane r) _ _ id); [exact Hok| |done| |].
    + apply lane_at_frame; [|done]. destruct Hl. split; cbn; try done. by rewrite length_insert.
    + intros j Hj _. apply view_ext; try done. cbn. rewrite Hat. cbn. by rewrite bool_decide_false.
    + intros c Hc' [Hf Hq]. rewrite Hc in Hc'. injection Hc' as <-. cbn in Hf. destruct Hf as (H1 & H2 & H3 & H4).
      split; [|exact Hq]. unfold view in *. cbn in *. by split_and!.
Qed.

Lemma thread_lane r r' : runtime_lane r -> lane_step r = Some r' -> runtime_lane r'.
Proof.
  intros Hok H. unfold lane_step in H.
  assert (forall p, (forall id, working_on id p = working_on id (lane_at (lane r))) -> (forall k c id, p = Working k c id -> id < next_task r) ->
    runtime_lane (go_lane p r)) as Hgo by (intros p H1 H2; by apply rest_lane).
  destruct (lane_at (lane r)) as [| |[|turns] cutoff|turns cutoff id| |b|] eqn:Ep.
  - destruct (_ || _); [|done]. got H. eapply (other_field_lane _ _ (set_lane_at Starting (lane r))); try done. by apply Hgo.
  - got H. by apply Hgo.
  - got H. by apply Hgo.
  - destruct (q_claim_before cutoff (completions (lane r))) as [q [[t id]|]] eqn:Eq; got H; [|by apply Hgo].
    exact (claim_lane _ _ _ _ _ _ _ _ Hok Ep Eq).
  - apply bind_Some_inv in H as (r1 & H1 & H). apply bind_Some_inv in H as (c & Hc & H). got H.
    destruct (finish_lane _ _ _ _ _ Hok Ep H1) as (c' & Hc' & Hr). rewrite Hc in Hc'. injection Hc' as <-. done.
  - got H. by apply Hgo.
  - destruct (tasks_locked r); [done|]. got H. destruct (_ && _); by apply Hgo.
  - done.
Qed.

(** The other parties leave the lane alone, or wake the thread. *)
Lemma apart_lane r r' : runtime_lane r -> length (leases (books r')) = length (leases (books r)) -> submission r' = submission r ->
  lane r' = lane r -> runtime_lane r'.
Proof. unfold runtime_lane, next_task. by intros H -> -> ->. Qed.

Lemma handle_frame id a r r' : handle_step id a r = Some r' ->
  length (leases (books r')) = length (leases (books r)) /\ submission r' = submission r /\ lane r' = lane r /\ watch r' = watch r /\
  control r' = control r.
Proof.
  intros H. unfold handle_step in H. apply bind_Some_inv in H as (h & _ & H). destruct h, a; try discriminate H; take_apart; cbn;
    by rewrite ?length_insert.
Qed.

Lemma watch_frame a r r' : watch_step a r = Some r' ->
  length (leases (books r')) = length (leases (books r)) /\ submission r' = submission r /\ lane r' = lane r /\ outcomes r' = outcomes r.
Proof.
  intros H. unfold watch_step in H. destruct a; repeat (case_match; try discriminate H); take_apart; cbn; by rewrite ?length_insert.
Qed.

Lemma caller_lane k a r r' : runtime_lane r -> caller_step k a r = Some r' -> runtime_lane r'.
Proof.
  intros Hok H. unfold caller_step in H. apply bind_Some_inv in H as (x & _ & H).
  assert (runtime_lane (enter_close k r)) as Henter by (unfold enter_close; by repeat case_match).
  destruct x, a; try discriminate H; try (by got H).
  - destruct (submission r); try discriminate H. by got H.
  - destruct (tasks_locked r); [done|]. apply bind_Some_inv in H as (r1 & H1%cancel_tasks_lane & H); [|done]. by got H.
  - apply bind_Some_inv in H as (r1 & H1%with_transport_lane & H); [|done..]. by got H.
  - destruct (_ || _); [|done]. by got H.
  - apply bind_Some_inv in H as (b & _ & H). got H. destruct b; [done|]. by destruct (store_frame unretired_failure r) as [c ->].
  - got H. by eapply other_field_lane.
  - destruct (lane_at (lane r)); try discriminate H. by got H.
  - destruct (_ =? _)%nat; [|done]. by got H.
Qed.

Lemma runtime_lane_step a r r' : runtime_lane r -> runtime_step a r = Some r' -> runtime_lane r'.
Proof.
  intros Hok H. destruct a; cbn [runtime_step] in H.
  - by eapply submission_lane.
  - apply bind_Some_inv in H as (h & _ & H). destruct h; try discriminate H; by eapply with_transport_lane.
  - by eapply engine_lane.
  - by eapply publication_lane.
  - unfold hook_notifies in H. destruct (notifying (lane r)); [done|]. got H. by eapply other_field_lane.
  - by eapply thread_lane.
  - apply handle_frame in H as (? & ? & ? & _). by eapply apart_lane.
  - unfold result_hook in H. apply bind_Some_inv in H as (id & _ & H). apply bind_Some_inv in H as (r1 & H1%with_lease_lane & H); [|done]. by got H.
  - apply watch_frame in H as (? & ? & ? & _). by eapply apart_lane.
  - by eapply caller_lane.
Qed.

(** * The thread wakes *)

(** The thread has been told to look, or is to be told by a hook, or is about to look. *)
Definition stirred (l : Lane) : Prop := completion_wake l = true \/ 0 < notifying l \/ lane_at l = Starting.
(** It looks now, and as far as this generation. *)
Definition in_pass (g : N) (p : LaneAt) : Prop :=
  match p with Running _ cutoff | Working _ cutoff _ => (g <= cutoff)%N | _ => False end.
(** The submission is to tell it. *)
Definition to_notify (g : Stage) : Prop :=
  match g with AtLooking | AtEnqueuing | AtTracking | AtNotifying => True | _ => False end.

Definition covered (s : Submission) (l : Lane) (id : nat) (g : N) : Prop :=
  stirred l \/ in_pass g (lane_at l) \/ id ∉ retirements (transport l) \/ to_notify (stage_of s id).

(** The turns left of a pass are enough for what it has to do. *)
Definition turns_ok (l : Lane) : Prop :=
  match lane_at l with
  | Running turns cutoff | Working turns cutoff _ =>
      length (old cutoff (completions l)) <= turns /\ (cutoff <= q_last (completions l))%N
  | _ => True
  end.

Record wake_ok (s : Submission) (l : Lane) : Prop := {
  wk_aged : aged (completions l);
  wk_turns : turns_ok l;
  wk_covered : forall id g, (tok id, g) ∈ q_ready (completions l) -> covered s l id g;
}.

Definition runtime_wake (r : Runtime) : Prop := wake_ok (submission r) (lane r).

Lemma start_wake capacity callers : runtime_wake (start_runtime capacity callers).
Proof. split; cbn; try done; [|by intros id g Hx%elem_of_nil]. split; constructor. Qed.

(** A step that leaves the queue and the pass alone. *)
Lemma wake_keeps s l s' l' :
  wake_ok s l -> q_ready (completions l') = q_ready (completions l) -> q_last (completions l') = q_last (completions l) ->
  lane_at l' = lane_at l -> (completion_wake l = true -> completion_wake l' = true) ->
  stirred l' \/ (notifying l' = notifying l /\ (forall id, id ∈ retirements (transport l') -> id ∈ retirements (transport l)) /\
     (forall id, to_notify (stage_of s id) -> to_notify (stage_of s' id))) -> wake_ok s' l'.
Proof.
  intros [Ha Ht Hc] Eq El Ep Hw Hn. split; unfold aged, turns_ok, old in *; rewrite ?Ep, ?Eq, ?El; try done.
  intros id g Hg. destruct Hn as [Hs|(En & Hr & Hh)]; [by left|].
  destruct (Hc id g Hg) as [Hs|[Hp|[Hnr|Hs]]]; unfold covered.
  - left. unfold stirred in *. rewrite En, Ep. destruct Hs as [?|Hs]; auto.
  - right. left. by rewrite Ep.
  - right. right. left. auto.
  - right. right. right. auto.
Qed.

Lemma wake_enqueue s l s' id :
  wake_ok s l -> (to_notify (stage_of s' id) \/ id ∉ retirements (transport l)) -> (forall j, to_notify (stage_of s j) -> to_notify (stage_of s' j)) ->
  wake_ok s' (set_completions (q_exec (Enqueue (tok id)) (completions l)).1 l).
Proof.
  intros [Ha Ht Hc] Hid Hs.
  assert (forall j g, covered s l j g -> covered s' (set_completions (q_exec (Enqueue (tok id)) (completions l)).1 l) j g) as Hkeep.
  { intros j g [?|[?|[?|?]]]; [by left|right; by left|right; right; by left|right; right; right; auto]. }
  split; cbn.
  - by apply exec_aged.
  - unfold turns_ok in *. cbn. destruct (lane_at l) as [| |k c|k c i| |b|]; try done; destruct Ht as [Ht1 Ht2];
      destruct (exec_old c (Enqueue (tok id)) _ Ht2) as [Hsub%sublist_length Hle]; split; [lia|done|lia|done].
  - intros j g Hg. destruct (q_enqueue_cases (tok id) (completions l)) as [E|[E _]]; rewrite E in Hg; [|by apply Hkeep, Hc].
    unfold q_append, q_with in Hg. cbn in Hg. apply elem_of_app in Hg as [Hg|Hg%list_elem_of_singleton]; [by apply Hkeep, Hc|].
    apply (f_equal fst), tok_inj in Hg. subst j. destruct Hid as [Hid|Hid]; [right; right; by right|right; right; by left].
Qed.

Lemma claim_before_cases {B} cutoff (q : Queue (A := B)) : aged q -> q_wf q ->
  match q_claim_before cutoff q with
  | (q', None) => q' = q /\ old cutoff q = []
  | (q', Some _) => exists e, q_ready q = e :: q_ready q' /\ old cutoff q = e :: old cutoff q' /\ q_last q' = q_last q
  end.
Proof.
  intros [Hs _] Hwf. unfold q_claim_before. destruct (q_ready q) as [|[t g] l] eqn:Hl.
  { split; [done|]. unfold old. by rewrite Hl. }
  destruct (N.ltb_spec cutoff g) as [Hg|Hg].
  - split; [done|]. unfold old. rewrite Hl, filter_cons_False by (cbn; lia). apply filter_none.
    rewrite fmap_cons in Hs. apply StronglySorted_inv in Hs as [_ Hall]. rewrite Forall_fmap in Hall. eapply Forall_impl; [exact Hall|]. intros e He. cbn in *. lia.
  - unfold q_claim. rewrite Hl. destruct (qw_known _ Hwf t) as [x Hx]; [rewrite Hl; by left|]. rewrite Hx. cbn.
    exists (t, g). unfold old. cbn. by rewrite Hl, filter_cons_True.
Qed.

(** The pass of the thread. *)
Lemma wake_pass s l p :
  wake_ok s l -> turns_ok (set_lane_at p l) -> (lane_at l = Starting -> forall id g, (tok id, g) ∈ q_ready (completions l) -> in_pass g p) ->
  (forall id g, (tok id, g) ∈ q_ready (completions l) -> in_pass g (lane_at l) -> in_pass g p) -> wake_ok s (set_lane_at p l).
Proof.
  intros [Ha Ht Hc] Hp Hst Hpass. split; cbn; try done. intros id g Hg.
  destruct (Hc id g Hg) as [[Hs|[Hs|Hs]]|[Hs|[Hs|Hs]]].
  - left. by left.
  - left. right. by left.
  - right. left. eauto.
  - right. left. eauto.
  - right. right. by left.
  - right. right. by right.
Qed.

Lemma idle_stage s id : in_hand s = None -> stage_of s id = Elsewhere.
Proof. intros E. unfold stage_of. by rewrite E. Qed.

Lemma stage_to_notify s s' id g g' : in_hand s = Some (id, g) -> in_hand s' = Some (id, g') -> (to_notify g -> to_notify g') ->
  forall j, to_notify (stage_of s j) -> to_notify (stage_of s' j).
Proof. intros E E' H j. unfold stage_of. rewrite E, E'. cbn. by case_bool_decide. Qed.

(** What a transport action does to the retirements. *)
Lemma step_retirements a t p : transport_step a t = Some p ->
  retirements p.1 = retirements t \/ exists id, a = CallRetirement id.
Proof.
  intros H. destruct a; cbn [transport_step] in H; try (right; by eexists); left;
    try (repeat case_match; try done; by got H); try (by apply raw_section_Some in H as (? & ? & _ & _ & ->)).
  destruct (bool_decide _); [done|]. by apply raw_section_Some in H as (? & ? & _ & _ & ->).
Qed.

Lemma with_transport_wake a r r' : with_transport a r = Some r' -> (match a with CallRetirement _ => False | _ => True end) ->
  runtime_wake r -> runtime_wake r'.
Proof.
  intros (p & Hp & ->)%with_transport_Some Ha Hw. eapply wake_keeps; [exact Hw|done..|]. right. split_and!; try done.
  intros id. cbn. destruct (step_retirements _ _ _ Hp) as [-> | [i ->]]; done.
Qed.

Lemma with_lease_wake id f r r' : with_lease id f r = Some r' -> runtime_wake r -> runtime_wake r'.
Proof. by intros (x & _ & ->)%with_lease_Some. Qed.

Lemma cancel_tasks_wake ids r r' : cancel_tasks ids r = Some r' -> runtime_wake r -> runtime_wake r'.
Proof.
  revert r. induction ids as [|id ids IH]; cbn [cancel_tasks]; intros r H Hw; [by got H|].
  apply bind_Some_inv in H as (r1 & H1%with_transport_wake & H); [|done..]. by eapply IH.
Qed.

Lemma register_ready {B} t (x : B) (q : Queue (A := B)) :
  q_ready (q_exec (Register t x) q).1 = q_ready q /\ q_last (q_exec (Register t x) q).1 = q_last q.
Proof. unfold q_exec. by case_match. Qed.

Lemma submission_wake checked r r' : runtime_lane r -> runtime_wake r -> submission_step checked r = Some r' -> runtime_wake r'.
Proof.
  intros Hok Hw H. unfold submission_step in H.
  assert (forall s l, (forall j, to_notify (stage_of (submission r) j) -> to_notify (stage_of s j)) ->
    q_ready (completions l) = q_ready (completions (lane r)) -> q_last (completions l) = q_last (completions (lane r)) ->
    lane_at l = lane_at (lane r) -> completion_wake l = completion_wake (lane r) -> notifying l = notifying (lane r) ->
    retirements (transport l) = retirements (transport (lane r)) -> wake_ok s l) as Hkeep.
  { intros s l Hs E1 E2 E3 E4 E5 E6. eapply wake_keeps; [exact Hw|done..|by rewrite E4|]. right. split_and!; try done. by rewrite E6. }
  assert (in_hand (submission r) = None -> forall s l, lane r = l -> wake_ok s l) as Hidle.
  { intros E s l <-. apply Hkeep; try done. intros j. by rewrite idle_stage. }
  destruct (submission r) eqn:Es.
  - destruct (negb _); [got H; by apply Hidle|]. destruct checked; got H; by apply Hidle.
  - got H. destruct (ledger_full _); by apply Hidle.
  - destruct (observed_as c); got H; by apply Hidle.
  - destruct token as [t|]; got H; [|by apply Hidle]. destruct (queue_observer _ _).2; by apply Hidle.
  - got H. apply Hkeep; try done.
  - apply bind_Some_inv in H as (r1 & (p & Hp & ->)%with_transport_Some & H). got H. apply Hkeep; try done; try by eapply stage_to_notify.
    cbn. by destruct (step_retirements _ _ _ Hp) as [-> | [i [=]]].
  - apply bind_Some_inv in H as (r1 & (p & Hp & ->)%with_transport_Some & H). got H. apply Hkeep; try done; try by eapply stage_to_notify.
    cbn. by destruct (step_retirements _ _ _ Hp) as [-> | [i [=]]].
  - got H. apply Hkeep; try done; by eapply stage_to_notify.
  - apply bind_Some_inv in H as (r1 & (p & Hp & ->)%with_transport_Some & H). got H. apply Hkeep; try done; try by eapply stage_to_notify.
    cbn. by destruct (step_retirements _ _ _ Hp) as [-> | [i [=]]].
  - destruct (queue_completion _ _).2; [|done]. got H. destruct (register_ready token id (completions (lane r))) as [E1 E2].
    apply Hkeep; try done; by eapply stage_to_notify.
  - apply bind_Some_inv in H as (st & Hst & H). got H. apply Hkeep; try done; destruct (is_answered st); by eapply stage_to_notify.
  - got H. unfold runtime_lane in Hok. rewrite Es in Hok. destruct Hok as [Hl _].
    pose proof (lo_hand _ _ _ Hl _ eq_refl) as Hn. pose proof (lo_token _ _ _ Hl _ eq_refl) as Ht. cbn in Hn.
    assert (token = tok id) as -> by (unfold tok; lia). unfold runtime_wake in Hw. rewrite Es in Hw.
    apply (wake_enqueue (SelfEnqueuing id (tok id))); [exact Hw| |by eapply stage_to_notify].
    left. cbn. by rewrite (stage_here (Tracking id (tok id)) id AtTracking).
  - got H. apply Hkeep; try done; by eapply stage_to_notify.
  - got H. eapply wake_keeps; [exact Hw|done..|]. left. by left.
Qed.

Lemma engine_wake a r r' : runtime_wake r -> engine_step a r = Some r' -> runtime_wake r'.
Proof.
  intros Hw H. unfold engine_step in H. destruct a; try discriminate H; try (case_bool_decide as Hq; [done|]);
    try by eapply with_transport_wake.
  apply bind_Some_inv in H as (r1 & (p & _ & ->)%with_transport_Some & H).
  apply bind_Some_inv in H as (r2 & (x & _ & ->)%with_lease_Some & H). got H.
  eapply wake_keeps; [exact Hw|done..|]. left. right. left. cbn. lia.
Qed.

Lemma publication_wake k r r' : runtime_lane r -> runtime_wake r -> publication_queues k r = Some r' -> runtime_wake r'.
Proof.
  intros [Hl Hf] Hw H. unfold publication_queues in H. apply bind_Some_inv in H as ([id t] & He & H). got H.
  assert ((id, t) ∈ enqueuing (lane r)) as Hin by by eapply list_elem_of_lookup_2.
  destruct (lo_queued _ _ _ Hl _ Hin) as [Et Hid]. cbn [fst snd] in *. subst t.
  assert (id ∉ retirements (transport (lane r))) as Hnr.
  { rewrite <-(lo_courses _ _ _ Hl) in Hid. destruct (lookup_lt_is_Some_2 _ _ Hid) as [c Hc]. destruct (Hf id c Hc) as (_ & Hq & _).
    destruct Hq as [_ Hn]; [|by apply bool_decide_eq_false in Hn]. apply bool_decide_true. by apply (list_elem_of_fmap_2 fst) in Hin. }
  eapply (wake_keeps (submission r) (set_completions (q_exec (Enqueue (tok id)) (completions (lane r))).1 (lane r)));
    [|done..|by right]. apply (wake_enqueue (submission r)); [exact Hw|by right|done].
Qed.

Lemma finish_wake id r r' : runtime_lane r -> runtime_wake r -> finish_step id r = Some r' ->
  runtime_wake r' /\ lane_at (lane r') = lane_at (lane r).
Proof.
  intros Hok Hw H. unfold finish_step in H. apply bind_Some_inv in H as (c & Hc & H). pose proof Hok as [_ Hfits]. destruct c; try discriminate H.
  - apply bind_Some_inv in H as (st & Hst & H). apply bind_Some_inv in H as (raw & Hraw & H). apply bind_Some_inv in H as (read & _ & H).
    apply bind_Some_inv in H as (r1 & H1 & H). got H. pose proof H1 as (p & _ & ->)%with_transport_Some. split; [|done].
    apply with_transport_wake in H1; [|done|exact Hw]. eapply wake_keeps; [exact H1|done..|by right].
  - take_apart. split; [|done]. eapply wake_keeps; [exact Hw|done..|by right].
  - take_apart. split; [|done]. eapply wake_keeps; [exact Hw|done..|by right].
  - apply bind_Some_inv in H as (tk & _ & H). assert (exists x, lane x = lane r /\ submission x = submission r /\ 
      r' = go_course id (Enqueued (match tk with Some t => (queue_observer (Enqueue t) r).2 | None => true end)) x) as (x & E1 & E2 & ->).
    { destruct tk as [t|]; got H; [|by exists r]. eexists. split_and!; [..|reflexivity]; case_match; try done;
        by destruct (store_frame unqueued_failure (queue_observer (Enqueue t) r).1) as [c0 ->]. }
    split; [|cbn; by rewrite E1]. eapply wake_keeps; [exact Hw|cbn; rewrite ?E1, ?E2; try done..]. by right.
  - apply bind_Some_inv in H as (r1 & H1 & H). got H. destruct fine; [apply with_lease_Some in H1 as (x & _ & ->)|got H1];
      (split; [|done]); (eapply wake_keeps; [exact Hw|done..|by right]).
  - destruct (tasks_locked r); [done|]. got H. destruct (Hfits id _ Hc) as [Hf _]. cbn in Hf.
    rewrite (erase_gone _ _ id r Hok) by (by destruct Hf as (Hr%bool_decide_eq_false & _); apply eq_None_not_Some).
    split; [|done]. eapply wake_keeps; [exact Hw|done..|by right].
  - got H. split; [|done]. eapply wake_keeps; [exact Hw|done..|left; by left].
Qed.

Lemma in_old {B} cutoff (q : Queue (A := B)) e : old cutoff q = [] -> e ∈ q_ready q -> (cutoff < e.2)%N.
Proof.
  intros Ho He. destruct (N.lt_ge_cases cutoff e.2) as [|Hle]; [done|]. exfalso.
  assert (e ∈ old cutoff q) as Hin by by apply list_elem_of_filter. rewrite Ho in Hin. by apply elem_of_nil in Hin.
Qed.

Lemma thread_wake r r' : runtime_lane r -> runtime_wake r -> lane_step r = Some r' -> runtime_wake r'.
Proof.
  intros Hok Hw H. unfold lane_step in H. pose proof Hw as [Ha Ht Hc]. pose proof Hok as [Hl _].
  assert (forall p, lane_at (lane r) <> Starting -> (match p with Running _ _ | Working _ _ _ => False | _ => True end) ->
    (forall id g, (tok id, g) ∈ q_ready (completions (lane r)) -> ~ in_pass g (lane_at (lane r))) -> runtime_wake (go_lane p r)) as Hrest.
  { intros p Hst Hp Hno. apply (wake_pass (submission r) (lane r)); [exact Hw|unfold turns_ok; cbn; by destruct p|done|].
    intros id g Hg Hg'. by destruct (Hno id g Hg). }
  assert (forall cutoff, old cutoff (completions (lane r)) = [] -> forall id g, (tok id, g) ∈ q_ready (completions (lane r)) -> ~ (g <= cutoff)%N) as Hnone.
  { intros cutoff Ho id g Hg. apply (in_old _ _ _ Ho) in Hg. cbn in Hg. lia. }
  unfold turns_ok in Ht. destruct (lane_at (lane r)) as [| |[|turns] cutoff|turns cutoff id| |b|] eqn:Ep.
  - destruct (_ || _); [|done]. got H. split; cbn; [done|done|]. intros id g _. left. by right; right.
  - got H. apply (wake_pass (submission r) (lane r)); [exact Hw| | |by rewrite Ep].
    + unfold turns_ok. cbn. split; [|lia]. unfold old. apply length_filter.
    + intros _ id g Hg. cbn. destruct Ha as [_ Ha]. rewrite Forall_fmap, Forall_forall in Ha. exact (Ha _ Hg).
  - got H. destruct Ht as [Ht _]. apply Hrest; [done|done|]. cbn. apply Hnone. by apply length_zero_iff_nil; lia.
  - destruct Ht as [Ht1 Ht2]. pose proof (claim_before_cases cutoff (completions (lane r)) Ha (lo_queue _ _ _ Hl)) as Hcl.
    destruct (q_claim_before cutoff (completions (lane r))) as [q [[t id]|]] eqn:Eq; got H.
    + destruct Hcl as (e & E1 & E2 & E3). split; cbn.
      * eapply aged_shrink; [done| |done]. rewrite E1. by apply sublist_cons.
      * unfold turns_ok. cbn. rewrite E3. rewrite E2 in Ht1. cbn in Ht1. split; [lia|done].
      * intros j g Hg. assert ((tok j, g) ∈ q_ready (completions (lane r))) as Hg' by (rewrite E1; by right).
        destruct (Hc j g Hg') as [[Hs|[Hs|Hs]]|[Hs|[Hs|Hs]]].
        -- left. by left.
        -- left. right. by left.
        -- congruence.
        -- right. left. rewrite Ep in Hs. exact Hs.
        -- right. right. by left.
        -- right. right. by right.
    + apply Hrest; [done|done|]. cbn. apply Hnone. apply Hcl.
  - apply bind_Some_inv in H as (r1 & H1 & H). apply bind_Some_inv in H as (c & Hc' & H). got H.
    destruct (finish_wake _ _ _ Hok Hw H1) as [Hw1 Ep1]. destruct c; try done.
    apply (wake_pass (submission r1) (lane r1)); [exact Hw1| | |].
    + pose proof (wk_turns _ _ Hw1) as Ht1. unfold turns_ok in *. rewrite Ep1, Ep in Ht1. exact Ht1.
    + by rewrite Ep1, Ep.
    + rewrite Ep1, Ep. done.
  - got H. apply Hrest; [done|done|]. intros i g _ [].
  - destruct (tasks_locked r); [done|]. got H. apply Hrest; [done|by destruct (_ && _)|intros i g _ []].
  - done.
Qed.

Lemma apart_wake r r' : runtime_wake r -> submission r' = submission r -> lane r' = lane r -> runtime_wake r'.
Proof. unfold runtime_wake. by intros H -> ->. Qed.

Lemma caller_wake k a r r' : runtime_wake r -> caller_step k a r = Some r' -> runtime_wake r'.
Proof.
  intros Hok H. unfold caller_step in H. apply bind_Some_inv in H as (x & _ & H).
  assert (runtime_wake (enter_close k r)) as Henter by (unfold enter_close; by repeat case_match).
  destruct x, a; try discriminate H; try (by got H).
  - destruct (submission r); try discriminate H. by got H.
  - destruct (tasks_locked r); [done|]. apply bind_Some_inv in H as (r1 & H1%cancel_tasks_wake & H); [|done]. by got H.
  - apply bind_Some_inv in H as (r1 & H1%with_transport_wake & H); [|done..]. by got H.
  - destruct (_ || _); [|done]. by got H.
  - apply bind_Some_inv in H as (b & _ & H). got H. destruct b; [done|]. by destruct (store_frame unretired_failure r) as [c ->].
  - got H. eapply wake_keeps; [exact Hok|done..|left; by left].
  - destruct (lane_at (lane r)); try discriminate H. by got H.
  - destruct (_ =? _)%nat; [|done]. by got H.
Qed.

Lemma runtime_wake_step a r r' : runtime_lane r -> runtime_wake r -> runtime_step a r = Some r' -> runtime_wake r'.
Proof.
  intros Hok Hw H. destruct a; cbn [runtime_step] in H.
  - by eapply submission_wake.
  - apply bind_Some_inv in H as (h & _ & H). destruct h; try discriminate H; by eapply with_transport_wake.
  - by eapply engine_wake.
  - by eapply publication_wake.
  - unfold hook_notifies in H. destruct (notifying (lane r)); [done|]. got H.
    eapply wake_keeps; [exact Hw|done..|left; by left].
  - by eapply thread_wake.
  - apply handle_frame in H as (_ & ? & ? & _). by eapply apart_wake.
  - unfold result_hook in H. apply bind_Some_inv in H as (id & _ & H). apply bind_Some_inv in H as (r1 & H1%with_lease_wake & H); [|done]. by got H.
  - apply watch_frame in H as (_ & ? & ? & _). by eapply apart_wake.
  - by eapply caller_wake.
Qed.

Lemma reachable_lane capacity callers r : reachable capacity callers r -> runtime_lane r /\ runtime_wake r.
Proof.
  induction 1 as [|a r r' _ [IH1 IH2] H]; [split; [apply start_lane|apply start_wake]|].
  split; [by eapply runtime_lane_step|by eapply runtime_wake_step].
Qed.
