(* ===== verification/RuntimeProofs.v ===== *)
(** What the runtime promises: the theorems over every state it reaches.

    [runtime_ok] joins the ledger and the handles of RuntimeBooks with the lane of RuntimeLane
    and what is known of answers, observers and closing. *)

From S2P Require Import Prelude Command Redaction Process Endpoint Commands Backend Wake CompletionQueue OperationState Operations Transport Runtime RuntimeBooks RuntimeLane.

(** * The handles, through every step *)

(** A command in the submission's hands has not been returned. *)
Definition unreturned (r : Runtime) : Prop :=
  forall p, in_hand (submission r) = Some p -> handles (outcomes r) !! p.1 = Some Unreturned.

Definition leases_admitted (r : Runtime) : Prop := forall x, x ∈ leases (books r) -> admitted x = true.

Lemma books_admitted limit r : books_ok limit (books r) (submission r) -> leases_admitted r.
Proof. intros [] x Hx. rewrite Forall_forall in bo_leases. by apply bo_leases. Qed.

Lemma owned_handled id r : handled r -> handles (outcomes r) !! id = Some Unreturned -> handled (go_handle id Owned (notify_completion r)).
Proof.
  intros [] Hid. split; cbn; rewrite ?length_insert; try done.
  - intros k st h x H1 H2 H3. apply list_lookup_insert_Some in H2 as [(-> & <- & _)|[_ H2]]; [|eauto].
    exact (rs_fits k st Unreturned x H1 Hid H3).
  - intros k Hk. destruct (rs_releasing k Hk) as (h & E & Hc). destruct (decide (k = id)) as [->|Hn].
    + rewrite Hid in E. injection E as <-. destruct Hc; done.
    + rewrite list_lookup_insert_ne by done. eauto.
Qed.

(** A step that leaves outcomes, leases and the submission's command alone. *)
Lemma same_handled r r' : handled r -> unreturned r -> outcomes r' = outcomes r -> leases (books r') = leases (books r) ->
  (in_hand (submission r') = None \/ exists id g g', in_hand (submission r) = Some (id, g) /\ in_hand (submission r') = Some (id, g')) ->
  handled r' /\ unreturned r'.
Proof.
  intros Hh Hu Eo El Hs. unfold handled, unreturned. rewrite Eo, El. split; [done|]. intros p Hp.
  destruct Hs as [Hs|(id & g & g' & E & E')]; [congruence|]. rewrite E' in Hp. injection Hp as <-. exact (Hu _ E).
Qed.

Lemma submission_handled checked r r' : handled r -> unreturned r -> submission_step checked r = Some r' -> handled r' /\ unreturned r'.
Proof.
  intros Hh Hu H. unfold submission_step in H.
  assert (forall x, outcomes x = outcomes r -> leases (books x) = leases (books r) -> in_hand (submission x) = None -> handled x /\ unreturned x) as Hidle.
  { intros x E1 E2 E3. apply (same_handled r); auto. }
  assert (forall x id g g', outcomes x = outcomes r -> leases (books x) = leases (books r) -> in_hand (submission r) = Some (id, g) ->
    in_hand (submission x) = Some (id, g') -> handled x /\ unreturned x) as Hgo.
  { intros x id g g' E1 E2 E3 E4. apply (same_handled r); try done. right. by exists id, g, g'. }
  destruct (submission r) eqn:Es.
  - destruct (negb _); [got H; by apply Hidle|]. destruct checked; got H; by apply Hidle.
  - got H. destruct (ledger_full _); by apply Hidle.
  - destruct (observed_as c); got H; by apply Hidle.
  - destruct token as [t|]; got H; [|by apply Hidle]. destruct (queue_observer _ _).2; by apply Hidle.
  - got H. split; [by apply new_task_handled|]. intros p [= <-]. cbn. rewrite lookup_app_r; unfold next_task; rewrite (rs_handles _ _ Hh); [|lia].
    by rewrite Nat.sub_diag.
  - take_apart. by eapply Hgo.
  - take_apart. by eapply Hgo.
  - got H. by eapply Hgo.
  - take_apart. by eapply Hgo.
  - destruct (queue_completion _ _).2; [|done]. got H. by eapply Hgo.
  - take_apart. destruct (is_answered _); by eapply Hgo.
  - got H. by eapply Hgo.
  - got H. by eapply Hgo.
  - got H. unfold unreturned in Hu. rewrite Es in Hu. split; [|by intros p [=]].
    apply (owned_handled id r) in Hh; [exact Hh|]. exact (Hu _ eq_refl).
Qed.

Lemma handle_keeps_unreturned id a r r' : handle_step id a r = Some r' ->
  forall k, handles (outcomes r) !! k = Some Unreturned -> handles (outcomes r') !! k = Some Unreturned.
Proof.
  intros H k Hk. unfold handle_step in H. apply bind_Some_inv in H as (h & Hh & H).
  destruct (decide (k = id)) as [->|Hn]; [rewrite Hk in Hh; injection Hh as <-; by destruct a|].
  destruct h, a; try discriminate H; take_apart; cbn; by rewrite list_lookup_insert_ne.
Qed.

Lemma finish_handles id r r' : finish_step id r = Some r' -> handles (outcomes r') = handles (outcomes r) /\ submission r' = submission r.
Proof.
  intros H. unfold finish_step in H. apply bind_Some_inv in H as (c & _ & H). destruct c; try discriminate H; try by take_apart.
  - apply bind_Some_inv in H as (tok & _ & H). destruct tok as [t|]; got H; [|done].
    destruct (queue_observer (Enqueue t) r).2; [done|]. by destruct (store_frame unqueued_failure (queue_observer (Enqueue t) r).1) as [c ->].
  - apply bind_Some_inv in H as (r1 & H1 & H). got H. destruct fine; by take_apart.
  - destruct (tasks_locked r); [done|]. got H. by destruct (erase_frame id r) as (q & l & ->).
Qed.

Lemma thread_handles r r' : lane_step r = Some r' -> handles (outcomes r') = handles (outcomes r) /\ submission r' = submission r.
Proof.
  intros H. unfold lane_step in H. destruct (lane_at (lane r)) as [| |[|turns] cutoff|turns cutoff id| |b|]; try (by got H).
  - destruct (_ || _); [|done]. by got H.
  - destruct (q_claim_before _ _) as [q [[t id]|]]; by got H.
  - apply bind_Some_inv in H as (r1 & H1%finish_handles & H). apply bind_Some_inv in H as (c & _ & H). got H. by destruct c.
  - destruct (tasks_locked r); [done|]. by got H.
  - done.
Qed.

Lemma enter_frame k r : exists c, enter_close k r = set_control c r.
Proof. unfold enter_close. repeat case_match; by eexists. Qed.

Lemma caller_frame k a r r' : caller_step k a r = Some r' ->
  outcomes r' = outcomes r /\ leases (books r') = leases (books r) /\ submission r' = submission r /\ closures (lane r') = closures (lane r) /\
  courses (lane r') = courses (lane r).
Proof.
  intros H. unfold caller_step in H. apply bind_Some_inv in H as (x & _ & H). destruct (enter_frame k r) as [c0 E0].
  destruct x, a; try discriminate H; rewrite ?E0 in H; try (by got H).
  - destruct (submission r) eqn:Es; try discriminate H. by got H.
  - destruct (tasks_locked r); [done|]. by take_apart.
  - destruct (_ || _); [|done]. by got H.
  - apply bind_Some_inv in H as (b & _ & H). got H. destruct b; [done|]. by destruct (store_frame unretired_failure r) as [c ->].
  - destruct (lane_at (lane r)); try discriminate H. by got H.
  - destruct (_ =? _)%nat; [|done]. by got H.
Qed.

Lemma runtime_handled_step limit a r r' : books_ok limit (books r) (submission r) -> handled r -> unreturned r ->
  runtime_step a r = Some r' -> handled r' /\ unreturned r'.
Proof.
  intros Hb Hh Hu H. pose proof (books_admitted _ _ Hb) as Had. destruct a; cbn [runtime_step] in H.
  - by eapply submission_handled.
  - apply bind_Some_inv in H as (h & _ & H). destruct h; try discriminate H; by take_apart.
  - unfold engine_step in H. destruct a; try discriminate H; try (case_bool_decide; [done|]); try by take_apart.
    apply bind_Some_inv in H as (r1 & (p & _ & ->)%with_transport_Some & H). apply bind_Some_inv in H as (r2 & H2 & H). got H.
    pose proof H2 as (x & _ & E)%with_lease_Some. apply with_lease_handled in H2 as [H2 _]; [by subst r2|intros; apply finish_leg_result|done].
  - unfold publication_queues in H. by take_apart.
  - unfold hook_notifies in H. destruct (notifying (lane r)); [done|]. by got H.
  - pose proof (thread_handles _ _ H) as [E1 E2]. split; [by eapply lane_handled|]. unfold unreturned. by rewrite E1, E2.
  - split; [by eapply handle_handled|]. intros p. destruct (handle_frame _ _ _ _ H) as (_ & -> & _). intros Hp.
    eapply handle_keeps_unreturned; [done|]. by apply Hu.
  - split; [by eapply hook_handled|]. unfold result_hook in H. take_apart. exact Hu.
  - pose proof (watch_frame _ _ _ H) as (_ & E2 & _ & E4).
    unfold unreturned. rewrite E2, E4. split; [|exact Hu]. unfold watch_step in H.
    destruct a; repeat (case_match; try discriminate H); take_apart; try done; cbn;
      (eapply results_leases; [exact Hh|done|apply finish_leg_result]).
  - apply caller_frame in H as (E1 & E2 & E3 & _). unfold handled, unreturned. by rewrite E1, E2, E3.
Qed.

(** * Answers *)

(** The answer of a command: its own reading of what the engine's operation ended with. *)
Definition answered_as (l : Lane) (id : nat) (a : Answer) : Prop :=
  exists st raw read, operations (transport l) !! id = Some st /\ outcome st = Some raw /\ closures l !! id = Some read /\ a = read raw.

Definition answer_fits (l : Lane) (id : nat) (c : Course) (rs : TextOperation) : Prop :=
  match c with
  | Unsubscribed | Selected _ | Recorded_ _ | Claimed _ => outcome rs = None /\ OperationState.transport rs = dispatching_
  | Taken a => outcome rs = None /\ OperationState.transport rs = dispatching_ /\ answered_as l id a
  | Answered => exists a, outcome rs = Some a /\ OperationState.transport rs = dispatching_ /\ answered_as l id a
  | Settled | Enqueued _ | Counted | Erased | Done =>
      exists a, outcome rs = Some a /\ OperationState.transport rs = retired /\ answered_as l id a
  end.

Definition answers_ok (l : Lane) (res : list TextOperation) : Prop :=
  forall id c rs, courses l !! id = Some c -> res !! id = Some rs -> answer_fits l id c rs.

Definition runtime_answers (r : Runtime) : Prop := answers_ok (lane r) (results (outcomes r)).

(** What was answered stays as it is. *)
Definition keeps_answers (l l' : Lane) : Prop := forall id a, answered_as l id a -> answered_as l' id a.

Lemma answer_fits_keeps l l' id c rs : keeps_answers l l' -> answer_fits l id c rs -> answer_fits l' id c rs.
Proof. intros Hk. destruct c; cbn; try done; naive_solver. Qed.

Lemma answers_keep l l' res : keeps_answers l l' -> courses l' = courses l -> answers_ok l res -> answers_ok l' res.
Proof. intros Hk E Ho id c rs Hc Hrs. rewrite E in Hc. eapply answer_fits_keeps; eauto. Qed.

Lemma keeps_same l l' : operations (transport l') = operations (transport l) -> closures l' = closures l -> keeps_answers l l'.
Proof. intros E1 E2 id a. unfold answered_as. by rewrite E1, E2. Qed.

(** A published outcome is the operation's last. *)
Lemma step_outcome a t p id st raw : transport_ok t -> transport_step a t = Some p -> operations t !! id = Some st -> outcome st = Some raw ->
  exists st', operations p.1 !! id = Some st' /\ outcome st' = Some raw.
Proof.
  intros Ht Hp Hst Hraw.
  assert (forall k f, raw_section k f t = Some p -> (forall st q, state_ok st -> f st = Some q -> is_Some (outcome st) -> outcome q.1 = outcome st) ->
    exists st', operations p.1 !! id = Some st' /\ outcome st' = Some raw) as Hsec.
  { intros k f (st0 & q & H0 & Hq & ->)%raw_section_Some Hf. cbn. destruct (decide (k = id)) as [->|Hn].
    - rewrite list_lookup_insert_eq by by eapply lookup_lt_Some. exists q.1. split; [done|]. rewrite Hst in H0. injection H0 as <-.
      rewrite (Hf st q); [done| |done|by eexists]. by eapply Forall_lookup_1; [apply (to_states _ Ht)|].
    - rewrite list_lookup_insert_ne by done. eauto. }
  destruct a; cbn [transport_step] in Hp.
  - got Hp. exists st. split; [|done]. by apply lookup_app_l_Some.
  - destruct (_ && _); [|done]. got Hp. eauto.
  - eapply Hsec; [done|]. intros s q Hs Hq Ho. destruct (publish_raw_keeps _ _ _ Hs Hq) as (_ & _ & Hn & _). rewrite Hn in Ho. by destruct Ho.
  - eapply Hsec; [done|]. intros s q Hs Hq Ho. by destruct (advance_raw_keeps _ _ _ Hs Hq) as (_ & _ & _ & Hn & _).
  - eapply Hsec; [done|]. intros s q Hs Hq Ho. by destruct (retire_raw_keeps _ _ Hs Hq) as (_ & _ & _ & Hn & _).
  - apply bind_Some_inv in Hp as (s & _ & Hp). destruct (_ && _); [|done]. got Hp. eauto.
  - destruct (bool_decide _); [done|]. eapply Hsec; [done|]. intros s q Hs Hq Ho. by apply (sec_outcome _ _ _ (handle_section_ok _ _ _ Hs Hq)).
  - got Hp. eauto.
  - destruct (bool_decide _ && all_retired t); [|done]. got Hp. eauto.
Qed.

Lemma with_transport_keeps a r r' : runtime_lane r -> with_transport a r = Some r' -> keeps_answers (lane r) (lane r').
Proof.
  intros [Hl _] (p & Hp & ->)%with_transport_Some id x (st & raw & read & H1 & H2 & H3 & ->).
  destruct (step_outcome _ _ _ _ _ _ (lo_transport _ _ _ Hl) Hp H1 H2) as (st' & H4 & H5). by exists st', raw, read.
Qed.

Lemma cancel_tasks_keeps ids r r' : runtime_lane r -> cancel_tasks ids r = Some r' -> keeps_answers (lane r) (lane r').
Proof.
  revert r. induction ids as [|id ids IH]; cbn [cancel_tasks]; intros r Hl H; [got H; by intros k x|].
  apply bind_Some_inv in H as (r1 & H1 & H). intros k x Hx. eapply IH; [by eapply with_transport_lane|done|].
  by eapply with_transport_keeps.
Qed.

(** One course moves, and what is known of its answer with it. *)
Lemma answers_course l res id c' :
  answers_ok l res -> (forall c rs, courses l !! id = Some c -> res !! id = Some rs -> answer_fits l id c rs -> answer_fits l id c' rs) ->
  answers_ok (set_courses (<[id := c']> (courses l)) l) res.
Proof.
  intros Ho Hid k c rs [(-> & <- & Hlt)|[Hn Hc]]%list_lookup_insert_Some Hrs; [|by apply Ho].
  destruct (lookup_lt_is_Some_2 _ _ Hlt) as [c0 Hc0]. by apply (Hid c0 rs); [..|apply Ho].
Qed.

(** A result's section, with its course. *)
Lemma answers_result l res id (q : TextOperation) c' :
  answers_ok l res -> (forall c rs, courses l !! id = Some c -> res !! id = Some rs -> answer_fits l id c rs -> answer_fits l id c' q) ->
  answers_ok (set_courses (<[id := c']> (courses l)) l) (<[id := q]> res).
Proof.
  intros Ho Hid k c rs [(-> & <- & Hlt)|[Hn Hc]]%list_lookup_insert_Some Hrs.
  - apply list_lookup_insert_Some in Hrs as [(_ & <- & Hlt')|[? _]]; [|done].
    destruct (lookup_lt_is_Some_2 _ _ Hlt) as [c0 Hc0], (lookup_lt_is_Some_2 _ _ Hlt') as [rs0 Hr0].
    by apply (Hid c0 rs0); [..|apply Ho].
  - rewrite list_lookup_insert_ne in Hrs by done. by apply Ho.
Qed.

(** Where the command in the submission's hands is. *)
Lemma course_in_hand n s l id g : lane_ok n s l -> in_hand s = Some (id, g) ->
  exists c, courses l !! id = Some c /\
    match g with AtHanding | AtHanded | AtSubscribing => c = Unsubscribed | AtRegistering => exists t, c = Selected t | _ => True end.
Proof.
  intros [Hl Hf] E. pose proof (lo_hand _ _ _ Hl _ E) as Hn. cbn in Hn.
  assert (id < length (courses l)) as Hlt by (rewrite (lo_courses _ _ _ Hl); lia).
  destruct (lookup_lt_is_Some_2 _ _ Hlt) as [c Hc]. exists c. split; [done|]. destruct (Hf id c Hc) as [Hfc _].
  assert (v_stage (view s l id) = g) as Hs by by apply stage_here.
  destruct c; cbn in Hfc; unfold listed, over in Hfc; rewrite ?Hs in Hfc; destruct g; cbn in Hfc; open_fits; eauto.
Qed.

(** A claimed record is one that was recorded. *)
Lemma claimed_course n s l cutoff q token id :
  lane_ok n s l -> q_claim_before cutoff (completions l) = (q, Some (token, id)) -> exists t, courses l !! id = Some (Recorded_ t).
Proof.
  intros [Hl Hf] Hq.
  assert (q_callbacks (completions l) !! token = Some id) as Hcb.
  { unfold q_claim_before, q_claim in Hq. destruct (q_ready (completions l)) as [|[t g] rest]; [done|]. destruct (cutoff <? g)%N; [done|].
    destruct (q_callbacks (completions l) !! t) eqn:E; [|done]. injection Hq as _ <- <-. done. }
  destruct (lo_records _ _ _ Hl _ _ Hcb) as [-> Hid]. rewrite <-(lo_courses _ _ _ Hl) in Hid.
  destruct (lookup_lt_is_Some_2 _ _ Hid) as [c Hc]. destruct (Hf id c Hc) as [Hfc _].
  assert (v_recorded (view s l id) = true) as Hr by by apply bool_decide_true; rewrite Hcb.
  destruct c; cbn in Hfc; rewrite Hr in Hfc; open_fits; eauto.
Qed.

Lemma handle_outcome c (st : TextOperation) (p : TextOperation * list effect) : handle_call c st = Some p -> outcome p.1 = outcome st.
Proof.
  assert (forall s : TextOperation, outcome (release_hook_locked s).1 = outcome s) as Hrel.
  { intros s. unfold release_hook_locked. by case_match. }
  destruct c; cbn; unfold request_cancel, select_blocking, begin_wait, finish_wait, select_callback, take_callback;
    intros H; inv_binds; cbn; try done; try by rewrite Hrel.
  - unfold detach_callback. case_match; [done|]. by rewrite Hrel.
  - unfold detach_unselected. case_match; [|done]. by rewrite Hrel.
Qed.

Lemma submission_answers checked r r' : runtime_lane r -> handled r -> runtime_answers r -> submission_step checked r = Some r' -> runtime_answers r'.
Proof.
  intros Hl Hh Ha H. unfold submission_step in H.
  assert (forall x, outcomes x = outcomes r -> lane x = lane r -> runtime_answers x) as Hsame.
  { intros x E1 E2. unfold runtime_answers. by rewrite E1, E2. }
  assert (forall x, outcomes x = outcomes r -> keeps_answers (lane r) (lane x) -> courses (lane x) = courses (lane r) -> runtime_answers x) as Hkeep.
  { intros x E1 E2 E3. unfold runtime_answers. rewrite E1. by eapply answers_keep. }
  pose proof Hl as Hl'. unfold runtime_lane in Hl'. destruct (submission r) eqn:Es.
  - destruct (negb _); [got H; by apply Hsame|]. destruct checked; got H; by apply Hsame.
  - got H. destruct (ledger_full _); by apply Hsame.
  - destruct (observed_as c); got H; by apply Hsame.
  - destruct token as [t|]; got H; [|by apply Hsame]. destruct (queue_observer _ _).2; by apply Hsame.
  - got H. unfold runtime_answers. cbn. intros id c0 rs Hc Hrs.
    assert (length (results (outcomes r)) = length (courses (lane r))) as El.
    { rewrite (rs_results _ _ Hh). symmetry. apply Hl'. }
    apply lookup_app_Some in Hc as [Hc|[Hge Hc]].
    + rewrite lookup_app_l in Hrs by (rewrite El; by eapply lookup_lt_Some). eapply answer_fits_keeps; [|by apply Ha].
      intros k a (st & raw & read & ? & ? & ? & ->). exists st, raw, read. split_and!; try done. by apply lookup_app_l_Some.
    + rewrite lookup_app_r in Hrs by (by rewrite El). apply list_lookup_singleton_Some in Hc as [_ <-], Hrs as [_ <-]. done.
  - apply bind_Some_inv in H as (r1 & H1 & H). got H. pose proof (with_transport_keeps _ _ _ Hl H1) as Hk.
    apply with_transport_Some in H1 as (p & _ & ->). by apply Hkeep.
  - apply bind_Some_inv in H as (r1 & H1 & H). got H. pose proof (with_transport_keeps _ _ _ Hl H1) as Hk.
    apply with_transport_Some in H1 as (p & _ & ->). by apply Hkeep.
  - got H. apply Hkeep; [reflexivity|apply keeps_same; reflexivity|reflexivity].
  - apply bind_Some_inv in H as (r1 & H1 & H). got H. pose proof H1 as (p & _ & E)%with_transport_Some.
    destruct (course_in_hand _ _ _ _ _ Hl' eq_refl) as (c & Hc & ->). unfold runtime_answers. cbn.
    assert (runtime_answers r1) as Ha1 by (apply Hkeep; subst r1; try done; by eapply with_transport_keeps).
    apply answers_course; [exact Ha1|]. intros c rs Hc' _ Hfit. rewrite E in Hc'. cbn in Hc'. rewrite Hc in Hc'. injection Hc' as <-. exact Hfit.
  - destruct (queue_completion _ _).2; [|done]. got H. destruct (course_in_hand _ _ _ _ _ Hl' eq_refl) as (c & Hc & t & ->).
    eapply (answers_keep (set_courses (<[id := Recorded_ token]> (courses (lane r))) (lane r)));
      [apply keeps_same; reflexivity|reflexivity|].
    apply answers_course; [exact Ha|]. intros c rs Hc' _ Hfit. rewrite Hc in Hc'. injection Hc' as <-. exact Hfit.
  - apply bind_Some_inv in H as (st & _ & H). got H. by apply Hsame.
  - got H. apply Hkeep; [reflexivity|apply keeps_same; reflexivity|reflexivity].
  - got H. apply Hkeep; [reflexivity|apply keeps_same; reflexivity|reflexivity].
  - got H. eapply (answers_keep (lane r)); [apply keeps_same; reflexivity|reflexivity|exact Ha].
Qed.

Lemma publish_result (st : TextOperation) a p : state_ok st -> outcome st = None -> publish_section a st = Some p ->
  outcome p.1 = Some a /\ OperationState.transport p.1 = OperationState.transport st.
Proof. intros Hok Hn H. unfold publish_section, publish in H. rewrite Hn in H. by got H. Qed.

Lemma finish_answers id r r' : runtime_lane r -> handled r -> runtime_answers r -> finish_step id r = Some r' -> runtime_answers r'.
Proof.
  intros Hl Hh Ha H. unfold finish_step in H. apply bind_Some_inv in H as (c & Hc & H).
  assert (forall c', (forall rs, answer_fits (lane r) id c rs -> answer_fits (lane r) id c' rs) ->
    answers_ok (set_courses (<[id := c']> (courses (lane r))) (lane r)) (results (outcomes r))) as Hgo.
  { intros c' Hf. apply answers_course; [exact Ha|]. intros c0 rs Hc0 _. rewrite Hc in Hc0. injection Hc0 as <-. apply Hf. }
  destruct c; try discriminate H.
  - apply bind_Some_inv in H as (st & Hst & H). apply bind_Some_inv in H as (raw & Hraw & H). apply bind_Some_inv in H as (read & Hread & H).
    apply bind_Some_inv in H as (r1 & H1 & H). got H. pose proof (with_transport_keeps _ _ _ Hl H1) as Hk.
    apply with_transport_Some in H1 as (p & _ & ->).
    eapply (answers_keep (set_courses (<[id := Taken (read raw)]> (courses (lane r))) (lane r))); [exact Hk|reflexivity|].
    apply Hgo. cbn. intros rs [H1 H2]. split_and!; try done. by exists st, raw, read.
  - apply bind_Some_inv in H as (o & _ & H). apply bind_Some_inv in H as (r1 & (st & p & Hst & Hp & ->)%with_result_Some & H). got H.
    apply (answers_result (lane r) (results (outcomes r)) id p.1 Answered); [exact Ha|].
    intros c rs Hc' Hrs Hf. rewrite Hc in Hc'. injection Hc' as <-. rewrite Hst in Hrs. injection Hrs as <-. cbn in Hf. destruct Hf as (H1 & H2 & H3).
    destruct (publish_result st answer p) as [E1 E2]; [by eapply Forall_lookup_1; [apply (rs_states _ _ Hh)|]|done|done|].
    exists answer. split_and!; congruence || done.
  - apply bind_Some_inv in H as (r1 & (st & p & Hst & Hp & ->)%with_result_Some & H). got H.
    apply (answers_result (lane r) (results (outcomes r)) id p.1 Settled); [exact Ha|].
    intros c rs Hc' Hrs Hf. rewrite Hc in Hc'. injection Hc' as <-. rewrite Hst in Hrs. injection Hrs as <-. cbn in Hf. destruct Hf as (a & H1 & H2 & H3).
    assert (state_ok st) as Hok by by eapply Forall_lookup_1; [apply (rs_states _ _ Hh)|].
    destruct (retire_section_ok st Hok) as (p' & E & Hs & Ht). rewrite Hp in E. injection E as <-.
    exists a. split_and!; try done. rewrite (sec_outcome _ _ _ Hs); [done|by eexists].
  - apply bind_Some_inv in H as (tk & _ & H). destruct tk as [t|]; got H; [|by apply Hgo].
    unfold runtime_answers. destruct (queue_observer (Enqueue t) r).2; [|destruct (store_frame unqueued_failure (queue_observer (Enqueue t) r).1) as [c ->]];
      by apply Hgo.
  - apply bind_Some_inv in H as (r1 & H1 & H). got H. destruct fine; [apply with_lease_Some in H1 as (x & _ & ->)|got H1]; by apply Hgo.
  - destruct (tasks_locked r); [done|]. got H. destruct (erase_frame id r) as (q & l & ->).
    eapply (answers_keep (set_courses (<[id := Erased]> (courses (lane r))) (lane r))); [apply keeps_same; reflexivity|reflexivity|by apply Hgo].
  - got H. eapply (answers_keep (set_courses (<[id := Done]> (courses (lane r))) (lane r))); [apply keeps_same; reflexivity|reflexivity|by apply Hgo].
Qed.

Lemma thread_answers r r' : runtime_lane r -> handled r -> runtime_answers r -> lane_step r = Some r' -> runtime_answers r'.
Proof.
  intros Hl Hh Ha H. unfold lane_step in H.
  assert (forall l, operations (transport l) = operations (transport (lane r)) -> closures l = closures (lane r) -> courses l = courses (lane r) ->
    answers_ok l (results (outcomes r))) as Hsame.
  { intros l E1 E2 E3. eapply answers_keep; [by apply keeps_same|done|exact Ha]. }
  destruct (lane_at (lane r)) as [| |[|turns] cutoff|turns cutoff id| |b|] eqn:Ep.
  - destruct (_ || _); [|done]. got H. by apply Hsame.
  - got H. by apply Hsame.
  - got H. by apply Hsame.
  - destruct (q_claim_before cutoff (completions (lane r))) as [q [[t id]|]] eqn:Eq; got H; [|by apply Hsame].
    destruct (claimed_course _ _ _ _ _ _ _ Hl Eq) as [t' Ht'].
    eapply (answers_keep (set_courses (<[id := Claimed t]> (courses (lane r))) (lane r))); [apply keeps_same; reflexivity|reflexivity|].
    apply answers_course; [exact Ha|]. intros c rs Hc _ Hf. rewrite Ht' in Hc. injection Hc as <-. exact Hf.
  - apply bind_Some_inv in H as (r1 & H1%finish_answers & H); [|done..]. apply bind_Some_inv in H as (c & Hc & H). got H.
    by destruct c.
  - got H. by apply Hsame.
  - destruct (tasks_locked r); [done|]. got H. by apply Hsame.
  - done.
Qed.

Lemma handle_answers id a r r' : runtime_answers r -> handle_step id a r = Some r' -> runtime_answers r'.
Proof.
  intros Ha H. destruct (handle_frame _ _ _ _ H) as (_ & _ & El & _). unfold runtime_answers. rewrite El.
  assert (forall id c st (p : TextOperation * list effect), results (outcomes r) !! id = Some st -> handle_call c st = Some p ->
    answers_ok (lane r) (<[id := p.1]> (results (outcomes r)))) as Hcall.
  { intros k c st p Hst Hp j c' rs Hc' [(-> & <- & _)|[_ Hrs]]%list_lookup_insert_Some; [|by apply Ha].
    specialize (Ha j c' st Hc' Hst). pose proof (handle_outcome _ _ _ Hp) as E1. pose proof (handle_transport _ _ _ Hp) as E2.
    destruct c'; cbn in *; by rewrite E1, E2. }
  unfold handle_step in H. apply bind_Some_inv in H as (h & _ & H). destruct h, a; try discriminate H; take_apart; cbn; try exact Ha; by eapply Hcall.
Qed.

Lemma runtime_answers_step a r r' : runtime_lane r -> handled r -> runtime_answers r -> runtime_step a r = Some r' -> runtime_answers r'.
Proof.
  intros Hl Hh Ha H. unfold runtime_answers in *.
  assert (forall l, keeps_answers (lane r) l -> courses l = courses (lane r) -> answers_ok l (results (outcomes r))) as Hkeep.
  { intros l E1 E2. by eapply answers_keep. }
  destruct a; cbn [runtime_step] in H.
  - by eapply submission_answers.
  - apply bind_Some_inv in H as (h & _ & H). destruct h; try discriminate H;
      pose proof (with_transport_keeps _ _ _ Hl H) as Hk; apply with_transport_Some in H as (p & _ & ->); by apply Hkeep.
  - unfold engine_step in H. destruct a; try discriminate H; try (case_bool_decide; [done|]);
      try (pose proof (with_transport_keeps _ _ _ Hl H) as Hk; apply with_transport_Some in H as (p & _ & ->); by apply Hkeep).
    apply bind_Some_inv in H as (r1 & H1 & H). pose proof (with_transport_keeps _ _ _ Hl H1) as Hk. apply with_transport_Some in H1 as (p & _ & ->).
    apply bind_Some_inv in H as (r2 & (x & _ & ->)%with_lease_Some & H). got H. by apply Hkeep.
  - unfold publication_queues in H. apply bind_Some_inv in H as (e & _ & H). got H. apply Hkeep; [apply keeps_same; reflexivity|reflexivity].
  - unfold hook_notifies in H. destruct (notifying (lane r)); [done|]. got H. apply Hkeep; [apply keeps_same; reflexivity|reflexivity].
  - by eapply thread_answers.
  - by eapply handle_answers.
  - unfold result_hook in H. take_apart. exact Ha.
  - apply watch_frame in H as (_ & _ & -> & ->). exact Ha.
  - pose proof H as (-> & _ & _ & E1 & E2)%caller_frame. apply Hkeep; [|done].
    unfold caller_step in H. apply bind_Some_inv in H as (x & _ & H). destruct (enter_frame k r) as [c0 E0].
    destruct x, a; try discriminate H; rewrite ?E0 in H; try (got H; apply keeps_same; reflexivity).
    + destruct (submission r); try discriminate H. got H. apply keeps_same; reflexivity.
    + destruct (tasks_locked r); [done|]. apply bind_Some_inv in H as (r1 & H1 & H). got H. by eapply (cancel_tasks_keeps _ _ r1).
    + destruct (_ || _); [|done]. got H. apply keeps_same; reflexivity.
    + apply bind_Some_inv in H as (b & _ & H). got H. destruct b; [apply keeps_same; reflexivity|].
      destruct (store_frame unretired_failure r) as [c ->]. apply keeps_same; reflexivity.
    + destruct (lane_at (lane r)); try discriminate H. got H. apply keeps_same; reflexivity.
    + destruct (_ =? _)%nat; [|done]. got H. apply keeps_same; reflexivity.
Qed.

(** * The books, step by step *)

(** The retirement hook an action calls. *)
Definition hook_of (a : runtime_action) : option nat := match a with EngineActs (CallRetirement id) => Some id | _ => None end.
Definition of_caller (a : runtime_action) : bool := match a with CallerActs _ _ => true | _ => false end.
Definition leg_hook (leg : Leg) (id : nat) : option nat := match leg with transport_leg => Some id | _ => None end.

Inductive books_step (a : runtime_action) (r r' : Runtime) : Prop :=
  | books_same : hook_of a = None -> books r' = books r -> books_step a r r'
  | books_refused : hook_of a = None -> leases (books r') = leases (books r) -> ledger (books r') = ledger_refuse (ledger (books r)) ->
      books_step a r r'
  | books_stopped : of_caller a = true -> leases (books r') = leases (books r) -> ledger (books r') = ledger_stop (ledger (books r)) ->
      books_step a r r'
  | books_leg id x leg : leases (books r) !! id = Some x -> hook_of a = leg_hook leg id ->
      books r' = MkBooks (lease_finish leg (ledger (books r), x)).1 (<[id := (lease_finish leg (ledger (books r), x)).2]> (leases (books r))) ->
      books_step a r r'
  | books_complete id x : leases (books r) !! id = Some x -> hook_of a = None ->
      books r' = MkBooks (lease_complete (ledger (books r), x)).1 (<[id := (lease_complete (ledger (books r), x)).2]> (leases (books r))) ->
      books_step a r r'
  | books_new c token : hook_of a = None -> submission r = Registered c token -> r' = new_task c token r -> books_step a r r'.

Lemma submission_books_step checked r r' : submission_step checked r = Some r' -> books_step (Submit checked) r r'.
Proof.
  intros H. unfold submission_step in H. destruct (submission r) eqn:Es.
  - destruct (negb _); [got H; by apply books_refused|]. destruct checked; got H; [by apply books_same|by apply books_refused].
  - got H. destruct (ledger_full _); [by apply books_refused|by apply books_same].
  - destruct (observed_as c); got H; by apply books_same.
  - destruct token as [t|]; got H; [|by apply books_same]. destruct (queue_observer _ _).2; [by apply books_same|by apply books_refused].
  - got H. by eapply books_new.
  - take_apart. by apply books_same.
  - take_apart. by apply books_same.
  - got H. by apply books_same.
  - take_apart. by apply books_same.
  - destruct (queue_completion _ _).2; [|done]. got H. by apply books_same.
  - take_apart. by apply books_same.
  - got H. by apply books_same.
  - got H. by apply books_same.
  - got H. by apply books_same.
Qed.

Lemma finish_books_step id r r1 r2 : finish_step id r = Some r1 -> books r2 = books r1 -> books_step LaneActs r r2.
Proof.
  intros H Eb. unfold finish_step in H. apply bind_Some_inv in H as (c0 & _ & H). destruct c0; try discriminate H.
  - take_apart. by apply books_same.
  - take_apart. by apply books_same.
  - take_apart. by apply books_same.
  - apply bind_Some_inv in H as (tok & _ & H). destruct tok as [t|]; got H; [|by apply books_same]. apply books_same; [done|]. rewrite Eb.
    destruct (queue_observer (Enqueue t) r).2; [done|]. by destruct (store_frame unqueued_failure (queue_observer (Enqueue t) r).1) as [c0 ->].
  - apply bind_Some_inv in H as (r3 & H1 & H). got H. destruct fine; [|got H1; by apply books_same].
    apply with_lease_Some in H1 as (x & Hx & ->). by eapply books_complete.
  - destruct (tasks_locked r); [done|]. got H. apply books_same; [done|]. rewrite Eb. by destruct (erase_frame id r) as (q & l & ->).
  - got H. by apply books_same.
Qed.

Lemma thread_books_step r r' : lane_step r = Some r' -> books_step LaneActs r r'.
Proof.
  intros H. unfold lane_step in H. destruct (lane_at (lane r)) as [| |[|turns] cutoff|turns cutoff id| |b|]; try (got H; by apply books_same).
  - destruct (_ || _); [|done]. got H. by apply books_same.
  - destruct (q_claim_before _ _) as [q [[t id]|]]; got H; by apply books_same.
  - apply bind_Some_inv in H as (r1 & H1 & H). apply bind_Some_inv in H as (c & _ & H). got H.
    eapply finish_books_step; [done|by destruct c].
  - destruct (tasks_locked r); [done|]. got H. by apply books_same.
  - done.
Qed.

Lemma runtime_books_step a r r' : runtime_step a r = Some r' -> books_step a r r'.
Proof.
  intros H. destruct a; cbn [runtime_step] in H.
  - by eapply submission_books_step.
  - apply bind_Some_inv in H as (h & _ & H). destruct h; try discriminate H; take_apart; by apply books_same.
  - unfold engine_step in H. destruct a; try discriminate H; try (case_bool_decide; [done|]); try (take_apart; by apply books_same).
    apply bind_Some_inv in H as (r1 & (p & _ & ->)%with_transport_Some & H). apply bind_Some_inv in H as (r2 & (x & Hx & ->)%with_lease_Some & H).
    got H. by eapply (books_leg _ _ _ id x transport_leg).
  - unfold publication_queues in H. take_apart. by apply books_same.
  - unfold hook_notifies in H. destruct (notifying (lane r)); [done|]. got H. by apply books_same.
  - by apply thread_books_step.
  - unfold handle_step in H. apply bind_Some_inv in H as (h & _ & H). destruct h, a; try discriminate H; try (take_apart; by apply books_same);
      apply bind_Some_inv in H as (r1 & (x & Hx & ->)%with_lease_Some & H); got H; by eapply (books_leg _ _ _ id x result_leg).
  - unfold result_hook in H. apply bind_Some_inv in H as (id & _ & H). apply bind_Some_inv in H as (r1 & (x & Hx & ->)%with_lease_Some & H). got H.
    by eapply (books_leg _ _ _ id x result_leg).
  - unfold watch_step in H. destruct a; repeat (case_match; try discriminate H); take_apart; try (by apply books_same);
      by eapply (books_leg _ _ _ _ _ observer_leg).
  - unfold caller_step in H. apply bind_Some_inv in H as (x & _ & H). destruct (enter_frame k r) as [c0 E0].
    destruct x, a; try discriminate H; rewrite ?E0 in H; try (got H; by apply books_same).
    + destruct (submission r) eqn:Es; try discriminate H. got H. by apply books_stopped.
    + destruct (tasks_locked r); [done|]. take_apart. by apply books_same.
    + destruct (_ || _); [|done]. got H. by apply books_same.
    + apply bind_Some_inv in H as (b & _ & H). got H. apply books_same; [done|]. destruct b; [done|]. by destruct (store_frame unretired_failure r) as [c ->].
    + destruct (lane_at (lane r)); try discriminate H. got H. by apply books_same.
    + destruct (_ =? _)%nat; [|done]. got H. by apply books_same.
Qed.

(** * The transport's leg *)

Lemma with_transport_retired a r r' : with_transport a r = Some r' -> (match a with CallRetirement _ => False | _ => True end) ->
  retirements (transport (lane r')) = retirements (transport (lane r)).
Proof. intros (p & Hp & ->)%with_transport_Some Ha. cbn. by destruct (step_retirements _ _ _ Hp) as [? | [i ->]]. Qed.

Lemma cancel_tasks_retired ids r r' : cancel_tasks ids r = Some r' -> retirements (transport (lane r')) = retirements (transport (lane r)).
Proof.
  revert r. induction ids as [|id ids IH]; cbn [cancel_tasks]; intros r H; [by got H|].
  apply bind_Some_inv in H as (r1 & H1%with_transport_retired & H); [|done]. by rewrite (IH _ H).
Qed.

Lemma thread_retired r r' : lane_step r = Some r' -> retirements (transport (lane r')) = retirements (transport (lane r)).
Proof.
  intros H. unfold lane_step in H. destruct (lane_at (lane r)) as [| |[|turns] cutoff|turns cutoff id| |b|]; try (by got H).
  - destruct (_ || _); [|done]. by got H.
  - destruct (q_claim_before _ _) as [q [[t id]|]]; by got H.
  - apply bind_Some_inv in H as (r1 & H1 & H). apply bind_Some_inv in H as (c & _ & H). got H.
    transitivity (retirements (transport (lane r1))); [by destruct c|].
    unfold finish_step in H1. apply bind_Some_inv in H1 as (c0 & _ & H). destruct c0; try discriminate H; try by take_apart.
    + apply bind_Some_inv in H as (st & _ & H). apply bind_Some_inv in H as (raw & _ & H). apply bind_Some_inv in H as (read & _ & H).
      apply bind_Some_inv in H as (r2 & H1%with_transport_retired & H); [|done]. by got H.
    + apply bind_Some_inv in H as (tok & _ & H). destruct tok as [t|]; got H; [|done].
      destruct (queue_observer (Enqueue t) r).2; [done|]. by destruct (store_frame unqueued_failure (queue_observer (Enqueue t) r).1) as [c0 ->].
    + apply bind_Some_inv in H as (r2 & H1 & H). got H. destruct fine; by take_apart.
    + destruct (tasks_locked r); [done|]. got H. by destruct (erase_frame id r) as (q & l & ->).
  - destruct (tasks_locked r); [done|]. by got H.
  - done.
Qed.

Lemma step_retired a r r' : runtime_step a r = Some r' ->
  retirements (transport (lane r')) = retirements (transport (lane r)) ++ option_list (hook_of a).
Proof.
  intros H. destruct (hook_of a) as [i|] eqn:Ea.
  { destruct a as [|?|[]| | | | | | |]; try done. injection Ea as ->. cbn [runtime_step engine_step] in H. case_bool_decide; [done|].
    apply bind_Some_inv in H as (r1 & (p & Hp & ->)%with_transport_Some & H). take_apart. cbn.
    cbn [transport_step] in Hp. apply bind_Some_inv in Hp as (st & _ & Hp). destruct (_ && _); [|done]. by got Hp. }
  cbn [option_list]. rewrite app_nil_r. destruct a; cbn [runtime_step] in H.
  - unfold submission_step in H. destruct (submission r); repeat (case_match; try discriminate H); try (by got H);
      try (apply bind_Some_inv in H as (r1 & H1 & H); got H; first [by apply with_transport_retired in H1|done]).
  - apply bind_Some_inv in H as (h & _ & H). destruct h; try discriminate H; by apply with_transport_retired in H.
  - unfold engine_step in H. destruct a; try discriminate H; try discriminate Ea; try (case_bool_decide; [done|]); try by apply with_transport_retired in H.
  - unfold publication_queues in H. by take_apart.
  - unfold hook_notifies in H. destruct (notifying (lane r)); [done|]. by got H.
  - by apply thread_retired.
  - by apply handle_frame in H as (_ & _ & -> & _).
  - unfold result_hook in H. by take_apart.
  - by apply watch_frame in H as (_ & _ & -> & _).
  - unfold caller_step in H. apply bind_Some_inv in H as (x & _ & H). destruct (enter_frame k r) as [c0 E0].
    destruct x, a; try discriminate H; rewrite ?E0 in H; try (by got H).
    + destruct (submission r); try discriminate H. by got H.
    + destruct (tasks_locked r); [done|]. apply bind_Some_inv in H as (r1 & H1%cancel_tasks_retired & H). by got H.
    + destruct (_ || _); [|done]. by got H.
    + apply bind_Some_inv in H as (b & _ & H). got H. destruct b; [done|]. by destruct (store_frame unretired_failure r) as [c ->].
    + destruct (lane_at (lane r)); try discriminate H. by got H.
    + destruct (_ =? _)%nat; [|done]. by got H.
Qed.

(** A lease's transport leg is finished when the engine has called the retirement hook. *)
Definition legs_ok (r : Runtime) : Prop :=
  forall id x, leases (books r) !! id = Some x -> transport_finished x = bool_decide (id ∈ retirements (transport (lane r))).

Lemma finish_leg_transport leg l x : transport_finished (lease_finish leg (l, x)).2 =
  match leg with transport_leg => if admitted x then true else transport_finished x | _ => transport_finished x end.
Proof. destruct leg, x as [[] [] [] [] [] []]; reflexivity. Qed.

Lemma complete_transport l x : transport_finished (lease_complete (l, x)).2 = transport_finished x.
Proof. destruct x as [[] [] [] [] [] []]; reflexivity. Qed.

Lemma legs_step a r r' : leases_admitted r -> runtime_lane r -> legs_ok r -> runtime_step a r = Some r' -> legs_ok r'.
Proof.
  intros Had [Hl _] Hlegs H. pose proof (step_retired _ _ _ H) as Er.
  assert (forall k y, hook_of a = None -> leases (books r) !! k = Some y ->
    transport_finished y = bool_decide (k ∈ retirements (transport (lane r')))) as Hkeep.
  { intros k y Ea Hy. rewrite Er, Ea. cbn. rewrite app_nil_r. by apply Hlegs. }
  assert (of_caller a = true -> hook_of a = None) as Hcaller by by destruct a.
  destruct (runtime_books_step _ _ _ H) as [Ea E|Ea E _|Ea%Hcaller E _|id x leg Hx Ea E|id x Hx Ea E|c token Ea Hs E]; intros k y Hy.
  - rewrite E in Hy. auto.
  - rewrite E in Hy. auto.
  - rewrite E in Hy. auto.
  - rewrite E in Hy. cbn in Hy. rewrite Er, Ea. assert (admitted x = true) as Ha by by eapply Had, list_elem_of_lookup_2.
    apply list_lookup_insert_Some in Hy as [(-> & <- & _)|[Hn Hy]].
    + rewrite finish_leg_transport, Ha. destruct leg; cbn; rewrite ?app_nil_r; auto. symmetry. apply bool_decide_true, elem_of_app. right. by left.
    + rewrite (Hlegs _ _ Hy). apply bool_decide_ext. destruct leg; cbn; rewrite ?app_nil_r; try done.
      rewrite elem_of_app, list_elem_of_singleton. naive_solver.
  - rewrite E in Hy. cbn [leases] in Hy. apply list_lookup_insert_Some in Hy as [(-> & <- & _)|[Hn Hy]]; [rewrite complete_transport|]; auto.
  - subst r'. cbn in Hy. apply lookup_app_Some in Hy as [Hy|[Hge Hy]]; [auto|]. apply list_lookup_singleton_Some in Hy as [_ <-]. cbn.
    symmetry. apply bool_decide_false. intros Hin. pose proof (to_known _ (lo_transport _ _ _ Hl)) as Hk. apply Forall_app in Hk as [_ Hk].
    rewrite Forall_forall in Hk. specialize (Hk _ Hin). pose proof (lo_length _ _ _ Hl). unfold next_task in *. rewrite Hs in *. lia.
Qed.

(** * Everything that holds *)

(** There is an observation, or its absence, for every command. *)
Definition watch_sized (r : Runtime) : Prop :=
  length (observations (watch r)) = next_task r /\ length (observer_tokens (watch r)) = next_task r.

Lemma sized_same r r' : watch_sized r -> length (observations (watch r')) = length (observations (watch r)) ->
  observer_tokens (watch r') = observer_tokens (watch r) -> length (leases (books r')) = length (leases (books r)) -> watch_sized r'.
Proof. intros [H1 H2] E1 E2 E3. unfold watch_sized, next_task in *. by rewrite E1, E2, E3. Qed.

Lemma books_sized a r r' : books_step a r r' -> (forall c token, r' <> new_task c token r) -> length (leases (books r')) = length (leases (books r)).
Proof. intros [? E|? E _|? E _|? ? ? ? ? E|? ? ? ? E|c t ? ? E] Hn; try (by rewrite E); try (rewrite E; apply length_insert). by destruct (Hn c t). Qed.

Lemma sized_step a r r' : watch_sized r -> runtime_step a r = Some r' -> watch_sized r'.
Proof.
  intros Hw H. pose proof (runtime_books_step _ _ _ H) as Hb.
  assert (length (observations (watch r')) = length (observations (watch r)) -> observer_tokens (watch r') = observer_tokens (watch r) ->
    watch_sized r') as Hsame.
  { intros E1 E2. destruct Hb as [? E|? E _|? E _|? ? ? ? ? E|? ? ? ? E|c t ? ? E]; try (eapply sized_same; [done..|by rewrite E]);
      try (eapply sized_same; [done..|rewrite E; apply length_insert]).
    subst r'. cbn in E1. rewrite length_app in E1. cbn in E1. lia. }
  destruct a; cbn [runtime_step] in H.
  - unfold submission_step in H. destruct (submission r); repeat (case_match; try discriminate H); try (got H; by apply Hsame);
      try (apply bind_Some_inv in H as (r1 & H1 & H); got H; apply Hsame; by try apply with_transport_Some in H1 as (? & _ & ->)).
    got H. destruct Hw as [H1 H2]. split; cbn; rewrite length_app; unfold next_task in *; cbn; rewrite length_app; cbn; lia.
  - apply bind_Some_inv in H as (h & _ & H). destruct h; try discriminate H; take_apart; by apply Hsame.
  - unfold engine_step in H. destruct a; try discriminate H; try (case_bool_decide; [done|]); take_apart; by apply Hsame.
  - unfold publication_queues in H. take_apart. by apply Hsame.
  - unfold hook_notifies in H. destruct (notifying (lane r)); [done|]. got H. by apply Hsame.
  - unfold lane_step in H. destruct (lane_at (lane r)) as [| |[|turns] cutoff|turns cutoff id| |b|]; try (got H; by apply Hsame).
    + destruct (_ || _); [|done]. got H. by apply Hsame.
    + destruct (q_claim_before _ _) as [q [[t id]|]]; got H; by apply Hsame.
    + apply bind_Some_inv in H as (r1 & H1 & H). apply bind_Some_inv in H as (c & _ & H). got H.
      assert (length (observations (watch r1)) = length (observations (watch r)) /\ observer_tokens (watch r1) = observer_tokens (watch r)) as [E1 E2];
        [|by destruct c; apply Hsame].
      clear Hsame Hb. unfold finish_step in H1. apply bind_Some_inv in H1 as (c0 & _ & H). destruct c0; try discriminate H; try by take_apart.
      * take_apart. cbn. by rewrite length_insert.
      * apply bind_Some_inv in H as (tok & _ & H). destruct tok as [t|]; got H; [|done].
        destruct (queue_observer (Enqueue t) r).2; [done|]. by destruct (store_frame unqueued_failure (queue_observer (Enqueue t) r).1) as [c0 ->].
      * apply bind_Some_inv in H as (r2 & H1 & H). got H. destruct fine; by take_apart.
      * destruct (tasks_locked r); [done|]. got H. by destruct (erase_frame id r) as (q & l & ->).
    + destruct (tasks_locked r); [done|]. got H. by apply Hsame.
    + done.
  - apply handle_frame in H as (_ & _ & _ & E & _). apply Hsame; by rewrite E.
  - unfold result_hook in H. take_apart. by apply Hsame.
  - unfold watch_step in H. destruct a; repeat (case_match; try discriminate H); take_apart; by apply Hsame.
  - unfold caller_step in H. apply bind_Some_inv in H as (x & _ & H). destruct (enter_frame k r) as [c0 E0].
    destruct x, a; try discriminate H; rewrite ?E0 in H; try (got H; by apply Hsame).
    + destruct (submission r); try discriminate H. got H. by apply Hsame.
    + destruct (tasks_locked r); [done|]. take_apart. by apply Hsame.
    + destruct (_ || _); [|done]. got H. by apply Hsame.
    + apply bind_Some_inv in H as (b & _ & H). got H. apply Hsame; destruct b; try done; by destruct (store_frame unretired_failure r) as [c ->].
    + destruct (lane_at (lane r)); try discriminate H. got H. by apply Hsame.
    + destruct (_ =? _)%nat; [|done]. got H. by apply Hsame.
Qed.

Record runtime_ok (capacity : nat) (r : Runtime) : Prop := {
  ok_books : books_ok capacity (books r) (submission r);
  ok_handled : handled r;
  ok_unreturned : unreturned r;
  ok_lane : runtime_lane r;
  ok_wake : runtime_wake r;
  ok_answers : runtime_answers r;
  ok_legs : legs_ok r;
  ok_sized : watch_sized r;
}.

Lemma start_runtime_ok capacity callers : runtime_ok capacity (start_runtime capacity callers).
Proof.
  split; try done; [|..|apply start_lane|apply start_wake]; split; cbn; try done; try lia; by intros id Hid%elem_of_nil.
Qed.

Lemma runtime_ok_step capacity a r r' : runtime_ok capacity r -> runtime_step a r = Some r' -> runtime_ok capacity r'.
Proof.
  intros [] H. destruct (runtime_handled_step capacity a r r') as [Hh Hu]; [done..|]. split; try done.
  - by eapply runtime_books.
  - by eapply runtime_lane_step.
  - by eapply runtime_wake_step.
  - by eapply runtime_answers_step.
  - eapply legs_step; [by eapply books_admitted|done..].
  - by eapply sized_step.
Qed.

Lemma reachable_runtime_ok capacity callers r : reachable capacity callers r -> runtime_ok capacity r.
Proof. induction 1; [apply start_runtime_ok|by eapply runtime_ok_step]. Qed.

(** * Theorems *)

(** C9: The ledger is exact in every state: what is in flight is within the capacity, each counter is the number of accepted
    commands that owe what it counts, and a command's slot is free exactly when the engine has called its retirement hook, its
    result is finished and its observation is disposed of; it is not free while the caller holds the command. *)
Theorem ledger_exact capacity callers r :
  reachable capacity callers r ->
  in_flight (ledger (books r)) <= capacity /\
  in_flight (ledger (books r)) = sum_list_with in_flight_of (leases (books r)) /\
  pending_results (ledger (books r)) = sum_list_with result_of (leases (books r)) /\
  pending_observers (ledger (books r)) = sum_list_with observer_of (leases (books r)) /\
  completed_total (ledger (books r)) = sum_list_with completed_of (leases (books r)) /\
  accepted_total (ledger (books r)) = length (leases (books r)) /\
  forall id x h, leases (books r) !! id = Some x -> handles (outcomes r) !! id = Some h ->
    lease_released x = bool_decide (id ∈ retirements (transport (lane r))) && result_finished x && observer_done x /\
    (h = Unreturned \/ h = Owned \/ h = Selecting \/ h = WaitingFor -> lease_released x = false).
Proof.
  intros H%reachable_runtime_ok. destruct H as [[] [] _ _ _ _ Hlegs _]. split_and!; try done. intros id x h Hx Hh.
  assert (lease_ok x) as [_ Hr] by by eapply Forall_lookup_1 in bo_leases. rewrite (Hlegs id x Hx) in Hr. split; [done|]. intros Hheld.
  assert (id < length (results (outcomes r))) as Hlt by (rewrite rs_results; by eapply lookup_lt_Some).
  destruct (lookup_lt_is_Some_2 _ _ Hlt) as [st Hst]. specialize (rs_fits id st h x Hst Hh Hx).
  assert (result_finished x = false) as E by (destruct Hheld as [-> |[-> |[-> | ->]]]; by destruct rs_fits).
  by rewrite Hr, E, andb_false_r.
Qed.

(** C6: No completion is lost or slept on: when the completion thread sleeps with nothing to wake it, every command whose
    retirement hook the engine has called, and which the submission is through with, has had its callback run to its end. *)
Theorem no_completion_sleeps capacity callers r id :
  reachable capacity callers r -> lane_at (lane r) = Sleeping -> completion_wake (lane r) = false -> notifying (lane r) = 0 ->
  stage_of (submission r) id = Elsewhere -> id ∈ retirements (transport (lane r)) -> courses (lane r) !! id = Some Done.
Proof.
  intros [_ _ _ [Hl Hf] [_ _ Hw] _ _ _]%reachable_runtime_ok Hat Hwake Hn Hs Hret.
  destruct (to_retired _ (lo_transport _ _ _ Hl) _ Hret) as (st & Hst & _ & Hans).
  assert (id < length (courses (lane r))) as Hlt.
  { rewrite (lo_courses _ _ _ Hl). apply lookup_lt_Some in Hst. pose proof (lo_length _ _ _ Hl). destruct (submission r); lia. }
  destruct (lookup_lt_is_Some_2 _ _ Hlt) as [c Hc]. rewrite Hc. f_equal. destruct (Hf id c Hc) as [Hfc [Hq _]].
  pose proof (view_operation (submission r) (lane r) id st Hst) as Hv.
  assert (v_working (view (submission r) (lane r) id) = false) as Hwork by (unfold view; cbn; by rewrite Hat).
  assert (v_stage (view (submission r) (lane r) id) = Elsewhere) as Hstage by exact Hs.
  assert (v_called (view (submission r) (lane r) id) = true) as Hcalled by by apply bool_decide_true.
  destruct c; cbn in Hfc; rewrite ?Hwork, ?Hstage in Hfc; open_fits.
  assert (v_answered (view (submission r) (lane r) id) = true) as Ha by (unfold v_answered; rewrite Hv; by apply bool_decide_true).
  match goal with H : _ -> _ \/ _ |- _ => destruct (H Ha) as [Hready|[Hqueued|[?|?]]] end; try congruence.
  - apply bool_decide_eq_true in Hready. apply list_elem_of_fmap in Hready as ([t g] & Et & Hg). cbn in Et. subst t.
    destruct (Hw id g Hg) as [[?|[?|?]]|[Hp|[?|Hh]]]; try congruence; [lia|by rewrite Hat in Hp|by rewrite Hs in Hh].
  - destruct (Hq Hqueued) as [_ ?]. congruence.
Qed.

(** C10: What a caller waits for is true: when a wait on a command's result ends, it delivers the command's own reading of the
    outcome of the command's own engine operation, which stays that outcome; and once the command's callback has run, the wait
    does end. *)
Theorem wait_gets_its_answer capacity callers r id st :
  reachable capacity callers r -> handles (outcomes r) !! id = Some WaitingFor -> results (outcomes r) !! id = Some st ->
  (forall q, finish_wait st = Some q -> answered_as (lane r) id q.2) /\
  (courses (lane r) !! id = Some Done -> is_Some (finish_wait st)).
Proof.
  intros H%reachable_runtime_ok Hh Hst. destruct H as [Hb [] _ [Hl _] _ Ha _ _].
  assert (id < length (leases (books r))) as Hlt by (rewrite <-rs_results; by eapply lookup_lt_Some).
  destruct (lookup_lt_is_Some_2 _ _ Hlt) as [x Hx]. destruct (rs_fits id st WaitingFor x Hst Hh Hx) as [Hobs _].
  assert (exists c, courses (lane r) !! id = Some c) as [c Hc].
  { apply lookup_lt_is_Some_2. by rewrite (lo_courses _ _ _ Hl). }
  specialize (Ha id c st Hc Hst).
  assert (forall s : TextOperation, outcome (release_hook_locked s).1 = outcome s) as Hrel.
  { intros s. unfold release_hook_locked. by case_match. }
  unfold finish_wait. rewrite bool_decide_true by done. cbn [assert_ mbind option_bind]. split.
  - intros q Hq. apply bind_Some_inv in Hq as (a & Hout & Hq). got Hq. cbn [snd]. rewrite Hrel in Hout. cbn in Hout.
    assert (forall P : Prop, outcome st = None /\ P -> answered_as (lane r) id a) as Hnone by (intros P [E _]; by rewrite E in Hout).
    assert ((exists a' T, outcome st = Some a' /\ OperationState.transport st = T /\ answered_as (lane r) id a') -> answered_as (lane r) id a) as Hsome.
    { intros (a' & T & E & _ & Has). rewrite Hout in E. by injection E as ->. }
    destruct c; cbn in Ha; first [exact (Hnone _ Ha)|destruct Ha as (a' & Ha); apply Hsome; eauto].
  - intros Hd. rewrite Hd in Hc. injection Hc as <-. cbn in Ha. destruct Ha as (a & Ea & _). rewrite Hrel. cbn. rewrite Ea. by eexists.
Qed.

(** ** A run *)

Fixpoint runtime_run (acts : list runtime_action) (r : Runtime) : option Runtime :=
  match acts with
  | [] => Some r
  | a :: acts => r ← runtime_step a r; runtime_run acts r
  end.

Lemma runtime_run_reachable capacity callers acts r r' : reachable capacity callers r -> runtime_run acts r = Some r' -> reachable capacity callers r'.
Proof.
  revert r. induction acts as [|a acts IH]; cbn [runtime_run]; intros r Hr H; [by got H|].
  apply bind_Some_inv in H as (r1 & H1 & H). eapply IH; [|done]. by eapply reachable_runtime_step.
Qed.

(** One command with an observer, submitted, run by the engine, finished by the completion thread, waited for by its caller. *)
Definition demo_captured : Captured :=
  MkCaptured (fun raw => match raw with Value p => Value (stdout_bytes p) | Unexpected f => Unexpected f end)
    (Some (txt "list-panes", [txt "list-panes"])).
Definition demo_submit : list runtime_action := repeat (Submit (Value demo_captured)) 13.
Definition demo_engine : list runtime_action :=
  map EngineActs [AdvanceRaw 0 dispatching_; PublishRaw 0 (Value (MkReply (Exited 0) (txt "%1") [] false))] ++
  [PublicationQueues 0] ++ map EngineActs [RetireRaw 0; CallRetirement 0] ++ [HookNotifies].
Definition demo_thread : list runtime_action := repeat LaneActs 18.
Definition demo_wait : list runtime_action := [HandleActs 0 WaitIt; HandleActs 0 NextSection].

Definition demo_runtime (acts : list runtime_action) : Runtime := default (start_runtime 1 2) (runtime_run acts (start_runtime 1 2)).

Lemma demo_runtime_reachable acts r : runtime_run acts (start_runtime 1 2) = Some r -> reachable 1 2 (demo_runtime acts).
Proof. intros H. unfold demo_runtime. rewrite H. eapply runtime_run_reachable; [constructor|done]. Qed.

Definition demo_done : list runtime_action := demo_submit ++ demo_engine ++ demo_thread ++ demo_wait.

Lemma demo_done_reachable : reachable 1 2 (demo_runtime demo_done).
Proof. eapply demo_runtime_reachable. vm_compute. reflexivity. Qed.

Lemma ledger_exact_witness :
  in_flight (ledger (books (demo_runtime demo_done))) <= 1 /\
  pending_results (ledger (books (demo_runtime demo_done))) = sum_list_with result_of (leases (books (demo_runtime demo_done))).
Proof.
  destruct (ledger_exact 1 2 (demo_runtime demo_done) demo_done_reachable) as (H1 & _ & H2 & _). split; [exact H1|exact H2].
Defined.

Lemma no_completion_sleeps_witness : courses (lane (demo_runtime demo_done)) !! 0 = Some Done.
Proof.
  apply (no_completion_sleeps 1 2 (demo_runtime demo_done) 0 demo_done_reachable).
  - vm_compute. reflexivity.
  - vm_compute. reflexivity.
  - vm_compute. reflexivity.
  - vm_compute. reflexivity.
  - vm_compute. left.
Defined.

Definition demo_result : TextOperation := default new_state (results (outcomes (demo_runtime demo_done)) !! 0).

Lemma wait_gets_its_answer_witness : is_Some (finish_wait demo_result) /\ courses (lane (demo_runtime demo_done)) !! 0 = Some Done.
Proof.
  split; [|vm_compute; reflexivity].
  apply (wait_gets_its_answer 1 2 (demo_runtime demo_done) 0 demo_result demo_done_reachable).
  - vm_compute. reflexivity.
  - vm_compute. reflexivity.
  - vm_compute. reflexivity.
Defined.
