(* ===== verification/RuntimeClose.v ===== *)
(** Stopping and closing the runtime.

    [control_ok]: how far each caller of [request_stop] and [close] has come is how far the
    runtime has stopped, one closer closes at a time, and every closer is given the same report,
    which stays true.  The completion thread, told to finish, returns. *)

From S2P Require Import Prelude Command Redaction Process Endpoint Commands Backend Wake CompletionQueue OperationState Operations Transport Runtime RuntimeBooks RuntimeLane RuntimeProofs.

(** An engine that has ended stays ended, with what it reported. *)
Definition ended_with (t t' : Transport) : Prop := forall b, stopped t = Some b -> stopped t' = Some b.

Lemma ended_refl t : ended_with t t.
Proof. by intros b. Qed.
#[local] Hint Extern 0 (ended_with _ _) => exact (ended_refl _) : core.

Lemma ended_some t t' : ended_with t t' -> is_Some (stopped t) -> is_Some (stopped t').
Proof. intros H [b Hb]. exists b. by apply H. Qed.

(** * How far a caller has come *)

(** It has stopped the ledger. *)
Definition past_ledger (x : Caller) : bool :=
  match x with
  | Outside_ | StopLedger _ | AwaitingClose => false
  | _ => true
  end.

(** It is the closer. *)
Definition joins (x : Caller) : nat :=
  match x with
  | StopLedger b | StopTasks b | StopEngine b => b2n b
  | JoinEngine | FinishLane _ | JoinLane _ | FinishObservers _ | AwaitReaders _ | ReadLedger _ | MakeReport _ _ => 1
  | _ => 0
  end.

(** It has joined the engine; it has told the thread to finish; it has joined the thread. *)
Definition past_engine (x : Caller) : bool :=
  match x with FinishLane _ | JoinLane _ | FinishObservers _ | AwaitReaders _ | ReadLedger _ | MakeReport _ _ => true | _ => false end.
Definition past_finish (x : Caller) : bool :=
  match x with JoinLane _ | FinishObservers _ | AwaitReaders _ | ReadLedger _ | MakeReport _ _ => true | _ => false end.
Definition past_lane (x : Caller) : bool :=
  match x with FinishObservers _ | AwaitReaders _ | ReadLedger _ | MakeReport _ _ => true | _ => false end.

(** What the engine reported, as the closer carries it. *)
Definition carried (x : Caller) : option bool :=
  match x with
  | FinishLane b | JoinLane b | FinishObservers b | AwaitReaders b | ReadLedger b | MakeReport b _ => Some b
  | _ => None
  end.

(** What a report says is true from then on. *)
Definition report_true (r : Runtime) (s : Shutdown) : Prop :=
  stopped (transport (lane r)) = Some (transports_stopped s) /\ lane_at (lane r) = Returned /\ pending_results (ledger (books r)) <= left_results s /\
  pending_observers (ledger (books r)) <= left_observers s /\
  (safe_to_unload s = true -> transports_stopped s = true /\ left_results s = 0 /\ left_observers s = 0).

Record control_ok (r : Runtime) : Prop := {
  co_ledger : forall x, x ∈ callers (control r) -> past_ledger x = true -> accepting (ledger (books r)) = false;
  co_joins : sum_list_with joins (callers (control r)) = b2n (close_joining (control r));
  co_open : close_joining (control r) = true -> terminal_report (control r) = None;
  co_engine : forall x, x ∈ callers (control r) -> past_engine x = true -> is_Some (stopped (transport (lane r)));
  co_carried : forall x b, x ∈ callers (control r) -> carried x = Some b -> stopped (transport (lane r)) = Some b;
  co_finish : forall x, x ∈ callers (control r) -> past_finish x = true -> finish_completion_thread (lane r) = true;
  co_lane : forall x, x ∈ callers (control r) -> past_lane x = true -> lane_at (lane r) = Returned;
  co_finishing : finish_completion_thread (lane r) = true ->
    accepting (ledger (books r)) = false /\ is_Some (stopped (transport (lane r)));
  co_leaving : lane_at (lane r) = Leaving true \/ lane_at (lane r) = Returned -> finish_completion_thread (lane r) = true;
  co_returned : lane_at (lane r) = Returned -> tasks (lane r) = [];
  co_read : forall b l, MakeReport b l ∈ callers (control r) ->
    pending_results (ledger (books r)) <= pending_results l /\ pending_observers (ledger (books r)) <= pending_observers l;
  co_report : forall s, terminal_report (control r) = Some s -> report_true r s;
  co_closed : forall s, ClosedWith s ∈ callers (control r) -> terminal_report (control r) = Some s;
}.

Lemma start_control capacity n : control_ok (start_runtime capacity n).
Proof.
  split; cbn; try done; try (by intros x Hx; apply elem_of_replicate in Hx as [-> _]).
  - induction n as [|n IH]; [done|exact IH].
  - by intros x b [-> _]%elem_of_replicate.
  - by intros [].
  - by intros b l [? _]%elem_of_replicate.
  - by intros s [? _]%elem_of_replicate.
Qed.

(** * Steps of the others *)

(** What a step of anyone but the callers does to what control depends on. *)
Record apart (r r' : Runtime) : Prop := {
  ap_callers : callers (control r') = callers (control r);
  ap_joining : close_joining (control r') = close_joining (control r);
  ap_terminal : terminal_report (control r') = terminal_report (control r);
  ap_finish : finish_completion_thread (lane r') = finish_completion_thread (lane r);
  ap_stopped : ended_with (transport (lane r)) (transport (lane r'));
  ap_accepting : accepting (ledger (books r')) = accepting (ledger (books r));
  ap_pending : accepting (ledger (books r)) = false ->
    pending_results (ledger (books r')) <= pending_results (ledger (books r)) /\
    pending_observers (ledger (books r')) <= pending_observers (ledger (books r));
  ap_lane : lane_at (lane r') = lane_at (lane r) \/
    (lane_at (lane r') = Leaving true -> finish_completion_thread (lane r) = true) /\
    (lane_at (lane r') = Returned -> lane_at (lane r) = Leaving true /\ tasks (lane r') = []) /\ lane_at (lane r) <> Returned;
  ap_tasks : lane_at (lane r) = Returned -> tasks (lane r) = [] -> finish_completion_thread (lane r) = true ->
    accepting (ledger (books r)) = false -> tasks (lane r') = [];
}.

Lemma apart_control r r' : control_ok r -> apart r r' -> control_ok r'.
Proof.
  intros [] []. pose proof (ended_some _ _ ap_stopped0) as Hended.
  assert (finish_completion_thread (lane r) = true -> accepting (ledger (books r)) = false) as Hfa by (intros H; by apply co_finishing0).
  assert (forall s, report_true r s -> report_true r' s) as Hrep.
  { intros s (H0 & H1 & H2 & H3 & H4). destruct (ap_pending0) as [H5 H6]; [apply Hfa, co_leaving0; by right|]. split_and!; try done; try lia.
    - by apply ap_stopped0.
    - destruct ap_lane0 as [->|(_ & _ & ?)]; done. }
  split; rewrite ?ap_callers0, ?ap_joining0, ?ap_terminal0, ?ap_finish0, ?ap_accepting0; try done; eauto.
  - intros x Hx Hp. specialize (co_lane0 x Hx Hp). destruct ap_lane0 as [->|(_ & _ & ?)]; done.
  - intros H. destruct (co_finishing0 H). auto.
  - destruct ap_lane0 as [->|(Hl & Hr & _)]; [done|]. intros [H|H]; [auto|]. destruct (Hr H) as [H' _]. auto.
  - intros H. destruct ap_lane0 as [E|(_ & Hr & _)]; [|by apply Hr]. rewrite E in H.
    assert (finish_completion_thread (lane r) = true) as Hfin by auto. auto.
  - intros b l Hin. destruct (co_read0 b l Hin). destruct ap_pending0; [by eapply co_ledger0|]. lia.
Qed.

Lemma lease_finish_less leg l x : result_of (lease_finish leg (l, x)).2 <= result_of x /\ observer_of (lease_finish leg (l, x)).2 <= observer_of x.
Proof. destruct leg, x as [[] [] [] [] [] []]; unfold result_of, observer_of; cbn; lia. Qed.

Lemma lease_complete_less l x : result_of (lease_complete (l, x)).2 = result_of x /\ observer_of (lease_complete (l, x)).2 = observer_of x.
Proof. by destruct x as [[] [] [] [] [] []]. Qed.

(** The books when a caller is not the one that acts. *)
Lemma books_apart capacity a r r' : books_ok capacity (books r) (submission r) -> of_caller a = false -> books_step a r r' ->
  accepting (ledger (books r')) = accepting (ledger (books r)) /\
  (accepting (ledger (books r)) = false -> pending_results (ledger (books r')) <= pending_results (ledger (books r)) /\
     pending_observers (ledger (books r')) <= pending_observers (ledger (books r))).
Proof.
  intros Hb Ha [? E|? _ E|? _ E|id x leg Hx _ E|id x Hx _ E|c t _ Hs E].
  - by rewrite E.
  - by rewrite E.
  - congruence.
  - destruct (books_covered _ _ _ _ _ Hb Hx) as [Hc Hl]. destruct (lease_finish_accounted leg _ _ Hc Hl) as [_ H2 H3 _ (_ & _ & H4 & _) _ _].
    destruct (lease_finish_less leg (ledger (books r)) x). rewrite E. cbn [ledger fst snd] in *. split; [done|]. lia.
  - destruct (books_covered _ _ _ _ _ Hb Hx) as [_ Hl]. destruct (lease_complete_accounted (ledger (books r)) _ Hl) as [_ H2 H3 _ (_ & _ & H4 & _) _ _].
    destruct (lease_complete_less (ledger (books r)) x). rewrite E. cbn [ledger fst snd] in *. split; [done|]. lia.
  - split; [by subst r'|]. intros Hf. rewrite (bo_free _ _ _ Hb Hf) in Hs. done.
Qed.

Lemma step_stopped a t p : transport_step a t = Some p -> ended_with t p.1.
Proof.
  intros H b Hs. destruct a; cbn [transport_step] in H; try (repeat case_match; try done; by got H);
    try (by apply raw_section_Some in H as (? & ? & _ & _ & ->)).
  - apply bind_Some_inv in H as (st & _ & H). destruct (_ && _); [|done]. by got H.
  - destruct (bool_decide _); [done|]. by apply raw_section_Some in H as (? & ? & _ & _ & ->).
  - rewrite bool_decide_false in H by by rewrite Hs. done.
Qed.

Lemma with_transport_stopped a r r' : with_transport a r = Some r' ->
  ended_with (transport (lane r)) (transport (lane r')).
Proof. intros (p & Hp & ->)%with_transport_Some. by apply (step_stopped a). Qed.

Lemma finish_apart id r r' : finish_step id r = Some r' ->
  control r' = set_failure (lifecycle_failure (control r')) (control r) /\
  finish_completion_thread (lane r') = finish_completion_thread (lane r) /\
  (ended_with (transport (lane r)) (transport (lane r'))).
Proof.
  assert (forall x, control x = control r -> control x = set_failure (lifecycle_failure (control x)) (control r)) as Hsame.
  { intros x ->. by destruct (control r). }
  intros H. unfold finish_step in H. apply bind_Some_inv in H as (c & _ & H). destruct c; try discriminate H.
  - apply bind_Some_inv in H as (st & _ & H). apply bind_Some_inv in H as (raw & _ & H). apply bind_Some_inv in H as (read & _ & H).
    apply bind_Some_inv in H as (r1 & H1 & H). got H. pose proof (with_transport_stopped _ _ _ H1) as Hst.
    apply with_transport_Some in H1 as (p & _ & ->). split_and!; [by apply Hsame|done|exact Hst].
  - take_apart. split_and!; [by apply Hsame|done..].
  - take_apart. split_and!; [by apply Hsame|done..].
  - apply bind_Some_inv in H as (tok & _ & H). destruct tok as [t|]; got H; [|split_and!; [by apply Hsame|done..]].
    destruct (queue_observer (Enqueue t) r).2; [split_and!; [by apply Hsame|done..]|].
    unfold store_lifecycle_failure. case_match; [split_and!; [by apply Hsame|done..]|done].
  - apply bind_Some_inv in H as (r1 & H1 & H). got H. destruct fine; take_apart; (split_and!; [by apply Hsame|done..]).
  - destruct (tasks_locked r); [done|]. got H. destruct (erase_frame id r) as (q & l & ->). split_and!; [by apply Hsame|done..].
  - got H. split_and!; [by apply Hsame|done..].
Qed.

Lemma finish_lane_at id r r' : finish_step id r = Some r' -> lane_at (lane r') = lane_at (lane r).
Proof.
  intros H1. unfold finish_step in H1. apply bind_Some_inv in H1 as (c & _ & H). destruct c; try discriminate H; try by take_apart.
  - apply bind_Some_inv in H as (tok & _ & H). destruct tok as [t|]; got H; [|done].
    destruct (queue_observer (Enqueue t) r).2; [done|]. by destruct (store_frame unqueued_failure (queue_observer (Enqueue t) r).1) as [c0 ->].
  - apply bind_Some_inv in H as (r2 & H1 & H). got H. destruct fine; by take_apart.
  - destruct (tasks_locked r); [done|]. got H. by destruct (erase_frame id r) as (q & l & ->).
Qed.

(** The completion thread, apart from what callers have done. *)
Lemma thread_apart capacity r r' : books_ok capacity (books r) (submission r) -> lane_step r = Some r' -> apart r r'.
Proof.
  intros Hb H. destruct (books_apart capacity LaneActs r r' Hb eq_refl (thread_books_step _ _ H)) as [Hacc Hpend].
  assert (lane_at (lane r) <> Returned) as Hnot by (intros E; unfold lane_step in H; by rewrite E in H).
  assert (control r' = set_failure (lifecycle_failure (control r')) (control r) ->
    finish_completion_thread (lane r') = finish_completion_thread (lane r) ->
    (ended_with (transport (lane r)) (transport (lane r'))) ->
    (lane_at (lane r') = Leaving true -> finish_completion_thread (lane r) = true) ->
    (lane_at (lane r') = Returned -> lane_at (lane r) = Leaving true /\ tasks (lane r') = []) -> apart r r') as Hap.
  { generalize (lifecycle_failure (control r')). intros f E1 E2 E3 E4 E5. split; rewrite ?E1; try done. right. by split_and!. }
  assert (control r = set_failure (lifecycle_failure (control r)) (control r)) as Hctl by by destruct (control r).
  unfold lane_step in H. destruct (lane_at (lane r)) as [| |[|turns] cutoff|turns cutoff id| |b|] eqn:Ep.
  - destruct (_ || _); [|discriminate H]. got H. by apply Hap.
  - got H. by apply Hap.
  - got H. by apply Hap.
  - destruct (q_claim_before _ _) as [q [[t id]|]]; got H; by apply Hap.
  - apply bind_Some_inv in H as (r1 & H1 & H). apply bind_Some_inv in H as (c & _ & H). got H.
    pose proof (finish_apart _ _ _ H1) as (E1 & E2 & E3).
    assert (lane_at (lane r1) = lane_at (lane r)) as El by by eapply finish_lane_at.
    destruct c; apply Hap; try assumption; cbn; congruence.
  - got H. apply Hap; [exact Hctl|reflexivity|auto|cbn; congruence|cbn; congruence].
  - destruct (tasks_locked r); [discriminate H|]. got H. apply Hap; [exact Hctl|reflexivity|auto|cbn|cbn].
    + by destruct (_ && _).
    + destruct b; cbn; [|done]. case_bool_decide; [|done]. by intros _.
  - done.
Qed.

Lemma other_apart capacity a r r' : books_ok capacity (books r) (submission r) -> of_caller a = false -> runtime_step a r = Some r' -> apart r r'.
Proof.
  intros Hb Ha H. destruct (books_apart capacity a r r' Hb Ha (runtime_books_step _ _ _ H)) as [Hacc Hpend].
  assert (callers (control r') = callers (control r) -> close_joining (control r') = close_joining (control r) ->
    terminal_report (control r') = terminal_report (control r) ->
    finish_completion_thread (lane r') = finish_completion_thread (lane r) ->
    (ended_with (transport (lane r)) (transport (lane r'))) ->
    lane_at (lane r') = lane_at (lane r) -> (accepting (ledger (books r)) = false -> tasks (lane r') = tasks (lane r)) -> apart r r') as Hap.
  { intros E1 E2 E3 E4 E5 E6 E7. split; try done; [by left|]. intros _ Ht _ Hf. by rewrite E7. }
  assert (forall b x, with_transport b r = Some x -> lane r' = lane x -> control r' = control r -> apart r r') as Htr.
  { intros b x Hx El Ec. pose proof (with_transport_stopped _ _ _ Hx) as Hs. apply with_transport_Some in Hx as (p & _ & ->).
    apply Hap; rewrite ?El, ?Ec; try reflexivity. exact Hs. }
  destruct a; try discriminate Ha; cbn [runtime_step] in H.
  - assert (submission r <> Free -> accepting (ledger (books r)) = true) as Hopen.
    { intros Hn. destruct (accepting (ledger (books r))) eqn:E; [done|]. by destruct Hn; apply (bo_free _ _ _ Hb). }
    clear Hpend. unfold submission_step in H. destruct (submission r).
    + destruct (negb _); [got H; by apply Hap|]. destruct checked; got H; by apply Hap.
    + got H. destruct (ledger_full _); by apply Hap.
    + destruct (observed_as c); got H; by apply Hap.
    + destruct token as [t|]; got H; [|by apply Hap]. destruct (queue_observer _ _).2; by apply Hap.
    + got H. by apply Hap.
    + apply bind_Some_inv in H as (r1 & H1 & H). got H. pose proof H1 as (p & _ & E)%with_transport_Some.
      apply (Htr _ _ H1); [reflexivity|by rewrite E].
    + apply bind_Some_inv in H as (r1 & H1 & H). got H. pose proof H1 as (p & _ & E)%with_transport_Some.
      apply (Htr _ _ H1); [reflexivity|by rewrite E].
    + got H. by apply Hap.
    + apply bind_Some_inv in H as (r1 & (p & Hp & ->)%with_transport_Some & H). got H. apply Hap; try reflexivity. by apply (step_stopped _ _ _ Hp).
    + destruct (queue_completion _ _).2; [|discriminate H]. got H. by apply Hap.
    + apply bind_Some_inv in H as (st & _ & H). got H. by apply Hap.
    + got H. by apply Hap.
    + got H. apply Hap; try reflexivity; [auto|]. intros Hf. rewrite Hopen in Hf; done.
    + got H. by apply Hap.
  - apply bind_Some_inv in H as (h & _ & H). destruct h; try discriminate H; pose proof H as (p & _ & E)%with_transport_Some;
      (apply (Htr _ _ H); [reflexivity|by rewrite E]).
  - unfold engine_step in H. destruct a; try discriminate H; try (case_bool_decide; [discriminate H|]);
      try (pose proof H as (p & _ & E)%with_transport_Some; apply (Htr _ _ H); [reflexivity|by rewrite E]).
    apply bind_Some_inv in H as (r1 & (p & Hp & ->)%with_transport_Some & H). apply bind_Some_inv in H as (r2 & (x & _ & ->)%with_lease_Some & H).
    got H. apply Hap; try reflexivity. by apply (step_stopped _ _ _ Hp).
  - unfold publication_queues in H. apply bind_Some_inv in H as (e & _ & H). got H. by apply Hap.
  - unfold hook_notifies in H. destruct (notifying (lane r)); [discriminate H|]. got H. by apply Hap.
  - by eapply thread_apart.
  - apply handle_frame in H as (_ & _ & El & _ & Ec). apply Hap; rewrite ?El, ?Ec; auto.
  - unfold result_hook in H. apply bind_Some_inv in H as (id & _ & H). apply bind_Some_inv in H as (r1 & (x & _ & ->)%with_lease_Some & H).
    got H. by apply Hap.
  - pose proof (watch_frame _ _ _ H) as (_ & _ & El & _).
    assert (exists n m f, control r' = set_active n m f /\ callers f = callers (control r) /\ close_joining f = close_joining (control r) /\
      terminal_report f = terminal_report (control r)) as (n & m & f & Ec & E1 & E2 & E3).
    { clear -H. unfold watch_step in H. exists (active_observer_dispositions (control r')), (active_readiness_waiters (control r')), (control r').
      split; [by destruct (control r')|]. destruct a; repeat (case_match; try discriminate H); by take_apart. }
    apply Hap; rewrite ?El, ?Ec; auto.
Qed.

(** * Steps of the callers *)

(** What a caller's step leaves of what control depends on. *)
Record onward (r r' : Runtime) : Prop := {
  on_accepting : accepting (ledger (books r)) = false -> accepting (ledger (books r')) = false;
  on_pending : pending_results (ledger (books r')) = pending_results (ledger (books r)) /\
    pending_observers (ledger (books r')) = pending_observers (ledger (books r));
  on_stopped : ended_with (transport (lane r)) (transport (lane r'));
  on_lane : lane_at (lane r') = lane_at (lane r) /\ tasks (lane r') = tasks (lane r);
  on_finish : finish_completion_thread (lane r) = true -> finish_completion_thread (lane r') = true;
  on_finishing : finish_completion_thread (lane r') = true -> finish_completion_thread (lane r) = true \/
    accepting (ledger (books r')) = false /\ is_Some (stopped (transport (lane r')));
}.

(** What the place a caller comes to asks of the runtime. *)
Record arrives (r : Runtime) (x : Caller) : Prop := {
  ar_ledger : past_ledger x = true -> accepting (ledger (books r)) = false;
  ar_engine : past_engine x = true -> is_Some (stopped (transport (lane r)));
  ar_carried : forall b, carried x = Some b -> stopped (transport (lane r)) = Some b;
  ar_finish : past_finish x = true -> finish_completion_thread (lane r) = true;
  ar_lane : past_lane x = true -> lane_at (lane r) = Returned;
  ar_read : forall b l, x = MakeReport b l -> pending_results (ledger (books r)) <= pending_results l /\
    pending_observers (ledger (books r)) <= pending_observers l;
  ar_closed : forall s, x = ClosedWith s -> terminal_report (control r) = Some s;
}.

Lemma inserted {X} (l : list X) k x y : y ∈ <[k := x]> l -> y = x \/ y ∈ l.
Proof. intros (i & [(-> & <- & _)|[_ Hy]]%list_lookup_insert_Some)%list_elem_of_lookup; [by left|right]. by eapply list_elem_of_lookup_2. Qed.

Lemma caller_moves r r' k x x' :
  control_ok r -> callers (control r) !! k = Some x -> callers (control r') = <[k := x']> (callers (control r)) -> onward r r' ->
  joins x' + b2n (close_joining (control r)) = joins x + b2n (close_joining (control r')) ->
  (close_joining (control r') = true -> terminal_report (control r') = None) ->
  terminal_report (control r') = terminal_report (control r) \/
    terminal_report (control r) = None /\ (exists s, terminal_report (control r') = Some s /\ report_true r' s) ->
  arrives r' x' -> control_ok r'.
Proof.
  intros [] Hk E [Ha [P1 P2] He [L1 L2] Hf Hfg] Hj Hopen Ht []. pose proof (ended_some _ _ He) as Hs.
  assert (forall s, terminal_report (control r) = Some s -> terminal_report (control r') = Some s) as Hterm.
  { intros s Hs'. destruct Ht as [->|[Hn _]]; [done|congruence]. }
  split; rewrite ?E, ?L1, ?L2, ?P1, ?P2; try done.
  - intros y [->|Hy]%inserted; eauto.
  - pose proof (sum_insert joins (callers (control r)) k x x' Hk). lia.
  - intros y [->|Hy]%inserted; eauto.
  - intros y b [->|Hy]%inserted Hp; eauto.
  - intros y [->|Hy]%inserted; eauto.
  - intros y [->|Hy]%inserted Hp; [rewrite <-L1|]; eauto.
  - intros [H|H]%Hfg; [|done]. destruct (co_finishing0 H). auto.
  - auto.
  - intros b l [H|Hy]%inserted; [rewrite <-P1, <-P2|]; eauto.
  - intros s Hs'. destruct Ht as [Ht|(_ & s' & Ht & Hr)].
    + rewrite Ht in Hs'. destruct (co_report0 s Hs') as (? & ? & ? & ? & ?). split_and!; rewrite ?L1, ?P1, ?P2; auto.
    + rewrite Ht in Hs'. by injection Hs' as <-.
  - intros s [H|Hy]%inserted; eauto.
Qed.

Lemma onward_same r r' : books r' = books r -> lane r' = lane r -> onward r r'.
Proof. intros E1 E2. split; rewrite ?E1, ?E2; auto. Qed.

Lemma cancel_tasks_stopped ids r r' : cancel_tasks ids r = Some r' ->
  ended_with (transport (lane r)) (transport (lane r')).
Proof.
  revert r. induction ids as [|id ids IH]; cbn [cancel_tasks]; intros r H b Hs; [by got H|].
  apply bind_Some_inv in H as (r1 & H1 & H). eapply IH; [done|]. by eapply with_transport_stopped.
Qed.

Lemma enter_control r k x : control_ok r -> callers (control r) !! k = Some x -> joins x = 0 -> control_ok (enter_close k r).
Proof.
  intros Hok Hk Hx. unfold enter_close. destruct (terminal_report (control r)) as [rep|] eqn:Et.
  - destruct (co_report r Hok rep Et) as (_ & Hl & _).
    eapply (caller_moves r _ k x (ClosedWith rep)); try done; [by apply onward_same|by rewrite Hx|apply Hok|by left|].
    split; try done; [|by intros s [= <-]]. intros _. apply (co_finishing r Hok). apply (co_leaving r Hok). by right.
  - destruct (close_joining (control r)) eqn:Ej.
    + eapply (caller_moves r _ k x AwaitingClose); try done; [by apply onward_same|by rewrite Hx|by left].
    + eapply (caller_moves r _ k x (StopLedger true)); try done; [by apply onward_same|cbn; by rewrite Ej, Hx|by left; rewrite Et].
Qed.

(** The closer is the only one, and there is no report yet. *)
Lemma closer_alone r k x : control_ok r -> callers (control r) !! k = Some x -> joins x = 1 ->
  close_joining (control r) = true /\ terminal_report (control r) = None.
Proof.
  intros Hok Hk Hx. assert (close_joining (control r) = true) as Hj.
  { pose proof (co_joins r Hok) as Hsum. pose proof (sum_covers joins _ _ _ Hk) as Hle. destruct (close_joining (control r)); [done|]. cbn in Hsum. lia. }
  split; [done|]. by apply (co_open r Hok).
Qed.

Lemma caller_control k a r r' : control_ok r -> caller_step k a r = Some r' -> control_ok r'.
Proof.
  intros Hok H. unfold caller_step in H. apply bind_Some_inv in H as (x & Hk & H).
  assert (x ∈ callers (control r)) as Hin by by eapply list_elem_of_lookup_2.
  assert (forall r1 x', callers (control r1) = callers (control r) -> close_joining (control r1) = close_joining (control r) ->
    terminal_report (control r1) = terminal_report (control r) -> onward r r1 -> joins x' = joins x -> arrives (go_caller k x' r1) x' ->
    control_ok (go_caller k x' r1)) as Hgo.
  { intros r1 x' E1 E2 E3 Hon Hj Har. eapply (caller_moves r _ k x x'); cbn; rewrite ?E1, ?E2, ?E3; try done.
    - destruct Hon. by split.
    - lia.
    - apply Hok.
    - by left. }
  assert (past_ledger x = true -> accepting (ledger (books r)) = false) as Hacc by by apply (co_ledger r Hok).
  assert (past_engine x = true -> is_Some (stopped (transport (lane r)))) as Heng by by apply (co_engine r Hok).
  assert (forall b, carried x = Some b -> stopped (transport (lane r)) = Some b) as Hcar
    by (intros b; by apply (co_carried r Hok)).
  assert (past_finish x = true -> finish_completion_thread (lane r) = true) as Hfin by by apply (co_finish r Hok).
  assert (past_lane x = true -> lane_at (lane r) = Returned) as Hlane by by apply (co_lane r Hok).
  destruct x, a; try discriminate H; cbn in Hacc, Heng, Hcar, Hfin, Hlane.
  - got H. apply Hgo; try done. by apply onward_same.
  - got H. by eapply enter_control.
  - destruct (submission r); try discriminate H. got H. apply Hgo; try done. split; try done; cbn; auto.
  - destruct (tasks_locked r); [discriminate H|]. apply bind_Some_inv in H as (r1 & H1 & H). got H.
    pose proof (cancel_tasks_stopped _ _ _ H1) as Hs. apply cancel_tasks_frame in H1 as (t & ->). apply Hgo; try done; split; try done; cbn; auto.
  - apply bind_Some_inv in H as (r1 & H1 & H). got H. apply with_transport_Some in H1 as (p & Hp & ->).
    cbn [transport_step] in Hp. got Hp. apply Hgo; try done.
    + split; try done; cbn; auto.
    + by destruct closing.
    + destruct closing; split; try done; cbn; auto.
  - destruct (_ || _); [|discriminate H]. got H. by eapply enter_control.
  - apply bind_Some_inv in H as (b & Hb & H). got H.
    assert (forall r1, books r1 = books r -> lane r1 = lane r -> arrives (go_caller k (FinishLane b) r1) (FinishLane b)) as Har.
    { intros r1 E1 E2. split; try done; cbn; rewrite ?E1, ?E2; [auto|by rewrite Hb|by intros b' [= <-]]. }
    destruct b; [|unfold store_lifecycle_failure; case_match]; (apply Hgo; try done; first [by apply onward_same|by apply Har]).
  - got H. apply Hgo; try done; split; try done; cbn; auto.
  - destruct (lane_at (lane r)) eqn:El; try discriminate H. got H. apply Hgo; try done; try (by apply onward_same); split; try done; cbn; auto.
  - got H. apply Hgo; try done; try (by apply onward_same); split; try done; cbn; auto.
  - destruct (_ =? _)%nat; [|discriminate H]. got H. apply Hgo; try done; try (by apply onward_same); split; try done; cbn; auto.
  - got H. apply Hgo; try done; try (by apply onward_same); split; try done; cbn; auto; by intros b' l [= <- <-].
  - got H. destruct (closer_alone r k (MakeReport b l) Hok Hk eq_refl) as [Hj Ht]. destruct (co_read r Hok b l Hin) as [Hp1 Hp2].
    eapply (caller_moves r _ k (MakeReport b l) (ClosedWith (make_report b l r))); try done.
    + by apply onward_same.
    + cbn. by rewrite Hj.
    + right. split; [done|]. exists (make_report b l r). split; [done|]. split_and!; try done.
      * cbn. auto.
      * cbn. auto.
      * unfold make_report. cbn [safe_to_unload transports_stopped left_results left_observers]. intros Hsafe.
        repeat (apply andb_true_iff in Hsafe as [Hsafe ?]). by rewrite !Nat.eqb_eq in *.
    + split; try done; cbn; auto. by intros s [= <-].
Qed.

Lemma control_step capacity a r r' : runtime_ok capacity r -> control_ok r -> runtime_step a r = Some r' -> control_ok r'.
Proof.
  intros [Hb _ _ _ _ _ _ _] Hc H. destruct (of_caller a) eqn:Ea.
  - destruct a; try discriminate Ea. by eapply caller_control.
  - eapply apart_control; [done|]. by eapply other_apart.
Qed.

Lemma reachable_control capacity n r : reachable capacity n r -> runtime_ok capacity r /\ control_ok r.
Proof.
  induction 1 as [|a r r' Hr [IH1 IH2] H]; [split; [eapply reachable_runtime_ok; constructor|apply start_control]|].
  split; [by eapply runtime_ok_step|by eapply control_step].
Qed.

(** * The thread returns *)

(** The thread has been told to finish. *)
Record draining (capacity : nat) (r : Runtime) : Prop := {
  dr_ok : runtime_ok capacity r;
  dr_finish : finish_completion_thread (lane r) = true;
  dr_free : submission r = Free;
  dr_stopped : is_Some (stopped (transport (lane r)));
}.

Definition thread_runs : Runtime -> Runtime -> Prop := rtc (fun r r' => lane_step r = Some r').

Lemma draining_step capacity r r' : draining capacity r -> lane_step r = Some r' -> draining capacity r'.
Proof.
  intros [Hok Hf Hs Hst] H. pose proof (thread_apart _ _ _ (ok_books _ _ Hok) H) as []. pose proof (thread_handles _ _ H) as [_ Es].
  split; [by eapply (runtime_ok_step _ LaneActs)|congruence|congruence|by eapply ended_some].
Qed.

Lemma draining_runs capacity r r' : draining capacity r -> thread_runs r r' -> draining capacity r'.
Proof. intros Hd Hr. induction Hr as [|x y z H _ IH]; [done|]. eapply IH, draining_step; done. Qed.

(** Every command is answered and its operation retired. *)
Lemma draining_called capacity r id c : draining capacity r -> courses (lane r) !! id = Some c ->
  exists st, operations (transport (lane r)) !! id = Some st /\ is_Some (outcome st) /\
    v_called (view (submission r) (lane r) id) = true /\ fits id c (view (submission r) (lane r) id).
Proof.
  intros [[_ _ _ [Hl Hf] _ _ _ _] _ Hfree Hst] Hc.
  pose proof (to_stopped _ (lo_transport _ _ _ Hl) Hst) as Hall. rewrite all_retired_spec in Hall.
  pose proof (lo_submissions _ _ _ Hl) as Hsub. pose proof (lo_length _ _ _ Hl) as Hlen. rewrite Hfree in Hsub, Hlen.
  assert (id < length (operations (transport (lane r)))) as Hlt.
  { apply lookup_lt_Some in Hc. rewrite (lo_courses _ _ _ Hl) in Hc. lia. }
  destruct (Hall id Hlt) as [Hin|Hin]; [rewrite Hsub in Hin; by apply elem_of_nil in Hin|].
  destruct (to_retired _ (lo_transport _ _ _ Hl) _ Hin) as (st & E1 & _ & E3). exists st. split_and!; try done; [by apply bool_decide_true|by apply Hf].
Qed.

Definition course_rank (c : Course) : nat :=
  match c with
  | Claimed _ => 7 | Taken _ => 6 | Answered => 5 | Settled => 4 | Enqueued _ => 3 | Counted => 2 | Erased => 1 | _ => 0
  end.

(** A section of the callback is never stuck, comes nearer its end, and leaves the queue alone. *)
Lemma finish_goes_on capacity r turns cutoff id : draining capacity r -> lane_at (lane r) = Working turns cutoff id ->
  exists c r' c', courses (lane r) !! id = Some c /\ finish_step id r = Some r' /\ courses (lane r') !! id = Some c' /\
    completions (lane r') = completions (lane r) /\ (c' = Done \/ 0 < course_rank c' < course_rank c) /\ 0 < course_rank c.
Proof.
  intros Hd Hat. pose proof Hd as [[Hb [] _ [Hl Hf] _ _ _ [Hz1 Hz2]] _ Hfree Hst].
  pose proof (lo_working _ _ _ Hl _ _ _ Hat) as Hid. unfold next_task in *.
  assert (forall {X} (l : list X), length l = length (leases (books r)) -> exists x, l !! id = Some x) as Hget.
  { intros X l E. apply lookup_lt_is_Some_2. lia. }
  destruct (Hget _ _ (lo_courses _ _ _ Hl)) as [c Hc]. destruct (draining_called _ _ _ _ Hd Hc) as (st & Hst1 & [raw Hraw] & _ & [Hfc _]).
  assert (v_working (view (submission r) (lane r) id) = true) as Hw by (unfold view; cbn; rewrite Hat; cbn; by rewrite bool_decide_true).
  pose proof (view_operation (submission r) (lane r) id st Hst1) as Hv.
  assert (id < length (courses (lane r))) as Hlt by by eapply lookup_lt_Some.
  assert (forall x c' rk, courses (lane x) = courses (lane r) -> completions (lane x) = completions (lane r) -> rk = course_rank c -> c' = Done /\ 0 < rk \/ 0 < course_rank c' < rk ->
    exists r' c'', Some c = Some c /\ Some (go_course id c' x) = Some r' /\ courses (lane r') !! id = Some c'' /\
      completions (lane r') = completions (lane r) /\ (c'' = Done \/ 0 < course_rank c'' < course_rank c) /\ 0 < course_rank c) as Hgo.
  { intros x c' rk E1 E2 -> Hlt'. exists (go_course id c' x), c'. cbn. rewrite E1, list_lookup_insert_eq by done.
    destruct Hlt' as [[-> ?]|?]; split_and!; try done; auto; lia. }
  exists c. unfold finish_step. rewrite Hc. cbn [mbind option_bind].
  destruct c; cbn in Hfc; rewrite ?Hw in Hfc; open_fits.
  - subst token. assert (exists q, handle_call (TakeCallback (tok id)) st = Some q) as [q Hq].
    { match goal with H : v_operation _ = Some (callback_phase, _, _) |- _ => rewrite Hv in H; injection H as Hob Hto _ end.
      apply bool_decide_eq_true in Hto. cbn. unfold take_callback.
      rewrite Hraw, Hob, Hto, !bool_decide_true by done. cbn [mbind option_bind assert_].
      assert (forall s : RawOperation, outcome (release_hook_locked s).1 = outcome s) as Hrel by (intros s; unfold release_hook_locked; by case_match).
      rewrite Hrel. cbn. rewrite Hraw. by eexists. }
    destruct (Hget _ _ (lo_closures _ _ _ Hl)) as [read Hread]. rewrite Hst1. cbn [mbind option_bind]. rewrite Hraw. cbn [mbind option_bind].
    rewrite Hread. cbn [mbind option_bind]. unfold with_transport. cbn [transport_step]. pose proof (lo_submissions _ _ _ Hl) as Hsub. rewrite Hfree in Hsub.
    rewrite bool_decide_false by (rewrite Hsub; apply not_elem_of_nil). unfold raw_section. rewrite Hst1. cbn [mbind option_bind]. rewrite Hq. cbn [mbind option_bind].
    apply (Hgo _ _ 7); cbn; first [done|right; lia|left; split; [done|lia]].
  - destruct (Hget _ _ Hz1) as [o Ho], (Hget _ _ rs_results) as [rs Hrs]. rewrite Ho. cbn [mbind option_bind]. unfold with_result. rewrite Hrs.
    cbn [mbind option_bind]. unfold publish_section. cbn [mbind option_bind]. apply (Hgo _ _ 6); cbn; first [done|right; lia|left; split; [done|lia]].
  - destruct (Hget _ _ rs_results) as [rs Hrs]. unfold with_result. rewrite Hrs. cbn [mbind option_bind].
    destruct (retire_section_ok rs) as (q & Hq & _); [by eapply Forall_lookup_1|]. rewrite Hq. cbn [mbind option_bind]. apply (Hgo _ _ 5); cbn; first [done|right; lia|left; split; [done|lia]].
  - destruct (Hget _ _ Hz2) as [tk Htk]. rewrite Htk. cbn [mbind option_bind]. destruct tk as [t|]; [|apply (Hgo _ _ 4); cbn; first [done|right; lia|left; split; [done|lia]]].
    destruct (queue_observer (Enqueue t) r).2; [apply (Hgo _ _ 4); cbn; first [done|right; lia|left; split; [done|lia]]|].
    destruct (store_frame unqueued_failure (queue_observer (Enqueue t) r).1) as [c0 ->]. apply (Hgo _ _ 4); cbn; first [done|right; lia|left; split; [done|lia]].
  - destruct fine; [|apply (Hgo _ _ 3); cbn; first [done|right; lia|left; split; [done|lia]]]. destruct (Hget _ _ eq_refl) as [lx Hlx]. unfold with_lease. rewrite Hlx. cbn [mbind option_bind]. apply (Hgo _ _ 3); cbn; first [done|right; lia|left; split; [done|lia]].
  - unfold tasks_locked. rewrite Hfree. assert (q_callbacks (completions (lane r)) !! tok id = None) as Hnone.
    { apply eq_None_not_Some. by eapply bool_decide_eq_false_1. }
    rewrite (erase_gone _ _ id r (conj Hl Hf) Hnone). apply (Hgo _ _ 2); cbn; first [done|right; lia|left; split; [done|lia]].
  - apply (Hgo _ _ 1); cbn; first [done|right; lia|left; split; [done|lia]].
Qed.

#[local] Instance course_done_dec c : Decision (c = Done).
Proof. destruct c; first [by left|by right]. Defined.

(** The thread gets through the callback it has claimed. *)
Lemma working_ends capacity turns cutoff id rank r : draining capacity r -> lane_at (lane r) = Working turns cutoff id ->
  (forall c, courses (lane r) !! id = Some c -> course_rank c <= rank) ->
  exists r', thread_runs r r' /\ lane_at (lane r') = Running turns cutoff /\ completions (lane r') = completions (lane r).
Proof.
  revert r. induction rank as [|rank IH]; intros r Hd Hat Hrank;
    destruct (finish_goes_on _ _ _ _ _ Hd Hat) as (c & r1 & c' & Hc & Hstep & Hc' & Eq & Hless & Hpos).
  { specialize (Hrank c Hc). lia. }
  assert (lane_step r = Some (match c' with Done => go_lane (Running turns cutoff) r1 | _ => r1 end)) as H.
  { unfold lane_step. rewrite Hat, Hstep. cbn [mbind option_bind]. rewrite Hc'. done. }
  pose proof (draining_step _ _ _ Hd H) as Hd'. pose proof (finish_lane_at _ _ _ Hstep) as Hat1. rewrite Hat in Hat1.
  destruct (decide (c' = Done)) as [->|Hn].
  - exists (go_lane (Running turns cutoff) r1). split_and!; [by apply rtc_once|done|done].
  - destruct Hless as [|Hless]; [done|]. specialize (Hrank c Hc). destruct (IH r1) as (r2 & H1 & H2 & H3); [by destruct c'|done| |].
    + intros c0 Hc0. rewrite Hc' in Hc0. injection Hc0 as <-. lia.
    + exists r2. split_and!; [|done|congruence]. eapply rtc_l; [|done]. by destruct c'.
Qed.

(** A pass ends, with nothing left if it had turns enough and came late enough. *)
Lemma pass_ends capacity turns cutoff r : draining capacity r -> lane_at (lane r) = Running turns cutoff ->
  exists r', thread_runs r r' /\ lane_at (lane r') = Deciding /\
    (length (q_ready (completions (lane r))) <= turns -> Forall (fun e => e.2 <= cutoff)%N (q_ready (completions (lane r))) ->
     q_ready (completions (lane r')) = []).
Proof.
  revert r. induction turns as [|turns IH]; intros r Hd Hat.
  - exists (go_lane Deciding r). split_and!; [|done|].
    + apply rtc_once. unfold lane_step. by rewrite Hat.
    + cbn. intros Hlen _. by apply length_zero_iff_nil; lia.
  - pose proof (dr_ok _ _ Hd) as [_ _ _ [Hl _] [Ha _ _] _ _ _]. pose proof (claim_before_cases cutoff _ Ha (lo_queue _ _ _ Hl)) as Hcl.
    destruct (q_claim_before cutoff (completions (lane r))) as [q [[t id]|]] eqn:Eq.
    + destruct Hcl as (e & E1 & _ & _).
      set (r1 := go_lane (Working turns cutoff id) (go_course id (Claimed t) (set_lane (set_completions q (lane r)) r))).
      assert (lane_step r = Some r1) as H by (unfold lane_step; by rewrite Hat, Eq).
      pose proof (draining_step _ _ _ Hd H) as Hd1.
      destruct (working_ends capacity turns cutoff id 7 r1 Hd1 eq_refl) as (r2 & H2 & Hat2 & Eq2); [by intros c _; destruct c; cbn; lia|].
      destruct (IH r2) as (r3 & H3 & Hat3 & Hnone); [by eapply draining_runs|done|].
      exists r3. split_and!; [|done|].
      * eapply rtc_l; [exact H|]. by etrans.
      * rewrite E1. intros Hlen [_ Hall]%Forall_cons. apply Hnone; rewrite Eq2; cbn in *; [lia|done].
    + destruct Hcl as [_ Hold]. exists (go_lane Deciding r). split_and!; [|done|].
      * apply rtc_once. unfold lane_step. by rewrite Hat, Eq.
      * cbn. intros _ Hall. destruct (q_ready (completions (lane r))) as [|e l] eqn:E; [done|]. apply Forall_cons in Hall as [He _].
        assert (cutoff < e.2)%N; [|lia]. eapply in_old; [done|]. rewrite E. by left.
Qed.

(** With nothing ready and no callback running, nothing is listed. *)
Lemma nothing_listed capacity r : draining capacity r -> lane_at (lane r) = Deciding -> q_ready (completions (lane r)) = [] -> tasks (lane r) = [].
Proof.
  intros Hd Hat Hnone. pose proof (dr_ok _ _ Hd) as [_ _ _ [Hl _] _ _ _ _]. destruct (tasks (lane r)) as [|[id t] l] eqn:Et; [done|exfalso].
  assert ((id, t) ∈ tasks (lane r)) as Hin by (rewrite Et; by left).
  destruct (lo_tasks _ _ _ Hl _ Hin) as [_ Hid]. cbn in Hid. rewrite <-(lo_courses _ _ _ Hl) in Hid. destruct (lookup_lt_is_Some_2 _ _ Hid) as [c Hc].
  destruct (draining_called _ _ _ _ Hd Hc) as (st & Hst & Hout & Hcalled & Hfc & Hq & _).
  assert (v_tasked (view (submission r) (lane r) id) = true) as Ht by (apply bool_decide_true; by apply (list_elem_of_fmap_2 fst) in Hin).
  assert (v_working (view (submission r) (lane r) id) = false) as Hw by (unfold view; cbn; by rewrite Hat).
  assert (v_stage (view (submission r) (lane r) id) = Elsewhere) as Hs by (unfold view; cbn; by rewrite (dr_free _ _ Hd)).
  assert (v_ready (view (submission r) (lane r) id) = false) as Hr.
  { apply bool_decide_false. rewrite Hnone. apply not_elem_of_nil. }
  assert (v_answered (view (submission r) (lane r) id) = true) as Ha.
  { unfold v_answered. rewrite (view_operation _ _ _ _ Hst). by apply bool_decide_true. }
  destruct c; cbn in Hfc; unfold over in Hfc; rewrite ?Hw, ?Hs, ?Ht in Hfc; open_fits; try congruence.
  match goal with H : _ -> _ \/ _ |- _ => destruct (H Ha) as [?|[Hqueued|[?|?]]] end; try congruence. destruct (Hq Hqueued). congruence.
Qed.

Lemma leaving_returns capacity r : draining capacity r -> lane_at (lane r) = Deciding -> q_ready (completions (lane r)) = [] ->
  exists r', thread_runs r r' /\ lane_at (lane r') = Returned.
Proof.
  intros Hd Hat Hnone. pose proof (nothing_listed _ _ Hd Hat Hnone) as Ht.
  exists (go_lane Returned (go_lane (Leaving true) r)). split; [|done]. eapply rtc_l; [|apply rtc_once].
  - unfold lane_step. rewrite Hat, (dr_finish _ _ Hd). done.
  - unfold lane_step, tasks_locked. cbn. by rewrite (dr_free _ _ Hd), Ht.
Qed.

Lemma starting_returns capacity r : draining capacity r -> lane_at (lane r) = Starting -> exists r', thread_runs r r' /\ lane_at (lane r') = Returned.
Proof.
  intros Hd Hat. set (q := completions (lane r)). set (r1 := go_lane (Running (length (q_ready q)) (q_last q)) r).
  assert (lane_step r = Some r1) as H by (unfold lane_step; by rewrite Hat).
  pose proof (draining_step _ _ _ Hd H) as Hd1. destruct (pass_ends _ _ _ _ Hd1 eq_refl) as (r2 & H2 & Hat2 & Hnone).
  pose proof (dr_ok _ _ Hd) as [_ _ _ _ [[_ Hage] _ _] _ _ _].
  destruct (leaving_returns capacity r2) as (r3 & H3 & Hat3); [by eapply draining_runs|done| |].
  - apply Hnone; [done|]. rewrite Forall_fmap in Hage. exact Hage.
  - exists r3. split; [|done]. eapply rtc_l; [exact H|]. by etrans.
Qed.

Lemma sleeping_returns capacity r : draining capacity r -> lane_at (lane r) = Sleeping -> exists r', thread_runs r r' /\ lane_at (lane r') = Returned.
Proof.
  intros Hd Hat. assert (lane_step r = Some (go_lane Starting (set_lane (set_wake false (finish_completion_thread (lane r)) (lane r)) r))) as H.
  { unfold lane_step. by rewrite Hat, (dr_finish _ _ Hd), orb_true_r. }
  destruct (starting_returns capacity _ (draining_step _ _ _ Hd H) eq_refl) as (r' & H1 & H2). exists r'. split; [|done]. by eapply rtc_l.
Qed.

Lemma leaves_returns capacity r b : draining capacity r -> lane_at (lane r) = Leaving b -> exists r', thread_runs r r' /\ lane_at (lane r') = Returned.
Proof.
  intros Hd Hat. assert (lane_step r = Some (go_lane (if b && bool_decide (tasks (lane r) = []) then Returned else Sleeping) r)) as H.
  { unfold lane_step, tasks_locked. by rewrite Hat, (dr_free _ _ Hd). }
  pose proof (draining_step _ _ _ Hd H) as Hd'. destruct (b && bool_decide (tasks (lane r) = [])).
  - eexists. split; [by apply rtc_once|done].
  - destruct (sleeping_returns capacity _ Hd' eq_refl) as (r' & H1 & H2). exists r'. split; [|done]. by eapply rtc_l.
Qed.

Lemma deciding_returns capacity r : draining capacity r -> lane_at (lane r) = Deciding -> exists r', thread_runs r r' /\ lane_at (lane r') = Returned.
Proof.
  intros Hd Hat. assert (lane_step r = Some (go_lane (Leaving (finish_completion_thread (lane r))) r)) as H by (unfold lane_step; by rewrite Hat).
  destruct (leaves_returns capacity _ _ (draining_step _ _ _ Hd H) eq_refl) as (r' & H1 & H2). exists r'. split; [|done]. by eapply rtc_l.
Qed.

Lemma running_returns capacity turns cutoff r : draining capacity r -> lane_at (lane r) = Running turns cutoff ->
  exists r', thread_runs r r' /\ lane_at (lane r') = Returned.
Proof.
  intros Hd Hat. destruct (pass_ends _ _ _ _ Hd Hat) as (r1 & H1 & Hat1 & _).
  destruct (deciding_returns capacity r1 (draining_runs _ _ _ Hd H1) Hat1) as (r' & H2 & H3). exists r'. split; [|done]. by etrans.
Qed.

Lemma thread_returns capacity r : draining capacity r -> exists r', thread_runs r r' /\ lane_at (lane r') = Returned.
Proof.
  intros Hd. destruct (lane_at (lane r)) as [| |turns cutoff|turns cutoff id| |b|] eqn:Hat.
  - by eapply sleeping_returns.
  - by eapply starting_returns.
  - by eapply running_returns.
  - destruct (working_ends capacity turns cutoff id 7 r Hd Hat) as (r1 & H1 & Hat1 & _); [by intros c _; destruct c; cbn; lia|].
    destruct (running_returns capacity _ _ r1 (draining_runs _ _ _ Hd H1) Hat1) as (r' & H2 & H3). exists r'. split; [|done]. by etrans.
  - by eapply deciding_returns.
  - by eapply leaves_returns.
  - exists r. split; [done|done].
Qed.

(** ** When it has returned *)

Lemma all_done capacity r id c : runtime_ok capacity r -> control_ok r -> lane_at (lane r) = Returned -> courses (lane r) !! id = Some c -> c = Done.
Proof.
  intros [Hb _ _ [Hl Hf] _ _ _ _] Hctl Hat Hc. pose proof (co_returned r Hctl Hat) as Ht. destruct (Hf id c Hc) as [Hfc _].
  assert (finish_completion_thread (lane r) = true) as Hfin by (apply (co_leaving r Hctl); by right).
  destruct (co_finishing r Hctl Hfin) as [Hacc _]. pose proof (bo_free _ _ _ Hb Hacc) as Hfree.
  assert (v_tasked (view (submission r) (lane r) id) = false) as Hv by (apply bool_decide_false; rewrite Ht; apply not_elem_of_nil).
  assert (v_working (view (submission r) (lane r) id) = false) as Hw by (unfold view; cbn; by rewrite Hat).
  assert (v_stage (view (submission r) (lane r) id) = Elsewhere) as Hs by (unfold view; cbn; by rewrite Hfree).
  destruct c; cbn in Hfc; unfold listed in Hfc; rewrite ?Hw, ?Hs, ?Hv in Hfc; open_fits.
Qed.

Lemma finishing_drains capacity r : runtime_ok capacity r -> control_ok r -> finish_completion_thread (lane r) = true -> draining capacity r.
Proof. intros Hok Hctl Hf. destruct (co_finishing r Hctl Hf) as [Ha Hs]. split; try done. apply (bo_free _ _ _ (ok_books _ _ Hok) Ha). Qed.

Lemma sum_zero {X} (f : X -> nat) (l : list X) x : sum_list_with f l = 0 -> x ∈ l -> f x = 0.
Proof. intros Hz [i Hi]%list_elem_of_lookup. pose proof (sum_covers f l i x Hi). lia. Qed.

Lemma sum_all_zero {X} (f : X -> nat) (l : list X) : (forall x, x ∈ l -> f x = 0) -> sum_list_with f l = 0.
Proof. induction l as [|x l IH]; intros H; cbn; [done|]. rewrite (H x) by by left. apply IH. intros y Hy. apply H. by right. Qed.

(** Nothing is in flight when nothing is owed and every operation is retired. *)
Lemma nothing_in_flight capacity r : runtime_ok capacity r -> is_Some (stopped (transport (lane r))) -> submission r = Free ->
  pending_results (ledger (books r)) = 0 -> pending_observers (ledger (books r)) = 0 -> in_flight (ledger (books r)) = 0.
Proof.
  intros [[] _ _ [Hl _] _ _ Hlegs _] Hst Hfree H1 H2. rewrite bo_flight. apply sum_all_zero. intros x Hx.
  rewrite H1 in bo_results. rewrite H2 in bo_observers. symmetry in bo_results, bo_observers.
  pose proof (sum_zero _ _ _ bo_results Hx) as Hr. pose proof (sum_zero _ _ _ bo_observers Hx) as Ho.
  apply list_elem_of_lookup in Hx as [id Hid]. pose proof (Forall_lookup_1 _ _ _ _ bo_leases Hid) as [_ Hrel].
  pose proof (to_stopped _ (lo_transport _ _ _ Hl) Hst) as Hall. rewrite all_retired_spec in Hall.
  pose proof (lo_submissions _ _ _ Hl) as Hsub. pose proof (lo_length _ _ _ Hl) as Hlen. rewrite Hfree in Hsub, Hlen. unfold next_task in Hlen.
  assert (id < length (operations (transport (lane r)))) as Hlt by (apply lookup_lt_Some in Hid; lia).
  destruct (Hall id Hlt) as [Hin|Hin]; [rewrite Hsub in Hin; by apply elem_of_nil in Hin|].
  unfold in_flight_of, result_of, observer_of in *. rewrite Hrel, (Hlegs id x Hid), (bool_decide_true _ Hin).
  destruct (result_finished x), (observer_done x); done.
Qed.

(** * Theorems *)

(** C23: The completion thread ends: from any state in which it has been told to finish, it returns after finitely many of its own
    sections, and every accepted command has then had its callback run. *)
Theorem completion_thread_ends capacity n r :
  reachable capacity n r -> finish_completion_thread (lane r) = true ->
  exists r', thread_runs r r' /\ lane_at (lane r') = Returned /\
    forall id, id < length (leases (books r')) -> courses (lane r') !! id = Some Done.
Proof.
  intros Hr Hf. pose proof (reachable_control _ _ _ Hr) as [Hok Hctl].
  destruct (thread_returns capacity r (finishing_drains _ _ Hok Hctl Hf)) as (r' & Hruns & Hat). exists r'. split_and!; [done|done|].
  assert (reachable capacity n r') as [Hok' Hctl']%reachable_control.
  { clear -Hr Hruns. induction Hruns as [|x y z H _ IH]; [done|]. apply IH. by eapply (reachable_runtime_step _ _ LaneActs). }
  intros id Hid. destruct (lookup_lt_is_Some_2 (courses (lane r')) id) as [c Hc].
  { by rewrite (lo_courses _ _ _ (proj1 (ok_lane _ _ Hok'))). }
  rewrite Hc. f_equal. by eapply all_done.
Qed.

(** C3: What closing the runtime reports is true and stays true: every closer is given the one report; by then nothing can be
    submitted, every accepted command's operation is retired and its answer published; what the report says of the transports is
    what the engine's own close reported once its threads had returned; no more results and observations are ever left than the
    report says; and when it says the runtime is safe to unload, the engine collected every child and no lease is held. *)
Theorem runtime_close_reports capacity n r s :
  reachable capacity n r -> ClosedWith s ∈ callers (control r) ->
  (forall s', ClosedWith s' ∈ callers (control r) -> s' = s) /\
  (forall checked r', submission_step checked r = Some r' -> refusals r' = refusals r ++ [stopped_failure] /\ leases (books r') = leases (books r)) /\
  (forall id, id < length (leases (books r)) -> courses (lane r) !! id = Some Done /\ id ∈ retirements (transport (lane r)) /\
     exists rs a, results (outcomes r) !! id = Some rs /\ outcome rs = Some a /\ answered_as (lane r) id a) /\
  stopped (transport (lane r)) = Some (transports_stopped s) /\
  pending_results (ledger (books r)) <= left_results s /\ pending_observers (ledger (books r)) <= left_observers s /\
  (safe_to_unload s = true -> stopped (transport (lane r)) = Some true /\ in_flight (ledger (books r)) = 0).
Proof.
  intros [Hok Hctl]%reachable_control Hin. pose proof (co_closed r Hctl s Hin) as Hterm.
  destruct (co_report r Hctl s Hterm) as (Hst & Hat & Hp1 & Hp2 & Hsafe). pose proof (co_ledger r Hctl _ Hin eq_refl) as Hacc.
  assert (finish_completion_thread (lane r) = true) as Hfin by (apply (co_leaving r Hctl); by right).
  pose proof (bo_free _ _ _ (ok_books _ _ Hok) Hacc) as Hfree.
  split_and!; try done.
  - intros s' Hin'. pose proof (co_closed r Hctl s' Hin'). congruence.
  - intros checked r' H. unfold submission_step in H. rewrite Hfree, Hacc in H. by got H.
  - intros id Hid. destruct (lookup_lt_is_Some_2 (courses (lane r)) id) as [c Hc].
    { by rewrite (lo_courses _ _ _ (proj1 (ok_lane _ _ Hok))). }
    destruct (draining_called capacity r id c (finishing_drains _ _ Hok Hctl Hfin) Hc) as (_ & _ & _ & Hcalled & _).
    rewrite (all_done capacity r id c Hok Hctl Hat Hc) in Hc. split_and!; [done|by apply bool_decide_eq_true in Hcalled|].
    destruct (lookup_lt_is_Some_2 (results (outcomes r)) id) as [rs Hrs].
    { by rewrite (rs_results _ _ (ok_handled _ _ Hok)). }
    destruct (ok_answers _ _ Hok id Done rs Hc Hrs) as (a & H1 & _ & H2). by exists rs, a.
  - intros Hs. destruct (Hsafe Hs) as (H1 & H2 & H3). rewrite H1 in Hst. split; [done|].
    eapply nothing_in_flight; [done|by exists true|done|lia|lia].
Qed.

(** ** A run *)

Definition demo_close : list runtime_action :=
  demo_done ++ replicate 2 (HandleActs 0 NextSection) ++ [WatchActs EnterDisposition; WatchActs StartDispatch] ++
  repeat (WatchActs NextDisposition) 4 ++ [WatchActs LeaveDisposition; CallerActs 0 CallClose; CallerActs 1 CallClose] ++
  repeat (CallerActs 0 Continue) 3 ++ [EngineActs (EndTransport true)] ++ repeat (CallerActs 0 Continue) 2.
Definition demo_closed : list runtime_action :=
  demo_close ++ repeat LaneActs 5 ++ repeat (CallerActs 0 Continue) 5 ++ [CallerActs 1 Continue].

Lemma completion_thread_ends_witness :
  exists r', thread_runs (demo_runtime demo_close) r' /\ lane_at (lane r') = Returned /\
    forall id, id < length (leases (books r')) -> courses (lane r') !! id = Some Done.
Proof.
  apply (completion_thread_ends 1 2 (demo_runtime demo_close)).
  - eapply demo_runtime_reachable. vm_compute. reflexivity.
  - vm_compute. reflexivity.
Defined.

Lemma runtime_close_reports_witness :
  callers (control (demo_runtime demo_closed)) = [ClosedWith (MkRuntimeShutdown 0 0 true true None); ClosedWith (MkRuntimeShutdown 0 0 true true None)] /\
  stopped (transport (lane (demo_runtime demo_closed))) = Some true /\ in_flight (ledger (books (demo_runtime demo_closed))) = 0.
Proof.
  split; [vm_compute; reflexivity|].
  apply (runtime_close_reports 1 2 (demo_runtime demo_closed) (MkRuntimeShutdown 0 0 true true None)).
  - eapply demo_runtime_reachable. vm_compute. reflexivity.
  - vm_compute. left.
  - reflexivity.
Defined.
