(* ===== verification/CommandEngine.v ===== *)
(** The command engine: [src/command_engine.hpp], [src/command_engine.cpp].

    A bounded number of operations in flight, a queue of accepted commands, workers
    that take them in order, and a gate that lets one command at a time through to
    its transport, in the order they were accepted.  The engine is a transition
    system: every section under a lock, and every call made outside one, is a step
    of some caller or worker, and the steps interleave freely.  An operation's own
    state is the one of [OperationState].

    The theorems: no more operations are in flight than the limit and each admission
    is given back once; commands enter their transport in the order they were
    accepted, one at a time, none skipped; the workers never wait for each other
    for ever; and closing ends, with every accepted command answered.

    Orders are unbounded naturals where the code has 64-bit counters.  Time is what
    the steps read from the clock. *)

From S2P Require Import Prelude Command Wake CompletionQueue OperationState Operations Closing.

Abbreviation OpState := (OperationState (A := text)).
Abbreviation Answer := (OperationResult (A := text)).

(** * Data *)

(** A command and the operation it answers.  [order] is meaningful once accepted. *)
Record PendingCommand := MkPending {
  order : nat;
  operation : nat;
  command : CommandRequest;
  timeout : option Z;
  output_limit : option N;
  deadline : option Z;
}.

Definition with_order (n : nat) (w : PendingCommand) : PendingCommand :=
  MkPending n (operation w) (command w) (timeout w) (output_limit w) (deadline w).
Definition with_timeout (t : option Z) (w : PendingCommand) : PendingCommand :=
  MkPending (order w) (operation w) (command w) t (output_limit w) (deadline w).

(** Where a worker is in [worker_loop]: at the top; holding a command before the
    gate; past it with the entry guard; in the runner, the guard advanced or not;
    with an answer; with the answer published; returned. *)
Inductive Worker :=
  | AtTop
  | AtGate (w : PendingCommand)
  | Entering (w : PendingCommand)
  | Running (w : PendingCommand) (advanced : bool)
  | Leaving (w : PendingCommand) (answer : Answer) (advanced ran : bool)
  | Retiring (w : PendingCommand) (ran : bool)
  | Returned.

Record Engine := MkEngine {
  pool : Pool text;
  submitting : list PendingCommand;
  pending : list PendingCommand;
  next_order : nat;
  next_entry : nat;
  stop_requested : bool;
  workers : list Worker;
  entered : list nat;
}.

Definition operation_limit (e : Engine) : nat := pool_limit (pool e).
Definition in_flight (e : Engine) : nat := pool_in_flight (pool e).
Definition operations (e : Engine) : list (bool * OpState) := pool_operations (pool e).
Definition releasing (e : Engine) : nat := pool_releasing (pool e).

(** [start], with at least one worker. *)
Definition start (limit worker_count : nat) : expected CommandFailure Engine :=
  if (worker_count =? 0)%nat then
    Unexpected (MkFailure validation not_started 0
      (txt "the command engine needs at least one worker"))
  else Value (MkEngine (new_pool limit) [] [] 0 0 false (replicate worker_count AtTop) []).

Definition cancelled_failure (d : DeliveryStatus) (diagnostic : text) : CommandFailure :=
  MkFailure cancelled d 0 diagnostic.
Definition timed_out : CommandFailure :=
  MkFailure Command.timeout not_started 0 (txt "the command deadline passed before it started").
Definition overloaded_failure : CommandFailure :=
  MkFailure overloaded not_started 0
    (txt "the command engine has more work in flight than it accepts").
Definition unfinished : CommandFailure :=
  MkFailure Command.pipe indeterminate 0 (txt "the command worker could not finish this command").

(** * State updates *)

Definition set_pool p e :=
  MkEngine p (submitting e) (pending e) (next_order e) (next_entry e) (stop_requested e) (workers e) (entered e).
Definition set_workers ws e :=
  MkEngine (pool e) (submitting e) (pending e) (next_order e) (next_entry e) (stop_requested e) ws (entered e).
Definition set_queues s p n e :=
  MkEngine (pool e) s p n (next_entry e) (stop_requested e) (workers e) (entered e).
Definition set_entry n l e :=
  MkEngine (pool e) (submitting e) (pending e) (next_order e) n (stop_requested e) (workers e) l.
Definition set_stop e :=
  MkEngine (pool e) (submitting e) (pending e) (next_order e) (next_entry e) true (workers e) (entered e).

Definition set_worker (i : nat) (x : Worker) (e : Engine) : Engine :=
  set_workers (<[i := x]> (workers e)) e.

(** A section of operation [id]'s state. *)
Definition section (id : nat) (f : OpState -> option (OpState * list effect)) (e : Engine) : option Engine :=
  p ← pool_section id f (pool e); Some (set_pool p e).

(** * The steps *)

(** [submit] up to the engine's lock: admission, the operation, the deadline.  A
    refused operation is published and retired before anyone has its handle. *)
Definition admit_command (cmd : CommandRequest) (limit_ms : option Z) (output : option N) (now : Z)
    (e : Engine) : option Engine :=
  let id := length (operations e) in
  if pool_full (pool e) then p ← pool_refuse overloaded_failure (pool e); Some (set_pool p e)
  else
    let w := MkPending 0 id cmd limit_ms output ((fun t => now + t * 1000000)%Z <$> limit_ms) in
    Some (set_queues (submitting e ++ [w]) (pending e) (next_order e) (set_pool (pool_admit (pool e)) e)).

(** [submit] under the engine's lock, for the [k]th caller that got that far; an
    engine that stops publishes and retires instead. *)
Definition accept (k : nat) (e : Engine) : option Engine :=
  w ← submitting e !! k;
  let rest := delete k (submitting e) in
  if negb (stop_requested e) then
    e ← section (operation w) (advance_section dispatching_) e;
    Some (set_queues rest (pending e ++ [with_order (next_order e) w]) (S (next_order e)) e)
  else
    let closed := cancelled_failure not_started
                    (txt "the command engine closed before this was accepted") in
    e ← section (operation w) (publish_section (Unexpected closed)) e;
    e ← section (operation w) retire e;
    Some (set_queues rest (pending e) (next_order e) e).

(** The wait for work and the pop. *)
Definition take_work (i : nat) (e : Engine) : option Engine :=
  match workers e !! i, pending e with
  | Some AtTop, w :: rest =>
      Some (set_worker i (AtGate w) (set_queues (submitting e) rest (next_order e) e))
  | Some AtTop, [] => if stop_requested e then Some (set_worker i Returned e) else None
  | _, _ => None
  end.

(** The wait at the gate.  A stopping engine lets everyone pass, to be turned away
    without a guard. *)
Definition pass_gate (i : nat) (e : Engine) : option Engine :=
  match workers e !! i with
  | Some (AtGate w) =>
      if stop_requested e then
        Some (set_worker i (Leaving w (Unexpected (cancelled_failure not_started
                (txt "the command engine closed before this started"))) true false) e)
      else if (order w =? next_entry e)%nat then
        Some (set_worker i (Entering w) (set_entry (next_entry e) (entered e ++ [order w]) e))
      else None
  | _ => None
  end.

Definition ceil_ms (ns : Z) : Z := (- ((- ns) / 1000000))%Z.

(** Past the gate: withdrawn, late, or active; [now] and [later] are the two
    readings of the clock. *)
Definition decide_entry (i : nat) (now later : Z) (e : Engine) : option Engine :=
  match workers e !! i with
  | Some (Entering w) =>
      op ← operations e !! operation w;
      if cancel_requested op.2 then
        Some (set_worker i (Leaving w (Unexpected (cancelled_failure not_started
                (txt "the caller withdrew the command before it started"))) false false) e)
      else if match deadline w with Some d => (d <=? now)%Z | None => false end then
        Some (set_worker i (Leaving w (Unexpected timed_out) false false) e)
      else
        let w := match deadline w with
                 | Some d => with_timeout (Some (ceil_ms (d - later))) w
                 | None => w
                 end in
        e ← section (operation w) (advance_section active) e;
        Some (set_worker i (Running w false) e)
  | _ => None
  end.

Definition advance_entry (n : nat) (e : Engine) : Engine :=
  if negb (n =? next_entry e)%nat then e else set_entry (S (next_entry e)) (entered e) e.

(** The runner's notification that its transport was entered; it may come again. *)
Definition notify (i : nat) (e : Engine) : option Engine :=
  match workers e !! i with
  | Some (Running w advanced) =>
      Some (set_worker i (Running w true) (if advanced then e else advance_entry (order w) e))
  | _ => None
  end.

(** The runner returned, or threw. *)
Definition finish_run (i : nat) (answer : option Answer) (e : Engine) : option Engine :=
  match workers e !! i with
  | Some (Running w advanced) =>
      Some (set_worker i (Leaving w (default (Unexpected unfinished) answer) advanced true) e)
  | _ => None
  end.

(** [entry.advance()] before the answer is published. *)
Definition leave_entry (i : nat) (e : Engine) : option Engine :=
  match workers e !! i with
  | Some (Leaving w answer false ran) =>
      Some (set_worker i (Leaving w answer true ran) (advance_entry (order w) e))
  | _ => None
  end.

Definition publish_answer (i : nat) (e : Engine) : option Engine :=
  match workers e !! i with
  | Some (Leaving w answer true ran) =>
      e ← section (operation w) (publish_section answer) e;
      Some (set_worker i (Retiring w ran) e)
  | _ => None
  end.

(** [begin_retirement] where the command ran, and [retire]. *)
Definition retire_work (i : nat) (e : Engine) : option Engine :=
  match workers e !! i with
  | Some (Retiring w ran) =>
      e ← (if ran : bool then section (operation w) (advance_section retiring) e else Some e);
      e ← section (operation w) retire e;
      Some (set_worker i AtTop e)
  | _ => None
  end.

(** [CommandChannel::release], called by a hook outside the locks. *)
Definition channel_release (e : Engine) : option Engine :=
  p ← pool_release (pool e); Some (set_pool p e).

Inductive worker_action :=
  | TakeWork | PassGate | Decide (now later : Z) | Notify | FinishRun (answer : option Answer)
  | LeaveEntry | PublishAnswer | RetireWork.

Definition worker_step (i : nat) (a : worker_action) (e : Engine) : option Engine :=
  match a with
  | TakeWork => take_work i e
  | PassGate => pass_gate i e
  | Decide now later => decide_entry i now later e
  | Notify => notify i e
  | FinishRun answer => finish_run i answer e
  | LeaveEntry => leave_entry i e
  | PublishAnswer => publish_answer i e
  | RetireWork => retire_work i e
  end.

Inductive action :=
  | Admit (cmd : CommandRequest) (limit_ms : option Z) (output : option N) (now : Z)
  | Accept (k : nat)
  | Handle (id : nat) (c : HandleCall)
  | Work (i : nat) (a : worker_action)
  | ChannelRelease
  | RequestStop.

(** A handle is its caller's once [submit] has returned it. *)
Definition handed_over (id : nat) (e : Engine) : bool :=
  negb (existsb (fun w => (operation w =? id)%nat) (submitting e)).

Definition step (a : action) (e : Engine) : option Engine :=
  match a with
  | Admit cmd limit_ms output now => admit_command cmd limit_ms output now e
  | Accept k => accept k e
  | Handle id c => if handed_over id e then section id (handle_call c) e else None
  | Work i a => worker_step i a e
  | ChannelRelease => channel_release e
  | RequestStop => Some (set_stop e)
  end.

Inductive reachable (limit worker_count : nat) : Engine -> Prop :=
  | reachable_start e : start limit worker_count = Value e -> reachable limit worker_count e
  | reachable_step a e e' :
      reachable limit worker_count e -> step a e = Some e' -> reachable limit worker_count e'.

(** * Who holds which operation *)

Definition ran_phase (ran : bool) : TransportPhase := if ran then active else dispatching_.

(** The operation a worker is busy with, the phase it is in, whether it is answered. *)
Definition worker_holding (x : Worker) : list Holding :=
  match x with
  | AtGate w | Entering w => [(operation w, dispatching_, false)]
  | Running w _ => [(operation w, active, false)]
  | Leaving w _ _ ran => [(operation w, ran_phase ran, false)]
  | Retiring w ran => [(operation w, ran_phase ran, true)]
  | AtTop | Returned => []
  end.

Definition waiting_holdings (e : Engine) : list Holding :=
  map (fun w => (operation w, queued, false)) (submitting e) ++
  map (fun w => (operation w, dispatching_, false)) (pending e).

Definition holdings (e : Engine) : list Holding :=
  waiting_holdings e ++ (workers e ≫= worker_holding).

Definition others (i : nat) (e : Engine) : list Holding :=
  waiting_holdings e ++ (take i (workers e) ≫= worker_holding) ++
  (drop (S i) (workers e) ≫= worker_holding).

(** * Admissions and phases *)

Definition admissions_ok (limit : nat) (e : Engine) (hs : list Holding) : Prop := pool_ok limit (pool e) hs.

#[export] Instance admissions_ok_Permutation limit e : Proper ((≡ₚ) ==> iff) (admissions_ok limit e).
Proof. apply pool_ok_Permutation. Qed.

(** What a section leaves alone. *)
Definition framed (e e' : Engine) : Prop := exists p, e' = set_pool p e.

Lemma framed_refl e : framed e e.
Proof. exists (pool e). by destruct e. Qed.

Lemma framed_trans e1 e2 e3 : framed e1 e2 -> framed e2 e3 -> framed e1 e3.
Proof. intros (? & ->) (? & ->). by eexists _. Qed.

Lemma section_framed id f e e' : section id f e = Some e' -> framed e e'.
Proof. unfold section. intros (p & _ & [= <-])%bind_Some_inv. by eexists. Qed.

(** A section of the pool as one of the engine. *)
Lemma section_pool limit id f e hs :
  (exists p, pool_section id f (pool e) = Some p /\ pool_ok limit p hs) ->
  exists e', section id f e = Some e' /\ admissions_ok limit e' hs /\ framed e e'.
Proof.
  intros (p & E & H). exists (set_pool p e). unfold section. rewrite E. by split_and!; [| |exists p].
Qed.

Lemma admissions_advance limit e id ph b hs ph' :
  admissions_ok limit e ((id, ph, b) :: hs) -> ph <> retired -> ph' <> retired ->
  transport_rank ph <= transport_rank ph' ->
  exists e', section id (advance_section ph') e = Some e' /\
    admissions_ok limit e' ((id, ph', b) :: hs) /\ framed e e'.
Proof. intros. by apply section_pool, (pool_advance limit (pool e) id ph). Qed.

Lemma admissions_publish limit e id ph b hs answer :
  admissions_ok limit e ((id, ph, b) :: hs) ->
  exists e', section id (publish_section answer) e = Some e' /\
    admissions_ok limit e' ((id, ph, true) :: hs) /\ framed e e'.
Proof. intros. by apply section_pool, (pool_publish limit (pool e) id ph b). Qed.

Lemma admissions_retire limit e id ph b hs :
  admissions_ok limit e ((id, ph, b) :: hs) ->
  exists e', section id retire e = Some e' /\ admissions_ok limit e' hs /\ framed e e'.
Proof. intros. by apply section_pool, (pool_retire limit (pool e) id ph b). Qed.

Lemma admissions_handle limit e id c hs e' :
  admissions_ok limit e hs -> section id (handle_call c) e = Some e' ->
  admissions_ok limit e' hs /\ framed e e'.
Proof.
  intros Had H. split; [|by eapply section_framed].
  unfold section in H. apply bind_Some_inv in H as (p & Hp & [= <-]). by eapply pool_handle.
Qed.

(** ** Holdings *)

Lemma mid_front {A} (a b y d : list A) : a ++ b ++ y ++ d ≡ₚ y ++ a ++ b ++ d.
Proof.
  rewrite (app_assoc a b), (app_assoc a b). apply Permutation_app_swap_app.
Qed.

Lemma holdings_at i x e :
  workers e !! i = Some x -> holdings e ≡ₚ worker_holding x ++ others i e.
Proof.
  intros H. unfold holdings, others. rewrite <-(take_drop_middle _ _ _ H) at 1.
  rewrite bind_app, bind_cons. apply mid_front.
Qed.

Lemma holdings_set i x y e :
  workers e !! i = Some x -> holdings (set_worker i y e) ≡ₚ worker_holding y ++ others i e.
Proof.
  intros H. unfold holdings, others, set_worker. cbn.
  rewrite insert_take_drop by by eapply lookup_lt_Some.
  rewrite bind_app, bind_cons. apply mid_front.
Qed.

Definition admitted_ok (limit : nat) (e : Engine) : Prop := admissions_ok limit e (holdings e).

(** The holdings depend on the queues and the workers only. *)
Lemma framed_holdings e e' : framed e e' -> holdings e' = holdings e.
Proof. by intros (? & ->). Qed.

Lemma framed_others i e e' : framed e e' -> others i e' = others i e.
Proof. by intros (? & ->). Qed.

(** A worker's move, from what it held to what it holds. *)
Lemma worker_moves limit i x y e e' :
  workers e !! i = Some x -> workers e' !! i = Some x -> others i e' = others i e ->
  (admissions_ok limit e (worker_holding x ++ others i e) ->
   admissions_ok limit e' (worker_holding y ++ others i e)) ->
  admitted_ok limit e -> admitted_ok limit (set_worker i y e').
Proof.
  unfold admitted_ok. intros Hi Hi' Ho Hstep Had.
  assert (admissions_ok limit e' (holdings (set_worker i y e'))) as H.
  { rewrite (holdings_set i x y e' Hi'), Ho. apply Hstep. by rewrite <-(holdings_at i x e Hi). }
  destruct H. by split.
Qed.

Lemma framed_worker i x e e' : framed e e' -> workers e !! i = Some x -> workers e' !! i = Some x.
Proof. by intros (? & ->). Qed.

(** The same through a section of the operation it holds. *)
Lemma worker_section limit i x y e e' :
  admitted_ok limit e -> workers e !! i = Some x -> framed e e' ->
  admissions_ok limit e' (worker_holding y ++ others i e) ->
  admitted_ok limit (set_worker i y e').
Proof.
  intros Had Hi Hf H. eapply (worker_moves limit i x y e e'); try done.
  - by eapply framed_worker.
  - by apply framed_others.
Qed.

(** Moves that are not about an operation. *)
Lemma admissions_same limit e e' hs : pool e' = pool e -> admissions_ok limit e hs -> admissions_ok limit e' hs.
Proof. unfold admissions_ok. by intros ->. Qed.

Lemma worker_quiet limit i x y e n l :
  workers e !! i = Some x -> worker_holding y = worker_holding x ->
  admitted_ok limit e -> admitted_ok limit (set_worker i y (set_entry n l e)).
Proof.
  intros Hi Hy. apply (worker_moves limit i x y e); try done. rewrite Hy.
  by apply admissions_same.
Qed.

Lemma entry_same e : set_entry (next_entry e) (entered e) e = e.
Proof. by destruct e. Qed.

(** ** Every step keeps them *)

Lemma admit_ok limit cmd limit_ms output now e e' :
  admitted_ok limit e -> admit_command cmd limit_ms output now e = Some e' -> admitted_ok limit e'.
Proof.
  intros Had. unfold admit_command. destruct (pool_full (pool e)) eqn:E.
  - destruct (pool_refuse_ok limit (pool e) (holdings e) overloaded_failure Had) as (p & -> & Hp).
    by intros [= <-].
  - intros [= <-]. pose proof (pool_admit_ok limit (pool e) (holdings e) Had E) as H.
    unfold admitted_ok, admissions_ok, holdings, waiting_holdings in *. cbn in *.
    rewrite map_app, <-!app_assoc. cbn. rewrite <-app_assoc in H.
    eapply pool_ok_Permutation; [|exact H]. symmetry. apply Permutation_middle.
Qed.

Lemma accept_holdings k w e :
  submitting e !! k = Some w ->
  holdings e ≡ₚ (operation w, queued, false) :: holdings
    (set_queues (delete k (submitting e)) (pending e) (next_order e) e).
Proof.
  intros Hk. unfold holdings, waiting_holdings. cbn.
  rewrite <-!app_assoc, app_comm_cons. apply Permutation_app_tail.
  by rewrite (delete_Permutation _ _ _ Hk) at 1.
Qed.

Lemma accept_ok limit k e e' :
  admitted_ok limit e -> accept k e = Some e' -> admitted_ok limit e'.
Proof.
  unfold accept. intros Had H. destruct (submitting e !! k) as [w|] eqn:Hk; [|done].
  cbn [mbind option_bind] in H. pose proof Had as Had1. unfold admitted_ok in Had1.
  rewrite (accept_holdings _ _ _ Hk) in Had1. set (hs := holdings _) in Had1. destruct (negb (stop_requested e)).
  - edestruct (admissions_advance limit e (operation w) queued false hs dispatching_)
      as (e1 & E & H1 & (p & ->)); [exact Had1 | done | done | cbn; lia |].
    rewrite E in H. injection H as <-. destruct H1 as [Hl Hf Hb Ho]. split; try done.
    eapply ops_ok_Permutation; [|exact Ho]. unfold hs, holdings, waiting_holdings. cbn.
    rewrite map_app, <-!app_assoc. cbn. rewrite !app_assoc. symmetry. apply Permutation_middle.
  - edestruct admissions_publish as (e1 & E1 & H1 & F1); [exact Had1|]. rewrite E1 in H.
    cbn [mbind option_bind] in H. edestruct admissions_retire as (e2 & E2 & H2 & F2); [exact H1|].
    rewrite E2 in H. injection H as <-.
    destruct (framed_trans _ _ _ F1 F2) as (p & ->). destruct H2. by split.
Qed.

Lemma advance_entry_set n e : exists m, advance_entry n e = set_entry m (entered e) e.
Proof.
  unfold advance_entry. case_match; [|by eexists]. exists (next_entry e). by rewrite entry_same.
Qed.

Lemma take_work_ok limit i e e' :
  admitted_ok limit e -> take_work i e = Some e' -> admitted_ok limit e'.
Proof.
  unfold take_work. intros Had H. destruct (workers e !! i) as [[]|] eqn:Hi; try done.
  destruct (pending e) as [|w rest] eqn:Hp.
  - destruct (stop_requested e); [|done]. injection H as <-. rewrite <-(entry_same e).
    by eapply worker_quiet.
  - injection H as <-. unfold admitted_ok in *.
    set (e1 := set_queues _ _ _ _). assert (workers e1 !! i = Some AtTop) as Hi1 by done.
    assert (holdings (set_worker i (AtGate w) e1) ≡ₚ holdings e) as Hh.
    { rewrite (holdings_set i AtTop _ e1 Hi1), (holdings_at i AtTop e Hi). cbn.
      unfold others, waiting_holdings. rewrite Hp. cbn.
      rewrite <-!app_assoc. cbn. apply Permutation_middle. }
    rewrite <-Hh in Had. destruct Had. by split.
Qed.

(** A worker past the gate decides, publishes and retires without fail. *)
Lemma decide_moves limit i now later e w :
  admitted_ok limit e -> workers e !! i = Some (Entering w) ->
  exists e1 y, decide_entry i now later e = Some (set_worker i y e1) /\ framed e e1 /\
    admitted_ok limit (set_worker i y e1) /\
    ((exists f, y = Leaving w (Unexpected f) false false) \/
     (exists w', y = Running w' false /\ order w' = order w)).
Proof.
  intros Had Hi. unfold decide_entry. rewrite Hi.
  destruct (admissions_advance limit e (operation w) dispatching_ false (others i e) active)
    as (e1 & E & H1 & H2); try done; [by rewrite <-(holdings_at i (Entering w) e Hi) | cbn; lia|].
  destruct (operations e !! operation w) as [op|] eqn:Hop;
    [|unfold operations in Hop; by unfold section, pool_section in E; rewrite Hop in E]. cbn [mbind option_bind].
  assert (forall f, admitted_ok limit (set_worker i (Leaving w (Unexpected f) false false) e)) as Hl.
  { intros f. rewrite <-(entry_same e). by eapply worker_quiet. }
  destruct (cancel_requested op.2).
  { eexists e, _. split_and!; [done | apply framed_refl | done | left; by eexists]. }
  destruct (match deadline w with Some d => _ | None => false end).
  { eexists e, _. split_and!; [done | apply framed_refl | done | left; by eexists]. }
  set (w' := match deadline w with Some d => with_timeout _ w | None => w end).
  assert (operation w' = operation w /\ order w' = order w) as [Hw Ho]
    by (unfold w'; by destruct (deadline w)).
  rewrite Hw, E. eexists e1, _. split_and!; [done | done | | right; by eexists].
  eapply worker_section; try done. cbn. by rewrite Hw.
Qed.

Lemma publish_moves limit i e w answer ran :
  admitted_ok limit e -> workers e !! i = Some (Leaving w answer true ran) ->
  exists e1, publish_answer i e = Some (set_worker i (Retiring w ran) e1) /\ framed e e1 /\
    admitted_ok limit (set_worker i (Retiring w ran) e1).
Proof.
  intros Had Hi. unfold publish_answer. rewrite Hi.
  destruct (admissions_publish limit e (operation w) (ran_phase ran) false (others i e) answer)
    as (e1 & E & H1 & H2); [by rewrite <-(holdings_at i _ e Hi)|].
  rewrite E. exists e1. split_and!; [done | done |]. by eapply worker_section.
Qed.

Lemma retire_moves limit i e w ran :
  admitted_ok limit e -> workers e !! i = Some (Retiring w ran) ->
  exists e1, retire_work i e = Some (set_worker i AtTop e1) /\ framed e e1 /\
    admitted_ok limit (set_worker i AtTop e1).
Proof.
  intros Had Hi. unfold retire_work. rewrite Hi.
  assert (exists e0 ph, (if ran then section (operation w) (advance_section retiring) e else Some e)
    = Some e0 /\ admissions_ok limit e0 ((operation w, ph, true) :: others i e) /\ framed e e0)
    as (e0 & ph & E0 & H0 & F0).
  { pose proof Had as Hh. unfold admitted_ok in Hh. rewrite (holdings_at i _ e Hi) in Hh.
    destruct ran; [|eexists e, _; split; [done|]; split; [exact Hh | apply framed_refl]].
    edestruct (admissions_advance limit e (operation w) active true (others i e) retiring)
      as (e0 & E & H1 & H2); [exact Hh | done | done | cbn; lia |].
    by eexists e0, _. }
  rewrite E0. cbn [mbind option_bind]. edestruct admissions_retire as (e1 & E1 & H1 & F1); [exact H0|].
  rewrite E1. exists e1. pose proof (framed_trans _ _ _ F0 F1). split_and!; [done | done |].
  by eapply worker_section.
Qed.

Lemma work_ok limit i a e e' :
  admitted_ok limit e -> worker_step i a e = Some e' -> admitted_ok limit e'.
Proof.
  intros Had. destruct a; cbn [worker_step]; intros H.
  - by eapply take_work_ok.
  - unfold pass_gate in H. destruct (workers e !! i) as [[]|] eqn:Hi; try done.
    destruct (stop_requested e); [|destruct (_ =? _)%nat; [|done]]; injection H as <-;
      [rewrite <-(entry_same e)|]; by eapply worker_quiet.
  - destruct (workers e !! i) as [[]|] eqn:Hi; try (by unfold decide_entry in H; rewrite Hi in H).
    edestruct decide_moves as (e1 & y & E & _ & Ha & _); [done..|]. rewrite E in H. by injection H as <-.
  - unfold notify in H. destruct (workers e !! i) as [[]|] eqn:Hi; try done. injection H as <-.
    destruct advanced; [rewrite <-(entry_same e)|
      destruct (advance_entry_set (order w) e) as [m ->]]; by eapply worker_quiet.
  - unfold finish_run in H. destruct (workers e !! i) as [[]|] eqn:Hi; try done. injection H as <-.
    rewrite <-(entry_same e). by eapply worker_quiet.
  - unfold leave_entry in H. destruct (workers e !! i) as [[| | | |? ? [|] ?| |]|] eqn:Hi; try done.
    injection H as <-. destruct (advance_entry_set (order w) e) as [m ->]. by eapply worker_quiet.
  - pose proof H as H'. unfold publish_answer in H'.
    destruct (workers e !! i) as [[| | | |? ? [|] ?| |]|] eqn:Hi; try done.
    edestruct publish_moves as (e1 & E & _ & Ha); [done..|]. rewrite E in H. by injection H as <-.
  - pose proof H as H'. unfold retire_work in H'. destruct (workers e !! i) as [[]|] eqn:Hi; try done.
    edestruct retire_moves as (e1 & E & _ & Ha); [done..|]. rewrite E in H. by injection H as <-.
Qed.

Lemma step_admitted_ok limit a e e' :
  admitted_ok limit e -> step a e = Some e' -> admitted_ok limit e'.
Proof.
  intros Had. destruct a; cbn [step]; intros H.
  - by eapply admit_ok.
  - by eapply accept_ok.
  - destruct (handed_over id e); [|done]. pose proof (admissions_handle _ _ _ _ _ _ Had H) as [H1 H2].
    unfold admitted_ok. by rewrite (framed_holdings _ _ H2).
  - by eapply work_ok.
  - unfold channel_release in H. apply bind_Some_inv in H as (p & Hp & [= <-]).
    by apply (pool_release_ok limit _ _ _ Had).
  - injection H as <-. destruct Had. by split.
Qed.

Lemma reachable_admitted_ok limit n e : reachable limit n e -> admitted_ok limit e.
Proof.
  induction 1 as [e H | a e e' _ IH Hs]; [|by eapply step_admitted_ok].
  unfold start in H. destruct (n =? 0)%nat; [done|]. injection H as <-.
  assert (replicate n AtTop ≫= worker_holding = []) as Hh.
  { clear. by induction n. }
  split; cbn; [done | done | lia |]. unfold holdings, waiting_holdings. cbn. rewrite Hh.
  split; cbn; try done; [by constructor | by intros ? ? ? ?%elem_of_nil].
Qed.

(** * The entry gate *)

(** The order a worker waits at the gate with. *)
Definition worker_gate (x : Worker) : list nat :=
  match x with AtGate w => [order w] | _ => [] end.

(** The order of a worker that is through the gate and has not opened it for the next. *)
Definition worker_inside (x : Worker) : list nat :=
  match x with
  | Entering w | Running w false | Leaving w _ false _ => [order w]
  | _ => []
  end.

Definition at_gate (e : Engine) : list nat := workers e ≫= worker_gate.
Definition inside (e : Engine) : list nat := workers e ≫= worker_inside.

(** Orders are handed out like tickets: those not used up are at the gate, inside or
    still queued, and the queue holds the last of them in order. *)
Record tickets (gt ins pend : list nat) (entry next : nat) (stop : bool) (ent : list nat) : Prop := {
  ti_nodup : NoDup (gt ++ ins ++ pend);
  ti_range : forall n, n ∈ gt ++ ins ++ pend -> entry <= n < next;
  ti_pending : exists base, next = base + length pend /\ pend = seq base (length pend) /\
    forall n, n ∈ gt ++ ins -> n < base;
  ti_entry : entry <= next;
  ti_inside : forall n, n ∈ ins -> n = entry;
  ti_entered : ent = seq 0 (entry + length ins);
  ti_all : stop = false -> forall n, entry <= n < next -> n ∈ gt ++ ins ++ pend;
}.

#[export] Instance tickets_Permutation :
  Proper ((≡ₚ) ==> (≡ₚ) ==> (=) ==> (=) ==> (=) ==> (=) ==> (=) ==> iff) tickets.
Proof.
  assert (forall gt gt' ins ins' p en nx s l, gt ≡ₚ gt' -> ins ≡ₚ ins' ->
    tickets gt ins p en nx s l -> tickets gt' ins' p en nx s l) as H.
  { intros gt gt' ins ins' p en nx s l E1 E2 []. split; try done.
    - by rewrite <-E1, <-E2.
    - intros n. rewrite <-E1, <-E2. auto.
    - destruct ti_pending0 as (b & H1 & H2 & H3). exists b. split_and!; [done..|].
      intros n. rewrite <-E1, <-E2. auto.
    - intros n. rewrite <-E2. auto.
    - by rewrite <-E2.
    - intros Hs n Hn. rewrite <-E1, <-E2. auto. }
  intros gt gt' E1 ins ins' E2 p ? <- en ? <- nx ? <- s ? <- l ? <-.
  split; apply H; by rewrite ?E1, ?E2.
Qed.

Section tickets.
Context {gt ins pend : list nat} {entry next n : nat} {stop : bool} {ent : list nat}.

Lemma tickets_one : tickets gt ins pend entry next stop ent -> length ins <= 1.
Proof.
  intros [Hn _ _ _ Hall _ _]. apply NoDup_app in Hn as (_ & _ & (Hn & _)%NoDup_app).
  revert Hn Hall. destruct ins as [|a [|b l]]; cbn; intros Hn Hall; try lia. exfalso.
  apply NoDup_cons in Hn as [Hn _]. apply Hn.
  assert (a = b) as -> by (rewrite (Hall a), (Hall b); [done | right; left | left]). left.
Qed.

Lemma tickets_take :
  tickets gt ins (n :: pend) entry next stop ent -> tickets (n :: gt) ins pend entry next stop ent.
Proof.
  intros []. assert (gt ++ ins ++ n :: pend ≡ₚ (n :: gt) ++ ins ++ pend) as E.
  { rewrite !(app_assoc _ ins). symmetry. apply Permutation_middle. }
  split; try done.
  - by rewrite <-E.
  - intros m. rewrite <-E. auto.
  - destruct ti_pending0 as (b & H1 & H2 & H3). cbn in H1, H2. injection H2 as H2 H4.
    exists (S b). split_and!; [lia | congruence |]. intros m [->|Hm]%elem_of_cons; [lia|].
    specialize (H3 m Hm). lia.
  - intros Hs m Hm. rewrite <-E. auto.
Qed.

Lemma tickets_enter :
  tickets (n :: gt) ins pend entry next stop ent -> n = entry ->
  tickets gt (n :: ins) pend entry next stop (ent ++ [n]).
Proof.
  intros [] ->. assert (gt ++ (entry :: ins) ++ pend ≡ₚ (entry :: gt) ++ ins ++ pend) as E.
  { symmetry. apply Permutation_middle. }
  assert (ins = []) as ->.
  { destruct ins as [|a l]; [done|]. exfalso. apply NoDup_cons in ti_nodup0 as [Hn _]. apply Hn.
    rewrite <-(ti_inside0 a) at 1 by left. apply elem_of_app. right. left. }
  split; try done.
  - by rewrite E.
  - intros m. rewrite E. auto.
  - destruct ti_pending0 as (b & H1 & H2 & H3). exists b. split_and!; [done..|].
    intros m Hm. apply H3. rewrite elem_of_app, elem_of_cons in *. set_solver.
  - intros m. by rewrite list_elem_of_singleton.
  - cbn in *. rewrite Nat.add_1_r, seq_S, ti_entered0, Nat.add_0_r. done.
  - intros Hs m Hm. rewrite E. auto.
Qed.

Lemma tickets_turn_away :
  tickets (n :: gt) ins pend entry next true ent -> tickets gt ins pend entry next true ent.
Proof.
  intros []. split; try done.
  - by apply NoDup_cons in ti_nodup0 as [_ ?].
  - intros m Hm. apply ti_range0. by right.
  - destruct ti_pending0 as (b & H1 & H2 & H3). exists b. split_and!; [done..|].
    intros m Hm. apply H3. by right.
Qed.

Lemma tickets_open :
  tickets gt (n :: ins) pend entry next stop ent ->
  n = entry /\ tickets gt ins pend (S entry) next stop ent.
Proof.
  intros [].
  assert (n = entry) as -> by (apply ti_inside0; left). split; [done|].
  assert (gt ++ (entry :: ins) ++ pend ≡ₚ entry :: gt ++ ins ++ pend) as E.
  { symmetry. apply Permutation_middle. }
  assert (entry < next) as Hlt by (apply ti_range0; rewrite E; left).
  rewrite E in ti_nodup0. apply NoDup_cons in ti_nodup0 as [Hn Hnd]. split; try done.
  - intros m Hm. assert (m <> entry) by (by intros ->).
    assert (entry <= m < next) by (apply ti_range0; rewrite E; by right). lia.
  - destruct ti_pending0 as (b & H1 & H2 & H3). exists b. split_and!; [done..|].
    intros m Hm. apply H3. set_solver.
  - intros m Hm. exfalso. apply Hn. rewrite <-(ti_inside0 m) by by right. set_solver.
  - rewrite ti_entered0. f_equal. cbn. lia.
  - intros Hs m Hm. assert (m ∈ gt ++ (entry :: ins) ++ pend) as Hin by (apply ti_all0; [done|lia]).
    rewrite E in Hin. apply elem_of_cons in Hin as [->|?]; [lia | done].
Qed.

Lemma tickets_accept :
  tickets gt ins pend entry next false ent -> tickets gt ins (pend ++ [next]) entry (S next) false ent.
Proof.
  intros []. assert (gt ++ ins ++ pend ++ [next] ≡ₚ next :: gt ++ ins ++ pend) as E.
  { rewrite !app_assoc. symmetry. apply Permutation_cons_append. }
  split; try done.
  - rewrite E. apply NoDup_cons. split; [|done]. intros H%ti_range0. lia.
  - intros m. rewrite E, elem_of_cons. intros [->|H%ti_range0]; lia.
  - destruct ti_pending0 as (b & H1 & H2 & H3). exists b. rewrite length_app. cbn.
    split_and!; [lia | | done]. rewrite Nat.add_1_r, seq_S, <-H2. by subst.
  - lia.
  - intros _ m Hm. rewrite E, elem_of_cons. destruct (decide (m = next)); [by left|].
    right. apply ti_all0; [done|lia].
Qed.

Lemma tickets_stop :
  tickets gt ins pend entry next stop ent -> tickets gt ins pend entry next true ent.
Proof. intros []. by split. Qed.
End tickets.

Record gate_ok (e : Engine) : Prop := {
  go_tickets : tickets (at_gate e) (inside e) (map order (pending e)) (next_entry e) (next_order e)
    (stop_requested e) (entered e);
  go_returned : Returned ∈ workers e -> stop_requested e = true /\ pending e = [];
}.

Section workers_bind.
Context {B : Type} (f : Worker -> list B).

Definition rest_of (i : nat) (ws : list Worker) : list B :=
  (take i ws ≫= f) ++ (drop (S i) ws ≫= f).

Lemma bind_at i x (ws : list Worker) : ws !! i = Some x -> ws ≫= f ≡ₚ f x ++ rest_of i ws.
Proof.
  intros H. rewrite <-(take_drop_middle _ _ _ H) at 1. rewrite bind_app, bind_cons.
  apply Permutation_app_swap_app.
Qed.

Lemma bind_set i x y (ws : list Worker) :
  ws !! i = Some x -> <[i := y]> ws ≫= f ≡ₚ f y ++ rest_of i ws.
Proof.
  intros H. rewrite insert_take_drop by by eapply lookup_lt_Some. rewrite bind_app, bind_cons.
  apply Permutation_app_swap_app.
Qed.
End workers_bind.

(** A worker's move as a move of the tickets. *)
Lemma gate_move i x y e n l p nx :
  gate_ok e -> workers e !! i = Some x ->
  (y = Returned -> stop_requested e = true /\ p = []) -> (pending e = [] -> p = []) ->
  (forall gt ins,
    tickets (worker_gate x ++ gt) (worker_inside x ++ ins) (map order (pending e)) (next_entry e)
      (next_order e) (stop_requested e) (entered e) ->
    tickets (worker_gate y ++ gt) (worker_inside y ++ ins) (map order p) n nx (stop_requested e) l) ->
  gate_ok (set_worker i y (set_entry n l (set_queues (submitting e) p nx e))).
Proof.
  intros [Ht Hr] Hi Hy Hp Hmove. split; cbn.
  - unfold at_gate, inside in *. cbn. rewrite !(bind_set _ i x y _ Hi). apply Hmove.
    by rewrite <-!bind_at.
  - intros [k Hk]%list_elem_of_lookup.
    apply list_lookup_insert_Some in Hk as [(_ & -> & _)|[_ Hk]]; [by apply Hy|].
    apply list_elem_of_lookup_2 in Hk. apply Hr in Hk as [? ?]. auto.
Qed.

Lemma queues_same e : set_queues (submitting e) (pending e) (next_order e) e = e.
Proof. by destruct e. Qed.

Lemma framed_gate e e' : framed e e' -> gate_ok e -> gate_ok e'.
Proof. intros (? & ->) []. by split. Qed.

(** A move that leaves the tickets alone. *)
Lemma gate_quiet i x y e :
  gate_ok e -> workers e !! i = Some x -> worker_gate y = worker_gate x ->
  worker_inside y = worker_inside x -> y <> Returned -> gate_ok (set_worker i y e).
Proof.
  intros Hg Hi H1 H2 H3. rewrite <-(entry_same e), <-(queues_same e) at 1.
  eapply gate_move; try done. intros gt ins. by rewrite H1, H2.
Qed.

Lemma gate_take_work i e e' : gate_ok e -> take_work i e = Some e' -> gate_ok e'.
Proof.
  unfold take_work. intros Hg H. destruct (workers e !! i) as [[]|] eqn:Hi; try done.
  destruct (pending e) as [|w rest] eqn:Hp.
  - destruct (stop_requested e) eqn:Hs; [|done]. injection H as <-.
    rewrite <-(entry_same e), <-(queues_same e) at 1. by eapply gate_move.
  - injection H as <-.
    change (gate_ok (set_worker i (AtGate w) (set_entry (next_entry e) (entered e)
      (set_queues (submitting e) rest (next_order e) e)))).
    eapply gate_move; try done; [by rewrite Hp|]. intros gt ins. rewrite Hp. cbn. apply tickets_take.
Qed.

Lemma gate_pass i e e' : gate_ok e -> pass_gate i e = Some e' -> gate_ok e'.
Proof.
  unfold pass_gate. intros Hg H. destruct (workers e !! i) as [[]|] eqn:Hi; try done.
  destruct (stop_requested e) eqn:Hs; [|destruct (_ =? _)%nat eqn:Ho; [to_props|done]]; injection H as <-.
  - rewrite <-(entry_same e), <-(queues_same e) at 1. eapply gate_move; try done.
    intros gt ins. rewrite Hs. apply tickets_turn_away.
  - rewrite <-(queues_same e) at 1. eapply gate_move; try done.
    intros gt ins Ht. by apply tickets_enter.
Qed.

(** Opening the gate: the worker inside is the one whose turn it was. *)
Lemma gate_open i x y w e :
  gate_ok e -> workers e !! i = Some x -> worker_gate x = [] -> worker_inside x = [order w] ->
  worker_gate y = [] -> worker_inside y = [] -> y <> Returned ->
  gate_ok (set_worker i y (advance_entry (order w) e)) /\ order w = next_entry e.
Proof.
  intros Hg Hi H1 H2 H3 H4 H5.
  assert (order w = next_entry e) as Hw.
  { destruct Hg as [Ht _]. unfold inside in Ht. rewrite (bind_at worker_inside i x _ Hi), H2 in Ht.
    by apply tickets_open in Ht as [? _]. }
  split; [|done]. unfold advance_entry. rewrite Hw, Nat.eqb_refl. cbn [negb].
  rewrite <-(queues_same e) at 1. eapply gate_move; try done.
  intros gt ins. rewrite H1, H2, H3, H4. by intros [_ ?]%tickets_open.
Qed.

Lemma gate_work limit i a e e' :
  admitted_ok limit e -> gate_ok e -> worker_step i a e = Some e' -> gate_ok e'.
Proof.
  intros Had Hg. destruct a; cbn [worker_step]; intros H.
  - by eapply gate_take_work.
  - by eapply gate_pass.
  - destruct (workers e !! i) as [[]|] eqn:Hi; try (by unfold decide_entry in H; rewrite Hi in H).
    edestruct decide_moves as (e1 & y & E & F & _ & Hy); [done..|]. rewrite E in H. injection H as <-.
    eapply gate_quiet; [by eapply framed_gate | by eapply framed_worker | | |];
      destruct Hy as [[f ->] | (w' & -> & Hw)]; cbn; congruence.
  - unfold notify in H. destruct (workers e !! i) as [[]|] eqn:Hi; try done. injection H as <-.
    destruct advanced; [by eapply gate_quiet|]. by eapply gate_open.
  - unfold finish_run in H. destruct (workers e !! i) as [[]|] eqn:Hi; try done. injection H as <-.
    eapply gate_quiet; try done; by destruct advanced.
  - unfold leave_entry in H. destruct (workers e !! i) as [[| | | |? ? [|] ?| |]|] eqn:Hi; try done.
    injection H as <-. by eapply gate_open.
  - pose proof H as H'. unfold publish_answer in H'.
    destruct (workers e !! i) as [[| | | |? ? [|] ?| |]|] eqn:Hi; try done.
    edestruct publish_moves as (e1 & E & F & _); [done..|]. rewrite E in H. injection H as <-.
    eapply gate_quiet; [by eapply framed_gate | by eapply framed_worker | done..].
  - pose proof H as H'. unfold retire_work in H'. destruct (workers e !! i) as [[]|] eqn:Hi; try done.
    edestruct retire_moves as (e1 & E & F & _); [done..|]. rewrite E in H. injection H as <-.
    eapply gate_quiet; [by eapply framed_gate | by eapply framed_worker | done..].
Qed.

Lemma gate_step limit a e e' :
  admitted_ok limit e -> gate_ok e -> step a e = Some e' -> gate_ok e'.
Proof.
  intros Had Hg. destruct a; cbn [step]; intros H.
  - unfold admit_command in H. destruct (pool_full (pool e)).
    + apply bind_Some_inv in H as (? & _ & H). injection H as <-. destruct Hg. by split.
    + injection H as <-. destruct Hg. by split.
  - unfold accept in H. apply bind_Some_inv in H as (w & Hw & H).
    destruct (stop_requested e) eqn:Hs; cbn [negb] in H.
    + apply bind_Some_inv in H as (e1 & (p1 & ->)%section_framed & H).
      apply bind_Some_inv in H as (e2 & (p2 & ->)%section_framed & H).
      injection H as <-. destruct Hg as [Ht Hr]. by split.
    + apply bind_Some_inv in H as (e1 & (p1 & ->)%section_framed & H).
      injection H as <-. destruct Hg as [Ht Hr]. split; cbn.
      * rewrite map_app. cbn. rewrite Hs in *. by apply tickets_accept.
      * intros HR. destruct (Hr HR). congruence.
  - destruct (handed_over id e); [|done]. apply section_framed in H as (? & ->).
    destruct Hg. by split.
  - by eapply gate_work.
  - unfold channel_release in H. apply bind_Some_inv in H as (p & _ & [= <-]).
    destruct Hg. by split.
  - injection H as <-. destruct Hg as [Ht Hr]. split; cbn; [by eapply tickets_stop|].
    intros HR. by destruct (Hr HR).
Qed.

Lemma reachable_gate_ok limit n e : reachable limit n e -> gate_ok e.
Proof.
  induction 1 as [e H | a e e' Hr IH Hs].
  2: { eapply gate_step; try done. by eapply reachable_admitted_ok. }
  unfold start in H. destruct (n =? 0)%nat; [done|]. injection H as <-.
  assert (replicate n AtTop ≫= worker_gate = [] /\ replicate n AtTop ≫= worker_inside = []) as [H1 H2].
  { clear. split; by induction n. }
  split; cbn.
  - unfold at_gate, inside. cbn. rewrite H1, H2. split; cbn; try done; try lia.
    + constructor.
    + by intros ? ?%elem_of_nil.
    + exists 0. by split_and!; [| |intros ? ?%elem_of_nil].
    + by intros ? ?%elem_of_nil.
  - intros [k Hk]%list_elem_of_lookup. by apply lookup_replicate in Hk as [? _].
Qed.

(** * Progress *)

Definition stuck (e : Engine) : Prop := forall i a, worker_step i a e = None.

(** A worker past the gate always has its next step. *)
Lemma stuck_worker limit e i x :
  admitted_ok limit e -> stuck e -> workers e !! i = Some x ->
  x = AtTop \/ x = Returned \/ exists w, x = AtGate w.
Proof.
  intros Had Hst Hi. destruct x as [|w|w|w adv|w answer [|] ran|w ran|]; eauto; exfalso.
  - edestruct (decide_moves limit i 0 0) as (e1 & y & E & _); [done..|].
    specialize (Hst i (Decide 0 0)). cbn in Hst. congruence.
  - specialize (Hst i (FinishRun None)). cbn in Hst. unfold finish_run in Hst. by rewrite Hi in Hst.
  - edestruct publish_moves as (e1 & E & _); [done..|].
    specialize (Hst i PublishAnswer). cbn in Hst. congruence.
  - specialize (Hst i LeaveEntry). cbn in Hst. unfold leave_entry in Hst. by rewrite Hi in Hst.
  - edestruct retire_moves as (e1 & E & _); [done..|].
    specialize (Hst i RetireWork). cbn in Hst. congruence.
Qed.

(** Nobody is left at the gate: the next order to enter is one of those that wait. *)
Lemma stuck_gate limit e i w :
  admitted_ok limit e -> gate_ok e -> stuck e -> workers e !! i <> Some (AtGate w).
Proof.
  intros Had [[Hnd Hrange (base & Hn & Hp & Hb) _ _ _ Hall] _] Hst Hi.
  pose proof (Hst i PassGate) as H. cbn in H. unfold pass_gate in H. rewrite Hi in H.
  destruct (stop_requested e) eqn:Hs; [done|].
  assert (order w ∈ at_gate e) as Hw.
  { unfold at_gate. apply list_elem_of_bind. exists (AtGate w). split; [by left|].
    by eapply list_elem_of_lookup_2. }
  assert (next_entry e <= order w < next_order e) as Hr.
  { apply Hrange. apply elem_of_app. by left. }
  assert (order w < base) as Hlt by (apply Hb, elem_of_app; by left).
  assert (next_entry e ∈ at_gate e ++ inside e ++ map order (pending e)) as Hin
    by (apply Hall; [done | lia]).
  rewrite !elem_of_app in Hin. destruct Hin as [Hin|[Hin|Hin]].
  - unfold at_gate in Hin. apply list_elem_of_bind in Hin as (x & Hx & (j & Hj)%list_elem_of_lookup).
    destruct x; cbn in Hx; try by apply elem_of_nil in Hx. apply list_elem_of_singleton in Hx.
    pose proof (Hst j PassGate) as H'. cbn in H'. unfold pass_gate in H'.
    by rewrite Hj, Hs, <-Hx, Nat.eqb_refl in H'.
  - unfold inside in Hin. apply list_elem_of_bind in Hin as (x & Hx & (j & Hj)%list_elem_of_lookup).
    destruct (stuck_worker limit e j x Had Hst Hj) as [->|[->|[? ->]]]; by apply elem_of_nil in Hx.
  - rewrite Hp in Hin. apply elem_of_seq in Hin. lia.
Qed.

Lemma stuck_cases limit e x :
  admitted_ok limit e -> gate_ok e -> stuck e -> x ∈ workers e -> x = AtTop \/ x = Returned.
Proof.
  intros Had Hg Hst (i & Hi)%list_elem_of_lookup.
  destruct (stuck_worker limit e i x Had Hst Hi) as [->|[->|[w ->]]]; auto.
  by destruct (stuck_gate limit e i w Had Hg Hst).
Qed.

(** ** Closing *)

Definition worker_rank (x : Worker) : nat :=
  match x with
  | AtGate _ => 7 | Entering _ => 6 | Running _ _ => 5 | Leaving _ _ false _ => 4
  | Leaving _ _ true _ => 3 | Retiring _ _ => 2 | AtTop => 1 | Returned => 0
  end.

(** How many steps the workers have left when nothing more is accepted. *)
Definition remaining (e : Engine) : nat := 7 * length (pending e) + sum_list_with worker_rank (workers e).

(** A repeated notification of the runner is not a step towards the end. *)
Definition progresses (a : action) : bool :=
  match a with Work _ Notify => false | Work _ _ => true | _ => false end.

Fixpoint run (acts : list action) (e : Engine) : option Engine :=
  match acts with
  | [] => Some e
  | a :: rest => e ← step a e; run rest e
  end.

Lemma worker_rank_set i x y e e' :
  workers e !! i = Some x -> workers e' = workers e -> pending e' = pending e ->
  remaining (set_worker i y e') + worker_rank x = remaining e + worker_rank y.
Proof.
  intros Hi Hw Hp. unfold remaining. cbn. rewrite Hw, Hp.
  pose proof (sum_insert worker_rank _ _ _ y Hi). lia.
Qed.

Lemma rank_move i x y e e' k :
  workers e !! i = Some x -> framed e e' -> worker_rank y + k <= worker_rank x ->
  remaining (set_worker i y e') + k <= remaining e /\
  stop_requested (set_worker i y e') = stop_requested e.
Proof.
  intros Hi (p & ->) Hk. split; [|done].
  pose proof (worker_rank_set i x y e (set_pool p e) Hi eq_refl eq_refl). lia.
Qed.

Lemma entry_move i x y e n l k :
  workers e !! i = Some x -> worker_rank y + k <= worker_rank x ->
  remaining (set_worker i y (set_entry n l e)) + k <= remaining e /\
  stop_requested (set_worker i y (set_entry n l e)) = stop_requested e.
Proof.
  intros Hi Hk. split; [|done]. pose proof (worker_rank_set i x y e (set_entry n l e) Hi eq_refl eq_refl). lia.
Qed.

Lemma work_decreases i a e e' :
  worker_step i a e = Some e' ->
  remaining e' + (if progresses (Work i a) then 1 else 0) <= remaining e /\
  stop_requested e' = stop_requested e.
Proof.
  destruct a; cbn [worker_step progresses]; intros H.
  - unfold take_work in H. destruct (workers e !! i) as [[]|] eqn:Hi; try done.
    destruct (pending e) as [|w rest] eqn:Hp.
    + set (s := stop_requested e) in H. clearbody s. destruct s; [|done]. injection H as <-.
      eapply rank_move; [done | apply framed_refl | cbn; lia].
    + injection H as <-. split; [|done]. unfold remaining. cbn. rewrite Hp.
      pose proof (sum_insert worker_rank _ _ _ (AtGate w) Hi) as Hsum. cbn in *. lia.
  - unfold pass_gate in H. destruct (workers e !! i) as [[]|] eqn:Hi; try done.
    set (s := stop_requested e) in H. clearbody s.
    destruct s; [|destruct (_ =? _)%nat; [|done]]; injection H as <-.
    + eapply rank_move; [done | apply framed_refl | cbn; lia].
    + eapply entry_move; [done | cbn; lia].
  - unfold decide_entry in H. destruct (workers e !! i) as [[]|] eqn:Hi; try done.
    apply bind_Some_inv in H as (op & _ & H). destruct (cancel_requested op.2);
      [|destruct (match deadline w with Some d => _ | None => false end)].
    1-2: injection H as <-; eapply rank_move; [done | apply framed_refl | cbn; lia].
    apply bind_Some_inv in H as (e1 & Hs%section_framed & H). injection H as <-.
    eapply rank_move; [done | done | cbn; lia].
  - unfold notify in H. destruct (workers e !! i) as [[]|] eqn:Hi; try done. injection H as <-.
    destruct advanced; [eapply rank_move; [done | apply framed_refl | cbn; lia]|].
    destruct (advance_entry_set (order w) e) as [m ->]. eapply entry_move; [done | cbn; lia].
  - unfold finish_run in H. destruct (workers e !! i) as [[]|] eqn:Hi; try done. injection H as <-.
    eapply rank_move; [done | apply framed_refl | destruct advanced; cbn; lia].
  - unfold leave_entry in H. destruct (workers e !! i) as [[| | | |? ? [|] ?| |]|] eqn:Hi; try done.
    injection H as <-. destruct (advance_entry_set (order w) e) as [m ->].
    eapply entry_move; [done | cbn; lia].
  - unfold publish_answer in H. destruct (workers e !! i) as [[| | | |? ? [|] ?| |]|] eqn:Hi; try done.
    apply bind_Some_inv in H as (e1 & Hs%section_framed & H). injection H as <-.
    eapply rank_move; [done | done | cbn; lia].
  - unfold retire_work in H. destruct (workers e !! i) as [[]|] eqn:Hi; try done.
    apply bind_Some_inv in H as (e0 & H0 & H). apply bind_Some_inv in H as (e1 & Hs%section_framed & H).
    injection H as <-. eapply rank_move; [done | | cbn; lia]. eapply framed_trans; [|done].
    destruct ran; [by eapply section_framed | injection H0 as <-; apply framed_refl].
Qed.

Lemma step_decreases a e e' :
  stop_requested e = true -> step a e = Some e' ->
  remaining e' + (if progresses a then 1 else 0) <= remaining e /\ stop_requested e' = true.
Proof.
  intros Hs. destruct a; cbn [step]; intros H.
  - unfold admit_command in H. destruct (pool_full (pool e)).
    + apply bind_Some_inv in H as (? & _ & H). injection H as <-. cbn. split; [lia | done].
    + injection H as <-. cbn. split; [lia | done].
  - unfold accept in H. apply bind_Some_inv in H as (w & _ & H). rewrite Hs in H. cbn [negb] in H.
    apply bind_Some_inv in H as (e1 & (p & ->)%section_framed & H).
    apply bind_Some_inv in H as (e2 & (p' & ->)%section_framed & H).
    injection H as <-. unfold remaining. cbn. split; [lia | done].
  - destruct (handed_over id e); [|done]. apply section_framed in H as (p & ->).
    unfold remaining. cbn. split; [lia | done].
  - destruct (work_decreases i a e e' H) as [? ->]. done.
  - unfold channel_release in H. apply bind_Some_inv in H as (p & _ & [= <-]).
    unfold remaining. cbn. split; [lia | done].
  - injection H as <-. unfold remaining. cbn. split; [lia | done].
Qed.

(** An operation nobody holds any more has been answered. *)
Lemma unheld_answered limit e id op :
  admitted_ok limit e -> operations e !! id = Some op -> id ∉ (holdings e).*1.*1 -> answered op.
Proof. apply pool_answered. Qed.

Lemma idle_holdings e :
  pending e = [] -> (forall x, x ∈ workers e -> x = AtTop \/ x = Returned) ->
  (holdings e).*1.*1 = map operation (submitting e).
Proof.
  intros Hp Hw. unfold holdings, waiting_holdings. rewrite Hp. cbn. rewrite app_nil_r.
  assert (workers e ≫= worker_holding = []) as ->.
  { revert Hw. induction (workers e) as [|x ws IH]; [done|]. intros Hw. rewrite bind_cons, IH.
    - by destruct (Hw x) as [-> | ->]; [left | |].
    - intros y Hy. apply Hw. by right. }
  rewrite app_nil_r. induction (submitting e) as [|w l IH]; [done|]. cbn. by f_equal.
Qed.

(** * Theorems *)

Lemma engine_run_reachable limit n acts e e' :
  reachable limit n e -> run acts e = Some e' -> reachable limit n e'.
Proof.
  revert e. induction acts as [|a acts IH]; cbn; intros e Hr H; [by injection H as <-|].
  apply bind_Some_inv in H as (e1 & Hs & H). eapply IH; [|done]. by eapply reachable_step.
Qed.

Lemma handed_over_submitting id e : handed_over id e = true -> id ∉ map operation (submitting e).
Proof.
  unfold handed_over. induction (submitting e) as [|w l IH]; cbn; [by intros _ ?%elem_of_nil|].
  rewrite negb_orb, andb_true_iff. intros [H1 H2]. to_props. apply not_elem_of_cons. split; [congruence|].
  apply IH. by rewrite H2.
Qed.

Lemma framed_length e e' : framed e e' -> length (workers e') = length (workers e).
Proof. by intros (? & ->). Qed.

(** No step adds or removes a worker. *)
Lemma step_length a e e' : step a e = Some e' -> length (workers e') = length (workers e).
Proof.
  assert (forall n x, length (workers (advance_entry n x)) = length (workers x)) as Ha.
  { intros n x. by destruct (advance_entry_set n x) as [m ->]. }
  assert (forall i y x k, length (workers x) = k -> length (workers (set_worker i y x)) = k) as Hi.
  { intros i y x k <-. apply length_insert. }
  destruct a as [| | |i a| |]; [..|destruct a| |]; cbn; unfold admit_command, accept, take_work, pass_gate,
    decide_entry, notify, finish_run, leave_entry, publish_answer, retire_work, channel_release;
    intros H; repeat first
    [ apply bind_Some_inv in H as (? & ?%section_framed%framed_length & H)
    | apply bind_Some_inv in H as (? & ? & H)
    | apply section_framed, framed_length in H
    | case_match | discriminate ]; simplify_eq; cbn; rewrite ?length_insert, ?Ha; try congruence.
  match goal with H : section _ _ e = Some _ |- _ => apply section_framed, framed_length in H end.
  congruence.
Qed.

Lemma reachable_workers limit n e : reachable limit n e -> 0 < length (workers e).
Proof.
  induction 1 as [e H | a e e' Hr IH Hs]; [|by rewrite (step_length _ _ _ Hs)].
  unfold start in H. destruct (n =? 0)%nat eqn:E; [done|]. to_props. injection H as <-.
  cbn. rewrite length_replicate. lia.
Qed.

(** Commands enter their transport in the order they were accepted, none skipped and
    never two at once: the orders let through the gate are exactly those before
    [next_entry], and that of the worker still inside, which is [next_entry]. *)
Theorem entry_in_order limit n e :
  reachable limit n e ->
  entered e = seq 0 (next_entry e + length (inside e)) /\ length (inside e) <= 1 /\
  (forall m, m ∈ inside e -> m = next_entry e).
Proof.
  intros [Ht _]%reachable_gate_ok. pose proof (tickets_one Ht). destruct Ht. by split_and!.
Qed.

(** The channel counts the operations admitted and not yet released, a release under
    way included, and never more of them than the limit. *)
Theorem admissions_bounded limit n e :
  reachable limit n e ->
  in_flight e = flights (operations e) + releasing e /\
  flights (operations e) + releasing e <= limit.
Proof. intros [_ H1 H2 _]%reachable_admitted_ok. unfold in_flight, operations, releasing. lia. Qed.

(** When no worker has a step, everyone is idle and everything handed over answered. *)
Lemma stuck_idle limit n e :
  reachable limit n e -> stuck e ->
  pending e = [] /\ forall x, x ∈ workers e -> x = if stop_requested e then Returned else AtTop.
Proof.
  intros Hr Hst. pose proof (reachable_admitted_ok _ _ _ Hr) as Had.
  pose proof (reachable_gate_ok _ _ _ Hr) as Hg.
  assert (forall x, x ∈ workers e -> x = if stop_requested e then Returned else AtTop) as Hall.
  { intros x Hx. destruct (stuck_cases limit e x Had Hg Hst Hx) as [-> | ->].
    - apply list_elem_of_lookup in Hx as (i & Hi). pose proof (Hst i TakeWork) as H.
      cbn in H. unfold take_work in H. rewrite Hi in H. destruct (pending e); [|done].
      by destruct (stop_requested e).
    - by destruct (go_returned _ Hg Hx) as [-> _]. }
  split; [|done]. pose proof (reachable_workers _ _ _ Hr) as Hlen.
  destruct (lookup_lt_is_Some_2 (workers e) 0 Hlen) as (x & Hx).
  pose proof (Hall x (list_elem_of_lookup_2 _ _ _ Hx)) as ->. destruct (stop_requested e) eqn:Hs.
  - by destruct (go_returned _ Hg (list_elem_of_lookup_2 _ _ _ Hx)).
  - pose proof (Hst 0 TakeWork) as H. cbn in H. unfold take_work in H. rewrite Hx in H.
    by destruct (pending e).
Qed.

Lemma idle_answered limit n e :
  reachable limit n e -> stuck e ->
  pending e = [] /\
  (forall id op, operations e !! id = Some op -> handed_over id e = true -> answered op).
Proof.
  intros Hr Hst. pose proof (reachable_admitted_ok _ _ _ Hr) as Had.
  destruct (stuck_idle _ _ _ Hr Hst) as [Hp Hall]. split; [done|].
  intros id op Hid Hh. eapply unheld_answered; [done | done |].
  rewrite idle_holdings; [by apply handed_over_submitting | done |].
  intros x Hx. rewrite (Hall x Hx). destruct (stop_requested e); auto.
Qed.

(** The workers never wait for each other for ever: when none of them has a step, no
    accepted command is left, every worker is idle, or has returned if the engine is
    stopping, and every operation whose handle was returned has been answered and
    retired. *)
Theorem engine_never_stuck limit n e :
  reachable limit n e -> stuck e ->
  pending e = [] /\ (forall x, x ∈ workers e -> x = if stop_requested e then Returned else AtTop) /\
  (forall id op, operations e !! id = Some op -> handed_over id e = true -> answered op).
Proof.
  intros Hr Hst. destruct (stuck_idle _ _ _ Hr Hst) as [Hp Hall].
  destruct (idle_answered _ _ _ Hr Hst) as [_ Ha]. by split_and!.
Qed.

(** A stopping engine comes to rest: whatever callers, handles and hooks do
    meanwhile, its workers take at most [remaining] steps, which is at most seven for
    each queued command and each worker. *)
Theorem close_terminates acts e e' :
  stop_requested e = true -> run acts e = Some e' ->
  length (List.filter progresses acts) + remaining e' <= remaining e /\
  remaining e <= 7 * (length (pending e) + length (workers e)).
Proof.
  intros Hs Hrun. split.
  - revert e Hs Hrun. induction acts as [|a acts IH]; cbn [run List.filter]; intros e Hs H;
      [injection H as <-; cbn [length]; lia|].
    apply bind_Some_inv in H as (e1 & H1 & H). destruct (step_decreases _ _ _ Hs H1) as [Hd Hs1].
    specialize (IH e1 Hs1 H). destruct (progresses a); cbn [length]; lia.
  - unfold remaining. assert (sum_list_with worker_rank (workers e) <= 7 * length (workers e)); [|lia].
    induction (workers e) as [|x ws IH]; cbn; [done|].
    assert (worker_rank x <= 7) by (destruct x as [| | | |? ? [|] ?| |]; cbn; lia). lia.
Qed.

(** Two operations on two workers: both are accepted, entered in order, and the engine
    closes while the second runs and a third is queued. *)
Definition sample_command : CommandRequest := [plain (txt "list-panes")].

Definition busy : list action :=
  [Admit sample_command None None 0; Admit sample_command (Some 5%Z) None 0; Accept 0; Accept 0;
   Work 1 TakeWork; Work 0 TakeWork; Work 1 PassGate; Work 1 (Decide 1 2); Work 1 Notify;
   Work 0 PassGate].

Definition close_it : list action :=
  [RequestStop; Work 0 (Decide 1 2); Work 0 (FinishRun None); Work 0 LeaveEntry; Work 0 PublishAnswer;
   Work 1 Notify; Work 1 (FinishRun (Some (Value (txt "%1")))); Work 1 PublishAnswer; Work 1 RetireWork;
   Work 0 RetireWork; Handle 0 SelectBlocking; Handle 0 BeginWait; Handle 0 FinishWait; ChannelRelease;
   Work 0 TakeWork; Work 1 TakeWork].

Definition started : Engine :=
  match start 2 2 with Value e => e | Unexpected _ => MkEngine (new_pool 0) [] [] 0 0 false [] [] end.

Definition after (acts : list action) : Engine := default started (run acts started).

Lemma after_reachable acts : is_Some (run acts started) -> reachable 2 2 (after acts).
Proof.
  intros [e H]. unfold after. rewrite H. cbn. eapply engine_run_reachable; [|exact H].
  by apply reachable_start.
Qed.

Lemma entry_in_order_witness :
  entered (after busy) = [0; 1] /\ entered (after busy) = seq 0 (next_entry (after busy) + length (inside (after busy))).
Proof.
  split; [vm_compute; reflexivity|]. apply (entry_in_order 2 2).
  apply after_reachable. vm_compute. by eexists.
Defined.

Lemma admissions_bounded_witness :
  in_flight (after busy) = 2 /\
  flights (operations (after busy)) + releasing (after busy) <= 2.
Proof.
  split; [vm_compute; reflexivity|]. apply (admissions_bounded 2 2).
  apply after_reachable. vm_compute. by eexists.
Defined.

Lemma returned_stuck e : Forall (eq Returned) (workers e) -> stuck e.
Proof.
  intros H i a. destruct (workers e !! i) as [x|] eqn:Hi.
  - assert (x = Returned) as -> by (symmetry; by eapply Forall_lookup_1).
    destruct a; cbn; unfold take_work, pass_gate, decide_entry, notify, finish_run, leave_entry,
      publish_answer, retire_work; by rewrite Hi.
  - destruct a; cbn; unfold take_work, pass_gate, decide_entry, notify, finish_run, leave_entry,
      publish_answer, retire_work; by rewrite Hi.
Qed.

Lemma engine_never_stuck_witness : pending (after (busy ++ close_it)) = [].
Proof.
  apply (engine_never_stuck 2 2 (after (busy ++ close_it))).
  - apply after_reachable. vm_compute. by eexists.
  - apply returned_stuck. vm_compute. by repeat constructor.
Defined.

Lemma close_terminates_witness :
  10 + remaining (after (busy ++ close_it)) <= remaining (set_stop (after busy)).
Proof.
  apply (close_terminates (tl close_it) (set_stop (after busy)) (after (busy ++ close_it)));
    vm_compute; reflexivity.
Defined.

(** * Closing: [close] *)

Definition all_returned (e : Engine) : bool :=
  forallb (fun x => match x with Returned => true | _ => false end) (workers e).

Lemma step_stop a e e' : step a e = Some e' -> stop_requested e = true -> stop_requested e' = true.
Proof. intros H Hs. by destruct (step_decreases a e e' Hs H). Qed.

Lemma all_returned_spec e : all_returned e = true <-> forall x, x ∈ workers e -> x = Returned.
Proof.
  unfold all_returned. rewrite List.forallb_forall. setoid_rewrite <-list_elem_of_In.
  split; intros H x Hx; specialize (H x Hx); [by destruct x | by subst].
Qed.

(** A worker that has returned takes no step. *)
Lemma work_returned i a e : all_returned e = true -> worker_step i a e = None.
Proof.
  rewrite all_returned_spec. intros H. apply returned_stuck. apply Forall_forall.
  intros x Hx. symmetry. auto.
Qed.

Lemma step_returned a e e' : step a e = Some e' -> all_returned e = true -> all_returned e' = true.
Proof.
  intros H Hall. assert (workers e' = workers e \/ exists i b, worker_step i b e = Some e') as [Hw|(i & b & Hw)].
  - destruct a; cbn in H; [left | left | left | right; by eexists _, _ | left | left].
    + unfold admit_command in H. case_match; [apply bind_Some_inv in H as (? & _ & H)|]; by injection H as <-.
    + unfold accept in H. apply bind_Some_inv in H as (w & _ & H). case_match;
        apply bind_Some_inv in H as (e1 & (p & ->)%section_framed & H).
      * by injection H as <-.
      * apply bind_Some_inv in H as (e2 & (p' & ->)%section_framed & H). by injection H as <-.
    + case_match; [|done]. by apply section_framed in H as (? & ->).
    + unfold channel_release in H. by apply bind_Some_inv in H as (p & _ & [= <-]).
    + by injection H as <-.
  - unfold all_returned. by rewrite Hw.
  - by rewrite work_returned in Hw.
Qed.

#[export] Instance engine_stoppable : Stoppable Engine action unit.
Proof.
  refine {| stop := set_stop; is_stopped := stop_requested; all_done := all_returned;
            summary := fun _ => tt; engine_step := step |}; try done.
  - intros a e e' H Hs. by eapply step_stop.
  - intros a e e' H _ Ha. split; [by eapply step_returned|done].
Defined.

(** [close] returns, to whoever called it and however many did, only when every
    worker has returned and every operation whose handle was returned is answered and
    retired; at most one caller joins the workers. *)
Theorem close_waits limit n m e acts (c : Closing Engine unit) :
  start limit n = Value e -> close_run acts (begin_closing e m) = Some c ->
  joiners (closers c) <= 1 /\
  (Closed tt ∈ closers c ->
   (forall x, x ∈ workers (closing_engine c) -> x = Returned) /\ pending (closing_engine c) = [] /\
   (forall id op, operations (closing_engine c) !! id = Some op -> handed_over id (closing_engine c) = true -> answered op)).
Proof.
  intros He Hrun. pose proof (close_run_ok _ _ _ (begin_closing_ok e m) Hrun) as Hok. split; [by apply one_joiner|].
  assert (reachable limit n (closing_engine c)) as Hr.
  { eapply (close_run_engine (reachable limit n)); [| | |exact Hrun].
    - intros x Hx. by apply (reachable_step _ _ RequestStop x).
    - intros a x x' Hx Hs. by eapply reachable_step.
    - by apply reachable_start. }
  intros H. destruct (closed_done c tt Hok H) as [Hall _]. cbn in Hall. split; [by apply all_returned_spec|].
  rewrite all_returned_spec in Hall. eapply idle_answered; [done|].
  intros i a. apply work_returned. by apply all_returned_spec.
Qed.

(** Two callers close a busy engine. *)
Definition closing_run : list (closing_action action) :=
  map EngineStep busy ++ [CloseBegin 1; CloseBegin 0] ++ map EngineStep (tl close_it) ++
  [CloseJoin 1; CloseWake 0].

Definition closing_done : Closing Engine unit :=
  default (begin_closing started 2) (close_run closing_run (begin_closing started 2)).

Lemma close_waits_witness :
  closers closing_done = [Closed tt; Closed tt] /\ pending (closing_engine closing_done) = [].
Proof.
  split; [vm_compute; reflexivity|]. apply (close_waits 2 2 2 started closing_run closing_done).
  - reflexivity.
  - vm_compute. reflexivity.
  - vm_compute. left.
Defined.
