(* ===== verification/Filter.v ===== *)
(** Filter expressions: [include/libtmux/filter_expr.hpp], [lowering.hpp],
    [lowered_node.hpp], [relations.hpp], [cardinality.hpp].

    An expression over an entity type is a tree that owns its operands; it filters
    rows in memory, and lowering flattens it to a sequence of nodes that names its
    fields instead of reading them.  A relation's child compares another entity
    type, so the tree keeps the child's evaluation as a function and its lowered
    form as data.

    The theorems: lowering into any sink is lowering into nodes and replaying them;
    what the handles, the operators and the quantifiers build lowers to a well
    bracketed sequence from which the tree reads back; a reader of the lowered form,
    which has the names only, comes to the same answer on every row; quantifiers and
    joins mean what they are named for; lookups of one row tell none from several. *)

From S2P Require Import Prelude.

(** * Expressions *)

Inductive StringOp := equals | iequals | contains | starts_with_op | ends_with_op.
Inductive NumberOp := num_equals | not_equals | less | less_equal | greater | greater_equal.
Inductive Combine := conjunction_ | disjunction_.

#[export] Instance StringOp_eq_dec : EqDecision StringOp.
Proof. solve_decision. Defined.
#[export] Instance NumberOp_eq_dec : EqDecision NumberOp.
Proof. solve_decision. Defined.
#[export] Instance Combine_eq_dec : EqDecision Combine.
Proof. solve_decision. Defined.

Record StringField (E : Type) := MkStringField { string_name : text; string_read : E -> text }.
Record BoolField (E : Type) := MkBoolField { bool_name : text; bool_read : E -> bool }.
Record NumberField (E : Type) := MkNumberField { number_name : text; number_read : E -> Z }.
Arguments MkStringField {E}. Arguments string_name {E}. Arguments string_read {E}.
Arguments MkBoolField {E}. Arguments bool_name {E}. Arguments bool_read {E}.
Arguments MkNumberField {E}. Arguments number_name {E}. Arguments number_read {E}.

Inductive Kind :=
  | string_test_ | bool_test_ | number_test_ | begin_group_ | end_group_
  | begin_negation_ | end_negation_ | begin_relation_ | end_relation_.

#[export] Instance Kind_eq_dec : EqDecision Kind.
Proof. solve_decision. Defined.

Record LoweredNode := MkNode {
  kind : Kind;
  node_name : text;
  node_op : text;
  node_operand : text;
  number : Z;
  conjunction : bool;
  expected_ : bool;
  quantifier : Z;
}.
Definition LoweredExpression := list LoweredNode.

#[export] Instance LoweredNode_eq_dec : EqDecision LoweredNode.
Proof. solve_decision. Defined.

Inductive FilterExpr (E : Type) :=
  | StringTest (field : StringField E) (op : StringOp) (operand : text)
  | BoolTest (field : BoolField E) (expected : bool)
  | NumberTest (field : NumberField E) (op : NumberOp) (operand : Z)
  | Group (combine : Combine) (operands : list (FilterExpr E))
  | Negation (operand : FilterExpr E)
  | RelationTest (relation : text) (quantifier : Z) (evaluate : E -> bool) (child : LoweredExpression).
Arguments StringTest {E}. Arguments BoolTest {E}. Arguments NumberTest {E}.
Arguments Group {E}. Arguments Negation {E}. Arguments RelationTest {E}.

(** ** Evaluation *)

Definition fold_case (c : ascii) : ascii :=
  if ((65 <=? byte_of c) && (byte_of c <=? 90))%N then ascii_of_N (byte_of c - 65 + 97) else c.

Fixpoint equal_folded (a b : text) : bool :=
  match a, b with
  | [], [] => true
  | x :: a, y :: b => bool_decide (fold_case x = fold_case y) && equal_folded a b
  | _, _ => false
  end.

Definition ends_with (p s : text) : bool := starts_with (rev p) (rev s).

Definition string_matches (op : StringOp) (operand value : text) : bool :=
  match op with
  | equals => bool_decide (value = operand)
  | iequals => (length value =? length operand)%nat && equal_folded value operand
  | contains => match find_sub operand value with Some _ => true | None => false end
  | starts_with_op => starts_with operand value
  | ends_with_op => ends_with operand value
  end.

Definition number_matches (op : NumberOp) (operand value : Z) : bool :=
  match op with
  | num_equals => value =? operand
  | not_equals => negb (value =? operand)
  | less => value <? operand
  | less_equal => value <=? operand
  | greater => operand <? value
  | greater_equal => operand <=? value
  end%Z.

Definition combined (c : Combine) (answers : list bool) : bool :=
  match c with
  | conjunction_ => forallb (fun b => b) answers
  | disjunction_ => existsb (fun b => b) answers
  end.

Fixpoint evaluate {E} (e : FilterExpr E) (x : E) : bool :=
  match e with
  | StringTest field op operand => string_matches op operand (string_read field x)
  | BoolTest field expected => Bool.eqb (bool_read field x) expected
  | NumberTest field op operand => number_matches op operand (number_read field x)
  | Group combine operands =>
      match combine with
      | conjunction_ => forallb (fun operand => evaluate operand x) operands
      | disjunction_ => existsb (fun operand => evaluate operand x) operands
      end
  | Negation operand => negb (evaluate operand x)
  | RelationTest _ _ f _ => f x
  end.

(** ** Handles and operators *)

Definition string_is {E} (f : StringField E) (op : StringOp) (operand : text) : FilterExpr E :=
  StringTest f op operand.
Definition number_is {E} (f : NumberField E) (op : NumberOp) (operand : Z) : FilterExpr E :=
  NumberTest f op operand.
Definition bool_is {E} (f : BoolField E) (expected : bool) : FilterExpr E := BoolTest f expected.
Definition bool_is_not {E} (f : BoolField E) (expected : bool) : FilterExpr E :=
  bool_is f (negb expected).
Definition expr_and {E} (l r : FilterExpr E) : FilterExpr E := Group conjunction_ [l; r].
Definition expr_or {E} (l r : FilterExpr E) : FilterExpr E := Group disjunction_ [l; r].
Definition expr_not {E} (e : FilterExpr E) : FilterExpr E := Negation e.
Definition string_is_not {E} (f : StringField E) (operand : text) : FilterExpr E :=
  expr_not (string_is f equals operand).

(** [matching], over a range of rows. *)
Definition matching {E} (e : FilterExpr E) (rows : list E) : list E :=
  List.filter (evaluate e) rows.

(** * Lowering *)

Definition string_op_name (op : StringOp) : text :=
  match op with
  | equals => txt "eq" | iequals => txt "iexact" | contains => txt "contains"
  | starts_with_op => txt "startswith" | ends_with_op => txt "endswith"
  end.

Definition number_op_name (op : NumberOp) : text :=
  match op with
  | num_equals => txt "eq" | not_equals => txt "ne" | less => txt "lt"
  | less_equal => txt "lte" | greater => txt "gt" | greater_equal => txt "gte"
  end.

(** What a caller hands to [lower]: one call for each node, groups, negations and
    relations bracketed. *)
Class Sink (S : Type) := {
  string_test : text -> text -> text -> S -> S;
  bool_test : text -> bool -> S -> S;
  number_test : text -> text -> Z -> S -> S;
  begin_group : bool -> S -> S;
  end_group : S -> S;
  begin_negation : S -> S;
  end_negation : S -> S;
  begin_relation : text -> Z -> S -> S;
  end_relation : S -> S;
}.

(** [NodeCollector]: each call appends a node that sets what its kind means. *)
Definition string_node (field op operand : text) : LoweredNode :=
  MkNode string_test_ field op operand 0 false false 0.
Definition bool_node (field : text) (expected : bool) : LoweredNode :=
  MkNode bool_test_ field [] [] 0 false expected 0.
Definition number_node (field op : text) (operand : Z) : LoweredNode :=
  MkNode number_test_ field op [] operand false false 0.
Definition group_node (every : bool) : LoweredNode := MkNode begin_group_ [] [] [] 0 every false 0.
Definition relation_node (name : text) (q : Z) : LoweredNode :=
  MkNode begin_relation_ name [] [] 0 false false q.
Definition plain_node (k : Kind) : LoweredNode := MkNode k [] [] [] 0 false false 0.

#[export] Instance NodeCollector : Sink LoweredExpression := {
  string_test field op operand nodes := nodes ++ [string_node field op operand];
  bool_test field expected nodes := nodes ++ [bool_node field expected];
  number_test field op operand nodes := nodes ++ [number_node field op operand];
  begin_group every nodes := nodes ++ [group_node every];
  end_group nodes := nodes ++ [plain_node end_group_];
  begin_negation nodes := nodes ++ [plain_node begin_negation_];
  end_negation nodes := nodes ++ [plain_node end_negation_];
  begin_relation name q nodes := nodes ++ [relation_node name q];
  end_relation nodes := nodes ++ [plain_node end_relation_];
}.

Section sinks.
Context {S : Type} `{!Sink S}.

Definition replay_node (node : LoweredNode) (sink : S) : S :=
  match kind node with
  | string_test_ => string_test (node_name node) (node_op node) (node_operand node) sink
  | bool_test_ => bool_test (node_name node) (expected_ node) sink
  | number_test_ => number_test (node_name node) (node_op node) (number node) sink
  | begin_group_ => begin_group (conjunction node) sink
  | end_group_ => end_group sink
  | begin_negation_ => begin_negation sink
  | end_negation_ => end_negation sink
  | begin_relation_ => begin_relation (node_name node) (quantifier node) sink
  | end_relation_ => end_relation sink
  end.

Definition replay (nodes : LoweredExpression) (sink : S) : S :=
  foldl (fun s node => replay_node node s) sink nodes.

Fixpoint lower {E} (e : FilterExpr E) (sink : S) : S :=
  match e with
  | StringTest field op operand => string_test (string_name field) (string_op_name op) operand sink
  | BoolTest field expected => bool_test (bool_name field) expected sink
  | NumberTest field op operand => number_test (number_name field) (number_op_name op) operand sink
  | Group combine operands =>
      end_group
        ((fix each (es : list (FilterExpr E)) (s : S) : S :=
            match es with [] => s | operand :: rest => each rest (lower operand s) end)
           operands (begin_group (bool_decide (combine = conjunction_)) sink))
  | Negation operand => end_negation (lower operand (begin_negation sink))
  | RelationTest relation q _ child => end_relation (replay child (begin_relation relation q sink))
  end.
End sinks.

(** [NodeCollector{}], lowered into, and taken. *)
Definition lowered {E} (e : FilterExpr E) : LoweredExpression := lower e [].

(** * Relations *)

Inductive Quantifier := any_of_ | all_of_ | none_of_ | is_.

#[export] Instance Quantifier_eq_dec : EqDecision Quantifier.
Proof. solve_decision. Defined.

Definition quantifier_code (q : Quantifier) : Z :=
  match q with any_of_ => 0 | all_of_ => 1 | none_of_ => 2 | is_ => 3 end.

(** The answer over the related rows; every code but the first two is [none_of]. *)
Definition quantify (q : Quantifier) (answers : list bool) : bool :=
  match q with
  | any_of_ => existsb (fun b => b) answers
  | all_of_ => forallb (fun b => b) answers
  | _ => negb (existsb (fun b => b) answers)
  end.

Definition quantified {E C} (name : text) (q : Quantifier) (read : E -> list C)
    (predicate : FilterExpr C) : FilterExpr E :=
  RelationTest name (quantifier_code q)
    (fun x => quantify q (map (evaluate predicate) (read x))) (lowered predicate).

Definition any_of {E C} name (read : E -> list C) p : FilterExpr E := quantified name any_of_ read p.
Definition all_of {E C} name (read : E -> list C) p : FilterExpr E := quantified name all_of_ read p.
Definition none_of {E C} name (read : E -> list C) p : FilterExpr E := quantified name none_of_ read p.

Definition is_related {E C} (name : text) (read : E -> option C) (predicate : FilterExpr C) :
    FilterExpr E :=
  RelationTest name (quantifier_code is_)
    (fun x => match read x with Some related => evaluate predicate related | None => false end)
    (lowered predicate).

Definition children_of {P C} (rows : list C) (foreign_key : StringField C) (key : StringField P)
    (parent : P) : list C :=
  List.filter (fun child => bool_decide (string_read foreign_key child = string_read key parent)) rows.

Definition parent_of {C P} (rows : list P) (foreign_key : StringField C) (key : StringField P)
    (child : C) : option P :=
  List.find (fun row => bool_decide (string_read key row = string_read foreign_key child)) rows.

(** * Cardinality *)

Inductive CardinalityError := none_matched | several_matched.

Definition first {A} (range : list A) : option A :=
  match range with [] => None | x :: _ => Some x end.

Definition exactly_one {A} (range : list A) : expected CardinalityError A :=
  match range with
  | [] => Unexpected none_matched
  | only :: rest => match rest with [] => Value only | _ :: _ => Unexpected several_matched end
  end.

(** The owned lookups over a forward range: the same answers, by copy. *)
Definition first_owned {A} (range : list A) : option A := first range.

Definition exactly_one_owned {A} (range : list A) : expected CardinalityError A :=
  match range with
  | [] => Unexpected none_matched
  | only :: second => match second with _ :: _ => Unexpected several_matched | [] => Value only end
  end.

(** * Reading a lowered expression back

    [Shape] is an expression with its accessors erased; [flatten] is the sequence it
    is written as, [read_nodes] the reader, with a stack of what is still open. *)

Inductive Shape :=
  | SString (name op operand : text)
  | SBool (name : text) (expected : bool)
  | SNumber (name op : text) (operand : Z)
  | SGroup (every : bool) (operands : list Shape)
  | SNegation (operand : Shape)
  | SRelation (name : text) (q : Z) (child : Shape).

Fixpoint flatten (s : Shape) : LoweredExpression :=
  match s with
  | SString name op operand => [string_node name op operand]
  | SBool name expected => [bool_node name expected]
  | SNumber name op operand => [number_node name op operand]
  | SGroup every operands => group_node every :: flat_map flatten operands ++ [plain_node end_group_]
  | SNegation operand => plain_node begin_negation_ :: flatten operand ++ [plain_node end_negation_]
  | SRelation name q child => relation_node name q :: flatten child ++ [plain_node end_relation_]
  end.

Inductive Opener := OpenRoot | OpenGroup (every : bool) | OpenNegation | OpenRelation (name : text) (q : Z).
Definition Frame : Type := (Opener * list Shape)%type.

Definition add_shape (s : Shape) (stack : list Frame) : option (list Frame) :=
  match stack with (o, done_) :: rest => Some ((o, s :: done_) :: rest) | [] => None end.

Definition read_node (stack : list Frame) (node : LoweredNode) : option (list Frame) :=
  match kind node with
  | string_test_ => add_shape (SString (node_name node) (node_op node) (node_operand node)) stack
  | bool_test_ => add_shape (SBool (node_name node) (expected_ node)) stack
  | number_test_ => add_shape (SNumber (node_name node) (node_op node) (number node)) stack
  | begin_group_ => Some ((OpenGroup (conjunction node), []) :: stack)
  | begin_negation_ => Some ((OpenNegation, []) :: stack)
  | begin_relation_ => Some ((OpenRelation (node_name node) (quantifier node), []) :: stack)
  | end_group_ =>
      match stack with (OpenGroup every, done_) :: rest => add_shape (SGroup every (rev done_)) rest | _ => None end
  | end_negation_ =>
      match stack with (OpenNegation, [s]) :: rest => add_shape (SNegation s) rest | _ => None end
  | end_relation_ =>
      match stack with
      | (OpenRelation name q, [s]) :: rest => add_shape (SRelation name q s) rest
      | _ => None
      end
  end.

Fixpoint read_stack (stack : list Frame) (nodes : LoweredExpression) : option (list Frame) :=
  match nodes with
  | [] => Some stack
  | node :: rest => stack ← read_node stack node; read_stack stack rest
  end.

Definition read_nodes (nodes : LoweredExpression) : option Shape :=
  match read_stack [(OpenRoot, [])] nodes with
  | Some [(OpenRoot, [s])] => Some s
  | _ => None
  end.

Definition string_op_of (name : text) : option StringOp :=
  List.find (fun op => bool_decide (string_op_name op = name))
    [equals; iequals; contains; starts_with_op; ends_with_op].
Definition number_op_of (name : text) : option NumberOp :=
  List.find (fun op => bool_decide (number_op_name op = name))
    [num_equals; not_equals; less; less_equal; greater; greater_equal].
Definition quantifier_of (code : Z) : option Quantifier :=
  List.find (fun q => bool_decide (quantifier_code q = code)) [any_of_; all_of_; none_of_; is_].

(** What a reader of the wire knows: the entity types, and what each name reads. *)
Class Vocabulary (K : Type) (Ent : K -> Type) := {
  string_of : forall k, text -> option (Ent k -> text);
  bool_of : forall k, text -> option (Ent k -> bool);
  number_of : forall k, text -> option (Ent k -> Z);
  many_of : forall k, text -> option {k' : K & Ent k -> list (Ent k')};
  one_of : forall k, text -> option {k' : K & Ent k -> option (Ent k')};
}.

Section meaning.
Context {K : Type} {Ent : K -> Type} `{!Vocabulary K Ent}.

(** The answer of a shape on a row, from names alone; [None] for a name, an operation
    or a quantifier the reader does not know. *)
Fixpoint shape_answer (s : Shape) (k : K) (x : Ent k) : option bool :=
  match s with
  | SString name op operand =>
      read ← string_of k name; op ← string_op_of op; Some (string_matches op operand (read x))
  | SBool name expected => read ← bool_of k name; Some (Bool.eqb (read x) expected)
  | SNumber name op operand =>
      read ← number_of k name; op ← number_op_of op; Some (number_matches op operand (read x))
  | SGroup every operands =>
      answers ← (fix each (l : list Shape) : option (list bool) :=
                   match l with
                   | [] => Some []
                   | s :: rest => b ← shape_answer s k x; bs ← each rest; Some (b :: bs)
                   end) operands;
      Some (combined (if every then conjunction_ else disjunction_) answers)
  | SNegation operand => negb <$> shape_answer operand k x
  | SRelation name code child =>
      match quantifier_of code with
      | None => None
      | Some is_ =>
          match one_of k name with
          | None => None
          | Some (existT k' read) =>
              match read x with None => Some false | Some y => shape_answer child k' y end
          end
      | Some q =>
          match many_of k name with
          | None => None
          | Some (existT k' read) => quantify q <$> mapM (shape_answer child k') (read x)
          end
      end
  end.

(** The expressions that handles, operators and relation builders make, with handles
    and accessors named as the vocabulary names them. *)
Inductive built : forall k, FilterExpr (Ent k) -> Prop :=
  | built_string k f op operand :
      string_of k (string_name f) = Some (string_read f) -> built k (string_is f op operand)
  | built_bool k f expected :
      bool_of k (bool_name f) = Some (bool_read f) -> built k (bool_is f expected)
  | built_number k f op operand :
      number_of k (number_name f) = Some (number_read f) -> built k (number_is f op operand)
  | built_group k combine operands :
      (forall e, e ∈ operands -> built k e) -> built k (Group combine operands)
  | built_not k e : built k e -> built k (expr_not e)
  | built_many k k' name q read e :
      many_of k name = Some (existT k' read) -> q <> is_ -> built k' e ->
      built k (quantified name q read e)
  | built_one k k' name read e :
      one_of k name = Some (existT k' read) -> built k' e -> built k (is_related name read e).
End meaning.

(** * Lowering *)

Section expr_ind.
Context {E : Type} (P : FilterExpr E -> Prop).
Hypothesis HS : forall f op o, P (StringTest f op o).
Hypothesis HB : forall f b, P (BoolTest f b).
Hypothesis HN : forall f op o, P (NumberTest f op o).
Hypothesis HG : forall c es, Forall P es -> P (Group c es).
Hypothesis HNeg : forall e, P e -> P (Negation e).
Hypothesis HR : forall r q f c, P (RelationTest r q f c).

Fixpoint FilterExpr_nested_ind (e : FilterExpr E) : P e :=
  match e with
  | StringTest f op o => HS f op o
  | BoolTest f b => HB f b
  | NumberTest f op o => HN f op o
  | Group c es =>
      HG c es ((fix each (l : list (FilterExpr E)) : Forall P l :=
                  match l with
                  | [] => Forall_nil_2 _
                  | e :: l => Forall_cons_2 _ _ _ (FilterExpr_nested_ind e) (each l)
                  end) es)
  | Negation e => HNeg e (FilterExpr_nested_ind e)
  | RelationTest r q f c => HR r q f c
  end.
End expr_ind.

Section shape_ind.
Context (P : Shape -> Prop).
Hypothesis HS : forall n op o, P (SString n op o).
Hypothesis HB : forall n b, P (SBool n b).
Hypothesis HN : forall n op o, P (SNumber n op o).
Hypothesis HG : forall c ss, Forall P ss -> P (SGroup c ss).
Hypothesis HNeg : forall s, P s -> P (SNegation s).
Hypothesis HR : forall n q s, P s -> P (SRelation n q s).

Fixpoint Shape_nested_ind (s : Shape) : P s :=
  match s with
  | SString n op o => HS n op o
  | SBool n b => HB n b
  | SNumber n op o => HN n op o
  | SGroup c ss =>
      HG c ss ((fix each (l : list Shape) : Forall P l :=
                  match l with
                  | [] => Forall_nil_2 _
                  | s :: l => Forall_cons_2 _ _ _ (Shape_nested_ind s) (each l)
                  end) ss)
  | SNegation s => HNeg s (Shape_nested_ind s)
  | SRelation n q s => HR n q s (Shape_nested_ind s)
  end.
End shape_ind.

(** A node as the collector would write it: the members its kind does not use unset. *)
Definition normal (node : LoweredNode) : LoweredNode :=
  match kind node with
  | string_test_ => string_node (node_name node) (node_op node) (node_operand node)
  | bool_test_ => bool_node (node_name node) (expected_ node)
  | number_test_ => number_node (node_name node) (node_op node) (number node)
  | begin_group_ => group_node (conjunction node)
  | begin_relation_ => relation_node (node_name node) (quantifier node)
  | k => plain_node k
  end.

Lemma normal_normal node : normal (normal node) = normal node.
Proof. unfold normal. by destruct (kind node). Qed.

Lemma replay_app {S} `{!Sink S} a b (sink : S) : replay (a ++ b) sink = replay b (replay a sink).
Proof. unfold replay. by rewrite foldl_app. Qed.

Lemma replay_normal {S} `{!Sink S} nodes (sink : S) : replay (map normal nodes) sink = replay nodes sink.
Proof.
  revert sink. induction nodes as [|n nodes IH]; intros sink; [done|]. unfold replay in *. cbn.
  rewrite IH. f_equal. unfold replay_node, normal. by destruct (kind n).
Qed.

Lemma replay_collect nodes (acc : LoweredExpression) : replay nodes acc = acc ++ map normal nodes.
Proof.
  revert acc. induction nodes as [|n nodes IH]; intros acc; cbn; [by rewrite app_nil_r|].
  change (replay nodes (replay_node n acc) = acc ++ normal n :: map normal nodes). rewrite IH.
  assert (replay_node n acc = acc ++ [normal n]) as -> by (unfold replay_node, normal; by destruct (kind n)).
  by rewrite <-app_assoc.
Qed.

(** The nodes an expression lowers to, as a function of the tree. *)
Fixpoint expr_nodes {E} (e : FilterExpr E) : LoweredExpression :=
  match e with
  | StringTest f op operand => [string_node (string_name f) (string_op_name op) operand]
  | BoolTest f b => [bool_node (bool_name f) b]
  | NumberTest f op operand => [number_node (number_name f) (number_op_name op) operand]
  | Group c es =>
      group_node (bool_decide (c = conjunction_)) :: flat_map expr_nodes es ++ [plain_node end_group_]
  | Negation e => plain_node begin_negation_ :: expr_nodes e ++ [plain_node end_negation_]
  | RelationTest r q _ child => relation_node r q :: map normal child ++ [plain_node end_relation_]
  end.

Lemma lower_nodes {E S} `{!Sink S} (e : FilterExpr E) (sink : S) :
  lower e sink = replay (expr_nodes e) sink.
Proof.
  revert sink. induction e as [| | |c es IH|e IH|r q f child] using FilterExpr_nested_ind;
    intros sink; [done | done | done | | |].
  - cbn [lower expr_nodes]. rewrite app_comm_cons, replay_app.
    change (replay [plain_node end_group_] ?x) with (end_group x). f_equal.
    change (replay (group_node ?b :: ?l) sink) with (replay l (begin_group b sink)).
    generalize (begin_group (bool_decide (c = conjunction_)) sink). clear sink.
    induction IH as [|e es He Hes IH]; intros sink; [done|]. cbn [flat_map].
    rewrite replay_app, <-He. apply IH.
  - cbn [lower expr_nodes]. rewrite app_comm_cons, replay_app, IH. done.
  - cbn [lower expr_nodes]. rewrite app_comm_cons, replay_app.
    change (replay [plain_node end_relation_] ?x) with (end_relation x). f_equal.
    change (replay (relation_node r q :: ?l) sink) with (replay l (begin_relation r q sink)).
    by rewrite replay_normal.
Qed.

Lemma expr_nodes_normal {E} (e : FilterExpr E) : map normal (expr_nodes e) = expr_nodes e.
Proof.
  induction e as [| | |c es IH|e IH|r q f child] using FilterExpr_nested_ind; cbn; try done.
  - rewrite map_app. cbn. do 2 f_equal. induction IH as [|e es He Hes IH]; [done|].
    cbn. by rewrite map_app, He, IH.
  - rewrite map_app. cbn. by rewrite IH.
  - rewrite map_app, map_map. cbn. do 2 f_equal. apply map_ext. apply normal_normal.
Qed.

Lemma lowered_nodes {E} (e : FilterExpr E) : lowered e = expr_nodes e.
Proof. unfold lowered. rewrite lower_nodes, replay_collect. apply expr_nodes_normal. Qed.

(** Lowering an expression into any sink makes the calls that replaying its collected
    nodes makes: what was lowered once can be lowered again from the nodes alone. *)
Theorem lower_replay {E S} `{!Sink S} (e : FilterExpr E) (sink : S) :
  lower e sink = replay (lowered e) sink.
Proof. by rewrite lowered_nodes, lower_nodes. Qed.

(** ** Reading back *)

Lemma read_stack_app st a b : read_stack st (a ++ b) = st' ← read_stack st a; read_stack st' b.
Proof.
  revert st. induction a as [|n a IH]; intros st; cbn; [done|].
  destruct (read_node st n) as [st'|]; cbn; [apply IH | done].
Qed.

Lemma read_flatten s o done_ rest :
  read_stack ((o, done_) :: rest) (flatten s) = Some ((o, s :: done_) :: rest).
Proof.
  revert o done_ rest. induction s as [| | |c ss IH|s IH|n q s IH] using Shape_nested_ind;
    intros opener d rest; try done.
  - cbn [flatten]. rewrite app_comm_cons, read_stack_app. cbn [read_stack].
    change (read_node ((opener, d) :: rest) (group_node c)) with (Some ((OpenGroup c, []) :: (opener, d) :: rest)).
    cbn [mbind option_bind].
    assert (forall acc, read_stack ((OpenGroup c, acc) :: (opener, d) :: rest) (flat_map flatten ss) =
      Some ((OpenGroup c, rev ss ++ acc) :: (opener, d) :: rest)) as Hss.
    { induction IH as [|s ss Hs Hss IH]; intros acc; cbn; [done|].
      rewrite read_stack_app, Hs. cbn. rewrite IH. by rewrite <-app_assoc. }
    rewrite Hss. cbn. by rewrite app_nil_r, rev_involutive.
  - cbn [flatten]. rewrite app_comm_cons, read_stack_app. cbn. by rewrite IH.
  - cbn [flatten]. rewrite app_comm_cons, read_stack_app. cbn. by rewrite IH.
Qed.

(** A lowered sequence reads back: the reader recovers the tree from the bracketed
    nodes, so two trees that are written the same are the same. *)
Theorem read_back s : read_nodes (flatten s) = Some s.
Proof. unfold read_nodes. by rewrite read_flatten. Qed.

Lemma string_op_round op : string_op_of (string_op_name op) = Some op.
Proof. by destruct op. Qed.
Lemma number_op_round op : number_op_of (number_op_name op) = Some op.
Proof. by destruct op. Qed.
Lemma quantifier_round q : quantifier_of (quantifier_code q) = Some q.
Proof. by destruct q. Qed.

Lemma mapM_answers {A} (f : A -> option bool) (g : A -> bool) (l : list A) :
  (forall x, f x = Some (g x)) -> mapM f l = Some (map g l).
Proof. intros H. induction l as [|x l IH]; [done|]. cbn. by rewrite H, IH. Qed.

Lemma evaluate_group {E} c (es : list (FilterExpr E)) x :
  evaluate (Group c es) x = combined c (map (fun e => evaluate e x) es).
Proof.
  destruct c; cbn; induction es as [|e es IH]; cbn; try done; by rewrite IH.
Qed.

Section meaning_facts.
Context {K : Type} {Ent : K -> Type} `{!Vocabulary K Ent}.

(** A shape stands for an expression: it is what is written, and it answers the same. *)
Definition stands_for (k : K) (s : Shape) (e : FilterExpr (Ent k)) : Prop :=
  expr_nodes e = flatten s /\ forall x, shape_answer s k x = Some (evaluate e x).

Lemma group_stands k c es ss :
  Forall2 (stands_for k) ss es ->
  stands_for k (SGroup (bool_decide (c = conjunction_)) ss) (Group c es).
Proof.
  intros H. split.
  - cbn. do 2 f_equal. induction H as [|s e ss es [Hs _] _ IH]; [done|]. cbn. by rewrite Hs, IH.
  - intros x. rewrite evaluate_group. cbn [shape_answer].
    assert ((fix each (l : list Shape) : option (list bool) :=
      match l with
      | [] => Some []
      | s :: rest => b ← shape_answer s k x; bs ← each rest; Some (b :: bs)
      end) ss = Some (map (fun e => evaluate e x) es)) as ->.
    { induction H as [|s e ss es [_ Hs] _ IH]; [done|]. rewrite Hs. cbn. by rewrite IH. }
    cbn. by destruct c.
Qed.

Lemma built_shape k e : built k e -> exists s, stands_for k s e.
Proof.
  induction 1 as [k f op operand Hf | k f b Hf | k f op operand Hf | k c es _ IH | k e _ [s [IH1 IH2]]
    | k k' name q read e Hn Hq _ [s [IH1 IH2]] | k k' name read e Hn _ [s [IH1 IH2]]].
  - exists (SString (string_name f) (string_op_name op) operand). split; [done|]. intros x.
    cbn [shape_answer]. by rewrite Hf, string_op_round.
  - exists (SBool (bool_name f) b). split; [done|]. intros x. cbn. by rewrite Hf.
  - exists (SNumber (number_name f) (number_op_name op) operand). split; [done|]. intros x.
    cbn [shape_answer]. by rewrite Hf, number_op_round.
  - assert (exists ss, Forall2 (stands_for k) ss es) as [ss Hss].
    { induction es as [|e es IHes]; [by exists []|].
      destruct (IH e) as [s Hs]; [by left|]. destruct IHes as [ss Hss]; [intros; apply IH; by right|].
      exists (s :: ss). by constructor. }
    eexists. by apply group_stands.
  - exists (SNegation s). split; cbn; [by rewrite IH1|]. intros x. by rewrite IH2.
  - exists (SRelation name (quantifier_code q) s). split.
    + cbn. by rewrite lowered_nodes, expr_nodes_normal, IH1.
    + intros x. cbn [shape_answer]. rewrite quantifier_round, Hn.
      rewrite (mapM_answers _ (evaluate e)) by done. destruct q; [done.. | by destruct Hq].
  - exists (SRelation name (quantifier_code is_) s). split.
    + cbn. by rewrite lowered_nodes, expr_nodes_normal, IH1.
    + intros x. cbn [shape_answer]. rewrite quantifier_round, Hn. cbn. by destruct (read x).
Qed.

Lemma shape_lowered k s (e : FilterExpr (Ent k)) :
  stands_for k s e -> read_nodes (lowered e) = Some s /\ lowered e = flatten s.
Proof. intros [H1 _]. rewrite lowered_nodes, H1. split; [|done]. unfold read_nodes. by rewrite read_flatten. Qed.
End meaning_facts.

(** C11: Whatever handles, operators and relation builders make lowers to a well bracketed
    sequence, and a reader that has only the names in it answers on every row what the
    expression answers in memory. *)
Theorem lowered_meaning {K} {Ent : K -> Type} `{!Vocabulary K Ent} k (e : FilterExpr (Ent k)) :
  built k e ->
  exists s, read_nodes (lowered e) = Some s /\ lowered e = flatten s /\
    forall x, shape_answer s k x = Some (evaluate e x).
Proof.
  intros [s Hs]%built_shape. exists s. destruct (shape_lowered k s e Hs) as [H1 H2].
  split_and!; [done | done | apply Hs].
Qed.

(** * Evaluation *)

Lemma equal_folded_spec a b : equal_folded a b = true <-> map fold_case a = map fold_case b.
Proof.
  revert b. induction a as [|x a IH]; intros [|y b]; cbn; try done.
  rewrite andb_true_iff, bool_decide_eq_true, IH. split; [by intros [-> ->] | by intros [= -> ->]].
Qed.

Lemma starts_with_rev p s : starts_with (rev p) (rev s) = true <-> exists r, s = r ++ p.
Proof.
  rewrite starts_with_spec. split.
  - intros [r Hr]. exists (rev r). rewrite <-(rev_involutive s), Hr, rev_app_distr.
    by rewrite rev_involutive.
  - intros [r ->]. exists (rev r). by rewrite rev_app_distr.
Qed.

(** What each text test means: equality, equality up to the case of ASCII letters,
    occurrence, being a prefix, being a suffix. *)
Theorem string_test_spec op operand value :
  string_matches op operand value = true <->
  match op with
  | equals => value = operand
  | iequals => map fold_case value = map fold_case operand
  | contains => exists a b, value = a ++ operand ++ b
  | starts_with_op => exists b, value = operand ++ b
  | ends_with_op => exists a, value = a ++ operand
  end.
Proof.
  destruct op; cbn.
  - apply bool_decide_eq_true.
  - rewrite andb_true_iff, equal_folded_spec, Nat.eqb_eq. split; [by intros [_ ?]|].
    intros H. split; [|done]. by rewrite <-(length_map fold_case value), H, length_map.
  - destruct (find_sub operand value) as [i|] eqn:E; split; try done.
    + intros _. apply find_sub_Some in E as [(p & r & -> & _) _]. eauto.
    + intros (a & b & ->). rewrite find_sub_None in E. specialize (E (length a)).
      rewrite drop_app_length, starts_with_app in E. done.
  - apply starts_with_spec.
  - apply starts_with_rev.
Qed.

(** Operators, quantifiers and [matching] mean what they are named for: conjunction,
    disjunction and negation of the answers, an empty relation satisfies [all_of] and
    [none_of] but not [any_of], an absent link does not satisfy [is], and matching keeps
    the rows that satisfy the expression, in their order. *)
Theorem expression_meaning {E C} (a b : FilterExpr E) (p : FilterExpr C) name
    (many : E -> list C) (one : E -> option C) (x : E) rows :
  evaluate (expr_and a b) x = evaluate a x && evaluate b x /\
  evaluate (expr_or a b) x = evaluate a x || evaluate b x /\
  evaluate (expr_not a) x = negb (evaluate a x) /\
  (evaluate (any_of name many p) x = true <-> exists y, y ∈ many x /\ evaluate p y = true) /\
  (evaluate (all_of name many p) x = true <-> forall y, y ∈ many x -> evaluate p y = true) /\
  (evaluate (none_of name many p) x = true <-> forall y, y ∈ many x -> evaluate p y = false) /\
  (evaluate (is_related name one p) x = true <-> exists y, one x = Some y /\ evaluate p y = true) /\
  matching a rows `sublist_of` rows /\
  (x ∈ matching a rows <-> x ∈ rows /\ evaluate a x = true).
Proof.
  split_and!; cbn; rewrite ?andb_true_r, ?orb_false_r; try done.
  - rewrite existsb_exists. setoid_rewrite List.in_map_iff. setoid_rewrite <-list_elem_of_In.
    split; [intros (? & (y & <- & Hy) & H); eauto | intros (y & Hy & H); eauto 6].
  - rewrite List.forallb_forall. setoid_rewrite List.in_map_iff. setoid_rewrite <-list_elem_of_In.
    split; [eauto | intros H ? (y & <- & Hy); eauto].
  - rewrite negb_true_iff, <-not_true_iff_false, existsb_exists.
    setoid_rewrite List.in_map_iff. setoid_rewrite <-list_elem_of_In. split.
    + intros H y Hy. apply not_true_iff_false. intros Ht. apply H. eauto 6.
    + intros H (? & (y & <- & Hy) & Ht). rewrite H in Ht; done.
  - destruct (one x) as [y|]; split; [eauto | by intros (? & [= <-] & ?) | done | by intros (? & ? & _)].
  - unfold matching. induction rows as [|r rows IH]; cbn; [constructor|].
    destruct (evaluate a r); by constructor.
  - unfold matching. rewrite !list_elem_of_In. apply filter_In.
Qed.

(** Two rows are never told apart by a key that is unique. *)
Lemma parent_of_spec {C P} (rows : list P) (fk : StringField C) (key : StringField P) child p :
  NoDup (map (string_read key) rows) ->
  parent_of rows fk key child = Some p <->
  p ∈ rows /\ string_read key p = string_read fk child.
Proof.
  unfold parent_of. intros Hnd. split.
  - intros [H1 H2]%List.find_some. to_props. by rewrite list_elem_of_In.
  - induction rows as [|r rows IH]; cbn; [by intros [?%elem_of_nil _]|].
    cbn in Hnd. apply NoDup_cons in Hnd as [Hn Hnd]. intros [[->|Hp]%elem_of_cons Hk].
    + by rewrite bool_decide_true.
    + rewrite bool_decide_false; [auto|]. intros Hr. apply Hn. rewrite Hr, <-Hk.
      apply list_elem_of_fmap. by exists p.
Qed.

(** The two directions of a join agree: where the parents' key is unique, a child is
    among a parent's children exactly when that parent is the child's; and a child whose
    key names no parent has none. *)
Theorem joins_agree {C P} (children : list C) (parents : list P) (fk : StringField C)
    (key : StringField P) child p :
  NoDup (map (string_read key) parents) -> p ∈ parents ->
  (child ∈ children_of children fk key p <->
   child ∈ children /\ parent_of parents fk key child = Some p) /\
  (parent_of parents fk key child = None <->
   forall q, q ∈ parents -> string_read key q <> string_read fk child).
Proof.
  intros Hnd Hp. split.
  - rewrite parent_of_spec by done. unfold children_of. rewrite !list_elem_of_In, filter_In.
    rewrite bool_decide_eq_true, <-!list_elem_of_In.
    split; [by intros [? ?] | by intros (? & ? & ?)].
  - unfold parent_of. split.
    + intros H q Hq%list_elem_of_In Hk. pose proof (List.find_none _ _ H q Hq) as Hd.
      cbn in Hd. to_props. done.
    + intros H. destruct (List.find _ _) as [q|] eqn:E; [|done].
      apply List.find_some in E as [Hq Hd]. to_props. exfalso. apply (H q); [|done].
      by apply list_elem_of_In.
Qed.

(** A lookup of one row answers it exactly when there is one, and tells an empty
    range from a range of several. *)
Theorem exactly_one_spec {A} (range : list A) :
  (forall x, exactly_one range = Value x <-> range = [x]) /\
  (exactly_one range = Unexpected none_matched <-> range = []) /\
  (exactly_one range = Unexpected several_matched <-> 2 <= length range) /\
  exactly_one_owned range = exactly_one range /\
  (first range = None <-> range = []).
Proof.
  destruct range as [|a [|b l]]; cbn; split_and!; intros; split; intros; try done; try lia; try congruence.
Qed.

(** A window knows its name and its panes; a pane its title and whether it is active. *)
Inductive SampleKind := sample_window | sample_pane.
Definition sample_entity (k : SampleKind) : Type :=
  match k with sample_window => text * list (text * bool) | sample_pane => text * bool end.

Definition window_name : StringField (sample_entity sample_window) := MkStringField (txt "window_name") fst.
Definition pane_title : StringField (sample_entity sample_pane) := MkStringField (txt "pane_title") fst.
Definition pane_active : BoolField (sample_entity sample_pane) := MkBoolField (txt "pane_active") snd.
Definition window_panes : sample_entity sample_window -> list (sample_entity sample_pane) := snd.

#[local] Instance sample_vocabulary : Vocabulary SampleKind sample_entity := {
  string_of k := match k with
    | sample_window => fun n => if bool_decide (n = txt "window_name") then Some (string_read window_name) else None
    | sample_pane => fun n => if bool_decide (n = txt "pane_title") then Some (string_read pane_title) else None
    end;
  bool_of k := match k with
    | sample_window => fun n => None
    | sample_pane => fun n => if bool_decide (n = txt "pane_active") then Some (bool_read pane_active) else None
    end;
  number_of k n := None;
  many_of k := match k with
    | sample_window => fun n =>
        if bool_decide (n = txt "panes") then Some (existT sample_pane window_panes) else None
    | sample_pane => fun n => None
    end;
  one_of k n := None;
}.

Definition sample_expr : FilterExpr (sample_entity sample_window) :=
  expr_and (string_is window_name starts_with_op (txt "ed"))
    (expr_not (none_of (txt "panes") window_panes
      (expr_or (bool_is pane_active true) (string_is pane_title iequals (txt "VIM"))))).

Definition sample_row : sample_entity sample_window := (txt "edit", [(txt "sh", false); (txt "vim", false)]).

Lemma lowered_meaning_witness :
  evaluate sample_expr sample_row = true /\
  exists s, read_nodes (lowered sample_expr) = Some s /\ lowered sample_expr = flatten s /\
    forall x, shape_answer s sample_window x = Some (evaluate sample_expr x).
Proof.
  split; [vm_compute; reflexivity|]. apply (lowered_meaning sample_window sample_expr).
  unfold sample_expr, expr_and. apply built_group.
  intros e [-> | [-> | []%elem_of_nil]%elem_of_cons]%elem_of_cons.
  - by apply (built_string sample_window window_name).
  - apply (built_not sample_window).
    apply (built_many sample_window sample_pane _ none_of_); [reflexivity | done |].
    unfold expr_or. apply (built_group sample_pane).
    intros e [-> | [-> | []%elem_of_nil]%elem_of_cons]%elem_of_cons.
    + by apply (built_bool sample_pane pane_active).
    + by apply (built_string sample_pane pane_title).
Defined.

Lemma joins_agree_witness :
  (txt "1", true) ∈ children_of [(txt "1", true); (txt "2", false)]
    (MkStringField (txt "window_id") fst) (MkStringField (txt "window_id") fst) (txt "1", 7).
Proof.
  apply (joins_agree [(txt "1", true); (txt "2", false)] [(txt "1", 7); (txt "2", 8)]
    (MkStringField (txt "window_id") fst) (MkStringField (txt "window_id") fst)
    (txt "1", true) (txt "1", 7)).
  - vm_compute. constructor; [|apply NoDup_singleton]. by intros H%list_elem_of_singleton.
  - left.
  - split; [left | reflexivity].
Defined.
