(* ===== verification/Naming.v ===== *)
(** Targets, key names, formats and chains: [include/libtmux/target.hpp], [keys.hpp],
    [format.hpp], [chain.hpp].

    What a caller writes becomes words of a tmux command.  A target path is built from
    names that cannot hold its separators, a key name is checked because tmux ignores
    one it does not know, literal text in a format has its [#] doubled, and a chain
    collects commands until the first step that is not valid.

    The theorems: a path reads back as the names it was built from; exactly which key
    names are accepted; a built format reads back as its pieces; a chain holds the
    commands of its steps up to the first failure, and says why it failed. *)

From S2P Require Import Prelude Command.

(** * Targets *)

Inductive TargetError := empty_name | separator_in_name_.

#[export] Instance TargetError_eq_dec : EqDecision TargetError.
Proof. solve_decision. Defined.

Definition id_form (mark : ascii) (value : text) : bool :=
  match value with c :: _ :: _ => bool_decide (c = mark) | _ => false end.
Definition is_pane_id : text -> bool := id_form "%".
Definition is_window_id : text -> bool := id_form "@".
Definition is_session_id : text -> bool := id_form "$".

Definition separators : list ascii := [":"%char; "."%char].

Definition path_component (name : text) : expected TargetError text :=
  match name with
  | [] => Unexpected empty_name
  | _ =>
      match find_first_of separators name with
      | Some _ => Unexpected separator_in_name_
      | None => Value name
      end
  end.

Definition session_target (session : text) : expected TargetError text :=
  if is_session_id session then Value session else path_component session.

Definition window_target (session window : text) : expected TargetError text :=
  if is_window_id window then Value window
  else
    left ← session_target session;
    right ← path_component window;
    Value (left ++ txt ":" ++ right).

Definition pane_target (session window pane : text) : expected TargetError text :=
  if is_pane_id pane then Value pane
  else
    left ← window_target session window;
    right ← path_component pane;
    Value (left ++ txt "." ++ right).

(** * Keys *)

Inductive KeyError := key_empty | unknown_name.

Definition kNamedKeys : list text := map txt
  ["BSpace"; "BTab"; "DC"; "Delete"; "Down"; "End"; "Enter"; "Escape"; "Home"; "IC"; "Insert";
   "KP*"; "KP+"; "KP-"; "KP."; "KP/"; "KP0"; "KP1"; "KP2"; "KP3"; "KP4"; "KP5"; "KP6"; "KP7";
   "KP8"; "KP9"; "KPEnter"; "Left"; "NPage"; "PPage"; "PageDown"; "PageUp"; "PgDn"; "PgUp";
   "Right"; "Space"; "Tab"; "Up"]%string.

Fixpoint function_number (digits : text) (value : N) : option N :=
  match digits with
  | [] => Some value
  | d :: rest => if is_digit d then function_number rest (value * 10 + digit_value d) else None
  end.

Definition is_function_key (name : text) : bool :=
  match name with
  | c :: digits =>
      if (length name <? 2)%nat || negb (bool_decide (c = "F"%char)) then false
      else if bool_decide (digits = []) || (2 <? length digits)%nat then false
      else match function_number digits 0 with
           | Some value => (1 <=? value)%N && (value <=? 12)%N
           | None => false
           end
  | [] => false
  end.

Definition modifier (c : ascii) : bool :=
  bool_decide (c = "C"%char) || bool_decide (c = "M"%char) || bool_decide (c = "S"%char).

(** The loop that removes modifiers: while more than two bytes begin with one. *)
Fixpoint strip_modifiers (key : text) : text :=
  match key with
  | m :: d :: ((_ :: _) as tail) =>
      if bool_decide (d = "-"%char) && modifier m then strip_modifiers tail else key
  | _ => key
  end.

Definition is_key_name (key : text) : bool :=
  match strip_modifiers key with
  | [] => false
  | [c] => (32 <=? byte_of c)%N
  | key => is_function_key key || existsb (fun named => bool_decide (key = named)) kNamedKeys
  end.

Definition literal_arguments (s : text) : expected KeyError (list text) :=
  match s with
  | [] => Unexpected key_empty
  | _ => Value [txt "-l"; txt "--"; s]
  end.

(** * Formats *)

Definition hash : ascii := "#"%char.

Definition escape_literal (s : text) : text :=
  flat_map (fun c => if bool_decide (c = hash) then [hash; c] else [c]) s.

Definition variable (name : text) : text := txt "#{" ++ name ++ txt "}".

Inductive FormatStep := Literal (s : text) | Field (name : text).

(** [FormatBuilder], a call at a time. *)
Definition format_step (format : text) (step : FormatStep) : text :=
  match step with
  | Literal s => format ++ escape_literal s
  | Field name => format ++ variable name
  end.
Definition build_format (steps : list FormatStep) : text := foldl format_step [] steps.

(** * Chains *)

Record Chain := MkChain { batch : CommandBatch; error : text }.
Definition new_chain : Chain := MkChain [] [].

Definition words (l : list text) : CommandRequest := plain <$> l.

Definition chain_add (command : CommandRequest) (c : Chain) : Chain :=
  match error c with
  | [] =>
      let '(b, added) := batch_add command (batch c) in
      if added then MkChain b (error c) else MkChain b (txt "empty command")
  | _ => c
  end.

Definition chain_fail (reason : text) (c : Chain) : Chain :=
  match error c with [] => MkChain (batch c) reason | _ => c end.

Inductive ChainStep :=
  | NewSession (name : text) (detached : bool)
  | NewWindow (session name : text)
  | SplitWindow (session window : text)
  | SendText (target s : text)
  | SendKey (target key : text)
  | RawCommand (argv : list text).

Definition chain_step (step : ChainStep) (c : Chain) : Chain :=
  match step with
  | NewSession name detached =>
      match session_target name with
      | Unexpected _ => chain_fail (txt "session name cannot address itself") c
      | Value target =>
          chain_add (words ([txt "new-session"; txt "-s"; target] ++
                            if detached then [txt "-d"] else [])) c
      end
  | NewWindow session name =>
      match session_target session with
      | Unexpected _ => chain_fail (txt "session name cannot address itself") c
      | Value target =>
          match path_component name with
          | Unexpected _ => chain_fail (txt "window name cannot address itself") c
          | Value _ => chain_add (words [txt "new-window"; txt "-t"; target; txt "-n"; name]) c
          end
      end
  | SplitWindow session window =>
      match window_target session window with
      | Unexpected _ => chain_fail (txt "window target cannot be addressed") c
      | Value target => chain_add (words [txt "split-window"; txt "-t"; target]) c
      end
  | SendText target s =>
      match literal_arguments s with
      | Unexpected _ => chain_fail (txt "text to send is empty") c
      | Value arguments => chain_add (words ([txt "send-keys"; txt "-t"; target] ++ arguments)) c
      end
  | SendKey target key =>
      if negb (is_key_name key) then chain_fail (txt "unknown key name: " ++ key) c
      else chain_add (words [txt "send-keys"; txt "-t"; target; key]) c
  | RawCommand argv => chain_add (words argv) c
  end.

Definition chain_of (steps : list ChainStep) : Chain := foldl (fun c s => chain_step s c) new_chain steps.
Definition chain_valid (c : Chain) : bool := bool_decide (error c = []).

(** * Targets read back *)

Definition plain_name (name : text) : Prop := name <> [] /\ ":"%char ∉ name /\ "."%char ∉ name.

Lemma path_component_Value name t : path_component name = Value t <-> t = name /\ plain_name name.
Proof.
  unfold path_component, plain_name. destruct name as [|c name]; [split; [done | by intros (_ & ? & _)]|].
  destruct (find_first_of separators (c :: name)) as [i|] eqn:E.
  - split; [done|]. intros (_ & _ & H1 & H2). exfalso.
    assert (find_first_of separators (c :: name) = None) as E'; [|congruence].
    apply find_first_of_None, Forall_forall. intros d Hd [->|[->|[]%elem_of_nil]%elem_of_cons]%elem_of_cons; auto.
  - apply find_first_of_None in E. rewrite Forall_forall in E. split.
    + intros [= <-]. split_and!; [done | done | |]; intros Hin; apply (E _ Hin); [left | right; left].
    + by intros [-> _].
Qed.

(** The path as a reader of it takes it apart: at the first colon, then at the first dot. *)
Definition split_at (c : ascii) (s : text) : option (text * text) :=
  i ← find_char c s; Some (take i s, drop (S i) s).
Definition split_path (s : text) : option (text * text * text) :=
  l ← split_at ":" s; r ← split_at "." l.2; Some (l.1, r.1, r.2).

Lemma split_at_app c a r : c ∉ a -> split_at c (a ++ c :: r) = Some (a, r).
Proof.
  intros H. unfold split_at. rewrite (find_char_app _ _ _ H). cbn. rewrite take_app_length.
  rewrite drop_app_ge, Nat.sub_succ_l, Nat.sub_diag by lia. done.
Qed.

Definition session_fits (s : text) : Prop := is_session_id s = true \/ plain_name s.
Definition window_fits (s w : text) : Prop := is_window_id w = true \/ session_fits s /\ plain_name w.

Lemma session_target_Value s t : session_target s = Value t <-> t = s /\ session_fits s.
Proof.
  unfold session_target, session_fits. destruct (is_session_id s).
  - split; [intros [= <-]; auto | by intros [-> _]].
  - rewrite path_component_Value. split; intros [? ?]; [by auto|]. by destruct H0.
Qed.

Lemma window_target_Value s w t :
  window_target s w = Value t <->
  t = (if is_window_id w then w else s ++ txt ":" ++ w) /\ window_fits s w.
Proof.
  unfold window_target, window_fits. destruct (is_window_id w).
  - split; [intros [= <-]; auto | by intros [-> _]].
  - split.
    + intros (l & [-> Hs]%session_target_Value & (r & [-> Hw]%path_component_Value & [= <-])%expected_bind_value)
        %expected_bind_value. auto.
    + intros [-> [? | [Hs Hw]]]; [done|].
      assert (session_target s = Value s) as -> by by apply session_target_Value.
      assert (path_component w = Value w) as E by by apply path_component_Value. cbn. by rewrite E.
Qed.

(** A pane target is built exactly from an id or from names that hold no separator,
    and a path built from names reads back as those names. *)
Theorem pane_target_reads_back s w p :
  (forall t, pane_target s w p = Value t <->
    t = (if is_pane_id p then p
         else (if is_window_id w then w else s ++ txt ":" ++ w) ++ txt "." ++ p) /\
    (is_pane_id p = true \/ window_fits s w /\ plain_name p)) /\
  (plain_name s -> plain_name w -> plain_name p ->
   split_path (s ++ txt ":" ++ w ++ txt "." ++ p) = Some (s, w, p)).
Proof.
  split.
  - intros t. unfold pane_target. destruct (is_pane_id p).
    + split; [intros [= <-]; auto | by intros [-> _]].
    + split.
      * intros (l & [-> Hw]%window_target_Value & (r & [-> Hp]%path_component_Value & [= <-])%expected_bind_value)
          %expected_bind_value. auto.
      * intros [-> [? | [Hw Hp]]]; [done|].
        assert (window_target s w = Value (if is_window_id w then w else s ++ txt ":" ++ w)) as ->
          by by apply window_target_Value.
        assert (path_component p = Value p) as E by by apply path_component_Value. cbn. by rewrite E.
  - intros (_ & Hs & _) (_ & Hw & Hw') (_ & _ & _). unfold split_path.
    change (txt ":") with [":"%char]. change (txt ".") with ["."%char]. cbn.
    rewrite split_at_app by done. cbn. by rewrite split_at_app.
Qed.

(** * Key names *)

(** What [is_key_name] accepts: a printable byte, a function key or a named key, with any
    number of modifiers in front. *)
Inductive KeyName : text -> Prop :=
  | key_char c : (32 <= byte_of c)%N -> KeyName [c]
  | key_function name : is_function_key name = true -> KeyName name
  | key_named name : name ∈ kNamedKeys -> KeyName name
  | key_modified m key : modifier m = true -> KeyName key -> KeyName (m :: "-"%char :: key).

(** A key no modifier can be removed from. *)
Definition bare (key : text) : Prop := strip_modifiers key = key.

Lemma strip_eq m d x tail :
  strip_modifiers (m :: d :: x :: tail) =
  if bool_decide (d = "-"%char) && modifier m then strip_modifiers (x :: tail) else m :: d :: x :: tail.
Proof. done. Qed.

Lemma strip_bare key : bare (strip_modifiers key).
Proof.
  unfold bare. induction key as [key IH] using text_length_ind.
  destruct key as [|m [|d [|x tail]]]; try done. rewrite !strip_eq.
  destruct (_ && _) eqn:E; [apply IH; cbn; lia|]. by rewrite strip_eq, E.
Qed.

Lemma named_bare name : name ∈ kNamedKeys -> strip_modifiers name = name /\ 2 <= length name.
Proof.
  intros H. assert (forallb (fun n => bool_decide (strip_modifiers n = n) && (2 <=? length n)%nat) kNamedKeys = true)
    as Hall by (vm_compute; reflexivity).
  rewrite List.forallb_forall in Hall. apply list_elem_of_In, Hall in H. by to_props.
Qed.

Lemma function_bare name : is_function_key name = true -> strip_modifiers name = name /\ 2 <= length name.
Proof.
  unfold is_function_key. destruct name as [|c ds]; [done|].
  destruct (_ || _) eqn:E1; [done|]. to_props. destruct (_ || _) eqn:E2; [done|]. to_props. subst.
  intros _. split; [|by destruct ds; cbn in *; lia || done]. destruct ds as [|d [|x tail]]; try done.
  rewrite strip_eq. change (modifier "F") with false. by rewrite andb_false_r.
Qed.

Lemma function_number_spec ds acc :
  function_number ds acc = if forallb is_digit ds then Some (digits_value acc ds) else None.
Proof.
  revert acc. induction ds as [|d ds IH]; intros acc; [done|]. cbn. destruct (is_digit d); [|done].
  cbn. apply IH.
Qed.

(** Exactly the names built from the table, the function keys and single printable
    bytes by adding modifiers are accepted; a function key is F, then one or two digits
    whose number is from 1 to 12. *)
Theorem is_key_name_iff key :
  (is_key_name key = true <-> KeyName key) /\
  (is_function_key key = true <->
   exists ds, key = "F"%char :: ds /\ (length ds = 1 \/ length ds = 2) /\
     forallb is_digit ds = true /\ (1 <= digits_value 0 ds <= 12)%N).
Proof.
  split; [split|].
  - intros H. induction key as [key IH] using text_length_ind. revert H. unfold is_key_name.
    destruct (decide (strip_modifiers key = key)) as [E|E].
    + rewrite E. destruct key as [|c [|d key]]; [done | |].
      * intros H. to_props. by constructor.
      * rewrite orb_true_iff, existsb_exists. intros [H | (n & Hn & H)]; [by apply key_function|].
        to_props. subst. apply key_named. by apply list_elem_of_In.
    + destruct key as [|m [|d [|x tail]]]; try done. rewrite strip_eq in E |- *.
      destruct (_ && _) eqn:Em; [|done]. to_props. subst. intros H. apply key_modified; [done|].
      apply IH; [cbn; lia | done].
  - induction 1 as [c Hc | name Hf | name Hn | m key Hm Hk IH].
    + cbn. by apply N.leb_le.
    + unfold is_key_name. destruct (function_bare name Hf) as [E Hl]. rewrite E.
      destruct name as [|c [|d name]]; cbn in Hl; try lia. by rewrite Hf.
    + unfold is_key_name. destruct (named_bare name Hn) as [E Hl]. rewrite E.
      destruct name as [|c [|d name]]; cbn in Hl; try lia. apply orb_true_iff. right.
      apply existsb_exists. eexists. split; [by apply list_elem_of_In|]. by apply bool_decide_eq_true.
    + destruct key as [|x tail]; [done|]. unfold is_key_name in *. rewrite strip_eq, Hm.
      rewrite bool_decide_true by done. done.
  - unfold is_function_key. destruct key as [|c ds]; [split; [done | by intros (? & ? & _)]|].
    rewrite function_number_spec. split.
    + destruct (_ || _) eqn:E1; [done|]. to_props. subst. destruct (_ || _) eqn:E2; [done|]. to_props.
      destruct (forallb is_digit ds) eqn:Ed; [|done]. intros Hv. to_props. exists ds.
      cbn in *. split_and!; [done | destruct ds as [|? [|? [|? ?]]]; cbn in *; try done; lia || auto | done | lia | lia].
    + intros (ds' & [= -> ->] & Hl & Hd & H1 & H2). rewrite Hd.
      rewrite (bool_decide_true ("F"%char = "F"%char)), (bool_decide_false (ds' = [])) by (done || by intros ->; cbn in Hl; lia).
      assert ((length ("F"%char :: ds') <? 2)%nat = false /\ (2 <? length ds')%nat = false) as [-> ->].
      { rewrite !Nat.ltb_ge. cbn. lia. }
      cbn [negb orb]. rewrite andb_true_iff, !N.leb_le. done.
Qed.

(** * Formats read back *)

(** What a format says, read from the left: a character, or a variable's expansion. *)
Inductive Token := Char (c : ascii) | Expansion (name : text).

Fixpoint read_format (field : option text) (s : text) : option (list Token) :=
  match s with
  | [] => match field with None => Some [] | Some _ => None end
  | c :: rest =>
      match field with
      | Some name =>
          if bool_decide (c = "}"%char) then cons (Expansion (rev name)) <$> read_format None rest
          else read_format (Some (c :: name)) rest
      | None =>
          if bool_decide (c = hash) then
            match rest with
            | d :: rest =>
                if bool_decide (d = hash) then cons (Char hash) <$> read_format None rest
                else if bool_decide (d = "{"%char) then read_format (Some []) rest
                else None
            | [] => None
            end
          else cons (Char c) <$> read_format None rest
      end
  end.

Definition step_tokens (step : FormatStep) : list Token :=
  match step with Literal s => map Char s | Field name => [Expansion name] end.

Lemma read_literal s rest :
  read_format None (escape_literal s ++ rest) = app (map Char s) <$> read_format None rest.
Proof.
  induction s as [|c s IH]; cbn [escape_literal flat_map map app].
  { by destruct (read_format None rest). }
  fold (escape_literal s). case_bool_decide as Hc.
  - subst. cbn. rewrite IH. by destruct (read_format None rest).
  - cbn. rewrite bool_decide_false by done. rewrite IH. by destruct (read_format None rest).
Qed.

Lemma read_field acc name rest :
  "}"%char ∉ name ->
  read_format (Some acc) (name ++ "}"%char :: rest) =
  cons (Expansion (rev acc ++ name)) <$> read_format None rest.
Proof.
  revert acc. induction name as [|c name IH]; intros acc Hn; cbn.
  - by rewrite app_nil_r.
  - apply not_elem_of_cons in Hn as [Hc Hn]. rewrite bool_decide_false by congruence.
    rewrite IH by done. cbn. by rewrite <-app_assoc.
Qed.

(** The tokens of literal text and variables side by side do not run into each other. *)
Lemma read_steps steps :
  Forall (fun st => match st with Field name => "}"%char ∉ name | _ => True end) steps ->
  read_format None (flat_map (fun st => format_step [] st) steps) = Some (flat_map step_tokens steps).
Proof.
  induction 1 as [|st steps Hst Hsts IH]; [done|]. cbn [flat_map]. destruct st as [s|name]; cbn [format_step step_tokens].
  - rewrite app_nil_l, read_literal, IH. done.
  - unfold variable. change (txt "#{") with ["#"%char; "{"%char]. change (txt "}") with ["}"%char].
    cbn [app]. rewrite <-app_assoc. cbn [app]. cbn [read_format].
    change (bool_decide ("#"%char = hash)) with true. change (bool_decide ("{"%char = hash)) with false.
    change (bool_decide ("{"%char = "{"%char)) with true. cbn iota. rewrite read_field by done. by rewrite IH.
Qed.

Lemma build_format_flat steps : build_format steps = flat_map (fun st => format_step [] st) steps.
Proof.
  unfold build_format. enough (forall acc, foldl format_step acc steps =
    acc ++ flat_map (fun st => format_step [] st) steps) as H by apply (H []).
  induction steps as [|st steps IH]; intros acc; cbn; [by rewrite app_nil_r|].
  rewrite IH, app_assoc. f_equal. by destruct st.
Qed.

(** A built format reads back as the literal characters and the variables it was built
    from, whatever the text: no literal starts an expansion, and none joins the one
    that follows it. *)
Theorem format_reads_back steps :
  Forall (fun st => match st with Field name => "}"%char ∉ name | _ => True end) steps ->
  read_format None (build_format steps) = Some (flat_map step_tokens steps).
Proof. rewrite build_format_flat. apply read_steps. Qed.

(** * Chains *)

(** What a step comes to by itself: its command, or why it is not valid. *)
Definition step_command (step : ChainStep) : expected text CommandRequest :=
  let c := chain_step step new_chain in
  match batch c with command :: _ => Value command | [] => Unexpected (error c) end.

Fixpoint chain_spec (steps : list ChainStep) : CommandBatch * text :=
  match steps with
  | [] => ([], [])
  | step :: rest =>
      match step_command step with
      | Unexpected reason => ([], reason)
      | Value command => let '(commands, reason) := chain_spec rest in (command :: commands, reason)
      end
  end.

Lemma chain_failed steps c : error c <> [] -> foldl (fun c s => chain_step s c) c steps = c.
Proof.
  intros H. assert (forall cmd, chain_add cmd c = c) as Ha.
  { intros cmd. unfold chain_add. by destruct (error c). }
  assert (forall r, chain_fail r c = c) as Hf.
  { intros r. unfold chain_fail. by destruct (error c). }
  induction steps as [|st steps IH]; [done|]. cbn.
  assert (chain_step st c = c) as ->; [|done].
  destruct st; cbn; repeat case_match; auto.
Qed.

(** The ways a step can go: one of its checks fails, or a command is added. *)
Ltac chain_cases step :=
  destruct step; cbn [chain_step];
  repeat match goal with
    | |- context [session_target ?n] => destruct (session_target n)
    | |- context [window_target ?n ?w] => destruct (window_target n w)
    | |- context [path_component ?n] => destruct (path_component n)
    | |- context [literal_arguments ?n] => destruct (literal_arguments n)
    | |- context [negb (is_key_name ?n)] => destruct (negb (is_key_name n))
    end.

Lemma chain_step_spec step c :
  error c = [] ->
  chain_step step c =
  match step_command step with
  | Value command => MkChain (batch c ++ [command]) []
  | Unexpected reason => MkChain (batch c) reason
  end.
Proof.
  destruct c as [b e]. cbn [error batch]. intros ->.
  set (P := fun f : Chain -> Chain => f (MkChain b []) =
    match match batch (f new_chain) with command :: _ => Value command | [] => Unexpected (error (f new_chain)) end with
    | Value command => MkChain (b ++ [command]) []
    | Unexpected reason => MkChain b reason
    end).
  assert (forall cmd, P (chain_add cmd)) as Ha by by intros [|w cmd].
  assert (forall r, P (chain_fail r)) as Hf by done.
  unfold step_command. chain_cases step; first [exact (Ha _) | exact (Hf _)].
Qed.

Lemma add_reason cmd : batch (chain_add cmd new_chain) = [] -> error (chain_add cmd new_chain) <> [].
Proof. by destruct cmd. Qed.

Lemma fail_reason r : r <> [] -> batch (chain_fail r new_chain) = [] -> error (chain_fail r new_chain) <> [].
Proof. done. Qed.

Lemma step_reason step reason : step_command step = Unexpected reason -> reason <> [].
Proof.
  unfold step_command. destruct (batch _) eqn:E; [|done]. intros [= <-]. revert E.
  chain_cases step; first [apply add_reason | apply fail_reason; intros Hr; discriminate Hr].
Qed.

(** A chain holds the commands of its steps up to the first that is not valid and the
    reason of that one; it is valid exactly when every step is. *)
Theorem chain_refines steps :
  chain_of steps = MkChain (chain_spec steps).1 (chain_spec steps).2 /\
  (chain_valid (chain_of steps) = true <-> Forall (fun s => is_Some (match step_command s with Value c => Some c | _ => None end)) steps).
Proof.
  assert (forall b, foldl (fun c s => chain_step s c) (MkChain b []) steps =
    MkChain (b ++ (chain_spec steps).1) (chain_spec steps).2) as H.
  { induction steps as [|st steps IH]; intros b; cbn [foldl chain_spec]; [by rewrite app_nil_r|].
    rewrite chain_step_spec by done. destruct (step_command st) as [command|reason] eqn:E.
    - rewrite IH. destruct (chain_spec steps). cbn. by rewrite <-app_assoc.
    - rewrite chain_failed by by eapply step_reason. cbn. by rewrite app_nil_r. }
  unfold chain_of, new_chain. rewrite H. split; [done|]. unfold chain_valid. cbn.
  rewrite bool_decide_eq_true. clear H. induction steps as [|st steps IH]; [by split|]. cbn.
  rewrite Forall_cons. destruct (step_command st) as [command|reason] eqn:E.
  - destruct (chain_spec steps). cbn in *. rewrite IH. split; [by split; [eexists|] | by intros [_ ?]].
  - cbn. split; [intros ->; by apply step_reason in E | by intros [[? [=]] _]].
Qed.

(** * Witnesses *)

Lemma format_reads_back_witness :
  read_format None (build_format [Literal (txt "#1 ##"); Field (txt "window_name"); Literal (txt "{x}")]) =
  Some (flat_map step_tokens [Literal (txt "#1 ##"); Field (txt "window_name"); Literal (txt "{x}")]).
Proof.
  apply format_reads_back. repeat (apply Forall_cons_2 || apply Forall_nil_2); try exact I.
  apply (bool_decide_eq_false_1 ("}"%char ∈ txt "window_name")). vm_compute. reflexivity.
Defined.

(** tmux has no key of this name, which is spelt with a leading zero. *)
Example padded_function_key : is_key_name (txt "F01") = true.
Proof. reflexivity. Qed.
