(* ===== verification/Options.v ===== *)
(** Options and captures: [include/libtmux/options.hpp], [include/libtmux/capture.hpp].

    Both read what tmux prints: [show-options] lines, whose values are quoted and
    escaped, and captured panes, which are lines with terminators.

    The theorems: unquoting undoes every way of writing a value that the four forms
    allow; a printed option line reads back, and a listing is read line by line; an
    array index is exact below two to the sixty-four and wraps above; capture lines
    invert the terminating of lines; what confirms output, and how masking typed text
    can bring together a word that was never on the screen. *)

From S2P Require Import Prelude.

(** * Options *)

Definition char_of (n : N) : ascii := ascii_of_N n.
Definition quote_single : ascii := char_of 39.
Definition quote_double : ascii := char_of 34.
Definition backslash : ascii := char_of 92.
Definition newline : ascii := char_of 10.
Definition space : ascii := char_of 32.

Record OptionEntry := MkOption {
  option_name : text;
  index : option N;
  option_value : text;
  inherited : bool;
}.

Definition is_octal (c : ascii) : bool := ((48 <=? byte_of c) && (byte_of c <=? 55))%N.

(** The octal loop: at most [budget] further digits. *)
Fixpoint octal (budget : nat) (byte : N) (s : text) : N * text :=
  match budget, s with
  | S budget, c :: rest =>
      if is_octal c then octal budget (byte * 8 + digit_value c) rest else (byte, s)
  | _, _ => (byte, s)
  end.

Definition unescape (c : ascii) : ascii :=
  match N_of_ascii c with
  | 110 => char_of 10 | 116 => char_of 9 | 114 => char_of 13 | 97 => char_of 7
  | 98 => char_of 8 | 102 => char_of 12 | 118 => char_of 11
  | _ => c
  end%N.

(** The loop over the body, with the bytes left as fuel. *)
Fixpoint unquote_loop (fuel : nat) (s : text) : text :=
  match fuel, s with
  | S fuel, c :: rest =>
      if negb (bool_decide (c = backslash)) || bool_decide (rest = []) then c :: unquote_loop fuel rest
      else match rest with
           | escaped :: tail =>
               if is_octal escaped then
                 let '(byte, tail) := octal 3 0 rest in
                 char_of (N.land byte 255) :: unquote_loop fuel tail
               else unescape escaped :: unquote_loop fuel tail
           | [] => []
           end
  | _, _ => []
  end.

Definition strip_quotes (value : text) : text :=
  match value, last value with
  | a :: _ :: _, Some z =>
      if (bool_decide (a = quote_double) && bool_decide (z = quote_double)) ||
         (bool_decide (a = quote_single) && bool_decide (z = quote_single))
      then take (length value - 2) (drop 1 value) else value
  | _, _ => value
  end.

Definition unquote (value : text) : text :=
  if bool_decide (value = [quote_single; quote_single]) then []
  else let body := strip_quotes value in unquote_loop (length body) body.

(** ** One line *)

(** [s.rfind(c)]. *)
Fixpoint rfind (c : ascii) (s : text) : option nat :=
  match s with
  | [] => None
  | d :: rest =>
      match rfind c rest with
      | Some i => Some (S i)
      | None => if bool_decide (d = c) then Some 0 else None
      end
  end.

(** The index is a 64-bit number and wraps. *)
Fixpoint index_loop (digits : text) (index : N) : option N :=
  match digits with
  | [] => Some index
  | d :: rest =>
      if is_digit d then index_loop rest ((index * 10 + digit_value d) mod (u64_max + 1)) else None
  end.

Definition parse_index (key : text) : text * option N :=
  if ends_with_char "]" key then
    match rfind "[" key with
    | Some open =>
        let digits := take (length key - open - 2) (drop (S open) key) in
        if bool_decide (digits = []) then (key, None)
        else match index_loop digits 0 with
             | Some i => (take open key, Some i)
             | None => (key, None)
             end
    | None => (key, None)
    end
  else (key, None).

Definition parse_option (line : text) : option OptionEntry :=
  match line with
  | [] => None
  | _ =>
      let at_space := find_char space line in
      let key := prefix_to at_space line in
      let value := match at_space with Some i => drop (S i) line | None => [] end in
      let inherited := ends_with_char "*" key in
      let key := if inherited then removelast key else key in
      let '(name, index) := parse_index key in
      Some (MkOption name index (unquote value) inherited)
  end.

(** The loop over lines; [fuel] bounds the lines, of which there are at most one more
    than bytes. *)
Fixpoint parse_options_loop (fuel : nat) (output : text) : list OptionEntry :=
  match fuel with
  | 0 => []
  | S fuel =>
      let end_ := find_char newline output in
      let line := prefix_to end_ output in
      let entries := match end_ with
                     | None => []
                     | Some i => parse_options_loop fuel (drop (S i) output)
                     end in
      match parse_option line with Some entry => entry :: entries | None => entries end
  end.

Definition parse_options (output : text) : list OptionEntry :=
  parse_options_loop (S (length output)) output.

(** * Captures *)

Fixpoint capture_loop (fuel : nat) (output : text) : list text :=
  match fuel with
  | 0 => []
  | S fuel =>
      match find_char newline output with
      | None => [output]
      | Some i =>
          let rest := drop (S i) output in
          take i output :: (if bool_decide (rest = []) then [] else capture_loop fuel rest)
      end
  end.

Definition capture_lines (output : text) : list text :=
  if bool_decide (output = []) then [] else capture_loop (length output) output.

(** The pops, from the end. *)
Fixpoint pop_blanks (reversed : list text) : list text :=
  match reversed with
  | [] :: rest => pop_blanks rest
  | _ => reversed
  end.
Definition without_trailing_blanks (lines : list text) : list text := rev (pop_blanks (rev lines)).

Definition is_word_byte (c : ascii) : bool :=
  let byte := byte_of c in
  ((97 <=? byte) && (byte <=? 122) || (65 <=? byte) && (byte <=? 90) ||
   (48 <=? byte) && (byte <=? 57) || (byte =? 95))%N.

Definition word_at (s : text) (i : nat) : bool :=
  match s !! i with Some c => is_word_byte c | None => false end.

(** The loop of [mask_whole_occurrences]: [cursor] is the end of the last occurrence taken
    out, [from] where the search goes on. *)
Fixpoint mask_loop (fuel : nat) (s echo : text) (cursor from : nat) : text :=
  match fuel with
  | 0 => drop cursor s
  | S fuel =>
      match find_from echo s from with
      | None => drop cursor s
      | Some at_ =>
          let end_ := at_ + length echo in
          let opens := (at_ =? 0)%nat || negb (word_at s (at_ - 1)) || negb (word_at echo 0) in
          let closes := (end_ =? length s)%nat || negb (word_at s end_) ||
                        negb (word_at echo (length echo - 1)) in
          if opens && closes then take (at_ - cursor) (drop cursor s) ++ mask_loop fuel s echo end_ end_
          else mask_loop fuel s echo cursor (S at_)
      end
  end.

Definition mask_whole_occurrences (s echo : text) : text :=
  if bool_decide (echo = []) || bool_decide (s = []) then s else mask_loop (S (length s)) s echo 0 0.

Definition found (part s : text) : bool :=
  match find_sub part s with Some _ => true | None => false end.

Fixpoint drop_newlines (reversed : text) : text :=
  match reversed with
  | c :: rest => if bool_decide (c = newline) then drop_newlines rest else reversed
  | [] => []
  end.

(** The rows above the last and the last, trailing newlines aside. *)
Definition active_row (captured : text) : text * text :=
  let settled := rev (drop_newlines (rev captured)) in
  match rfind newline settled with
  | Some i => (take i settled, drop (S i) settled)
  | None => ([], settled)
  end.

Definition output_confirms (captured wanted : text) (sent : list text) : bool :=
  if bool_decide (wanted = []) then false
  else
    let '(above, active) := active_row captured in
    if found wanted active && negb (found wanted above) then false
    else found wanted (foldl mask_whole_occurrences captured sent).

(** * Unquoting *)

Definition octal_value (ds : text) : N := foldl (fun a d => a * 8 + digit_value d)%N 0%N ds.

Definition starts_octal (s : text) : bool := match s with c :: _ => is_octal c | [] => false end.

(** The ways a value may be written inside quotes or without any: a byte as itself, after
    a backslash, or as up to three octal digits, two or one only where no digit follows. *)
Inductive Written : text -> text -> Prop :=
  | written_nil : Written [] []
  | written_plain c w v : c <> backslash -> Written w v -> Written (c :: w) (c :: v)
  | written_escape c w v :
      is_octal c = false -> Written w v -> Written (backslash :: c :: w) (unescape c :: v)
  | written_octal ds w v :
      forallb is_octal ds = true -> 1 <= length ds <= 3 ->
      (length ds = 3 \/ starts_octal w = false) -> Written w v ->
      Written (backslash :: ds ++ w) (char_of (N.land (octal_value ds) 255) :: v).

Lemma octal_spec ds w budget byte :
  forallb is_octal ds = true -> length ds <= budget -> (length ds = budget \/ starts_octal w = false) ->
  octal budget byte (ds ++ w) = (foldl (fun a d => a * 8 + digit_value d)%N byte ds, w).
Proof.
  revert budget byte. induction ds as [|d ds IH]; intros budget byte Hd Hl Hw; cbn in *.
  - destruct Hw as [<- | Hw]; [done|]. destruct budget, w as [|c w]; try done. cbn in *. by rewrite Hw.
  - to_props. destruct budget as [|budget]; [lia|]. cbn. rewrite H. apply IH; [done | lia |].
    destruct Hw as [[= ?] | ?]; auto.
Qed.

Lemma unquote_loop_written w v : Written w v -> forall fuel, length w <= fuel -> unquote_loop fuel w = v.
Proof.
  induction 1 as [|c w v Hc _ IH | c w v Hc _ IH | ds w v Hd Hl Hw _ IH]; intros fuel Hf.
  - by destruct fuel.
  - destruct fuel as [|fuel]; cbn in *; [lia|]. rewrite bool_decide_false by done. cbn.
    rewrite IH by lia. done.
  - destruct fuel as [|fuel]; cbn in *; [lia|]. rewrite Hc. cbn. rewrite IH by lia. done.
  - cbn [length app] in Hf. rewrite length_app in Hf. destruct fuel as [|fuel]; [lia|].
    destruct ds as [|d ds]; [cbn in *; lia|]. cbn [app unquote_loop].
    change (bool_decide (backslash = backslash)) with true.
    rewrite (bool_decide_false (d :: ds ++ w = [])) by done. cbn [negb orb].
    pose proof Hd as Hd'. cbn [forallb] in Hd'. apply andb_true_iff in Hd' as [-> _].
    rewrite app_comm_cons, octal_spec by (done || lia || by destruct Hw; [left; lia | right]).
    cbn [length] in *. rewrite IH by lia. done.
Qed.

Lemma strip_quotes_quoted q w : q = quote_double \/ q = quote_single -> strip_quotes (q :: w ++ [q]) = w.
Proof.
  intros Hq. assert (last (q :: w ++ [q]) = Some q) as Hlast by (rewrite app_comm_cons; apply last_snoc).
  unfold strip_quotes. destruct (w ++ [q]) as [|x r] eqn:E; [by destruct w|].
  rewrite Hlast, <-E. clear Hlast.
  assert ((bool_decide (q = quote_double) && bool_decide (q = quote_double)
   || bool_decide (q = quote_single) && bool_decide (q = quote_single)) = true) as ->.
  { destruct Hq as [-> | ->]; done. }
  change (drop 1 (q :: w ++ [q])) with (w ++ [q]). cbn [length]. rewrite length_app. cbn [length].
  replace (S (length w + 1) - 2) with (length w) by lia. by rewrite take_app_length.
Qed.

(** Reading undoes writing: whatever of the ways a value was written in, inside double
    quotes, inside single quotes, or bare where the text does not itself look quoted,
    the value read is the value that was written. *)
Theorem unquote_reads_back w v :
  Written w v ->
  unquote (quote_double :: w ++ [quote_double]) = v /\
  unquote (quote_single :: w ++ [quote_single]) = v /\
  (strip_quotes w = w -> unquote w = v).
Proof.
  intros H. pose proof (unquote_loop_written w v H (length w) (le_n _)) as Hl.
  unfold unquote. split_and!.
  - rewrite bool_decide_false by done. by rewrite strip_quotes_quoted by auto.
  - rewrite strip_quotes_quoted by auto. case_bool_decide as E; [|done].
    destruct w as [|c w]; [by inversion H|]. exfalso. cbn in E. by destruct w.
  - intros Hw. rewrite Hw. case_bool_decide as E; [|done]. subst. done.
Qed.

(** * Option lines *)

Lemma index_loop_spec ds acc :
  (acc <= u64_max)%N ->
  index_loop ds acc = if forallb is_digit ds then Some (digits_value acc ds mod (u64_max + 1))%N else None.
Proof.
  revert acc. assert (forall ds a b, (a mod (u64_max + 1) = b mod (u64_max + 1))%N ->
    (digits_value a ds mod (u64_max + 1) = digits_value b ds mod (u64_max + 1))%N) as Hcong.
  { intros l. induction l as [|d l IH]; intros a b H; [done|]. unfold digits_value in *. cbn. apply IH.
    rewrite (N.Div0.add_mod (a * 10)), (N.Div0.add_mod (b * 10)), (N.Div0.mul_mod a), (N.Div0.mul_mod b), H. done. }
  induction ds as [|d ds IH]; intros acc Hacc.
  - cbn [index_loop forallb]. unfold digits_value. cbn [foldl]. by rewrite N.mod_small by lia.
  - cbn [index_loop forallb]. destruct (is_digit d); [|done]. cbn [andb]. rewrite IH.
    + destruct (forallb is_digit ds); [|done]. f_equal.
      unfold digits_value at 2. cbn [foldl]. apply (Hcong ds). by rewrite N.Div0.mod_mod.
    + pose proof (N.mod_lt (acc * 10 + digit_value d) (u64_max + 1) ltac:(done)). lia.
Qed.

Lemma rfind_last c a b : c ∉ b -> rfind c (a ++ c :: b) = Some (length a).
Proof.
  intros Hb. induction a as [|d a IH]; cbn.
  - assert (rfind c b = None) as ->; [|by rewrite bool_decide_true].
    induction b as [|e b IH]; [done|]. apply not_elem_of_cons in Hb as [Hc Hb]. cbn.
    rewrite IH by done. by rewrite bool_decide_false by congruence.
  - by rewrite IH.
Qed.

Definition index_text (i : option N) : text :=
  match i with Some i => "["%char :: dec i ++ ["]"%char] | None => [] end.

Lemma digit_not_bracket s : forallb is_digit s = true -> "["%char ∉ s /\ "]"%char ∉ s /\ space ∉ s.
Proof.
  intros H. rewrite List.forallb_forall in H.
  split_and!; intros Hin%list_elem_of_In%H; discriminate.
Qed.

Lemma parse_index_spec name i :
  ends_with_char "]" name = false -> (from_option (fun i => i <= u64_max)%N True i) ->
  parse_index (name ++ index_text i) = (name, i).
Proof.
  intros Hn Hi. unfold parse_index. destruct i as [i|]; cbn [index_text]; [|by rewrite app_nil_r, Hn].
  rewrite app_comm_cons, app_assoc, ends_with_char_snoc. change (bool_decide ("]"%char = "]"%char)) with true.
  cbn iota. destruct (dec_spec i) as (Hne & Hd & Hv). destruct (digit_not_bracket _ Hd) as (H1 & H2 & _).
  rewrite <-!app_assoc. cbn [app].
  rewrite rfind_last by (rewrite elem_of_app, list_elem_of_singleton; by intros [? | [=]]).
  cbv zeta. rewrite drop_app_ge, Nat.sub_succ_l, Nat.sub_diag by lia. cbn [drop].
  rewrite !length_app. cbn [length]. rewrite length_app. cbn [length].
  replace (length name + S (length (dec i) + 1) - length name - 2) with (length (dec i)) by lia.
  rewrite drop_0, !take_app_length, bool_decide_false by done. rewrite index_loop_spec by (unfold u64_max; lia).
  rewrite Hd, Hv. cbn in Hi. by rewrite N.mod_small by lia.
Qed.

Definition option_line (name : text) (i : option N) (marked : bool) (written : option text) : text :=
  name ++ index_text i ++ (if marked then ["*"%char] else []) ++
  match written with Some w => space :: w | None => [] end.

(** A printed option reads back: its name, its array index, whether it is inherited and
    its unquoted value, for a name that holds no space and does not end like a marker
    or an index; an option printed without a value has the empty one. *)
Theorem parse_option_reads_back name i marked written :
  name <> [] -> space ∉ name -> ends_with_char "]" name = false -> ends_with_char "*" name = false ->
  (from_option (fun i => i <= u64_max)%N True i) ->
  parse_option (option_line name i marked written) =
  Some (MkOption name i (match written with Some w => unquote w | None => [] end) marked).
Proof.
  intros Hne Hsp Hb Hs Hi. unfold option_line.
  set (key := name ++ index_text i). set (star := if marked then ["*"%char] else []).
  rewrite !app_assoc. fold key. set (value := match written with Some w => space :: w | None => [] end).
  assert (space ∉ key ++ star) as Hk.
  { unfold key, star. rewrite !elem_of_app. intros [[?|Hin]|Hin]; [done | |].
    - destruct i as [i|]; [|by apply elem_of_nil in Hin]. cbn in Hin.
      apply elem_of_cons in Hin as [[=]|Hin]. apply elem_of_app in Hin as [Hin|[=]%list_elem_of_singleton].
      by apply (digit_not_bracket (dec i)); [apply dec_spec|].
    - destruct marked; [by apply list_elem_of_singleton in Hin as [=] | by apply elem_of_nil in Hin]. }
  assert (prefix_to (find_char space ((key ++ star) ++ value)) ((key ++ star) ++ value) = key ++ star /\
    match find_char space ((key ++ star) ++ value) with
    | Some j => drop (S j) ((key ++ star) ++ value) | None => [] end =
    match written with Some w => w | None => [] end) as [H1 H2].
  { unfold value. destruct written as [w|].
    - rewrite find_char_app by done. cbn [prefix_to]. rewrite take_app_length.
      by rewrite drop_app_ge, Nat.sub_succ_l, Nat.sub_diag by lia.
    - rewrite app_nil_r. by rewrite (proj2 (find_char_None _ _) Hk). }
  unfold parse_option. destruct ((key ++ star) ++ value) as [|c l] eqn:E.
  { exfalso. unfold key in E. destruct name; [done|]. by cbn in E. }
  cbv zeta. rewrite H1, H2. clear H1 H2 E.
  assert (ends_with_char "*" (key ++ star) = marked /\ (if marked then removelast (key ++ star) else key ++ star) = key)
    as [-> ->].
  { unfold star. destruct marked.
    - rewrite ends_with_char_snoc, removelast_last. done.
    - rewrite app_nil_r. split; [|done]. unfold key. destruct i as [i|]; cbn [index_text]; [|by rewrite app_nil_r].
      by rewrite app_comm_cons, app_assoc, ends_with_char_snoc. }
  unfold key. rewrite parse_index_spec by done. by destruct written.
Qed.

Lemma rfind_Some c s i : rfind c s = Some i -> exists a b, s = a ++ c :: b /\ length a = i.
Proof.
  revert i. induction s as [|d s IH]; intros i; cbn; [done|]. destruct (rfind c s) as [j|].
  - intros [= <-]. destruct (IH j eq_refl) as (a & b & -> & <-). by exists (d :: a), b.
  - case_bool_decide; [|done]. intros [= <-]. subst. by exists [], s.
Qed.

(** An array index is the number its digits say modulo two to the sixty-four. *)
Theorem parse_index_bounds key name i :
  parse_index key = (name, Some i) ->
  exists ds, key = name ++ "["%char :: ds ++ ["]"%char] /\ ds <> [] /\ forallb is_digit ds = true /\
    i = (digits_value 0 ds mod (u64_max + 1))%N /\ (i <= u64_max)%N.
Proof.
  unfold parse_index. destruct (ends_with_char "]" key) eqn:He; [|done].
  destruct (rfind "[" key) as [open|] eqn:Ho; [|done]. cbv zeta. case_bool_decide as Hd; [done|].
  destruct (index_loop _ _) as [j|] eqn:Hi; [|done]. intros [= <- <-].
  apply rfind_Some in Ho as (a & b & -> & <-). rewrite take_app_length.
  assert (drop (S (length a)) (a ++ "["%char :: b) = b) as Eb.
  { rewrite drop_app_ge, Nat.sub_succ_l, Nat.sub_diag by lia. apply drop_0. }
  rewrite Eb in *. destruct b as [|z ds _] using rev_ind.
  { rewrite ends_with_char_snoc in He. by to_props. }
  rewrite app_comm_cons, app_assoc, ends_with_char_snoc in He. to_props. subst z.
  rewrite !length_app in *. cbn [length] in *. rewrite length_app in *. cbn [length] in *.
  replace (length a + S (length ds + 1) - length a - 2) with (length ds) in * by lia.
  rewrite take_app_length in *. exists ds. rewrite index_loop_spec in Hi by (unfold u64_max; lia).
  destruct (forallb is_digit ds) eqn:Hds; [|done]. injection Hi as <-.
  pose proof (N.mod_lt (digits_value 0 ds) (u64_max + 1) ltac:(done)).
  split_and!; [done | done | done | done | lia].
Qed.

Definition terminated (lines : list text) : text := concat (map (fun l => l ++ [newline]) lines).

Lemma first_line l rest :
  newline ∉ l ->
  prefix_to (find_char newline (l ++ newline :: rest)) (l ++ newline :: rest) = l /\
  find_char newline (l ++ newline :: rest) = Some (length l) /\
  drop (S (length l)) (l ++ newline :: rest) = rest.
Proof.
  intros H. rewrite find_char_app by done. cbn [prefix_to]. rewrite take_app_length.
  rewrite drop_app_ge, Nat.sub_succ_l, Nat.sub_diag by lia. done.
Qed.

(** A listing is read line by line: every line but the blank ones is an entry, in
    order, whether or not the last is terminated. *)
Theorem parse_options_lines lines tail :
  Forall (fun l => newline ∉ l) lines -> newline ∉ tail ->
  parse_options (terminated lines ++ tail) = omap parse_option (lines ++ [tail]).
Proof.
  intros Hls Ht. unfold parse_options.
  assert (forall fuel, length (terminated lines ++ tail) < fuel ->
    parse_options_loop fuel (terminated lines ++ tail) = omap parse_option (lines ++ [tail])) as H.
  { induction Hls as [|l lines Hl Hls IH]; intros fuel Hf; (destruct fuel as [|fuel]; [lia|]).
    - cbn [terminated map concat app parse_options_loop]. cbn [app].
      rewrite (proj2 (find_char_None _ _) Ht). cbn. by destruct (parse_option tail).
    - unfold terminated in *. cbn [map concat parse_options_loop] in *. cbn [app] in *.
      rewrite <-!app_assoc in *. cbn [app] in *.
      destruct (first_line l (concat (map (fun l => l ++ [newline]) lines) ++ tail) Hl) as (E1 & E2 & E3).
      rewrite E1, E2, E3, IH by (rewrite length_app in Hf; cbn [length] in Hf; lia). done. }
  apply H. lia.
Qed.

(** * Captures *)

(** Framing a capture inverts terminating its lines: no line is lost, split or added,
    blank ones included, and a last line without a terminator is a line too. *)
Theorem capture_lines_inverse lines tail :
  Forall (fun l => newline ∉ l) lines -> newline ∉ tail ->
  capture_lines (terminated lines ++ tail) = lines ++ (if bool_decide (tail = []) then [] else [tail]).
Proof.
  intros Hls Ht. unfold capture_lines. case_bool_decide as E.
  { destruct lines as [|l lines].
    - cbn in *. subst. done.
    - exfalso. unfold terminated in E. cbn in E. by destruct l. }
  assert (forall fuel, length (terminated lines ++ tail) <= fuel -> terminated lines ++ tail <> [] ->
    capture_loop fuel (terminated lines ++ tail) = lines ++ (if bool_decide (tail = []) then [] else [tail])) as H.
  { clear E. induction Hls as [|l lines Hl Hls IH]; intros fuel Hf Hne.
    - cbn in *. destruct fuel as [|fuel]; [destruct tail; [done | cbn in Hf; lia]|]. cbn.
      rewrite (proj2 (find_char_None _ _) Ht). by rewrite bool_decide_false.
    - unfold terminated in *. cbn [map concat] in *. rewrite <-!app_assoc in *. cbn [app] in *.
      destruct (first_line l (concat (map (fun l => l ++ [newline]) lines) ++ tail) Hl) as (E1 & E2 & E3).
      destruct fuel as [|fuel]; [rewrite length_app in Hf; cbn [length] in Hf; lia|].
      cbn [capture_loop]. rewrite E2, E3, take_app_length. f_equal.
      destruct (decide (concat (map (fun l => l ++ [newline]) lines) ++ tail = [])) as [Er|Er];
        [rewrite (bool_decide_true _ Er) | rewrite (bool_decide_false _ Er)].
      + apply app_nil in Er as [Er ->]. destruct lines as [|l' lines]; [done|]. by destruct l'.
      + apply IH; [|done]. rewrite length_app in Hf. cbn [length] in Hf. lia. }
  by apply H.
Qed.

(** Dropping trailing blanks drops exactly the blank rows at the end. *)
Theorem without_trailing_blanks_spec lines :
  exists k, lines = without_trailing_blanks lines ++ replicate k [] /\
    last (without_trailing_blanks lines) <> Some [].
Proof.
  unfold without_trailing_blanks.
  enough (forall r, exists k, rev r = rev (pop_blanks r) ++ replicate k [] /\
    last (rev (pop_blanks r)) <> Some []) as H.
  { destruct (H (rev lines)) as (k & E & Hl). rewrite rev_involutive in E. by exists k. }
  induction r as [|l r IH]; cbn; [by exists 0|]. destruct l as [|c l].
  - destruct IH as (k & E & H). exists (S k). split; [|done].
    rewrite E, <-app_assoc. f_equal. by rewrite replicate_S_end.
  - exists 0. split; [by rewrite app_nil_r|]. cbn. rewrite last_snoc. by intros [=].
Qed.

Fixpoint interleave (echo : text) (gaps : list text) : text :=
  match gaps with
  | [] => []
  | [g] => g
  | g :: rest => g ++ echo ++ interleave echo rest
  end.

Lemma find_from_spec part s pos i :
  find_from part s pos = Some i -> pos <= i /\ drop i s = part ++ drop (i + length part) s.
Proof.
  unfold find_from. destruct (pos <=? length s)%nat; [|done]. intros (j & Hj & ->)%fmap_Some.
  split; [lia|]. apply find_sub_Some in Hj as [(a & b & Hab & <-) _].
  rewrite <-drop_drop, Hab, drop_app_length. rewrite <-!drop_drop, Hab, drop_app_length.
  by rewrite drop_app_length.
Qed.

Lemma interleave_cons echo g gaps :
  gaps <> [] -> interleave echo (g :: gaps) = g ++ echo ++ interleave echo gaps.
Proof. by destruct gaps. Qed.

Lemma mask_loop_gaps fuel s echo cursor from :
  cursor <= from ->
  exists gaps, gaps <> [] /\ drop cursor s = interleave echo gaps /\
    mask_loop fuel s echo cursor from = concat gaps.
Proof.
  revert cursor from. induction fuel as [|fuel IH]; intros cursor from Hc; cbn [mask_loop].
  { exists [drop cursor s]. cbn. by rewrite app_nil_r. }
  destruct (find_from echo s from) as [i|] eqn:Hi.
  2: { exists [drop cursor s]. cbn. by rewrite app_nil_r. }
  apply find_from_spec in Hi as [Hle Hd]. cbv zeta. destruct (_ && _).
  - destruct (IH (i + length echo) (i + length echo) (le_n _)) as (gaps & Hne & Hg & ->).
    exists (take (i - cursor) (drop cursor s) :: gaps). split_and!; [done | | done].
    rewrite interleave_cons by done. rewrite <-Hg, <-Hd.
    rewrite <-(take_drop (i - cursor) (drop cursor s)) at 1. rewrite drop_drop. do 2 f_equal. lia.
  - apply IH. lia.
Qed.

(** Masking takes out occurrences of what was typed and nothing else: the text is the
    result with copies of the typed text put back between its pieces. *)
Theorem mask_removes_copies s echo :
  exists gaps, s = interleave echo gaps /\ mask_whole_occurrences s echo = concat gaps.
Proof.
  unfold mask_whole_occurrences. destruct (_ || _).
  - exists [s]. cbn. by rewrite app_nil_r.
  - destruct (mask_loop_gaps (S (length s)) s echo 0 0 (le_n _)) as (gaps & _ & H1 & H2).
    exists gaps. by rewrite <-H1, drop_0.
Qed.

(** Output is confirmed, when nothing was typed, exactly when the text is on the screen
    and not only on the last row. *)
Theorem output_confirms_iff captured wanted :
  output_confirms captured wanted [] = true <->
  wanted <> [] /\ found wanted captured = true /\
  (found wanted (active_row captured).2 = true -> found wanted (active_row captured).1 = true).
Proof.
  unfold output_confirms. cbn [foldl]. destruct (active_row captured) as [above active]. cbn [fst snd].
  destruct (bool_decide (wanted = [])) eqn:E; to_props; [split; [done | by intros [? _]]|].
  destruct (found wanted active), (found wanted above); cbn; split; intros H;
    try (by split_and!); try (by destruct H as (_ & ? & ?)); try done.
  destruct H as (_ & _ & H). by specialize (H eq_refl).
Qed.

(** Masking joins what surrounded the typed text, so output can be confirmed that is
    nowhere on the screen. *)
Theorem masking_invents :
  let captured := txt "re$(x)ady" ++ [newline] ++ txt "$ " in
  found (txt "ready") captured = false /\
  output_confirms captured (txt "ready") [txt "$(x)"] = true.
Proof. split; vm_compute; reflexivity. Qed.

(** * Witnesses *)

Theorem unquote_reads_back_witness :
  Written (txt "a" ++ backslash :: txt "0413" ++ backslash :: txt "t") (txt "a!3" ++ [char_of 9]) /\
  unquote (quote_double :: (txt "a" ++ backslash :: txt "0413" ++ backslash :: txt "t") ++ [quote_double]) =
    txt "a!3" ++ [char_of 9].
Proof.
  assert (Written (txt "a" ++ backslash :: txt "0413" ++ backslash :: txt "t") (txt "a!3" ++ [char_of 9])) as H.
  { apply (written_plain "a"); [done|]. apply (written_octal (txt "041") (txt "3" ++ backslash :: txt "t"));
      [done | vm_compute; lia | by left |].
    apply (written_plain "3"); [done|]. apply (written_escape "t"); [done|]. apply written_nil. }
  split; [exact H | exact (proj1 (unquote_reads_back _ _ H))].
Defined.

Theorem parse_option_reads_back_witness :
  parse_option (txt "update-environment[12]* DISPLAY") =
  Some (MkOption (txt "update-environment") (Some 12%N) (txt "DISPLAY") true).
Proof.
  assert (space ∉ txt "update-environment") as H by (apply (bool_decide_eq_true_1 (space ∉ txt "update-environment")); by vm_compute).
  exact (parse_option_reads_back (txt "update-environment") (Some 12%N) true (Some (txt "DISPLAY"))
    ltac:(done) H eq_refl eq_refl ltac:(done)).
Defined.

Theorem parse_index_bounds_witness :
  parse_index (txt "a[18446744073709551617]") = (txt "a", Some 1%N) /\
  exists ds, txt "a[18446744073709551617]" = txt "a" ++ "["%char :: ds ++ ["]"%char] /\ ds <> [] /\
    forallb is_digit ds = true /\ 1%N = (digits_value 0 ds mod (u64_max + 1))%N /\ (1 <= u64_max)%N.
Proof. split; [by vm_compute | apply parse_index_bounds; by vm_compute]. Defined.

Theorem parse_options_lines_witness :
  parse_options (terminated [txt "a 1"; []; txt "b 2"]) =
  omap parse_option ([txt "a 1"; []; txt "b 2"] ++ [[]]).
Proof.
  rewrite <-(parse_options_lines [txt "a 1"; []; txt "b 2"] []);
    [by rewrite app_nil_r | apply (bool_decide_eq_true_1 (Forall _ _)); by vm_compute |
     apply not_elem_of_nil].
Defined.

Theorem capture_lines_inverse_witness :
  capture_lines (terminated [txt "$ ls"; []; txt "a"]) = [txt "$ ls"; []; txt "a"].
Proof.
  pose proof (capture_lines_inverse [txt "$ ls"; []; txt "a"] []
    ltac:(apply (bool_decide_eq_true_1 (Forall _ _)); by vm_compute) (not_elem_of_nil _)) as H.
  rewrite app_nil_r in H. exact H.
Defined.
