(* ===== verification/EntityData.v ===== *)
(** Entities as data: [include/libtmux/entities.hpp], [include/libtmux/capabilities.hpp],
    and the printing and hashing of [src/entities.cpp].

    An entity is a row of a snapshot, and the connection the snapshot was taken over.
    An accessor reads a column by number and a filter handle pairs the accessor with
    the column's name; the tables below are the field lists and the handles of the six
    entity types.

    The theorems: every built-in handle reads the column it is named after, so a filter
    of built-in handles means the same to a reader that has the names only; a number
    column reads back whatever 64-bit number tmux printed; equality of entities is an
    equivalence, and equal entities hash alike. *)

From S2P Require Import Prelude Command Snapshot Filter.

(** * What a server can promise *)

Inductive ServerImplementation := impl_unknown | impl_tmux | impl_psmux.

Inductive ServerFeature :=
  | exact_inspection | server_cleanup | server_entity_lookup | session_creation
  | window_creation | captured_mutation | pane_io | terminal_attach
  | reusable_window_target | server_state | wait_channels | control_mode_feature.

#[export] Instance ServerImplementation_eq_dec : EqDecision ServerImplementation.
Proof. solve_decision. Defined.
#[export] Instance ServerFeature_eq_dec : EqDecision ServerFeature.
Proof. solve_decision. Defined.

Definition supports (implementation : ServerImplementation) (feature : ServerFeature) : bool :=
  match implementation with
  | impl_unknown => false
  | _ =>
      match feature with
      | exact_inspection | server_cleanup => true
      | _ => bool_decide (implementation = impl_tmux)
      end
  end.

Definition refuses (implementation : ServerImplementation) (feature : ServerFeature) : bool :=
  negb (bool_decide (implementation = impl_unknown)) && negb (supports implementation feature).

(** * Connections and rows *)

(** What a row asks of its backend besides running commands; [address] is the pointer. *)
Record Connection := MkConnection {
  address : nat;
  identity : text;
  implementation : ServerImplementation;
  timeout_policy : option N;
  limit_policy : option N;
}.

Definition same_server (left right : option Connection) : bool :=
  match left, right with
  | None, None => true
  | Some l, Some r =>
      bool_decide (address l = address r) ||
      (negb (bool_decide (identity l = [])) && bool_decide (identity l = identity r))
  | _, _ => false
  end.

Record Row := MkRow { snapshot : Snapshot; row_index : nat; connection : option Connection }.

(** [Row::value(index)]. *)
Definition value_at (row : Row) (index : nat) : text :=
  match rows_ (snapshot row) !! row_index row with
  | None => []
  | Some columns =>
      match columns !! index with
      | Some v => view_text (output_ (snapshot row)) v
      | None => []
      end
  end.

(** [Row::value(field)]. *)
Definition value_of_field (row : Row) (field : text) : text :=
  value_at row (index_of (snapshot row) field).

Definition connection_identity (row : Row) : text :=
  match connection row with Some c => identity c | None => [] end.
Definition same_connection (a b : Row) : bool := same_server (connection a) (connection b).
Definition ids_scoped_by_session (row : Row) : bool :=
  match connection row with
  | Some c => bool_decide (implementation c = impl_psmux)
  | None => false
  end.

(** ** The three shapes of a value *)

Definition i64_min : Z := -9223372036854775808.
Definition i64_max : Z := 9223372036854775807.
Definition i32_min : Z := -2147483648.
Definition i32_max : Z := 2147483647.

(** [std::from_chars] and the check that it stopped at the end: an optional minus and
    digits, in range. *)
Definition from_chars (low high : Z) (s : text) : option Z :=
  let negative := starts_with (txt "-") s in
  let digits := if negative then drop 1 s else s in
  if bool_decide (digits = []) || negb (forallb is_digit digits) then None
  else
    let magnitude := Z.of_N (digits_value 0 digits) in
    let n := (if negative then - magnitude else magnitude)%Z in
    if ((low <=? n) && (n <=? high))%Z then Some n else None.

Definition to_number (s : text) : Z := default 0%Z (from_chars i64_min i64_max s).
Definition to_flag (s : text) : bool := bool_decide (s = txt "1").
(** Epoch seconds. *)
Definition to_time (s : text) : Z := to_number s.

Definition same_entity_id (scoped : bool) (left_id left_session right_id right_session : text) : bool :=
  if negb (bool_decide (left_id = right_id)) then false
  else negb scoped || bool_decide (left_session = right_session).

(** * The entity types *)

Inductive Noun := SessionNoun | WindowNoun | PaneNoun | CommandNoun | BufferNoun | ClientNoun.

#[export] Instance Noun_eq_dec : EqDecision Noun.
Proof. solve_decision. Defined.

Definition kNoun (noun : Noun) : text :=
  match noun with
  | SessionNoun => txt "session" | WindowNoun => txt "window" | PaneNoun => txt "pane"
  | CommandNoun => txt "command" | BufferNoun => txt "buffer" | ClientNoun => txt "client"
  end.

Definition session_fields : list text := map txt
  ["session_id"; "session_name"; "session_attached"; "session_windows"; "session_path";
   "session_created"; "session_group"; "session_grouped"]%string.
Definition window_fields : list text := map txt
  ["window_id"; "window_name"; "window_active"; "session_id"; "window_index"; "window_panes";
   "window_width"; "window_height"; "window_layout"; "window_zoomed_flag"; "window_bell_flag";
   "window_activity_flag"; "window_linked_sessions"]%string.
Definition pane_fields : list text := map txt
  ["pane_id"; "pane_current_command"; "pane_active"; "window_id"; "session_id"; "pane_index";
   "pane_title"; "pane_pid"; "pane_tty"; "pane_current_path"; "pane_width"; "pane_height";
   "pane_dead"; "pane_in_mode"; "pane_at_top"; "pane_at_bottom"; "pane_at_left"; "pane_at_right";
   "pane_pipe"; "pane_left"; "pane_top"; "pane_dead_status"]%string.
Definition command_fields : list text := map txt
  ["command_list_name"; "command_list_alias"; "command_list_usage"]%string.
Definition buffer_fields : list text := map txt
  ["buffer_name"; "buffer_size"; "buffer_sample"; "buffer_created"]%string.
Definition client_fields : list text := map txt
  ["client_name"; "client_session"; "client_readonly"; "client_tty"; "client_width";
   "client_height"; "client_created"; "client_activity"; "client_termname";
   "client_control_mode"; "client_pid"; "pane_id"; "client_flags"; "window_id"]%string.

Definition kFields (noun : Noun) : list text :=
  match noun with
  | SessionNoun => session_fields | WindowNoun => window_fields | PaneNoun => pane_fields
  | CommandNoun => command_fields | BufferNoun => buffer_fields | ClientNoun => client_fields
  end.

Definition kSessionNameField : text := txt "session_name".

(** ** Accessors *)

Definition id_of (row : Row) : text := value_at row 0.

Definition session_name_of (row : Row) : text := value_at row 1.
Definition client_count (row : Row) : Z := to_number (value_at row 2).
Definition session_attached (row : Row) : bool := negb (client_count row =? 0)%Z.
Definition window_count (row : Row) : Z := to_number (value_at row 3).
Definition session_path (row : Row) : text := value_at row 4.
Definition session_created (row : Row) : Z := to_time (value_at row 5).
Definition session_group (row : Row) : text := value_at row 6.
Definition session_grouped (row : Row) : bool := to_flag (value_at row 7).

Definition window_session_id (row : Row) : text := value_at row 3.
Definition pane_window_id (row : Row) : text := value_at row 3.
Definition pane_session_id (row : Row) : text := value_at row 4.

(** [Window::session_name], [Pane::session_name]. *)
Definition route_name (row : Row) : text := value_of_field row kSessionNameField.

Definition exit_status (row : Row) : option Z :=
  let raw := value_at row 21 in
  if bool_decide (raw = []) then None else from_chars i32_min i32_max raw.

(** ** Handles *)

Record Handles := MkHandles {
  strings : list (StringField Row);
  bools : list (BoolField Row);
  numbers : list (NumberField Row);
}.

(** A handle over column [i] of a field list. *)
Definition string_column (fields : list text) (i : nat) : StringField Row :=
  MkStringField (nth i fields []) (fun row => value_at row i).
Definition flag_column (fields : list text) (i : nat) : BoolField Row :=
  MkBoolField (nth i fields []) (fun row => to_flag (value_at row i)).
Definition number_column (fields : list text) (i : nat) : NumberField Row :=
  MkNumberField (nth i fields []) (fun row => to_number (value_at row i)).

Definition session_handles : Handles := MkHandles
  [MkStringField (nth 0 session_fields []) id_of;
   MkStringField (nth 1 session_fields []) session_name_of;
   MkStringField (nth 4 session_fields []) session_path;
   MkStringField (nth 6 session_fields []) session_group]
  [MkBoolField (nth 2 session_fields []) session_attached;
   MkBoolField (nth 7 session_fields []) session_grouped]
  [MkNumberField (nth 2 session_fields []) client_count;
   MkNumberField (nth 3 session_fields []) window_count;
   MkNumberField (nth 5 session_fields []) session_created].

Definition window_handles : Handles := MkHandles
  ([string_column window_fields 0; string_column window_fields 1;
    MkStringField (nth 3 window_fields []) window_session_id;
    MkStringField kSessionNameField route_name; string_column window_fields 8])
  (flag_column window_fields <$> [2; 9; 10; 11])
  (number_column window_fields <$> [4; 5; 6; 7; 12]).

Definition pane_handles : Handles := MkHandles
  ([string_column pane_fields 0; string_column pane_fields 1;
    MkStringField (nth 3 pane_fields []) pane_window_id;
    MkStringField (nth 4 pane_fields []) pane_session_id;
    MkStringField kSessionNameField route_name] ++
   (string_column pane_fields <$> [6; 8; 9]))
  (flag_column pane_fields <$> [2; 12; 13; 14; 15; 16; 17; 18])
  ((number_column pane_fields <$> [5; 7; 10; 11; 19; 20]) ++
   [MkNumberField (nth 21 pane_fields []) (fun row => default (-1)%Z (exit_status row))]).

Definition client_handles : Handles := MkHandles
  (string_column client_fields <$> [0; 1; 3; 8; 11; 12; 13])
  (flag_column client_fields <$> [2; 9])
  (number_column client_fields <$> [4; 5; 6; 7; 10]).

Definition command_handles : Handles := MkHandles (string_column command_fields <$> [0; 1; 2]) [] [].

Definition buffer_handles : Handles := MkHandles
  (string_column buffer_fields <$> [0; 2]) [] (number_column buffer_fields <$> [1; 3]).

Definition handles (noun : Noun) : Handles :=
  match noun with
  | SessionNoun => session_handles | WindowNoun => window_handles | PaneNoun => pane_handles
  | CommandNoun => command_handles | BufferNoun => buffer_handles | ClientNoun => client_handles
  end.

(** ** Equality, printing, hashing *)

Definition same_session (a b : Row) : bool := same_connection a b && bool_decide (id_of a = id_of b).
Definition same_window (a b : Row) : bool :=
  same_connection a b &&
  same_entity_id (ids_scoped_by_session a) (id_of a) (window_session_id a) (id_of b) (window_session_id b).
Definition same_pane (a b : Row) : bool :=
  same_connection a b &&
  same_entity_id (ids_scoped_by_session a) (id_of a) (pane_session_id a) (id_of b) (pane_session_id b).
(** Commands, buffers and clients are the same when their names are. *)
Definition same_named (a b : Row) : bool := same_connection a b && bool_decide (id_of a = id_of b).

Definition session_text (row : Row) : text :=
  txt "Session(" ++ id_of row ++ txt " " ++ session_name_of row ++ txt ")".
Definition window_text (row : Row) : text :=
  txt "Window(" ++ id_of row ++ txt " " ++ dec_Z (to_number (value_at row 4)) ++ txt ":" ++
  value_at row 1 ++ txt ")".
Definition pane_text (row : Row) : text :=
  txt "Pane(" ++ id_of row ++ txt " " ++ value_at row 1 ++ txt ")".
Definition client_text (row : Row) : text :=
  txt "Client(" ++ id_of row ++ txt " " ++ value_at row 1 ++ txt ")".

(** A 64-bit [std::size_t]. *)
Definition hash_mix (left right : N) : N :=
  N.lxor left ((right + 2654435769 + N.shiftl left 6 + N.shiftr left 2) mod (u64_max + 1)).

(** [std::hash<std::string_view>] is the standard library's choice: [hash]. *)
Definition hash_identity (hash : text -> N) (row : Row) : N :=
  hash_mix (hash (connection_identity row)) (hash (id_of row)).

(** * Columns *)

(** A row taken with a type's fields, in their order; a routed listing adds its own. *)
Definition taken_as (noun : Noun) (row : Row) : Prop :=
  exists extra, fields_ (snapshot row) = kFields noun ++ extra.

Definition flag_meaning (name v : text) : bool :=
  if bool_decide (name = txt "session_attached") then negb (to_number v =? 0)%Z else to_flag v.
Definition number_meaning (name v : text) : Z :=
  if bool_decide (name = txt "pane_dead_status")
  then default (-1)%Z (from_chars i32_min i32_max v) else to_number v.

Lemma index_from_nth fields extra i n :
  NoDup fields -> i < length fields -> index_from (nth i fields []) (fields ++ extra) n = n + i.
Proof.
  intros Hnd. revert i n. induction Hnd as [|f fields Hf Hnd IH]; intros i n Hi; cbn in *; [lia|].
  destruct i as [|i]; cbn.
  - rewrite bool_decide_true by done. lia.
  - rewrite bool_decide_false.
    + rewrite IH by lia. lia.
    + intros ->. apply Hf. apply list_elem_of_In, nth_In. lia.
Qed.

Lemma fields_distinct noun : NoDup (kFields noun).
Proof. apply (bool_decide_unpack (NoDup _)). by destruct noun; vm_compute. Qed.

Lemma column_value noun row i :
  taken_as noun row -> i < length (kFields noun) ->
  value_at row i = value_of_field row (nth i (kFields noun) []).
Proof.
  intros [extra E] Hi. unfold value_of_field, index_of.
  by rewrite E, index_from_nth by (done || apply fields_distinct).
Qed.

Lemma default_empty (v : text) :
  default (-1)%Z (if bool_decide (v = []) then None else from_chars i32_min i32_max v) =
  default (-1)%Z (from_chars i32_min i32_max v).
Proof. by case_bool_decide; subst. Qed.

Lemma named_column noun row i name :
  taken_as noun row -> name = nth i (kFields noun) [] -> i < length (kFields noun) ->
  value_at row i = value_of_field row name.
Proof. intros H -> Hi. by apply column_value. Qed.

(** Case analysis on membership in a table. *)
Ltac each_entry H :=
  repeat match type of H with
    | _ ∈ [] => by apply elem_of_nil in H
    | _ ∈ _ => apply elem_of_cons in H as [-> | H]
    end.

(** Every built-in handle reads the column it is named after: text as it is, a flag
    as "1" (a session is attached when its count of clients is not zero), a number as
    tmux printed it (an exit status that is not there as -1). *)
Theorem handle_reads_its_column noun row :
  taken_as noun row ->
  (forall f, f ∈ strings (handles noun) -> string_read f row = value_of_field row (string_name f)) /\
  (forall f, f ∈ bools (handles noun) ->
     bool_read f row = flag_meaning (bool_name f) (value_of_field row (bool_name f))) /\
  (forall f, f ∈ numbers (handles noun) ->
     number_read f row = number_meaning (number_name f) (value_of_field row (number_name f))).
Proof.
  intros Ht. pose proof (fun i name => named_column noun row i name Ht) as Hc.
  split_and!; intros f Hf; destruct noun; cbn in Hf; each_entry Hf;
    cbn [string_read bool_read number_read string_name bool_name number_name string_column
         flag_column number_column].
  all: unfold id_of, session_name_of, session_path, session_group, session_attached, session_grouped,
    client_count, window_count, session_created, window_session_id, pane_window_id, pane_session_id,
    exit_status, to_time, route_name; cbv zeta.
  all: try done.
  all: try (rewrite default_empty).
  all: match goal with |- context [value_at _ ?i] => erewrite (Hc i) by (reflexivity || (cbn; lia)) end.
  all: done.
Qed.

(** * Built-in filters on the wire *)

Section wire.
(** The relations a reader knows are the caller's. *)
Context (many : Noun -> text -> option {k : Noun & Row -> list Row}).
Context (one : Noun -> text -> option {k : Noun & Row -> option Row}).

#[local] Instance entity_vocabulary : Vocabulary Noun (fun _ => Row) := {
  string_of k name := string_read <$> List.find (fun f => bool_decide (string_name f = name)) (strings (handles k));
  bool_of k name := bool_read <$> List.find (fun f => bool_decide (bool_name f = name)) (bools (handles k));
  number_of k name := number_read <$> List.find (fun f => bool_decide (number_name f = name)) (numbers (handles k));
  many_of := many;
  one_of := one;
}.

(** The filters the tables and the operators make. *)
Inductive from_handles : Noun -> FilterExpr Row -> Prop :=
  | from_string k f op operand : f ∈ strings (handles k) -> from_handles k (string_is f op operand)
  | from_bool k f expected : f ∈ bools (handles k) -> from_handles k (bool_is f expected)
  | from_number k f op operand : f ∈ numbers (handles k) -> from_handles k (number_is f op operand)
  | from_and k a b : from_handles k a -> from_handles k b -> from_handles k (expr_and a b)
  | from_or k a b : from_handles k a -> from_handles k b -> from_handles k (expr_or a b)
  | from_not k e : from_handles k e -> from_handles k (expr_not e)
  | from_many k k' name q read e :
      many k name = Some (existT k' read) -> q <> is_ -> from_handles k' e ->
      from_handles k (quantified name q read e)
  | from_one k k' name read e :
      one k name = Some (existT k' read) -> from_handles k' e -> from_handles k (is_related name read e).

Lemma find_named {F : Type} (name : F -> text) (table : list F) (f : F) :
  NoDup (name <$> table) -> f ∈ table ->
  List.find (fun g => bool_decide (name g = name f)) table = Some f.
Proof.
  induction table as [|g table IH]; cbn; [by intros _ ?%elem_of_nil|].
  intros [Hg Hnd]%NoDup_cons [<-|Hf]%elem_of_cons.
  - by rewrite bool_decide_true.
  - rewrite bool_decide_false; [by apply IH|]. intros E. apply Hg. rewrite E. by apply list_elem_of_fmap_2.
Qed.

Lemma handles_distinct k :
  NoDup (string_name <$> strings (handles k)) /\ NoDup (bool_name <$> bools (handles k)) /\
  NoDup (number_name <$> numbers (handles k)).
Proof. split_and!; apply (bool_decide_unpack (NoDup _)); by destruct k; vm_compute. Qed.

Lemma from_handles_built k e : from_handles k e -> built k e.
Proof.
  assert (forall k (c : Combine) (a b : FilterExpr Row), built k a -> built k b -> built k (Group c [a; b])) as Hg.
  { intros k0 c a b Ha Hb. apply (built_group k0). by intros x [-> | [-> | []%elem_of_nil]%elem_of_cons]%elem_of_cons. }
  induction 1 as [k f op operand Hf | k f b Hf | k f op operand Hf | k a b _ IHa _ IHb | k a b _ IHa _ IHb
    | k e _ IH | k k' name q read e Hn Hq _ IH | k k' name read e Hn _ IH].
  - apply (built_string k f). cbn. by rewrite find_named by (done || apply handles_distinct).
  - apply (built_bool k f). cbn. by rewrite find_named by (done || apply handles_distinct).
  - apply (built_number k f). cbn. by rewrite find_named by (done || apply handles_distinct).
  - by apply Hg.
  - by apply Hg.
  - by apply (built_not k).
  - by apply (built_many k k').
  - by apply (built_one k k').
Qed.

(** A filter made of built-in handles, written as nodes that hold names only, reads
    back, and a reader with the field tables gives on every row the answer the filter
    gives in memory. *)
Theorem builtin_filter_on_the_wire k (e : FilterExpr Row) :
  from_handles k e ->
  exists s, read_nodes (lowered e) = Some s /\
    forall row : Row, shape_answer (Ent := fun _ => Row) s k row = Some (evaluate e row).
Proof.
  intros [s Hs]%from_handles_built%built_shape. exists s.
  split; [apply (shape_lowered k s e Hs) | apply Hs].
Qed.
End wire.

(** * Values *)

Lemma dec_Z_digits z :
  (0 <= z)%Z -> forallb is_digit (dec_Z z) = true /\ dec_Z z <> [] /\ Z.of_N (digits_value 0 (dec_Z z)) = z.
Proof.
  intros Hz. assert (dec_Z z = dec (Z.to_N z)) as -> by (destruct z; [done | done | lia]).
  destruct (dec_spec (Z.to_N z)) as (H1 & H2 & H3). rewrite H3. split_and!; [done | done | lia].
Qed.

Lemma from_chars_dec low high z :
  (low <= z <= high)%Z -> from_chars low high (dec_Z z) = Some z.
Proof.
  intros Hz. unfold from_chars.
  assert (exists negative ds, starts_with (txt "-") (dec_Z z) = negative /\
    (if negative then drop 1 (dec_Z z) else dec_Z z) = ds /\ ds <> [] /\ forallb is_digit ds = true /\
    (if negative then - Z.of_N (digits_value 0 ds) else Z.of_N (digits_value 0 ds))%Z = z)
    as (negative & ds & -> & -> & Hne & Hd & Hv).
  { destruct z as [|p|p].
    - by exists false, (dec 0).
    - destruct (dec_Z_digits (Zpos p) ltac:(lia)) as (Hd & Hne & Hv). exists false, (dec_Z (Zpos p)).
      assert (starts_with (txt "-") (dec_Z (Zpos p)) = false) as ->; [|done].
      destruct (dec_Z (Zpos p)) as [|c l]; [done|]. cbn in Hd. apply andb_true_iff in Hd as [Hd _].
      unfold starts_with. change (txt "-") with ["-"%char]. cbn. rewrite bool_decide_false; [done|]. by intros <-.
    - destruct (dec_spec (Npos p)) as (Hne & Hd & Hv). exists true, (dec (Npos p)).
      split_and!; [apply starts_with_app | done | done | done | rewrite Hv; lia]. }
  rewrite bool_decide_false, Hd by done. cbn [negb orb]. cbv zeta. rewrite Hv.
  by assert (((low <=? z) && (z <=? high))%Z = true) as ->
    by (apply andb_true_iff; split; apply Z.leb_le; lia).
Qed.

(** A 64-bit number reads back from its numeral, and nothing else reads as a number
    other than zero: what reads as a non-zero number is an optional minus and digits
    of that value, in range. *)
Theorem to_number_reads_back :
  (forall z, (i64_min <= z <= i64_max)%Z -> to_number (dec_Z z) = z) /\
  (forall s, to_number s <> 0%Z -> exists ds, forallb is_digit ds = true /\ (i64_min <= to_number s <= i64_max)%Z /\
     (s = ds /\ to_number s = Z.of_N (digits_value 0 ds) \/
      s = txt "-" ++ ds /\ to_number s = - Z.of_N (digits_value 0 ds))%Z).
Proof.
  split.
  - intros z Hz. unfold to_number. by rewrite from_chars_dec.
  - intros s. unfold to_number, from_chars. cbv zeta.
    destruct (starts_with (txt "-") s) eqn:Hs.
    + apply starts_with_spec in Hs as [ds ->]. change (drop 1 (txt "-" ++ ds)) with ds.
      destruct (_ || _) eqn:Ho; [done|]. to_props. destruct (_ && _) eqn:Hr; [|done].
      apply andb_true_iff in Hr as [H1%Z.leb_le H2%Z.leb_le]. intros _. exists ds.
      cbn [default]. split_and!; [done | done | done | by right].
    + destruct (_ || _) eqn:Ho; [done|]. to_props. destruct (_ && _) eqn:Hr; [|done].
      apply andb_true_iff in Hr as [H1%Z.leb_le H2%Z.leb_le]. intros _. exists s.
      cbn [default]. split_and!; [done | done | done | by left].
Qed.

(** * Identity *)

(** Rows of one process: a pointer names one backend, and servers that share an identity
    are of one implementation. *)
Definition coherent (rows : list Row) : Prop :=
  forall a b ca cb, a ∈ rows -> b ∈ rows -> connection a = Some ca -> connection b = Some cb ->
    (address ca = address cb -> ca = cb) /\
    (identity ca = identity cb -> implementation ca = implementation cb).

Definition same_entity (noun : Noun) (a b : Row) : bool :=
  match noun with
  | SessionNoun => same_session a b
  | WindowNoun => same_window a b
  | PaneNoun => same_pane a b
  | _ => same_named a b
  end.

Definition owner (noun : Noun) (row : Row) : text :=
  match noun with WindowNoun => window_session_id row | PaneNoun => pane_session_id row | _ => [] end.

Lemma same_server_spec rows a b :
  coherent rows -> a ∈ rows -> b ∈ rows ->
  same_connection a b = true <->
  connection a = connection b \/
  exists ca cb, connection a = Some ca /\ connection b = Some cb /\
    identity ca <> [] /\ identity ca = identity cb.
Proof.
  intros Hc Ha Hb. specialize (Hc a b). unfold same_connection, same_server.
  destruct (connection a) as [ca|] eqn:Ea, (connection b) as [cb|] eqn:Eb; cbn.
  - destruct (Hc ca cb Ha Hb eq_refl eq_refl) as [H1 _].
    rewrite orb_true_iff, andb_true_iff, negb_true_iff, bool_decide_eq_true, bool_decide_eq_false,
      bool_decide_eq_true. split.
    + intros [E%H1 | [H2 H3]]; [left; congruence | right]. by exists ca, cb.
    + intros [[= ->] | (? & ? & [= <-] & [= <-] & ? & ?)]; auto.
  - split; [done|]. intros [[=] | (? & ? & _ & [=] & _)].
  - split; [done|]. intros [[=] | (? & ? & [=] & _)].
  - split; auto.
Qed.

Lemma same_connection_identity rows a b :
  coherent rows -> a ∈ rows -> b ∈ rows -> same_connection a b = true ->
  connection_identity a = connection_identity b /\ ids_scoped_by_session a = ids_scoped_by_session b.
Proof.
  intros Hc Ha Hb H. unfold connection_identity, ids_scoped_by_session.
  apply (same_server_spec rows a b Hc Ha Hb) in H as [-> | (ca & cb & Ea & Eb & _ & Hi)]; [done|].
  rewrite Ea, Eb. destruct (Hc a b ca cb Ha Hb Ea Eb) as [_ H]. by rewrite Hi, H.
Qed.

Lemma same_entity_spec noun a b :
  same_entity noun a b = true <->
  same_connection a b = true /\ id_of a = id_of b /\
  (match noun with WindowNoun | PaneNoun => ids_scoped_by_session a = true -> owner noun a = owner noun b
   | _ => True end).
Proof.
  destruct noun; unfold same_entity, same_session, same_window, same_pane, same_named, same_entity_id, owner;
    rewrite andb_true_iff, ?bool_decide_eq_true; try (by split; [intros [? ?] | intros (? & ? & ?)]).
  all: destruct (decide (id_of a = id_of b)) as [E|E];
    [rewrite (bool_decide_true _ E) | rewrite (bool_decide_false _ E)]; cbn [negb];
    [| by split; [intros [_ ?] | intros (_ & ? & _)]].
  all: rewrite orb_true_iff, negb_true_iff, bool_decide_eq_true; destruct (ids_scoped_by_session a);
    split; [intros [? [?|?]] | intros (? & ? & H) | intros [? ?] | intros (? & ? & H)]; auto; done.
Qed.

(** Equality of entities is an equivalence on the rows of a process, and equal
    entities hash alike, whatever the standard library hashes strings to. *)
Theorem entity_equality hash noun rows a b c :
  coherent rows -> a ∈ rows -> b ∈ rows -> c ∈ rows ->
  same_entity noun a a = true /\
  (same_entity noun a b = true -> same_entity noun b a = true) /\
  (same_entity noun a b = true -> same_entity noun b c = true -> same_entity noun a c = true) /\
  (same_entity noun a b = true -> hash_identity hash a = hash_identity hash b).
Proof.
  intros Hc Ha Hb Hcc. pose proof (same_server_spec rows) as Hs.
  pose proof (same_connection_identity rows) as Hi. rewrite !same_entity_spec. split_and!.
  - apply (Hs a a); auto.
  - done.
  - by destruct noun.
  - intros (H1 & H2 & H3). destruct (Hi a b Hc Ha Hb H1) as [_ E]. split_and!.
    + apply (Hs a b Hc Ha Hb) in H1. apply (Hs b a Hc Hb Ha).
      destruct H1 as [-> | (ca & cb & ? & ? & ? & E')]; [by left|]. right. exists cb, ca.
      by rewrite <-E'.
    + done.
    + rewrite <-E. destruct noun; try done; intros H; symmetry; auto.
  - intros (H1 & H2 & H3) (H4 & H5 & H6). destruct (Hi a b Hc Ha Hb H1) as [_ E]. split_and!.
    + apply (Hs a b Hc Ha Hb) in H1. apply (Hs b c Hc Hb Hcc) in H4. apply (Hs a c Hc Ha Hcc).
      destruct H1 as [-> | (ca & cb & Ea & Eb & Hne & E1)]; [done|].
      destruct H4 as [<- | (cb' & cc & Eb' & Ec & Hne' & E2)]; right.
      * by exists ca, cb.
      * exists ca, cc. rewrite Eb in Eb'. injection Eb' as <-. by rewrite <-E2.
    + congruence.
    + rewrite <-E in H6. destruct noun; try done; intros H; rewrite H3, H6 by done; done.
  - intros (H1 & H2 & _). destruct (Hi a b Hc Ha Hb H1) as [E _]. unfold hash_identity. by rewrite E, H2.
Qed.

(** * Witnesses *)

Definition sample_connection : Connection := MkConnection 1 (txt "8:42") impl_tmux (Some 30000%N) None.
Definition sample_listing (fields values : list text) : Snapshot :=
  (Snapshot_parse (MkSnapshot fields (concat (map (fun v => v ++ kFormatSeparator) values)) [])).1.
Definition sample_session : Row :=
  MkRow (sample_listing session_fields
    (map txt ["$1"; "work"; "2"; "3"; "/tmp"; "1700000000"; ""; "0"]%string)) 0 (Some sample_connection).

Lemma handle_reads_its_column_witness :
  taken_as SessionNoun sample_session /\ client_count sample_session = 2%Z /\
  session_attached sample_session =
    flag_meaning (txt "session_attached") (value_of_field sample_session (txt "session_attached")).
Proof.
  assert (taken_as SessionNoun sample_session) as H by (exists []; vm_compute; reflexivity).
  split_and!; [exact H | vm_compute; reflexivity |].
  apply (proj1 (proj2 (handle_reads_its_column SessionNoun sample_session H))
    (MkBoolField (txt "session_attached") session_attached)). left.
Defined.

Lemma builtin_filter_on_the_wire_witness :
  exists s, read_nodes (lowered (string_is (string_column pane_fields 1) contains (txt "sh"))) = Some s /\
    forall row : Row, shape_answer (Ent := fun _ => Row) (Vocabulary0 := entity_vocabulary (fun _ _ => None) (fun _ _ => None))
      s PaneNoun row = Some (evaluate (string_is (string_column pane_fields 1) contains (txt "sh")) row).
Proof. apply builtin_filter_on_the_wire. apply from_string. right. left. Defined.

Lemma entity_equality_witness :
  coherent [sample_session] /\
  hash_identity (fun s => N.of_nat (length s)) sample_session =
  hash_identity (fun s => N.of_nat (length s)) sample_session.
Proof.
  assert (coherent [sample_session]) as H.
  { by intros a b ca cb ->%list_elem_of_singleton ->%list_elem_of_singleton [= <-] [= <-]. }
  pose proof (entity_equality (fun s => N.of_nat (length s)) SessionNoun [sample_session]
    sample_session sample_session sample_session H (list_elem_of_here _ _) (list_elem_of_here _ _)
    (list_elem_of_here _ _)) as (Hr & _ & _ & Hh).
  split; [exact H | exact (Hh Hr)].
Defined.
