(* ===== verification/FilterJson.v ===== *)
(** Lowered filters as JSON: [apps/mcp/include/libtmux_consumers/filter_json.hpp].

    The writer gives each node an object with the members its kind uses, and the reader
    refuses what it cannot read.  The JSON library is not part of the repository: a
    document is a type [J] with the operations the code calls, and [JsonLaws] says of
    them what the library documents (an object built of distinct keys is found by key,
    a value built of a type is of that type and gives the value back).  C++ converts a
    number to a narrower type by taking it modulo the width.

    The theorems: what is written reads back, for the nodes the collector makes of known
    fields; what reads is made of known fields, quantifiers in range and nothing of
    another kind; and the reader takes documents the schema does not: a version that is
    one only modulo two to the thirty-two, operators no reader knows, nodes that do not
    bracket; filters of buffers and commands are refused though the library has them. *)

From S2P Require Import Prelude Filter Snapshot EntityData.

(** * JSON documents *)

Class Json (J : Type) := {
  jstring : text -> J;
  jbool : bool -> J;
  jint : Z -> J;
  jarray : list J -> J;
  jobject : list (text * J) -> J;
  is_object : J -> bool;
  find_member : text -> J -> option J;
  elements : J -> option (list J);
  as_string : J -> option text;
  as_bool : J -> option bool;
  (** The number itself, for one stored as a signed or an unsigned integer. *)
  as_integer : J -> option Z;
}.

Fixpoint assoc {A} (key : text) (l : list (text * A)) : option A :=
  match l with
  | [] => None
  | (k, v) :: rest => if bool_decide (k = key) then Some v else assoc key rest
  end.

(** What the library documents of values it built itself. *)
Class JsonLaws (J : Type) `{!Json J} := {
  object_is_object : forall l, is_object (jobject l) = true;
  object_member : forall l key, NoDup l.*1 -> find_member key (jobject l) = assoc key l;
  array_elements : forall l, elements (jarray l) = Some l;
  string_value : forall s, as_string (jstring s) = Some s;
  bool_value : forall b, as_bool (jbool b) = Some b;
  integer_value : forall z, (i64_min <= z <= i64_max)%Z -> as_integer (jint z) = Some z;
}.

(** [get<int>()] and [get<long long>()]: a [static_cast]. *)
Definition wrap (bits : Z) (z : Z) : Z :=
  ((z + 2 ^ (bits - 1)) mod 2 ^ bits - 2 ^ (bits - 1))%Z.
Definition get_int : Z -> Z := wrap 32.
Definition get_long_long : Z -> Z := wrap 64.

(** * Names *)

Definition kSchemaVersion : Z := 1.

Definition is_known_field (name : text) : bool :=
  let holds fields := existsb (fun field => bool_decide (field = name)) fields in
  holds session_fields || holds window_fields || holds pane_fields || holds client_fields.

Definition name_of (k : Kind) : text :=
  match k with
  | string_test_ => txt "string_test"
  | bool_test_ => txt "bool_test"
  | number_test_ => txt "number_test"
  | begin_group_ => txt "begin_group"
  | end_group_ => txt "end_group"
  | begin_negation_ => txt "begin_negation"
  | end_negation_ => txt "end_negation"
  | begin_relation_ => txt "begin_relation"
  | end_relation_ => txt "end_relation"
  end.

Definition kinds : list Kind :=
  [string_test_; bool_test_; number_test_; begin_group_; end_group_; begin_negation_;
   end_negation_; begin_relation_; end_relation_].

Definition kind_from (name : text) : expected text Kind :=
  match List.find (fun k => bool_decide (name_of k = name)) kinds with
  | Some k => Value k
  | None => Unexpected (txt "no such node kind: " ++ name)
  end.

Section json_wire.
Context {J : Type} `{!Json J}.

(** * Writing *)

Definition members (node : LoweredNode) : list (text * J) :=
  match kind node with
  | string_test_ =>
      [(txt "name", jstring (node_name node)); (txt "op", jstring (node_op node));
       (txt "operand", jstring (node_operand node))]
  | bool_test_ => [(txt "name", jstring (node_name node)); (txt "expected", jbool (expected_ node))]
  | number_test_ =>
      [(txt "name", jstring (node_name node)); (txt "op", jstring (node_op node));
       (txt "number", jint (number node))]
  | begin_group_ => [(txt "conjunction", jbool (conjunction node))]
  | begin_relation_ =>
      [(txt "name", jstring (node_name node)); (txt "quantifier", jint (quantifier node))]
  | _ => []
  end.

Definition node_to_json (node : LoweredNode) : J :=
  jobject ((txt "kind", jstring (name_of (kind node))) :: members node).

Definition to_json (nodes : LoweredExpression) : J :=
  jobject [(txt "version", jint kSchemaVersion); (txt "nodes", jarray (map node_to_json nodes))].

(** * Reading *)

Definition text_member (node : J) (key : text) : expected text text :=
  match found ← find_member key node; as_string found with
  | Some s => Value s
  | None => Unexpected (key ++ txt " must be a string")
  end.

Definition no_field (name : text) : text := txt "no such tmux field: " ++ name.

Definition read_string_test (entry : J) : expected text LoweredNode :=
  match text_member entry (txt "name"), text_member entry (txt "op"), text_member entry (txt "operand") with
  | Value name, Value op, Value operand =>
      if is_known_field name then Value (string_node name op operand) else Unexpected (no_field name)
  | _, _, _ => Unexpected (txt "a string_test needs name, op, operand")
  end.

Definition read_bool_test (entry : J) : expected text LoweredNode :=
  match text_member entry (txt "name"), found ← find_member (txt "expected") entry; as_bool found with
  | Value name, Some b =>
      if is_known_field name then Value (bool_node name b) else Unexpected (no_field name)
  | _, _ => Unexpected (txt "a bool_test needs name and expected")
  end.

Definition read_number_test (entry : J) : expected text LoweredNode :=
  match text_member entry (txt "name"), text_member entry (txt "op"),
        found ← find_member (txt "number") entry; as_integer found with
  | Value name, Value op, Some z =>
      if is_known_field name then Value (number_node name op (get_long_long z))
      else Unexpected (no_field name)
  | _, _, _ => Unexpected (txt "a number_test needs name, op, number")
  end.

Definition read_group (entry : J) : expected text LoweredNode :=
  match found ← find_member (txt "conjunction") entry; as_bool found with
  | Some b => Value (group_node b)
  | None => Unexpected (txt "a begin_group needs conjunction")
  end.

Definition read_relation (entry : J) : expected text LoweredNode :=
  match text_member entry (txt "name"), found ← find_member (txt "quantifier") entry; as_integer found with
  | Value name, Some z =>
      let value := get_int z in
      if (value <? 0)%Z || (3 <? value)%Z then Unexpected (txt "quantifier out of range")
      else Value (relation_node name value)
  | _, _ => Unexpected (txt "a begin_relation needs name and quantifier")
  end.

Definition read_entry (entry : J) : expected text LoweredNode :=
  if negb (is_object entry) then Unexpected (txt "a node must be an object")
  else
    named ← text_member entry (txt "kind");
    k ← kind_from named;
    match k with
    | string_test_ => read_string_test entry
    | bool_test_ => read_bool_test entry
    | number_test_ => read_number_test entry
    | begin_group_ => read_group entry
    | begin_relation_ => read_relation entry
    | k => Value (plain_node k)
    end.

Fixpoint read_entries (entries : list J) : expected text LoweredExpression :=
  match entries with
  | [] => Value []
  | entry :: rest => node ← read_entry entry; nodes ← read_entries rest; Value (node :: nodes)
  end.

Definition from_json (document : J) : expected text LoweredExpression :=
  if negb (is_object document) then Unexpected (txt "a document must be an object")
  else
    match found ← find_member (txt "version") document; as_integer found with
    | Some version =>
        if (get_int version =? kSchemaVersion)%Z then
          match found ← find_member (txt "nodes") document; elements found with
          | Some listed => read_entries listed
          | None => Unexpected (txt "nodes must be an array")
          end
        else Unexpected (txt "unsupported or missing schema version")
    | None => Unexpected (txt "unsupported or missing schema version")
    end.
End json_wire.

(** * Properties *)

(** The nodes that can cross: as the collector makes them, of fields the reader knows, of
    numbers and quantifiers in range. *)
Definition wireable (node : LoweredNode) : Prop :=
  node = normal node /\
  match kind node with
  | string_test_ | bool_test_ => is_known_field (node_name node) = true
  | number_test_ => is_known_field (node_name node) = true /\ (i64_min <= number node <= i64_max)%Z
  | begin_relation_ => (0 <= quantifier node <= 3)%Z
  | _ => True
  end.

Lemma wrap_range bits z : (0 < bits)%Z -> (- 2 ^ (bits - 1) <= wrap bits z < 2 ^ (bits - 1))%Z.
Proof.
  intros Hb. unfold wrap. assert (2 ^ bits = 2 * 2 ^ (bits - 1))%Z as ->
    by (rewrite <-Z.pow_succ_r by lia; f_equal; lia).
  pose proof (Z.mod_pos_bound (z + 2 ^ (bits - 1)) (2 * 2 ^ (bits - 1)) ltac:(pose proof (Z.pow_pos_nonneg 2 (bits - 1)); lia)).
  lia.
Qed.

Lemma wrap_small bits z : (0 < bits)%Z -> (- 2 ^ (bits - 1) <= z < 2 ^ (bits - 1))%Z -> wrap bits z = z.
Proof.
  intros Hb Hz. unfold wrap. assert (2 ^ bits = 2 * 2 ^ (bits - 1))%Z as ->
    by (rewrite <-Z.pow_succ_r by lia; f_equal; lia).
  rewrite Z.mod_small; lia.
Qed.

Lemma kind_from_name k : kind_from (name_of k) = Value k.
Proof. by destruct k. Qed.

Section laws.
Context {J : Type} `{!Json J, !JsonLaws J}.

Lemma members_distinct node : NoDup (((txt "kind", jstring (name_of (kind node))) :: members node) : list (text * J)).*1.
Proof.
  apply (bool_decide_unpack (NoDup _)). unfold members. by destruct (kind node); vm_compute.
Qed.

Lemma read_written node : wireable node -> read_entry (node_to_json node) = Value node.
Proof.
  intros [Hn Hw]. unfold node_to_json, read_entry. rewrite object_is_object. cbn [negb].
  assert (forall key, find_member key (jobject ((txt "kind", jstring (name_of (kind node))) :: members node)) =
    assoc key ((txt "kind", jstring (name_of (kind node))) :: members node)) as Hfind
    by (intros key; apply object_member, members_distinct).
  unfold text_member at 1. rewrite Hfind. cbn [assoc]. rewrite bool_decide_true by done.
  change (Some ?x ≫= ?f) with (f x). cbv beta. rewrite string_value.
  change (Value ?x ≫= ?f) with (f x). cbv beta. rewrite kind_from_name.
  change (Value ?x ≫= ?f) with (f x). cbv beta.
  unfold read_string_test, read_bool_test, read_number_test, read_group, read_relation, text_member.
  rewrite !Hfind. unfold members. clear Hfind. revert Hn Hw. unfold normal.
  destruct (kind node); cbn [assoc]; intros Hn Hw;
    repeat (first [rewrite bool_decide_true by done | rewrite bool_decide_false by (by vm_compute)]);
    repeat (change (Some ?x ≫= ?f) with (f x); cbv beta);
    rewrite ?string_value, ?bool_value.
  all: try by rewrite Hw, <-Hn.
  all: try by rewrite <-Hn.
  - destruct Hw as [Hw Hr]. rewrite integer_value, Hw by done. cbv beta iota zeta.
    assert (get_long_long (number node) = number node) as ->; [|by rewrite <-Hn].
    apply wrap_small; unfold i64_min, i64_max in *; lia.
  - rewrite integer_value by (unfold i64_min, i64_max; lia). cbv beta iota zeta.
    assert (get_int (quantifier node) = quantifier node) as -> by (apply wrap_small; lia).
    rewrite (proj2 (Z.ltb_ge _ _)), (proj2 (Z.ltb_ge _ _)) by lia. cbn [orb]. by rewrite <-Hn.
Qed.

Lemma from_json_written nodes : Forall wireable nodes -> from_json (to_json nodes) = Value nodes.
Proof.
  intros H. unfold from_json, to_json. rewrite object_is_object.
  assert (NoDup ([(txt "version", jint kSchemaVersion); (txt "nodes", jarray (map node_to_json nodes))] : list (text * J)).*1)
    as Hd by (apply (bool_decide_unpack (NoDup _)); by vm_compute).
  rewrite !object_member by done. cbn [negb assoc].
  repeat (first [rewrite bool_decide_true by done | rewrite bool_decide_false by (by vm_compute)]).
  change (Some ?x ≫= ?f) with (f x). cbv beta. rewrite integer_value by (unfold kSchemaVersion, i64_min, i64_max; lia).
  change (get_int kSchemaVersion =? kSchemaVersion)%Z with true. cbv iota.
  change (Some ?x ≫= ?f) with (f x). cbv beta. rewrite array_elements.
  induction H as [|node nodes Hn _ IH]; [done|]. cbn [map read_entries].
  rewrite read_written by done. change (Value ?x ≫= ?f) with (f x). cbv beta. by rewrite IH.
Qed.
End laws.

(** What is written reads back: every sequence of nodes of known fields, numbers and
    quantifiers in range. *)
Theorem from_json_to_json {J : Type} `{!Json J, !JsonLaws J} nodes :
  Forall wireable nodes -> from_json (to_json nodes) = Value nodes.
Proof. apply from_json_written. Qed.

Lemma read_entry_wireable {J : Type} `{!Json J} (entry : J) node :
  read_entry entry = Value node -> wireable node.
Proof.
  unfold read_entry. destruct (is_object entry); [|done]. cbn [negb].
  intros (named & _ & (k & _ & H)%expected_bind_value)%expected_bind_value. revert H.
  unfold read_string_test, read_bool_test, read_number_test, read_group, read_relation.
  destruct k; intros H; repeat (case_match; try done); simplify_eq; split; try done.
  - split; [done|]. pose proof (wrap_range 64 z ltac:(lia)). unfold get_long_long, i64_min, i64_max. cbn.
    change (2 ^ (64 - 1))%Z with 9223372036854775808%Z in *. lia.
  - to_props. cbn.
    repeat match goal with H : (_ <? _)%Z = false |- _ => apply Z.ltb_ge in H end. lia.
Qed.

(** Whatever the library hands it, what the reader accepts is made of known fields,
    quantifiers and numbers in range, and members of its own kinds only. *)
Theorem from_json_sound {J : Type} `{!Json J} (document : J) nodes :
  from_json document = Value nodes -> Forall wireable nodes.
Proof.
  unfold from_json. destruct (is_object document); [|done]. cbn [negb].
  destruct (_ ≫= _) as [version|]; [|done]. destruct (_ =? _)%Z; [|done].
  destruct (_ ≫= _) as [listed|]; [|done].
  revert nodes. induction listed as [|entry rest IH]; intros nodes; cbn [read_entries].
  - by intros [= <-].
  - intros (node & Hn & (tail & Ht & [= <-])%expected_bind_value)%expected_bind_value.
    constructor; [by eapply read_entry_wireable | by apply IH].
Qed.

(** The fields the reader knows are those of sessions, windows, panes and clients: a
    filter of a buffer or of a command, whose handles the library has, is written and
    then refused. *)
Theorem known_fields noun name :
  name ∈ (string_name <$> strings (handles noun)) ++ (bool_name <$> bools (handles noun)) ++
         (number_name <$> numbers (handles noun)) ->
  is_known_field name = negb (bool_decide (noun = CommandNoun \/ noun = BufferNoun)).
Proof.
  intros H. assert (forallb (fun n => bool_decide (is_known_field n =
      negb (bool_decide (noun = CommandNoun \/ noun = BufferNoun))))
    ((string_name <$> strings (handles noun)) ++ (bool_name <$> bools (handles noun)) ++
     (number_name <$> numbers (handles noun))) = true) as Hall by (by destruct noun; vm_compute).
  rewrite List.forallb_forall in Hall. apply list_elem_of_In, Hall in H. by apply bool_decide_eq_true in H.
Qed.

(** The reader accepts what the published schema does not: a version that is one only
    modulo two to the thirty-two, an operator no reader knows, an end with no
    beginning. *)
Theorem from_json_lenient {J : Type} `{!Json J, !JsonLaws J} :
  from_json (jobject [(txt "version", jint 4294967297); (txt "nodes", jarray [])]) = Value [] /\
  exists op, from_json (to_json [string_node (txt "pane_id") op []; plain_node end_group_]) =
      Value [string_node (txt "pane_id") op []; plain_node end_group_] /\
    string_op_of op = None /\ read_nodes [string_node (txt "pane_id") op []; plain_node end_group_] = None.
Proof.
  split.
  - unfold from_json. rewrite object_is_object.
    assert (NoDup ([(txt "version", jint 4294967297); (txt "nodes", jarray [])] : list (text * J)).*1)
      as Hd by (apply (bool_decide_unpack (NoDup _)); by vm_compute).
    rewrite !object_member by done. cbn [negb assoc].
    repeat (first [rewrite bool_decide_true by done | rewrite bool_decide_false by (by vm_compute)]).
    change (Some ?x ≫= ?f) with (f x). cbv beta. rewrite integer_value by (unfold i64_min, i64_max; lia).
    change (get_int 4294967297 =? kSchemaVersion)%Z with true. cbv iota.
    change (Some ?x ≫= ?f) with (f x). cbv beta. by rewrite array_elements.
  - exists (txt "regex"). split_and!; [|done|done]. apply from_json_written.
    repeat constructor.
Qed.

(** * Witnesses *)

(** A library with these laws: documents as trees. *)
Inductive Tree :=
  | TString (s : text) | TBool (b : bool) | TInt (z : Z) | TArray (l : list Tree)
  | TObject (l : list (text * Tree)).

#[local] Instance tree_json : Json Tree := {
  jstring := TString; jbool := TBool; jint := TInt; jarray := TArray; jobject := TObject;
  is_object t := match t with TObject _ => true | _ => false end;
  find_member key t := match t with TObject l => assoc key l | _ => None end;
  elements t := match t with TArray l => Some l | _ => None end;
  as_string t := match t with TString s => Some s | _ => None end;
  as_bool t := match t with TBool b => Some b | _ => None end;
  as_integer t := match t with TInt z => Some z | _ => None end;
}.

#[local] Instance tree_laws : JsonLaws Tree.
Proof. by split. Qed.

Definition sample_nodes : LoweredExpression :=
  lowered (expr_and (string_is (string_column pane_fields 1) contains (txt "vim"))
                    (number_is (number_column pane_fields 5) less (-3))).

Lemma sample_wireable : Forall wireable sample_nodes.
Proof.
  repeat (apply Forall_cons_2; [split; [reflexivity|]|]); try apply Forall_nil_2; try reflexivity; try exact I.
  split; [reflexivity | by vm_compute].
Qed.

Lemma from_json_to_json_witness :
  length sample_nodes = 4 /\ from_json (to_json (J := Tree) sample_nodes) = Value sample_nodes.
Proof. split; [reflexivity | apply from_json_to_json, sample_wireable]. Defined.

Lemma from_json_sound_witness :
  Forall wireable [relation_node (txt "panes") 2; string_node (txt "pane_id") (txt "eq") (txt "%1");
                   plain_node end_relation_].
Proof.
  apply (from_json_sound (J := Tree) (to_json
    [relation_node (txt "panes") 2; string_node (txt "pane_id") (txt "eq") (txt "%1"); plain_node end_relation_])).
  vm_compute. reflexivity.
Defined.

Lemma known_fields_witness :
  is_known_field (txt "buffer_name") = false /\ is_known_field (txt "pane_dead_status") = true.
Proof.
  split.
  - apply (known_fields BufferNoun). left.
  - apply (known_fields PaneNoun). apply (bool_decide_unpack (_ ∈ _)). by vm_compute.
Defined.

Lemma from_json_lenient_witness :
  from_json (J := Tree) (TObject [(txt "version", TInt 4294967297); (txt "nodes", TArray [])]) = Value [].
Proof. exact (proj1 (from_json_lenient (J := Tree))). Defined.
