(* ===== verification/Acquire.v ===== *)
(** Turning tmux commands into entities: [src/acquire.hpp], the acquisition half of
    [src/snapshot.cpp], [src/backend.hpp] as an interface.

    What the library does over a backend is a program: a tree whose nodes are the calls
    it makes, each with what it does on every answer.  [Backend] is the interface such a
    program runs against and [exec] the run; [wp] is what holds of the commands sent and
    of the result whatever the backend answers, and [exec_wp] says that it then holds of
    every run.

    The theorems: a listing or a description runs one command, and hands over rows of the
    asked-for object only, none with a number column that is not a number; the format is
    a flag of the command, whatever the caller's words, unless one of them is the word
    that ends the flags; an expansion is the reply of the object that was named;
    environment variables reach tmux whole. *)

From S2P Require Import Prelude Version Command Snapshot Capabilities Commands Filter EntityData.

(** * Programs *)

Inductive Prog (A : Type) : Type :=
  | Ret (a : A)
  | Run (command : CommandRequest) (timeout limit : option N) (k : expected CommandFailure text -> Prog A)
  | AskVersion (k : expected CommandFailure Version -> Prog A)
  | PrepareAttach (target : text) (k : expected CommandFailure (list text) -> Prog A)
  | ReadClock (k : N -> Prog A).
Arguments Ret {A} a.
Arguments Run {A} command timeout limit k.
Arguments AskVersion {A} k.
Arguments PrepareAttach {A} target k.
Arguments ReadClock {A} k.

Fixpoint bind {A B} (p : Prog A) (f : A -> Prog B) : Prog B :=
  match p with
  | Ret a => f a
  | Run c t l k => Run c t l (fun r => bind (k r) f)
  | AskVersion k => AskVersion (fun r => bind (k r) f)
  | PrepareAttach target k => PrepareAttach target (fun r => bind (k r) f)
  | ReadClock k => ReadClock (fun r => bind (k r) f)
  end.

(** A program that may fail; its bind stops at the first failure. *)
Definition Act (A : Type) : Type := Prog (expected CommandFailure A).

#[export] Instance Act_bind : MBind Act := fun A B f m =>
  bind m (fun r => match r with Value a => f a | Unexpected e => Ret (Unexpected e) end).
Definition give {A} (a : A) : Act A := Ret (Value a).
Definition fail {A} (e : CommandFailure) : Act A := Ret (Unexpected e).
Definition lift {A} (r : expected CommandFailure A) : Act A := Ret r.

(** [detail::Backend], on the state of the world. *)
Class Backend (W : Type) := {
  run : CommandRequest -> option N -> option N -> W -> expected CommandFailure text * W;
  version : W -> expected CommandFailure Version * W;
  prepare_attach : text -> W -> expected CommandFailure (list text) * W;
  clock : W -> N * W;
}.

Fixpoint exec {W A} `{!Backend W} (p : Prog A) (w : W) : A * W :=
  match p with
  | Ret a => (a, w)
  | Run c t l k => let '(r, w) := run c t l w in exec (k r) w
  | AskVersion k => let '(r, w) := version w in exec (k r) w
  | PrepareAttach target k => let '(r, w) := prepare_attach target w in exec (k r) w
  | ReadClock k => let '(r, w) := clock w in exec (k r) w
  end.

(** ** What holds whatever is answered *)

(** A command and its answer. *)
Definition Exchange : Type := (CommandRequest * expected CommandFailure text)%type.

Fixpoint wp {A} (p : Prog A) (Q : list Exchange -> A -> Prop) (sent : list Exchange) : Prop :=
  match p with
  | Ret a => Q sent a
  | Run c _ _ k => forall r, wp (k r) Q (sent ++ [(c, r)])
  | AskVersion k => forall r, wp (k r) Q sent
  | PrepareAttach _ k => forall r, wp (k r) Q sent
  | ReadClock k => forall r, wp (k r) Q sent
  end.

Lemma wp_mono {A} (p : Prog A) (Q R : list Exchange -> A -> Prop) sent :
  (forall s a, Q s a -> R s a) -> wp p Q sent -> wp p R sent.
Proof.
  intros H. revert sent. induction p as [a|c t l k IH|k IH|t k IH|k IH]; intros sent; cbn; eauto.
Qed.

Lemma wp_bind {A B} (p : Prog A) (f : A -> Prog B) Q sent :
  wp p (fun s a => wp (f a) Q s) sent -> wp (bind p f) Q sent.
Proof. revert sent. induction p as [a|c t l k IH|k IH|t k IH|k IH]; intros sent; cbn; auto. Qed.

Lemma wp_act {A B} (m : Act A) (f : A -> Act B) Q sent :
  wp m (fun s r => match r with Value a => wp (f a) Q s | Unexpected e => Q s (Unexpected e) end) sent ->
  wp (m ≫= f) Q sent.
Proof.
  intros H. apply wp_bind. eapply wp_mono; [|exact H]. intros s [a|e] Hr; [exact Hr | exact Hr].
Qed.

(** * Snapshots *)

Definition disconnected : CommandFailure :=
  MkFailure validation not_started 0 (txt "this snapshot has no connection to a tmux server").

Definition unmatched : CommandFailure :=
  MkFailure refused replied 0 (txt "tmux output did not match the fields asked for").

(** The constructor and [parse]. *)
Definition parsed (fields : list text) (output : text) : expected CommandFailure Snapshot :=
  let '(s, ok) := Snapshot_parse (MkSnapshot fields output []) in
  if ok then Value s else Unexpected unmatched.

Inductive FormatArgument := as_flag | as_message.

(** The loop of [take_in_session]: before the first [--]. *)
Fixpoint insert_format (request : CommandRequest) (format : list CommandArgument) : CommandRequest :=
  match request with
  | [] => format
  | argument :: rest =>
      if bool_decide (value argument = txt "--") then format ++ request
      else argument :: insert_format rest format
  end.

Definition with_format (request : CommandRequest) (placement : FormatArgument) (fields : list text) :
    CommandRequest :=
  match placement with
  | as_flag => insert_format request [plain (txt "-F"); plain (format_request fields)]
  | as_message => request ++ [plain (format_request fields)]
  end.

(** [ExecutionPolicy]. *)
Record Policy := MkPolicy { timeout : option N; output_limit : option N }.
Definition policy_of (c : Connection) : Policy := MkPolicy (timeout_policy c) (limit_policy c).

(** [take_in_session]; without a route, and with one on POSIX, it runs the request. *)
Definition take_in_session (fields : list text) (request : CommandRequest) (placement : FormatArgument)
    (policy : Policy) : Act Snapshot :=
  Run (with_format request placement fields) (timeout policy) (output_limit policy) (fun output =>
    match output with
    | Unexpected e => fail e
    | Value output => lift (parsed fields output)
    end).

(** * Numbers *)

Definition number_fields (noun : Noun) : list text :=
  match noun with
  | SessionNoun => map txt ["session_attached"; "session_windows"; "session_created"]%string
  | WindowNoun => map txt ["window_index"; "window_panes"; "window_width"; "window_height";
                           "window_linked_sessions"]%string
  | PaneNoun => map txt ["pane_index"; "pane_pid"; "pane_width"; "pane_height"; "pane_left";
                         "pane_top"; "pane_dead_status"]%string
  | ClientNoun => map txt ["client_width"; "client_height"; "client_created"; "client_activity"]%string
  | BufferNoun => map txt ["buffer_size"; "buffer_created"]%string
  | CommandNoun => []
  end.

Definition quote : ascii := ascii_of_N 34.

Definition not_a_number (field s : text) : CommandFailure :=
  MkFailure refused replied 0
    (txt "tmux answered " ++ field ++ txt " as " ++ quote :: s ++ quote :: txt ", which is not a number").

(** The first cell of a column that is there and is not a number. *)
Definition bad_cell (field : text) (column : nat) (row : list text) : option CommandFailure :=
  match row !! column with
  | None | Some [] => None
  | Some s => match from_chars i64_min i64_max s with Some _ => None | None => Some (not_a_number field s) end
  end.

Definition malformed_number (noun : Noun) (s : Snapshot) : option CommandFailure :=
  head (omap id
    (field ← number_fields noun; bad_cell field (index_of s field) <$> row_texts s)).

(** * Entities *)

Definition rows_of (s : Snapshot) (c : Connection) : list Row :=
  (fun i => MkRow s i (Some c)) <$> seq 0 (length (rows_ s)).

Definition list_entities (noun : Noun) (backend : option Connection) (request : CommandRequest)
    (call_policy : option Policy) : Act (list Row) :=
  match backend with
  | None => fail disconnected
  | Some c =>
      s ← take_in_session (kFields noun) request as_flag (default (policy_of c) call_policy);
      match malformed_number noun s with
      | Some bad => fail bad
      | None => give (rows_of s c)
      end
  end.

Definition no_such (noun target : text) : CommandFailure :=
  MkFailure missing replied 0 (txt "tmux has no " ++ noun ++ txt " " ++ target).

Definition one_entity (noun : Noun) (backend : option Connection) (request : CommandRequest)
    (placement : FormatArgument) (target expected_identity : text) (call_policy : option Policy) : Act Row :=
  match backend with
  | None => fail disconnected
  | Some c =>
      s ← take_in_session (kFields noun) request placement (default (policy_of c) call_policy);
      match malformed_number noun s with
      | Some bad => fail bad
      | None =>
          let entity := MkRow s 0 (Some c) in
          if negb (length (rows_ s) =? 1)%nat || bool_decide (id_of entity = []) ||
             (negb (bool_decide (expected_identity = [])) && negb (bool_decide (id_of entity = expected_identity)))
          then fail (no_such (kNoun noun) target)
          else give entity
      end
  end.

Definition bad_variable : CommandFailure :=
  MkFailure validation not_started 0
    (txt "an environment variable name cannot be empty or hold an '=': tmux would accept it and set nothing").

Fixpoint append_environment (command : CommandRequest) (variables : list (text * text)) :
    expected CommandFailure CommandRequest :=
  match variables with
  | [] => Value command
  | (name, v) :: rest =>
      if bool_decide (name = []) || bool_decide ("="%char ∈ name) then Unexpected bad_variable
      else append_environment
             (command ++ [plain (txt "-e");
                          sensitive_range (name ++ txt "=" ++ v) (length name + 1) (length v)]) rest
  end.

Definition append_display_message_text (command : list text) (s : text) : list text :=
  command ++ [txt "--"; s].

Definition without_trailing_newline (s : text) : text :=
  if ends_with_char newline s then removelast s else s.

Definition words (l : list text) : CommandRequest := plain <$> l.

(** [expand_format], naming the entity. *)
Definition expand_format (noun : Noun) (backend : option Connection) (target format expected_identity : text) :
    Act text :=
  match backend with
  | None => fail disconnected
  | Some c =>
      let identity := if bool_decide (expected_identity = []) then target else expected_identity in
      let request := txt "#{" ++ nth 0 (kFields noun) [] ++ txt "}" ++ kFormatSeparator ++ format in
      let command := append_display_message_text [txt "display-message"; txt "-p"; txt "-t"; target] request in
      Run (words command) (timeout_policy c) (limit_policy c) (fun reply =>
        match reply with
        | Unexpected e => fail e
        | Value reply =>
            let answer := without_trailing_newline reply in
            let opening := identity ++ kFormatSeparator in
            if starts_with opening answer then give (drop (length opening) answer)
            else fail (no_such (kNoun noun) target)
        end)
  end.

Definition describe (noun : Noun) (backend : option Connection) (target expected_identity : text)
    (call_policy : option Policy) : Act Row :=
  one_entity noun backend (words [txt "display-message"; txt "-p"; txt "-t"; target]) as_message
    target expected_identity call_policy.

(** * Refusals that ask the daemon *)

Definition refuse_before (needed : Version) (operation needed_text : text) : Prog (option CommandFailure) :=
  AskVersion (fun running =>
    Ret match running with
        | Unexpected e => Some e
        | Value running =>
            if version_geb running needed then None else Some (older_daemon operation needed_text)
        end).

Definition refuse_name_on_exact_37 (name what : text) : Prog (option CommandFailure) :=
  if negb (separated name) then Ret None
  else AskVersion (fun running =>
    Ret match running with
        | Unexpected e => Some e
        | Value running =>
            if affects name_separators_rejected running then Some (separator_in_name what) else None
        end).

(** * Runs *)

(** A backend that keeps what it was asked to run. *)
Class Logged (W : Type) `{!Backend W} := {
  log : W -> list Exchange;
  run_logs : forall c t l w, log (run c t l w).2 = log w ++ [(c, (run c t l w).1)];
  version_quiet : forall w, log (version w).2 = log w;
  attach_quiet : forall target w, log (prepare_attach target w).2 = log w;
  clock_quiet : forall w, log (clock w).2 = log w;
}.

(** What holds whatever is answered holds of every run, on every backend: of the
    exchanges the run adds to the backend's log and of the result it comes to. *)
Theorem exec_wp {W A} `{!Backend W, !Logged W} (p : Prog A) Q (w : W) :
  wp p Q [] -> exists sent, log (exec p w).2 = log w ++ sent /\ Q sent (exec p w).1.
Proof.
  enough (forall sent, wp p Q sent -> exists more, log (exec p w).2 = log w ++ more /\ Q (sent ++ more) (exec p w).1)
    as H by (intros Hp; exact (H [] Hp)).
  revert w. induction p as [a|c t l k IH|k IH|target k IH|k IH]; intros w sent Hp; cbn [wp exec] in *.
  - exists []. by rewrite !app_nil_r.
  - pose proof (run_logs c t l w) as Hl. destruct (run c t l w) as [r w1]. cbn [fst snd] in Hl.
    destruct (IH r w1 _ (Hp r)) as (more & E & H). exists ((c, r) :: more).
    rewrite E, Hl, <-app_assoc. split; [done|]. by rewrite <-app_assoc in H.
  - pose proof (version_quiet w) as Hl. destruct (version w) as [r w1]. cbn [snd] in Hl.
    rewrite <-Hl. by apply IH.
  - pose proof (attach_quiet target w) as Hl. destruct (prepare_attach target w) as [r w1]. cbn [snd] in Hl.
    rewrite <-Hl. by apply IH.
  - pose proof (clock_quiet w) as Hl. destruct (clock w) as [r w1]. cbn [snd] in Hl.
    rewrite <-Hl. by apply IH.
Qed.

(** * Where the format goes *)

Lemma insert_format_spec pre post format :
  Forall (fun a => value a <> txt "--") pre ->
  insert_format (pre ++ plain (txt "--") :: post) format = pre ++ format ++ plain (txt "--") :: post /\
  insert_format pre format = pre ++ format.
Proof.
  induction 1 as [|a pre Ha _ [IH1 IH2]]; cbn [app insert_format].
  - rewrite bool_decide_true by done. by rewrite ?app_nil_r.
  - rewrite bool_decide_false by done. by rewrite IH1, IH2.
Qed.

(** * Numbers *)

(** The cell is empty, or is a number in full. *)
Definition numeric (v : text) : Prop := v = [] \/ exists n, from_chars i64_min i64_max v = Some n.

Lemma head_None {A} (l : list (option A)) : head (omap id l) = None <-> Forall (fun x => x = None) l.
Proof.
  induction l as [|[a|] l IH]; cbn; [by split; [constructor|] | |].
  - split; [done|]. by inversion 1.
  - rewrite IH, Forall_cons. split; [by auto | by intros [_ ?]].
Qed.

Lemma bad_cell_None field column row :
  bad_cell field column row = None <-> numeric (nth column row []).
Proof.
  unfold bad_cell, numeric. rewrite nth_lookup.
  destruct (row !! column) as [[|c s]|]; cbn [default]; [by split; auto | | by split; auto].
  destruct (from_chars _ _ _) as [n|] eqn:E; [by split; eauto|].
  split; [done|]. by intros [? | [n ?]].
Qed.

Lemma value_at_texts s i c column :
  value_at (MkRow s i c) column = nth column (nth i (row_texts s) []) [].
Proof.
  unfold value_at, row_texts. cbn [snapshot row_index]. rewrite !nth_lookup, !list_lookup_fmap.
  destruct (rows_ s !! i) as [columns|]; cbn; [|by destruct column].
  rewrite list_lookup_fmap. by destruct (columns !! column).
Qed.

Lemma malformed_number_None noun s :
  malformed_number noun s = None ->
  forall c i field, field ∈ number_fields noun -> numeric (value_of_field (MkRow s i c) field).
Proof.
  unfold malformed_number. rewrite head_None, Forall_forall. intros H c i field Hf.
  unfold value_of_field. rewrite value_at_texts. cbn [snapshot].
  destruct (decide (i < length (row_texts s))) as [Hi|Hi].
  - apply (bad_cell_None field), H. apply list_elem_of_bind. exists field. split; [|done].
    apply list_elem_of_fmap_2. rewrite nth_lookup.
    destruct (lookup_lt_is_Some_2 _ _ Hi) as [row Hr]. rewrite Hr. by eapply list_elem_of_lookup_2.
  - rewrite (nth_overflow (row_texts s)) by lia. left. by destruct (index_of s field).
Qed.

(** Exactly one number handle reads a column that is not checked to be a number where
    rows become entities: the process id of a client. *)
Theorem unchecked_number_columns noun name :
  name ∈ number_name <$> numbers (handles noun) ->
  (name ∉ number_fields noun <-> noun = ClientNoun /\ name = txt "client_pid").
Proof.
  intros H. assert (forallb (fun n => Bool.eqb (bool_decide (n ∉ number_fields noun))
      (bool_decide (noun = ClientNoun /\ n = txt "client_pid"))) (number_name <$> numbers (handles noun)) = true)
    as Hall by (by destruct noun; vm_compute).
  rewrite List.forallb_forall in Hall. apply list_elem_of_In, Hall, eqb_prop in H.
  destruct (decide (name ∉ number_fields noun)) as [E|E].
  - rewrite (bool_decide_true _ E) in H. symmetry in H. apply bool_decide_eq_true in H. by split.
  - rewrite (bool_decide_false _ E) in H. symmetry in H. apply bool_decide_eq_false in H. by split.
Qed.

(** * Entities *)

Lemma parsed_fields fields output s : parsed fields output = Value s -> fields_ s = fields.
Proof.
  unfold parsed, Snapshot_parse. destruct (parse_loop _ _ _ _ _) as [o [rows|]]; cbn; [|done].
  by intros [= <-].
Qed.

Lemma wp_take fields request placement policy Q sent :
  (forall r e, Q (sent ++ [(with_format request placement fields, r)]) (Unexpected e)) ->
  (forall output s, parsed fields output = Value s ->
     Q (sent ++ [(with_format request placement fields, Value output)]) (Value s)) ->
  wp (take_in_session fields request placement policy) Q sent.
Proof.
  intros He Hv. unfold take_in_session. cbn [wp]. intros [output|e]; cbn; [|apply He].
  destruct (parsed fields output) as [s|e] eqn:E; [by apply Hv | apply He].
Qed.

(** What a row handed over promises: it was taken with its type's fields, over the
    connection it was asked of, and its checked number columns are numbers. *)
Definition sound_row (noun : Noun) (c : Connection) (row : Row) : Prop :=
  connection row = Some c /\ taken_as noun row /\
  forall field, field ∈ number_fields noun -> numeric (value_of_field row field).

Lemma sound_row_of noun output s c i :
  parsed (kFields noun) output = Value s -> malformed_number noun s = None ->
  sound_row noun c (MkRow s i (Some c)).
Proof.
  intros Hf%parsed_fields Hm. split_and!; [done | by exists []; rewrite app_nil_r |].
  intros field Hin. by eapply malformed_number_None.
Qed.

(** The one object that was asked for, read from [output]. *)
Definition the_entity (noun : Noun) (c : Connection) (output expected : text) (row : Row) : Prop :=
  parsed (kFields noun) output = Value (snapshot row) /\ sound_row noun c row /\
  length (rows_ (snapshot row)) = 1 /\ row_index row = 0 /\
  id_of row <> [] /\ (expected <> [] -> id_of row = expected).

Lemma wp_one_entity noun backend request placement target expected policy Q sent :
  (backend = None -> Q sent (Unexpected disconnected)) ->
  (forall c r e, backend = Some c -> Q (sent ++ [(with_format request placement (kFields noun), r)]) (Unexpected e)) ->
  (forall c output row, backend = Some c -> the_entity noun c output expected row ->
     Q (sent ++ [(with_format request placement (kFields noun), Value output)]) (Value row)) ->
  wp (one_entity noun backend request placement target expected policy) Q sent.
Proof.
  intros Hn He Hv. unfold one_entity. destruct backend as [c|]; [|by apply Hn].
  apply wp_act. apply wp_take; [intros r e; by apply (He c)|]. intros output s Hp.
  destruct (malformed_number noun s) as [bad|] eqn:Hm; [by apply (He c)|]. cbv zeta.
  destruct (_ || _) eqn:Ho; [by apply (He c)|]. to_props. apply (Hv c); [done|]. split_and!; try done.
  - by eapply sound_row_of.
  - intros Hx. rewrite andb_false_iff, !negb_false_iff, !bool_decide_eq_true in *.
    match goal with H : _ \/ _ |- _ => by destruct H end.
Qed.

(** C36: Asking for one object runs one command, the caller's with the format in it, and
    what it hands over is the one row of the answer, with an identity and with every checked
    number a number.  Where the caller expects an identity the row has that one; a caller
    that expects none is handed whichever object tmux answered with.  A value from a
    recording runs nothing. *)
Theorem one_entity_identity noun backend request placement target expected policy :
  wp (one_entity noun backend request placement target expected policy) (fun sent r =>
    match backend with
    | None => sent = [] /\ r = Unexpected disconnected
    | Some c =>
        exists reply, sent = [(with_format request placement (kFields noun), reply)] /\
          match r with
          | Unexpected _ => True
          | Value row => exists output, reply = Value output /\ the_entity noun c output expected row
          end
    end) [].
Proof.
  apply wp_one_entity; [by intros -> | intros c r e -> | intros c output row -> H]; eauto 10.
Qed.

(** A listing runs one command and hands over every row of the answer, in order, each
    a row of the type that was asked for with every checked number a number. *)
Theorem list_entities_rows noun c request policy :
  wp (list_entities noun (Some c) request policy) (fun sent r =>
    exists reply, sent = [(with_format request as_flag (kFields noun), reply)] /\
    match r with
    | Unexpected _ => True
    | Value rows =>
        exists output s, reply = Value output /\ parsed (kFields noun) output = Value s /\
          rows = rows_of s c /\ length rows = length (rows_ s) /\ Forall (sound_row noun c) rows
    end) [].
Proof.
  unfold list_entities. apply wp_act. apply wp_take; [intros r e; by exists r|]. intros output s Hp.
  destruct (malformed_number noun s) as [bad|] eqn:Hm; [by exists (Value output)|].
  exists (Value output). split; [done|]. exists output, s.
  split_and!; [done | done | done | unfold rows_of; by rewrite length_fmap, length_seq |].
  unfold rows_of. apply Forall_fmap, Forall_forall. intros i _. by eapply sound_row_of.
Qed.

(** * Expansions *)

(** One line end at the end taken off, as tmux put it on. *)
Lemma without_trailing_newline_spec s :
  s = without_trailing_newline s \/ s = without_trailing_newline s ++ [newline].
Proof.
  unfold without_trailing_newline. destruct s as [|c s _] using rev_ind; [by left|].
  rewrite ends_with_char_snoc. case_bool_decide; [subst|by left]. rewrite removelast_last. by right.
Qed.

Definition expansion_request (noun : Noun) (target format : text) : CommandRequest :=
  words [txt "display-message"; txt "-p"; txt "-t"; target; txt "--";
         txt "#{" ++ nth 0 (kFields noun) [] ++ txt "}" ++ kFormatSeparator ++ format].

(** An expansion is one command for one target, and its answer is exactly what tmux
    printed after the identity of the object that was asked for; an answer about
    anything else is a failure that says so. *)
Theorem expand_identity noun c target format expected :
  let identity := if bool_decide (expected = []) then target else expected in
  wp (expand_format noun (Some c) target format expected) (fun sent r =>
    exists reply, sent = [(expansion_request noun target format, reply)] /\
    match reply with
    | Unexpected e => r = Unexpected e
    | Value output =>
        (exists answer, r = Value answer /\
           without_trailing_newline output = identity ++ kFormatSeparator ++ answer) \/
        r = Unexpected (no_such (kNoun noun) target) /\
          ~ (exists answer, without_trailing_newline output = identity ++ kFormatSeparator ++ answer)
    end) [].
Proof.
  intros identity. unfold expand_format. cbn [wp]. intros reply. cbv zeta. fold identity.
  destruct reply as [output|e]; cbn [wp]; [|by exists (Unexpected e)].
  destruct (starts_with _ _) eqn:Hs; exists (Value output); (split; [done|]).
  - apply starts_with_spec in Hs as [answer Ha]. left. exists answer.
    rewrite Ha, drop_app_length, <-app_assoc. done.
  - right. split; [done|]. intros [answer Ha]. rewrite Ha, app_assoc, starts_with_app in Hs. done.
Qed.

(** * Environment *)

Definition good_name (name : text) : Prop := name <> [] /\ "="%char ∉ name.

(** Variables reach tmux whole: each as its own flag, a name and a value that read back
    at the first equals sign, with the value and nothing else secret; a name tmux would
    take and set nothing with is refused, and only such a name. *)
Theorem environment_reaches_tmux command variables :
  match append_environment command variables with
  | Unexpected e => e = bad_variable /\ ~ Forall (fun v => good_name v.1) variables
  | Value command' =>
      Forall (fun v => good_name v.1) variables /\
      exists arguments, command' = command ++ concat arguments /\
        Forall2 (fun v written => exists a, written = [plain (txt "-e"); a] /\
          sensitive_parts a = (if bool_decide (v.2 = []) then [] else [v.2]) /\
          exists i, find_char "=" (value a) = Some i /\ take i (value a) = v.1 /\ drop (S i) (value a) = v.2)
          variables arguments
  end.
Proof.
  revert command. induction variables as [|[name v] variables IH]; intros command; cbn [append_environment].
  { split; [constructor|]. exists []. by rewrite app_nil_r. }
  destruct (_ || _) eqn:Hb.
  - split; [done|]. inversion 1 as [|? ? [Hne Hin] _]. cbn in *. subst.
    apply orb_true_iff in Hb as [Hb%bool_decide_eq_true|Hb%bool_decide_eq_true]; auto.
  - to_props. set (a := sensitive_range _ _ _).
    specialize (IH (command ++ [plain (txt "-e"); a])).
    destruct (append_environment _ _) as [command'|e].
    + destruct IH as [Hg (arguments & -> & Ha)]. split; [by constructor|].
      exists ([plain (txt "-e"); a] :: arguments). split; [cbn [concat]; by rewrite <-!app_assoc|].
      constructor; [|done]. exists a. cbn [fst snd]. change (txt "=") with ["="%char] in a.
      assert (value a = name ++ "="%char :: v /\ sensitive_parts a = if bool_decide (v = []) then [] else [v]) as [Hv Hs].
      { unfold a, sensitive_range. rewrite length_app. cbn [app length].
        rewrite (proj2 (Nat.ltb_ge _ _)), (proj2 (Nat.ltb_ge _ _)) by lia. cbn [orb].
        destruct v as [|c v]; cbn [length Nat.eqb]; [done|]. split; [done|]. cbn [sensitive_parts].
        f_equal. replace (length name + 1) with (S (length name)) by lia.
        rewrite drop_app_ge, Nat.sub_succ_l, Nat.sub_diag by lia. change (S (length v)) with (length (c :: v)). cbn [drop].
        by rewrite firstn_all. }
      split_and!; [done | done |]. exists (length name). rewrite Hv.
      rewrite find_char_app, take_app_length, drop_app_ge, Nat.sub_succ_l, Nat.sub_diag by (done || lia).
      by split_and!.
    + destruct IH as [He Hn]. split; [done|]. intros Hall. apply Hn. by inversion Hall.
Qed.

(** * Refusals *)

(** A name is refused exactly when it holds a separator and the daemon is the release that
    runs half of the command before refusing it, or does not say what it is. *)
Lemma refuse_name_spec name what :
  (~ has_separator name -> refuse_name_on_exact_37 name what = Ret None) /\
  (has_separator name -> exists k, refuse_name_on_exact_37 name what = AskVersion k /\
     (forall e, k (Unexpected e) = Ret (Some e)) /\
     forall v, k (Value v) =
       Ret (if decide (v = release_version kTmux37) then Some (separator_in_name what) else None)).
Proof.
  unfold refuse_name_on_exact_37.
  assert (separated name = true <-> has_separator name) as Hs by apply separated_spec.
  destruct (separated name); cbn [negb].
  - split; [by intros []; apply Hs|]. intros _. eexists. split; [reflexivity|]. split; [done|].
    intros v. destruct (affects _ v) eqn:E.
    + apply affects_37 in E as ->. by rewrite decide_True.
    + rewrite decide_False; [done|]. intros ->. by rewrite (proj2 (affects_37 _ _) eq_refl) in E.
  - split; [done|]. by intros ?%Hs.
Qed.

(** * Witnesses *)

(** A backend that answers from a script. *)
Record Script := MkScript { answers : list (expected CommandFailure text); asked : list Exchange }.

#[export] Instance script_backend : Backend Script := {
  run c t l w :=
    match answers w with
    | r :: rest => (r, MkScript rest (asked w ++ [(c, r)]))
    | [] => (Unexpected disconnected, MkScript [] (asked w ++ [(c, Unexpected disconnected)]))
    end;
  version w := (Value (release_version kTmux37), w);
  prepare_attach target w := (Value [target], w);
  clock w := (0%N, w);
}.

#[export] Instance script_logged : Logged Script.
Proof. by refine {| log := asked |}; [intros c t l [[|r rest] w] | ..]. Defined.

Definition sample_reply (noun : Noun) (values : list string) : text :=
  concat (map (fun v => txt v ++ kFormatSeparator) values) ++ [newline].

Lemma exec_wp_witness :
  exists sent, asked (exec (describe SessionNoun (Some sample_connection) (txt "$1") (txt "$1") None)
      (MkScript [Value (sample_reply SessionNoun ["$1"; "work"; "2"; "3"; "/tmp"; "17"; ""; "0"])] [])).2 = sent /\
    length sent = 1.
Proof.
  destruct (exec_wp (describe SessionNoun (Some sample_connection) (txt "$1") (txt "$1") None)
    (fun sent _ => length sent = 1)
    (MkScript [Value (sample_reply SessionNoun ["$1"; "work"; "2"; "3"; "/tmp"; "17"; ""; "0"])] []))
    as (sent & E & H).
  - by apply wp_one_entity.
  - exists sent. by split.
Defined.

Example described_session :
  (fun r => match r with Value row => (id_of row, client_count row) | Unexpected _ => ([], 0%Z) end)
    (exec (describe SessionNoun (Some sample_connection) (txt "$1") (txt "$1") None)
      (MkScript [Value (sample_reply SessionNoun ["$1"; "work"; "2"; "3"; "/tmp"; "17"; ""; "0"])] [])).1 =
  (txt "$1", 2%Z).
Proof. vm_compute. reflexivity. Qed.

(** A number column that is not a number is refused. *)
Example garbage_refused :
  (exec (describe SessionNoun (Some sample_connection) (txt "$1") (txt "$1") None)
     (MkScript [Value (sample_reply SessionNoun ["$1"; "work"; "two"; "3"; "/tmp"; "17"; ""; "0"])] [])).1 =
  Unexpected (not_a_number (txt "session_attached") (txt "two")).
Proof. vm_compute. reflexivity. Qed.

Lemma unchecked_number_columns_witness :
  txt "client_pid" ∉ number_fields ClientNoun.
Proof.
  apply (unchecked_number_columns ClientNoun (txt "client_pid")); [|done].
  apply (bool_decide_unpack (_ ∈ _)). by vm_compute.
Defined.
