(* ===== verification/Entities.v ===== *)
(** Operations on sessions, windows, panes, buffers and clients: [src/entities.cpp]
    (POSIX branches; [break_out] is in BreakOut.v).

    Each member function is a program over the connection its row came from: what it
    refuses before anything is sent, the command it builds, and what it makes of the
    reply. Calls.v has what the operations
    achieve. *)

From S2P Require Import Prelude Version Command Snapshot Capabilities Layout Commands Backend.
From S2P Require Import Filter Naming Options EntityData Acquire.

(** * Helpers *)

(** [Row::run]. *)
Definition row_run (row : Row) (command : CommandRequest) (limit : option N) : Act text :=
  match connection row with
  | None => fail disconnected
  | Some c =>
      Run command (timeout_policy c)
        (match limit with Some _ => limit | None => limit_policy c end) (fun reply => lift reply)
  end.

Definition from_different_servers (left right : Row) : bool :=
  let mine := connection_identity left in
  let theirs := connection_identity right in
  negb (bool_decide (mine = [])) && negb (bool_decide (theirs = [])) && negb (bool_decide (mine = theirs)).

Definition crossed_servers : CommandFailure :=
  MkFailure validation not_started 0 (txt "the two values name objects on different tmux servers").

(** [Row::refused]. *)
Definition row_refused (row : Row) (feature : ServerFeature) (why : text) : option CommandFailure :=
  match connection row with
  | None => None
  | Some c =>
      if refuses (implementation c) feature then Some (MkFailure unsupported not_started 0 why) else None
  end.

(** [if (auto refusal = ...) return unexpected(...)]. *)
Definition guard {A} (refusal : option CommandFailure) (p : Act A) : Act A :=
  match refusal with Some e => fail e | None => p end.

Definition effect (p : Act text) : Act unit := _ ← p; give tt.

Definition rejected (diagnostic : text) : CommandFailure := MkFailure validation not_started 0 diagnostic.

Definition listed (p : Act text) : Act (list OptionEntry) := reply ← p; give (parse_options reply).

(** The first entry of a listing about one option. *)
Definition named_entry (entries : list OptionEntry) (name : text) : expected CommandFailure OptionEntry :=
  match entries with
  | [] => Unexpected (MkFailure missing replied 0 (txt "no value set for option " ++ name))
  | entry :: _ =>
      if inherited entry && negb (bool_decide (option_name entry = name)) &&
         bool_decide (option_name entry ++ txt "*" = name)
      then Value (MkOption name (index entry) (option_value entry) false)
      else Value entry
  end.

Definition named (p : Act text) (name : text) : Act OptionEntry :=
  entries ← listed p; lift (named_entry entries name).

Definition scoped (verb scope target : text) (rest : list text) : list text :=
  [verb] ++ (if bool_decide (scope = []) then [] else [scope]) ++ [txt "-t"; target] ++ rest.

(** A guarded command run for its effect. *)
Definition mutate (row : Row) (feature : ServerFeature) (why : string) (command : CommandRequest) : Act unit :=
  guard (row_refused row feature (txt why)) (effect (row_run row command None)).

(** [if (backend() != nullptr) if (auto invalid = refuse_name_on_exact_37(...))]. *)
Definition check_name {A} (row : Row) (name what : text) (p : Act A) : Act A :=
  match connection row with
  | None => p
  | Some _ => bind (refuse_name_on_exact_37 name what) (fun invalid => guard invalid p)
  end.

Definition flag_if (b : bool) (f : string) : CommandRequest := if b then [plain (txt f)] else [].

(** The shell command, last and after [--]. *)
Definition shell_part (shell : text) : CommandRequest :=
  if bool_decide (shell = []) then [] else [plain (txt "--"); sensitive shell].

Definition directory_part (directory : text) : CommandRequest :=
  if bool_decide (directory = []) then [] else words [txt "-c"; escape_literal directory].

(** * Sessions *)

Definition session_target (session : Row) : text := id_of session.

Definition session_windows (s : Row) : Act (list Row) :=
  list_entities WindowNoun (connection s) (words [txt "list-windows"; txt "-t"; session_target s]) None.
Definition session_panes (s : Row) : Act (list Row) :=
  list_entities PaneNoun (connection s) (words [txt "list-panes"; txt "-s"; txt "-t"; session_target s]) None.
Definition session_active_window (s : Row) : Act Row :=
  describe WindowNoun (connection s) (session_target s) [] None.
Definition session_active_pane (s : Row) : Act Row :=
  describe PaneNoun (connection s) (session_target s) [] None.

Definition moved (s : Row) (ran : Act text) : Act Row := _ ← ran; session_active_window s.

Definition no_navigation : string := "psmux cannot atomically target session navigation".

Definition select_window_by (verb : string) (s : Row) : Act Row :=
  guard (row_refused s captured_mutation (txt no_navigation))
    (moved s (row_run s (words [txt verb; txt "-t"; session_target s]) None)).
Definition session_select_next_window : Row -> Act Row := select_window_by "next-window".
Definition session_select_previous_window : Row -> Act Row := select_window_by "previous-window".
Definition session_select_last_window : Row -> Act Row := select_window_by "last-window".

Record NewWindowOptions := MkNewWindow {
  nw_name : text;
  nw_start_directory : text;
  nw_shell_command : text;
  nw_after_current : bool;
  nw_index : option Z;
  nw_focus : bool;
  nw_environment : list (text * text);
}.

Definition new_window_target (s : Row) (o : NewWindowOptions) : text :=
  session_target s ++ match nw_index o with Some i => txt ":" ++ dec_Z i | None => [] end.

(** The command as far as the directory. *)
Definition new_window_command (s : Row) (o : NewWindowOptions) : CommandRequest :=
  words [txt "new-window"; txt "-t"; new_window_target s o; txt "-P"; txt "-n"; escape_literal (nw_name o)] ++
  flag_if (negb (nw_focus o)) "-d" ++ flag_if (nw_after_current o) "-a" ++
  directory_part (nw_start_directory o).

Definition new_window_request (s : Row) (o : NewWindowOptions) : expected CommandFailure CommandRequest :=
  command ← append_environment (new_window_command s o) (nw_environment o);
  Value (command ++ shell_part (nw_shell_command o)).

Definition session_new_window (s : Row) (o : NewWindowOptions) : Act Row :=
  if bool_decide (nw_name o = []) then fail (rejected (txt "window name is empty"))
  else
    guard (row_refused s window_creation
             (txt "psmux can report a failed new-window as an existing window"))
      (check_name s (nw_name o) (txt "window")
        (command ← lift (new_window_request s o);
         one_entity WindowNoun (connection s) command as_flag (nw_name o) [] None)).

Definition session_rename (s : Row) (name : text) : Act unit :=
  if bool_decide (name = []) then fail (rejected (txt "session name is empty"))
  else
    check_name s name (txt "session")
      (effect (row_run s (words [txt "rename-session"; txt "-t"; session_target s; txt "--";
                                 escape_literal name]) None)).

Definition session_kill (s : Row) : Act unit :=
  mutate s captured_mutation "psmux cannot atomically kill a captured session"
    (words [txt "kill-session"; txt "-t"; session_target s]).
Definition session_refresh (s : Row) : Act Row :=
  describe SessionNoun (connection s) (session_target s) (id_of s) None.

Definition session_options (s : Row) : Act (list OptionEntry) :=
  guard (row_refused s server_state (txt "psmux cannot atomically read session options"))
    (listed (row_run s (words (scoped (txt "show-options") [] (session_target s) [txt "-A"])) None)).
Definition session_option (s : Row) (name : text) : Act OptionEntry :=
  guard (row_refused s server_state (txt "psmux cannot atomically read a session option"))
    (named (row_run s (words (scoped (txt "show-options") [] (session_target s)
              [txt "-A"; txt "--"; name])) None) name).
Definition session_set_option (s : Row) (name v : text) : Act unit :=
  mutate s server_state "psmux cannot atomically set a session option"
    (words (scoped (txt "set-option") [] (session_target s) [txt "--"; name]) ++ [sensitive v]).
Definition session_unset_option (s : Row) (name : text) : Act unit :=
  mutate s server_state "psmux cannot atomically unset a session option"
    (words (scoped (txt "set-option") [] (session_target s) [txt "-u"; txt "--"; name])).
Definition session_expand (s : Row) (format : text) : Act text :=
  expand_format SessionNoun (connection s) (session_target s) format (id_of s).
Definition session_show_message (s : Row) (message : text) : Act unit :=
  mutate s captured_mutation "psmux cannot safely preserve a session message"
    (words (append_display_message_text [txt "display-message"; txt "-t"; session_target s] message)).

(** The argv; the route that keeps it alive is not modelled. *)
Definition session_attach_command (s : Row) : Act (list text) :=
  match connection s with
  | None => fail disconnected
  | Some _ => PrepareAttach (id_of s) (fun prepared => lift prepared)
  end.
Definition session_detach_clients (s : Row) : Act unit :=
  mutate s captured_mutation "psmux cannot safely route detach-client"
    (words [txt "detach-client"; txt "-s"; session_target s]).
Definition session_hooks (s : Row) : Act (list OptionEntry) :=
  guard (row_refused s server_state (txt "psmux cannot atomically read session hooks"))
    (listed (row_run s (words [txt "show-hooks"; txt "-t"; session_target s]) None)).
Definition session_set_hook (s : Row) (name command : text) : Act unit :=
  mutate s server_state "psmux cannot atomically set a session hook"
    (words [txt "set-hook"; txt "-t"; session_target s; txt "--"; name] ++ [sensitive command]).

(** * Windows *)

Definition window_checked_target (w : Row) : expected CommandFailure text :=
  match row_refused w reusable_window_target
          (txt "psmux cannot bind a reusable target to a captured window safely") with
  | Some e => Unexpected e
  | None =>
      if bool_decide (window_session_id w = []) then Value (id_of w)
      else Value (window_session_id w ++ txt ":" ++ id_of w)
  end.

Definition window_target_text (w : Row) : text :=
  match window_checked_target w with Value target => target | Unexpected _ => [] end.

(** [window_command_target]. *)
Definition window_command_target (w : Row) : text := window_target_text w.

Definition window_session (w : Row) : Act Row :=
  describe SessionNoun (connection w) (window_command_target w) [] None.
Definition window_panes (w : Row) : Act (list Row) :=
  list_entities PaneNoun (connection w) (words [txt "list-panes"; txt "-t"; window_command_target w]) None.
Definition window_active_pane (w : Row) : Act Row :=
  describe PaneNoun (connection w) (window_command_target w) [] None.

Record SplitOptions := MkSplit {
  sp_horizontal : bool;
  sp_before : bool;
  sp_full_size : bool;
  sp_start_directory : text;
  sp_shell_command : text;
  sp_percentage : option Z;
  sp_focus : bool;
  sp_environment : list (text * text);
}.

Definition bad_percentage (o : SplitOptions) : bool :=
  match sp_percentage o with Some p => ((p <? 1) || (100 <? p))%Z | None => false end.

(** The command of [Window::split] and [Pane::split], as far as the directory. *)
Definition split_command (target : text) (o : SplitOptions) : CommandRequest :=
  words [txt "split-window"; txt "-t"; target; txt "-P"] ++
  flag_if (negb (sp_focus o)) "-d" ++
  [plain (txt (if sp_horizontal o then "-h" else "-v")%string)] ++
  flag_if (sp_before o) "-b" ++ flag_if (sp_full_size o) "-f" ++
  match sp_percentage o with Some p => words [txt "-l"; dec_Z p ++ txt "%"] | None => [] end ++
  directory_part (sp_start_directory o).

Definition split_request (target : text) (o : SplitOptions) : expected CommandFailure CommandRequest :=
  command ← append_environment (split_command target o) (sp_environment o);
  Value (command ++ shell_part (sp_shell_command o)).

Definition split_from (row : Row) (target : text) (o : SplitOptions) : Act Row :=
  if bad_percentage o then fail (rejected (txt "a percentage of the window is between 1 and 100"))
  else
    guard (row_refused row captured_mutation (txt "psmux cannot safely target split-window"))
      (command ← lift (split_request target o);
       one_entity PaneNoun (connection row) command as_flag (id_of row) [] None).
Definition window_split (w : Row) (o : SplitOptions) : Act Row := split_from w (window_command_target w) o.

Definition window_rename (w : Row) (name : text) : Act unit :=
  if bool_decide (name = []) then fail (rejected (txt "window name is empty"))
  else
    guard (row_refused w captured_mutation (txt "psmux cannot safely target rename-window"))
      (check_name w name (txt "window")
        (effect (row_run w (words [txt "rename-window"; txt "-t"; window_command_target w; txt "--";
                                   escape_literal name]) None))).
Definition window_select (w : Row) : Act unit :=
  mutate w captured_mutation "psmux cannot safely select a window by stable id"
    (words [txt "select-window"; txt "-t"; window_command_target w]).
Definition window_show_message (w : Row) (message : text) : Act unit :=
  mutate w captured_mutation "psmux cannot safely target a window message"
    (words (append_display_message_text [txt "display-message"; txt "-t"; window_command_target w] message)).
Definition window_expand (w : Row) (format : text) : Act text :=
  expand_format WindowNoun (connection w) (window_command_target w) format (id_of w).
Definition window_kill (w : Row) : Act unit :=
  mutate w captured_mutation "psmux can kill the active window for a stale target"
    (words [txt "kill-window"; txt "-t"; window_command_target w]).

(** [validate_layouts(backend, layouts)], which asks the daemon only for a layout that
    depends on it. *)
Definition check_layouts (layouts : list LayoutRequest) : Act unit :=
  let answer version :=
    match (validate_layouts version layouts).1 with
    | Value _ => Value tt
    | Unexpected f => Unexpected (cause f)
    end in
  if (validate_layouts (Unexpected disconnected) layouts).2
  then AskVersion (fun version => lift (answer version))
  else lift (answer (Unexpected disconnected)).

Definition window_select_layout (w : Row) (layout : text) : Act unit :=
  guard (row_refused w captured_mutation (txt "psmux cannot safely target select-layout"))
    match connection w with
    | None => fail disconnected
    | Some _ =>
        _ ← check_layouts [MkLayoutRequest layout 1];
        effect (row_run w (words [txt "select-layout"; txt "-t"; window_command_target w; txt "--"; layout]) None)
    end.

Definition window_resize (w : Row) (width height : Z) : Act unit :=
  if ((width <=? 0) || (height <=? 0))%Z then fail (rejected (txt "a window cannot be resized to nothing"))
  else
    mutate w captured_mutation "psmux treats resize-window as a no-op"
      (words [txt "resize-window"; txt "-t"; window_command_target w; txt "-x"; dec_Z width;
              txt "-y"; dec_Z height]).
Definition window_next_layout (w : Row) : Act unit :=
  mutate w captured_mutation "psmux cannot safely target next-layout"
    (words [txt "next-layout"; txt "-t"; window_command_target w]).
Definition window_previous_layout (w : Row) : Act unit :=
  mutate w captured_mutation "psmux cannot safely target previous-layout"
    (words [txt "previous-layout"; txt "-t"; window_command_target w]).
Definition window_rotate (w : Row) : Act unit :=
  mutate w captured_mutation "psmux cannot safely target rotate-window"
    (words [txt "rotate-window"; txt "-t"; window_command_target w]).
Definition window_select_last_pane (w : Row) : Act Row :=
  guard (row_refused w captured_mutation (txt "psmux cannot safely target the last pane"))
    (_ ← row_run w (words [txt "select-pane"; txt "-l"; txt "-t"; window_command_target w]) None;
     window_active_pane w).

Definition window_link_to (w target : Row) : Act unit :=
  if from_different_servers w target then fail crossed_servers
  else
    mutate w captured_mutation "psmux cannot link a window between sessions"
      (words [txt "link-window"; txt "-s"; window_target_text w; txt "-t"; session_target target ++ txt ":"]).
Definition window_unlink (w : Row) : Act unit :=
  mutate w captured_mutation "psmux unlink-window destroys the active window"
    (words [txt "unlink-window"; txt "-t"; window_command_target w]).
Definition window_swap_with (w other : Row) : Act unit :=
  if from_different_servers w other then fail crossed_servers
  else
    mutate w captured_mutation "psmux cannot safely target swap-window"
      (words [txt "swap-window"; txt "-s"; window_command_target w; txt "-t"; window_command_target other]).
Definition window_move_to (w : Row) (position : Z) : Act unit :=
  if (position <? 0)%Z then fail (rejected (txt "a window index cannot be negative"))
  else
    mutate w captured_mutation "psmux cannot safely target move-window"
      (words [txt "move-window"; txt "-d"; txt "-s"; window_command_target w; txt "-t";
              window_session_id w ++ txt ":" ++ dec_Z position]).
Definition window_refresh (w : Row) : Act Row :=
  describe WindowNoun (connection w) (window_command_target w) (id_of w) None.

Definition no_window_options : string := "psmux does not provide window-scoped options".

Definition window_options (w : Row) : Act (list OptionEntry) :=
  guard (row_refused w server_state (txt no_window_options))
    (listed (row_run w (words (scoped (txt "show-options") (txt "-w") (window_command_target w) [txt "-A"])) None)).
Definition window_option (w : Row) (name : text) : Act OptionEntry :=
  guard (row_refused w server_state (txt no_window_options))
    (named (row_run w (words (scoped (txt "show-options") (txt "-w") (window_command_target w)
              [txt "-A"; txt "--"; name])) None) name).
Definition window_set_option (w : Row) (name v : text) : Act unit :=
  mutate w server_state no_window_options
    (words (scoped (txt "set-option") (txt "-w") (window_command_target w) [txt "--"; name]) ++ [sensitive v]).
Definition window_unset_option (w : Row) (name : text) : Act unit :=
  mutate w server_state no_window_options
    (words (scoped (txt "set-option") (txt "-w") (window_command_target w) [txt "-u"; txt "--"; name])).

(** * Panes *)

Definition pane_target_text (p : Row) : text := id_of p.

Definition pane_window (p : Row) : Act Row := describe WindowNoun (connection p) (pane_target_text p) [] None.
Definition pane_session (p : Row) : Act Row := describe SessionNoun (connection p) (pane_target_text p) [] None.

Definition stale_text : string := "psmux can send text to the active pane for a stale target".

Definition pane_send_text (p : Row) (s : text) : Act unit :=
  match literal_arguments s with
  | Unexpected _ => fail (rejected (txt "text to send is empty"))
  | Value arguments =>
      mutate p pane_io stale_text (words ([txt "send-keys"; txt "-t"; pane_target_text p] ++ arguments))
  end.

Definition line_batch (target s : text) : CommandBatch :=
  let batch := match literal_arguments s with
               | Value arguments =>
                   if bool_decide (s = []) then []
                   else (batch_add (words ([txt "send-keys"; txt "-t"; target] ++ arguments)) []).1
               | Unexpected _ => []
               end in
  (batch_add (words [txt "send-keys"; txt "-t"; target; txt "Enter"]) batch).1.

Definition pane_send_line (p : Row) (s : text) : Act unit :=
  mutate p pane_io stale_text (batch_request (line_batch (pane_target_text p) s)).

Definition pane_send_key (p : Row) (key : text) : Act unit :=
  if negb (is_key_name key) then fail (rejected (txt "unknown key name: " ++ key))
  else
    mutate p pane_io "psmux can send a key to the active pane for a stale target"
      (words [txt "send-keys"; txt "-t"; pane_target_text p; key]).

Definition pane_split (p : Row) (o : SplitOptions) : Act Row := split_from p (pane_target_text p) o.

Record CaptureOptions := MkCapture {
  cp_start_line : option Z;
  cp_end_line : option Z;
  cp_whole_history : bool;
  cp_join_wrapped : bool;
  cp_with_escape_sequences : bool;
  cp_keep_trailing_spaces : bool;
  cp_output_limit : option N;
}.

Definition capture_request (target : text) (o : CaptureOptions) : CommandRequest :=
  words [txt "capture-pane"; txt "-p"; txt "-t"; target] ++
  (if cp_whole_history o then words [txt "-S"; txt "-"]
   else match cp_start_line o with Some n => words [txt "-S"; dec_Z n] | None => [] end) ++
  match cp_end_line o with Some n => words [txt "-E"; dec_Z n] | None => [] end ++
  flag_if (cp_join_wrapped o) "-J" ++ flag_if (cp_with_escape_sequences o) "-e" ++
  flag_if (cp_keep_trailing_spaces o) "-N".

(** Spaces off the end of a line: the inner loop, from the end. *)
Fixpoint drop_spaces (reversed : text) : text :=
  match reversed with
  | c :: rest => if bool_decide (c = " "%char) then drop_spaces rest else reversed
  | [] => []
  end.

(** The outer loop, a line at a time; there are at most as many lines as bytes. *)
Fixpoint trim_loop (fuel : nat) (s : text) : text :=
  match fuel, s with
  | S fuel, _ :: _ =>
      let at_ := find_char newline s in
      let line := rev (drop_spaces (rev (prefix_to at_ s))) in
      match at_ with
      | None => line
      | Some i => line ++ newline :: trim_loop fuel (drop (S i) s)
      end
  | _, _ => []
  end.
Definition trim_line_end_spaces (s : text) : text := trim_loop (length s) s.

Definition pane_capture (p : Row) (o : CaptureOptions) : Act text :=
  guard (row_refused p pane_io (txt "psmux can capture the active pane for a stale target"))
    (captured ← row_run p (capture_request (pane_target_text p) o) (cp_output_limit o);
     give (if negb (cp_join_wrapped o) || cp_keep_trailing_spaces o then captured
           else trim_line_end_spaces captured)).

Definition no_resize : string := "psmux cannot safely target resize-pane".

Definition pane_set_width (p : Row) (width : Z) : Act unit :=
  if (width <=? 0)%Z then fail (rejected (txt "a pane cannot be resized to nothing"))
  else mutate p captured_mutation no_resize
         (words [txt "resize-pane"; txt "-t"; pane_target_text p; txt "-x"; dec_Z width]).
Definition pane_set_height (p : Row) (height : Z) : Act unit :=
  if (height <=? 0)%Z then fail (rejected (txt "a pane cannot be resized to nothing"))
  else mutate p captured_mutation no_resize
         (words [txt "resize-pane"; txt "-t"; pane_target_text p; txt "-y"; dec_Z height]).
Definition pane_toggle_zoom (p : Row) : Act unit :=
  mutate p captured_mutation no_resize (words [txt "resize-pane"; txt "-Z"; txt "-t"; pane_target_text p]).
Definition pane_swap_with (p other : Row) : Act unit :=
  if from_different_servers p other then fail crossed_servers
  else mutate p captured_mutation "psmux cannot safely target swap-pane"
         (words [txt "swap-pane"; txt "-d"; txt "-s"; pane_target_text p; txt "-t"; pane_target_text other]).
Definition pane_join (p target : Row) : Act unit :=
  if from_different_servers p target then fail crossed_servers
  else mutate p captured_mutation "psmux cannot safely target join-pane"
         (words [txt "join-pane"; txt "-s"; pane_target_text p; txt "-t"; window_command_target target]).
Definition pane_enter_copy_mode (p : Row) : Act unit :=
  mutate p pane_io "psmux cannot safely target copy-mode" (words [txt "copy-mode"; txt "-t"; pane_target_text p]).
Definition pane_leave_mode (p : Row) : Act unit :=
  mutate p pane_io "psmux cannot safely leave mode on a targeted pane"
    (words [txt "send-keys"; txt "-t"; pane_target_text p; txt "-X"; txt "cancel"]).
Definition pane_pipe_to (p : Row) (command : text) : Act unit :=
  if bool_decide (command = []) then fail (rejected (txt "a pipe needs a command; use stop_piping"))
  else mutate p pane_io "psmux cannot safely target pipe-pane"
         (words [txt "pipe-pane"; txt "-t"; pane_target_text p; txt "--"] ++ [sensitive command]).
Definition pane_stop_piping (p : Row) : Act unit :=
  mutate p pane_io "psmux cannot safely target pipe-pane" (words [txt "pipe-pane"; txt "-t"; pane_target_text p]).
Definition pane_set_title (p : Row) (title : text) : Act unit :=
  mutate p captured_mutation "psmux cannot safely target a pane title"
    (words [txt "select-pane"; txt "-t"; pane_target_text p; txt "-T"; escape_literal title]).
Definition pane_respawn (p : Row) (replace_running : bool) (start_directory : text) : Act unit :=
  mutate p captured_mutation "psmux respawn-pane can terminate the session server"
    (words [txt "respawn-pane"; txt "-t"; pane_target_text p] ++ flag_if replace_running "-k" ++
     directory_part start_directory).
Definition pane_clear_history (p : Row) : Act unit :=
  mutate p pane_io "psmux cannot safely target clear-history"
    (words [txt "clear-history"; txt "-t"; pane_target_text p]).
Definition pane_select (p : Row) : Act unit :=
  mutate p captured_mutation "psmux cannot atomically select a captured pane"
    (words [txt "select-pane"; txt "-t"; pane_target_text p]).
Definition pane_show_message (p : Row) (message : text) : Act unit :=
  mutate p captured_mutation "psmux cannot safely target a pane message"
    (words (append_display_message_text [txt "display-message"; txt "-t"; pane_target_text p] message)).
Definition pane_expand (p : Row) (format : text) : Act text :=
  expand_format PaneNoun (connection p) (pane_target_text p) format (id_of p).
Definition pane_kill (p : Row) : Act unit :=
  mutate p captured_mutation "psmux cannot atomically kill a captured pane"
    (words [txt "kill-pane"; txt "-t"; pane_target_text p]).
Definition pane_refresh (p : Row) : Act Row :=
  describe PaneNoun (connection p) (pane_target_text p) (id_of p) None.

Definition no_pane_options : string := "psmux does not implement pane options".

Definition pane_options (p : Row) : Act (list OptionEntry) :=
  guard (row_refused p server_state (txt no_pane_options))
    (listed (row_run p (words (scoped (txt "show-options") (txt "-p") (pane_target_text p) [txt "-A"])) None)).
Definition pane_option (p : Row) (name : text) : Act OptionEntry :=
  guard (row_refused p server_state (txt no_pane_options))
    (named (row_run p (words (scoped (txt "show-options") (txt "-p") (pane_target_text p)
              [txt "-A"; txt "--"; name])) None) name).
Definition pane_set_option (p : Row) (name v : text) : Act unit :=
  mutate p server_state no_pane_options
    (words (scoped (txt "set-option") (txt "-p") (pane_target_text p) [txt "--"; name]) ++ [sensitive v]).
Definition pane_unset_option (p : Row) (name : text) : Act unit :=
  mutate p server_state no_pane_options
    (words (scoped (txt "set-option") (txt "-p") (pane_target_text p) [txt "-u"; txt "--"; name])).

(** * Buffers and clients *)

Definition no_buffers : string := "psmux buffers are separate in each session".

Definition pane_paste (p buffer : Row) (consume : bool) : Act unit :=
  if from_different_servers p buffer then fail crossed_servers
  else mutate p server_state no_buffers
         (words [txt "paste-buffer"; txt "-t"; pane_target_text p; txt "-b"; id_of buffer] ++
          flag_if consume "-d").
Definition buffer_contents (b : Row) : Act text :=
  guard (row_refused b server_state (txt no_buffers))
    (row_run b (words [txt "show-buffer"; txt "-b"; id_of b]) None).
Definition buffer_remove (b : Row) : Act unit :=
  guard (row_refused b server_state (txt no_buffers))
    (let remove := effect (row_run b (words [txt "delete-buffer"; txt "-b"; id_of b]) None) in
     match connection b with
     | None => remove
     | Some _ =>
         bind (refuse_before (since buffer_delete_named) (txt "deleting a named buffer")
                 (since_text buffer_delete_named))
           (fun early => guard early remove)
     end).

Definition no_clients : string := "psmux client handles are not session-routed".

Definition client_session (c : Row) : Act Row :=
  guard (row_refused c server_state (txt no_clients))
    (one_entity SessionNoun (connection c) (words [txt "display-message"; txt "-p"; txt "-c"; id_of c])
       as_message (id_of c) [] None).
Definition client_switch_to (c session : Row) : Act unit :=
  if from_different_servers c session then fail crossed_servers
  else mutate c server_state no_clients
         (words [txt "switch-client"; txt "-c"; id_of c; txt "-t"; session_target session]).
Definition client_detach (c : Row) : Act unit :=
  mutate c server_state no_clients (words [txt "detach-client"; txt "-t"; id_of c]).
Definition client_refresh (c : Row) : Act unit :=
  mutate c server_state no_clients (words [txt "refresh-client"; txt "-t"; id_of c]).
