(* ===== verification/Calls.v ===== *)
(** What the operations of entities send, as tmux reads it.

    An [Operation] is a call of a member function of [src/entities.cpp] with its
    arguments.  [readings] takes the words of a command the way they travel: escaped by
    the backend, cut into commands at the separators, each command's words read as flags
    and operands.  [intended] is the specification: for each operation the commands it
    stands for, with every argument in its place.

    The theorems: an operation that succeeds sent exactly the commands intended, and one
    that fails a first part of them; refused and crossed operations send nothing; what
    happens to text that is a word tmux takes for its own; a capture's text. *)

From S2P Require Import Prelude Version Command Snapshot Capabilities Layout Commands Backend.
From S2P Require Import Filter Naming Options EntityData Acquire Entities.

(** * Operations *)

Inductive Operation :=
  | SessionWindows (s : Row) | SessionPanes (s : Row) | SessionActiveWindow (s : Row)
  | SessionActivePane (s : Row) | SessionNextWindow (s : Row) | SessionPreviousWindow (s : Row)
  | SessionLastWindow (s : Row) | SessionNewWindow (s : Row) (o : NewWindowOptions)
  | SessionRename (s : Row) (name : text) | SessionKill (s : Row) | SessionRefresh (s : Row)
  | SessionOptions (s : Row) | SessionOption (s : Row) (name : text)
  | SessionSetOption (s : Row) (name v : text) | SessionUnsetOption (s : Row) (name : text)
  | SessionExpand (s : Row) (format : text) | SessionShowMessage (s : Row) (message : text)
  | SessionAttach (s : Row) | SessionDetachClients (s : Row) | SessionHooks (s : Row)
  | SessionSetHook (s : Row) (name command : text)
  | WindowSession (w : Row) | WindowPanes (w : Row) | WindowActivePane (w : Row)
  | WindowSplit (w : Row) (o : SplitOptions) | WindowRename (w : Row) (name : text)
  | WindowSelect (w : Row) | WindowShowMessage (w : Row) (message : text)
  | WindowExpand (w : Row) (format : text) | WindowKill (w : Row)
  | WindowSelectLayout (w : Row) (layout : text) | WindowResize (w : Row) (width height : Z)
  | WindowNextLayout (w : Row) | WindowPreviousLayout (w : Row) | WindowRotate (w : Row)
  | WindowSelectLastPane (w : Row) | WindowLinkTo (w target : Row) | WindowUnlink (w : Row)
  | WindowSwapWith (w other : Row) | WindowMoveTo (w : Row) (position : Z) | WindowRefresh (w : Row)
  | WindowOptions (w : Row) | WindowOption (w : Row) (name : text)
  | WindowSetOption (w : Row) (name v : text) | WindowUnsetOption (w : Row) (name : text)
  | PaneWindow (p : Row) | PaneSession (p : Row) | PaneSendText (p : Row) (s : text)
  | PaneSendLine (p : Row) (s : text) | PaneSendKey (p : Row) (key : text)
  | PaneSplit (p : Row) (o : SplitOptions) | PaneCapture (p : Row) (o : CaptureOptions)
  | PaneSetWidth (p : Row) (width : Z) | PaneSetHeight (p : Row) (height : Z) | PaneToggleZoom (p : Row)
  | PaneSwapWith (p other : Row) | PaneJoin (p target : Row) | PaneEnterCopyMode (p : Row)
  | PaneLeaveMode (p : Row) | PanePipeTo (p : Row) (command : text) | PaneStopPiping (p : Row)
  | PaneSetTitle (p : Row) (title : text) | PaneRespawn (p : Row) (replace : bool) (directory : text)
  | PaneClearHistory (p : Row) | PaneSelect (p : Row) | PaneShowMessage (p : Row) (message : text)
  | PaneExpand (p : Row) (format : text) | PaneKill (p : Row) | PaneRefresh (p : Row)
  | PaneOptions (p : Row) | PaneOption (p : Row) (name : text) | PaneSetOption (p : Row) (name v : text)
  | PaneUnsetOption (p : Row) (name : text) | PanePaste (p buffer : Row) (consume : bool)
  | BufferContents (b : Row) | BufferRemove (b : Row)
  | ClientSession (c : Row) | ClientSwitchTo (c session : Row) | ClientDetach (c : Row)
  | ClientRefresh (c : Row).

Definition void {A} (p : Act A) : Act unit := _ ← p; give tt.

Definition perform (o : Operation) : Act unit :=
  match o with
  | SessionWindows s => void (session_windows s)
  | SessionPanes s => void (session_panes s)
  | SessionActiveWindow s => void (session_active_window s)
  | SessionActivePane s => void (session_active_pane s)
  | SessionNextWindow s => void (session_select_next_window s)
  | SessionPreviousWindow s => void (session_select_previous_window s)
  | SessionLastWindow s => void (session_select_last_window s)
  | SessionNewWindow s o => void (session_new_window s o)
  | SessionRename s name => session_rename s name
  | SessionKill s => session_kill s
  | SessionRefresh s => void (session_refresh s)
  | SessionOptions s => void (session_options s)
  | SessionOption s name => void (session_option s name)
  | SessionSetOption s name v => session_set_option s name v
  | SessionUnsetOption s name => session_unset_option s name
  | SessionExpand s format => void (session_expand s format)
  | SessionShowMessage s message => session_show_message s message
  | SessionAttach s => void (session_attach_command s)
  | SessionDetachClients s => session_detach_clients s
  | SessionHooks s => void (session_hooks s)
  | SessionSetHook s name command => session_set_hook s name command
  | WindowSession w => void (window_session w)
  | WindowPanes w => void (window_panes w)
  | WindowActivePane w => void (window_active_pane w)
  | WindowSplit w o => void (window_split w o)
  | WindowRename w name => window_rename w name
  | WindowSelect w => window_select w
  | WindowShowMessage w message => window_show_message w message
  | WindowExpand w format => void (window_expand w format)
  | WindowKill w => window_kill w
  | WindowSelectLayout w layout => window_select_layout w layout
  | WindowResize w width height => window_resize w width height
  | WindowNextLayout w => window_next_layout w
  | WindowPreviousLayout w => window_previous_layout w
  | WindowRotate w => window_rotate w
  | WindowSelectLastPane w => void (window_select_last_pane w)
  | WindowLinkTo w target => window_link_to w target
  | WindowUnlink w => window_unlink w
  | WindowSwapWith w other => window_swap_with w other
  | WindowMoveTo w position => window_move_to w position
  | WindowRefresh w => void (window_refresh w)
  | WindowOptions w => void (window_options w)
  | WindowOption w name => void (window_option w name)
  | WindowSetOption w name v => window_set_option w name v
  | WindowUnsetOption w name => window_unset_option w name
  | PaneWindow p => void (pane_window p)
  | PaneSession p => void (pane_session p)
  | PaneSendText p s => pane_send_text p s
  | PaneSendLine p s => pane_send_line p s
  | PaneSendKey p key => pane_send_key p key
  | PaneSplit p o => void (pane_split p o)
  | PaneCapture p o => void (pane_capture p o)
  | PaneSetWidth p width => pane_set_width p width
  | PaneSetHeight p height => pane_set_height p height
  | PaneToggleZoom p => pane_toggle_zoom p
  | PaneSwapWith p other => pane_swap_with p other
  | PaneJoin p target => pane_join p target
  | PaneEnterCopyMode p => pane_enter_copy_mode p
  | PaneLeaveMode p => pane_leave_mode p
  | PanePipeTo p command => pane_pipe_to p command
  | PaneStopPiping p => pane_stop_piping p
  | PaneSetTitle p title => pane_set_title p title
  | PaneRespawn p replace directory => pane_respawn p replace directory
  | PaneClearHistory p => pane_clear_history p
  | PaneSelect p => pane_select p
  | PaneShowMessage p message => pane_show_message p message
  | PaneExpand p format => void (pane_expand p format)
  | PaneKill p => pane_kill p
  | PaneRefresh p => void (pane_refresh p)
  | PaneOptions p => void (pane_options p)
  | PaneOption p name => void (pane_option p name)
  | PaneSetOption p name v => pane_set_option p name v
  | PaneUnsetOption p name => pane_unset_option p name
  | PanePaste p buffer consume => pane_paste p buffer consume
  | BufferContents b => void (buffer_contents b)
  | BufferRemove b => buffer_remove b
  | ClientSession c => void (client_session c)
  | ClientSwitchTo c session => client_switch_to c session
  | ClientDetach c => client_detach c
  | ClientRefresh c => client_refresh c
  end.

(** * How tmux reads a command *)

(** The flags that take a value, from tmux's manual, for the commands used here. *)
Definition tmux_flags (command : text) : list ascii :=
  match List.find (fun e : string * string => bool_decide (txt e.1 = command))
    [("list-windows", "Fft"); ("list-panes", "Fft"); ("display-message", "cdFt");
     ("new-window", "ceFnt"); ("split-window", "ceFlpt"); ("detach-client", "Est");
     ("link-window", "st"); ("swap-window", "st"); ("move-window", "st"); ("resize-window", "txy");
     ("select-pane", "PTt"); ("send-keys", "cNt"); ("capture-pane", "bESt"); ("resize-pane", "txy");
     ("swap-pane", "st"); ("join-pane", "plst"); ("respawn-pane", "cet"); ("paste-buffer", "bst");
     ("show-buffer", "b"); ("delete-buffer", "b"); ("switch-client", "cOtT");
     ("refresh-client", "ABCFfrt"); ("list-sessions", "Ff"); ("list-clients", "Fft");
     ("list-commands", "F"); ("list-buffers", "Ff"); ("new-session", "cefFnstxy"); ("wait-for", "");
     ("load-buffer", "bt"); ("save-buffer", "b"); ("set-buffer", "bnt"); ("bind-key", "NT");
     ("unbind-key", "T"); ("run-shell", "cdt")]%string with
  | Some e => txt e.2
  | None => ["t"%char]
  end.

Definition Reading : Type := (text * Flags)%type.

Definition read_invocation (i : Invocation) : Reading :=
  (inv_name i, parse_flags (arguments i) (tmux_flags (inv_name i))).

(** A command's words, escaped, sent, split and read. *)
Definition readings (command : CommandRequest) : list Reading :=
  read_invocation <$> invocations (escaped_argument <$> argv command).

(** * What is intended *)

Definition flag_on (c : ascii) : FlagSet := MkFlag c [].
Definition on_if (b : bool) (c : ascii) : list FlagSet := if b then [flag_on c] else [].
Definition with_value (c : ascii) (v : text) : FlagSet := MkFlag c v.
Definition value_if (c : ascii) (v : text) : list FlagSet := if bool_decide (v = []) then [] else [with_value c v].

Definition act_on (command : string) (target : text) (flags : list FlagSet) (operands : list text) : Reading :=
  (txt command, MkFlags (with_value "t" target :: flags) operands).

Definition fields_format (noun : Noun) : text := format_request (kFields noun).

Definition describe_reading (noun : Noun) (target : text) : Reading :=
  (txt "display-message", MkFlags [flag_on "p"; with_value "t" target] [fields_format noun]).
Definition expand_reading (noun : Noun) (target format : text) : Reading :=
  (txt "display-message", MkFlags [flag_on "p"; with_value "t" target]
     [txt "#{" ++ nth 0 (kFields noun) [] ++ txt "}" ++ kFormatSeparator ++ format]).

Definition variables_flags (variables : list (text * text)) : list FlagSet :=
  (fun v => with_value "e" (v.1 ++ txt "=" ++ v.2)) <$> variables.
Definition shell_operand (shell : text) : list text := if bool_decide (shell = []) then [] else [shell].

Definition new_window_flags (s : Row) (o : NewWindowOptions) : list FlagSet :=
  [with_value "t" (new_window_target s o); flag_on "P"; with_value "n" (escape_literal (nw_name o))] ++
  on_if (negb (nw_focus o)) "d" ++ on_if (nw_after_current o) "a" ++
  value_if "c" (escape_literal (nw_start_directory o)).

Definition new_window_reading (s : Row) (o : NewWindowOptions) : Reading :=
  (txt "new-window", MkFlags
    ((new_window_flags s o ++ variables_flags (nw_environment o)) ++ [with_value "F" (fields_format WindowNoun)])
    (shell_operand (nw_shell_command o))).

Definition split_flags (target : text) (o : SplitOptions) : list FlagSet :=
  [with_value "t" target; flag_on "P"] ++ on_if (negb (sp_focus o)) "d" ++
  [flag_on (if sp_horizontal o then "h" else "v")%char] ++ on_if (sp_before o) "b" ++
  on_if (sp_full_size o) "f" ++
  match sp_percentage o with Some p => [with_value "l" (dec_Z p ++ txt "%")] | None => [] end ++
  value_if "c" (escape_literal (sp_start_directory o)).

Definition split_reading (target : text) (o : SplitOptions) : Reading :=
  (txt "split-window", MkFlags
    ((split_flags target o ++ variables_flags (sp_environment o)) ++ [with_value "F" (fields_format PaneNoun)])
    (shell_operand (sp_shell_command o))).

Definition capture_flags (target : text) (o : CaptureOptions) : list FlagSet :=
  [flag_on "p"; with_value "t" target] ++
  (if cp_whole_history o then [with_value "S" (txt "-")]
   else match cp_start_line o with Some n => [with_value "S" (dec_Z n)] | None => [] end) ++
  match cp_end_line o with Some n => [with_value "E" (dec_Z n)] | None => [] end ++
  on_if (cp_join_wrapped o) "J" ++ on_if (cp_with_escape_sequences o) "e" ++
  on_if (cp_keep_trailing_spaces o) "N".
Definition capture_reading (target : text) (o : CaptureOptions) : Reading :=
  (txt "capture-pane", MkFlags (capture_flags target o) []).

Definition key_reading (target : text) (key : text) : Reading := act_on "send-keys" target [] [key].
Definition text_reading (target s : text) : Reading := act_on "send-keys" target [flag_on "l"] [s].

Definition intended (o : Operation) : list Reading :=
  match o with
  | SessionWindows s => [act_on "list-windows" (id_of s) [with_value "F" (fields_format WindowNoun)] []]
  | SessionPanes s =>
      [(txt "list-panes", MkFlags [flag_on "s"; with_value "t" (id_of s); with_value "F" (fields_format PaneNoun)] [])]
  | SessionActiveWindow s => [describe_reading WindowNoun (id_of s)]
  | SessionActivePane s => [describe_reading PaneNoun (id_of s)]
  | SessionNextWindow s => [act_on "next-window" (id_of s) [] []; describe_reading WindowNoun (id_of s)]
  | SessionPreviousWindow s => [act_on "previous-window" (id_of s) [] []; describe_reading WindowNoun (id_of s)]
  | SessionLastWindow s => [act_on "last-window" (id_of s) [] []; describe_reading WindowNoun (id_of s)]
  | SessionNewWindow s o => [new_window_reading s o]
  | SessionRename s name => [act_on "rename-session" (id_of s) [] [escape_literal name]]
  | SessionKill s => [act_on "kill-session" (id_of s) [] []]
  | SessionRefresh s => [describe_reading SessionNoun (id_of s)]
  | SessionOptions s => [act_on "show-options" (id_of s) [flag_on "A"] []]
  | SessionOption s name => [act_on "show-options" (id_of s) [flag_on "A"] [name]]
  | SessionSetOption s name v => [act_on "set-option" (id_of s) [] [name; v]]
  | SessionUnsetOption s name => [act_on "set-option" (id_of s) [flag_on "u"] [name]]
  | SessionExpand s format => [expand_reading SessionNoun (id_of s) format]
  | SessionShowMessage s message => [act_on "display-message" (id_of s) [] [message]]
  | SessionAttach s => []
  | SessionDetachClients s => [(txt "detach-client", MkFlags [with_value "s" (id_of s)] [])]
  | SessionHooks s => [act_on "show-hooks" (id_of s) [] []]
  | SessionSetHook s name command => [act_on "set-hook" (id_of s) [] [name; command]]
  | WindowSession w => [describe_reading SessionNoun (window_command_target w)]
  | WindowPanes w => [act_on "list-panes" (window_command_target w) [with_value "F" (fields_format PaneNoun)] []]
  | WindowActivePane w => [describe_reading PaneNoun (window_command_target w)]
  | WindowSplit w o => [split_reading (window_command_target w) o]
  | WindowRename w name => [act_on "rename-window" (window_command_target w) [] [escape_literal name]]
  | WindowSelect w => [act_on "select-window" (window_command_target w) [] []]
  | WindowShowMessage w message => [act_on "display-message" (window_command_target w) [] [message]]
  | WindowExpand w format => [expand_reading WindowNoun (window_command_target w) format]
  | WindowKill w => [act_on "kill-window" (window_command_target w) [] []]
  | WindowSelectLayout w layout => [act_on "select-layout" (window_command_target w) [] [layout]]
  | WindowResize w width height =>
      [act_on "resize-window" (window_command_target w) [with_value "x" (dec_Z width); with_value "y" (dec_Z height)] []]
  | WindowNextLayout w => [act_on "next-layout" (window_command_target w) [] []]
  | WindowPreviousLayout w => [act_on "previous-layout" (window_command_target w) [] []]
  | WindowRotate w => [act_on "rotate-window" (window_command_target w) [] []]
  | WindowSelectLastPane w =>
      [(txt "select-pane", MkFlags [flag_on "l"; with_value "t" (window_command_target w)] []);
       describe_reading PaneNoun (window_command_target w)]
  | WindowLinkTo w target =>
      [(txt "link-window", MkFlags [with_value "s" (window_command_target w);
                                    with_value "t" (id_of target ++ txt ":")] [])]
  | WindowUnlink w => [act_on "unlink-window" (window_command_target w) [] []]
  | WindowSwapWith w other =>
      [(txt "swap-window", MkFlags [with_value "s" (window_command_target w);
                                    with_value "t" (window_command_target other)] [])]
  | WindowMoveTo w position =>
      [(txt "move-window", MkFlags [flag_on "d"; with_value "s" (window_command_target w);
          with_value "t" (window_session_id w ++ txt ":" ++ dec_Z position)] [])]
  | WindowRefresh w => [describe_reading WindowNoun (window_command_target w)]
  | WindowOptions w =>
      [(txt "show-options", MkFlags [flag_on "w"; with_value "t" (window_command_target w); flag_on "A"] [])]
  | WindowOption w name =>
      [(txt "show-options", MkFlags [flag_on "w"; with_value "t" (window_command_target w); flag_on "A"] [name])]
  | WindowSetOption w name v =>
      [(txt "set-option", MkFlags [flag_on "w"; with_value "t" (window_command_target w)] [name; v])]
  | WindowUnsetOption w name =>
      [(txt "set-option", MkFlags [flag_on "w"; with_value "t" (window_command_target w); flag_on "u"] [name])]
  | PaneWindow p => [describe_reading WindowNoun (id_of p)]
  | PaneSession p => [describe_reading SessionNoun (id_of p)]
  | PaneSendText p s => [text_reading (id_of p) s]
  | PaneSendLine p s =>
      (if bool_decide (s = []) then [] else [text_reading (id_of p) s]) ++ [key_reading (id_of p) (txt "Enter")]
  | PaneSendKey p key => [key_reading (id_of p) key]
  | PaneSplit p o => [split_reading (id_of p) o]
  | PaneCapture p o => [capture_reading (id_of p) o]
  | PaneSetWidth p width => [act_on "resize-pane" (id_of p) [with_value "x" (dec_Z width)] []]
  | PaneSetHeight p height => [act_on "resize-pane" (id_of p) [with_value "y" (dec_Z height)] []]
  | PaneToggleZoom p => [(txt "resize-pane", MkFlags [flag_on "Z"; with_value "t" (id_of p)] [])]
  | PaneSwapWith p other =>
      [(txt "swap-pane", MkFlags [flag_on "d"; with_value "s" (id_of p); with_value "t" (id_of other)] [])]
  | PaneJoin p target =>
      [(txt "join-pane", MkFlags [with_value "s" (id_of p); with_value "t" (window_command_target target)] [])]
  | PaneEnterCopyMode p => [act_on "copy-mode" (id_of p) [] []]
  | PaneLeaveMode p => [act_on "send-keys" (id_of p) [flag_on "X"] [txt "cancel"]]
  | PanePipeTo p command => [act_on "pipe-pane" (id_of p) [] [command]]
  | PaneStopPiping p => [act_on "pipe-pane" (id_of p) [] []]
  | PaneSetTitle p title => [act_on "select-pane" (id_of p) [with_value "T" (escape_literal title)] []]
  | PaneRespawn p replace directory =>
      [act_on "respawn-pane" (id_of p) (on_if replace "k" ++ value_if "c" (escape_literal directory)) []]
  | PaneClearHistory p => [act_on "clear-history" (id_of p) [] []]
  | PaneSelect p => [act_on "select-pane" (id_of p) [] []]
  | PaneShowMessage p message => [act_on "display-message" (id_of p) [] [message]]
  | PaneExpand p format => [expand_reading PaneNoun (id_of p) format]
  | PaneKill p => [act_on "kill-pane" (id_of p) [] []]
  | PaneRefresh p => [describe_reading PaneNoun (id_of p)]
  | PaneOptions p => [(txt "show-options", MkFlags [flag_on "p"; with_value "t" (id_of p); flag_on "A"] [])]
  | PaneOption p name =>
      [(txt "show-options", MkFlags [flag_on "p"; with_value "t" (id_of p); flag_on "A"] [name])]
  | PaneSetOption p name v =>
      [(txt "set-option", MkFlags [flag_on "p"; with_value "t" (id_of p)] [name; v])]
  | PaneUnsetOption p name =>
      [(txt "set-option", MkFlags [flag_on "p"; with_value "t" (id_of p); flag_on "u"] [name])]
  | PanePaste p buffer consume =>
      [act_on "paste-buffer" (id_of p) (with_value "b" (id_of buffer) :: on_if consume "d") []]
  | BufferContents b => [(txt "show-buffer", MkFlags [with_value "b" (id_of b)] [])]
  | BufferRemove b => [(txt "delete-buffer", MkFlags [with_value "b" (id_of b)] [])]
  | ClientSession c =>
      [(txt "display-message", MkFlags [flag_on "p"; with_value "c" (id_of c)] [fields_format SessionNoun])]
  | ClientSwitchTo c session =>
      [(txt "switch-client", MkFlags [with_value "c" (id_of c); with_value "t" (id_of session)] [])]
  | ClientDetach c => [act_on "detach-client" (id_of c) [] []]
  | ClientRefresh c => [act_on "refresh-client" (id_of c) [] []]
  end.


(** * Words that are not the separator *)

Lemma escape_literal_whole s w : (forall c, c ∈ w -> c <> hash) -> escape_literal s = w -> s = w.
Proof.
  revert w. induction s as [|c s IH]; intros w Hw; cbn [escape_literal flat_map]; [done|].
  case_bool_decide as E.
  - intros <-. exfalso. apply (Hw hash); [left | done].
  - cbn [app]. intros <-. f_equal. apply IH; [|done]. intros d Hd. apply Hw. by right.
Qed.

Lemma escape_not_separator s : s <> kCommandSeparator -> escape_literal s <> kCommandSeparator.
Proof.
  intros H E. apply H. apply escape_literal_whole; [|done].
  change kCommandSeparator with [";"%char]. by intros c ->%list_elem_of_singleton.
Qed.

Lemma escape_not_dashes s : s <> txt "--" -> escape_literal s <> txt "--".
Proof.
  intros H E. apply H. apply escape_literal_whole; [|done]. change (txt "--") with ["-"%char; "-"%char].
  by intros c [-> | ->%list_elem_of_singleton]%elem_of_cons.
Qed.

(** A numeral holds digits and a sign. *)
Lemma dec_Z_chars z c : c ∈ dec_Z z -> c = "-"%char \/ is_digit c = true.
Proof.
  assert (forall n, c ∈ dec n -> is_digit c = true) as Hd.
  { intros n Hc. destruct (dec_spec n) as (_ & H & _). rewrite forallb_forall in H. by apply H, list_elem_of_In. }
  destruct z as [|p|p]; [by right; eapply Hd.. |]. cbn [dec_Z]. change (txt "-") with ["-"%char].
  intros [-> | Hc]%elem_of_cons; [by left|]. right. by eapply Hd.
Qed.

Lemma dec_Z_not_separator z : dec_Z z <> kCommandSeparator.
Proof.
  intros E. destruct (dec_Z_chars z ";"%char) as [? | ?]; [|done..].
  rewrite E. change kCommandSeparator with [";"%char]. left.
Qed.

(** * Spelling and reading *)

Definition reading_words (r : Reading) : list text := (flag_value <$> set_flags r.2) ++ operands r.2.

(** A reading none of whose words is one that tmux, or the placing of the format, would
    take for something else. *)
Definition clear (r : Reading) : Prop :=
  kCommandSeparator ∉ reading_words r /\
  (has "F" r.2 = true -> txt "--" ∉ (flag_value <$> set_flags r.2)).

Definition spelt (valued : list ascii) (f : FlagSet) : bool :=
  negb (bool_decide (flag f = "-"%char)) && (bool_decide (flag f ∈ valued) || bool_decide (flag_value f = [])).

Lemma spelt_well valued sets : forallb (spelt valued) sets = true -> Forall (well_spelt valued) sets.
Proof.
  rewrite forallb_forall, Forall_forall. intros H f Hf%list_elem_of_In. specialize (H f Hf).
  unfold spelt in H. apply andb_true_iff in H as [H1 H2]. to_props. split; [done|]. intros Hn.
  apply orb_true_iff in H2 as [H2|H2]; to_props; done.
Qed.

(** Each word of spelled flags is a value or a dash and a letter. *)
Lemma spell_words valued sets w :
  w ∈ concat (spell valued <$> sets) -> w ∈ (flag_value <$> sets) \/ exists c, w = ["-"%char; c] /\ c ∈ (flag <$> sets).
Proof.
  intros (l & Hl & Hw)%list_elem_of_In%in_concat. apply list_elem_of_In in Hl, Hw.
  apply list_elem_of_fmap in Hl as (f & -> & Hf).
  assert (w = ["-"%char; flag f] \/ w = flag_value f) as [-> | ->].
  { unfold spell in Hw. case_bool_decide; set_solver. }
  - right. eexists. split; [done|]. by apply list_elem_of_fmap_2.
  - left. by apply list_elem_of_fmap_2.
Qed.

(** What follows the flags: nothing, operands after dashes, or an operand no flag looks
    like. *)
Definition ends_in (tail ops : list text) : Prop :=
  tail = txt "--" :: ops \/
  (tail = ops /\ match ops with
                 | [] => True
                 | w :: _ => ((length w <? 2)%nat || negb (starts_with (txt "-") w)) = true
                 end).

Lemma parse_spelt valued sets tail ops :
  Forall (well_spelt valued) sets -> ends_in tail ops ->
  parse_flags (concat (spell valued <$> sets) ++ tail) valued = MkFlags sets ops.
Proof.
  intros Hs Ht. unfold parse_flags. rewrite <-(app_nil_l sets) at 2. generalize ([] : list FlagSet).
  induction Hs as [|f sets Hf _ IH]; intros set.
  - rewrite app_nil_r. cbn [fmap list_fmap concat app]. destruct Ht as [-> | [-> H]].
    + change (txt "--") with ["-"%char; "-"%char]. reflexivity.
    + destruct ops as [|w ops]; [done|]. cbn [parse_flags_loop]. by rewrite H.
  - rewrite fmap_cons. cbn [concat]. rewrite <-app_assoc, parse_flags_loop_spell, IH by done.
    by rewrite <-app_assoc.
Qed.

(** A command whose words are a name, flags written out and operands is read as one
    command with those flags and operands. *)
Lemma readings_spelt name sets ops tail c :
  argv c = name :: concat (spell (tmux_flags name) <$> sets) ++ tail ->
  resolve name = Some name -> name <> kCommandSeparator ->
  forallb (spelt (tmux_flags name)) sets = true -> ends_in tail ops ->
  kCommandSeparator ∉ reading_words (name, MkFlags sets ops) ->
  readings c = [(name, MkFlags sets ops)].
Proof.
  intros Hc Hr Hn Hs Ht Hsep. unfold readings, invocations. rewrite separate_escaped, Hc, split_commands_last.
  - cbn [omap list_omap invocation]. rewrite Hr. cbn [fmap option_fmap option_map list_fmap].
    unfold read_invocation. cbn [inv_name arguments]. by rewrite (parse_spelt _ _ _ ops) by (auto using spelt_well).
  - unfold reading_words in Hsep. cbn [snd set_flags operands] in Hsep. apply not_elem_of_app in Hsep as [H1 H2].
    apply not_elem_of_cons. split; [done|]. apply not_elem_of_app. split.
    + intros [Hv | (x & Hx & _)]%spell_words; [done|]. by apply (f_equal length) in Hx.
    + destruct Ht as [-> | [-> _]]; [|done]. apply not_elem_of_cons. by split.
Qed.

(** * Commands in parts *)

Definition spells (valued : list ascii) (c : CommandRequest) (sets : list FlagSet) : Prop :=
  argv c = concat (spell valued <$> sets).

Lemma spells_app valued c d sets more :
  spells valued c sets -> spells valued d more -> spells valued (c ++ d) (sets ++ more).
Proof. unfold spells, argv. intros H1 H2. by rewrite !fmap_app, concat_app, H1, H2. Qed.

Lemma spells_nil valued : spells valued [] [].
Proof. done. Qed.

Lemma spells_flag_if valued b f c :
  txt f = ["-"%char; c] -> c ∉ valued -> spells valued (flag_if b f) (on_if b c).
Proof.
  intros Hf Hc. destruct b; [|done]. unfold spells, flag_if, on_if, spell. cbn. by rewrite bool_decide_false, Hf by done.
Qed.

Lemma spells_value valued f c v : txt f = ["-"%char; c] -> c ∈ valued -> spells valued (words [txt f; v]) [with_value c v].
Proof. intros Hf Hc. unfold spells, spell, words. cbn. by rewrite bool_decide_true, Hf by done. Qed.

Lemma spells_directory valued directory :
  "c"%char ∈ valued -> spells valued (directory_part directory) (value_if "c" (escape_literal directory)).
Proof.
  intros Hc. unfold directory_part, value_if. case_bool_decide as E; [by subst|].
  rewrite bool_decide_false; [by apply spells_value|]. intros He. apply E. apply (escape_literal_whole _ []); [|done]. by intros ? ?%elem_of_nil.
Qed.

Lemma append_environment_spells valued command variables command' :
  "e"%char ∈ valued -> append_environment command variables = Value command' ->
  exists rest, command' = command ++ rest /\ spells valued rest (variables_flags variables).
Proof.
  intros He. revert command. induction variables as [|[n v] variables IH]; intros command; cbn [append_environment].
  - intros [= <-]. exists []. by rewrite app_nil_r.
  - destruct (_ || _); [done|]. intros (rest & -> & Hr)%IH. eexists. rewrite <-app_assoc. split; [done|].
    apply (spells_app _ _ _ [_]); [|exact Hr]. unfold spells, spell. cbn. rewrite bool_decide_true by done.
    cbn. repeat f_equal. unfold sensitive_range. repeat case_match; done.
Qed.

(** The shell command reads as the only operand. *)
Lemma shell_ends shell : ends_in (argv (shell_part shell)) (shell_operand shell).
Proof. unfold shell_part, shell_operand. case_bool_decide; [by right | by left]. Qed.

(** A format is placed before the operands, when no value is a pair of dashes. *)
Lemma format_placed name valued sets pre shell format :
  argv pre = name :: concat (spell valued <$> sets) -> name <> txt "--" -> forallb (spelt valued) sets = true ->
  txt "--" ∉ (flag_value <$> sets) -> "F"%char ∈ valued ->
  argv (insert_format (pre ++ shell_part shell) [plain (txt "-F"); plain format]) =
    name :: concat (spell valued <$> (sets ++ [with_value "F" format])) ++ argv (shell_part shell).
Proof.
  intros Hp Hn Hs Hv HF. assert (Forall (fun a => value a <> txt "--") pre) as Hd.
  { enough (Forall (fun w => w <> txt "--") (argv pre)) as H by (unfold argv in H; rewrite Forall_fmap in H; exact H).
    rewrite Hp. constructor; [done|]. apply Forall_forall. intros w [Hw | (c & -> & Hc)]%spell_words; [by intros ->|].
    apply list_elem_of_fmap in Hc as (f & -> & Hf). apply spelt_well in Hs. rewrite Forall_forall in Hs.
    destruct (Hs f Hf) as [Hne _]. intros [= E]. done. }
  rewrite fmap_app, concat_app. cbn [fmap list_fmap concat]. rewrite app_nil_r. unfold spell at 2. cbn [flag flag_value with_value].
  rewrite bool_decide_true by done.
  unfold shell_part. case_bool_decide.
  - rewrite app_nil_r. rewrite (proj2 (insert_format_spec pre [] _ Hd)). unfold argv in *. rewrite fmap_app, Hp. cbn.
    by rewrite app_nil_r.
  - rewrite (proj1 (insert_format_spec pre _ _ Hd)). unfold argv in *. rewrite !fmap_app, Hp. cbn. by rewrite <-app_assoc.
Qed.

(** A request with a format placed as a flag. *)
Lemma placed_read name sets pre shell format :
  argv pre = name :: concat (spell (tmux_flags name) <$> sets) ->
  resolve name = Some name -> name <> txt "--" -> name <> kCommandSeparator ->
  forallb (spelt (tmux_flags name)) sets = true -> "F"%char ∈ tmux_flags name ->
  clear (name, MkFlags (sets ++ [with_value "F" format]) (shell_operand shell)) ->
  readings (insert_format (pre ++ shell_part shell) [plain (txt "-F"); plain format]) =
    [(name, MkFlags (sets ++ [with_value "F" format]) (shell_operand shell))].
Proof.
  intros Hp Hr Hd Hn Hs HF [Hsep Hdash].
  assert (forallb (spelt (tmux_flags name)) (sets ++ [with_value "F" format]) = true) as Hs'.
  { rewrite forallb_app, Hs. cbn [forallb]. unfold spelt. cbn [flag flag_value with_value].
    by rewrite (bool_decide_true ("F"%char ∈ _)) by done. }
  eapply readings_spelt; [|done..| apply shell_ends | exact Hsep].
  apply format_placed; [done..| |done].
  cbn [snd set_flags] in Hdash. rewrite fmap_app in Hdash. intros H. apply Hdash; [|set_solver].
  unfold has. cbn [set_flags]. rewrite existsb_app. cbn. by rewrite orb_true_r.
Qed.

(** ** The requests with options *)

Lemma option_value_spells {A} valued f c (o : option A) (g : A -> text) :
  txt f = ["-"%char; c] -> c ∈ valued ->
  spells valued (match o with Some z => words [txt f; g z] | None => [] end)
    (match o with Some z => [with_value c (g z)] | None => [] end).
Proof. intros. destruct o; [by apply spells_value | done]. Qed.

Ltac member := apply (bool_decide_unpack _); by vm_compute.

(** Takes the command's name off. *)
Ltac name_off :=
  match goal with
  | |- argv (words (?n :: ?l) ++ ?r) = _ => change (words (n :: l) ++ r) with (plain n :: (words l ++ r))
  end;
  unfold argv; rewrite fmap_cons; f_equal;
  match goal with |- value <$> ?c = concat (spell ?v <$> ?sets) => change (spells v c sets) end.

Lemma split_command_spells target o :
  argv (split_command target o) =
    txt "split-window" :: concat (spell (tmux_flags (txt "split-window")) <$> split_flags target o).
Proof.
  unfold split_command, split_flags. name_off.
  repeat apply spells_app; try (apply spells_flag_if; [done | member]).
  - reflexivity.
  - by destruct (sp_horizontal o).
  - apply option_value_spells; [done | member].
  - apply spells_directory. member.
Qed.

Lemma new_window_command_spells s o :
  argv (new_window_command s o) =
    txt "new-window" :: concat (spell (tmux_flags (txt "new-window")) <$> new_window_flags s o).
Proof.
  unfold new_window_command, new_window_flags. name_off.
  repeat apply spells_app; try (apply spells_flag_if; [done | member]).
  - reflexivity.
  - apply spells_directory. member.
Qed.

Lemma capture_spells target o :
  argv (capture_request target o) =
    txt "capture-pane" :: concat (spell (tmux_flags (txt "capture-pane")) <$> capture_flags target o).
Proof.
  unfold capture_request, capture_flags. name_off.
  repeat apply spells_app; try (apply spells_flag_if; [done | member]).
  - reflexivity.
  - destruct (cp_whole_history o); [reflexivity|]. apply option_value_spells; [done | member].
  - apply option_value_spells; [done | member].
Qed.

Lemma on_if_spelt valued b c : spelt valued (flag_on c) = true -> forallb (spelt valued) (on_if b c) = true.
Proof. destruct b; cbn; [by intros -> | done]. Qed.

Lemma value_spelt valued c v : c <> "-"%char -> c ∈ valued -> spelt valued (with_value c v) = true.
Proof. intros Hc Hv. unfold spelt. cbn. by rewrite bool_decide_false, bool_decide_true. Qed.

Lemma value_if_spelt valued c v : c <> "-"%char -> c ∈ valued -> forallb (spelt valued) (value_if c v) = true.
Proof. intros. unfold value_if. case_bool_decide; [done|]. cbn [forallb]. by rewrite value_spelt. Qed.

Lemma variables_spelt valued variables : "e"%char ∈ valued -> forallb (spelt valued) (variables_flags variables) = true.
Proof.
  intros He. induction variables as [|v variables IH]; [done|]. unfold variables_flags. rewrite fmap_cons.
  cbn [forallb]. by rewrite value_spelt.
Qed.

Ltac spelt_parts :=
  rewrite ?forallb_app; repeat (apply andb_true_intro; split);
  first [ by apply on_if_spelt; vm_compute
        | apply value_if_spelt; [done | member]
        | apply variables_spelt; member
        | by vm_compute
        | repeat case_match; by vm_compute ].

Lemma split_flags_spelt target o variables :
  forallb (spelt (tmux_flags (txt "split-window"))) (split_flags target o ++ variables_flags variables) = true.
Proof. unfold split_flags. spelt_parts. Qed.

Lemma new_window_flags_spelt s o variables :
  forallb (spelt (tmux_flags (txt "new-window"))) (new_window_flags s o ++ variables_flags variables) = true.
Proof. unfold new_window_flags. spelt_parts. Qed.

Lemma capture_flags_spelt target o :
  forallb (spelt (tmux_flags (txt "capture-pane"))) (capture_flags target o) = true.
Proof. unfold capture_flags. spelt_parts. Qed.

(** * What an operation carries out *)

(** What was sent reads as a first part of the commands [rs], all of them when the program
    succeeds. *)
Definition carried {A} (p : Act A) (rs : list Reading) : Prop :=
  wp p (fun sent r => concat (readings <$> sent.*1) `prefix_of` rs /\
    (forall a, r = Value a -> concat (readings <$> sent.*1) = rs)) [].

Lemma wp_frame {A} (p : Prog A) Q sent : wp p (fun s a => Q (sent ++ s) a) [] -> wp p Q sent.
Proof.
  intros H. rewrite <-(app_nil_r sent). revert H. generalize ([] : list Exchange).
  induction p as [a|c t l k IH|k IH|t k IH|k IH]; intros more H; cbn in *; auto.
  intros r. rewrite <-app_assoc. by apply IH.
Qed.

Lemma carried_fail {A} e rs : carried (A := A) (fail e) rs.
Proof. split; [apply prefix_nil | done]. Qed.

Lemma carried_give {A} (a : A) : carried (give a) [].
Proof. by split. Qed.

Lemma carried_ask {A} (k : expected CommandFailure Version -> Act A) rs :
  (forall v, carried (k v) rs) -> carried (AskVersion k) rs.
Proof. done. Qed.

Lemma carried_seq {A B} (p : Act A) (f : A -> Act B) rs more :
  carried p rs -> (forall a, carried (f a) more) -> carried (p ≫= f) (rs ++ more).
Proof.
  intros H Hf. apply wp_act. eapply wp_mono; [|exact H]. intros sent [a|e] [Hp Hv].
  - apply wp_frame. eapply wp_mono; [|apply (Hf a)]. intros s r [Hp' Hv'].
    rewrite !fmap_app, concat_app, (Hv a) by done. split; [by apply prefix_app|].
    intros b Hb. by rewrite (Hv' b).
  - split; [by apply prefix_app_r | done].
Qed.

Lemma carried_then {A B} (p : Act A) (f : A -> Act B) rs :
  carried p rs -> (forall a, exists r, f a = lift r) -> carried (p ≫= f) rs.
Proof.
  intros H Hf. rewrite <-(app_nil_r rs). apply carried_seq; [done|].
  intros a. destruct (Hf a) as [[b|e] ->]; [apply carried_give | apply carried_fail].
Qed.

Lemma carried_lift {A B} (r : expected CommandFailure A) (p : A -> Act B) rs :
  (forall a, r = Value a -> carried (p a) rs) -> carried (a ← lift r; p a) rs.
Proof. intros H. destruct r as [a|e]; [by apply H | apply carried_fail]. Qed.

Lemma carried_guard {A} o (p : Act A) rs : carried p rs -> carried (guard o p) rs.
Proof. destruct o; [intros _; apply carried_fail | done]. Qed.

Lemma carried_if {A} (b : bool) e (p : Act A) rs : carried p rs -> carried (if b then fail e else p) rs.
Proof. destruct b; [intros _; apply carried_fail | done]. Qed.

Lemma carried_void {A} (p : Act A) rs : carried p rs -> carried (void p) rs.
Proof. intros H. apply carried_then; [done|]. intros a. by exists (Value tt). Qed.

Lemma carried_once {A} (p : Act A) c rs :
  wp p (fun sent r => (sent = [] /\ forall a, r <> Value a) \/ sent.*1 = [c]) [] ->
  readings c = rs -> carried p rs.
Proof.
  intros H <-. eapply wp_mono; [|exact H]. intros sent r [[-> He] | ->].
  - split; [apply prefix_nil | intros a Ha; by destruct (He a)].
  - cbn [fmap list_fmap concat]. by rewrite app_nil_r.
Qed.

Lemma carried_run row c limit rs : readings c = rs -> carried (row_run row c limit) rs.
Proof.
  unfold row_run. destruct (connection row); [|intros; apply carried_fail]. apply carried_once.
  intros r. by right.
Qed.

Lemma carried_effect row c limit rs : readings c = rs -> carried (effect (row_run row c limit)) rs.
Proof. intros. by apply carried_void, carried_run. Qed.

Lemma carried_listed row c limit rs : readings c = rs -> carried (listed (row_run row c limit)) rs.
Proof. intros. apply carried_then; [by apply carried_run|]. intros a. by eexists (Value _). Qed.

Lemma carried_named row c limit name rs : readings c = rs -> carried (named (row_run row c limit) name) rs.
Proof. intros. apply carried_then; [by apply carried_listed|]. intros a. by eexists. Qed.

Lemma carried_mutate row feature why c rs : readings c = rs -> carried (mutate row feature why c) rs.
Proof. intros. by apply carried_guard, carried_effect. Qed.

Lemma carried_listing noun backend request policy rs :
  readings (with_format request as_flag (kFields noun)) = rs ->
  carried (list_entities noun backend request policy) rs.
Proof.
  unfold list_entities. destruct backend as [c|]; [|intros; apply carried_fail]. apply carried_once.
  apply wp_act. apply wp_take; [intros r e; by right|]. intros output s _.
  destruct (malformed_number noun s); by right.
Qed.

Lemma carried_one_entity noun backend request placement target expected policy rs :
  readings (with_format request placement (kFields noun)) = rs ->
  carried (one_entity noun backend request placement target expected policy) rs.
Proof.
  apply carried_once. apply wp_one_entity; [by left | intros c r e _; by right | intros c output row _ _; by right].
Qed.

Lemma carried_describe noun backend target expected policy rs :
  readings (with_format (words [txt "display-message"; txt "-p"; txt "-t"; target]) as_message (kFields noun)) = rs ->
  carried (describe noun backend target expected policy) rs.
Proof. apply carried_one_entity. Qed.

Lemma carried_expand noun backend target format expected rs :
  readings (expansion_request noun target format) = rs ->
  carried (expand_format noun backend target format expected) rs.
Proof.
  unfold expand_format. destruct backend as [c|]; [|intros; apply carried_fail]. apply carried_once.
  intros [reply|e]; [|by right]. cbv zeta. destruct (starts_with _ _); by right.
Qed.

Lemma carried_checked {A} row name what (p : Act A) rs : carried p rs -> carried (check_name row name what p) rs.
Proof.
  intros H. unfold check_name. destruct (connection row); [|done]. unfold refuse_name_on_exact_37.
  destruct (negb _); cbn [bind]; [done|]. intros r. cbn [bind]. by apply carried_guard.
Qed.

Lemma carried_layouts {A} layouts (p : Act A) rs : carried p rs -> carried (check_layouts layouts ≫= fun _ => p) rs.
Proof.
  intros H. unfold check_layouts. destruct ((validate_layouts _ layouts).2).
  - apply carried_ask. intros v. by apply carried_lift.
  - by apply carried_lift.
Qed.

Ltac carried_step :=
  first [apply carried_void | apply carried_if | apply carried_mutate | apply carried_effect
        | apply carried_named | apply carried_listed | apply carried_run | apply carried_listing
        | apply carried_describe | apply carried_one_entity | apply carried_expand
        | apply carried_checked | apply carried_guard].

(** Reads one command whose words are known. *)
Ltac read_words :=
  first [ eapply (readings_spelt _ _ _ []); [reflexivity|..]
        | eapply (readings_spelt _ _ _ (txt "--" :: _)); [reflexivity|..]
        | eapply readings_spelt; [reflexivity|..] ];
  [reflexivity | by vm_compute | vm_compute; reflexivity
  | first [by left | by right; split; [|done]] | assumption].

(** A request built with an environment, its format placed, its shell last. *)
Lemma environment_read name sets command variables shell request format :
  "e"%char ∈ tmux_flags name ->
  (c ← append_environment command variables; Value (c ++ shell_part shell)) = Value request ->
  argv command = name :: concat (spell (tmux_flags name) <$> sets) ->
  resolve name = Some name -> name <> txt "--" -> name <> kCommandSeparator ->
  forallb (spelt (tmux_flags name)) (sets ++ variables_flags variables) = true ->
  "F"%char ∈ tmux_flags name ->
  clear (name, MkFlags ((sets ++ variables_flags variables) ++ [with_value "F" format]) (shell_operand shell)) ->
  readings (insert_format request [plain (txt "-F"); plain format]) =
    [(name, MkFlags ((sets ++ variables_flags variables) ++ [with_value "F" format]) (shell_operand shell))].
Proof.
  intros He (command' & Ha & [= <-])%expected_bind_value Hc.
  eapply append_environment_spells in Ha as (rest & -> & Hr); [|exact He].
  apply placed_read. unfold argv in *. by rewrite !fmap_app, concat_app, Hc, <-Hr.
Qed.

Lemma split_from_carried row target o :
  Forall clear [split_reading target o] -> carried (split_from row target o) [split_reading target o].
Proof.
  intros [H _]%Forall_cons. apply carried_if, carried_guard, carried_lift. intros request Hr. apply carried_one_entity.
  eapply environment_read; try exact Hr; try done; [member | apply split_command_spells | apply split_flags_spelt | member].
Qed.

Lemma new_window_carried s o :
  Forall clear [new_window_reading s o] -> carried (session_new_window s o) [new_window_reading s o].
Proof.
  intros [H _]%Forall_cons. apply carried_if, carried_guard, carried_checked, carried_lift. intros request Hr. apply carried_one_entity.
  eapply environment_read; try exact Hr; try done;
    [member | apply new_window_command_spells | apply new_window_flags_spelt | member].
Qed.

Lemma capture_carried p o : Forall clear [capture_reading (id_of p) o] -> carried (pane_capture p o) [capture_reading (id_of p) o].
Proof.
  intros [[H _] _]%Forall_cons. apply carried_guard, carried_then; [|intros a; by eexists (Value _)]. apply carried_run.
  eapply (readings_spelt _ _ _ []); [rewrite app_nil_r; apply capture_spells | done.. | | by right | done].
  apply capture_flags_spelt.
Qed.

(** No key name looks like a flag. *)
Lemma key_not_flag key : is_key_name key = true -> ((length key <? 2)%nat || negb (starts_with (txt "-") key)) = true.
Proof.
  destruct key as [|c [|d rest]]; [done..|]. intros H. destruct (decide (c = "-"%char)) as [-> | Hc].
  - assert (strip_modifiers ("-"%char :: d :: rest) = "-"%char :: d :: rest) as E.
    { destruct rest; [done|]. cbn. by destruct (bool_decide (d = _)). }
    unfold is_key_name in H. rewrite E in H. apply orb_true_iff in H as [H|H].
    + by destruct rest.
    + apply existsb_exists in H as (named & Hn & Hd%bool_decide_eq_true). subst named. exfalso.
      assert (Forall (fun w => head w <> Some "-"%char) kNamedKeys) as Hall by (apply (bool_decide_unpack _); by vm_compute).
      rewrite Forall_forall in Hall. by apply (Hall ("-"%char :: d :: rest)); [apply list_elem_of_In|].
  - cbn [length]. replace (starts_with (txt "-") (c :: d :: rest)) with false; [by rewrite orb_true_r|].
    symmetry. apply not_true_iff_false. intros (r & E)%starts_with_spec. by injection E.
Qed.

(** None of these words is the separator: the constants are not, the others by [H]. *)
Ltac not_separators H :=
  let Hin := fresh in
  intros Hin; cbn in Hin;
  repeat (apply elem_of_cons in Hin as [Hin | Hin];
          [first [by vm_compute in Hin | exfalso; apply H; rewrite ?Hin; set_solver]|]);
  by apply elem_of_nil in Hin.

Lemma send_line_carried p s :
  Forall clear (intended (PaneSendLine p s)) -> carried (pane_send_line p s) (intended (PaneSendLine p s)).
Proof.
  intros H. apply carried_mutate. cbn [intended] in *. unfold readings, invocations. rewrite separate_escaped.
  set (enter := words [txt "send-keys"; txt "-t"; id_of p; txt "Enter"]).
  unfold line_batch. destruct s as [|c s]; cbn [literal_arguments].
  - apply Forall_cons in H as [[H _] _].
    change (batch_request _) with enter. rewrite <-(separate_escaped (argv enter)).
    change (readings enter = [key_reading (id_of p) (txt "Enter")]). read_words.
  - rewrite bool_decide_false in * by done. set (s' := c :: s) in *. cbn [app] in H.
    apply Forall_cons in H as [[H1 _] [[H2 _] _]%Forall_cons].
    set (typed := words [txt "send-keys"; txt "-t"; id_of p; txt "-l"; txt "--"; s']).
    change (batch_request _) with (batch_loop [] [typed; enter]).
    change (batch_loop [] [typed; enter]) with (batch_loop typed [enter]).
    unfold reading_words in H1, H2. cbn in H1, H2.
    rewrite batch_loop_split; [reflexivity | done | by repeat constructor | ..].
    + not_separators H1.
    + apply Forall_singleton. not_separators H2.
Qed.

Lemma send_key_carried p key :
  Forall clear (intended (PaneSendKey p key)) -> carried (pane_send_key p key) (intended (PaneSendKey p key)).
Proof.
  intros [[H _] _]%Forall_cons. cbn [intended] in *. unfold pane_send_key.
  destruct (is_key_name key) eqn:Hk; cbn [negb]; [|apply carried_fail]. apply carried_mutate.
  eapply readings_spelt; [reflexivity | reflexivity | by vm_compute | vm_compute; reflexivity | | exact H].
  right. split; [done | by apply key_not_flag].
Qed.

Lemma send_text_carried p s :
  Forall clear (intended (PaneSendText p s)) -> carried (pane_send_text p s) (intended (PaneSendText p s)).
Proof.
  intros [[H _] _]%Forall_cons. cbn [intended] in *. unfold pane_send_text.
  destruct s as [|c s]; cbn [literal_arguments]; [apply carried_fail|]. apply carried_mutate. read_words.
Qed.

Lemma select_window_carried verb s :
  resolve (txt verb) = Some (txt verb) -> tmux_flags (txt verb) = ["t"%char] -> txt verb <> kCommandSeparator ->
  kCommandSeparator <> id_of s ->
  carried (select_window_by verb s) [act_on verb (id_of s) [] []; describe_reading WindowNoun (id_of s)].
Proof.
  intros Hr Hf Hn Hs. apply carried_guard. apply (carried_seq _ _ [_] [_]).
  - apply carried_run. unfold act_on. apply (readings_spelt _ _ _ []); [by rewrite Hf | done.. | by rewrite Hf | by right | set_solver].
  - intros _. apply carried_describe. assert (kCommandSeparator ∉ reading_words (describe_reading WindowNoun (id_of s))).
    { not_separators Hs. }
    read_words.
Qed.

(** A listing: its fields placed as a flag after the others. *)
Lemma listing_read name sets pre format :
  argv pre = name :: concat (spell (tmux_flags name) <$> sets) ->
  resolve name = Some name -> name <> txt "--" -> name <> kCommandSeparator ->
  forallb (spelt (tmux_flags name)) sets = true -> "F"%char ∈ tmux_flags name ->
  clear (name, MkFlags (sets ++ [with_value "F" format]) []) ->
  readings (insert_format pre [plain (txt "-F"); plain format]) =
    [(name, MkFlags (sets ++ [with_value "F" format]) [])].
Proof.
  intros. pose proof (placed_read name sets pre [] format) as H'.
  change (shell_part []) with ([] : CommandRequest) in H'. rewrite app_nil_r in H'. by apply H'.
Qed.

Lemma respawn_carried p replace directory :
  Forall clear (intended (PaneRespawn p replace directory)) ->
  carried (pane_respawn p replace directory) (intended (PaneRespawn p replace directory)).
Proof.
  intros [[H _] _]%Forall_cons. apply carried_mutate. cbn [intended] in *. unfold act_on in *.
  apply (readings_spelt _ _ _ []); [|done..| |by right|done].
  - rewrite app_nil_r. name_off. apply (spells_app _ _ _ [_]); [reflexivity|].
    apply spells_app; [apply spells_flag_if; [done | member] | apply spells_directory; member].
  - change (_ :: ?a ++ ?b) with ([with_value "t" (id_of p)] ++ a ++ b). spelt_parts.
Qed.

Lemma paste_carried p b consume :
  Forall clear (intended (PanePaste p b consume)) ->
  carried (pane_paste p b consume) (intended (PanePaste p b consume)).
Proof.
  intros [[H _] _]%Forall_cons. cbn [intended] in *. destruct consume; repeat carried_step; read_words.
Qed.

Lemma buffer_remove_carried b :
  Forall clear (intended (BufferRemove b)) -> carried (buffer_remove b) (intended (BufferRemove b)).
Proof.
  intros [[H _] _]%Forall_cons. cbn [intended] in *. apply carried_guard. cbv zeta.
  assert (carried (effect (row_run b (words [txt "delete-buffer"; txt "-b"; id_of b]) None)) (intended (BufferRemove b)))
    by (apply carried_effect; cbn [intended]; read_words).
  destruct (connection b); [|done]. intros r. by apply carried_guard.
Qed.

Lemma select_layout_carried w layout :
  Forall clear (intended (WindowSelectLayout w layout)) ->
  carried (window_select_layout w layout) (intended (WindowSelectLayout w layout)).
Proof.
  intros [[H _] _]%Forall_cons. cbn [intended] in *. apply carried_guard.
  destruct (connection w); [|apply carried_fail]. apply carried_layouts, carried_effect. read_words.
Qed.

Lemma last_pane_carried w :
  Forall clear (intended (WindowSelectLastPane w)) ->
  carried (window_select_last_pane w) (intended (WindowSelectLastPane w)).
Proof.
  intros [[H1 _] [[H2 _] _]%Forall_cons]%Forall_cons. cbn [intended] in *. apply carried_guard.
  apply (carried_seq _ _ [_] [_]); [apply carried_run | intros _; apply carried_describe]; read_words.
Qed.

#[export] Hint Resolve split_from_carried new_window_carried capture_carried send_line_carried send_key_carried
  send_text_carried respawn_carried paste_carried buffer_remove_carried select_layout_carried
  last_pane_carried carried_void : carried.

(** * The operations *)

(** C8: Every operation, with whatever text the caller gives, sends commands that tmux
    reads as the ones the operation is named for: when it succeeds, exactly the intended
    commands in order, each with its target, its flags and the caller's text in their
    places and nothing beside; when it fails, a first part of them.  The text may be
    anything but the word tmux separates commands with and, where the format of the
    answer goes by flag, a pair of dashes as the value of another. *)
Theorem operations_read_back o : Forall clear (intended o) -> carried (perform o) (intended o).
Proof.
  destruct o; intros Hall; cbn [perform]; eauto 3 with carried; cbn [intended] in *;
    try (apply Forall_cons in Hall as [[H _] _]; repeat carried_step; read_words; fail);
    try (apply Forall_cons in Hall as [Hc _]; apply carried_void, carried_listing; unfold act_on in *;
         first [apply (listing_read _ [_]) | apply (listing_read _ [_; _])];
         [reflexivity | reflexivity | by vm_compute.. | member | exact Hc]);
    try (apply Forall_cons in Hall as [[H _] _]; apply carried_void, select_window_carried;
         [reflexivity | reflexivity | by vm_compute | set_solver]);
    try (by apply carried_void, split_from_carried).
  apply carried_void. unfold session_attach_command. destruct (connection s); [|apply carried_fail].
  intros prepared. by split.
Qed.

(** * The captured text *)

(** [Padded s t]: [t] is [s] with the spaces off the end of each line. *)
Inductive Padded : text -> text -> Prop :=
  | padded_last line k : newline ∉ line -> last line <> Some " "%char ->
      Padded (line ++ replicate k " "%char) line
  | padded_line line k s t : newline ∉ line -> last line <> Some " "%char -> Padded s t ->
      Padded (line ++ replicate k " "%char ++ newline :: s) (line ++ newline :: t).

Lemma drop_spaces_spec s :
  exists k, s = replicate k " "%char ++ drop_spaces s /\ head (drop_spaces s) <> Some " "%char.
Proof.
  induction s as [|c s IH]; cbn [drop_spaces]; [by exists 0|]. case_bool_decide as E.
  - destruct IH as (k & IH & Hh). exists (S k). subst c. cbn. by rewrite <-IH.
  - exists 0. split; [done|]. cbn. congruence.
Qed.

Lemma rev_reverse {A} (l : list A) : rev l = reverse l.
Proof. unfold reverse. by rewrite rev_alt. Qed.

Lemma strip_spec s :
  exists k, s = rev (drop_spaces (rev s)) ++ replicate k " "%char /\ last (rev (drop_spaces (rev s))) <> Some " "%char.
Proof.
  destruct (drop_spaces_spec (rev s)) as (k & E & H). exists k. split.
  - rewrite <-(rev_involutive s) at 1. rewrite E at 1. by rewrite rev_app_distr, (rev_reverse (replicate _ _)), reverse_replicate.
  - by rewrite (rev_reverse (drop_spaces _)), last_reverse.
Qed.

Lemma trim_loop_padded fuel s : length s <= fuel -> Padded s (trim_loop fuel s).
Proof.
  revert s. induction fuel as [|fuel IH]; intros s Hs.
  - destruct s; [|cbn in Hs; lia]. by apply (padded_last [] 0); [apply not_elem_of_nil|].
  - destruct s as [|c s]; [by apply (padded_last [] 0); [apply not_elem_of_nil|]|].
    set (s' := c :: s) in *. change (trim_loop (S fuel) s') with
      (let at_ := find_char newline s' in
       let line := rev (drop_spaces (rev (prefix_to at_ s'))) in
       match at_ with None => line | Some i => line ++ newline :: trim_loop fuel (drop (S i) s') end).
    cbv zeta. destruct (find_char newline s') as [i|] eqn:Hf.
    + apply find_char_Some in Hf as [E Hn]. cbn [prefix_to].
      destruct (strip_spec (take i s')) as (k & Ek & Hl). set (line := rev _) in *.
      rewrite E at 1. rewrite Ek at 1. rewrite <-app_assoc. apply padded_line; [|done|].
      * intros Hin. apply Hn. rewrite Ek. set_solver.
      * apply IH. rewrite length_drop. cbn in *. lia.
    + apply find_char_None in Hf. cbn [prefix_to].
      destruct (strip_spec s') as (k & Ek & Hl). set (line := rev _) in *.
      rewrite Ek at 1. apply padded_last; [|done]. intros Hin. apply Hf. rewrite Ek. set_solver.
Qed.

(** A capture is one command, and its answer is what tmux printed; when wrapped lines
    are joined and spaces are not kept, with the spaces off the end of each line and
    nothing else changed. *)
Theorem capture_answers p o :
  wp (pane_capture p o) (fun sent r => forall s, r = Value s ->
    exists captured, sent = [(capture_request (id_of p) o, Value captured)] /\
      if cp_join_wrapped o && negb (cp_keep_trailing_spaces o) then Padded captured s else s = captured) [].
Proof.
  unfold pane_capture, row_run. destruct (row_refused _ _ _); [done|]. cbn [guard].
  destruct (connection p); [|done]. intros [captured|e]; [|done]. intros s [= <-].
  exists captured. split; [done|].
  destruct (cp_join_wrapped o), (cp_keep_trailing_spaces o); [done | by apply trim_loop_padded | done..].
Qed.

(** * Words tmux takes for its own *)

(** Typed text that is the separator word is lost: when tmux accepts the command the
    operation reports success, and what tmux read was a command without the text. *)
Theorem semicolon_is_not_typed p :
  id_of p <> kCommandSeparator ->
  wp (perform (PaneSendText p (txt ";"))) (fun sent r => forall command output,
    sent = [(command, Value output)] ->
    r = Value tt /\ readings command = [act_on "send-keys" (id_of p) [flag_on "l"] []]) [].
Proof.
  intros Hid. change (perform _) with
    (mutate p pane_io stale_text (words [txt "send-keys"; txt "-t"; id_of p; txt "-l"; txt "--"; txt ";"])).
  unfold mutate, row_run. destruct (row_refused _ _ _); [done|]. cbn [guard].
  destruct (connection p); [|done]. intros [reply|e]; [|done]. intros command output [= <- <-]. split; [done|].
  unfold readings, invocations. rewrite separate_escaped.
  change (argv _) with ([txt "send-keys"; txt "-t"; id_of p; txt "-l"; txt "--"] ++ kCommandSeparator :: []).
  rewrite split_commands_app; [reflexivity|]. assert (kCommandSeparator <> id_of p) as H by done. not_separators H.
Qed.

(** A window asked for under the name of two dashes is not given that name: the format
    of the answer is placed in front of it, the window is named after the flag and the
    format is taken for the command to run in it. *)
Theorem dashes_are_not_a_name s :
  id_of s <> kCommandSeparator -> id_of s <> txt "--" ->
  exists request,
    new_window_request s (MkNewWindow (txt "--") [] [] false None true []) = Value request /\
    readings (with_format request as_flag (kFields WindowNoun)) =
      [(txt "new-window", MkFlags [with_value "t" (id_of s); flag_on "P"; with_value "n" (txt "-F")]
         [fields_format WindowNoun; txt "--"])].
Proof.
  intros Hsep Hd. eexists. split; [reflexivity|].
  match goal with |- readings (with_format ?c _ _) = _ =>
    assert (c = words [txt "new-window"; txt "-t"; id_of s; txt "-P"; txt "-n"] ++ plain (txt "--") :: []) as ->
      by (unfold new_window_command, new_window_target; cbn [nw_index];
          rewrite (app_nil_r (session_target s)); reflexivity)
  end.
  assert (Forall (fun a => value a <> txt "--") (words [txt "new-window"; txt "-t"; id_of s; txt "-P"; txt "-n"])) as Hw
    by (repeat (apply Forall_cons; split; [first [done | by vm_compute]|]); by apply Forall_nil).
  unfold with_format. rewrite (proj1 (insert_format_spec _ _ _ Hw)).
  apply (readings_spelt _ _ _ [fields_format WindowNoun; txt "--"]); [reflexivity | reflexivity | by vm_compute.. | |].
  - right. split; [done|]. by vm_compute.
  - assert (kCommandSeparator <> id_of s) as H by done. unfold reading_words. not_separators H.
Qed.

(** * What is refused before anything is sent *)

(** The row whose server must have the feature. *)
Definition needs (o : Operation) : option (Row * ServerFeature) :=
  match o with
  | SessionNextWindow s | SessionPreviousWindow s | SessionLastWindow s | SessionKill s
  | SessionShowMessage s _ | SessionDetachClients s => Some (s, captured_mutation)
  | SessionNewWindow s _ => Some (s, window_creation)
  | SessionOptions s | SessionOption s _ | SessionSetOption s _ _ | SessionUnsetOption s _
  | SessionHooks s | SessionSetHook s _ _ => Some (s, server_state)
  | WindowSplit w _ | WindowRename w _ | WindowSelect w | WindowShowMessage w _ | WindowKill w
  | WindowSelectLayout w _ | WindowResize w _ _ | WindowNextLayout w | WindowPreviousLayout w
  | WindowRotate w | WindowSelectLastPane w | WindowLinkTo w _ | WindowUnlink w | WindowSwapWith w _
  | WindowMoveTo w _ => Some (w, captured_mutation)
  | WindowOptions w | WindowOption w _ | WindowSetOption w _ _ | WindowUnsetOption w _ => Some (w, server_state)
  | PaneSendText p _ | PaneSendLine p _ | PaneSendKey p _ | PaneCapture p _ | PaneEnterCopyMode p
  | PaneLeaveMode p | PanePipeTo p _ | PaneStopPiping p | PaneClearHistory p => Some (p, pane_io)
  | PaneSplit p _ | PaneSetWidth p _ | PaneSetHeight p _ | PaneToggleZoom p | PaneSwapWith p _
  | PaneJoin p _ | PaneSetTitle p _ | PaneRespawn p _ _ | PaneSelect p | PaneShowMessage p _
  | PaneKill p => Some (p, captured_mutation)
  | PaneOptions p | PaneOption p _ | PaneSetOption p _ _ | PaneUnsetOption p _ | PanePaste p _ _ =>
      Some (p, server_state)
  | BufferContents b | BufferRemove b => Some (b, server_state)
  | ClientSession c | ClientSwitchTo c _ | ClientDetach c | ClientRefresh c => Some (c, server_state)
  | _ => None
  end.

(** The two objects an operation is between. *)
Definition between (o : Operation) : option (Row * Row) :=
  match o with
  | WindowLinkTo w target => Some (w, target)
  | WindowSwapWith w other => Some (w, other)
  | PaneSwapWith p other => Some (p, other)
  | PaneJoin p target => Some (p, target)
  | PanePaste p buffer _ => Some (p, buffer)
  | ClientSwitchTo c session => Some (c, session)
  | _ => None
  end.

(** Arguments that name nothing. *)
Definition senseless (o : Operation) : bool :=
  match o with
  | SessionNewWindow _ o => bool_decide (nw_name o = [])
  | SessionRename _ t | WindowRename _ t | PaneSendText _ t | PanePipeTo _ t => bool_decide (t = [])
  | PaneSendKey _ key => negb (is_key_name key)
  | WindowSplit _ o | PaneSplit _ o => bad_percentage o
  | WindowResize _ width height => ((width <=? 0) || (height <=? 0))%Z
  | PaneSetWidth _ size | PaneSetHeight _ size => (size <=? 0)%Z
  | WindowMoveTo _ position => (position <? 0)%Z
  | _ => false
  end.

Definition barred (o : Operation) : bool :=
  senseless o ||
  match between o with Some (a, b) => from_different_servers a b | None => false end ||
  match needs o with
  | Some (row, feature) =>
      match connection row with Some c => refuses (implementation c) feature | None => false end
  | None => false
  end.

(** Fails before anything is sent. *)
Definition turned_away {A} (p : Act A) : Prop :=
  exists e : CommandFailure, p = fail e /\ delivery e = not_started /\ (failure_kind e = validation \/ failure_kind e = unsupported).

Lemma turned_away_void {A} (p : Act A) : turned_away p -> turned_away (void p).
Proof. intros (e & -> & H). by exists e. Qed.

Lemma turned_away_guard {A} row feature why (p : Act A) :
  match connection row with Some c => refuses (implementation c) feature | None => false end = true ->
  turned_away (guard (row_refused row feature why) p).
Proof.
  unfold row_refused. destruct (connection row) as [c|]; [|done]. intros ->. eexists. split; [reflexivity|]. auto.
Qed.

Lemma turned_away_if {A} (b : bool) e (p : Act A) :
  delivery e = not_started -> failure_kind e = validation -> (b = false -> turned_away p) ->
  turned_away (if b then fail e else p).
Proof. intros Hd Hk H. destruct b; [by exists e; auto | by apply H]. Qed.

(** An operation between two servers, one with an argument that names nothing and one
    the server of its object does not have fail before anything is sent, and the failure
    says that nothing was. *)
Theorem barred_sends_nothing o : barred o = true -> turned_away (perform o).
Proof.
  destruct o; unfold barred; cbn [senseless between needs perform]; intros H;
    try apply turned_away_void; try done;
    try (repeat (apply turned_away_if; [done | done | intros E; rewrite E in H; cbn [orb] in H]);
         first [done | apply turned_away_guard; rewrite ?orb_false_r in H; exact H]; fail).
  destruct s as [|c s]; [eexists; by split_and!; [..|left] | by apply turned_away_guard].
Qed.

(** * Witnesses *)

Definition sample_pane : Row :=
  MkRow (sample_listing [txt "pane_id"] [txt "%3"]) 0 (Some sample_connection).

Lemma operations_read_back_witness :
  Forall clear (intended (PaneSendLine sample_pane (txt "echo a;"))) /\
  carried (perform (PaneSendLine sample_pane (txt "echo a;")))
    [act_on "send-keys" (id_of sample_pane) [flag_on "l"] [txt "echo a;"];
     act_on "send-keys" (id_of sample_pane) [] [txt "Enter"]].
Proof.
  assert (Forall clear (intended (PaneSendLine sample_pane (txt "echo a;")))) as H.
  { change (Forall clear [text_reading (txt "%3") (txt "echo a;"); key_reading (txt "%3") (txt "Enter")]).
    apply Forall_cons. split; [|apply Forall_singleton]; (split; [|intros Hf; vm_compute in Hf; discriminate]).
    all: apply (bool_decide_unpack _); vm_compute; reflexivity. }
  split; [exact H | exact (operations_read_back (PaneSendLine sample_pane (txt "echo a;")) H)].
Defined.

Lemma semicolon_is_not_typed_witness :
  id_of sample_pane <> kCommandSeparator /\
  wp (perform (PaneSendText sample_pane (txt ";"))) (fun sent r => forall command output,
    sent = [(command, Value output)] ->
    r = Value tt /\ readings command = [act_on "send-keys" (id_of sample_pane) [flag_on "l"] []]) [].
Proof.
  assert (id_of sample_pane <> kCommandSeparator) as H by (vm_compute; congruence).
  split; [exact H | exact (semicolon_is_not_typed sample_pane H)].
Defined.

Lemma dashes_are_not_a_name_witness :
  id_of sample_session = txt "$1" /\
  exists request,
    new_window_request sample_session (MkNewWindow (txt "--") [] [] false None true []) = Value request.
Proof.
  split; [vm_compute; reflexivity|].
  destruct (dashes_are_not_a_name sample_session) as (request & H & _); [vm_compute; congruence..|].
  exists request. exact H.
Defined.

(** The command of the sample: what tmux is handed for a typed line. *)
Example typed_line :
  argv (batch_request (line_batch (txt "%3") (txt "ls"))) =
    map txt ["send-keys"; "-t"; "%3"; "-l"; "--"; "ls"; ";"; "send-keys"; "-t"; "%3"; "Enter"]%string.
Proof. vm_compute. reflexivity. Qed.

Example trimmed_lines : trim_line_end_spaces (txt "a  " ++ newline :: txt " b " ++ [newline]) = txt "a" ++ newline :: txt " b" ++ [newline].
Proof. vm_compute. reflexivity. Qed.

Lemma barred_sends_nothing_witness :
  barred (WindowResize sample_session 0 24) = true /\ turned_away (perform (WindowResize sample_session 0 24)).
Proof.
  assert (barred (WindowResize sample_session 0 24) = true) as H by (vm_compute; reflexivity).
  split; [exact H | exact (barred_sends_nothing _ H)].
Defined.

(** An object of one server and one of another. *)
Example crossed :
  let elsewhere := MkRow (snapshot sample_pane) 0 (Some (MkConnection 2 (txt "8:43") impl_tmux None None)) in
  barred (PaneJoin sample_pane elsewhere) = true.
Proof. vm_compute. reflexivity. Qed.
