(* ===== verification/BreakOut.v ===== *)
(** Breaking a pane out into a window of its own: [Pane::break_out] of [src/entities.cpp].

    One command asks tmux to break the pane, or, where the pane is alone in its window, to
    report that window; both choices are made by the daemon.  A break with a name may have
    to be repaired on one release, by a second command.  The commands within the command
    are a text that tmux reads again, so the caller's name is written in octal.

    The theorems: the name reaches tmux whole, whatever bytes it holds; the guards of the
    inner commands mean what they are for; one command, and a second one only as a repair
    of the window that was reported; a failure after the pane moved does not say that
    nothing was sent; the window handed over is one of the pane's session. *)

From S2P Require Import Prelude Version Command Snapshot Capabilities Layout Commands Backend.
From S2P Require Import Filter Naming Options EntityData Acquire Entities Calls.

(** * Policies *)

(** Nanoseconds of the clock in a millisecond. *)
Definition kNanoseconds : N := 1000000.

(** [remaining_execution_policy], on the readings of the clock. *)
Definition remaining_timeout (timeout started now : N) : N :=
  let elapsed := ((now - started) / kNanoseconds)%N in
  if (elapsed <? timeout)%N then (timeout - elapsed)%N else 0%N.

(** A command run within what is left of the policy; the clock is read where there is a
    timeout. *)
Definition run_remaining (policy : Policy) (started : N) (command : CommandRequest) : Act text :=
  match timeout policy with
  | None => Run command None (output_limit policy) (fun reply => lift reply)
  | Some t =>
      ReadClock (fun now =>
        Run command (Some (remaining_timeout t started now)) (output_limit policy) (fun reply => lift reply))
  end.

(** * Ids and words *)

Fixpoint id_digits (value : N) (s : text) : bool :=
  match s with
  | [] => true
  | c :: rest =>
      is_digit c &&
      let digit := digit_value c in
      if (value <=? (u32_max - digit) / 10)%N then id_digits ((value * 10 + digit) mod 2 ^ 32)%N rest else false
  end.

Definition is_canonical_tmux_id (id : text) (prefix : ascii) : bool :=
  match id with
  | c :: ((d :: rest) as digits) =>
      bool_decide (c = prefix) && negb (negb (bool_decide (rest = [])) && bool_decide (d = "0"%char)) &&
      id_digits 0 digits
  | _ => false
  end.

Definition octal_char (n : N) : ascii := ascii_of_N (48 + N.land n 7).

(** A backslash and three octal digits. *)
Definition octal_byte (c : ascii) : text :=
  let b := byte_of c in
  ["\"%char; octal_char (N.shiftr b 6); octal_char (N.shiftr b 3); octal_char b].

Definition nul : ascii := byte 0.

Definition tmux_command_word (v : text) : expected CommandFailure text :=
  if bool_decide (nul ∈ v) then Unexpected (rejected (txt "a window name cannot contain NUL"))
  else Value ([quote] ++ flat_map octal_byte v ++ [quote]).

(** * Formats *)

(** A format that is true on exactly the affected releases, or on every other. *)
Definition release_term (affected : bool) (version : text) : text :=
  txt "#{" ++ txt (if affected then "==" else "!=")%string ++ txt ":#{version}," ++ version ++ txt "}".

Definition on_release_of (id : WorkaroundId) (affected : bool) : text :=
  foldr (fun release condition =>
    let term := release_term affected (release_text release) in
    if bool_decide (condition = []) then term
    else txt "#{" ++ txt (if affected then "||" else "&&")%string ++ txt ":" ++ term ++ txt "," ++ condition ++ txt "}")
    [] (releases_of id).

Definition differs (field v : text) : text := txt "#{!=:#{" ++ field ++ txt "}," ++ v ++ txt "}".

(** Every term but the last joined to the rest, from the end. *)
Fixpoint any_term (terms : list text) : text :=
  match terms with
  | [] => []
  | [term] => term
  | term :: rest => txt "#{||:" ++ term ++ txt "," ++ any_term rest ++ txt "}"
  end.

Definition named_repair_guard (window_id session_id : text) : text :=
  any_term [on_release_of break_pane_misnames_windows false;
          differs (txt "window_id") window_id; differs (txt "session_id") session_id;
          differs (txt "after-rename-window") []; differs (txt "window-renamed") [];
          differs (txt "after-display-message") []].

(** * Reports *)

Definition refused_reply (diagnostic : text) : CommandFailure := MkFailure refused replied 0 diagnostic.

Definition broke (source rest : text) : text := txt "break-pane completed for pane " ++ source ++ rest.

Definition with_diagnostic (e : CommandFailure) (diagnostic : text) : CommandFailure :=
  MkFailure (failure_kind e) (delivery e) (exit_code e) diagnostic.

Definition kNamedBreakFields : list text := kFields WindowNoun ++ [txt "version"; txt "automatic-rename"].

(** The one row a report must hold. *)
Definition single_row (s : Snapshot) (source : text) : expected CommandFailure (list text) :=
  match row_texts s with
  | [] => Unexpected (no_such (txt "window") source)
  | cells :: rest =>
      if bool_decide (head cells = Some []) then Unexpected (no_such (txt "window") source)
      else if bool_decide (rest = []) then Value cells
      else Unexpected (refused_reply (broke source (txt ", but did not report one exact connected window row")))
  end.

Record NamedBreakReport := MkReport {
  report_window : Row;
  report_version : Version;
  report_automatic_rename : bool;
}.

Definition not_exact (expected_text actual : text) : bool :=
  negb (bool_decide (expected_text = [])) && negb (bool_decide (actual = expected_text)).

Definition named_break_report (c : Connection) (output source expected_window expected_session : text) :
    expected CommandFailure NamedBreakReport :=
  match parsed kNamedBreakFields output with
  | Unexpected e =>
      Unexpected (with_diagnostic e (broke source (txt ", but its window report was malformed: " ++ diagnostic e)))
  | Value s =>
      cells ← single_row s source;
      let window := MkRow s 0 (Some c) in
      if negb (is_canonical_tmux_id (id_of window) "@") || negb (is_canonical_tmux_id (window_session_id window) "$") ||
         not_exact expected_window (id_of window) || not_exact expected_session (window_session_id window)
      then Unexpected (refused_reply (broke source (txt ", but did not report the exact connected window")))
      else
        let n := length (kFields WindowNoun) in
        let reported_version := nth n cells [] in
        let automatic_rename := nth (n + 1) cells [] in
        match parse_version (txt "tmux " ++ reported_version) with
        | Value v =>
            if bool_decide (automatic_rename = txt "0") || bool_decide (automatic_rename = txt "1")
            then Value (MkReport window v (bool_decide (automatic_rename = txt "1")))
            else Unexpected (refused_reply
                   (broke source (txt ", but its version or automatic-rename report was invalid")))
        | Unexpected _ =>
            Unexpected (refused_reply
              (broke source (txt ", but its version or automatic-rename report was invalid")))
        end
  end.

(** * Breaking out *)

Definition unstable_break_target (p : Row) : option CommandFailure :=
  if negb (is_canonical_tmux_id (pane_target_text p) "%")
  then Some (rejected (txt "break-pane requires a stable numeric pane id"))
  else if negb (is_canonical_tmux_id (pane_session_id p) "$")
  then Some (rejected (txt "break-pane requires a stable numeric session id"))
  else if negb (is_canonical_tmux_id (pane_window_id p) "@")
  then Some (rejected (txt "break-pane requires a stable numeric window id"))
  else None.

Definition apostrophe : ascii := byte 39.
Definition quoted (s : text) : text := [apostrophe] ++ s ++ [apostrophe].

Definition alone : text := txt "#{==:#{window_panes},1}".

(** The command both breaks send: report the window where the pane is alone in it. *)
Definition guarded_break (target when_alone otherwise : text) : CommandRequest :=
  words [txt "if-shell"; txt "-F"; txt "-t"; target; alone; when_alone; otherwise].

Definition native_break (target owner : text) (name : option text) (fields : text) : text :=
  txt "break-pane -d -s " ++ target ++ txt " -t " ++ owner ++ txt ": -P" ++
  match name with Some word => txt " -n " ++ word | None => [] end ++ txt " -F " ++ quoted fields.

Definition unnamed_command (target owner home : text) : CommandRequest :=
  let fields := format_request (kFields WindowNoun) in
  let native := native_break target owner None fields in
  let current := txt "display-message -p -t " ++ owner ++ txt ":" ++ home ++ txt " " ++ quoted fields in
  let guarded := txt "if-shell -F -t " ++ target ++ txt " " ++
    quoted (on_release_of break_pane_misnames_windows true) ++
    txt " { " ++ native ++ txt " -n libtmux } { " ++ native ++ txt " }" in
  guarded_break target current guarded.

Definition break_out_unnamed (p : Row) (c : Connection) (policy : Policy) (started : N) : Act Row :=
  let target := pane_target_text p in
  let owner := pane_session_id p in
  let home := pane_window_id p in
  guard (unstable_break_target p)
    (output ← run_remaining policy started (unnamed_command target owner home);
     lift match parsed (kFields WindowNoun) output with
          | Unexpected e =>
              Unexpected (with_diagnostic e (broke target (txt ", but its window row was malformed: " ++ diagnostic e)))
          | Value s =>
              _ ← single_row s target;
              let created := MkRow s 0 (Some c) in
              if negb (is_canonical_tmux_id (id_of created) "@") ||
                 negb (is_canonical_tmux_id (window_session_id created) "$") ||
                 negb (bool_decide (window_session_id created = owner))
              then Unexpected (refused_reply (broke target (txt ", but did not report one exact connected window row")))
              else Value created
          end).

Definition named_command (target owner home break_name rename_name : text) : CommandRequest :=
  let fields := format_request kNamedBreakFields in
  let source_window := owner ++ txt ":" ++ home in
  let report_command := txt "display-message -p -t " ++ source_window ++ txt " " ++ quoted fields in
  let retained := txt "rename-window -t " ++ source_window ++ txt " -- " ++ rename_name ++ txt " ; " ++ report_command in
  guarded_break target retained (native_break target owner (Some break_name) fields).

Definition repair_batch (repair_target created_window created_session name : text) : CommandBatch :=
  foldl (fun b command => (batch_add command b).1) []
    [words [txt "if-shell"; txt "-F"; txt "-t"; repair_target;
            named_repair_guard created_window created_session; txt "{"];
     words [txt "rename-window"; txt "-t"; repair_target; txt "--"; escape_literal name];
     words (append_display_message_text [txt "display-message"; txt "-p"; txt "-t"; repair_target]
              (format_request kNamedBreakFields))].

(** A repair that did not start is told of as one whose break was answered. *)
Definition repair_failure (source created_window : text) (e : CommandFailure) : CommandFailure :=
  MkFailure (failure_kind e) (if bool_decide (delivery e = not_started) then replied else delivery e) (exit_code e)
    (txt "break-pane moved pane " ++ source ++ txt " into window " ++ created_window ++
     txt ", but its raw tmux 3.7 name repair failed: " ++ diagnostic e).

Definition repaired_window (source created_window : text) (final : NamedBreakReport) : expected CommandFailure Row :=
  if negb (affects break_pane_misnames_windows (report_version final)) || report_automatic_rename final
  then Unexpected (refused_reply
         (txt "break-pane moved pane " ++ source ++ txt " into window " ++ created_window ++
          txt ", but its raw tmux 3.7 name repair was not durable"))
  else Value (report_window final).

Definition break_out_named (p : Row) (name : text) (c : Connection) (policy : Policy) (started : N) : Act Row :=
  let target := pane_target_text p in
  let owner := pane_session_id p in
  let home := pane_window_id p in
  guard (unstable_break_target p)
    (break_name ← lift (tmux_command_word name);
     rename_name ← lift (tmux_command_word (escape_literal name));
     output ← run_remaining policy started (named_command target owner home break_name rename_name);
     created ← lift (named_break_report c output (id_of p) [] owner);
     let retained_window := bool_decide (id_of (report_window created) = pane_window_id p) in
     if negb (affects break_pane_misnames_windows (report_version created)) ||
        retained_window && negb (report_automatic_rename created)
     then give (report_window created)
     else
       let created_window := id_of (report_window created) in
       let created_session := window_session_id (report_window created) in
       let repair_target := window_command_target (report_window created) in
       bind (run_remaining policy started
               (batch_request (repair_batch repair_target created_window created_session name)))
         (fun repaired =>
            match repaired with
            | Unexpected e => fail (repair_failure (id_of p) created_window e)
            | Value output =>
                final ← lift (named_break_report c output (id_of p) created_window created_session);
                lift (repaired_window (id_of p) created_window final)
            end)).

Definition break_out (p : Row) (name : text) : Act Row :=
  match connection p with
  | None => fail disconnected
  | Some c =>
      guard (row_refused p window_creation (txt "psmux cannot report the window created by break-pane"))
        (guard (unstable_break_target p)
          (bind (refuse_name_on_exact_37 name (txt "window"))
            (fun invalid => guard invalid
              (ReadClock (fun started =>
                 if bool_decide (name = []) then break_out_unnamed p c (policy_of c) started
                 else break_out_named p name c (policy_of c) started)))))
  end.

(** * Reading the inner commands *)

(** tmux's reading of the words used here: blanks part words, apostrophes keep bytes as they
    are, double quotes hold octal bytes.  Anything else is not read. *)
Inductive Mode := bare | single | double | octal (digits : list N).

Definition space : ascii := " "%char.

Definition bare_char (c : ascii) : bool :=
  let b := byte_of c in
  (is_digit c || ((97 <=? b) && (b <=? 122)) || ((65 <=? b) && (b <=? 90)))%N ||
  bool_decide (c ∈ txt "-:@%${};").

Definition read_octal (c : ascii) : option N :=
  if ((48 <=? byte_of c) && (byte_of c <=? 55))%N then Some (byte_of c - 48)%N else None.

Definition octal_value (digits : list N) : N := foldl (fun v d => v * 8 + d)%N 0%N digits.

Fixpoint scan (mode : Mode) (word : option text) (s : text) : option (list text) :=
  let w := default [] word in
  match s with
  | [] => match mode with bare => Some (option_list word) | _ => None end
  | c :: rest =>
      match mode with
      | bare =>
          if bool_decide (c = space) then (fun ws => option_list word ++ ws) <$> scan bare None rest
          else if bool_decide (c = apostrophe) then scan single (Some w) rest
          else if bool_decide (c = quote) then scan double (Some w) rest
          else if bare_char c then scan bare (Some (w ++ [c])) rest
          else None
      | single =>
          if bool_decide (c = apostrophe) then scan bare (Some w) rest
          else scan single (Some (w ++ [c])) rest
      | double =>
          if bool_decide (c = quote) then scan bare (Some w) rest
          else if bool_decide (c = "\"%char) then scan (octal []) (Some w) rest
          else None
      | octal digits =>
          match read_octal c with
          | None => None
          | Some d =>
              let digits := digits ++ [d] in
              if (length digits =? 3)%nat then scan double (Some (w ++ [ascii_of_N (octal_value digits)])) rest
              else scan (octal digits) (Some w) rest
          end
      end
  end.

Definition command_words (s : text) : option (list text) := scan bare None s.

(** What is read up to a blank outside quotes does not depend on what follows. *)
Lemma scan_blank p mode word ws rest :
  scan mode word (p ++ [space]) = Some ws ->
  scan mode word (p ++ space :: rest) = (fun more => ws ++ more) <$> command_words rest.
Proof.
  unfold command_words. revert mode word ws. induction p as [|c p IH]; intros mode word ws; cbn [app].
  - destruct mode; cbn.
    + intros [= <-]. by rewrite app_nil_r.
    + done.
    + done.
    + done.
  - cbn [scan]. destruct mode.
    + repeat case_bool_decide; [| by apply IH | by apply IH |].
      * destruct (scan bare None (p ++ [space])) as [more|] eqn:E; cbn; [|done]. intros [= <-].
        rewrite (IH _ _ _ E). destruct (scan bare None rest); cbn; [|done]. by rewrite app_assoc.
      * destruct (bare_char c); [apply IH | done].
    + case_bool_decide; apply IH.
    + repeat case_bool_decide; [by apply IH | by apply IH | done].
    + destruct (read_octal c) as [d|]; [|done]. cbv zeta. destruct (_ =? 3)%nat; apply IH.
Qed.

Lemma command_words_blank p ws rest :
  command_words (p ++ [space]) = Some ws ->
  command_words (p ++ space :: rest) = (fun more => ws ++ more) <$> command_words rest.
Proof. apply scan_blank. Qed.

Lemma scan_bare_word w : forallb bare_char w = true ->
  forall word rest, w <> [] ->
  scan bare word (w ++ rest) = scan bare (Some (default [] word ++ w)) rest.
Proof.
  assert (bare_char space = false /\ bare_char apostrophe = false /\ bare_char quote = false) as (H1 & H2 & H3)
    by by vm_compute.
  induction w as [|c w IH]; [done|]. cbn [forallb]. intros [Hc Hw]%andb_true_iff word rest _.
  cbn [app scan]. rewrite !bool_decide_false, Hc by (intros ->; congruence).
  destruct w as [|d w]; [done|]. rewrite IH by done. cbn. by rewrite <-app_assoc.
Qed.

Lemma scan_single_quoted s word rest :
  apostrophe ∉ s ->
  scan single word (s ++ apostrophe :: rest) = scan bare (Some (default [] word ++ s)) rest.
Proof.
  revert word. induction s as [|c s IH]; intros word Hs.
  - cbn [app scan]. by rewrite bool_decide_true, app_nil_r.
  - apply not_elem_of_cons in Hs as [Hc Hs]. cbn [app scan]. rewrite bool_decide_false by done.
    rewrite IH by done. cbn. by rewrite <-app_assoc.
Qed.

Lemma scan_octal_byte c word rest :
  scan double word (octal_byte c ++ rest) = scan double (Some (default [] word ++ [c])) rest.
Proof. by destruct c as [[] [] [] [] [] [] [] []]. Qed.

Lemma scan_octal v word rest :
  scan double word (flat_map octal_byte v ++ quote :: rest) = scan bare (Some (default [] word ++ v)) rest.
Proof.
  revert word. induction v as [|c v IH]; intros word; cbn [flat_map].
  - cbn [app scan]. by rewrite bool_decide_true, app_nil_r.
  - rewrite <-app_assoc, scan_octal_byte, IH. cbn. by rewrite <-app_assoc.
Qed.

(** A word written for tmux reads back, whatever bytes it holds. *)
Lemma command_word_reads_back v word :
  tmux_command_word v = Value word -> command_words (word ++ [space]) = Some [v].
Proof.
  unfold tmux_command_word. case_bool_decide; [done|]. intros [= <-].
  unfold command_words. cbn [app scan]. rewrite !bool_decide_false by done. rewrite bool_decide_true by done.
  rewrite <-app_assoc. cbn [app]. rewrite scan_octal. reflexivity.
Qed.

Lemma quoted_reads_back s : apostrophe ∉ s -> command_words (quoted s) = Some [s].
Proof.
  intros Hs. unfold command_words, quoted. cbn [app scan]. rewrite bool_decide_false by done.
  rewrite bool_decide_true by done. by rewrite scan_single_quoted.
Qed.

Lemma bare_reads_back w : w <> [] -> forallb bare_char w = true -> command_words (w ++ [space]) = Some [w].
Proof.
  intros Hne Hw. unfold command_words. rewrite scan_bare_word by done. reflexivity.
Qed.

(** * Canonical ids *)

Lemma id_digits_spec s : forall v,
  (v <= u32_max)%N -> id_digits v s = true <-> forallb is_digit s = true /\ (digits_value v s <= u32_max)%N.
Proof.
  induction s as [|c s IH]; intros v Hv; cbn [id_digits forallb]; [done|].
  destruct (is_digit c) eqn:Hd; cbn [andb]; [|by split; [|intros [? _]]]. cbv zeta.
  pose proof (digit_value_lt c Hd) as Hlt.
  change (digits_value v (c :: s)) with (digits_value (v * 10 + digit_value c) s).
  pose proof (digits_value_ge (v * 10 + digit_value c) s) as Hge.
  destruct (v <=? (u32_max - digit_value c) / 10)%N eqn:Hl.
  - apply N.leb_le in Hl. pose proof (N.Div0.mul_div_le (u32_max - digit_value c) 10).
    assert (v * 10 + digit_value c <= u32_max)%N as Hfit by (unfold u32_max in *; lia).
    rewrite N.mod_small by (unfold u32_max in *; lia). by apply IH.
  - apply N.leb_gt in Hl. split; [done|]. intros [_ H]. exfalso.
    enough (v <= (u32_max - digit_value c) / 10)%N by lia.
    apply N.div_le_lower_bound; unfold u32_max in *; lia.
Qed.

(** No zero in front. *)
Definition no_leading_zero (s : text) : Prop := head s = Some "0"%char -> s = ["0"%char].

Lemma digits_value_snoc v s c : digits_value v (s ++ [c]) = (digits_value v s * 10 + digit_value c)%N.
Proof. by rewrite digits_value_app. Qed.

Lemma digits_value_zero s : forallb is_digit s = true -> digits_value 0 s = 0%N -> no_leading_zero s -> s <> [] -> s = ["0"%char].
Proof.
  destruct s as [|c s]; [done|]. intros [Hc Hs]%andb_true_iff Hz Hn _. apply Hn. cbn. f_equal.
  change (digits_value 0 (c :: s)) with (digits_value (0 * 10 + digit_value c) s) in Hz.
  pose proof (digits_value_ge (0 * 10 + digit_value c) s). assert (digit_value c = 0%N) as Hv by lia.
  by rewrite <-(digit_char_of_value c Hc), Hv.
Qed.

Lemma prefix_head t d : t <> [] -> no_leading_zero (t ++ [d]) -> head t <> Some "0"%char.
Proof.
  intros Ht Hn Hh. destruct t as [|c t]; [done|]. injection Hh as ->. specialize (Hn eq_refl).
  injection Hn as E. by destruct t.
Qed.

(** Numerals without a zero in front are their values. *)
Lemma numeral_inj s t :
  forallb is_digit s = true -> forallb is_digit t = true -> s <> [] -> t <> [] ->
  no_leading_zero s -> no_leading_zero t -> digits_value 0 s = digits_value 0 t -> s = t.
Proof.
  revert t. induction s as [|c s IH] using rev_ind; intros t Hs Ht Hs0 Ht0 Hsz Htz E; [done|].
  destruct t as [|d t _] using rev_ind; [done|].
  rewrite !forallb_app in *. cbn [forallb] in *. to_props. rewrite !digits_value_snoc in E.
  assert (digit_value c < 10 /\ digit_value d < 10)%N as [Hc Hd] by (by split; apply digit_value_lt).
  assert (digits_value 0 s = digits_value 0 t /\ digit_value c = digit_value d) as [Ev Ed] by lia.
  assert (c = d) as -> by (rewrite <-(digit_char_of_value c), <-(digit_char_of_value d), Ed by done; done).
  f_equal. clear Hs0 Ht0 E Ed.
  destruct s as [|a s], t as [|b t]; [done | | |].
  - exfalso. apply (prefix_head (b :: t) d); [done | done|]. symmetry in Ev.
    rewrite (digits_value_zero (b :: t)) by (done || by intros ?; exfalso; apply (prefix_head (b :: t) d)). done.
  - exfalso. apply (prefix_head (a :: s) d); [done | done|].
    rewrite (digits_value_zero (a :: s)) by (done || by intros ?; exfalso; apply (prefix_head (a :: s) d)). done.
  - apply IH; try done; intros Hh; exfalso; [by apply (prefix_head (a :: s) d) | by apply (prefix_head (b :: t) d)].
Qed.

Lemma dec_loop_head fuel n acc :
  (n < 2 ^ N.of_nat fuel)%N -> (0 < n)%N -> exists c ds, dec_loop fuel n acc = c :: ds /\ c <> "0"%char.
Proof.
  revert n acc. induction fuel as [|fuel IH]; intros n acc Hn Hp; [cbn in Hn; lia|].
  cbn [dec_loop]. destruct (N.ltb_spec n 10) as [Hlt|Hge].
  - eexists _, _. split; [reflexivity|]. rewrite N.mod_small by done.
    intros E%(f_equal digit_value). rewrite digit_char_value in E by done. change (digit_value "0") with 0%N in E. lia.
  - apply IH.
    + rewrite Nat2N.inj_succ, N.pow_succ_r' in Hn. apply N.Div0.div_lt_upper_bound. lia.
    + apply N.div_str_pos. lia.
Qed.

Lemma dec_no_leading_zero n : no_leading_zero (dec n).
Proof.
  unfold no_leading_zero. destruct (N.eq_0_gt_0_cases n) as [-> | Hn]; [done|].
  destruct (dec_loop_head (S (N.to_nat (N.log2 n))) n []) as (c & ds & E & Hc); [|done|].
  - rewrite Nat2N.inj_succ, N2Nat.id. by apply N.log2_spec.
  - unfold dec. rewrite E. by intros [= ->].
Qed.

Lemma dec_digits s :
  forallb is_digit s = true -> s <> [] -> no_leading_zero s -> dec (digits_value 0 s) = s.
Proof.
  intros Hs Hne Hz. destruct (dec_spec (digits_value 0 s)) as (H1 & H2 & H3).
  apply numeral_inj; auto using dec_no_leading_zero.
Qed.

(** The ids let through to the text tmux reads again are exactly the numbers of 32 bits
    behind their mark, each in its one spelling. *)
Theorem canonical_id_iff id prefix :
  is_canonical_tmux_id id prefix = true <-> exists n, (n <= u32_max)%N /\ id = prefix :: dec n.
Proof.
  split.
  - destruct id as [|c [|d rest]]; [done..|]. cbn [is_canonical_tmux_id]. intros H. to_props.
    apply id_digits_spec in H0 as [Hd Hv]; [|unfold u32_max; lia]. subst c.
    exists (digits_value 0 (d :: rest)). split; [done|]. f_equal. symmetry. apply dec_digits; [done..|].
    intros [= ->]. rewrite andb_true_r in H1. to_props. by subst.
  - intros (n & Hn & ->). destruct (dec_spec n) as (Hne & Hd & Hv). pose proof (dec_no_leading_zero n) as Hz.
    destruct (dec n) as [|d rest] eqn:E; [done|]. cbn [is_canonical_tmux_id]. rewrite bool_decide_true by done.
    assert (negb (bool_decide (rest = [])) && bool_decide (d = "0"%char) = false) as ->.
    { destruct (decide (d = "0"%char)) as [-> |]; [|by rewrite (bool_decide_false (d = _)), andb_false_r].
      injection (Hz eq_refl) as ->. done. }
    apply id_digits_spec; [unfold u32_max; lia|]. by rewrite Hv.
Qed.

Lemma canonical_bare id prefix :
  is_canonical_tmux_id id prefix = true -> bare_char prefix = true -> id <> [] /\ forallb bare_char id = true.
Proof.
  destruct id as [|c [|d rest]]; [done..|]. cbn [is_canonical_tmux_id]. intros H Hp. to_props.
  apply id_digits_spec in H0 as [Hd _]; [|unfold u32_max; lia]. subst c. split; [done|].
  cbn [forallb]. rewrite Hp. cbn [andb]. change (forallb bare_char (d :: rest) = true).
  rewrite forallb_forall in Hd |- *. intros c Hc. unfold bare_char. by rewrite (Hd c Hc).
Qed.

(** * The inner commands *)

Lemma quoted_blank s : apostrophe ∉ s -> command_words (quoted s ++ [space]) = Some [s].
Proof.
  intros Hs. unfold command_words, quoted. cbn [app scan]. rewrite bool_decide_false, bool_decide_true by done.
  rewrite <-app_assoc. cbn [app]. by rewrite scan_single_quoted.
Qed.

Ltac next_word :=
  erewrite command_words_blank; [|first [reflexivity | by apply quoted_blank | by apply bare_reads_back | by apply command_word_reads_back
                                        | by eapply command_word_reads_back]].

(** Without a name the daemon's release decides whether a name is given at all. *)
Lemma unnamed_reads_back target owner home :
  is_canonical_tmux_id target "%" = true -> is_canonical_tmux_id owner "$" = true ->
  is_canonical_tmux_id home "@" = true ->
  let fields := format_request (kFields WindowNoun) in
  let native := [txt "break-pane"; txt "-d"; txt "-s"; target; txt "-t"; owner ++ txt ":"; txt "-P"; txt "-F"; fields] in
  exists current guarded,
    unnamed_command target owner home = guarded_break target current guarded /\
    command_words current = Some [txt "display-message"; txt "-p"; txt "-t"; owner ++ txt ":" ++ home; fields] /\
    command_words guarded = Some ([txt "if-shell"; txt "-F"; txt "-t"; target; on_release_of break_pane_misnames_windows true;
       txt "{"] ++ native ++ [txt "-n"; txt "libtmux"; txt "}"; txt "{"] ++ native ++ [txt "}"]).
Proof.
  intros Ht Ho Hh fields native. unfold unnamed_command. eexists _, _. split; [reflexivity|].
  apply canonical_bare in Ht as [Ht0 Ht], Ho as [Ho0 Ho], Hh as [Hh0 Hh]; [|done..].
  assert (apostrophe ∉ fields) as Hf by (apply (bool_decide_unpack _); by vm_compute).
  assert (owner ++ txt ":" ++ home <> [] /\ forallb bare_char (owner ++ txt ":" ++ home) = true) as [Hs0 Hs]
    by (split; [by destruct owner | by rewrite !forallb_app, Ho, Hh]).
  assert (owner ++ txt ":" <> [] /\ forallb bare_char (owner ++ txt ":") = true) as [Hc0 Hc]
    by (split; [by destruct owner | by rewrite !forallb_app, Ho]).
  change (format_request (kFields WindowNoun)) with fields.
  split.
  - set (window := owner ++ txt ":" ++ home) in *.
    assert (txt "display-message -p -t " ++ owner ++ txt ":" ++ home ++ txt " " ++ quoted fields =
      txt "display-message" ++ space :: txt "-p" ++ space :: txt "-t" ++ space :: window ++ space :: quoted fields) as ->
      by (unfold window; rewrite <-!app_assoc; reflexivity).
    repeat next_word. by rewrite quoted_reads_back.
  - set (session := owner ++ txt ":") in *. set (condition := on_release_of _ _).
    assert (native_break target owner None fields =
      txt "break-pane" ++ space :: txt "-d" ++ space :: txt "-s" ++ space :: target ++ space :: txt "-t" ++ space ::
      session ++ space :: txt "-P" ++ space :: txt "-F" ++ space :: quoted fields) as ->
      by (unfold native_break, session; rewrite <-!app_assoc; reflexivity).
    assert (apostrophe ∉ condition) as Hcond by (apply (bool_decide_unpack _); by vm_compute).
    unfold native. repeat rewrite <-app_assoc; cbn [app].
    change (txt "if-shell -F -t ") with (txt "if-shell" ++ space :: txt "-F" ++ space :: txt "-t" ++ [space]).
    change (txt " { ") with (space :: txt "{" ++ [space]).
    change (txt " -n libtmux } { ") with (space :: txt "-n" ++ space :: txt "libtmux" ++ space :: txt "}" ++ space :: txt "{" ++ [space]).
    change (txt " }") with (space :: txt "}"). change (txt " ") with [space].
    repeat (rewrite <-app_assoc; cbn [app]).
    repeat next_word. by repeat (rewrite <-app_assoc; cbn [app]).
Qed.

(** * What a break sends and answers *)

Lemma wp_remaining policy started command (Q : list Exchange -> expected CommandFailure text -> Prop) sent :
  (forall reply, Q (sent ++ [(command, reply)]) reply) -> wp (run_remaining policy started command) Q sent.
Proof. intros H. unfold run_remaining. destruct (timeout policy); cbn [wp]; intros; apply H. Qed.

Lemma single_row_replied s source e : single_row s source = Unexpected e -> delivery e = replied.
Proof. unfold single_row. destruct (row_texts s); [by intros [= <-]|]. repeat case_bool_decide; by intros [= <-]. Qed.

Lemma parsed_replied fields output e : parsed fields output = Unexpected e -> delivery e = replied.
Proof. unfold parsed. destruct (Snapshot_parse _) as [s []]; [done|]. by intros [= <-]. Qed.

(** A window read out of a reply: which one, and whose. *)
Definition window_of (c : Connection) (output : text) (row : Row) : Prop :=
  connection row = Some c /\ row_index row = 0 /\
  (exists fields, parsed fields output = Value (snapshot row)) /\
  is_canonical_tmux_id (id_of row) "@" = true /\ is_canonical_tmux_id (window_session_id row) "$" = true.

Lemma report_spec c output source expected_window expected_session :
  match named_break_report c output source expected_window expected_session with
  | Value report =>
      window_of c output (report_window report) /\
      (expected_window <> [] -> id_of (report_window report) = expected_window) /\
      (expected_session <> [] -> window_session_id (report_window report) = expected_session)
  | Unexpected e => delivery e = replied
  end.
Proof.
  unfold named_break_report. destruct (parsed kNamedBreakFields output) as [s|e] eqn:Hp; [|by apply parsed_replied in Hp].
  destruct (single_row s source) as [cells|e] eqn:Hs; cbn [mbind expected_bind]; [|by apply single_row_replied in Hs].
  destruct (_ || _) eqn:Hb; [done|]. unfold not_exact in Hb. to_props.
  destruct (parse_version _) as [v|]; [|done]. destruct (_ || _); [|done].
  cbn [report_window]. split; [unfold window_of; cbn [connection row_index snapshot]; split_and!; eauto|].
  split; intros Hne; rewrite bool_decide_false in * by done; cbn [negb andb] in *; to_props; done.
Qed.

(** The command a break sends first. *)
Definition first_command (p : Row) (name : text) : option CommandRequest :=
  if bool_decide (name = []) then Some (unnamed_command (id_of p) (pane_session_id p) (pane_window_id p))
  else match tmux_command_word name, tmux_command_word (escape_literal name) with
       | Value break_name, Value rename_name =>
           Some (named_command (id_of p) (pane_session_id p) (pane_window_id p) break_name rename_name)
       | _, _ => None
       end.

(** The repair of a window that was reported. *)
Definition repair_of (window : Row) (name : text) : CommandRequest :=
  batch_request (repair_batch (window_command_target window) (id_of window) (window_session_id window) name).

Definition Answer := expected CommandFailure Row.

(** One command, or a second one that repairs the window the first reported. *)
Definition sent_by_break (p : Row) (name : text) (c : Connection) (sent : list Exchange) : Prop :=
  sent = [] \/
  exists command, first_command p name = Some command /\
    ((exists reply, sent = [(command, reply)]) \/
     (exists output window reply, sent = [(command, Value output); (repair_of window name, reply)] /\
        window_of c output window /\ window_session_id window = pane_session_id p /\ name <> [])).

Definition honest (sent : list Exchange) (r : Answer) : Prop :=
  forall e, r = Unexpected e -> delivery e = not_started -> Forall (fun x => forall output, x.2 <> Value output) sent.

(** The window handed over is the one the last command reported, and of the pane's session. *)
Definition hands_over (p : Row) (c : Connection) (sent : list Exchange) (r : Answer) : Prop :=
  forall row, r = Value row -> exists command output,
    last sent = Some (command, Value output) /\ window_of c output row /\ window_session_id row = pane_session_id p.

Definition break_post (p : Row) (name : text) (c : Connection) (sent : list Exchange) (r : Answer) : Prop :=
  sent_by_break p name c sent /\ honest sent r /\ hands_over p c sent r.

Lemma post_nothing p name c e : break_post p name c [] (Unexpected e).
Proof. split_and!; [by left | intros ? _ _; constructor | done]. Qed.

Lemma post_failed p name c command reply e :
  first_command p name = Some command -> (delivery e = not_started -> forall output, reply <> Value output) ->
  break_post p name c [(command, reply)] (Unexpected e).
Proof.
  intros Hf He. split_and!.
  - right. eexists. eauto.
  - intros ? [= <-] Hd. repeat constructor. by apply He.
  - done.
Qed.

Lemma post_handed p name c command output row :
  first_command p name = Some command -> window_of c output row -> window_session_id row = pane_session_id p ->
  break_post p name c [(command, Value output)] (Value row).
Proof.
  intros Hf Hw Hs. split_and!; [right; eexists; eauto | done |]. intros ? [= <-]. by eexists _, _.
Qed.

Lemma unnamed_post p c policy started :
  wp (break_out_unnamed p c policy started) (break_post p [] c) [].
Proof.
  unfold break_out_unnamed. cbv zeta. destruct (unstable_break_target p); cbn [guard]; [apply post_nothing|].
  apply wp_act, wp_remaining. intros [output|e]; cbn [wp lift app]; [|by apply post_failed].
  destruct (parsed _ output) as [s|e] eqn:Hp; [|apply parsed_replied in Hp; apply post_failed; [done | cbn; congruence]].
  destruct (single_row s _) as [cells|e] eqn:Hs; cbn [mbind expected_bind];
    [|apply single_row_replied in Hs; apply post_failed; [done | congruence]].
  destruct (_ || _) eqn:Hb; [by apply post_failed|]. to_props.
  apply post_handed; [done | | done]. unfold window_of. cbn. split_and!; eauto.
Qed.

Lemma named_post p name c policy started :
  name <> [] -> pane_session_id p <> [] ->
  wp (break_out_named p name c policy started) (break_post p name c) [].
Proof.
  intros Hname Howner. unfold break_out_named. cbv zeta.
  destruct (unstable_break_target p); cbn [guard]; [apply post_nothing|].
  destruct (tmux_command_word name) as [break_name|] eqn:Hb; [|apply post_nothing].
  destruct (tmux_command_word (escape_literal name)) as [rename_name|] eqn:Hr; [|apply post_nothing].
  assert (first_command p name =
    Some (named_command (id_of p) (pane_session_id p) (pane_window_id p) break_name rename_name)) as Hfirst
    by (unfold first_command; by rewrite bool_decide_false, Hb, Hr by done).
  cbn [mbind Act_bind bind lift]. apply wp_act, wp_remaining. intros [output|e]; cbn [app]; [|by apply post_failed].
  pose proof (report_spec c output (id_of p) [] (pane_session_id p)) as Hspec.
  destruct (named_break_report _ _ _ _ _) as [created|e]; cbn [mbind Act_bind bind lift wp];
    [|apply post_failed; [done | congruence]].
  destruct Hspec as (Hw & _ & Hs). specialize (Hs Howner).
  destruct (_ || _); [by apply post_handed|]. apply wp_bind, wp_remaining.
  change (batch_request _) with (repair_of (report_window created) name).
  assert (forall reply, sent_by_break p name c
    [(named_command (id_of p) (pane_session_id p) (pane_window_id p) break_name rename_name, Value output);
     (repair_of (report_window created) name, reply)]) as Hsent
    by (intros reply; right; eexists; split; [exact Hfirst|]; right; by eexists _, _, _).
  assert (forall reply e, delivery e <> not_started -> break_post p name c
    [(named_command (id_of p) (pane_session_id p) (pane_window_id p) break_name rename_name, Value output);
     (repair_of (report_window created) name, reply)] (Unexpected e)) as Hfail
    by (intros reply e He; split_and!; [apply Hsent | by intros ? [= <-] | done]).
  cbn [app]. intros [final_output|e]; [|cbn [wp fail]].
  - pose proof (report_spec c final_output (id_of p) (id_of (report_window created))
      (window_session_id (report_window created))) as Hspec.
    destruct (named_break_report _ _ _ _ _) as [final|e]; cbn [mbind Act_bind bind lift wp]; [|apply Hfail; congruence].
    unfold repaired_window. destruct (_ || _); [by apply Hfail|]. destruct Hspec as (Hw' & _ & Hs').
    split_and!; [apply Hsent | done |]. intros row [= <-]. eexists _, _. split_and!; [done | done |].
    rewrite Hs'; [done | by rewrite Hs].
  - apply Hfail. cbn [repair_failure delivery]. case_bool_decide; [done | done].
Qed.

(** C38: Breaking a pane out sends one command, or a second one that repairs the very window
    the first one reported; it hands over a window that the last reply reported, of the
    session the pane was in; and no failure that says nothing was sent comes after tmux
    answered, so a caller who retries such a failure does not break a pane twice. *)
Theorem break_out_outcome p name c :
  connection p = Some c -> wp (break_out p name) (break_post p name c) [].
Proof.
  intros Hc. unfold break_out. rewrite Hc. destruct (row_refused _ _ _); cbn [guard]; [apply post_nothing|].
  destruct (unstable_break_target p) eqn:Hu; cbn [guard]; [apply post_nothing|].
  assert (pane_session_id p <> []) as Howner.
  { intros E. unfold unstable_break_target in Hu. rewrite E in Hu. by destruct (is_canonical_tmux_id (pane_target_text p) _). }
  apply wp_bind. unfold refuse_name_on_exact_37. destruct (negb _).
  - cbn [wp guard]. intros started. case_bool_decide; [subst; apply unnamed_post | by apply named_post].
  - intros answer. destruct answer as [v|e]; cbn [wp]; [|apply post_nothing].
    match goal with |- wp (guard ?o _) _ _ => destruct o end; cbn [guard wp]; [apply post_nothing|].
    intros started. case_bool_decide; [subst; apply unnamed_post | by apply named_post].
Qed.

(** * The guards *)

(** A condition of a format. *)
Inductive Cond :=
  | Test (equal : bool) (field v : text)
  | Join (any : bool) (a b : Cond).

Fixpoint render_cond (c : Cond) : text :=
  match c with
  | Test equal field v =>
      txt "#{" ++ txt (if equal then "==" else "!=")%string ++ txt ":#{" ++ field ++ txt "}," ++ v ++ txt "}"
  | Join any a b =>
      txt "#{" ++ txt (if any then "||" else "&&")%string ++ txt ":" ++ render_cond a ++ txt "," ++ render_cond b ++ txt "}"
  end.

(** Its value where [env] gives the fields. *)
Fixpoint holds (env : text -> text) (c : Cond) : bool :=
  match c with
  | Test equal field v => Bool.eqb equal (bool_decide (env field = v))
  | Join any a b => if any then holds env a || holds env b else holds env a && holds env b
  end.

Definition releases_cond (affected : bool) : Cond := Test affected (txt "version") (release_text kTmux37).

Definition repair_cond (window_id session_id : text) : Cond :=
  Join true (releases_cond false)
    (Join true (Test false (txt "window_id") window_id)
      (Join true (Test false (txt "session_id") session_id)
        (Join true (Test false (txt "after-rename-window") [])
          (Join true (Test false (txt "window-renamed") []) (Test false (txt "after-display-message") []))))).

(** The guards of a break are conditions on the daemon's own state: the one on the
    release is true on exactly the releases the workaround names, its opposite on every
    other; the repair is abandoned exactly when the daemon is another release, the window
    or its session is not the one reported, or a hook would run along. *)
Theorem break_guards_mean env window_id session_id :
  let affected_release := exists release, release ∈ releases_of break_pane_misnames_windows /\
                                          env (txt "version") = release_text release in
  (forall affected, on_release_of break_pane_misnames_windows affected = render_cond (releases_cond affected) /\
     (holds env (releases_cond affected) = true <-> if affected then affected_release else ~ affected_release)) /\
  named_repair_guard window_id session_id = render_cond (repair_cond window_id session_id) /\
  (holds env (repair_cond window_id session_id) = false <->
     affected_release /\ env (txt "window_id") = window_id /\ env (txt "session_id") = session_id /\
     env (txt "after-rename-window") = [] /\ env (txt "window-renamed") = [] /\ env (txt "after-display-message") = []).
Proof.
  intros affected_release.
  assert (affected_release <-> env (txt "version") = release_text kTmux37) as Hr.
  { unfold affected_release. change (releases_of _) with [kTmux37]. split.
    - by intros (r & ->%list_elem_of_singleton & ?).
    - intros. exists kTmux37. split; [left | done]. }
  split; [|split].
  - intros affected. split; [by destruct affected|]. unfold releases_cond. cbn [holds].
    destruct affected; rewrite Hr; case_bool_decide; naive_solver.
  - unfold named_repair_guard. cbn [any_term]. unfold differs, repair_cond. cbn [render_cond]. rewrite <-?app_assoc. reflexivity.
  - unfold repair_cond, releases_cond. cbn [holds]. rewrite Hr, !orb_false_iff.
    assert (forall a b : text, Bool.eqb false (bool_decide (a = b)) = false <-> a = b) as He
      by (intros a b; case_bool_decide; by split).
    by rewrite !He.
Qed.

(** * The commands, as tmux reads them *)

Definition break_reading (target when_alone otherwise : text) : Reading :=
  (txt "if-shell", MkFlags [flag_on "F"; with_value "t" target] [alone; when_alone; otherwise]).

Definition repair_readings (target window_id session_id name : text) : list Reading :=
  [(txt "if-shell", MkFlags [flag_on "F"; with_value "t" target] [named_repair_guard window_id session_id; txt "{"]);
   act_on "rename-window" target [] [escape_literal name];
   (txt "display-message", MkFlags [flag_on "p"; with_value "t" target] [format_request kNamedBreakFields])].

Lemma canonical_not_separator id prefix : is_canonical_tmux_id id prefix = true -> kCommandSeparator <> id.
Proof. by intros H <-. Qed.

Lemma guarded_break_reads target when_alone otherwise :
  kCommandSeparator ∉ [target; when_alone; otherwise] ->
  readings (guarded_break target when_alone otherwise) = [break_reading target when_alone otherwise].
Proof.
  intros H. apply (readings_spelt _ _ _ [alone; when_alone; otherwise]);
    [reflexivity | reflexivity | by vm_compute | vm_compute; reflexivity | by right |].
  unfold reading_words. not_separators H.
Qed.

Lemma repair_reads target window_id session_id name :
  kCommandSeparator ∉ [target; escape_literal name] ->
  readings (batch_request (repair_batch target window_id session_id name)) = repair_readings target window_id session_id name.
Proof.
  intros H. unfold readings, invocations. rewrite separate_escaped.
  set (guard_command := words [txt "if-shell"; txt "-F"; txt "-t"; target; named_repair_guard window_id session_id; txt "{"]).
  set (rename := words [txt "rename-window"; txt "-t"; target; txt "--"; escape_literal name]).
  set (report := words (append_display_message_text [txt "display-message"; txt "-p"; txt "-t"; target]
                  (format_request kNamedBreakFields))).
  change (batch_request _) with (batch_loop guard_command [rename; report]).
  rewrite batch_loop_split; [reflexivity | done | by repeat constructor | not_separators H |].
  apply Forall_cons. split; [|apply Forall_singleton]; not_separators H.
Qed.

(** A break with a name is one command to tmux, whose two branches are a rename of the
    pane's own window with a report, and a break of that pane into its own session under
    that name: read again by tmux, every byte of the name is in its place. *)
Theorem inner_commands_read_back target owner home name break_name rename_name :
  is_canonical_tmux_id target "%" = true -> is_canonical_tmux_id owner "$" = true ->
  is_canonical_tmux_id home "@" = true ->
  tmux_command_word name = Value break_name -> tmux_command_word (escape_literal name) = Value rename_name ->
  let fields := format_request kNamedBreakFields in
  exists retained native,
    readings (named_command target owner home break_name rename_name) = [break_reading target retained native] /\
    command_words retained = Some [txt "rename-window"; txt "-t"; owner ++ txt ":" ++ home; txt "--"; escape_literal name;
                              txt ";"; txt "display-message"; txt "-p"; txt "-t"; owner ++ txt ":" ++ home; fields] /\
    command_words native = Some [txt "break-pane"; txt "-d"; txt "-s"; target; txt "-t"; owner ++ txt ":"; txt "-P";
                            txt "-n"; name; txt "-F"; fields].
Proof.
  intros Ht Ho Hh Hb Hr fields. pose proof (canonical_not_separator _ _ Ht) as Hsep. eexists _, _. split.
  { apply guarded_break_reads. not_separators Hsep. }
  apply canonical_bare in Ht as [Ht0 Ht], Ho as [Ho0 Ho], Hh as [Hh0 Hh]; [|done..].
  assert (apostrophe ∉ fields) as Hf by (apply (bool_decide_unpack _); by vm_compute).
  assert (owner ++ txt ":" ++ home <> [] /\ forallb bare_char (owner ++ txt ":" ++ home) = true) as [Hs0 Hs]
    by (split; [by destruct owner | by rewrite !forallb_app, Ho, Hh]).
  assert (owner ++ txt ":" <> [] /\ forallb bare_char (owner ++ txt ":") = true) as [Hc0 Hc]
    by (split; [by destruct owner | by rewrite !forallb_app, Ho]).
  split.
  - set (window := owner ++ txt ":" ++ home) in *.
    change (command_words (txt "rename-window" ++ space :: txt "-t" ++ space :: window ++ space :: txt "--" ++ space ::
      rename_name ++ space :: txt ";" ++ space :: txt "display-message" ++ space :: txt "-p" ++ space ::
      txt "-t" ++ space :: window ++ space :: quoted fields) =
     Some [txt "rename-window"; txt "-t"; window; txt "--"; escape_literal name;
           txt ";"; txt "display-message"; txt "-p"; txt "-t"; window; fields]).
    repeat next_word. by rewrite quoted_reads_back.
  - change (format_request kNamedBreakFields) with fields. set (session := owner ++ txt ":") in *.
    assert (native_break target owner (Some break_name) fields =
      txt "break-pane" ++ space :: txt "-d" ++ space :: txt "-s" ++ space :: target ++ space :: txt "-t" ++ space ::
      session ++ space :: txt "-P" ++ space :: txt "-n" ++ space :: break_name ++ space :: txt "-F" ++ space :: quoted fields) as ->.
    { unfold native_break, session. rewrite <-!app_assoc. reflexivity. }
    repeat next_word. by rewrite quoted_reads_back.
Qed.

(** * Witnesses *)

Lemma inner_commands_read_back_witness :
  exists native, command_words native =
    Some [txt "break-pane"; txt "-d"; txt "-s"; txt "%3"; txt "-t"; txt "$1" ++ txt ":"; txt "-P";
          txt "-n"; txt "a; 'b'"; txt "-F"; format_request kNamedBreakFields].
Proof.
  destruct (inner_commands_read_back (txt "%3") (txt "$1") (txt "@2") (txt "a; 'b'")
    ([quote] ++ flat_map octal_byte (txt "a; 'b'") ++ [quote])
    ([quote] ++ flat_map octal_byte (escape_literal (txt "a; 'b'")) ++ [quote]))
    as (retained & native & _ & _ & H); [reflexivity..|].
  exists native. exact H.
Defined.

Definition broken_pane : Row :=
  MkRow (sample_listing (take 6 pane_fields) (map txt ["%3"; "sh"; "1"; "@2"; "$1"; "0"]%string)) 0 (Some sample_connection).

Lemma break_out_outcome_witness :
  connection broken_pane = Some sample_connection /\
  wp (break_out broken_pane (txt "tail")) (break_post broken_pane (txt "tail") sample_connection) [].
Proof.
  assert (connection broken_pane = Some sample_connection) as H by reflexivity.
  split; [exact H | exact (break_out_outcome broken_pane (txt "tail") sample_connection H)].
Defined.

(** A break that is answered, and the window it hands over. *)
Example broken :
  (fun r => match r with Value row => (id_of row, window_session_id row) | Unexpected _ => ([], []) end)
    (exec (break_out broken_pane (txt "tail"))
      (MkScript [Value (sample_reply WindowNoun
        ["@7"; "tail"; "0"; "$1"; "3"; "1"; "80"; "24"; "b25d"; "0"; "0"; "0"; "1"; "3.6"; "0"])] [])).1 =
  (txt "@7", txt "$1").
Proof. vm_compute. reflexivity. Qed.

(** On the release that misnames windows the repair follows, with the time that is left. *)
Example repaired :
  length (asked (exec (break_out broken_pane (txt "tail"))
      (MkScript [Value (sample_reply WindowNoun
        ["@7"; "libtmux"; "0"; "$1"; "3"; "1"; "80"; "24"; "b25d"; "0"; "0"; "0"; "1"; "3.7"; "1"]);
       Unexpected crossed_servers] [])).2) = 2.
Proof. vm_compute. reflexivity. Qed.
