(* ===== verification/ServerOps.v ===== *)
(** Server-wide operations: [src/server.cpp] (POSIX branches).

    An operation of a [Server] is a program over the server's connection, like those of
    entities: what it refuses, the command it builds, what it makes of the reply.  The
    executors a server can stand on are in Executor.v.

    The theorems: every operation sends commands tmux reads as the ones it is named for;
    a listing of the environment reads back; a wait that ends well was answered and found
    the server alive; the socket a process inherits from tmux, and the one its variables
    choose, are the ones that were put there. *)

From S2P Require Import Prelude Version Command Snapshot Capabilities Layout Commands Backend.
From S2P Require Import Filter Naming Options EntityData Acquire Entities Calls BreakOut.

(** * Helpers *)

(** [applied]. *)
Definition applied (p : Act text) : Act unit := _ ← p; give tt.

Definition unsupported_psmux_state (operation : text) : CommandFailure :=
  MkFailure unsupported not_started 0 (txt "psmux cannot provide " ++ operation ++ txt " through the typed API").

(** [Server::run]: the policy fills in what the call did not say. *)
Definition server_run (c : Connection) (command : CommandRequest) (timeout limit : option N) : Act text :=
  Run command (match timeout with Some _ => timeout | None => timeout_policy c end)
    (match limit with Some _ => limit | None => limit_policy c end) (fun reply => lift reply).

Definition run_plainly (c : Connection) (command : CommandRequest) : Act text := server_run c command None None.

(** [if (refuses(feature)) return unexpected(...)]. *)
Definition gate {A} (c : Connection) (feature : ServerFeature) (e : CommandFailure) (p : Act A) : Act A :=
  if refuses (implementation c) feature then fail e else p.

Definition state_gate {A} (c : Connection) (what : string) (p : Act A) : Act A :=
  gate c server_state (unsupported_psmux_state (txt what)) p.

(** [if (name.empty()) return unexpected(...)]. *)
Definition required {A} (name : text) (why : string) (p : Act A) : Act A :=
  if bool_decide (name = []) then fail (rejected (txt why)) else p.

Definition show (c : Connection) (request : list text) (target : text) : Act (list OptionEntry) :=
  listed (run_plainly c (words (request ++ if bool_decide (target = []) then [] else [txt "-t"; target]))).

(** * Batches and chains *)

Definition server_run_batch (c : Connection) (batch : CommandBatch) : Act text :=
  if bool_decide (batch = []) then fail (rejected (txt "empty batch"))
  else Run (batch_request batch) (timeout_policy c) (limit_policy c) (fun reply => lift reply).

Definition server_run_chain (c : Connection) (chain : Chain) : Act text :=
  if negb (chain_valid chain) then fail (rejected (error chain)) else server_run_batch c (Naming.batch chain).

(** * The server itself *)

(** [sessions->find_first_not_of(" \t\r\n") == npos]. *)
Definition blank (s : text) : bool :=
  forallb (fun c => bool_decide (c ∈ [" "%char; byte 9; byte 13; byte 10])) s.

Definition no_sessions : CommandFailure := MkFailure refused replied 0 (txt "the server has no sessions").

Definition check_alive (c : Connection) (timeout : N) : Act unit :=
  sessions ← server_run c (words [txt "list-sessions"; txt "-F"; txt "#{session_id}"]) (Some timeout) None;
  if blank sessions then fail no_sessions else give tt.

Definition is_alive (c : Connection) (timeout : N) : Prog bool :=
  bind (check_alive c timeout) (fun r => Ret match r with Value _ => true | Unexpected _ => false end).

(** [std::chrono::seconds{5}], in milliseconds. *)
Definition kAliveTimeout : N := 5000.

Definition server_kill (c : Connection) : Act unit := applied (run_plainly c (words [txt "kill-server"])).

Definition server_sessions (c : Connection) : Act (list Row) :=
  list_entities SessionNoun (Some c) (words [txt "list-sessions"]) None.
Definition server_windows (c : Connection) : Act (list Row) :=
  list_entities WindowNoun (Some c) (words [txt "list-windows"; txt "-a"]) None.
Definition server_panes (c : Connection) : Act (list Row) :=
  list_entities PaneNoun (Some c) (words [txt "list-panes"; txt "-a"]) None.
Definition server_clients (c : Connection) : Act (list Row) :=
  state_gate c "clients" (list_entities ClientNoun (Some c) (words [txt "list-clients"]) None).
Definition server_commands (c : Connection) : Act (list Row) :=
  state_gate c "command metadata" (list_entities CommandNoun (Some c) (words [txt "list-commands"]) None).
Definition server_buffers (c : Connection) : Act (list Row) :=
  state_gate c "buffers" (list_entities BufferNoun (Some c) (words [txt "list-buffers"]) None).

Definition server_wait_for (c : Connection) (channel : text) (timeout : option N) : Act unit :=
  required channel "a channel needs a name"
    (gate c wait_channels (unsupported_psmux_state (txt "wait channels"))
      (Run (words [txt "wait-for"; txt "--"; channel]) timeout None (fun waited =>
         match waited with
         | Unexpected e => fail e
         | Value _ =>
             bind (is_alive c kAliveTimeout) (fun alive =>
               if alive then give tt
               else fail (MkFailure pipe replied 0 (txt "the server ended while waiting on " ++ channel)))
         end))).

Definition server_signal (c : Connection) (channel : text) : Act unit :=
  required channel "a channel needs a name"
    (gate c wait_channels (unsupported_psmux_state (txt "wait channels"))
      (applied (run_plainly c (words [txt "wait-for"; txt "-S"; txt "--"; channel])))).

(** * Buffers, keys, shells and files *)

Definition server_load_buffer (c : Connection) (name from : text) : Act unit :=
  required name "a buffer needs a name"
    (state_gate c "buffers" (applied (run_plainly c (words [txt "load-buffer"; txt "-b"; name; txt "--"; from])))).
Definition server_save_buffer (c : Connection) (name to : text) : Act unit :=
  required name "a buffer needs a name"
    (state_gate c "buffers" (applied (run_plainly c (words [txt "save-buffer"; txt "-b"; name; txt "--"; to])))).

Definition kWhitespace : text := [" "%char; byte 9; byte 10; byte 13; byte 12; byte 11].

Definition usable_table (table : text) : option CommandFailure :=
  if bool_decide (table = []) then Some (rejected (txt "a key table name cannot be empty"))
  else match find_first_of kWhitespace table with
       | Some _ => Some (rejected (txt "a key table name cannot contain whitespace: tmux lists it unquoted, and the listing could not be read back"))
       | None => None
       end.

Definition server_bind_key (c : Connection) (table key : text) (command : list text) (repeatable : bool) : Act unit :=
  guard (usable_table table)
    (if bool_decide (command = []) then fail (rejected (txt "a binding needs a command to run"))
     else
       state_gate c "key bindings"
         (applied (run_plainly c (words [txt "bind-key"] ++ flag_if repeatable "-r" ++
            words ([txt "-T"; table; txt "--"; key] ++ command))))).
Definition server_unbind_key (c : Connection) (table key : text) : Act unit :=
  guard (usable_table table)
    (state_gate c "key bindings"
      (applied (run_plainly c (words [txt "unbind-key"; txt "-T"; table; txt "--"; key])))).

Definition server_run_shell (c : Connection) (command : text) (background : bool) : Act unit :=
  required command "a shell command cannot be empty"
    (state_gate c "run-shell state"
      (applied (run_plainly c (words [txt "run-shell"] ++ flag_if background "-b" ++
         [plain (txt "--"); sensitive command])))).

Definition server_source_file (c : Connection) (file : text) : Act unit :=
  state_gate c "configuration state" (applied (run_plainly c (words [txt "source-file"; txt "--"; file]))).
Definition server_check_file (c : Connection) (file : text) : Act unit :=
  gate c server_state
    (MkFailure unsupported not_started 0 (txt "psmux cannot check a source file without executing its commands"))
    (applied (run_plainly c (words [txt "source-file"; txt "-n"; txt "--"; file]))).

Definition server_expand (c : Connection) (format : text) : Act text :=
  state_gate c "format context"
    (reply ← run_plainly c (words (append_display_message_text [txt "display-message"; txt "-p"] format));
     give (without_trailing_newline reply)).
Definition server_show_message (c : Connection) (s : text) : Act unit :=
  state_gate c "message state"
    (applied (run_plainly c (words (append_display_message_text [txt "display-message"] s)))).

Definition server_set_buffer (c : Connection) (name data : text) : Act unit :=
  state_gate c "buffers"
    (applied (run_plainly c (words ([txt "set-buffer"] ++
       (if bool_decide (name = []) then [] else [txt "-b"; name]) ++ [txt "--"; data])))).

(** * Finding and making *)

Definition server_session (c : Connection) (target : text) : Act Row := describe SessionNoun (Some c) target [] None.
Definition server_window (c : Connection) (target : text) : Act Row :=
  gate c server_entity_lookup
    (MkFailure unsupported not_started 0 (txt "psmux window targets need an owning Session: " ++ target))
    (describe WindowNoun (Some c) target [] None).
Definition server_pane (c : Connection) (target : text) : Act Row :=
  gate c server_entity_lookup
    (MkFailure unsupported not_started 0 (txt "psmux pane targets need an owning Session: " ++ target))
    (describe PaneNoun (Some c) target [] None).

Record NewSessionOptions := MkNewSession {
  ns_name : text;
  ns_start_directory : text;
  ns_first_window_name : text;
  ns_shell_command : text;
  ns_width : option Z;
  ns_height : option Z;
  ns_environment : list (text * text);
}.

(** The command as far as the size. *)
Definition new_session_command (o : NewSessionOptions) : CommandRequest :=
  words [txt "new-session"; txt "-d"; txt "-P"; txt "-s"; escape_literal (ns_name o)] ++
  (if bool_decide (ns_first_window_name o = []) then []
   else words [txt "-n"; escape_literal (ns_first_window_name o)]) ++
  directory_part (ns_start_directory o) ++
  match ns_width o with Some n => words [txt "-x"; dec_Z n] | None => [] end ++
  match ns_height o with Some n => words [txt "-y"; dec_Z n] | None => [] end.

Definition new_session_request (o : NewSessionOptions) : expected CommandFailure CommandRequest :=
  command ← append_environment (new_session_command o) (ns_environment o);
  Value (command ++ shell_part (ns_shell_command o)).

Definition server_new_session (c : Connection) (o : NewSessionOptions) : Act Row :=
  required (ns_name o) "session name is empty"
    (bind (refuse_name_on_exact_37 (ns_name o) (txt "session")) (fun invalid => guard invalid
      (bind (refuse_name_on_exact_37 (ns_first_window_name o) (txt "window")) (fun invalid => guard invalid
        (gate c session_creation
          (MkFailure unsupported not_started 0
            (txt "psmux cannot prove ownership of a concurrently created session; create it with the psmux CLI and reacquire it from this Server"))
          (command ← lift (new_session_request o);
           one_entity SessionNoun (Some c) command as_flag (ns_name o) [] None)))))).

(** * Options, hooks and the environment *)

Definition server_options (c : Connection) (target : text) : Act (list OptionEntry) :=
  state_gate c "session option context" (show c [txt "show-options"; txt "-A"] target).
Definition server_server_options (c : Connection) : Act (list OptionEntry) :=
  state_gate c "server options" (show c [txt "show-options"; txt "-s"] []).
Definition server_set_server_option (c : Connection) (name v : text) : Act unit :=
  state_gate c "server options"
    (applied (run_plainly c (words [txt "set-option"; txt "-s"; txt "--"; name] ++ [sensitive v]))).
Definition server_global_options (c : Connection) : Act (list OptionEntry) :=
  state_gate c "global options" (show c [txt "show-options"; txt "-g"] []).
Definition server_set_global_option (c : Connection) (name v : text) : Act unit :=
  state_gate c "global options"
    (applied (run_plainly c (words [txt "set-option"; txt "-g"; txt "--"; name] ++ [sensitive v]))).
Definition server_hooks (c : Connection) (target : text) : Act (list OptionEntry) :=
  state_gate c "session hook context" (show c [txt "show-hooks"] target).
Definition server_global_hooks (c : Connection) : Act (list OptionEntry) :=
  state_gate c "global hooks" (show c [txt "show-hooks"; txt "-g"] []).
Definition server_set_global_hook (c : Connection) (name command : text) : Act unit :=
  state_gate c "global hooks"
    (applied (run_plainly c (words [txt "set-hook"; txt "-g"; txt "--"; name] ++ [sensitive command]))).

Record EnvironmentEntry := MkEnvironment { env_name : text; env_value : option text }.

#[export] Instance EnvironmentEntry_eq_dec : EqDecision EnvironmentEntry.
Proof. solve_decision. Defined.

(** The body of the loop of [environment]: one line. *)
Definition environment_line (line : text) : list EnvironmentEntry :=
  match line with
  | [] => []
  | c :: rest =>
      match find_char "=" line with
      | None => if bool_decide (c = "-"%char) then [MkEnvironment rest None] else [MkEnvironment line (Some [])]
      | Some i => [MkEnvironment (take i line) (Some (drop (S i) line))]
      end
  end.

(** The loop, a line at a time; there are at most as many lines as bytes. *)
Fixpoint environment_loop (fuel : nat) (output : text) : list EnvironmentEntry :=
  match fuel, output with
  | S fuel, _ :: _ =>
      let stop := find_char newline output in
      environment_line (prefix_to stop output) ++
      match stop with Some i => environment_loop fuel (drop (S i) output) | None => [] end
  | _, _ => []
  end.
Definition environment_entries (output : text) : list EnvironmentEntry := environment_loop (length output) output.

Definition server_environment (c : Connection) : Act (list EnvironmentEntry) :=
  output ← run_plainly c (words [txt "show-environment"; txt "-g"]);
  give (environment_entries output).
Definition server_set_environment (c : Connection) (name v : text) : Act unit :=
  applied (run_plainly c (words [txt "set-environment"; txt "-g"; txt "--"; name; v])).
Definition server_unset_environment (c : Connection) (name : text) : Act unit :=
  applied (run_plainly c (words [txt "set-environment"; txt "-g"; txt "-u"; txt "--"; name])).
Definition server_remove_environment (c : Connection) (name : text) : Act unit :=
  applied (run_plainly c (words [txt "set-environment"; txt "-g"; txt "-r"; txt "--"; name])).

(** * Sockets *)

(** [sizeof(sockaddr_un::sun_path) - 1], on Linux. *)
Definition kSocketPathLimit : nat := 107.

Inductive SocketError := socket_empty | name_has_separator | path_too_long | path_unsupported.

Definition socket_name_arguments (name : text) : expected SocketError (list text) :=
  if bool_decide (name = []) then Unexpected socket_empty
  else match find_char "/" name with
       | Some _ => Unexpected name_has_separator
       | None => Value [txt "-L"; name]
       end.

Definition socket_path_arguments (path : text) : expected SocketError (list text) :=
  if bool_decide (path = []) then Unexpected socket_empty
  else if (kSocketPathLimit <? length path)%nat then Unexpected path_too_long
  else Value [txt "-S"; path].

Inductive SocketSource := no_variable | path_variable | name_variable.

Record EnvironmentSocket := MkSocket { source : SocketSource; socket_value : text }.

Definition socket_arguments (s : EnvironmentSocket) : expected SocketError (list text) :=
  match source s with
  | path_variable => socket_path_arguments (socket_value s)
  | name_variable => socket_name_arguments (socket_value s)
  | no_variable => Value []
  end.

(** [std::isspace] in the classic locale. *)
Definition is_space (c : ascii) : bool := bool_decide (c ∈ kWhitespace).

(** The lambda [named]: a variable that is not set, empty or blank names nothing. *)
Definition named_variable (v : option text) : option text :=
  match v with
  | Some s => if forallb is_space s then None else Some s
  | None => None
  end.

(** [socket_from_environment], on the values of [LIBTMUX_SOCKET_PATH] and
    [LIBTMUX_SOCKET]. *)
Definition socket_from_environment (path name : option text) : EnvironmentSocket :=
  match named_variable path, named_variable name with
  | Some path, _ => MkSocket path_variable path
  | None, Some name => MkSocket name_variable name
  | None, None => MkSocket no_variable []
  end.

Definition socket_error_text (e : SocketError) : text :=
  txt match e with
      | socket_empty => "the socket selector is empty"
      | name_has_separator => "a socket name cannot contain a path separator"
      | path_unsupported => "psmux does not support socket paths on Windows; use a socket name"
      | path_too_long => "the socket path does not fit a unix domain address"
      end%string.
Definition source_text (s : SocketSource) : text :=
  txt match s with
      | no_variable => "no socket variable"
      | path_variable => "LIBTMUX_SOCKET_PATH"
      | name_variable => "LIBTMUX_SOCKET"
      end%string.

Definition socket_failure (e : SocketError) (diagnostic : text) : CommandFailure :=
  MkFailure match e with path_unsupported => unsupported | _ => validation end not_started 0 diagnostic.

Definition rejected_selector (selector : text) (e : SocketError) : CommandFailure :=
  socket_failure e (socket_error_text e ++ txt ": " ++ selector).

(** [default_selector]; the names psmux would refuse are not refused on POSIX. *)
Definition default_selector (path name : option text) : expected CommandFailure (list text) :=
  let chosen := socket_from_environment path name in
  match socket_arguments chosen with
  | Value arguments => Value arguments
  | Unexpected e => Unexpected (socket_failure e (source_text (source chosen) ++ txt ": " ++ socket_error_text e))
  end.

(** [s.find_last_of(c, stop)]: the last [c] at [stop] or before. *)
Fixpoint find_last_to (c : ascii) (s : text) (stop : nat) : option nat :=
  match s with
  | [] => None
  | x :: rest =>
      match stop with
      | 0 => if bool_decide (x = c) then Some 0 else None
      | S stop =>
          match find_last_to c rest stop with
          | Some i => Some (S i)
          | None => if bool_decide (x = c) then Some 0 else None
          end
      end
  end.
(** [s.find_last_of(c)]. *)
Definition find_last (c : ascii) (s : text) : option nat := find_last_to c s (length s).

(** The socket within the value of [TMUX]; [npos - 1] and the [npos] before [0] both
    search the whole value. *)
Definition inherited_socket (v : text) : text :=
  let pid_start := match find_last "," v with
                   | Some (S i) => find_last_to "," v i
                   | Some 0 | None => find_last "," v
                   end in
  match pid_start with None => v | Some i => take i v end.

Definition from_env (tmux : option text) : expected CommandFailure (list text) :=
  match tmux with
  | None => Unexpected (rejected (txt "TMUX is not set: this process is not running inside tmux"))
  | Some v =>
      let socket := inherited_socket v in
      if bool_decide (socket = []) then Unexpected (rejected (txt "TMUX names no socket path"))
      else match socket_path_arguments socket with
           | Value arguments => Value arguments
           | Unexpected e => Unexpected (rejected_selector socket e)
           end
  end.

(** * Server operations and what they send *)

Inductive ServerOperation :=
  | CheckAlive (timeout : N) | KillServer | Sessions | Windows | Panes | Clients | ListCommands | Buffers
  | WaitFor (channel : text) (timeout : option N) | Signal (channel : text)
  | LoadBuffer (name from : text) | SaveBuffer (name to : text)
  | BindKey (table key : text) (command : list text) (repeatable : bool) | UnbindKey (table key : text)
  | RunShell (command : text) (background : bool) | SourceFile (file : text) | CheckFile (file : text)
  | ServerExpand (format : text) | ServerMessage (s : text) | SetBuffer (name data : text)
  | FindSession (target : text) | FindWindow (target : text) | FindPane (target : text)
  | NewSessionWith (o : NewSessionOptions)
  | ServerOptionsOf (target : text) | ServerOptions | SetServerOption (name v : text) | GlobalOptions
  | SetGlobalOption (name v : text) | HooksOf (target : text) | GlobalHooks | SetGlobalHook (name command : text)
  | Environment | SetEnvironment (name v : text) | UnsetEnvironment (name : text) | RemoveEnvironment (name : text).

Definition server_perform (c : Connection) (o : ServerOperation) : Act unit :=
  match o with
  | CheckAlive timeout => check_alive c timeout
  | KillServer => server_kill c
  | Sessions => void (server_sessions c)
  | Windows => void (server_windows c)
  | Panes => void (server_panes c)
  | Clients => void (server_clients c)
  | ListCommands => void (server_commands c)
  | Buffers => void (server_buffers c)
  | WaitFor channel timeout => server_wait_for c channel timeout
  | Signal channel => server_signal c channel
  | LoadBuffer name from => server_load_buffer c name from
  | SaveBuffer name to => server_save_buffer c name to
  | BindKey table key command repeatable => server_bind_key c table key command repeatable
  | UnbindKey table key => server_unbind_key c table key
  | RunShell command background => server_run_shell c command background
  | SourceFile file => server_source_file c file
  | CheckFile file => server_check_file c file
  | ServerExpand format => void (server_expand c format)
  | ServerMessage s => server_show_message c s
  | SetBuffer name data => server_set_buffer c name data
  | FindSession target => void (server_session c target)
  | FindWindow target => void (server_window c target)
  | FindPane target => void (server_pane c target)
  | NewSessionWith o => void (server_new_session c o)
  | ServerOptionsOf target => void (server_options c target)
  | ServerOptions => void (server_server_options c)
  | SetServerOption name v => server_set_server_option c name v
  | GlobalOptions => void (server_global_options c)
  | SetGlobalOption name v => server_set_global_option c name v
  | HooksOf target => void (server_hooks c target)
  | GlobalHooks => void (server_global_hooks c)
  | SetGlobalHook name command => server_set_global_hook c name command
  | Environment => void (server_environment c)
  | SetEnvironment name v => server_set_environment c name v
  | UnsetEnvironment name => server_unset_environment c name
  | RemoveEnvironment name => server_remove_environment c name
  end.

Definition reading (command : string) (flags : list FlagSet) (operands : list text) : Reading :=
  (txt command, MkFlags flags operands).
Definition listing_reading (command : string) (flags : list FlagSet) (noun : Noun) : Reading :=
  reading command (flags ++ [with_value "F" (fields_format noun)]) [].
Definition alive_reading : Reading := reading "list-sessions" [with_value "F" (txt "#{session_id}")] [].

Definition new_session_flags (o : NewSessionOptions) : list FlagSet :=
  [flag_on "d"; flag_on "P"; with_value "s" (escape_literal (ns_name o))] ++
  value_if "n" (escape_literal (ns_first_window_name o)) ++
  value_if "c" (escape_literal (ns_start_directory o)) ++
  match ns_width o with Some n => [with_value "x" (dec_Z n)] | None => [] end ++
  match ns_height o with Some n => [with_value "y" (dec_Z n)] | None => [] end.

Definition new_session_reading (o : NewSessionOptions) : Reading :=
  reading "new-session"
    ((new_session_flags o ++ variables_flags (ns_environment o)) ++ [with_value "F" (fields_format SessionNoun)])
    (shell_operand (ns_shell_command o)).

Definition server_intended (o : ServerOperation) : list Reading :=
  match o with
  | CheckAlive _ => [alive_reading]
  | KillServer => [reading "kill-server" [] []]
  | Sessions => [listing_reading "list-sessions" [] SessionNoun]
  | Windows => [listing_reading "list-windows" [flag_on "a"] WindowNoun]
  | Panes => [listing_reading "list-panes" [flag_on "a"] PaneNoun]
  | Clients => [listing_reading "list-clients" [] ClientNoun]
  | ListCommands => [listing_reading "list-commands" [] CommandNoun]
  | Buffers => [listing_reading "list-buffers" [] BufferNoun]
  | WaitFor channel _ => [reading "wait-for" [] [channel]; alive_reading]
  | Signal channel => [reading "wait-for" [flag_on "S"] [channel]]
  | LoadBuffer name from => [reading "load-buffer" [with_value "b" name] [from]]
  | SaveBuffer name to => [reading "save-buffer" [with_value "b" name] [to]]
  | BindKey table key command repeatable =>
      [reading "bind-key" (on_if repeatable "r" ++ [with_value "T" table]) (key :: command)]
  | UnbindKey table key => [reading "unbind-key" [with_value "T" table] [key]]
  | RunShell command background => [reading "run-shell" (on_if background "b") [command]]
  | SourceFile file => [reading "source-file" [] [file]]
  | CheckFile file => [reading "source-file" [flag_on "n"] [file]]
  | ServerExpand format => [reading "display-message" [flag_on "p"] [format]]
  | ServerMessage s => [reading "display-message" [] [s]]
  | SetBuffer name data => [reading "set-buffer" (value_if "b" name) [data]]
  | FindSession target => [describe_reading SessionNoun target]
  | FindWindow target => [describe_reading WindowNoun target]
  | FindPane target => [describe_reading PaneNoun target]
  | NewSessionWith o => [new_session_reading o]
  | ServerOptionsOf target => [reading "show-options" (flag_on "A" :: value_if "t" target) []]
  | ServerOptions => [reading "show-options" [flag_on "s"] []]
  | SetServerOption name v => [reading "set-option" [flag_on "s"] [name; v]]
  | GlobalOptions => [reading "show-options" [flag_on "g"] []]
  | SetGlobalOption name v => [reading "set-option" [flag_on "g"] [name; v]]
  | HooksOf target => [reading "show-hooks" (value_if "t" target) []]
  | GlobalHooks => [reading "show-hooks" [flag_on "g"] []]
  | SetGlobalHook name command => [reading "set-hook" [flag_on "g"] [name; command]]
  | Environment => [reading "show-environment" [flag_on "g"] []]
  | SetEnvironment name v => [reading "set-environment" [flag_on "g"] [name; v]]
  | UnsetEnvironment name => [reading "set-environment" [flag_on "g"; flag_on "u"] [name]]
  | RemoveEnvironment name => [reading "set-environment" [flag_on "g"; flag_on "r"] [name]]
  end.

(** * What the operations send *)

Lemma carried_server_run c command timeout limit rs : readings command = rs -> carried (server_run c command timeout limit) rs.
Proof. apply carried_once. intros r. by right. Qed.

Lemma carried_applied c command rs : readings command = rs -> carried (applied (run_plainly c command)) rs.
Proof. intros. by apply carried_void, carried_server_run. Qed.

Lemma carried_show c request target rs :
  readings (words (request ++ if bool_decide (target = []) then [] else [txt "-t"; target])) = rs ->
  carried (show c request target) rs.
Proof. intros. apply carried_then; [by apply carried_server_run|]. intros a. by eexists (Value _). Qed.

Ltac server_step :=
  first [apply carried_applied | apply carried_void | apply carried_guard | apply carried_if | apply carried_show
        | apply carried_describe].

Lemma check_alive_carried c timeout : carried (check_alive c timeout) [alive_reading].
Proof.
  apply carried_then; [apply carried_server_run; reflexivity|].
  intros s. destruct (blank s); [by eexists (Unexpected _) | by eexists (Value _)].
Qed.

Lemma listing_carried c noun name flags command :
  argv command = txt name :: concat (spell (tmux_flags (txt name)) <$> flags) ->
  resolve (txt name) = Some (txt name) -> txt name <> txt "--" -> txt name <> kCommandSeparator ->
  forallb (spelt (tmux_flags (txt name))) flags = true -> "F"%char ∈ tmux_flags (txt name) ->
  clear (listing_reading name flags noun) ->
  carried (list_entities noun (Some c) command None) [listing_reading name flags noun].
Proof. intros. apply carried_listing. by apply listing_read. Qed.

Lemma wait_for_carried c channel timeout :
  Forall clear (server_intended (WaitFor channel timeout)) ->
  carried (server_wait_for c channel timeout) (server_intended (WaitFor channel timeout)).
Proof.
  intros [[H _] _]%Forall_cons. cbn [server_intended] in *. apply carried_if, carried_if.
  assert (readings (words [txt "wait-for"; txt "--"; channel]) = [reading "wait-for" [] [channel]]) as Hr by read_words.
  intros [reply|e]; cbn [wp fail].
  - apply wp_bind, wp_bind. eapply wp_frame. pose proof (check_alive_carried c kAliveTimeout) as Ha.
    eapply wp_mono; [|exact Ha]. intros sent r [Hp Hv]. cbn [wp].
    set (all := _ ++ sent).
    assert (concat (readings <$> all.*1) = reading "wait-for" [] [channel] :: concat (readings <$> sent.*1)) as E
      by (unfold all; cbn [app fmap list_fmap concat fst]; by rewrite Hr).
    destruct r as [[]|e]; cbn [wp give fail]; rewrite E; (split; [by apply prefix_cons|]); [|done].
    intros [] _. by rewrite (Hv tt eq_refl).
  - cbn [app fmap list_fmap concat fst]. rewrite Hr. split; [apply prefix_cons, prefix_nil | done].
Qed.

Lemma new_session_command_spells o :
  argv (new_session_command o) =
    txt "new-session" :: concat (spell (tmux_flags (txt "new-session")) <$> new_session_flags o).
Proof.
  unfold new_session_command, new_session_flags. name_off.
  repeat apply spells_app.
  - reflexivity.
  - unfold value_if. case_bool_decide as E; [by rewrite E|].
    rewrite bool_decide_false; [apply spells_value; [done | member]|].
    intros He. apply E. apply (escape_literal_whole _ []); [|done]. by intros ? ?%elem_of_nil.
  - apply spells_directory. member.
  - apply option_value_spells; [done | member].
  - apply option_value_spells; [done | member].
Qed.

Lemma new_session_flags_spelt o variables :
  forallb (spelt (tmux_flags (txt "new-session"))) (new_session_flags o ++ variables_flags variables) = true.
Proof. unfold new_session_flags. spelt_parts. Qed.

Lemma new_session_carried c o :
  Forall clear (server_intended (NewSessionWith o)) ->
  carried (server_new_session c o) (server_intended (NewSessionWith o)).
Proof.
  intros [H _]%Forall_cons. apply carried_if.
  assert (forall name what (p : Act Row) rs, carried p rs ->
    carried (bind (refuse_name_on_exact_37 name what) (fun invalid => guard invalid p)) rs) as Hn.
  { intros name what p rs Hp. unfold refuse_name_on_exact_37. destruct (negb _); cbn [bind]; [done|].
    intros r. by apply carried_guard. }
  apply Hn, Hn, carried_if, carried_lift. intros request Hr. apply carried_one_entity.
  eapply environment_read; try exact Hr; try done;
    [member | apply new_session_command_spells | apply new_session_flags_spelt | member].
Qed.

Lemma argv_words l : argv (words l) = l.
Proof. unfold argv, words. rewrite <-list_fmap_compose. apply list_fmap_id. Qed.

Lemma bind_key_carried c table key command repeatable :
  Forall clear (server_intended (BindKey table key command repeatable)) ->
  carried (server_bind_key c table key command repeatable) (server_intended (BindKey table key command repeatable)).
Proof.
  intros [[H _] _]%Forall_cons. cbn [server_intended] in *. apply carried_guard, carried_if, carried_if, carried_applied.
  destruct repeatable; apply (readings_spelt _ _ _ (txt "--" :: key :: command));
    [|reflexivity | by vm_compute | vm_compute; reflexivity | by left | exact H
    | |reflexivity | by vm_compute | vm_compute; reflexivity | by left | exact H];
    unfold argv; rewrite !fmap_app; repeat match goal with |- context [value <$> words ?l] => change (value <$> words l) with (argv (words l)) end; rewrite !argv_words; reflexivity.
Qed.

(** C37: Every operation of a server sends commands that tmux reads as the ones it is named
    for, with the caller's text in its place: all of them when it succeeds, a first part
    when it fails.  The text may be anything but the word tmux separates commands with
    and, where the format of the answer goes by flag, a pair of dashes as the value of
    another: a word of a key's binding or a buffer that is just a semicolon is not
    covered, and is not sent as it was given. *)
Theorem server_operations_read_back c o :
  Forall clear (server_intended o) -> carried (server_perform c o) (server_intended o).
Proof.
  destruct o; intros Hall; cbn [server_perform];
    try (apply carried_void, new_session_carried; exact Hall);
    try (apply wait_for_carried; exact Hall); try (apply bind_key_carried; exact Hall);
    cbn [server_intended] in *; try apply check_alive_carried;
    apply Forall_cons in Hall as [Hc _]; pose proof (proj1 Hc) as H;
    try (repeat server_step; unfold reading in *; read_words; fail);
    try (apply carried_void; repeat server_step; apply listing_carried;
         [reflexivity | reflexivity | by vm_compute.. | member | exact Hc]);
    unfold reading in *.
  - destruct background; repeat server_step; read_words.
  - apply carried_void, carried_if, carried_then; [apply carried_server_run; read_words|].
    intros reply. by eexists (Value _).
  - repeat server_step. unfold value_if in *. case_bool_decide; read_words.
  - repeat server_step. unfold value_if in *. case_bool_decide; read_words.
  - repeat server_step. unfold value_if in *. case_bool_decide; read_words.
  - apply carried_void, carried_then; [apply carried_server_run; read_words|].
    intros reply. by eexists (Value _).
Qed.

(** * Waiting *)

(** A wait that ends well was answered by tmux, and the server was asked afterwards and
    listed a session: a server that went away under its waiters is not taken for a
    signal. *)
Theorem wait_for_means_signalled c channel timeout :
  wp (server_wait_for c channel timeout) (fun sent r => r = Value tt ->
    channel <> [] /\ exists reply sessions,
      sent = [(words [txt "wait-for"; txt "--"; channel], Value reply);
              (words [txt "list-sessions"; txt "-F"; txt "#{session_id}"], Value sessions)] /\
      exists c, c ∈ sessions /\ c ∉ [" "%char; byte 9; byte 13; byte 10]) [].
Proof.
  unfold server_wait_for, required. case_bool_decide; [done|]. unfold gate. destruct (refuses _ _); [done|].
  intros [reply|e]; [|done]. apply wp_bind, wp_bind. unfold check_alive. apply wp_act.
  intros [sessions|e]; cbn [wp lift]; [|done]. destruct (blank sessions) eqn:Hb; [done|]. intros _.
  split; [done|]. exists reply, sessions. split; [done|]. unfold blank in Hb.
  apply not_true_iff_false in Hb. rewrite forallb_forall in Hb.
  destruct (decide (Forall (fun x => x ∈ [" "%char; byte 9; byte 13; byte 10]) sessions)) as [Hall|Hn].
  - exfalso. apply Hb. intros x Hx. apply bool_decide_eq_true. rewrite Forall_forall in Hall. apply Hall. by apply list_elem_of_In.
  - apply not_Forall_Exists in Hn; [|apply _]. apply Exists_exists in Hn as (x & Hx & Hn). by exists x.
Qed.

(** * The environment read back *)

Definition printed_entry (e : EnvironmentEntry) : text :=
  match env_value e with
  | Some v => env_name e ++ txt "=" ++ v
  | None => txt "-" ++ env_name e
  end.

(** tmux's listing: an entry a line. *)
Definition printed_environment (entries : list EnvironmentEntry) : text :=
  concat ((fun e => printed_entry e ++ [newline]) <$> entries).

Definition one_line (e : EnvironmentEntry) : Prop :=
  "="%char ∉ env_name e /\ newline ∉ env_name e /\ newline ∉ default [] (env_value e).

Lemma environment_line_printed e : one_line e -> environment_line (printed_entry e) = [e].
Proof.
  destruct e as [name [v|]]; intros (Heq & _ & _); unfold printed_entry; cbn [env_name env_value] in *.
  - change (txt "=") with ["="%char]. cbn [app]. unfold environment_line.
    destruct (name ++ "="%char :: v) as [|c rest] eqn:E; [by destruct name|]. rewrite <-E.
    rewrite find_char_app by done. rewrite take_app_length, drop_app_ge by lia.
    by rewrite Nat.sub_succ_l, Nat.sub_diag by lia.
  - change (txt "-") with ["-"%char]. cbn [app environment_line].
    assert (find_char "=" ("-"%char :: name) = None) as ->; [|by rewrite bool_decide_true].
    apply find_char_None. apply not_elem_of_cons. by split.
Qed.

Lemma printed_one_line e : one_line e -> newline ∉ printed_entry e.
Proof.
  destruct e as [name [v|]]; intros (_ & Hn & Hv); unfold printed_entry; cbn [env_name env_value default] in *;
    rewrite ?not_elem_of_app; split_and?; try done; by intros ?%list_elem_of_singleton.
Qed.

(** The environment reads back as tmux lists it: bound names with their values, whatever
    dashes or further equals signs they hold, and names that children are not to inherit,
    each in its place. *)
Theorem environment_reads_back entries :
  Forall one_line entries -> environment_entries (printed_environment entries) = entries.
Proof.
  intros He. unfold environment_entries.
  enough (forall fuel, length (printed_environment entries) <= fuel ->
    environment_loop fuel (printed_environment entries) = entries) as H by (by apply H).
  induction He as [|e entries H _ IH]; intros fuel Hf; [by destruct fuel|].
  unfold printed_environment in *. rewrite fmap_cons in *. cbn [concat] in *. rewrite <-app_assoc in *. cbn [app] in *.
  set (more := concat _) in *. destruct fuel as [|fuel]; [rewrite length_app in Hf; cbn in Hf; lia|].
  cbn [environment_loop]. destruct (printed_entry e ++ newline :: more) as [|c rest] eqn:E; [by destruct (printed_entry e)|].
  rewrite <-E. rewrite find_char_app by (by apply printed_one_line). cbn [prefix_to].
  rewrite take_app_length, environment_line_printed by done. rewrite drop_app_ge, Nat.sub_succ_l, Nat.sub_diag by lia.
  cbn [drop app]. f_equal. apply IH. rewrite <-E, length_app in Hf. cbn in Hf. lia.
Qed.

(** * Sockets *)

Lemma find_last_to_absent c s stop : c ∉ s -> find_last_to c s stop = None.
Proof.
  revert stop. induction s as [|x s IH]; intros stop Hc; [done|]. apply not_elem_of_cons in Hc as [Hx Hs].
  cbn [find_last_to]. destruct stop; rewrite ?IH by done; by rewrite bool_decide_false by done.
Qed.

Lemma find_last_to_app c p q stop :
  c ∉ q -> length p <= stop -> find_last_to c (p ++ c :: q) stop = Some (length p).
Proof.
  intros Hq. revert stop. induction p as [|x p IH]; intros stop Hs; cbn [app length find_last_to].
  - destruct stop; rewrite ?find_last_to_absent by done; by rewrite bool_decide_true.
  - destruct stop as [|stop]; [cbn in Hs; lia|]. by rewrite IH by (cbn in Hs; lia).
Qed.

Lemma find_last_to_stop c p q r :
  c ∉ q -> find_last_to c (p ++ c :: q ++ r) (length p + length q) = Some (length p).
Proof.
  intros Hq. induction p as [|x p IH]; cbn [app length Nat.add].
  - assert (forall stop s, c ∉ take (S stop) s -> find_last_to c s stop = None) as Hnone.
    { clear. intros stop. induction stop as [|stop IH]; intros [|y s] Hs; try done; cbn [find_last_to].
      - cbn in Hs. by rewrite bool_decide_false by set_solver.
      - rewrite firstn_cons in Hs. apply not_elem_of_cons in Hs as [Hy Hs]. rewrite IH by done.
        by rewrite bool_decide_false by done. }
    destruct q as [|y q]; [cbn; by rewrite bool_decide_true|].
    change (find_last_to c (c :: (y :: q) ++ r) (length (y :: q))) with
      (match find_last_to c ((y :: q) ++ r) (length q) with
       | Some i => Some (S i) | None => if bool_decide (c = c) then Some 0 else None end).
    rewrite Hnone; [by rewrite bool_decide_true|]. change (S (length q)) with (length (y :: q)).
    by rewrite take_app_length.
  - cbn [find_last_to]. by rewrite IH.
Qed.

(** The socket found in the value tmux leaves its children, a path, a pid and a session
    id joined by commas, is the path, whatever commas it holds. *)
Theorem inherited_socket_reads_back path pid id :
  ","%char ∉ pid -> ","%char ∉ id ->
  inherited_socket (path ++ txt "," ++ pid ++ txt "," ++ id) = path /\
  (path <> [] -> length path <= kSocketPathLimit ->
   from_env (Some (path ++ txt "," ++ pid ++ txt "," ++ id)) = Value [txt "-S"; path]).
Proof.
  intros Hp Hi. change (txt ",") with [","%char]. cbn [app].
  assert (inherited_socket (path ++ ","%char :: pid ++ ","%char :: id) = path) as E.
  { unfold inherited_socket, find_last.
    assert (path ++ ","%char :: pid ++ ","%char :: id = (path ++ ","%char :: pid) ++ ","%char :: id) as Ea
      by (rewrite <-app_assoc; done).
    rewrite Ea at 1. rewrite find_last_to_app by (done || (rewrite !length_app; cbn [length]; rewrite length_app; cbn [length]; lia)).
    rewrite length_app. cbn [length]. rewrite Nat.add_succ_r. cbn beta iota. rewrite find_last_to_stop by done.
    by rewrite take_app_length. }
  split; [exact E|]. intros Hne Hl. unfold from_env. rewrite E, bool_decide_false by done.
  unfold socket_path_arguments. rewrite bool_decide_false by done.
  by rewrite (proj2 (Nat.ltb_ge _ _)) by done.
Qed.

(** * Witnesses *)

Lemma server_operations_read_back_witness :
  Forall clear (server_intended (SetBuffer [] (txt "-x;"))) /\
  carried (server_perform sample_connection (SetBuffer [] (txt "-x;"))) [reading "set-buffer" [] [txt "-x;"]].
Proof.
  assert (Forall clear (server_intended (SetBuffer [] (txt "-x;")))) as H.
  { apply Forall_singleton. split; [apply (bool_decide_unpack _); vm_compute; reflexivity | discriminate]. }
  split; [exact H | exact (server_operations_read_back sample_connection (SetBuffer [] (txt "-x;")) H)].
Defined.

Lemma environment_reads_back_witness :
  environment_entries (printed_environment [MkEnvironment (txt "-A") (Some (txt "b=c")); MkEnvironment (txt "D") None]) =
    [MkEnvironment (txt "-A") (Some (txt "b=c")); MkEnvironment (txt "D") None].
Proof.
  apply environment_reads_back. apply Forall_cons; split; [|apply Forall_singleton];
    (split; [|split]); apply (bool_decide_unpack _); vm_compute; reflexivity.
Defined.

Lemma inherited_socket_reads_back_witness :
  inherited_socket (txt "/tmp/a,b/default,412,0") = txt "/tmp/a,b/default".
Proof.
  apply (inherited_socket_reads_back (txt "/tmp/a,b/default") (txt "412") (txt "0"));
    apply (bool_decide_unpack _); vm_compute; reflexivity.
Defined.
