(* ===== verification/Connection.v ===== *)
(** The control connection: [src/connection.cpp].

    A connection is a control-mode client over pipes.  A caller's request is one line, the
    commands of a group with every byte of their words escaped, and one more line, a
    command nobody has, whose error reply marks where the request's replies end.  A reader
    thread feeds what tmux writes to the decoder and gives each block to the oldest request;
    callers write one at a time; whoever finds the connection broken fails every request
    still waiting, saying for each how far it got.

    This file holds what a connection writes and how it reads blocks and options; the
    threads and their shared state are in Sessions.

    The theorems: a request's line reads back as the commands asked for, whatever their
    bytes, and the guards see those same commands; the reply to a request's boundary is seen
    whole whatever the bounds on replies, and is no other request's. *)

From S2P Require Import Prelude Version Command Capabilities Endpoint Commands Control.

(** * Requests as lines *)

(** ** The boundary of a request *)

(** [BoundarySeed]: sixteen bytes. *)
Definition BoundarySeed : Type := list N.

(** The bytes of the entropy source, the first eight mixed with [local], which the clock,
    the process and a counter make. *)
Fixpoint mix_loop (seed : BoundarySeed) (local index : N) (count : nat) : BoundarySeed :=
  match count, seed with
  | S count, b :: rest =>
      N.lxor b (N.land (N.shiftr local (index * 8)) 255) :: mix_loop rest local (index + 1) count
  | _, _ => seed
  end.
Definition make_boundary_seed (source : BoundarySeed) (now pid sequence : N) : BoundarySeed :=
  mix_loop source (N.lxor (N.lxor now pid) sequence) 0 8.

(** The nibbles of [value], [remaining] of them, the highest first. *)
Fixpoint nibbles_loop (remaining : nat) (value : N) : text :=
  match remaining with
  | O => []
  | S r => hex_char (N.land (N.shiftr value (N.of_nat r * 4)) 15) :: nibbles_loop r value
  end.
Definition append_hex64 (value : N) : text := nibbles_loop 16 value.

Definition boundary_name (seed : BoundarySeed) (sequence : N) : text :=
  txt "__libtmux_request_" ++
  concat ((fun v => [hex_char (N.shiftr v 4); hex_char (N.land v 15)]) <$> seed) ++
  txt "_" ++ append_hex64 sequence.

Definition boundary_reply (name : text) : text :=
  txt "parse error: unknown command: " ++ name ++ [line_feed].

Definition is_boundary (block : ControlBlock) (expected_ : text) : bool :=
  match terminal block with
  | terminal_end => false
  | terminal_error => negb (body_truncated block) && bool_decide (body block = expected_)
  end.

(** ** Words *)

Definition contains_nul (value : text) : bool := bool_decide (ascii_of_N 0 ∈ value).

(** Every byte as a backslash and three octal digits. *)
Definition encode_byte (c : ascii) : text :=
  let byte := byte_of c in
  ["\"%char; ascii_of_N (48 + N.land (N.shiftr byte 6) 7);
   ascii_of_N (48 + N.land (N.shiftr byte 3) 7); ascii_of_N (48 + N.land byte 7)].
Definition encode_token (value : text) : text :=
  if bool_decide (value = []) then txt "''" else concat (encode_byte <$> value).

Definition not_started_error (message : text) : ProtocolError := MkProtocolError message not_started.

(** The loop over a command's words. *)
Fixpoint render_words (argv : list text) (first : bool) : expected ProtocolError text :=
  match argv with
  | [] => Value []
  | argument :: rest =>
      if contains_nul argument then Unexpected (not_started_error (txt "control request argument contains NUL"))
      else
        tail ← render_words rest false;
        Value ((if first then [] else txt " ") ++ encode_token argument ++ tail)
  end.

(** The loop over a group's commands. *)
Fixpoint render_commands (group : list (list text)) (first : bool) : expected ProtocolError text :=
  match group with
  | [] => Value []
  | argv :: rest =>
      if bool_decide (argv = []) then Unexpected (not_started_error (txt "control request operation has no command"))
      else
        words ← render_words argv true;
        tail ← render_commands rest false;
        Value ((if first then [] else txt " ; ") ++ words ++ tail)
  end.

Definition render_request (group : list (list text)) : expected ProtocolError text :=
  if bool_decide (group = []) then Unexpected (not_started_error (txt "control request group is empty"))
  else line ← render_commands group true; Value (line ++ [line_feed]).

(** What a request is answered: its blocks, and why it did not go through. *)
Record ControlRequestResult := MkResult {
  blocks : list ControlBlock;
  connection_error : option ProtocolError;
}.

(** ** What is sent before a request *)

(** The escape [execute] makes for the guards alone: every argument that ends in a
    semicolon is data, one that is a semicolon included. *)
Definition as_data (argument : text) : text :=
  if ends_with_char ";"%char argument then take (length argument - 1) argument ++ txt "\;" else argument.

(** The loop of [execute] over its commands. *)
Fixpoint guard_group (group : list (list text)) (running : Version) : option CommandFailure :=
  match group with
  | [] => None
  | argv :: rest =>
      match refuse_literal (as_data <$> argv) running true with
      | Some refusal => Some refusal
      | None => guard_group rest running
      end
  end.

(** ** The client *)

Record ConnectionOptions := MkConnectionOptions {
  tmux_binary : option text;
  socket_path : text;
  session_name : text;
  startup_timeout : Z;
  shutdown_timeout : Z;
  retained_reply_bytes : nat;
  line_bytes : nat;
  pane_output : bool;
  pause_after : option Z;
}.

Definition client_flags (options : ConnectionOptions) : text :=
  if negb (pane_output options) then txt "no-output"
  else match pause_after options with
       | Some seconds => txt "pause-after=" ++ dec_Z seconds
       | None => []
       end.

(** The argv of [spawn_client]. *)
Definition client_arguments (options : ConnectionOptions) : list text :=
  [default (txt "tmux") (tmux_binary options); txt "-N"; txt "-u"; txt "-S"; socket_path options;
   txt "-C"; txt "attach-session"] ++
  (if bool_decide (client_flags options = []) then [] else [txt "-f"; client_flags options]) ++
  [txt "-t"; txt "=" ++ session_name options].

Definition sanitized_environment (environ : list text) : list text :=
  filter (fun value => negb (starts_with (txt "TMUX=") value || starts_with (txt "TMUX_PANE=") value) = true) environ.

Definition kMinimumBoundaryBytes : nat := 128.

(** The checks [connect] makes of its options, before it asks anything. *)
Definition check_options (options : ConnectionOptions) : option ProtocolError :=
  let binary := default (txt "tmux") (tmux_binary options) in
  let small n := negb (n =? 0)%nat && (n <? kMinimumBoundaryBytes)%nat in
  if bool_decide (tmux_binary options = Some []) then Some (not_started_error (txt "tmux binary path is empty"))
  else if bool_decide (socket_path options = []) then Some (not_started_error (txt "tmux socket path is empty"))
  else if bool_decide (session_name options = []) then Some (not_started_error (txt "tmux session name is empty"))
  else if contains_nul binary || contains_nul (socket_path options) || contains_nul (session_name options)
  then Some (not_started_error (txt "connection option contains NUL"))
  else if (startup_timeout options <=? 0)%Z || (shutdown_timeout options <=? 0)%Z
  then Some (not_started_error (txt "connection timeouts must be positive"))
  else if small (retained_reply_bytes options) || small (line_bytes options)
  then Some (not_started_error
         (txt "connection reply and line bounds must be zero or at least " ++ dec (N.of_nat kMinimumBoundaryBytes) ++
          txt " bytes so private request boundaries remain readable"))
  else None.

(** ** Guards of a block *)

(** The number after the last space of a block's opening line. *)
Definition rfind_space (s : bytes) : option nat :=
  match find_char " "%char (reverse s) with
  | Some i => Some (length s - 1 - i)
  | None => None
  end.
Definition guard_flags (block : ControlBlock) : option N :=
  let metadata := begin_metadata block in
  match rfind_space metadata with
  | None => None
  | Some last => if (last + 1 =? length metadata)%nat then None else decimal (drop (S last) metadata)
  end.

Definition is_exit (n : Notification) : bool :=
  bool_decide (notification_bytes n = txt "%exit") || starts_with (txt "%exit ") (notification_bytes n).

(** * How tmux reads a line *)

(** tmux's command language as far as a request uses it: words apart by spaces, commands
    apart by semicolons, quotes that keep a word as it is, and a byte for a backslash and
    three octal digits. *)
Inductive Lexeme := Word (w : text) | Separator.

Definition flush (token : option text) (rest : list Lexeme) : list Lexeme :=
  match token with Some w => Word w :: rest | None => rest end.

Fixpoint lex (s : text) (token : option text) (quoted : bool) : list Lexeme :=
  match s with
  | [] => flush token []
  | c :: s' =>
      if quoted then
        if bool_decide (c = "'"%char) then lex s' token false
        else lex s' (Some (default [] token ++ [c])) true
      else if bool_decide (c = "'"%char) then lex s' (Some (default [] token)) true
      else if bool_decide (c = " "%char) then flush token (lex s' None false)
      else if bool_decide (c = ";"%char) then flush token (Separator :: lex s' None false)
      else if bool_decide (c = line_feed) then flush token []
      else if bool_decide (c = "\"%char) then
        match s' with
        | d1 :: ((d2 :: d3 :: s'') as r) =>
            match octal_digit d1, octal_digit d2, octal_digit d3 with
            | Some o1, Some o2, Some o3 =>
                lex s'' (Some (default [] token ++ [ascii_of_N ((o1 * 8 + o2) * 8 + o3)])) false
            | _, _, _ => lex r (Some (default [] token ++ [d1])) false
            end
        | d :: r => lex r (Some (default [] token ++ [d])) false
        | [] => flush token []
        end
      else lex s' (Some (default [] token ++ [c])) false
  end.

Fixpoint gather (l : list Lexeme) (current : list text) : list (list text) :=
  match l with
  | [] => [current]
  | Word w :: rest => gather rest (current ++ [w])
  | Separator :: rest => current :: gather rest []
  end.

Definition read_line (line : text) : list (list text) := gather (lex line None false) [].

(** * Theorems *)

Lemma encode_byte_octal c : encode_byte c = octal3 c.
Proof.
  unfold encode_byte, octal3. pose proof (byte_of_lt c) as Hc.
  change 7%N with (N.ones 3). rewrite !N.land_ones, !N.shiftr_div_pow2.
  change (2 ^ 6)%N with 64%N. change (2 ^ 3)%N with 8%N.
  rewrite (N.mod_small (byte_of c / 64)) by (apply N.Div0.div_lt_upper_bound; lia). done.
Qed.

Lemma lex_byte c rest token :
  lex (encode_byte c ++ rest) token false = lex rest (Some (default [] token ++ [c])) false.
Proof.
  rewrite encode_byte_octal. pose proof (byte_of_lt c) as Hc. unfold octal3. cbn [app lex].
  rewrite !bool_decide_false by done. rewrite bool_decide_true by done.
  rewrite !octal_digit_char
    by (apply N.Div0.div_lt_upper_bound || apply N.mod_lt || idtac; lia || done).
  rewrite octal_value by done. unfold byte_of. by rewrite ascii_N_embedding.
Qed.

Lemma lex_bytes w rest token :
  lex (concat (encode_byte <$> w) ++ rest) (Some token) false = lex rest (Some (token ++ w)) false.
Proof.
  revert token. induction w as [|c w IH]; intros token; cbn [fmap list_fmap concat app]; [by rewrite app_nil_r|].
  rewrite <-app_assoc, lex_byte. cbn [default]. by rewrite IH, <-app_assoc.
Qed.

Lemma lex_token w rest : lex (encode_token w ++ rest) None false = lex rest (Some w) false.
Proof.
  unfold encode_token. case_bool_decide as Hw; [by subst|]. destruct w as [|c w]; [done|].
  cbn [fmap list_fmap concat]. rewrite <-app_assoc, lex_byte. cbn [default app]. by rewrite lex_bytes.
Qed.


Lemma render_words_inv argv first s :
  render_words argv first = Value s ->
  Forall (fun a => contains_nul a = false) argv /\
  match argv with
  | [] => s = []
  | a :: rest => exists t, render_words rest false = Value t /\
                  s = (if first then [] else txt " ") ++ encode_token a ++ t
  end.
Proof.
  revert first s. induction argv as [|a argv IH]; intros first s; cbn [render_words]; [by intros [= <-]|].
  destruct (contains_nul a) eqn:Ha; [done|]. destruct (render_words argv false) as [t|e] eqn:Ht; [|done].
  intros [= <-]. destruct (IH _ _ Ht). split; [by constructor | eauto].
Qed.

Lemma lex_words argv s w rest :
  render_words argv false = Value s ->
  lex (s ++ rest) (Some w) false = (Word <$> removelast (w :: argv)) ++ lex rest (Some (List.last (w :: argv) [])) false.
Proof.
  revert s w. induction argv as [|a argv IH]; intros s w H; apply render_words_inv in H as [_ H].
  { by subst. }
  destruct H as (t & Ht & ->). rewrite <-!app_assoc. change (txt " ") with [" "%char]. cbn [app lex].
  rewrite bool_decide_false by done. rewrite bool_decide_true by done. cbn [flush].
  rewrite lex_token, (IH t a Ht). done.
Qed.

Lemma words_last (argv : list text) :
  argv <> [] -> (Word <$> removelast argv) ++ [Word (List.last argv [])] = Word <$> argv.
Proof.
  intros H. rewrite <-(fmap_app Word _ [List.last argv []]). by rewrite <-app_removelast_last.
Qed.

Definition separated_words (group : list (list text)) : list Lexeme :=
  concat ((fun argv => Separator :: (Word <$> argv)) <$> group).

Lemma lex_commands group s x :
  render_commands group false = Value s ->
  lex (s ++ [line_feed]) (Some x) false = Word x :: separated_words group.
Proof.
  revert s x. induction group as [|argv group IH]; intros s x; cbn [render_commands]; [by intros [= <-]|].
  case_bool_decide as Hargv; [done|].
  destruct (render_words argv true) as [w|] eqn:Hw; [|done].
  destruct (render_commands group false) as [t|] eqn:Ht; [|done]. intros [= <-].
  change (txt " ; ") with [" "%char; ";"%char; " "%char]. cbn [app lex].
  rewrite !(bool_decide_false (" "%char = "'"%char)), !(bool_decide_false (";"%char = "'"%char)) by done.
  rewrite !(bool_decide_true (" "%char = " "%char)), !(bool_decide_false (";"%char = " "%char)) by done.
  rewrite !(bool_decide_true (";"%char = ";"%char)) by done.
  cbn [flush]. apply render_words_inv in Hw as [_ Hw]. destruct argv as [|a rest]; [done|].
  destruct Hw as (u & Hu & ->). cbn [app]. rewrite <-!app_assoc, lex_token, (lex_words _ _ _ _ Hu).
  rewrite (IH t) by done. change (Word x :: Separator :: ?l) with ([Word x; Separator] ++ l).
  change (Word (List.last (a :: rest) []) :: separated_words group)
    with ([Word (List.last (a :: rest) [])] ++ separated_words group).
  rewrite (app_assoc (Word <$> _)), words_last by done. done.
Qed.

Lemma gather_words ws current rest : gather ((Word <$> ws) ++ rest) current = gather rest (current ++ ws).
Proof.
  revert current. induction ws as [|w ws IH]; intros current; cbn; [by rewrite app_nil_r|].
  by rewrite IH, <-app_assoc.
Qed.

Lemma gather_separated group current : gather (separated_words group) current = current :: group.
Proof.
  revert current. induction group as [|argv group IH]; intros current; [done|].
  unfold separated_words in *. cbn [fmap list_fmap concat app gather]. by rewrite gather_words, IH.
Qed.

Lemma encode_token_one_line w : line_feed ∉ encode_token w.
Proof.
  unfold encode_token. case_bool_decide; [by apply (bool_decide_unpack _)|].
  rewrite list_elem_of_In, in_concat. intros (b & Hb & Hin). apply list_elem_of_In, list_elem_of_fmap in Hb as (c & -> & _).
  rewrite encode_byte_octal in Hin. pose proof (byte_of_lt c) as Hc. unfold octal3 in Hin.
  assert (forall n, (n < 8)%N -> line_feed <> ascii_of_N (48 + n)) as Hd.
  { intros n Hn E. apply (f_equal N_of_ascii) in E. rewrite N_ascii_embedding in E by lia. cbn in E. lia. }
  destruct Hin as [E|[E|[E|[E|[]]]]]; [done|..]; symmetry in E; apply Hd in E; try done.
  - apply N.Div0.div_lt_upper_bound. lia.
  - by apply N.mod_lt.
  - by apply N.mod_lt.
Qed.

Lemma render_words_one_line argv first s : render_words argv first = Value s -> line_feed ∉ s.
Proof.
  revert first s. induction argv as [|a argv IH]; intros first s H; apply render_words_inv in H as [_ H].
  { subst. apply not_elem_of_nil. }
  destruct H as (t & Ht & ->). rewrite !elem_of_app. intros [H|[H|H]].
  - by destruct first; [apply elem_of_nil in H | revert H; apply (bool_decide_unpack _)].
  - by apply encode_token_one_line in H.
  - by apply IH in Ht.
Qed.

Lemma render_commands_one_line group first s : render_commands group first = Value s -> line_feed ∉ s.
Proof.
  revert first s. induction group as [|argv group IH]; intros first s; cbn [render_commands].
  { intros [= <-]. apply not_elem_of_nil. }
  case_bool_decide; [done|]. destruct (render_words argv true) as [w|] eqn:Hw; [|done].
  destruct (render_commands group false) as [t|] eqn:Ht; [|done]. intros [= <-].
  rewrite !elem_of_app. intros [H'|[H'|H']].
  - by destruct first; [apply elem_of_nil in H' | revert H'; apply (bool_decide_unpack _)].
  - by apply render_words_one_line in Hw.
  - by apply IH in Ht.
Qed.

(** What makes a group impossible to send. *)
Definition unsendable (group : list (list text)) : Prop :=
  group = [] \/ Exists (fun argv => argv = [] \/ Exists (fun a => ascii_of_N 0 ∈ a) argv) group.

Lemma render_words_error argv first e :
  render_words argv first = Unexpected e -> error_delivery e = not_started /\ Exists (fun a => ascii_of_N 0 ∈ a) argv.
Proof.
  revert first. induction argv as [|a argv IH]; intros first; cbn [render_words]; [done|].
  destruct (contains_nul a) eqn:Ha.
  - intros [= <-]. split; [done|]. constructor. by apply bool_decide_eq_true in Ha.
  - destruct (render_words argv false) as [|e'] eqn:Ht; [done|]. intros [= <-]. destruct (IH _ Ht). auto.
Qed.

Lemma render_commands_error group first e :
  render_commands group first = Unexpected e ->
  error_delivery e = not_started /\ Exists (fun argv => argv = [] \/ Exists (fun a => ascii_of_N 0 ∈ a) argv) group.
Proof.
  revert first. induction group as [|argv group IH]; intros first; cbn [render_commands]; [done|].
  case_bool_decide. { intros [= <-]. split; [done|]. constructor. by left. }
  destruct (render_words argv true) as [w|e'] eqn:Hw.
  - destruct (render_commands group false) as [|e'] eqn:Ht; [done|]. intros [= <-]. destruct (IH _ Ht). auto.
  - intros [= <-]. apply render_words_error in Hw as []. split; [done|]. constructor. by right.
Qed.

Lemma request_spec group :
  match render_request group with
  | Value line => (exists body, line = body ++ [line_feed] /\ line_feed ∉ body) /\ read_line line = group
  | Unexpected e => error_delivery e = not_started /\ unsendable group
  end.
Proof.
  unfold render_request. case_bool_decide as Hg; [split; [done | by left]|].
  destruct (render_commands group true) as [s|e] eqn:Hs; cbn.
  2:{ apply render_commands_error in Hs as []. split; [done | by right]. }
  split; [exists s; split; [done | by eapply render_commands_one_line]|].
  destruct group as [|argv group]; [done|]. cbn [render_commands] in Hs.
  case_bool_decide as Hargv; [done|]. destruct (render_words argv true) as [w|] eqn:Hw; [|done].
  destruct (render_commands group false) as [t|] eqn:Ht; [|done]. injection Hs as <-.
  apply render_words_inv in Hw as [_ Hw]. destruct argv as [|a rest]; [done|]. destruct Hw as (u & Hu & ->).
  unfold read_line. cbn [app]. rewrite <-!app_assoc, lex_token, (lex_words _ _ _ _ Hu), (lex_commands _ _ _ Ht).
  change (Word (List.last (a :: rest) []) :: separated_words group)
    with ([Word (List.last (a :: rest) [])] ++ separated_words group).
  rewrite app_assoc, words_last by done. by rewrite gather_words, gather_separated.
Qed.

(** C30: A request's line is the request.  A group is rendered as one line, and tmux reads it as
    the very commands of the group, whatever bytes their words hold; a group is refused, as
    not started, only when it or one of its commands is empty or a word holds a NUL. *)
Theorem request_reads_back group :
  match render_request group with
  | Value line => (exists body, line = body ++ [line_feed] /\ line_feed ∉ body) /\ read_line line = group
  | Unexpected e => error_delivery e = not_started /\ unsendable group
  end.
Proof. exact (request_spec group). Qed.

(** ** Guards and requests *)

Lemma read_word_as_data w : read_word (as_data w) = (w, false).
Proof.
  unfold as_data. destruct (ends_with_char ";"%char w) eqn:E.
  2:{ unfold read_word. by rewrite E. }
  unfold ends_with_char in E. destruct w as [|d s _] using rev_ind; [done|].
  rewrite last_snoc in E. apply bool_decide_eq_true in E as ->.
  rewrite length_app. cbn [length]. rewrite Nat.add_sub, take_app_length.
  change (txt "\;") with (["\"%char] ++ [";"%char]). rewrite app_assoc. unfold read_word.
  rewrite !ends_with_char_snoc, bool_decide_true by done. rewrite length_app. cbn [length].
  rewrite Nat.add_sub, take_app_length, ends_with_char_snoc, bool_decide_true by done.
  rewrite length_app. cbn [length]. by rewrite Nat.add_sub, take_app_length.
Qed.

Lemma separate_loop_data ws finished current :
  separate_loop (as_data <$> ws) finished current = finished ++ [current ++ ws].
Proof.
  revert current. induction ws as [|w ws IH]; intros current; cbn [fmap list_fmap separate_loop].
  { by rewrite app_nil_r. }
  rewrite read_word_as_data. cbn [negb orb]. by rewrite IH, <-app_assoc.
Qed.

Lemma separate_data argv : separate (as_data <$> argv) = [argv].
Proof. unfold separate. by rewrite separate_loop_data. Qed.

Lemma guard_group_None group running :
  guard_group group running = None <->
  Forall (fun argv => refuse_literal (as_data <$> argv) running true = None) group.
Proof.
  induction group as [|argv group IH]; cbn [guard_group]; [done|].
  rewrite Forall_cons, <-IH. destruct (refuse_literal _ _ _); naive_solver.
Qed.

(** What a connection writes is what its guards checked.  A request that passes the guards
    and is rendered reaches tmux as a list of commands each of which the guards read as that
    one command, a semicolon at the end of a word included, and accepted. *)
Theorem checked_is_sent group running line :
  guard_group group running = None -> render_request group = Value line ->
  Forall (fun command => exists argv, separate argv = [command] /\ refuse_literal argv running true = None)
    (read_line line).
Proof.
  intros Hg Hr. pose proof (request_spec group) as Hs. rewrite Hr in Hs. destruct Hs as [_ ->].
  apply guard_group_None in Hg. eapply Forall_impl; [exact Hg|]. intros argv H.
  exists (as_data <$> argv). by rewrite separate_data.
Qed.

(** ** Boundaries *)

Lemma hex_char_inj a b : (a < 16)%N -> (b < 16)%N -> hex_char a = hex_char b -> a = b.
Proof.
  intros Ha Hb H. apply (f_equal N_of_ascii) in H. unfold hex_char in H.
  destruct (N.ltb_spec a 10), (N.ltb_spec b 10); rewrite !N_ascii_embedding in H by lia; lia.
Qed.

Lemma hex_char_not_feed a : (a < 16)%N -> hex_char a <> line_feed.
Proof.
  intros Ha H. apply (f_equal N_of_ascii) in H. unfold hex_char in H.
  destruct (N.ltb_spec a 10); rewrite N_ascii_embedding in H by lia; cbn in H; lia.
Qed.

Lemma nibble_lt v : (N.land v 15 < 16)%N.
Proof. change 15%N with (N.ones 4). rewrite N.land_ones. by apply N.mod_lt. Qed.

Lemma hex_loop_length n v : length (nibbles_loop n v) = n.
Proof. induction n as [|n IH]; cbn; [done | by rewrite IH]. Qed.

Lemma hex_loop_hex n v : Forall (fun c => exists a, (a < 16)%N /\ c = hex_char a) (nibbles_loop n v).
Proof. induction n; constructor; [eexists; split; [apply nibble_lt | done] | done]. Qed.

Lemma hex_loop_bits n a b i :
  nibbles_loop n a = nibbles_loop n b -> (i < 4 * N.of_nat n)%N -> N.testbit a i = N.testbit b i.
Proof.
  induction n as [|n IH]; cbn [nibbles_loop]; intros H Hi; [lia|].
  injection H as H1 H2. destruct (N.lt_ge_cases i (4 * N.of_nat n)) as [Hlt|Hge]; [by apply IH|].
  apply hex_char_inj in H1; [|apply nibble_lt..].
  assert (forall v, N.testbit v i = N.testbit (N.land (N.shiftr v (N.of_nat n * 4)) 15) (i - N.of_nat n * 4)) as E.
  { intros v. rewrite N.land_spec. change 15%N with (N.ones 4). rewrite N.ones_spec_low, andb_true_r by lia.
    rewrite N.shiftr_spec by lia. f_equal. lia. }
  by rewrite (E a), (E b), H1.
Qed.

Lemma append_hex64_inj a b : (a < 2 ^ 64)%N -> (b < 2 ^ 64)%N -> append_hex64 a = append_hex64 b -> a = b.
Proof.
  intros Ha Hb H. apply N.bits_inj. intros i. destruct (N.lt_ge_cases i 64) as [Hi|Hi].
  - by apply (hex_loop_bits 16).
  - assert (forall v, (v < 2 ^ 64)%N -> N.testbit v i = false) as E; [|by rewrite !E].
    intros v Hv. rewrite <-(N.mod_small v (2 ^ 64)) by done. by apply N.mod_pow2_bits_high.
Qed.

Definition seed_ok (seed : BoundarySeed) : Prop := length seed = 16 /\ Forall (fun v => v < 256)%N seed.

Lemma seed_hex seed :
  Forall (fun v => v < 256)%N seed ->
  Forall (fun c => exists a, (a < 16)%N /\ c = hex_char a)
    (concat ((fun v => [hex_char (N.shiftr v 4); hex_char (N.land v 15)]) <$> seed)).
Proof.
  induction 1 as [|v seed Hv _ IH]; cbn; [done|]. repeat constructor; [| |done].
  - eexists. split; [|done]. rewrite N.shiftr_div_pow2. apply N.Div0.div_lt_upper_bound. cbn. lia.
  - eexists. split; [apply nibble_lt | done].
Qed.

Lemma boundary_name_length seed n : length seed = 16 -> length (boundary_name seed n) = 67.
Proof.
  intros H. unfold boundary_name, append_hex64. rewrite !length_app, hex_loop_length.
  change (length (txt "__libtmux_request_")) with 18. change (length (txt "_")) with 1.
  assert (forall l : BoundarySeed, length (concat ((fun v => [hex_char (N.shiftr v 4); hex_char (N.land v 15)]) <$> l)) = 2 * length l) as ->; [|lia].
  induction l; cbn in *; lia.
Qed.

Lemma boundary_name_inj seed a b :
  (a < 2 ^ 64)%N -> (b < 2 ^ 64)%N -> boundary_name seed a = boundary_name seed b -> a = b.
Proof.
  unfold boundary_name. intros Ha Hb H. do 3 apply app_inv_head in H. by apply append_hex64_inj.
Qed.

Lemma boundary_name_no_feed seed n : seed_ok seed -> line_feed ∉ boundary_name seed n.
Proof.
  intros [_ Hs]. unfold boundary_name.
  assert (forall s, Forall (fun c => exists a, (a < 16)%N /\ c = hex_char a) s -> line_feed ∉ s) as Hx.
  { intros s H Hin. rewrite Forall_forall in H. destruct (H _ Hin) as (a & Ha & E). by apply (hex_char_not_feed a). }
  rewrite !elem_of_app. intros [H|[H|[H|H]]]; revert H.
  - by apply (bool_decide_unpack _).
  - by apply Hx, seed_hex.
  - by apply (bool_decide_unpack _).
  - apply Hx, hex_loop_hex.
Qed.

Lemma dec_loop_length k fuel n acc :
  (n < 10 ^ N.of_nat (S k))%N -> length (dec_loop fuel n acc) <= S k + length acc.
Proof.
  revert fuel n acc. induction k as [|k IH]; intros fuel n acc Hn; (destruct fuel as [|fuel]; cbn [dec_loop]; [lia|]);
    destruct (N.ltb_spec n 10) as [H|H]; cbn [length]; try lia.
  rewrite Nat2N.inj_succ, N.pow_succ_r' in Hn.
  specialize (IH fuel (n / 10)%N (digit_char (n mod 10) :: acc)). cbn [length] in IH.
  rewrite IH; [lia|]. apply N.Div0.div_lt_upper_bound. done.
Qed.

Lemma dec_length k n : (n < 10 ^ N.of_nat (S k))%N -> length (dec n) <= S k.
Proof. intros H. unfold dec. etrans; [by apply (dec_loop_length k)|]. cbn; lia. Qed.

Lemma rfind_space_last s t : space ∉ t -> rfind_space (s ++ space :: t) = Some (length s).
Proof.
  intros H. unfold rfind_space. rewrite reverse_app, reverse_cons, <-app_assoc. cbn [app].
  change " "%char with space. rewrite find_char_app by (rewrite elem_of_reverse; done).
  rewrite length_reverse, length_app. cbn [length]. f_equal. lia.
Qed.

Lemma guard_flags_metadata block s c f :
  begin_metadata block = metadata_of s c f -> (f <= u64_max)%N -> guard_flags block = Some f.
Proof.
  intros Hm Hf. unfold guard_flags. rewrite Hm. unfold metadata_of.
  replace (dec s ++ space :: dec c ++ space :: dec f) with ((dec s ++ space :: dec c) ++ space :: dec f)
    by by rewrite <-app_assoc.
  rewrite rfind_space_last by by apply dec_no_char.
  pose proof (dec_length_pos f). set (pre := dec s ++ space :: dec c). clearbody pre.
  rewrite length_app. cbn [length].
  destruct (Nat.eqb_spec (length pre + 1) (length pre + S (length (dec f)))) as [E|_]; [lia|].
  rewrite drop_app_ge by lia. replace (S (length pre) - length pre) with 1 by lia.
  cbn [drop]. rewrite drop_0. by apply decimal_dec.
Qed.

(** The options a connection accepts leave room for a boundary. *)
Lemma check_options_bounds options :
  check_options options = None ->
  (retained_reply_bytes options = 0 \/ kMinimumBoundaryBytes <= retained_reply_bytes options) /\
  (line_bytes options = 0 \/ kMinimumBoundaryBytes <= line_bytes options).
Proof.
  unfold check_options. repeat (case_bool_decide; [done|]).
  destruct (_ || _); [done|]. destruct (_ || _)%Z; [done|].
  destruct (Nat.eqb_spec (retained_reply_bytes options) 0) as [|_], (Nat.eqb_spec (line_bytes options) 0) as [|_];
    cbn [negb andb orb]; destruct (Nat.ltb_spec (retained_reply_bytes options) kMinimumBoundaryBytes);
    try destruct (Nat.ltb_spec (line_bytes options) kMinimumBoundaryBytes); try done; lia.
Qed.

Lemma bounded_all retained full : retained = 0 \/ length full <= retained -> bounded retained full = full.
Proof. unfold bounded. intros H. destruct (Nat.eqb_spec retained 0); [done|]. apply take_ge. lia. Qed.

(** The three lines of tmux's reply to the boundary of a request. *)
Definition boundary_lines (s c : N) (name : text) : list bytes :=
  [txt "%begin " ++ metadata_of s c 1; txt "parse error: unknown command: " ++ name;
   txt "%error " ++ metadata_of s c 1].

Lemma boundary_line_no_feed s c f keyword :
  line_feed ∉ keyword -> line_feed ∉ keyword ++ metadata_of s c f.
Proof.
  intros Hk. unfold metadata_of. rewrite !elem_of_app, !elem_of_cons, elem_of_app, elem_of_cons.
  pose proof (dec_no_char line_feed s eq_refl). pose proof (dec_no_char line_feed c eq_refl).
  pose proof (dec_no_char line_feed f eq_refl). naive_solver.
Qed.

Lemma metadata_length s c f :
  (s <= u64_max)%N -> (c <= u64_max)%N -> (f <= 9)%N -> length (metadata_of s c f) <= 43.
Proof.
  intros Hs Hc Hf. unfold metadata_of. rewrite length_app. cbn [length]. rewrite length_app. cbn [length].
  assert (u64_max < 10 ^ N.of_nat 20)%N as Hmax by by vm_compute.
  pose proof (dec_length 19 s ltac:(lia)). pose proof (dec_length 19 c ltac:(lia)).
  assert (f < 10 ^ N.of_nat 1)%N as Hf1 by (change (10 ^ N.of_nat 1)%N with 10%N; lia).
  pose proof (dec_length 0 f Hf1). lia.
Qed.

(** C31: The boundary of a request is always seen, and only that one.  With any options the
    connection accepts, however small its bounds on lines and on replies, the decoder turns
    tmux's reply to a boundary into one block, whole, and this block is the boundary of the
    request with that number and of no other. *)
Theorem boundary_recognised options p s c seed n :
  check_options options = None -> seed_ok seed -> (n < 2 ^ 64)%N ->
  retained_reply_bytes_ p = retained_reply_bytes options -> line_bytes_ p = line_bytes options ->
  between_lines p -> block_ p = None -> failure_ p = None -> finished_ p = false ->
  (s <= u64_max)%N -> (c <= u64_max)%N ->
  exists block,
    feed p (stream_of (boundary_lines s c (boundary_name seed n))) = (p, Value [EventBlock block]) /\
    guard_flags block = Some 1%N /\
    forall m, (m < 2 ^ 64)%N -> is_boundary block (boundary_reply (boundary_name seed m)) = true <-> m = n.
Proof.
  intros Hopt Hseed Hn Hret Hline Hp Hb Hf Hfin Hs Hc. apply check_options_bounds in Hopt as [Hr Hl].
  rewrite <-Hret in Hr. rewrite <-Hline in Hl. unfold kMinimumBoundaryBytes in *.
  pose proof (boundary_name_length seed n (proj1 Hseed)) as Hlen.
  pose proof (metadata_length s c 1 Hs Hc ltac:(lia)) as Hmeta.
  assert (line_fits (line_bytes_ p) (txt "parse error: unknown command: " ++ boundary_name seed n)) as Hbody.
  { split; [|destruct Hl as [Hl|Hl]; [by left|right]].
    - rewrite elem_of_app. intros [H|H]; [revert H; by apply (bool_decide_unpack _) | by apply boundary_name_no_feed in H].
    - rewrite length_app, Hlen. change (length (txt _)) with 30. lia. }
  assert (Forall (body_line (line_bytes_ p) (metadata_of s c 1)) [txt "parse error: unknown command: " ++ boundary_name seed n]) as Hlines.
  { apply Forall_singleton. split; [done|]. by intros []. }
  eexists. split; [|split].
  - unfold boundary_lines. apply (feed_framed_block p s c 1 [_] terminal_error); try done.
    + split; [by apply boundary_line_no_feed, (bool_decide_unpack _)|]. rewrite length_app.
      change (length (txt _)) with 7. lia.
    + split; [by apply boundary_line_no_feed, (bool_decide_unpack _)|]. cbn [terminal_keyword].
      rewrite length_app. change (length (txt _)) with 7. lia.
  - by eapply guard_flags_metadata.
  - intros m Hm. unfold is_boundary. cbn [terminal body_truncated body].
    assert (length (stream_of [txt "parse error: unknown command: " ++ boundary_name seed n]) = 98) as Hsz.
    { unfold stream_of, terminate. cbn [map concat]. rewrite !length_app, Hlen. done. }
    assert (exceeds (retained_reply_bytes_ p) (stream_of [txt "parse error: unknown command: " ++ boundary_name seed n]) = false) as ->.
    { unfold exceeds. rewrite Hsz. destruct Hr as [->|Hr]; [done|]. apply andb_false_intro2, Nat.ltb_ge. lia. }
    assert (bounded (retained_reply_bytes_ p) (stream_of [txt "parse error: unknown command: " ++ boundary_name seed n]) =
            boundary_reply (boundary_name seed n)) as ->.
    { rewrite bounded_all by lia.
      unfold stream_of, terminate, boundary_reply. cbn [map concat]. by rewrite app_nil_r, <-app_assoc. }
    cbn [negb andb]. rewrite bool_decide_eq_true. split; [|by intros ->].
    unfold boundary_reply. intros H%app_inv_head%app_inv_tail. by apply boundary_name_inj in H.
Qed.

(** * The theorems at concrete inputs *)

Definition sample_seed : BoundarySeed := replicate 16 7%N.
Definition sample_options : ConnectionOptions :=
  MkConnectionOptions None (txt "/tmp/tmux") (txt "main") 1000 1000 128 128 true (Some 5%Z).
Definition sample_group : list (list text) :=
  [[txt "set-buffer"; txt "it's;"; []]; [txt "rename-window"; txt "a b"]].

Lemma checked_is_sent_witness :
  Forall (fun command => exists argv, separate argv = [command] /\
            refuse_literal argv (MkVersion 3 8 0 false false 0) true = None) sample_group.
Proof.
  replace sample_group with (read_line (match render_request sample_group with Value l => l | _ => [] end))
    by by vm_compute.
  apply (checked_is_sent sample_group); by vm_compute.
Defined.

Lemma boundary_recognised_witness :
  exists block,
    feed (new_parser 128 128) (stream_of (boundary_lines 1700000000 42 (boundary_name sample_seed 5))) =
      (new_parser 128 128, Value [EventBlock block]) /\
    guard_flags block = Some 1%N /\
    forall m, (m < 2 ^ 64)%N -> is_boundary block (boundary_reply (boundary_name sample_seed m)) = true <-> m = 5%N.
Proof.
  apply (boundary_recognised sample_options); try done; [|by vm_compute..].
  split; [done|]. by repeat constructor.
Defined.
