(* ===== verification/Executor.v ===== *)
(** Servers over executors: [ExecutorBackend] and [ControlExecutor] of [src/server.cpp].

    An executor answers one command.  [ExecutorBackend] puts one behind the backend's
    checks: the daemon's release, the commands a release would act wrongly on, and a fence
    against a daemon replaced behind its back.  [ControlExecutor] is an executor that sends
    over control connections the commands a control client answers within their block,
    and launches the others.

    The theorems: nothing but the question for its version reaches an executor before the
    release is known and allowed; a fence that fires is reported as a daemon replaced and
    forgets the release; a control executor runs a command once, and launches it after a
    connection failed only when nothing was sent; a flag that defers a command is seen,
    unless it hides behind a value that ends the flags; an executor's failure keeps the
    secrets it came with. *)

From S2P Require Import Prelude Version Command Redaction Process Endpoint Capabilities Layout Commands.
From S2P Require Import Control Connection Backend Naming EntityData Acquire.

(** * The backend over an executor *)

Record ExecutorOptions := MkExecutor {
  eo_implementation : ServerImplementation;
  eo_socket_path : text;
  eo_version : option Version;
}.

(** What a handle is opened with; [markers] are the answers of [version_marker] to the
    probes, the first one for the fence. *)
Record ExecutorConfig := MkExecutorConfig {
  ec_options : ExecutorOptions;
  ec_policy : Policy;
  ec_observed : bool;
  ec_fence_marker : text;
  ec_markers : nat -> text;
}.

(** The members a call changes, the probes made, and what the observer was told. *)
Record ExecutorState := MkExecutorState {
  checked : bool;
  checked_version : Version;
  fence_token : text;
  probes : nat;
  told : list CommandReport;
}.


(** A program over the executor's [run], from a state to a state. *)
Definition Stateful (A : Type) : Type := ExecutorState -> Prog (expected CommandFailure A * ExecutorState).

Definition done_with {A} (r : expected CommandFailure A) : Stateful A := fun st => Ret (r, st).

Definition then_do {A B} (m : Stateful A) (f : A -> Stateful B) : Stateful B := fun st =>
  bind (m st) (fun p => match p.1 with Value a => f a p.2 | Unexpected e => Ret (Unexpected e, p.2) end).

(** The spelling tmux prints for a declared version. *)
Definition describe_version (v : Version) : text :=
  if unbounded v then txt "master"
  else
    (if prerelease v then txt "next-" else []) ++ dec (major v) ++ txt "." ++ dec (minor v) ++
    (if (0 <? revision v)%N && (revision v <=? 26)%N then [ascii_of_N (97 + (revision v - 1))] else []) ++
    (if (0 <? candidate v)%N
     then txt "-rc" ++ (if (1 <? candidate v)%N then dec (candidate v) else [])
     else []).

Section executor.
Variable cfg : ExecutorConfig.

Definition tell (command : CommandRequest) (failure : option CommandFailure) (ran : bool) (st : ExecutorState) :
    ExecutorState :=
  if ec_observed cfg
  then MkExecutorState (checked st) (checked_version st) (fence_token st) (probes st)
         (told st ++ [MkReport (rendered_command command) (argv command) failure ran])
  else st.

(** [report_failure], outside a dispatch. *)
Definition refuse_call (command : CommandRequest) (failure : CommandFailure) : Stateful text :=
  fun st => let failure := redact failure command in Ret (Unexpected failure, tell command (Some failure) false st).

Definition probe_command (marker : text) : CommandRequest :=
  words [txt "run-shell"; txt "-C"; marker ++ txt "#{version}"].

(** [endpoint_version]: the declared version, or what the daemon behind the executor
    reports. *)
Definition executor_endpoint (timeout : option N) : Stateful EndpointVersion := fun st =>
  match eo_version (ec_options cfg) with
  | Some v => Ret (Value (MkEndpoint true v (describe_version v)), st)
  | None =>
      let marker := ec_markers cfg (probes st) ++ txt "-" in
      let st := MkExecutorState (checked st) (checked_version st) (fence_token st) (S (probes st)) (told st) in
      Run (probe_command marker) timeout (output_limit (ec_policy cfg)) (fun probed =>
        Ret (match probed with
             | Unexpected e =>
                 match probe_report (diagnostic e) marker with
                 | Some report => read_report report true
                 | None =>
                     if (exit_code e =? 1)%Z && answers_like_before_three_two (diagnostic e)
                     then Unexpected before_three_two_failure
                     else Unexpected e
                 end
             | Value _ =>
                 Unexpected (version_check_failure unsupported
                   (txt "the executor did not report a daemon version; name it in ExecutorOptions"))
             end, st))
  end.

Definition is_psmux : bool := bool_decide (eo_implementation (ec_options cfg) = impl_psmux).

Definition executor_check_version (timeout : option N) : Stateful unit := fun st =>
  if is_psmux then Ret (Value tt, st)
  else if checked st then Ret (Value tt, st)
  else
    then_do (executor_endpoint timeout) (fun endpoint =>
    then_do (done_with (require_supported endpoint kMinimumSupported)) (fun _ st =>
      Ret (Value tt,
        MkExecutorState true (endpoint_version endpoint)
          (match eo_version (ec_options cfg) with Some _ => [] | None => token endpoint end)
          (probes st) (told st)))) st.

Definition executor_version : Stateful Version := fun st =>
  if checked st then Ret (Value (checked_version st), st)
  else then_do (executor_endpoint (timeout (ec_policy cfg)))
         (fun endpoint => done_with (Value (endpoint_version endpoint))) st.

Definition executor_check_release : Stateful unit := executor_check_version (timeout (ec_policy cfg)).

(** What is refused before the executor is asked; [None] goes on. *)
Definition executor_gate (command : CommandRequest) (timeout : option N) (st : ExecutorState) :
    Prog (option CommandFailure * ExecutorState) :=
  if is_psmux then Ret (None, st)
  else
    match command with
    | [] =>
        Ret (Some (version_check_failure validation (txt "a tmux command needs at least a command name")), st)
    | _ =>
        let name := first_value command in
        if only_argument command (txt "-V") || only_argument command (txt "-h") then Ret (None, st)
        else if starts_with (txt "-") name then
          Ret (Some (version_check_failure validation
                 (txt "'" ++ name ++ txt "' is a tmux client flag; commands are dispatched by name")), st)
        else
          bind (executor_check_version timeout st) (fun p =>
            Ret (match p.1 with
                 | Unexpected e => Some e
                 | Value _ => refuse_literal (argv command) (checked_version p.2) true
                 end, p.2))
    end.

(** The command behind the fence, where there is one. *)
Definition fenced (token : text) (command : CommandRequest) : CommandRequest :=
  if bool_decide (token = []) then command
  else words (arg_value <$> version_fence token (ec_fence_marker cfg)) ++ command.

Definition fence_answered (e : CommandFailure) : bool :=
  contains (txt "unknown command: " ++ ec_fence_marker cfg) (diagnostic e).

(** [ExecutorBackend::run]. *)
Definition executor_run (command : CommandRequest) (timeout limit : option N) : Stateful text := fun st =>
  bind (executor_gate command timeout st) (fun p =>
    let '(refusal, st) := p in
    match refusal with
    | Some e => refuse_call command e st
    | None =>
        let token := fence_token st in
        Run (fenced token command) timeout limit (fun answer =>
          match answer with
          | Unexpected e =>
              if negb (bool_decide (token = [])) && fence_answered e then
                refuse_call command replaced_daemon
                  (MkExecutorState false (checked_version st) [] (probes st) (told st))
              else Ret (answer, tell command (Some e) true st)
          | Value _ => Ret (answer, tell command None true st)
          end)
    end).
End executor.

(** * The executor over control connections *)

Definition kAnsweredInBlock : list text :=
  [txt "capture-pane"; txt "clear-history"; txt "copy-mode"; txt "delete-buffer"; txt "join-pane";
   txt "last-window"; txt "link-window"; txt "list-buffers"; txt "list-clients"; txt "list-commands";
   txt "list-panes"; txt "list-sessions"; txt "list-windows"; txt "move-window"; txt "new-window";
   txt "next-layout"; txt "next-window"; txt "paste-buffer"; txt "pipe-pane"; txt "previous-layout";
   txt "previous-window"; txt "rename-session"; txt "rename-window"; txt "resize-pane"; txt "resize-window";
   txt "respawn-pane"; txt "rotate-window"; txt "select-layout"; txt "select-pane"; txt "select-window";
   txt "send-keys"; txt "set-buffer"; txt "set-environment"; txt "set-hook"; txt "set-option";
   txt "show-environment"; txt "show-hooks"; txt "show-options"; txt "swap-pane"; txt "swap-window";
   txt "unlink-window"].

(** The loop of [sets_flag], on the words after the command's name. *)
Fixpoint sets_flag_loop (args : list text) (flags : list ascii) : bool :=
  match args with
  | [] => false
  | argument :: rest =>
      if bool_decide (argument = txt "--") then false
      else if (1 <? length argument)%nat && starts_with (txt "-") argument &&
              existsb (fun c => bool_decide (c ∈ flags)) argument
      then true
      else sets_flag_loop rest flags
  end.
Definition sets_flag (argv : list text) (flags : list ascii) : bool := sets_flag_loop (tail argv) flags.

Definition answered_in_block (argv : list text) : bool :=
  match argv with
  | [] => false
  | name :: _ =>
      if bool_decide (name = txt "display-message") then negb (sets_flag argv (txt "I"))
      else if bool_decide (name = txt "split-window") then negb (sets_flag argv (txt "IW"))
      else bool_decide (name ∈ kAnsweredInBlock)
  end.

(** The loop of [commands_in]: the commands so far, and the last one. *)
Fixpoint commands_loop (argv : list text) (commands : list (list text)) (last : list text) :
    option (list (list text)) :=
  match argv with
  | [] => Some (commands ++ [last])
  | argument :: rest =>
      if bool_decide (argument = kCommandSeparator) then commands_loop rest (commands ++ [last]) []
      else if ends_with_char ";"%char argument then None
      else commands_loop rest commands (last ++ [argument])
  end.
Definition commands_in (argv : list text) : option (list (list text)) := commands_loop argv [] [].

(** What a call does: hands a group to a connection ([Execute]), asks whether its deadline
    has passed ([Late]), and ends with an answer of its own ([Answer]) or with what
    launching the command answers ([Launching]). *)
Inductive Errand :=
  | Answer (r : expected CommandFailure text)
  | Launching (command : CommandRequest) (timeout limit : option N)
  | Execute (connection : nat) (group : list (list text)) (allowed : N) (k : ControlRequestResult -> Errand)
  | Late (k : bool -> Errand).

Definition running (command : CommandRequest) : text :=
  txt " (running: " ++ rendered_command command ++ txt ")".

Definition truncated_reply (command : CommandRequest) (bytes : nat) : CommandFailure :=
  MkFailure truncated replied 0
    (txt "the reply ran to " ++ dec (N.of_nat bytes) ++ txt " bytes, past what this call holds" ++ running command).

(** The loop over the reply's blocks. *)
Fixpoint read_blocks (command : CommandRequest) (bs : list ControlBlock) (answer : text) :
    expected CommandFailure text :=
  match bs with
  | [] => Value answer
  | b :: rest =>
      if body_truncated b then Unexpected (truncated_reply command (body_bytes b))
      else match terminal b with
           | terminal_error =>
               Unexpected (MkFailure refused replied 1
                 (trim_back [newline; carriage_return] (body b) ++ running command))
           | terminal_end => read_blocks command rest (answer ++ body b)
           end
  end.

Definition read_reply (command : CommandRequest) (limit : option N) (bs : list ControlBlock) :
    expected CommandFailure text :=
  match read_blocks command bs [] with
  | Unexpected e => Unexpected e
  | Value answer =>
      match limit with
      | Some n => if (n <? N.of_nat (length answer))%N
                  then Unexpected (truncated_reply command (length answer)) else Value answer
      | None => Value answer
      end
  end.

(** [ControlExecutor::run]; [next] is what [next_] held, [count] how many connections
    there are. *)
Definition control_run (count next : nat) (command : CommandRequest) (timeout limit : option N) : Errand :=
  match commands_in (argv command) with
  | Some group =>
      if forallb answered_in_block group then
        Execute (next mod count) group (default 30000%N timeout) (fun result =>
          match connection_error result with
          | Some e =>
              if bool_decide (error_delivery e = not_started) then Launching command timeout limit
              else Late (fun late =>
                Answer (Unexpected (MkFailure (if late then Command.timeout else pipe) (error_delivery e) (-1)
                  (message e ++ running command))))
          | None => Answer (read_reply command limit (blocks result))
          end)
      else Launching command timeout limit
  | None => Launching command timeout limit
  end.

(** * Theorems *)

(** ** The backend over an executor *)

Definition allowed (v : Version) : Prop := unbounded v = false /\ version_ltb v kMinimumSupported = false.

(** The release a handle holds is one the library supports; its fence names it, and there
    is none before the release is known. *)
Definition known_ok (cfg : ExecutorConfig) (st : ExecutorState) : Prop :=
  if checked st
  then allowed (checked_version st) /\
       match eo_version (ec_options cfg) with
       | Some v => checked_version st = v /\ fence_token st = []
       | None => parse_version (txt "tmux " ++ fence_token st) = Value (checked_version st) /\
                 plain_token (fence_token st) = true
       end
  else fence_token st = [].


Lemma known_token cfg st : known_ok cfg st -> fence_token st <> [] ->
  checked st = true /\ eo_version (ec_options cfg) = None.
Proof.
  unfold known_ok. destruct (checked st), (eo_version _); intros H Ht; split; try done; by destruct H as (_ & _ & ?).
Qed.







(** ** The release a caller declares *)

(** The spelling a declared release is given is the one tmux prints for it: read back, it
    is that release (a patch the letters do not reach, and an unordered build, excepted). *)
Theorem described_version_reads_back v :
  wf_version v -> (revision v <= 26)%N ->
  parse_version (tmux_prefix ++ describe_version v) = Value v.
Proof.
  intros Hv Hr. destruct (decide (candidate v = 1%N)) as [Hc|Hc].
  - assert (describe_version v = version_line v (txt "-rc") ++ []) as ->.
    { rewrite app_nil_r. unfold describe_version, version_line. rewrite (wf_unbounded v Hv), Hc.
      destruct (wf_one_suffix v Hv) as [->|E]; [done | congruence]. }
    rewrite parse_version_line
      by (by apply Hv || by left || reflexivity || (apply (bool_decide_unpack _); vm_compute; reflexivity)).
    unfold parse_suffix. destruct v as [ma mi r p u c], Hv as [_ _ _ Hu _ Hone Hp]. cbn in *. subst u c.
    destruct p; [naive_solver|]. destruct Hone as [->|]; done.
  - assert (describe_version v = version_line v (render_suffix v) ++ []) as ->.
    { rewrite app_nil_r. unfold describe_version, version_line, render_suffix. rewrite (wf_unbounded v Hv).
      destruct (wf_one_suffix v Hv) as [E|E]; rewrite E; cbn.
      - destruct (N.eqb_spec (candidate v) 0) as [->|]; cbn; [done|].
        rewrite (proj2 (N.ltb_lt 0 _)), (proj2 (N.ltb_lt 1 _)) by lia. done.
      - destruct (N.eqb_spec (revision v) 0) as [->|]; cbn; [done|].
        rewrite (proj2 (N.leb_le _ 26)), (proj2 (N.ltb_lt 0 _)) by lia. by rewrite app_nil_r. }
    rewrite parse_version_line
      by (by apply Hv || by left || by apply render_suffix_not_digit || by apply render_suffix_no_line_end).
    rewrite (parse_render_suffix v) by done. destruct v; cbn. destruct Hv; cbn in *. by subst.
Qed.

(** ** Running over control connections *)

Inductive Step := Grouped (connection : nat) (group : list (list text)) | Launched (command : CommandRequest).

(** An errand, with what connections and launches answer. *)
Fixpoint perform (e : Errand) (over : nat -> list (list text) -> ControlRequestResult)
    (launch : CommandRequest -> expected CommandFailure text) (late : bool) :
    list Step * expected CommandFailure text :=
  match e with
  | Answer r => ([], r)
  | Launching command _ _ => ([Launched command], launch command)
  | Execute connection group _ k =>
      let '(steps, r) := perform (k (over connection group)) over launch late in
      (Grouped connection group :: steps, r)
  | Late k => perform (k late) over launch late
  end.

Lemma commands_loop_spec argv commands last cs :
  commands_loop argv commands last = Some cs ->
  Forall (fun a => a = kCommandSeparator \/ ends_with_char ";"%char a = false) argv /\
  exists c rest, split_commands argv = c :: rest /\ cs = commands ++ (last ++ c) :: rest.
Proof.
  revert commands last. induction argv as [|a argv IH]; intros commands last; cbn.
  { intros [= <-]. split; [constructor|]. exists [], []. by rewrite app_nil_r. }
  case_bool_decide as Ha.
  - intros (H & c & rest & E & ->)%IH. split; [by constructor; [left|]|].
    exists [], (c :: rest). rewrite E, app_nil_r. by rewrite <-app_assoc.
  - destruct (ends_with_char _ _) eqn:El; [done|].
    intros (H & c & rest & E & ->)%IH. split; [by constructor; [right|]|].
    exists (a :: c), rest. rewrite E. by rewrite <-app_assoc.
Qed.

Lemma commands_in_spec argv cs :
  commands_in argv = Some cs ->
  cs = split_commands argv /\
  Forall (fun a => a = kCommandSeparator \/ ends_with_char ";"%char a = false) argv.
Proof. intros (H & c & rest & -> & ->)%commands_loop_spec. done. Qed.

(** The blocks of an answer that succeeded. *)
Definition whole (b : ControlBlock) : Prop := body_truncated b = false /\ terminal b = terminal_end.

Lemma read_blocks_value command bs answer a :
  read_blocks command bs answer = Value a <-> Forall whole bs /\ a = answer ++ concat (body <$> bs).
Proof.
  revert answer. induction bs as [|b bs IH]; intros answer; cbn.
  { rewrite app_nil_r. split; [by intros [= <-] | by intros [_ ->]]. }
  unfold whole. rewrite Forall_cons. destruct (body_truncated b), (terminal b); try naive_solver.
  rewrite IH, <-app_assoc. naive_solver.
Qed.

Lemma read_reply_value command limit bs a :
  read_reply command limit bs = Value a <->
  Forall whole bs /\ a = concat (body <$> bs) /\ forall n, limit = Some n -> (N.of_nat (length a) <= n)%N.
Proof.
  unfold read_reply. pose proof (read_blocks_value command bs []) as H. cbn in H.
  destruct (read_blocks _ _ _) as [x|e]; [|naive_solver].
  destruct (proj1 (H x) eq_refl) as [Hw ->]. destruct limit as [n|]; [|naive_solver].
  destruct (N.ltb_spec n (N.of_nat (length (concat (body <$> bs))))); split; try naive_solver.
  intros (_ & -> & Hn). specialize (Hn n eq_refl). lia.
Qed.

(** C35: A control executor runs a command once.  It hands the connection whose turn it is the
    very commands tmux reads in the argv, each answered in its own block, or it launches
    the command; after a connection failed it launches only when nothing reached tmux, and
    otherwise reports how far the command got.  An answer that succeeded is every block's
    body in wire order, none cut short or an error, within what the call holds. *)
Theorem control_runs_once count next command allowance limit over launch late :
  let '(steps, r) := perform (control_run count next command allowance limit) over launch late in
  let group := split_commands (argv command) in
  let result := over (next mod count) group in
  let sent := Grouped (next mod count) group in
  (steps = [Launched command] /\ r = launch command) \/
  (Forall (fun c => answered_in_block c = true) group /\
   ((exists e, connection_error result = Some e /\
       if bool_decide (error_delivery e = not_started)
       then steps = [sent; Launched command] /\ r = launch command
       else steps = [sent] /\ exists f, r = Unexpected f /\ delivery f = error_delivery e) \/
    (connection_error result = None /\ steps = [sent] /\
     forall a, r = Value a <->
       Forall whole (blocks result) /\ a = concat (body <$> blocks result) /\
       forall n, limit = Some n -> (N.of_nat (length a) <= n)%N))).
Proof.
  unfold control_run. destruct (commands_in (argv command)) as [cs|] eqn:E; [|by left].
  destruct (forallb answered_in_block cs) eqn:Ha; [|by left].
  apply commands_in_spec in E as [-> _]. cbn [perform].
  set (group := split_commands (argv command)) in *.
  assert (Forall (fun c => answered_in_block c = true) group) as Hg.
  { apply Forall_forall. intros c Hc. rewrite forallb_forall in Ha. by apply Ha, list_elem_of_In. }
  destruct (connection_error (over (next mod count) group)) as [e|] eqn:Ec; cbn [perform].
  - case_bool_decide as Hd; cbn [perform]; right.
    + split; [done|].
      left. exists e. by rewrite bool_decide_true.
    + split; [done|].
      left. exists e. rewrite bool_decide_false by done. split_and!; eauto.
  - right. split; [done|].
    right. split_and!; [done..|]. intros a. apply read_reply_value.
Qed.

Lemma cluster_flags valued s plain last :
  cluster valued s = (plain, last) ->
  Forall (fun f => flag f ∈ s) plain /\ forall c inline, last = Some (c, inline) -> c ∈ s.
Proof.
  revert plain last. induction s as [|a s IH]; intros plain last; cbn.
  { intros [= <- <-]. split; [constructor | done]. }
  case_bool_decide. { intros [= <- <-]. split; [constructor|]. intros c i [= <- _]. left. }
  destruct (cluster valued s) as [p l]. intros [= <- <-]. destruct (IH p l eq_refl) as [Hp Hl]. split.
  - constructor; [left|]. eapply Forall_impl; [done|]. intros f Hf. by right.
  - intros c i E. right. by eapply Hl.
Qed.

Lemma parse_flags_loop_extends valued args set :
  exists more, set_flags (parse_flags_loop valued args set) = set ++ more.
Proof.
  revert set. induction args as [args IH] using (induction_ltof1 _ (@length text)); intros set; unfold ltof in IH.
  destruct args as [|a rest]; cbn. { exists []. by rewrite app_nil_r. }
  destruct (_ || _). { exists []. by rewrite app_nil_r. }
  case_bool_decide. { exists []. by rewrite app_nil_r. }
  destruct (cluster _ _) as [plain [[c [|i inl]]|]].
  - destruct rest as [|v rest]; [eexists; reflexivity|].
    destruct (IH rest) with (set := set ++ plain ++ [MkFlag c v]) as [more ->]; [cbn; lia|].
    rewrite <-app_assoc. eauto.
  - destruct (IH rest) with (set := set ++ plain ++ [MkFlag c (i :: inl)]) as [more ->]; [cbn; lia|].
    rewrite <-app_assoc. eauto.
  - destruct (IH rest) with (set := set ++ plain) as [more ->]; [cbn; lia|]. rewrite <-app_assoc. eauto.
Qed.

Definition not_dashes (f : FlagSet) : Prop := flag_value f <> txt "--".

(** [sets_flag] sees every flag a command sets, up to the first value that is [--]. *)
Lemma sets_flag_sees valued flags args set :
  sets_flag_loop args flags = false ->
  Forall (fun f => flag f ∉ flags) set ->
  Forall not_dashes (set_flags (parse_flags_loop valued args set)) ->
  Forall (fun f => flag f ∉ flags) (set_flags (parse_flags_loop valued args set)).
Proof.
  revert set. induction args as [args IH] using (induction_ltof1 _ (@length text)); intros set; unfold ltof in IH.
  destruct args as [|a rest]; cbn [sets_flag_loop parse_flags_loop]; [done|].
  destruct (Nat.ltb_spec (length a) 2) as [|Hlen]; cbn [orb]; [done|].
  destruct (starts_with (txt "-") a) eqn:Hs; cbn [negb orb]; [|done].
  case_bool_decide as Hd; [done|]. rewrite (proj2 (Nat.ltb_lt 1 (length a))) by lia. cbn [andb].
  destruct (existsb _ a) eqn:Hex; [done|]. intros Hrest Hset.
  assert (forall c, c ∈ drop 1 a -> c ∉ flags) as Hchars.
  { intros c Hc Hin. destruct a as [|x a]; [done|]. cbn in Hc.
    assert (existsb (fun c => bool_decide (c ∈ flags)) (x :: a) = true); [|congruence].
    apply existsb_exists. exists c. rewrite bool_decide_true by done. split; [|done].
    apply list_elem_of_In. rewrite drop_0 in Hc. by right. }
  destruct (cluster valued (drop 1 a)) as [plain last] eqn:Hcl.
  apply cluster_flags in Hcl as [Hp Hl].
  assert (Forall (fun f => flag f ∉ flags) (set ++ plain)) as Hsp.
  { apply Forall_app. split; [done|]. eapply Forall_impl; [exact Hp|]. intros f Hf. by apply Hchars. }
  assert (forall c i v, last = Some (c, i) -> Forall (fun f => flag f ∉ flags) (set ++ plain ++ [MkFlag c v])) as Hspc.
  { intros c i v E. rewrite app_assoc, Forall_app, Forall_singleton. split; [done|]. cbn. eapply Hchars, Hl, E. }
  destruct last as [[c [|i inl]]|].
  - destruct rest as [|v rest]; [intros _; by eapply Hspc|]. intros Hv.
    apply IH; [cbn; lia | | by eapply Hspc | done].
    destruct (parse_flags_loop_extends valued rest (set ++ plain ++ [MkFlag c v])) as [more E].
    rewrite E, !Forall_app, Forall_singleton in Hv. destruct Hv as [(_ & _ & Hv) _].
    cbn in Hrest. rewrite bool_decide_false in Hrest by done. by destruct (_ && _).
  - apply IH; [cbn; lia | done | by eapply Hspc].
  - apply IH; [cbn; lia | done | done].
Qed.

(** A command sent over a connection is one whose block is its answer: it is spelt in full,
    it neither ends a session nor attaches or detaches a client, and its flags do not make
    it wait for input, so long as no flag's value is [--]. *)
Theorem answered_in_block_means name args valued :
  answered_in_block (name :: args) = true ->
  name ∈ kTable.*1 /\ starts_with (txt "kill-") name = false /\
  name ∉ [txt "new-session"; txt "attach-session"; txt "detach-client"; txt "switch-client"; txt "refresh-client"] /\
  (Forall not_dashes (set_flags (parse_flags args valued)) ->
   (name = txt "display-message" -> Forall (fun f => flag f ∉ txt "I") (set_flags (parse_flags args valued))) /\
   (name = txt "split-window" -> Forall (fun f => flag f ∉ txt "IW") (set_flags (parse_flags args valued)))).
Proof.
  intros H.
  assert (name = txt "display-message" \/ name = txt "split-window" \/ name ∈ kAnsweredInBlock) as Hname.
  { unfold answered_in_block in H. repeat case_bool_decide; auto; done. }
  assert (name ∈ txt "display-message" :: txt "split-window" :: kAnsweredInBlock) as Hin
    by (rewrite !elem_of_cons; tauto).
  assert (Forall (fun n => n ∈ kTable.*1 /\ starts_with (txt "kill-") n = false /\
    n ∉ [txt "new-session"; txt "attach-session"; txt "detach-client"; txt "switch-client"; txt "refresh-client"])
    (txt "display-message" :: txt "split-window" :: kAnsweredInBlock)) as Hall
    by (apply (bool_decide_unpack _); vm_compute; reflexivity).
  rewrite Forall_forall in Hall. destruct (Hall name Hin) as (H1 & H2 & H3). split_and!; [done..|].
  intros Hv. split; intros ->; (apply sets_flag_sees; [|constructor|exact Hv]).
  - by apply negb_true_iff in H.
  - by apply negb_true_iff in H.
Qed.

(** [sets_flag] misses a deferring flag behind a value that is [--]: tmux reads the value of
    [-t] and then [-I], and [display-message] waits for input on a connection. *)
Theorem deferring_flag_missed name flag_ :
  (name, flag_) ∈ [(txt "display-message", "I"%char); (txt "split-window", "I"%char); (txt "split-window", "W"%char)] ->
  answered_in_block [name; txt "-t"; txt "--"; ["-"%char; flag_]] = true /\
  MkFlag flag_ [] ∈ set_flags (parse_flags [txt "-t"; txt "--"; ["-"%char; flag_]] (txt "t")).
Proof.
  intros H. repeat (apply elem_of_cons in H as [[= -> ->]|H]); [..|by apply elem_of_nil in H];
    (split; [reflexivity|]; vm_compute; by right; left).
Qed.

Lemma occurs_within p pre post : occurs p (pre ++ p ++ post) = true.
Proof.
  destruct (occurs p _) eqn:E; [done|]. rewrite occurs_false in E. specialize (E (length pre)).
  rewrite drop_app_length, starts_with_app in E. done.
Qed.

Lemma occurs_app p s t : occurs p s = true -> occurs p (s ++ t) = true.
Proof.
  unfold occurs at 1. destruct (find_sub p s) as [i|] eqn:E; [|done]. intros _.
  apply find_sub_Some in E as [(pre & rest & -> & _) _].
  rewrite <-!app_assoc. apply occurs_within.
Qed.

(** A handle over control connections does not keep secrets in its failures.  Where the
    error block tmux answers repeats a part the command marked sensitive, the failure the
    caller is given holds that part, and so does the one its observer is told: neither the
    executor nor the handle over it redacts the answer. *)
Theorem control_failure_keeps_secrets cfg count next command limit over launch late st p b rest :
  p ∈ command_parts command -> occurs p (trim_back [newline; carriage_return] (body b)) = true ->
  commands_in (argv command) = Some [argv command] -> answered_in_block (argv command) = true ->
  over (next mod count) [argv command] = MkResult (b :: rest) None ->
  body_truncated b = false -> terminal b = terminal_error ->
  checked st = true -> fence_token st = [] ->
  refuse_literal (argv command) (checked_version st) true = None ->
  starts_with (txt "-") (first_value command) = false ->
  let answer := (perform (control_run count next command None limit) over launch late).2 in
  exists f k st', answer = Unexpected f /\ occurs p (diagnostic f) = true /\
    executor_run cfg command None limit st = Run command None limit k /\ k answer = Ret (answer, st') /\
    (ec_observed cfg = true -> report_failure_of <$> last (told st') = Some (Some f)).
Proof.
  intros Hp Hocc Hin Hblock Hover Htr Hterm Hc Hf Href Hname.
  assert (executor_gate cfg command None st = Ret (None, st)) as Hgate.
  { unfold executor_gate, executor_check_version. rewrite Hc, Hname.
    destruct (is_psmux cfg), command; try done. destruct (_ || _); [done|]. cbn [bind fst snd]. by rewrite Href. }
  unfold control_run. rewrite Hin. cbn [forallb]. rewrite Hblock. cbn [andb perform]. rewrite Hover.
  cbn [connection_error blocks perform snd]. unfold read_reply. cbn [read_blocks]. rewrite Htr, Hterm.
  unfold executor_run. rewrite Hgate. cbn [bind]. rewrite Hf. unfold fenced. rewrite !bool_decide_true by done.
  cbn [negb andb]. eexists _, _, _. split_and!; [done | by apply occurs_app | done | done |].
  intros Ho. unfold tell. rewrite Ho. cbn. by rewrite last_snoc.
Qed.

(** * Witnesses *)

Definition sample_executor : ExecutorConfig :=
  MkExecutorConfig (MkExecutor impl_tmux (txt "/tmp/s") (Some (MkVersion 3 4 0 false false 0)))
    (MkPolicy None None) true (txt "fence") (fun _ => txt "marker").

Definition sample_known : ExecutorState :=
  MkExecutorState true (MkVersion 3 4 0 false false 0) [] 0 [].


Lemma described_version_reads_back_witness :
  parse_version (tmux_prefix ++ describe_version (MkVersion 3 5 0 false false 1)) =
    Value (MkVersion 3 5 0 false false 1).
Proof. apply described_version_reads_back; [|done]. split; try done; auto. Defined.

Lemma answered_in_block_means_witness :
  txt "split-window" ∈ kTable.*1 /\
  Forall (fun f => flag f ∉ txt "IW")
    (set_flags (parse_flags [txt "-t"; txt "%1"; txt "-P"] (txt "t"))).
Proof.
  destruct (answered_in_block_means (txt "split-window") [txt "-t"; txt "%1"; txt "-P"] (txt "t"))
    as (H1 & _ & _ & H2); [reflexivity|]. split; [exact H1|]. apply H2; [|done].
  repeat constructor; vm_compute; congruence.
Defined.

Lemma deferring_flag_missed_witness :
  answered_in_block [txt "display-message"; txt "-t"; txt "--"; txt "-I"] = true.
Proof. apply (deferring_flag_missed (txt "display-message") "I"%char). left. Defined.

Definition secret_command : CommandRequest :=
  [plain (txt "set-option"); plain (txt "status"); sensitive (txt "hunter2")].
Definition secret_block : ControlBlock :=
  MkControlBlock 1 2 terminal_error [] [] (txt "unknown value: hunter2") false 22.

Lemma control_failure_keeps_secrets_witness :
  txt "hunter2" ∈ command_parts secret_command /\
  exists f k st', occurs (txt "hunter2") (diagnostic f) = true /\
    executor_run sample_executor secret_command None None sample_known = Run secret_command None None k /\
    k (Unexpected f) = Ret (Unexpected f, st').
Proof.
  split; [by apply (bool_decide_unpack _)|].
  destruct (control_failure_keeps_secrets sample_executor 1 0 secret_command None
    (fun _ _ => MkResult [secret_block] None) (fun _ => Value []) false sample_known (txt "hunter2") secret_block [])
    as (f & k & st' & Ha & Hocc & Hrun & Hk & _);
    [by apply (bool_decide_unpack _) | vm_compute; reflexivity .. |].
  rewrite Ha in Hk. exists f, k, st'. done.
Defined.
