(* ===== verification/Wait.v ===== *)
(** Waiting for a pane to print a text: [src/wait.cpp] and [src/wait_capture.hpp].

    A wait captures a pane until the wanted text stands in the capture as something the pane
    produced, its budget of time or of work is spent, its caller gives up, or the pane is
    gone.  It captures once at entry, opens a control connection where it can and captures
    again at each output the connection tells of, and captures on a timer where it cannot.

    A wait is a program over the clock, the commands, the caller's callbacks and the
    connection; the world that answers them is the theorems'.  Times are nanoseconds of the
    steady clock, durations milliseconds; both are taken to fit their 64 bits.

    The theorems: a wait only reads, each command allowed what is left of the budget (the
    question whether the pane is alive its own two seconds); each way of ending is one thing
    about the last screen captured, judged with what the caller told of for that judgment
    and with the cursor read before that screen; the budget of
    work bounds the polling loop and a clock that moves bounds the stream loop, so a wait
    ends; and a deferred match is promoted at the deadline where the cursor is dropped. *)

From S2P Require Import Prelude Command Snapshot Capabilities Endpoint Control Options EntityData Acquire Entities.

(** * Data *)

(** Where the cursor is, from the top of a pane of a height. *)
Record PaneCursor := MkPaneCursor { row : N; pane_height : N }.

Inductive WaitPath :=
  | pane_lookup | capture_at_entry | capture_after_control_connect | capture_before_control
  | control_output | capture_polling.

Record WaitResult := MkWaitResult {
  matched : bool;
  matched_at_entry : bool;
  result_timed_out : bool;
  present_unconfirmed : bool;
  elapsed : Z;
  result_path : WaitPath;
  result_pane : text;
  result_pane_died : bool;
  reason : text;
  result_text : text;
}.

(** [has_...] say which callbacks are set; calling one is an effect. *)
Record WaitOptions := MkWaitOptions {
  wait_timeout : Z;
  has_sent : bool;
  has_input_pending : bool;
  match_budget_option : N;
  poll_interval : Z;
  has_cancelled : bool;
  has_on_progress : bool;
  has_observer : bool;
}.

Record ConnectOptions := MkConnectOptions {
  connect_socket : text;
  connect_session : text;
  startup_timeout : Z;
  shutdown_timeout : Z;
  pane_output : bool;
  pause_after : Z;
}.

(** * Programs *)

(** What a wait does, one call at a time: reads the clock, runs a command of its server for
    so many milliseconds, calls the caller's callbacks, sleeps, opens and closes its control
    connection, and takes notifications until a time.  [Exhausted] ends a program that ran
    out of fuel. *)
Inductive Waits (A : Type) : Type :=
  | Done (a : A)
  | Clock (k : Z -> Waits A)
  | Ask (command : list text) (allowed : Z) (k : expected CommandFailure text -> Waits A)
  | GaveUp (k : bool -> Waits A)
  | Echoes (pane : text) (k : list text -> Waits A)
  | InputPending (pane : text) (k : bool -> Waits A)
  | Progress (elapsed : Z) (path : WaitPath) (k : Waits A)
  | SleepFor (ms : Z) (k : Waits A)
  | Connect (options : ConnectOptions) (k : bool -> Waits A)
  | ObserveClient (k : Waits A)
  | Notifications (until : Z) (k : list Notification -> Waits A)
  | Close (k : Waits A)
  | Exhausted.
Arguments Done {A} a.
Arguments Clock {A} k.
Arguments Ask {A} command allowed k.
Arguments GaveUp {A} k.
Arguments Echoes {A} pane k.
Arguments InputPending {A} pane k.
Arguments Progress {A} elapsed path k.
Arguments SleepFor {A} ms k.
Arguments Connect {A} options k.
Arguments ObserveClient {A} k.
Arguments Notifications {A} until k.
Arguments Close {A} k.
Arguments Exhausted {A}.

#[export] Instance Waits_ret : MRet Waits := fun A a => Done a.
#[export] Instance Waits_bind : MBind Waits := fun A B f =>
  fix go p :=
    match p with
    | Done a => f a
    | Clock k => Clock (fun t => go (k t))
    | Ask c ms k => Ask c ms (fun r => go (k r))
    | GaveUp k => GaveUp (fun g => go (k g))
    | Echoes pane k => Echoes pane (fun l => go (k l))
    | InputPending pane k => InputPending pane (fun b => go (k b))
    | Progress ms path k => Progress ms path (go k)
    | SleepFor ms k => SleepFor ms (go k)
    | Connect o k => Connect o (fun ok => go (k ok))
    | ObserveClient k => ObserveClient (go k)
    | Notifications until k => Notifications until (fun l => go (k l))
    | Close k => Close (go k)
    | Exhausted => Exhausted
    end.

Definition clock_now : Waits Z := Clock Done.

(** A program that may end in a failure. *)
Abbreviation Failing A := (Waits (expected CommandFailure A)).

(** [std::chrono::milliseconds] of nanoseconds. *)
Definition ns_of (ms : Z) : Z := (ms * 1000000)%Z.

(** * The deadline *)

Record Deadline := MkDeadline { started_ : Z; deadline_ : Z }.

Definition new_deadline (budget : Z) : Waits Deadline :=
  now ← clock_now; Done (MkDeadline now (now + ns_of budget)).

(** [remaining] at a time: rounded up, at least a millisecond. *)
Definition remaining_at (d : Deadline) (now : Z) : option Z :=
  let left := (deadline_ d - now)%Z in
  if (left <=? 0)%Z then None
  else
    let ms := Z.quot left 1000000 in
    Some (Z.max (if (ns_of ms <? left)%Z then ms + 1 else ms) 1).
Definition expired_at (d : Deadline) (now : Z) : bool := (deadline_ d <=? now)%Z.

Definition remaining (d : Deadline) : Waits (option Z) := now ← clock_now; Done (remaining_at d now).
Definition expired (d : Deadline) : Waits bool := now ← clock_now; Done (expired_at d now).
Definition elapsed_of (d : Deadline) : Waits Z := now ← clock_now; Done (Z.quot (now - started_ d) 1000000).

(** * Confirming with a cursor *)

(** A [size_t] read as a [long long]. *)
Definition to_signed (n : N) : Z :=
  if (n <? 2 ^ 63)%N then Z.of_N n else (Z.of_N n - 2 ^ 64)%Z.

(** The row the cursor is on, counted from the bottom of the capture, and the text above it. *)
Definition cursor_row (captured : text) (cursor : PaneCursor) : text * text :=
  let lines := capture_lines captured in
  let joined := Z.of_nat (length lines) in
  let index := (joined - to_signed (pane_height cursor) + to_signed (row cursor))%Z in
  if (0 <=? index)%Z && (index <? joined)%Z then
    let i := Z.to_nat index in
    (default [] (lines !! i), take (sum_list_with (fun l => S (length l)) (take i lines)) captured)
  else ([], []).

(** [detail::output_confirms]. *)
Definition confirms_at (captured wanted : text) (sent : list text) (cursor : option PaneCursor)
    (input_pending : bool) : bool :=
  if bool_decide (wanted = []) then false
  else
    match cursor with
    | None => output_confirms captured wanted sent
    | Some cursor =>
        let '(active_row, above) :=
          if negb (bool_decide (sent = [])) && input_pending then cursor_row captured cursor else ([], []) in
        if found wanted active_row && negb (found wanted above) then false
        else found wanted (foldl mask_whole_occurrences captured sent)
    end.

(** * The wait *)

Record Wait := MkWait {
  wait_pane : text;
  deadline : Deadline;
  match_budget : N;
  sent : list text;
  session_name : text;
  session_known : bool;
  at_entry : bool;
}.

Definition set_budget (n : N) (w : Wait) : Wait :=
  MkWait (wait_pane w) (deadline w) n (sent w) (session_name w) (session_known w) (at_entry w).
Definition set_sent (l : list text) (w : Wait) : Wait :=
  MkWait (wait_pane w) (deadline w) (match_budget w) l (session_name w) (session_known w) (at_entry w).
Definition set_session (s : text) (w : Wait) : Wait :=
  MkWait (wait_pane w) (deadline w) (match_budget w) (sent w) s true (at_entry w).
Definition set_entry (b : bool) (w : Wait) : Wait :=
  MkWait (wait_pane w) (deadline w) (match_budget w) (sent w) (session_name w) (session_known w) b.

Definition cancelled_failure : CommandFailure :=
  MkFailure cancelled not_started 0 (txt "the wait was cancelled").

Section wait.
Variable options : WaitOptions.
(** The socket of the server waited on, and the text waited for. *)
Variable socket : text.
Variable wanted : text.

Definition gave_up : Waits bool := if has_cancelled options then GaveUp Done else Done false.

(** [None]: the budget ran out. *)
Definition run_before_deadline (w : Wait) (command : list text) : Failing (option text) :=
  given ← gave_up;
  if (given : bool) then Done (Unexpected cancelled_failure)
  else
    left ← remaining (deadline w);
    match left with
    | None => Done (Value None)
    | Some ms =>
        Ask command ms (fun reply =>
          match reply with
          | Unexpected e =>
              Done (if bool_decide (failure_kind e = Command.timeout) then Value None else Unexpected e)
          | Value printed =>
              given ← gave_up;
              Done (if (given : bool) then Unexpected cancelled_failure else Value (Some printed))
          end)
    end.

Definition capture_command (pane : text) : list text := [txt "capture-pane"; txt "-p"; txt "-J"; txt "-t"; pane].

Definition no_output : CommandFailure :=
  MkFailure pipe replied 0 (txt "capture-pane returned no output").

Definition capture_before_deadline (w : Wait) : Failing (option text) :=
  captured ← run_before_deadline w (capture_command (wait_pane w));
  Done (match captured with Value (Some []) => Unexpected no_output | _ => captured end).

Definition format_command (pane format : text) : list text :=
  [txt "display-message"; txt "-p"; txt "-t"; pane; txt "--"; format].

Definition line_ends : list ascii := [newline; carriage_return].

(** The body of [cursor_before_deadline] after the reply. *)
Definition parse_cursor (reply : text) : option PaneCursor :=
  let s := trim_back line_ends reply in
  match find_char " "%char s with
  | None => None
  | Some separator =>
      match decimal (take separator s), decimal (drop (S separator) s) with
      | Some row, Some height => if (height =? 0)%N then None else Some (MkPaneCursor row height)
      | _, _ => None
      end
  end.

Definition cursor_before_deadline (w : Wait) : Waits (option PaneCursor) :=
  reply ← run_before_deadline w (format_command (wait_pane w) (txt "#{cursor_y} #{pane_height}"));
  Done (match reply with Value (Some s) => parse_cursor s | _ => None end).

(** [GridSnapshot]: a capture with the cursor read just before it. *)
Definition grid_before_deadline (w : Wait) : Failing (option (option PaneCursor * text)) :=
  cursor ← cursor_before_deadline w;
  captured ← capture_before_deadline w;
  Done (match captured with
        | Unexpected e => Unexpected e
        | Value None => Value None
        | Value (Some s) => Value (Some (cursor, s))
        end).

Definition work_limit : CommandFailure :=
  MkFailure truncated replied 0 (txt "wait matching work limit exceeded").

Definition within_budget (w : Wait) (s : text) : expected CommandFailure (bool * Wait) :=
  let size := N.of_nat (length s) in
  let looked := N.of_nat (length wanted) in
  if (match_budget w <? size)%N || (match_budget w - size <? looked)%N then Unexpected work_limit
  else Value (found wanted s, set_budget (match_budget w - (size + looked)) w).

Definition matched_result (w : Wait) (path : WaitPath) (s : text) : Waits WaitResult :=
  ms ← elapsed_of (deadline w);
  Done (MkWaitResult true (at_entry w) false false ms path (wait_pane w) false [] s).

Definition confirms (w : Wait) (s : text) (cursor : option PaneCursor) : Waits (bool * Wait) :=
  w ← (if has_sent options then Echoes (wait_pane w) (fun l => Done (set_sent l w)) else Done w);
  pending ← (if has_input_pending options then InputPending (wait_pane w) Done
             else Done (negb (bool_decide (sent w = []))));
  Done (confirms_at s wanted (sent w) cursor pending, w).

(** [b && confirms(...)]. *)
Definition confirm_when (b : bool) (w : Wait) (s : text) (cursor : option PaneCursor) : Waits (bool * Wait) :=
  if b then confirms w s cursor else Done (false, w).

Definition timed_out (w : Wait) (path : WaitPath) (s : text) (cursor : option PaneCursor) : Waits WaitResult :=
  '(confirmed, w) ← confirm_when (negb (bool_decide (wanted = []))) w s cursor;
  if (confirmed : bool) then matched_result w path s
  else
    ms ← elapsed_of (deadline w);
    Done (MkWaitResult false (at_entry w) true (negb (bool_decide (wanted = [])) && found wanted s) ms path
            (wait_pane w) false [] s).

Definition report (w : Wait) (path : WaitPath) : Waits unit :=
  if has_on_progress options
  then ms ← elapsed_of (deadline w); Progress ms path (Done tt)
  else Done tt.

Definition pane_gone (w : Wait) : Waits bool :=
  Ask (format_command (wait_pane w) (txt "#{pane_id}")) 2000 (fun probe =>
    Done (match probe with
          | Unexpected e =>
              negb (bool_decide (failure_kind e = Command.timeout)) && negb (bool_decide (failure_kind e = cancelled))
          | Value s => negb (bool_decide (trim_back line_ends s = wait_pane w))
          end)).

Definition server_gone (diagnostic : text) : bool :=
  endpoint_is_absent diagnostic || contains (txt "server exited unexpectedly") diagnostic.

Definition pane_died (w : Wait) (path : WaitPath) (last reason : text) : Waits WaitResult :=
  ms ← elapsed_of (deadline w);
  Done (MkWaitResult false (at_entry w) false false ms path (wait_pane w) true reason last).

(** [return expected] of a result. *)
Definition answered (p : Waits WaitResult) : Failing WaitResult := r ← p; Done (Value r).

Definition capture_failed (w : Wait) (path : WaitPath) (failure : CommandFailure) (last : text) :
    Failing WaitResult :=
  if bool_decide (failure_kind failure = cancelled) || bool_decide (failure_kind failure = Command.timeout)
  then Done (Unexpected failure)
  else
    gone ← (if server_gone (diagnostic failure) then Done true else pane_gone w);
    if (gone : bool) then answered (pane_died w path last (diagnostic failure))
    else Done (Unexpected failure).

(** What one capture settles: the wait ends, or goes on with the capture and its cursor. *)
Inductive Looked :=
  | Ends (r : expected CommandFailure WaitResult)
  | GoesOn (w : Wait) (s : text) (cursor : option PaneCursor).

(** The capture both loops make, and what they make of it; [last] and [last_cursor] are what
    is known before it. *)
Definition look (w : Wait) (path : WaitPath) (last : text) (last_cursor : option PaneCursor) : Waits Looked :=
  captured ← grid_before_deadline w;
  match captured with
  | Unexpected e => r ← capture_failed w path e last; Done (Ends r)
  | Value None => r ← answered (timed_out w path last last_cursor); Done (Ends r)
  | Value (Some (cursor, s)) =>
      late ← expired (deadline w);
      if (late : bool) then r ← answered (timed_out w path s cursor); Done (Ends r)
      else
        match within_budget w s with
        | Unexpected e => Done (Ends (Unexpected e))
        | Value (present, w) =>
            '(confirmed, w) ← confirm_when present w s cursor;
            if (confirmed : bool) then r ← answered (matched_result w path s); Done (Ends r)
            else Done (GoesOn w s cursor)
        end
  end.

(** Progress is told at most once a second. *)
Definition tell_progress (w : Wait) (path : WaitPath) (next : Z) : Waits Z :=
  now ← clock_now;
  if (next <=? now)%Z then _ ← report w path; now ← clock_now; Done (now + ns_of 1000)%Z
  else Done next.

(** The loop of [poll_for_text]. *)
Fixpoint poll_loop (fuel : nat) (w : Wait) (path : WaitPath) (last : text) (last_cursor : option PaneCursor)
    (next_progress : Z) : Failing WaitResult :=
  match fuel with
  | O => Exhausted
  | S fuel =>
      late ← expired (deadline w);
      if (late : bool) then answered (timed_out w path last last_cursor)
      else
        given ← gave_up;
        if (given : bool) then Done (Unexpected cancelled_failure)
        else
          looked ← look w path last last_cursor;
          match looked with
          | Ends r => Done r
          | GoesOn w s cursor =>
              next ← tell_progress w path next_progress;
              left ← remaining (deadline w);
              match left with
              | Some ms => SleepFor (Z.min ms (poll_interval options)) (poll_loop fuel w path s cursor next)
              | None => poll_loop fuel w path s cursor next
              end
          end
  end.

(** Enough for the work the budget allows. *)
Definition poll_fuel (w : Wait) : nat := S (S (N.to_nat (match_budget w))).

Definition poll_for_text (w : Wait) (path : WaitPath) (last : text) : Failing WaitResult :=
  poll_loop (poll_fuel w) w path last None (started_ (deadline w)).

(** The loop over the notifications of one turn. *)
Fixpoint read_notifications (w : Wait) (screen : text) (cursor : option PaneCursor) (l : list Notification) :
    Waits Looked :=
  match l with
  | [] => Done (GoesOn w screen cursor)
  | notification :: rest =>
      let parsed := parse notification in
      if (negb (bool_decide (kind parsed = output)) && negb (bool_decide (kind parsed = extended_output))) ||
         negb (bool_decide (pane parsed = wait_pane w))
      then read_notifications w screen cursor rest
      else
        looked ← look w control_output screen cursor;
        match looked with
        | Ends r => Done (Ends r)
        | GoesOn w screen cursor => read_notifications w screen cursor rest
        end
  end.

Definition no_pane (pane : text) : text := txt "tmux has no pane " ++ pane.

(** What a turn of the stream settles. *)
Inductive Turn :=
  | TurnEnds (r : expected CommandFailure WaitResult)
  | TurnNext (w : Wait) (screen : text) (cursor : option PaneCursor) (next_progress next_liveness : Z).

(** A quiet stream that came back early stopped delivering. *)
Definition stopped_early (until : Z) (notifications : list Notification) : Waits bool :=
  if bool_decide (notifications = [])
  then now ← clock_now; Done (now + ns_of 5 <? until)%Z
  else Done false.

(** The check of the pane itself, twice a second. *)
Definition check_liveness (w : Wait) (next_liveness : Z) : Waits (bool * Z) :=
  now ← clock_now;
  if (next_liveness <=? now)%Z
  then now ← clock_now; gone ← pane_gone w; Done (gone, now + ns_of 500)%Z
  else Done (false, next_liveness).

(** The rest of the loop's body, once notifications arrived. *)
Definition stream_turn (w : Wait) (screen : text) (cursor : option PaneCursor) (next_progress next_liveness : Z)
    (until : Z) (notifications : list Notification) : Waits Turn :=
  early ← stopped_early until notifications;
  if (early : bool) then r ← poll_for_text w capture_polling screen; Done (TurnEnds r)
  else
    '(gone, next_liveness) ← check_liveness w next_liveness;
    if (gone : bool)
    then r ← answered (pane_died w control_output screen (no_pane (wait_pane w))); Done (TurnEnds r)
    else
      looked ← read_notifications w screen cursor notifications;
      match looked with
      | Ends r => Done (TurnEnds r)
      | GoesOn w screen cursor =>
          next ← tell_progress w control_output next_progress;
          Done (TurnNext w screen cursor next next_liveness)
      end.

(** The loop of [stream_for_text]. *)
Fixpoint stream_loop (fuel : nat) (w : Wait) (screen : text) (cursor : option PaneCursor)
    (next_progress next_liveness : Z) : Failing WaitResult :=
  match fuel with
  | O => Exhausted
  | S fuel =>
      late ← expired (deadline w);
      if (late : bool) then answered (timed_out w control_output screen cursor)
      else
        given ← gave_up;
        if (given : bool) then Done (Unexpected cancelled_failure)
        else
          slice ← remaining (deadline w);
          match slice with
          | None => answered (timed_out w control_output screen cursor)
          | Some slice =>
              now ← clock_now;
              let until := (now + ns_of (Z.min slice (poll_interval options)))%Z in
              Notifications until (fun notifications =>
                turn ← stream_turn w screen cursor next_progress next_liveness until notifications;
                match turn with
                | TurnEnds r => Done r
                | TurnNext w screen cursor progress liveness => stream_loop fuel w screen cursor progress liveness
                end)
          end
  end.

Definition connect_options (session : text) (left : Z) : ConnectOptions :=
  MkConnectOptions socket session (Z.min left 2000) (Z.min left 500) true 2.

(** The connection is closed whichever way the wait that holds it ends. *)
Definition closing (p : Failing WaitResult) : Failing WaitResult := r ← p; Close (Done r).

(** What follows a connection that opened. *)
Definition stream_connected (fuel : nat) (w : Wait) (screen : text) : Failing WaitResult :=
  given ← gave_up;
  if (given : bool) then Done (Unexpected cancelled_failure)
  else
    looked ← look w capture_after_control_connect screen None;
    match looked with
    | Ends r => Done r
    | GoesOn w screen cursor =>
        now ← clock_now;
        stream_loop fuel w screen cursor (started_ (deadline w)) (now + ns_of 500)
    end.

Definition stream_for_text (fuel : nat) (w : Wait) (screen : text) : Failing WaitResult :=
  given ← gave_up;
  if (given : bool) then Done (Unexpected cancelled_failure)
  else if bool_decide (socket = []) || bool_decide (session_name w = [])
  then poll_for_text w capture_polling screen
  else
    left ← remaining (deadline w);
    match left with
    | None => answered (timed_out w capture_before_control screen None)
    | Some ms =>
        Connect (connect_options (session_name w) ms) (fun connected =>
          if connected then
            closing (if has_observer options then ObserveClient (stream_connected fuel w screen)
                     else stream_connected fuel w screen)
          else poll_for_text w capture_polling screen)
    end.

(** The session of the pane, asked once. *)
Definition learn_session (w : Wait) : Waits Wait :=
  if session_known w then Done w
  else
    owning ← run_before_deadline w (format_command (wait_pane w) (txt "#{session_name}"));
    Done (set_session
            (match owning with Value (Some s) => trim_back line_ends s | _ => session_name w end) w).

Definition perform (fuel : nat) (w : Wait) : Failing WaitResult :=
  captured ← grid_before_deadline w;
  match captured with
  | Unexpected e => capture_failed w capture_at_entry e []
  | Value None => answered (timed_out w capture_at_entry [] None)
  | Value (Some (cursor, screen)) =>
      match within_budget w screen with
      | Unexpected e => Done (Unexpected e)
      | Value (present, w) =>
          let w := set_entry present w in
          late ← expired (deadline w);
          if (late : bool) then answered (timed_out w capture_at_entry screen cursor)
          else
            '(confirmed, w) ← confirm_when present w screen cursor;
            if (confirmed : bool) then answered (matched_result w capture_at_entry screen)
            else w ← learn_session w; stream_for_text fuel w screen
      end
  end.
End wait.

(** * The two entry points *)

(** Turns enough for a stream: each takes time, and the budget is so many nanoseconds. *)
Definition wait_fuel (options : WaitOptions) : nat := S (Z.to_nat (ns_of (wait_timeout options))).

(** [Pane::wait_for_text]; [socket] is the path of the pane's server. *)
Definition pane_wait_for_text (p : Row) (socket wanted : text) (options : WaitOptions) :
    Failing WaitResult :=
  match row_refused p pane_io (txt "psmux can capture the active pane for a stale target") with
  | Some e => Done (Unexpected e)
  | None =>
      match connection p with
      | None => Done (Unexpected disconnected)
      | Some _ =>
          d ← new_deadline (wait_timeout options);
          perform options socket wanted (wait_fuel options)
            (MkWait (pane_target_text p) d (match_budget_option options) [] [] false false)
      end
  end.

Definition lookup_fields : list text := [txt "pane_id"; txt "session_name"].

Definition unresolved (target : text) : CommandFailure :=
  MkFailure missing replied 0 (txt "tmux could not resolve the pane " ++ target).

(** The pane and its session in the reply of the lookup. *)
Definition resolved (reply : text) : option (text * text) :=
  match from_recording lookup_fields reply with
  | None => None
  | Some s =>
      match row_texts s with
      | [[pane; session]] => if bool_decide (pane = []) then None else Some (pane, session)
      | _ => None
      end
  end.

(** [Server::wait_for_text]. *)
Definition server_wait_for_text (socket target wanted : text) (options : WaitOptions) :
    Failing WaitResult :=
  d ← new_deadline (wait_timeout options);
  let lookup := MkWait [] d (match_budget_option options) [] [] false false in
  reply ← run_before_deadline options lookup (format_command target (format_request lookup_fields));
  match reply with
  | Unexpected e => Done (Unexpected e)
  | Value None =>
      ms ← elapsed_of d;
      Done (Value (MkWaitResult false false true false ms pane_lookup [] false [] []))
  | Value (Some reply) =>
      match resolved reply with
      | None => Done (Unexpected (unresolved target))
      | Some (pane, session) =>
          perform options socket wanted (wait_fuel options) (MkWait pane d (match_budget_option options) [] session true false)
      end
  end.

(** * What holds whatever is answered *)

Inductive WaitEvent :=
  | Clocked (t : Z)
  | Asked (command : list text) (allowed : Z) (answer : expected CommandFailure text)
  | Cancelling (given : bool)
  | Echoed (pane : text) (l : list text)
  | Pending (pane : text) (b : bool)
  | Progressed (ms : Z) (path : WaitPath)
  | Slept (ms : Z)
  | Connected (o : ConnectOptions) (ok : bool)
  | Observed
  | Notified (until : Z) (l : list Notification)
  | Closed.

(** [wp p Q done]: if [done] happened before [p], then however the world answers, [p] ends with a
    value and a trace that [Q] holds of, or out of fuel. *)
Fixpoint wp {A} (p : Waits A) (Q : list WaitEvent -> A -> Prop) (tr : list WaitEvent) : Prop :=
  match p with
  | Done a => Q tr a
  | Clock k => forall t, wp (k t) Q (tr ++ [Clocked t])
  | Ask c ms k => forall r, wp (k r) Q (tr ++ [Asked c ms r])
  | GaveUp k => forall b, wp (k b) Q (tr ++ [Cancelling b])
  | Echoes pane k => forall l, wp (k l) Q (tr ++ [Echoed pane l])
  | InputPending pane k => forall b, wp (k b) Q (tr ++ [Pending pane b])
  | Progress ms path k => wp k Q (tr ++ [Progressed ms path])
  | SleepFor ms k => wp k Q (tr ++ [Slept ms])
  | Connect o k => forall ok, wp (k ok) Q (tr ++ [Connected o ok])
  | ObserveClient k => wp k Q (tr ++ [Observed])
  | Notifications until k => forall l, wp (k l) Q (tr ++ [Notified until l])
  | Close k => wp k Q (tr ++ [Closed])
  | Exhausted => True
  end.

Lemma wp_then {A B} (p : Waits A) (f : A -> Waits B) Q tr :
  wp p (fun tr a => wp (f a) Q tr) tr -> wp (p ≫= f) Q tr.
Proof. revert tr. induction p; intros tr; cbn; eauto. Qed.

Lemma wp_weaken {A} (p : Waits A) (Q R : list WaitEvent -> A -> Prop) tr :
  (forall tr a, Q tr a -> R tr a) -> wp p Q tr -> wp p R tr.
Proof. intros HQ. revert tr. induction p; intros tr; cbn; eauto. Qed.

(** ** The world that answers *)

Class World (W : Type) := {
  now : W -> Z * W;
  ask : list text -> Z -> W -> expected CommandFailure text * W;
  given_up : W -> bool * W;
  echoes : text -> W -> list text * W;
  input_pending : text -> W -> bool * W;
  progress : Z -> WaitPath -> W -> W;
  sleep : Z -> W -> W;
  connect : ConnectOptions -> W -> bool * W;
  observe : W -> W;
  notifications : Z -> W -> list Notification * W;
  close : W -> W;
}.

(** [None]: out of fuel. *)
Fixpoint exec {W A} `{!World W} (p : Waits A) (w : W) : option A * W :=
  match p with
  | Done a => (Some a, w)
  | Clock k => let '(t, w) := now w in exec (k t) w
  | Ask c ms k => let '(r, w) := ask c ms w in exec (k r) w
  | GaveUp k => let '(b, w) := given_up w in exec (k b) w
  | Echoes pane k => let '(l, w) := echoes pane w in exec (k l) w
  | InputPending pane k => let '(b, w) := input_pending pane w in exec (k b) w
  | Progress ms path k => exec k (progress ms path w)
  | SleepFor ms k => exec k (sleep ms w)
  | Connect o k => let '(ok, w) := connect o w in exec (k ok) w
  | ObserveClient k => exec k (observe w)
  | Notifications until k => let '(l, w) := notifications until w in exec (k l) w
  | Close k => exec k (close w)
  | Exhausted => (None, w)
  end.

Lemma exec_answers {W A} `{!World W} (p : Waits A) Q tr (w : W) a :
  wp p Q tr -> (exec p w).1 = Some a -> exists es, Q (tr ++ es) a.
Proof.
  revert tr w. induction p as [x|k IH|c ms k IH|k IH|pane k IH|pane k IH|ms path k IH|ms k IH|o k IH|k IH|u k IH|k IH|];
    intros tr w H E; cbn in *; repeat case_match; simplify_eq;
    try (edestruct IH as [es Hes]; [by apply H || exact H|exact E|]; rewrite <-app_assoc in Hes; by eexists).
  exists []. by rewrite app_nil_r.
Qed.

(** * How a wait ends *)

Section ends.
Variable options : WaitOptions.
Variable socket wanted : text.
Variable pane : text.
Variable d : Deadline.

Definition alive_command : list text := format_command pane (txt "#{pane_id}").
Definition cursor_command : list text := format_command pane (txt "#{cursor_y} #{pane_height}").

(** What a wait asks about its pane: its screen, its cursor and its session. *)
Definition reads : list (list text) :=
  [capture_command pane; cursor_command; format_command pane (txt "#{session_name}")].

(** Every command reads, and is allowed what was left of the budget just before it; the
    question whether the pane is alive has its own two seconds. *)
Inductive timely : list WaitEvent -> Prop :=
  | timely_nil : timely []
  | timely_other tr e : timely tr -> (forall c ms r, e <> Asked c ms r) -> timely (tr ++ [e])
  | timely_ask tr c t ms r :
      timely tr -> c ∈ reads -> remaining_at d t = Some ms -> timely (tr ++ [Clocked t; Asked c ms r])
  | timely_probe tr r : timely tr -> timely (tr ++ [Asked alive_command 2000 r]).

(** ** What the pane showed *)

(** The cursor read since the last capture, and the last capture that showed anything, with
    the cursor that was read just before it. *)
Definition View : Type := option PaneCursor * (text * option PaneCursor).

Definition view_step (v : View) (e : WaitEvent) : View :=
  match e with
  | Asked c _ answer =>
      if bool_decide (c = cursor_command) then
        (match answer with Value s => parse_cursor s | Unexpected _ => None end, v.2)
      else if bool_decide (c = capture_command pane) then
        (None, match answer with Value [] | Unexpected _ => v.2 | Value s => (s, v.1) end)
      else v
  | Cancelling true => (None, v.2)
  | _ => v
  end.

Definition view (tr : list WaitEvent) : View := foldl view_step (None, ([], None)) tr.

(** The last screen, with its cursor; nothing before the first capture. *)
Definition latest (tr : list WaitEvent) : text * option PaneCursor := (view tr).2.

(** No cursor was read that no capture followed. *)
Definition rests (tr : list WaitEvent) : Prop := (view tr).1 = None.

(** The budget is spent: the clock is at the deadline, or a capture ran out of what it was
    allowed. *)
Definition spent (tr : list WaitEvent) : Prop :=
  (exists t, Clocked t ∈ tr /\ (deadline_ d <= t)%Z) \/
  exists ms f, Asked (capture_command pane) ms (Unexpected f) ∈ tr /\ failure_kind f = Command.timeout.

(** Where the last screen is judged at the deadline without the cursor it was read with. *)
Definition drops_cursor (path : WaitPath) : Prop :=
  path ∈ [capture_before_control; capture_after_control_connect; capture_polling].

(** The screen and the cursor a wait holds: the last ones, or the last screen alone. *)
Definition shows (tr : list WaitEvent) (path : WaitPath) (s : text) (cursor : option PaneCursor) : Prop :=
  s = (latest tr).1 /\ (cursor = (latest tr).2 \/ cursor = None /\ drops_cursor path).

(** What the caller's callbacks were asked for one judgment, and answered. *)
Definition consulted (typed : list text) (pending : bool) : list WaitEvent :=
  (if has_sent options then [Echoed pane typed] else []) ++
  (if has_input_pending options then [Pending pane pending] else []).

(** Events that come after the judgment that ends a wait. *)
Definition settled_event (e : WaitEvent) : Prop := (exists t, e = Clocked t) \/ e = Closed.

(** The last thing the wait did was to judge [s], the screen it captured last: [b] is whether
    it confirms, with the echoes and the pending input that the caller told of for this
    judgment, nothing echoed where it has no such callback, and input pending exactly when
    something was; and with the cursor read just before that screen, which only a deadline
    on some paths drops. *)
Definition judged (tr : list WaitEvent) (path : WaitPath) (s : text) (b : bool) : Prop :=
  exists before typed pending cursor after,
    tr = before ++ consulted typed pending ++ after /\ Forall settled_event after /\
    (has_sent options = false -> typed = []) /\
    (has_input_pending options = false -> pending = negb (bool_decide (typed = []))) /\
    s = (latest before).1 /\
    (cursor = (latest before).2 \/ cursor = None /\ drops_cursor path /\ spent before) /\
    confirms_at s wanted typed cursor pending = b.

(** The server said it is gone, or the pane did not answer with its id. *)
Definition gone (tr : list WaitEvent) (reason : text) : Prop :=
  server_gone reason = true \/
  exists answer, Asked alive_command 2000 answer ∈ tr /\
    match answer with
    | Value s => trim_back line_ends s <> pane
    | Unexpected e => failure_kind e <> Command.timeout /\ failure_kind e <> cancelled
    end.

(** Each end of a wait is one thing, with the text the pane showed last: a match that
    confirms, a spent budget with nothing confirmed, or a pane that is gone; and a failure
    is the caller's own cancellation, the budget of work, an empty capture, or what tmux
    answered. *)
Definition outcome (tr : list WaitEvent) (r : expected CommandFailure WaitResult) : Prop :=
  match r with
  | Value res =>
      result_pane res = pane /\ result_text res = (latest tr).1 /\
      match matched res, result_timed_out res, result_pane_died res with
      | true, false, false =>
          judged tr (result_path res) (result_text res) true /\ present_unconfirmed res = false
      | false, true, false =>
          spent tr /\ (wanted = [] \/ judged tr (result_path res) (result_text res) false) /\
          (present_unconfirmed res = true <-> wanted <> [] /\ found wanted (result_text res) = true)
      | false, false, true => gone tr (reason res) /\ present_unconfirmed res = false
      | _, _, _ => False
      end
  | Unexpected f =>
      (f = cancelled_failure /\ Cancelling true ∈ tr) \/ f = work_limit \/ f = no_output \/
      exists c ms, Asked c ms (Unexpected f) ∈ tr
  end.

Definition well_ended (tr : list WaitEvent) (r : expected CommandFailure WaitResult) : Prop :=
  timely tr /\ outcome tr r.

(** ** What a wait keeps *)

(** What is known of a wait after a trace. *)
Record holds (tr : list WaitEvent) (w : Wait) : Prop := {
  holds_timely : timely tr;
  holds_pane : wait_pane w = pane;
  holds_deadline : deadline w = d;
  holds_sent : has_sent options = false -> sent w = [];
}.

(** The last screen is still the last, and no cursor was left over. *)
Definition keeps (v v' : View) : Prop := v'.2 = v.2 /\ (v.1 = None -> v'.1 = None).

(** [tr'] follows [tr]. *)
Definition follows (tr tr' : list WaitEvent) : Prop := tr ⊆ tr'.

(** A later point of the same wait, with no screen captured since. *)
Definition later (tr tr' : list WaitEvent) (w : Wait) : Prop :=
  follows tr tr' /\ holds tr' w /\ keeps (view tr) (view tr').

(** A point between two captures, where the wait holds a screen and a cursor. *)
Definition settled (tr : list WaitEvent) (w : Wait) (path : WaitPath) (s : text) (cursor : option PaneCursor) : Prop :=
  holds tr w /\ rests tr /\ shows tr path s cursor.

Definition unasked (e : WaitEvent) : Prop := forall c ms r, e <> Asked c ms r.

Lemma view_snoc tr e : view (tr ++ [e]) = view_step (view tr) e.
Proof. unfold view. by rewrite foldl_app. Qed.

Lemma view_unasked v e : unasked e -> keeps v (view_step v e).
Proof. intros He. destruct e as [|c ms r|[|]| | | | | | | |]; try done. by destruct (He c ms r). Qed.

Lemma view_other v c ms r : c <> cursor_command -> c <> capture_command pane -> view_step v (Asked c ms r) = v.
Proof. intros H1 H2. unfold view_step. by rewrite !bool_decide_false by done. Qed.

Lemma view_cursor v ms r :
  view_step v (Asked cursor_command ms r) =
    (match r with Value s => parse_cursor s | Unexpected _ => None end, v.2).
Proof. unfold view_step. by rewrite bool_decide_true by done. Qed.

Lemma view_capture v ms r :
  view_step v (Asked (capture_command pane) ms r) =
    (None, match r with Value [] | Unexpected _ => v.2 | Value s => (s, v.1) end).
Proof. unfold view_step. by rewrite bool_decide_false, bool_decide_true by done. Qed.

Lemma alive_other : alive_command <> cursor_command /\ alive_command <> capture_command pane.
Proof. done. Qed.
Lemma session_other :
  format_command pane (txt "#{session_name}") <> cursor_command /\
  format_command pane (txt "#{session_name}") <> capture_command pane.
Proof. done. Qed.

Lemma keeps_refl v : keeps v v.
Proof. by split. Qed.
Lemma keeps_trans v v' v'' : keeps v v' -> keeps v' v'' -> keeps v v''.
Proof. intros [H1 H2] [H3 H4]. split; [congruence | auto]. Qed.

Lemma timely_snoc tr e : timely tr -> unasked e -> timely (tr ++ [e]).
Proof. by constructor. Qed.

Lemma holds_grow tr e w : holds tr w -> unasked e -> holds (tr ++ [e]) w.
Proof. intros [H1 H2 H3 H4] He. by split; [apply timely_snoc|..]. Qed.

Lemma holds_ask tr c t ms r w :
  holds tr w -> c ∈ reads -> remaining_at d t = Some ms -> holds ((tr ++ [Clocked t]) ++ [Asked c ms r]) w.
Proof. intros [H1 H2 H3 H4] Hc Hms. rewrite <-app_assoc. by split; [apply timely_ask|..]. Qed.

Lemma follows_snoc tr tr' e : follows tr tr' -> follows tr (tr' ++ [e]).
Proof. unfold follows. set_solver. Qed.

Lemma later_refl tr w : holds tr w -> later tr tr w.
Proof. intros H. split_and!; [done | done | apply keeps_refl]. Qed.
Lemma later_holds tr tr' w : later tr tr' w -> holds tr' w.
Proof. by intros (_ & H & _). Qed.
Lemma later_follows tr tr' w : later tr tr' w -> follows tr tr'.
Proof. by intros (H & _ & _). Qed.
Lemma later_trans tr tr' tr'' w w' : later tr tr' w -> later tr' tr'' w' -> later tr tr'' w'.
Proof.
  unfold later, follows. intros (H1 & _ & H2) (H3 & H4 & H5).
  split_and!; [set_solver | done | by eapply keeps_trans].
Qed.
Lemma later_snoc tr tr' e w : later tr tr' w -> unasked e -> later tr (tr' ++ [e]) w.
Proof.
  intros (H1 & H2 & H3) He. split_and!; [by apply follows_snoc | by apply holds_grow |].
  rewrite view_snoc. eapply keeps_trans; [done | by apply view_unasked].
Qed.
Lemma later_probe tr tr' r w : later tr tr' w -> later tr (tr' ++ [Asked alive_command 2000 r]) w.
Proof.
  intros (H1 & [H2 ? ? ?] & H3). split_and!; [by apply follows_snoc | by split; [apply timely_probe|..] |].
  rewrite view_snoc, view_other by apply alive_other. done.
Qed.
Lemma later_budget tr tr' n w : later tr tr' w -> later tr tr' (set_budget n w).
Proof. intros (H1 & [] & H3). by split_and!. Qed.

Lemma later_latest tr tr' w : later tr tr' w -> latest tr' = latest tr.
Proof. by intros (_ & _ & [H _]). Qed.
Lemma later_rests tr tr' w : later tr tr' w -> rests tr -> rests tr'.
Proof. intros (_ & _ & [_ H]). exact H. Qed.
Lemma later_shows tr tr' w path s cursor : later tr tr' w -> shows tr path s cursor -> shows tr' path s cursor.
Proof. intros H. unfold shows. by rewrite (later_latest _ _ _ H). Qed.
Lemma later_settled tr tr' w w' path s cursor :
  later tr tr' w' -> settled tr w path s cursor -> settled tr' w' path s cursor.
Proof.
  intros H (_ & H2 & H3).
  split_and!; [by eapply later_holds | by eapply later_rests | by eapply later_shows].
Qed.

(** A wait that holds the last screen with its cursor may drop it, or hand it on. *)
Lemma settled_latest tr w path path' s cursor :
  settled tr w path s cursor -> cursor = (latest tr).2 -> settled tr w path' s cursor.
Proof. intros (H1 & H2 & H3 & _) H. split_and!; auto. split; auto. Qed.
Lemma settled_drop tr w path path' s cursor :
  settled tr w path s cursor -> drops_cursor path' -> settled tr w path' s None.
Proof. intros (H1 & H2 & H3 & _) H. split_and!; auto. split; auto. Qed.

Lemma spent_follows tr tr' : spent tr -> follows tr tr' -> spent tr'.
Proof.
  intros [(t & H & ?)|(ms & f & H & ?)] Hf; [left; exists t; auto | right; exists ms, f; auto].
Qed.

Lemma gone_follows tr tr' reason : gone tr reason -> follows tr tr' -> gone tr' reason.
Proof. intros [?|(a & H & ?)] Hf; [by left | right; exists a; auto]. Qed.

Lemma remaining_spent t : remaining_at d t = None -> (deadline_ d <= t)%Z.
Proof. unfold remaining_at. destruct (Z.leb_spec (deadline_ d - t) 0); [lia | done]. Qed.

Lemma last_in (tr : list WaitEvent) e : e ∈ tr ++ [e].
Proof. rewrite elem_of_app, elem_of_cons. auto. Qed.

(** ** The calls *)

Lemma wp_gave_up tr w Q :
  holds tr w ->
  (forall tr' b, later tr tr' w ->
     (b = true -> Cancelling true ∈ tr' /\ rests tr') -> (b = false -> view tr' = view tr) -> Q tr' b) ->
  wp (gave_up options) Q tr.
Proof.
  intros Hw HQ. pose proof (later_refl tr w Hw) as Hr. unfold gave_up. destruct (has_cancelled options); cbn.
  - intros b. apply HQ; [by apply later_snoc|..]; intros ->; [split; [apply last_in|]; unfold rests|]; by rewrite view_snoc.
  - by apply HQ.
Qed.

(** What a command before the deadline answers, and what it does to the view of the pane. *)
Definition replied_to (tr tr' : list WaitEvent) (c : list text) (r : expected CommandFailure (option text)) : Prop :=
  match r with
  | Unexpected e =>
      ((e = cancelled_failure /\ Cancelling true ∈ tr') \/ exists ms, Asked c ms (Unexpected e) ∈ tr') /\
      (latest tr' = latest tr \/ e = cancelled_failure /\ c = capture_command pane) /\
      (rests tr -> rests tr')
  | Value None =>
      keeps (view tr) (view tr') /\
      ((exists t, Clocked t ∈ tr' /\ (deadline_ d <= t)%Z) \/
       exists ms f, Asked c ms (Unexpected f) ∈ tr' /\ failure_kind f = Command.timeout)
  | Value (Some s) => view tr' = view_step (view tr) (Asked c 0 (Value s))
  end.

Lemma view_refused v c ms f : keeps v (view_step v (Asked c ms (Unexpected f))).
Proof. cbn. split; repeat case_bool_decide; done. Qed.

Lemma view_elsewhere v c ms r : c = capture_command pane \/ (view_step v (Asked c ms r)).2 = v.2.
Proof. destruct (decide (c = capture_command pane)); [by left | right]. cbn. rewrite (bool_decide_false _ n). by case_bool_decide. Qed.

Lemma wp_run tr w c Q :
  holds tr w -> c ∈ reads ->
  (forall tr' r, follows tr tr' -> holds tr' w -> replied_to tr tr' c r -> Q tr' r) ->
  wp (run_before_deadline options w c) Q tr.
Proof.
  intros Hw Hc HQ. apply wp_then, (wp_gave_up _ w); [done|]. intros tr1 given H1 Hg Hn. destruct given; cbn.
  { apply HQ; [by eapply later_follows | by eapply later_holds|].
    split_and!; [left; split; [done | by apply Hg] | left; by eapply later_latest | intros _; by apply Hg]. }
  specialize (Hn eq_refl). intros t.
  assert (later tr (tr1 ++ [Clocked t]) w) as Ht by by apply later_snoc.
  destruct (remaining_at _ t) as [ms|] eqn:Hms; cbn; rewrite (holds_deadline tr w Hw) in Hms.
  2:{ apply HQ; [by eapply later_follows | by eapply later_holds|]. split; [by apply Ht|].
      left. exists t. split; [apply last_in | by apply remaining_spent]. }
  intros r. set (tr2 := (tr1 ++ [Clocked t]) ++ [Asked c ms r]).
  assert (follows tr tr2) as Hf by (apply follows_snoc; by eapply later_follows).
  assert (holds tr2 w) as Hh by (apply holds_ask; [by eapply later_holds | done..]).
  assert (view tr2 = view_step (view tr) (Asked c ms r)) as Hv by (unfold tr2; rewrite !view_snoc; by rewrite Hn).
  destruct r as [s|e]; cbn [wp].
  - apply wp_then, (wp_gave_up _ w); [done|]. intros tr3 given H3 Hg' Hn'. cbn [wp].
    apply HQ; [pose proof (later_follows _ _ _ H3); unfold follows in *; set_solver | by eapply later_holds|].
    destruct given; [|by etransitivity; [apply Hn'|]].
    split_and!; [left; split; [done | by apply Hg'] | | intros _; by apply Hg'].
    unfold latest. rewrite (proj1 (proj2 (proj2 H3))), Hv.
    destruct (view_elsewhere (view tr) c ms (Value s)); auto.
  - pose proof (view_refused (view tr) c ms e) as Hk. rewrite <-Hv in Hk.
    apply HQ; [done..|]. case_bool_decide.
    + split; [done|]. right. exists ms, e. split; [apply last_in | done].
    + split_and!; [right; exists ms; apply last_in | left | ]; apply Hk.
Qed.

(** A failure a wait may end with. *)
Definition failed_well (tr : list WaitEvent) (f : CommandFailure) : Prop := outcome tr (Unexpected f).

(** A capture becomes the latest screen, with the cursor read before it; nothing else does. *)
Lemma wp_grid tr w Q :
  holds tr w -> rests tr ->
  (forall tr' r, follows tr tr' -> holds tr' w ->
     match r with
     | Unexpected e => failed_well tr' e /\ (latest tr' = latest tr \/ e = cancelled_failure)
     | Value None => spent tr' /\ latest tr' = latest tr
     | Value (Some (cursor, s)) => latest tr' = (s, cursor) /\ rests tr' /\ s <> []
     end -> Q tr' r) -> wp (grid_before_deadline options w) Q tr.
Proof.
  intros Hw Hrest HQ. apply wp_then. unfold cursor_before_deadline. apply wp_then, (wp_run _ w); [done | |].
  { rewrite (holds_pane tr w Hw). right; left. }
  intros tr1 r1 F1 H1 R1. cbn [wp]. rewrite (holds_pane tr w Hw) in R1. fold cursor_command in R1.
  set (cursor := match r1 with Value (Some s) => parse_cursor s | _ => None end).
  assert (view tr1 = (cursor, latest tr)) as Hcur.
  { rewrite (surjective_pairing (view tr1)). unfold cursor. destruct r1 as [[s|]|e]; cbn [replied_to] in R1.
    - by rewrite R1, view_cursor.
    - destruct R1 as [[K1 K2] _]. by rewrite K1, K2.
    - destruct R1 as (_ & [E|[_ E]] & K); [|done]. by f_equal; [apply K|]. }
  apply wp_then. unfold capture_before_deadline. apply wp_then, (wp_run _ w); [done | |].
  { rewrite (holds_pane tr w Hw). left. }
  intros tr2 r2 F2 H2 R2. cbn [wp]. rewrite (holds_pane tr w Hw) in R2.
  assert (follows tr tr2) as F3 by (unfold follows in *; set_solver).
  apply HQ; [done..|]. assert (latest tr1 = latest tr) as E1 by (unfold latest at 1; by rewrite Hcur).
  destruct r2 as [[[|c s]|]|e]; cbn [replied_to] in R2.
  - split; [right; right; by left|]. left. unfold latest at 1. by rewrite R2, view_capture.
  - unfold latest, rests. rewrite R2, view_capture, Hcur. by split_and!.
  - destruct R2 as [[K _] R2]. split; [|unfold latest at 1; by rewrite K].
    destruct R2 as [?|?]; [by left | by right].
  - destruct R2 as (R2 & K & _). split.
    + destruct R2 as [?|[ms ?]]; [by left|]. right; right; right. eauto.
    + destruct K as [K|[-> _]]; [left; congruence | by right].
Qed.

Lemma judged_snoc tr path s b e : judged tr path s b -> settled_event e -> judged (tr ++ [e]) path s b.
Proof.
  intros (before & typed & pending & cursor & after & -> & Ha & H) He.
  exists before, typed, pending, cursor, (after ++ [e]). rewrite <-!app_assoc. split; [done|].
  split; [|exact H]. apply Forall_app. by split; [|apply Forall_singleton].
Qed.

(** A wait that judges the screen it holds has asked its caller for it. *)
Lemma wp_confirms tr w path s cursor Q :
  holds tr w -> shows tr path s cursor -> (cursor = (latest tr).2 \/ spent tr) ->
  (forall tr' b w', later tr tr' w' -> match_budget w' = match_budget w -> judged tr' path s b -> Q tr' (b, w')) ->
  wp (confirms options wanted w s cursor) Q tr.
Proof.
  intros Hw [Es Hc] Hsp HQ.
  assert (cursor = (latest tr).2 \/ cursor = None /\ drops_cursor path /\ spent tr) as Hc' by naive_solver.
  unfold confirms. apply wp_then.
  assert (forall typed tr1 w1, tr1 = tr ++ (if has_sent options then [Echoed pane typed] else []) ->
    later tr tr1 w1 -> sent w1 = typed -> (has_sent options = false -> typed = []) -> match_budget w1 = match_budget w ->
    wp (pending ← (if has_input_pending options then InputPending (wait_pane w1) Done
             else Done (negb (bool_decide (sent w1 = []))));
        Done (confirms_at s wanted (sent w1) cursor pending, w1)) Q tr1) as Hp.
  { intros typed tr1 w1 E1 H1 E2 Hn Hb. rewrite E2.
    assert (forall pending tr2, tr2 = tr ++ consulted typed pending ->
      (has_input_pending options = false -> pending = negb (bool_decide (typed = []))) ->
      judged tr2 path s (confirms_at s wanted typed cursor pending)) as Hj.
    { intros pending tr2 -> Hp. exists tr, typed, pending, cursor, []. by rewrite app_nil_r. }
    unfold consulted in Hj. destruct (has_input_pending options) eqn:Hi; cbn [mbind Waits_bind wp].
    - intros p. rewrite (holds_pane _ _ (later_holds _ _ _ H1)).
      apply HQ; [by apply later_snoc | done |]. apply Hj; [|done]. by rewrite app_assoc, <-E1.
    - apply HQ; [done..|]. apply Hj; [|done]. by rewrite app_nil_r. }
  destruct (has_sent options) eqn:Hs; cbn [wp].
  - intros l. rewrite (holds_pane _ _ Hw). apply (Hp l); [done | | done..].
    split_and!; [by apply follows_snoc | | rewrite view_snoc; by apply view_unasked].
    destruct Hw as [H1 H2 H3 H4]. split; [by apply timely_snoc | done | done |]. by rewrite Hs.
  - apply (Hp []); [by rewrite app_nil_r | by apply later_refl | by apply (holds_sent tr w Hw) | done..].
Qed.

Lemma wp_elapsed tr w Q :
  holds tr w -> (forall t ms, later tr (tr ++ [Clocked t]) w -> Q (tr ++ [Clocked t]) ms) ->
  wp (elapsed_of (deadline w)) Q tr.
Proof. intros Hw HQ. cbn. intros t. apply HQ. by apply later_snoc; [apply later_refl|]. Qed.

Lemma clocked_settled t : settled_event (Clocked t).
Proof. left. eauto. Qed.

Lemma wp_matched tr w path s Q :
  holds tr w -> s = (latest tr).1 -> judged tr path s true ->
  (forall tr' r, well_ended tr' (Value r) -> Q tr' r) ->
  wp (matched_result w path s) Q tr.
Proof.
  intros Hw Hs Hj HQ. apply wp_then, wp_elapsed; [done|]. intros t ms H. cbn. apply HQ.
  split; [by eapply later_holds|]. cbn. rewrite (later_latest _ _ _ H).
  split_and!; [by apply holds_pane with tr | done | by apply judged_snoc, clocked_settled | done].
Qed.

Lemma wp_timed_out tr w path s cursor Q :
  holds tr w -> shows tr path s cursor -> spent tr ->
  (forall tr' r, well_ended tr' (Value r) -> Q tr' r) ->
  wp (timed_out options wanted w path s cursor) Q tr.
Proof.
  intros Hw Hs Hsp HQ. unfold timed_out. apply wp_then. unfold confirm_when.
  assert (forall tr1 w1 u, later tr tr1 w1 -> wanted = [] \/ judged tr1 path s false ->
    (u = true <-> wanted <> [] /\ found wanted s = true) ->
    wp (ms ← elapsed_of (deadline w1);
        Done (MkWaitResult false (at_entry w1) true u ms path
            (wait_pane w1) false [] s)) Q tr1) as Hno.
  { intros tr1 w1 u H1 Hj Hu. apply wp_then, wp_elapsed; [by eapply later_holds|]. intros t ms H2. cbn.
    apply HQ. split; [by eapply later_holds|]. cbn.
    rewrite (later_latest _ _ _ H2), (later_latest _ _ _ H1). split_and!.
    - by eapply holds_pane, later_holds.
    - apply Hs.
    - eapply spent_follows; [done|]. by apply follows_snoc, (later_follows _ _ w1).
    - destruct Hj; [by left | right; by apply judged_snoc, clocked_settled].
    - done. }
  destruct (decide (wanted = [])) as [He|He].
  - rewrite bool_decide_true by done. cbn [wp negb andb].
    apply Hno; [by apply later_refl | by left | naive_solver].
  - rewrite bool_decide_false by done. cbn [negb andb]. apply (wp_confirms _ _ path); [done..|by right|].
    intros tr1 b w1 H1 Hb Hj. destruct b; [|apply Hno; [done | by right | naive_solver]].
    apply wp_matched; [by eapply later_holds | | done | done].
    rewrite (later_latest _ _ _ H1). apply Hs.
Qed.

Lemma wp_answered tr (p : Waits WaitResult) Q :
  wp p (fun tr' r => Q tr' (Value r)) tr -> wp (answered p) Q tr.
Proof. intros H. by apply wp_then. Qed.

(** The question whether the pane is alive, with what its answer shows. *)
Lemma wp_pane_gone tr w Q :
  holds tr w ->
  (forall tr' b, later tr tr' w -> (b = true -> forall reason, gone tr' reason) -> Q tr' b) ->
  wp (pane_gone w) Q tr.
Proof.
  intros Hw HQ. unfold pane_gone. rewrite (holds_pane tr w Hw). intros r. apply HQ.
  - by apply later_probe, later_refl.
  - intros Hb reason. right. exists r. split; [apply last_in|]. destruct r as [s|e].
    + by apply negb_true_iff, bool_decide_eq_false in Hb.
    + apply andb_true_iff in Hb as [H1%negb_true_iff%bool_decide_eq_false H2%negb_true_iff%bool_decide_eq_false].
      done.
Qed.

Lemma wp_pane_died tr w path last reason Q :
  holds tr w -> last = (latest tr).1 -> gone tr reason ->
  (forall tr' r, well_ended tr' (Value r) -> Q tr' r) -> wp (pane_died w path last reason) Q tr.
Proof.
  intros Hw Hk Hg HQ. apply wp_then, wp_elapsed; [done|]. intros t ms H. cbn. apply HQ.
  split; [by eapply later_holds|]. cbn. rewrite (later_latest _ _ _ H).
  split_and!; [by apply holds_pane with tr | done | | done].
  eapply gone_follows; [done | by eapply later_follows].
Qed.

Lemma failed_later tr tr' w f : failed_well tr f -> later tr tr' w -> failed_well tr' f.
Proof.
  intros [[-> H]|[->|[->|(c & ms & H)]]] [Hf _]; [left; auto | by right; left | by right; right; left |].
  right; right; right. exists c, ms. by apply Hf.
Qed.

Lemma wp_capture_failed tr w path f last Q :
  holds tr w -> (f = cancelled_failure \/ last = (latest tr).1) -> failed_well tr f ->
  (forall tr' r, well_ended tr' r -> Q tr' r) -> wp (capture_failed w path f last) Q tr.
Proof.
  intros Hw Hk Hf HQ. unfold capture_failed.
  destruct Hk as [->|Hk]; [apply HQ; by split; [apply Hw|]|].
  destruct (_ || _); [apply HQ; split; [by apply Hw | done]|]. apply wp_then.
  assert (forall tr' b, later tr tr' w -> (b = true -> gone tr' (diagnostic f)) ->
    wp (if (b : bool) then answered (pane_died w path last (diagnostic f)) else Done (Unexpected f)) Q tr') as Hend.
  { intros tr' b H Hg. pose proof (later_holds _ _ _ H).
    destruct b; [|apply HQ; split; [by eapply holds_timely | by eapply failed_later]].
    apply wp_answered, wp_pane_died; [done | by rewrite (later_latest _ _ _ H) | by apply Hg | eauto]. }
  destruct (server_gone (diagnostic f)) eqn:Hs; [apply Hend; [by apply later_refl | by left] |].
  apply wp_pane_gone; [done|]. intros tr' b H Hg. by apply Hend; auto.
Qed.

(** ** The loops *)

(** What one look settles: a wait that ended well, or one that goes on with a new capture and
    less work to do. *)
Definition looked_well (tr' : list WaitEvent) (w : Wait) (l : Looked) : Prop :=
  match l with
  | Ends r => well_ended tr' r
  | GoesOn w' s cursor =>
      (forall path, settled tr' w' path s cursor) /\ cursor = (latest tr').2 /\
      (match_budget w' < match_budget w)%N
  end.

Lemma within_budget_spec w s b w' :
  within_budget wanted w s = Value (b, w') ->
  w' = set_budget (match_budget w') w /\ b = found wanted s /\
  (match_budget w' + N.of_nat (length s) <= match_budget w)%N.
Proof.
  unfold within_budget. destruct (_ || _) eqn:E; [done|]. intros [= <- <-].
  apply orb_false_iff in E as [E1%N.ltb_ge E2%N.ltb_ge]. cbn. split_and!; [done..|lia].
Qed.

Lemma within_budget_limit w s e : within_budget wanted w s = Unexpected e -> e = work_limit.
Proof. unfold within_budget. destruct (_ || _); [|done]. by intros [= <-]. Qed.

Lemma wp_expired tr w d' Q :
  holds tr w -> d' = d ->
  (forall tr' b, later tr tr' w -> (b = true -> spent tr') -> Q tr' b) -> wp (expired d') Q tr.
Proof.
  intros Hw -> HQ t. apply HQ; [by apply later_snoc; [apply later_refl|]|].
  intros Hb%Z.leb_le. left. exists t. split; [apply last_in | done].
Qed.
Lemma wp_left tr w d' Q :
  holds tr w -> d' = d ->
  (forall tr' ms, later tr tr' w -> (ms = None -> spent tr') -> Q tr' ms) -> wp (remaining d') Q tr.
Proof.
  intros Hw -> HQ t. apply HQ; [by apply later_snoc; [apply later_refl|]|].
  intros Hb%remaining_spent. left. exists t. split; [apply last_in | done].
Qed.
Lemma wp_now tr w Q :
  holds tr w -> (forall tr' t, later tr tr' w -> Q tr' t) -> wp clock_now Q tr.
Proof. intros Hw HQ t. apply HQ. by apply later_snoc; [apply later_refl|]. Qed.

Lemma wp_look tr w path last cursor Q :
  settled tr w path last cursor ->
  (forall tr' l, looked_well tr' w l -> Q tr' l) -> wp (look options wanted w path last cursor) Q tr.
Proof.
  intros (Hw & Hrest & Hshow) HQ. apply wp_then, wp_grid; [done..|]. intros tr1 r F1 H1 Hr.
  assert (forall tr2 r2, well_ended tr2 r2 -> wp (Done (Ends r2)) Q tr2) as Hend by (intros; by apply HQ).
  destruct r as [[[c s]|]|e].
  - destruct Hr as (El & Hrest1 & Hne). apply wp_then, (wp_expired _ w); [done | by eapply holds_deadline |].
    intros tr2 late L2 Hlate. pose proof (later_holds _ _ _ L2) as H2.
    assert (latest tr2 = (s, c)) as E2 by (by rewrite (later_latest _ _ _ L2)).
    assert (shows tr2 path s c) as Hs by (unfold shows; rewrite E2; auto).
    destruct late; [apply wp_then, wp_answered, wp_timed_out; eauto|].
    destruct (within_budget wanted w s) as [[present w1]|e] eqn:Hb.
    2:{ apply Hend. split; [apply H2|]. apply within_budget_limit in Hb as ->. by right; left. }
    apply within_budget_spec in Hb as (Ew & _ & Hlt). rewrite Ew.
    set (w2 := set_budget (match_budget w1) w).
    assert (match_budget w2 < match_budget w)%N as Hless by (unfold w2; destruct s; [done | cbn in *; lia]).
    assert (later tr2 tr2 w2) as L3 by by apply later_budget, later_refl.
    apply wp_then.
    assert (forall tr' b w', later tr2 tr' w' -> match_budget w' = match_budget w2 ->
      (b = true -> judged tr' path s true) ->
      wp (if (b : bool) then r ← answered (matched_result w' path s); Done (Ends r) else Done (GoesOn w' s c)) Q tr')
      as Hj.
    { intros tr' b w' L Ew' Hb. pose proof (later_holds _ _ _ L) as Hh.
      assert (latest tr' = (s, c)) as E' by (by rewrite (later_latest _ _ _ L)). destruct b.
      - apply wp_then, wp_answered, wp_matched; [done | by rewrite E' | auto | eauto].
      - apply HQ. split_and!; [|by rewrite E' | by rewrite Ew'].
        intros path'. split_and!; [done | exact (later_rests _ _ _ L (later_rests _ _ _ L2 Hrest1)) |].
        unfold shows. rewrite E'. auto. }
    destruct present; unfold confirm_when.
    + apply (wp_confirms _ _ path); [by eapply later_holds | done | by rewrite E2; left|].
      intros tr' b w' L Ew' Hjd. cbv beta iota. apply Hj; [done..|]. by intros ->.
    + by apply (Hj _ false w2 L3 eq_refl).
  - destruct Hr as [Hsp El].
    apply wp_then, wp_answered, wp_timed_out; [done | unfold shows; by rewrite El | done | eauto].
  - destruct Hr as [Hf El].
    apply wp_then, wp_capture_failed; [done | | done | eauto].
    destruct El as [El|]; [right; rewrite El; apply Hshow | by left].
Qed.

Lemma wp_tell_progress tr w path next Q :
  holds tr w -> (forall tr' n, later tr tr' w -> Q tr' n) -> wp (tell_progress options w path next) Q tr.
Proof.
  intros Hw HQ. unfold tell_progress, report. cbn. intros t.
  assert (later tr (tr ++ [Clocked t]) w) as H by by apply later_snoc; [apply later_refl|].
  destruct (_ <=? _)%Z; cbn; [|by apply HQ].
  destruct (has_on_progress options); cbn; intros; apply HQ; repeat (apply later_snoc; [|done]); done.
Qed.

(** What a whole loop must satisfy. *)
Definition ends_well (p : Failing WaitResult) (tr : list WaitEvent) : Prop := wp p well_ended tr.

Lemma late_ends tr w path s cursor :
  settled tr w path s cursor -> spent tr -> ends_well (answered (timed_out options wanted w path s cursor)) tr.
Proof. intros (Hw & _ & Hs) Hsp. apply wp_answered, wp_timed_out; auto. Qed.

Lemma given_ends tr w b :
  holds tr w -> (b = true -> Cancelling true ∈ tr /\ rests tr) -> b = true -> well_ended tr (Unexpected cancelled_failure).
Proof. intros Hw H Hb. split; [by eapply holds_timely|]. left. split; [done | by apply H]. Qed.

Ltac go_on := solve [eassumption | by eapply later_settled | by eapply later_holds | by eapply holds_deadline, later_holds
  | by eapply holds_deadline | eauto].

Lemma settled_holds tr w path s cursor : settled tr w path s cursor -> holds tr w.
Proof. by intros [H _]. Qed.
#[local] Hint Resolve settled_holds later_holds holds_deadline : core.

Lemma poll_loop_ends fuel tr w path last cursor next :
  settled tr w path last cursor -> ends_well (poll_loop options wanted fuel w path last cursor next) tr.
Proof.
  revert tr w last cursor next. induction fuel as [|fuel IH]; intros tr w last cursor next Hw; [done|].
  unfold ends_well. cbn [poll_loop]. apply wp_then, (wp_expired _ w); [go_on..|]. intros tr1 late H1 Hl.
  assert (settled tr1 w path last cursor) as S1 by go_on.
  destruct late; [by apply late_ends; auto|].
  apply wp_then, (wp_gave_up _ w); [go_on|]. intros tr2 b H2 Hb _.
  assert (settled tr2 w path last cursor) as S2 by go_on.
  destruct b; [by apply (given_ends _ w true); [go_on|..]|].
  apply wp_then, wp_look; [done|]. intros tr3 [r|w' s c] Hlook; [exact Hlook|].
  destruct Hlook as (S3 & _ & _). specialize (S3 path). apply wp_then, wp_tell_progress; [go_on|]. intros tr4 n H4.
  assert (settled tr4 w' path s c) as S4 by go_on.
  apply wp_then, (wp_left _ w'); [go_on..|]. intros tr5 left_ H5 _.
  assert (settled tr5 w' path s c) as S5 by go_on.
  destruct left_ as [ms|]; [|by apply IH].
  change (ends_well (poll_loop options wanted fuel w' path s c n) (tr5 ++ [Slept (Z.min ms (poll_interval options))])).
  apply IH. eapply later_settled; [|exact S5]. by apply later_snoc; [apply later_refl; go_on|].
Qed.

Lemma poll_ends tr w path s cursor :
  settled tr w path s cursor -> ends_well (poll_for_text options wanted w capture_polling s) tr.
Proof.
  intros Hw. eapply poll_loop_ends, settled_drop; [done|]. unfold drops_cursor. set_solver.
Qed.

(** What the notifications of a turn leave. *)
Definition read_well (tr' : list WaitEvent) (l : Looked) : Prop :=
  match l with Ends r => well_ended tr' r | GoesOn w' s c => settled tr' w' control_output s c end.

Lemma wp_notifications tr w screen cursor l Q :
  settled tr w control_output screen cursor ->
  (forall tr' r, read_well tr' r -> Q tr' r) ->
  wp (read_notifications options wanted w screen cursor l) Q tr.
Proof.
  revert tr w screen cursor Q. induction l as [|n l IH]; intros tr w screen cursor Q Hw HQ; cbn [read_notifications].
  { by apply HQ. }
  destruct (_ || _); [by apply IH|]. apply wp_then, wp_look; [done..|].
  intros tr1 [r|w' s c] Hl; [by apply HQ|]. destruct Hl as (S1 & _). by apply IH; [apply S1|].
Qed.

Lemma wp_stopped_early tr w until l Q :
  holds tr w -> (forall tr' b, later tr tr' w -> Q tr' b) -> wp (stopped_early until l) Q tr.
Proof.
  intros Hw HQ. unfold stopped_early. case_bool_decide; [|by apply HQ, later_refl].
  apply wp_then, (wp_now _ w); [done|]. intros tr' t H'. by apply HQ.
Qed.

Lemma wp_check_liveness tr w next Q :
  holds tr w -> (forall tr' b n, later tr tr' w -> (b = true -> forall reason, gone tr' reason) -> Q tr' (b, n)) ->
  wp (check_liveness w next) Q tr.
Proof.
  intros Hw HQ. apply wp_then, (wp_now _ w); [done|]. intros tr1 t H1. destruct (_ <=? _)%Z; [|by apply HQ].
  apply wp_then, (wp_now _ w); [go_on|]. intros tr2 t2 H2.
  apply wp_then, wp_pane_gone; [go_on|]. intros tr3 b H3 Hg.
  apply HQ; [|done]. eapply later_trans; [exact H1|]. by eapply later_trans.
Qed.

Lemma wp_stream_turn tr w screen cursor progress liveness until l Q :
  settled tr w control_output screen cursor ->
  (forall tr' turn, match turn with
                    | TurnEnds r => well_ended tr' r
                    | TurnNext w' s c _ _ => settled tr' w' control_output s c
                    end -> Q tr' turn) ->
  wp (stream_turn options wanted w screen cursor progress liveness until l) Q tr.
Proof.
  intros Hw HQ. apply wp_then, (wp_stopped_early _ w); [go_on|]. intros tr1 early H1.
  assert (settled tr1 w control_output screen cursor) as S1 by go_on.
  destruct early.
  { apply wp_then. eapply wp_weaken; [|by eapply poll_ends]. intros tr' r Hr. by apply HQ. }
  apply wp_then, wp_check_liveness; [go_on|]. intros tr2 b n H2 Hg. cbv beta iota.
  assert (settled tr2 w control_output screen cursor) as S2 by go_on.
  destruct b.
  { apply wp_then, wp_answered, wp_pane_died; [go_on | apply S2 | by apply Hg|]. intros tr' r Hr. by apply HQ. }
  apply wp_then, wp_notifications; [done|].
  intros tr4 [r|w' s c] H4; [by apply HQ|].
  apply wp_then, wp_tell_progress; [go_on|]. intros tr5 m H5. apply HQ. by eapply later_settled.
Qed.

Lemma stream_loop_ends fuel tr w screen cursor next liveness :
  settled tr w control_output screen cursor ->
  ends_well (stream_loop options wanted fuel w screen cursor next liveness) tr.
Proof.
  revert tr w screen cursor next liveness. induction fuel as [|fuel IH]; intros tr w screen cursor next liveness Hw;
    [done|].
  unfold ends_well. cbn [stream_loop]. apply wp_then, (wp_expired _ w); [go_on..|]. intros tr1 late H1 Hl.
  assert (settled tr1 w control_output screen cursor) as S1 by go_on.
  destruct late; [by apply late_ends; auto|].
  apply wp_then, (wp_gave_up _ w); [go_on|]. intros tr2 b H2 Hb _.
  assert (settled tr2 w control_output screen cursor) as S2 by go_on.
  destruct b; [by apply (given_ends _ w true); [go_on|..]|].
  apply wp_then, (wp_left _ w); [go_on..|]. intros tr3 slice H3 Hsl.
  assert (settled tr3 w control_output screen cursor) as S3 by go_on.
  destruct slice as [slice|]; [|by apply late_ends; auto].
  apply wp_then, (wp_now _ w); [go_on|]. intros tr4 t H4. intros l.
  set (until := (t + _)%Z). fold until.
  assert (later tr4 (tr4 ++ [Notified until l]) w) as H5 by (apply later_snoc; [apply later_refl; go_on | done]).
  apply wp_then, wp_stream_turn; [eapply later_settled; [exact H5|]; go_on|].
  intros tr' [r|w' s c m n] Hturn; [exact Hturn|]. by apply IH.
Qed.

Lemma closing_ends tr p : ends_well p tr -> ends_well (closing p) tr.
Proof.
  intros H. apply wp_then. eapply wp_weaken; [|exact H]. intros tr' r [Ht Hr]. cbn [wp].
  split; [by apply timely_snoc|]. destruct r as [res|f].
  - destruct Hr as (H1 & H2 & H3). assert (settled_event Closed) as Hc by by right.
    assert (follows tr' (tr' ++ [Closed])) as Hf by by apply follows_snoc.
    split_and!; [done | unfold latest; by rewrite view_snoc|].
    destruct (matched res), (result_timed_out res), (result_pane_died res); try done.
    + destruct H3. split; [by apply judged_snoc | done].
    + destruct H3 as (? & [?|?] & ?); (split_and!; [by eapply spent_follows | | done]);
        [by left | right; by apply judged_snoc].
    + destruct H3. split; [by eapply gone_follows | done].
  - destruct Hr as [[-> Hr]|[->|[->|(c & ms & Hr)]]]; [left | by right; left | by right; right; left | right; right; right].
    + split; [done|]. apply elem_of_app. by left.
    + exists c, ms. apply elem_of_app. by left.
Qed.

Lemma stream_connected_ends fuel tr w path screen cursor :
  settled tr w path screen cursor -> ends_well (stream_connected options wanted fuel w screen) tr.
Proof.
  intros Hw. apply wp_then, (wp_gave_up _ w); [go_on|]. intros tr1 b H1 Hb _.
  assert (settled tr1 w capture_after_control_connect screen None) as S1
    by (eapply settled_drop; [by eapply later_settled | unfold drops_cursor; set_solver]).
  destruct b; [by apply (given_ends _ w true); [go_on|..]|].
  apply wp_then, wp_look; [done|]. intros tr2 [r|w' s c] Hl; [exact Hl|].
  destruct Hl as (S2 & _ & _). specialize (S2 control_output). apply wp_then, (wp_now _ w'); [go_on|].
  intros tr3 t H3. apply stream_loop_ends. by eapply later_settled.
Qed.

Lemma stream_ends fuel tr w path screen cursor :
  settled tr w path screen cursor -> ends_well (stream_for_text options socket wanted fuel w screen) tr.
Proof.
  intros Hw. apply wp_then, (wp_gave_up _ w); [go_on|]. intros tr1 b H1 Hb _.
  assert (settled tr1 w path screen cursor) as S1 by go_on.
  destruct b; [by apply (given_ends _ w true); [go_on|..]|].
  destruct (_ || _); [by eapply poll_ends|].
  apply wp_then, (wp_left _ w); [go_on..|]. intros tr2 ms H2 Hms.
  assert (settled tr2 w path screen cursor) as S2 by go_on.
  destruct ms as [ms|].
  2:{ apply late_ends; [|auto]. eapply settled_drop; [done|]. unfold drops_cursor. set_solver. }
  intros connected. set (o := connect_options _ _ _).
  assert (later tr2 (tr2 ++ [Connected o connected]) w) as H3 by (apply later_snoc; [apply later_refl; go_on | done]).
  destruct connected; [|by eapply poll_ends, later_settled].
  apply closing_ends. destruct (has_observer options); [|by eapply stream_connected_ends, later_settled].
  assert (later tr2 ((tr2 ++ [Connected o true]) ++ [Observed]) w) as H4 by by apply later_snoc.
  by eapply (stream_connected_ends _ (_ ++ [Observed])), later_settled.
Qed.

Lemma wp_learn_session tr w Q :
  holds tr w -> (forall tr' w', later tr tr' w' -> Q tr' w') -> wp (learn_session options w) Q tr.
Proof.
  intros Hw HQ. unfold learn_session. destruct (session_known w); [by apply HQ, later_refl|].
  destruct session_other as [Hs1 Hs2].
  apply wp_then, (wp_run _ w); [done | |].
  { rewrite (holds_pane tr w Hw). right; right; left. }
  intros tr' r F1 H1 R1. rewrite (holds_pane tr w Hw) in R1. apply HQ.
  split_and!; [done | by destruct H1 |]. destruct r as [[s|]|e]; cbn [replied_to] in R1.
  - by rewrite R1, view_other.
  - apply R1.
  - destruct R1 as (_ & [E|[_ E]] & K); [by split | done].
Qed.

Lemma settled_start w : wait_pane w = pane -> deadline w = d -> sent w = [] -> settled [] w capture_at_entry [] None.
Proof. intros. split_and!; [split; [constructor|done..] | done |]. split; [done | by left]. Qed.

Lemma perform_ends_well fuel tr w :
  settled tr w capture_at_entry [] None -> ends_well (perform options socket wanted fuel w) tr.
Proof.
  intros (Hw & Hrest & Hshow). apply wp_then, wp_grid; [done..|]. intros tr1 r F1 H1 Hr.
  destruct r as [[[c s]|]|e].
  - destruct Hr as (El & Hrest1 & _). 
    destruct (within_budget wanted w s) as [[present w1]|e] eqn:Hb.
    2:{ split; [apply H1|]. apply within_budget_limit in Hb as ->. by right; left. }
    apply within_budget_spec in Hb as (Ew & _). rewrite Ew.
    set (w2 := set_entry present (set_budget (match_budget w1) w)).
    assert (settled tr1 w2 capture_at_entry s c) as S1
      by (split_and!; [by destruct H1 | done | unfold shows; rewrite El; auto]).
    apply wp_then, (wp_expired _ w2); [go_on..|]. intros tr2 late H2 Hl.
    assert (settled tr2 w2 capture_at_entry s c) as S2 by go_on.
    destruct late; [by apply late_ends; auto|].
    apply wp_then.
    assert (forall tr' b w', later tr2 tr' w' -> (b = true -> judged tr' capture_at_entry s true) ->
      ends_well (if (b : bool) then answered (matched_result w' capture_at_entry s)
                 else w ← learn_session options w'; stream_for_text options socket wanted fuel w s) tr') as Hend.
    { intros tr' b w' L Hj. assert (settled tr' w' capture_at_entry s c) as S3 by go_on.
      destruct b.
      { apply wp_answered, wp_matched; [go_on | apply S3 | by apply Hj | done]. }
      apply wp_then, wp_learn_session; [go_on|]. intros tr3 w3 L3. by eapply stream_ends, later_settled. }
    destruct present; unfold confirm_when.
    + apply (wp_confirms _ _ capture_at_entry); [go_on | apply S2 | |].
      { left. by rewrite (later_latest _ _ _ H2), El. }
      intros tr' b w' L _ Hj. apply (Hend tr' b w' L). by intros ->.
    + apply (Hend tr2 false w2); [apply later_refl; go_on | done].
  - destruct Hr as [Hsp El]. apply wp_answered, wp_timed_out; [done | unfold shows; by rewrite El | done | done].
  - destruct Hr as [Hf El]. apply wp_capture_failed; [done | | done | done].
    destruct El as [El|]; [right; rewrite El; apply Hshow | by left].
Qed.
End ends.

(** * A wait ends *)

(** A program that ends in a value however the world answers. *)
Fixpoint total {A} (p : Waits A) : Prop :=
  match p with
  | Done _ => True
  | Clock k => forall t, total (k t)
  | Ask _ _ k => forall r, total (k r)
  | GaveUp k | InputPending _ k | Connect _ k => forall b, total (k b)
  | Echoes _ k => forall l, total (k l)
  | Progress _ _ k | SleepFor _ k | ObserveClient k | Close k => total k
  | Notifications _ k => forall l, total (k l)
  | Exhausted => False
  end.

Lemma total_bind {A B} (p : Waits A) (f : A -> Waits B) tr :
  total p -> wp p (fun _ a => total (f a)) tr -> total (p ≫= f).
Proof. revert tr. induction p; intros tr; cbn; eauto. Qed.

Lemma wp_true {A} (p : Waits A) tr : wp p (fun _ _ => True) tr.
Proof. revert tr. induction p; intros tr; cbn; eauto. Qed.

Lemma total_bind_all {A B} (p : Waits A) (f : A -> Waits B) : total p -> (forall a, total (f a)) -> total (p ≫= f).
Proof. intros Hp Hf. eapply (total_bind _ _ []); [done|]. eapply wp_weaken; [|apply wp_true]. auto. Qed.

(** [runs p t Q]: from time [t], in a world whose clock never goes back and moves while
    notifications are waited for, [p] ends in a value, at a time, that [Q] holds of. *)
Fixpoint runs {A} (p : Waits A) (t : Z) (Q : Z -> A -> Prop) : Prop :=
  match p with
  | Done a => Q t a
  | Clock k => forall t1 t', (t <= t1 <= t')%Z -> runs (k t1) t' Q
  | Ask _ _ k => forall r t', (t <= t')%Z -> runs (k r) t' Q
  | GaveUp k | InputPending _ k | Connect _ k => forall b t', (t <= t')%Z -> runs (k b) t' Q
  | Echoes _ k => forall l t', (t <= t')%Z -> runs (k l) t' Q
  | Progress _ _ k | SleepFor _ k | ObserveClient k | Close k => forall t', (t <= t')%Z -> runs k t' Q
  | Notifications _ k => forall l t', (t < t')%Z -> runs (k l) t' Q
  | Exhausted => False
  end.

Lemma runs_bind {A B} (p : Waits A) (f : A -> Waits B) t Q :
  runs p t (fun t a => runs (f a) t Q) -> runs (p ≫= f) t Q.
Proof. revert t. induction p; intros t; cbn; eauto. Qed.

Lemma runs_mono {A} (p : Waits A) t (Q R : Z -> A -> Prop) :
  (forall t a, Q t a -> R t a) -> runs p t Q -> runs p t R.
Proof. intros HQ. revert t. induction p; intros t; cbn; eauto. Qed.

(** A total program runs, and what [wp] shows of its value holds. *)
Lemma total_runs {A} (p : Waits A) (R : A -> Prop) tr t :
  total p -> wp p (fun _ a => R a) tr -> runs p t (fun t' a => (t <= t')%Z /\ R a).
Proof.
  revert tr t. induction p; intros tr t0; cbn; try done; try (split; [lia | done]);
    intros Hp Hw; intros; (eapply runs_mono; [|by eauto]); intros ? ? [? ?]; (split; [lia | done]).
Qed.

(** What the laws of a world's clock are. *)
Class Passing (W : Type) `{!World W} := {
  time : W -> Z;
  now_passes w : (time w <= (now w).1 <= time (now w).2)%Z;
  ask_passes c ms w : (time w <= time (ask c ms w).2)%Z;
  given_up_passes w : (time w <= time (given_up w).2)%Z;
  echoes_passes pane w : (time w <= time (echoes pane w).2)%Z;
  pending_passes pane w : (time w <= time (input_pending pane w).2)%Z;
  progress_passes ms path w : (time w <= time (progress ms path w))%Z;
  sleep_passes ms w : (time w <= time (sleep ms w))%Z;
  connect_passes o w : (time w <= time (connect o w).2)%Z;
  observe_passes w : (time w <= time (observe w))%Z;
  notifications_pass until w : (time w < time (notifications until w).2)%Z;
  close_passes w : (time w <= time (close w))%Z;
}.

Lemma runs_exec {W A} `{Passing W} (p : Waits A) Q w :
  runs p (time w) Q -> exists a w', exec p w = (Some a, w') /\ Q (time w') a.
Proof.
  revert w. induction p as [x|k IH|c ms k IH|k IH|pane k IH|pane k IH|ms path k IH|ms k IH|o k IH|k IH|u k IH|k IH|];
    intros w Hr; cbn in *; [by eauto|..|done].
  - pose proof (now_passes w). destruct (now w). eapply IH, Hr. cbn in *. lia.
  - pose proof (ask_passes c ms w). destruct (ask c ms w). by eapply IH, Hr.
  - pose proof (given_up_passes w). destruct (given_up w). by eapply IH, Hr.
  - pose proof (echoes_passes pane w). destruct (echoes pane w). by eapply IH, Hr.
  - pose proof (pending_passes pane w). destruct (input_pending pane w). by eapply IH, Hr.
  - eapply IH, Hr, progress_passes.
  - eapply IH, Hr, sleep_passes.
  - pose proof (connect_passes o w). destruct (connect o w). by eapply IH, Hr.
  - eapply IH, Hr, observe_passes.
  - pose proof (notifications_pass u w). destruct (notifications u w). by eapply IH, Hr.
  - eapply IH, Hr, close_passes.
Qed.

Section total.
Variable options : WaitOptions.
Variable socket wanted : text.

Ltac total_parts :=
  repeat first [done | progress intros | progress cbv beta iota | apply total_bind_all | case_match | progress cbn].

Lemma total_gave_up : total (gave_up options).
Proof. unfold gave_up. total_parts. Qed.
Lemma total_run w c : total (run_before_deadline options w c).
Proof. apply total_bind_all; [apply total_gave_up|]. total_parts; apply total_gave_up. Qed.
Lemma total_grid w : total (grid_before_deadline options w).
Proof.
  apply total_bind_all; [apply total_bind_all; [apply total_run | done]|]. intros c.
  apply total_bind_all; [apply total_bind_all; [apply total_run | done] | done].
Qed.
Lemma total_confirm_when b w s cursor : total (confirm_when options wanted b w s cursor).
Proof. unfold confirm_when, confirms. total_parts. Qed.
Lemma total_timed_out w path s cursor : total (answered (timed_out options wanted w path s cursor)).
Proof.
  apply total_bind_all; [|done]. apply total_bind_all; [apply total_confirm_when|]. intros [b w']. total_parts.
Qed.
Lemma total_capture_failed w path f last : total (capture_failed w path f last).
Proof. unfold capture_failed. total_parts. Qed.
Lemma total_look w path last cursor : total (look options wanted w path last cursor).
Proof.
  apply total_bind_all; [apply total_grid|]. intros [[[c s]|]|e]; [|apply total_bind_all; [apply total_timed_out | done]|
    apply total_bind_all; [apply total_capture_failed | done]].
  apply total_bind_all; [done|]. intros [|]; [apply total_bind_all; [apply total_timed_out | done]|].
  destruct (within_budget _ _ _) as [[b w']|e]; [|done].
  apply total_bind_all; [apply total_confirm_when|]. intros [b' w'']. total_parts.
Qed.
Lemma total_tell_progress w path next : total (tell_progress options w path next).
Proof. unfold tell_progress, report. total_parts. Qed.

Lemma wp_any {A B} (p : Waits A) (f : A -> Waits B) Q tr :
  (forall tr a, wp (f a) Q tr) -> wp (p ≫= f) Q tr.
Proof. intros H. apply wp_then. eapply wp_weaken; [|apply wp_true]. auto. Qed.

(** A look that does not end the wait has spent some of its budget of work. *)
Definition looked_less (w : Wait) (l : Looked) : Prop :=
  match l with
  | Ends _ => True
  | GoesOn w' _ _ => deadline w' = deadline w /\ (match_budget w' < match_budget w)%N
  end.

Lemma confirm_when_keeps b w s cursor (Q : list WaitEvent -> bool * Wait -> Prop) tr :
  (forall tr b w', deadline w' = deadline w -> match_budget w' = match_budget w -> Q tr (b, w')) ->
  wp (confirm_when options wanted b w s cursor) Q tr.
Proof.
  intros HQ. unfold confirm_when, confirms. destruct b; [|by apply HQ].
  destruct (has_sent options), (has_input_pending options); cbn; intros; by apply HQ.
Qed.

Lemma look_less w path last cursor tr : wp (look options wanted w path last cursor) (fun _ l => looked_less w l) tr.
Proof.
  unfold look, grid_before_deadline, capture_before_deadline. apply wp_then, wp_any. intros tr1 c.
  apply wp_then, wp_any. intros tr2 r. cbn [wp].
  destruct r as [[[|a s]|]|e]; try (apply wp_any; done).
  apply wp_any. intros tr3 [|]; [by apply wp_any|].
  destruct (within_budget wanted w (a :: s)) as [[present w1]|e] eqn:Hb; [|done].
  apply within_budget_spec in Hb as (Ew & _ & Hlt). cbn [length] in Hlt. apply wp_then, confirm_when_keeps.
  intros tr4 b w' Hd Hm. destruct b; [by apply wp_any|]. cbn. rewrite Hd, Hm, Ew. cbn. split; [done | lia].
Qed.

(** The budget of work bounds the polling loop, whatever the world answers. *)
Lemma poll_loop_total fuel w path last cursor next :
  N.to_nat (match_budget w) < fuel -> total (poll_loop options wanted fuel w path last cursor next).
Proof.
  revert w last cursor next. induction fuel as [|fuel IH]; intros w last cursor next Hf; [lia|].
  cbn [poll_loop]. apply total_bind_all; [done|]. intros [|]; [apply total_timed_out|].
  apply total_bind_all; [apply total_gave_up|]. intros [|]; [done|].
  eapply (total_bind _ _ []); [apply total_look|].
  eapply wp_weaken; [|apply look_less]. intros tr [r|w' s c]; [done|]. intros [_ Hless].
  apply total_bind_all; [apply total_tell_progress|]. intros n.
  apply total_bind_all; [done|]. intros [ms|]; apply IH; lia.
Qed.

Lemma poll_total w path last : total (poll_for_text options wanted w path last).
Proof. apply poll_loop_total. unfold poll_fuel. lia. Qed.

Lemma notifications_total w screen cursor l : total (read_notifications options wanted w screen cursor l).
Proof.
  revert w screen cursor. induction l as [|n l IH]; intros w screen cursor; cbn [read_notifications]; [done|].
  destruct (_ || _); [done|]. apply total_bind_all; [apply total_look|]. intros [r|w' s c]; [done | apply IH].
Qed.

Lemma turn_total w screen cursor progress liveness until l :
  total (stream_turn options wanted w screen cursor progress liveness until l).
Proof.
  apply total_bind_all; [unfold stopped_early; by case_bool_decide|]. intros [|].
  { apply total_bind_all; [apply poll_total | done]. }
  apply total_bind_all; [unfold check_liveness; total_parts|]. intros [[|] n].
  { apply total_bind_all; [|done]. unfold answered, pane_died. total_parts. }
  apply total_bind_all; [apply notifications_total|]. intros [r|w' s c]; [done|].
  apply total_bind_all; [apply total_tell_progress | done].
Qed.

Lemma notifications_deadline w screen cursor l tr :
  wp (read_notifications options wanted w screen cursor l)
    (fun _ r => match r with Ends _ => True | GoesOn w' _ _ => deadline w' = deadline w end) tr.
Proof.
  revert w screen cursor tr. induction l as [|n l IH]; intros w screen cursor tr; cbn [read_notifications]; [done|].
  destruct (_ || _); [done|]. apply wp_then. eapply wp_weaken; [|apply look_less].
  intros tr1 [r|w' s c]; [done|]. intros [<- _]. apply IH.
Qed.

Lemma turn_deadline w screen cursor progress liveness until l tr :
  wp (stream_turn options wanted w screen cursor progress liveness until l)
    (fun _ turn => match turn with TurnEnds _ => True | TurnNext w' _ _ _ _ => deadline w' = deadline w end) tr.
Proof.
  apply wp_any. intros tr1 [|]; [by apply wp_any|]. apply wp_any. intros tr2 [[|] n]; [by apply wp_any|].
  apply wp_then. eapply wp_weaken; [|apply notifications_deadline]. intros tr3 [r|w' s c] Hd; [done|]. by apply wp_any.
Qed.

Lemma runs_total {A} (p : Waits A) t : total p -> runs p t (fun _ _ => True).
Proof. intros H. eapply runs_mono; [|apply (total_runs p (fun _ => True) []); [done | apply wp_true]]. done. Qed.

Lemma runs_total_bind {A B} (p : Waits A) (f : A -> Waits B) t Q :
  total p -> (forall t' a, (t <= t')%Z -> runs (f a) t' Q) -> runs (p ≫= f) t Q.
Proof.
  intros Hp Hf. apply runs_bind. eapply runs_mono; [|apply (total_runs p (fun _ => True) []); [done | apply wp_true]].
  intros t' a [Ht _]. by apply Hf.
Qed.

Lemma runs_expired {B} dl (f : bool -> Waits B) t Q :
  (forall t' b, (t <= t')%Z -> (b = false -> (t < deadline_ dl)%Z) -> runs (f b) t' Q) ->
  runs (expired dl ≫= f) t Q.
Proof.
  intros H t1 t' Ht. apply H; [lia|]. unfold expired_at. intros Hb%Z.leb_gt. lia.
Qed.

(** A clock that moves bounds the stream. *)
Lemma stream_loop_runs fuel w screen cursor progress liveness t :
  (Z.to_nat (deadline_ (deadline w) - t) < fuel)%nat ->
  runs (stream_loop options wanted fuel w screen cursor progress liveness) t (fun _ _ => True).
Proof.
  revert w screen cursor progress liveness t. induction fuel as [|fuel IH];
    intros w screen cursor progress liveness t Hf; [lia|].
  cbn [stream_loop]. apply runs_expired. intros t2 [|] Ht Hlate; [apply runs_total, total_timed_out|].
  specialize (Hlate eq_refl).
  apply runs_total_bind; [apply total_gave_up|]. intros t3 [|] H3; [done|].
  apply runs_total_bind; [done|]. intros t4 [slice|] H4; [|apply runs_total, total_timed_out].
  apply runs_total_bind; [done|]. intros t5 now_ H5. intros l t6 H6.
  apply runs_bind.
  eapply runs_mono; [|apply (total_runs _ (fun turn => match turn with
    TurnEnds _ => True | TurnNext w' _ _ _ _ => deadline w' = deadline w end) []); [apply turn_total | apply turn_deadline]].
  - intros t7 [r|w' s c m n] [H7 Hd]; [done|]. apply IH. rewrite Hd. lia.
Qed.

Lemma stream_runs fuel w screen t :
  (Z.to_nat (deadline_ (deadline w) - t) < fuel)%nat ->
  runs (stream_for_text options socket wanted fuel w screen) t (fun _ _ => True).
Proof.
  intros Hf. apply runs_total_bind; [apply total_gave_up|]. intros t1 [|] H1; [done|].
  destruct (_ || _); [apply runs_total, poll_total|].
  apply runs_total_bind; [done|]. intros t2 [ms|] H2; [|apply runs_total, total_timed_out].
  intros connected t3 H3. destruct connected; [|apply runs_total, poll_total].
  assert (forall t4, (t3 <= t4)%Z -> runs (stream_connected options wanted fuel w screen) t4 (fun _ _ => True)) as Hc.
  { intros t4 H4. apply runs_total_bind; [apply total_gave_up|]. intros t5 [|] H5; [done|].
    apply runs_bind.
    eapply runs_mono; [|apply (total_runs _ (fun l => match l with
      Ends _ => True | GoesOn w' _ _ => deadline w' = deadline w end) []); [apply total_look|]].
    - intros t6 [r|w' s c] [H6 Hd]; [done|]. apply runs_total_bind; [done|]. intros t7 n H7.
      apply stream_loop_runs. rewrite Hd. lia.
    - eapply wp_weaken; [|apply look_less]. intros tr [r|w' s c]; [done|]. by intros [-> _]. }
  apply runs_bind. eapply runs_mono.
  2:{ destruct (has_observer options); [intros t4 H4; by apply Hc | by apply Hc]. }
  intros t4 a _. intros t5 H5. done.
Qed.

Lemma perform_runs fuel w t :
  (Z.to_nat (deadline_ (deadline w) - t) < fuel)%nat ->
  runs (perform options socket wanted fuel w) t (fun _ _ => True).
Proof.
  intros Hf. apply runs_total_bind; [apply total_grid|].
  intros t1 [[[c s]|]|e] H1; [|apply runs_total, total_timed_out | apply runs_total, total_capture_failed].
  destruct (within_budget _ _ _) as [[b w1]|e] eqn:Hb; [|done].
  apply within_budget_spec in Hb as (Ew & _). rewrite Ew. set (w2 := set_entry b _).
  apply runs_total_bind; [done|]. intros t2 [|] H2; [apply runs_total, total_timed_out|].
  apply runs_bind.
  eapply runs_mono; [|apply (total_runs _ (fun p => deadline p.2 = deadline w2) []); [apply total_confirm_when|]].
  2:{ by apply confirm_when_keeps. }
  intros t3 [[|] w3] [H3 Hd]; cbn [snd] in Hd.
  { apply runs_total. apply total_bind_all; [|done]. unfold matched_result. total_parts. }
  apply runs_bind.
  eapply runs_mono; [|apply (total_runs _ (fun w' => deadline w' = deadline w2) [])].
  - intros t4 w4 [H4 Hd4]. apply stream_runs. rewrite Hd4. cbn. lia.
  - unfold learn_session. destruct (session_known w3); [done|]. apply total_bind_all; [apply total_run | done].
  - unfold learn_session. destruct (session_known w3); [done|]. by apply wp_any.
Qed.
End total.

Lemma runs_deadline {B} budget (f : Deadline -> Waits B) t Q :
  (forall t1 t2, (t1 <= t2)%Z -> runs (f (MkDeadline t1 (t1 + ns_of budget))) t2 Q) ->
  runs (new_deadline budget ≫= f) t Q.
Proof. intros H t1 t2 Ht. apply H. lia. Qed.

(** A wait returns.  In a world whose clock never goes back and moves while notifications are
    waited for, a wait of either kind ends with an answer, however the commands, the
    callbacks and the connection answer. *)
Theorem wait_returns {W} `{Passing W} p socket target wanted options (w : W) :
  (exists r w', exec (pane_wait_for_text p socket wanted options) w = (Some r, w')) /\
  (exists r w', exec (server_wait_for_text socket target wanted options) w = (Some r, w')).
Proof.
  assert (forall q : Failing WaitResult, runs q (time w) (fun _ _ => True) -> exists r w', exec q w = (Some r, w')) as Hq.
  { intros q Hr. destruct (runs_exec q _ w Hr) as (r & w' & E & _). eauto. }
  assert (forall t1 t2 w, (t1 <= t2)%Z -> deadline w = MkDeadline t1 (t1 + ns_of (wait_timeout options)) ->
    runs (perform options socket wanted (wait_fuel options) w) t2 (fun _ _ => True)) as Hp.
  { intros t1 t2 w1 Ht Ew. apply perform_runs. rewrite Ew. unfold wait_fuel. cbn. lia. }
  split; apply Hq.
  - unfold pane_wait_for_text. destruct (row_refused _ _ _); [done|]. destruct (connection p); [|done].
    apply runs_deadline. intros t1 t2 Ht. by apply (Hp t1).
  - apply runs_deadline. intros t1 t2 Ht. apply runs_total_bind; [apply total_run|]. intros t3 [[reply|]|e] H3; [| |done].
    + destruct (resolved reply) as [[pane session]|]; [|done]. by apply (Hp t1); [lia|].
    + intros t4 t5 H5. done.
Qed.

(** * The entry points *)

Lemma wp_shift {A} (p : Waits A) Q tr0 tr :
  wp p (fun tr a => Q (tr0 ++ tr) a) tr -> wp p Q (tr0 ++ tr).
Proof. revert tr. induction p; intros tr; cbn; intros; try rewrite <-app_assoc; auto. Qed.

Lemma wp_from {A} (p : Waits A) Q tr0 : wp p (fun tr a => Q (tr0 ++ tr) a) [] -> wp p Q tr0.
Proof. intros H. rewrite <-(app_nil_r tr0). by apply wp_shift. Qed.

Lemma wp_deadline {B} budget (f : Deadline -> Waits B) Q tr :
  (forall t, wp (f (MkDeadline t (t + ns_of budget))) Q (tr ++ [Clocked t])) -> wp (new_deadline budget ≫= f) Q tr.
Proof. intros H t. apply H. Qed.

(** C39: A wait ends as it says.  A pane's wait that was not refused reads its clock, and from
    then on only reads the pane, each time for no longer than what is left of its budget,
    but for the two seconds in which it asks whether the pane is alive.  It ends with the
    last screen the pane showed: as a match or, its budget spent, without one, each time
    because that screen was judged last and does or does not confirm with the echoes and the
    pending input that the caller told of for that judgment and with the cursor that was read
    just before the screen, which a judgment at the deadline drops where the wait polls or
    is about to stream; or as a pane that is gone.  It fails only as its caller gave up, for
    its budget of work, for an empty capture, or with what tmux answered. *)
Theorem wait_ends_well p socket wanted options :
  wp (pane_wait_for_text p socket wanted options) (fun tr r =>
    (tr = [] /\ exists e, r = Unexpected e) \/
    exists t tr', tr = Clocked t :: tr' /\
      well_ended options wanted (pane_target_text p) (MkDeadline t (t + ns_of (wait_timeout options))) tr' r) [].
Proof.
  unfold pane_wait_for_text. destruct (row_refused _ _ _); [left; eauto|].
  destruct (connection p); [|left; eauto]. apply wp_deadline. intros t.
  apply (wp_from _ _ [Clocked t]). eapply wp_weaken; [|by apply perform_ends_well, settled_start].
  intros tr r H. right. eauto.
Qed.

(** A server's wait asks which pane its target is with one command, in what its budget has
    left; then it is the wait for that pane, or it ends: with nothing when the budget was
    spent, with a failure when the target does not resolve. *)
Theorem server_wait_ends_well socket target wanted options :
  wp (server_wait_for_text socket target wanted options) (fun tr r =>
    exists t asked after, tr = Clocked t :: asked ++ after /\
      let d := MkDeadline t (t + ns_of (wait_timeout options)) in
      let lookup := format_command target (format_request lookup_fields) in
      (forall c ms a, Asked c ms a ∈ asked -> c = lookup /\ exists now, remaining_at d now = Some ms) /\
      ((exists ms reply pane session, Asked lookup ms (Value reply) ∈ asked /\
          resolved reply = Some (pane, session) /\ well_ended options wanted pane d after r) \/
       (exists ms, r = Value (MkWaitResult false false true false ms pane_lookup [] false [] [])) \/
       (exists ms reply, Asked lookup ms (Value reply) ∈ asked /\ resolved reply = None /\
          r = Unexpected (unresolved target)) \/
       r = Unexpected cancelled_failure \/ (exists ms e, Asked lookup ms (Unexpected e) ∈ asked /\ r = Unexpected e))) [].
Proof.
  apply wp_deadline. intros t. set (d := MkDeadline _ _). set (lookup := format_command _ _).
  apply (wp_from _ _ [Clocked t]). apply wp_then.
  set (Good := fun asked : list WaitEvent =>
    forall c ms a, Asked c ms a ∈ asked -> c = lookup /\ exists now, remaining_at d now = Some ms).
  assert (forall tr e, Good tr -> (forall c ms r, e <> Asked c ms r) -> Good (tr ++ [e])) as Hother.
  { intros tr e H He c ms a [?|Hin%list_elem_of_singleton]%elem_of_app; [eauto | by destruct (He c ms a)]. }
  assert (forall tr now ms a, Good tr -> remaining_at d now = Some ms -> Good (tr ++ [Asked lookup ms a])) as Hask.
  { intros tr n ms a H Hms c' ms' a' [?|Hin%list_elem_of_singleton]%elem_of_app; [eauto|]. injection Hin as -> -> ->. eauto. }
  assert (forall tr (Q : list WaitEvent -> bool -> Prop), Good tr -> (forall tr' b, follows tr tr' -> Good tr' -> Q tr' b) ->
    wp (gave_up options) Q tr) as Hgave.
  { intros tr Q H HQ. unfold gave_up. destruct (has_cancelled options); [|by apply HQ].
    intros b. apply HQ; [unfold follows; set_solver | auto]. }
  apply wp_then, Hgave; [by intros c ms a ?%elem_of_nil|]. intros tr1 [|] _ H1.
  { exists t, tr1, []. rewrite app_nil_r. split; [done|]. split; [exact H1|]. by do 3 right; left. }
  apply wp_then, wp_then. intros t2. cbn [wp]. destruct (remaining_at _ t2) as [ms|] eqn:Hms.
  2:{ intros t3. eexists t, ((tr1 ++ [Clocked t2]) ++ [Clocked t3]), []. rewrite app_nil_r. split; [done|]. split; [by apply Hother; [apply Hother|]|].
      right; left. eauto. }
  intros reply. assert (Good ((tr1 ++ [Clocked t2]) ++ [Asked lookup ms reply])) as H2 by eauto.
  destruct reply as [s|e].
  - apply wp_then, Hgave; [done|]. intros tr3 [|] Hf H3.
    { exists t, tr3, []. rewrite app_nil_r. split; [done|]. split; [exact H3|]. by do 3 right; left. }
    assert (Asked lookup ms (Value s) ∈ tr3) as Hin by (apply Hf; set_solver).
    cbn [wp]. destruct (resolved s) as [[pane session]|] eqn:Hres.
    + apply (wp_from _ _ tr3). eapply wp_weaken; [|by apply perform_ends_well, settled_start].
      intros tr r Hr. exists t, tr3, tr. split; [done|]. split; [exact H3|]. left. exists ms, s, pane, session. done.
    + exists t, tr3, []. rewrite app_nil_r. split; [done|]. split; [exact H3|]. right; right; left. eauto.
  - cbn [wp]. case_bool_decide as Hk.
    + intros t3. eexists t, (((_ ++ [Clocked t2]) ++ [Asked lookup ms (Unexpected e)]) ++ [Clocked t3]), [].
      rewrite app_nil_r. split; [done|]. split; [by apply Hother|]. right; left. eauto.
    + eexists t, _, []. rewrite app_nil_r. split; [done|]. split; [exact H2|].
      do 4 right. exists ms, e. split; [apply last_in | done].
Qed.

(** What a command is allowed is what is left of the budget, rounded up to a millisecond. *)
Theorem remaining_rounds_up d now ms :
  remaining_at d now = Some ms <->
  (now < deadline_ d)%Z /\ (ns_of (ms - 1) < deadline_ d - now <= ns_of ms)%Z.
Proof.
  unfold remaining_at, ns_of. destruct (Z.leb_spec (deadline_ d - now) 0) as [H|H].
  { split; [done|]. lia. }
  pose proof (Z.quot_rem' (deadline_ d - now) 1000000) as Hq.
  pose proof (Z.rem_bound_pos (deadline_ d - now) 1000000) as Hr.
  set (q := Z.quot (deadline_ d - now) 1000000) in *.
  destruct (Z.ltb_spec (q * 1000000) (deadline_ d - now)); split.
  - intros [= <-]. lia.
  - intros ?. f_equal. lia.
  - intros [= <-]. lia.
  - intros ?. f_equal. lia.
Qed.

(** ** A world by script *)

(** A clock, the answers to the commands with how long each takes, and what the caller's
    callbacks answer; no connection opens. *)
Record Script := MkScript {
  at_time : Z;
  answers : list (Z * expected CommandFailure text);
  typed : list text;
  typing : bool;
}.

Definition pass (n : Z) (s : Script) : Script := MkScript (at_time s + Z.max 0 n) (answers s) (typed s) (typing s).

#[export] Instance Script_world : World Script := {|
  now s := (at_time s, s);
  ask _ _ s :=
    match answers s with
    | (took, r) :: rest => (r, pass took (MkScript (at_time s) rest (typed s) (typing s)))
    | [] => (Unexpected disconnected, s)
    end;
  given_up s := (false, s);
  echoes _ s := (typed s, s);
  input_pending _ s := (typing s, s);
  progress _ _ s := s;
  sleep ms s := pass (ns_of ms) s;
  connect _ s := (false, s);
  observe s := s;
  notifications until s := ([], pass (Z.max 1 (until - at_time s)) s);
  close s := s;
|}.

#[export, refine] Instance Script_passing : Passing Script := {| time := at_time |}.
Proof.
  all: intros; cbn; try lia. destruct (answers w) as [|[took r] rest]; cbn; lia.
Defined.

Lemma exec_bind {W A B} `{!World W} (p : Waits A) (f : A -> Waits B) w :
  exec (p ≫= f) w = match exec p w with (Some a, w) => exec (f a) w | (None, w) => (None, w) end.
Proof.
  revert w. induction p as [x|k IH|c ms k IH|k IH|pane k IH|pane k IH|ms path k IH|ms k IH|o k IH|k IH|u k IH|k IH|];
    intros w; cbn; try done; try apply IH;
    match goal with |- context [let '(_, _) := ?e in _] => destruct e end; apply IH.
Qed.

Lemma exec_run options w c ms took reply rest (s : Script) :
  has_cancelled options = false -> remaining_at (deadline w) (at_time s) = Some ms ->
  answers s = (took, Value reply) :: rest ->
  exec (run_before_deadline options w c) s =
    (Some (Value (Some reply)), pass took (MkScript (at_time s) rest (typed s) (typing s))).
Proof.
  intros Hc Hms Ha. unfold run_before_deadline, gave_up. rewrite Hc. cbn. rewrite Hms. cbn.
  by rewrite Ha.
Qed.

Lemma within_budget_enough wanted w s :
  found wanted s = true -> (N.of_nat (length s + length wanted) <= match_budget w)%N ->
  exists n, within_budget wanted w s = Value (true, set_budget n w).
Proof.
  intros Hf Hb. unfold within_budget. rewrite (proj2 (N.ltb_ge _ _)), (proj2 (N.ltb_ge _ _)) by lia.
  cbn [orb]. rewrite Hf. eauto.
Qed.

Lemma exec_confirms options wanted w s cursor (world : Script) :
  has_sent options = true -> has_input_pending options = true ->
  exec (confirm_when options wanted true w s cursor) world =
    (Some (confirms_at s wanted (typed world) cursor (typing world), set_sent (typed world) w), world).
Proof.
  intros Hs Hp. unfold confirm_when, confirms. rewrite Hs, exec_bind.
  cbn [exec mbind Waits_bind echoes Script_world]. by rewrite Hp.
Qed.

(** A deferred match is promoted at the deadline.  When the budget runs out between the
    capture at entry and the control connection, the entry's capture is judged again
    without the cursor it was read with: a text on the row where the cursor stands, which
    the entry did not credit to the pane, is answered as a match as soon as it is not on the
    last row. *)
Theorem deadline_promotes_deferred options socket wanted pane session budget screen cursor_reply cursor typed_ :
  has_sent options = true -> has_input_pending options = true -> has_cancelled options = false ->
  (0 < budget)%Z -> trim_back line_ends session <> [] -> socket <> [] -> screen <> [] ->
  (N.of_nat (length screen + length wanted) <= match_budget_option options)%N ->
  parse_cursor cursor_reply = Some cursor -> found wanted screen = true ->
  confirms_at screen wanted typed_ (Some cursor) true = false ->
  confirms_at screen wanted typed_ None true = true ->
  let world := MkScript 0 [(0, Value cursor_reply); (0, Value screen); (ns_of budget, Value session)]%Z typed_ true in
  exists res world',
    exec (perform options socket wanted (wait_fuel options)
            (MkWait pane (MkDeadline 0 (ns_of budget)) (match_budget_option options) [] [] false false)) world =
      (Some (Value res), world') /\
    matched res = true /\ result_text res = screen /\ result_path res = capture_before_control.
Proof.
  intros Hsent Hpend Hcan Hb Hsess Hsock Hscreen Hbudget Hcur Hfound Hno Hyes world.
  assert (exists ms, remaining_at (MkDeadline 0 (ns_of budget)) 0 = Some ms) as [ms Hms].
  { unfold remaining_at, ns_of. cbn. destruct (Z.leb_spec (budget * 1000000 - 0) 0); [lia | eauto]. }
  unfold perform, grid_before_deadline, cursor_before_deadline, capture_before_deadline.
  rewrite !exec_bind, (exec_run _ _ _ ms 0 cursor_reply _ world) by done. cbn [exec].
  change (pass 0 _) with (MkScript 0 [(0%Z, Value screen); (ns_of budget, Value session)] typed_ true).
  rewrite !exec_bind, (exec_run _ _ _ ms 0 screen [(ns_of budget, Value session)]) by done. cbn [exec].
  change (pass 0 _) with (MkScript 0 [(ns_of budget, Value session)] typed_ true).
  replace (match screen with [] => Unexpected no_output | _ :: _ => Value (Some screen) end)
    with (Value (E := CommandFailure) (Some screen)) by by destruct screen.
  rewrite Hcur. edestruct within_budget_enough as [n ->]; [exact Hfound | exact Hbudget |].
  set (w := set_entry true _).
  assert (deadline w = MkDeadline 0 (ns_of budget)) as Hd by done.
  rewrite exec_bind. cbn [exec expired mbind Waits_bind clock_now now Script_world at_time].
  rewrite Hd. unfold expired_at. cbn [deadline_]. rewrite (proj2 (Z.leb_gt _ _)) by (unfold ns_of; cbn; lia).
  rewrite exec_bind, exec_confirms by done. cbn [typed typing]. rewrite Hno. set (w' := set_sent typed_ w).
  rewrite exec_bind. unfold learn_session. change (session_known w') with false. cbv iota.
  rewrite exec_bind, (exec_run _ _ _ ms (ns_of budget) session []) by done. cbn [exec].
  set (spent := pass _ _). assert (at_time spent = ns_of budget) as Hspent by (cbn; unfold ns_of; lia).
  unfold stream_for_text, gave_up. rewrite Hcan, exec_bind. cbn [exec].
  rewrite !bool_decide_false by done. cbn [orb].
  rewrite exec_bind. cbn [exec remaining mbind Waits_bind clock_now now Script_world]. rewrite Hspent.
  assert (remaining_at (MkDeadline 0 (ns_of budget)) (ns_of budget) = None) as Hnone.
  { unfold remaining_at. cbn [deadline_]. by rewrite Z.sub_diag. }
  change (deadline (set_session _ w')) with (MkDeadline 0 (ns_of budget)). rewrite Hnone.
  assert (wanted <> []) as Hwanted by by intros ->.
  unfold timed_out, answered. rewrite bool_decide_false by done. cbn [negb].
  rewrite !exec_bind, exec_confirms by done. change (typed spent) with typed_. change (typing spent) with true.
  rewrite Hyes.
  eexists _, _. by split_and!.
Qed.

(** * Witnesses *)

Definition brief : WaitOptions := MkWaitOptions 1 true true 4096 50 false false false.

Lemma wait_returns_witness :
  exists r w', exec (server_wait_for_text (txt "/tmp/s") (txt "%1") (txt "DONE") brief)
                 (MkScript 0 [] [] false) = (Some r, w').
Proof. apply (wait_returns (MkRow (MkSnapshot [] [] []) 0 None) (txt "/tmp/s") (txt "%1") (txt "DONE") brief (MkScript 0 [] [] false)). Defined.

Definition deferred_screen : text := txt "$ grep DONE log" ++ [newline] ++ txt "[0] main".

Lemma deadline_promotes_deferred_witness :
  confirms_at deferred_screen (txt "DONE") [txt "make"] (Some (MkPaneCursor 0 2)) true = false /\
  exists res, matched res = true /\ result_text res = deferred_screen.
Proof.
  split; [vm_compute; reflexivity|].
  destruct (deadline_promotes_deferred brief (txt "/tmp/s") (txt "DONE") (txt "%1") (txt "main") 1 deferred_screen
    (txt "0 2") (MkPaneCursor 0 2) [txt "make"]) as (res & world & _ & Hm & Ht & _);
    try reflexivity; try (vm_compute; congruence).
  exists res. done.
Defined.
