(* ===== verification/Sessions.v ===== *)
(** The threads of a control connection: [Connection::State], [execute] and [shutdown] of
    [src/connection.cpp].

    A connection is shared by the callers of [execute], the caller of [shutdown], a reader
    thread and a thread that waits for the client process.  [mutex] guards the requests
    waiting and the connection's flags ([Shared]), [write_mutex] the client's input
    ([Writer]), the reader owns the decoder and the client's outputs ([Reader]).  Every
    section under a lock, and every call the system answers between two of them, is an
    action of somebody, and actions interleave freely.  What the system answers, what the
    clock says and what the client writes are arguments of the actions.

    A call is named by a number; its request, if it makes one, by the same.  Bytes on the
    client's input, the requests in the order they were accepted and the blocks given to
    requests are recorded ([wire], [accepted], [log]); no operation reads them.

    The theorems: the blocks tmux writes are given to the requests in order, each getting
    those before its own boundary; what a call says about its delivery is true of the bytes
    on the wire; the wire holds whole requests, in order, but for the last one; a request
    is waiting or answered, and none waits once the connection is closing; somebody can
    always go on, and every call ends. *)

From S2P Require Import Prelude Wake Control NotificationStream.
From S2P Require Import Version Command Capabilities Endpoint Commands Connection.

(** * State *)

(** [PendingRequest]. *)
Record Request := MkRequest {
  result : ControlRequestResult;
  boundary : text;
  delivery : DeliveryStatus;
  complete : bool;
}.

Definition new_request (expected_boundary : text) : Request :=
  MkRequest (MkResult [] None) expected_boundary not_started false.

Inductive Signal := SIGTERM | SIGKILL.

(** What [mutex] guards.  [pending] names requests of [requests]; [notices] is the stream
    of notifications; [signals] and [log] are records. *)
Record Shared := MkShared {
  requests : gmap nat Request;
  pending : list nat;
  fatal_error : option ProtocolError;
  notices : Stream;
  startup_seen : bool;
  ready : bool;
  closing : bool;
  saw_exit : bool;
  reader_done : bool;
  child_exited : bool;
  reaped : bool;
  shutdown_complete : bool;
  shutdown_error : option ProtocolError;
  signals : list Signal;
  log : list ControlBlock;
}.

Definition set_requests rs ps l (s : Shared) : Shared :=
  MkShared rs ps (fatal_error s) (notices s) (startup_seen s) (ready s) (closing s) (saw_exit s)
    (reader_done s) (child_exited s) (reaped s) (shutdown_complete s) (shutdown_error s) (signals s) l.
Definition set_fatal e n (s : Shared) : Shared :=
  MkShared (requests s) (pending s) e n (startup_seen s) (ready s) (closing s) (saw_exit s)
    (reader_done s) (child_exited s) (reaped s) (shutdown_complete s) (shutdown_error s) (signals s) (log s).
Definition set_notices n x (s : Shared) : Shared :=
  MkShared (requests s) (pending s) (fatal_error s) n (startup_seen s) (ready s) (closing s) x
    (reader_done s) (child_exited s) (reaped s) (shutdown_complete s) (shutdown_error s) (signals s) (log s).
Definition set_startup seen rdy (s : Shared) : Shared :=
  MkShared (requests s) (pending s) (fatal_error s) (notices s) seen rdy (closing s) (saw_exit s)
    (reader_done s) (child_exited s) (reaped s) (shutdown_complete s) (shutdown_error s) (signals s) (log s).
Definition set_closing (s : Shared) : Shared :=
  MkShared (requests s) (pending s) (fatal_error s) (notices s) (startup_seen s) (ready s) true (saw_exit s)
    (reader_done s) (child_exited s) (reaped s) (shutdown_complete s) (shutdown_error s) (signals s) (log s).
Definition set_reader_done (s : Shared) : Shared :=
  MkShared (requests s) (pending s) (fatal_error s) (notices s) (startup_seen s) (ready s) (closing s) (saw_exit s)
    true (child_exited s) (reaped s) (shutdown_complete s) (shutdown_error s) (signals s) (log s).
Definition set_child exited gone (s : Shared) : Shared :=
  MkShared (requests s) (pending s) (fatal_error s) (notices s) (startup_seen s) (ready s) (closing s) (saw_exit s)
    (reader_done s) exited gone (shutdown_complete s) (shutdown_error s) (signals s) (log s).
Definition set_shutdown e (s : Shared) : Shared :=
  MkShared (requests s) (pending s) (fatal_error s) (notices s) (startup_seen s) (ready s) (closing s) (saw_exit s)
    (reader_done s) (child_exited s) (reaped s) true e (signals s) (log s).
Definition set_signals l (s : Shared) : Shared :=
  MkShared (requests s) (pending s) (fatal_error s) (notices s) (startup_seen s) (ready s) (closing s) (saw_exit s)
    (reader_done s) (child_exited s) (reaped s) (shutdown_complete s) (shutdown_error s) l (log s).

Definition failed_already (s : Shared) : bool := bool_decide (is_Some (fatal_error s)).

(** A call of [execute]: what is left of it.  [Writing] to [Sent] hold the writer: about to
    look at the connection, about to write, and with bytes written and not yet counted. *)
Inductive Stage :=
  | Rendered (line : text)
  | Writing (frame : text) (n : nat)
  | Cleared (frame : text) (n : nat)
  | Sent (frame : text) (n count : nat)
  | Waiting (poison : bool)
  | Poisoning
  | Signalling
  | Collecting
  | Returned (r : ControlRequestResult).

Inductive Holder := ByCall (id : nat) | ByShutdown.

(** What [write_mutex] guards.  [accepted], [counts] and [wire] are records. *)
Record Writer := MkWriter {
  holder : option Holder;
  input_open : bool;
  partial_command_frame : bool;
  next_boundary : N;
  accepted : list (nat * text);
  counts : gmap nat nat;
  wire : text;
}.

Definition set_holder h (w : Writer) : Writer :=
  MkWriter h (input_open w) (partial_command_frame w) (next_boundary w) (accepted w) (counts w) (wire w).
Definition close_input (w : Writer) : Writer :=
  MkWriter (holder w) false (partial_command_frame w) (next_boundary w) (accepted w) (counts w) (wire w).
Definition set_partial b (w : Writer) : Writer :=
  MkWriter (holder w) (input_open w) b (next_boundary w) (accepted w) (counts w) (wire w).
Definition set_boundary n (w : Writer) : Writer :=
  MkWriter (holder w) (input_open w) (partial_command_frame w) n (accepted w) (counts w) (wire w).
Definition record_accepted a c (w : Writer) : Writer :=
  MkWriter (holder w) (input_open w) (partial_command_frame w) (next_boundary w) a c (wire w).
Definition record_wire c b (w : Writer) : Writer :=
  MkWriter (holder w) (input_open w) (partial_command_frame w) (next_boundary w) (accepted w) c b.

(** The reader thread: between reads, with events of a chunk left, past its loop, past the
    decoder's end, then as it takes the connection down. *)
Inductive ReaderPhase :=
  | Reading | Accepting (events : list Event) | LoopLeft | Ending | ClosingInput | Terminating | Draining
  | Leaving | Gone.

Record Reader := MkReader {
  phase : ReaderPhase;
  parser : Parser;
  output_open : bool;
  error_open : bool;
  stderr_tail : text;
}.

Inductive WaiterPhase := Watching | Reaping | WaiterGone.

(** The call of [shutdown] that has the lifecycle lock. *)
Inductive ShutdownStage :=
  | Entered | ClosingDown | WantWriter | Newline | CloseInput | Graceful | Terminate | Terminated | Kill | LastWait | Joining.

Record System := MkSystem {
  shared : Shared;
  writer : Writer;
  reader : Reader;
  waiter : WaiterPhase;
  calls : gmap nat Stage;
  quitting : option ShutdownStage;
  answers : list (expected ProtocolError unit);
}.

Definition set_shared x (s : System) : System :=
  MkSystem x (writer s) (reader s) (waiter s) (calls s) (quitting s) (answers s).
Definition set_writer x (s : System) : System :=
  MkSystem (shared s) x (reader s) (waiter s) (calls s) (quitting s) (answers s).
Definition set_reader x (s : System) : System :=
  MkSystem (shared s) (writer s) x (waiter s) (calls s) (quitting s) (answers s).
Definition set_waiter x (s : System) : System :=
  MkSystem (shared s) (writer s) (reader s) x (calls s) (quitting s) (answers s).
Definition set_stage id x (s : System) : System :=
  MkSystem (shared s) (writer s) (reader s) (waiter s) (<[id := x]> (calls s)) (quitting s) (answers s).
Definition set_quitting x (s : System) : System :=
  MkSystem (shared s) (writer s) (reader s) (waiter s) (calls s) x (answers s).
Definition answer_shutdown r (s : System) : System :=
  MkSystem (shared s) (writer s) (reader s) (waiter s) (calls s) None (answers s ++ [r]).
Definition set_phase p (s : System) : System :=
  set_reader (MkReader p (parser (reader s)) (output_open (reader s)) (error_open (reader s)) (stderr_tail (reader s))) s.

Section sessions.
Context {pipes : Pipe}.
Variable seed : BoundarySeed.
Variable daemon_version : Version.

(** * Under the mutex *)

Definition signal_child_locked (signal : Signal) (s : Shared) : Shared :=
  if reaped s then s else set_signals (signals s ++ [signal]) s.

(** Every request of a list changed, and the list forgotten. *)
Definition complete_all (f : Request -> Request) (s : Shared) : Shared :=
  set_requests (foldr (fun id rs => alter f id rs) (requests s) (pending s)) [] (log s) s.

Definition fail_request (fatal : ProtocolError) (r : Request) : Request :=
  let result :=
    match connection_error (result r) with
    | None => MkResult (blocks (result r)) (Some (MkProtocolError (message fatal) (delivery r)))
    | Some _ => result r
    end in
  MkRequest result (boundary r) (delivery r) true.

Definition fail_locked (failure : ProtocolError) (s : Shared) : Shared :=
  let fatal := default failure (fatal_error s) in
  let s := complete_all (fail_request fatal) (set_fatal (Some fatal) (notices s) s) in
  set_fatal (fatal_error s) (close (notices s)) s.

Definition accept_event (event : Event) (s : Shared) : Shared :=
  match event with
  | EventNotification n => set_notices (push n (notices s)) (saw_exit s || is_exit n) s
  | EventBlock block =>
      match guard_flags block with
      | None => fail_locked (protocol_error (txt "control block has invalid guard flags")) s
      | Some flags =>
          if negb (startup_seen s) then
            let s := set_startup true (ready s) s in
            if negb (flags =? 0)%N || match terminal block with terminal_end => false | terminal_error => true end
            then fail_locked (protocol_error (txt "control client attach failed")) s
            else set_startup true true s
          else if (flags =? 0)%N then s
          else if negb (flags =? 1)%N
          then fail_locked (protocol_error (txt "control block has unsupported guard flags")) s
          else
            match pending s with
            | [] =>
                if negb (closing s) && negb (failed_already s)
                then fail_locked (protocol_error (txt "control block has no pending request")) s
                else s
            | id :: rest =>
                match requests s !! id with
                | None => s
                | Some r =>
                    let log := log s ++ [block] in
                    if is_boundary block (boundary r) then
                      set_requests (<[id := MkRequest (result r) (boundary r) replied true]> (requests s)) rest log s
                    else
                      let result := MkResult (blocks (result r) ++ [block]) (connection_error (result r)) in
                      set_requests (<[id := MkRequest result (boundary r) replied (complete r)]> (requests s))
                        (pending s) log s
                end
            end
      end
  end.

(** * A call *)

Definition failed (e : ProtocolError) : ControlRequestResult := MkResult [] (Some e).

(** [execute] up to the writer's lock. *)
Definition begin_call (group : list (list text)) (late : bool) : Stage :=
  match guard_group group daemon_version with
  | Some refusal => Returned (failed (not_started_error (diagnostic refusal)))
  | None =>
      match render_request group with
      | Unexpected e => Returned (failed e)
      | Value line =>
          if late then Returned (failed (not_started_error (txt "control request deadline expired before dispatch")))
          else Rendered line
      end
  end.

(** From the writer's lock to the request's place in the queue. *)
Definition enter (id : nat) (line : text) (late : bool) (s : System) : option System :=
  if late
  then Some (set_stage id (Returned (failed (not_started_error (txt "control writer acquisition deadline expired")))) s)
  else
    match holder (writer s) with
    | Some _ => None
    | None =>
        let name := boundary_name seed (next_boundary (writer s)) in
        let frame := line ++ name ++ [line_feed] in
        let s := set_writer (set_boundary ((next_boundary (writer s) + 1) mod 2 ^ 64)%N (writer s)) s in
        let sh := shared s in
        match fatal_error sh with
        | Some e => Some (set_stage id (Returned (failed (MkProtocolError (message e) not_started))) s)
        | None =>
            if negb (ready sh) || closing sh || shutdown_complete sh
            then Some (set_stage id (Returned (failed
                   (not_started_error (txt "control connection is not accepting requests")))) s)
            else
              let sh := set_requests (<[id := new_request (boundary_reply name)]> (requests sh))
                          (pending sh ++ [id]) (log sh) sh in
              let w := record_accepted (accepted (writer s) ++ [(id, frame)]) (<[id := 0]> (counts (writer s)))
                         (set_holder (Some (ByCall id)) (writer s)) in
              Some (set_stage id (Writing frame 0) (set_writer w (set_shared sh s)))
        end
    end.

(** The end of a write that failed: the connection is poisoned, unless it is closing. *)
Definition write_failed (id : nat) (e : ProtocolError) (n : nat) (s : System) : System :=
  let e := MkProtocolError (message e) (if (n =? 0)%nat then not_started else indeterminate) in
  let poison := negb (closing (shared s)) in
  let sh := if poison then fail_locked e (set_closing (shared s)) else shared s in
  set_stage id (Waiting poison) (set_writer (set_holder None (writer s)) (set_shared sh s)).

(** The top of the loop of [write_bytes]. *)
Definition write_check (id : nat) (frame : text) (n : nat) (s : System) : System :=
  if (length frame <=? n)%nat
  then set_stage id (Waiting false) (set_writer (set_holder None (writer s)) s)
  else if closing (shared s) || failed_already (shared s)
  then write_failed id (protocol_error (txt "control write cancelled by connection closure")) n s
  else set_stage id (Cleared frame n) s.

(** The system takes [count] bytes. *)
Definition write_bytes (id : nat) (frame : text) (n count : nat) (s : System) : option System :=
  if (0 <? count)%nat && (n + count <=? length frame)%nat && input_open (writer s) then
    Some (set_stage id (Sent frame n count)
      (set_writer (record_wire (<[id := n + count]> (counts (writer s)))
         (wire (writer s) ++ firstn count (skipn n frame)) (writer s)) s))
  else None.

Definition advance_delivery (next : DeliveryStatus) (r : Request) : Request :=
  if bool_decide (delivery r = replied) then r else MkRequest (result r) (boundary r) next (complete r).

(** They are counted. *)
Definition count_bytes (id : nat) (frame : text) (n count : nat) (s : System) : System :=
  let n := n + count in
  let partial := negb (n =? length frame)%nat in
  let sh := shared s in
  let sh := set_requests (alter (advance_delivery (if partial then indeterminate else written)) id (requests sh))
              (pending sh) (log sh) sh in
  set_stage id (Writing frame n) (set_writer (set_partial partial (writer s)) (set_shared sh s)).

Definition request_complete (id : nat) (s : Shared) : bool :=
  match requests s !! id with Some r => complete r | None => false end.

(** The wait for the reply ends: it is there, or the deadline passed. *)
Definition after_wait (id : nat) (poison : bool) (s : System) : System :=
  set_stage id (if poison then Poisoning else Collecting) s.
Definition await (id : nat) (poison : bool) (s : System) : option System :=
  if request_complete id (shared s) then Some (after_wait id poison s) else None.
Definition expire (id : nat) (s : System) : option System :=
  if request_complete id (shared s) then None
  else Some (after_wait id true (set_shared
         (fail_locked (protocol_error (txt "control request deadline expired after dispatch"))
            (set_closing (shared s))) s)).

(** [close_fd(input)] under the writer's lock. *)
Definition close_writer (s : System) : option System :=
  match holder (writer s) with
  | Some _ => None
  | None => Some (set_writer (close_input (writer s)) s)
  end.

(** The last section of [execute]. *)
Definition collected (r : Request) : ControlRequestResult :=
  MkResult (blocks (result r))
    ((fun e => MkProtocolError (message e) (delivery r)) <$> connection_error (result r)).
Definition collect_result (id : nat) (s : System) : option System :=
  r ← requests (shared s) !! id; Some (set_stage id (Returned (collected r)) s).

(** * The reader *)

Definition set_parser p (r : Reader) : Reader :=
  MkReader (phase r) p (output_open r) (error_open r) (stderr_tail r).

(** A chunk read from the client. *)
Definition read_output (chunk : bytes) (s : System) : System :=
  let '(p, parsed) := feed (parser (reader s)) chunk in
  let s := set_reader (set_parser p (reader s)) s in
  match parsed with
  | Unexpected e => set_shared (fail_locked e (shared s)) s
  | Value events => set_phase (Accepting events) s
  end.

Definition output_ends (failure : option ProtocolError) (s : System) : System :=
  let r := reader s in
  let s := set_reader (MkReader (phase r) (parser r) false (error_open r) (stderr_tail r)) s in
  match failure with
  | Some e => set_shared (fail_locked e (shared s)) s
  | None => s
  end.

Definition kMaximumErrorTail : nat := 64 * 1024.

Definition read_error (chunk : bytes) (s : System) : System :=
  let r := reader s in
  let available := kMaximumErrorTail - Nat.min kMaximumErrorTail (length (stderr_tail r)) in
  set_reader (MkReader (phase r) (parser r) (output_open r) (error_open r)
                (stderr_tail r ++ firstn (Nat.min available (length chunk)) chunk)) s.

Definition error_ends (failure : option ProtocolError) (s : System) : System :=
  let r := reader s in
  let s := set_reader (MkReader (phase r) (parser r) (output_open r) false (stderr_tail r)) s in
  match failure with
  | Some e => set_shared (fail_locked e (shared s)) s
  | None => s
  end.

(** [parser.finish] once the loop is left. *)
Definition finish_reading (s : System) : System :=
  let '(p, finished) := finish (parser (reader s)) in
  let s := set_phase Ending (set_reader (set_parser p (reader s)) s) in
  match finished with
  | Unexpected e => set_shared (fail_locked e (shared s)) s
  | Value _ => s
  end.

(** The section that ends the reader: why the client is gone, and whether to take it
    down. *)
Definition end_reader (s : System) : System :=
  let sh := shared s in
  let sh := if negb (saw_exit sh) && negb (failed_already sh)
            then fail_locked (protocol_error (txt "control client exited without %exit")) sh else sh in
  let sh := if negb (bool_decide (pending sh = []))
            then fail_locked (protocol_error (txt "control client exited with pending requests")) sh else sh in
  if failed_already sh
  then set_phase ClosingInput (set_shared (set_closing sh) s)
  else set_phase Draining (set_shared sh s).

Definition close_outputs (s : System) : System :=
  let r := reader s in
  set_phase Leaving (set_shared (set_reader_done (shared s))
    (set_reader (MkReader (phase r) (parser r) false false (stderr_tail r)) s)).

(** * Shutting down *)

Definition shut_request (r : Request) : Request :=
  let result :=
    match connection_error (result r) with
    | None => MkResult (blocks (result r)) (Some (protocol_error (txt "control connection shut down")))
    | Some _ => result r
    end in
  MkRequest result (boundary r) (delivery r) true.

Definition shutdown_answer (s : Shared) : expected ProtocolError unit :=
  match shutdown_error s with Some e => Unexpected e | None => Value tt end.

Definition check_shutdown (s : System) : System :=
  if shutdown_complete (shared s) then answer_shutdown (shutdown_answer (shared s)) s
  else set_quitting (Some ClosingDown) s.

Definition close_requests (s : System) : System :=
  set_quitting (Some WantWriter) (set_shared (complete_all shut_request (set_closing (shared s))) s).

Definition take_writer (late soon : bool) (s : System) : option System :=
  if late then Some (answer_shutdown (Unexpected (protocol_error (txt "control shutdown writer deadline expired"))) s)
  else
    match holder (writer s) with
    | Some _ => None
    | None =>
        let w := writer s in
        let newline := input_open w && negb (partial_command_frame w) && soon in
        Some (set_quitting (Some (if newline then Newline else CloseInput))
                (set_writer (set_holder (Some ByShutdown) w) s))
    end.

(** The write of the empty line that detaches the client; whether it succeeds does not
    matter. *)
Definition write_newline (sent : bool) (s : System) : System :=
  let w := writer s in
  let w := if sent then record_wire (counts w) (wire w ++ [line_feed]) w else w in
  set_quitting (Some CloseInput) (set_writer w s).

Definition gone (s : Shared) : bool := reader_done s && reaped s.

Definition wait_gone (timed_out : bool) (next : ShutdownStage) (s : System) : option System :=
  if gone (shared s) || timed_out then Some (set_quitting (Some next) s) else None.

Definition quit_signal (signal : Signal) (next : ShutdownStage) (s : System) : System :=
  set_quitting (Some next) (set_shared (signal_child_locked signal (shared s)) s).

Definition last_wait (timed_out : bool) (s : System) : option System :=
  if gone (shared s) then Some (set_quitting (Some Joining) s)
  else if timed_out
  then Some (answer_shutdown (Unexpected (protocol_error (txt "control client shutdown deadline expired"))) s)
  else None.

(** Both threads are joined, and the outcome is kept. *)
Definition finish_shutdown (s : System) : option System :=
  match phase (reader s), waiter s with
  | Gone, WaiterGone =>
      let e :=
        match fatal_error (shared s) with
        | Some e => Some e
        | None => if negb (saw_exit (shared s))
                  then Some (protocol_error (txt "control client did not emit %exit")) else None
        end in
      let sh := set_shutdown e (shared s) in
      Some (answer_shutdown (shutdown_answer sh) (set_shared sh s))
  | _, _ => None
  end.

(** * Actions *)

Inductive action :=
  (* a call of [execute] *)
  | Call (id : nat) (group : list (list text)) (late : bool)
  | Enter (id : nat) (late : bool)
  | CheckWrite (id : nat)
  | RetryWrite (id : nat)
  | WriteBytes (id : nat) (count : nat)
  | CountBytes (id : nat)
  | WriteFails (id : nat) (e : ProtocolError)
  | Await (id : nat)
  | Expire (id : nat)
  | ClosePoisoned (id : nat)
  | SignalPoisoned (id : nat)
  | Collect (id : nat)
  (* the reader *)
  | ReadOutput (chunk : bytes)
  | OutputEnds (failure : option ProtocolError)
  | AcceptEvent
  | ReadError (chunk : bytes)
  | ErrorEnds (failure : option ProtocolError)
  | PollFails (e : ProtocolError)
  | LeaveLoop
  | FinishReading
  | ReaderThrows (e : ProtocolError)
  | EndReader
  | CloseAfterEnd
  | SignalAfterEnd
  | CloseOutputs
  | CloseNotices
  (* the thread that waits for the client *)
  | ChildExits
  | ChildReaped
  | ChildUnknown
  | WaitFails (e : ProtocolError)
  (* who reads notifications *)
  | Notices (o : op)
  (* a call of [shutdown] *)
  | Shutdown (late : bool)
  | CheckShutdown
  | CloseRequests
  | TakeWriter (late soon : bool)
  | WriteNewline (sent : bool)
  | CloseQuitting
  | QuitWait (timed_out : bool)
  | QuitSignal
  | FinishShutdown.

(** What is given to the reader in its loop and before the end of it. *)
Definition in_loop (p : ReaderPhase) : bool :=
  match p with Reading | Accepting _ | LoopLeft => true | _ => false end.

Definition reader_act (a : action) (s : System) : option System :=
  match a, phase (reader s) with
  | ReadOutput chunk, Reading => if output_open (reader s) then Some (read_output chunk s) else None
  | OutputEnds failure, Reading => if output_open (reader s) then Some (output_ends failure s) else None
  | AcceptEvent, Accepting [] => Some (set_phase Reading s)
  | AcceptEvent, Accepting (event :: events) =>
      Some (set_phase (Accepting events) (set_shared (accept_event event (shared s)) s))
  | ReadError chunk, Reading => if error_open (reader s) then Some (read_error chunk s) else None
  | ErrorEnds failure, Reading => if error_open (reader s) then Some (error_ends failure s) else None
  | PollFails e, Reading => Some (set_phase LoopLeft (set_shared (fail_locked e (shared s)) s))
  | LeaveLoop, Reading =>
      if failed_already (shared s) || negb (output_open (reader s) || error_open (reader s))
      then Some (set_phase LoopLeft s) else None
  | FinishReading, LoopLeft => Some (finish_reading s)
  | ReaderThrows e, p =>
      if in_loop p then Some (set_phase Ending (set_shared (fail_locked e (shared s)) s)) else None
  | EndReader, Ending => Some (end_reader s)
  | CloseAfterEnd, ClosingInput => set_phase Terminating <$> close_writer s
  | SignalAfterEnd, Terminating => Some (set_phase Draining (set_shared (signal_child_locked SIGTERM (shared s)) s))
  | CloseOutputs, Draining => Some (close_outputs s)
  | CloseNotices, Leaving =>
      Some (set_phase Gone (set_shared (set_notices (close (notices (shared s))) (saw_exit (shared s)) (shared s)) s))
  | _, _ => None
  end.

Definition waiter_act (a : action) (s : System) : option System :=
  let sh := shared s in
  match a, waiter s with
  | ChildExits, Watching => Some (set_waiter Reaping (set_shared (set_child true (reaped sh) sh) s))
  | ChildUnknown, Watching => Some (set_waiter WaiterGone (set_shared (set_child true true sh) s))
  | ChildReaped, Reaping => Some (set_waiter WaiterGone (set_shared (set_child (child_exited sh) true sh) s))
  | WaitFails e, (Watching | Reaping) => Some (set_waiter WaiterGone (set_shared (fail_locked e sh) s))
  | _, _ => None
  end.

Definition shutdown_act (a : action) (s : System) : option System :=
  match a, quitting s with
  | Shutdown true, q =>
      Some (set_quitting q (answer_shutdown
        (Unexpected (protocol_error (txt "control shutdown acquisition deadline expired"))) s))
  | Shutdown false, None => Some (set_quitting (Some Entered) s)
  | CheckShutdown, Some Entered => Some (check_shutdown s)
  | CloseRequests, Some ClosingDown => Some (close_requests s)
  | TakeWriter late soon, Some WantWriter => take_writer late soon s
  | WriteNewline sent, Some Newline => Some (write_newline sent s)
  | CloseQuitting, Some CloseInput =>
      Some (set_quitting (Some Graceful) (set_writer (set_holder None (close_input (writer s))) s))
  | QuitWait timed_out, Some Graceful => wait_gone timed_out Terminate s
  | QuitSignal, Some Terminate => Some (quit_signal SIGTERM Terminated s)
  | QuitWait timed_out, Some Terminated => wait_gone timed_out Kill s
  | QuitSignal, Some Kill => Some (quit_signal SIGKILL LastWait s)
  | QuitWait timed_out, Some LastWait => last_wait timed_out s
  | FinishShutdown, Some Joining => finish_shutdown s
  | _, _ => None
  end.

Definition call_act (a : action) (s : System) : option System :=
  match a with
  | Call id group late =>
      match calls s !! id with Some _ => None | None => Some (set_stage id (begin_call group late) s) end
  | Enter id late =>
      match calls s !! id with Some (Rendered line) => enter id line late s | _ => None end
  | CheckWrite id =>
      match calls s !! id with Some (Writing frame n) => Some (write_check id frame n s) | _ => None end
  | RetryWrite id =>
      match calls s !! id with Some (Cleared frame n) => Some (set_stage id (Writing frame n) s) | _ => None end
  | WriteBytes id count =>
      match calls s !! id with Some (Cleared frame n) => write_bytes id frame n count s | _ => None end
  | CountBytes id =>
      match calls s !! id with Some (Sent frame n count) => Some (count_bytes id frame n count s) | _ => None end
  | WriteFails id e =>
      match calls s !! id with Some (Cleared frame n) => Some (write_failed id e n s) | _ => None end
  | Await id =>
      match calls s !! id with Some (Waiting poison) => await id poison s | _ => None end
  | Expire id =>
      match calls s !! id with Some (Waiting _) => expire id s | _ => None end
  | ClosePoisoned id =>
      match calls s !! id with Some Poisoning => set_stage id Signalling <$> close_writer s | _ => None end
  | SignalPoisoned id =>
      match calls s !! id with
      | Some Signalling => Some (set_stage id Collecting (set_shared (signal_child_locked SIGTERM (shared s)) s))
      | _ => None
      end
  | Collect id =>
      match calls s !! id with Some Collecting => collect_result id s | _ => None end
  | _ => None
  end.

(** What the readers of notifications do to the stream; the connection alone pushes and
    closes. *)
Definition notices_act (a : action) (s : System) : option System :=
  match a with
  | Notices (Push _) | Notices Close => None
  | Notices o => Some (set_shared (set_notices (exec o (notices (shared s))).1 (saw_exit (shared s)) (shared s)) s)
  | _ => None
  end.

(** Whoever's action it is takes it. *)
Definition act (a : action) (s : System) : option System :=
  match call_act a s with
  | Some s' => Some s'
  | None =>
      match reader_act a s with
      | Some s' => Some s'
      | None =>
          match waiter_act a s with
          | Some s' => Some s'
          | None => match notices_act a s with Some s' => Some s' | None => shutdown_act a s end
          end
      end
  end.

Fixpoint run (l : list action) (s : System) : option System :=
  match l with
  | [] => Some s
  | a :: l => s' ← act a s; run l s'
  end.

(** A connection whose threads have started. *)
Definition new_shared : Shared :=
  MkShared ∅ [] None (subscribe true true (new_stream kMaximumNotifications kMaximumNotificationBytes)).1
    false false false false false false false false None [] [].
Definition new_session (options : ConnectionOptions) : System :=
  MkSystem new_shared (MkWriter None true false 0 [] ∅ [])
    (MkReader Reading (new_parser (retained_reply_bytes options) (line_bytes options)) true true [])
    Watching ∅ None [].

Inductive reached (options : ConnectionOptions) : System -> Prop :=
  | reached_new : reached options (new_session options)
  | reached_act a s s' : reached options s -> act a s = Some s' -> reached options s'.
End sessions.

Section properties.
Context {pipes : Pipe}.

(** * Requests and their replies *)

Definition given (rs : gmap nat Request) (id : nat) : list ControlBlock :=
  match rs !! id with Some r => blocks (result r) | None => [] end.

Definition foreign (r : Request) (b : ControlBlock) : Prop := is_boundary b (boundary r) = false.

(** Blocks that are the replies to some requests, each ended by the request's boundary. *)
Inductive answered (rs : gmap nat Request) : list nat -> list ControlBlock -> Prop :=
  | answered_none : answered rs [] []
  | answered_one ids l id r m :
      answered rs ids l -> rs !! id = Some r -> Forall (foreign r) (blocks (result r)) ->
      is_boundary m (boundary r) = true -> answered rs (ids ++ [id]) (l ++ blocks (result r) ++ [m]).

Definition in_state (rs : gmap nat Request) (P : Request -> Prop) (id : nat) : Prop :=
  exists r, rs !! id = Some r /\ P r.

Definition settled_request (r : Request) : Prop :=
  complete r = true /\ connection_error (result r) = None /\ delivery r = replied.
Definition open_request (r : Request) : Prop :=
  Forall (foreign r) (blocks (result r)) /\ (delivery r = replied <-> blocks (result r) <> []).
Definition dropped_request (r : Request) : Prop :=
  open_request r /\ complete r = true /\ is_Some (connection_error (result r)).
Definition waiting_request (r : Request) : Prop :=
  open_request r /\ complete r = false /\ connection_error (result r) = None.

Definition closed (s : Shared) : bool := closing s || failed_already s.

(** The requests accepted, in order: those answered, those given up and those waiting. *)
Record attributed (ids : list nat) (s : Shared) (settled dropped : list nat) (l : list ControlBlock) : Prop := {
  at_ids : ids = settled ++ dropped ++ pending s;
  at_closed : if closed s then pending s = [] else dropped = [];
  at_answered : answered (requests s) settled l;
  at_log : log s = l ++ concat (given (requests s) <$> (dropped ++ pending s));
  at_tail : Forall (fun id => given (requests s) id = []) (tail (dropped ++ pending s));
  at_settled : Forall (in_state (requests s) settled_request) settled;
  at_dropped : Forall (in_state (requests s) dropped_request) dropped;
  at_waiting : Forall (in_state (requests s) waiting_request) (pending s);
}.

Record shared_ok (ids : list nat) (s : Shared) : Prop := {
  so_nodup : NoDup ids;
  so_dom : forall id, is_Some (requests s !! id) <-> id ∈ ids;
  so_attributed : exists settled dropped l, attributed ids s settled dropped l;
}.

Lemma answered_ext rs rs' ids l :
  (forall id r, id ∈ ids -> rs !! id = Some r ->
     exists r', rs' !! id = Some r' /\ blocks (result r') = blocks (result r) /\ boundary r' = boundary r) ->
  answered rs ids l -> answered rs' ids l.
Proof.
  intros Hrs H. induction H as [|ids l id r m H IH Hr Hf Hm]; [constructor|].
  destruct (Hrs id r) as (r' & Hr' & Hb & Hn); [set_solver | done|].
  rewrite <-Hb. econstructor; [|done|..].
  - apply IH. intros id' r0 Hin. apply Hrs. set_solver.
  - rewrite Hb. eapply Forall_impl; [exact Hf|]. intros b. unfold foreign. by rewrite Hn.
  - by rewrite Hn.
Qed.

Lemma in_state_ext rs rs' P Q ids :
  (forall id r, id ∈ ids -> rs !! id = Some r -> P r -> exists r', rs' !! id = Some r' /\ Q r') ->
  Forall (in_state rs P) ids -> Forall (in_state rs' Q) ids.
Proof.
  rewrite !Forall_forall. intros Hrs H id Hin. destruct (H id Hin) as (r & Hr & HP).
  destruct (Hrs id r Hin Hr HP) as (r' & ? & ?). by exists r'.
Qed.

Lemma given_ext rs rs' (ids : list nat) :
  (forall id, id ∈ ids -> given rs' id = given rs id) -> given rs' <$> ids = given rs <$> ids.
Proof. intros H. apply list_fmap_ext. intros i id Hi. apply H. by apply list_elem_of_lookup_2 in Hi. Qed.

(** Nobody's request changes in what it was given. *)
Definition same_replies (r r' : Request) : Prop :=
  blocks (result r') = blocks (result r) /\ boundary r' = boundary r /\
  (delivery r' = replied <-> delivery r = replied).

Lemma open_same r r' : same_replies r r' -> open_request r -> open_request r'.
Proof.
  intros (Hb & Hn & Hd) [Hf Hr]. unfold open_request. rewrite Hb, Hd. split; [|done].
  eapply Forall_impl; [exact Hf|]. intros b. unfold foreign. by rewrite Hn.
Qed.

(** Requests change pointwise, those waiting to [Q] requests and the others to like ones. *)
Lemma attributed_change ids s s' settled dropped dropped' l f :
  attributed ids s settled dropped l ->
  (forall id, requests s' !! id = f id <$> requests s !! id) -> log s' = log s ->
  (forall id r, requests s !! id = Some r -> same_replies r (f id r)) ->
  dropped' ++ pending s' = dropped ++ pending s ->
  (if closed s' then pending s' = [] else dropped' = []) ->
  (forall id r, id ∈ settled -> requests s !! id = Some r -> settled_request r -> settled_request (f id r)) ->
  Forall (in_state (requests s') dropped_request) dropped' ->
  Forall (in_state (requests s') waiting_request) (pending s') ->
  attributed ids s' settled dropped' l.
Proof.
  intros [Hids Hcl Hans Hlog Htail Hset Hdr Hw] Hrs Hl Hsame Heq Hcl' Hset' Hdr' Hw'.
  assert (forall id, given (requests s') id = given (requests s) id) as Hg.
  { intros id. unfold given. rewrite Hrs. destruct (requests s !! id) as [r|] eqn:E; [|done]. by apply Hsame in E as []. }
  split; try done.
  - by rewrite Heq.
  - eapply answered_ext; [|done]. intros id r _ Hr. exists (f id r). rewrite Hrs, Hr. split; [done|].
    by apply Hsame in Hr as (? & ? & _).
  - rewrite Hl, Heq, Hlog. f_equal. f_equal. symmetry. by apply given_ext.
  - rewrite Heq. eapply Forall_impl; [exact Htail|]. intros id. by rewrite Hg.
  - eapply in_state_ext; [|done]. intros id r Hin Hr HP. exists (f id r). rewrite Hrs, Hr. split; [done | by apply Hset'].
Qed.

Lemma lookup_alter_all f (ids : list nat) (rs : gmap nat Request) id :
  NoDup ids ->
  foldr (fun id rs => alter f id rs) rs ids !! id = (if bool_decide (id ∈ ids) then f else Datatypes.id) <$> rs !! id.
Proof.
  induction 1 as [|i ids Hi _ IH]; cbn [foldr].
  { rewrite bool_decide_false by apply not_elem_of_nil. by destruct (rs !! id). }
  destruct (decide (i = id)) as [->|Hne].
  - rewrite lookup_alter_eq, IH. rewrite bool_decide_false by done. rewrite bool_decide_true by set_solver.
    by destruct (rs !! id).
  - rewrite lookup_alter_ne by done. rewrite IH.
    case_bool_decide; case_bool_decide; set_solver.
Qed.

Lemma shared_ok_complete ids s s' f :
  shared_ok ids s ->
  requests s' = foldr (fun id rs => alter f id rs) (requests s) (pending s) -> pending s' = [] ->
  log s' = log s -> closed s' = true ->
  (forall r, same_replies r (f r)) -> (forall r, waiting_request r -> dropped_request (f r)) ->
  shared_ok ids s'.
Proof.
  intros [Hnd Hdom (settled & dropped & l & Hat)] Hrs Hp Hl Hcl Hsame Hf.
  pose proof Hnd as Hnd'. rewrite (at_ids _ _ _ _ _ Hat) in Hnd'.
  apply NoDup_app in Hnd' as (Hnd1 & Hdis & Hnd2). apply NoDup_app in Hnd2 as (_ & Hdis2 & Hnd2).
  assert (forall id, requests s' !! id = (if bool_decide (id ∈ pending s) then f else Datatypes.id) <$> requests s !! id) as Hlook.
  { intros id. rewrite Hrs. by apply lookup_alter_all. }
  split; [done|..].
  - intros id. by rewrite Hlook, fmap_is_Some.
  - exists settled, (dropped ++ pending s), l.
    apply (attributed_change ids s s' settled dropped _ l
             (fun id r => (if bool_decide (id ∈ pending s) then f else Datatypes.id) r)); try done.
    + intros id r _. case_bool_decide; [by apply Hsame | done].
    + rewrite Hp. by rewrite app_nil_r.
    + by rewrite Hcl.
    + intros id r Hin _ Hr. rewrite bool_decide_false; [done|]. intros Hin'. apply (Hdis id); set_solver.
    + apply Forall_app. split.
      * eapply in_state_ext; [|apply (at_dropped _ _ _ _ _ Hat)]. intros id r Hin Hr HP.
        exists r. rewrite Hlook, Hr. rewrite bool_decide_false; [done|]. intros Hin'. by apply (Hdis2 id).
      * eapply in_state_ext; [|apply (at_waiting _ _ _ _ _ Hat)]. intros id r Hin Hr HP.
        exists (f r). rewrite Hlook, Hr, bool_decide_true by done. split; [done | by apply Hf].
    + by rewrite Hp.
Qed.

Lemma fail_locked_ok ids e s s0 :
  shared_ok ids s0 -> requests s = requests s0 -> pending s = pending s0 -> log s = log s0 ->
  shared_ok ids (fail_locked e s).
Proof.
  intros H Hr Hp Hl. eapply (shared_ok_complete ids s0 _ (fail_request (default e (fatal_error s)))); try done.
  - cbn. by rewrite Hr, Hp.
  - unfold closed, failed_already. cbn. by rewrite orb_true_r.
  - intros r. unfold fail_request, same_replies. by destruct (connection_error (result r)).
  - intros r ([Hf Hd] & _ & He). unfold fail_request, dropped_request, open_request. rewrite He. cbn. eauto.
Qed.

Lemma shut_ok ids s : shared_ok ids s -> shared_ok ids (complete_all shut_request (set_closing s)).
Proof.
  intros H. eapply (shared_ok_complete ids s _ shut_request); try done.
  - intros r. unfold shut_request, same_replies. by destruct (connection_error (result r)).
  - intros r ([Hf Hd] & _ & He). unfold shut_request, dropped_request, open_request. rewrite He. cbn. eauto.
Qed.

(** Nothing of this concerns the requests. *)
Lemma shared_ok_same ids s s' :
  shared_ok ids s -> requests s' = requests s -> pending s' = pending s -> log s' = log s ->
  closed s' = closed s -> shared_ok ids s'.
Proof.
  intros [Hnd Hdom (settled & dropped & l & [])] Hr Hp Hl Hc. split; [done | by rewrite Hr|].
  exists settled, dropped, l. split; rewrite ?Hr, ?Hp, ?Hl, ?Hc; done.
Qed.

Lemma given_insert_ne rs id id' r : id <> id' -> given (<[id := r]> rs) id' = given rs id'.
Proof. intros H. unfold given. by rewrite lookup_insert_ne. Qed.

Lemma in_state_insert rs P id r (ids : list nat) :
  id ∉ ids -> Forall (in_state rs P) ids -> Forall (in_state (<[id := r]> rs) P) ids.
Proof.
  intros Hid. apply in_state_ext. intros id' r' Hin Hr HP. exists r'.
  rewrite lookup_insert_ne by set_solver. done.
Qed.

Lemma answered_insert rs id r ids l : id ∉ ids -> answered rs ids l -> answered (<[id := r]> rs) ids l.
Proof.
  intros Hid. apply answered_ext. intros id' r' Hin Hr. exists r'.
  rewrite lookup_insert_ne by set_solver. done.
Qed.

Lemma nothing_given rs (ids : list nat) :
  Forall (fun id => given rs id = []) ids -> concat (given rs <$> ids) = [].
Proof. induction 1 as [|id ids H _ IH]; cbn; [done | by rewrite H, IH]. Qed.

Lemma shared_ok_push ids s id name :
  shared_ok ids s -> id ∉ ids -> closed s = false ->
  shared_ok (ids ++ [id])
    (set_requests (<[id := new_request name]> (requests s)) (pending s ++ [id]) (log s) s).
Proof.
  intros [Hnd Hdom (settled & dropped & l & [Hids Hcl Hans Hlog Htail Hset Hdr Hw])] Hid Hc.
  rewrite Hc in Hcl. subst dropped. cbn [app] in *.
  assert (id ∉ settled /\ id ∉ pending s) as [Hid1 Hid2] by (rewrite Hids in Hid; set_solver).
  assert (given (<[id := new_request name]> (requests s)) <$> pending s = given (requests s) <$> pending s) as Hg.
  { apply given_ext. intros id' Hin. apply given_insert_ne. set_solver. }
  assert (given (<[id := new_request name]> (requests s)) id = []) as Hn
    by (unfold given; by rewrite lookup_insert_eq).
  split.
  - apply NoDup_app. split_and!; [done | set_solver | apply NoDup_singleton].
  - intros id'. cbn. rewrite lookup_insert_is_Some, Hdom, elem_of_app, list_elem_of_singleton.
    destruct (decide (id = id')); naive_solver.
  - exists settled, [], l. split; cbn -[tail].
    + by rewrite Hids, <-app_assoc.
    + unfold closed, failed_already in *. cbn in *. by rewrite Hc.
    + by apply answered_insert.
    + rewrite fmap_app, concat_app, Hg, Hlog. cbn [fmap list_fmap concat]. by rewrite Hn, !app_nil_r.
    + destruct (pending s) as [|p ps]; cbn [app tail] in *; [done|]. apply Forall_app. split; [|by constructor].
      apply Forall_forall. intros id' Hin. rewrite given_insert_ne by set_solver.
      rewrite Forall_forall in Htail. by apply Htail.
    + by apply in_state_insert.
    + done.
    + apply Forall_app. split; [by apply in_state_insert|]. constructor; [|done].
      exists (new_request name). rewrite lookup_insert_eq. split; [done|]. repeat split; cbn; try done; constructor.
Qed.

Lemma advance_same next r : next <> replied -> same_replies r (advance_delivery next r).
Proof.
  intros H. unfold advance_delivery, same_replies. case_bool_decide as Hd; [done|]. cbn. naive_solver.
Qed.

Lemma shared_ok_advance ids s next id :
  next <> replied -> shared_ok ids s ->
  shared_ok ids (set_requests (alter (advance_delivery next) id (requests s)) (pending s) (log s) s).
Proof.
  intros Hn [Hnd Hdom (settled & dropped & l & Hat)].
  assert (forall id', alter (advance_delivery next) id (requests s) !! id' =
            (if bool_decide (id = id') then advance_delivery next else Datatypes.id) <$> requests s !! id') as Hlook.
  { intros id'. case_bool_decide as Hd; [subst; by rewrite lookup_alter_eq|].
    rewrite lookup_alter_ne by done. by destruct (requests s !! id'). }
  assert (forall r, complete (advance_delivery next r) = complete r /\
            connection_error (result (advance_delivery next r)) = connection_error (result r)) as Hkeep.
  { intros r. unfold advance_delivery. by case_bool_decide. }
  split; [done|..].
  - intros id'. cbn. by rewrite Hlook, fmap_is_Some.
  - exists settled, dropped, l.
    apply (attributed_change ids s _ settled dropped _ l
             (fun id' r => (if bool_decide (id = id') then advance_delivery next else Datatypes.id) r)); try done.
    + intros id' r _. case_bool_decide; [by apply advance_same | done].
    + apply (at_closed _ _ _ _ _ Hat).
    + intros id' r _ _ Hr. case_bool_decide; [|done]. destruct Hr as (? & ? & ?). destruct (Hkeep r) as [Hk1 Hk2].
      unfold settled_request. rewrite Hk1, Hk2. unfold advance_delivery. by case_bool_decide.
    + eapply in_state_ext; [|apply (at_dropped _ _ _ _ _ Hat)]. intros id' r _ Hr (Ho & Hd1 & Hd2).
      eexists. cbn. rewrite Hlook, Hr. split; [done|]. case_bool_decide; [|done].
      destruct (Hkeep r) as [Hk1 Hk2]. unfold dropped_request. rewrite Hk1, Hk2.
      split_and!; [by eapply open_same; [apply advance_same|] | done..].
    + eapply in_state_ext; [|apply (at_waiting _ _ _ _ _ Hat)]. intros id' r _ Hr (Ho & Hd1 & Hd2).
      eexists. cbn. rewrite Hlook, Hr. split; [done|]. case_bool_decide; [|done].
      destruct (Hkeep r) as [Hk1 Hk2]. unfold waiting_request. rewrite Hk1, Hk2.
      split_and!; [by eapply open_same; [apply advance_same|] | done..].
Qed.

(** A block for the request at the head. *)
Lemma shared_ok_block ids s id rest r block :
  shared_ok ids s -> pending s = id :: rest -> requests s !! id = Some r ->
  shared_ok ids
    (if is_boundary block (boundary r)
     then set_requests (<[id := MkRequest (result r) (boundary r) replied true]> (requests s)) rest (log s ++ [block]) s
     else set_requests (<[id := MkRequest (MkResult (blocks (result r) ++ [block]) (connection_error (result r)))
                                  (boundary r) replied (complete r)]> (requests s)) (pending s) (log s ++ [block]) s).
Proof.
  intros [Hnd Hdom (settled & dropped & l & [Hids Hcl Hans Hlog Htail Hset Hdr Hw])] Hp Hr.
  rewrite Hp in *. destruct (closed s) eqn:Hc; [done|]. subst dropped. cbn [app tail] in *.
  rewrite Hids in Hnd. apply NoDup_app in Hnd as (Hnd1 & Hdis & [Hid2 Hnd2]%NoDup_cons).
  assert (id ∉ settled) as Hid1 by (intros H; apply (Hdis id); set_solver).
  apply Forall_cons in Hw as [(r' & Hr' & ((Hf & Hd) & Hcomp & He)) Hw]. rewrite Hr in Hr'. injection Hr' as <-.
  rewrite fmap_cons in Hlog. cbn [concat] in Hlog. rewrite (nothing_given _ _ Htail), app_nil_r in Hlog.
  unfold given in Hlog at 1. rewrite Hr in Hlog.
  assert (forall r', concat (given (<[id := r']> (requests s)) <$> rest) = []) as Hrest.
  { intros r'. apply nothing_given, Forall_forall. intros id' Hin. rewrite given_insert_ne by set_solver.
    rewrite Forall_forall in Htail. by apply Htail. }
  assert (forall r', Forall (fun id' => given (<[id := r']> (requests s)) id' = []) rest) as Hrest'.
  { intros r'. apply Forall_forall. intros id' Hin. rewrite given_insert_ne by set_solver.
    rewrite Forall_forall in Htail. by apply Htail. }
  assert (forall r' id', is_Some (<[id := r']> (requests s) !! id') <-> id' ∈ ids) as Hdom'.
  { intros r' id'. rewrite lookup_insert_is_Some, Hdom. destruct (decide (id = id')) as [<-|]; [|naive_solver].
    rewrite Hids. set_solver. }
  destruct (is_boundary block (boundary r)) eqn:Hb; (split; [rewrite Hids; apply NoDup_app; split_and!; [done..|by constructor] | apply Hdom' |]).
  - exists (settled ++ [id]), [], (l ++ blocks (result r) ++ [block]). split; cbn -[tail].
    + by rewrite Hids, <-app_assoc.
    + unfold closed, failed_already in *. cbn in *. by rewrite Hc.
    + apply (answered_one _ settled l id (MkRequest (result r) (boundary r) replied true)); try done.
      * by apply answered_insert.
      * by rewrite lookup_insert_eq.
    + rewrite Hrest, app_nil_r, Hlog. by rewrite <-app_assoc.
    + destruct rest as [|p rest]; [done|]. specialize (Hrest' (MkRequest (result r) (boundary r) replied true)).
      by apply Forall_cons in Hrest' as [_ ?].
    + apply Forall_app. split; [by apply in_state_insert|]. constructor; [|done].
      eexists. rewrite lookup_insert_eq. split; [done|]. by repeat split.
    + done.
    + by apply in_state_insert.
  - exists settled, [], l. split; cbn -[tail]; rewrite ?Hp.
    + by rewrite Hids.
    + unfold closed, failed_already in *. cbn in *. by rewrite Hc.
    + by apply answered_insert.
    + rewrite Hrest, app_nil_r, Hlog, <-app_assoc. unfold given. by rewrite lookup_insert_eq.
    + cbn [app tail]. apply Hrest'.
    + by apply in_state_insert.
    + done.
    + constructor; [|by apply in_state_insert].
      eexists. rewrite lookup_insert_eq. split; [done|]. repeat split; cbn; try done.
      * apply Forall_app. split; [done|]. by constructor.
      * intros _ ?. by destruct (blocks (result r)).
Qed.

Lemma shared_ok_event ids event s : shared_ok ids s -> shared_ok ids (accept_event event s).
Proof.
  intros H. destruct event as [block|n]; cbn [accept_event].
  2:{ by apply (shared_ok_same _ s). }
  destruct (guard_flags block) as [flags|]; [|by apply (fail_locked_ok _ _ _ s)].
  destruct (startup_seen s); cbn [negb].
  2:{ destruct (_ || _); [by apply (fail_locked_ok _ _ _ s) | by apply (shared_ok_same _ s)]. }
  destruct (flags =? 0)%N; [done|]. destruct (negb (flags =? 1)%N); [by apply (fail_locked_ok _ _ _ s)|].
  destruct (pending s) as [|id rest] eqn:Hp.
  { destruct (_ && _); [by apply (fail_locked_ok _ _ _ s) | done]. }
  destruct (requests s !! id) as [r|] eqn:Hr; [|done].
  pose proof (shared_ok_block ids s id rest r block H Hp Hr) as Hb. rewrite Hp in Hb.
  by destruct (is_boundary block (boundary r)).
Qed.

(** * What tmux answered, request by request *)

(** The blocks up to the first that is the boundary, and those after it. *)
Fixpoint until_boundary (expected_boundary : text) (l : list ControlBlock) :
    list ControlBlock * option (list ControlBlock) :=
  match l with
  | [] => ([], None)
  | b :: l =>
      if is_boundary b expected_boundary then ([], Some l)
      else let '(mine, after) := until_boundary expected_boundary l in (b :: mine, after)
  end.

(** A stream of blocks cut at the boundaries of requests in order: what belongs to each, and
    whether its boundary was there. *)
Fixpoint split_replies (boundaries : list text) (l : list ControlBlock) : list (list ControlBlock * bool) :=
  match boundaries with
  | [] => []
  | b :: rest =>
      let '(mine, after) := until_boundary b l in
      match after with
      | Some after => (mine, true) :: split_replies rest after
      | None => (mine, false) :: split_replies rest []
      end
  end.

Lemma until_foreign b mine l :
  Forall (fun m => is_boundary m b = false) mine ->
  until_boundary b (mine ++ l) = (mine ++ (until_boundary b l).1, (until_boundary b l).2).
Proof.
  induction 1 as [|m mine Hm _ IH]; cbn [app until_boundary]; [by destruct (until_boundary b l)|].
  by rewrite Hm, IH.
Qed.

Definition boundary_of (rs : gmap nat Request) (id : nat) : text :=
  match rs !! id with Some r => boundary r | None => [] end.

Lemma split_answered rs ids l names l' :
  answered rs ids l ->
  split_replies ((boundary_of rs <$> ids) ++ names) (l ++ l') =
  ((fun id => (given rs id, true)) <$> ids) ++ split_replies names l'.
Proof.
  intros H. revert names l'. induction H as [|ids l id r m H IH Hr Hf Hm]; intros names l'; [done|].
  rewrite !fmap_app, <-!app_assoc, IH. f_equal. cbn [fmap list_fmap app split_replies].
  unfold boundary_of, given. rewrite Hr. rewrite until_foreign by done. cbn [app until_boundary]. rewrite Hm.
  cbn [fst snd]. by rewrite app_nil_r.
Qed.

(** What a request was given, and whether it was given all. *)
Definition outcome_of (rs : gmap nat Request) (id : nat) : list ControlBlock * bool :=
  match rs !! id with
  | Some r => (blocks (result r), complete r && negb (bool_decide (is_Some (connection_error (result r)))))
  | None => ([], false)
  end.

Lemma split_open rs ids :
  Forall (in_state rs open_request) ids -> Forall (fun id => given rs id = []) (tail ids) ->
  split_replies (boundary_of rs <$> ids) (concat (given rs <$> ids)) = (fun id => (given rs id, false)) <$> ids.
Proof.
  intros Ho Ht. destruct ids as [|id ids]; [done|]. apply Forall_cons in Ho as [(r & Hr & [Hf _]) _].
  assert (given rs id = blocks (result r)) as Hg by (unfold given; by rewrite Hr).
  assert (boundary_of rs id = boundary r) as Hn by (unfold boundary_of; by rewrite Hr).
  cbn [tail] in Ht. cbn [fmap list_fmap concat split_replies]. rewrite Hg, Hn, (nothing_given _ _ Ht).
  rewrite until_foreign by done. cbn [until_boundary fst snd]. rewrite app_nil_r. f_equal.
  clear -Ht. induction ids as [|i ids IH]; [done|]. apply Forall_cons in Ht as [Hi Ht].
  cbn [fmap list_fmap split_replies until_boundary]. by rewrite Hi, IH.
Qed.

Lemma attributed_split ids s :
  shared_ok ids s ->
  split_replies (boundary_of (requests s) <$> ids) (log s) = outcome_of (requests s) <$> ids.
Proof.
  intros [_ _ (settled & dropped & l & [Hids Hcl Hans Hlog Htail Hset Hdr Hw])].
  rewrite Hids, Hlog, (fmap_app (boundary_of _) settled), split_answered by done.
  rewrite (fmap_app (outcome_of _) settled). f_equal.
  - apply list_fmap_ext. intros i id Hi. apply list_elem_of_lookup_2 in Hi.
    rewrite Forall_forall in Hset. destruct (Hset id Hi) as (r & Hr & Hc & He & _).
    unfold given, outcome_of. rewrite Hr, Hc, He. by rewrite bool_decide_false by (by intros []).
  - rewrite split_open; [| |done].
    + apply list_fmap_ext. intros i id Hi. apply list_elem_of_lookup_2 in Hi.
      apply elem_of_app in Hi as [Hi|Hi].
      * rewrite Forall_forall in Hdr. destruct (Hdr id Hi) as (r & Hr & _ & Hc & He).
        unfold given, outcome_of. rewrite Hr, Hc, bool_decide_true by done. done.
      * rewrite Forall_forall in Hw. destruct (Hw id Hi) as (r & Hr & _ & Hc & He).
        unfold given, outcome_of. by rewrite Hr, Hc.
    + apply Forall_app. split; (eapply in_state_ext; [|eassumption]); intros id r _ Hr Ho; exists r;
        (split; [done|]); by destruct Ho.
Qed.

(** * The wire *)

Definition ids_of (w : Writer) : list nat := (accepted w).*1.

(** A call that has the writer. *)
Definition writes (st : Stage) : bool :=
  match st with Writing _ _ | Cleared _ _ | Sent _ _ _ => true | _ => false end.
Definition quit_writes (q : option ShutdownStage) : bool :=
  match q with Some Newline | Some CloseInput => true | _ => false end.

Definition count_of (w : Writer) (id : nat) : nat := default 0 (counts w !! id).

(** The bytes of a request a call knows to be on the wire. *)
Definition counted (w : Writer) (cs : gmap nat Stage) (id : nat) : nat :=
  match cs !! id with Some (Sent _ n _) => n | _ => count_of w id end.

(** What [count] bytes of [total] on the wire make of a request. *)
Definition status (count total : nat) : DeliveryStatus :=
  if (count =? 0)%nat then not_started else if (count =? total)%nat then written else indeterminate.

Definition put (w : Writer) (p : nat * text) : text := firstn (count_of w p.1) p.2.
Definition whole (w : Writer) (p : nat * text) : Prop := count_of w p.1 = length p.2.

(** Nothing of it is there, or everything. *)
Definition uncut (w : Writer) (p : nat * text) : Prop := count_of w p.1 = 0 \/ whole w p.

Definition holds (w : Writer) (id : nat) (frame : text) (n : nat) : Prop :=
  holder w = Some (ByCall id) /\ last (accepted w) = Some (id, frame) /\ count_of w id = n /\ n <= length frame.

(** Where a call stands, in terms of the rest. *)
Definition stage_ok (sh : Shared) (w : Writer) (id : nat) (st : Stage) : Prop :=
  match st with
  | Rendered _ => id ∉ ids_of w
  | Writing frame n => holds w id frame n
  | Cleared frame n => holds w id frame n /\ n < length frame
  | Sent frame n count => holds w id frame (n + count) /\ 0 < count
  | Waiting poison => id ∈ ids_of w /\ (poison = true -> request_complete id sh = true)
  | Poisoning | Signalling | Collecting => id ∈ ids_of w /\ request_complete id sh = true
  | Returned r =>
      if bool_decide (id ∈ ids_of w)
      then exists q, requests sh !! id = Some q /\ complete q = true /\ r = collected q
      else exists e, r = failed e /\ error_delivery e = not_started
  end.

Record session_ok (sh : Shared) (w : Writer) (cs : gmap nat Stage) (q : option ShutdownStage) : Prop := {
  se_shared : shared_ok (ids_of w) sh;
  se_stage : forall id st, cs !! id = Some st -> stage_ok sh w id st;
  se_called : forall id, id ∈ ids_of w -> is_Some (cs !! id);
  se_holder : forall id, holder w = Some (ByCall id) -> exists st, cs !! id = Some st /\ writes st = true;
  se_quit : quit_writes q = true <-> holder w = Some ByShutdown;
  se_whole : forall before p, accepted w = before ++ [p] ->
    Forall (whole w) before /\
    (count_of w p.1 < length p.2 -> holder w = Some (ByCall p.1) \/ closed sh = true);
  se_fits : forall p, p ∈ accepted w -> count_of w p.1 <= length p.2;
  se_partial : partial_command_frame w =
    match last (accepted w) with
    | Some (id, frame) => (0 <? counted w cs id)%nat && (counted w cs id <? length frame)%nat
    | None => false
    end;
  se_wire : exists newline, wire w = concat (put w <$> accepted w) ++ newline /\
    (newline = [] \/
     newline = [line_feed] /\ Forall (uncut w) (accepted w) /\ (input_open w = false \/ q = Some CloseInput));
  se_newline : q = Some Newline -> input_open w = true /\ partial_command_frame w = false;
  se_delivery : forall id frame r, (id, frame) ∈ accepted w -> requests sh !! id = Some r ->
    delivery r = replied \/ delivery r = status (counted w cs id) (length frame);
}.

(** Requests only go on, and are left alone once complete. *)
Definition goes_on (sh sh' : Shared) : Prop :=
  (closed sh = true -> closed sh' = true) /\
  forall id r, requests sh !! id = Some r ->
    exists r', requests sh' !! id = Some r' /\ (delivery r' = delivery r \/ delivery r' = replied) /\
               (complete r = true -> r' = r).

Lemma request_complete_goes_on id sh sh' :
  goes_on sh sh' -> request_complete id sh = true -> request_complete id sh' = true.
Proof.
  unfold request_complete. intros [_ H]. destruct (requests sh !! id) as [r|] eqn:Hr; [|done].
  intros Hc. destruct (H id r Hr) as (r' & -> & _ & He). by rewrite He.
Qed.

Lemma stage_goes_on sh sh' w id st : goes_on sh sh' -> stage_ok sh w id st -> stage_ok sh' w id st.
Proof.
  intros H. destruct st; cbn; try done.
  1-4: intros [? Hc]; split; [done|]; intros; eapply request_complete_goes_on; eauto.
  case_bool_decide; [|done]. intros (q & Hq & Hc & ->). destruct H as [_ H].
  destruct (H id q Hq) as (q' & Hq' & _ & He). exists q'. by rewrite He in Hq' |- *.
Qed.

Lemma session_ok_shared sh sh' w cs q :
  session_ok sh w cs q -> shared_ok (ids_of w) sh' -> goes_on sh sh' -> session_ok sh' w cs q.
Proof.
  intros [] Hok Hon. split; try done.
  - intros id st Hst. eapply stage_goes_on; eauto.
  - intros before p Hp. destruct (se_whole0 before p Hp) as [? Hc]. split; [done|]. intros Hlt.
    destruct (Hc Hlt); [by left | right; by apply Hon].
  - intros id frame r Hin Hr. assert (is_Some (requests sh !! id)) as [r0 Hr0].
    { apply (so_dom _ _ se_shared0). apply list_elem_of_fmap. by exists (id, frame). }
    destruct (proj2 Hon id r0 Hr0) as (r' & Hr' & Hd & _). rewrite Hr in Hr'. injection Hr' as <-.
    destruct Hd as [->|]; [by eapply se_delivery0 | by left].
Qed.

Lemma session_ok_quit sh w cs q q' :
  session_ok sh w cs q -> quit_writes q' = quit_writes q -> (q = Some CloseInput -> q' = Some CloseInput) ->
  q' <> Some Newline -> session_ok sh w cs q'.
Proof. intros [] Hq Hc Hn. split; try done; [by rewrite Hq|]. naive_solver. Qed.

(** A call's stage changes, its hold of the writer and what it knows it wrote do not. *)
Lemma session_ok_stage sh w cs q id st st' :
  session_ok sh w cs q -> cs !! id = Some st -> stage_ok sh w id st' -> writes st' = writes st ->
  counted w (<[id := st']> cs) id = counted w cs id ->
  session_ok sh w (<[id := st']> cs) q.
Proof.
  intros [] Hst Hok Hw Hc.
  assert (forall id', counted w (<[id := st']> cs) id' = counted w cs id') as Hcount.
  { intros id'. destruct (decide (id = id')) as [<-|]; [done|]. unfold counted. by rewrite lookup_insert_ne. }
  split; try done.
  - intros id' st0. rewrite lookup_insert_Some. intros [[<- <-]|[_ H]]; eauto.
  - intros id' Hin. rewrite lookup_insert_is_Some. destruct (decide (id = id')); naive_solver.
  - intros id' Hh. destruct (se_holder0 id' Hh) as (st0 & H0 & Hw0). destruct (decide (id = id')) as [<-|].
    + exists st'. rewrite lookup_insert_eq. split; [done|]. rewrite Hw. by simplify_eq.
    + exists st0. by rewrite lookup_insert_ne.
  - rewrite se_partial0. by destruct (last (accepted w)) as [[i f]|]; rewrite ?Hcount.
  - intros id' frame r Hin Hr. rewrite Hcount. eauto.
Qed.

Lemma goes_on_refl sh : goes_on sh sh.
Proof. split; [done|]. intros id r Hr. exists r. auto. Qed.

Lemma goes_on_same sh sh' : requests sh' = requests sh -> (closed sh = true -> closed sh' = true) -> goes_on sh sh'.
Proof. intros Hr Hc. split; [done|]. intros id r. rewrite Hr. eauto. Qed.

Lemma waiting_of ids sh id :
  shared_ok ids sh -> id ∈ pending sh -> exists r, requests sh !! id = Some r /\ waiting_request r.
Proof.
  intros [_ _ (settled & dropped & l & Hat)] Hin. pose proof (at_waiting _ _ _ _ _ Hat) as H.
  rewrite Forall_forall in H. by apply H.
Qed.

Lemma goes_on_complete ids sh sh' f :
  shared_ok ids sh ->
  requests sh' = foldr (fun id rs => alter f id rs) (requests sh) (pending sh) ->
  closed sh' = true -> (forall r, delivery (f r) = delivery r) -> goes_on sh sh'.
Proof.
  intros Hok Hr Hc Hd. split; [done|]. intros id r Hid. rewrite Hr.
  pose proof Hok as [Hnd _ (settled & dropped & l & Hat)]. rewrite (at_ids _ _ _ _ _ Hat) in Hnd.
  apply NoDup_app in Hnd as (_ & _ & Hnd). apply NoDup_app in Hnd as (_ & _ & Hnd).
  rewrite lookup_alter_all by done. rewrite Hid. eexists. split; [done|].
  case_bool_decide as Hin; [|auto]. split; [left; apply Hd|]. intros Hcomp.
  destruct (waiting_of _ _ _ Hok Hin) as (r' & Hr' & _ & Hw & _). congruence.
Qed.

Lemma goes_on_fail ids e sh sh0 :
  shared_ok ids sh0 -> requests sh = requests sh0 -> pending sh = pending sh0 -> goes_on sh0 (fail_locked e sh).
Proof.
  intros Hok Hr Hp. eapply (goes_on_complete ids _ _ (fail_request (default e (fatal_error sh)))); try done.
  - cbn. by rewrite Hr, Hp.
  - unfold closed, failed_already. cbn. by rewrite orb_true_r.
Qed.

Lemma goes_on_shut ids sh : shared_ok ids sh -> goes_on sh (complete_all shut_request (set_closing sh)).
Proof. intros Hok. by eapply (goes_on_complete ids _ _ shut_request). Qed.

Lemma goes_on_event ids event sh : shared_ok ids sh -> goes_on sh (accept_event event sh).
Proof.
  intros Hok. destruct event as [block|n]; cbn [accept_event].
  2:{ by apply goes_on_same. }
  destruct (guard_flags block) as [flags|]; [|by eapply goes_on_fail].
  destruct (startup_seen sh); cbn [negb].
  2:{ destruct (_ || _); [by eapply goes_on_fail | by apply goes_on_same]. }
  destruct (flags =? 0)%N; [apply goes_on_refl|]. destruct (negb (flags =? 1)%N); [by eapply goes_on_fail|].
  destruct (pending sh) as [|id rest] eqn:Hp.
  { destruct (_ && _); [by eapply goes_on_fail | apply goes_on_refl]. }
  destruct (waiting_of ids sh id Hok) as (r & Hr & _ & Hc & _); [rewrite Hp; set_solver|]. rewrite Hr.
  assert (forall r' ps l, delivery r' = replied -> goes_on sh (set_requests (<[id := r']> (requests sh)) ps l sh)) as H.
  { intros r' ps l Hd. split; [done|]. intros id' r0 Hr0. cbn. destruct (decide (id = id')) as [<-|Hne].
    - exists r'. rewrite lookup_insert_eq. split; [done|]. split; [by right|]. congruence.
    - exists r0. rewrite lookup_insert_ne by done. auto. }
  destruct (is_boundary block (boundary r)); by apply H.
Qed.

Lemma session_ok_fail e sh sh0 w cs q :
  session_ok sh0 w cs q -> requests sh = requests sh0 -> pending sh = pending sh0 -> log sh = log sh0 ->
  session_ok (fail_locked e sh) w cs q.
Proof.
  intros H Hr Hp Hl. pose proof (se_shared _ _ _ _ H) as Hok.
  eapply session_ok_shared; [exact H | by eapply fail_locked_ok | by eapply goes_on_fail].
Qed.

Lemma session_ok_same sh sh' w cs q :
  session_ok sh w cs q -> requests sh' = requests sh -> pending sh' = pending sh -> log sh' = log sh ->
  closed sh' = closed sh -> session_ok sh' w cs q.
Proof.
  intros H Hr Hp Hl Hc. eapply session_ok_shared; [exact H | eapply shared_ok_same; try done; apply H |].
  apply goes_on_same; [done | by rewrite Hc].
Qed.

(** * Every action keeps the session in order *)

Definition ok (s : System) : Prop := session_ok (shared s) (writer s) (calls s) (quitting s).

Lemma session_ok_close sh w cs q :
  session_ok sh w cs q -> holder w = None -> session_ok sh (close_input w) cs q.
Proof.
  intros [] Hh. split; try done.
  2:{ intros ->. destruct se_quit0 as [Hq _]. rewrite Hh in Hq. by specialize (Hq eq_refl). }
  destruct se_wire0 as (newline & Hw & Hn). exists newline. split; [done|].
  destruct Hn as [?|(? & ? & _)]; auto.
Qed.

Lemma close_writer_ok s s' :
  ok s -> close_writer s = Some s' -> ok s' /\ calls s' = calls s /\ shared s' = shared s.
Proof.
  unfold close_writer. intros H Hc. destruct (holder (writer s)) eqn:Hh; [done|]. injection Hc as <-.
  split_and!; [by apply session_ok_close | done..].
Qed.

Lemma end_reader_ok s : ok s -> ok (end_reader s).
Proof.
  intros H. unfold end_reader.
  set (sh1 := if negb (saw_exit (shared s)) && _ then _ else _).
  assert (session_ok sh1 (writer s) (calls s) (quitting s)) as H1.
  { unfold sh1. destruct (_ && _); [by eapply session_ok_fail | done]. }
  clearbody sh1. set (sh2 := if negb (bool_decide _) then _ else sh1).
  assert (session_ok sh2 (writer s) (calls s) (quitting s)) as H2.
  { unfold sh2. destruct (negb (bool_decide (pending sh1 = []))); [by eapply session_ok_fail | done]. }
  destruct (failed_already sh2) eqn:Hf; [|done].
  eapply session_ok_same; [exact H2 | done..|]. unfold closed. cbn. rewrite Hf. by rewrite orb_true_r.
Qed.

Lemma reader_ok a s s' : ok s -> reader_act a s = Some s' -> ok s'.
Proof.
  intros H Ha. pose proof (fun e => session_ok_fail e (shared s) _ _ _ _ H eq_refl eq_refl eq_refl) as Hfail.
  destruct a; cbn [reader_act] in Ha; try done; destruct (phase (reader s)) as [|[|event events]| | | | | | |] eqn:Hp;
    try done; cbn [in_loop] in Ha.
  all: repeat match type of Ha with (if ?b then _ else _) = _ => destruct b; [|done] end.
  all: try (injection Ha as <-).
  - unfold read_output. destruct (feed _ _) as [p [events|e]]; [done | apply Hfail].
  - unfold output_ends. destruct failure; [apply Hfail | done].
  - done.
  - pose proof (se_shared _ _ _ _ H) as Hok.
    apply (session_ok_shared (shared s)); [done | by apply shared_ok_event | by eapply goes_on_event].
  - done.
  - unfold error_ends. destruct failure; [apply Hfail | done].
  - apply Hfail.
  - done.
  - unfold finish_reading. destruct (finish _) as [p [?|e]]; [done | apply Hfail].
  - apply Hfail.
  - apply Hfail.
  - apply Hfail.
  - apply Hfail.
  - by apply end_reader_ok.
  - apply fmap_Some in Ha as (s0 & Hc & ->). by apply close_writer_ok in Hc as [].
  - unfold signal_child_locked. destruct (reaped (shared s)); [done|]. by eapply session_ok_same.
  - by eapply session_ok_same.
  - by eapply session_ok_same.
Qed.

Lemma waiter_ok a s s' : ok s -> waiter_act a s = Some s' -> ok s'.
Proof.
  intros H Ha. destruct a; cbn [waiter_act] in Ha; try done; destruct (waiter s); try done; injection Ha as <-.
  1-3: by eapply session_ok_same.
  1-2: by eapply session_ok_fail.
Qed.

Lemma notices_ok a s s' : ok s -> notices_act a s = Some s' -> ok s'.
Proof.
  intros H Ha. destruct a; cbn [notices_act] in Ha; try done.
  destruct o; try done; injection Ha as <-; by eapply session_ok_same.
Qed.

Lemma session_ok_release sh w cs q :
  session_ok sh w cs (Some q) -> quit_writes (Some q) = true ->
  session_ok sh (set_holder None (close_input w)) cs (Some Graceful).
Proof.
  intros [] Hq. apply se_quit0 in Hq as Hh. split; try done.
  - intros id st Hst. specialize (se_stage0 id st Hst). destruct st; try done; cbn in *; unfold holds in *; naive_solver congruence.
  - intros before p Hp. destruct (se_whole0 before p Hp) as [? Hc]. split; [done|]. intros Hlt.
    destruct (Hc Hlt); [congruence | by right].
  - destruct se_wire0 as (newline & Hw & Hn). exists newline. split; [done|].
    destruct Hn as [?|(? & ? & _)]; auto.
Qed.

Lemma session_ok_take sh w cs q q' :
  session_ok sh w cs q -> holder w = None -> quit_writes (Some q') = true ->
  (q' = Newline -> input_open w = true /\ partial_command_frame w = false) ->
  session_ok sh (set_holder (Some ByShutdown) w) cs (Some q').
Proof.
  intros H Hh Hq Hn'. pose proof (se_quit _ _ _ _ H) as Hq0. destruct H. split; try done.
  - intros id st Hst. specialize (se_stage0 id st Hst). destruct st; try done; cbn in *; unfold holds in *; naive_solver congruence.
  - intros before p Hp. destruct (se_whole0 before p Hp) as [? Hc]. split; [done|]. intros Hlt.
    destruct (Hc Hlt); [congruence | by right].
  - destruct se_wire0 as (newline & Hw & Hn). exists newline. split; [done|].
    destruct Hn as [?|(? & ? & [?| ->])]; auto. rewrite Hh in Hq0. by destruct Hq0 as [Hq0 _]; specialize (Hq0 eq_refl).
  - intros [= ->]. by apply Hn'.
Qed.

Lemma all_uncut sh w cs q :
  session_ok sh w cs q -> partial_command_frame w = false -> (forall id, holder w <> Some (ByCall id)) ->
  Forall (uncut w) (accepted w).
Proof.
  intros [] Hp Hh. destruct (accepted w) as [|[id frame] before _] eqn:Hacc using rev_ind; [done|].
  destruct (se_whole0 _ _ eq_refl) as [Hb _]. apply Forall_app. split.
  { eapply Forall_impl; [exact Hb|]. intros p. by right. }
  constructor; [|done]. specialize (se_fits0 (id, frame) ltac:(set_solver)). cbn in se_fits0.
  rewrite last_snoc, Hp in se_partial0. unfold uncut, whole. cbn [fst snd].
  assert (counted w cs id = count_of w id) as Hc.
  { unfold counted. destruct (cs !! id) as [st|] eqn:Hst; [|done]. destruct st; try done.
    destruct (se_stage0 id _ Hst) as [(Hh' & _) _]. by apply Hh in Hh'. }
  rewrite Hc in se_partial0. symmetry in se_partial0. apply andb_false_iff in se_partial0 as [H|H].
  - apply Nat.ltb_ge in H. left. lia.
  - apply Nat.ltb_ge in H. right. lia.
Qed.

Lemma session_ok_newline sh w cs (sent : bool) :
  session_ok sh w cs (Some Newline) ->
  session_ok sh (if sent then record_wire (counts w) (wire w ++ [line_feed]) w else w) cs (Some CloseInput).
Proof.
  intros H. destruct (se_newline _ _ _ _ H eq_refl) as [Ho Hp]. destruct sent; [|by eapply session_ok_quit].
  assert (Forall (uncut w) (accepted w)) as Hu.
  { eapply all_uncut; [done..|]. intros id Hh. destruct (se_quit _ _ _ _ H) as [Hq _]. rewrite Hh in Hq. by specialize (Hq eq_refl). }
  destruct H. split; try done.
  destruct se_wire0 as (newline & Hw & Hn). exists [line_feed]. split; [|auto]. cbn. rewrite Hw.
  destruct Hn as [->|(_ & _ & [?|?])]; [by rewrite app_nil_r | congruence | done].
Qed.

Lemma shutdown_ok a s s' : ok s -> shutdown_act a s = Some s' -> ok s'.
Proof.
  intros H Ha. pose proof (se_quit _ _ _ _ H) as Hq.
  destruct a; cbn [shutdown_act] in Ha; try done.
  - destruct late; [injection Ha as <-|]. { done. }
    destruct (quitting s) eqn:E; [done|]. injection Ha as <-. unfold ok in H. rewrite E in H. by eapply session_ok_quit.
  - destruct (quitting s) as [[]|] eqn:E; try done. injection Ha as <-. unfold check_shutdown, ok in *. rewrite E in H.
    destruct (shutdown_complete (shared s)); by eapply session_ok_quit.
  - destruct (quitting s) as [[]|] eqn:E; try done. injection Ha as <-. unfold ok in *. rewrite E in H.
    assert (session_ok (shared s) (writer s) (calls s) (Some WantWriter)) as H' by by eapply session_ok_quit.
    pose proof (se_shared _ _ _ _ H').
    eapply session_ok_shared; [exact H' | by apply shut_ok | by eapply goes_on_shut].
  - destruct (quitting s) as [[]|] eqn:E; try done. unfold take_writer in Ha.
    destruct late; [injection Ha as <-; unfold ok in *; rewrite E in H; by eapply session_ok_quit|].
    destruct (holder (writer s)) eqn:Hh; [done|]. injection Ha as <-. unfold ok in *.
    eapply session_ok_take; [done | done |..].
    + by destruct (input_open (writer s) && negb (partial_command_frame (writer s)) && soon).
    + destruct (input_open (writer s)), (partial_command_frame (writer s)), soon; done.
  - destruct (quitting s) as [[]|] eqn:E; try done. injection Ha as <-. unfold ok in *. rewrite E in H.
    by apply session_ok_newline.
  - destruct (quitting s) as [[]|] eqn:E; try done. injection Ha as <-. unfold ok in *. rewrite E in H.
    by eapply session_ok_release.
  - destruct (quitting s) as [[]|] eqn:E; try done; unfold wait_gone, last_wait in Ha; unfold ok in *; rewrite E in H.
    1-2: destruct (gone (shared s) || timed_out); [|done]; injection Ha as <-; by eapply session_ok_quit.
    destruct (gone (shared s)); [|destruct timed_out; [|done]]; injection Ha as <-; by eapply session_ok_quit.
  - destruct (quitting s) as [[]|] eqn:E; try done; injection Ha as <-; unfold ok in *; rewrite E in H;
      unfold quit_signal, signal_child_locked; destruct (reaped (shared s));
      (eapply session_ok_same; [by eapply session_ok_quit | done..]).
  - destruct (quitting s) as [[]|] eqn:E; try done. unfold finish_shutdown in Ha. unfold ok in *. rewrite E in H.
    destruct (phase (reader s)); try done. destruct (waiter s); try done. injection Ha as <-.
    eapply session_ok_same; [by eapply session_ok_quit | done..].
Qed.

Lemma complete_or_waiting ids sh id :
  shared_ok ids sh -> id ∈ ids -> request_complete id sh = true \/ id ∈ pending sh.
Proof.
  intros [_ _ (settled & dropped & l & Hat)] Hin. rewrite (at_ids _ _ _ _ _ Hat) in Hin. unfold request_complete.
  pose proof (at_settled _ _ _ _ _ Hat) as Hs. pose proof (at_dropped _ _ _ _ _ Hat) as Hd.
  rewrite Forall_forall in Hs, Hd. apply elem_of_app in Hin as [Hin|[Hin|Hin]%elem_of_app]; [left|left|by right].
  - by destruct (Hs id Hin) as (r & -> & -> & _).
  - by destruct (Hd id Hin) as (r & -> & _ & -> & _).
Qed.

Lemma closed_complete ids sh id :
  shared_ok ids sh -> closed sh = true -> id ∈ ids -> request_complete id sh = true.
Proof.
  intros Hok Hc Hin. destruct (complete_or_waiting ids sh id Hok Hin) as [?|Hp]; [done|].
  destruct Hok as [_ _ (settled & dropped & l & Hat)]. pose proof (at_closed _ _ _ _ _ Hat) as H.
  rewrite Hc in H. rewrite H in Hp. by apply elem_of_nil in Hp.
Qed.

Lemma last_elem {A} (l : list A) x : last l = Some x -> x ∈ l.
Proof. intros H. apply last_Some in H as [l' ->]. set_solver. Qed.

Lemma holds_in w id frame n : holds w id frame n -> id ∈ ids_of w.
Proof.
  intros (_ & Hl & _). apply last_elem in Hl. unfold ids_of. apply list_elem_of_fmap. by exists (id, frame).
Qed.

(** A call lets go of the writer, done or with the connection closed. *)
Lemma session_ok_let_go sh w cs q id st frame n poison :
  session_ok sh w cs q -> cs !! id = Some st -> st = Writing frame n \/ st = Cleared frame n ->
  n = length frame \/ closed sh = true -> (poison = true -> closed sh = true) ->
  session_ok sh (set_holder None w) (<[id := Waiting poison]> cs) q.
Proof.
  intros H Hst Hwr Hend Hpo. pose proof H as H0. destruct H.
  assert (holds w id frame n) as Hh by (specialize (se_stage0 id st Hst); destruct Hwr as [-> | ->]; apply se_stage0).
  pose proof (holds_in _ _ _ _ Hh) as Hin. destruct Hh as (Hh & Hl & Hc & Hn).
  assert (forall id', counted w (<[id := Waiting poison]> cs) id' = counted w cs id') as Hcount.
  { intros id'. unfold counted. destruct (decide (id = id')) as [<-|]; [|by rewrite lookup_insert_ne].
    rewrite lookup_insert_eq, Hst. by destruct Hwr as [-> | ->]. }
  split; try done.
  - intros id' st0. rewrite lookup_insert_Some. intros [[<- <-]|[Hne Hst0]].
    + split; [done|]. intros Hp. eapply closed_complete; eauto.
    + specialize (se_stage0 id' st0 Hst0). destruct st0; try done; cbn in *; unfold holds in *; naive_solver congruence.
  - intros id' Hin'. rewrite lookup_insert_is_Some. destruct (decide (id = id')); naive_solver.
  - split; [|done]. intros Hq. apply se_quit0 in Hq. congruence.
  - intros before p Hp. destruct (se_whole0 before p Hp) as [? Hc']. split; [done|]. intros Hlt.
    destruct (Hc' Hlt) as [Hh'|]; [|by right]. rewrite Hh in Hh'. injection Hh' as Hid. right.
    change (accepted w = before ++ [p]) in Hp. rewrite Hp, last_snoc in Hl. injection Hl as ->. cbn in *.
    destruct Hend as [->|]; [|done]. unfold count_of in *. cbn in *. lia.
  - change (partial_command_frame w = match last (accepted w) with
      | Some (i, f) => (0 <? counted w (<[id:=Waiting poison]> cs) i)%nat && (counted w (<[id:=Waiting poison]> cs) i <? length f)%nat
      | None => false end). rewrite se_partial0. by destruct (last (accepted w)) as [[i f]|]; rewrite ?Hcount.
  - intros id' f r Hin' Hr.
    change (delivery r = replied \/ delivery r = status (counted w (<[id:=Waiting poison]> cs) id') (length f)).
    rewrite Hcount. eauto.
Qed.

Lemma write_failed_ok s id st frame n e :
  ok s -> calls s !! id = Some st -> st = Writing frame n \/ st = Cleared frame n -> ok (write_failed id e n s).
Proof.
  intros H Hst Hwr. unfold ok, write_failed. cbn [shared writer calls quitting set_stage set_writer set_shared].
  destruct (closing (shared s)) eqn:Hc; cbn [negb].
  - eapply session_ok_let_go; [exact H | done | done | right | done]. unfold closed. by rewrite Hc.
  - eapply session_ok_let_go; [by eapply session_ok_fail | done | done | by right | done].
Qed.

Lemma write_check_ok s id frame n :
  ok s -> calls s !! id = Some (Writing frame n) -> ok (write_check id frame n s).
Proof.
  intros H Hst. unfold write_check. pose proof (se_stage _ _ _ _ H id _ Hst) as Hh. cbn in Hh.
  destruct (Nat.leb_spec (length frame) n) as [Hle|Hlt].
  { eapply session_ok_let_go; [exact H | done | by left | | done]. left. destruct Hh as (_ & _ & _ & ?). lia. }
  destruct (_ || _); [by eapply write_failed_ok; [..|left]|].
  eapply session_ok_stage; try done. unfold counted. by rewrite lookup_insert_eq, Hst.
Qed.

Lemma unique_frame w before id frame :
  NoDup (ids_of w) -> accepted w = before ++ [(id, frame)] -> forall p, p ∈ before -> p.1 <> id.
Proof.
  unfold ids_of. intros Hnd Hacc p Hp <-. rewrite Hacc, fmap_app in Hnd. apply NoDup_app in Hnd as (_ & Hd & _).
  apply (Hd p.1); [by apply list_elem_of_fmap_2 | set_solver].
Qed.

Lemma write_bytes_ok s id frame n count s' :
  ok s -> calls s !! id = Some (Cleared frame n) -> write_bytes id frame n count s = Some s' -> ok s'.
Proof.
  intros H Hst Hw. unfold write_bytes in Hw.
  destruct (Nat.ltb_spec 0 count) as [Hpos|]; [|done].
  destruct (Nat.leb_spec (n + count) (length frame)) as [Hfit|]; [|done].
  destruct (input_open (writer s)) eqn:Ho; [|done]. injection Hw as <-.
  pose proof (se_stage _ _ _ _ H id _ Hst) as ((Hh & Hl & Hc & Hn) & Hlt).
  pose proof (so_nodup _ _ (se_shared _ _ _ _ H)) as Hnd.
  apply last_Some in Hl as [before Hacc]. pose proof (unique_frame _ _ _ _ Hnd Hacc) as Huniq.
  unfold ok in *. cbn [shared writer calls quitting set_stage set_writer].
  set (w' := record_wire _ _ _).
  assert (forall i, i <> id -> count_of w' i = count_of (writer s) i) as Hother.
  { intros i Hi. unfold count_of. cbn. by rewrite lookup_insert_ne. }
  assert (count_of w' id = n + count) as Hown by (unfold count_of; cbn; by rewrite lookup_insert_eq).
  assert (forall i, counted w' (<[id := Sent frame n count]> (calls s)) i = counted (writer s) (calls s) i) as Hcount.
  { intros i. unfold counted. destruct (decide (id = i)) as [<-|].
    - by rewrite lookup_insert_eq, Hst, Hc.
    - rewrite lookup_insert_ne by done. by rewrite Hother. }
  destruct H. split; try done.
  - intros i st0. rewrite lookup_insert_Some. intros [[<- <-]|[Hne Hst0]].
    + split; [|done]. split_and!; [done | | done..].
      change (last (accepted (writer s)) = Some (id, frame)). by rewrite Hacc, last_snoc.
    + specialize (se_stage0 i st0 Hst0). destruct st0; try done; cbn in *; unfold holds in *; naive_solver congruence.
  - intros i Hi. rewrite lookup_insert_is_Some. destruct (decide (id = i)); naive_solver.
  - intros i Hi. cbn in Hi. rewrite Hh in Hi. injection Hi as <-. eexists. by rewrite lookup_insert_eq.
  - intros before' p Hp. change (accepted (writer s) = before' ++ [p]) in Hp. rewrite Hacc in Hp.
    apply app_inj_tail in Hp as [<- <-]. destruct (se_whole0 _ _ Hacc) as [Hw _]. split; [|by left].
    rewrite Forall_forall in Hw |- *. intros p Hp. unfold whole. rewrite Hother by by apply Huniq. by apply Hw.
  - intros p Hp. change (p ∈ accepted (writer s)) in Hp. destruct (decide (p.1 = id)) as [E|E].
    + rewrite Hacc in Hp. apply elem_of_app in Hp as [Hp|Hp]; [by apply Huniq in Hp|].
      apply list_elem_of_singleton in Hp as ->. cbn [fst snd]. by rewrite Hown.
    + rewrite Hother by done. by apply se_fits0.
  - change (partial_command_frame (writer s) = match last (accepted (writer s)) with
      | Some (i, f) => (0 <? counted w' (<[id := Sent frame n count]> (calls s)) i)%nat &&
                       (counted w' (<[id := Sent frame n count]> (calls s)) i <? length f)%nat
      | None => false end). rewrite se_partial0. by destruct (last (accepted (writer s))) as [[i f]|]; rewrite ?Hcount.
  - destruct se_wire0 as (newline & Hwire & Hnl). exists [].
    destruct Hnl as [-> |(_ & _ & [?|Hq])]; [|congruence|]. 2:{ rewrite Hq in se_quit0. naive_solver congruence. }
    split; [|by left]. change (accepted w') with (accepted (writer s)). cbn [wire w' record_wire].
    rewrite Hwire, Hacc, !fmap_app, !concat_app. cbn [fmap list_fmap concat]. rewrite !app_nil_r.
    unfold put at 2 4. cbn [fst snd]. rewrite Hc, Hown, <-app_assoc, take_take_drop. do 2 f_equal.
    apply list_fmap_ext. intros j p Hj. apply list_elem_of_lookup_2 in Hj. unfold put. by rewrite Hother by by apply Huniq.
  - intros i f r Hin Hr. rewrite Hcount. by eapply se_delivery0.
Qed.

Lemma count_bytes_ok s id frame n count :
  ok s -> calls s !! id = Some (Sent frame n count) -> ok (count_bytes id frame n count s).
Proof.
  intros H Hst. pose proof (se_stage _ _ _ _ H id _ Hst) as ((Hh & Hl & Hc & Hn) & Hpos).
  unfold ok in *. unfold count_bytes. cbn [shared writer calls quitting set_stage set_writer set_shared].
  set (next := if negb _ then indeterminate else written).
  assert (next = status (n + count) (length frame)) as Hnext.
  { unfold next, status. destruct (Nat.eqb_spec (n + count) 0); [lia|].
    by destruct (Nat.eqb_spec (n + count) (length frame)). }
  assert (next <> replied) as Hnr by (unfold next; by destruct (negb _)). clearbody next.
  assert (forall i, i <> id -> counted (writer s) (<[id := Writing frame (n + count)]> (calls s)) i =
                              counted (writer s) (calls s) i) as Hother.
  { intros i Hi. unfold counted. by rewrite lookup_insert_ne. }
  assert (counted (writer s) (<[id := Writing frame (n + count)]> (calls s)) id = n + count) as Hown.
  { unfold counted. by rewrite lookup_insert_eq. }
  pose proof (shared_ok_advance (ids_of (writer s)) (shared s) next id Hnr (se_shared _ _ _ _ H)) as Hok'.
  set (sh' := set_requests _ _ _ _) in *.
  assert (forall i, requests sh' !! i = (if bool_decide (id = i) then advance_delivery next else Datatypes.id) <$> requests (shared s) !! i) as Hlook.
  { intros i. cbn. case_bool_decide as Hd; [subst; by rewrite lookup_alter_eq|].
    rewrite lookup_alter_ne by done. by destruct (requests (shared s) !! i). }
  assert (forall i, request_complete i sh' = request_complete i (shared s)) as Hcomp.
  { intros i. unfold request_complete. rewrite Hlook. destruct (requests (shared s) !! i); [|done]. cbn.
    case_bool_decide; [|done]. unfold advance_delivery. by case_bool_decide. }
  destruct H. split; try done.
  - intros i st0. rewrite lookup_insert_Some. intros [[<- <-]|[Hne Hst0]]; [by split_and!|].
    specialize (se_stage0 i st0 Hst0). destruct st0; cbn [stage_ok] in *; rewrite ?Hcomp; try done.
    change (ids_of (set_partial _ _)) with (ids_of (writer s)). case_bool_decide; [|done].
    destruct se_stage0 as (r0 & Hr0 & ? & ?). exists r0. rewrite Hlook, Hr0, bool_decide_false by done. done.
  - intros i Hi. rewrite lookup_insert_is_Some. destruct (decide (id = i)); naive_solver.
  - intros i Hi. cbn in Hi. rewrite Hh in Hi. injection Hi as <-. eexists. by rewrite lookup_insert_eq.
  - cbn [partial_command_frame set_partial]. change (accepted (set_partial ?b ?w)) with (accepted w). rewrite Hl.
    change (counted (set_partial ?b ?w)) with (counted w). rewrite Hown.
    destruct (Nat.eqb_spec (n + count) (length frame)), (Nat.ltb_spec 0 (n + count)), (Nat.ltb_spec (n + count) (length frame)); try done; lia.
  - intros Hq. apply se_newline0 in Hq as Hq'. exfalso. rewrite Hq in se_quit0. naive_solver congruence.
  - intros i f r Hin Hr. change (counted (set_partial ?b ?w)) with (counted w).
    rewrite Hlook in Hr. apply fmap_Some in Hr as (r0 & Hr0 & ->). case_bool_decide as Hd.
    + subst i. rewrite Hown. assert (f = frame) as ->.
      { pose proof (so_nodup _ _ se_shared0) as Hnd. apply last_Some in Hl as [before Hacc].
        change (accepted (set_partial ?b ?w)) with (accepted w) in Hin. rewrite Hacc in Hin.
        apply elem_of_app in Hin as [Hp|Hp]; [by apply (unique_frame _ _ _ _ Hnd Hacc) in Hp|].
        apply list_elem_of_singleton in Hp. congruence. }
      rewrite <-Hnext. unfold advance_delivery. case_bool_decide; [by left | by right].
    + rewrite Hother by done. eapply se_delivery0; [exact Hin | done].
Qed.

(** A call begins, without a request. *)
Lemma session_ok_new sh w cs q id st :
  session_ok sh w cs q -> cs !! id = None -> stage_ok sh w id st -> writes st = false ->
  session_ok sh w (<[id := st]> cs) q.
Proof.
  intros H Hnew Hok Hw. pose proof H as []. 
  assert (id ∉ ids_of w) as Hid by (intros Hin; apply se_called0 in Hin as [? ?]; congruence).
  assert (forall i, i ∈ ids_of w -> counted w (<[id := st]> cs) i = counted w cs i) as Hcount.
  { intros i Hi. unfold counted. rewrite lookup_insert_ne; [done|]. by intros ->. }
  split; try done.
  - intros i st0. rewrite lookup_insert_Some. intros [[<- <-]|[_ ?]]; eauto.
  - intros i Hi. rewrite lookup_insert_is_Some. destruct (decide (id = i)); naive_solver.
  - intros i Hi. destruct (se_holder0 i Hi) as (st0 & Hst0 & ?). exists st0. rewrite lookup_insert_ne; [done|].
    by intros ->; simplify_eq.
  - rewrite se_partial0. destruct (last (accepted w)) as [[i f]|] eqn:Hl; [|done]. rewrite Hcount; [done|].
    apply last_elem in Hl. apply list_elem_of_fmap. by exists (i, f).
  - intros i f r Hin Hr. rewrite Hcount by (apply list_elem_of_fmap; by exists (i, f)). by eapply se_delivery0.
Qed.

Lemma begin_call_ok version s id group late :
  ok s -> calls s !! id = None -> ok (set_stage id (begin_call version group late) s).
Proof.
  intros H Hnew. assert (id ∉ ids_of (writer s)) as Hid.
  { intros Hin. apply (se_called _ _ _ _ H) in Hin as [? ?]. congruence. }
  apply session_ok_new; try done.
  - unfold begin_call. destruct (guard_group _ _) as [f|]; cbn [stage_ok].
    { rewrite bool_decide_false by done. by eexists. }
    pose proof (request_spec group) as Hg. destruct (render_request group) as [line|e]; cbn [stage_ok].
    2:{ rewrite bool_decide_false by done. eexists. split; [done | by destruct Hg]. }
    destruct late; cbn [stage_ok]; [|done]. rewrite bool_decide_false by done. by eexists.
  - unfold begin_call. destruct (guard_group _ _); [done|]. destruct (render_request group); [|done]. by destruct late.
Qed.

Lemma refused_ok s id line e :
  ok s -> calls s !! id = Some (Rendered line) -> error_delivery e = not_started ->
  ok (set_stage id (Returned (failed e)) s).
Proof.
  intros H Hst He. pose proof (se_stage _ _ _ _ H id _ Hst) as Hid. cbn in Hid.
  eapply session_ok_stage; [exact H | exact Hst | | done |].
  - cbn. rewrite bool_decide_false by done. by eexists.
  - unfold counted. by rewrite lookup_insert_eq, Hst.
Qed.

Lemma set_boundary_ok s n : ok s -> ok (set_writer (set_boundary n (writer s)) s).
Proof. intros []. by split. Qed.

Lemma enter_ok seed s id line late s' :
  ok s -> (input_open (writer s) = false -> closed (shared s) = true) ->
  calls s !! id = Some (Rendered line) -> enter seed id line late s = Some s' -> ok s'.
Proof.
  intros H Hopen Hst He. unfold enter in He. destruct late; [injection He as <-; by eapply refused_ok|].
  destruct (holder (writer s)) eqn:Hh; [done|].
  set (s1 := set_writer (set_boundary _ (writer s)) s) in He.
  assert (ok s1) as H1 by by apply set_boundary_ok.
  assert (holder (writer s1) = None) as Hh1 by done.
  assert (input_open (writer s1) = false -> closed (shared s1) = true) as Hopen1 by done.
  assert (calls s1 !! id = Some (Rendered line)) as Hst1 by done.
  set (frame := line ++ _ ++ _) in He. set (name := boundary_reply _) in He.
  assert (0 < length frame) as Hlen by (unfold frame; rewrite !length_app; cbn; lia).
  clearbody s1 frame name. clear s H Hopen Hh Hst. rename Hopen1 into Hopen, s1 into s, H1 into H, Hh1 into Hh, Hst1 into Hst.
  destruct (fatal_error (shared s)) as [e|] eqn:Hf; [injection He as <-; by eapply refused_ok|].
  destruct (negb (ready (shared s)) || closing (shared s) || shutdown_complete (shared s)) eqn:Hgo;
    injection He as <-; [by eapply refused_ok|].
  apply orb_false_iff in Hgo as [[_ Hclosing]%orb_false_iff _].
  assert (closed (shared s) = false) as Hclosed.
  { unfold closed, failed_already. rewrite Hclosing, Hf. done. }
  pose proof (se_stage _ _ _ _ H id _ Hst) as Hid. cbn in Hid.
  pose proof (shared_ok_push (ids_of (writer s)) (shared s) id name (se_shared _ _ _ _ H) Hid Hclosed) as Hok'.
  destruct H. unfold ok. cbn [shared writer calls quitting set_stage set_writer set_shared].
  set (sh' := set_requests _ _ _ _) in *. set (w' := record_accepted _ _ _).
  assert (ids_of w' = ids_of (writer s) ++ [id]) as Hids by (unfold ids_of; cbn; by rewrite fmap_app).
  assert (forall i, i <> id -> count_of w' i = count_of (writer s) i) as Hother.
  { intros i Hi. unfold count_of. cbn. by rewrite lookup_insert_ne. }
  assert (count_of w' id = 0) as Hown by (unfold count_of; cbn; by rewrite lookup_insert_eq).
  assert (forall i, i <> id -> counted w' (<[id := Writing frame 0]> (calls s)) i = counted (writer s) (calls s) i) as Hcount.
  { intros i Hi. unfold counted. rewrite lookup_insert_ne by done. by rewrite Hother. }
  assert (counted w' (<[id := Writing frame 0]> (calls s)) id = 0) as Hzero.
  { unfold counted. by rewrite lookup_insert_eq. }
  assert (forall p, p ∈ accepted (writer s) -> p.1 <> id) as Hne.
  { intros p Hp <-. apply Hid. apply list_elem_of_fmap. by exists p. }
  assert (Forall (whole (writer s)) (accepted (writer s))) as Hwhole.
  { destruct (accepted (writer s)) as [|p before _] eqn:Hacc using rev_ind; [done|].
    destruct (se_whole0 _ _ eq_refl) as [Hb Hlast]. apply Forall_app. split; [done|]. constructor; [|done].
    unfold whole. specialize (se_fits0 p ltac:(set_solver)).
    destruct (decide (count_of (writer s) p.1 = length p.2)); [done|].
    destruct (Hlast ltac:(lia)); congruence. }
  assert (forall i, i <> id -> request_complete i sh' = request_complete i (shared s)) as Hcomp.
  { intros i Hi. unfold request_complete. cbn. by rewrite lookup_insert_ne. }
  split; try done.
  - by rewrite Hids.
  - intros i st0. rewrite lookup_insert_Some. intros [[<- <-]|[Hi Hst0]].
    + split_and!; [done | | done | lia]. change (last (accepted (writer s) ++ [(id, frame)]) = Some (id, frame)).
      by rewrite last_snoc.
    + assert (i ∈ ids_of w' <-> i ∈ ids_of (writer s)) as Hin.
      { rewrite Hids, elem_of_app, list_elem_of_singleton. naive_solver. }
      specialize (se_stage0 i st0 Hst0). destruct st0; cbn [stage_ok] in *; rewrite ?Hin, ?Hcomp by done; try done.
      1-3: destruct_and?; unfold holds in *; destruct_and?; congruence.
      rewrite (bool_decide_ext _ _ Hin). case_bool_decide; [|done].
      destruct se_stage0 as (r0 & Hr0 & ? & ?). exists r0. cbn. by rewrite lookup_insert_ne.
  - intros i. rewrite Hids, elem_of_app, list_elem_of_singleton, lookup_insert_is_Some.
    destruct (decide (id = i)); naive_solver.
  - intros i [= <-]. eexists. by rewrite lookup_insert_eq.
  - split; [|done]. intros Hq. apply se_quit0 in Hq. congruence.
  - intros before p Hp. change (accepted (writer s) ++ [(id, frame)] = before ++ [p]) in Hp.
    apply app_inj_tail in Hp as [<- <-]. split; [|by left]. rewrite Forall_forall in Hwhole |- *.
    intros p Hp. unfold whole. rewrite Hother by by apply Hne. by apply Hwhole.
  - intros p Hp. change (p ∈ accepted (writer s) ++ [(id, frame)]) in Hp. apply elem_of_app in Hp as [Hp|Hp].
    + rewrite Hother by by apply Hne. by apply se_fits0.
    + apply list_elem_of_singleton in Hp as ->. cbn. lia.
  - change (partial_command_frame (writer s) = match last (accepted (writer s) ++ [(id, frame)]) with
      | Some (i, f) => (0 <? counted w' (<[id := Writing frame 0]> (calls s)) i)%nat &&
                       (counted w' (<[id := Writing frame 0]> (calls s)) i <? length f)%nat
      | None => false end). rewrite last_snoc, Hzero, se_partial0. cbn.
    destruct (last (accepted (writer s))) as [[i f]|] eqn:Hl; [|done].
    apply last_elem in Hl. rewrite Forall_forall in Hwhole. specialize (Hwhole _ Hl). unfold whole in Hwhole. cbn in Hwhole.
    apply andb_false_intro2, Nat.ltb_ge. unfold counted.
    destruct (calls s !! i) as [st0|] eqn:Hi; [|lia]. destruct st0; try lia.
    specialize (se_stage0 i _ Hi). cbn in se_stage0. unfold holds in se_stage0. naive_solver congruence.
  - destruct se_wire0 as (newline & Hwire & Hnl). exists [].
    assert (newline = []) as ->.
    { destruct Hnl as [?|(_ & _ & [Ho|Hq])]; [done| |]; [rewrite Hopen in Hclosed by done; done|].
      rewrite Hq in se_quit0. naive_solver congruence. }
    split; [|by left]. change (wire w') with (wire (writer s)).
    change (accepted w') with (accepted (writer s) ++ [(id, frame)]).
    rewrite Hwire, fmap_app, concat_app, <-app_assoc. f_equal.
    + f_equal. apply list_fmap_ext. intros j p Hj. apply list_elem_of_lookup_2 in Hj. unfold put.
      by rewrite Hother by by apply Hne.
    + cbn [fmap list_fmap concat]. unfold put. cbn [fst snd]. by rewrite Hown.
  - intros i f r Hin Hr. change ((i, f) ∈ accepted (writer s) ++ [(id, frame)]) in Hin. apply elem_of_app in Hin as [Hin|Hin].
    + pose proof (Hne _ Hin) as Hi. cbn in Hi. cbn in Hr. rewrite lookup_insert_ne in Hr by done.
      rewrite Hcount by done. by eapply se_delivery0.
    + apply list_elem_of_singleton in Hin. injection Hin as -> ->. cbn in Hr. rewrite lookup_insert_eq in Hr.
      injection Hr as <-. right. by rewrite Hzero.
Qed.

(** From one stage past the writer to the next. *)
Lemma session_ok_next sh w cs q id st st' :
  session_ok sh w cs q -> cs !! id = Some st -> stage_ok sh w id st' -> writes st = false -> writes st' = false ->
  session_ok sh w (<[id := st']> cs) q.
Proof.
  intros H Hst Hok Hw Hw'. eapply session_ok_stage; try done; [by rewrite Hw, Hw'|].
  unfold counted. rewrite lookup_insert_eq, Hst. by destruct st, st'.
Qed.

Lemma call_ok seed version a s s' :
  ok s -> (input_open (writer s) = false -> closed (shared s) = true) ->
  call_act seed version a s = Some s' -> ok s'.
Proof.
  intros H Hopen Ha. destruct a; cbn [call_act] in Ha; try done;
    destruct (calls s !! id) as [[]|] eqn:Hst; try done; try (injection Ha as <-).
  - by apply begin_call_ok.
  - by eapply enter_ok.
  - by apply write_check_ok.
  - pose proof (se_stage _ _ _ _ H id _ Hst) as [Hh _].
    eapply session_ok_stage; try done. unfold counted. rewrite lookup_insert_eq, Hst. done.
  - by eapply write_bytes_ok.
  - by apply count_bytes_ok.
  - eapply write_failed_ok; [done..|by right].
  - unfold await in Ha. destruct (request_complete id (shared s)) eqn:Hc; [|done]. injection Ha as <-.
    pose proof (se_stage _ _ _ _ H id _ Hst) as [Hin _].
    eapply session_ok_next; try done; by destruct poison.
  - unfold expire in Ha. destruct (request_complete id (shared s)) eqn:Hc; [done|]. injection Ha as <-.
    pose proof (se_stage _ _ _ _ H id _ Hst) as [Hin _].
    assert (session_ok (fail_locked (protocol_error (txt "control request deadline expired after dispatch")) (set_closing (shared s)))
              (writer s) (calls s) (quitting s)) as H' by by eapply session_ok_fail.
    eapply session_ok_next; try done. split; [done|]. eapply closed_complete; [apply H' | | done].
    unfold closed. cbn. done.
  - apply fmap_Some in Ha as (s0 & Hc & ->). apply close_writer_ok in Hc as (H0 & Hcs & Hsh); [|done].
    pose proof (se_stage _ _ _ _ H0 id Poisoning) as Hok. rewrite Hcs in Hok.
    eapply session_ok_next; [done | by rewrite Hcs | by apply Hok | done..].
  - pose proof (se_stage _ _ _ _ H id _ Hst) as [Hin Hc].
    assert (session_ok (signal_child_locked SIGTERM (shared s)) (writer s) (calls s) (quitting s)) as H'.
    { unfold signal_child_locked. destruct (reaped (shared s)); [done | by eapply session_ok_same]. }
    eapply session_ok_next; try done. split; [done|]. unfold signal_child_locked. by destruct (reaped (shared s)).
  - pose proof (se_stage _ _ _ _ H id _ Hst) as [Hin Hc]. unfold collect_result in Ha.
    destruct (requests (shared s) !! id) as [r|] eqn:Hr; [|done]. injection Ha as <-.
    eapply session_ok_next; try done. cbn. rewrite bool_decide_true by done. exists r. split_and!; try done.
    unfold request_complete in Hc. by rewrite Hr in Hc.
Qed.

(** * What is closed stays closed *)

Lemma closed_fail e sh : closed (fail_locked e sh) = true.
Proof. unfold closed, failed_already. cbn. by rewrite orb_true_r. Qed.

Lemma closed_event event sh : closed sh = true -> closed (accept_event event sh) = true.
Proof.
  intros H. destruct event as [block|n]; cbn [accept_event]; [|done].
  destruct (guard_flags block) as [flags|]; [|apply closed_fail].
  destruct (negb (startup_seen sh)); [destruct (_ || _); [apply closed_fail | done]|].
  destruct (flags =? 0)%N; [done|]. destruct (negb (flags =? 1)%N); [apply closed_fail|].
  destruct (pending sh) as [|id rest]; [destruct (_ && _); [apply closed_fail | done]|].
  destruct (requests sh !! id) as [r|]; [|done]. by destruct (is_boundary block (boundary r)).
Qed.

Lemma closed_signal signal sh : closed (signal_child_locked signal sh) = closed sh.
Proof. unfold signal_child_locked. by destruct (reaped sh). Qed.

Definition past_closing (q : option ShutdownStage) : bool :=
  match q with None | Some (Entered | ClosingDown) => false | _ => true end.
Definition poisoned (st : Stage) : bool :=
  match st with Waiting true | Poisoning | Signalling => true | _ => false end.
Definition takes_down (p : ReaderPhase) : bool :=
  match p with ClosingInput | Terminating => true | _ => false end.

(** Whoever takes the connection down has closed it before. *)
Record closing_ok (s : System) : Prop := {
  co_open : input_open (writer s) = false -> closed (shared s) = true;
  co_quit : past_closing (quitting s) = true -> closed (shared s) = true;
  co_call : forall id st, calls s !! id = Some st -> poisoned st = true -> closed (shared s) = true;
  co_reader : takes_down (phase (reader s)) = true -> closed (shared s) = true;
}.

Lemma closing_ok_closed s : closed (shared s) = true -> closing_ok s.
Proof. by split. Qed.

Lemma closed_write_failed id e n s : closed (shared (write_failed id e n s)) = true.
Proof.
  unfold write_failed. cbn [shared set_stage set_writer set_shared].
  destruct (closing (shared s)) eqn:Hc; cbn [negb]; [|apply closed_fail]. unfold closed. by rewrite Hc.
Qed.

Lemma call_closed seed version a s s' :
  closed (shared s) = true -> call_act seed version a s = Some s' -> closed (shared s') = true.
Proof.
  intros H Ha. destruct a; cbn [call_act] in Ha; try done;
    destruct (calls s !! id) as [[]|]; try done; try (injection Ha as <-; try done).
  - unfold enter in Ha. destruct late; [by injection Ha as <-|]. destruct (holder (writer s)); [done|].
    cbn [shared set_writer] in Ha. destruct (fatal_error (shared s)); [by injection Ha as <-|].
    destruct (_ || _); by injection Ha as <-.
  - unfold write_check. destruct (_ <=? _)%nat; [done|]. destruct (_ || _); [apply closed_write_failed | done].
  - unfold write_bytes in Ha. destruct (_ && _); [by injection Ha as <- | done].
  - apply closed_write_failed.
  - unfold await in Ha. destruct (request_complete id (shared s)); [by injection Ha as <- | done].
  - unfold expire in Ha. destruct (request_complete id (shared s)); [done | injection Ha as <-; apply closed_fail].
  - apply fmap_Some in Ha as (s0 & Hc & ->). unfold close_writer in Hc. destruct (holder (writer s)); [done|]. by injection Hc as <-.
  - cbn. by rewrite closed_signal.
  - unfold collect_result in Ha. destruct (requests (shared s) !! id); [by injection Ha as <- | done].
Qed.

Lemma end_reader_shared s :
  closed (shared s) = true -> closed (shared (end_reader s)) = true.
Proof.
  intros H. unfold end_reader. set (sh1 := if negb (saw_exit (shared s)) && _ then _ else _).
  assert (closed sh1 = true) as H1 by (unfold sh1; destruct (_ && _); [apply closed_fail | done]). clearbody sh1.
  set (sh2 := if negb (bool_decide _) then _ else _).
  assert (closed sh2 = true) as H2 by (unfold sh2; destruct (negb (bool_decide (pending sh1 = []))); [apply closed_fail | done]).
  by destruct (failed_already sh2).
Qed.

Lemma reader_closed a s s' : closed (shared s) = true -> reader_act a s = Some s' -> closed (shared s') = true.
Proof.
  intros H Ha. destruct a; cbn [reader_act] in Ha; try done; destruct (phase (reader s)) as [|[|event events]| | | | | | |];
    try done; cbn [in_loop] in Ha.
  all: repeat match type of Ha with (if ?b then _ else _) = _ => destruct b; [|done] end.
  all: try (injection Ha as <-); try done; try apply closed_fail.
  - unfold read_output. destruct (feed _ _) as [p [events|e]]; [done | apply closed_fail].
  - unfold output_ends. by destruct failure; [apply closed_fail|].
  - by apply closed_event.
  - unfold error_ends. by destruct failure; [apply closed_fail|].
  - unfold finish_reading. destruct (finish _) as [p [?|e]]; [done | apply closed_fail].
  - by apply end_reader_shared.
  - apply fmap_Some in Ha as (s0 & Hc & ->). unfold close_writer in Hc. destruct (holder (writer s)); [done|]. by injection Hc as <-.
  - cbn. by rewrite closed_signal.
Qed.

Lemma waiter_closed a s s' : closed (shared s) = true -> waiter_act a s = Some s' -> closed (shared s') = true.
Proof.
  intros H Ha. destruct a; cbn [waiter_act] in Ha; try done; destruct (waiter s); try done; injection Ha as <-;
    try done; apply closed_fail.
Qed.

Lemma notices_closed a s s' : notices_act a s = Some s' -> closed (shared s') = closed (shared s).
Proof.
  intros Ha. destruct a; cbn [notices_act] in Ha; try done. destruct o; try done; by injection Ha as <-.
Qed.

Lemma shutdown_closed a s s' : closed (shared s) = true -> shutdown_act a s = Some s' -> closed (shared s') = true.
Proof.
  intros H Ha. destruct a; cbn [shutdown_act] in Ha; try done.
  - destruct late; [by injection Ha as <-|]. destruct (quitting s); [done|]. by injection Ha as <-.
  - destruct (quitting s) as [[]|]; try done. injection Ha as <-. unfold check_shutdown. by destruct (shutdown_complete (shared s)).
  - destruct (quitting s) as [[]|]; try done. by injection Ha as <-.
  - destruct (quitting s) as [[]|]; try done. unfold take_writer in Ha. destruct late; [by injection Ha as <-|].
    destruct (holder (writer s)); [done|]. by injection Ha as <-.
  - destruct (quitting s) as [[]|]; try done. by injection Ha as <-.
  - destruct (quitting s) as [[]|]; try done. by injection Ha as <-.
  - destruct (quitting s) as [[]|]; try done; unfold wait_gone, last_wait in Ha.
    1-2: destruct (gone (shared s) || timed_out); [by injection Ha as <- | done].
    destruct (gone (shared s)); [by injection Ha as <-|]. destruct timed_out; [by injection Ha as <- | done].
  - destruct (quitting s) as [[]|]; try done; injection Ha as <-; cbn; by rewrite closed_signal.
  - destruct (quitting s) as [[]|]; try done. unfold finish_shutdown in Ha.
    destruct (phase (reader s)); try done. destruct (waiter s); try done. by injection Ha as <-.
Qed.

(** An action is somebody's. *)
Lemma act_cases seed version a s s' :
  act seed version a s = Some s' ->
  call_act seed version a s = Some s' \/ reader_act a s = Some s' \/ waiter_act a s = Some s' \/
  notices_act a s = Some s' \/ shutdown_act a s = Some s'.
Proof.
  unfold act. destruct (call_act _ _ a s) as [?|]; [auto|]. destruct (reader_act a s) as [?|]; [auto|].
  destruct (waiter_act a s) as [?|]; [auto|]. destruct (notices_act a s) as [?|]; auto.
Qed.

Lemma act_closed seed version a s s' :
  act seed version a s = Some s' -> closed (shared s) = true -> closed (shared s') = true.
Proof.
  intros [H|[H|[H|[H|H]]]]%act_cases Hc.
  - by eapply call_closed.
  - by eapply reader_closed.
  - by eapply waiter_closed.
  - by rewrite (notices_closed _ _ _ H).
  - by eapply shutdown_closed.
Qed.

(** On an open connection, an action leaves it open and takes nothing down, or closes it. *)
Lemma closing_ok_stage s id st :
  closing_ok s -> poisoned st = false -> closing_ok (set_stage id st s).
Proof.
  intros [] Hp. split; try done. intros i st0. cbn. rewrite lookup_insert_Some. intros [[<- <-]|[_ ?]]; [congruence | eauto].
Qed.

Lemma call_closing_ok seed version a s s' :
  closing_ok s -> closed (shared s) = false -> call_act seed version a s = Some s' -> closing_ok s'.
Proof.
  intros H Hc Ha. pose proof H as [Hopen Hquit Hcall Hread].
  assert (forall id st, calls s !! id = Some st -> poisoned st = false) as Hnone.
  { intros id st Hst. destruct (poisoned st) eqn:Hp; [|done]. by rewrite (Hcall id st) in Hc. }
  destruct a; cbn [call_act] in Ha; try done;
    destruct (calls s !! id) as [st|] eqn:Hst; try done; try (apply Hnone in Hst as Hp; destruct st); try done;
    try (injection Ha as <-); try (by apply closing_ok_stage).
  - apply closing_ok_stage; [done|]. unfold begin_call. destruct (guard_group _ _); [done|].
    destruct (render_request group); [|done]. by destruct late.
  - unfold enter in Ha. destruct late; [injection Ha as <-; by apply closing_ok_stage|]. destruct (holder (writer s)); [done|].
    set (s1 := set_writer (set_boundary _ _) s) in Ha. assert (closing_ok s1) as H1 by done. clearbody s1.
    destruct (fatal_error (shared s1)); [injection Ha as <-; by apply closing_ok_stage|].
    destruct (_ || _); injection Ha as <-; [by apply closing_ok_stage|].
    apply (closing_ok_stage (set_writer _ (set_shared _ s1))); [|done]. destruct H1. by split.
  - unfold write_check. destruct (_ <=? _)%nat; [by apply (closing_ok_stage (set_writer _ s))|].
    destruct (_ || _); [by apply closing_ok_closed, closed_write_failed | by apply closing_ok_stage].
  - unfold write_bytes in Ha. destruct (_ && _); [|done]. injection Ha as <-. by apply (closing_ok_stage (set_writer _ s)).
  - by apply closing_ok_closed, closed_write_failed.
  - unfold await in Ha. destruct (request_complete id (shared s)); [|done]. injection Ha as <-.
    destruct poison; [done|]. by apply closing_ok_stage.
  - unfold expire in Ha. destruct (request_complete id (shared s)); [done|]. injection Ha as <-.
    by apply closing_ok_closed, closed_fail.
  - unfold collect_result in Ha. destruct (requests (shared s) !! id); [|done]. injection Ha as <-. by apply closing_ok_stage.
Qed.

Definition idle (s : System) : Prop :=
  input_open (writer s) = true /\ past_closing (quitting s) = false /\
  (forall id st, calls s !! id = Some st -> poisoned st = false) /\ takes_down (phase (reader s)) = false.

Lemma closing_ok_idle s : idle s -> closing_ok s.
Proof. intros (Ho & Hq & Hc & Hr). split; try congruence. intros id st Hst. rewrite (Hc id st); done. Qed.

Lemma open_idle s : closing_ok s -> closed (shared s) = false -> idle s.
Proof.
  intros [Ho Hq Hc Hr] Hcl. repeat split.
  - destruct (input_open (writer s)); [done|]. by rewrite Ho in Hcl.
  - destruct (past_closing (quitting s)); [|done]. by rewrite Hq in Hcl.
  - intros id st Hst. destruct (poisoned st) eqn:Hp; [|done]. by rewrite (Hc id st) in Hcl.
  - destruct (takes_down (phase (reader s))); [|done]. by rewrite Hr in Hcl.
Qed.

Lemma reader_closing_ok a s s' :
  closing_ok s -> closed (shared s) = false -> reader_act a s = Some s' -> closing_ok s'.
Proof.
  intros H Hc Ha. pose proof (open_idle s H Hc) as (Ho & Hq & Hcall & Hr).
  destruct (closed (shared s')) eqn:Hc'; [by apply closing_ok_closed|]. apply closing_ok_idle.
  destruct a; cbn [reader_act] in Ha; try done; destruct (phase (reader s)) as [|[|event events]| | | | | | |] eqn:Hp;
    try done; cbn [in_loop] in Ha.
  all: repeat match type of Ha with (if ?b then _ else _) = _ => destruct b; [|done] end.
  all: try (injection Ha as <-).
  all: try (by repeat split; try done; cbn; rewrite ?Hp).
  - unfold read_output in *. destruct (feed _ _) as [p [events|e]]; [done|]. by cbn in Hc'; rewrite closed_fail in Hc'.
  - unfold output_ends in *. destruct failure; (split_and!; [done..|]; cbn; by rewrite Hp).
  - unfold error_ends in *. destruct failure; (split_and!; [done..|]; cbn; by rewrite Hp).
  - unfold finish_reading in *. by destruct (finish _) as [p [?|e]].
  - unfold end_reader in *. set (sh1 := if negb (saw_exit (shared s)) && _ then _ else _) in *. clearbody sh1.
    set (sh2 := if negb (bool_decide (pending sh1 = [])) then _ else _) in *. clearbody sh2.
    by destruct (failed_already sh2).
Qed.

Lemma waiter_closing_ok a s s' : closing_ok s -> closed (shared s) = false -> waiter_act a s = Some s' -> closing_ok s'.
Proof.
  intros H Hc Ha. pose proof (open_idle s H Hc) as Hi. apply closing_ok_idle.
  destruct a; cbn [waiter_act] in Ha; try done; destruct (waiter s); try done; by injection Ha as <-.
Qed.

Lemma notices_closing_ok a s s' : closing_ok s -> closed (shared s) = false -> notices_act a s = Some s' -> closing_ok s'.
Proof.
  intros H Hc Ha. pose proof (open_idle s H Hc) as Hi. apply closing_ok_idle.
  destruct a; cbn [notices_act] in Ha; try done. destruct o; try done; by injection Ha as <-.
Qed.

Lemma shutdown_closing_ok a s s' :
  closing_ok s -> closed (shared s) = false -> shutdown_act a s = Some s' -> closing_ok s'.
Proof.
  intros H Hc Ha. pose proof (open_idle s H Hc) as (Ho & Hq & Hcall & Hr).
  destruct (closed (shared s')) eqn:Hc'; [by apply closing_ok_closed|]. apply closing_ok_idle.
  destruct a; cbn [shutdown_act] in Ha; try done.
  - destruct late; [by injection Ha as <-|]. destruct (quitting s); [done|]. by injection Ha as <-.
  - destruct (quitting s) as [[]|]; try done. injection Ha as <-. unfold check_shutdown. by destruct (shutdown_complete (shared s)).
  - destruct (quitting s) as [[]|]; try done. by injection Ha as <-.
  - by destruct (quitting s) as [[]|].
  - by destruct (quitting s) as [[]|].
  - by destruct (quitting s) as [[]|].
  - by destruct (quitting s) as [[]|].
  - by destruct (quitting s) as [[]|].
  - by destruct (quitting s) as [[]|].
Qed.

Lemma act_closing_ok seed version a s s' : closing_ok s -> act seed version a s = Some s' -> closing_ok s'.
Proof.
  intros H Ha. destruct (closed (shared s)) eqn:Hc.
  { apply closing_ok_closed. by eapply act_closed. }
  apply act_cases in Ha as [Ha|[Ha|[Ha|[Ha|Ha]]]].
  - by eapply call_closing_ok.
  - by eapply reader_closing_ok.
  - by eapply waiter_closing_ok.
  - by eapply notices_closing_ok.
  - by eapply shutdown_closing_ok.
Qed.

Lemma act_ok seed version a s s' : ok s -> closing_ok s -> act seed version a s = Some s' -> ok s'.
Proof.
  intros H Hcl [Ha|[Ha|[Ha|[Ha|Ha]]]]%act_cases.
  - eapply call_ok; try done. apply Hcl.
  - by eapply reader_ok.
  - by eapply waiter_ok.
  - by eapply notices_ok.
  - by eapply shutdown_ok.
Qed.

Lemma new_session_ok options : ok (new_session options) /\ closing_ok (new_session options).
Proof.
  split; [|by apply closing_ok_idle]. split; try done.
  - split; [constructor | |exists [], [], []; split; try done; constructor].
    intros id. cbn. rewrite lookup_empty. split; [by intros []|]. by intros ?%elem_of_nil.
  - intros id ?%elem_of_nil. done.
  - intros before p Hp. by destruct before.
  - intros p ?%elem_of_nil. done.
  - exists []. auto.
Qed.

Lemma reached_ok seed version options s : reached seed version options s -> ok s /\ closing_ok s.
Proof.
  induction 1 as [|a s s' _ [IH1 IH2] Ha]; [apply new_session_ok|].
  split; [by eapply act_ok | by eapply act_closing_ok].
Qed.

(** * Theorems *)

Section theorems.
Variables (seed : BoundarySeed) (version : Version) (options : ConnectionOptions).

Abbreviation Reached := (reached seed version options).

Lemma answered_frame (w : Writer) id : id ∈ ids_of w -> exists frame, (id, frame) ∈ accepted w.
Proof. intros ([i frame] & -> & H)%list_elem_of_fmap. by exists frame. Qed.

(** C1: Replies go to the requests they answer.  In every state the connection can reach, cutting
    the blocks tmux answered at the boundaries of the requests, in the order they were
    accepted, gives what each request holds; a call that returns without an error returns the
    blocks of its own request, all of them. *)
Theorem requests_get_their_replies s :
  Reached s ->
  let ids := ids_of (writer s) in
  let rs := requests (shared s) in
  split_replies (boundary_of rs <$> ids) (log (shared s)) = outcome_of rs <$> ids /\
  forall id r, calls s !! id = Some (Returned r) -> connection_error r = None ->
    exists i, ids !! i = Some id /\
      split_replies (boundary_of rs <$> ids) (log (shared s)) !! i = Some (blocks r, true).
Proof.
  intros [H _]%reached_ok. cbn zeta. pose proof (attributed_split _ _ (se_shared _ _ _ _ H)) as Hs. rewrite Hs.
  split; [done|]. intros id r Hst He. pose proof (se_stage _ _ _ _ H id _ Hst) as Hok. cbn in Hok.
  case_bool_decide as Hin.
  - destruct Hok as (q & Hq & Hc & ->). apply list_elem_of_lookup in Hin as [i Hi]. exists i. split; [done|].
    rewrite list_lookup_fmap, Hi. cbn. unfold outcome_of. rewrite Hq, Hc. unfold collected in *. cbn in *.
    apply fmap_None in He. rewrite He. by rewrite bool_decide_false by (by intros []).
  - by destruct Hok as (e & -> & _).
Qed.

(** What the bytes of a call's request on the wire are, when it was accepted. *)
Definition on_wire (s : System) (id : nat) (d : DeliveryStatus) (reply : list ControlBlock) : Prop :=
  match d with
  | not_started => forall frame, (id, frame) ∈ accepted (writer s) -> count_of (writer s) id = 0
  | written => exists frame, (id, frame) ∈ accepted (writer s) /\ count_of (writer s) id = length frame
  | indeterminate =>
      exists frame, (id, frame) ∈ accepted (writer s) /\ 0 < count_of (writer s) id < length frame
  | replied => reply <> []
  end.

(** C21: What a call says of its delivery is true.  A call that failed without its request being
    accepted, or before a byte was written, says it was not started, and of such a request the
    wire has nothing; "written" means the whole request is on the wire, "indeterminate" that a
    part of it is, "replied" that a reply came.  No earlier snapshot of the failure is kept. *)
Theorem delivery_is_true s id r e :
  Reached s -> calls s !! id = Some (Returned r) -> connection_error r = Some e ->
  on_wire s id (error_delivery e) (blocks r) /\
  exists newline, wire (writer s) = concat (put (writer s) <$> accepted (writer s)) ++ newline /\
                  (newline = [] \/ newline = [line_feed]).
Proof.
  intros [H _]%reached_ok Hst He. split.
  2:{ destruct (se_wire _ _ _ _ H) as (newline & Hw & Hn). exists newline. split; [done|]. naive_solver. }
  pose proof (se_stage _ _ _ _ H id _ Hst) as Hok. cbn in Hok. case_bool_decide as Hin.
  2:{ destruct Hok as (e0 & -> & Hd). injection He as <-. rewrite Hd. cbn. intros frame Hf. destruct Hin.
      apply list_elem_of_fmap. by exists (id, frame). }
  destruct Hok as (q & Hq & Hc & ->). unfold collected in He. cbn in He.
  apply fmap_Some in He as (e0 & He0 & ->). cbn [error_delivery].
  destruct (answered_frame _ _ Hin) as [frame Hf].
  assert (counted (writer s) (calls s) id = count_of (writer s) id) as Hcount by (unfold counted; by rewrite Hst).
  pose proof (se_fits _ _ _ _ H _ Hf) as Hfit. cbn in Hfit.
  destruct (se_delivery _ _ _ _ H id frame q Hf Hq) as [Hd|Hd].
  - rewrite Hd. cbn. destruct (se_shared _ _ _ _ H) as [_ Hdom (settled & dropped & l & [Hids _ _ _ _ Hset Hdr Hw])].
    rewrite Forall_forall in Hset, Hdr, Hw. rewrite Hids in Hin.
    apply elem_of_app in Hin as [Hi|[Hi|Hi]%elem_of_app].
    + destruct (Hset id Hi) as (q' & Hq' & _ & Hn & _). congruence.
    + destruct (Hdr id Hi) as (q' & Hq' & [_ Hr] & _). replace q' with q in * by congruence. by apply Hr.
    + destruct (Hw id Hi) as (q' & Hq' & _ & Hn & _). congruence.
  - rewrite Hd, Hcount. unfold status. destruct (Nat.eqb_spec (count_of (writer s) id) 0) as [Hz|Hz]; [by intros ? _|].
    destruct (Nat.eqb_spec (count_of (writer s) id) (length frame)); exists frame; (split; [done | lia]).
Qed.

(** ** The wire *)

(** What no thread but a caller of [execute] changes. *)
Definition keeps (s s' : System) : Prop :=
  calls s' = calls s /\ accepted (writer s') = accepted (writer s) /\ counts (writer s') = counts (writer s).

Lemma close_writer_keeps s s' : close_writer s = Some s' -> keeps s s'.
Proof. unfold close_writer. destruct (holder (writer s)); [done|]. by intros [= <-]. Qed.

Lemma reader_keeps a s s' : reader_act a s = Some s' -> keeps s s'.
Proof.
  intros Ha. destruct a; cbn [reader_act] in Ha; try done; destruct (phase (reader s)) as [|[|event events]| | | | | | |];
    try done; cbn [in_loop] in Ha.
  all: repeat match type of Ha with (if ?b then _ else _) = _ => destruct b; [|done] end.
  all: try (injection Ha as <-); try done.
  - unfold read_output. by destruct (feed _ _) as [p [events|e]].
  - unfold output_ends. by destruct failure.
  - unfold error_ends. by destruct failure.
  - unfold finish_reading. by destruct (finish _) as [p [?|e]].
  - unfold end_reader. by destruct (failed_already _).
  - apply fmap_Some in Ha as (s0 & Hc & ->). by apply close_writer_keeps in Hc.
Qed.

Lemma waiter_keeps a s s' : waiter_act a s = Some s' -> keeps s s'.
Proof.
  intros Ha. destruct a; cbn [waiter_act] in Ha; try done; destruct (waiter s); try done; by injection Ha as <-.
Qed.

Lemma notices_keeps a s s' : notices_act a s = Some s' -> keeps s s'.
Proof. intros Ha. destruct a; cbn [notices_act] in Ha; try done. destruct o; try done; by injection Ha as <-. Qed.

Lemma shutdown_keeps a s s' : shutdown_act a s = Some s' -> keeps s s'.
Proof.
  intros Ha. destruct a; cbn [shutdown_act] in Ha; try done.
  - destruct late; [by injection Ha as <-|]. destruct (quitting s); [done|]. by injection Ha as <-.
  - destruct (quitting s) as [[]|]; try done. injection Ha as <-. unfold check_shutdown. by destruct (shutdown_complete (shared s)).
  - destruct (quitting s) as [[]|]; try done. by injection Ha as <-.
  - destruct (quitting s) as [[]|]; try done. unfold take_writer in Ha. destruct late; [by injection Ha as <-|].
    destruct (holder (writer s)); [done|]. by injection Ha as <-.
  - destruct (quitting s) as [[]|]; try done. injection Ha as <-. by destruct sent.
  - destruct (quitting s) as [[]|]; try done. by injection Ha as <-.
  - destruct (quitting s) as [[]|]; try done; unfold wait_gone, last_wait in Ha.
    1-2: destruct (gone (shared s) || timed_out); [by injection Ha as <- | done].
    destruct (gone (shared s)); [by injection Ha as <-|]. destruct timed_out; [by injection Ha as <- | done].
  - destruct (quitting s) as [[]|]; try done; by injection Ha as <-.
  - destruct (quitting s) as [[]|]; try done. unfold finish_shutdown in Ha.
    destruct (phase (reader s)); try done. destruct (waiter s); try done. by injection Ha as <-.
Qed.

Lemma act_call_or_keeps a s s' :
  act seed version a s = Some s' -> call_act seed version a s = Some s' \/ keeps s s'.
Proof.
  intros [?|[H|[H|[H|H]]]]%act_cases; [by left|right..].
  - by eapply reader_keeps.
  - by eapply waiter_keeps.
  - by eapply notices_keeps.
  - by eapply shutdown_keeps.
Qed.

(** The line of a group that passed the guards, and the frame of one. *)
Definition checked_line (line : text) : Prop :=
  exists group, guard_group group version = None /\ render_request group = Value line.
Definition checked_frame (frame : text) : Prop :=
  exists line n, checked_line line /\ frame = line ++ boundary_name seed n ++ [line_feed].

Record sources_ok (s : System) : Prop := {
  so_lines : forall id line, calls s !! id = Some (Rendered line) -> checked_line line;
  so_frames : Forall (fun p => checked_frame p.2) (accepted (writer s));
}.

Lemma sources_stage s s' id st :
  sources_ok s -> calls s' = <[id := st]> (calls s) -> accepted (writer s') = accepted (writer s) ->
  (forall line, st = Rendered line -> checked_line line) -> sources_ok s'.
Proof.
  intros [Hl Hf] Hc Ha Hst. split; [|by rewrite Ha]. intros i line. rewrite Hc, lookup_insert_Some.
  intros [[<- ->]|[_ H]]; [by apply Hst | by eapply Hl].
Qed.

Lemma call_sources a s s' : sources_ok s -> call_act seed version a s = Some s' -> sources_ok s'.
Proof.
  intros H Ha. destruct a; cbn [call_act] in Ha; try done;
    destruct (calls s !! id) as [[]|] eqn:Hst; try done; try (injection Ha as <-);
    try (by eapply sources_stage).
  - eapply sources_stage; [done..|]. intros line Hl. unfold begin_call in Hl. exists group.
    destruct (guard_group group version); [done|]. destruct (render_request group); [|done].
    destruct late; [done|]. by injection Hl as ->.
  - unfold enter in Ha. destruct late; [injection Ha as <-; by eapply sources_stage|].
    destruct (holder (writer s)); [done|]. cbn [shared set_writer] in Ha.
    destruct (fatal_error (shared s)); [injection Ha as <-; by eapply sources_stage|].
    destruct (_ || _); injection Ha as <-; [by eapply sources_stage|].
    destruct H as [Hl Hf]. split; cbn.
    + intros i l. rewrite lookup_insert_Some. intros [[_ ?]|[_ ?]]; [done | by eapply Hl].
    + apply Forall_app. split; [done|]. constructor; [|done]. eexists _, _. split; [by eapply Hl | done].
  - unfold write_check. destruct (_ <=? _)%nat; [by eapply sources_stage|].
    destruct (_ || _); by eapply sources_stage.
  - unfold write_bytes in Ha. destruct (_ && _); [|done]. injection Ha as <-. by eapply sources_stage.
  - unfold await in Ha. destruct (request_complete id (shared s)); [|done]. injection Ha as <-.
    eapply sources_stage; [done..|]. by destruct poison.
  - unfold expire in Ha. destruct (request_complete id (shared s)); [done|]. injection Ha as <-. by eapply sources_stage.
  - apply fmap_Some in Ha as (s0 & Hc & ->). apply close_writer_keeps in Hc as (Hc & Ha & _).
    eapply sources_stage; [exact H | cbn; by rewrite Hc | done | done].
  - unfold collect_result in Ha. destruct (requests (shared s) !! id); [|done]. injection Ha as <-. by eapply sources_stage.
Qed.

Lemma reached_sources s : Reached s -> sources_ok s.
Proof.
  induction 1 as [|a s s' _ IH Ha]; [by split|]. apply act_call_or_keeps in Ha as [Ha|(Hc & Hacc & _)].
  - by eapply call_sources.
  - destruct IH. split; [by rewrite Hc | by rewrite Hacc].
Qed.

(** C22: The wire holds checked requests, whole and in order.  Everything on the client's input is
    the requests accepted, in the order they were: each the line of a group that passed the
    guards and the request's boundary; all whole but the last, which is cut short only while
    it is being written or once the connection is closed for good.  The line that detaches the
    client follows only where no request is cut. *)
Theorem wire_holds_requests s :
  Reached s ->
  let w := writer s in
  Forall (fun p => checked_frame p.2) (accepted w) /\
  (forall before p, accepted w = before ++ [p] ->
     Forall (whole w) before /\
     (count_of w p.1 < length p.2 -> holder w = Some (ByCall p.1) \/ closed (shared s) = true)) /\
  exists newline, wire w = concat (put w <$> accepted w) ++ newline /\
    (newline = [] \/ newline = [line_feed] /\ Forall (uncut w) (accepted w)).
Proof.
  intros Hr. pose proof (reached_sources s Hr) as [_ Hf]. apply reached_ok in Hr as [H _]. split_and!.
  - done.
  - apply (se_whole _ _ _ _ H).
  - destruct (se_wire _ _ _ _ H) as (newline & Hw & Hn). exists newline. split; [done|]. naive_solver.
Qed.

(** ** Every call ends *)

(** What a call of [execute] leaves alone. *)
Record steady (s s' : System) : Prop := {
  st_done : reader_done (shared s') = reader_done (shared s);
  st_reaped : reaped (shared s') = reaped (shared s);
  st_complete : shutdown_complete (shared s') = shutdown_complete (shared s);
  st_error : shutdown_error (shared s') = shutdown_error (shared s);
  st_closing : closing (shared s) = true -> closing (shared s') = true;
  st_input : input_open (writer s) = false -> input_open (writer s') = false;
}.

Lemma steady_write_failed id e n s : steady s (write_failed id e n s).
Proof.
  unfold write_failed. destruct (closing (shared s)) eqn:E; cbn [negb]; split; cbn; congruence.
Qed.

Lemma steady_signal signal s : steady s (set_shared (signal_child_locked signal (shared s)) s).
Proof. unfold signal_child_locked. destruct (reaped (shared s)) eqn:E; split; cbn; by rewrite ?E. Qed.

Lemma steady_close s s' : close_writer s = Some s' -> steady s s'.
Proof. unfold close_writer. destruct (holder (writer s)); [done|]. by intros [= <-]. Qed.

Lemma call_steady a s s' :
  call_act seed version a s = Some s' ->
  steady s s' /\ reader s' = reader s /\ waiter s' = waiter s /\ quitting s' = quitting s.
Proof.
  intros Ha. destruct a; cbn [call_act] in Ha; try done;
    destruct (calls s !! id) as [[]|]; try done; try (injection Ha as <-); try done.
  - unfold enter in Ha. destruct late; [by injection Ha as <-|]. destruct (holder (writer s)); [done|].
    cbn [shared set_writer] in Ha. destruct (fatal_error (shared s)); [by injection Ha as <-|].
    destruct (_ || _); by injection Ha as <-.
  - unfold write_check. destruct (_ <=? _)%nat; [done|]. destruct (_ || _); [|done].
    split; [apply steady_write_failed | done].
  - unfold write_bytes in Ha. destruct (_ && _); [by injection Ha as <- | done].
  - split; [apply steady_write_failed | done].
  - unfold await in Ha. destruct (request_complete id (shared s)); [by injection Ha as <- | done].
  - unfold expire in Ha. destruct (request_complete id (shared s)); [done | by injection Ha as <-].
  - apply fmap_Some in Ha as (s0 & Hc & ->). split; [pose proof (steady_close _ _ Hc) as []; by split|].
    unfold close_writer in Hc. destruct (holder (writer s)); [done|]. by injection Hc as <-.
  - split; [|done]. pose proof (steady_signal SIGTERM s) as []. by split.
  - unfold collect_result in Ha. destruct (requests (shared s) !! id); [by injection Ha as <- | done].
Qed.

Definition past_input (q : option ShutdownStage) : bool :=
  match q with Some (Graceful | Terminate | Terminated | Kill | LastWait | Joining) => true | _ => false end.
Definition reader_over (p : ReaderPhase) : bool := match p with Leaving | Gone => true | _ => false end.

Record threads_ok (s : System) : Prop := {
  th_reader : reader_done (shared s) = reader_over (phase (reader s));
  th_waiter : reaped (shared s) = true -> waiter s = WaiterGone;
  th_joining : quitting s = Some Joining -> gone (shared s) = true;
  th_closing : past_closing (quitting s) = true -> closing (shared s) = true;
  th_input : past_input (quitting s) = true -> input_open (writer s) = false;
  th_complete : shutdown_complete (shared s) = true ->
    phase (reader s) = Gone /\ waiter s = WaiterGone /\ reaped (shared s) = true /\
    input_open (writer s) = false /\ closing (shared s) = true /\ (quitting s = None \/ quitting s = Some Entered);
}.

Lemma threads_ok_steady s s' :
  threads_ok s -> steady s s' -> phase (reader s') = phase (reader s) -> waiter s' = waiter s ->
  quitting s' = quitting s -> threads_ok s'.
Proof.
  intros [Hr Hw Hj Hc Hi Ht] [] Hp Hww Hq.
  split; unfold gone in *; rewrite ?Hp, ?Hww, ?Hq, ?st_done0, ?st_reaped0, ?st_complete0; auto.
  intros H. destruct (Ht H) as (? & ? & ? & ? & ? & ?). split_and!; auto.
Qed.

Definition thread_flags (sh : Shared) : bool * bool * bool * bool * option ProtocolError :=
  (closing sh, reader_done sh, reaped sh, shutdown_complete sh, shutdown_error sh).

Lemma flags_event event sh : thread_flags (accept_event event sh) = thread_flags sh.
Proof.
  destruct event as [block|n]; cbn [accept_event]; [|done].
  destruct (guard_flags block) as [flags|]; [|done].
  destruct (negb (startup_seen sh)); [by destruct (_ || _)|].
  destruct (flags =? 0)%N; [done|]. destruct (negb (flags =? 1)%N); [done|].
  destruct (pending sh) as [|id rest]; [by destruct (_ && _)|].
  destruct (requests sh !! id) as [r|]; [|done]. by destruct (is_boundary block (boundary r)).
Qed.

Lemma threads_same s s' :
  threads_ok s -> thread_flags (shared s') = thread_flags (shared s) ->
  reader_over (phase (reader s')) = reader_over (phase (reader s)) -> phase (reader s) <> Gone ->
  waiter s' = waiter s -> quitting s' = quitting s -> (input_open (writer s) = false -> input_open (writer s') = false) ->
  threads_ok s'.
Proof.
  intros [Hr Hw Hj Hc Hi Ht] [= H1 H2 H3 H4 _] Hp Hg Hww Hq Ho.
  split; unfold gone in *; rewrite ?H1, ?H2, ?H3, ?H4, ?Hp, ?Hww, ?Hq; auto.
  intros H. by destruct (Ht H) as (? & _).
Qed.

Lemma flags_signal signal sh : thread_flags (signal_child_locked signal sh) = thread_flags sh.
Proof. unfold signal_child_locked. by destruct (reaped sh) eqn:E; unfold thread_flags; cbn; rewrite ?E. Qed.

Lemma reader_threads a s s' : threads_ok s -> reader_act a s = Some s' -> threads_ok s'.
Proof.
  intros H Ha. destruct a; cbn [reader_act] in Ha; try done;
    destruct (phase (reader s)) as [|[|event events]| | | | | | |] eqn:Hp; try done; cbn [in_loop] in Ha.
  all: repeat match type of Ha with (if ?b then _ else _) = _ => destruct b; [|done] end.
  all: try (injection Ha as <-).
  all: try (by apply (threads_same s); cbn; rewrite ?Hp).
  - unfold read_output. destruct (feed _ _) as [p [events|e]]; apply (threads_same s); cbn; by rewrite ?Hp.
  - unfold output_ends. destruct failure; apply (threads_same s); cbn; by rewrite ?Hp.
  - apply (threads_same s); cbn; rewrite ?Hp; try done. apply flags_event.
  - unfold error_ends. destruct failure; apply (threads_same s); cbn; by rewrite ?Hp.
  - unfold finish_reading. destruct (finish _) as [p [?|e]]; apply (threads_same s); cbn; by rewrite ?Hp.
  - unfold end_reader. set (sh1 := if negb (saw_exit (shared s)) && _ then _ else _).
    assert (thread_flags sh1 = thread_flags (shared s)) as H1 by (unfold sh1; by destruct (_ && _)). clearbody sh1.
    set (sh2 := if negb (bool_decide (pending sh1 = [])) then _ else _).
    assert (thread_flags sh2 = thread_flags (shared s)) as H2 by (unfold sh2; by destruct (negb (bool_decide (pending sh1 = [])))).
    clearbody sh2. destruct (failed_already sh2); [|apply (threads_same s); cbn; by rewrite ?Hp].
    destruct H. injection H2 as Hf1 Hf2 Hf3 Hf4 _.
    split; unfold gone in *; cbn; rewrite ?Hf2, ?Hf3, ?Hf4; auto; [by rewrite th_reader0, Hp|].
    intros Hsc. apply th_complete0 in Hsc as (? & _). congruence.
  - apply fmap_Some in Ha as (s0 & Hc & ->). unfold close_writer in Hc. destruct (holder (writer s)); [done|].
    injection Hc as <-. apply (threads_same s); cbn; by rewrite ?Hp.
  - apply (threads_same s); cbn; rewrite ?Hp; try done. apply flags_signal.
  - destruct H. split; cbn; auto.
    + intros Hj. apply th_joining0 in Hj. unfold gone in *. apply andb_prop in Hj as [_ ->]. done.
    + intros Hsc. apply th_complete0 in Hsc as (? & _). congruence.
Qed.

Lemma waiter_threads a s s' : threads_ok s -> waiter_act a s = Some s' -> threads_ok s'.
Proof.
  intros [Hr Hw Hj Hc Hi Ht] Ha. unfold gone in *.
  assert (waiter s <> WaiterGone -> reaped (shared s) = false /\ shutdown_complete (shared s) = false) as Hn.
  { intros Hne. split; [destruct (reaped (shared s)) | destruct (shutdown_complete (shared s))]; try done; exfalso; apply Hne.
    - by apply Hw.
    - by apply Ht. }
  destruct a; cbn [waiter_act] in Ha; try done; destruct (waiter s) eqn:Hp; try done; injection Ha as <-;
    destruct Hn as [Hn1 Hn2]; try done;
    rewrite Hn1, Hn2 in *; (split; unfold gone; cbn; rewrite ?Hn1, ?Hn2; auto; try done;
     intros Hq; apply Hj in Hq; by rewrite andb_false_r in Hq).
Qed.

Lemma notices_threads a s s' : threads_ok s -> notices_act a s = Some s' -> threads_ok s'.
Proof.
  intros [] Ha. destruct a; cbn [notices_act] in Ha; try done. destruct o; try done; injection Ha as <-; by split.
Qed.

Lemma shutdown_threads a s s' : threads_ok s -> shutdown_act a s = Some s' -> threads_ok s'.
Proof.
  intros H Ha. pose proof H as [Hr Hw Hj Hc Hi Ht]. unfold gone in *.
  assert (forall q, quitting s = Some q -> q <> Entered -> shutdown_complete (shared s) = false) as Hlate.
  { intros q Hq Hne. destruct (shutdown_complete (shared s)); [|done]. destruct Ht as (_ & _ & _ & _ & _ & [?|?]); congruence. }
  destruct a; cbn [shutdown_act] in Ha; try done.
  - destruct late; [injection Ha as <-; by split|]. destruct (quitting s) eqn:Hq; [done|]. injection Ha as <-.
    split; cbn; auto; try done. intros Hs. destruct (Ht Hs) as (? & ? & ? & ? & ? & ?). split_and!; auto.
  - destruct (quitting s) as [[]|]; try done. injection Ha as <-. unfold check_shutdown.
    destruct (shutdown_complete (shared s)) eqn:E; split; cbn; rewrite ?E; auto; try done.
    intros _. destruct (Ht eq_refl) as (? & ? & ? & ? & ? & ?). split_and!; auto.
  - destruct (quitting s) as [[]|]; try done. injection Ha as <-. pose proof (Hlate _ eq_refl ltac:(done)) as Hn.
    split; cbn; rewrite ?Hn; auto; try done.
  - destruct (quitting s) as [[]|]; try done. pose proof (Hlate _ eq_refl ltac:(done)) as Hn.
    unfold take_writer in Ha. destruct late; [injection Ha as <-; split; cbn; rewrite ?Hn; auto; done|].
    destruct (holder (writer s)); [done|]. injection Ha as <-. split; cbn; rewrite ?Hn; auto; try done;
      by destruct (input_open (writer s)), (partial_command_frame (writer s)), soon.
  - destruct (quitting s) as [[]|]; try done. injection Ha as <-. pose proof (Hlate _ eq_refl ltac:(done)) as Hn.
    split; cbn; rewrite ?Hn; auto; try done.
  - destruct (quitting s) as [[]|]; try done. injection Ha as <-. pose proof (Hlate _ eq_refl ltac:(done)) as Hn.
    split; cbn; rewrite ?Hn; auto; try done.
  - destruct (quitting s) as [[]|]; try done; pose proof (Hlate _ eq_refl ltac:(done)) as Hn; unfold wait_gone, last_wait in Ha.
    1-2: destruct (gone (shared s) || timed_out); [injection Ha as <-; split; cbn; rewrite ?Hn; auto; done | done].
    destruct (gone (shared s)) eqn:Hg; [injection Ha as <-; split; cbn; rewrite ?Hn; auto; done|].
    destruct timed_out; [injection Ha as <-; split; cbn; rewrite ?Hn; auto; done | done].
  - destruct (quitting s) as [[]|]; try done; injection Ha as <-; pose proof (Hlate _ eq_refl ltac:(done)) as Hn;
      pose proof (flags_signal SIGTERM (shared s)) as [= F1 F2 F3 F4 _];
      pose proof (flags_signal SIGKILL (shared s)) as [= G1 G2 G3 G4 _];
      (split; unfold gone; cbn; rewrite ?F1, ?F2, ?F3, ?F4, ?G1, ?G2, ?G3, ?G4, ?Hn; auto; try done).
  - destruct (quitting s) as [[]|] eqn:Hq; try done. unfold finish_shutdown in Ha.
    destruct (phase (reader s)) eqn:Hp; try done. destruct (waiter s) eqn:Hww; try done. injection Ha as <-.
    split; cbn; rewrite ?Hp, ?Hww; auto; try done. intros _. specialize (Hj eq_refl). apply andb_prop in Hj as [_ ->].
    split_and!; auto.
Qed.

Lemma reached_threads s : Reached s -> threads_ok s.
Proof.
  induction 1 as [|a s s' _ IH Ha]; [by split|]. apply act_cases in Ha as [Ha|[Ha|[Ha|[Ha|Ha]]]].
  - apply call_steady in Ha as (Hs & Hr & Hw & Hq). eapply threads_ok_steady; try done. by rewrite Hr.
  - by eapply reader_threads.
  - by eapply waiter_threads.
  - by eapply notices_threads.
  - by eapply shutdown_threads.
Qed.

(** What cannot change any more. *)
Definition settled_part (s : System) : text * list (nat * text) * list ControlBlock * list Signal * bool * option ProtocolError :=
  (wire (writer s), accepted (writer s), log (shared s), signals (shared s), shutdown_complete (shared s),
   shutdown_error (shared s)).

(** C25: A shutdown that ended is final.  Once a shutdown is complete the client is reaped, both
    threads are gone, the input is closed and no request waits; nothing that happens after
    writes a byte, accepts a request, gives one a reply, signals a process, or changes what
    later calls of shutdown answer. *)
Theorem shutdown_is_final s :
  Reached s -> shutdown_complete (shared s) = true ->
  phase (reader s) = Gone /\ waiter s = WaiterGone /\ reaped (shared s) = true /\
  input_open (writer s) = false /\ pending (shared s) = [] /\
  forall a s', act seed version a s = Some s' -> settled_part s' = settled_part s.
Proof.
  intros Hr Hs. pose proof (reached_threads s Hr) as Ht. apply reached_ok in Hr as [H _].
  destruct (th_complete _ Ht Hs) as (Hp & Hw & Hre & Ho & Hc & Hq). split_and!; try done.
  { destruct (se_shared _ _ _ _ H) as [_ _ (? & ? & ? & Hat)]. pose proof (at_closed _ _ _ _ _ Hat) as Hcl.
    unfold closed in Hcl. by rewrite Hc in Hcl. }
  intros a s' [Ha|[Ha|[Ha|[Ha|Ha]]]]%act_cases.
  - destruct a; cbn [call_act] in Ha; try done;
      destruct (calls s !! id) as [[]|] eqn:Hst; try done; try (injection Ha as <-; try done).
    + unfold enter in Ha. destruct late; [by injection Ha as <-|]. destruct (holder (writer s)); [done|].
      cbn [shared set_writer] in Ha. destruct (fatal_error (shared s)); [by injection Ha as <-|].
      rewrite Hc, orb_true_r in Ha. by injection Ha as <-.
    + unfold write_check. destruct (_ <=? _)%nat; [done|]. destruct (_ || _); [|done].
      unfold write_failed. by rewrite Hc.
    + unfold write_bytes in Ha. by rewrite Ho, andb_false_r in Ha.
    + unfold write_failed. by rewrite Hc.
    + unfold await in Ha. destruct (request_complete id (shared s)); [by injection Ha as <- | done].
    + unfold expire in Ha. destruct (request_complete id (shared s)); [done | by injection Ha as <-].
    + apply fmap_Some in Ha as (s0 & Hcw & ->). unfold close_writer in Hcw. destruct (holder (writer s)); [done|].
      by injection Hcw as <-.
    + unfold settled_part, signal_child_locked. cbn. by rewrite Hre.
    + unfold collect_result in Ha. destruct (requests (shared s) !! id); [by injection Ha as <- | done].
  - destruct a; cbn [reader_act] in Ha; try done; by rewrite Hp in Ha.
  - destruct a; cbn [waiter_act] in Ha; try done; by rewrite Hw in Ha.
  - destruct a; cbn [notices_act] in Ha; try done. destruct o; try done; by injection Ha as <-.
  - destruct a; cbn [shutdown_act] in Ha; try done; destruct Hq as [Hq|Hq]; rewrite Hq in Ha; try done;
      try destruct late; try done; injection Ha as <-; try done.
    unfold check_shutdown. by rewrite Hs.
Qed.

(** What needs nothing of tmux: deadlines pass, failures are seen, locks are let go of. *)
Definition unaided (a : action) : bool :=
  match a with
  | Enter _ true | CheckWrite _ | CountBytes _ | WriteFails _ _ | Await _ | Expire _ | ClosePoisoned _
  | SignalPoisoned _ | Collect _ | WriteNewline false | CloseQuitting => true
  | _ => false
  end.

Definition leads (s : System) (P : System -> Prop) : Prop :=
  exists l s', Forall (fun a => unaided a = true) l /\ run seed version l s = Some s' /\ P s'.

Lemma leads_now s (P : System -> Prop) : P s -> leads s P.
Proof. intros H. exists [], s. by repeat split. Qed.

Lemma leads_act a s s' (P : System -> Prop) :
  unaided a = true -> act seed version a s = Some s' -> leads s' P -> leads s P.
Proof.
  intros Hu Ha (l & s2 & Hl & Hrun & HP). exists (a :: l), s2. split_and!; [by constructor | | done].
  cbn [run]. by rewrite Ha.
Qed.

Lemma leads_trans s (P Q : System -> Prop) : leads s P -> (forall s', P s' -> leads s' Q) -> leads s Q.
Proof.
  intros (l & s1 & Hl & Hrun & HP) HQ. revert s Hrun. induction Hl as [|a l Hu _ IH]; intros s Hrun.
  - injection Hrun as ->. by apply HQ.
  - cbn [run] in Hrun. destruct (act seed version a s) as [s0|] eqn:Ha; [|done]. eapply leads_act; eauto.
Qed.

Lemma act_call a s s' : call_act seed version a s = Some s' -> act seed version a s = Some s'.
Proof. unfold act. by intros ->. Qed.

Lemma leads_call a s s' (P : System -> Prop) :
  unaided a = true -> Reached s -> call_act seed version a s = Some s' -> (Reached s' -> leads s' P) -> leads s P.
Proof.
  intros Hu Hr Ha HP. apply act_call in Ha. eapply leads_act; [exact Hu | exact Ha |]. apply HP. by eapply reached_act.
Qed.

(** A call that has the writer lets go of it and comes to its wait. *)
Definition let_go (id : nat) (s s' : System) : Prop :=
  holder (writer s') = None /\ (exists p, calls s' !! id = Some (Waiting p)) /\
  forall i, i <> id -> calls s' !! i = calls s !! i.

Lemma let_go_failed id e n s : let_go id s (write_failed id e n s).
Proof.
  split_and!; [done | eexists; unfold write_failed; cbn; by rewrite lookup_insert_eq|].
  intros i Hi. unfold write_failed. cbn. by rewrite lookup_insert_ne.
Qed.

Lemma let_go_via id s s1 s2 : (forall i, i <> id -> calls s1 !! i = calls s !! i) -> let_go id s1 s2 -> let_go id s s2.
Proof. intros H1 (Hh & Hw & Hi). split_and!; [done..|]. intros i Hne. by rewrite Hi, H1. Qed.

Lemma leads_cleared s id frame n (P : System -> Prop) :
  Reached s -> calls s !! id = Some (Cleared frame n) ->
  (forall s', Reached s' -> let_go id s s' -> leads s' P) -> leads s P.
Proof.
  intros Hr Hst HP.
  apply (leads_call (WriteFails id (protocol_error (txt "control write deadline expired"))) s
           (write_failed id (protocol_error (txt "control write deadline expired")) n s)); [done..| |].
  - cbn [call_act]. by rewrite Hst.
  - intros Hr'. apply HP; [done | apply let_go_failed].
Qed.

Lemma leads_writing s id frame n (P : System -> Prop) :
  Reached s -> calls s !! id = Some (Writing frame n) ->
  (forall s', Reached s' -> let_go id s s' -> leads s' P) -> leads s P.
Proof.
  intros Hr Hst HP. apply (leads_call (CheckWrite id) s (write_check id frame n s)); [done..| |].
  { cbn [call_act]. by rewrite Hst. }
  intros Hr'. unfold write_check in *. destruct (_ <=? _)%nat.
  { apply HP; [done|]. split_and!; [done | eexists; cbn; by rewrite lookup_insert_eq | intros i Hi; cbn; by rewrite lookup_insert_ne]. }
  destruct (_ || _); [apply HP; [done | apply let_go_failed]|].
  eapply (leads_cleared _ id frame n); [done | cbn; by rewrite lookup_insert_eq|].
  intros s2 Hr2 Hl. apply HP; [done|]. eapply let_go_via; [|exact Hl]. intros i Hi. cbn. by rewrite lookup_insert_ne.
Qed.

Lemma leads_let_go s id st (P : System -> Prop) :
  Reached s -> calls s !! id = Some st -> writes st = true ->
  (forall s', Reached s' -> let_go id s s' -> leads s' P) -> leads s P.
Proof.
  intros Hr Hst Hw HP. destruct st; try done; [by eapply leads_writing | by eapply leads_cleared|].
  apply (leads_call (CountBytes id) s (count_bytes id frame n count s)); [done..| |].
  { cbn [call_act]. by rewrite Hst. }
  intros Hr'. eapply (leads_writing _ id frame (n + count)); [done | unfold count_bytes; cbn; by rewrite lookup_insert_eq|].
  intros s2 Hr2 Hl. apply HP; [done|]. eapply let_go_via; [|exact Hl]. intros i Hi. unfold count_bytes. cbn. by rewrite lookup_insert_ne.
Qed.

(** The writer is let go of by whoever has it. *)
Lemma leads_free s (P : System -> Prop) :
  Reached s ->
  (forall s', Reached s' -> holder (writer s') = None ->
     (forall i st, calls s !! i = Some st -> writes st = false -> calls s' !! i = Some st) -> leads s' P) ->
  leads s P.
Proof.
  intros Hr HP. destruct (holder (writer s)) as [[id|]|] eqn:Hh; [| |by apply HP].
  - pose proof (proj1 (reached_ok _ _ _ _ Hr)) as H. destruct (se_holder _ _ _ _ H id Hh) as (st & Hst & Hw).
    eapply leads_let_go; [done..|]. intros s' Hr' (Hh' & _ & Hi). apply HP; [done..|].
    intros i st' Hst' Hw'. rewrite Hi; [done|]. intros ->. congruence.
  - pose proof (proj1 (reached_ok _ _ _ _ Hr)) as H. apply (se_quit _ _ _ _ H) in Hh.
    assert (forall s, Reached s -> quitting s = Some CloseInput ->
      (forall s', Reached s' -> holder (writer s') = None -> calls s' = calls s -> leads s' P) -> leads s P) as Hclose.
    { intros s0 Hr0 Hq0 HP0.
      assert (act seed version CloseQuitting s0 =
        Some (set_quitting (Some Graceful) (set_writer (set_holder None (close_input (writer s0))) s0))) as Ha
        by (unfold act; cbn [call_act reader_act waiter_act notices_act shutdown_act]; by rewrite Hq0).
      eapply leads_act; [|exact Ha|]; [done|]. apply HP0; [by eapply reached_act | done..]. }
    destruct (quitting s) as [[]|] eqn:Hq; try done.
    + assert (act seed version (WriteNewline false) s = Some (write_newline false s)) as Ha
        by (unfold act; cbn [call_act reader_act waiter_act notices_act shutdown_act]; by rewrite Hq).
      eapply leads_act; [|exact Ha|]; [done|]. apply Hclose; [by eapply reached_act | done|].
      intros s' Hr' Hh' Hc. apply HP; [done..|]. rewrite Hc. done.
    + apply Hclose; [done..|]. intros s' Hr' Hh' Hc. apply HP; [done..|]. by rewrite Hc.
Qed.

Definition returns (id : nat) (s : System) : Prop := exists r, calls s !! id = Some (Returned r).

Lemma leads_collecting s id : Reached s -> calls s !! id = Some Collecting -> leads s (returns id).
Proof.
  intros Hr Hst. pose proof (proj1 (reached_ok _ _ _ _ Hr)) as H.
  destruct (se_stage _ _ _ _ H id _ Hst) as [Hin _]. apply (so_dom _ _ (se_shared _ _ _ _ H)) in Hin as [r Hq].
  apply (leads_call (Collect id) s (set_stage id (Returned (collected r)) s)); [done..| |].
  - cbn [call_act]. rewrite Hst. unfold collect_result. by rewrite Hq.
  - intros _. apply leads_now. eexists. cbn. by rewrite lookup_insert_eq.
Qed.

Lemma leads_signalling s id : Reached s -> calls s !! id = Some Signalling -> leads s (returns id).
Proof.
  intros Hr Hst. eapply (leads_call (SignalPoisoned id)); [done..| |].
  - cbn [call_act]. by rewrite Hst.
  - intros Hr'. apply leads_collecting; [done|]. cbn. by rewrite lookup_insert_eq.
Qed.

Lemma leads_poisoning s id : Reached s -> calls s !! id = Some Poisoning -> leads s (returns id).
Proof.
  intros Hr Hst. apply leads_free; [done|]. intros s' Hr' Hh Hkeep. apply (Hkeep id) in Hst; [|done].
  eapply (leads_call (ClosePoisoned id)); [done..| |].
  - cbn [call_act]. rewrite Hst. unfold close_writer. rewrite Hh. cbn. done.
  - intros Hr2. apply leads_signalling; [done|]. cbn. by rewrite lookup_insert_eq.
Qed.

Lemma leads_waiting s id p : Reached s -> calls s !! id = Some (Waiting p) -> leads s (returns id).
Proof.
  intros Hr Hst. destruct (request_complete id (shared s)) eqn:Hc.
  - eapply (leads_call (Await id)); [done..| |].
    + cbn [call_act]. rewrite Hst. unfold await. by rewrite Hc.
    + intros Hr'. destruct p; [apply leads_poisoning | apply leads_collecting]; try done; cbn; by rewrite lookup_insert_eq.
  - eapply (leads_call (Expire id)); [done..| |].
    + cbn [call_act]. rewrite Hst. unfold expire. by rewrite Hc.
    + intros Hr'. apply leads_poisoning; [done|]. cbn. by rewrite lookup_insert_eq.
Qed.

(** C24: Every call ends, whatever tmux does.  From any state the connection can reach, a call of
    execute comes to its return by steps that need nothing of the client: its deadlines pass,
    whoever has the writer lets go of it, and no reply is waited for; the request is answered
    or failed.  Nor does a call wait for a reply once the connection is closed: then no
    request is waiting. *)
Theorem calls_end s id st :
  Reached s -> calls s !! id = Some st ->
  leads s (returns id) /\
  (closed (shared s) = true -> pending (shared s) = [] /\
   forall poison, st = Waiting poison -> exists s', act seed version (Await id) s = Some s').
Proof.
  intros Hr Hst. split.
  - destruct (writes st) eqn:Hw.
    + eapply leads_let_go; [done..|]. intros s' Hr' (_ & (p & Hp) & _). by eapply leads_waiting.
    + destruct st; try done.
      * eapply (leads_call (Enter id true)); [done..| |].
        { cbn [call_act]. rewrite Hst. done. }
        intros _. apply leads_now. eexists. cbn. by rewrite lookup_insert_eq.
      * by eapply leads_waiting.
      * by apply leads_poisoning.
      * by apply leads_signalling.
      * by apply leads_collecting.
      * apply leads_now. by eexists.
  - pose proof (proj1 (reached_ok _ _ _ _ Hr)) as H. intros Hc. split.
    { destruct (se_shared _ _ _ _ H) as [_ _ (? & ? & ? & Hat)]. pose proof (at_closed _ _ _ _ _ Hat) as Hcl.
      by rewrite Hc in Hcl. }
    intros p ->. destruct (se_stage _ _ _ _ H id _ Hst) as [Hin _].
    pose proof (closed_complete _ _ _ (se_shared _ _ _ _ H) Hc Hin) as Hcomp.
    eexists. apply act_call. cbn [call_act]. rewrite Hst. unfold await. by rewrite Hcomp.
Qed.

End theorems.
End properties.

(** * The theorems at concrete runs *)

Definition sample_version : Version := MkVersion 3 8 0 false false 0.

(** A connection after some actions. *)
Definition after (l : list action) : System :=
  default (new_session sample_options) (run sample_seed sample_version l (new_session sample_options)).

Lemma run_reached {pipes : Pipe} seed version options l s s' :
  reached seed version options s -> run seed version l s = Some s' -> reached seed version options s'.
Proof.
  revert s. induction l as [|a l IH]; intros s Hr; cbn [run]; [by intros [= <-]|].
  destruct (act seed version a s) as [s1|] eqn:Ha; [|done]. intros H. eapply IH; [|exact H]. by eapply reached_act.
Qed.

Lemma after_reached l : reached sample_seed sample_version sample_options (after l).
Proof.
  unfold after. destruct (run _ _ l _) as [s|] eqn:H; [|apply reached_new].
  by eapply run_reached; [apply reached_new|].
Qed.

Definition block_lines (body_lines : list text) (flags : N) (t : ControlTerminal) : bytes :=
  stream_of ([txt "%begin " ++ metadata_of 1 2 flags] ++ body_lines ++ [terminal_keyword t ++ metadata_of 1 2 flags]).

Definition attached : list action :=
  [ReadOutput (block_lines [] 0 terminal_end); AcceptEvent; AcceptEvent].
Definition writing_one : list action :=
  [Call 0 [[txt "set-buffer"; txt "x"]] false; Enter 0 false; CheckWrite 0; WriteBytes 0 30; CountBytes 0; CheckWrite 0].
Definition replied_one : list action :=
  attached ++ writing_one ++
  [WriteBytes 0 84; CountBytes 0; CheckWrite 0;
   ReadOutput (block_lines [txt "hello"] 1 terminal_end ++
               stream_of (boundary_lines 3 4 (boundary_name sample_seed 0)));
   AcceptEvent; AcceptEvent; AcceptEvent; Await 0; Collect 0].
Definition cut_one : list action :=
  attached ++ writing_one ++
  [WriteFails 0 (protocol_error (txt "control write deadline expired")); Await 0; ClosePoisoned 0; SignalPoisoned 0; Collect 0].
Definition shut_down : list action :=
  attached ++
  [Shutdown false; CheckShutdown; CloseRequests; TakeWriter false true; WriteNewline true; CloseQuitting;
   ReadOutput (stream_of [txt "%exit"]); AcceptEvent; AcceptEvent; OutputEnds None; ErrorEnds None; LeaveLoop;
   FinishReading; EndReader; CloseOutputs; CloseNotices; ChildExits; ChildReaped;
   QuitWait false; QuitSignal; QuitWait false; QuitSignal; QuitWait false; FinishShutdown].

Definition answer_of (s : System) (id : nat) : ControlRequestResult :=
  match calls s !! id with Some (Returned r) => r | _ => MkResult [] None end.
Definition error_of (r : ControlRequestResult) : ProtocolError :=
  default (protocol_error []) (connection_error r).

Lemma requests_get_their_replies_witness :
  length (blocks (answer_of (after replied_one) 0)) = 1 /\
  exists i, ids_of (writer (after replied_one)) !! i = Some 0 /\
    split_replies (boundary_of (requests (shared (after replied_one))) <$> ids_of (writer (after replied_one)))
      (log (shared (after replied_one))) !! i = Some (blocks (answer_of (after replied_one) 0), true).
Proof.
  split; [by vm_compute|].
  apply (requests_get_their_replies _ _ _ (after replied_one) (after_reached _)); by vm_compute.
Defined.

Lemma delivery_is_true_witness :
  error_delivery (error_of (answer_of (after cut_one) 0)) = indeterminate /\
  on_wire (after cut_one) 0 indeterminate (blocks (answer_of (after cut_one) 0)).
Proof.
  split; [by vm_compute|].
  apply (delivery_is_true _ _ _ (after cut_one) 0 (answer_of (after cut_one) 0)
           (error_of (answer_of (after cut_one) 0)) (after_reached _)); by vm_compute.
Defined.

Lemma wire_holds_requests_witness :
  length (wire (writer (after cut_one))) = 30 /\
  Forall (fun p => checked_frame sample_seed sample_version p.2) (accepted (writer (after cut_one))).
Proof.
  split; [by vm_compute|]. apply (wire_holds_requests _ _ _ (after cut_one) (after_reached _)).
Defined.

Lemma calls_end_witness :
  leads sample_seed sample_version (after (attached ++ writing_one)) (returns 0).
Proof.
  apply (calls_end sample_seed sample_version sample_options (after (attached ++ writing_one)) 0
           (default Collecting (calls (after (attached ++ writing_one)) !! 0)) (after_reached _)).
  by vm_compute.
Defined.

Lemma shutdown_is_final_witness :
  answers (after shut_down) = [Value tt] /\ phase (reader (after shut_down)) = Gone /\
  pending (shared (after shut_down)) = [].
Proof.
  split; [by vm_compute|].
  destruct (shutdown_is_final _ _ _ (after shut_down) (after_reached _)) as (H1 & _ & _ & _ & H2 & _); [by vm_compute|].
  by split.
Defined.
