(* ===== verification/Connect.v ===== *)
(** Opening and using a control connection: [Connection::connect], [set_pane_output] and
    [NotificationRange] of [src/connection.cpp].

    The threads of the connection are in Sessions; here they are what a program asks and is
    answered.  [connect] asks the endpoint for its release before a client exists, spawns a
    client only for a release whose control mode is safe, and has the attached daemon prove by
    its first command that it is the one that answered.

    The theorems: what a connection that opened has checked, and that one that failed leaves
    nothing running; a client is never spawned for a daemon below the floor; the range over
    notifications yields every batch in order. *)

From S2P Require Import Prelude Version Command Capabilities Endpoint Commands Control Connection.

(** What [connect] and [set_pane_output] do, and go on with. *)
Inductive Setup :=
  | Finished (r : expected ProtocolError unit)
  | AskEndpoint (binary : text) (selectors : list text) (timeout : Z)
      (k : expected CommandFailure EndpointVersion -> Setup)
  | DrawMarker (k : text -> Setup)
  | DrawSeed (k : expected ProtocolError BoundarySeed -> Setup)
  | SpawnClient (arguments : list text) (k : option ProtocolError -> Setup)
  | StartWorkers (seed : BoundarySeed) (version : Version) (k : option text -> Setup)
  | AwaitStartup (timeout : Z) (k : bool -> option ProtocolError -> Setup)
  | Execute (group : list (list text)) (timeout : Z) (k : ControlRequestResult -> Setup)
  | ShutDown (timeout : Z) (k : Setup)
  | Destroy (k : Setup).

Definition with_delivery (d : DeliveryStatus) (e : ProtocolError) : ProtocolError := MkProtocolError (message e) d.

(** Whether the first block says the command failed. *)
Definition first_refused (result : ControlRequestResult) : bool :=
  match blocks result with
  | b :: _ => match terminal b with terminal_error => true | terminal_end => false end
  | [] => false
  end.

Definition fence_group (token marker : text) : list (list text) :=
  [[txt "if-shell"; txt "-F"; txt "#{==:#{version}," ++ token ++ txt "}"; []; marker]].
Definition layout_group : list (list text) := [[txt "refresh-client"; txt "-f"; txt "new-layouts"]].

(** A request of [connect] that must succeed, [otherwise] if tmux refuses it. *)
Definition demand (options : ConnectionOptions) (group : list (list text)) (otherwise : ProtocolError)
    (next : Setup) : Setup :=
  Execute group (startup_timeout options) (fun result =>
    if bool_decide (is_Some (connection_error result)) || first_refused result then
      ShutDown (shutdown_timeout options) (Finished (Unexpected (default otherwise (connection_error result))))
    else next).

Definition replaced_error : ProtocolError := MkProtocolError (diagnostic replaced_daemon) replied.
Definition layouts_error : ProtocolError :=
  MkProtocolError (txt "tmux refused to request JSON layouts on connect") replied.

(** From the client's threads on. *)
Definition settle (options : ConnectionOptions) (endpoint : EndpointVersion) (marker : text) : Setup :=
  AwaitStartup (startup_timeout options) (fun ready fatal =>
    if ready then
      let layouts := demand options layout_group layouts_error (Finished (Value tt)) in
      if live endpoint then demand options (fence_group (token endpoint) marker) replaced_error layouts
      else layouts
    else
      let failure := default (not_started_error (txt "control client startup deadline expired")) fatal in
      ShutDown (shutdown_timeout options) (Finished (Unexpected (with_delivery not_started failure)))).

Definition connect (options : ConnectionOptions) : Setup :=
  match check_options options with
  | Some e => Finished (Unexpected e)
  | None =>
      AskEndpoint (default (txt "tmux") (tmux_binary options)) [txt "-S"; socket_path options]
        (startup_timeout options) (fun answer =>
      match answer with
      | Unexpected e => Finished (Unexpected (not_started_error (diagnostic e)))
      | Value endpoint =>
          match require_supported endpoint kMinimumSupported with
          | Unexpected e => Finished (Unexpected (not_started_error (diagnostic e)))
          | Value _ =>
              if live endpoint && version_ltb (endpoint_version endpoint) (since control_mode)
              then Finished (Unexpected (not_started_error
                     (txt "library-managed control mode needs tmux " ++ since_text control_mode ++
                      txt " or newer; the daemon reports " ++ token endpoint)))
              else
                DrawMarker (fun marker =>
                DrawSeed (fun seed =>
                match seed with
                | Unexpected e => Finished (Unexpected (with_delivery not_started e))
                | Value seed =>
                    SpawnClient (client_arguments options) (fun failure =>
                    match failure with
                    | Some e => Finished (Unexpected (with_delivery not_started e))
                    | None =>
                        StartWorkers seed (endpoint_version endpoint) (fun what =>
                        match what with
                        | Some what =>
                            Destroy (Finished (Unexpected
                              (not_started_error (txt "control worker start failed: " ++ what))))
                        | None => settle options endpoint marker
                        end)
                    end)
                end))
          end
      end)
  end.

(** * Pane output *)

Definition refresh_group (pane : text) (deliver : bool) : list (list text) :=
  [[txt "refresh-client"; txt "-A"; pane ++ (if deliver then txt ":on" else txt ":off")] ++
   (if deliver then [txt "-A"; pane ++ txt ":continue"] else [])].

Definition set_pane_output (options : ConnectionOptions) (pane : text) (deliver : bool) (timeout : Z) : Setup :=
  if negb (pane_output options) then
    Finished (Unexpected (not_started_error
      (txt "this connection did not ask for pane output, and tmux cannot add it " ++
       txt "to a client that started without it")))
  else if bool_decide (pane = []) then Finished (Unexpected (not_started_error (txt "no pane named")))
  else
    Execute (refresh_group pane deliver) timeout (fun result =>
      Finished
        match connection_error result with
        | Some e => Unexpected e
        | None =>
            match blocks result with
            | [block] =>
                match terminal block with
                | terminal_error =>
                    Unexpected (MkProtocolError (txt "tmux refused to change output for " ++ pane) replied)
                | terminal_end => Value tt
                end
            | _ =>
                Unexpected (MkProtocolError (txt "tmux returned " ++ dec (N.of_nat (length (blocks result))) ++
                  txt " reply blocks for one refresh") written)
            end
        end).

(** * The range over notifications *)

Record NotificationRange := MkRange { batch : list Notification; index : nat }.

Definition events : NotificationRange := MkRange [] 0.

(** [next]: the next of the batch, or the first of the batch that [wait_for_notifications]
    answers before the deadline. *)
Definition next (r : NotificationRange) (late : bool) (waited : list Notification) :
    option Notification * NotificationRange :=
  match batch r !! index r with
  | Some n => (Some n, MkRange (batch r) (S (index r)))
  | None =>
      if late then (None, r)
      else match waited with
           | [] => (None, MkRange [] 0)
           | n :: _ => (Some n, MkRange waited 1)
           end
  end.

(** A loop over the range: what [advance] reads until there is nothing, the batches waited
    for as they come; after the last one the deadline has passed. *)
Fixpoint loop_over (fuel : nat) (r : NotificationRange) (batches : list (list Notification)) :
    list ParsedNotification :=
  match fuel with
  | O => []
  | S fuel =>
      let needs := match batch r !! index r with Some _ => false | None => true end in
      let '(n, r) := next r (bool_decide (batches = [])) (hd [] batches) in
      match n with
      | Some n => parse n :: loop_over fuel r (if needs then tl batches else batches)
      | None => []
      end
  end.

(** * Runs *)

Inductive Move :=
  | Asked (r : expected CommandFailure EndpointVersion)
  | Drawn (marker : text)
  | Seeded (r : expected ProtocolError BoundarySeed)
  | Spawned (failure : option ProtocolError)
  | Started (what : option text)
  | Became (ready : bool) (fatal : option ProtocolError)
  | Executed (group : list (list text)) (r : ControlRequestResult)
  | WasShutDown
  | Destroyed.

(** How a program ends, given everything it is answered. *)
Fixpoint plays (p : Setup) (t : list Move) : option (expected ProtocolError unit) :=
  match p, t with
  | Finished r, [] => Some r
  | AskEndpoint _ _ _ k, Asked r :: t => plays (k r) t
  | DrawMarker k, Drawn m :: t => plays (k m) t
  | DrawSeed k, Seeded r :: t => plays (k r) t
  | SpawnClient _ k, Spawned e :: t => plays (k e) t
  | StartWorkers _ _ k, Started w :: t => plays (k w) t
  | AwaitStartup _ k, Became ready fatal :: t => plays (k ready fatal) t
  | Execute group _ k, Executed group' r :: t => if bool_decide (group = group') then plays (k r) t else None
  | ShutDown _ k, WasShutDown :: t => plays k t
  | Destroy k, Destroyed :: t => plays k t
  | _, _ => None
  end.

(** * Theorems *)

Definition accepted_reply (result : ControlRequestResult) : Prop :=
  connection_error result = None /\ first_refused result = false.

(** The releases a client is spawned for. *)
Definition attachable (e : EndpointVersion) : Prop :=
  unbounded (endpoint_version e) = false /\ version_ltb (endpoint_version e) kMinimumSupported = false /\
  (live e = true -> version_ltb (endpoint_version e) (since control_mode) = false).

(** Whether what a run leaves behind is nothing: no client, or one taken down last. *)
Definition taken_down (t : list Move) : Prop :=
  Spawned None ∈ t -> last t = Some WasShutDown \/ last t = Some Destroyed.

Definition no_request (t : list Move) : Prop := forall group r, Executed group r ∉ t.

Lemma has_request group r t (P : Prop) : Executed group r ∈ t -> no_request t -> P.
Proof. intros H Hn. by apply Hn in H. Qed.

Lemma demand_plays options group otherwise p t r :
  plays (demand options group otherwise p) t = Some r ->
  exists result rest, t = Executed group result :: rest /\
    (accepted_reply result /\ plays p rest = Some r \/
     ~ accepted_reply result /\ rest = [WasShutDown] /\
     r = Unexpected (default otherwise (connection_error result))).
Proof.
  unfold demand. destruct t as [|[] t]; try done. cbn [plays]. case_bool_decide; [|done]. subst.
  intros H. exists r0, t. split; [done|]. unfold accepted_reply.
  destruct (connection_error r0) as [e|]; [rewrite bool_decide_true in H by done | rewrite bool_decide_false in H by by intros []].
  2: destruct (first_refused r0); cbn [orb] in H.
  3: by left.
  1-2: right; destruct t as [|[] t]; try done; destruct t; try done; injection H as <-; split; [naive_solver | done].
Qed.

Definition opened (options : ConnectionOptions) (e : EndpointVersion) (marker : text) (rest : list Move) : Prop :=
  exists fence layouts, rest = fence ++ [Executed layout_group layouts] /\ accepted_reply layouts /\
    if live e then exists f, fence = [Executed (fence_group (token e) marker) f] /\ accepted_reply f else fence = [].

Lemma settle_plays options e marker t r :
  plays (settle options e marker) t = Some r ->
  match r with
  | Value _ => exists fatal rest, t = Became true fatal :: rest /\ opened options e marker rest
  | Unexpected f => last t = Some WasShutDown /\ (no_request t -> error_delivery f = not_started)
  end /\ forall failure, Spawned failure ∉ t.
Proof.
  unfold settle. destruct t as [|[] t]; try done. cbn [plays]. destruct ready.
  2:{ destruct t as [|[] t]; try done. destruct t; [|done]. intros [= <-]. split; [done|].
      intros f. rewrite !elem_of_cons, elem_of_nil. naive_solver. }
  assert (forall t r, plays (demand options layout_group layouts_error (Finished (Value tt))) t = Some r ->
    (exists layouts, t = [Executed layout_group layouts] /\ accepted_reply layouts /\ r = Value tt) \/
    (exists layouts f, t = [Executed layout_group layouts; WasShutDown] /\ r = Unexpected f)) as Hlay.
  { intros t0 r0 H. apply demand_plays in H as (result & rest & -> & [[Ha H]|(Ha & -> & ->)]); [left|right; eauto].
    destruct rest; [|done]. injection H as <-. eauto. }
  destruct (live e) eqn:Hl.
  - intros H. apply demand_plays in H as (fence & rest & -> & [[Ha H]|(Ha & -> & ->)]).
    + apply Hlay in H as [(layouts & -> & Hla & ->)|(layouts & f & -> & ->)].
      * split; [|intros f; rewrite !elem_of_cons, elem_of_nil; naive_solver].
        exists fatal, [Executed (fence_group (token e) marker) fence; Executed layout_group layouts]. split; [done|].
        exists [Executed (fence_group (token e) marker) fence], layouts. rewrite Hl. eauto.
      * split; [|intros f'; rewrite !elem_of_cons, elem_of_nil; naive_solver]. split; [done|].
        eapply has_request. right. left.
    + split; [|intros f; rewrite !elem_of_cons, elem_of_nil; naive_solver]. split; [done|].
      eapply has_request. right. left.
  - intros H. apply Hlay in H as [(layouts & -> & Hla & ->)|(layouts & f & -> & ->)].
    + split; [|intros f; rewrite !elem_of_cons, elem_of_nil; naive_solver].
      exists fatal, [Executed layout_group layouts]. split; [done|]. exists [], layouts. by rewrite Hl.
    + split; [|intros f'; rewrite !elem_of_cons, elem_of_nil; naive_solver]. split; [done|].
      eapply has_request. right. left.
Qed.

Lemma check_options_not_started options e : check_options options = Some e -> error_delivery e = not_started.
Proof.
  unfold check_options. repeat (case_bool_decide; [by intros [= <-]|]).
  destruct (_ || _); [by intros [= <-]|]. destruct (_ || _)%Z; [by intros [= <-]|].
  match goal with |- (if ?b then _ else _) = _ -> _ => destruct b end; [by intros [= <-] | done].
Qed.

(** C29: Opening a connection is all or nothing.  A connection that opened has its options checked
    and the endpoint's release known and allowed.  When a daemon answered for that release, the
    daemon attached to answered for the same one before anything else, and it agreed to the
    layouts asked for; when none answered, the release is the executable's own, and whatever
    daemon the client then meets is not asked again.  No client is spawned before the release is known to be safe for one.  A failure
    leaves no client behind, and says nothing was started unless a request was made. *)
Theorem connect_outcome options t r :
  plays (connect options) t = Some r ->
  match r with
  | Value _ =>
      check_options options = None /\
      exists e marker seed fatal rest,
        t = [Asked (Value e); Drawn marker; Seeded (Value seed); Spawned None; Started None; Became true fatal] ++ rest /\
        attachable e /\ opened options e marker rest
  | Unexpected f => taken_down t /\ (no_request t -> error_delivery f = not_started)
  end /\
  forall failure, Spawned failure ∈ t -> exists e, Asked (Value e) ∈ t /\ attachable e.
Proof.
  unfold connect. destruct (check_options options) as [e0|] eqn:Hopt.
  { destruct t; [|done]. intros [= <-]. split; [|intros f; by intros ?%elem_of_nil]. split; [by intros ?%elem_of_nil|].
    intros _. by eapply check_options_not_started. }
  destruct t as [|[answer| | | | | | | |] t]; try done. cbn [plays].
  assert (forall t f, plays (Finished (Unexpected f)) t = Some r -> t = [] /\ r = Unexpected f) as Hfin.
  { intros [|??] f; [by intros [= <-] | done]. }
  assert (forall before (f : ProtocolError), Spawned None ∉ before -> error_delivery f = not_started ->
    taken_down before /\ (no_request before -> error_delivery f = not_started)) as Hnone by (intros; split; [by intros ?|done]).
  destruct answer as [e|e].
  2:{ intros [-> ->]%Hfin. split; [apply Hnone; [|done]|intros f]; rewrite list_elem_of_singleton; done. }
  pose proof (proj1 (require_supported_spec e kMinimumSupported)) as Hsup.
  destruct (require_supported e kMinimumSupported) as [[]|f].
  2:{ intros [-> ->]%Hfin. split; [apply Hnone; [|done]|intros f']; rewrite list_elem_of_singleton; done. }
  destruct (proj1 Hsup eq_refl) as [Hu Hmin].
  destruct (live e && version_ltb (endpoint_version e) (since control_mode)) eqn:Hfloor.
  { intros [-> ->]%Hfin. split; [apply Hnone; [|done]|intros f]; rewrite list_elem_of_singleton; done. }
  assert (attachable e) as Hatt.
  { split_and!; [done..|]. intros Hl. by rewrite Hl in Hfloor. }
  intros H. split; [|intros failure _; exists e; split; [left | done]].
  destruct t as [|[|marker| | | | | | |] t]; try done. cbn [plays] in H.
  destruct t as [|[| |[seed|f]| | | | | |] t]; try done; cbn [plays] in H.
  2:{ apply Hfin in H as [-> ->]. apply Hnone; [|done]. rewrite !elem_of_cons, elem_of_nil. naive_solver. }
  destruct t as [|[| | |[f|]| | | | |] t]; try done; cbn [plays] in H.
  { apply Hfin in H as [-> ->]. apply Hnone; [|done]. rewrite !elem_of_cons, elem_of_nil. naive_solver. }
  destruct t as [|[| | | |[what|]| | | |] t]; try done; cbn [plays] in H.
  { destruct t as [|[] t]; try done. apply Hfin in H as [-> ->]. split; [|done]. intros _. by right. }
  apply settle_plays in H as [H Hno]. destruct r as [u|f].
  - split; [done|]. destruct H as (fatal & rest & -> & Hop). by exists e, marker, seed, fatal, rest.
  - destruct H as [Hlast Hd]. split.
    + intros _. left. by destruct t.
    + intros Hn. apply Hd. intros group r Hin. apply (Hn group r). by do 5 right.
Qed.

(** The batches up to the first empty one. *)
Fixpoint until_empty (batches : list (list Notification)) : list (list Notification) :=
  match batches with
  | [] | [] :: _ => []
  | b :: rest => b :: until_empty rest
  end.

Lemma loop_over_spec fuel b i batches :
  length (skipn i b) + length (concat (until_empty batches)) < fuel ->
  loop_over fuel (MkRange b i) batches = parse <$> (skipn i b ++ concat (until_empty batches)).
Proof.
  revert b i batches. induction fuel as [|fuel IH]; intros b i batches Hf; [lia|].
  cbn [loop_over]. unfold next. cbn [batch index]. destruct (b !! i) as [n|] eqn:Hn.
  - rewrite (drop_S b n i Hn) in *. cbn [length app fmap list_fmap] in *. f_equal. apply IH. lia.
  - assert (skipn i b = []) as -> by (apply drop_ge, lookup_ge_None; done). cbn [length app] in *.
    destruct batches as [|[|n waited] batches]; cbn [hd tl until_empty concat] in *.
    + by rewrite bool_decide_true.
    + by rewrite bool_decide_false.
    + rewrite bool_decide_false by done. cbn [fmap list_fmap app] in *. f_equal.
      cbn [length] in Hf. rewrite length_app in Hf.
      rewrite (IH (n :: waited) 1 batches); change (skipn 1 (n :: waited)) with waited; [done | lia].
Qed.

(** A loop over the events sees every notification once.  It yields what each wait answered,
    in order and read one by one, until a wait answers nothing or the deadline passes; and it
    ends there. *)
Theorem events_in_order batches fuel :
  length (concat (until_empty batches)) < fuel ->
  loop_over fuel events batches = parse <$> concat (until_empty batches).
Proof. intros H. by apply loop_over_spec. Qed.

(** The output of a pane changes only as tmux confirms.  The call succeeds when the one
    reply to its one command is not an error; where output was never asked for, or no pane is
    named, nothing is sent; a failure of the connection is reported as it is. *)
Theorem pane_output_outcome options pane deliver timeout t r :
  plays (set_pane_output options pane deliver timeout) t = Some r ->
  (r = Value tt <->
   exists block result, t = [Executed (refresh_group pane deliver) result] /\ connection_error result = None /\
     blocks result = [block] /\ terminal block = terminal_end) /\
  (t = [] <-> pane_output options = false \/ pane = []) /\
  (t = [] -> exists e, r = Unexpected e /\ error_delivery e = not_started) /\
  (forall result e, t = [Executed (refresh_group pane deliver) result] -> connection_error result = Some e -> r = Unexpected e).
Proof.
  unfold set_pane_output. destruct (pane_output options); cbn [negb].
  2:{ destruct t; [|done]. intros [= <-]. split_and!; [naive_solver.. | by eexists | done]. }
  case_bool_decide as Hp.
  { destruct t; [|done]. intros [= <-]. split_and!; [naive_solver.. | by eexists | done]. }
  destruct t as [|[] t]; try done. cbn [plays]. case_bool_decide; [|done]. subst. destruct t; [|done].
  intros [= <-]. split_and!; [|naive_solver|done|].
  - destruct (connection_error r0) as [e|] eqn:He; [naive_solver congruence|].
    destruct (blocks r0) as [|b [|]] eqn:Hb; try naive_solver congruence.
    destruct (terminal b) eqn:Hterm; [|naive_solver congruence]. split; [intros _; by exists b, r0 | done].
  - intros result e [= ->] ->. done.
Qed.

(** * The theorems at concrete inputs *)

Definition attached_endpoint : EndpointVersion := MkEndpoint true (MkVersion 3 8 0 false false 0) (txt "3.8").
Definition accepting_result : ControlRequestResult :=
  MkResult [MkControlBlock 1 2 terminal_end [] [] [] false 0] None.
Definition opening : list Move :=
  [Asked (Value attached_endpoint); Drawn (txt "m"); Seeded (Value sample_seed); Spawned None; Started None;
   Became true None; Executed (fence_group (txt "3.8") (txt "m")) accepting_result;
   Executed layout_group accepting_result].

Lemma connect_outcome_witness : opened sample_options attached_endpoint (txt "m") (skipn 6 opening).
Proof.
  destruct (connect_outcome sample_options opening (Value tt)) as [[_ H] _]; [by vm_compute|].
  destruct H as (e & marker & seed & fatal & rest & [= <- <- <- <- <-] & _ & H). exact H.
Defined.

Lemma events_in_order_witness :
  loop_over 10 events [[MkNotification (txt "%exit"); MkNotification (txt "%window-add @1")]; [MkNotification (txt "%exit")]; []] =
  parse <$> [MkNotification (txt "%exit"); MkNotification (txt "%window-add @1"); MkNotification (txt "%exit")].
Proof. apply (events_in_order [[_; _]; [_]; []] 10). cbn. lia. Defined.

Lemma pane_output_outcome_witness :
  (Value tt : expected ProtocolError unit) = Value tt <->
  exists block result, [Executed (refresh_group (txt "%1") true) accepting_result] =
      [Executed (refresh_group (txt "%1") true) result] /\ connection_error result = None /\
    blocks result = [block] /\ terminal block = terminal_end.
Proof.
  apply (pane_output_outcome sample_options (txt "%1") true 1000 [Executed (refresh_group (txt "%1") true) accepting_result] (Value tt)).
  by vm_compute.
Defined.
